(* ===== verification/_CoqProject ===== *)
-Q . S2P
Prelude.v
JsNumber.v
JsString.v
JsValue.v
Completion.v
Identity.v
Epoch.v
Ledger.v
LedgerInv.v
LedgerConc.v
LedgerTheorems.v
Budget.v
BudgetTheorems.v
Numbers.v
Unicode.v
Utf8Stream.v
Bytes.v
Text.v
Collections.v
Owner.v
OwnerInv.v
OwnerTheorems.v
Lineage.v
Ordering.v
LineageTheorems.v
Barrier.v
BarrierTheorems.v
Regex.v
Destination.v
DestinationTheorems.v
Boundary.v
BoundaryTheorems.v
Uri.v
ActionRoutes.v
ActionRoutesTheorems.v
Router.v
RouterTheorems.v
Data.v
Domain.v
DomainTheorems.v
Digits.v
Codec.v
CodecTheorems.v
Json.v
Scan.v
Jsonl.v
DataFacts.v
JsonCodec.v
JsonCodecTheorems.v
JsonEncodeTheorems.v
JsonTotal.v
JsonValue.v
JsonValueTheorems.v
JsonlCodec.v
SqlLedger.v
SqlLedgerRefine.v
SqlValues.v
SqlQueries.v
FileLedger.v
FileLedgerTheorems.v
Html.v
HtmlTheorems.v
Form.v
Multipart.v
WebSocket.v
HtmxGuard.v
DateTime.v
FormTheorems.v
FixtureQueue.v
Coordination.v
Contexts.v
ContextTheorems.v
CoordinationTheorems.v
Streams.v
StreamTheorems.v
StreamLines.v
Callable.v
Arrays.v
ArrayTheorems.v
ArrayPaths.v
