(* ===== verification/Prelude.v ===== *)
(** * Verification library of the can-lang TypeScript runtime

    can-lang compiles to TypeScript that runs on the modules of [src/runtime/].
    This library models the modules that carry the runtime's own guarantees and
    proves them.  Definitions keep the names of the source.

    ** Parts

    - Values.  [JsNumber] (binary64 numbers that matter here: integers rounded to
      53 bits, [Number.isSafeInteger]), [JsString] (UTF-16 strings, decimal
      rendering, [JSON.stringify] of strings, lookup in a plain object with its
      inherited members), [JsValue] (values of type [unknown]), [Completion]
      ([completion.ts], [failure.ts]: ok, domain and standard completions, and
      bodies that throw).
    - Token ledger.  [Identity] ([outbound/identity.ts]), [Epoch]
      ([outbound/epoch.ts]), [Ledger] ([outbound/ledger.ts]): one Definition
      [*_apply] per operation, the compare-and-set loop [attempts] /
      [runTransaction], and the class [LedgerStore] through which the operations see
      a store whose other writers may act between any load and commit.  [LedgerInv]
      holds the accounting invariant and its preservation, [LedgerConc] the
      interleavings, [LedgerTheorems] the properties, [Budget] and [BudgetTheorems]
      the guarded dispatch of [ai/budget.ts] (a program whose nodes are its awaits).
    - Ownership.  [Owner] ([owner-core.ts]): scopes, resources and leases, closing,
      owned groups, guarded callbacks, drains; [OwnerInv] and [OwnerTheorems].
    - Assertions.  [Lineage] ([assert/lineage.ts]: invocation frames and their
      order), [Ordering] (the class of comparison functions), [LineageTheorems],
      [Barrier] ([assert/barrier.ts]: frame phases, the request heap, the queued
      microtask), [BarrierTheorems].  The barrier is proved against the class
      [Comparator], which the lineage's comparison implements.
    - Transport.  [Boundary] ([transport/request-budget.ts],
      [transport/operation-budget.ts]) and [BoundaryTheorems].
    - Destinations.  [Regex] (patterns, matched by derivatives, with the language
      they denote), [Destination] ([outbound/destination-policy.ts]) and
      [DestinationTheorems].
    - Routes.  [Uri] ([decodeURIComponent], [encodeURIComponent]), [ActionRoutes]
      ([platform/action-routes.ts]: templates, the compiled table, dispatch by
      specificity, the URL builder), and
      [ActionRoutesTheorems]; [Router] ([platform/router.ts]: the table of exact
      routes in front of the action table, generations, revocation of requests) and
      [RouterTheorems].
    - Domain runtime.  [Data] ([data.ts]: records and arrays over a heap of objects),
      [DataFacts] (what was built reads back, heaps only grow), [Domain]
      ([domain-core.ts]: validation of the plan, the iterative check of a payload,
      occurrences) and [DomainTheorems].
    - Codec.  [Digits] (digit texts), [Codec] ([codec/budget.ts],
      [codec/numbers.ts]) and [CodecTheorems]; [Json] (the language's [JSON.parse] and
      [JSON.stringify] on UTF-16 text); [Scan] ([codec/duplicates.ts]); [Jsonl] (the framer of [codec/jsonl.ts]); [JsonCodec]
      ([codec/project.ts], [codec/document.ts], [encodeJSON] and [decodeJSON] of
      [codec/json.ts]) with [JsonCodecTheorems], [JsonEncodeTheorems],
      [JsonTotal]; [JsonValue] ([codec/value.ts]: documents as values of the
      language's JSON type) and [JsonValueTheorems]; [JsonlCodec] (records of JSON
      lines and [consume]).
    - Values of the language.  [Numbers] ([primitive.ts], [number.ts]), [Unicode]
      (UTF-8 and UTF-16), [Bytes] ([bytes.ts], with the heap of byte arrays that
      host code can reach), [Text] ([text.ts]), [Collections]
      ([collections/map.ts], [collections/set.ts]).

    - Functions and arrays.  [Callable] ([callable.ts]: registration, captures, the
      synchronous and asynchronous workers, direct and curried calls, and their
      properties); [Arrays] ([collections/array.ts]: the operations over a world that every callback may change), [ArrayTheorems] (with
      the comparator of the sorting operations) and [ArrayPaths] (the worker fast
      paths next to the plain path).
    - Coordination.  [Coordination] ([coordination.ts]: settled, all, any and race
      over arrivals in any order, the owned group they publish to, the arms) and
      [CoordinationTheorems], over the groups of [Owner].
    - Assertion contexts.  [FixtureQueue] ([assert/queue.ts]: the rows of fixture
      tables), [Contexts] ([assert/context.ts]: views, links, evidence, fixtures
      released by the barrier, the contexts of a coordination) and [ContextTheorems].
      A context drives the operations of [Lineage], [Barrier] and [FixtureQueue].
    - Streams.  [Utf8Stream] (the streaming [TextDecoder]), [Streams]
      ([transport/stream/]: cells, limits, byte, line and event pulls, drains and
      writes), [StreamTheorems] and [StreamLines].
    - Stores of the ledger.  [SqlLedger] ([outbound/sql-ledger.ts],
      [ledger-schema.ts]: tables with their checks, keys and collations; load, decode
      and rewrite), and [SqlLedgerRefine]; [FileLedger]
      ([outbound/file-ledger.ts]: one file operation per step, the lock file, the
      temporary file and its rename) and [FileLedgerTheorems].  Both implement what
      [Ledger] asks of its store, under the faults and interleavings of their own.
    - SQL.  [SqlValues] ([platform/sql/]: parameters and rows, failures, options, the
      classification of native failures per dialect) and [SqlQueries] (descriptors and
      templates, the query operations, the queue of SQLite mutations as a step
      function, the opening and closing of pools, transactions), over a native client
      that may answer anything; the transactions over the class
      [TransactionalDriver] of what the driver documents.
    - HTML.  [Html] ([platform/html.ts]: tokens, attributes, swap policies, the
      element builder) and [HtmlTheorems] (with markup trees and a reference reader
      of them).
    - Forms.  [Form] ([platform/form.ts]: the strict reading of a body,
      classification, row analysis, the decoders and the checked names) and
      [FormTheorems] (which begins with: what the strict check reads is what
      [URLSearchParams] reads).
    - Bodies, sockets and the page.  [Multipart] ([transport/media.ts],
      [platform/multipart.ts]: media types and the parser of multipart bodies),
      [WebSocket] ([platform/websocket.ts]: the event pump as a state machine, the
      registry of sessions, the hooks and the stop of a server), [HtmxGuard]
      ([platform/htmx-guard.ts]: the verdicts on a submission, a response and a
      swap, and the listeners between them), each with its properties.

    - Times.  [DateTime] ([platform/datetime.ts]: instants, the language's calendar,
      the resolution of a civil time in a zone), with its properties.

    ** How state and interleaving are modelled

    Objects with identity are entries of lists (or maps) of an explicit state, named
    by their index.  A synchronous section between two awaits is one function of the
    state; what an await waits for is the guard of the section after it.  A move type
    per component lists everything that can happen next, and properties quantify
    over every list of moves.  Code that throws returns [res] or [run]; in the state
    monad of [Owner] the changes made before a throw stay.

    ** What the theorems show

    - Ledger: conservation of tokens (committed and held tokens of a row are the sums
      over its invocations, within the limit), linearizability of the
      compare-and-set loop, convergence under bounded contention, the life of an
      invocation, the exact decision of a reservation, idempotent retries, exact
      accounting of settlements, quarantine after a breach, epochs that tile time
      and the one transition that does not, health totals.
    - Dispatch: one dispatch per invocation, and provider calls only behind a fence.
    - Ownership: lease accounting, closing excludes use, launches are all or nothing.
    - Assertions: invocations are totally ordered and participants keep their written
      order; the barrier counts its blocking frames, settles each request once and
      releases exactly the first pending one when nothing else can run.
    - Transport: a boundary has one outcome, one escalation and one late record.
    - Destinations: the network floor on IPv4 is CIDR membership, admission is first
      match above the floor, redirects stay inside the policy, IPv6 literals are only
      stopped by the rules.
    - Routes: dispatch is the order-free choice of the most specific route that fits,
      a URL built over segments that a request can spell comes back to its action, integer captures are int64, a compiled
      table has no ambiguous pair; a router runs one admitted handler or answers a
      fixed response and revokes the request.
    - Domain: the payload check ends on cyclic data and decides the declared types,
      validated plans are closed, occurrences escape only within declared types.
    - Codec: encoding and decoding are inverse, the preflight charges exactly the bytes
      written, decoding ends in a typed value or a codec issue on any bytes, integer
      tokens are accepted by their exact rational value, the duplicate scanner agrees
      with a walk of the parsed document, framing and consuming up to 8 MiB do not
      depend on how the bytes are cut.
    - Functions and arrays: operations visit elements in order and stop where they
      must, a failing fold too; the paths of honest integer and leaf workers agree with
      the plain path, and the batch runner of immutable maps with the fold key by key,
      up to the tokens of the maps; sorting is stable, a registered worker receives its captures and arguments in place.
    - Coordination: the selected outcome is the specified one for every order of
      arrivals, and its resources reach the parent once.
    - Contexts: a decided coordination holds later fixtures back, closing an assertion
      reports every unused row and link, every fixture row is given out once.
    - Streams: reads deliver exactly the bytes of the source within their limits, lines
      that fit the limit deliver the text whatever the chunks are; where a malformed end
      is reported, and a line over the limit, depends on the chunks.
    - Stores: sessions over SQL, of every operation but the health report, answer as
      sessions over memory do under the same faults, when the database compares texts
      exactly; transitions at or before the anchor of the current epoch are left out
      (without an anchor of their own they are never committed over SQL), and so are
      fences of names that every object inherits;
      commits to the file are serial and exclusive as long as no lock turns stale, and a
      stale lock can lose an update.
    - HTML: every node built keeps the content rules at every depth, and the text of an
      element reads back to its tag, attributes and children.
    - Forms: a wire record is answered exactly for the submissions of valid forms within
      the node budget, and larger ones are refused (for bodies without a question mark
      in front, which is lost); a rejection keeps every known pair of the text.
    - JSON values: the encoder accepts exactly the trees of the JSON type and writes
      their document, and the decoder reads it back with integers and floats kept
      apart.
    - SQL: typed parameters come back from any representation of the dialect and
      accepted rows are typed; statements bind every parameter at its site and
      answers keep to their bound; pools are handed out connected and checked or their
      client is closed; queued SQLite mutations report their own count, which a returning
      insert outside the queue can replace; over a driver that keeps its documentation
      transactions are all or nothing and say which, or name the attempt.
    - Bodies, sockets and the page: a multipart body reads back to its parts, when a
      body can carry them (no semicolon in a name), except that a file that begins with
      line breaks loses them; the event pump answers
      every take once, delivers what was pushed in order and without a gap, within its
      bound, and fails when it is overrun, and stopping
      a server ends its sessions and no others; a swap that the guard lets pass fills
      the node its context was submitted for.
    - Times: the calendar is consistent, and a civil time is resolved to the first or
      the last instant at which the clocks of the zone show it, or to none.
    - Values: exact integer arithmetic, round trips of decimal text, UTF-8, hex,
      base64 and scalars, split and join, isolation of owned bytes, maps and sets as
      finite maps and sets, batches as folds.

    ** Bounds and fuel

    [attempts] takes the 64 rounds of the code.  [dec_of_N] has one unit of fuel per
    binary digit, [inside_from] one per scope ever made (a chain of parents is no
    longer), [sift_up] and [sift_down] one per element of the heap, splitting and
    searching of text one per character, [decodeURIComponent] one per character.
    [accept_loop] takes a bound computed from the heap ([accepts_terminates]).
    A session of the SQL store has one fault per operation, a run of the file store one
    move per step, and the retries of its lock are the 200 of the code.
    [parse_fuel] is twice the length of the text and one ([parse_stable]: more changes
    nothing), [scan_loop] has one unit per code unit.  [visit_fuel] is 66, two more
    than [maxDepth]: the budget refuses deeper calls first, which
    [encode_ends_within_budget] and [decoded_is_typed] prove by excluding the
    out-of-fuel fault.  Each is enough: the theorems about these functions state
    results, not conditional ones.

    ** Parameters

    SHA-256, minted UUIDs, the clock, the ledger store, the document parser, the
    WHATWG [URL] class, [toLowerCase], the shortest decimal text of a float, the
    collation of a database, the replacing UTF-8 decoder of [URLSearchParams] and the
    text of a document on disk are arguments of the definitions that use them.  Of the decimal text the round trip of
    JSON assumes that the floats of the encoded value read back.

    The offset of a zone at every instant and the texts of [Intl.DateTimeFormat] are
    parameters of the times; the resolution assumes offsets of whole seconds below a
    day and at most one change of the offset within a day of the civil time.
    What a node is when an event comes (connected or not) and what the getters of
    htmx's objects return are arguments of the guard's events; the native sockets
    appear as the calls made on them.  The answers of the native SQL client, what its [begin] does (with the laws of
    [TransactionalDriver], which [demo_driver] satisfies) and the occurrence that
    captures a native value are parameters of the SQL definitions.

    ** Not modelled

    The compiler is written in Go.  Generated code ([catalogue.ts]), vendored code,
    the drivers of hosts (Bun, node, browsers, S3, files, processes), the server and
    the handshakes of its sockets, the transport around [fetch], and the shapes of provider requests are
    left out: they are calls into host code whose behaviour is not in the source.  So
    are the parsers of TOML, YAML and JSON5, which are Bun's.  Of modelled parts, the
    adapter that mounts actions on the router, and for ownership the completeness of
    drains and the admission of a closing scope, are not proved. *)
From stdpp Require Import base gmap fin_maps list strings.
From Stdlib Require Import ZArith Lia.

#[global] Open Scope Z_scope.

(** ** The result of synchronous JavaScript code that may throw

    Every exception the modelled code throws on purpose is a [TypeError] (or,
    for resources, a resource-state failure) that carries a message. *)
Inductive res (A : Type) : Type :=
| Ret (a : A)
| Throw (msg : string).
Arguments Ret {A} a.
Arguments Throw {A} msg.

Definition res_bind {A B} (m : res A) (f : A -> res B) : res B :=
  match m with
  | Ret a => f a
  | Throw msg => Throw msg
  end.

Definition is_ret {A} (m : res A) : bool :=
  match m with
  | Ret _ => true
  | Throw _ => false
  end.

Declare Scope res_scope.
Delimit Scope res_scope with res.
Notation "'let!' x ':=' c1 'in' c2" := (res_bind c1 (fun x => c2))
  (at level 10, x pattern, c1 at level 100, c2 at level 200) : res_scope.
#[global] Open Scope res_scope.

(** [guard_throw b msg k] is [if (!b) throw new TypeError(msg); k]. *)
Definition guard_throw {A} (b : bool) (msg : string) (k : res A) : res A :=
  if b then k else Throw msg.

Lemma res_bind_ret {A B} (m : res A) (f : A -> res B) b :
  res_bind m f = Ret b -> exists a, m = Ret a /\ f a = Ret b.
Proof. destruct m; simpl; [eauto | discriminate]. Qed.

Lemma guard_throw_ret {A} b msg (k : res A) a :
  guard_throw b msg k = Ret a -> b = true /\ k = Ret a.
Proof. destruct b; simpl; [auto | discriminate]. Qed.

(** [l.map(f)] where [f] may throw. *)
Fixpoint map_res {A B} (f : A -> res B) (l : list A) : res (list B) :=
  match l with
  | [] => Ret []
  | a :: rest => let! b := f a in let! bs := map_res f rest in Ret (b :: bs)
  end.

(** ** Tactics *)

(** Split every boolean conjunction, disjunction-free test and monadic bind
    among the hypotheses. *)
Ltac split_bools :=
  repeat match goal with
  | H : (_ && _)%bool = true |- _ => apply andb_true_iff in H; destruct H
  | H : (_ || _)%bool = false |- _ => apply orb_false_iff in H; destruct H
  | H : negb _ = true |- _ => apply negb_true_iff in H
  | H : negb _ = false |- _ => apply negb_false_iff in H
  | H : (_ <=? _) = true |- _ => apply Z.leb_le in H
  | H : (_ <=? _) = false |- _ => apply Z.leb_gt in H
  | H : (_ <? _) = true |- _ => apply Z.ltb_lt in H
  | H : (_ <? _) = false |- _ => apply Z.ltb_ge in H
  | H : (_ =? _) = true |- _ => apply Z.eqb_eq in H
  | H : (_ =? _) = false |- _ => apply Z.eqb_neq in H
  | H : bool_decide _ = true |- _ => apply bool_decide_eq_true in H
  | H : bool_decide _ = false |- _ => apply bool_decide_eq_false in H
  end.

Ltac inv_res :=
  repeat match goal with
  | H : res_bind _ _ = Ret _ |- _ => apply res_bind_ret in H; destruct H as (? & ? & H)
  | H : guard_throw _ _ _ = Ret _ |- _ => apply guard_throw_ret in H; destruct H as [? H]
  | H : Ret _ = Ret _ |- _ => first [injection H as H; subst | clear H]
  | H : Throw _ = Ret _ |- _ => discriminate H
  | H : Ret _ = Throw _ |- _ => discriminate H
  end.

(** Case analysis on the scrutinee of the first [match] of the goal or of a
    hypothesis; the workhorse for definitions that follow early returns. *)
Ltac case_goal :=
  match goal with
  | |- context [match ?x with _ => _ end] => destruct x eqn:?
  end.
Ltac case_hyp H :=
  match type of H with
  | context [match ?x with _ => _ end] => destruct x eqn:?
  end.

(** Lemmas that close the routine side goals of every component. *)
Create HintDb runtime.

(** ** Lists *)

Lemma map_res_in {A B} (f : A -> res B) l l' b :
  map_res f l = Ret l' -> b ∈ l' -> exists a, f a = Ret b.
Proof.
  revert l'. induction l as [|a l IH]; intros l'; cbn; [intros [= <-] Hb; inversion Hb |].
  intros H Hb. apply res_bind_ret in H as (b' & Ha & H). apply res_bind_ret in H as (bs & Hbs & H).
  injection H as <-. apply elem_of_cons in Hb as [->|Hb]; eauto.
Qed.


(** An element of a list with one more at its end. *)
Lemma lookup_snoc_cases {A} (l : list A) x i y :
  (l ++ [x]) !! i = Some y -> l !! i = Some y \/ (i = length l /\ y = x).
Proof.
  intros [Hi|[Hge Hi]]%lookup_app_Some; [by left | right].
  destruct (i - length l)%nat as [|k] eqn:Hk; [| done]. injection Hi as <-. split; [lia | done].
Qed.

(** ** Sums over finite maps

    The accounting invariants add one contribution per record of a map. *)
Section sums.
Context {K : Type} `{Countable K} {V : Type}.
Implicit Types (f : K -> V -> Z) (m : gmap K V).

Definition sum_map f m : Z := map_fold (fun k v acc => f k v + acc) 0 m.

Lemma sum_map_empty f : sum_map f ∅ = 0.
Proof. apply map_fold_empty. Qed.

Lemma sum_map_insert_new f m k v :
  m !! k = None -> sum_map f (<[k:=v]> m) = f k v + sum_map f m.
Proof.
  intros Hk. unfold sum_map.
  rewrite (map_fold_insert_L (fun k v acc => f k v + acc)); [done | intros; lia | done].
Qed.

Lemma sum_map_delete f m k v :
  m !! k = Some v -> sum_map f m = f k v + sum_map f (delete k m).
Proof.
  intros Hk. rewrite <- (insert_id m k v Hk) at 1. rewrite <- insert_delete_eq.
  by rewrite sum_map_insert_new by apply lookup_delete_eq.
Qed.

Lemma sum_map_insert_replace f m k v v' :
  m !! k = Some v -> sum_map f (<[k:=v']> m) = sum_map f m - f k v + f k v'.
Proof.
  intros Hk. rewrite <- insert_delete_eq, sum_map_insert_new by apply lookup_delete_eq.
  rewrite (sum_map_delete f m k v Hk). lia.
Qed.

Lemma sum_map_nonneg f m :
  (forall k v, m !! k = Some v -> 0 <= f k v) -> 0 <= sum_map f m.
Proof.
  induction m as [|k v m Hk IH] using map_ind; intros Hf.
  - rewrite sum_map_empty. lia.
  - rewrite sum_map_insert_new by done.
    pose proof (Hf k v (lookup_insert_eq m k v)).
    enough (0 <= sum_map f m) by lia. apply IH. intros k' v' Hk'.
    apply (Hf k'). rewrite lookup_insert_ne by congruence. done.
Qed.

Lemma sum_map_le f g m :
  (forall k v, m !! k = Some v -> f k v <= g k v) -> sum_map f m <= sum_map g m.
Proof.
  induction m as [|k v m Hk IH] using map_ind; intros Hf.
  - rewrite !sum_map_empty. lia.
  - rewrite !sum_map_insert_new by done.
    pose proof (Hf k v (lookup_insert_eq m k v)).
    enough (sum_map f m <= sum_map g m) by lia. apply IH. intros k' v' Hk'.
    apply (Hf k'). rewrite lookup_insert_ne by congruence. done.
Qed.

Lemma sum_map_ext f g m :
  (forall k v, m !! k = Some v -> f k v = g k v) -> sum_map f m = sum_map g m.
Proof.
  intros Hfg. apply Z.le_antisymm; apply sum_map_le; intros k v Hk; rewrite (Hfg k v Hk); lia.
Qed.

(** One record's contribution is at most the sum of all of them. *)
Lemma sum_map_member f m k v :
  m !! k = Some v -> (forall k' v', m !! k' = Some v' -> 0 <= f k' v') -> f k v <= sum_map f m.
Proof.
  intros Hk Hf. rewrite (sum_map_delete f m k v Hk).
  enough (0 <= sum_map f (delete k m)) by lia. apply sum_map_nonneg.
  intros k' v' [_ ?]%lookup_delete_Some. eauto.
Qed.
End sums.
