(* ===== verification/JsNumber.v ===== *)
(** * JavaScript numbers: safe integers and binary64 rounding

    The runtime counts tokens, milliseconds and versions in JavaScript numbers
    that it first checks with [Number.isSafeInteger].  An operand is therefore an
    integer, and every sum, difference, product and quotient of the source is
    rounded to 53 significant bits ([rnd], round half to even) the way a binary64
    operation rounds it.  Values of type [unknown] keep the whole binary64 format
    ([spec_float] of the Standard Library). *)
From stdpp Require Import base list.
From Stdlib Require Import ZArith Lia SpecFloat.
From S2P Require Import Prelude.

(** [Number.MAX_SAFE_INTEGER]. *)
Definition MAX_SAFE : Z := 2 ^ 53 - 1.

Definition is_safe (z : Z) : bool := (- MAX_SAFE <=? z) && (z <=? MAX_SAFE).

(** [rne n d] is [n / d] rounded to an integer, halves to even ([0 <= n], [0 < d]). *)
Definition rne (n d : Z) : Z :=
  let q := n / d in
  let r := n mod d in
  if 2 * r <? d then q
  else if d <? 2 * r then q + 1
  else if Z.even q then q else q + 1.

(** Rounding of an integer result to binary64 (no overflow below [2 ^ 1024],
    which sums and products of two safe integers never reach). *)
Definition rnd (z : Z) : Z :=
  let a := Z.abs z in
  if a <=? 2 ^ 53 then z
  else
    let e := Z.log2 a - 52 in
    Z.sgn z * (rne a (2 ^ e) * 2 ^ e).

Definition fadd (x y : Z) : Z := rnd (x + y).
Definition fsub (x y : Z) : Z := rnd (x - y).
Definition fmul (x y : Z) : Z := rnd (x * y).

(** [Math.floor(a / b)] for a nonnegative [a] and a positive [b]: the quotient is
    rounded to 53 bits before its floor is taken. *)
Definition fdiv_floor (a b : Z) : Z :=
  if a =? 0 then 0
  else
    let e0 := Z.log2 a - Z.log2 b in
    let below := if 0 <=? e0 then a <? b * 2 ^ e0 else a * 2 ^ (- e0) <? b in
    let e := (if below then e0 - 1 else e0) - 52 in
    if 0 <=? e then rne a (b * 2 ^ e) * 2 ^ e
    else rne (a * 2 ^ (- e)) b / 2 ^ (- e).

(** ** The integer value of a binary64 number *)

Definition num : Type := spec_float.

Definition num_to_Z (x : num) : option Z :=
  match x with
  | S754_zero _ => Some 0
  | S754_finite s m e =>
      let signed z := if s : bool then - z else z in
      if 0 <=? e then Some (signed (Zpos m * 2 ^ e))
      else if Zpos m mod 2 ^ (- e) =? 0 then Some (signed (Zpos m / 2 ^ (- e)))
      else None
  | _ => None
  end.

(** [Number.isSafeInteger(x) ? x : undefined]. *)
Definition safe_integer (x : num) : option Z :=
  match num_to_Z x with
  | Some z => if is_safe z then Some z else None
  | None => None
  end.

(** The binary64 number of an integer below [2 ^ 53] in absolute value. *)
Definition num_of_Z (z : Z) : num :=
  match z with
  | Z0 => S754_zero false
  | Zpos p => S754_finite false p 0
  | Zneg p => S754_finite true p 0
  end.

Example rnd_tie_even : rnd (2 ^ 53 + 1) = 2 ^ 53.
Proof. reflexivity. Qed.
Example rnd_tie_up : rnd (2 ^ 53 + 3) = 2 ^ 53 + 4.
Proof. reflexivity. Qed.
Example fdiv_floor_third : fdiv_floor (10 ^ 15) 3 = 333333333333333.
Proof. reflexivity. Qed.
Example num_half : num_to_Z (S754_finite false 1 (-1)) = None.
Proof. reflexivity. Qed.
Example num_ten : num_to_Z (S754_finite true 5 1) = Some (-10).
Proof. reflexivity. Qed.

(** ** Exactness lemmas *)

Lemma is_safe_spec z : is_safe z = true <-> - MAX_SAFE <= z <= MAX_SAFE.
Proof. unfold is_safe. rewrite andb_true_iff, !Z.leb_le. done. Qed.

Lemma is_safe_false z : is_safe z = false <-> z < - MAX_SAFE \/ MAX_SAFE < z.
Proof.
  rewrite <- not_true_iff_false, is_safe_spec. lia.
Qed.

Lemma rnd_small z : - 2 ^ 53 <= z <= 2 ^ 53 -> rnd z = z.
Proof.
  intros Hz. unfold rnd. destruct (Z.leb_spec (Z.abs z) (2 ^ 53)); [done | lia].
Qed.

Lemma rne_ge n d : 0 < d -> n / d <= rne n d.
Proof. intros Hd. unfold rne. repeat case_goal; lia. Qed.

Lemma rne_bound n d : 0 < d -> 2 * d * rne n d <= 2 * n + d.
Proof.
  intros Hd. pose proof (Z.div_mod n d ltac:(lia)) as Hdm.
  pose proof (Z.mod_pos_bound n d Hd). unfold rne.
  repeat case_goal; split_bools; nia.
Qed.

Lemma rne_exact q d : 0 < d -> rne (q * d) d = q.
Proof.
  intros Hd. unfold rne. rewrite Z.div_mul, Z.mod_mul by lia.
  destruct (Z.ltb_spec (2 * 0) d); lia.
Qed.

(** Rounding never brings a value back under [2 ^ 53]. *)
Lemma rnd_large z : 2 ^ 53 <= z -> 2 ^ 53 <= rnd z.
Proof.
  intros Hz. unfold rnd. rewrite Z.abs_eq by lia.
  destruct (Z.leb_spec z (2 ^ 53)) as [|Hbig]; [lia |].
  rewrite Z.sgn_pos, Z.mul_1_l by lia.
  pose proof (Z.log2_spec z ltac:(lia)) as [Hlo Hhi].
  assert (53 <= Z.log2 z) as Hlog by (apply Z.log2_le_pow2; lia).
  set (e := Z.log2 z - 52) in *.
  assert (0 < 2 ^ e) as He by (apply Z.pow_pos_nonneg; lia).
  assert (2 ^ 52 <= z / 2 ^ e) as Hq.
  { apply Z.div_le_lower_bound; [done |].
    rewrite <- Z.pow_add_r by lia. replace (e + 52) with (Z.log2 z) by lia. lia. }
  pose proof (rne_ge z (2 ^ e) He).
  assert (2 ^ 1 <= 2 ^ e) by (apply Z.pow_le_mono_r; lia). nia.
Qed.

Lemma is_safe_rnd z : 0 <= z -> is_safe (rnd z) = is_safe z.
Proof.
  intros Hz. destruct (Z.le_gt_cases z (2 ^ 53)).
  - by rewrite rnd_small by lia.
  - pose proof (rnd_large z ltac:(lia)) as Hl.
    assert (is_safe z = false) as -> by (apply is_safe_false; unfold MAX_SAFE; lia).
    apply is_safe_false. unfold MAX_SAFE. lia.
Qed.

Lemma rnd_safe_exact z : 0 <= z -> is_safe (rnd z) = true -> rnd z = z /\ z <= MAX_SAFE.
Proof.
  intros Hz Hs. rewrite is_safe_rnd in Hs by done. apply is_safe_spec in Hs.
  split; [apply rnd_small; unfold MAX_SAFE in *; lia | lia].
Qed.

Lemma fadd_exact x y : 0 <= x -> 0 <= y -> x + y <= MAX_SAFE -> fadd x y = x + y.
Proof. intros. apply rnd_small. unfold MAX_SAFE in *. lia. Qed.

Lemma fsub_exact x y : 0 <= x <= MAX_SAFE -> 0 <= y <= MAX_SAFE -> fsub x y = x - y.
Proof. intros. apply rnd_small. unfold MAX_SAFE in *. lia. Qed.

Lemma rnd_nonpos z : z <= 0 -> rnd z <= 0.
Proof.
  intros Hz. destruct (decide (z = 0)) as [->|]; [done |].
  unfold rnd. destruct (Z.leb_spec (Z.abs z) (2 ^ 53)); [done |].
  rewrite Z.sgn_neg by lia. set (e := Z.log2 (Z.abs z) - 52).
  assert (0 <= Z.log2 (Z.abs z) - 53) as Hlog.
  { enough (53 <= Z.log2 (Z.abs z)) by lia. apply Z.log2_le_pow2; lia. }
  assert (0 < 2 ^ e) by (apply Z.pow_pos_nonneg; lia).
  assert (0 <= Z.abs z / 2 ^ e) by (apply Z.div_pos; lia).
  pose proof (rne_ge (Z.abs z) (2 ^ e) ltac:(lia)). nia.
Qed.

(** [Math.floor(a / b)] on safe integers is the exact integer quotient: the
    rounding of the binary64 division never reaches the next integer. *)
Lemma fdiv_floor_exact a b : 0 <= a <= MAX_SAFE -> 0 < b -> fdiv_floor a b = a / b.
Proof.
  intros Ha Hb. unfold fdiv_floor.
  destruct (Z.eqb_spec a 0) as [->|Hnz]; [by rewrite Z.div_0_l by lia |].
  pose proof (Z.log2_spec a ltac:(lia)) as [Ha1 Ha2].
  pose proof (Z.log2_spec b ltac:(lia)) as [Hb1 Hb2].
  pose proof (Z.log2_nonneg b) as Hb0. pose proof (Z.log2_nonneg a) as Ha0.
  set (e0 := Z.log2 a - Z.log2 b) in *.
  match goal with |- context [if ?c then e0 - 1 else e0] => set (below := c) end.
  set (e := (if below then e0 - 1 else e0) - 52).
  assert (Z.log2 a <= 52) as Hlog.
  { enough (Z.log2 a < 53) by lia. apply Z.log2_lt_pow2; unfold MAX_SAFE in *; lia. }
  destruct (Z.leb_spec 0 e) as [Hpos|Hneg].
  - assert (e = 0) as He by (subst e; destruct below; lia).
    assert (Z.log2 b = 0) as Hlb by (subst e; destruct below; lia).
    rewrite Hlb in *. assert (b = 1) as -> by lia. rewrite He.
    change (1 * 2 ^ 0) with 1. rewrite Z.div_1_r. change (2 ^ 0) with 1.
    rewrite Z.mul_1_r. rewrite <- (Z.mul_1_r a) at 1. by rewrite rne_exact by lia.
  - set (p := 2 ^ (- e)). assert (0 < p) as Hp by (apply Z.pow_pos_nonneg; lia).
    assert (b < 2 * p) as Hbp.
    { assert (b < 2 ^ (Z.log2 b + 1)) as Hbb by (rewrite Z.add_1_r; lia).
      assert (Z.log2 b + 1 <= 1 + - e) as Hle by (subst e; destruct below; lia).
      change (2 * p) with (2 ^ 1 * 2 ^ (- e)). rewrite <- Z.pow_add_r by lia.
      eapply Z.lt_le_trans; [exact Hbb | apply Z.pow_le_mono_r; lia]. }
    pose proof (rne_ge (a * p) b Hb) as Hge.
    pose proof (rne_bound (a * p) b Hb) as Hle.
    pose proof (Z.div_mod a b ltac:(lia)) as Hdm.
    pose proof (Z.mod_pos_bound a b Hb) as Hr.
    set (q := a / b) in *. set (r := a mod b) in *. set (m := rne (a * p) b) in *.
    assert (q * p <= a * p / b) as Hqp by (apply Z.div_le_lower_bound; nia).
    symmetry. apply (Z.div_unique_pos m p q (m - p * q)); [| lia].
    split; [lia |]. destruct (decide (r = 0)) as [Hr0|Hr0].
    + assert (m = q * p) as ->; [| nia]. subst m.
      replace (a * p) with (q * p * b) by nia. by apply rne_exact.
    + assert (2 * b * m < 2 * b * ((q + 1) * p)) by nia. nia.
Qed.
