(* ===== verification/JsString.v ===== *)
(** * JavaScript strings and plain-object lookup

    A string is its sequence of UTF-16 code units.  The file also models the
    standard operations the runtime uses on strings (well-formedness, code
    points, decimal rendering, [JSON.stringify] of strings) and the property
    lookup [o[key]] of a plain object used as a map, which falls back to
    [Object.prototype]. *)
From stdpp Require Import base gmap list strings.
From Stdlib Require Import ZArith Lia Ascii.
From S2P Require Import Prelude.

Abbreviation jstr := (list N).

(** An ASCII literal as code units. *)
Definition js (s : string) : jstr := N_of_ascii <$> String.list_ascii_of_string s.

Definition code (c : ascii) : N := N_of_ascii c.

(** ** Character classes *)
Definition is_digit (c : N) : bool := (48 <=? c)%N && (c <=? 57)%N.
Definition is_upper (c : N) : bool := (65 <=? c)%N && (c <=? 90)%N.
Definition is_lower (c : N) : bool := (97 <=? c)%N && (c <=? 122)%N.
Definition is_alnum (c : N) : bool := is_digit c || is_upper c || is_lower c.

(** [[A-Za-z0-9._:-]] *)
Definition is_ident_char (c : N) : bool :=
  is_alnum c || (c =? 46)%N || (c =? 95)%N || (c =? 58)%N || (c =? 45)%N.

(** ** UTF-16 *)
Definition is_high_surrogate (c : N) : bool := (0xD800 <=? c)%N && (c <=? 0xDBFF)%N.
Definition is_low_surrogate (c : N) : bool := (0xDC00 <=? c)%N && (c <=? 0xDFFF)%N.
Definition is_surrogate (c : N) : bool := (0xD800 <=? c)%N && (c <=? 0xDFFF)%N.

(** [String.prototype.isWellFormed]: every surrogate belongs to a pair. *)
Fixpoint is_well_formed (s : jstr) : bool :=
  match s with
  | [] => true
  | c :: rest =>
      if is_high_surrogate c then
        match rest with
        | d :: rest' => if is_low_surrogate d then is_well_formed rest' else false
        | [] => false
        end
      else if is_low_surrogate c then false
      else is_well_formed rest
  end.

(** ** Decimal rendering of an integer ([String(n)] of a bigint, and of a number
    below [1e21]) *)
Fixpoint dec_digits (fuel : nat) (n : N) (acc : jstr) : jstr :=
  match fuel with
  | O => acc
  | S fuel' =>
      let acc' := (48 + n mod 10)%N :: acc in
      if (n <? 10)%N then acc' else dec_digits fuel' (n / 10)%N acc'
  end.

(** [N.size n] bits bound the number of decimal digits. *)
Definition dec_of_N (n : N) : jstr := dec_digits (S (N.to_nat (N.size n))) n [].

Definition dec_of_Z (z : Z) : jstr :=
  if z <? 0 then 45%N :: dec_of_N (Z.to_N (- z)) else dec_of_N (Z.to_N z).

(** The value of a run of decimal digits. *)
Definition dec_value (s : jstr) : N := fold_left (fun acc c => acc * 10 + (c - 48))%N s 0%N.

Example dec_of_Z_ex : dec_of_Z (-1047) = js "-1047".
Proof. reflexivity. Qed.
Example dec_zero_ex : dec_of_Z 0 = js "0".
Proof. reflexivity. Qed.

(** ** [JSON.stringify] of strings (QuoteJSONString) *)
Definition hex_digit (n : N) : N := if (n <? 10)%N then (48 + n)%N else (87 + n)%N.

Definition unicode_escape (c : N) : jstr :=
  js "\u" ++ [hex_digit (c / 4096 mod 16); hex_digit (c / 256 mod 16);
              hex_digit (c / 16 mod 16); hex_digit (c mod 16)]%N.

Definition quote_unit (c : N) : jstr :=
  if (c =? 8)%N then js "\b" else if (c =? 9)%N then js "\t"
  else if (c =? 10)%N then js "\n" else if (c =? 12)%N then js "\f"
  else if (c =? 13)%N then js "\r"
  else if (c =? 34)%N then [92; 34]%N
  else if (c =? 92)%N then [92; 92]%N
  else if (c <? 32)%N then unicode_escape c
  else [c].

Fixpoint quote_units (s : jstr) : jstr :=
  match s with
  | [] => []
  | c :: rest =>
      if is_high_surrogate c then
        match rest with
        | d :: rest' =>
            if is_low_surrogate d then c :: d :: quote_units rest'
            else unicode_escape c ++ quote_units rest
        | [] => unicode_escape c
        end
      else if is_low_surrogate c then unicode_escape c ++ quote_units rest
      else quote_unit c ++ quote_units rest
  end.

Definition json_quote (s : jstr) : jstr := 34%N :: quote_units s ++ [34%N].

Fixpoint intersperse (sep : jstr) (parts : list jstr) : jstr :=
  match parts with
  | [] => []
  | [p] => p
  | p :: rest => p ++ sep ++ intersperse sep rest
  end.

(** [JSON.stringify] of an array of strings. *)
Definition json_string_array (parts : list jstr) : jstr :=
  91%N :: intersperse [44%N] (json_quote <$> parts) ++ [93%N].

Example json_array_ex :
  json_string_array [js "a"; [34; 10]%N] = [91; 34; 97; 34; 44; 34; 92; 34; 92; 110; 34; 93]%N.
Proof. reflexivity. Qed.

(** ** Splitting and searching *)

(** [s.split(sep)] for a separator of one unit. *)
Fixpoint split_char (sep : N) (s : jstr) : list jstr :=
  match s with
  | [] => [[]]
  | c :: rest =>
      if (c =? sep)%N then [] :: split_char sep rest
      else match split_char sep rest with
           | p :: ps => (c :: p) :: ps
           | [] => [[c]]
           end
  end.

Definition starts_with (s p : jstr) : bool := bool_decide (take (length p) s = p).

Definition ends_with (s p : jstr) : bool :=
  (length p <=? length s)%nat && bool_decide (drop (length s - length p) s = p).

Definition includes_char (s : jstr) (c : N) : bool := existsb (fun d => (d =? c)%N) s.

(** ** Order of strings: code unit by code unit *)
Fixpoint jstr_ltb (s t : jstr) : bool :=
  match s, t with
  | _, [] => false
  | [], _ :: _ => true
  | c :: s', d :: t' => if (c <? d)%N then true else if (d <? c)%N then false else jstr_ltb s' t'
  end.

Fixpoint insert_sorted (s : jstr) (l : list jstr) : list jstr :=
  match l with
  | [] => [s]
  | t :: l' => if jstr_ltb t s then t :: insert_sorted s l' else s :: l
  end.

(** [Array.prototype.sort] without a comparator. *)
Definition sort_strings (l : list jstr) : list jstr := foldr insert_sorted [] l.

(** ** Objects used as maps

    [object_prototype_functions] are the members a plain object inherits whose
    names start with a letter: [o.toString] is a function, not [undefined]. *)
Definition object_prototype_functions : list (jstr * Z) :=
  [(js "constructor", 1); (js "hasOwnProperty", 1); (js "isPrototypeOf", 1);
   (js "propertyIsEnumerable", 1); (js "toString", 0); (js "valueOf", 0);
   (js "toLocaleString", 0)].

Definition inherited (k : jstr) : option Z :=
  snd <$> find (fun p => bool_decide (p.1 = k)) object_prototype_functions.

(** What [o[k]] evaluates to. *)
Inductive member (A : Type) : Type :=
| Own (a : A)
| Inherited (arity : Z)
| Missing.
Arguments Own {A} a.
Arguments Inherited {A} arity.
Arguments Missing {A}.

Definition get_member {A} (o : gmap jstr A) (k : jstr) : member A :=
  match o !! k with
  | Some a => Own a
  | None =>
      match inherited k with
      | Some arity => Inherited arity
      | None => Missing
      end
  end.

Lemma get_member_own {A} (o : gmap jstr A) k a : get_member o k = Own a <-> o !! k = Some a.
Proof. unfold get_member. repeat case_goal; naive_solver. Qed.

Lemma get_member_missing {A} (o : gmap jstr A) k :
  get_member o k = Missing <-> o !! k = None /\ inherited k = None.
Proof. unfold get_member. repeat case_goal; naive_solver. Qed.

Lemma get_member_not_inherited {A} (o : gmap jstr A) k :
  inherited k = None ->
  get_member o k = match o !! k with Some a => Own a | None => Missing end.
Proof. unfold get_member. intros ->. done. Qed.

(** ** Facts about decimal rendering and delimiters *)

Lemma dec_digits_value fuel n acc :
  (n < 10 ^ N.of_nat fuel)%N ->
  fold_left (fun acc c => acc * 10 + (c - 48))%N (dec_digits (S fuel) n acc) 0%N
  = fold_left (fun acc c => acc * 10 + (c - 48))%N acc n.
Proof.
  revert n acc. induction fuel as [|fuel IH]; intros n acc Hn.
  - assert (n = 0)%N as -> by (change (10 ^ N.of_nat 0)%N with 1%N in Hn; lia). done.
  - rewrite Nat2N.inj_succ, N.pow_succ_r' in Hn. cbn [dec_digits].
    destruct (N.ltb_spec n 10) as [Hlt|Hge].
    + cbn [fold_left]. f_equal. rewrite N.mod_small by done. lia.
    + change (if (n / 10 <? 10)%N then _ else _)
        with (dec_digits (S fuel) (n / 10)%N ((48 + n mod 10)%N :: acc)).
      rewrite IH by (apply N.Div0.div_lt_upper_bound; lia). cbn [fold_left]. f_equal.
      rewrite (N.add_comm 48), N.add_sub, N.mul_comm. symmetry. apply N.Div0.div_mod.
Qed.

Lemma dec_value_dec_of_N n : dec_value (dec_of_N n) = n.
Proof.
  unfold dec_value, dec_of_N. rewrite dec_digits_value; [done |].
  rewrite N2Nat.id. apply N.lt_le_trans with (2 ^ N.size n)%N; [apply N.size_gt |].
  apply N.pow_le_mono_l. lia.
Qed.

Lemma dec_of_Z_inj a b : 0 <= a -> 0 <= b -> dec_of_Z a = dec_of_Z b -> a = b.
Proof.
  intros Ha Hb. unfold dec_of_Z.
  destruct (Z.ltb_spec a 0), (Z.ltb_spec b 0); try lia. intros Heq.
  apply (f_equal dec_value) in Heq. rewrite !dec_value_dec_of_N in Heq. lia.
Qed.

Lemma split_at_delimiter {A} (x : A) a b a' b' :
  x ∉ a -> x ∉ a' -> a ++ x :: b = a' ++ x :: b' -> a = a' /\ b = b'.
Proof.
  revert a'. induction a as [|y a IH]; intros [|y' a'] Ha Ha' Heq; simpl in Heq.
  - by injection Heq.
  - injection Heq as <- _. exfalso. apply Ha'. left.
  - injection Heq as -> _. exfalso. apply Ha. left.
  - injection Heq as -> Heq. rewrite not_elem_of_cons in Ha, Ha'.
    destruct (IH a' ltac:(tauto) ltac:(tauto) Heq) as [-> ->]. done.
Qed.

Lemma intersperse_cons sep p ps : ps <> [] -> intersperse sep (p :: ps) = p ++ sep ++ intersperse sep ps.
Proof. by destruct ps. Qed.

Lemma split_char_nonempty c s : split_char c s <> [].
Proof. destruct s as [|d s]; cbn; [done |]. destruct (d =? c)%N; [done |]. by destruct (split_char c s). Qed.

Lemma split_char_none sep s : sep ∉ s -> split_char sep s = [s].
Proof.
  induction s as [|c s IH]; intros Hs; [done |]. cbn. apply not_elem_of_cons in Hs as [Hne Hs].
  destruct (N.eqb_spec c sep) as [->|]; [done |]. by rewrite IH.
Qed.

Lemma split_char_app sep s t : sep ∉ s -> split_char sep (s ++ sep :: t) = s :: split_char sep t.
Proof.
  induction s as [|c s IH]; intros Hs; cbn; [by rewrite N.eqb_refl |].
  apply not_elem_of_cons in Hs as [Hne Hs].
  destruct (N.eqb_spec c sep) as [->|]; [done |]. by rewrite IH.
Qed.

(** ** Searching *)

Lemma split_char_length c s : (length (split_char c s) <= S (length s))%nat.
Proof.
  induction s as [|d s IH]; cbn [split_char length]; [done |]. destruct (d =? c)%N; [cbn; lia |].
  destruct (split_char c s); cbn in *; lia.
Qed.

Lemma starts_with_app p t : starts_with (p ++ t) p = true.
Proof. unfold starts_with. apply bool_decide_eq_true. by rewrite take_app_length. Qed.

Lemma starts_with_spec s p : starts_with s p = true <-> exists t, s = p ++ t.
Proof.
  split; [| intros [t ->]; apply starts_with_app]. unfold starts_with. intros H%bool_decide_eq_true.
  exists (drop (length p) s). rewrite <- H at 1. by rewrite take_drop.
Qed.

Lemma ends_with_spec s p : ends_with s p = true <-> exists t, s = t ++ p.
Proof.
  unfold ends_with. rewrite andb_true_iff, Nat.leb_le, bool_decide_eq_true. split.
  - intros [Hl H]. exists (take (length s - length p) s). rewrite <- H at 2. by rewrite take_drop.
  - intros [t ->]. rewrite length_app. split; [lia |].
    replace (length t + length p - length p)%nat with (length t) by lia. by rewrite drop_app_length.
Qed.

Lemma includes_char_spec s c : includes_char s c = true <-> c ∈ s.
Proof.
  unfold includes_char. rewrite existsb_exists. setoid_rewrite N.eqb_eq. split.
  - intros (d & Hd%list_elem_of_In & ->). done.
  - intros Hc%list_elem_of_In. eauto.
Qed.

Lemma includes_char_false s c : includes_char s c = false <-> c ∉ s.
Proof.
  unfold includes_char. induction s as [|d s IH]; cbn.
  { split; [intros _; apply not_elem_of_nil | done]. }
  rewrite orb_false_iff, IH, N.eqb_neq, not_elem_of_cons. naive_solver.
Qed.

(** Sorting permutes. *)
Lemma insert_sorted_perm s l : insert_sorted s l ≡ₚ s :: l.
Proof.
  induction l as [|t l IH]; simpl; [done |]. destruct (jstr_ltb t s); [| done].
  rewrite IH. apply Permutation_swap.
Qed.

Lemma sort_strings_perm l : sort_strings l ≡ₚ l.
Proof. induction l as [|s l IH]; simpl; [done |]. by rewrite insert_sorted_perm, IH. Qed.
