(* ===== verification/JsValue.v ===== *)
(** * JavaScript values of type [unknown]

    Caller and provider input reaches the runtime as [unknown]; the operations
    test it with [typeof], [===] and property reads before they use it. *)
From stdpp Require Import base gmap list strings.
From Stdlib Require Import ZArith Lia.
From S2P Require Import Prelude JsNumber JsString.

#[warnings="-register-all"]
Inductive jsval : Type :=
| JUndefined
| JNull
| JBool (b : bool)
| JNum (x : num)
| JBigInt (z : Z)
| JStr (s : jstr)
| JArray (items : list jsval)
| JObject (props : list (jstr * jsval))
| JFunction.

(** The own property [k] of a plain object; the last definition wins, as when
    the object is built property by property. *)
Definition own_property (props : list (jstr * jsval)) (k : jstr) : option jsval :=
  snd <$> find (fun p => bool_decide (p.1 = k)) (rev props).

(** [v.k] for a name [k] that [Object.prototype] does not define. *)
Definition property (v : jsval) (k : jstr) : jsval :=
  match v with
  | JObject props => default JUndefined (own_property props k)
  | _ => JUndefined
  end.

Definition is_undefined (v : jsval) : bool :=
  match v with JUndefined => true | _ => false end.

(** [value !== null && typeof value === "object"] *)
Definition is_object (v : jsval) : bool :=
  match v with JArray _ | JObject _ => true | _ => false end.

(** [Number.isSafeInteger(v)], with the integer when it is one. *)
Definition js_safe_integer (v : jsval) : option Z :=
  match v with
  | JNum x => safe_integer x
  | _ => None
  end.

Definition js_int (z : Z) : jsval := JNum (num_of_Z z).

Lemma js_safe_integer_js_int z :
  js_safe_integer (js_int z) = if is_safe z then Some z else None.
Proof.
  unfold js_safe_integer, js_int, safe_integer.
  assert (num_to_Z (num_of_Z z) = Some z) as ->; [| done].
  destruct z; unfold num_to_Z; cbn -[Z.mul Z.pow]; rewrite ?Z.pow_0_r, ?Z.mul_1_r; done.
Qed.

Lemma js_safe_integer_int z : is_safe z = true -> js_safe_integer (js_int z) = Some z.
Proof. intros Hz. by rewrite js_safe_integer_js_int, Hz. Qed.

Lemma js_safe_integer_safe v z : js_safe_integer v = Some z -> is_safe z = true.
Proof.
  unfold js_safe_integer, safe_integer. intros H. repeat case_hyp H; by simplify_eq.
Qed.
