(* ===== verification/Completion.v ===== *)
(** * Completions

    What an operation of a runtime module hands back ([completion.ts]): a value,
    a domain failure (the error type and payload given to [domain.create]), or a
    standard failure.  The operations of the value modules (numbers, text, bytes,
    collections) return a completion or throw a standard failure, which the
    caller's boundary turns into a completion ([caught]). *)
From stdpp Require Import base list strings.
From Stdlib Require Import ZArith.
From S2P Require Import Prelude JsNumber JsString JsValue.

Inductive StandardKind : Type :=
| arithmetic | bounds | resource_state | assertion | native_exception | cleanup.

#[global] Instance StandardKind_eq_dec : EqDecision StandardKind.
Proof. solve_decision. Defined.

(** The details of a standard failure that its kind, message and origin give. *)
Record StandardFailure : Type := mkStandard {
  sf_kind : StandardKind;
  sf_message : string;
  sf_origin : string
}.

Record DomainFailure : Type := mkDomain {
  df_type : jstr;
  df_payload : list (string * jsval);
  df_origin : string
}.

Inductive Completion (A : Type) : Type :=
| ok (value : A)
| domain (value : DomainFailure)
| standard (value : StandardFailure).
Arguments ok {A} value.
Arguments domain {A} value.
Arguments standard {A} value.

(** A synchronous body: it returns, or it throws a standard failure. *)
Inductive run (A : Type) : Type :=
| Done (a : A)
| Thrown (f : StandardFailure).
Arguments Done {A} a.
Arguments Thrown {A} f.

Definition run_bind {A B} (m : run A) (k : A -> run B) : run B :=
  match m with
  | Done a => k a
  | Thrown f => Thrown f
  end.

Notation "'run!' x ':=' c1 'in' c2" := (run_bind c1 (fun x => c2))
  (at level 10, x pattern, c1 at level 100, c2 at level 200) : res_scope.

(** [success] and [caught] of the boundary around a body that may throw. *)
Definition settle_run {A} (m : run (Completion A)) : Completion A :=
  match m with
  | Done c => c
  | Thrown f => standard f
  end.

(** [Promise.then] on a completion: an [ok] value goes on, a failure is kept. *)
Definition completion_bind {A B} (c : Completion A) (k : A -> Completion B) : Completion B :=
  match c with
  | ok v => k v
  | domain f => domain f
  | standard f => standard f
  end.

Definition is_ok {A} (c : Completion A) : bool :=
  match c with ok _ => true | _ => false end.

(** What a call may throw: a domain occurrence, a standard occurrence, or any
    other native value, described by its message. *)
Inductive thrown : Type :=
| ThrownDomain (f : DomainFailure)
| ThrownStandard (f : StandardFailure)
| ThrownNative (message : string).

(** [captureStandard]: an occurrence keeps its identity, anything else becomes a
    native exception at this origin. *)
Definition captureStandard (cause : StandardFailure + string) (origin : string) : StandardFailure :=
  match cause with
  | inl f => f
  | inr message => mkStandard native_exception message origin
  end.

Definition caught {A} (cause : thrown) (origin : string) : Completion A :=
  match cause with
  | ThrownDomain f => domain f
  | ThrownStandard f => standard (captureStandard (inl f) origin)
  | ThrownNative message => standard (captureStandard (inr message) origin)
  end.
