(* ===== verification/Identity.v ===== *)
(** * Outbound identity vocabulary ([runtime/outbound/identity.ts])

    Validation of tenants, budget pools, correlations and invocations, and the
    nesting rule of [ai_budget::within] scopes. *)
From stdpp Require Import base gmap list strings.
From Stdlib Require Import ZArith Lia.
From S2P Require Import Prelude JsNumber JsString JsValue.

(** [IDENTITY_PATTERN]: [/^[A-Za-z0-9][A-Za-z0-9._:-]{0,127}$/]. *)
Definition identity_pattern (max_rest : nat) (s : jstr) : bool :=
  match s with
  | c :: rest => is_alnum c && forallb is_ident_char rest && (length rest <=? max_rest)%nat
  | [] => false
  end.

Definition IDENTITY_PATTERN : jstr -> bool := identity_pattern 127.

Definition checkIdentity (kind : string) (value : jsval) : res jstr :=
  match value with
  | JStr s => guard_throw (IDENTITY_PATTERN s) ("invalid " +:+ kind) (Ret s)
  | _ => Throw ("invalid " +:+ kind)
  end.

Definition identityValue (kind : string) (value : jsval) : res jstr :=
  match value with
  | JStr s =>
      guard_throw
        (negb (length s =? 0)%nat && (length s <=? 256)%nat
         && is_well_formed s && negb (existsb (N.eqb 0) s))
        ("invalid " +:+ kind) (Ret s)
  | _ => Throw ("invalid " +:+ kind)
  end.

Definition tenantId : jsval -> res jstr := checkIdentity "tenant".
Definition poolId : jsval -> res jstr := checkIdentity "budget pool".
Definition correlationId : jsval -> res jstr := checkIdentity "correlation".
Definition invocationId : jsval -> res jstr := checkIdentity "invocation".

Record InvocationContext := {
  ctx_tenant : jstr;
  ctx_pool : jstr;
  ctx_correlation : jstr;
}.

#[export] Instance InvocationContext_eq_dec : EqDecision InvocationContext.
Proof. solve_decision. Defined.

(** [fresh] is the UUID minted by [newCorrelationId()] when no correlation is given. *)
Definition invocationContext (fresh : jstr) (tenant pool correlation : jsval)
    : res InvocationContext :=
  let! t := tenantId tenant in
  let! p := poolId pool in
  let! c := correlationId (if is_undefined correlation then JStr fresh else correlation) in
  Ret {| ctx_tenant := t; ctx_pool := p; ctx_correlation := c |}.

Definition identity_member (v : jsval) : option jstr :=
  match v with
  | JStr s => if IDENTITY_PATTERN s then Some s else None
  | _ => None
  end.

(** [isInvocationContext]: the context a value is, when it is one. *)
Definition isInvocationContext (value : jsval) : option InvocationContext :=
  if is_object value then
    match identity_member (property value (js "tenant")),
          identity_member (property value (js "pool")),
          identity_member (property value (js "correlation")) with
    | Some t, Some p, Some c =>
        Some {| ctx_tenant := t; ctx_pool := p; ctx_correlation := c |}
    | _, _, _ => None
    end
  else None.

Definition nestContext (active next : InvocationContext) : res InvocationContext :=
  guard_throw
    (bool_decide (ctx_tenant active = ctx_tenant next)
     && bool_decide (ctx_pool active = ctx_pool next))
    "nested scope cannot replace tenant/pool" (Ret active).

(** [contextReport], also the frozen record the context itself is. *)
Definition contextReport (c : InvocationContext) : jsval :=
  JObject [(js "tenant", JStr (ctx_tenant c)); (js "pool", JStr (ctx_pool c));
           (js "correlation", JStr (ctx_correlation c))].

(** ** Facts *)

Definition valid_identity (s : jstr) : Prop := IDENTITY_PATTERN s = true.

Lemma checkIdentity_ret kind v s :
  checkIdentity kind v = Ret s <-> v = JStr s /\ valid_identity s.
Proof.
  unfold checkIdentity, valid_identity. split.
  - intros H. case_hyp H; inv_res; simplify_eq; done.
  - intros [-> ->]. done.
Qed.

Lemma ident_char_bounds c : is_ident_char c = true -> (45 <= c)%N.
Proof.
  unfold is_ident_char, is_alnum, is_digit, is_upper, is_lower.
  rewrite !orb_true_iff, !andb_true_iff, !N.leb_le, !N.eqb_eq. lia.
Qed.

Lemma alnum_ident_char c : is_alnum c = true -> is_ident_char c = true.
Proof. unfold is_ident_char. intros ->. done. Qed.

Lemma valid_identity_chars s c : valid_identity s -> c ∈ s -> is_ident_char c = true.
Proof.
  unfold valid_identity, IDENTITY_PATTERN, identity_pattern.
  destruct s as [|d rest]; [done |]. intros H Hc. split_bools.
  apply elem_of_cons in Hc as [->|Hc]; [by apply alnum_ident_char |].
  rewrite forallb_forall in *. by apply H1, list_elem_of_In.
Qed.

Lemma valid_identity_no_newline s : valid_identity s -> 10%N ∉ s.
Proof.
  intros Hs Hin. pose proof (ident_char_bounds _ (valid_identity_chars s _ Hs Hin)). lia.
Qed.

Lemma valid_identity_length s : valid_identity s -> (1 <= length s <= 128)%nat.
Proof.
  unfold valid_identity, IDENTITY_PATTERN, identity_pattern.
  destruct s as [|d rest]; [done |]. simpl. intros H. split_bools.
  apply Nat.leb_le in H0. lia.
Qed.

Lemma identity_member_valid v s : identity_member v = Some s <-> v = JStr s /\ valid_identity s.
Proof.
  unfold identity_member, valid_identity.
  destruct v as [| | | | |s'| | |]; try (split; [discriminate | intros [? _]; discriminate]).
  destruct (IDENTITY_PATTERN s') eqn:E; split; intros H; destruct_and?; simplify_eq; eauto.
  congruence.
Qed.

Lemma invocationContext_valid fresh t p c ctx :
  invocationContext fresh t p c = Ret ctx ->
  valid_identity (ctx_tenant ctx) /\ valid_identity (ctx_pool ctx)
  /\ valid_identity (ctx_correlation ctx).
Proof.
  unfold invocationContext, tenantId, poolId, correlationId. intros H. inv_res.
  rewrite checkIdentity_ret in *. naive_solver.
Qed.

Lemma isInvocationContext_report ctx :
  isInvocationContext (contextReport ctx) = Some ctx <->
  valid_identity (ctx_tenant ctx) /\ valid_identity (ctx_pool ctx)
  /\ valid_identity (ctx_correlation ctx).
Proof.
  destruct ctx as [t p c]. unfold valid_identity. cbn [ctx_tenant ctx_pool ctx_correlation].
  change (isInvocationContext _) with
    match identity_member (JStr t), identity_member (JStr p), identity_member (JStr c) with
    | Some t, Some p, Some c =>
        Some {| ctx_tenant := t; ctx_pool := p; ctx_correlation := c |}
    | _, _, _ => None
    end.
  unfold identity_member.
  destruct (IDENTITY_PATTERN t), (IDENTITY_PATTERN p), (IDENTITY_PATTERN c); intuition congruence.
Qed.

#[export] Hint Resolve valid_identity_no_newline : runtime.
