(* ===== verification/Epoch.v ===== *)
(** * Fixed-epoch schedules and transitions ([runtime/outbound/epoch.ts])

    A pool's schedule tiles the time line from its anchor with half-open epochs of
    one period.  [epochContaining] finds the epoch of a clock value;
    [transitionSchedule] validates a change of schedule. *)
From stdpp Require Import base gmap list strings.
From Stdlib Require Import ZArith Lia.
From S2P Require Import Prelude JsNumber JsString JsValue Identity.

Record EpochSchedule := {
  sch_pool : jstr;
  sch_limit : Z;
  sch_periodMs : Z;
  sch_anchorMs : Z;
  sch_version : jstr;
}.

Record EpochBounds := { ep_start : Z; ep_end : Z }.

#[export] Instance EpochSchedule_eq_dec : EqDecision EpochSchedule.
Proof. solve_decision. Defined.
#[export] Instance EpochBounds_eq_dec : EqDecision EpochBounds.
Proof. solve_decision. Defined.

Definition VERSION_PATTERN : jstr -> bool := identity_pattern 63.

Definition checkTokens (name : string) (value : jsval) (minimum : Z) : res Z :=
  match js_safe_integer value with
  | Some z => guard_throw (minimum <=? z) ("invalid epoch " +:+ name) (Ret z)
  | None => Throw ("invalid epoch " +:+ name)
  end.

Definition checkVersion (value : jsval) : res jstr :=
  match value with
  | JStr s => guard_throw (VERSION_PATTERN s) "invalid epoch version" (Ret s)
  | _ => Throw "invalid epoch version"
  end.

Definition epochSchedule (pool limit periodMs anchorMs version : jsval) : res EpochSchedule :=
  let! p := poolId pool in
  let! l := checkTokens "limit" limit 0 in
  let! per := checkTokens "period" periodMs 1 in
  let! a := checkTokens "anchor" anchorMs 0 in
  let! v := checkVersion version in
  Ret {| sch_pool := p; sch_limit := l; sch_periodMs := per; sch_anchorMs := a;
         sch_version := v |}.

(** [None] is [undefined]: no epoch exists before the anchor. *)
Definition epochContaining (schedule : EpochSchedule) (nowMs : Z) : res (option EpochBounds) :=
  let! _ := checkTokens "clock" (js_int nowMs) 0 in
  if nowMs <? sch_anchorMs schedule then Ret None
  else
    let elapsed := fsub nowMs (sch_anchorMs schedule) in
    let start := fadd (sch_anchorMs schedule)
                      (fmul (fdiv_floor elapsed (sch_periodMs schedule)) (sch_periodMs schedule)) in
    let end_ := fadd start (sch_periodMs schedule) in
    guard_throw (is_safe end_) "epoch end unrepresentable"
      (Ret (Some {| ep_start := start; ep_end := end_ |})).

Record ScheduleChange := {
  chg_limit : jsval;
  chg_periodMs : jsval;
  chg_anchorMs : jsval;
  chg_version : jsval;
}.

(** [change.limit === undefined ? current.limit : checkTokens(...)] *)
Definition inherit_or (v : jsval) (inherited : Z) (check : jsval -> res Z) : res Z :=
  if is_undefined v then Ret inherited else check v.

(** The first boundary of [current] that is not in the past of [nowMs]. *)
Definition next_boundary (current : EpochSchedule) (nowMs : Z) : Z :=
  if nowMs <? sch_anchorMs current then sch_anchorMs current
  else
    let elapsed := fsub nowMs (sch_anchorMs current) in
    let offset := fdiv_floor elapsed (sch_periodMs current) in
    if elapsed mod sch_periodMs current =? 0 then nowMs
    else fadd (sch_anchorMs current) (fmul (fadd offset 1) (sch_periodMs current)).

Definition transitionSchedule (current : EpochSchedule) (change : ScheduleChange) (nowMs : Z)
    : res EpochSchedule :=
  let! _ := checkTokens "clock" (js_int nowMs) 0 in
  let! version := checkVersion (chg_version change) in
  guard_throw (negb (bool_decide (version = sch_version current)))
    "schedule version must advance" (
  let! limit := inherit_or (chg_limit change) (sch_limit current)
                  (fun v => checkTokens "limit" v 0) in
  let! periodMs := inherit_or (chg_periodMs change) (sch_periodMs current)
                     (fun v => checkTokens "period" v 1) in
  let boundary := next_boundary current nowMs in
  guard_throw (is_safe boundary) "schedule boundary unrepresentable" (
  let! anchorMs :=
    inherit_or (chg_anchorMs change) boundary (fun v =>
      let! a := checkTokens "anchor" v 0 in
      guard_throw
        (negb ((a <? boundary) || (a <? sch_anchorMs current)
               || negb (fsub a (sch_anchorMs current) mod sch_periodMs current =? 0)))
        "schedule anchor must be a future boundary of the old schedule" (Ret a)) in
  Ret {| sch_pool := sch_pool current; sch_limit := limit; sch_periodMs := periodMs;
         sch_anchorMs := anchorMs; sch_version := version |})).

(** ** Validity *)

Record valid_schedule (s : EpochSchedule) : Prop := {
  vs_pool : valid_identity (sch_pool s);
  vs_limit : 0 <= sch_limit s <= MAX_SAFE;
  vs_period : 1 <= sch_periodMs s <= MAX_SAFE;
  vs_anchor : 0 <= sch_anchorMs s <= MAX_SAFE;
}.

(** [t] is a boundary of [s]: one of its epochs starts at [t]. *)
Definition boundary_of (s : EpochSchedule) (t : Z) : Prop :=
  sch_anchorMs s <= t /\ (t - sch_anchorMs s) mod sch_periodMs s = 0.

Lemma checkTokens_ret name v m z :
  checkTokens name v m = Ret z -> m <= z <= MAX_SAFE /\ js_safe_integer v = Some z.
Proof.
  unfold checkTokens. intros H. case_hyp H; inv_res. split_bools.
  pose proof (js_safe_integer_safe _ _ Heqo) as Hs%is_safe_spec. split; [lia | done].
Qed.

Lemma checkTokens_int name z m :
  m <= z <= MAX_SAFE -> - MAX_SAFE <= m -> checkTokens name (js_int z) m = Ret z.
Proof.
  intros Hz Hm. unfold checkTokens. rewrite js_safe_integer_int by (apply is_safe_spec; lia).
  destruct (Z.leb_spec m z); [done | lia].
Qed.

Lemma inherit_or_ret v d check z :
  inherit_or v d check = Ret z -> z = d \/ check v = Ret z.
Proof. unfold inherit_or. destruct (is_undefined v); intros; inv_res; auto. Qed.

Lemma epochSchedule_valid p l per a v s : epochSchedule p l per a v = Ret s -> valid_schedule s.
Proof.
  unfold epochSchedule, poolId. intros H. inv_res.
  repeat match goal with
  | H : checkIdentity _ _ = Ret _ |- _ => apply checkIdentity_ret in H as [_ ?]
  | H : checkTokens _ _ _ = Ret _ |- _ => apply checkTokens_ret in H as [? _]
  end.
  split; done.
Qed.

(** The floor of the source's division, on a valid schedule, is exact. *)
Lemma epoch_start_exact s now :
  valid_schedule s -> sch_anchorMs s <= now <= MAX_SAFE ->
  let elapsed := fsub now (sch_anchorMs s) in
  elapsed = now - sch_anchorMs s
  /\ fdiv_floor elapsed (sch_periodMs s) = (now - sch_anchorMs s) / sch_periodMs s.
Proof.
  intros [_ _ Hp Ha] Hnow. simpl. rewrite fsub_exact by lia. split; [done |].
  apply fdiv_floor_exact; lia.
Qed.

Lemma quotient_product_bound e p : 0 <= e -> 1 <= p -> 0 <= e / p * p <= e.
Proof.
  intros. pose proof (Z.div_mod e p ltac:(lia)). pose proof (Z.mod_pos_bound e p ltac:(lia)).
  pose proof (Z.div_pos e p ltac:(lia) ltac:(lia)). nia.
Qed.

Lemma checkTokens_js_int name z m z' :
  checkTokens name (js_int z) m = Ret z' -> z' = z /\ m <= z <= MAX_SAFE.
Proof.
  intros H. apply checkTokens_ret in H as [? Hs].
  rewrite js_safe_integer_js_int in Hs. destruct (is_safe z); simplify_eq. done.
Qed.

(** The epoch found is exact: the float computation rounds nothing away. *)
Lemma epochContaining_some s now b :
  valid_schedule s -> epochContaining s now = Ret (Some b) ->
  sch_anchorMs s <= now <= MAX_SAFE
  /\ ep_start b = sch_anchorMs s + (now - sch_anchorMs s) / sch_periodMs s * sch_periodMs s
  /\ ep_end b = ep_start b + sch_periodMs s /\ ep_end b <= MAX_SAFE.
Proof.
  intros Hv H. unfold epochContaining in H. inv_res.
  apply checkTokens_js_int in H0 as [-> Hnow].
  destruct (Z.ltb_spec now (sch_anchorMs s)) as [|Hge]; [discriminate |].
  destruct (epoch_start_exact s now Hv ltac:(lia)) as [_ Hq]. rewrite Hq in *. clear Hq.
  destruct Hv as [_ _ Hp Ha].
  pose proof (quotient_product_bound (now - sch_anchorMs s) (sch_periodMs s) ltac:(lia) ltac:(lia)).
  set (q := (now - sch_anchorMs s) / sch_periodMs s) in *.
  assert (fmul q (sch_periodMs s) = q * sch_periodMs s) as Hm
    by (apply rnd_small; unfold MAX_SAFE in *; lia).
  rewrite Hm in *.
  assert (fadd (sch_anchorMs s) (q * sch_periodMs s) = sch_anchorMs s + q * sch_periodMs s) as Hst
    by (apply fadd_exact; lia).
  rewrite Hst in *. inv_res. simpl.
  unfold fadd in *.
  match goal with H : is_safe (rnd ?x) = true |- _ =>
    destruct (rnd_safe_exact x ltac:(lia) H) as [-> ?] end.
  lia.
Qed.

Lemma epochContaining_none s now : epochContaining s now = Ret None -> now < sch_anchorMs s.
Proof.
  unfold epochContaining. intros H. inv_res.
  destruct (Z.ltb_spec now (sch_anchorMs s)); [done | inv_res; discriminate].
Qed.

(** The epoch of a clock value contains it and starts at a boundary. *)
Lemma epochContaining_contains s now b :
  valid_schedule s -> epochContaining s now = Ret (Some b) ->
  ep_start b <= now < ep_end b /\ boundary_of s (ep_start b).
Proof.
  intros Hv H. destruct (epochContaining_some _ _ _ Hv H) as (Hnow & Hs & He & _).
  destruct Hv as [_ _ Hp _]. unfold boundary_of. rewrite He, Hs.
  pose proof (Z.div_mod (now - sch_anchorMs s) (sch_periodMs s) ltac:(lia)).
  pose proof (Z.mod_pos_bound (now - sch_anchorMs s) (sch_periodMs s) ltac:(lia)).
  pose proof (quotient_product_bound (now - sch_anchorMs s) (sch_periodMs s) ltac:(lia) ltac:(lia)).
  split; [nia |]. split; [lia |]. rewrite Z.add_simpl_l. apply Z.mod_mul. lia.
Qed.

Lemma boundary_of_spec s t :
  1 <= sch_periodMs s ->
  boundary_of s t <-> exists n, 0 <= n /\ t = sch_anchorMs s + n * sch_periodMs s.
Proof.
  intros Hp. unfold boundary_of. split.
  - intros [Hge Hm]. exists ((t - sch_anchorMs s) / sch_periodMs s).
    pose proof (Z.div_mod (t - sch_anchorMs s) (sch_periodMs s) ltac:(lia)).
    split; [apply Z.div_pos; lia | lia].
  - intros (n & Hn & ->). split; [nia |]. rewrite Z.add_simpl_l. apply Z.mod_mul. lia.
Qed.

(** No epoch straddles a boundary of its own schedule. *)
Lemma epoch_before_boundary s now b t :
  valid_schedule s -> epochContaining s now = Ret (Some b) ->
  boundary_of s t -> now < t -> ep_end b <= t.
Proof.
  intros Hv H Hb Hlt. destruct (epochContaining_some _ _ _ Hv H) as (Hnow & Hs & He & _).
  destruct Hv as [_ _ Hp _]. apply boundary_of_spec in Hb as (n & Hn & ->); [| lia].
  rewrite He, Hs. set (p := sch_periodMs s) in *. set (a := sch_anchorMs s) in *.
  assert ((now - a) / p < n) by (apply Z.div_lt_upper_bound; nia). nia.
Qed.

(** [a + m * p], rounded twice, is exact when it is safe. *)
Lemma rounded_sum_exact a m p :
  0 <= a -> 0 <= m * p -> is_safe (fadd a (fmul m p)) = true ->
  fadd a (fmul m p) = a + m * p /\ a + m * p <= MAX_SAFE.
Proof.
  intros Ha Hmp Hs. unfold fadd, fmul in *.
  destruct (Z.le_gt_cases (m * p) (2 ^ 53)) as [Hle|Hgt].
  - rewrite (rnd_small (m * p)) in * by lia. apply rnd_safe_exact; [lia | done].
  - pose proof (rnd_large (m * p) ltac:(lia)).
    pose proof (rnd_large (a + rnd (m * p)) ltac:(lia)).
    apply is_safe_spec in Hs. unfold MAX_SAFE in *. lia.
Qed.

(** ** The next boundary *)

Lemma next_boundary_exact s now :
  valid_schedule s -> 0 <= now <= MAX_SAFE -> is_safe (next_boundary s now) = true ->
  boundary_of s (next_boundary s now) /\ now <= next_boundary s now <= MAX_SAFE
  /\ (sch_anchorMs s <= now -> next_boundary s now < now + sch_periodMs s).
Proof.
  intros Hv Hnow Hsafe. unfold next_boundary in *.
  destruct (Z.ltb_spec now (sch_anchorMs s)) as [Hlt|Hge].
  - destruct Hv as [_ _ Hp Ha]. split; [| lia]. split; [lia |].
    rewrite Z.sub_diag. by apply Z.mod_0_l; lia.
  - destruct (epoch_start_exact s now Hv ltac:(lia)) as [He Hq]. rewrite Hq, He in *.
    destruct Hv as [_ _ Hp Ha]. set (p := sch_periodMs s) in *. set (a := sch_anchorMs s) in *.
    pose proof (Z.div_mod (now - a) p ltac:(lia)). pose proof (Z.mod_pos_bound (now - a) p ltac:(lia)).
    pose proof (quotient_product_bound (now - a) p ltac:(lia) ltac:(lia)).
    assert (0 <= (now - a) / p) as Hq0 by (apply Z.div_pos; lia).
    destruct (Z.eqb_spec ((now - a) mod p) 0) as [Hz|Hz].
    + split; [split; [lia | done] | lia].
    + set (q := (now - a) / p) in *. assert (q <= now - a) by nia.
      assert (q <= MAX_SAFE - 1 \/ q = MAX_SAFE) as Hqm by lia.
      assert (fadd q 1 = q + 1) as Hq1 by (apply rnd_small; unfold MAX_SAFE in *; lia).
      rewrite Hq1 in *. apply (rounded_sum_exact a (q + 1) p) in Hsafe as [-> Hm]; [| lia..].
      split; [| nia]. split; [nia |]. rewrite Z.add_simpl_l. apply Z.mod_mul. lia.
Qed.

(** ** Transitions *)

Lemma inherit_tokens_ret name v d m z :
  m <= d <= MAX_SAFE -> inherit_or v d (fun v => checkTokens name v m) = Ret z ->
  m <= z <= MAX_SAFE.
Proof.
  intros Hd [->|H]%inherit_or_ret; [done |]. by apply checkTokens_ret in H as [? _].
Qed.

(** A transition takes effect at a boundary of the old schedule that has not
    passed, with a new version and the same pool. *)
Lemma transitionSchedule_ret s change now s' :
  valid_schedule s -> transitionSchedule s change now = Ret s' ->
  valid_schedule s' /\ sch_pool s' = sch_pool s /\ sch_version s' <> sch_version s
  /\ boundary_of s (sch_anchorMs s') /\ now <= sch_anchorMs s'.
Proof.
  intros Hv H. unfold transitionSchedule in H. inv_res.
  rename x0 into version, x1 into limit, x2 into period, x3 into anchor.
  match goal with H : checkTokens "clock" _ _ = _ |- _ =>
    apply checkTokens_js_int in H as [-> Hnow] end.
  match goal with H : is_safe _ = true |- _ =>
    destruct (next_boundary_exact s now Hv Hnow H) as (Hb & Hle & _) end.
  repeat match goal with H : inherit_or _ _ (fun v => checkTokens _ v _) = _ |- _ =>
    apply inherit_tokens_ret in H; [| apply Hv] end.
  split_bools. enough (boundary_of s anchor /\ now <= anchor <= MAX_SAFE) as [Ha Hna].
  { simpl. split_and!; try done; [| lia]. split; simpl; try done; [apply Hv |].
    destruct Ha as [Ha _]. destruct Hv as [_ _ _ ?]. lia. }
  match goal with H : inherit_or _ _ _ = Ret anchor |- _ =>
    apply inherit_or_ret in H as [->|H]; [done |]; inv_res;
    match goal with H : checkTokens _ _ _ = _ |- _ => apply checkTokens_ret in H as [Hx _] end
  end.
  split_bools. assert (0 <= sch_anchorMs s) by apply Hv.
  rewrite fsub_exact in * by (lia || apply Hv). split; [split |]; lia.
Qed.

#[export] Hint Resolve epochSchedule_valid : runtime.
