(* ===== verification/Ledger.v ===== *)
(** * The durable token ledger: data and operations ([runtime/outbound/ledger.ts])

    One allowance per (tenant, pool, epoch) row.  Every operation validates its
    [unknown] input and then runs one optimistic whole-state transaction over a
    [LedgerStore]; the [*_apply] definitions are the bodies of those transactions. *)
From stdpp Require Import base gmap list strings.
From Stdlib Require Import ZArith Lia.
From S2P Require Import Prelude JsNumber JsString JsValue Identity Epoch.

Record MeteringProfile := {
  mp_provider : jstr;
  mp_model : jstr;
  mp_version : jstr;
}.

#[export] Instance MeteringProfile_eq_dec : EqDecision MeteringProfile.
Proof. solve_decision. Defined.

Definition meteringProfile (provider model version : jsval) : res MeteringProfile :=
  let! p := identityValue "metering provider" provider in
  let! m := identityValue "metering model" model in
  let! v := identityValue "metering version" version in
  Ret {| mp_provider := p; mp_model := m; mp_version := v |}.

Definition profileId (p : MeteringProfile) : jstr :=
  mp_provider p ++ js "/" ++ mp_model p ++ js "/" ++ mp_version p.

(** The JSON tuple the quarantine key digests. *)
Definition profileTuple (p : MeteringProfile) : jstr :=
  json_string_array [mp_provider p; mp_model p; mp_version p].

Record Usage := { inputTokens : Z; outputTokens : Z }.

#[export] Instance Usage_eq_dec : EqDecision Usage.
Proof. solve_decision. Defined.

Definition checkUsageTokens (value : jsval) : option Z :=
  match js_safe_integer value with
  | Some z => if z <? 0 then None else Some z
  | None => None
  end.

Definition meteringUsage (input output : jsval) : option Usage :=
  match checkUsageTokens input, checkUsageTokens output with
  | Some i, Some o =>
      if is_safe (fadd i o) then Some {| inputTokens := i; outputTokens := o |} else None
  | _, _ => None
  end.

Definition usageTotal (u : Usage) : Z := fadd (inputTokens u) (outputTokens u).

Inductive InvocationState := Held | Fenced | Settled | Released.

#[export] Instance InvocationState_eq_dec : EqDecision InvocationState.
Proof. solve_decision. Defined.

Record InvocationRecord := {
  inv_id : jstr;
  inv_tenant : jstr;
  inv_pool : jstr;
  inv_correlation : jstr;
  inv_epochStart : Z;
  inv_epochEnd : Z;
  inv_limit : Z;
  inv_scheduleVersion : jstr;
  inv_profile : MeteringProfile;
  inv_profileIdentity : jstr;
  inv_upperBound : Z;
  inv_state : InvocationState;
  inv_fenced : bool;
  inv_usage : option Usage;
  inv_breach : bool;
}.

#[export] Instance InvocationRecord_eq_dec : EqDecision InvocationRecord.
Proof. solve_decision. Defined.

(** What [state.invocations] holds under a key.  [Bare] is the object
    [{ state: "fenced", fenced: true }] that [fence] stores when the key names an
    inherited member of [Object.prototype]: every other field is [undefined]. *)
Inductive Entry :=
| Full (r : InvocationRecord)
| Bare.

Record EpochRow := {
  row_tenant : jstr;
  row_pool : jstr;
  row_start : Z;
  row_end : Z;
  row_limit : Z;
  row_scheduleVersion : jstr;
  row_committed : Z;
  row_held : Z;
}.

Record LedgerState := {
  version : Z;
  schedules : gmap jstr (list EpochSchedule);
  epochs : gmap jstr EpochRow;
  invocations : gmap jstr Entry;
  quarantined : gset jstr;
}.

Definition emptyLedgerState : LedgerState :=
  {| version := 0; schedules := ∅; epochs := ∅; invocations := ∅; quarantined := ∅ |}.

Definition epochRowKey (tenant pool : jstr) (start : Z) : jstr :=
  tenant ++ [10%N] ++ pool ++ [10%N] ++ dec_of_Z start.

(** The row key of a record. *)
Definition record_row (r : InvocationRecord) : jstr :=
  epochRowKey (inv_tenant r) (inv_pool r) (inv_epochStart r).

(** ** The store contract *)

Inductive CommitResult := Committed | NotCommitted | CommitThrew.

(** A backend over a world [W]; [None] from [load] is a rejected promise. *)
Class LedgerStore (W : Type) := {
  load : W -> option LedgerState * W;
  commit : W -> Z -> LedgerState -> CommitResult * W;
}.

(** [createMemoryLedgerStore]: the world is the current state. *)
#[export] Instance createMemoryLedgerStore : LedgerStore LedgerState := {
  load := fun current => (Some current, current);
  commit := fun current expectedVersion next =>
    if negb (version current =? expectedVersion) then (NotCommitted, current)
    else if negb (version next =? fadd expectedVersion 1) then (CommitThrew, current)
    else (Committed, next);
}.

Inductive UnavailableReason :=
| MissingContext | InvalidPolicy | StorageUnavailable | AmbiguousCommit | InvalidUsage
| ConflictingSettlement | MissingQualification | BreachedProfile | UnknownInvocation.

#[export] Instance UnavailableReason_eq_dec : EqDecision UnavailableReason.
Proof. solve_decision. Defined.

Record ReserveInput := {
  ri_tenant : jsval;
  ri_pool : jsval;
  ri_correlation : jsval;
  ri_provider : jsval;
  ri_model : jsval;
  ri_version : jsval;
  ri_qualified : jsval;
  ri_upperBound : jsval;
  ri_invocationId : jsval;
  ri_nowMs : jsval;
}.

Inductive ReserveOutcome :=
| Admitted_ (record : InvocationRecord) (remaining epochResetMs : Z) (duplicate : bool)
| Exceeded (pool : jstr) (required remaining epochResetMs : Z)
| ReserveUnavailable (reason : UnavailableReason) (correlation id : jstr).

Inductive FenceOutcome :=
| FencedOut (record : Entry) (duplicate : bool)
| FenceUnavailable (reason : UnavailableReason).

Record Breach := { br_profile : jstr; br_upperBound : Z; br_actual : Z }.

Inductive SettleOutcome :=
| SettledOut (record : InvocationRecord) (actual released : Z) (duplicate : bool)
             (breach : option Breach)
| SettleUnavailable (reason : UnavailableReason).

Inductive ReleaseOutcome :=
| ReleasedOut (record : InvocationRecord) (duplicate : bool)
| HeldOut (record : Entry)
| ReleaseUnavailable (reason : UnavailableReason).

Inductive ReconcileOutcome :=
| Found (record : Entry)
| FoundInherited
| Absent
| ReconcileUnavailable.

Definition checkUpperBound (value : jsval) : res Z :=
  match js_safe_integer value with
  | Some z => guard_throw (1 <=? z) "invalid reservation upper bound" (Ret z)
  | None => Throw "invalid reservation upper bound"
  end.

(** [date_now] is [Date.now()]. *)
Definition checkClock (date_now : Z) (nowMs : jsval) : res Z :=
  let at_ := match nowMs with JUndefined | JNull => js_int date_now | v => v end in
  match js_safe_integer at_ with
  | Some z => guard_throw (0 <=? z) "invalid ledger clock" (Ret z)
  | None => Throw "invalid ledger clock"
  end.

Definition fits (limit committed held upperBound : Z) : bool :=
  if limit <? upperBound then false
  else
    let headroom := fsub limit upperBound in
    if headroom <? committed then false
    else held <=? fsub headroom committed.

Definition remainingTokens (limit committed held : Z) : Z :=
  Z.max 0 (fsub (fsub limit committed) held).

(** ** Optimistic transactions *)

Inductive Applied (T : Type) :=
| NoWrite (value : T)
| Write (next : LedgerState) (value : T).
Arguments NoWrite {T} value.
Arguments Write {T} next value.

Inductive TxResult (T : Type) :=
| TxOk (value : T)
| TxUnavailable
| TxAmbiguous.
Arguments TxOk {T} value.
Arguments TxUnavailable {T}.
Arguments TxAmbiguous {T}.

Section transactions.
Context {W : Type} `{LedgerStore W} {T : Type}.
Context (apply_ : LedgerState -> res (Applied T)).

Fixpoint attempts (n : nat) (loaded : LedgerState) (w : W) : res (TxResult T) * W :=
  match n with
  | O => (Ret TxUnavailable, w)
  | S n' =>
      match apply_ loaded with
      | Throw msg => (Throw msg, w)
      | Ret (NoWrite v) => (Ret (TxOk v), w)
      | Ret (Write next v) =>
          match commit w (version loaded) next with
          | (Committed, w') => (Ret (TxOk v), w')
          | (CommitThrew, w') => (Ret TxAmbiguous, w')
          | (NotCommitted, w') =>
              match load w' with
              | (None, w'') => (Ret TxUnavailable, w'')
              | (Some s, w'') => attempts n' s w''
              end
          end
      end
  end.

Definition runTransaction (w : W) : res (TxResult T) * W :=
  match load w with
  | (None, w') => (Ret TxUnavailable, w')
  | (Some loaded, w') => attempts 64 loaded w'
  end.
End transactions.

(** What every operation does with the result of its transaction. *)
Definition finish_tx {T} (unavailable : UnavailableReason -> T) (r : res (TxResult T)) : res T :=
  match r with
  | Throw msg => Throw msg
  | Ret (TxOk v) => Ret v
  | Ret TxUnavailable => Ret (unavailable StorageUnavailable)
  | Ret TxAmbiguous => Ret (unavailable AmbiguousCommit)
  end.

Definition run_op {W} `{LedgerStore W} {T} (unavailable : UnavailableReason -> T)
    (apply_ : LedgerState -> res (Applied T)) (w : W) : res T * W :=
  let '(r, w') := runTransaction apply_ w in (finish_tx unavailable r, w').

Definition nextVersion (state : LedgerState) : Z := fadd (version state) 1.

(** The loop of [applicableSchedule], with the schedule picked so far. *)
Fixpoint applicable_from (picked : option EpochSchedule) (versions : list EpochSchedule)
    (nowMs : Z) : option EpochSchedule :=
  match versions with
  | [] => picked
  | v :: rest =>
      if nowMs <? sch_anchorMs v then picked else applicable_from (Some v) rest nowMs
  end.

Definition applicableSchedule : list EpochSchedule -> Z -> option EpochSchedule :=
  applicable_from None.

(** ** The transaction bodies *)

Definition fresh_row (tenant pool : jstr) (epoch : EpochBounds) (schedule : EpochSchedule)
    : EpochRow :=
  {| row_tenant := tenant; row_pool := pool; row_start := ep_start epoch;
     row_end := ep_end epoch; row_limit := sch_limit schedule;
     row_scheduleVersion := sch_version schedule; row_committed := 0; row_held := 0 |}.

Definition set_held (row : EpochRow) (held : Z) : EpochRow :=
  {| row_tenant := row_tenant row; row_pool := row_pool row; row_start := row_start row;
     row_end := row_end row; row_limit := row_limit row;
     row_scheduleVersion := row_scheduleVersion row; row_committed := row_committed row;
     row_held := held |}.

Definition set_committed (row : EpochRow) (committed : Z) : EpochRow :=
  {| row_tenant := row_tenant row; row_pool := row_pool row; row_start := row_start row;
     row_end := row_end row; row_limit := row_limit row;
     row_scheduleVersion := row_scheduleVersion row; row_committed := committed;
     row_held := row_held row |}.

(** [{ ...record, state, fenced, usage, breach }] *)
Definition with_state (r : InvocationRecord) (st : InvocationState) (fenced : bool)
    (usage : option Usage) (breach : bool) : InvocationRecord :=
  {| inv_id := inv_id r; inv_tenant := inv_tenant r; inv_pool := inv_pool r;
     inv_correlation := inv_correlation r; inv_epochStart := inv_epochStart r;
     inv_epochEnd := inv_epochEnd r; inv_limit := inv_limit r;
     inv_scheduleVersion := inv_scheduleVersion r; inv_profile := inv_profile r;
     inv_profileIdentity := inv_profileIdentity r; inv_upperBound := inv_upperBound r;
     inv_state := st; inv_fenced := fenced; inv_usage := usage; inv_breach := breach |}.

Definition held_record (id tenant pool correlation : jstr) (profile : MeteringProfile)
    (upperBound : Z) (row : EpochRow) : InvocationRecord :=
  {| inv_id := id; inv_tenant := tenant; inv_pool := pool;
     inv_correlation := correlation; inv_epochStart := row_start row;
     inv_epochEnd := row_end row; inv_limit := row_limit row;
     inv_scheduleVersion := row_scheduleVersion row; inv_profile := profile;
     inv_profileIdentity := profileId profile; inv_upperBound := upperBound;
     inv_state := Held; inv_fenced := false; inv_usage := None; inv_breach := false |}.

(** The next state of a transaction that changes epochs, invocations or the
    quarantine: the version advances and the schedules stay. *)
Definition next_state (state : LedgerState) (epochs' : gmap jstr EpochRow)
    (invocations' : gmap jstr Entry) (quarantined' : gset jstr) : LedgerState :=
  {| version := nextVersion state; schedules := schedules state; epochs := epochs';
     invocations := invocations'; quarantined := quarantined' |}.

(** The same admission was made before: same tenant, pool, correlation, bound and
    profile display identity. *)
Definition same_admission (existing : InvocationRecord) (tenant pool correlation : jstr)
    (upperBound : Z) (profile : MeteringProfile) : bool :=
  bool_decide (inv_tenant existing = tenant) && bool_decide (inv_pool existing = pool)
  && bool_decide (inv_correlation existing = correlation)
  && (inv_upperBound existing =? upperBound)
  && bool_decide (inv_profileIdentity existing = profileId profile).

Section operations.
(** [createHash("sha256")...digest("hex")] of node:crypto. *)
Context (sha256 : jstr -> jstr).

Definition profileKey (p : MeteringProfile) : jstr := sha256 (profileTuple p).

(** The schedule and the epoch of [reserve]; the [for] loop over an inherited
    function is a TypeError. *)
Definition reserve_epoch (state : LedgerState) (pool : jstr) (at_ : Z)
    : res (option (EpochSchedule * EpochBounds)) :=
  match get_member (schedules state) pool with
  | Inherited _ => Throw "versions is not iterable"
  | Missing => Ret None
  | Own versions =>
      match applicableSchedule versions at_ with
      | None => Ret None
      | Some schedule =>
          let! epoch := epochContaining schedule at_ in
          Ret ((fun e => (schedule, e)) <$> epoch)
      end
  end.

(** Admission of a new invocation. *)
Definition reserve_new (tenant pool correlation : jstr) (profile : MeteringProfile)
    (upperBound : Z) (id : jstr) (schedule : EpochSchedule) (epoch : EpochBounds)
    (state : LedgerState) : Applied ReserveOutcome :=
  if bool_decide (profileKey profile ∈ quarantined state) then
    NoWrite (ReserveUnavailable BreachedProfile correlation id)
  else
    let key := epochRowKey tenant pool (ep_start epoch) in
    let current := default (fresh_row tenant pool epoch schedule) (epochs state !! key) in
    if negb (fits (row_limit current) (row_committed current) (row_held current) upperBound)
    then
      NoWrite (Exceeded pool upperBound
        (remainingTokens (row_limit current) (row_committed current) (row_held current))
        (row_end current))
    else
      let record := held_record id tenant pool correlation profile upperBound current in
      let row := set_held current (fadd (row_held current) upperBound) in
      Write (next_state state (<[key := row]> (epochs state))
               (<[id := Full record]> (invocations state)) (quarantined state))
            (Admitted_ record
               (remainingTokens (row_limit row) (row_committed row) (row_held row))
               (row_end row) false).

Definition reserve_apply (tenant pool correlation : jstr) (profile : MeteringProfile)
    (upperBound : Z) (id : jstr) (at_ : Z) (state : LedgerState)
    : res (Applied ReserveOutcome) :=
  let! found := reserve_epoch state pool at_ in
  Ret (match found with
  | None => NoWrite (ReserveUnavailable InvalidPolicy correlation id)
  | Some (schedule, epoch) =>
      match get_member (invocations state) id with
      | Own (Full existing) =>
          if negb (same_admission existing tenant pool correlation upperBound profile) then
            NoWrite (ReserveUnavailable ConflictingSettlement correlation id)
          else
            let remaining :=
              match epochs state !! epochRowKey tenant pool (ep_start epoch) with
              | None => sch_limit schedule
              | Some current =>
                  remainingTokens (row_limit current) (row_committed current)
                    (row_held current)
              end in
            NoWrite (Admitted_ existing remaining (ep_end epoch) true)
      | Own Bare | Inherited _ =>
          NoWrite (ReserveUnavailable ConflictingSettlement correlation id)
      | Missing =>
          reserve_new tenant pool correlation profile upperBound id schedule epoch state
      end
  end).

Definition fence_apply (key : jstr) (state : LedgerState) : res (Applied FenceOutcome) :=
  Ret (match get_member (invocations state) key with
  | Missing => NoWrite (FenceUnavailable UnknownInvocation)
  | Own Bare => NoWrite (FencedOut Bare true)
  | Inherited _ =>
      Write (next_state state (epochs state) (<[key := Bare]> (invocations state))
               (quarantined state))
            (FencedOut Bare false)
  | Own (Full existing) =>
      match inv_state existing with
      | Settled | Released => NoWrite (FenceUnavailable ConflictingSettlement)
      | _ =>
          if inv_fenced existing then NoWrite (FencedOut (Full existing) true)
          else
            let record := with_state existing Fenced true (inv_usage existing)
                            (inv_breach existing) in
            Write (next_state state (epochs state)
                     (<[key := Full record]> (invocations state)) (quarantined state))
                  (FencedOut (Full record) false)
      end
  end).

Definition breach_report (r : InvocationRecord) (actual : Z) : Breach :=
  {| br_profile := inv_profileIdentity r; br_upperBound := inv_upperBound r;
     br_actual := actual |}.

(** Settlement of a record that is still held or fenced. *)
Definition settle_unresolved (key : jstr) (usage : Usage) (existing : InvocationRecord)
    (state : LedgerState) : Applied SettleOutcome :=
  let actual := usageTotal usage in
  match epochs state !! record_row existing with
  | None => NoWrite (SettleUnavailable StorageUnavailable)
  | Some row =>
      let committed := fadd (row_committed row) actual in
      if negb (is_safe committed) then NoWrite (SettleUnavailable InvalidUsage)
      else
        let breached := inv_upperBound existing <? actual in
        let record := with_state existing Settled (inv_fenced existing) (Some usage) breached in
        let nextRow := set_held (set_committed row committed)
                         (fsub (row_held row) (inv_upperBound existing)) in
        let quarantined' :=
          if breached then {[ profileKey (inv_profile existing) ]} ∪ quarantined state
          else quarantined state in
        Write (next_state state (<[record_row existing := nextRow]> (epochs state))
                 (<[key := Full record]> (invocations state)) quarantined')
              (if breached then SettledOut record actual 0 false
                                  (Some (breach_report existing actual))
               else SettledOut record actual (fsub (inv_upperBound existing) actual) false None)
  end.

Definition settle_apply (key : jstr) (usage : Usage) (state : LedgerState)
    : res (Applied SettleOutcome) :=
  match get_member (invocations state) key with
  | Missing => Ret (NoWrite (SettleUnavailable UnknownInvocation))
  | Own Bare | Inherited _ => Ret (NoWrite (SettleUnavailable StorageUnavailable))
  | Own (Full existing) =>
      match inv_state existing with
      | Released => Ret (NoWrite (SettleUnavailable ConflictingSettlement))
      | Settled =>
          match inv_usage existing with
          | None => Throw "cannot read properties of undefined"
          | Some settled =>
              if bool_decide (settled = usage) then
                let actual := usageTotal usage in
                Ret (NoWrite (SettledOut existing actual 0 true
                  (if inv_breach existing then Some (breach_report existing actual)
                   else None)))
              else Ret (NoWrite (SettleUnavailable ConflictingSettlement))
          end
      | Held | Fenced => Ret (settle_unresolved key usage existing state)
      end
  end.

Definition release_apply (key : jstr) (state : LedgerState) : res (Applied ReleaseOutcome) :=
  Ret (match get_member (invocations state) key with
  | Missing => NoWrite (ReleaseUnavailable UnknownInvocation)
  | Inherited _ => NoWrite (ReleaseUnavailable StorageUnavailable)
  | Own Bare => NoWrite (HeldOut Bare)
  | Own (Full existing) =>
      match inv_state existing with
      | Settled => NoWrite (ReleaseUnavailable ConflictingSettlement)
      | Released => NoWrite (ReleasedOut existing true)
      | Held | Fenced =>
          if inv_fenced existing then NoWrite (HeldOut (Full existing))
          else
            match epochs state !! record_row existing with
            | None => NoWrite (ReleaseUnavailable StorageUnavailable)
            | Some row =>
                let record := with_state existing Released (inv_fenced existing)
                                (inv_usage existing) (inv_breach existing) in
                let nextRow := set_held row
                                 (fsub (row_held row) (inv_upperBound existing)) in
                Write (next_state state (<[record_row existing := nextRow]> (epochs state))
                         (<[key := Full record]> (invocations state)) (quarantined state))
                      (ReleasedOut record false)
            end
      end
  end).

Inductive ConfigureOutcome :=
| Configured
| NotConfigured (reason : UnavailableReason).

Definition set_schedules (state : LedgerState) (s : gmap jstr (list EpochSchedule))
    : LedgerState :=
  {| version := nextVersion state; schedules := s; epochs := epochs state;
     invocations := invocations state; quarantined := quarantined state |}.

Definition configure_apply (pinned : EpochSchedule) (state : LedgerState)
    : res (Applied ConfigureOutcome) :=
  Ret (match get_member (schedules state) (sch_pool pinned) with
  | Missing =>
      Write (set_schedules state (<[sch_pool pinned := [pinned]]> (schedules state))) Configured
  | Own _ | Inherited _ => NoWrite (NotConfigured InvalidPolicy)
  end).

Inductive TransitionOutcome :=
| Transitioned (schedule : EpochSchedule)
| NotTransitioned (reason : UnavailableReason).

Definition transition_apply (key : jstr) (change : ScheduleChange) (at_ : Z)
    (state : LedgerState) : res (Applied TransitionOutcome) :=
  match get_member (schedules state) key with
  | Missing => Ret (NoWrite (NotTransitioned InvalidPolicy))
  | Inherited arity =>
      (* [versions] is a function: its [length] is the arity, its element undefined *)
      if arity =? 0 then Ret (NoWrite (NotTransitioned InvalidPolicy))
      else
        let! _ := checkVersion (chg_version change) in
        Throw "cannot read properties of undefined"
  | Own versions =>
      match last versions with
      | None => Ret (NoWrite (NotTransitioned InvalidPolicy))
      | Some current =>
          let! schedule := transitionSchedule current change at_ in
          Ret (Write
            (set_schedules state (<[key := versions ++ [schedule]]> (schedules state)))
            (Transitioned schedule))
      end
  end.
End operations.

(** ** The operations *)

(** Lift a validation that throws into a computation over the store. *)
Definition checked {A T W} (v : res A) (k : A -> W -> res T * W) (w : W) : res T * W :=
  match v with
  | Ret a => k a w
  | Throw msg => (Throw msg, w)
  end.

Section programs.
Context {W : Type} `{LedgerStore W}.
Context (sha256 : jstr -> jstr).

(** The validated arguments of [reserve]. *)
Record ReserveArgs := {
  ra_tenant : jstr;
  ra_pool : jstr;
  ra_correlation : jstr;
  ra_profile : MeteringProfile;
  ra_upperBound : Z;
  ra_id : jstr;
  ra_at : Z;
}.

(** [fresh_correlation] and [fresh_id] are the UUIDs minted when the input has none. *)
Definition reserve_args (date_now : Z) (fresh_correlation fresh_id : jstr)
    (input : ReserveInput) : res ReserveArgs :=
  let! tenant := tenantId (ri_tenant input) in
  let! pool := poolId (ri_pool input) in
  let! correlation :=
    if is_undefined (ri_correlation input) then Ret fresh_correlation
    else correlationId (ri_correlation input) in
  let! profile := meteringProfile (ri_provider input) (ri_model input) (ri_version input) in
  let! upperBound := checkUpperBound (ri_upperBound input) in
  let! id :=
    if is_undefined (ri_invocationId input) then Ret fresh_id
    else invocationId (ri_invocationId input) in
  let! at_ := checkClock date_now (ri_nowMs input) in
  Ret {| ra_tenant := tenant; ra_pool := pool; ra_correlation := correlation;
         ra_profile := profile; ra_upperBound := upperBound; ra_id := id; ra_at := at_ |}.

Definition is_true (v : jsval) : bool :=
  match v with JBool b => b | _ => false end.

Definition reserve (date_now : Z) (fresh_correlation fresh_id : jstr) (input : ReserveInput)
    : W -> res ReserveOutcome * W :=
  checked (reserve_args date_now fresh_correlation fresh_id input) (fun a =>
    let unavailable reason := ReserveUnavailable reason (ra_correlation a) (ra_id a) in
    if negb (is_true (ri_qualified input)) then
      fun w => (Ret (unavailable MissingQualification), w)
    else
      run_op unavailable
        (reserve_apply sha256 (ra_tenant a) (ra_pool a) (ra_correlation a) (ra_profile a)
           (ra_upperBound a) (ra_id a) (ra_at a))).

Definition fence (id : jsval) : W -> res FenceOutcome * W :=
  checked (invocationId id) (fun key => run_op FenceUnavailable (fence_apply key)).

Definition settle (id input output : jsval) : W -> res SettleOutcome * W :=
  checked (invocationId id) (fun key =>
    match meteringUsage input output with
    | None => fun w => (Ret (SettleUnavailable InvalidUsage), w)
    | Some usage => run_op SettleUnavailable (settle_apply sha256 key usage)
    end).

Definition releaseUndispatched (id : jsval) : W -> res ReleaseOutcome * W :=
  checked (invocationId id) (fun key => run_op ReleaseUnavailable (release_apply key)).

Definition configurePool (pool limit periodMs anchorMs version : jsval)
    : W -> res ConfigureOutcome * W :=
  checked (epochSchedule pool limit periodMs anchorMs version) (fun pinned =>
    run_op NotConfigured (configure_apply pinned)).

Definition transitionPool (date_now : Z) (pool : jsval) (change : ScheduleChange)
    (nowMs : jsval) : W -> res TransitionOutcome * W :=
  checked (poolId pool) (fun key =>
    checked (checkClock date_now nowMs) (fun at_ =>
      run_op NotTransitioned (transition_apply key change at_))).

(** Read the latest state; a rejected load is [onfail]. *)
Definition reading {T} (onfail : T) (k : LedgerState -> T) (w : W) : res T * W :=
  match load w with
  | (None, w') => (Ret onfail, w')
  | (Some state, w') => (Ret (k state), w')
  end.

Definition reconcile (id : jsval) : W -> res ReconcileOutcome * W :=
  checked (invocationId id) (fun key =>
    reading ReconcileUnavailable (fun state =>
      match get_member (invocations state) key with
      | Own record => Found record
      | Inherited _ => FoundInherited
      | Missing => Absent
      end)).

Inductive EpochStatusOutcome :=
| StatusFound (row : EpochRow) (unresolved : Z)
| StatusAbsent
| StatusUnavailable.

Definition unresolved_state (st : InvocationState) : bool :=
  match st with Held | Fenced => true | _ => false end.

Definition counts_unresolved (tenant pool : jstr) (start : Z) (e : Entry) : bool :=
  match e with
  | Bare => false
  | Full r =>
      bool_decide (inv_tenant r = tenant) && bool_decide (inv_pool r = pool)
      && (inv_epochStart r =? start) && unresolved_state (inv_state r)
  end.

Definition epochStatus (tenant pool epochStart : jsval) : W -> res EpochStatusOutcome * W :=
  checked (tenantId tenant) (fun t =>
    checked (poolId pool) (fun p =>
      checked (match js_safe_integer epochStart with
               | Some z => guard_throw (0 <=? z) "invalid epoch start" (Ret z)
               | None => Throw "invalid epoch start"
               end) (fun start =>
        reading StatusUnavailable (fun state =>
          match epochs state !! epochRowKey t p start with
          | None => StatusAbsent
          | Some row =>
              StatusFound row
                (sum_map (fun _ e => if counts_unresolved t p start e then 1 else 0)
                   (invocations state))
          end)))).
End programs.

(** ** Health report

    [Object.values] enumerates in key order of creation, which a finite map does
    not keep: the report takes the two enumerations as arguments. *)
Record LedgerHealth := {
  lh_epochs : Z;
  lh_committed : Z;
  lh_held : Z;
  lh_unresolved : Z;
  lh_quarantined : list jstr;
}.

(** The saturating [add] of [ledgerHealth]. *)
Definition saturating_add (total value : Z) : Z :=
  let sum := fadd total value in if is_safe sum then sum else MAX_SAFE.

Definition entry_unresolved (e : Entry) : bool :=
  match e with Full r => unresolved_state (inv_state r) | Bare => true end.

(** [profileIdentity], [undefined] for a bare entry. *)
Definition entry_identity (e : Entry) : option jstr :=
  match e with Full r => Some (inv_profileIdentity r) | Bare => None end.

Definition entry_breach (e : Entry) : bool :=
  match e with Full r => inv_breach r | Bare => false end.

(** The [filter] on [record.breach && all.findIndex(sameIdentity) === index]: [seen]
    holds the identities of the entries before the current one, breached or not. *)
Fixpoint breached_identities (seen : list (option jstr)) (all : list Entry) : list jstr :=
  match all with
  | [] => []
  | e :: rest =>
      let later := breached_identities (entry_identity e :: seen) rest in
      match e with
      | Full r =>
          if inv_breach r && negb (bool_decide (Some (inv_profileIdentity r) ∈ seen))
          then inv_profileIdentity r :: later
          else later
      | Bare => later
      end
  end.

Definition ledgerHealth_of (rows : list EpochRow) (entries : list Entry) : LedgerHealth :=
  {| lh_epochs := Z.of_nat (length rows);
     lh_committed := fold_left (fun t r => saturating_add t (row_committed r)) rows 0;
     lh_held := fold_left (fun t r => saturating_add t (row_held r)) rows 0;
     lh_unresolved := Z.of_nat (length (List.filter entry_unresolved entries));
     lh_quarantined := sort_strings (breached_identities [] entries) |}.

Definition ledgerHealth {W} `{LedgerStore W}
    (row_values : gmap jstr EpochRow -> list EpochRow)
    (entry_values : gmap jstr Entry -> list Entry) (w : W) : res (option LedgerHealth) * W :=
  reading None (fun state =>
    Some (ledgerHealth_of (row_values (epochs state)) (entry_values (invocations state)))) w.
