(* ===== verification/LedgerInv.v ===== *)
(** * Accounting invariants of the token ledger

    [Inv] relates every epoch row to the records that were admitted into it; each
    transaction body of [Ledger] preserves it, hence so does every interleaving of
    clients over one store. *)
From stdpp Require Import base gmap list strings relations.
From Stdlib Require Import ZArith Lia.
From S2P Require Import Prelude JsNumber JsString JsValue Identity Epoch Ledger.

(** ** Contributions of one record to one row *)

Definition in_row (key : jstr) (r : InvocationRecord) : bool := bool_decide (record_row r = key).

Definition held_part (key : jstr) (e : Entry) : Z :=
  match e with
  | Full r => if in_row key r && unresolved_state (inv_state r) then inv_upperBound r else 0
  | Bare => 0
  end.

Definition used (r : InvocationRecord) : Z :=
  match inv_state r, inv_usage r with
  | Settled, Some u => inputTokens u + outputTokens u
  | _, _ => 0
  end.

Definition committed_part (key : jstr) (e : Entry) : Z :=
  match e with
  | Full r => if in_row key r then used r else 0
  | Bare => 0
  end.

(** Actual usage, capped at the bound the admission reserved. *)
Definition capped_part (key : jstr) (e : Entry) : Z :=
  match e with
  | Full r => if in_row key r then Z.min (used r) (inv_upperBound r) else 0
  | Bare => 0
  end.

#[global] Arguments held_part : simpl never.
#[global] Arguments committed_part : simpl never.
#[global] Arguments capped_part : simpl never.
#[global] Arguments used : simpl never.

Definition sum_part (part : jstr -> Entry -> Z) (key : jstr) (m : gmap jstr Entry) : Z :=
  sum_map (fun _ e => part key e) m.

(** ** The invariant *)

Record row_ok (invs : gmap jstr Entry) (key : jstr) (row : EpochRow) : Prop := {
  ro_key : key = epochRowKey (row_tenant row) (row_pool row) (row_start row);
  ro_tenant : valid_identity (row_tenant row);
  ro_pool : valid_identity (row_pool row);
  ro_start : 0 <= row_start row;
  ro_limit : 0 <= row_limit row <= MAX_SAFE;
  ro_held : row_held row = sum_part held_part key invs;
  ro_committed : row_committed row = sum_part committed_part key invs;
  ro_committed_safe : row_committed row <= MAX_SAFE;
  ro_capped : row_held row + sum_part capped_part key invs <= row_limit row;
}.

Definition valid_usage (u : Usage) : Prop :=
  0 <= inputTokens u /\ 0 <= outputTokens u /\ inputTokens u + outputTokens u <= MAX_SAFE.

Definition usage_ok (r : InvocationRecord) : Prop :=
  match inv_state r, inv_usage r with
  | Settled, Some u => valid_usage u /\ inv_breach r = (inv_upperBound r <? used r)
  | Settled, None => False
  | _, Some _ => False
  | _, None => inv_breach r = false
  end.

Definition fence_ok (r : InvocationRecord) : Prop :=
  match inv_state r with
  | Held | Released => inv_fenced r = false
  | Fenced => inv_fenced r = true
  | Settled => True
  end.

Section invariant.
Context (sha256 : jstr -> jstr).

Record entry_ok (s : LedgerState) (k : jstr) (r : InvocationRecord) : Prop := {
  eo_id : inv_id r = k;
  eo_tenant : valid_identity (inv_tenant r);
  eo_pool : valid_identity (inv_pool r);
  eo_bound : 1 <= inv_upperBound r <= inv_limit r;
  eo_row : exists row, epochs s !! record_row r = Some row
             /\ row_limit row = inv_limit r /\ row_start row = inv_epochStart r
             /\ row_end row = inv_epochEnd r;
  eo_identity : inv_profileIdentity r = profileId (inv_profile r);
  eo_usage : usage_ok r;
  eo_fence : fence_ok r;
  eo_breach : inv_breach r = true -> profileKey sha256 (inv_profile r) ∈ quarantined s;
}.

(** The versions of a pool: valid, and each anchored at a boundary of the one before. *)
Definition versions_ok (versions : list EpochSchedule) : Prop :=
  versions <> [] /\ Forall valid_schedule versions
  /\ forall i a b, versions !! i = Some a -> versions !! S i = Some b ->
       boundary_of a (sch_anchorMs b).

Record Inv (s : LedgerState) : Prop := {
  inv_rows : forall key row, epochs s !! key = Some row -> row_ok (invocations s) key row;
  inv_entries : forall k r, invocations s !! k = Some (Full r) -> entry_ok s k r;
  inv_schedules : forall p vs, schedules s !! p = Some vs -> versions_ok vs;
  inv_quarantine : forall d, d ∈ quarantined s ->
    exists k r, invocations s !! k = Some (Full r) /\ inv_breach r = true
                /\ profileKey sha256 (inv_profile r) = d;
}.

(** ** Elementary facts *)

Lemma epochRowKey_inj t p n t' p' n' :
  valid_identity t -> valid_identity p -> valid_identity t' -> valid_identity p' ->
  0 <= n -> 0 <= n' ->
  epochRowKey t p n = epochRowKey t' p' n' -> t = t' /\ p = p' /\ n = n'.
Proof.
  intros Ht Hp Ht' Hp' Hn Hn' Heq. unfold epochRowKey in Heq. simpl in Heq.
  apply split_at_delimiter in Heq as [-> Heq]; [| by apply valid_identity_no_newline..].
  apply split_at_delimiter in Heq as [-> Heq]; [| by apply valid_identity_no_newline..].
  split_and!; eauto using dec_of_Z_inj.
Qed.

Lemma Inv_empty : Inv emptyLedgerState.
Proof. split; simpl; intros *; rewrite ?lookup_empty; set_solver. Qed.

Lemma in_row_true key r : in_row key r = true <-> record_row r = key.
Proof. apply bool_decide_eq_true. Qed.

Lemma used_nonneg r : usage_ok r -> 0 <= used r.
Proof.
  unfold usage_ok, used, valid_usage.
  destruct (inv_state r), (inv_usage r); simpl; intros; destruct_and?; lia.
Qed.

(** Replacing a record by one in the same row changes the sums of that row only. *)
Lemma sum_part_replace part key m k r r' :
  m !! k = Some (Full r) ->
  sum_part part key (<[k := Full r']> m)
  = sum_part part key m - part key (Full r) + part key (Full r').
Proof. intros Hk. unfold sum_part. by rewrite (sum_map_insert_replace _ m k (Full r)). Qed.

Lemma sum_part_new part key m k r :
  m !! k = None ->
  sum_part part key (<[k := Full r]> m) = part key (Full r) + sum_part part key m.
Proof. intros Hk. unfold sum_part. by rewrite sum_map_insert_new. Qed.

Lemma sum_part_bare part key m k :
  m !! k = None -> part key Bare = 0 ->
  sum_part part key (<[k := Bare]> m) = sum_part part key m.
Proof. intros Hk Hp. unfold sum_part. rewrite sum_map_insert_new, Hp by done. lia. Qed.

Lemma part_other key r :
  record_row r <> key ->
  held_part key (Full r) = 0 /\ committed_part key (Full r) = 0 /\ capped_part key (Full r) = 0.
Proof.
  intros Hne. unfold held_part, committed_part, capped_part, in_row.
  by rewrite (bool_decide_eq_false_2 _ Hne).
Qed.

Lemma part_same r :
  held_part (record_row r) (Full r) =
    (if unresolved_state (inv_state r) then inv_upperBound r else 0)
  /\ committed_part (record_row r) (Full r) = used r
  /\ capped_part (record_row r) (Full r) = Z.min (used r) (inv_upperBound r).
Proof.
  unfold held_part, committed_part, capped_part, in_row.
  by rewrite bool_decide_eq_true_2.
Qed.

Lemma parts_nonneg s key k e :
  Inv s -> invocations s !! k = Some e ->
  0 <= held_part key e /\ 0 <= committed_part key e /\ 0 <= capped_part key e.
Proof.
  intros Hinv Hk. destruct e as [r|]; [| done].
  destruct (inv_entries s Hinv k r Hk) as [_ _ _ Hb _ _ Hu _ _].
  pose proof (used_nonneg r Hu). unfold held_part, committed_part, capped_part.
  destruct (in_row key r), (unresolved_state (inv_state r)); simpl; lia.
Qed.

Lemma sums_nonneg s key :
  Inv s ->
  0 <= sum_part held_part key (invocations s)
  /\ 0 <= sum_part committed_part key (invocations s)
  /\ 0 <= sum_part capped_part key (invocations s).
Proof.
  intros Hinv. split_and!; apply sum_map_nonneg; intros k e Hk;
    pose proof (parts_nonneg s key k e Hinv Hk); tauto.
Qed.

Lemma capped_le_committed key m : sum_part capped_part key m <= sum_part committed_part key m.
Proof.
  apply sum_map_le. intros k [r|] _; [| done]. unfold capped_part, committed_part.
  destruct (in_row key r); lia.
Qed.

(** ** Updating one row and one record

    Every accounting transaction replaces the row of one record and that record. *)

(** Rows other than [key] keep their sums when the record stays in row [key]. *)
Lemma row_ok_other s key k row r' invs' :
  Inv s -> row_ok (invocations s) key row -> record_row r' <> key ->
  invs' = <[k := Full r']> (invocations s) ->
  (invocations s !! k = None \/
   exists r, invocations s !! k = Some (Full r) /\ record_row r = record_row r') ->
  row_ok invs' key row.
Proof.
  intros Hinv Hrow Hne -> Hk.
  assert (forall part, (forall r, record_row r <> key -> part key (Full r) = 0) ->
    sum_part part key (<[k := Full r']> (invocations s)) = sum_part part key (invocations s))
    as Hsum.
  { intros part Hpart. destruct Hk as [Hk|(r & Hk & Hr)].
    - rewrite sum_part_new by done. rewrite Hpart by done. lia.
    - rewrite (sum_part_replace _ _ _ _ r) by done. rewrite !Hpart by congruence. lia. }
  destruct Hrow. split; try done; rewrite !Hsum; try done;
    intros r ?; pose proof (part_other key r ltac:(done)); tauto.
Qed.

(** An entry that the update does not touch stays well formed. *)
Lemma entry_ok_frame s s' k r rowkey row row' :
  entry_ok s k r ->
  epochs s !! rowkey = Some row -> epochs s' = <[rowkey := row']> (epochs s) ->
  row_limit row' = row_limit row -> row_start row' = row_start row ->
  row_end row' = row_end row -> quarantined s ⊆ quarantined s' ->
  entry_ok s' k r.
Proof.
  intros Hok Hrow He Hl Hs Hn Hq. destruct Hok as [? ? ? ? (row0 & Hr0 & ? & ? & ?) ? ? ? Hbr].
  split; try done; [| set_solver]. rewrite He.
  destruct (decide (rowkey = record_row r)) as [->|Hne].
  - exists row'. rewrite lookup_insert_eq. split; [done |].
    rewrite Hrow in Hr0. injection Hr0 as ->. rewrite Hl, Hs, Hn. done.
  - exists row0. by rewrite lookup_insert_ne.
Qed.

(** The row after its record [r] moved to [r'] in the same row. *)
Lemma row_ok_replace s k r r' row row' :
  Inv s -> invocations s !! k = Some (Full r) -> epochs s !! record_row r = Some row ->
  record_row r' = record_row r ->
  row_tenant row' = row_tenant row -> row_pool row' = row_pool row ->
  row_start row' = row_start row -> row_limit row' = row_limit row ->
  row_held row' = row_held row - held_part (record_row r) (Full r)
                               + held_part (record_row r) (Full r') ->
  row_committed row' = row_committed row - used r + used r' -> row_committed row' <= MAX_SAFE ->
  row_held row' + Z.min (used r') (inv_upperBound r')
    <= row_held row + Z.min (used r) (inv_upperBound r) ->
  row_ok (<[k := Full r']> (invocations s)) (record_row r) row'.
Proof.
  intros Hinv Hk Hrow Hsame Ht Hp Hst Hl Hh Hc Hcs Hcap.
  destruct (inv_rows _ Hinv _ _ Hrow) as [Hkey ? ? ? ? Hheld Hcomm _ Hcapped].
  destruct (part_same r) as (_ & Hcr & Hpr). destruct (part_same r') as (_ & Hcr' & Hpr').
  rewrite Hsame in Hcr', Hpr'.
  split; rewrite ?Ht, ?Hp, ?Hst, ?Hl; try done; rewrite ?(sum_part_replace _ _ _ _ r) by done.
  - lia.
  - rewrite Hcr, Hcr'. lia.
  - rewrite Hpr, Hpr'. lia.
Qed.

(** A state that advances one record [r] to [r'] and its row to [row']. *)
Lemma Inv_update s k r r' row row' s' :
  Inv s -> invocations s !! k = Some (Full r) -> epochs s !! record_row r = Some row ->
  record_row r' = record_row r ->
  epochs s' = <[record_row r := row']> (epochs s) ->
  invocations s' = <[k := Full r']> (invocations s) ->
  schedules s' = schedules s -> quarantined s ⊆ quarantined s' ->
  row_limit row' = row_limit row -> row_start row' = row_start row ->
  row_end row' = row_end row ->
  row_ok (<[k := Full r']> (invocations s)) (record_row r) row' ->
  (entry_ok s' k r -> entry_ok s' k r') ->
  (inv_breach r = true -> inv_breach r' = true /\ inv_profile r' = inv_profile r) ->
  (forall d, d ∈ quarantined s' -> d ∈ quarantined s \/
     (inv_breach r' = true /\ profileKey sha256 (inv_profile r') = d)) ->
  Inv s'.
Proof.
  intros Hinv Hk Hrow Hsame He Hi Hsch Hq Hl Hst Hen Hnew Hentry Hbr Hquar. split.
  - intros key row0 Hr0. rewrite He in Hr0. rewrite Hi.
    destruct (decide (record_row r = key)) as [<-|Hne].
    + rewrite lookup_insert_eq in Hr0. injection Hr0 as <-. done.
    + rewrite lookup_insert_ne in Hr0 by done.
      apply (row_ok_other s key k row0 r'); [done | by apply inv_rows | congruence | done |].
      right. by exists r.
  - intros k0 r0 Hk0. rewrite Hi in Hk0.
    destruct (decide (k = k0)) as [<-|Hne].
    + rewrite lookup_insert_eq in Hk0. injection Hk0 as <-. apply Hentry.
      eapply entry_ok_frame; eauto. by apply inv_entries.
    + rewrite lookup_insert_ne in Hk0 by done.
      eapply entry_ok_frame; eauto. by apply inv_entries.
  - rewrite Hsch. apply Hinv.
  - intros d Hd. rewrite Hi. destruct (Hquar d Hd) as [Hold|[Hb Hkey]].
    + destruct (inv_quarantine s Hinv d Hold) as (k0 & r0 & Hk0 & Hb0 & Hp0).
      destruct (decide (k = k0)) as [<-|Hne].
      * rewrite Hk in Hk0. injection Hk0 as <-. destruct (Hbr Hb0) as [? Hpp].
        exists k, r'. rewrite lookup_insert_eq, Hpp. done.
      * exists k0, r0. by rewrite lookup_insert_ne.
    + exists k, r'. by rewrite lookup_insert_eq.
Qed.

(** ** Preservation, one transaction body at a time *)

Lemma fits_spec limit committed held u :
  0 <= limit <= MAX_SAFE -> 0 <= committed <= MAX_SAFE -> 0 <= u <= MAX_SAFE -> 0 <= held ->
  fits limit committed held u = true <-> committed + held + u <= limit.
Proof.
  intros Hl Hc Hu Hh. unfold fits. destruct (Z.ltb_spec limit u); [lia |].
  rewrite fsub_exact by lia. destruct (Z.ltb_spec (limit - u) committed); [lia |].
  rewrite fsub_exact by lia. rewrite Z.leb_le. lia.
Qed.

Lemma row_bounds s key row :
  Inv s -> epochs s !! key = Some row ->
  0 <= row_held row <= row_limit row /\ 0 <= row_committed row <= MAX_SAFE
  /\ 0 <= row_limit row <= MAX_SAFE.
Proof.
  intros Hinv Hrow. destruct (inv_rows s Hinv key row Hrow).
  pose proof (sums_nonneg s key Hinv). lia.
Qed.

(** A held amount is part of its row's hold. *)
Lemma bound_le_held s k r row :
  Inv s -> invocations s !! k = Some (Full r) -> epochs s !! record_row r = Some row ->
  unresolved_state (inv_state r) = true -> inv_upperBound r <= row_held row.
Proof.
  intros Hinv Hk Hrow Hu. destruct (inv_rows s Hinv _ _ Hrow) as [_ _ _ _ _ -> _ _ _].
  destruct (part_same r) as (Hh & _). rewrite Hu in Hh. rewrite <- Hh.
  apply (sum_map_member (fun _ e => held_part (record_row r) e) _ k); [done |].
  intros k' e' Hk'. apply (parts_nonneg s (record_row r) k' e' Hinv Hk').
Qed.

Lemma Inv_bare s key :
  Inv s -> invocations s !! key = None ->
  Inv (next_state s (epochs s) (<[key := Bare]> (invocations s)) (quarantined s)).
Proof.
  intros Hinv Hk.
  assert (forall k r, <[key := Bare]> (invocations s) !! k = Some (Full r) ->
            invocations s !! k = Some (Full r)) as Hfull.
  { intros k r. destruct (decide (key = k)) as [<-|Hne];
      [rewrite lookup_insert_eq | rewrite lookup_insert_ne by done]; naive_solver. }
  split; simpl.
  - intros k row Hrow. destruct (inv_rows s Hinv k row Hrow).
    split; try done; by rewrite sum_part_bare.
  - intros k r Hr. destruct (inv_entries s Hinv k r (Hfull k r Hr)). by split.
  - apply Hinv.
  - intros d Hd. destruct (inv_quarantine s Hinv d Hd) as (k & r & Hkr & ?).
    exists k, r. rewrite lookup_insert_ne; [done | congruence].
Qed.

Lemma fence_preserves s key s' v :
  Inv s -> fence_apply key s = Ret (Write s' v) -> Inv s'.
Proof.
  intros Hinv H. unfold fence_apply in H. inv_res.
  destruct (get_member (invocations s) key) as [[r|]|arity|] eqn:Hm; simplify_eq.
  - apply get_member_own in Hm. destruct (inv_entries s Hinv key r Hm) as [_ _ _ _ Hrow _ _ Hfo _].
    destruct Hrow as (row & Hrow & _).
    destruct (inv_state r) eqn:Hst; destruct (inv_fenced r) eqn:Hf; simplify_eq.
    all: unfold fence_ok in Hfo; rewrite Hst in Hfo; try congruence.
    set (r' := with_state r Fenced true (inv_usage r) (inv_breach r)).
    assert (used r' = used r) as Hused by (unfold used; simpl; by rewrite Hst).
    apply (Inv_update s key r r' row row); simpl; try done; auto.
    + by rewrite insert_id.
    + destruct (part_same r) as (Hh & _). destruct (part_same r') as (Hh' & _).
      change (record_row r') with (record_row r) in Hh'. rewrite Hst in Hh. simpl in *.
      apply (row_ok_replace s key r r' row row Hinv Hm Hrow); try done; simpl; try lia.
      apply (row_bounds s (record_row r) row Hinv Hrow).
    + intros Hold. destruct Hold as [? ? ? ? ? ? Hu ? ?]. split; try done.
      unfold usage_ok in *. simpl. by rewrite Hst in *.
  - apply Inv_bare; [done |]. unfold get_member in Hm. by destruct (invocations s !! key).
Qed.

(** The two ways to leave the unresolved states lift the whole hold. *)
Lemma lift_hold s k r row :
  Inv s -> invocations s !! k = Some (Full r) -> epochs s !! record_row r = Some row ->
  unresolved_state (inv_state r) = true ->
  fsub (row_held row) (inv_upperBound r) = row_held row - inv_upperBound r
  /\ held_part (record_row r) (Full r) = inv_upperBound r /\ used r = 0
  /\ 1 <= inv_upperBound r <= MAX_SAFE.
Proof.
  intros Hinv Hk Hrow Hu. pose proof (bound_le_held s k r row Hinv Hk Hrow Hu).
  pose proof (row_bounds s _ row Hinv Hrow). destruct (inv_entries s Hinv k r Hk).
  destruct (part_same r) as (Hh & _). rewrite Hu in Hh.
  assert (used r = 0) as Hused by (unfold used; by destruct (inv_state r)).
  split_and!; try done; try lia. apply fsub_exact; lia.
Qed.

Lemma release_preserves s key s' v :
  Inv s -> release_apply key s = Ret (Write s' v) -> Inv s'.
Proof.
  intros Hinv H. unfold release_apply in H. inv_res.
  destruct (get_member (invocations s) key) as [[r|]|arity|] eqn:Hm; simplify_eq.
  apply get_member_own in Hm.
  destruct (inv_entries s Hinv key r Hm) as [_ _ _ _ _ _ Husg Hfo _].
  unfold fence_ok, usage_ok in Hfo, Husg.
  destruct (inv_state r) eqn:Hst; destruct (inv_fenced r) eqn:Hf; simplify_eq.
  destruct (epochs s !! record_row r) as [row|] eqn:Hrow; simplify_eq.
  destruct (inv_usage r) eqn:Hus; [done |].
  destruct (lift_hold s key r row Hinv Hm Hrow) as (Hsub & Hh & Hused & Hb); [by rewrite Hst |].
  set (r' := with_state r Released false None (inv_breach r)).
  set (row' := set_held row (fsub (row_held row) (inv_upperBound r))).
  assert (used r' = 0) as Hused' by done.
  destruct (part_same r') as (Hh' & _). change (record_row r') with (record_row r) in Hh'.
  simpl in Hh'.
  apply (Inv_update s key r r' row row'); simpl; try done; auto.
  - apply (row_ok_replace s key r r' row row' Hinv Hm Hrow); try done; simpl; try lia.
    apply (row_bounds s (record_row r) row Hinv Hrow).
  - intros [? ? ? ? ? ? ? ? ?]. by split.
Qed.

Lemma valid_usage_total u : valid_usage u -> usageTotal u = inputTokens u + outputTokens u.
Proof. intros (? & ? & ?). by apply fadd_exact. Qed.

Lemma meteringUsage_valid i o u : meteringUsage i o = Some u -> valid_usage u.
Proof.
  unfold meteringUsage, checkUsageTokens. intros H. repeat case_hyp H; simplify_eq.
  repeat match goal with
  | E : match ?x with _ => _ end = Some _ |- _ => destruct x eqn:?; simplify_eq
  end.
  split_bools. unfold valid_usage, fadd in *; simpl.
  match goal with H : is_safe (rnd ?x) = true |- _ =>
    destruct (rnd_safe_exact x ltac:(lia) H) end. lia.
Qed.

Lemma settle_preserves s key usage s' v :
  Inv s -> valid_usage usage -> settle_apply sha256 key usage s = Ret (Write s' v) -> Inv s'.
Proof.
  intros Hinv Hu H. unfold settle_apply in H.
  destruct (get_member (invocations s) key) as [[r|]|arity|] eqn:Hm; simplify_eq.
  apply get_member_own in Hm.
  assert (settle_unresolved sha256 key usage r s = Write s' v
          /\ unresolved_state (inv_state r) = true) as [Hset Hun].
  { destruct (inv_state r); simplify_eq; [by inv_res..|]. repeat case_hyp H; simplify_eq. }
  clear H. unfold settle_unresolved in Hset.
  destruct (epochs s !! record_row r) as [row|] eqn:Hrow; simplify_eq.
  rewrite (valid_usage_total usage Hu) in Hset.
  pose proof (row_bounds s _ row Hinv Hrow) as (Hhb & Hcb & Hlb).
  destruct (lift_hold s key r row Hinv Hm Hrow Hun) as (Hsub & Hh & Hused & Hb).
  destruct (is_safe (fadd _ _)) eqn:Hsafe; simpl in Hset; [| simplify_eq].
  pose proof Hu as (Hu1 & Hu2 & Hu3).
  destruct (rnd_safe_exact (row_committed row + (inputTokens usage + outputTokens usage))
    ltac:(lia) Hsafe) as [Hadd Hmax].
  unfold fadd in Hset. rewrite Hadd, Hsub in Hset. injection Hset as <- _.
  set (actual := inputTokens usage + outputTokens usage) in *.
  set (breached := inv_upperBound r <? actual).
  set (r' := with_state r Settled (inv_fenced r) (Some usage) breached).
  set (row' := set_held (set_committed row (row_committed row + actual))
                 (row_held row - inv_upperBound r)).
  assert (used r' = actual) as Hused' by done.
  destruct (part_same r') as (Hh' & _). change (record_row r') with (record_row r) in Hh'.
  simpl in Hh'.
  apply (Inv_update s key r r' row row'); simpl; try done.
  - destruct breached; set_solver.
  - apply (row_ok_replace s key r r' row row' Hinv Hm Hrow); try done; simpl; lia.
  - intros [? ? ? ? ? ? ? ? Hbr]. split; try done. simpl. unfold breached.
    intros ->. set_solver.
  - intros Hbr. destruct (inv_entries s Hinv key r Hm) as [_ _ _ _ _ _ Husg _ _].
    unfold usage_ok in Husg.
    destruct (inv_state r), (inv_usage r); simplify_eq/=; try done; congruence.
  - intros d Hd. destruct breached eqn:E; [| by left].
    apply elem_of_union in Hd as [Hd|Hd]; [right | by left]. by apply elem_of_singleton in Hd.
Qed.

Lemma versions_ok_last versions current :
  versions_ok versions -> last versions = Some current -> valid_schedule current.
Proof.
  intros (_ & Hf & _) Hl. rewrite Forall_forall in Hf. apply Hf.
  by apply last_Some_elem_of.
Qed.

Lemma versions_ok_snoc versions current s' :
  versions_ok versions -> last versions = Some current -> valid_schedule s' ->
  boundary_of current (sch_anchorMs s') -> versions_ok (versions ++ [s']).
Proof.
  intros (_ & Hf & Hchain) Hl Hv Hb. split; [by destruct versions |].
  split; [apply Forall_app; split; auto |].
  intros i a b Ha Hb'. destruct (decide (S i < length versions)%nat) as [Hlt|Hge].
  - rewrite !lookup_app_l in * by lia. eauto.
  - assert (S i = length versions) as Hi.
    { apply lookup_lt_Some in Hb'. rewrite length_app in Hb'. simpl in Hb'. lia. }
    rewrite (lookup_app_r _ _ (S i)), Hi, Nat.sub_diag in Hb' by lia. injection Hb' as <-.
    rewrite lookup_app_l in Ha by lia. rewrite last_lookup in Hl.
    replace (pred (length versions)) with i in Hl by lia. congruence.
Qed.

Lemma Inv_set_schedules s m :
  Inv s -> (forall p vs, m !! p = Some vs -> versions_ok vs) -> Inv (set_schedules s m).
Proof.
  intros Hinv Hm. split; simpl; try apply Hinv; [| done].
  intros k r Hk. destruct (inv_entries s Hinv k r Hk). by split.
Qed.

Lemma configure_preserves s pinned s' v :
  Inv s -> valid_schedule pinned -> configure_apply pinned s = Ret (Write s' v) -> Inv s'.
Proof.
  intros Hinv Hv H. unfold configure_apply in H. inv_res. case_match; simplify_eq.
  apply Inv_set_schedules; [done |]. intros p vs.
  rewrite lookup_insert_Some. intros [[_ <-]|[_ Hvs]]; [| by eapply Hinv].
  split; [done |]. split; [by constructor |]. intros i a b _ Hb. by destruct i.
Qed.

Lemma transition_preserves s key change at_ s' v :
  Inv s -> transition_apply key change at_ s = Ret (Write s' v) -> Inv s'.
Proof.
  intros Hinv H. unfold transition_apply in H.
  destruct (get_member (schedules s) key) as [versions|arity|] eqn:Hm; simplify_eq.
  - destruct (last versions) as [current|] eqn:Hl; simplify_eq. inv_res.
    apply get_member_own in Hm. pose proof (inv_schedules s Hinv key versions Hm) as Hok.
    pose proof (versions_ok_last _ _ Hok Hl) as Hcur.
    match goal with H : transitionSchedule _ _ _ = _ |- _ =>
      destruct (transitionSchedule_ret _ _ _ _ Hcur H) as (Hval & _ & _ & Hb & _) end.
    apply Inv_set_schedules; [done |]. intros p vs.
    rewrite lookup_insert_Some. intros [[_ <-]|[_ Hvs]]; [| by eapply Hinv].
    by eapply versions_ok_snoc.
  - destruct (arity =? 0); inv_res. simplify_eq.
Qed.

(** No record points at a row that does not exist. *)
Lemma sums_absent s key :
  Inv s -> epochs s !! key = None ->
  sum_part held_part key (invocations s) = 0
  /\ sum_part committed_part key (invocations s) = 0
  /\ sum_part capped_part key (invocations s) = 0.
Proof.
  intros Hinv Hk.
  assert (forall part, (forall r, record_row r <> key -> part key (Full r) = 0) ->
    part key Bare = 0 -> sum_part part key (invocations s) = 0) as Hz.
  { intros part Hp Hb. unfold sum_part.
    rewrite (sum_map_ext _ (fun _ _ => 0)).
    - apply Z.le_antisymm; [| by apply sum_map_nonneg].
      induction (invocations s) as [|k e m Hnew IH] using map_ind; [done |].
      by rewrite sum_map_insert_new.
    - intros k [r|] Hr; [| done]. apply Hp. intros Heq.
      destruct (inv_entries s Hinv k r Hr) as [_ _ _ _ (row & Hrow & _) _ _ _ _]. congruence. }
  split_and!; apply Hz; try done; intros r Hne; by apply (part_other key r).
Qed.

(** The row [reserve] charges: the stored one, or the fresh row of the epoch. *)
Record chargeable (s : LedgerState) (tenant pool key : jstr) (current : EpochRow) : Prop := {
  ch_row : row_ok (invocations s) key current;
  ch_tenant : row_tenant current = tenant;
  ch_pool : row_pool current = pool;
  ch_stored : epochs s !! key = Some current \/ epochs s !! key = None;
}.

Lemma charged_row s tenant pool epoch schedule :
  Inv s -> valid_identity tenant -> valid_identity pool -> valid_schedule schedule ->
  0 <= ep_start epoch ->
  let key := epochRowKey tenant pool (ep_start epoch) in
  let current := default (fresh_row tenant pool epoch schedule) (epochs s !! key) in
  chargeable s tenant pool key current /\ row_start current = ep_start epoch.
Proof.
  intros Hinv Ht Hp Hv Hst key current. subst current.
  destruct (epochs s !! key) as [row|] eqn:Hrow; simpl.
  - pose proof (inv_rows s Hinv key row Hrow) as Hok. destruct Hok as [Hkey Hrt Hrp Hrs].
    destruct (epochRowKey_inj _ _ _ _ _ _ Ht Hp Hrt Hrp Hst Hrs Hkey) as (-> & -> & ->).
    split; [| done]. split; first [done | by apply inv_rows | by left].
  - destruct (sums_absent s key Hinv Hrow) as (Hh & Hc & Hcap). split; [| done].
    split; [| done | done | by right]. destruct Hv.
    split; simpl; rewrite ?Hh, ?Hc, ?Hcap; try done; lia.
Qed.

Lemma Inv_admit s tenant pool correlation profile u id key current :
  Inv s -> chargeable s tenant pool key current -> invocations s !! id = None ->
  1 <= u <= MAX_SAFE ->
  fits (row_limit current) (row_committed current) (row_held current) u = true ->
  Inv (next_state s (<[key := set_held current (fadd (row_held current) u)]> (epochs s))
         (<[id := Full (held_record id tenant pool correlation profile u current)]>
            (invocations s)) (quarantined s)).
Proof.
  intros Hinv [Hrow <- <- Hstored] Hid Hu Hfit.
  pose proof Hrow as [Hkey ? ? ? Hlim Hheld Hcomm Hcs Hcap].
  pose proof (sums_nonneg s key Hinv) as (Hs1 & Hs2 & Hs3).
  pose proof (capped_le_committed key (invocations s)).
  apply fits_spec in Hfit; [| lia..]. rewrite fadd_exact by lia.
  set (r' := held_record _ _ _ _ _ _ _). set (row' := set_held _ _).
  assert (record_row r' = key) as Hr' by (by rewrite Hkey).
  destruct (part_same r') as (Hh' & Hc' & Hp'). rewrite Hr' in *.
  change (used r') with 0 in *. simpl in Hh', Hp'.
  rewrite Z.min_l in Hp' by lia. split; simpl.
  - intros k0 row0 Hr0. destruct (decide (key = k0)) as [<-|Hne].
    + rewrite lookup_insert_eq in Hr0. injection Hr0 as <-.
      split; simpl; try done; rewrite ?sum_part_new, ?Hh', ?Hc', ?Hp' by done; lia.
    + rewrite lookup_insert_ne in Hr0 by done.
      apply (row_ok_other s k0 id row0 r'); [done | by apply inv_rows | congruence | done |].
      by left.
  - intros k0 r0. rewrite lookup_insert_Some. intros [[<- [= <-]]|[Hne Hk0]].
    + split; simpl; try done; [lia | rewrite Hr'].
      exists row'. by rewrite lookup_insert_eq.
    + pose proof (inv_entries s Hinv k0 r0 Hk0) as Hok.
      destruct Hstored as [Hst|Hst]; [by eapply entry_ok_frame |].
      destruct Hok as [? ? ? ? (row1 & Hr1 & ?) ? ? ? ?]. split; try done.
      exists row1. simpl. rewrite lookup_insert_ne by congruence. done.
  - apply Hinv.
  - intros d Hd. destruct (inv_quarantine s Hinv d Hd) as (k & r & Hk & ?).
    exists k, r. rewrite lookup_insert_ne; [done | congruence].
Qed.

Lemma applicable_from_in picked versions now v :
  applicable_from picked versions now = Some v -> v ∈ versions \/ picked = Some v.
Proof.
  revert picked. induction versions as [|x versions IH]; simpl; intros picked H; [by right |].
  destruct (now <? sch_anchorMs x); [by right |].
  destruct (IH _ H) as [Hin|[= ->]]; left; [by right | by left].
Qed.

Lemma reserve_epoch_some s pool at_ schedule epoch :
  Inv s -> reserve_epoch s pool at_ = Ret (Some (schedule, epoch)) ->
  exists versions, schedules s !! pool = Some versions
    /\ applicableSchedule versions at_ = Some schedule
    /\ epochContaining schedule at_ = Ret (Some epoch) /\ valid_schedule schedule.
Proof.
  intros Hinv H. unfold reserve_epoch in H.
  destruct (get_member (schedules s) pool) as [versions|arity|] eqn:Hm; simplify_eq.
  apply get_member_own in Hm. exists versions.
  destruct (applicableSchedule versions at_) as [sch|] eqn:Ha; simplify_eq.
  inv_res. destruct x as [e|]; simplify_eq/=. split_and!; try done.
  destruct (inv_schedules s Hinv pool versions Hm) as (_ & Hf & _).
  rewrite Forall_forall in Hf. apply Hf.
  by apply applicable_from_in in Ha as [?|?].
Qed.

Lemma reserve_preserves s tenant pool correlation profile u id at_ s' v :
  Inv s -> valid_identity tenant -> valid_identity pool -> 1 <= u <= MAX_SAFE ->
  reserve_apply sha256 tenant pool correlation profile u id at_ s = Ret (Write s' v) -> Inv s'.
Proof.
  intros Hinv Ht Hp Hu H. unfold reserve_apply in H. inv_res.
  destruct x as [[schedule epoch]|]; simplify_eq.
  match goal with H : reserve_epoch _ _ _ = _ |- _ =>
    destruct (reserve_epoch_some _ _ _ _ _ Hinv H) as (vs & _ & _ & He & Hv) end.
  destruct (get_member (invocations s) id) as [[r|]|arity|] eqn:Hm; simplify_eq;
    [by case_match |].
  apply get_member_missing in Hm as [Hid _]. unfold reserve_new in H. simplify_eq.
  destruct (bool_decide _); simplify_eq.
  destruct (epochContaining_some _ _ _ Hv He) as (Hat & Hst & _ & _).
  assert (0 <= ep_start epoch) as Hge.
  { destruct Hv. rewrite Hst.
    pose proof (quotient_product_bound (at_ - sch_anchorMs schedule) (sch_periodMs schedule)).
    lia. }
  destruct (charged_row s tenant pool epoch schedule Hinv Ht Hp Hv Hge) as [Hch _].
  destruct (fits _ _ _ _) eqn:Hfit; simplify_eq/=. by apply Inv_admit.
Qed.
End invariant.
