(* ===== verification/LedgerConc.v ===== *)
(** * Concurrent clients over one ledger store

    [ClientOp] is one validated transaction of some client; [ledger_step] is its
    atomic write.  [LawfulStore] states what a backend promises
    ([LedgerStore.load]/[commit]), and the transaction loop is proved against that
    interface.  [SharedStore] is a backend that other clients write to between any
    two calls and that may reject or lose any call. *)
From stdpp Require Import base gmap list strings relations.
From Stdlib Require Import ZArith Lia.
From S2P Require Import Prelude JsNumber JsString JsValue Identity Epoch Ledger LedgerInv.

Inductive ClientOp :=
| OpReserve (a : ReserveArgs)
| OpFence (key : jstr)
| OpSettle (key : jstr) (usage : Usage)
| OpRelease (key : jstr)
| OpConfigure (pinned : EpochSchedule)
| OpTransition (key : jstr) (change : ScheduleChange) (at_ : Z).

(** The state a transaction body writes, if it writes. *)
Definition written {T} (r : res (Applied T)) : option LedgerState :=
  match r with
  | Ret (Write next _) => Some next
  | _ => None
  end.

Lemma written_some {T} (r : res (Applied T)) s' :
  written r = Some s' <-> exists v, r = Ret (Write s' v).
Proof. destruct r as [[]|]; naive_solver. Qed.

Definition reserve_body (sha256 : jstr -> jstr) (a : ReserveArgs)
    : LedgerState -> res (Applied ReserveOutcome) :=
  reserve_apply sha256 (ra_tenant a) (ra_pool a) (ra_correlation a) (ra_profile a)
    (ra_upperBound a) (ra_id a) (ra_at a).

Record valid_args (a : ReserveArgs) : Prop := {
  va_tenant : valid_identity (ra_tenant a);
  va_pool : valid_identity (ra_pool a);
  va_bound : 1 <= ra_upperBound a <= MAX_SAFE;
}.

Definition valid_op (op : ClientOp) : Prop :=
  match op with
  | OpReserve a => valid_args a
  | OpSettle _ u => valid_usage u
  | OpConfigure pinned => valid_schedule pinned
  | OpFence _ | OpRelease _ | OpTransition _ _ _ => True
  end.

(** What the operations validate is what the invariant needs. *)
Lemma reserve_args_valid now fc fi input a :
  reserve_args now fc fi input = Ret a -> valid_args a.
Proof.
  intros H. unfold reserve_args in H.
  apply res_bind_ret in H as (t & Ht & H). apply res_bind_ret in H as (p & Hp & H).
  apply res_bind_ret in H as (c & _ & H). apply res_bind_ret in H as (mp & _ & H).
  apply res_bind_ret in H as (u & Hu & H). apply res_bind_ret in H as (i & _ & H).
  apply res_bind_ret in H as (z & _ & H). injection H as <-.
  apply checkIdentity_ret in Ht as [_ ?]. apply checkIdentity_ret in Hp as [_ ?].
  split; simpl; try done. unfold checkUpperBound in Hu. case_hyp Hu; inv_res. split_bools.
  match goal with E : js_safe_integer _ = _ |- _ =>
    apply js_safe_integer_safe, is_safe_spec in E end. lia.
Qed.

Section concurrency.
Context (sha256 : jstr -> jstr).

Definition op_next (op : ClientOp) (s : LedgerState) : option LedgerState :=
  match op with
  | OpReserve a => written (reserve_body sha256 a s)
  | OpFence key => written (fence_apply key s)
  | OpSettle key u => written (settle_apply sha256 key u s)
  | OpRelease key => written (release_apply key s)
  | OpConfigure pinned => written (configure_apply pinned s)
  | OpTransition key change at_ => written (transition_apply key change at_ s)
  end.

Definition ledger_step (s s' : LedgerState) : Prop :=
  exists op, valid_op op /\ op_next op s = Some s'.

Lemma ledger_step_preserves s s' : Inv sha256 s -> ledger_step s s' -> Inv sha256 s'.
Proof.
  intros Hinv ([a|key|key u|key|pinned|key change at_] & Hv & H); cbn [op_next valid_op] in *;
    apply written_some in H as [v H].
  - destruct Hv. eapply reserve_preserves; [done | | | | exact H]; done.
  - by eapply fence_preserves.
  - by eapply settle_preserves.
  - by eapply release_preserves.
  - by eapply configure_preserves.
  - by eapply transition_preserves.
Qed.

Lemma ledger_steps_preserve s s' : Inv sha256 s -> rtc ledger_step s s' -> Inv sha256 s'.
Proof. intros Hinv. induction 1; eauto using ledger_step_preserves. Qed.

Definition reachable (s : LedgerState) : Prop := rtc ledger_step emptyLedgerState s.

Lemma reachable_inv s : reachable s -> Inv sha256 s.
Proof. apply ledger_steps_preserve, Inv_empty. Qed.

(** Every transaction that writes advances the version by one. *)
Lemma op_next_version op s s' : op_next op s = Some s' -> version s' = nextVersion s.
Proof.
  destruct op as [a|key|key u|key|pinned|key change at_]; cbn [op_next]; intros H;
    apply written_some in H as [v H].
  - unfold reserve_body, reserve_apply in H. inv_res.
    unfold reserve_new in H. repeat case_match; simplify_eq/=; done.
  - unfold fence_apply in H. inv_res. repeat case_match; simplify_eq/=; done.
  - unfold settle_apply, settle_unresolved in H. repeat case_match; simplify_eq/=; done.
  - unfold release_apply in H. inv_res. repeat case_match; simplify_eq/=; done.
  - unfold configure_apply in H. inv_res. repeat case_match; simplify_eq/=; done.
  - unfold transition_apply in H. repeat case_match; inv_res; simplify_eq/=; done.
Qed.
End concurrency.

(** ** The contract of a backend *)

Section contract.
(** What other clients may write between two calls of this one. *)
Context (env : LedgerState -> LedgerState -> Prop).

Class LawfulStore (W : Type) `{LedgerStore W} := {
  persisted : W -> LedgerState;
  store_ok : W -> Prop;
  env_version : forall s s', env s s' -> version s < version s';
  load_law : forall w o w', store_ok w -> load w = (o, w') ->
    store_ok w' /\ rtc env (persisted w) (persisted w')
    /\ forall s, o = Some s -> s = persisted w';
  commit_law : forall w v next c w', store_ok w -> commit w v next = (c, w') ->
    store_ok w' /\ exists s, rtc env (persisted w) s /\
      match c with
      | Committed => version s = v /\ persisted w' = next
      | NotCommitted => persisted w' = s
      | CommitThrew => persisted w' = s \/ (version s = v /\ persisted w' = next)
      end;
}.

Context {W : Type} `{LawfulStore W} {T : Type} (body : LedgerState -> res (Applied T)).

(** An equal version means nothing was written in between. *)
Lemma env_same_version s s' : rtc env s s' -> version s' = version s -> s' = s.
Proof.
  intros Hr. assert (s' = s \/ version s < version s') as [?|?]; [| done | lia].
  induction Hr as [|x y z Hxy _ IH]; [by left | right].
  pose proof (env_version _ _ Hxy). destruct IH as [->|]; lia.
Qed.

(** The effect of one transaction that started at [s0]. *)
Definition tx_spec (s0 : LedgerState) (r : res (TxResult T)) (s' : LedgerState) : Prop :=
  match r with
  | Ret (TxOk v) => exists s, rtc env s0 s /\
      ((body s = Ret (NoWrite v) /\ s' = s) \/ body s = Ret (Write s' v))
  | Ret TxUnavailable => rtc env s0 s'
  | Ret TxAmbiguous =>
      exists s, rtc env s0 s /\ (s' = s \/ exists v, body s = Ret (Write s' v))
  | Throw msg => rtc env s0 s' /\ body s' = Throw msg
  end.

Lemma tx_spec_env s0 s1 r s' : rtc env s0 s1 -> tx_spec s1 r s' -> tx_spec s0 r s'.
Proof.
  intros Hr. destruct r as [[v| |]|msg]; simpl.
  - intros (s & ? & ?). exists s. split; [by etrans | done].
  - intros. by etrans.
  - intros (s & ? & ?). exists s. split; [by etrans | done].
  - intros [? ?]. split; [by etrans | done].
Qed.

Lemma attempts_atomic n loaded w r w' :
  store_ok w -> loaded = persisted w -> attempts body n loaded w = (r, w') ->
  store_ok w' /\ tx_spec (persisted w) r (persisted w').
Proof.
  revert loaded w. induction n as [|n IH]; intros loaded w Hok -> Heq; simpl in Heq.
  { simplify_eq. split; [done | apply rtc_refl]. }
  destruct (body (persisted w)) as [[v|next v]|msg] eqn:Hb.
  { simplify_eq. split; [done |]. exists (persisted w').
    split; [apply rtc_refl | by left; split]. }
  2:{ simplify_eq. split; [done |]. split; [apply rtc_refl | done]. }
  destruct (commit w (version (persisted w)) next) as [c w1] eqn:Hc.
  destruct (commit_law _ _ _ _ _ Hok Hc) as (Hok1 & s & Hs & Hcase).
  destruct c; simplify_eq.
  - split; [done |]. destruct Hcase as [Hver ->].
    apply env_same_version in Hs as Heq; [| done]. subst s.
    exists (persisted w). split; [apply rtc_refl | by right].
  - destruct (load w1) as [o w2] eqn:Hl. destruct (load_law _ _ _ Hok1 Hl) as (Hok2 & Hr & Ho).
    destruct o as [s1|]; simplify_eq; [| by split; [| simpl; etrans]].
    destruct (IH s1 w2 Hok2 (Ho s1 eq_refl) Heq) as [? Hspec]. split; [done |].
    apply (tx_spec_env _ (persisted w2)); [by etrans | done].
  - split; [done |]. destruct Hcase as [->|[Hver ->]]; [exists s; by split; [| left] |].
    apply env_same_version in Hs as Heq; [| done]. subst s.
    exists (persisted w). split; [apply rtc_refl | right; by exists v].
Qed.

Lemma runTransaction_atomic w r w' :
  store_ok w -> runTransaction body w = (r, w') ->
  store_ok w' /\ tx_spec (persisted w) r (persisted w').
Proof.
  unfold runTransaction. intros Hok Heq. destruct (load w) as [o w1] eqn:Hl.
  destruct (load_law _ _ _ Hok Hl) as (Hok1 & Hr & Ho).
  destruct o as [s|]; simplify_eq; [| by split].
  destruct (attempts_atomic 64 s w1 r w' Hok1 (Ho s eq_refl) Heq).
  split; [done |]. by eapply tx_spec_env.
Qed.
End contract.
Arguments LawfulStore env W {_}.

(** ** A shared store with other clients and faults *)

Inductive Fault := NoFault | RejectBefore | RejectAfter.

(** What happens around one call: the transactions other clients complete first,
    and whether the call is rejected before or after it takes effect.  A script
    that has run out rejects every further call. *)
Record StoreEvent := { ev_others : list ClientOp; ev_fault : Fault }.

Record SharedStore := { sh_state : LedgerState; sh_script : list StoreEvent }.

Section shared.
Context (sha256 : jstr -> jstr).

Definition run_others (ops : list ClientOp) (s : LedgerState) : LedgerState :=
  fold_left (fun s op => default s (op_next sha256 op s)) ops s.

Definition next_event (w : SharedStore) : StoreEvent * list StoreEvent :=
  match sh_script w with
  | [] => ({| ev_others := []; ev_fault := RejectBefore |}, [])
  | ev :: rest => (ev, rest)
  end.

#[export] Instance shared_store : LedgerStore SharedStore := {
  load := fun w =>
    let '(ev, rest) := next_event w in
    let s := run_others (ev_others ev) (sh_state w) in
    (match ev_fault ev with NoFault => Some s | _ => None end,
     {| sh_state := s; sh_script := rest |});
  commit := fun w expectedVersion next =>
    let '(ev, rest) := next_event w in
    let s := run_others (ev_others ev) (sh_state w) in
    match ev_fault ev with
    | RejectBefore => (CommitThrew, {| sh_state := s; sh_script := rest |})
    | fault =>
        let '(c, s') := @commit _ createMemoryLedgerStore s expectedVersion next in
        (match fault, c with RejectAfter, Committed => CommitThrew | _, _ => c end,
         {| sh_state := s'; sh_script := rest |})
    end;
}.

(** Another client's write; versions stay below the largest safe integer. *)
Definition others_step (s s' : LedgerState) : Prop :=
  ledger_step sha256 s s' /\ 0 <= version s < MAX_SAFE.

Definition script_ops (script : list StoreEvent) : list ClientOp :=
  concat (ev_others <$> script).

Record shared_ok (w : SharedStore) : Prop := {
  so_ops : Forall valid_op (script_ops (sh_script w));
  so_version : 0 <= version (sh_state w);
  so_bound : version (sh_state w) + Z.of_nat (length (script_ops (sh_script w)))
             + Z.of_nat (length (sh_script w)) <= MAX_SAFE;
}.

Lemma nextVersion_exact s : 0 <= version s < MAX_SAFE -> nextVersion s = version s + 1.
Proof. intros. apply fadd_exact; lia. Qed.

Lemma run_others_steps ops s :
  Forall valid_op ops -> 0 <= version s -> version s + Z.of_nat (length ops) <= MAX_SAFE ->
  rtc others_step s (run_others ops s)
  /\ 0 <= version (run_others ops s) <= version s + Z.of_nat (length ops).
Proof.
  revert s. induction ops as [|op ops IH]; intros s Hv H0 Hb; simpl in *.
  { split; [apply rtc_refl | lia]. }
  apply Forall_cons in Hv as [Hop Hv].
  destruct (op_next sha256 op s) as [s'|] eqn:Hs'; simpl.
  - pose proof (op_next_version sha256 op s s' Hs') as Hver.
    rewrite nextVersion_exact in Hver by lia.
    destruct (IH s' Hv ltac:(lia) ltac:(lia)) as [Hr Hbd]. split; [| lia].
    eapply rtc_l; [| exact Hr]. split; [by exists op | lia].
  - destruct (IH s Hv H0 ltac:(lia)) as [Hr Hbd]. split; [done | lia].
Qed.

Lemma next_event_ok w ev rest :
  shared_ok w -> next_event w = (ev, rest) ->
  let s := run_others (ev_others ev) (sh_state w) in
  rtc others_step (sh_state w) s /\ shared_ok {| sh_state := s; sh_script := rest |}
  /\ (ev_fault ev <> RejectBefore -> version s + 1 + Z.of_nat (length (script_ops rest))
        + Z.of_nat (length rest) <= MAX_SAFE).
Proof.
  intros [Hops H0 Hb] Hn s. unfold next_event in Hn. subst s.
  destruct (sh_script w) as [|ev0 rest0]; simplify_eq; cbn [sh_state sh_script length] in *.
  { split; [apply rtc_refl |]. by split. }
  change (script_ops (ev :: rest)) with (ev_others ev ++ script_ops rest) in *.
  rewrite length_app in Hb. apply Forall_app in Hops as [Ho Hr].
  destruct (run_others_steps (ev_others ev) (sh_state w) Ho H0 ltac:(lia)) as [Hs Hv].
  split; [done |]. split; [split; simpl; [done | lia | lia] |].
  intros _. lia.
Qed.

#[export] Instance shared_lawful : LawfulStore others_step SharedStore.
Proof.
  refine {| persisted := sh_state; store_ok := shared_ok |}.
  - intros s s' [(op & _ & H) Hlt]. apply op_next_version in H.
    rewrite nextVersion_exact in H by done. lia.
  - intros w o w' Hok H. unfold load in H. simpl in H.
    destruct (next_event w) as [ev rest] eqn:Hn.
    destruct (next_event_ok w ev rest Hok Hn) as (Hr & Hok' & _). simplify_eq; simpl.
    split_and!; [done | done |]. intros s Hs. destruct (ev_fault ev); by simplify_eq.
  - intros w v next c w' Hok H. unfold commit in H. simpl in H.
    destruct (next_event w) as [ev rest] eqn:Hn.
    destruct (next_event_ok w ev rest Hok Hn) as (Hr & Hok' & Hb). simpl in *.
    set (s := run_others (ev_others ev) (sh_state w)) in *.
    assert (ev_fault ev = RejectBefore \/ ev_fault ev <> RejectBefore) as [Hf|Hf]
      by (destruct (ev_fault ev); auto).
    { rewrite Hf in H. simplify_eq. split; [done |]. exists s. by split; [| left]. }
    assert (c = Committed \/ c = CommitThrew -> version s = v -> version next = fadd v 1 ->
            shared_ok {| sh_state := next; sh_script := rest |}) as Hnext.
    { intros _ <- Hnx. destruct Hok' as [Ho Hs0 Hs1]. simpl in *. specialize (Hb Hf).
      rewrite fadd_exact in Hnx by lia. split; simpl; [done | lia | lia]. }
    destruct (Z.eqb_spec (version s) v) as [Hv|Hv]; simpl in H.
    + destruct (Z.eqb_spec (version next) (fadd v 1)) as [Hx|Hx]; simpl in H.
      * destruct (ev_fault ev); simplify_eq;
          (split; [by auto | exists s; split; [done | by auto]]).
      * destruct (ev_fault ev); simplify_eq;
          (split; [done | exists s; split; [done | by auto]]).
    + destruct (ev_fault ev); simplify_eq; (split; [done | exists s; by split]).
Defined.

(** *** Programs over the shared store *)

(** A program that only moves the stored ledger along the steps of clients. *)
Definition keeps_reachable {T} (p : SharedStore -> res T * SharedStore) : Prop :=
  forall w r w', shared_ok w -> reachable sha256 (sh_state w) -> p w = (r, w') ->
    shared_ok w' /\ reachable sha256 (sh_state w').

Lemma others_reachable s s' :
  reachable sha256 s -> rtc others_step s s' -> reachable sha256 s'.
Proof.
  intros Hr. induction 1 as [|x y z [Hxy _] _ IH]; [done |].
  apply IH. unfold reachable in *. by eapply rtc_r.
Qed.

Lemma tx_keeps_reachable {T} (body : LedgerState -> res (Applied T)) :
  (forall s s' v, body s = Ret (Write s' v) -> ledger_step sha256 s s') ->
  keeps_reachable (runTransaction body).
Proof.
  intros Hbody w r w' Hok Hreach Heq.
  destruct (@runTransaction_atomic others_step SharedStore shared_store shared_lawful T body
    w r w' Hok Heq) as [Hok' Hspec].
  split; [done |]. cbn [persisted shared_lawful] in Hspec.
  destruct r as [[v| |]|msg]; simpl in Hspec.
  - destruct Hspec as (s & Hs & [[_ ->]|Hw]); [by eapply others_reachable |].
    eapply others_reachable in Hs; [| done]. eapply rtc_r; eauto.
  - by eapply others_reachable.
  - destruct Hspec as (s & Hs & [->|[v Hw]]); [by eapply others_reachable |].
    eapply others_reachable in Hs; [| done]. eapply rtc_r; eauto.
  - destruct Hspec. by eapply others_reachable.
Qed.

Lemma run_op_keeps_reachable {T} (u : UnavailableReason -> T) body :
  (forall s s' v, body s = Ret (Write s' v) -> ledger_step sha256 s s') ->
  keeps_reachable (run_op u body).
Proof.
  intros Hbody w r w' Hok Hreach Heq. unfold run_op in Heq.
  destruct (runTransaction body w) as [r1 w1] eqn:Ht. simplify_eq.
  by eapply tx_keeps_reachable.
Qed.

Lemma checked_keeps_reachable {A T} (v : res A) (k : A -> SharedStore -> res T * SharedStore) :
  (forall a, v = Ret a -> keeps_reachable (k a)) -> keeps_reachable (checked v k).
Proof.
  intros Hk w r w' Hok Hreach Heq. unfold checked in Heq. destruct v; simplify_eq.
  - by eapply Hk.
  - by split.
Qed.

Lemma ret_keeps_reachable {T} (x : res T) : keeps_reachable (fun w => (x, w)).
Proof. intros w r w' Hok Hreach Heq. by simplify_eq. Qed.

Lemma step_of_op op s s' : valid_op op -> op_next sha256 op s = Some s' -> ledger_step sha256 s s'.
Proof. intros. by exists op. Qed.
End shared.
