(* ===== verification/LedgerTheorems.v ===== *)
(** * What the token ledger guarantees *)
From stdpp Require Import base gmap list strings relations.
From Stdlib Require Import ZArith Lia.
From S2P Require Import Prelude JsNumber JsString JsValue Identity Epoch Ledger LedgerInv LedgerConc.

(** ** A concrete ledger for the witnesses *)
Module Sample.
Definition digest (s : jstr) : jstr := s.
Definition acme : jstr := js "acme".
Definition chat : jstr := js "chat".
Definition schedule : EpochSchedule :=
  {| sch_pool := chat; sch_limit := 100; sch_periodMs := 1000; sch_anchorMs := 0;
     sch_version := js "v1" |}.
Definition profile : MeteringProfile :=
  {| mp_provider := js "p"; mp_model := js "m"; mp_version := js "1" |}.
Definition args (id : jstr) (u : Z) : ReserveArgs :=
  {| ra_tenant := acme; ra_pool := chat; ra_correlation := js "c1"; ra_profile := profile;
     ra_upperBound := u; ra_id := id; ra_at := 1500 |}.
Definition usage (i o : Z) : Usage := {| inputTokens := i; outputTokens := o |}.

(** Run a list of client transactions from the empty ledger. *)
Definition run (ops : list ClientOp) : LedgerState :=
  run_others digest ops emptyLedgerState.

Lemma run_reachable ops :
  Forall valid_op ops -> (length ops <=? 1000)%nat = true -> reachable digest (run ops).
Proof.
  intros Hv Hl%Nat.leb_le. unfold reachable, run.
  destruct (run_others_steps digest ops emptyLedgerState Hv) as [Hr _]; simpl; try lia.
  { unfold MAX_SAFE. lia. }
  clear Hv Hl. induction Hr as [|x y z [Hxy _] _ IH]; [apply rtc_refl | eapply rtc_l; eauto].
Qed.

Ltac valid_ops :=
  repeat (first [apply Forall_nil; exact I | apply Forall_cons; split]);
  try done; try (split; simpl; try done; unfold MAX_SAFE; lia).

Definition key : jstr := epochRowKey acme chat 1000.
Definition one_held : list ClientOp := [OpConfigure schedule; OpReserve (args (js "i1") 60)].
Definition row (committed held : Z) : EpochRow :=
  {| row_tenant := acme; row_pool := chat; row_start := 1000; row_end := 2000;
     row_limit := 100; row_scheduleVersion := js "v1"; row_committed := committed;
     row_held := held |}.
Definition held_i1 : InvocationRecord :=
  held_record (js "i1") acme chat (js "c1") profile 60 (row 0 0).

Lemma one_held_written :
  written (reserve_body digest (args (js "i1") 60) (run [OpConfigure schedule]))
  = Some (run one_held).
Proof. vm_cast_no_check (@eq_refl (option LedgerState) (Some (run one_held))). Qed.
Lemma args_valid id u : ((1 <=? u) && (u <=? MAX_SAFE))%Z = true -> valid_args (args id u).
Proof. intros H. split_bools. split; simpl; [reflexivity | reflexivity | lia]. Qed.
Lemma configured_reachable : reachable digest (run [OpConfigure schedule]).
Proof. apply run_reachable; [valid_ops | reflexivity]. Qed.
Lemma one_held_reachable : reachable digest (run one_held).
Proof. apply run_reachable; [valid_ops | reflexivity]. Qed.
Lemma one_fenced_written :
  op_next digest (OpFence (js "i1")) (run one_held) = Some (run (one_held ++ [OpFence (js "i1")])).
Proof.
  vm_cast_no_check (@eq_refl (option LedgerState) (Some (run (one_held ++ [OpFence (js "i1")])))).
Qed.
Lemma one_held_epochs : epochs (run one_held) !! key = Some (row 0 60).
Proof. vm_compute. reflexivity. Qed.
Lemma one_held_invocations : invocations (run one_held) !! js "i1" = Some (Full held_i1).
Proof. vm_compute. reflexivity. Qed.
End Sample.

(** ** Accounting *)

Definition no_breach_in (s : LedgerState) (key : jstr) : Prop :=
  forall k r, invocations s !! k = Some (Full r) -> record_row r = key -> inv_breach r = false.

Lemma capped_is_committed sha256 s key :
  Inv sha256 s -> no_breach_in s key ->
  sum_part capped_part key (invocations s) = sum_part committed_part key (invocations s).
Proof.
  intros Hinv Hnb. apply sum_map_ext. intros k [r|] Hk; [| done].
  unfold capped_part, committed_part. destruct (in_row key r) eqn:Hr; [| done].
  apply in_row_true in Hr. specialize (Hnb k r Hk Hr).
  destruct (inv_entries _ s Hinv k r Hk) as [_ _ _ Hb _ _ Hu _ _].
  unfold usage_ok, used in *. destruct (inv_state r), (inv_usage r); try lia.
  destruct Hu as [_ Hbr]. rewrite Hnb in Hbr. symmetry in Hbr. apply Z.ltb_ge in Hbr. lia.
Qed.

(** C1. Conservation and the admission bound: in every state the ledger can reach,
    the held counter of an epoch row is the sum of the bounds of its unresolved
    invocations, its committed counter is the sum of the settled usage, no counter
    was ever rounded, and unless a settled invocation breached its bound the two
    counters together stay within the epoch's limit. *)
Theorem ledger_conservation sha256 s key row :
  reachable sha256 s -> epochs s !! key = Some row ->
  row_held row = sum_part held_part key (invocations s)
  /\ row_committed row = sum_part committed_part key (invocations s)
  /\ 0 <= row_held row <= row_limit row /\ 0 <= row_committed row <= MAX_SAFE
  /\ (no_breach_in s key -> row_committed row + row_held row <= row_limit row).
Proof.
  intros Hr Hrow. pose proof (reachable_inv sha256 s Hr) as Hinv.
  destruct (row_bounds sha256 s key row Hinv Hrow) as (Hh & Hc & _).
  destruct (inv_rows sha256 s Hinv key row Hrow).
  split_and!; try done; try lia. intros Hnb.
  rewrite (capped_is_committed sha256 s key Hinv Hnb) in *. lia.
Qed.

Lemma ledger_conservation_witness :
  row_held (Sample.row 0 60) = 60
  /\ 60 = sum_part held_part Sample.key (invocations (Sample.run Sample.one_held)).
Proof.
  split; [reflexivity |].
  exact (proj1 (ledger_conservation Sample.digest (Sample.run Sample.one_held) Sample.key
    (Sample.row 0 60) Sample.one_held_reachable Sample.one_held_epochs)).
Defined.

(** ** Transactions under concurrency and faults *)

(** C2. Every transaction is atomic: over any lawful backend, a call that returns a
    value either read some state other clients produced and wrote nothing, or
    replaced exactly that state by the state its body computed; a call reported
    unavailable (or one that throws) wrote nothing, and an ambiguous commit wrote
    all or nothing. *)
Theorem transaction_linearizable {W} `{LawfulStore env W} {T}
    (body : LedgerState -> res (Applied T)) w r w' :
  store_ok env w -> runTransaction body w = (r, w') ->
  store_ok env w' /\ tx_spec env body (persisted env w) r (persisted env w').
Proof. apply runTransaction_atomic. Qed.

Module Shared.
(** Another client fences the reservation, then this client's first commit loses. *)
Definition script : list StoreEvent :=
  [ {| ev_others := []; ev_fault := NoFault |};
    {| ev_others := [OpFence (js "i1")]; ev_fault := NoFault |};
    {| ev_others := []; ev_fault := NoFault |};
    {| ev_others := []; ev_fault := RejectAfter |} ].
Definition world : SharedStore :=
  {| sh_state := Sample.run Sample.one_held; sh_script := script |}.
Lemma world_ok : shared_ok world.
Proof.
  split; [Sample.valid_ops | vm_compute; discriminate |].
  assert (version (sh_state world) = 2) as -> by (vm_compute; reflexivity).
  simpl. unfold MAX_SAFE. lia.
Qed.
End Shared.
#[local] Existing Instance shared_store.

Lemma transaction_linearizable_witness :
  let body := settle_apply Sample.digest (js "i1") (Sample.usage 20 10) in
  let run := @runTransaction _ (shared_store Sample.digest) _ body Shared.world in
  fst run = Ret TxAmbiguous
  /\ tx_spec (others_step Sample.digest) body (sh_state Shared.world) (fst run) (sh_state (snd run)).
Proof.
  intros body run. split; [vm_compute; reflexivity |].
  destruct run as [r w'] eqn:E.
  exact (proj2 (@transaction_linearizable SharedStore (others_step Sample.digest)
    (shared_store Sample.digest) (shared_lawful Sample.digest) _ body Shared.world r w'
    (Shared.world_ok) E)).
Defined.

(** The accounting invariants survive any concurrency and any fault: whichever
    transactions other clients interleave and whichever calls the backend rejects,
    before or after they take effect, each ledger operation leaves the stored
    ledger in a reachable state. *)
Theorem operations_keep_ledger_reachable sha256 :
  let store := shared_store sha256 in
  (forall now fc fi input, keeps_reachable sha256 (reserve sha256 now fc fi input))
  /\ (forall id, keeps_reachable sha256 (fence id))
  /\ (forall id i o, keeps_reachable sha256 (settle sha256 id i o))
  /\ (forall id, keeps_reachable sha256 (releaseUndispatched id))
  /\ (forall p l per a v, keeps_reachable sha256 (configurePool p l per a v))
  /\ (forall now p change at_, keeps_reachable sha256 (transitionPool now p change at_)).
Proof.
  intros store. split_and!; intros; apply checked_keeps_reachable; intros x Hx.
  - destruct (is_true (ri_qualified input)); simpl; [| apply ret_keeps_reachable].
    apply run_op_keeps_reachable. intros s s' v Hw.
    apply (step_of_op _ (OpReserve x)); [by eapply reserve_args_valid |].
    apply written_some. by exists v.
  - apply run_op_keeps_reachable. intros s s' v Hw.
    apply (step_of_op _ (OpFence x)); [done |]. apply written_some. by exists v.
  - destruct (meteringUsage i o) as [u|] eqn:Hu; [| apply ret_keeps_reachable].
    apply run_op_keeps_reachable. intros s s' v Hw.
    apply (step_of_op _ (OpSettle x u)); [by eapply meteringUsage_valid |].
    apply written_some. by exists v.
  - apply run_op_keeps_reachable. intros s s' v Hw.
    apply (step_of_op _ (OpRelease x)); [done |]. apply written_some. by exists v.
  - apply run_op_keeps_reachable. intros s s' v0 Hw.
    apply (step_of_op _ (OpConfigure x)); [by eapply epochSchedule_valid |].
    apply written_some. by exists v0.
  - apply checked_keeps_reachable. intros z Hz.
    apply run_op_keeps_reachable. intros s s' v Hw.
    apply (step_of_op _ (OpTransition x change z)); [done |]. apply written_some. by exists v.
Qed.

(** ** Bounded contention *)

Section contention.
Context (sha256 : jstr -> jstr) {T : Type} (body : LedgerState -> res (Applied T)).
Context (body_version : forall s s' v, body s = Ret (Write s' v) -> version s' = nextVersion s).

Definition settled_tx (r : res (TxResult T)) : Prop :=
  match r with
  | Ret (TxOk _) | Throw _ => True
  | _ => False
  end.

Definition faultless (script : list StoreEvent) : Prop :=
  Forall (fun ev => ev_fault ev = NoFault) script.

Lemma attempts_converge n (w : SharedStore) r w' :
  faultless (sh_script w) -> (2 * n <= length (sh_script w))%nat ->
  (length (script_ops (sh_script w)) < n)%nat ->
  @attempts _ (shared_store sha256) T body n (sh_state w) w = (r, w') -> settled_tx r.
Proof.
  revert w. induction n as [|n IH]; intros [st script] Hf Hlen Hops Heq; cbn [sh_state sh_script] in *.
  { lia. }
  cbn [attempts] in Heq. destruct (body st) as [[v|next v]|msg] eqn:Hb; [by simplify_eq| |by simplify_eq].
  destruct script as [|[ops1 f1] [|[ops2 f2] rest]]; cbn [length] in Hlen; [lia | lia |].
  apply Forall_cons in Hf as [Hf1 Hf]. apply Forall_cons in Hf as [Hf2 Hf].
  cbn [ev_fault] in Hf1, Hf2. subst f1 f2.
  change (script_ops _) with (ops1 ++ ops2 ++ script_ops rest) in Hops.
  rewrite !length_app in Hops. simpl in Heq.
  destruct (Z.eqb_spec (version (run_others sha256 ops1 st)) (version st)) as [Hv|Hv]; simpl in Heq.
  - rewrite (body_version _ _ _ Hb) in Heq. unfold nextVersion in Heq.
    rewrite Z.eqb_refl in Heq. simpl in Heq. by simplify_eq.
  - destruct ops1 as [|op ops1]; [done |]. simpl in Hops.
    eapply (IH {| sh_state := _; sh_script := rest |}); [done | simpl in *; lia | simpl; lia |].
    exact Heq.
Qed.
End contention.

(** C3. Bounded contention converges: when the backend rejects nothing and other
    clients complete at most 63 transactions meanwhile, a transaction of any
    client operation ends with its own result; it is never reported as storage
    unavailable. *)
Theorem contention_converges sha256 {T} (body : LedgerState -> res (Applied T)) script st :
  (forall s s' v, body s = Ret (Write s' v) -> version s' = nextVersion s) ->
  faultless script -> (129 <= length script)%nat -> (length (script_ops script) <= 63)%nat ->
  settled_tx (fst (@runTransaction _ (shared_store sha256) T body
                     {| sh_state := st; sh_script := script |})).
Proof.
  intros Hb Hf Hlen Hops. destruct script as [|[ops f] rest]; [simpl in *; lia |].
  apply Forall_cons in Hf as [Hf1 Hf]. simpl in Hf1. subst f.
  change (script_ops _) with (ops ++ script_ops rest) in Hops. rewrite length_app in Hops.
  unfold runTransaction. cbn [load shared_store next_event sh_script ev_others ev_fault sh_state].
  match goal with |- context [attempts body 64 ?s ?w] =>
    destruct (@attempts _ (shared_store sha256) T body 64 s w) as [r w'] eqn:E end.
  simpl in Hlen.
  eapply (attempts_converge sha256 body Hb 64 {| sh_state := _; sh_script := rest |});
    [done | simpl; lia | simpl; lia | exact E].
Qed.

Lemma contention_converges_witness :
  settled_tx (fst (@runTransaction _ (shared_store Sample.digest) FenceOutcome
    (fence_apply (js "i1"))
    {| sh_state := Sample.run Sample.one_held;
       sh_script := replicate 129 {| ev_others := []; ev_fault := NoFault |} |})).
Proof.
  apply (contention_converges Sample.digest (fence_apply (js "i1"))).
  - intros s s' v H. apply (op_next_version Sample.digest (OpFence (js "i1"))).
    cbn [op_next]. apply written_some. by exists v.
  - apply Forall_replicate. reflexivity.
  - rewrite length_replicate. lia.
  - assert (script_ops (replicate 129 {| ev_others := []; ev_fault := NoFault |}) = []) as ->
      by reflexivity. simpl. lia.
Defined.

(** ** The life of one invocation *)

Inductive lifecycle : InvocationState -> InvocationState -> Prop :=
| life_fence : lifecycle Held Fenced
| life_settle_held : lifecycle Held Settled
| life_settle_fenced : lifecycle Fenced Settled
| life_release : lifecycle Held Released.

(** What one step does to one record: nothing, or one move of the life cycle that
    keeps the whole admission (row, epoch, limit, profile and bound). *)
Definition moves (r r' : InvocationRecord) : Prop :=
  r' = r \/ (lifecycle (inv_state r) (inv_state r')
             /\ r' = with_state r (inv_state r') (inv_fenced r') (inv_usage r') (inv_breach r')
             /\ (inv_state r' = Released -> inv_fenced r = false)).

Lemma moves_insert (m : gmap jstr Entry) key k (r x x' : InvocationRecord) :
  m !! k = Some (Full r) -> m !! key = Some (Full x) -> moves x x' ->
  exists r', <[key := Full x']> m !! k = Some (Full r') /\ moves r r'.
Proof.
  intros Hk Hkey Hm. destruct (decide (key = k)) as [->|Hne].
  - rewrite Hk in Hkey. injection Hkey as <-. exists x'. by rewrite lookup_insert_eq.
  - exists r. rewrite lookup_insert_ne by done. split; [done | by left].
Qed.

Lemma moves_insert_new (m : gmap jstr Entry) key k r e :
  m !! k = Some (Full r) -> m !! key = None ->
  exists r', <[key := e]> m !! k = Some (Full r') /\ moves r r'.
Proof.
  intros Hk Hkey. exists r. rewrite lookup_insert_ne by congruence. split; [done | by left].
Qed.

Lemma step_moves sha256 s s' k r :
  reachable sha256 s -> ledger_step sha256 s s' -> invocations s !! k = Some (Full r) ->
  exists r', invocations s' !! k = Some (Full r') /\ moves r r'.
Proof.
  intros Hreach (op & _ & H) Hk. pose proof (reachable_inv sha256 s Hreach) as Hinv.
  destruct op as [a|key|key u|key|pinned|key change at_]; cbn [op_next] in H;
    apply written_some in H as [v H].
  - unfold reserve_body, reserve_apply in H. inv_res.
    destruct x as [[schedule epoch]|]; simplify_eq.
    destruct (get_member (invocations s) (ra_id a)) as [[x|]|arity|] eqn:Hm; simplify_eq;
      [by case_match |]. apply get_member_missing in Hm as [Hm _].
    unfold reserve_new in H. repeat case_match; simplify_eq/=. by apply moves_insert_new.
  - unfold fence_apply in H. inv_res.
    destruct (get_member (invocations s) key) as [[x|]|arity|] eqn:Hm; simplify_eq.
    + apply get_member_own in Hm. destruct (inv_entries _ s Hinv key x Hm) as [_ _ _ _ _ _ _ Hf _].
      unfold fence_ok in Hf. destruct (inv_state x) eqn:Hst, (inv_fenced x) eqn:Hfx; simplify_eq.
      eapply moves_insert; eauto. right. rewrite Hst. split_and!; [constructor | done | done].
    + apply moves_insert_new; [done |]. unfold get_member in Hm. by case_match.
  - unfold settle_apply in H.
    destruct (get_member (invocations s) key) as [[x|]|arity|] eqn:Hm; simplify_eq.
    apply get_member_own in Hm.
    destruct (inv_state x) eqn:Hst; simplify_eq; unfold settle_unresolved in H;
      repeat case_match; simplify_eq/=; (eapply moves_insert; [done | done |]); right;
      rewrite Hst; split_and!; try constructor; done.
  - unfold release_apply in H. inv_res.
    destruct (get_member (invocations s) key) as [[x|]|arity|] eqn:Hm; simplify_eq.
    apply get_member_own in Hm. destruct (inv_entries _ s Hinv key x Hm) as [_ _ _ _ _ _ _ Hf _].
    unfold fence_ok in Hf.
    destruct (inv_state x) eqn:Hst, (inv_fenced x) eqn:Hfx; simplify_eq.
    repeat case_match; simplify_eq/=. eapply moves_insert; [done | done |]. right.
    rewrite Hst. split_and!; [constructor | done | done].
  - unfold configure_apply in H. inv_res. repeat case_match; simplify_eq/=. exists r. split; [done | by left].
  - unfold transition_apply in H. repeat case_match; inv_res; simplify_eq/=; exists r; (split; [done | by left]).
Qed.

(** C4. Life cycle of an invocation: in every reachable ledger, a step of any client
    leaves each record as it is or moves it once along held to fenced or settled
    or released, and fenced to settled; the admission never changes, settled and
    released records never change again, and only an unfenced hold is released. *)
Theorem invocation_lifecycle sha256 s s' k r :
  reachable sha256 s -> ledger_step sha256 s s' -> invocations s !! k = Some (Full r) ->
  exists r', invocations s' !! k = Some (Full r') /\ moves r r'.
Proof. apply step_moves. Qed.

Lemma invocation_lifecycle_witness :
  exists r', invocations (Sample.run (Sample.one_held ++ [OpFence (js "i1")])) !! js "i1"
             = Some (Full r') /\ moves Sample.held_i1 r'.
Proof.
  apply (invocation_lifecycle Sample.digest (Sample.run Sample.one_held)).
  - apply Sample.one_held_reachable.
  - exists (OpFence (js "i1")). split; [exact I | exact Sample.one_fenced_written].
  - apply Sample.one_held_invocations.
Defined.

(** Same admission: only the state, the fence, the usage and the breach flag may differ. *)
Definition same_terms (r r' : InvocationRecord) : Prop :=
  r' = with_state r (inv_state r') (inv_fenced r') (inv_usage r') (inv_breach r').

Lemma with_state_id r : with_state r (inv_state r) (inv_fenced r) (inv_usage r) (inv_breach r) = r.
Proof. by destruct r. Qed.

Lemma moves_same_terms r r' : moves r r' -> same_terms r r'.
Proof. unfold same_terms. intros [->|(_ & ? & _)]; [by rewrite with_state_id | done]. Qed.

Lemma steps_same_terms sha256 s s' k r :
  reachable sha256 s -> rtc (ledger_step sha256) s s' -> invocations s !! k = Some (Full r) ->
  exists r', invocations s' !! k = Some (Full r') /\ same_terms r r'
             /\ (inv_state r = Settled -> r' = r).
Proof.
  intros Hreach Hsteps. revert r. induction Hsteps as [s|s s1 s2 Hstep _ IH]; intros r Hk.
  - exists r. split; [done |]. split; [symmetry; apply with_state_id | done].
  - destruct (step_moves sha256 s s1 k r Hreach Hstep Hk) as (r1 & Hk1 & Hm).
    destruct (IH ltac:(by eapply rtc_r) r1 Hk1) as (r2 & Hk2 & Hs & Ht).
    exists r2. split; [done |]. apply moves_same_terms in Hm as Hst. unfold same_terms in *.
    split; [by rewrite Hs, Hst |]. intros Hset.
    destruct Hm as [->|(Hl & _)]; [by apply Ht |]. rewrite Hset in Hl. inversion Hl.
Qed.

(** ** Admission *)

(** The admission decision: for a fresh invocation of a profile that is not
    quarantined, [reserve] admits exactly when committed + held + U fits the limit
    of the current epoch row, computed on exact integers; admission moves U into
    the row's hold and creates one held record, and a refusal writes nothing and
    reports the exact remaining allowance. *)
Theorem reserve_decides sha256 s a schedule epoch :
  reachable sha256 s -> valid_args a ->
  reserve_epoch s (ra_pool a) (ra_at a) = Ret (Some (schedule, epoch)) ->
  invocations s !! ra_id a = None -> inherited (ra_id a) = None ->
  profileKey sha256 (ra_profile a) ∉ quarantined s ->
  let key := epochRowKey (ra_tenant a) (ra_pool a) (ep_start epoch) in
  let row := default (fresh_row (ra_tenant a) (ra_pool a) epoch schedule) (epochs s !! key) in
  let record := held_record (ra_id a) (ra_tenant a) (ra_pool a) (ra_correlation a)
                  (ra_profile a) (ra_upperBound a) row in
  let free := row_limit row - row_committed row - row_held row in
  reserve_body sha256 a s = Ret (
    if ra_upperBound a <=? free then
      Write (next_state s
               (<[key := set_held row (row_held row + ra_upperBound a)]> (epochs s))
               (<[ra_id a := Full record]> (invocations s)) (quarantined s))
            (Admitted_ record (free - ra_upperBound a) (row_end row) false)
    else NoWrite (Exceeded (ra_pool a) (ra_upperBound a) (Z.max 0 free) (row_end row))).
Proof.
  intros Hreach [Ht Hp Hu] He Hid Hinh Hq key row record free.
  pose proof (reachable_inv sha256 s Hreach) as Hinv.
  destruct (reserve_epoch_some _ _ _ _ _ _ Hinv He) as (vs & _ & _ & Hec & Hv).
  destruct (epochContaining_contains _ _ _ Hv Hec) as [_ [Hge _]].
  assert (0 <= ep_start epoch) as Hst by (destruct Hv; lia).
  destruct (charged_row sha256 s (ra_tenant a) (ra_pool a) epoch schedule Hinv Ht Hp Hv Hst)
    as [[Hrow _ _ _] _]. fold key row in Hrow.
  destruct Hrow as [_ _ _ _ Hl Hh Hc Hcs Hcap].
  pose proof (sums_nonneg sha256 s key Hinv) as (H1 & H2 & H3).
  unfold reserve_body, reserve_apply. rewrite He. simpl res_bind.
  rewrite get_member_not_inherited, Hid by done. cbn match. unfold reserve_new.
  rewrite bool_decide_eq_false_2 by done. fold key row record. f_equal.
  assert (0 <= row_held row <= MAX_SAFE /\ 0 <= row_committed row <= MAX_SAFE) as [Hhb Hcb] by lia.
  assert (remainingTokens (row_limit row) (row_committed row) (row_held row) = Z.max 0 free) as Hrem.
  { unfold remainingTokens. rewrite (fsub_exact (row_limit row)) by lia.
    unfold fsub. destruct (Z.le_gt_cases 0 free) as [Hf|Hf]; subst free.
    - by rewrite rnd_small by (unfold MAX_SAFE in *; lia).
    - pose proof (rnd_nonpos (row_limit row - row_committed row - row_held row) ltac:(lia)). lia. }
  destruct (Z.leb_spec (ra_upperBound a) free) as [Hfree|Hfree].
  - assert (fits (row_limit row) (row_committed row) (row_held row) (ra_upperBound a) = true) as ->
      by (unfold free in *; apply fits_spec; lia).
    cbn [negb]. rewrite (fadd_exact (row_held row)) by lia. do 2 f_equal. simpl.
    unfold free in *. unfold remainingTokens.
    rewrite (fsub_exact (row_limit row)), fsub_exact by lia. lia.
  - assert (fits (row_limit row) (row_committed row) (row_held row) (ra_upperBound a) = false) as ->.
    { apply not_true_iff_false. unfold free in *. rewrite fits_spec by lia. lia. }
    cbn [negb]. by rewrite Hrem.
Qed.

Lemma reserve_decides_witness :
  reserve_body Sample.digest (Sample.args (js "i2") 41) (Sample.run Sample.one_held)
  = Ret (NoWrite (Exceeded Sample.chat 41 40 2000)).
Proof.
  rewrite (reserve_decides Sample.digest (Sample.run Sample.one_held) (Sample.args (js "i2") 41)
    Sample.schedule {| ep_start := 1000; ep_end := 2000 |} Sample.one_held_reachable).
  - vm_compute. reflexivity.
  - exact (Sample.args_valid _ 41 ltac:(reflexivity)).
  - vm_compute. reflexivity.
  - vm_compute. reflexivity.
  - vm_compute. reflexivity.
  - vm_compute. intros H. inversion H.
Defined.

(** ** Idempotent retries *)

(** A retried reservation never charges twice: once an invocation was admitted,
    reserving again with the same arguments, in any later state and at any later
    clock that has an epoch, returns the existing admission as a duplicate and
    writes nothing. *)
Theorem reserve_retry_idempotent sha256 s s1 s2 a out at_ found :
  reachable sha256 s -> valid_args a -> reserve_body sha256 a s = Ret (Write s1 out) ->
  rtc (ledger_step sha256) s1 s2 ->
  reserve_epoch s2 (ra_pool a) at_ = Ret (Some found) ->
  exists record remaining,
    reserve_apply sha256 (ra_tenant a) (ra_pool a) (ra_correlation a) (ra_profile a)
      (ra_upperBound a) (ra_id a) at_ s2
    = Ret (NoWrite (Admitted_ record remaining (ep_end (snd found)) true))
    /\ invocations s2 !! ra_id a = Some (Full record).
Proof.
  intros Hreach Hv Hw Hsteps He. destruct found as [schedule epoch].
  assert (reachable sha256 s1) as Hreach1.
  { eapply rtc_r; [exact Hreach |]. exists (OpReserve a). split; [done |].
    apply written_some. by exists out. }
  assert (exists row, invocations s1 !! ra_id a = Some (Full (held_record (ra_id a) (ra_tenant a)
    (ra_pool a) (ra_correlation a) (ra_profile a) (ra_upperBound a) row))) as (row & Hk).
  { unfold reserve_body, reserve_apply in Hw. inv_res. repeat case_match; simplify_eq.
    unfold reserve_new in *. repeat case_match; simplify_eq/=.
    eexists. apply lookup_insert_eq. }
  destruct (steps_same_terms sha256 s1 s2 _ _ Hreach1 Hsteps Hk) as (r & Hr & Hs & _).
  unfold reserve_apply. rewrite He. cbn [res_bind].
  rewrite (proj2 (get_member_own _ _ _) Hr).
  assert (same_admission r (ra_tenant a) (ra_pool a) (ra_correlation a) (ra_upperBound a)
            (ra_profile a) = true) as ->.
  { rewrite Hs. unfold same_admission. simpl. rewrite Z.eqb_refl.
    by rewrite !bool_decide_eq_true_2. }
  cbn [negb snd]. eauto.
Qed.

Lemma reserve_retry_idempotent_witness :
  exists record remaining,
    reserve_apply Sample.digest Sample.acme Sample.chat (js "c1") Sample.profile 60 (js "i1") 2500
      (Sample.run (Sample.one_held ++ [OpFence (js "i1")]))
    = Ret (NoWrite (Admitted_ record remaining 3000 true))
    /\ invocations (Sample.run (Sample.one_held ++ [OpFence (js "i1")])) !! js "i1"
       = Some (Full record).
Proof.
  destruct (proj1 (written_some _ _) Sample.one_held_written) as [out Hw].
  apply (reserve_retry_idempotent Sample.digest (Sample.run [OpConfigure Sample.schedule])
    (Sample.run Sample.one_held) _ (Sample.args (js "i1") 60) out 2500
    (Sample.schedule, {| ep_start := 2000; ep_end := 3000 |})).
  - exact Sample.configured_reachable.
  - exact (Sample.args_valid _ 60 ltac:(reflexivity)).
  - exact Hw.
  - eapply rtc_once. exists (OpFence (js "i1")). split; [exact I | exact Sample.one_fenced_written].
  - vm_compute. reflexivity.
Defined.

(** ** Settlement *)

(** The record after settling [r] with [usage]. *)
Definition settled_record (r : InvocationRecord) (usage : Usage) : InvocationRecord :=
  with_state r Settled (inv_fenced r) (Some usage)
    (inv_upperBound r <? inputTokens usage + outputTokens usage).

(** Settlement reconciles in the original admission epoch: settling an unresolved
    invocation with valid usage lifts its whole hold U from the row it was admitted
    to, whatever the clock says now, debits the actual A there, and reports U - A
    released, or 0 and a breach when A exceeds U (A is recorded without clamping);
    a debit that leaves the safe integers is refused and changes nothing. *)
Theorem settle_accounts sha256 s k r usage :
  reachable sha256 s -> invocations s !! k = Some (Full r) ->
  unresolved_state (inv_state r) = true -> valid_usage usage ->
  let actual := inputTokens usage + outputTokens usage in
  let breached := inv_upperBound r <? actual in
  exists row, epochs s !! record_row r = Some row /\
    if MAX_SAFE <? row_committed row + actual then
      settle_apply sha256 k usage s = Ret (NoWrite (SettleUnavailable InvalidUsage))
    else exists s',
      settle_apply sha256 k usage s = Ret (Write s'
        (SettledOut (settled_record r usage) actual
           (if breached then 0 else inv_upperBound r - actual) false
           (if breached then Some (breach_report r actual) else None)))
      /\ epochs s' !! record_row r =
           Some (set_held (set_committed row (row_committed row + actual))
                   (row_held row - inv_upperBound r))
      /\ invocations s' !! k = Some (Full (settled_record r usage))
      /\ (breached = true -> profileKey sha256 (inv_profile r) ∈ quarantined s').
Proof.
  intros Hreach Hk Hun Hu actual breached. pose proof (reachable_inv sha256 s Hreach) as Hinv.
  destruct (inv_entries sha256 s Hinv k r Hk) as [_ _ _ _ (row & Hrow & _) _ _ _ _].
  exists row. split; [done |].
  destruct (row_bounds sha256 s _ row Hinv Hrow) as (Hh & Hc & Hl).
  destruct (lift_hold sha256 s k r row Hinv Hk Hrow Hun) as (Hsub & _ & _ & Hb).
  pose proof Hu as (H1 & H2 & H3).
  assert (settle_apply sha256 k usage s = Ret (settle_unresolved sha256 k usage r s)) as ->.
  { unfold settle_apply. rewrite (proj2 (get_member_own _ _ _) Hk).
    destruct (inv_state r); by try discriminate Hun. }
  unfold settle_unresolved. rewrite Hrow, (valid_usage_total usage Hu), Hsub. fold actual.
  destruct (Z.ltb_spec MAX_SAFE (row_committed row + actual)) as [Hbig|Hsmall].
  - unfold fadd. rewrite is_safe_rnd by lia.
    assert (is_safe (row_committed row + actual) = false) as -> by (apply is_safe_false; lia). done.
  - rewrite fadd_exact by lia.
    assert (is_safe (row_committed row + actual) = true) as ->
      by (apply is_safe_spec; unfold MAX_SAFE in *; lia).
    cbn [negb]. fold breached. destruct (Z.ltb_spec (inv_upperBound r) actual) as [Hbr|Hbr];
      subst breached; unfold settled_record; fold actual.
    + assert ((inv_upperBound r <? actual) = true) as -> by lia.
      eexists. split_and!; [done | apply lookup_insert_eq | apply lookup_insert_eq |].
      intros _. simpl. set_solver.
    + assert ((inv_upperBound r <? actual) = false) as -> by lia.
      rewrite fsub_exact by lia. eexists.
      split_and!; [done | apply lookup_insert_eq | apply lookup_insert_eq | done].
Qed.

Lemma settle_accounts_witness :
  exists row, epochs (Sample.run Sample.one_held) !! record_row Sample.held_i1 = Some row /\
    exists s', settle_apply Sample.digest (js "i1") (Sample.usage 30 12) (Sample.run Sample.one_held)
      = Ret (Write s' (SettledOut (settled_record Sample.held_i1 (Sample.usage 30 12)) 42 18
                         false None))
      /\ epochs s' !! record_row Sample.held_i1 =
           Some (set_held (set_committed row (row_committed row + 42)) (row_held row - 60)).
Proof.
  destruct (settle_accounts Sample.digest (Sample.run Sample.one_held) (js "i1") Sample.held_i1
    (Sample.usage 30 12) Sample.one_held_reachable Sample.one_held_invocations eq_refl
    ltac:(unfold valid_usage, MAX_SAFE; simpl; lia)) as (row & Hrow & Hrest).
  exists row. split; [exact Hrow |].
  assert (Some row = Some (Sample.row 0 60)) as [= ->]
    by (rewrite <- Hrow; exact Sample.one_held_epochs).
  simpl in Hrest. destruct Hrest as (s' & H1 & H2 & _). exists s'. split; [exact H1 | exact H2].
Defined.

(** A settled invocation is final: settling it again with the usage on record
    reports a duplicate that releases nothing, any other usage is a conflicting
    settlement, fencing and releasing conflict too, and none of them writes. *)
Theorem settled_is_final sha256 s k r usage settled :
  invocations s !! k = Some (Full r) -> inv_state r = Settled -> inv_usage r = Some settled ->
  settle_apply sha256 k usage s = Ret (NoWrite (
    if decide (settled = usage) then
      SettledOut r (usageTotal usage) 0 true
        (if inv_breach r then Some (breach_report r (usageTotal usage)) else None)
    else SettleUnavailable ConflictingSettlement))
  /\ fence_apply k s = Ret (NoWrite (FenceUnavailable ConflictingSettlement))
  /\ release_apply k s = Ret (NoWrite (ReleaseUnavailable ConflictingSettlement)).
Proof.
  intros Hk Hst Hu. unfold settle_apply, fence_apply, release_apply.
  rewrite (proj2 (get_member_own _ _ _) Hk), Hst, Hu. split_and!; try done.
  destruct (decide (settled = usage));
    [by rewrite bool_decide_eq_true_2 | by rewrite bool_decide_eq_false_2].
Qed.

Lemma settled_is_final_witness :
  fence_apply (js "i1") {| version := 3; schedules := ∅; epochs := ∅;
    invocations := {[ js "i1" := Full (settled_record Sample.held_i1 (Sample.usage 1 2)) ]};
    quarantined := ∅ |} = Ret (NoWrite (FenceUnavailable ConflictingSettlement)).
Proof.
  apply (settled_is_final Sample.digest _ (js "i1")
    (settled_record Sample.held_i1 (Sample.usage 1 2)) (Sample.usage 3 3) (Sample.usage 1 2));
    [apply lookup_singleton_eq | reflexivity | reflexivity].
Defined.

(** A breach quarantines its profile for good: once an invocation settled above
    its bound, no later reservation whose profile has the same key is ever
    admitted, in any state reached afterwards. *)
Theorem breach_quarantines sha256 s s' k r a :
  reachable sha256 s -> invocations s !! k = Some (Full r) -> inv_breach r = true ->
  rtc (ledger_step sha256) s s' ->
  profileKey sha256 (ra_profile a) = profileKey sha256 (inv_profile r) ->
  written (reserve_body sha256 a s') = None.
Proof.
  intros Hreach Hk Hb Hsteps Hkey. apply eq_None_not_Some. intros [next [out Hw]%written_some]. pose proof (reachable_inv sha256 s Hreach) as Hinv.
  assert (inv_state r = Settled) as Hset.
  { destruct (inv_entries sha256 s Hinv k r Hk) as [_ _ _ _ _ _ Hu _ _]. unfold usage_ok in Hu.
    destruct (inv_state r), (inv_usage r); try done; congruence. }
  destruct (steps_same_terms sha256 s s' k r Hreach Hsteps Hk) as (r' & Hk' & _ & Hr').
  rewrite (Hr' Hset) in Hk'.
  assert (Inv sha256 s') as Hinv' by (by eapply ledger_steps_preserve).
  pose proof (eo_breach _ _ _ _ (inv_entries sha256 s' Hinv' k r Hk') Hb) as Hq.
  rewrite <- Hkey in Hq. unfold reserve_body, reserve_apply in Hw. inv_res.
  destruct x as [[schedule epoch]|]; simplify_eq.
  destruct (get_member (invocations s') (ra_id a)) as [[x|]|arity|]; simplify_eq; [by case_match |].
  unfold reserve_new in Hw. by rewrite bool_decide_eq_true_2 in Hw.
Qed.

Definition breached_ops : list ClientOp :=
  Sample.one_held ++ [OpSettle (js "i1") (Sample.usage 61 0)].

Lemma breach_quarantines_witness :
  written (reserve_body Sample.digest (Sample.args (js "i2") 1) (Sample.run breached_ops)) = None.
Proof.
  apply (breach_quarantines Sample.digest (Sample.run breached_ops) _ (js "i1")
    (settled_record Sample.held_i1 (Sample.usage 61 0))).
  - apply Sample.run_reachable; [Sample.valid_ops | reflexivity].
  - vm_compute. reflexivity.
  - reflexivity.
  - apply rtc_refl.
  - reflexivity.
Defined.

(** ** Epochs of one pool *)

Lemma applicable_from_spec picked versions now v :
  applicable_from picked versions now = Some v ->
  (exists i, versions !! i = Some v /\ sch_anchorMs v <= now
     /\ forall w, versions !! S i = Some w -> now < sch_anchorMs w)
  \/ (picked = Some v /\ forall w, versions !! 0%nat = Some w -> now < sch_anchorMs w).
Proof.
  revert picked. induction versions as [|x versions IH]; simpl; intros picked H; [by right |].
  destruct (Z.ltb_spec now (sch_anchorMs x)) as [Hlt|Hge].
  { right. split; [done |]. by intros w [= <-]. }
  left. destruct (IH _ H) as [(i & Hi & Hle & Hnext)|[[= <-] Hnext]].
  - by exists (S i).
  - by exists 0%nat.
Qed.

Lemma applicableSchedule_spec versions now v :
  applicableSchedule versions now = Some v ->
  exists i, versions !! i = Some v /\ sch_anchorMs v <= now
     /\ forall w, versions !! S i = Some w -> now < sch_anchorMs w.
Proof. intros [H|[[=] _]]%applicable_from_spec. exact H. Qed.

Lemma versions_anchor_mono versions i j a b :
  versions_ok versions -> (i <= j)%nat -> versions !! i = Some a -> versions !! j = Some b ->
  sch_anchorMs a <= sch_anchorMs b.
Proof.
  intros (_ & _ & Hchain) Hij Ha. revert b. induction Hij as [|j Hij IH]; intros b Hb.
  - rewrite Ha in Hb. by injection Hb as ->.
  - destruct (versions !! j) as [c|] eqn:Hc.
    + specialize (IH c eq_refl). destruct (Hchain j c b Hc Hb). lia.
    + apply lookup_ge_None in Hc. apply lookup_lt_Some in Hb. lia.
Qed.

Lemma epoch_order s now1 now2 e1 e2 :
  valid_schedule s -> epochContaining s now1 = Ret (Some e1) ->
  epochContaining s now2 = Ret (Some e2) -> now1 <= now2 -> e1 = e2 \/ ep_end e1 <= ep_start e2.
Proof.
  intros Hv H1 H2 Hle.
  destruct (epochContaining_contains s now2 e2 Hv H2) as [Hin2 Hb2].
  destruct (Z.le_gt_cases (ep_start e2) now1) as [Hc|Hc].
  - left. destruct (epochContaining_contains s now1 e1 Hv H1) as [Hin1 Hb1].
    destruct (epochContaining_some s now1 e1 Hv H1) as (Ha1 & Hs1 & He1 & _).
    destruct (epochContaining_some s now2 e2 Hv H2) as (Ha2 & Hs2 & He2 & _).
    destruct Hv as [_ _ Hp _]. destruct e1 as [s1 t1], e2 as [s2 t2]; simpl in *.
    apply boundary_of_spec in Hb1 as (n1 & _ & ->); [| lia].
    apply boundary_of_spec in Hb2 as (n2 & _ & ->); [| lia].
    assert (n1 = n2) as -> by nia. f_equal; lia.
  - right. by apply (epoch_before_boundary s now1 e1 (ep_start e2)).
Qed.

(** The epochs of a pool tile time: whatever schedule transitions a pool went
    through, two clock values are admitted into the same epoch or into epochs
    that do not overlap, the earlier clock value into the earlier epoch, and each
    epoch contains its clock value. *)
Theorem epochs_tile sha256 s pool now1 now2 s1 e1 s2 e2 :
  reachable sha256 s ->
  reserve_epoch s pool now1 = Ret (Some (s1, e1)) ->
  reserve_epoch s pool now2 = Ret (Some (s2, e2)) -> now1 <= now2 ->
  ep_start e1 <= now1 < ep_end e1
  /\ ((s1 = s2 /\ e1 = e2) \/ ep_end e1 <= ep_start e2).
Proof.
  intros Hreach H1 H2 Hle. pose proof (reachable_inv sha256 s Hreach) as Hinv.
  destruct (reserve_epoch_some _ _ _ _ _ _ Hinv H1) as (vs & Hvs & Ha1 & He1 & Hv1).
  destruct (reserve_epoch_some _ _ _ _ _ _ Hinv H2) as (vs' & Hvs' & Ha2 & He2 & Hv2).
  rewrite Hvs in Hvs'. injection Hvs' as <-.
  pose proof (inv_schedules _ s Hinv pool vs Hvs) as Hok.
  destruct (applicableSchedule_spec _ _ _ Ha1) as (i & Hi & Hi1 & Hi2).
  destruct (applicableSchedule_spec _ _ _ Ha2) as (j & Hj & Hj1 & Hj2).
  split; [by apply (epochContaining_contains s1 now1 e1 Hv1) |].
  destruct (lt_eq_lt_dec i j) as [[Hij|Hij]|Hij].
  - right. destruct (vs !! S i) as [w|] eqn:Hw.
    2:{ apply lookup_ge_None in Hw. apply lookup_lt_Some in Hj. lia. }
    destruct Hok as (Hne & Hf & Hchain). pose proof (Hchain i s1 w Hi Hw) as Hb.
    pose proof (epoch_before_boundary s1 now1 e1 _ Hv1 He1 Hb (Hi2 w eq_refl)).
    pose proof (versions_anchor_mono vs (S i) j w s2 ltac:(by split_and!) ltac:(lia) Hw Hj).
    destruct (epochContaining_contains s2 now2 e2 Hv2 He2) as [_ [? _]]. lia.
  - subst j. rewrite Hi in Hj. injection Hj as <-.
    destruct (epoch_order s1 now1 now2 e1 e2 Hv1 He1 He2 Hle); auto.
  - exfalso. destruct (vs !! S j) as [w|] eqn:Hw.
    2:{ apply lookup_ge_None in Hw. apply lookup_lt_Some in Hi. lia. }
    pose proof (versions_anchor_mono vs (S j) i w s1 Hok ltac:(lia) Hw Hi).
    pose proof (Hj2 w eq_refl). lia.
Qed.

(** A pool that moved from a 1000 ms to a 300 ms period at its boundary 2000. *)
Definition moved_ops : list ClientOp :=
  [OpConfigure Sample.schedule;
   OpTransition Sample.chat {| chg_limit := JUndefined; chg_periodMs := js_int 300;
     chg_anchorMs := JUndefined; chg_version := JStr (js "v2") |} 1500].

Lemma epochs_tile_witness : 1000 <= 1999 < 2000 /\ 2000 <= 2300.
Proof.
  pose proof (epochs_tile Sample.digest (Sample.run moved_ops) Sample.chat 1999 2400
    Sample.schedule {| ep_start := 1000; ep_end := 2000 |}
    {| sch_pool := Sample.chat; sch_limit := 100; sch_periodMs := 300; sch_anchorMs := 2000;
       sch_version := js "v2" |} {| ep_start := 2300; ep_end := 2600 |}) as H.
  destruct H as [Hin Hor].
  - apply Sample.run_reachable; [Sample.valid_ops | reflexivity].
  - vm_compute. reflexivity.
  - vm_compute. reflexivity.
  - lia.
  - split; [exact Hin |]. destruct Hor as [[Heq _]|Hle]; [discriminate Heq | exact Hle].
Defined.

(** A transition applied exactly on a boundary is not confined to future epochs:
    a row created at clock 2000 under the old period keeps its pinned end 3000
    while the schedule anchored at 2000 opens a second row for 2600, so two rows
    of the pool overlap in time and two allowances are open at once. *)
Theorem transition_on_boundary_overlaps :
  let change := {| chg_limit := JUndefined; chg_periodMs := js_int 300;
                   chg_anchorMs := JUndefined; chg_version := JStr (js "v2") |} in
  let at_ t id := OpReserve {| ra_tenant := Sample.acme; ra_pool := Sample.chat;
    ra_correlation := js "c"; ra_profile := Sample.profile; ra_upperBound := 100;
    ra_id := js id; ra_at := t |} in
  let s := Sample.run [OpConfigure Sample.schedule; at_ 2000 "i1";
                       OpTransition Sample.chat change 2000; at_ 2600 "i2"] in
  reachable Sample.digest s /\
  exists r1 r2,
    epochs s !! epochRowKey Sample.acme Sample.chat 2000 = Some r1
    /\ epochs s !! epochRowKey Sample.acme Sample.chat 2600 = Some r2
    /\ row_start r1 <= row_start r2 < row_end r1
    /\ row_held r1 + row_held r2 = 200 /\ row_limit r1 = 100 /\ row_limit r2 = 100.
Proof.
  intros change at_ s. split; [apply Sample.run_reachable; [Sample.valid_ops | reflexivity] |].
  eexists _, _. split_and!; try (vm_compute; reflexivity); vm_compute; try done.
Qed.

(** ** Names that a plain object inherits *)

(** Invocation identifiers named like an [Object.prototype] member are fenced
    without any reservation: [fence] returns a new dispatch fence and stores a
    record that carries no admission, in any state that does not hold the name. *)
Theorem inherited_name_is_fenced s k arity :
  inherited k = Some arity -> invocations s !! k = None ->
  valid_identity k /\
  fence_apply k s = Ret (Write (next_state s (epochs s) (<[k := Bare]> (invocations s))
                                  (quarantined s)) (FencedOut Bare false)).
Proof.
  intros Hi Hk. split.
  - unfold inherited in Hi. apply fmap_Some in Hi as (p & Hp & _).
    apply find_some in Hp as [Hin Heq]. apply bool_decide_eq_true in Heq as <-.
    simpl in Hin. by repeat destruct Hin as [<-|Hin].
  - unfold fence_apply, get_member. by rewrite Hk, Hi.
Qed.

Lemma inherited_name_is_fenced_witness :
  valid_identity (js "constructor") /\
  fence_apply (js "constructor") emptyLedgerState
  = Ret (Write (next_state emptyLedgerState ∅ {[ js "constructor" := Bare ]} ∅)
               (FencedOut Bare false)).
Proof. apply (inherited_name_is_fenced emptyLedgerState (js "constructor") 1); reflexivity. Defined.

(** ** The health report *)

Definition sum_list (l : list Z) : Z := fold_right Z.add 0 l.

Lemma sum_list_cons {A} (f : A -> Z) x l : sum_list (f <$> x :: l) = f x + sum_list (f <$> l).
Proof. done. Qed.

Lemma sum_list_nonneg {A} (f : A -> Z) (l : list A) :
  Forall (fun x => 0 <= f x <= MAX_SAFE) l -> 0 <= sum_list (f <$> l).
Proof. induction 1 as [|x l Hx _ IH]; [done |]. rewrite sum_list_cons. lia. Qed.

Lemma saturating_fold {A} (f : A -> Z) (l : list A) acc :
  0 <= acc <= MAX_SAFE -> Forall (fun x => 0 <= f x <= MAX_SAFE) l ->
  fold_left (fun t x => saturating_add t (f x)) l acc
  = Z.min MAX_SAFE (acc + sum_list (f <$> l)).
Proof.
  intros Hacc Hl. revert acc Hacc. induction Hl as [|x l Hx Hl IH]; intros acc Hacc.
  - simpl. lia.
  - pose proof (sum_list_nonneg f l Hl) as Hs. rewrite sum_list_cons. cbn [fold_left].
    unfold saturating_add, fadd. destruct (is_safe (rnd (acc + f x))) eqn:E.
    + apply rnd_safe_exact in E as [-> ?]; [| lia]. rewrite IH by lia. lia.
    + rewrite is_safe_rnd in E by lia. apply is_safe_false in E.
      rewrite IH by (unfold MAX_SAFE in *; lia). lia.
Qed.

Lemma breached_identities_sound seen all i :
  i ∈ breached_identities seen all ->
  exists r, Full r ∈ all /\ inv_breach r = true /\ inv_profileIdentity r = i.
Proof.
  revert seen. induction all as [|e all IH]; intros seen Hi; [by apply not_elem_of_nil in Hi |].
  simpl in Hi.
  assert (i ∈ breached_identities (entry_identity e :: seen) all \/
    exists r, e = Full r /\ inv_breach r = true /\ inv_profileIdentity r = i) as [H|(r & -> & ? & ?)].
  { destruct e as [r|]; [| by left]. destruct (inv_breach r) eqn:Hb; simpl in Hi; [| by left].
    destruct (bool_decide _); simpl in Hi; [by left |].
    apply elem_of_cons in Hi as [->|Hi]; [right; by exists r | by left]. }
  - destruct (IH _ H) as (r & ? & ? & ?). exists r. split_and!; [by right | done | done].
  - exists r. split_and!; [by left | done | done].
Qed.

(** The health report of a reachable ledger: committed and held are the exact
    sums over all epoch rows, saturated at the largest safe integer whatever the
    enumeration order, and every profile reported quarantined belongs to an
    invocation that breached its bound and really is in quarantine. *)
Theorem ledger_health_totals sha256 s rows entries :
  reachable sha256 s ->
  rows ≡ₚ (map_to_list (epochs s)).*2 -> entries ≡ₚ (map_to_list (invocations s)).*2 ->
  let h := ledgerHealth_of rows entries in
  lh_committed h = Z.min MAX_SAFE (sum_list (row_committed <$> rows))
  /\ lh_held h = Z.min MAX_SAFE (sum_list (row_held <$> rows))
  /\ forall i, i ∈ lh_quarantined h ->
       exists k r, invocations s !! k = Some (Full r) /\ inv_profileIdentity r = i
         /\ inv_breach r = true /\ profileKey sha256 (inv_profile r) ∈ quarantined s.
Proof.
  intros Hreach Hrows Hents h. pose proof (reachable_inv sha256 s Hreach) as Hinv.
  assert (Forall (fun row => 0 <= row_committed row <= MAX_SAFE /\ 0 <= row_held row <= MAX_SAFE) rows)
    as Hb.
  { apply Forall_forall. intros row Hin. rewrite Hrows in Hin.
    apply list_elem_of_fmap in Hin as ([k row'] & -> & Hin%elem_of_map_to_list). simpl.
    pose proof (row_bounds sha256 s k row' Hinv Hin). lia. }
  split_and!.
  - unfold h, ledgerHealth_of; simpl. rewrite (saturating_fold row_committed); [done | unfold MAX_SAFE; lia |].
    eapply Forall_impl; [exact Hb | simpl; tauto].
  - unfold h, ledgerHealth_of; simpl. rewrite (saturating_fold row_held); [done | unfold MAX_SAFE; lia |].
    eapply Forall_impl; [exact Hb | simpl; tauto].
  - intros i Hi. unfold h in Hi. simpl in Hi. rewrite sort_strings_perm in Hi.
    apply breached_identities_sound in Hi as (r & Hin & Hbr & Hid). rewrite Hents in Hin.
    apply list_elem_of_fmap in Hin as ([k e] & Heq & Hin%elem_of_map_to_list). simpl in Heq. subst e.
    exists k, r. split_and!; [done | done | done |].
    by apply (eo_breach _ _ _ _ (inv_entries sha256 s Hinv k r Hin)).
Qed.

Lemma ledger_health_totals_witness :
  lh_held (ledgerHealth_of [Sample.row 0 60] [Full Sample.held_i1]) = 60.
Proof.
  refine (proj1 (proj2 (ledger_health_totals Sample.digest (Sample.run Sample.one_held)
    [Sample.row 0 60] [Full Sample.held_i1] Sample.one_held_reachable _ _))).
  - assert ((map_to_list (epochs (Sample.run Sample.one_held))).*2 = [Sample.row 0 60]) as ->
      by (vm_compute; reflexivity). reflexivity.
  - assert ((map_to_list (invocations (Sample.run Sample.one_held))).*2 = [Full Sample.held_i1]) as ->
      by (vm_compute; reflexivity). reflexivity.
Defined.

(** The health report misses quarantined profiles: in a reachable ledger where a
    profile is quarantined after a breach, the report lists no quarantined profile
    when an earlier invocation of the same profile did not breach. *)
Theorem health_misses_quarantine :
  let s := Sample.run (Sample.one_held ++
             [OpRelease (js "i1"); OpReserve (Sample.args (js "i2") 60);
              OpSettle (js "i2") (Sample.usage 61 0)]) in
  reachable Sample.digest s
  /\ profileKey Sample.digest Sample.profile ∈ quarantined s
  /\ exists r1 r2, invocations s !! js "i1" = Some (Full r1)
     /\ invocations s !! js "i2" = Some (Full r2) /\ inv_breach r2 = true
     /\ lh_quarantined (ledgerHealth_of [] [Full r1; Full r2]) = []
     /\ lh_quarantined (ledgerHealth_of [] [Full r2; Full r1]) = [profileId Sample.profile].
Proof.
  intros s. split; [apply Sample.run_reachable; [Sample.valid_ops | reflexivity] |].
  split; [vm_compute; reflexivity |].
  eexists _, _. split_and!; vm_compute; reflexivity.
Qed.
