(* ===== verification/Budget.v ===== *)
(** * The tenant token budget ([ai/budget.ts])

    Profile qualification, the guarded dispatch protocol (reserve, fence, send,
    settle) and the reconciliation entry points.  A dispatch is a program
    ([prog]) whose nodes are the points where the code awaits; the sections
    between them are the continuations.  Several dispatches interleave at those
    points over one ledger store and one set of in-flight invocations. *)
From stdpp Require Import base gmap list strings.
From Stdlib Require Import ZArith Lia.
From S2P Require Import Prelude JsNumber JsString JsValue Identity Epoch Ledger Completion.

(** ** Qualified profiles *)

Record QualifiedProfile : Type := mkQualified { qp_profile : MeteringProfile; qp_upperBound : Z }.

(** [bounds]: a [Map] from the JSON tuple to the profile, in insertion order. *)
Definition registry : Type := list (jstr * QualifiedProfile).

Definition bounds_get (r : registry) (key : jstr) : option QualifiedProfile :=
  snd <$> find (fun e => bool_decide (e.1 = key)) r.

Definition qualify (provider model version upperBound : jsval) (r : registry) :
    res (QualifiedProfile * registry) :=
  let! pinned := meteringProfile provider model version in
  match js_safe_integer upperBound with
  | None => Throw "invalid profile upper bound"
  | Some upperBound =>
      if upperBound <? 1 then Throw "invalid profile upper bound"
      else
        let key := profileTuple pinned in
        match bounds_get r key with
        | Some existing =>
            if negb (qp_upperBound existing =? upperBound)
            then Throw "conflicting profile qualification"
            else Ret (existing, r)
        | None =>
            let qualified := mkQualified pinned upperBound in
            Ret (qualified, r ++ [(key, qualified)])
        end
  end.

Definition boundFor (provider model version : jsval) (r : registry) : option Z :=
  match meteringProfile provider model version with
  | Throw _ => None
  | Ret pinned => qp_upperBound <$> bounds_get r (profileTuple pinned)
  end.

Definition profiles (r : registry) : list QualifiedProfile := snd <$> r.

(** ** Reports *)

Inductive AccountingOutcome : Type := a_settled | a_unresolved | a_breach | a_released.

(** [rep_record] is [None] for a stored record without admission fields (the entry
    [fence] makes of an inherited name). *)
Record AccountingReport : Type := mkReport {
  rep_record : option InvocationRecord;
  rep_outcome : AccountingOutcome;
  rep_actual : option Z;
  rep_released : option Z;
  rep_duplicate : bool
}.

(** What host code observes of a guard: provider sends and emitted reports. *)
Inductive event : Type :=
| Sent (invocation : jstr)
| Reported (report : AccountingReport).

(** ** Attempts *)

Record GuardedSend : Type := mkSend {
  gs_completion : option (Completion jsval);  (* [None]: not a branded completion *)
  gs_body : option (list N)
}.

Record GuardedAttempt : Type := mkAttempt {
  at_context : jsval;
  at_where : string;
  at_operation : string;
  at_maxBodyBytes : jsval;
  at_invocationId : jsval
}.

Record GuardedConnectionConfig : Type := mkConnection {
  permittedPool : jsval;
  cn_provider : jsval;
  cn_model : jsval;
  cn_version : jsval
}.

Record BudgetTypes : Type := mkBudgetTypes { t_exceeded : jstr; t_unavailable : jstr }.

Definition reason_text (reason : UnavailableReason) : string :=
  match reason with
  | MissingContext => "missing-context"
  | InvalidPolicy => "invalid-policy"
  | StorageUnavailable => "storage-unavailable"
  | AmbiguousCommit => "ambiguous-commit"
  | InvalidUsage => "invalid-usage"
  | ConflictingSettlement => "conflicting-settlement"
  | MissingQualification => "missing-qualification"
  | BreachedProfile => "breached-profile"
  | UnknownInvocation => "unknown-invocation"
  end.

(** ** Programs

    One constructor per await of the guard and per synchronous effect; a result
    of type [res] is a fulfilled or a rejected promise. *)
Inductive prog : Type :=
| PRet (r : res (Completion jsval))
| PReserve (input : ReserveInput) (k : res ReserveOutcome -> prog)
| PFence (id : jstr) (k : res FenceOutcome -> prog)
| PRelease (id : jstr) (k : res ReleaseOutcome -> prog)
| PSettle (id : jstr) (usage : Usage) (k : res SettleOutcome -> prog)
| PSend (id : jstr) (k : thrown + GuardedSend -> prog)
| PReport (report : AccountingReport) (k : prog)
| PDelete (id : jstr) (k : prog).

Section guard.
Context (types : BudgetTypes).
(** [parseDocument(body, bytes).parsed]; [None] when it throws. *)
Context (parseDocument : list N -> Z -> option jsval).

(** [decodeProviderUsage]: the two top-level counters, when they can be trusted. *)
Definition plain_object (v : jsval) : bool := match v with JObject _ => true | _ => false end.

Definition decodeProviderUsage (input : option (list N)) (bytes : Z) : option Usage :=
  match input with
  | None => None
  | Some input =>
      match parseDocument input bytes with
      | None => None
      | Some parsed =>
          if negb (plain_object parsed) then None
          else
            let usage := property parsed (js "usage") in
            if negb (plain_object usage) then None
            else meteringUsage (property usage (js "input_tokens"))
                   (property usage (js "output_tokens"))
      end
  end.

Definition exceeded (pool : jstr) (required remaining epochResetMs : Z) (where_ : string) :
    Completion jsval :=
  domain (mkDomain (t_exceeded types)
    [("pool", JStr pool); ("required", JBigInt required);
     ("remaining", JBigInt remaining); ("epoch_reset_ms", JBigInt epochResetMs)]%string where_).

Definition unavailable (reason : UnavailableReason) (correlation id : jstr) (where_ : string) :
    Completion jsval :=
  domain (mkDomain (t_unavailable types)
    [("reason", JStr (js (reason_text reason))); ("correlation", JStr correlation);
     ("invocation", JStr id)]%string where_).

Definition report (record : InvocationRecord) (outcome : AccountingOutcome)
    (actual released : option Z) (duplicate : bool) (k : prog) : prog :=
  PReport (mkReport (Some record) outcome actual released duplicate) k.

(** The [finally] block. *)
Definition finish (id : jstr) (r : res (Completion jsval)) : prog := PDelete id (PRet r).

(** After [settle], with the provider's completion. *)
Definition after_settle (admitted : InvocationRecord) (id : jstr) (where_ : string)
    (completion : Completion jsval) (settled : res SettleOutcome) : prog :=
  match settled with
  | Throw msg => finish id (Throw msg)
  | Ret (SettledOut _ actual released duplicate breach) =>
      match breach with
      | Some _ =>
          report admitted a_breach (Some actual) None false
            (finish id (Ret (unavailable BreachedProfile (inv_correlation admitted) id where_)))
      | None =>
          report admitted a_settled (Some actual) (Some (if duplicate : bool then 0 else released))
            duplicate (finish id (Ret completion))
      end
  | Ret (SettleUnavailable ConflictingSettlement) =>
      finish id (Ret (unavailable ConflictingSettlement (inv_correlation admitted) id where_))
  | Ret (SettleUnavailable _) =>
      report admitted a_unresolved None None false (finish id (Ret completion))
  end.

(** After [attempt.send()] and the completion check. *)
Definition after_send (admitted : InvocationRecord) (id : jstr) (where_ : string) (maxBody : Z)
    (sent : thrown + GuardedSend) : prog :=
  let failed cause :=
    report admitted a_unresolved None None false (finish id (Ret (caught cause where_))) in
  match sent with
  | inl cause => failed cause
  | inr (mkSend None _) => failed (ThrownNative "TypeError: invalid completion carrier")
  | inr (mkSend (Some completion) body) =>
      match decodeProviderUsage body maxBody with
      | None => report admitted a_unresolved None None false (finish id (Ret completion))
      | Some usage => PSettle id usage (after_settle admitted id where_ completion)
      end
  end.

(** After the release of a definitively unfenced attempt. *)
Definition after_release (admitted : InvocationRecord) (id : jstr) (where_ : string)
    (reason : UnavailableReason) (released : res ReleaseOutcome) : prog :=
  let result := Ret (unavailable reason (inv_correlation admitted) id where_) in
  match released with
  | Throw msg => finish id (Throw msg)
  | Ret (ReleasedOut record _) =>
      report record a_released None None false (finish id result)
  | Ret _ => report admitted a_unresolved None None false (finish id result)
  end.

Definition after_fence (admitted : InvocationRecord) (id : jstr) (where_ : string) (maxBody : Z)
    (fenced : res FenceOutcome) : prog :=
  let refused reason := Ret (unavailable reason (inv_correlation admitted) id where_) in
  match fenced with
  | Throw msg => finish id (Throw msg)
  | Ret (FenceUnavailable AmbiguousCommit) =>
      report admitted a_unresolved None None false (finish id (refused AmbiguousCommit))
  | Ret (FenceUnavailable ConflictingSettlement) => finish id (refused ConflictingSettlement)
  | Ret (FenceUnavailable reason) => PRelease id (after_release admitted id where_ reason)
  | Ret (FencedOut _ _) => PSend id (after_send admitted id where_ maxBody)
  end.

Definition after_reserve (id : jstr) (where_ : string) (maxBody : Z)
    (reserved : res ReserveOutcome) : prog :=
  match reserved with
  | Throw msg => finish id (Throw msg)
  | Ret (Exceeded pool required remaining epochResetMs) =>
      finish id (Ret (exceeded pool required remaining epochResetMs where_))
  | Ret (ReserveUnavailable reason correlation rid) =>
      finish id (Ret (unavailable reason correlation rid where_))
  | Ret (Admitted_ admitted _ _ _) => PFence id (after_fence admitted id where_ maxBody)
  end.

Definition reserve_input (context : InvocationContext) (profile : MeteringProfile)
    (upperBound : Z) (id : jstr) (clock : jsval) : ReserveInput :=
  {| ri_tenant := JStr (ctx_tenant context); ri_pool := JStr (ctx_pool context);
     ri_correlation := JStr (ctx_correlation context);
     ri_provider := JStr (mp_provider profile); ri_model := JStr (mp_model profile);
     ri_version := JStr (mp_version profile); ri_qualified := JBool true;
     ri_upperBound := js_int upperBound; ri_invocationId := JStr id; ri_nowMs := clock |}.

(** [attempt.maxBodyBytes]: a safe integer of at least one. *)
Definition body_bound (v : jsval) : option Z :=
  match js_safe_integer v with
  | Some z => if z <? 1 then None else Some z
  | None => None
  end.

(** [dispatch] up to its first await: the checks, the in-flight registration, and
    the program that follows.  [newCorrelation] and [newInvocation] are the
    identities it mints when it needs one, [clock] is the number [clock()] gives. *)
Definition dispatch (qualified : registry) (clock : jsval) (newCorrelation newInvocation : jstr)
    (connection : GuardedConnectionConfig) (attempt : GuardedAttempt) (inflight : gset jstr) :
    prog * gset jstr :=
  let where_ := at_where attempt in
  let reject reason correlation id :=
    (PRet (Ret (unavailable reason correlation id where_)), inflight) in
  if is_undefined (at_context attempt) then reject MissingContext newCorrelation newInvocation
  else
    match isInvocationContext (at_context attempt) with
    | None => reject InvalidPolicy newCorrelation newInvocation
    | Some context =>
        let invalid reason := reject reason (ctx_correlation context) newInvocation in
        match body_bound (at_maxBodyBytes attempt) with
        | None => invalid InvalidPolicy
        | Some maxBody =>
            match poolId (permittedPool connection) with
            | Throw _ => invalid InvalidPolicy
            | Ret permitted =>
                if negb (bool_decide (ctx_pool context = permitted)) then invalid InvalidPolicy
                else
                  match meteringProfile (cn_provider connection) (cn_model connection)
                          (cn_version connection) with
                  | Throw _ => invalid InvalidPolicy
                  | Ret profile =>
                      match boundFor (JStr (mp_provider profile)) (JStr (mp_model profile))
                              (JStr (mp_version profile)) qualified with
                      | None => invalid MissingQualification
                      | Some upperBound =>
                          match (if is_undefined (at_invocationId attempt) then Ret newInvocation
                                 else invocationId (at_invocationId attempt)) with
                          | Throw _ => invalid InvalidPolicy
                          | Ret id =>
                              if bool_decide (id ∈ inflight)
                              then reject ConflictingSettlement (ctx_correlation context) id
                              else
                                (PReserve (reserve_input context profile upperBound id clock)
                                   (after_reserve id where_ maxBody),
                                 {[id]} ∪ inflight)
                          end
                      end
                  end
            end
        end
    end.

(** ** Scopes *)

(** [within], up to the call of the operation with the scope's context. *)
Definition within (newCorrelation newInvocation : jstr) (tenant pool active : jsval)
    (where_ : string) : Completion InvocationContext :=
  let refuse correlation :=
    match unavailable InvalidPolicy correlation newInvocation where_ with
    | domain f => domain f
    | _ => domain (mkDomain (t_unavailable types) [] where_)
    end in
  match invocationContext newCorrelation tenant pool JUndefined with
  | Throw _ => refuse newCorrelation
  | Ret next =>
      if is_undefined active then ok next
      else
        match isInvocationContext active with
        | None => refuse (ctx_correlation next)
        | Some active =>
            match nestContext active next with
            | Throw _ => refuse (ctx_correlation active)
            | Ret context => ok context
            end
        end
  end.
End guard.

(** ** Reconciliation entry points *)

Inductive SettleUsageOutcome : Type :=
| UsageSettled (actual released : Z) (duplicate : bool) (breach : option Breach)
| UsageUnavailable (reason : UnavailableReason).

Section reconciliation.
Context {W : Type} `{LedgerStore W} (sha256 : jstr -> jstr).

(** The report of a found record whose usage could not be settled now. *)
Definition late_report (record : InvocationRecord) : AccountingReport :=
  match inv_state record, inv_usage record with
  | Settled, Some usage => mkReport (Some record) a_settled (Some (usageTotal usage)) (Some 0) true
  | _, _ => mkReport (Some record) a_unresolved None None false
  end.

Definition settleUsage (id input output : jsval) (w : W) :
    res SettleUsageOutcome * list AccountingReport * W :=
  let '(settled, w) := settle sha256 id input output w in
  match settled with
  | Throw msg => (Throw msg, [], w)
  | Ret (SettledOut record actual released duplicate breach) =>
      match breach with
      | Some b =>
          (Ret (UsageSettled actual released duplicate (Some b)),
           [mkReport (Some record) a_breach (Some actual) None false], w)
      | None =>
          (Ret (UsageSettled actual released duplicate None),
           [mkReport (Some record) a_settled (Some actual) (Some (if duplicate : bool then 0 else released))
              duplicate], w)
      end
  | Ret (SettleUnavailable reason) =>
      let late := match reason with
                  | InvalidUsage | StorageUnavailable | AmbiguousCommit => true
                  | _ => false
                  end in
      if late then
        let '(found, w) := reconcile id w in
        match found with
        | Throw msg => (Throw msg, [], w)
        | Ret (Found (Full record)) => (Ret (UsageUnavailable reason), [late_report record], w)
        | Ret (Found Bare) | Ret FoundInherited =>
            (Ret (UsageUnavailable reason), [mkReport None a_unresolved None None false], w)
        | Ret _ => (Ret (UsageUnavailable reason), [], w)
        end
      else (Ret (UsageUnavailable reason), [], w)
  end.

Definition releaseReservation (id : jsval) (w : W) :
    res ReleaseOutcome * list AccountingReport * W :=
  let '(released, w) := releaseUndispatched id w in
  match released with
  | Ret (ReleasedOut record _) =>
      (released, [mkReport (Some record) a_released None None false], w)
  | Ret (HeldOut (Full record)) =>
      (released, [mkReport (Some record) a_unresolved None None false], w)
  | Ret (HeldOut Bare) => (released, [mkReport None a_unresolved None None false], w)
  | _ => (released, [], w)
  end.
End reconciliation.

(** ** Many dispatches at once *)

Section system.
Context {W : Type} `{LedgerStore W} (sha256 : jstr -> jstr).
(** The provider: what the send of an invocation gives, after the events so far. *)
Context (provider : list event -> jstr -> thrown + GuardedSend).

Record system : Type := mkSystem {
  threads : list prog;
  inflight : gset jstr;
  events : list event;
  store : W
}.

(** One dispatch runs up to its next await. *)
Definition advance (p : prog) (s : system) : prog * system :=
  let with_store w := mkSystem (threads s) (inflight s) (events s) w in
  let with_event e := mkSystem (threads s) (inflight s) (events s ++ [e]) (store s) in
  match p with
  | PRet _ => (p, s)
  | PReserve input k =>
      let '(r, w) := reserve sha256 0 [] [] input (store s) in (k r, with_store w)
  | PFence id k => let '(r, w) := fence (JStr id) (store s) in (k r, with_store w)
  | PRelease id k => let '(r, w) := releaseUndispatched (JStr id) (store s) in (k r, with_store w)
  | PSettle id usage k =>
      let '(r, w) := settle sha256 (JStr id) (js_int (inputTokens usage))
                       (js_int (outputTokens usage)) (store s) in
      (k r, with_store w)
  | PSend id k => (k (provider (events s) id), with_event (Sent id))
  | PReport r k => (k, with_event (Reported r))
  | PDelete id k => (k, mkSystem (threads s) (inflight s ∖ {[id]}) (events s) (store s))
  end.

Inductive move : Type :=
| Start (qualified : registry) (clock : jsval) (newCorrelation newInvocation : jstr)
    (connection : GuardedConnectionConfig) (attempt : GuardedAttempt)
| Run (thread : nat).

Definition step (types : BudgetTypes) (parseDocument : list N -> Z -> option jsval) (m : move)
    (s : system) : system :=
  match m with
  | Start qualified clock nc ni connection attempt =>
      let '(p, fly) := dispatch types parseDocument qualified clock nc ni connection attempt
                         (inflight s) in
      mkSystem (threads s ++ [p]) fly (events s) (store s)
  | Run i =>
      match threads s !! i with
      | None => s
      | Some p =>
          let '(p', s') := advance p s in
          mkSystem (<[i := p']> (threads s')) (inflight s') (events s') (store s')
      end
  end.

Definition schedule_run (types : BudgetTypes) (parseDocument : list N -> Z -> option jsval)
    (moves : list move) (s : system) : system :=
  fold_left (fun s m => step types parseDocument m s) moves s.

Definition idle (w : W) : system := mkSystem [] ∅ [] w.
End system.
Arguments system W : clear implicits.
