(* ===== verification/BudgetTheorems.v ===== *)
(** * What the token budget guarantees

    Dispatches of one guard interleave with each other and with other clients of
    the shared ledger store, whose calls may be rejected at any point. *)
From stdpp Require Import base gmap list strings relations.
From Stdlib Require Import ZArith Lia.
From S2P Require Import Prelude JsNumber JsString JsValue Identity Epoch Ledger LedgerInv.
From S2P Require Import LedgerConc LedgerTheorems Completion Budget.

(** ** One dispatch per invocation at a time *)

(** The rest of a dispatch that holds [id] in flight: whatever the awaited calls
    answer, all it does concerns [id], and it ends by leaving the set. *)
Fixpoint holds (id : jstr) (p : prog) : Prop :=
  match p with
  | PRet _ => False
  | PReserve input k => ri_invocationId input = JStr id /\ forall r, holds id (k r)
  | PFence i k => i = id /\ forall r, holds id (k r)
  | PRelease i k => i = id /\ forall r, holds id (k r)
  | PSettle i _ k => i = id /\ forall r, holds id (k r)
  | PSend i k => i = id /\ forall r, holds id (k r)
  | PReport _ k => holds id k
  | PDelete i k => i = id /\ exists r, k = PRet r
  end.

Lemma holds_inj id id' p : holds id p -> holds id' p -> id = id'.
Proof.
  induction p as [r|input k IH|i k IH|i k IH|i u k IH|i k IH|rep k IH|i k IH]; cbn;
    try (intros [<- _] [<- _]; done); try done.
  - intros [H1 _] [H2 _]. congruence.
Qed.

Section holds_facts.
Context (types : BudgetTypes) (parse : list N -> Z -> option jsval).

Lemma holds_finish id r : holds id (finish id r).
Proof. cbn. eauto. Qed.

Lemma holds_after_settle a id where_ c r : holds id (after_settle types a id where_ c r).
Proof. unfold after_settle, report. repeat case_match; cbn; eauto. Qed.

Lemma holds_after_send a id where_ n r : holds id (after_send types parse a id where_ n r).
Proof.
  unfold after_send, report. repeat case_match; cbn; eauto using holds_after_settle.
Qed.

Lemma holds_after_release a id where_ reason r : holds id (after_release types a id where_ reason r).
Proof. unfold after_release, report. repeat case_match; cbn; eauto. Qed.

Lemma holds_after_fence a id where_ n r : holds id (after_fence types parse a id where_ n r).
Proof.
  unfold after_fence, report.
  repeat case_match; cbn; eauto using holds_after_send, holds_after_release.
Qed.

Lemma holds_after_reserve id where_ n r : holds id (after_reserve types parse id where_ n r).
Proof.
  unfold after_reserve. repeat case_match; cbn; eauto using holds_after_fence.
Qed.

(** What [dispatch] does before its first await. *)
Lemma dispatch_cases qualified clock nc ni conn att fly p fly' :
  dispatch types parse qualified clock nc ni conn att fly = (p, fly') ->
  (exists r, p = PRet r /\ fly' = fly) \/
  exists context profile qp id n,
    isInvocationContext (at_context att) = Some context /\
    permittedPool conn = JStr (ctx_pool context) /\
    meteringProfile (cn_provider conn) (cn_model conn) (cn_version conn) = Ret profile /\
    bounds_get qualified (profileTuple profile) = Some qp /\
    (id ∉ fly) /\ fly' = {[id]} ∪ fly /\
    p = PReserve (reserve_input context profile (qp_upperBound qp) id clock)
          (after_reserve types parse id (at_where att) n).
Proof.
  unfold dispatch. intros H. case_match; [simplify_eq; eauto |].
  destruct (isInvocationContext (at_context att)) as [context|]; [| simplify_eq; eauto].
  destruct (body_bound _) as [n|]; [| simplify_eq; eauto].
  destruct (poolId (permittedPool conn)) as [permitted|] eqn:Hp; [| simplify_eq; eauto].
  case_bool_decide as Hc; cbn [negb] in H; [| simplify_eq; eauto].
  destruct (meteringProfile (cn_provider conn) _ _) as [profile|] eqn:Hm; [| simplify_eq; eauto].
  destruct (boundFor _ _ _ qualified) as [u|] eqn:Hb; [| simplify_eq; eauto].
  match type of H with context [match ?x with _ => _ end] => destruct x as [id|] end;
    [| simplify_eq; eauto].
  case_bool_decide as Hin; [simplify_eq; eauto |]. simplify_eq. right.
  unfold boundFor in Hb.
  destruct (meteringProfile (JStr _) _ _) as [pinned|] eqn:Hm'; [| done].
  assert (pinned = profile) as ->.
  { unfold meteringProfile in Hm'. apply res_bind_ret in Hm' as (x & Hx & Hm').
    apply res_bind_ret in Hm' as (y & Hy & Hm'). apply res_bind_ret in Hm' as (z & Hz & Hm').
    injection Hm' as <-. unfold identityValue in *. inv_res. by destruct profile. }
  destruct (bounds_get qualified (profileTuple profile)) as [qp|] eqn:Hq; [| done].
  injection Hb as <-.
  exists context, profile, qp, id, n. split_and!; try done.
  unfold poolId in Hp. apply checkIdentity_ret in Hp as [-> _]. done.
Qed.
End holds_facts.

Section exclusive.
Context {W : Type} `{LedgerStore W} (sha256 : jstr -> jstr).
Context (provider : list event -> jstr -> thrown + GuardedSend).
Context (types : BudgetTypes) (parse : list N -> Z -> option jsval).

Definition running (p : prog) : Prop := exists id, holds id p.

Record exclusive (s : system W) : Prop := {
  ex_cases : forall i p, threads s !! i = Some p -> (exists r, p = PRet r) \/ running p;
  ex_fly : forall id, id ∈ inflight s <-> exists i p, threads s !! i = Some p /\ holds id p;
  ex_one : forall i j p q id, threads s !! i = Some p -> threads s !! j = Some q ->
    holds id p -> holds id q -> i = j
}.

Lemma advance_holds p id (s : system W) :
  holds id p ->
  let '(p', s') := advance sha256 provider p s in
  threads s' = threads s /\
  ((holds id p' /\ inflight s' = inflight s) \/
   ((exists r, p' = PRet r) /\ inflight s' = inflight s ∖ {[id]})).
Proof.
  destruct p as [r|input k|i k|i k|i u k|i k|rep k|i k]; cbn; try done.
  - destruct (reserve _ _ _ _ _ _) as [r w]. intros [_ Hk]. cbn. eauto.
  - destruct (fence _ _) as [r w]. intros [_ Hk]. cbn. eauto.
  - destruct (releaseUndispatched _ _) as [r w]. intros [_ Hk]. cbn. eauto.
  - destruct (settle _ _ _ _ _) as [r w]. intros [_ Hk]. cbn. eauto.
  - intros [_ Hk]. eauto.
  - eauto.
  - intros [-> Hr]. eauto.
Qed.

Lemma holds_not_ret id r : ~ holds id (PRet r).
Proof. by intros []. Qed.

Lemma exclusive_run i (s : system W) : exclusive s -> exclusive (step sha256 provider types parse (Run i) s).
Proof.
  intros [Hc Hf Ho]. cbn. destruct (threads s !! i) as [p|] eqn:Hi; [| by split].
  destruct (Hc i p Hi) as [[r ->]|[id Hid]].
  { cbn. rewrite list_insert_id by done. by split. }
  pose proof (advance_holds p id s Hid) as Ha.
  destruct (advance sha256 provider p s) as [p' s'] eqn:Hadv. destruct Ha as [Ht Ha].
  assert (i < length (threads s))%nat as Hlen by by eapply lookup_lt_Some.
  assert (forall j q, <[i:=p']> (threads s') !! j = Some q ->
            (j = i /\ q = p') \/ (j <> i /\ threads s !! j = Some q)) as Hlook.
  { intros j q Hj. rewrite Ht in Hj. destruct (decide (j = i)) as [->|Hne].
    - rewrite list_lookup_insert_eq in Hj by done. left. by injection Hj.
    - rewrite list_lookup_insert_ne in Hj by done. by right. }
  destruct Ha as [[Hid' Hfl]|[[r ->] Hfl]]; split; cbn; rewrite ?Hfl.
  - intros j q [[-> ->]|[_ Hj]]%Hlook; [right; by exists id | by eapply Hc].
  - intros id'. rewrite Hf. split; intros (j & q & Hj & Hq).
    + destruct (decide (j = i)) as [->|Hne].
      * rewrite Hi in Hj. injection Hj as <-. rewrite (holds_inj id' id p Hq Hid).
        exists i, p'. rewrite Ht, list_lookup_insert_eq by done. done.
      * exists j, q. rewrite Ht, list_lookup_insert_ne by done. done.
    + destruct (Hlook j q Hj) as [[-> ->]|[_ Hj']]; [| by eauto].
      exists i, p. rewrite (holds_inj id' id p' Hq Hid'). done.
  - intros j1 j2 q1 q2 id' [[-> ->]|[Hn1 Hj1]]%Hlook [[-> ->]|[Hn2 Hj2]]%Hlook H1 H2; try done.
    + rewrite (holds_inj _ _ _ H1 Hid') in *. by apply (Ho i j2 p q2 id).
    + rewrite (holds_inj _ _ _ H2 Hid') in *. by apply (Ho j1 i q1 p id).
    + by apply (Ho j1 j2 q1 q2 id').
  - intros j q [[-> ->]|[_ Hj]]%Hlook; [left; by exists r | by eapply Hc].
  - intros id'. rewrite elem_of_difference, elem_of_singleton, Hf. split.
    + intros [(j & q & Hj & Hq) Hne]. exists j, q. split; [| done].
      rewrite Ht, list_lookup_insert_ne; [done |]. intros <-. rewrite Hi in Hj.
      injection Hj as <-. by apply Hne, (holds_inj id' id p).
    + intros (j & q & [[-> ->]|[Hne Hj]]%Hlook & Hq); [by destruct Hq |].
      split; [by eauto |]. intros ->. by apply Hne, (Ho j i q p id).
  - intros j1 j2 q1 q2 id' [[-> ->]|[Hn1 Hj1]]%Hlook [[-> ->]|[Hn2 Hj2]]%Hlook H1 H2; try done.
    by apply (Ho j1 j2 q1 q2 id').
Qed.

Lemma exclusive_start qualified clock nc ni conn att (s : system W) :
  exclusive s ->
  exclusive (step sha256 provider types parse (Start qualified clock nc ni conn att) s).
Proof.
  intros [Hc Hf Ho]. cbn.
  destruct (dispatch types parse qualified clock nc ni conn att (inflight s)) as [p fly] eqn:Hd.
  assert (forall j q, (threads s ++ [p]) !! j = Some q ->
            threads s !! j = Some q \/ (j = length (threads s) /\ q = p)) as Hlook.
  { intros j q [Hj|[Hge Hj]]%lookup_app_Some; [by left | right].
    destruct (j - length (threads s))%nat as [|m] eqn:Hm; [| done].
    injection Hj as <-. split; [lia | done]. }
  assert (forall j q, threads s !! j = Some q -> (threads s ++ [p]) !! j = Some q) as Hold
    by (intros; by apply lookup_app_l_Some).
  assert ((threads s ++ [p]) !! length (threads s) = Some p) as Hnew
    by (by rewrite lookup_app_r, Nat.sub_diag by done).
  apply dispatch_cases in Hd as [(r & -> & ->)|(ctx & prof & qp & id & n & _ & _ & _ & _ & Hid & -> & ->)];
    split; cbn [threads inflight].
  - intros j q [Hj|[-> ->]]%Hlook; [by eapply Hc | left; by exists r].
  - intros id'. rewrite Hf. split; intros (j & q & Hj & Hq); [by eauto |].
    destruct (Hlook j q Hj) as [Hj'|[-> ->]]; [by eauto | by destruct Hq].
  - intros j1 j2 q1 q2 id' [Hj1|[-> ->]]%Hlook [Hj2|[-> ->]]%Hlook H1 H2; try done.
    by apply (Ho j1 j2 q1 q2 id').
  - intros j q [Hj|[-> ->]]%Hlook; [by eapply Hc | right]. exists id. cbn.
    split; [done | intros; apply holds_after_reserve].
  - assert (holds id (PReserve (reserve_input ctx prof (qp_upperBound qp) id clock)
              (after_reserve types parse id (at_where att) n))) as Hh
      by (cbn; split; [done | intros; apply holds_after_reserve]).
    intros id'. rewrite elem_of_union, elem_of_singleton. split.
    + intros [->|Hin]; [eauto |]. apply Hf in Hin as (j & q & Hj & Hq). eauto.
    + intros (j & q & [Hj|[-> ->]]%Hlook & Hq); [right; apply Hf; eauto | left].
      by apply (holds_inj id' id _ Hq).
  - assert (forall q j, threads s !! j = Some q -> ~ holds id q) as Hno.
    { intros q j Hj Hq. apply Hid, Hf. eauto. }
    intros j1 j2 q1 q2 id' [Hj1|[-> ->]]%Hlook [Hj2|[-> ->]]%Hlook H1 H2; try done.
    + by apply (Ho j1 j2 q1 q2 id').
    + cbn in H2. destruct H2 as [[= ->] _]. by destruct (Hno q1 j1 Hj1).
    + cbn in H1. destruct H1 as [[= ->] _]. by destruct (Hno q2 j2 Hj2).
Qed.

Lemma exclusive_reachable moves (s : system W) :
  exclusive s -> exclusive (schedule_run sha256 provider types parse moves s).
Proof.
  revert s. induction moves as [|m moves IH]; intros s Hs; [done |]. apply IH.
  destruct m; [by apply exclusive_start | by apply exclusive_run].
Qed.

Lemma exclusive_idle (w : W) : exclusive (idle w).
Proof using Type.
  split; cbn; [discriminate | | discriminate].
  intros id. rewrite elem_of_empty. split; [intros [] | intros (i & p & Hi & _); discriminate].
Qed.
End exclusive.

(** Dispatches that use one invocation id never overlap: in every interleaving
    of any number of dispatches, an unfinished dispatch holds exactly one id, the
    ids in flight are exactly those held, no two dispatches hold the same id, and
    all a dispatch still does (reserve, fence, send, settle) concerns its own id;
    whatever its calls answer or throw, it leaves the set when it ends. *)
Theorem dispatch_exclusive {W} `{LedgerStore W} sha256 provider types parse moves (w : W) :
  let s := schedule_run sha256 provider types parse moves (idle w) in
  (forall i p, threads s !! i = Some p -> (exists r, p = PRet r) \/ exists id, holds id p) /\
  (forall id, id ∈ inflight s <-> exists i p, threads s !! i = Some p /\ holds id p) /\
  (forall i j p q id, threads s !! i = Some p -> threads s !! j = Some q ->
     holds id p -> holds id q -> i = j).
Proof.
  intros s. destruct (exclusive_reachable sha256 provider types parse moves (idle w)
    (exclusive_idle w)) as [H1 H2 H3]. done.
Qed.

(** ** What a call does to the shared ledger *)

Section shared_calls.
Context (sha256 : jstr -> jstr).
#[local] Instance the_store : LedgerStore SharedStore := shared_store sha256.

(** A call moves the ledger along client steps and, when it returns, its result
    says something about the ledger it leaves. *)
Definition call_spec {T} (p : SharedStore -> res T * SharedStore)
    (Q : T -> LedgerState -> Prop) : Prop :=
  forall w r w', shared_ok w -> reachable sha256 (sh_state w) -> p w = (r, w') ->
    shared_ok w' /\ rtc (ledger_step sha256) (sh_state w) (sh_state w') /\
    forall v, r = Ret v -> Q v (sh_state w').

Lemma others_steps s s' : rtc (others_step sha256) s s' -> rtc (ledger_step sha256) s s'.
Proof. apply rtc_subrel. by intros ?? [? _]. Qed.

Lemma reachable_steps s s' :
  reachable sha256 s -> rtc (ledger_step sha256) s s' -> reachable sha256 s'.
Proof. unfold reachable. intros. by etrans. Qed.

Lemma run_op_spec {T} (u : UnavailableReason -> T) body (Q : T -> LedgerState -> Prop) :
  (forall s s' v, body s = Ret (Write s' v) -> ledger_step sha256 s s') ->
  (forall s v, reachable sha256 s -> body s = Ret (NoWrite v) -> Q v s) ->
  (forall s s' v, reachable sha256 s -> body s = Ret (Write s' v) -> Q v s') ->
  (forall reason s, Q (u reason) s) ->
  call_spec (run_op u body) Q.
Proof.
  intros Hbody Hn Hw Hu w r w' Hok Hreach Heq. unfold run_op in Heq.
  destruct (runTransaction body w) as [r1 w1] eqn:Ht. injection Heq as <- ->.
  destruct (@runTransaction_atomic (others_step sha256) SharedStore (shared_store sha256)
    (shared_lawful sha256) T body w r1 w' Hok Ht) as [Hok' Hspec].
  cbn [persisted shared_lawful] in Hspec. split; [done |].
  destruct r1 as [[v| |]|msg]; cbn [tx_spec finish_tx] in *.
  - destruct Hspec as (s & Hs%others_steps & Hcase).
    pose proof (reachable_steps _ _ Hreach Hs) as Hr.
    destruct Hcase as [[Hb ->]|Hb]; (split; [| intros v' [= <-]; by eauto]); [done |].
    eapply rtc_r; eauto.
  - split; [by apply others_steps | intros v' [= <-]; apply Hu].
  - destruct Hspec as (s & Hs%others_steps & [->|[v Hb]]);
      (split; [| intros v' [= <-]; apply Hu]); [done | eapply rtc_r; eauto].
  - destruct Hspec as [Hs%others_steps _]. by split.
Qed.

Lemma checked_spec {A T} (v : res A) (k : A -> SharedStore -> res T * SharedStore) Q :
  (forall a, v = Ret a -> call_spec (k a) Q) -> call_spec (checked v k) Q.
Proof.
  intros Hk w r w' Hok Hreach Heq. unfold checked in Heq. destruct v as [a|msg].
  - by eapply Hk.
  - injection Heq as <- <-. split; [done |]. split; [apply rtc_refl | by intros].
Qed.

Lemma ret_spec {T} (x : T) (Q : T -> LedgerState -> Prop) :
  (forall s, Q x s) -> call_spec (fun w => (Ret x, w)) Q.
Proof.
  intros HQ w r w' Hok Hreach Heq. injection Heq as <- <-.
  split; [done |]. split; [apply rtc_refl | by intros v [= <-]].
Qed.

(** The stored admission of [id]. *)
Definition admission (s : LedgerState) (id : jstr) (a : InvocationRecord) : Prop :=
  invocations s !! id = Some (Full a).

Lemma reserve_call now fc fi input a :
  reserve_args now fc fi input = Ret a ->
  call_spec (reserve sha256 now fc fi input) (fun v s =>
    match v with
    | Admitted_ record _ _ _ =>
        admission s (ra_id a) record /\ inv_tenant record = ra_tenant a /\
        inv_pool record = ra_pool a /\ inv_upperBound record = ra_upperBound a /\
        inv_profileIdentity record = profileId (ra_profile a)
    | _ => True
    end).
Proof.
  intros Ha. apply checked_spec. intros a' Ha'. rewrite Ha in Ha'. injection Ha' as <-.
  destruct (is_true (ri_qualified input)); cbn [negb]; [| by apply ret_spec].
  apply run_op_spec; [| | | done].
  - intros s s' v Hw. apply (step_of_op _ (OpReserve a)); [by eapply reserve_args_valid |].
    apply written_some. by exists v.
  - intros s v Hr Hb. unfold reserve_apply in Hb. inv_res.
    destruct v as [record| |]; [| done | done].
    destruct x as [[schedule epoch]|]; [| done].
    destruct (get_member (invocations s) (ra_id a)) as [[x|]|arity|] eqn:Hm; try done.
    + destruct (same_admission x _ _ _ _ _) eqn:Hs; cbn [negb] in Hb; [| done].
      injection Hb as <- _ _ _.
      apply get_member_own in Hm. unfold same_admission in Hs. split_bools. done.
    + unfold reserve_new in Hb. repeat case_match; simplify_eq.
  - intros s s' v Hr Hb. unfold reserve_apply in Hb. inv_res.
    destruct x as [[schedule epoch]|]; [| done].
    destruct (get_member (invocations s) (ra_id a)) as [[x|]|arity|] eqn:Hm; simplify_eq;
      [by case_match |].
    unfold reserve_new in Hb. repeat case_match; simplify_eq/=.
    split; [apply lookup_insert_eq | done].
Qed.

Lemma fence_call id :
  call_spec (fence (JStr id)) (fun v s =>
    match v with
    | FencedOut (Full r) _ => admission s id r /\ inv_state r = Fenced
    | FencedOut Bare _ => invocations s !! id = Some Bare
    | _ => True
    end).
Proof.
  apply checked_spec. intros key Hkey. apply checkIdentity_ret in Hkey as [[= <-] _].
  apply run_op_spec; [| | | done].
  - intros s s' v Hw. apply (step_of_op _ (OpFence id)); [done |]. apply written_some. by exists v.
  - intros s v Hr Hb. unfold fence_apply in Hb. inv_res.
    destruct (get_member (invocations s) id) as [[x|]|arity|] eqn:Hm; simplify_eq; try done.
    + apply get_member_own in Hm.
      destruct (inv_entries _ s (reachable_inv sha256 s Hr) id x Hm) as [_ _ _ _ _ _ _ Hf _].
      unfold fence_ok in Hf.
      destruct (inv_state x) eqn:Hst, (inv_fenced x) eqn:Hfx; simplify_eq; done.
    + by apply get_member_own in Hm.
  - intros s s' v Hr Hb. unfold fence_apply in Hb. inv_res.
    destruct (get_member (invocations s) id) as [[x|]|arity|] eqn:Hm; simplify_eq.
    + repeat case_match; simplify_eq/=; (split; [apply lookup_insert_eq | done]).
    + apply lookup_insert_eq.
Qed.

Lemma release_call id : call_spec (releaseUndispatched (JStr id)) (fun _ _ => True).
Proof.
  apply checked_spec. intros key Hkey. apply run_op_spec; [| done..].
  intros s s' v Hw. apply (step_of_op _ (OpRelease key)); [done |]. apply written_some. by exists v.
Qed.

Lemma settle_call id i o : call_spec (settle sha256 id i o) (fun _ _ => True).
Proof.
  apply checked_spec. intros key Hkey.
  destruct (meteringUsage i o) as [u|] eqn:Hu; [| by apply ret_spec].
  apply run_op_spec; [| done..]. intros s s' v Hw.
  apply (step_of_op _ (OpSettle key u)); [by eapply meteringUsage_valid |].
  apply written_some. by exists v.
Qed.

(** A fenced record stays fenced or is settled. *)
Definition dispatched (r : InvocationRecord) : Prop := inv_state r = Fenced \/ inv_state r = Settled.

Lemma steps_dispatched s s' k r :
  reachable sha256 s -> rtc (ledger_step sha256) s s' -> admission s k r -> dispatched r ->
  exists r', admission s' k r' /\ same_terms r r' /\ dispatched r'.
Proof.
  intros Hreach Hsteps. revert r. induction Hsteps as [s|s s1 s2 Hstep _ IH]; intros r Hk Hd.
  - exists r. split; [done |]. split; [symmetry; apply with_state_id | done].
  - destruct (step_moves sha256 s s1 k r Hreach Hstep Hk) as (r1 & Hk1 & Hm).
    assert (dispatched r1) as Hd1.
    { destruct Hm as [->|(Hl & _)]; [done |]. unfold dispatched in *.
      destruct Hd as [Hd|Hd]; rewrite Hd in Hl; inversion Hl; by right. }
    destruct (IH ltac:(by eapply rtc_r) r1 Hk1 Hd1) as (r2 & Hk2 & Hs & Hd2).
    exists r2. split; [done |]. apply moves_same_terms in Hm as Hst. unfold same_terms in *.
    split; [by rewrite Hs, Hst | done].
Qed.
End shared_calls.

(** ** Nothing is sent before its budget is reserved and fenced *)

(** A dispatch was started for this tenant, pool and profile: by a scope of that
    tenant and pool, through a connection that permits that pool, with the bound
    under which the connection's profile is qualified. *)
Definition licensed (moves : list move) (tenant pool : jstr) (upperBound : Z) (identity : jstr) :
    Prop :=
  exists qualified clock nc ni conn att context profile qp,
    Start qualified clock nc ni conn att ∈ moves /\
    isInvocationContext (at_context att) = Some context /\
    ctx_tenant context = tenant /\ ctx_pool context = pool /\
    permittedPool conn = JStr pool /\
    meteringProfile (cn_provider conn) (cn_model conn) (cn_version conn) = Ret profile /\
    bounds_get qualified (profileTuple profile) = Some qp /\
    qp_upperBound qp = upperBound /\ profileId profile = identity.

Definition licensed_record (moves : list move) (r : InvocationRecord) : Prop :=
  licensed moves (inv_tenant r) (inv_pool r) (inv_upperBound r) (inv_profileIdentity r).

Lemma licensed_mono moves moves' tenant pool u identity :
  (forall m, m ∈ moves -> m ∈ moves') ->
  licensed moves tenant pool u identity -> licensed moves' tenant pool u identity.
Proof.
  intros Hsub (q & c & nc & ni & conn & att & ctx & prof & qp & Hin & H).
  exists q, c, nc, ni, conn, att, ctx, prof, qp. split; [by apply Hsub | done].
Qed.

Lemma licensed_same_terms moves r r' :
  same_terms r r' -> licensed_record moves r -> licensed_record moves r'.
Proof. unfold same_terms, licensed_record. intros ->. done. Qed.

(** No send is left in the program. *)
Fixpoint quiet (p : prog) : Prop :=
  match p with
  | PRet _ => True
  | PReserve _ k => forall r, quiet (k r)
  | PFence _ k => forall r, quiet (k r)
  | PRelease _ k => forall r, quiet (k r)
  | PSettle _ _ k => forall r, quiet (k r)
  | PSend _ _ => False
  | PReport _ k => quiet k
  | PDelete _ k => quiet k
  end.

Section licensed_sends.
Context (sha256 : jstr -> jstr) (provider : list event -> jstr -> thrown + GuardedSend).
Context (types : BudgetTypes) (parse : list N -> Z -> option jsval).
#[local] Instance ledger_store : LedgerStore SharedStore := shared_store sha256.

Lemma quiet_after_send a id where_ n r : quiet (after_send types parse a id where_ n r).
Proof.
  unfold after_send, after_settle, report. repeat case_match; cbn; try done;
    intros; repeat case_match; done.
Qed.

Lemma quiet_after_release a id where_ reason r : quiet (after_release types a id where_ reason r).
Proof. unfold after_release, report. repeat case_match; done. Qed.

(** How far a dispatch is, against the ledger. *)
Inductive stage (moves : list move) (s : LedgerState) : prog -> Prop :=
| stage_quiet p : quiet p -> stage moves s p
| stage_reserve context profile u id clock where_ n :
    licensed moves (ctx_tenant context) (ctx_pool context) u (profileId profile) ->
    stage moves s (PReserve (reserve_input context profile u id clock)
                     (after_reserve types parse id where_ n))
| stage_fence a id where_ n r :
    admission s id r -> licensed_record moves r ->
    stage moves s (PFence id (after_fence types parse a id where_ n))
| stage_send a id where_ n r :
    admission s id r -> dispatched r -> licensed_record moves r ->
    stage moves s (PSend id (after_send types parse a id where_ n)).

Lemma stage_steps moves s s' p :
  reachable sha256 s -> rtc (ledger_step sha256) s s' -> stage moves s p -> stage moves s' p.
Proof.
  intros Hr Hs Hst. destruct Hst as [p Hq|ctx prof u id clock wh n Hl|a id wh n r Ha Hl|a id wh n r Ha Hd Hl].
  - by constructor.
  - by constructor.
  - destruct (steps_same_terms sha256 s s' id r Hr Hs Ha) as (r' & Ha' & Ht & _).
    apply (stage_fence _ _ _ _ _ _ r'); [done | by eapply licensed_same_terms].
  - destruct (steps_dispatched sha256 s s' id r Hr Hs Ha Hd) as (r' & Ha' & Ht & Hd').
    apply (stage_send _ _ _ _ _ _ r'); [done | done | by eapply licensed_same_terms].
Qed.

Lemma stage_mono moves moves' s p :
  (forall m, m ∈ moves -> m ∈ moves') -> stage moves s p -> stage moves' s p.
Proof.
  intros Hsub Hst. destruct Hst as [p Hq|ctx prof u id clock wh n Hl|a id wh n r Ha Hl|a id wh n r Ha Hd Hl];
    econstructor; eauto; by eapply licensed_mono.
Qed.

Definition sent_ok (moves : list move) (s : LedgerState) (e : event) : Prop :=
  match e with
  | Sent id => exists r, admission s id r /\ dispatched r /\ licensed_record moves r
  | Reported _ => True
  end.

Record licensed_system (moves : list move) (s : system SharedStore) : Prop := {
  ls_ok : shared_ok (store s);
  ls_reach : reachable sha256 (sh_state (store s));
  ls_threads : Forall (stage moves (sh_state (store s))) (threads s);
  ls_events : Forall (sent_ok moves (sh_state (store s))) (events s)
}.

Lemma sent_ok_steps moves s s' e :
  reachable sha256 s -> rtc (ledger_step sha256) s s' -> sent_ok moves s e -> sent_ok moves s' e.
Proof.
  intros Hr Hs. destruct e as [id|rep]; [| done]. intros (r & Ha & Hd & Hl).
  destruct (steps_dispatched sha256 s s' id r Hr Hs Ha Hd) as (r' & Ha' & Ht & Hd').
  exists r'. split_and!; [done | done | by eapply licensed_same_terms].
Qed.

(** The arguments [reserve] reads back from the guard's input. *)
Lemma reserve_input_args now fc fi context profile u id clock a :
  reserve_args now fc fi (reserve_input context profile u id clock) = Ret a ->
  ra_tenant a = ctx_tenant context /\ ra_pool a = ctx_pool context /\
  ra_profile a = profile /\ ra_upperBound a = u /\ ra_id a = id.
Proof.
  unfold reserve_args, reserve_input. cbn [ri_tenant ri_pool ri_correlation ri_provider ri_model
    ri_version ri_upperBound ri_invocationId ri_nowMs is_undefined].
  intros H. apply res_bind_ret in H as (t & Ht & H). apply res_bind_ret in H as (p & Hp & H).
  apply res_bind_ret in H as (c & _ & H). apply res_bind_ret in H as (mp & Hm & H).
  apply res_bind_ret in H as (u' & Hu & H). apply res_bind_ret in H as (i & Hi & H).
  apply res_bind_ret in H as (z & _ & H). injection H as <-.
  apply checkIdentity_ret in Ht as [[= ->] _]. apply checkIdentity_ret in Hp as [[= ->] _].
  apply checkIdentity_ret in Hi as [[= ->] _]. cbn. split_and!; try done.
  - unfold meteringProfile in Hm. apply res_bind_ret in Hm as (x & Hx & Hm).
    apply res_bind_ret in Hm as (y & Hy & Hm). apply res_bind_ret in Hm as (v & Hv & Hm).
    injection Hm as <-. unfold identityValue in *. inv_res. by destruct profile.
  - unfold checkUpperBound in Hu. rewrite js_safe_integer_js_int in Hu.
    destruct (is_safe u); [| done]. inv_res. done.
Qed.

(** The thread that ran, the ledger it leaves, and the events it adds. *)
Definition advanced (moves : list move) (s : system SharedStore) (p' : prog)
    (s' : system SharedStore) : Prop :=
  threads s' = threads s /\ shared_ok (store s') /\
  rtc (ledger_step sha256) (sh_state (store s)) (sh_state (store s')) /\
  stage moves (sh_state (store s')) p' /\
  exists es, events s' = events s ++ es /\ Forall (sent_ok moves (sh_state (store s'))) es.

Lemma advanced_call {T} moves (s : system SharedStore) (call : SharedStore -> res T * SharedStore)
    (Q : T -> LedgerState -> Prop) (k : res T -> prog) r w' :
  shared_ok (store s) -> reachable sha256 (sh_state (store s)) ->
  call_spec sha256 call Q -> call (store s) = (r, w') ->
  ((forall v, r = Ret v -> Q v (sh_state w')) -> stage moves (sh_state w') (k r)) ->
  advanced moves s (k r) (mkSystem (threads s) (inflight s) (events s) w').
Proof.
  intros Hok Hreach Hcall Heq Hk. destruct (Hcall _ _ _ Hok Hreach Heq) as (Hok' & Hs & HQ).
  split; [done |]. split; [done |]. split; [done |]. split; [by apply Hk |].
  exists []. by rewrite app_nil_r.
Qed.

Lemma advance_stage moves (s : system SharedStore) p :
  shared_ok (store s) -> reachable sha256 (sh_state (store s)) ->
  stage moves (sh_state (store s)) p ->
  let '(p', s') := advance sha256 provider p s in advanced moves s p' s'.
Proof.
  intros Hok Hreach Hst.
  assert (forall q, stage moves (sh_state (store s)) q -> advanced moves s q s) as Hstay.
  { intros q Hq. split_and!; try done. exists []. by rewrite app_nil_r. }
  destruct Hst as [p Hq|ctx prof u id clock wh n Hl|a id wh n r Ha Hl|a id wh n r Ha Hd Hl].
  - destruct p as [r|input k|i k|i k|i u k|i k|rep k|i k]; cbn [advance].
    + by apply Hstay, stage_quiet.
    + destruct (reserve sha256 0 [] [] input (store s)) as [r w'] eqn:Hr.
      destruct (reserve_args 0 [] [] input) as [a|msg] eqn:Ha.
      * eapply advanced_call; [done | done | by eapply reserve_call | exact Hr |].
        intros _. apply stage_quiet, Hq.
      * unfold reserve, checked in Hr. rewrite Ha in Hr. injection Hr as <- <-.
        split_and!; try done; [apply stage_quiet, Hq |]. exists []. by rewrite app_nil_r.
    + destruct (fence (JStr i) (store s)) as [r w'] eqn:Hr.
      eapply advanced_call; [done | done | apply fence_call | exact Hr |].
      intros _. apply stage_quiet, Hq.
    + destruct (releaseUndispatched (JStr i) (store s)) as [r w'] eqn:Hr.
      eapply advanced_call; [done | done | apply release_call | exact Hr |].
      intros _. apply stage_quiet, Hq.
    + destruct (settle sha256 (JStr i) _ _ (store s)) as [r w'] eqn:Hr.
      eapply advanced_call; [done | done | apply settle_call | exact Hr |].
      intros _. apply stage_quiet, Hq.
    + by destruct Hq.
    + split_and!; try done; [by apply stage_quiet |]. exists [Reported rep]. split; [done |].
      by repeat constructor.
    + split_and!; try done; [by apply stage_quiet |]. exists []. by rewrite app_nil_r.
  - cbn [advance]. destruct (reserve sha256 0 [] [] _ (store s)) as [r w'] eqn:Hr.
    destruct (reserve_args 0 [] [] (reserve_input ctx prof u id clock)) as [args|msg] eqn:Ha.
    + destruct (reserve_input_args _ _ _ _ _ _ _ _ _ Ha) as (H1 & H2 & H3 & H4 & H5).
      eapply advanced_call; [done | done | by eapply reserve_call | exact Hr |].
      intros HQ. unfold after_reserve.
      destruct r as [[record rem reset dup|pool req rem reset|reason corr rid]|msg];
        try by apply stage_quiet.
      destruct (HQ _ eq_refl) as (G1 & G2 & G3 & G4 & G5).
      apply (stage_fence _ _ _ _ _ _ record); [by rewrite H5 in G1 |].
      unfold licensed_record. by rewrite G2, G3, G4, G5, H1, H2, H3, H4.
    + unfold reserve, checked in Hr. rewrite Ha in Hr. injection Hr as <- <-.
      split_and!; try done; [by apply stage_quiet |]. exists []. by rewrite app_nil_r.
  - cbn [advance]. destruct (fence (JStr id) (store s)) as [f w'] eqn:Hr.
    destruct (fence_call sha256 id _ _ _ Hok Hreach Hr) as (_ & Hsteps & _).
    destruct (steps_same_terms sha256 _ _ id r Hreach Hsteps Ha) as (r' & Ha' & Ht & _).
    eapply advanced_call; [done | done | apply fence_call | exact Hr |].
    intros HQ. unfold after_fence.
    destruct f as [[[fr|] dup|reason]|msg]; cbn.
    + destruct (HQ _ eq_refl) as [G1 G2]. unfold admission in *. rewrite Ha' in G1. injection G1 as <-.
      apply (stage_send _ _ _ _ _ _ r'); [done | by left | by eapply licensed_same_terms].
    + specialize (HQ _ eq_refl). cbn in HQ. unfold admission in *. rewrite Ha' in HQ. done.
    + destruct reason; apply stage_quiet; cbn; try done; intros; apply quiet_after_release.
    + by apply stage_quiet.
  - cbn [advance]. split_and!; try done; [apply stage_quiet, quiet_after_send |].
    exists [Sent id]. split; [done |]. repeat constructor. by exists r.
Qed.

Lemma licensed_step moves m s :
  licensed_system moves s ->
  licensed_system (moves ++ [m]) (step sha256 provider types parse m s).
Proof.
  intros [Hok Hreach Hth Hev].
  assert (forall x, x ∈ moves -> x ∈ moves ++ [m]) as Hsub by (intros; apply elem_of_app; by left).
  assert (forall e, sent_ok moves (sh_state (store s)) e ->
            sent_ok (moves ++ [m]) (sh_state (store s)) e) as Hsent.
  { intros [id|rep]; [| done]. intros (r & H1 & H2 & H3). exists r. split_and!; try done.
    by eapply licensed_mono. }
  assert (Forall (stage (moves ++ [m]) (sh_state (store s))) (threads s)) as Hth'
    by (eapply Forall_impl; [exact Hth | intros p; by apply stage_mono]).
  assert (Forall (sent_ok (moves ++ [m]) (sh_state (store s))) (events s)) as Hev'
    by (eapply Forall_impl; [exact Hev | done]).
  destruct m as [q clock nc ni conn att|i]; cbn [step].
  - destruct (dispatch types parse q clock nc ni conn att (inflight s)) as [p fly] eqn:Hd.
    split; cbn; try done. apply Forall_app. split; [done |]. apply Forall_singleton.
    apply dispatch_cases in Hd as [(r & -> & _)|(ctx & prof & qp & id & n & H1 & H2 & H3 & H4 & _ & _ & ->)].
    + by apply stage_quiet.
    + apply stage_reserve. exists q, clock, nc, ni, conn, att, ctx, prof, qp.
      split_and!; try done. apply elem_of_app. right. by apply list_elem_of_singleton.
  - destruct (threads s !! i) as [p|] eqn:Hi; [| by split].
    pose proof (advance_stage (moves ++ [Run i]) s p Hok Hreach
      (proj1 (Forall_lookup _ _) Hth' i p Hi)) as Ha.
    destruct (advance sha256 provider p s) as [p' s'].
    destruct Ha as (Ht & Hok' & Hs & Hst & es & He & Hes).
    split; cbn; [done | by eapply reachable_steps | |].
    + rewrite Ht. apply Forall_insert; [| done].
      eapply Forall_impl; [exact Hth' |]. intros. by eapply stage_steps.
    + rewrite He. apply Forall_app. split; [| done].
      eapply Forall_impl; [exact Hev' |]. intros. by eapply sent_ok_steps.
Qed.

Lemma licensed_run moves w :
  shared_ok w -> reachable sha256 (sh_state w) ->
  licensed_system moves (schedule_run sha256 provider types parse moves (idle w)).
Proof.
  intros Hok Hr. induction moves as [|m moves IH] using rev_ind; [by split; cbn |].
  unfold schedule_run. rewrite fold_left_app. by apply licensed_step.
Qed.
End licensed_sends.

(** C7. No send without budget: in every interleaving of dispatches, other clients
    and rejected store calls, each invocation the provider was ever asked for has a
    fenced (and since then perhaps settled) reservation in the ledger, of the bound
    under which its profile is qualified, for the tenant of its scope and the pool
    its connection permits; and so has one that is about to be sent. *)
Theorem send_only_fenced sha256 provider types parse moves w :
  shared_ok w -> reachable sha256 (sh_state w) ->
  let s := @schedule_run _ (shared_store sha256) sha256 provider types parse moves (idle w) in
  (forall id, Sent id ∈ events s ->
     exists r, admission (sh_state (store s)) id r /\ dispatched r /\ licensed_record moves r) /\
  (forall i id k, threads s !! i = Some (PSend id k) ->
     exists r, admission (sh_state (store s)) id r /\ dispatched r /\ licensed_record moves r).
Proof.
  intros Hok Hr s.
  destruct (licensed_run sha256 provider types parse moves w Hok Hr) as [_ _ Hth Hev]. split.
  - intros id Hid. rewrite Forall_forall in Hev. exact (Hev (Sent id) Hid).
  - intros i id k Hi. pose proof (proj1 (Forall_lookup _ _) Hth i _ Hi) as Hst.
    inversion Hst as [p Hq| | |a id' wh n r Ha Hd Hl]; subst; [by destruct Hq | by exists r].
Qed.

(** ** A concrete guard *)
Module Guarded.
Definition profile : MeteringProfile := Sample.profile.
Definition qualified : registry := [(profileTuple profile, mkQualified profile 60)].
Definition connection : GuardedConnectionConfig :=
  mkConnection (JStr Sample.chat) (JStr (js "p")) (JStr (js "m")) (JStr (js "1")).
Definition context : jsval :=
  JObject [(js "tenant", JStr Sample.acme); (js "pool", JStr Sample.chat);
           (js "correlation", JStr (js "c1"))].
Definition attempt : GuardedAttempt :=
  mkAttempt context "main.can" "ask" (js_int 1000) (JStr (js "i1")).
Definition types : BudgetTypes := mkBudgetTypes (js "exceeded") (js "unavailable").
(** A provider body of [n] bytes reports [n] input tokens and ten output tokens. *)
Definition parse (body : list N) (cap : Z) : option jsval :=
  Some (JObject [(js "usage",
    JObject [(js "input_tokens", js_int (Z.of_nat (length body)));
             (js "output_tokens", js_int 10)])]).
Definition answers (es : list event) (id : jstr) : thrown + GuardedSend :=
  inr (mkSend (Some (ok (JStr (js "answer")))) (Some [1; 2; 3]%N)).
Definition times_out (es : list event) (id : jstr) : thrown + GuardedSend :=
  inl (ThrownNative "timeout").
Definition start : move := Start qualified (js_int 1500) (js "c2") (js "i2") connection attempt.
Definition quiet_event : StoreEvent := {| ev_others := []; ev_fault := NoFault |}.
Definition world : SharedStore :=
  {| sh_state := Sample.run [OpConfigure Sample.schedule]; sh_script := replicate 6 quiet_event |}.
Definition one_dispatch : list move := start :: replicate 6 (Run 0).

Lemma guarded_world_ok : shared_ok world.
Proof.
  split; [apply Forall_nil; exact I | vm_compute; discriminate |].
  assert (version (sh_state world) = 1) as -> by (vm_compute; reflexivity).
  simpl. unfold MAX_SAFE. lia.
Qed.
End Guarded.

Definition is_sent (id : jstr) (e : event) : bool :=
  match e with Sent i => bool_decide (i = id) | Reported _ => false end.

Lemma is_sent_in id es : existsb (is_sent id) es = true -> Sent id ∈ es.
Proof.
  intros (e & Hin & He)%existsb_exists. destruct e as [i|]; [| done].
  apply bool_decide_eq_true in He as ->. by apply list_elem_of_In.
Qed.

Lemma send_only_fenced_witness :
  exists r,
    admission (sh_state (store (@schedule_run _ (shared_store Sample.digest) Sample.digest
      Guarded.answers Guarded.types Guarded.parse Guarded.one_dispatch (idle Guarded.world))))
      (js "i1") r
    /\ dispatched r /\ licensed_record Guarded.one_dispatch r.
Proof.
  apply (proj1 (send_only_fenced Sample.digest Guarded.answers Guarded.types Guarded.parse
    Guarded.one_dispatch Guarded.world Guarded.guarded_world_ok Sample.configured_reachable)).
  apply is_sent_in. vm_cast_no_check (@eq_refl bool true).
Defined.

(** The dispatch of the witness settles: the hold of 60 is lifted and the 13
    tokens the provider reported are committed. *)
Example guarded_dispatch_settles :
  row_committed <$> epochs (store (schedule_run Sample.digest Guarded.answers Guarded.types
    Guarded.parse (Guarded.start :: replicate 8 (Run 0))
    (idle (Sample.run [OpConfigure Sample.schedule])))) !! Sample.key = Some 13.
Proof. vm_cast_no_check (@eq_refl (option Z) (Some 13)). Qed.

(** A fenced attempt can be sent again: two dispatches one after the other that
    use one invocation id, over the memory store, when the first provider call is
    uncertain.  The first ends with its hold unresolved; the second is admitted as
    a duplicate, finds the fence already set, and sends a second time; the ledger
    still holds the bound of one call. *)
Theorem fenced_attempt_resent :
  let first := Guarded.start :: replicate 6 (Run 0) in
  let second := Guarded.start :: replicate 6 (Run 1) in
  let run moves := schedule_run Sample.digest Guarded.times_out Guarded.types Guarded.parse moves
                     (idle (Sample.run [OpConfigure Sample.schedule])) in
  inflight (run first) = ∅ /\
  length (filter (fun e => is_sent (js "i1") e = true) (events (run first))) = 1%nat /\
  length (filter (fun e => is_sent (js "i1") e = true) (events (run (first ++ second)))) = 2%nat /\
  row_held <$> epochs (store (run (first ++ second))) !! Sample.key = Some 60.
Proof.
  intros first second run. split_and!.
  - vm_cast_no_check (@eq_refl (gset jstr) ∅).
  - vm_cast_no_check (@eq_refl nat 1%nat).
  - vm_cast_no_check (@eq_refl nat 2%nat).
  - vm_cast_no_check (@eq_refl (option Z) (Some 60)).
Qed.
