(* ===== verification/Numbers.v ===== *)
(** * Integer and number operations

    [primitive.ts] (division, power, index and slice of native sequences) and
    [number.ts] (conversions between numbers and text, exact amounts). *)
From stdpp Require Import base list strings.
From Stdlib Require Import ZArith Lia SpecFloat.
From S2P Require Import Prelude JsNumber JsString JsValue Completion.

(** ** [primitive.ts] *)

(** The error object registered in [faults]: a kind and a message. *)
Definition fail {A} (kind : StandardKind) (message : string) : run A :=
  Thrown (mkStandard kind message "").

Definition intDivide (left right : Z) : run Z :=
  if right =? 0 then fail arithmetic "arithmetic: integer division by zero"
  else Done (Z.quot left right).

Definition intRemainder (left right : Z) : run Z :=
  if right =? 0 then fail arithmetic "arithmetic: integer remainder by zero"
  else Done (Z.rem left right).

Definition intPower (left right : Z) : run Z :=
  if right <? 0 then fail arithmetic "arithmetic: negative integer exponent"
  else Done (left ^ right).

(** On an array or on the code units of a string. *)
Definition index {A} (value : list A) (position : Z) : run A :=
  if (position <? 0) || (Z.of_nat (length value) <=? position)
  then fail bounds "bounds: index out of range"
  else match value !! Z.to_nat position with
       | Some a => Done a
       | None => fail bounds ""
       end.

Definition sliceBound (value length : Z) : Z :=
  let relative := if value <? 0 then length + value else value in
  if relative <? 0 then 0 else if length <? relative then length else relative.

(** [value.slice(from, to)] for bounds inside the sequence. *)
Definition native_slice {A} (value : list A) (from to : Z) : list A :=
  take (Z.to_nat (to - from)) (drop (Z.to_nat from) value).

Definition slice {A} (value : list A) (start end_ : option Z) : list A :=
  let length := Z.of_nat (length value) in
  let from := match start with None => 0 | Some s => sliceBound s length end in
  let to := match end_ with None => length | Some e => sliceBound e length end in
  native_slice value from to.

(** ** [number.ts]: conversions *)

Record NumberErrors : Type := mkNumberErrors {
  inexact : jstr;
  invalidNumber : jstr;
  invalidTextBool : jstr;
  invalidIntBool : jstr
}.

Definition all_digits (s : jstr) : bool := forallb is_digit s.

(** [-?] *)
Definition strip_minus (s : jstr) : bool * jstr :=
  match s with
  | 45%N :: rest => (true, rest)
  | _ => (false, s)
  end.

(** [0|[1-9][0-9]*] *)
Definition integer_digits (s : jstr) : bool :=
  match s with
  | [48%N] => true
  | c :: rest => is_digit c && negb (c =? 48)%N && all_digits rest
  | [] => false
  end.

Definition integerText (s : jstr) : bool := integer_digits (strip_minus s).2.

(** The longest prefix of digits and what follows. *)
Fixpoint span_digits (s : jstr) : jstr * jstr :=
  match s with
  | c :: rest => if is_digit c then let '(d, r) := span_digits rest in (c :: d, r) else ([], s)
  | [] => ([], [])
  end.

(** [[eE][+-]?[0-9]+] up to the end, with the exponent's value. *)
Definition exponent_part (s : jstr) : option Z :=
  match s with
  | c :: rest =>
      if (c =? 101)%N || (c =? 69)%N then
        let '(negative, digits) :=
          match rest with
          | 45%N :: d => (true, d)
          | 43%N :: d => (false, d)
          | _ => (false, rest)
          end in
        if negb (bool_decide (digits = [])) && all_digits digits
        then Some (if negative : bool then - Z.of_N (dec_value digits) else Z.of_N (dec_value digits))
        else None
      else None
  | [] => None
  end.

(** What a token of the float grammar denotes: [(-1)^negative * mantissa * 10^exponent]. *)
Record decimal : Type := mkDecimal { d_negative : bool; d_mantissa : N; d_exponent : Z }.

(** [floatText], with the decimal it matched: [0|[1-9][0-9]*], or
    [[0-9]+\.[0-9]+] with an optional exponent, or [[0-9]+] with an exponent. *)
Definition floatText (s : jstr) : option decimal :=
  let '(negative, body) := strip_minus s in
  let '(whole, rest) := span_digits body in
  match rest with
  | [] => if integer_digits body then Some (mkDecimal negative (dec_value body) 0) else None
  | 46%N :: after =>
      let '(fraction, tail) := span_digits after in
      if negb (bool_decide (whole = [])) && negb (bool_decide (fraction = [])) then
        let m := dec_value (whole ++ fraction) in
        let shift := Z.of_nat (length fraction) in
        match tail with
        | [] => Some (mkDecimal negative m (- shift))
        | _ => (fun e => mkDecimal negative m (e - shift)) <$> exponent_part tail
        end
      else None
  | _ =>
      if negb (bool_decide (whole = []))
      then (fun e => mkDecimal negative (dec_value whole) e) <$> exponent_part rest
      else None
  end.

(** [Number(text)] on such a token: the decimal rounded to binary64. *)
Definition number_of_decimal (d : decimal) : num :=
  match d_mantissa d with
  | 0%N => S754_zero (d_negative d)
  | Npos m =>
      if 0 <=? d_exponent d then
        binary_round 53 1024 (d_negative d) (m * Z.to_pos (10 ^ d_exponent d)) 0
      else
        let '(q, e, l) := SFdiv_core_binary 53 1024 (Zpos m) 0 (10 ^ (- d_exponent d)) 0 in
        binary_round_aux 53 1024 (d_negative d) q e l
  end.

(** [BigInt(text)] on a token of [integerText]. *)
Definition bigint_of_text (s : jstr) : Z :=
  let '(negative, digits) := strip_minus s in
  if negative : bool then - Z.of_N (dec_value digits) else Z.of_N (dec_value digits).

Definition isFinite (x : num) : bool :=
  match x with S754_zero _ | S754_finite _ _ _ => true | _ => false end.

Definition isNaN (x : num) : bool :=
  match x with S754_nan => true | _ => false end.

(** [Number(value)] of a bigint. *)
Definition number_of_bigint (value : Z) : num := binary_normalize 53 1024 value 0 false.

Section numbers.
Context (errors : NumberErrors).

Definition invalid {A} (identity : jstr) (name : string) (value : jsval) : Completion A :=
  domain (mkDomain identity [(name, value)] "can:number").

Definition fromInt (value : Z) : Completion jstr := ok (dec_of_Z value).

Definition fromBool (value : bool) : Completion jstr :=
  ok (if value then js "true" else js "false").

Definition intToFloat (value : Z) : Completion num :=
  let converted := number_of_bigint value in
  if negb (isFinite converted) || negb (bool_decide (num_to_Z converted = Some value))
  then invalid (inexact errors) "reason" (JStr (js "not exactly representable as float"))
  else ok converted.

Definition floatToInt (value : num) : Completion Z :=
  match num_to_Z value with
  | Some z => ok z
  | None => invalid (inexact errors) "reason" (JStr (js "not a finite integer"))
  end.

Definition boolToInt (value : bool) : Completion Z := ok (if value then 1 else 0).

Definition intToBool (value : Z) : Completion bool :=
  if negb (value =? 0) && negb (value =? 1)
  then invalid (invalidIntBool errors) "value" (JBigInt value)
  else ok (value =? 1).

Definition toInt (value : jstr) : Completion Z :=
  if negb (integerText value) then invalid (invalidNumber errors) "input" (JStr value)
  else ok (bigint_of_text value).

Definition toFloat (value : jstr) : Completion num :=
  match floatText value with
  | None => invalid (invalidNumber errors) "input" (JStr value)
  | Some d =>
      let converted := number_of_decimal d in
      if negb (isFinite converted) then invalid (invalidNumber errors) "input" (JStr value)
      else ok converted
  end.

Definition toBool (value : jstr) : Completion bool :=
  if negb (bool_decide (value = js "true")) && negb (bool_decide (value = js "false"))
  then invalid (invalidTextBool errors) "input" (JStr value)
  else ok (bool_decide (value = js "true")).
End numbers.

(** ** [number.ts]: exact amounts *)

Record Division : Type := mkDivision { quotient : Z; remainder : Z }.
Record Rounded : Type := mkRounded { r_value : Z; remainder_numerator : Z; r_denominator : Z }.

Section exact.
Context (zeroDivisor : jstr).

Definition zero {A} : Completion A := domain (mkDomain zeroDivisor [] "can:number").

Definition divmod (numerator denominator : Z) : Completion Division :=
  if denominator =? 0 then zero
  else ok (mkDivision (Z.quot numerator denominator) (Z.rem numerator denominator)).

Definition euclideanDivmod (numerator denominator : Z) : Completion Division :=
  if denominator =? 0 then zero
  else
    let quotient := Z.quot numerator denominator in
    let remainder := Z.rem numerator denominator in
    if remainder <? 0 then
      ok (mkDivision
            (quotient + (if denominator <? 0 then 1 else -1))
            (remainder + (if denominator <? 0 then - denominator else denominator)))
    else ok (mkDivision quotient remainder).

Definition roundRatioHalfEven (numerator denominator : Z) : Completion Rounded :=
  if denominator =? 0 then zero
  else
    let n := if denominator <? 0 then - numerator else numerator in
    let d := if denominator <? 0 then - denominator else denominator in
    let quotient := Z.quot n d in
    let remainder := Z.rem n d in
    let twice := 2 * (if remainder <? 0 then - remainder else remainder) in
    let quotient :=
      if (d <? twice) || ((twice =? d) && negb (Z.rem quotient 2 =? 0))
      then quotient + (if n <? 0 then -1 else 1)
      else quotient in
    ok (mkRounded quotient (n - quotient * d) d).
End exact.

Example toFloat_tenth :
  toFloat (mkNumberErrors [] [] [] []) (js "-0.1")
  = ok (S754_finite true 7205759403792794 (-56)).
Proof. reflexivity. Qed.
Example toFloat_exp :
  toFloat (mkNumberErrors [] [] [] []) (js "00e2") = ok (S754_zero false).
Proof. reflexivity. Qed.
Example toFloat_leading_zero :
  is_ok (toFloat (mkNumberErrors [] [] [] []) (js "01")) = false.
Proof. reflexivity. Qed.
Example toFloat_overflow : is_ok (toFloat (mkNumberErrors [] [] [] []) (js "1e309")) = false.
Proof. vm_compute. reflexivity. Qed.
Example intToFloat_odd : is_ok (intToFloat (mkNumberErrors [] [] [] []) (2 ^ 53 + 1)) = false.
Proof. reflexivity. Qed.
Example slice_negative : slice [1; 2; 3; 4] (Some (-3)) (Some (-1)) = [2; 3].
Proof. reflexivity. Qed.

(** ** Truncated division in terms of absolute values *)

Lemma quot_rem_facts n d :
  d <> 0 -> n = d * Z.quot n d + Z.rem n d /\ Z.abs (Z.rem n d) < Z.abs d
            /\ 0 <= Z.rem n d * n.
Proof.
  intros Hd. pose proof (Z.quot_rem n d Hd). pose proof (Z.rem_bound_abs n d Hd).
  pose proof (Z.rem_sign_mul n d Hd). nia.
Qed.

Lemma rem_two_even q : (Z.rem q 2 =? 0) = Z.even q.
Proof.
  destruct (Z.even q) eqn:He.
  - apply Z.even_spec in He as [k ->]. rewrite Z.mul_comm, Z.rem_mul by lia. done.
  - apply Z.eqb_neq. intros H0. rewrite <- Z.negb_odd in He. apply negb_false_iff in He.
    apply Z.odd_spec in He as [k Hk]. apply Z.rem_divide in H0; [destruct H0 as [m Hm] | done]. lia.
Qed.

Lemma even_step q : Z.even (q + 1) = negb (Z.even q) /\ Z.even (q + -1) = negb (Z.even q).
Proof. rewrite !Z.even_add. simpl. destruct (Z.even q); done. Qed.

(** ** Digits *)

Lemma dec_digits_all_digits fuel n acc :
  all_digits acc = true -> all_digits (dec_digits fuel n acc) = true.
Proof.
  revert n acc. induction fuel as [|fuel IH]; intros n acc Hacc; [done |].
  assert (all_digits ((48 + n mod 10)%N :: acc) = true) as Hacc'.
  { unfold all_digits in *. cbn [forallb]. rewrite Hacc, andb_true_r. unfold is_digit.
    pose proof (N.mod_lt n 10 ltac:(lia)). set (m := (n mod 10)%N) in *.
    apply andb_true_iff; split; [apply N.leb_le; clear; lia | apply N.leb_le; lia]. }
  cbn [dec_digits]. destruct (n <? 10)%N; [done | by apply IH].
Qed.

(** The first digit is not zero unless the number is. *)
Lemma dec_digits_head fuel n acc :
  n <> 0%N -> (n < 10 ^ N.of_nat fuel)%N ->
  exists c rest, dec_digits (S fuel) n acc = c :: rest /\ c <> 48%N.
Proof.
  revert n acc. induction fuel as [|fuel IH]; intros n acc Hn Hlt.
  - change (10 ^ N.of_nat 0)%N with 1%N in Hlt. lia.
  - rewrite Nat2N.inj_succ, N.pow_succ_r' in Hlt. cbn [dec_digits].
    destruct (N.ltb_spec n 10) as [Hs|Hs].
    + eexists _, _. split; [done |]. rewrite N.mod_small by done. lia.
    + change (if (n / 10 <? 10)%N then _ else _)
        with (dec_digits (S fuel) (n / 10)%N ((48 + n mod 10)%N :: acc)).
      apply IH; [| by apply N.Div0.div_lt_upper_bound; lia].
      intros H0. apply N.div_small_iff in H0; lia.
Qed.

Lemma dec_of_N_digits n : integer_digits (dec_of_N n) = true.
Proof.
  destruct (decide (n = 0%N)) as [->|Hn]; [done |].
  pose proof (dec_digits_all_digits (S (N.to_nat (N.size n))) n [] eq_refl) as Hall.
  destruct (dec_digits_head (N.to_nat (N.size n)) n []) as (c & rest & Heq & Hc); [done | |].
  { rewrite N2Nat.id. apply N.lt_le_trans with (2 ^ N.size n)%N; [apply N.size_gt |].
    apply N.pow_le_mono_l. lia. }
  unfold dec_of_N. rewrite Heq in *. unfold all_digits in *. cbn [forallb] in Hall.
  apply andb_true_iff in Hall as [Hd Hrest].
  assert (is_digit c && negb (c =? 48)%N && all_digits rest = true) as Hgoal.
  { rewrite Hd. unfold all_digits. rewrite Hrest, andb_true_r. apply negb_true_iff. by apply N.eqb_neq. }
  unfold integer_digits. repeat case_goal; subst; done.
Qed.

Lemma integer_digits_not_minus s : integer_digits s = true -> strip_minus s = (false, s).
Proof.
  destruct s as [|c rest]; [done |]. intros H. unfold strip_minus.
  repeat case_goal; subst; try done.
Qed.

Lemma bigint_of_text_dec z : bigint_of_text (dec_of_Z z) = z.
Proof.
  unfold bigint_of_text, dec_of_Z. destruct (Z.ltb_spec z 0).
  - cbn [strip_minus]. rewrite dec_value_dec_of_N. lia.
  - rewrite integer_digits_not_minus by apply dec_of_N_digits.
    rewrite dec_value_dec_of_N. lia.
Qed.

Lemma integerText_dec z : integerText (dec_of_Z z) = true.
Proof.
  unfold integerText, dec_of_Z. destruct (z <? 0).
  - cbn [strip_minus snd]. apply dec_of_N_digits.
  - rewrite integer_digits_not_minus by apply dec_of_N_digits. apply dec_of_N_digits.
Qed.

Lemma dec_value_snoc p c : dec_value (p ++ [c]) = (dec_value p * 10 + (c - 48))%N.
Proof. unfold dec_value. by rewrite fold_left_app. Qed.

Lemma is_digit_spec c : is_digit c = true <-> (48 <= c <= 57)%N.
Proof. unfold is_digit. rewrite andb_true_iff, !N.leb_le. done. Qed.

(** Digits without a leading zero are the rendering of their value. *)
Lemma dec_digits_of_value s :
  forall fuel acc, head s <> Some 48%N -> s <> [] -> all_digits s = true ->
  (dec_value s < 10 ^ N.of_nat fuel)%N ->
  (0 < dec_value s)%N /\ dec_digits (S fuel) (dec_value s) acc = s ++ acc.
Proof.
  induction s as [|c p IH] using rev_ind; intros fuel acc Hhead Hne Hall Hlt; [done |].
  unfold all_digits in Hall. rewrite forallb_app in Hall. simpl in Hall.
  apply andb_true_iff in Hall as [Hp Hc]. rewrite andb_true_r in Hc.
  apply is_digit_spec in Hc. rewrite dec_value_snoc in *.
  destruct p as [|b p].
  - assert (c <> 48)%N by (simpl in Hhead; congruence).
    change (dec_value []) with 0%N in *. rewrite N.mul_0_l, N.add_0_l in *.
    split; [lia |]. cbn [dec_digits]. destruct (N.ltb_spec (c - 48) 10); [| lia].
    rewrite N.mod_small by done. cbn [app]. f_equal. lia.
  - destruct fuel as [|fuel]; [change (10 ^ N.of_nat 0)%N with 1%N in Hlt |].
    { destruct (IH 0%nat acc Hhead ltac:(done) Hp) as [Hpos _]; [| lia].
      change (10 ^ N.of_nat 0)%N with 1%N. lia. }
    rewrite Nat2N.inj_succ, N.pow_succ_r' in Hlt.
    destruct (IH fuel (c :: acc) Hhead ltac:(done) Hp) as [Hpos Heq]; [lia |].
    split; [lia |].
    set (v := dec_value (b :: p)) in *.
    assert ((v * 10 + (c - 48)) / 10 = v)%N as Hdiv.
    { symmetry. apply (N.div_unique _ _ _ (c - 48)); lia. }
    assert ((v * 10 + (c - 48)) mod 10 = c - 48)%N as Hmod.
    { symmetry. apply (N.mod_unique _ _ v); lia. }
    cbn [dec_digits]. destruct (N.ltb_spec (v * 10 + (c - 48)) 10); [lia |].
    change (if (_ / 10 <? 10)%N then _ else _) with
      (dec_digits (S fuel) ((v * 10 + (c - 48)) / 10)
         ((48 + (v * 10 + (c - 48)) mod 10)%N :: acc)).
    rewrite Hdiv, Hmod. replace (48 + (c - 48))%N with c by lia.
    rewrite Heq, <- app_assoc. done.
Qed.

Lemma integer_digits_cases s :
  integer_digits s = true ->
  s = [48%N] \/ (head s <> Some 48%N /\ s <> [] /\ all_digits s = true).
Proof.
  unfold integer_digits. intros H.
  destruct s as [|c rest]; [done |]. destruct (decide (c = 48%N)) as [->|Hc].
  - destruct rest; [by left | done].
  - right. assert (is_digit c && negb (c =? 48)%N && all_digits rest = true) as H'
      by (repeat case_hyp H; subst; done).
    split_bools. unfold all_digits in *. simpl. split_and!; [congruence | done |].
    apply andb_true_iff. done.
Qed.

Lemma dec_of_N_of_value s : integer_digits s = true -> dec_of_N (dec_value s) = s.
Proof.
  intros [->|(Hh & Hne & Hall)]%integer_digits_cases; [done |].
  unfold dec_of_N. destruct (dec_digits_of_value s (N.to_nat (N.size (dec_value s))) [] Hh Hne Hall)
    as [_ Heq]; [| by rewrite Heq, app_nil_r].
  rewrite N2Nat.id. apply N.lt_le_trans with (2 ^ N.size (dec_value s))%N; [apply N.size_gt |].
  apply N.pow_le_mono_l. lia.
Qed.

Lemma strip_minus_spec s :
  strip_minus s = (false, s) \/ exists rest, s = 45%N :: rest /\ strip_minus s = (true, rest).
Proof.
  unfold strip_minus. repeat case_goal; subst; eauto.
Qed.

(** What the accepted texts are: the rendering of their value, or [-0]. *)
Lemma integerText_canonical s :
  integerText s = true -> s = dec_of_Z (bigint_of_text s) \/ s = js "-0".
Proof.
  unfold integerText, bigint_of_text.
  destruct (strip_minus_spec s) as [Hs|(rest & -> & Hs)]; rewrite Hs; cbn [snd]; intros Hd.
  - left. unfold dec_of_Z. destruct (Z.ltb_spec (Z.of_N (dec_value s)) 0); [lia |].
    rewrite N2Z.id. by rewrite dec_of_N_of_value.
  - destruct (integer_digits_cases rest Hd) as [->|(Hh & Hne & Hall)]; [by right | left].
    destruct (dec_digits_of_value rest (N.to_nat (N.size (dec_value rest))) [] Hh Hne Hall)
      as [Hpos _].
    { rewrite N2Nat.id. apply N.lt_le_trans with (2 ^ N.size (dec_value rest))%N;
        [apply N.size_gt | apply N.pow_le_mono_l; lia]. }
    unfold dec_of_Z. destruct (Z.ltb_spec (- Z.of_N (dec_value rest)) 0); [| lia].
    rewrite Z.opp_involutive, N2Z.id. by rewrite dec_of_N_of_value.
Qed.

(** [roundRatioHalfEven] answers the nearest integer to the ratio, the even
    one of two equally near, with the exact residue and a positive denominator;
    [divmod] and [euclideanDivmod] answer an exact quotient and remainder, the
    remainder of the second in [0, |d|).  All three refuse a zero denominator
    with the domain failure and nothing else. *)
Theorem exact_amounts (z : jstr) (n d : Z) :
  match divmod z n d with
  | ok r => d <> 0 /\ n = d * quotient r + remainder r /\ Z.abs (remainder r) < Z.abs d
            /\ 0 <= remainder r * n
  | domain f => d = 0 /\ df_type f = z
  | standard _ => False
  end /\
  match euclideanDivmod z n d with
  | ok r => d <> 0 /\ n = d * quotient r + remainder r /\ 0 <= remainder r < Z.abs d
  | domain f => d = 0 /\ df_type f = z
  | standard _ => False
  end /\
  match roundRatioHalfEven z n d with
  | ok r =>
      d <> 0 /\ r_denominator r = Z.abs d /\
      Z.sgn d * n = r_value r * r_denominator r + remainder_numerator r /\
      2 * Z.abs (remainder_numerator r) <= r_denominator r /\
      (2 * Z.abs (remainder_numerator r) = r_denominator r -> Z.even (r_value r) = true)
  | domain f => d = 0 /\ df_type f = z
  | standard _ => False
  end.
Proof.
  split_and!.
  - unfold divmod. destruct (Z.eqb_spec d 0); [done |]. cbn.
    pose proof (quot_rem_facts n d). tauto.
  - unfold euclideanDivmod. destruct (Z.eqb_spec d 0) as [|Hd]; [done |].
    pose proof (quot_rem_facts n d Hd) as (Heq & Hab & Hs).
    destruct (Z.ltb_spec (Z.rem n d) 0), (Z.ltb_spec d 0); cbn; repeat split; try done; nia.
  - unfold roundRatioHalfEven. destruct (Z.eqb_spec d 0) as [|Hd]; [done |].
    set (n' := if d <? 0 then - n else n). set (d' := if d <? 0 then - d else d).
    assert (0 < d' /\ d' = Z.abs d /\ n' = Z.sgn d * n) as (Hd' & Habs & Hn').
    { subst n' d'. destruct (Z.ltb_spec d 0); rewrite ?Z.sgn_neg, ?Z.sgn_pos by lia; lia. }
    rewrite <- Habs, <- Hn'. clearbody n' d'. clear Habs Hn'.
    pose proof (quot_rem_facts n' d' ltac:(lia)) as (Heq & Hab & Hs).
    rewrite rem_two_even. destruct (even_step (Z.quot n' d')) as [He1 He2].
    set (q := Z.quot n' d') in *. set (r := Z.rem n' d') in *. clearbody q r.
    replace (if r <? 0 then - r else r) with (Z.abs r) by (destruct (Z.ltb_spec r 0); lia).
    assert (forall k, n' - (q + k) * d' = r - k * d') as Hk by (intros; lia).
    assert (n' - q * d' = r) as Hk0 by lia.
    assert (0 <= n' -> 0 <= r) as Hr1.
    { intros Hn. destruct (Z.le_gt_cases 0 r) as [|Hr]; [done | exfalso].
      assert (n' = 0) by nia. assert (q = 0 \/ q < 0 \/ 0 < q) as [->|[|]] by lia; nia. }
    assert (n' < 0 -> r <= 0) as Hr2 by nia.
    destruct (Z.ltb_spec d' (2 * Z.abs r)) as [Hgt|Hle]; simpl.
    + destruct (Z.ltb_spec n' 0); rewrite !Hk; repeat split; try lia.
    + destruct (Z.eqb_spec (2 * Z.abs r) d') as [Htie|Htie]; simpl;
        [destruct (Z.even q) eqn:Hev; simpl |]; [| destruct (Z.ltb_spec n' 0); rewrite !Hk |];
        repeat split; try lia; intros; rewrite ?He1, ?He2; done.
Qed.

(** Decimal text of integers: [toInt] reads back every [fromInt], and the
    texts [toInt] accepts are exactly those renderings and [-0]; every other
    text is refused with the invalid-number failure that carries the input. *)
Theorem integer_text_roundtrip (errors : NumberErrors) (z : Z) (s : jstr) :
  completion_bind (fromInt z) (toInt errors) = ok z /\
  match toInt errors s with
  | ok v => fromInt v = ok s \/ (s = js "-0" /\ v = 0)
  | domain f => df_type f = invalidNumber errors /\ df_payload f = [("input"%string, JStr s)]
                /\ s <> dec_of_Z z
  | standard _ => False
  end.
Proof.
  split.
  - cbn. unfold toInt. by rewrite integerText_dec, bigint_of_text_dec.
  - unfold toInt. destruct (integerText s) eqn:Ht; cbn.
    + apply integerText_canonical in Ht as [Hs| ->]; [left | by right].
      unfold fromInt. by rewrite <- Hs.
    + repeat split. intros ->. by rewrite integerText_dec in Ht.
Qed.
