(* ===== verification/Unicode.v ===== *)
(** * Unicode encodings

    The native conversions the runtime relies on: code points of a UTF-16 string
    ([Array.from(text)], [codePointAt], [String.fromCodePoint]), the UTF-8
    encoder ([TextEncoder]) and the fatal UTF-8 decoder ([TextDecoder]), written
    out from their specifications. *)
From stdpp Require Import base list strings.
From Stdlib Require Import ZArith Lia.
From S2P Require Import Prelude JsString.

(** A Unicode scalar value. *)
Definition is_scalar (c : N) : bool := (c <? 0xD800)%N || ((0xDFFF <? c) && (c <=? 0x10FFFF))%N.

(** ** UTF-16 *)

Definition surrogate_pair (hi lo : N) : N := ((hi - 0xD800) * 0x400 + (lo - 0xDC00) + 0x10000)%N.

(** The code points [Array.from(text)] iterates: an unpaired surrogate is one of
    its own. *)
Fixpoint code_points (s : jstr) : list N :=
  match s with
  | [] => []
  | c :: rest =>
      if is_high_surrogate c then
        match rest with
        | d :: rest' =>
            if is_low_surrogate d then surrogate_pair c d :: code_points rest'
            else c :: code_points rest
        | [] => [c]
        end
      else c :: code_points rest
  end.

(** [String.fromCodePoint(c)]. *)
Definition utf16 (c : N) : jstr :=
  if (c <? 0x10000)%N then [c]
  else [0xD800 + (c - 0x10000) / 0x400; 0xDC00 + (c - 0x10000) mod 0x400]%N.

(** ** UTF-8 *)

Definition utf8 (c : N) : list N :=
  (if c <? 0x80 then [c]
   else if c <? 0x800 then [0xC0 + c / 0x40; 0x80 + c mod 0x40]
   else if c <? 0x10000 then
     [0xE0 + c / 0x1000; 0x80 + c / 0x40 mod 0x40; 0x80 + c mod 0x40]
   else
     [0xF0 + c / 0x40000; 0x80 + c / 0x1000 mod 0x40; 0x80 + c / 0x40 mod 0x40;
      0x80 + c mod 0x40])%N.

(** [TextEncoder.encode]: an unpaired surrogate becomes U+FFFD. *)
Definition to_scalar (c : N) : N := if is_scalar c then c else 0xFFFD%N.
Definition utf8_encode (text : jstr) : list N :=
  mjoin (utf8 <$> (to_scalar <$> code_points text)).

Definition continuation (lo hi : N) (b : N) : bool := ((lo <=? b) && (b <=? hi))%N.

(** The fatal decoder: the bytes of one scalar, with the bounds the first byte
    puts on the second; [None] is the decoder's error. *)
Definition utf8_scalar (bytes : list N) : option (N * list N) :=
  match bytes with
  | [] => None
  | b :: rest =>
      if (b <? 0x80)%N then Some (b, rest)
      else if continuation 0xC2 0xDF b then
        match rest with
        | c :: rest =>
            if continuation 0x80 0xBF c
            then Some (((b - 0xC0) * 0x40 + (c - 0x80))%N, rest) else None
        | _ => None
        end
      else if continuation 0xE0 0xEF b then
        match rest with
        | c :: d :: rest =>
            let lo := if (b =? 0xE0)%N then 0xA0%N else 0x80%N in
            let hi := if (b =? 0xED)%N then 0x9F%N else 0xBF%N in
            if continuation lo hi c && continuation 0x80 0xBF d
            then Some (((b - 0xE0) * 0x1000 + (c - 0x80) * 0x40 + (d - 0x80))%N, rest) else None
        | _ => None
        end
      else if continuation 0xF0 0xF4 b then
        match rest with
        | c :: d :: e :: rest =>
            let lo := if (b =? 0xF0)%N then 0x90%N else 0x80%N in
            let hi := if (b =? 0xF4)%N then 0x8F%N else 0xBF%N in
            if continuation lo hi c && continuation 0x80 0xBF d && continuation 0x80 0xBF e
            then Some (((b - 0xF0) * 0x40000 + (c - 0x80) * 0x1000 + (d - 0x80) * 0x40
                        + (e - 0x80))%N, rest) else None
        | _ => None
        end
      else None
  end.

(** Each scalar takes a byte at least: the length of the input is fuel enough. *)
Fixpoint utf8_scalars (fuel : nat) (bytes : list N) : option (list N) :=
  match bytes, fuel with
  | [], _ => Some []
  | _, O => None
  | _, S fuel' =>
      match utf8_scalar bytes with
      | None => None
      | Some (c, rest) => (fun cs => c :: cs) <$> utf8_scalars fuel' rest
      end
  end.

(** [new TextDecoder("utf-8", { fatal: true, ignoreBOM: true }).decode(bytes)]. *)
Definition utf8_decode (bytes : list N) : option jstr :=
  (fun cs => mjoin (utf16 <$> cs)) <$> utf8_scalars (length bytes) bytes.

Example utf8_euro : utf8_encode [0x20AC]%N = [0xE2; 0x82; 0xAC]%N.
Proof. reflexivity. Qed.
Example utf8_pair : utf8_encode [0xD83D; 0xDE00]%N = [0xF0; 0x9F; 0x98; 0x80]%N.
Proof. reflexivity. Qed.
Example utf8_overlong : utf8_decode [0xC0; 0x80]%N = None.
Proof. reflexivity. Qed.
Example utf8_surrogate : utf8_decode [0xED; 0xA0; 0x80]%N = None.
Proof. reflexivity. Qed.

(** ** Facts *)

(** Turn boolean tests on code units into arithmetic. *)
Ltac units :=
  unfold continuation, is_scalar, is_high_surrogate, is_low_surrogate, is_surrogate in *;
  repeat match goal with
  | H : (_ && _)%bool = true |- _ => apply andb_true_iff in H; destruct H
  | H : (_ || _)%bool = false |- _ => apply orb_false_iff in H; destruct H
  | H : (_ && _)%bool = false |- _ => apply andb_false_iff in H
  | H : (_ || _)%bool = true |- _ => apply orb_true_iff in H
  | H : (_ <=? _)%N = true |- _ => apply N.leb_le in H
  | H : (_ <=? _)%N = false |- _ => apply N.leb_gt in H
  | H : (_ <? _)%N = true |- _ => apply N.ltb_lt in H
  | H : (_ <? _)%N = false |- _ => apply N.ltb_ge in H
  | H : (_ =? _)%N = true |- _ => apply N.eqb_eq in H
  | H : (_ =? _)%N = false |- _ => apply N.eqb_neq in H
  | H : _ \/ _ |- _ => destruct H
  end.

(** Decide a boolean test on code units by arithmetic. *)
Lemma ltb_true a b : (a < b)%N -> (a <? b)%N = true.
Proof. apply N.ltb_lt. Qed.
Lemma ltb_false a b : (b <= a)%N -> (a <? b)%N = false.
Proof. apply N.ltb_ge. Qed.
Lemma leb_true a b : (a <= b)%N -> (a <=? b)%N = true.
Proof. apply N.leb_le. Qed.
Lemma leb_false a b : (b < a)%N -> (a <=? b)%N = false.
Proof. apply N.leb_gt. Qed.
Lemma eqb_false a b : a <> b -> (a =? b)%N = false.
Proof. apply N.eqb_neq. Qed.

Lemma continuation_true lo hi b : (lo <= b <= hi)%N -> continuation lo hi b = true.
Proof. intros. unfold continuation. by rewrite !leb_true by lia. Qed.
Lemma continuation_false lo hi b : (b < lo \/ hi < b)%N -> continuation lo hi b = false.
Proof.
  intros [?|?]; unfold continuation; [by rewrite (leb_false lo) by lia |].
  by rewrite (leb_false b), andb_false_r by lia.
Qed.

Lemma is_scalar_spec c : is_scalar c = true <-> (c < 0xD800 \/ 0xDFFF < c <= 0x10FFFF)%N.
Proof.
  unfold is_scalar. rewrite orb_true_iff, andb_true_iff, !N.ltb_lt, N.leb_le. done.
Qed.

Ltac divs := zify; Z.to_euclidean_division_equations; lia.

Lemma utf8_scalar_encode c rest : is_scalar c = true -> utf8_scalar (utf8 c ++ rest) = Some (c, rest).
Proof.
  intros Hc%is_scalar_spec. unfold utf8.
  destruct (N.ltb_spec c 0x80).
  { cbn. by rewrite ltb_true. }
  destruct (N.ltb_spec c 0x800).
  { assert (2 <= c / 0x40 < 0x20)%N by (divs).
    assert (c mod 0x40 < 0x40)%N by (divs).
    assert (c = (c / 0x40) * 0x40 + c mod 0x40)%N as Hsum by divs.
    set (x := (c / 0x40)%N) in *. set (y := (c mod 0x40)%N) in *.
    cbn [utf8_scalar app]. rewrite ltb_false, continuation_true, continuation_true by lia.
    do 2 f_equal. lia. }
  destruct (N.ltb_spec c 0x10000).
  { assert (c / 0x1000 < 0x10)%N by (divs).
    assert (c / 0x40 mod 0x40 < 0x40)%N by (divs).
    assert (c mod 0x40 < 0x40)%N by (divs).
    assert (c = (c / 0x1000) * 0x1000 + (c / 0x40 mod 0x40) * 0x40 + c mod 0x40)%N as Hsum
      by (divs).
    set (x := (c / 0x1000)%N) in *. set (y := (c / 0x40 mod 0x40)%N) in *.
    set (z := (c mod 0x40)%N) in *.
    cbn [utf8_scalar app].
    rewrite ltb_false, (continuation_false 0xC2), (continuation_true 0xE0) by lia.
    rewrite (continuation_true 0x80 0xBF (0x80 + z)), andb_true_r by lia.
    rewrite continuation_true by (repeat case_goal; units; lia).
    do 2 f_equal. lia. }
  assert (c / 0x40000 < 0x5)%N by (divs).
  assert (c / 0x1000 mod 0x40 < 0x40)%N by (divs).
  assert (c / 0x40 mod 0x40 < 0x40)%N by (divs).
  assert (c mod 0x40 < 0x40)%N by (divs).
  assert (c = (c / 0x40000) * 0x40000 + (c / 0x1000 mod 0x40) * 0x1000
              + (c / 0x40 mod 0x40) * 0x40 + c mod 0x40)%N as Hsum by (divs).
  set (w := (c / 0x40000)%N) in *. set (x := (c / 0x1000 mod 0x40)%N) in *.
  set (y := (c / 0x40 mod 0x40)%N) in *. set (z := (c mod 0x40)%N) in *.
  cbn [utf8_scalar app].
  rewrite ltb_false, (continuation_false 0xC2), (continuation_false 0xE0),
    (continuation_true 0xF0 0xF4) by lia.
  rewrite (continuation_true 0x80 0xBF (0x80 + z)), (continuation_true 0x80 0xBF (0x80 + y)),
    !andb_true_r by lia.
  rewrite continuation_true by (repeat case_goal; units; lia).
  do 2 f_equal. lia.
Qed.

Lemma base64_digits a b : (b < 0x40)%N -> ((a * 0x40 + b) / 0x40 = a /\ (a * 0x40 + b) mod 0x40 = b)%N.
Proof.
  intros Hb. split; symmetry; [apply (N.div_unique _ _ _ b) | apply (N.mod_unique _ _ a)]; lia.
Qed.

Lemma utf8_two a b :
  (2 <= a < 0x20)%N -> (b < 0x40)%N -> utf8 (a * 0x40 + b) = [0xC0 + a; 0x80 + b]%N.
Proof.
  intros Ha Hb. unfold utf8. rewrite ltb_false, ltb_true by lia.
  by destruct (base64_digits a b Hb) as [-> ->].
Qed.

Lemma utf8_three a b c :
  (a < 0x10)%N -> (b < 0x40)%N -> (c < 0x40)%N -> (0x20 <= a * 0x40 + b)%N ->
  utf8 (a * 0x1000 + b * 0x40 + c) = [0xE0 + a; 0x80 + b; 0x80 + c]%N.
Proof.
  intros Ha Hb Hc Hab. unfold utf8.
  replace (a * 0x1000 + b * 0x40 + c)%N with ((a * 0x40 + b) * 0x40 + c)%N by lia.
  rewrite ltb_false, ltb_false, ltb_true by lia.
  change 0x1000%N with (0x40 * 0x40)%N. rewrite <- N.Div0.div_div.
  destruct (base64_digits (a * 0x40 + b) c Hc) as [-> ->].
  by destruct (base64_digits a b Hb) as [-> ->].
Qed.

Lemma utf8_four a b c d :
  (b < 0x40)%N -> (c < 0x40)%N -> (d < 0x40)%N -> (0x10 <= a * 0x40 + b)%N ->
  utf8 (a * 0x40000 + b * 0x1000 + c * 0x40 + d)
  = [0xF0 + a; 0x80 + b; 0x80 + c; 0x80 + d]%N.
Proof.
  intros Hb Hc Hd Hab. unfold utf8.
  replace (a * 0x40000 + b * 0x1000 + c * 0x40 + d)%N
    with (((a * 0x40 + b) * 0x40 + c) * 0x40 + d)%N by lia.
  rewrite !ltb_false by lia.
  change 0x40000%N with (0x40 * (0x40 * 0x40))%N. change 0x1000%N with (0x40 * 0x40)%N.
  rewrite <- !N.Div0.div_div.
  destruct (base64_digits ((a * 0x40 + b) * 0x40 + c) d Hd) as [-> ->].
  destruct (base64_digits (a * 0x40 + b) c Hc) as [-> ->].
  by destruct (base64_digits a b Hb) as [-> ->].
Qed.

Lemma utf8_scalar_decode bytes c rest :
  utf8_scalar bytes = Some (c, rest) -> is_scalar c = true /\ bytes = utf8 c ++ rest.
Proof.
  intros H. unfold utf8_scalar in H.
  repeat case_hyp H; simplify_eq; units;
    repeat match goal with H : context [if ?b then _ else _] |- _ => destruct b eqn:? end;
    units; (split; [apply is_scalar_spec; lia |]);
    first [ rewrite utf8_four by lia | rewrite utf8_three by lia | rewrite utf8_two by lia
          | unfold utf8; rewrite ltb_true by lia ];
    cbn [app]; repeat f_equal; lia.
Qed.

Lemma utf8_length c : (1 <= length (utf8 c))%nat.
Proof. unfold utf8. repeat case_goal; simpl; lia. Qed.

Lemma utf8_scalars_encode cs fuel :
  Forall (fun c => is_scalar c = true) cs ->
  (length (mjoin (utf8 <$> cs)) <= fuel)%nat ->
  utf8_scalars fuel (mjoin (utf8 <$> cs)) = Some cs.
Proof.
  intros Hcs. revert fuel. induction Hcs as [|c cs Hc Hcs IH]; intros fuel Hlen.
  - by destruct fuel.
  - change (mjoin (utf8 <$> c :: cs)) with (utf8 c ++ mjoin (utf8 <$> cs)) in *.
    rewrite length_app in Hlen. pose proof (utf8_length c).
    destruct fuel as [|fuel]; [lia |]. pose proof (utf8_scalar_encode c (mjoin (utf8 <$> cs)) Hc).
    destruct (utf8 c ++ mjoin (utf8 <$> cs)) as [|b bs] eqn:Hb.
    { apply app_eq_nil in Hb as [Hb _]. rewrite Hb in *. simpl in *. lia. }
    cbn [utf8_scalars]. rewrite H0. cbn. by rewrite IH by lia.
Qed.

Lemma utf8_scalars_decode fuel bytes cs :
  utf8_scalars fuel bytes = Some cs ->
  Forall (fun c => is_scalar c = true) cs /\ bytes = mjoin (utf8 <$> cs).
Proof.
  revert bytes cs. induction fuel as [|fuel IH]; intros bytes cs H.
  - destruct bytes; simpl in H; simplify_eq. by split.
  - destruct bytes as [|b bytes]; simpl in H; simplify_eq; [by split |].
    change (match utf8_scalar (b :: bytes) with
            | None => None
            | Some (c, rest) => (fun cs => c :: cs) <$> utf8_scalars fuel rest
            end = Some cs) in H.
    destruct (utf8_scalar (b :: bytes)) as [[c rest]|] eqn:Hu; [| done].
    destruct (utf8_scalars fuel rest) as [cs'|] eqn:Hr; simpl in H; [| done]. simplify_eq.
    apply utf8_scalar_decode in Hu as [Hc ->]. apply IH in Hr as [Hcs ->].
    split; [by constructor | done].
Qed.

Lemma code_points_utf16 c rest :
  is_scalar c = true -> code_points (utf16 c ++ rest) = c :: code_points rest.
Proof.
  intros Hc%is_scalar_spec. unfold utf16. destruct (N.ltb_spec c 0x10000).
  - cbn [app code_points]. unfold is_high_surrogate.
    destruct ((0xD800 <=? c) && (c <=? 0xDBFF))%N eqn:He; [units; lia | done].
  - assert ((c - 0x10000) / 0x400 < 0x400)%N by divs.
    assert ((c - 0x10000) mod 0x400 < 0x400)%N by divs.
    assert (c - 0x10000 = (c - 0x10000) / 0x400 * 0x400 + (c - 0x10000) mod 0x400)%N by divs.
    set (x := ((c - 0x10000) / 0x400)%N) in *. set (y := ((c - 0x10000) mod 0x400)%N) in *.
    cbn [app code_points]. unfold is_high_surrogate, is_low_surrogate.
    rewrite !leb_true by lia. cbn [andb]. f_equal. unfold surrogate_pair. lia.
Qed.

Lemma well_formed_utf16 c rest :
  is_scalar c = true -> is_well_formed (utf16 c ++ rest) = is_well_formed rest.
Proof.
  intros Hc%is_scalar_spec. unfold utf16. destruct (N.ltb_spec c 0x10000).
  - cbn [app is_well_formed]. unfold is_high_surrogate, is_low_surrogate.
    destruct ((0xD800 <=? c) && (c <=? 0xDBFF))%N eqn:He; [units; lia |].
    destruct ((0xDC00 <=? c) && (c <=? 0xDFFF))%N eqn:He'; [units; lia | done].
  - assert ((c - 0x10000) / 0x400 < 0x400)%N by divs.
    assert ((c - 0x10000) mod 0x400 < 0x400)%N by divs.
    set (x := ((c - 0x10000) / 0x400)%N) in *. set (y := ((c - 0x10000) mod 0x400)%N) in *.
    cbn [app is_well_formed]. unfold is_high_surrogate, is_low_surrogate.
    by rewrite !leb_true by lia.
Qed.

(** Scalars and well-formed strings correspond one to one. *)
Lemma utf16_scalars cs :
  Forall (fun c => is_scalar c = true) cs ->
  code_points (mjoin (utf16 <$> cs)) = cs /\ is_well_formed (mjoin (utf16 <$> cs)) = true.
Proof.
  induction 1 as [|c cs Hc Hcs [IH1 IH2]]; [done |].
  change (mjoin (utf16 <$> c :: cs)) with (utf16 c ++ mjoin (utf16 <$> cs)).
  by rewrite code_points_utf16, well_formed_utf16, IH1 by done.
Qed.

Lemma surrogate_pair_scalar hi lo :
  is_high_surrogate hi = true -> is_low_surrogate lo = true ->
  is_scalar (surrogate_pair hi lo) = true /\ utf16 (surrogate_pair hi lo) = [hi; lo].
Proof.
  intros Hh Hl. units. unfold surrogate_pair. split.
  - apply is_scalar_spec. lia.
  - unfold utf16. rewrite ltb_false by lia.
    assert ((hi - 0xD800) * 0x400 + (lo - 0xDC00) + 0x10000 - 0x10000
            = (hi - 0xD800) * 0x400 + (lo - 0xDC00))%N as -> by lia.
    rewrite <- (N.div_unique _ 0x400 (hi - 0xD800) (lo - 0xDC00)) by lia.
    rewrite <- (N.mod_unique _ 0x400 (hi - 0xD800) (lo - 0xDC00)) by lia.
    repeat f_equal; lia.
Qed.

(** A sequence of code units: what every JavaScript string is. *)
Definition is_units (s : jstr) : bool := forallb (fun c => c <? 0x10000)%N s.

Lemma well_formed_scalars s :
  is_units s = true -> is_well_formed s = true ->
  Forall (fun c => is_scalar c = true) (code_points s) /\ mjoin (utf16 <$> code_points s) = s.
Proof.
  induction s as [s IH] using (well_founded_induction (well_founded_ltof _ length)).
  unfold ltof in IH. intros Hu. destruct s as [|c rest]; [by split |].
  cbn [is_well_formed code_points]. cbn [is_units forallb] in Hu.
  apply andb_true_iff in Hu as [Hc%N.ltb_lt Hu]. destruct (is_high_surrogate c) eqn:Hh.
  - destruct rest as [|d rest']; [done |]. destruct (is_low_surrogate d) eqn:Hl; [| done].
    cbn [forallb] in Hu. apply andb_true_iff in Hu as [_ Hu].
    intros Hw. destruct (IH rest') as [H1 H2]; [simpl; lia | done | done |].
    destruct (surrogate_pair_scalar c d Hh Hl) as [Hs Hp]. split; [by constructor |].
    change (utf16 (surrogate_pair c d) ++ mjoin (utf16 <$> code_points rest') = c :: d :: rest').
    by rewrite Hp, H2.
  - destruct (is_low_surrogate c) eqn:Hl; [done |]. intros Hw.
    destruct (IH rest) as [H1 H2]; [simpl; lia | done | done |].
    split.
    + constructor; [| done]. apply is_scalar_spec. units; lia.
    + change (utf16 c ++ mjoin (utf16 <$> code_points rest) = c :: rest).
      unfold utf16 at 1. rewrite ltb_true by done. by rewrite H2.
Qed.

Lemma to_scalar_scalar c : is_scalar (to_scalar c) = true.
Proof. unfold to_scalar. by destruct (is_scalar c) eqn:Hc. Qed.

Lemma to_scalars_id cs :
  Forall (fun c => is_scalar c = true) cs -> to_scalar <$> cs = cs.
Proof.
  induction 1 as [|c cs Hc _ IH]; [done |]. rewrite fmap_cons, IH. unfold to_scalar. by rewrite Hc.
Qed.

(** Decoding what the encoder wrote gives the text with every unpaired
    surrogate replaced; it is the text itself exactly for well-formed text. *)
Lemma utf8_decode_encode text :
  is_units text = true ->
  utf8_decode (utf8_encode text) = Some (mjoin (utf16 <$> (to_scalar <$> code_points text))) /\
  (mjoin (utf16 <$> (to_scalar <$> code_points text)) = text <-> is_well_formed text = true).
Proof.
  intros Hu.
  assert (Forall (fun c => is_scalar c = true) (to_scalar <$> code_points text)) as Hs.
  { apply Forall_fmap, Forall_true. intros c. apply to_scalar_scalar. }
  split.
  - unfold utf8_decode, utf8_encode. by rewrite utf8_scalars_encode.
  - split; intros H.
    + rewrite <- H. by apply utf16_scalars.
    + destruct (well_formed_scalars text Hu H) as [H1 H2]. by rewrite to_scalars_id.
Qed.

(** The decoder accepts the encodings only: what it reads is written back. *)
Lemma utf8_encode_decode bytes text :
  utf8_decode bytes = Some text -> utf8_encode text = bytes /\ is_well_formed text = true.
Proof.
  unfold utf8_decode. destruct (utf8_scalars (length bytes) bytes) as [cs|] eqn:H; simpl; [| done].
  intros [= <-]. apply utf8_scalars_decode in H as [Hs ->].
  destruct (utf16_scalars cs Hs) as [Hp Hw]. split; [| done].
  unfold utf8_encode. by rewrite Hp, to_scalars_id.
Qed.

Lemma utf16_units c : is_scalar c = true -> is_units (utf16 c) = true.
Proof.
  intros Hc%is_scalar_spec. unfold utf16, is_units. destruct (N.ltb_spec c 0x10000) as [Hlt|Hge]; cbn [forallb].
  - by rewrite ltb_true.
  - assert ((c - 0x10000) / 0x400 < 0x400)%N by divs. assert ((c - 0x10000) mod 0x400 < 0x400)%N by divs.
    rewrite !ltb_true by lia. done.
Qed.

Lemma decoded_units bytes text : utf8_decode bytes = Some text -> is_units text = true.
Proof.
  unfold utf8_decode. destruct (utf8_scalars (length bytes) bytes) as [cs|] eqn:H; simpl; [| done].
  intros [= <-]. apply utf8_scalars_decode in H as [Hs _]. induction Hs as [|c cs Hc _ IH]; [done |].
  change (mjoin (utf16 <$> c :: cs)) with (utf16 c ++ mjoin (utf16 <$> cs)).
  unfold is_units in *. rewrite forallb_app, IH, andb_true_r. by apply utf16_units.
Qed.
