(* ===== verification/Utf8Stream.v ===== *)
(** * The streaming UTF-8 decoder

    [new TextDecoder("utf-8", { fatal: true, ignoreBOM: true })] called chunk by
    chunk with [stream: true], and its final flush.  Between calls the decoder
    holds the bytes of an incomplete scalar. *)
From stdpp Require Import base list strings.
From Stdlib Require Import ZArith Lia.
From S2P Require Import Prelude JsString Unicode.

(** Bytes that a longer input can complete to one scalar. *)
Definition utf8_partial (bytes : list N) : bool :=
  match bytes with
  | [b] => continuation 0xC2 0xF4 b
  | [b; c] =>
      (continuation 0xE0 0xEF b
       && continuation (if (b =? 0xE0)%N then 0xA0 else 0x80)%N (if (b =? 0xED)%N then 0x9F else 0xBF)%N c)
      || (continuation 0xF0 0xF4 b
          && continuation (if (b =? 0xF0)%N then 0x90 else 0x80)%N (if (b =? 0xF4)%N then 0x8F else 0xBF)%N c)
  | [b; c; d] =>
      continuation 0xF0 0xF4 b
      && continuation (if (b =? 0xF0)%N then 0x90 else 0x80)%N (if (b =? 0xF4)%N then 0x8F else 0xBF)%N c
      && continuation 0x80 0xBF d
  | _ => false
  end.

(** One byte after the held ones: a scalar, more to hold, or the error. *)
Definition decode_byte (held : list N) (b : N) : option (list N * list N) :=
  let data := held ++ [b] in
  match utf8_scalar data with
  | Some (c, _) => Some ([c], [])
  | None => if utf8_partial data then Some ([], data) else None
  end.

Fixpoint decode_scalars (held bytes : list N) : option (list N * list N) :=
  match bytes with
  | [] => Some ([], held)
  | b :: bytes =>
      match decode_byte held b with
      | None => None
      | Some (cs, held) =>
          match decode_scalars held bytes with
          | Some (cs', held) => Some (cs ++ cs', held)
          | None => None
          end
      end
  end.

Definition scalars_text (cs : list N) : jstr := mjoin (utf16 <$> cs).

(** [decoder.decode(bytes, { stream: true })]: the text and the held bytes. *)
Definition decode_stream (held bytes : list N) : option (jstr * list N) :=
  match decode_scalars held bytes with
  | Some (cs, held) => Some (scalars_text cs, held)
  | None => None
  end.

(** [decoder.decode()]: an incomplete scalar is the error. *)
Definition decode_flush (held : list N) : option jstr := if bool_decide (held = []) then Some [] else None.

(** ** Against the whole input *)

Lemma decode_scalars_app held s t :
  decode_scalars held (s ++ t)
  = match decode_scalars held s with
    | Some (cs, held') =>
        match decode_scalars held' t with Some (cs', held'') => Some (cs ++ cs', held'') | None => None end
    | None => None
    end.
Proof.
  revert held. induction s as [|b s IH]; intros held; cbn.
  { by destruct (decode_scalars held t) as [[? ?]|]. }
  destruct (decode_byte held b) as [[cs held']|]; [| done]. rewrite IH.
  destruct (decode_scalars held' s) as [[cs1 held1]|]; [| done].
  destruct (decode_scalars held1 t) as [[cs2 held2]|]; [| done]. by rewrite app_assoc.
Qed.

Lemma decode_stream_app held s t :
  decode_stream held (s ++ t)
  = match decode_stream held s with
    | Some (u, held') =>
        match decode_stream held' t with Some (v, held'') => Some (u ++ v, held'') | None => None end
    | None => None
    end.
Proof.
  unfold decode_stream. rewrite decode_scalars_app.
  destruct (decode_scalars held s) as [[cs held']|]; [| done].
  destruct (decode_scalars held' t) as [[cs' held'']|]; [| done].
  unfold scalars_text. by rewrite fmap_app, join_app.
Qed.

(** The class of a lead byte. *)
Lemma lead_byte b :
  continuation 0xC2 0xF4 b = continuation 0xC2 0xDF b || continuation 0xE0 0xEF b || continuation 0xF0 0xF4 b.
Proof.
  apply eq_true_iff_eq. rewrite !orb_true_iff. unfold continuation. rewrite !andb_true_iff, !N.leb_le. lia.
Qed.

Lemma lead_classes b :
  (continuation 0xE0 0xEF b = true -> continuation 0xF0 0xF4 b = false)
  /\ (continuation 0xC2 0xDF b = true -> continuation 0xE0 0xEF b = false /\ continuation 0xF0 0xF4 b = false).
Proof.
  unfold continuation. rewrite !andb_true_iff, !andb_false_iff, !N.leb_le, !N.leb_gt. lia.
Qed.

(** Compute the decoder's step on bytes whose class is known. *)
Ltac decode_step :=
  repeat (first
    [ progress cbn [decode_scalars app utf8_scalar utf8_partial andb orb]
    | progress unfold decode_byte
    | match goal with
      | H : ?x = true |- context [?x] => rewrite H
      | H : ?x = false |- context [?x] => rewrite H
      end ]).

(** A scalar at the front is decoded, and the decoder holds nothing after it. *)
Lemma decode_scalars_scalar bytes c rest :
  utf8_scalar bytes = Some (c, rest) ->
  decode_scalars [] bytes
  = match decode_scalars [] rest with Some (cs, held) => Some (c :: cs, held) | None => None end.
Proof.
  destruct bytes as [|b bytes]; [done |]. cbn [utf8_scalar]. pose proof (lead_byte b) as Hlead.
  pose proof (lead_classes b) as [H34 H2].
  destruct (b <? 0x80)%N eqn:E1; [intros [= <- <-]; by decode_step |].
  destruct (continuation 0xC2 0xDF b) eqn:E2.
  { specialize (H2 eq_refl) as [E3 E4]. rewrite E3, E4 in Hlead. cbn in Hlead. destruct bytes as [|c0 bytes]; [done |].
    destruct (continuation 0x80 0xBF c0) eqn:C0; [| done]. intros [= <- <-]. decode_step.
    by destruct (decode_scalars [] bytes) as [[cs h]|]. }
  destruct (continuation 0xE0 0xEF b) eqn:E3.
  { specialize (H34 eq_refl). cbn in Hlead. destruct bytes as [|c0 [|d bytes]]; [done.. |].
    destruct (continuation _ _ c0) eqn:C0; [| done]. destruct (continuation 0x80 0xBF d) eqn:C1; [| done].
    intros [= <- <-]. decode_step. by destruct (decode_scalars [] bytes) as [[cs h]|]. }
  destruct (continuation 0xF0 0xF4 b) eqn:E4; [| done]. cbn in Hlead.
  destruct bytes as [|c0 [|d [|e bytes]]]; [done.. |].
  destruct (continuation _ _ c0) eqn:C0; [| done]. destruct (continuation 0x80 0xBF d) eqn:C1; [| done].
  destruct (continuation 0x80 0xBF e) eqn:C2; [| done].
  intros [= <- <-]. decode_step. by destruct (decode_scalars [] bytes) as [[cs h]|].
Qed.

(** Without a scalar at the front, the decoder fails or holds all bytes. *)
Lemma decode_scalars_none bytes :
  bytes <> [] -> utf8_scalar bytes = None ->
  decode_scalars [] bytes = None \/ decode_scalars [] bytes = Some ([], bytes).
Proof.
  destruct bytes as [|b bytes]; [done |]. intros _. cbn [utf8_scalar]. pose proof (lead_byte b) as Hlead.
  pose proof (lead_classes b) as [H34 H2].
  destruct (b <? 0x80)%N eqn:E1; [done |].
  destruct (continuation 0xC2 0xDF b) eqn:E2.
  { specialize (H2 eq_refl) as [E3 E4]. rewrite E3, E4 in Hlead. cbn in Hlead. destruct bytes as [|c0 bytes].
    - intros _. right. by decode_step.
    - destruct (continuation 0x80 0xBF c0) eqn:C0; [done |]. intros _. left. by decode_step. }
  destruct (continuation 0xE0 0xEF b) eqn:E3.
  { specialize (H34 eq_refl). cbn in Hlead. destruct bytes as [|c0 bytes]; [intros _; right; by decode_step |].
    destruct (continuation (if (b =? 0xE0)%N then _ else _) _ c0) eqn:C0.
    - destruct bytes as [|d bytes]; [intros _; right; by decode_step |].
      destruct (continuation 0x80 0xBF d) eqn:C1; [done |]. intros _. left. by decode_step.
    - intros _. left. by decode_step. }
  destruct (continuation 0xF0 0xF4 b) eqn:E4; cbn in Hlead; [| intros _; left; by decode_step].
  destruct bytes as [|c0 bytes]; [intros _; right; by decode_step |].
  destruct (continuation (if (b =? 0xF0)%N then _ else _) _ c0) eqn:C0; [| intros _; left; by decode_step].
  destruct bytes as [|d bytes]; [intros _; right; by decode_step |].
  destruct (continuation 0x80 0xBF d) eqn:C1; [| intros _; left; by decode_step].
  destruct bytes as [|e bytes]; [intros _; right; by decode_step |].
  destruct (continuation 0x80 0xBF e) eqn:C2; [done |]. intros _. left. by decode_step.
Qed.

Lemma utf8_scalar_shorter bytes c rest : utf8_scalar bytes = Some (c, rest) -> (length rest < length bytes)%nat.
Proof.
  destruct bytes as [|b bytes]; [done |]. cbn [utf8_scalar].
  repeat (case_match; try done); intros; simplify_eq; cbn; lia.
Qed.

(** Decoding chunk by chunk and flushing is decoding the whole input. *)
Lemma decode_stream_whole bytes :
  utf8_decode bytes
  = match decode_stream [] bytes with
    | Some (text, held) => match decode_flush held with Some more => Some (text ++ more) | None => None end
    | None => None
    end.
Proof.
  enough (forall fuel bytes, (length bytes <= fuel)%nat ->
    utf8_scalars fuel bytes
    = match decode_scalars [] bytes with
      | Some (cs, held) => if bool_decide (held = []) then Some cs else None
      | None => None
      end) as H.
  { unfold utf8_decode, decode_stream, decode_flush. rewrite (H _ bytes) by done.
    destruct (decode_scalars [] bytes) as [[cs held]|]; [| done]. case_bool_decide; [| done].
    cbn. by rewrite app_nil_r. }
  intros fuel. induction fuel as [|fuel IH]; intros [|b data] Hlen; try done; [cbn in Hlen; lia |].
  cbn [utf8_scalars]. destruct (utf8_scalar (b :: data)) as [[c rest]|] eqn:Hc.
  - rewrite (decode_scalars_scalar _ _ _ Hc). apply utf8_scalar_shorter in Hc. rewrite IH by (cbn in *; lia).
    destruct (decode_scalars [] rest) as [[cs held]|]; [| done]. by case_bool_decide.
  - by destruct (decode_scalars_none (b :: data)) as [-> | ->].
Qed.

(** ** What the decoder holds *)

Definition holds (held : list N) : Prop := held = [] \/ utf8_partial held = true.

Lemma partial_class b :
  (continuation 0xC2 0xF4 b = true \/ continuation 0xE0 0xEF b = true \/ continuation 0xF0 0xF4 b = true) -> (b <? 0x80)%N = false.
Proof. unfold continuation. rewrite !andb_true_iff, !N.leb_le. intros H. apply N.ltb_ge. lia. Qed.

(** Held bytes are no scalar, and the byte that completes one ends it. *)
Lemma partial_spec held :
  utf8_partial held = true ->
  utf8_scalar held = None /\ (forall b c rest, utf8_scalar (held ++ [b]) = Some (c, rest) -> rest = []).
Proof.
  destruct held as [|b [|c [|d [|e held]]]]; try done; cbn [utf8_partial app]; intros H.
  - unfold utf8_scalar. rewrite partial_class by auto. split; [by repeat case_match |].
    intros x y rest. repeat case_match; intros; by simplify_eq.
  - assert (continuation 0xC2 0xDF b = false) as E2.
    { pose proof (lead_classes b) as [_ H2]. destruct (continuation 0xC2 0xDF b); [| done].
      specialize (H2 eq_refl) as [E3 E4]. by rewrite E3, E4 in H. }
    unfold utf8_scalar. rewrite E2. rewrite partial_class.
    + split; [by repeat case_match |]. intros x y rest. repeat case_match; intros; by simplify_eq.
    + apply orb_true_iff in H as [[H _]%andb_true_iff | [H _]%andb_true_iff]; auto.
  - apply andb_true_iff in H as [[H Hc]%andb_true_iff Hd].
    assert (continuation 0xC2 0xDF b = false /\ continuation 0xE0 0xEF b = false) as [E2 E3].
    { pose proof (lead_classes b) as [H3 H2]. destruct (continuation 0xC2 0xDF b), (continuation 0xE0 0xEF b); try done;
        [by destruct (H2 eq_refl); congruence.. | by rewrite H3 in H]. }
    unfold utf8_scalar. rewrite E2, E3. rewrite partial_class by auto.
    split; [by repeat case_match |]. intros x y rest. repeat case_match; intros; by simplify_eq.
Qed.

Lemma decode_byte_sound held b cs held' :
  holds held -> decode_byte held b = Some (cs, held') ->
  held ++ [b] = concat (utf8 <$> cs) ++ held' /\ Forall (fun c => is_scalar c = true) cs /\ holds held'.
Proof.
  intros Hh. unfold decode_byte. destruct (utf8_scalar (held ++ [b])) as [[c rest]|] eqn:Hs.
  - intros [= <- <-]. assert (rest = []) as ->.
    { destruct Hh as [-> | Hp]; [| by eapply (proj2 (partial_spec held Hp))].
      cbn [app] in Hs. unfold utf8_scalar in Hs. by repeat case_match; simplify_eq. }
    apply utf8_scalar_decode in Hs as [Hc ->]. cbn. rewrite !app_nil_r. split_and!; [done | by repeat constructor | by left].
  - destruct (utf8_partial (held ++ [b])) eqn:Hp; [| done]. intros [= <- <-]. split_and!; [done | done | by right].
Qed.

(** The decoder's scalars and the bytes it holds spell its input. *)
Lemma decode_scalars_sound bytes : forall held cs held',
  holds held -> decode_scalars held bytes = Some (cs, held') ->
  held ++ bytes = concat (utf8 <$> cs) ++ held' /\ Forall (fun c => is_scalar c = true) cs /\ holds held'.
Proof.
  induction bytes as [|b bytes IH]; intros held cs held' Hh; cbn [decode_scalars].
  { intros [= <- <-]. by rewrite app_nil_r. }
  destruct (decode_byte held b) as [[cs1 held1]|] eqn:Hb; [| done].
  destruct (decode_byte_sound _ _ _ _ Hh Hb) as (Hj & Hs & Hh1).
  destruct (decode_scalars held1 bytes) as [[cs2 held2]|] eqn:Hd; [| done]. intros [= <- <-].
  destruct (IH _ _ _ Hh1 Hd) as (Hj2 & Hs2 & Hh2). split_and!; [| by apply Forall_app | done].
  rewrite fmap_app, concat_app, <- app_assoc, <- Hj2. change (b :: bytes) with ([b] ++ bytes). by rewrite app_assoc, Hj, app_assoc.
Qed.

(** Held bytes are a proper part of the next scalar, which is not ASCII. *)
Lemma decode_held_next held bytes cs :
  utf8_partial held = true -> decode_scalars held bytes = Some (cs, []) ->
  exists c cs', cs = c :: cs' /\ (length held <= length (utf8 c))%nat /\ (0x80 <= c)%N.
Proof.
  intros Hp Hd. destruct (decode_scalars_sound _ _ _ _ (or_intror Hp) Hd) as (Hj & Hs & _).
  destruct (partial_spec held Hp) as [Hnone _]. rewrite app_nil_r in Hj.
  destruct cs as [|c cs]; [apply app_eq_nil in Hj as [-> _]; done |]. cbn in Hj.
  apply Forall_cons in Hs as [Hc _]. exists c, cs. split; [done |]. split.
  - destruct (Nat.le_gt_cases (length held) (length (utf8 c))) as [|Hlt]; [done |].
    apply app_eq_inv in Hj as [(k & -> & _) | (k & Hk & _)].
    + by rewrite utf8_scalar_encode in Hnone.
    + rewrite Hk, length_app in Hlt. lia.
  - destruct (N.le_gt_cases 0x80 c) as [|Hlt]; [done |].
    unfold utf8 in Hj. rewrite (ltb_true c 0x80) in Hj by done. destruct held as [|b held]; [done |].
    cbn in Hj. injection Hj as -> _. cbn [utf8_scalar] in Hnone. by rewrite (ltb_true c 0x80) in Hnone by done.
Qed.

(** The text of decoded scalars: its size is the bytes they took. *)
Lemma scalars_text_size cs :
  Forall (fun c => is_scalar c = true) cs ->
  is_well_formed (scalars_text cs) = true /\ utf8_encode (scalars_text cs) = concat (utf8 <$> cs).
Proof.
  intros Hs. destruct (utf16_scalars cs Hs) as [Hc Hw]. split; [done |]. unfold utf8_encode, scalars_text.
  rewrite Hc, to_scalars_id by done. clear. induction cs as [|c cs IH]; [done |]. cbn. by rewrite <- IH.
Qed.
