(* ===== verification/Bytes.v ===== *)
(** * Bytes

    [bytes.ts]: opaque byte strings over private native arrays, and their integer,
    UTF-8, base64 and hexadecimal forms. *)
From stdpp Require Import base gmap list strings.
From Stdlib Require Import ZArith Lia.
From S2P Require Import Prelude JsNumber JsString JsValue Completion Unicode.

(** ** The private store

    Native arrays are objects of the host; [storage] maps a token to the native
    array its bytes live in. *)
Record bstate : Type := mkB {
  next : nat;
  native : gmap nat (list N);
  storage : gmap nat nat
}.

Definition alloc (contents : list N) (s : bstate) : nat * bstate :=
  (next s, mkB (S (next s)) (<[next s := contents]> (native s)) (storage s)).

Definition read (l : nat) (s : bstate) : list N := default [] (native s !! l).

(** [storage.set(token, new Uint8Array(fresh))]: the fresh array is copied. *)
Definition ownBytes (fresh : nat) (s : bstate) : nat * bstate :=
  let '(copy, s) := alloc (read fresh s) s in
  let token := next s in
  (token, mkB (S token) (native s) (<[token := copy]> (storage s))).

Definition isBytes (value : nat) (s : bstate) : bool := bool_decide (is_Some (storage s !! value)).

Definition invalid_bytes (origin : string) : StandardFailure :=
  mkStandard resource_state "resource_state: invalid resource use" origin.

(** [backing(value)]: the bytes themselves, for the operations of this module. *)
Definition backing (value : nat) (s : bstate) : run (list N) :=
  match storage s !! value with
  | None => Thrown (invalid_bytes "can:bytes")
  | Some l => Done (read l s)
  end.

(** [storage.get(value).slice()]: the caller gets an array of its own. *)
Definition copyBytes (value : nat) (origin : string) (s : bstate) : run (nat * bstate) :=
  match storage s !! value with
  | None => Thrown (invalid_bytes origin)
  | Some l => Done (alloc (read l s) s)
  end.

Definition byteLength (value : nat) (s : bstate) : run Z :=
  run! bytes := backing value s in Done (Z.of_nat (length bytes)).

(** A fresh native array handed to [ownBytes]. *)
Definition own_fresh (contents : list N) (s : bstate) : nat * bstate :=
  let '(l, s) := alloc contents s in ownBytes l s.

(** ** Text forms *)

Definition encode_hex (bytes : list N) : jstr :=
  mjoin ((fun b => [hex_digit (b / 16); hex_digit (b mod 16)])%N <$> bytes).

Definition hex_value (c : N) : option N :=
  if is_digit c then Some (c - 48)%N
  else if ((65 <=? c) && (c <=? 70))%N then Some (c - 55)%N
  else if ((97 <=? c) && (c <=? 102))%N then Some (c - 87)%N
  else None.

(** [/^([0-9a-fA-F]{2})*$/] *)
Fixpoint hex_pattern (text : jstr) : bool :=
  match text with
  | [] => true
  | a :: b :: rest =>
      bool_decide (is_Some (hex_value a)) && bool_decide (is_Some (hex_value b)) && hex_pattern rest
  | _ => false
  end.

(** [Buffer.from(text, "hex")]: pairs up to the first invalid one. *)
Fixpoint buffer_hex (text : jstr) : list N :=
  match text with
  | a :: b :: rest =>
      match hex_value a, hex_value b with
      | Some x, Some y => (x * 16 + y)%N :: buffer_hex rest
      | _, _ => []
      end
  | _ => []
  end.

Definition b64_char (v : N) : N :=
  (if v <? 26 then 65 + v else if v <? 52 then 71 + v else if v <? 62 then v - 4
   else if v =? 62 then 43 else 47)%N.

Definition b64_value (c : N) : option N :=
  if is_upper c then Some (c - 65)%N
  else if is_lower c then Some (c - 71)%N
  else if is_digit c then Some (c + 4)%N
  else if (c =? 43)%N then Some 62%N
  else if (c =? 47)%N then Some 63%N
  else None.

Fixpoint encode_base64 (bytes : list N) : jstr :=
  match bytes with
  | [] => []
  | [a] => [b64_char (a / 4); b64_char (a mod 4 * 16); 61; 61]%N
  | [a; b] => [b64_char (a / 4); b64_char (a mod 4 * 16 + b / 16); b64_char (b mod 16 * 4); 61]%N
  | a :: b :: c :: rest =>
      [b64_char (a / 4); b64_char (a mod 4 * 16 + b / 16);
       b64_char (b mod 16 * 4 + c / 64); b64_char (c mod 64)]%N ++ encode_base64 rest
  end.

(** [/^[A-Za-z0-9+/]*={0,2}$/] *)
Fixpoint base64_pattern (text : jstr) : bool :=
  match text with
  | [] | [61%N] | [61%N; 61%N] => true
  | c :: rest => bool_decide (is_Some (b64_value c)) && base64_pattern rest
  end.

(** [Buffer.from(text, "base64")] on text of that shape: the sextets up to the
    padding, the bits that fill no byte dropped. *)
Fixpoint buffer_base64 (text : jstr) : list N :=
  match text with
  | a :: b :: c :: d :: rest =>
      match b64_value a, b64_value b, b64_value c, b64_value d with
      | Some w, Some x, Some y, Some z =>
          [w * 4 + x / 16; x mod 16 * 16 + y / 4; y mod 4 * 64 + z]%N ++ buffer_base64 rest
      | Some w, Some x, Some y, None => [w * 4 + x / 16; x mod 16 * 16 + y / 4]%N
      | Some w, Some x, None, _ => [w * 4 + x / 16]%N
      | _, _, _, _ => []
      end
  | _ => []
  end.

(** ** The operations *)
Section operations.
Context (invalidData : jstr).

Definition invalid {A} (path : jstr) (reason : string) : Completion A :=
  domain (mkDomain invalidData
            [("path"%string, JStr path); ("reason"%string, JStr (js reason))] "can:bytes").

(** A completion that carries a new token, with the state it leaves. *)
Definition owned (contents : list N) (s : bstate) : Completion nat * bstate :=
  let '(token, s) := own_fresh contents s in (ok token, s).

Definition empty (s : bstate) : Completion nat * bstate := owned [] s.

(** The first element that is not an octet ends the loop. *)
Fixpoint check_octets (i : Z) (values : list jsval) : (jstr * string) + list N :=
  match values with
  | [] => inr []
  | JBigInt octet :: rest =>
      if (octet <? 0) || (255 <? octet)
      then inl (47%N :: dec_of_Z i, "byte_range"%string)
      else match check_octets (i + 1) rest with
           | inr bytes => inr (Z.to_N octet :: bytes)
           | inl e => inl e
           end
  | _ => inl (47%N :: dec_of_Z i, "type"%string)
  end.

Definition fromInts (values : list jsval) (s : bstate) : Completion nat * bstate :=
  match check_octets 0 values with
  | inl (path, reason) => (invalid path reason, s)
  | inr bytes => owned bytes s
  end.

Definition toInts (value : nat) (s : bstate) : run (Completion (list Z)) :=
  run! bytes := backing value s in Done (ok (Z.of_N <$> bytes)).

Definition fromUTF8 (text : jsval) (s : bstate) : Completion nat * bstate :=
  match text with
  | JStr text =>
      let encoded := utf8_encode text in
      if bool_decide (utf8_decode encoded = Some text) then owned encoded s
      else (invalid [] "unicode_scalar", s)
  | _ => (invalid [] "type", s)
  end.

Definition toUTF8 (value : nat) (s : bstate) : run (Completion jstr) :=
  run! bytes := backing value s in
  match utf8_decode bytes with
  | Some text => Done (ok text)
  | None => Done (invalid [] "utf8")
  end.

Definition encodeBase64 (value : nat) (s : bstate) : run (Completion jstr) :=
  run! bytes := backing value s in Done (ok (encode_base64 bytes)).

Definition decodeBase64 (text : jsval) (s : bstate) : Completion nat * bstate :=
  match text with
  | JStr text =>
      if negb (Nat.modulo (length text) 4 =? 0)%nat || negb (base64_pattern text)
      then (invalid [] "base64", s)
      else owned (buffer_base64 text) s
  | _ => (invalid [] "base64", s)
  end.

Definition encodeHex (value : nat) (s : bstate) : run (Completion jstr) :=
  run! bytes := backing value s in Done (ok (encode_hex bytes)).

Definition decodeHex (text : jsval) (s : bstate) : Completion nat * bstate :=
  match text with
  | JStr text => if hex_pattern text then owned (buffer_hex text) s else (invalid [] "hex", s)
  | _ => (invalid [] "hex", s)
  end.
End operations.

Example base64_ex : encode_base64 [77; 97]%N = js "TWE=".
Proof. reflexivity. Qed.
Example base64_dec_ex : buffer_base64 (js "TWE=") = [77; 97]%N.
Proof. reflexivity. Qed.
Example hex_ex : encode_hex [0; 171]%N = js "00ab".
Proof. reflexivity. Qed.

(** ** Host code around the store

    [host_arrays] are the native arrays host code holds: the ones it made, and
    the copies [copyBytes] gave it.  It may write into those at any time. *)
Inductive host_action : Type :=
| HostNew (contents : list N)
| HostWrite (l : nat) (contents : list N)
| HostOwn (l : nat)
| HostCopy (value : nat)
| RuntimeOwn (contents : list N).

Definition host_act (a : host_action) (st : gset nat * bstate) : gset nat * bstate :=
  let '(host_arrays, s) := st in
  match a with
  | HostNew contents => let '(l, s) := alloc contents s in ({[l]} ∪ host_arrays, s)
  | HostWrite l contents =>
      if bool_decide (l ∈ host_arrays)
      then (host_arrays, mkB (next s) (<[l := contents]> (native s)) (storage s))
      else st
  | HostOwn l =>
      if bool_decide (l ∈ host_arrays) then (host_arrays, (ownBytes l s).2) else st
  | HostCopy value =>
      match copyBytes value "" s with
      | Done (l, s) => ({[l]} ∪ host_arrays, s)
      | Thrown _ => st
      end
  | RuntimeOwn contents => (host_arrays, (own_fresh contents s).2)
  end.

Definition host_run (actions : list host_action) (st : gset nat * bstate) : gset nat * bstate :=
  fold_left (fun st a => host_act a st) actions st.

Definition host_initial : gset nat * bstate := (∅, mkB 0 ∅ ∅).

(** ** Proofs *)

Lemma hex_digit_value v : (v < 16)%N -> hex_value (hex_digit v) = Some v.
Proof.
  intros Hv. unfold hex_value, hex_digit, is_digit. destruct (N.ltb_spec v 10).
  - rewrite !leb_true by lia. cbn [andb]. f_equal. lia.
  - rewrite leb_true, leb_false by lia. cbn [andb].
    rewrite (leb_true 65), (leb_false (87 + v)) by lia. cbn [andb].
    rewrite !leb_true by lia. cbn [andb]. f_equal. lia.
Qed.

Lemma b64_char_value v : (v < 64)%N -> b64_value (b64_char v) = Some v.
Proof.
  intros Hv. unfold b64_char.
  destruct (N.ltb_spec v 26); [| destruct (N.ltb_spec v 52); [| destruct (N.ltb_spec v 62);
    [| destruct (N.eqb_spec v 62) as [->|]; [done |]]]]; unfold b64_value, is_upper, is_lower, is_digit;
    repeat case_goal; units; try (f_equal; lia); try lia; done.
Qed.

Definition octets (bytes : list N) : Prop := Forall (fun b => (b < 256)%N) bytes.

Lemma hex_roundtrip bytes :
  octets bytes -> hex_pattern (encode_hex bytes) = true /\ buffer_hex (encode_hex bytes) = bytes.
Proof.
  induction 1 as [|b bytes Hb _ [IH1 IH2]]; [done |].
  assert (b / 16 < 16)%N by (apply N.Div0.div_lt_upper_bound; lia).
  assert (b mod 16 < 16)%N by (apply N.mod_lt; lia).
  change (encode_hex (b :: bytes))
    with (hex_digit (b / 16) :: hex_digit (b mod 16) :: encode_hex bytes)%N.
  cbn [hex_pattern buffer_hex]. rewrite !hex_digit_value by done. rewrite IH1, IH2. split; [done |].
  f_equal. rewrite N.mul_comm. symmetry. apply N.div_mod. done.
Qed.

Lemma join_digits k a b : (b < k)%N -> ((a * k + b) / k = a /\ (a * k + b) mod k = b)%N.
Proof.
  intros Hb. split; symmetry; [apply (N.div_unique _ _ _ b) | apply (N.mod_unique _ _ a)]; lia.
Qed.

Lemma split_digits k a : k <> 0%N -> (a / k * k + a mod k = a)%N.
Proof. intros Hk. rewrite N.mul_comm. symmetry. by apply N.div_mod. Qed.

Lemma base64_pattern_cons v rest :
  (v < 64)%N -> base64_pattern (b64_char v :: rest) = base64_pattern rest.
Proof.
  intros Hv. pose proof (b64_char_value v Hv) as Hc.
  assert (b64_char v <> 61%N) as Hne by (intros He; by rewrite He in Hc).
  cbn [base64_pattern]. rewrite Hc, bool_decide_true by eauto.
  repeat case_goal; subst; done.
Qed.

(** The sextets of a byte triple, and the bytes they give back. *)
Lemma sextets a b c :
  (a < 256 -> b < 256 -> c < 256 ->
   a / 4 < 64 /\ a mod 4 * 16 + b / 16 < 64 /\ b mod 16 * 4 + c / 64 < 64 /\ c mod 64 < 64 /\
   a / 4 * 4 + (a mod 4 * 16 + b / 16) / 16 = a /\
   (a mod 4 * 16 + b / 16) mod 16 * 16 + (b mod 16 * 4 + c / 64) / 4 = b /\
   (b mod 16 * 4 + c / 64) mod 4 * 64 + c mod 64 = c)%N.
Proof.
  intros Ha Hb Hc.
  assert (b / 16 < 16)%N as Hb16 by (apply N.Div0.div_lt_upper_bound; lia).
  assert (c / 64 < 4)%N as Hc64 by (apply N.Div0.div_lt_upper_bound; lia).
  assert (a / 4 < 64)%N as Ha4 by (apply N.Div0.div_lt_upper_bound; lia).
  destruct (join_digits 16 (a mod 4) (b / 16) Hb16) as [-> ->].
  destruct (join_digits 4 (b mod 16) (c / 64) Hc64) as [-> ->].
  pose proof (N.mod_lt a 4 ltac:(done)) as Hma. pose proof (N.mod_lt b 16 ltac:(done)) as Hmb.
  pose proof (N.mod_lt c 64 ltac:(done)) as Hmc.
  rewrite !split_digits by done. repeat split; try done;
    set (x := (a mod 4)%N) in *; set (y := (b mod 16)%N) in *;
    set (u := (b / 16)%N) in *; set (w := (c / 64)%N) in *; lia.
Qed.

Lemma base64_roundtrip bytes :
  octets bytes ->
  base64_pattern (encode_base64 bytes) = true /\
  (length (encode_base64 bytes) mod 4 = 0)%nat /\
  buffer_base64 (encode_base64 bytes) = bytes.
Proof.
  induction bytes as [bytes IH] using (well_founded_induction (well_founded_ltof _ length)).
  unfold ltof in IH. intros Hb. destruct bytes as [|a [|b [|c rest]]]; [done | | |];
    apply Forall_cons in Hb as [Ha Hb]; try (apply Forall_cons in Hb as [Hb Hc]);
    try (apply Forall_cons in Hc as [Hc Hrest]).
  - destruct (sextets a 0 0) as (H1 & H2 & _ & _ & H5 & _); [done.. |].
    change (0 / 16)%N with 0%N in *. rewrite !N.add_0_r in *.
    cbn [encode_base64 buffer_base64]. rewrite !base64_pattern_cons by done.
    rewrite !b64_char_value by done. cbn. by rewrite H5.
  - destruct (sextets a b 0) as (H1 & H2 & H3 & _ & H5 & H6 & _); [done.. |].
    change (0 / 64)%N with 0%N in *. rewrite !N.add_0_r in *.
    cbn [encode_base64 buffer_base64]. rewrite !base64_pattern_cons by done.
    rewrite !b64_char_value by done. cbn. by rewrite H5, H6.
  - destruct (sextets a b c) as (H1 & H2 & H3 & H4 & H5 & H6 & H7); [done.. |].
    destruct (IH rest) as (I1 & I2 & I3); [simpl; lia | done |].
    cbn [encode_base64 buffer_base64 app]. rewrite !base64_pattern_cons by done.
    rewrite !b64_char_value by done. rewrite H5, H6, H7, I3.
    split; [done |]. split; [| done].
    change (length _) with (4 + length (encode_base64 rest))%nat.
    by rewrite Nat.Div0.add_mod, I2.
Qed.

Lemma backing_own_fresh contents s :
  backing (own_fresh contents s).1 (own_fresh contents s).2 = Done contents.
Proof.
  unfold backing, own_fresh, ownBytes, alloc, read. simpl.
  rewrite lookup_insert_eq. by rewrite !lookup_insert_eq.
Qed.

Lemma check_octets_ok bytes i :
  octets bytes -> check_octets i (JBigInt <$> (Z.of_N <$> bytes)) = inr bytes.
Proof.
  intros Hb. revert i. induction Hb as [|b bytes Hb _ IH]; intros i; [done |].
  rewrite !fmap_cons. cbn [check_octets].
  destruct (Z.ltb_spec (Z.of_N b) 0); [lia |]. destruct (Z.ltb_spec 255 (Z.of_N b)); [lia |].
  cbn [orb]. rewrite IH. by rewrite N2Z.id.
Qed.

(** *** Isolation *)

Record isolated (st : gset nat * bstate) : Prop := {
  iso_private : forall v l, storage st.2 !! v = Some l -> (l ∉ st.1) /\ (l < next st.2)%nat;
  iso_tokens : forall v l, storage st.2 !! v = Some l -> (v < next st.2)%nat;
  iso_arrays : forall l, l ∈ st.1 -> (l < next st.2)%nat
}.

Lemma own_isolated arrays l s :
  isolated (arrays, s) -> isolated (arrays, (ownBytes l s).2).
Proof.
  intros [H1 H2 H3]. cbn in *. split; cbn.
  - intros v l' [[<- <-]|[Hne Hv]]%lookup_insert_Some.
    + split; [intros Hin; apply H3 in Hin |]; lia.
    + destruct (H1 v l' Hv). split; [done | lia].
  - intros v l' [[<- <-]|[Hne Hv]]%lookup_insert_Some; [lia |]. specialize (H2 v l' Hv). lia.
  - intros l' Hl. specialize (H3 l' Hl). lia.
Qed.

Lemma alloc_isolated arrays contents s :
  isolated (arrays, s) ->
  isolated ({[next s]} ∪ arrays, (alloc contents s).2) /\ isolated (arrays, (alloc contents s).2).
Proof.
  intros [H1 H2 H3]. cbn in *. split; split; cbn; intros.
  - destruct (H1 _ _ ltac:(eassumption)) as [Hp Hl]. split; [| lia].
    rewrite elem_of_union, elem_of_singleton. intros [->|]; [lia | done].
  - specialize (H2 _ _ ltac:(eassumption)). lia.
  - rewrite elem_of_union, elem_of_singleton in *.
    match goal with H : _ \/ _ |- _ => destruct H as [->|Hl] end; [lia | specialize (H3 _ Hl); lia].
  - destruct (H1 _ _ ltac:(eassumption)) as [Hp Hl]. split; [done | lia].
  - specialize (H2 _ _ ltac:(eassumption)). lia.
  - specialize (H3 _ ltac:(eassumption)). lia.
Qed.

Lemma host_act_isolated a st : isolated st -> isolated (host_act a st).
Proof.
  destruct st as [arrays s]. intros Hi. destruct a as [c|l c|l|v|c]; cbn -[ownBytes alloc].
  - exact (proj1 (alloc_isolated arrays c s Hi)).
  - case_goal; [| done]. destruct Hi as [H1 H2 H3]. by split.
  - case_goal; [| done]. by apply own_isolated.
  - unfold copyBytes. destruct (storage s !! v); [| done]. exact (proj1 (alloc_isolated arrays _ s Hi)).
  - unfold own_fresh. apply own_isolated. exact (proj2 (alloc_isolated arrays c s Hi)).
Qed.

Lemma host_run_isolated actions st : isolated st -> isolated (host_run actions st).
Proof.
  revert st. induction actions as [|a actions IH]; intros st Hi; [done |].
  apply IH. by apply host_act_isolated.
Qed.

Lemma host_act_backing a st v bytes :
  isolated st -> backing v st.2 = Done bytes -> backing v (host_act a st).2 = Done bytes.
Proof.
  destruct st as [arrays s]. intros [H1 H2 H3]. unfold backing. cbn [fst snd] in *.
  destruct (storage s !! v) as [l|] eqn:Hv; [| done]. intros [= <-].
  destruct (H1 v l Hv) as [Hp Hl]. specialize (H2 v l Hv).
  destruct a as [c|l' c|l'|v'|c]; cbn.
  - rewrite Hv. unfold read. cbn. by rewrite lookup_insert_ne by lia.
  - destruct (bool_decide (l' ∈ arrays)) eqn:Hin; cbn; rewrite Hv; [| done].
    apply bool_decide_eq_true in Hin.
    unfold read. cbn. by rewrite lookup_insert_ne by congruence.
  - destruct (bool_decide (l' ∈ arrays)); cbn; [| by rewrite Hv]. rewrite lookup_insert_ne, Hv by lia.
    unfold read. cbn. by rewrite lookup_insert_ne by lia.
  - unfold copyBytes. destruct (storage s !! v') eqn:Hv'; cbn; rewrite Hv; [| done].
    unfold read at 1. cbn. by rewrite lookup_insert_ne by lia.
  - rewrite lookup_insert_ne, Hv by lia.
    unfold read at 1. cbn. by rewrite !lookup_insert_ne by lia.
Qed.

Lemma host_run_backing actions st v bytes :
  isolated st -> backing v st.2 = Done bytes -> backing v (host_run actions st).2 = Done bytes.
Proof.
  revert st. induction actions as [|a actions IH]; intros st Hi Hb; [done |].
  apply IH; [by apply host_act_isolated | by apply host_act_backing].
Qed.

Lemma initial_isolated : isolated host_initial.
Proof. split; cbn; intros; [by rewrite lookup_empty in * | by rewrite lookup_empty in * | set_solver]. Qed.

(** Bytes are immutable for the host: whatever native arrays host code
    creates, writes into, hands to the runtime or received as copies, the bytes
    a token stands for never change after the token exists. *)
Theorem bytes_isolated (before after : list host_action) (v : nat) (bytes : list N) :
  backing v (host_run before host_initial).2 = Done bytes ->
  backing v (host_run after (host_run before host_initial)).2 = Done bytes.
Proof. intros Hb. apply host_run_backing; [apply host_run_isolated, initial_isolated | done]. Qed.

Lemma bytes_isolated_witness :
  let before := [HostNew [1; 2]; HostOwn 0; HostCopy 2]%N in
  let after := [HostWrite 0 [9]; HostWrite 3 [9]; HostWrite 1 [9]]%N in
  backing 2 (host_run before host_initial).2 = Done [1; 2]%N /\
  backing 2 (host_run after (host_run before host_initial)).2 = Done [1; 2]%N.
Proof.
  intros before after. split; [reflexivity |].
  exact (bytes_isolated before after 2 [1; 2]%N eq_refl).
Defined.

(** UTF-8: [fromUTF8] accepts exactly the well-formed strings, and [toUTF8]
    of the token gives the string back; text that [toUTF8] decodes is encoded to
    the very same bytes, so no second encoding of a string is accepted. *)
Theorem utf8_roundtrip (inv text : jstr) (s : bstate) (Hu : is_units text = true) :
  match fromUTF8 inv (JStr text) s with
  | (ok token, s') => is_well_formed text = true /\ toUTF8 inv token s' = Done (ok text)
  | (domain f, s') => is_well_formed text = false /\ s' = s /\ df_type f = inv
  | (standard _, _) => False
  end /\
  forall v bytes, backing v s = Done bytes -> toUTF8 inv v s = Done (ok text) ->
    exists token s', fromUTF8 inv (JStr text) s = (ok token, s') /\ backing token s' = Done bytes.
Proof.
  destruct (utf8_decode_encode text Hu) as [Hd Hw]. split.
  - unfold fromUTF8. case_bool_decide as Ht.
    + unfold owned. destruct (own_fresh (utf8_encode text) s) as [token s'] eqn:Ho.
      pose proof (backing_own_fresh (utf8_encode text) s) as Hb. rewrite Ho in Hb. cbn in Hb.
      unfold toUTF8. rewrite Hb. cbn. rewrite Ht. split; [| done].
      apply Hw. rewrite Hd in Ht. by injection Ht.
    + repeat split. destruct (is_well_formed text) eqn:Hf; [| done].
      exfalso. apply Ht. rewrite Hd. f_equal. by apply Hw.
  - intros v bytes Hv. unfold toUTF8. rewrite Hv. cbn.
    destruct (utf8_decode bytes) as [t|] eqn:Hb; [| by intros [=]]. intros [= ->].
    pose proof (utf8_encode_decode bytes text Hb) as [He _].
    unfold fromUTF8. rewrite He, bool_decide_true by done. unfold owned.
    exists (own_fresh bytes s).1, (own_fresh bytes s).2.
    split; [reflexivity | apply backing_own_fresh].
Qed.

Lemma utf8_roundtrip_witness :
  is_units [0x20AC; 0xD83D; 0xDE00]%N = true /\
  exists token s', fromUTF8 [] (JStr [0x20AC; 0xD83D; 0xDE00]%N) (mkB 0 ∅ ∅) = (ok token, s')
                   /\ toUTF8 [] token s' = Done (ok [0x20AC; 0xD83D; 0xDE00]%N).
Proof.
  split; [reflexivity |].
  pose proof (proj1 (utf8_roundtrip [] [0x20AC; 0xD83D; 0xDE00]%N (mkB 0 ∅ ∅) eq_refl)) as H.
  eexists _, _. split; [reflexivity | exact (proj2 H)].
Defined.

(** The textual and numeric forms of bytes lose nothing: decoding the
    hexadecimal, base64 or integer form of any octets builds a token of those
    octets (and every accepted integer list is a list of octets). *)
Theorem bytes_forms_roundtrip (inv : jstr) (bytes : list N) (s : bstate) (Hb : octets bytes) :
  decodeHex inv (JStr (encode_hex bytes)) s = owned bytes s /\
  decodeBase64 inv (JStr (encode_base64 bytes)) s = owned bytes s /\
  fromInts inv (JBigInt <$> (Z.of_N <$> bytes)) s = owned bytes s /\
  (let '(token, s') := own_fresh bytes s in
   toInts token s' = Done (ok (Z.of_N <$> bytes)) /\
   encodeHex token s' = Done (ok (encode_hex bytes)) /\
   encodeBase64 token s' = Done (ok (encode_base64 bytes))).
Proof.
  destruct (hex_roundtrip bytes Hb) as [H1 H2].
  destruct (base64_roundtrip bytes Hb) as (B1 & B2 & B3). split_and!.
  - cbn [decodeHex]. by rewrite H1, H2.
  - cbn [decodeBase64]. by rewrite B1, B2, B3.
  - unfold fromInts. by rewrite check_octets_ok.
  - pose proof (backing_own_fresh bytes s) as Hf. destruct (own_fresh bytes s) as [token s'].
    cbn in Hf. unfold toInts, encodeHex, encodeBase64. by rewrite Hf.
Qed.

Lemma bytes_forms_roundtrip_witness :
  octets [0; 171; 255; 62]%N /\
  decodeBase64 [] (JStr (js "AKv/Pg==")) (mkB 0 ∅ ∅) = owned [0; 171; 255; 62]%N (mkB 0 ∅ ∅).
Proof.
  assert (octets [0; 171; 255; 62]%N) as Ho by (repeat constructor; reflexivity).
  split; [exact Ho |].
  exact (proj1 (proj2 (bytes_forms_roundtrip [] [0; 171; 255; 62]%N (mkB 0 ∅ ∅) Ho))).
Defined.
