(* ===== verification/Text.v ===== *)
(** * Text

    [text.ts]: strings as UTF-16 code units, their scalars, splitting and
    replacing, and bounded regular-expression scans. *)
From stdpp Require Import base gmap list strings.
From Stdlib Require Import ZArith Lia.
From S2P Require Import Prelude JsNumber JsString JsValue Completion Numbers Unicode.

(** ** Native string methods *)

Fixpoint is_prefix (p s : jstr) : bool :=
  match p, s with
  | [], _ => true
  | c :: p', d :: s' => (c =? d)%N && is_prefix p' s'
  | _ :: _, [] => false
  end.

(** [text.indexOf(search)]. *)
Fixpoint index_of (search text : jstr) : option nat :=
  if is_prefix search text then Some 0%nat
  else match text with
       | [] => None
       | _ :: rest => S <$> index_of search rest
       end.

(** [text.split(separator)] for a nonempty separator; a piece consumes at least a
    unit, so the length of the text is fuel enough. *)
Fixpoint native_split (fuel : nat) (separator text : jstr) : list jstr :=
  match fuel, index_of separator text with
  | S fuel', Some i =>
      take i text :: native_split fuel' separator (drop (i + length separator) text)
  | _, _ => [text]
  end.

(** [text.replaceAll(search, () => replacement)] for a nonempty search. *)
Fixpoint native_replace (fuel : nat) (search replacement text : jstr) : jstr :=
  match fuel, index_of search text with
  | S fuel', Some i =>
      take i text ++ replacement
        ++ native_replace fuel' search replacement (drop (i + length search) text)
  | _, _ => text
  end.

(** [items.join(separator)]. *)
Definition native_join (items : list jstr) (separator : jstr) : jstr :=
  intersperse separator items.

(** ** The operations *)

(** One match of a native scan: its text, its index, and its groups. *)
Record native_match : Type := mkMatch {
  m_text : jstr;
  m_index : nat;
  m_groups : list (option jstr)
}.

Record match_record : Type := mkMatchRecord {
  text_ : jstr;
  start : Z;
  end_ : Z;
  groups : list jstr
}.

Record Compiled : Type := mkCompiled { source : jstr; flags : jstr }.

Record TextIdentities : Type := mkTextIdentities {
  emptySeparator : jstr;
  emptyPattern : jstr;
  invalidUnicode : jstr;
  invalidRegex : jstr;
  invalidLimit : jstr
}.

Definition MAX_MATCHES : Z := 10000.

(** [/^[imsuv]*$/] *)
Definition admitted (flags : jstr) : bool :=
  forallb (fun c => (c =? 105) || (c =? 109) || (c =? 115) || (c =? 117) || (c =? 118))%N flags.

Section text.
Context (identities : TextIdentities).
(** The engine's regular expressions: whether a pattern compiles, and the
    sequence [matchAll] yields; and the grapheme segmenter. *)
Context (regexp_valid : jstr -> jstr -> bool).
Context (regexp_matches : jstr -> jstr -> jstr -> list native_match).
Context (segment : jstr -> list jstr).

Definition invalid {A} (reason : string) : Completion A :=
  domain (mkDomain (invalidUnicode identities)
            [("reason"%string, JStr (js reason))] "can:text").

Definition empty {A} (identity : jstr) : Completion A := domain (mkDomain identity [] "can:text").

Definition includes (text value : jstr) : Completion bool :=
  ok (bool_decide (is_Some (index_of value text))).

Definition startsWith (text value : jstr) : Completion bool := ok (is_prefix value text).

Definition endsWith (text value : jstr) : Completion bool :=
  ok ((length value <=? length text)%nat &&
      bool_decide (drop (length text - length value) text = value)).

Definition text_slice (text : jstr) (start end_ : Z) : Completion jstr :=
  ok (slice text (Some start) (Some end_)).

Definition split (text separator : jstr) : Completion (list jstr) :=
  if bool_decide (separator = []) then empty (emptySeparator identities)
  else ok (native_split (length text) separator text).

Definition replaceAll (text search replacement : jstr) : Completion jstr :=
  if bool_decide (search = []) then empty (emptyPattern identities)
  else ok (native_replace (length text) search replacement text).

Definition join (items : list jstr) (separator : jstr) : Completion jstr :=
  ok (native_join items separator).

Definition scalars (text : jstr) : Completion (list Z) :=
  if negb (is_well_formed text) then invalid "unpaired surrogate"
  else ok (Z.of_N <$> code_points text).

Definition invalid_scalar (value : Z) : bool :=
  (value <? 0) || (0x10FFFF <? value) || ((0xD800 <=? value) && (value <=? 0xDFFF)).

(** The chunks of 4096 values, each converted by one [String.fromCodePoint]. *)
Fixpoint chunks (fuel : nat) (values : list Z) : list jstr :=
  match fuel, values with
  | S fuel', _ :: _ =>
      mjoin (utf16 <$> (Z.to_N <$> take 4096 values)) :: chunks fuel' (drop 4096 values)
  | _, _ => []
  end.

Definition fromScalars (values : list Z) : Completion jstr :=
  if existsb invalid_scalar values then invalid "invalid scalar value"
  else ok (native_join (chunks (length values) values) []).

Definition graphemes (text : jstr) : Completion (list jstr) :=
  if negb (is_well_formed text) then invalid "unpaired surrogate" else ok (segment text).

(** A handle and the patterns map that holds it. *)
Definition patterns : Type := gmap nat Compiled.

Definition invalid_regex {A} (reason : string) : Completion A :=
  domain (mkDomain (invalidRegex identities) [("reason"%string, JStr (js reason))] "can:text").

Definition compileRegex (pattern flags : jstr) (handle : nat) (p : patterns) :
    Completion nat * patterns :=
  if negb (admitted flags) then (invalid_regex "flags", p)
  else if negb (regexp_valid pattern flags) then (invalid_regex "syntax", p)
  else (ok handle, <[handle := mkCompiled pattern flags]> p).

Definition record_of_match (m : native_match) : match_record :=
  mkMatchRecord (m_text m) (Z.of_nat (m_index m))
    (Z.of_nat (m_index m + length (m_text m))) (default [] <$> m_groups m).

(** The scan stops at the limit. *)
Fixpoint take_matches (limit : Z) (out : list match_record) (found : list native_match) :
    list match_record :=
  match found with
  | [] => out
  | m :: rest =>
      if limit <=? Z.of_nat (length out) then out
      else take_matches limit (out ++ [record_of_match m]) rest
  end.

Definition findMatches (handle : nat) (text : jstr) (limit : Z) (p : patterns) :
    res (Completion (list match_record)) :=
  match p !! handle with
  | None => Throw "invalid compiler regex handle"
  | Some compiled =>
      if (limit <? 0) || (MAX_MATCHES <? limit) then
        Ret (domain (mkDomain (invalidLimit identities)
                       [("limit"%string, JBigInt limit)] "can:text"))
      else
        Ret (ok (take_matches limit []
                   (regexp_matches (source compiled) (flags compiled ++ js "g") text)))
  end.
End text.

(** ** Proofs *)

Lemma is_prefix_spec p s : is_prefix p s = true <-> exists rest, s = p ++ rest.
Proof.
  revert s. induction p as [|c p IH]; intros s; cbn.
  - split; [by exists s | done].
  - destruct s as [|d s]; [by split; [| intros (? & ?)] |].
    rewrite andb_true_iff, N.eqb_eq, IH. split.
    + intros [-> (rest & ->)]. by exists rest.
    + intros (rest & [= -> ->]). by split; [| exists rest].
Qed.

Lemma index_of_some search text i :
  index_of search text = Some i ->
  text = take i text ++ search ++ drop (i + length search) text.
Proof.
  revert i. induction text as [|c text IH]; intros i; cbn.
  - destruct search; [by intros [= <-] | done].
  - destruct (is_prefix search (c :: text)) eqn:Hp.
    + intros [= <-]. apply is_prefix_spec in Hp as (rest & ->). cbn [take app Nat.add].
      by rewrite drop_app_length.
    + destruct (index_of search text) as [j|]; cbn; [| done]. intros [= <-].
      cbn. f_equal. by apply IH.
Qed.

(** An occurrence found later is the first one: nothing before it matches. *)
Lemma index_of_none search text :
  index_of search text = None -> forall before after, text <> before ++ search ++ after.
Proof.
  induction text as [|c text IH]; cbn; intros Hn before after Ht.
  - symmetry in Ht. apply app_eq_nil in Ht as [_ [-> _]%app_eq_nil]. done.
  - destruct (is_prefix search (c :: text)) eqn:Hp; [done |].
    destruct (index_of search text) as [j|] eqn:Hi; [done |].
    destruct before as [|b before].
    + apply not_true_iff_false in Hp. apply Hp, is_prefix_spec. by exists after.
    + injection Ht as -> Ht. by apply (IH eq_refl before after).
Qed.

Lemma native_split_nonempty fuel separator text : native_split fuel separator text <> [].
Proof. destruct fuel; cbn; [done |]. by case_goal. Qed.

Lemma join_split fuel separator text :
  native_join (native_split fuel separator text) separator = text.
Proof.
  revert text. induction fuel as [|fuel IH]; intros text; [done |]. cbn [native_split].
  destruct (index_of separator text) as [i|] eqn:Hi; [| done].
  unfold native_join in *. rewrite intersperse_cons by apply native_split_nonempty.
  rewrite IH. symmetry. by apply index_of_some.
Qed.

Lemma replace_is_join_of_split fuel search replacement text :
  native_replace fuel search replacement text
  = native_join (native_split fuel search text) replacement.
Proof.
  revert text. induction fuel as [|fuel IH]; intros text; [done |].
  cbn [native_split native_replace]. destruct (index_of search text) as [i|]; [| done].
  unfold native_join in *. rewrite intersperse_cons by apply native_split_nonempty. by rewrite IH.
Qed.

Lemma index_of_take search text i :
  search <> [] -> index_of search text = Some i -> index_of search (take i text) = None.
Proof.
  intros Hne. revert i. induction text as [|c text IH]; intros i Hi; cbn in Hi.
  - by destruct search.
  - destruct (is_prefix search (c :: text)) eqn:Hp.
    + injection Hi as <-. cbn. by destruct search.
    + destruct (index_of search text) as [j|] eqn:Hj; [| done]. injection Hi as <-. cbn.
      rewrite (IH j eq_refl). cbn. destruct (is_prefix search (c :: take j text)) eqn:Hq; [| done].
      apply is_prefix_spec in Hq as (rest & Hq).
      apply not_true_iff_false in Hp. exfalso. apply Hp, is_prefix_spec.
      exists (rest ++ drop j text). rewrite app_assoc, <- Hq. cbn. by rewrite take_drop.
Qed.

Lemma split_pieces fuel separator text :
  separator <> [] -> (length text <= fuel)%nat ->
  Forall (fun piece => index_of separator piece = None) (native_split fuel separator text).
Proof.
  intros Hne. revert text. induction fuel as [|fuel IH]; intros text Hlen.
  - destruct text; [| simpl in Hlen; lia]. constructor; [by destruct separator | done].
  - cbn [native_split]. destruct (index_of separator text) as [i|] eqn:Hi; [| by repeat constructor].
    constructor; [by apply index_of_take |]. apply IH. rewrite length_drop.
    destruct separator; [done |]. cbn. destruct text; [done | simpl in *; lia].
Qed.

Lemma intersperse_nil parts : intersperse [] parts = mjoin parts.
Proof.
  induction parts as [|p parts IH]; [done |]. destruct parts as [|q parts].
  - cbn. by rewrite app_nil_r.
  - rewrite intersperse_cons, IH by done. done.
Qed.

Lemma mjoin_app {A} (l1 l2 : list (list A)) : mjoin (l1 ++ l2) = mjoin l1 ++ mjoin l2.
Proof.
  induction l1 as [|x l1 IH]; [done |].
  change (x ++ mjoin (l1 ++ l2) = (x ++ mjoin l1) ++ mjoin l2). by rewrite IH, app_assoc.
Qed.

Lemma chunks_join fuel values :
  (length values <= fuel)%nat ->
  native_join (chunks fuel values) [] = mjoin (utf16 <$> (Z.to_N <$> values)).
Proof.
  unfold native_join. rewrite intersperse_nil. revert values.
  induction fuel as [|fuel IH]; intros values Hlen; destruct values as [|v values]; try done;
    [simpl in Hlen; lia |].
  change (mjoin (chunks (S fuel) (v :: values)))
    with (mjoin (utf16 <$> (Z.to_N <$> take 4096 (v :: values)))
          ++ mjoin (chunks fuel (drop 4096 (v :: values)))).
  rewrite IH by (rewrite length_drop; simpl in *; lia).
  by rewrite <- mjoin_app, <- !fmap_app, take_drop.
Qed.

Lemma invalid_scalar_false v :
  invalid_scalar v = false -> is_scalar (Z.to_N v) = true /\ Z.of_N (Z.to_N v) = v.
Proof.
  unfold invalid_scalar. intros H. apply orb_false_iff in H as [H Hs]. split_bools.
  apply andb_false_iff in Hs as [Hs|Hs]; split_bools;
    (split; [apply is_scalar_spec; lia | lia]).
Qed.

Lemma scalars_not_invalid cs :
  Forall (fun c => is_scalar c = true) cs -> existsb invalid_scalar (Z.of_N <$> cs) = false.
Proof.
  induction 1 as [|c cs Hc _ IH]; [done |]. rewrite fmap_cons. cbn [existsb]. rewrite IH, orb_false_r.
  apply is_scalar_spec in Hc. unfold invalid_scalar.
  destruct (Z.ltb_spec (Z.of_N c) 0); [lia |]. destruct (Z.ltb_spec 0x10FFFF (Z.of_N c)); [lia |].
  destruct (Z.leb_spec 0xD800 (Z.of_N c)), (Z.leb_spec (Z.of_N c) 0xDFFF); simpl; lia || done.
Qed.

Lemma to_of_N_list (cs : list N) : Z.to_N <$> (Z.of_N <$> cs) = cs.
Proof. rewrite <- list_fmap_compose. rewrite <- (list_fmap_id cs) at 2. apply list_fmap_ext.
  intros. apply N2Z.id. Qed.

Lemma valid_scalars values :
  existsb invalid_scalar values = false ->
  Forall (fun c => is_scalar c = true) (Z.to_N <$> values) /\
  Z.of_N <$> (Z.to_N <$> values) = values.
Proof.
  induction values as [|v values IH]; [done |]. cbn [existsb]. intros [Hv Hvs]%orb_false_iff.
  destruct (IH Hvs) as [H1 H2]. destruct (invalid_scalar_false v Hv) as [Hs He].
  rewrite !fmap_cons, H2, He. split; [by constructor | done].
Qed.

(** The scalars of text: [scalars] answers exactly for well-formed text and
    [fromScalars] rebuilds it, across the 4096-value chunks; [fromScalars]
    accepts exactly lists of scalar values and [scalars] reads them back. *)
Theorem scalars_roundtrip (ids : TextIdentities) (text : jstr) (values : list Z)
    (Hu : is_units text = true) :
  match scalars ids text with
  | ok vs => is_well_formed text = true /\ fromScalars ids vs = ok text
  | domain f => is_well_formed text = false /\ df_type f = invalidUnicode ids
  | standard _ => False
  end /\
  match fromScalars ids values with
  | ok t => scalars ids t = ok values
  | domain f => (exists v, v ∈ values /\ (v < 0 \/ 0xD800 <= v <= 0xDFFF \/ 0x10FFFF < v))
                /\ df_type f = invalidUnicode ids
  | standard _ => False
  end.
Proof.
  split.
  - unfold scalars. destruct (is_well_formed text) eqn:Hw; [| done]. split; [done |].
    destruct (well_formed_scalars text Hu Hw) as [Hs Ht]. unfold fromScalars.
    rewrite scalars_not_invalid by done. rewrite chunks_join by done.
    by rewrite to_of_N_list, Ht.
  - unfold fromScalars. destruct (existsb invalid_scalar values) eqn:Hv.
    + split; [| done]. apply existsb_exists in Hv as (v & Hin & Hv). exists v.
      split; [by apply list_elem_of_In |]. unfold invalid_scalar in Hv.
      apply orb_true_iff in Hv as [[Hv|Hv]%orb_true_iff|Hv]; split_bools; lia.
    + destruct (valid_scalars values Hv) as [Hs He]. rewrite chunks_join by done.
      destruct (utf16_scalars _ Hs) as [Hp Hw]. unfold scalars. by rewrite Hw, Hp, He.
Qed.

Lemma scalars_roundtrip_witness :
  is_units [0x61; 0xD83D; 0xDE00]%N = true /\
  scalars (mkTextIdentities [] [] [] [] []) [0x61; 0xD83D; 0xDE00]%N = ok [0x61; 0x1F600] /\
  fromScalars (mkTextIdentities [] [] [] [] []) [0x61; 0x1F600] = ok [0x61; 0xD83D; 0xDE00]%N.
Proof.
  split; [reflexivity | split; [reflexivity |]].
  exact (proj2 (proj1 (scalars_roundtrip (mkTextIdentities [] [] [] [] [])
                         [0x61; 0xD83D; 0xDE00]%N [] eq_refl))).
Defined.

(** [split] cuts a text at every occurrence of a nonempty separator: joining
    the pieces gives the text back and no piece holds the separator; [replaceAll]
    is [join] of the pieces with the replacement; an empty separator or search is
    refused with its own failure. *)
Theorem split_join_replace (ids : TextIdentities) (text separator replacement : jstr) :
  match split ids text separator with
  | ok pieces =>
      separator <> [] /\ join pieces separator = ok text /\
      (forall piece, piece ∈ pieces -> includes piece separator = ok false) /\
      replaceAll ids text separator replacement = join pieces replacement
  | domain f =>
      separator = [] /\ df_type f = emptySeparator ids /\
      replaceAll ids text separator replacement = empty (emptyPattern ids)
  | standard _ => False
  end.
Proof.
  unfold split, replaceAll. case_bool_decide as Hs; [done |]. split; [done |].
  unfold join. rewrite join_split, replace_is_join_of_split. split; [done |]. split; [| done].
  intros piece Hp. pose proof (split_pieces (length text) separator text Hs ltac:(done)) as Hf.
  rewrite Forall_forall in Hf. unfold includes. rewrite (Hf piece Hp). done.
Qed.
