(* ===== verification/Collections.v ===== *)
(** * Immutable maps and sets

    [collections/map.ts] and [collections/set.ts]: opaque tokens over private
    native [Map]s and [Set]s, which keep their keys in the order of first
    insertion.  [storage] is the module's [WeakMap] from tokens to backing
    collections. *)
From stdpp Require Import base gmap list strings.
From Stdlib Require Import ZArith Lia.
From S2P Require Import Prelude JsNumber JsString JsValue Completion.

(** ** Keys *)

Inductive KeyKind : Type := int_key | bool_key | str_key.

Inductive Key : Type :=
| KInt (z : Z)
| KBool (b : bool)
| KStr (s : jstr).

#[global] Instance Key_eq_dec : EqDecision Key.
Proof. solve_decision. Defined.

(** [typeof key === { int: "bigint", bool: "boolean", str: "string" }[kind]]. *)
Definition key_of (kind : KeyKind) (key : jsval) : option Key :=
  match kind, key with
  | int_key, JBigInt z => Some (KInt z)
  | bool_key, JBool b => Some (KBool b)
  | str_key, JStr s => Some (KStr s)
  | _, _ => None
  end.

Definition resource_state_failure (origin : string) : StandardFailure :=
  mkStandard resource_state "resource_state: invalid resource use" origin.

Definition checkKey (kind : KeyKind) (key : jsval) : run Key :=
  match key_of kind key with
  | Some k => Done k
  | None => Thrown (resource_state_failure "can:collections:set")
  end.

(** ** Native maps and sets, in insertion order *)

Definition nmap (V : Type) : Type := list (Key * V).

Fixpoint map_get {V} (m : nmap V) (k : Key) : option V :=
  match m with
  | [] => None
  | (k', v) :: rest => if decide (k' = k) then Some v else map_get rest k
  end.

Definition map_has {V} (m : nmap V) (k : Key) : bool := bool_decide (is_Some (map_get m k)).

Fixpoint map_set {V} (m : nmap V) (k : Key) (v : V) : nmap V :=
  match m with
  | [] => [(k, v)]
  | (k', v') :: rest => if decide (k' = k) then (k', v) :: rest else (k', v') :: map_set rest k v
  end.

Fixpoint map_delete {V} (m : nmap V) (k : Key) : nmap V :=
  match m with
  | [] => []
  | (k', v') :: rest => if decide (k' = k) then rest else (k', v') :: map_delete rest k
  end.

Definition nset : Type := list Key.

Definition set_has (s : nset) (k : Key) : bool := bool_decide (k ∈ s).

Definition set_add (s : nset) (k : Key) : nset := if set_has s k then s else s ++ [k].

(** [Set.prototype.union] and [Set.prototype.difference]. *)
Definition set_union (a b : nset) : nset := fold_left set_add b a.
Definition set_difference (a b : nset) : nset := filter (fun k => k ∉ b) a.

(** ** Maps *)

Record backing_map : Type := mkBackingMap { bm_identity : jstr; bm_values : nmap jsval }.

(** The tokens made so far, and the opaque contents registered with each. *)
Record mstate : Type := mkM {
  next : nat;
  storage : gmap nat backing_map;
  opaque_children : gmap nat (list jsval)
}.

(** A value that may be a token of this module. *)
Inductive operand : Type :=
| Token (t : nat)
| Other (v : jsval).

Definition isMap (identity : jstr) (value : operand) (s : mstate) : bool :=
  match value with
  | Token t => bool_decide (bm_identity <$> storage s !! t = Some identity)
  | Other _ => false
  end.

Record MapIdentities : Type := mkMapIdentities {
  map_identity : jstr;
  entry : jstr;
  absent : jstr;
  exists_ : jstr
}.

Section map.
Context (identities : MapIdentities) (keyKind : KeyKind).

Definition own (values : nmap jsval) (s : mstate) : operand * mstate :=
  (Token (next s),
   mkM (S (next s))
     (<[next s := mkBackingMap (map_identity identities) values]> (storage s))
     (<[next s := snd <$> values]> (opaque_children s))).

Definition backing (value : operand) (s : mstate) : run (nmap jsval) :=
  match value with
  | Other _ => Thrown (resource_state_failure "can:collections:map")
  | Token t =>
      match storage s !! t with
      | None => Thrown (resource_state_failure "can:collections:map")
      | Some found =>
          if bool_decide (bm_identity found = map_identity identities)
          then Done (bm_values found)
          else Thrown (resource_state_failure "can:collections:map")
      end
  end.

Definition error {A} (identity : jstr) : Completion A :=
  domain (mkDomain identity [] "can:collections:map").

(** [success(own(values))]. *)
Definition published (values : nmap jsval) (s : mstate) : Completion operand * mstate :=
  let '(token, s) := own values s in (ok token, s).

Definition getBody (map : operand) (key : jsval) (s : mstate) : run (Completion jsval) :=
  run! source := backing map s in
  run! k := checkKey keyKind key in
  Done (match map_get source k with Some v => ok v | None => error (absent identities) end).

Definition insertBody (map : operand) (key value : jsval) (s : mstate) :
    run (Completion operand * mstate) :=
  run! source := backing map s in
  run! k := checkKey keyKind key in
  if map_has source k then Done (error (exists_ identities), s)
  else Done (published (map_set source k value) s).

Definition replaceBody (map : operand) (key value : jsval) (s : mstate) :
    run (Completion operand * mstate) :=
  run! source := backing map s in
  run! k := checkKey keyKind key in
  if negb (map_has source k) then Done (error (absent identities), s)
  else Done (published (map_set source k value) s).

Definition remove (map : operand) (key : jsval) (s : mstate) :
    run (Completion operand * mstate) :=
  run! source := backing map s in
  run! k := checkKey keyKind key in
  if negb (map_has source k) then Done (error (absent identities), s)
  else Done (published (map_delete source k) s).

Definition empty (s : mstate) : Completion operand * mstate := published [] s.

(** The keys are checked in order; the first duplicate fails the whole build. *)
Fixpoint build_values (entries : list (jsval * jsval)) (values : nmap jsval) :
    run (Completion (nmap jsval)) :=
  match entries with
  | [] => Done (ok values)
  | (key, value) :: rest =>
      run! k := checkKey keyKind key in
      if map_has values k then Done (error (exists_ identities))
      else build_values rest (map_set values k value)
  end.

Definition build_map (entries : list (jsval * jsval)) (s : mstate) :
    run (Completion operand * mstate) :=
  run! built := build_values entries [] in
  match built with
  | ok values => Done (published values s)
  | domain f => Done (domain f, s)
  | standard f => Done (standard f, s)
  end.

Definition entries (map : operand) (s : mstate) : run (Completion (nmap jsval)) :=
  run! source := backing map s in Done (ok source).

(** ** The batch runner *)

Definition is_bigint (v : jsval) : bool := match v with JBigInt _ => true | _ => false end.

(** The loop over the keys, on the function-local clone. *)
Fixpoint batch_loop (keys : list Key) (absent_ : Key -> run Z) (present : Key -> Z -> run Z)
    (builder : nmap jsval) : run (nmap jsval) :=
  match keys with
  | [] => Done builder
  | key :: rest =>
      match map_get builder key with
      | Some (JBigInt previous) =>
          run! out := present key previous in
          batch_loop rest absent_ present (map_set builder key (JBigInt out))
      | Some _ => Done builder
      | None =>
          run! out := absent_ key in
          batch_loop rest absent_ present (map_set builder key (JBigInt out))
      end
  end.

Definition runBatch (initial : operand) (keys : list Key) (absent_ : Key -> run Z)
    (present : Key -> Z -> run Z) (s : mstate) : option (Completion operand * mstate) :=
  match backing initial s with
  | Thrown _ => None
  | Done found =>
      if negb (forallb is_bigint (snd <$> found)) then None
      else if bool_decide (keys = []) then Some (ok initial, s)
      else
        match batch_loop keys absent_ present found with
        | Thrown f => Some (standard f, s)
        | Done builder => Some (published builder s)
        end
  end.

(** ** The reference: one transition per key through [get], [insert] and
    [replace], each of which publishes a map of its own *)

Definition jsval_of_key (k : Key) : jsval :=
  match k with KInt z => JBigInt z | KBool b => JBool b | KStr s => JStr s end.

Definition transition (absent_ : Key -> run Z) (present : Key -> Z -> run Z)
    (map : operand) (key : Key) (s : mstate) : run (Completion operand * mstate) :=
  run! found := getBody map (jsval_of_key key) s in
  match found with
  | ok (JBigInt previous) =>
      run! out := present key previous in replaceBody map (jsval_of_key key) (JBigInt out) s
  | ok _ => Done (ok map, s)
  | _ => run! out := absent_ key in insertBody map (jsval_of_key key) (JBigInt out) s
  end.

Fixpoint fold_transitions (absent_ : Key -> run Z) (present : Key -> Z -> run Z)
    (map : operand) (keys : list Key) (s : mstate) : run (Completion operand * mstate) :=
  match keys with
  | [] => Done (ok map, s)
  | key :: rest =>
      run! step := transition absent_ present map key s in
      match step with
      | (ok map', s') => fold_transitions absent_ present map' rest s'
      | (domain f, s') => Done (domain f, s')
      | (standard f, s') => Done (standard f, s')
      end
  end.
End map.

(** ** Sets *)

Record backing_set : Type := mkBackingSet { bs_identity : jstr; bs_values : nset }.

Record sstate : Type := mkS { s_next : nat; s_storage : gmap nat backing_set }.

Definition isSet (identity : jstr) (value : operand) (s : sstate) : bool :=
  match value with
  | Token t => bool_decide (bs_identity <$> s_storage s !! t = Some identity)
  | Other _ => false
  end.

Section set.
Context (identity : jstr) (keyKind : KeyKind).

Definition set_own (values : nset) (s : sstate) : operand * sstate :=
  (Token (s_next s),
   mkS (S (s_next s)) (<[s_next s := mkBackingSet identity values]> (s_storage s))).

Definition set_backing (value : operand) (s : sstate) : run nset :=
  match value with
  | Other _ => Thrown (resource_state_failure "can:collections:set")
  | Token t =>
      match s_storage s !! t with
      | None => Thrown (resource_state_failure "can:collections:set")
      | Some found =>
          if bool_decide (bs_identity found = identity) then Done (bs_values found)
          else Thrown (resource_state_failure "can:collections:set")
      end
  end.

Definition set_published (values : nset) (s : sstate) : Completion operand * sstate :=
  let '(token, s) := set_own values s in (ok token, s).

Definition set_empty (s : sstate) : Completion operand * sstate := set_published [] s.

Fixpoint build_seen (values : list jsval) (seen : nset) : run nset :=
  match values with
  | [] => Done seen
  | key :: rest => run! k := checkKey keyKind key in build_seen rest (set_add seen k)
  end.

Definition build_set (values : list jsval) (s : sstate) : run (Completion operand * sstate) :=
  run! seen := build_seen values [] in Done (set_published seen s).

Definition contains (set : operand) (key : jsval) (s : sstate) : run (Completion bool) :=
  run! source := set_backing set s in
  run! k := checkKey keyKind key in
  Done (ok (set_has source k)).

Definition add (set : operand) (key : jsval) (s : sstate) : run (Completion operand * sstate) :=
  run! source := set_backing set s in
  run! k := checkKey keyKind key in
  Done (set_published (set_add source k) s).

Definition union (left right : operand) (s : sstate) : run (Completion operand * sstate) :=
  run! a := set_backing left s in
  run! b := set_backing right s in
  Done (set_published (set_union a b) s).

Definition intersection (left right : operand) (s : sstate) :
    run (Completion operand * sstate) :=
  run! a := set_backing left s in
  run! b := set_backing right s in
  Done (set_published (filter (fun k => set_has b k = true) a) s).

Definition difference (left right : operand) (s : sstate) : run (Completion operand * sstate) :=
  run! a := set_backing left s in
  run! b := set_backing right s in
  Done (set_published (set_difference a b) s).
End set.

(** ** Facts about native collections *)

Lemma map_get_in {V} (m : nmap V) k : map_get m k = None <-> k ∉ m.*1.
Proof.
  induction m as [|[k' v'] m IH]; cbn; [split; [intros _ H; inversion H | done] |].
  destruct (decide (k' = k)) as [->|Hne].
  - split; [done |]. intros H. exfalso. apply H. left.
  - rewrite IH, not_elem_of_cons. naive_solver.
Qed.

Lemma map_get_set {V} (m : nmap V) k v k' :
  map_get (map_set m k v) k' = if decide (k = k') then Some v else map_get m k'.
Proof.
  induction m as [|[k0 v0] m IH]; cbn; [done |].
  destruct (decide (k0 = k)) as [->|Hne]; cbn.
  - destruct (decide (k = k')); done.
  - rewrite IH. destruct (decide (k0 = k')) as [->|]; [| done].
    by destruct (decide (k = k')).
Qed.

Lemma map_set_absent {V} (m : nmap V) k v : map_get m k = None -> map_set m k v = m ++ [(k, v)].
Proof.
  induction m as [|[k0 v0] m IH]; cbn; [done |].
  destruct (decide (k0 = k)); [done |]. intros H. by rewrite IH.
Qed.

Lemma map_set_present {V} (m : nmap V) k v :
  is_Some (map_get m k) -> (map_set m k v).*1 = m.*1.
Proof.
  induction m as [|[k0 v0] m IH]; cbn; [by intros [? ?] |].
  destruct (decide (k0 = k)); [done |]. intros H. cbn. by rewrite IH.
Qed.

Lemma filter_ne_id (k : Key) (l : list Key) : k ∉ l -> filter (fun k' => k' <> k) l = l.
Proof.
  induction l as [|x l IH]; [done |]. rewrite not_elem_of_cons. intros [Hx Hl].
  rewrite filter_cons_True by auto. by rewrite IH.
Qed.

Lemma map_delete_keys {V} (m : nmap V) k :
  NoDup m.*1 -> (map_delete m k).*1 = filter (fun k' => k' <> k) m.*1.
Proof.
  induction m as [|[k0 v0] m IH]; [done |]. rewrite fmap_cons, NoDup_cons. cbn [fst].
  intros [Hn Hnd]. cbn [map_delete]. destruct (decide (k0 = k)) as [->|Hne].
  - rewrite filter_cons_False by auto. by rewrite filter_ne_id.
  - rewrite filter_cons_True by done. cbn [fmap list_fmap fst]. by rewrite <- IH.
Qed.

Lemma map_get_delete {V} (m : nmap V) k k' :
  NoDup m.*1 -> map_get (map_delete m k) k' = if decide (k = k') then None else map_get m k'.
Proof.
  induction m as [|[k0 v0] m IH]; cbn; [by destruct (decide (k = k')) |].
  rewrite NoDup_cons. intros [Hn Hnd]. destruct (decide (k0 = k)) as [->|Hne]; cbn.
  - destruct (decide (k = k')) as [->|]; [by apply map_get_in | done].
  - rewrite IH by done. destruct (decide (k0 = k')) as [->|]; [| done].
    by destruct (decide (k = k')).
Qed.

Lemma map_set_nodup {V} (m : nmap V) k v : NoDup m.*1 -> NoDup (map_set m k v).*1.
Proof.
  intros Hnd. destruct (map_get m k) eqn:Hk.
  - by rewrite map_set_present by eauto.
  - rewrite map_set_absent by done. rewrite fmap_app. cbn.
    apply NoDup_app. split; [done |]. split; [| apply NoDup_singleton].
    intros x Hx. apply map_get_in in Hk. set_solver.
Qed.

Lemma map_set_bigint (m : nmap jsval) k z :
  forallb is_bigint m.*2 = true -> forallb is_bigint (map_set m k (JBigInt z)).*2 = true.
Proof.
  induction m as [|[k0 v0] m IH]; [done |]. cbn. intros [Hv Hm]%andb_true_iff.
  destruct (decide (k0 = k)); cbn; [done |]. rewrite Hv. by apply IH.
Qed.

Lemma map_get_bigint (m : nmap jsval) k v :
  forallb is_bigint m.*2 = true -> map_get m k = Some v -> exists z, v = JBigInt z.
Proof.
  induction m as [|[k0 v0] m IH]; cbn; [done |]. intros [Hv Hm]%andb_true_iff.
  destruct (decide (k0 = k)); [| by apply IH]. intros [= <-]. destruct v0; try done. by eexists.
Qed.

(** ** Tokens are immutable *)

Record wf (s : mstate) : Prop := {
  wf_fresh : forall t b, storage s !! t = Some b -> (t < next s)%nat;
  wf_keys : forall t b, storage s !! t = Some b -> NoDup (bm_values b).*1
}.

(** Every token of [s] stands for the same map in [s']. *)
Definition preserves (s s' : mstate) : Prop :=
  forall identities value m, backing identities value s = Done m -> backing identities value s' = Done m.

Section map_facts.
Context (identities : MapIdentities) (keyKind : KeyKind).

Lemma backing_nodup value s m : wf s -> backing identities value s = Done m -> NoDup m.*1.
Proof.
  intros Hw Hb. destruct value as [t|]; [| done]. cbn in Hb.
  destruct (storage s !! t) as [found|] eqn:Ht; [| done]. case_bool_decide; [| done].
  injection Hb as <-. by apply (wf_keys s Hw t).
Qed.

Lemma preserves_refl s : preserves s s.
Proof. by intros ???. Qed.

Lemma preserves_trans s1 s2 s3 : preserves s1 s2 -> preserves s2 s3 -> preserves s1 s3.
Proof. unfold preserves. eauto. Qed.

(** Publication: the new token stands for the values, the old ones are kept. *)
Lemma published_spec values s :
  wf s -> NoDup values.*1 ->
  exists token s', published identities values s = (ok token, s') /\ wf s' /\
    backing identities token s' = Done values /\ preserves s s' /\ next s' = S (next s).
Proof.
  intros [Hf Hk] Hnd. eexists _, _. split; [reflexivity |].
  split; [split; cbn | split; [| split]].
  - intros t b [[<- _]|[_ Ht]]%lookup_insert_Some; [lia |]. specialize (Hf t b Ht). lia.
  - intros t b [[_ <-]|[_ Ht]]%lookup_insert_Some; [done |]. by apply (Hk t).
  - cbn. rewrite lookup_insert_eq. cbn. by rewrite bool_decide_true.
  - intros ids value m Hb. destruct value as [t|]; [| done]. cbn in *.
    destruct (storage s !! t) as [found|] eqn:Ht; [| done]. specialize (Hf t found Ht).
    by rewrite lookup_insert_ne, Ht by lia.
  - done.
Qed.

(** What an operation that publishes promises about the map it answers. *)
Definition implements (s : mstate) (result : run (Completion operand * mstate))
    (keys : list Key) (f : Key -> option jsval) : Prop :=
  exists token s' m, result = Done (ok token, s') /\ wf s' /\ preserves s s' /\
    backing identities token s' = Done m /\ m.*1 = keys /\ forall k, map_get m k = f k.

Lemma published_implements s values :
  wf s -> NoDup values.*1 ->
  implements s (Done (published identities values s)) values.*1 (map_get values).
Proof.
  intros Hw Hnd. destruct (published_spec values s Hw Hnd) as (t & s' & -> & Hw' & Hb & Hp & _).
  by exists t, s', values.
Qed.

Lemma batch_loop_fold absent_ present keys builder map s :
  wf s -> backing identities map s = Done builder ->
  forallb is_bigint builder.*2 = true ->
  Forall (fun k => key_of keyKind (jsval_of_key k) = Some k) keys ->
  match batch_loop keys absent_ present builder with
  | Thrown f => fold_transitions identities keyKind absent_ present map keys s = Thrown f
  | Done final =>
      exists map' s', fold_transitions identities keyKind absent_ present map keys s
                      = Done (ok map', s') /\
        backing identities map' s' = Done final /\ preserves s s'
  end.
Proof.
  revert builder map s. induction keys as [|key keys IH]; intros builder map s Hw Hb Hz Hk.
  { exists map, s. split_and!; [done | done | apply preserves_refl]. }
  apply Forall_cons in Hk as [Hkey Hk].
  pose proof (backing_nodup map s builder Hw Hb) as Hnd.
  assert (forall z, exists t s', published identities (map_set builder key (JBigInt z)) s = (ok t, s')
            /\ wf s' /\ backing identities t s' = Done (map_set builder key (JBigInt z))
            /\ preserves s s') as Hpub.
  { intros z. destruct (published_spec (map_set builder key (JBigInt z)) s Hw)
      as (t & s' & H1 & H2 & H3 & H4 & _); [by apply map_set_nodup | eauto 10]. }
  cbn [batch_loop fold_transitions]. unfold transition, getBody, insertBody, replaceBody, checkKey.
  rewrite Hb, Hkey. cbn [run_bind]. unfold map_has.
  assert (forall (out : run Z),
    match run! o := out in batch_loop keys absent_ present (map_set builder key (JBigInt o)) with
    | Thrown f =>
        (run! o := out in
         match published identities (map_set builder key (JBigInt o)) s with
         | (ok map', s') => fold_transitions identities keyKind absent_ present map' keys s'
         | (domain f, s') => Done (domain f, s')
         | (standard f, s') => Done (standard f, s')
         end) = Thrown f
    | Done final =>
        exists map' s',
          (run! o := out in
           match published identities (map_set builder key (JBigInt o)) s with
           | (ok map', s') => fold_transitions identities keyKind absent_ present map' keys s'
           | (domain f, s') => Done (domain f, s')
           | (standard f, s') => Done (standard f, s')
           end) = Done (ok map', s') /\
          backing identities map' s' = Done final /\ preserves s s'
    end) as Hstep.
  { intros [o|f]; [| done]. cbn [run_bind].
    destruct (Hpub o) as (t & s' & Hpo & Hw' & Hb' & Hp). rewrite Hpo.
    specialize (IH _ t s' Hw' Hb' (map_set_bigint builder key o Hz) Hk).
    destruct (batch_loop keys absent_ present (map_set builder key (JBigInt o))); [| done].
    destruct IH as (map' & s'' & Hf & Hb'' & Hp'). exists map', s''.
    split_and!; [done | done | by eapply preserves_trans]. }
  destruct (map_get builder key) as [v|] eqn:Hg.
  - destruct (map_get_bigint builder key v Hz Hg) as [z ->]. cbn [run_bind].
    rewrite bool_decide_true by eauto. cbn [negb].
    specialize (Hstep (present key z)). by destruct (present key z).
  - cbn [run_bind]. rewrite bool_decide_false by (intros [? ?]; done).
    specialize (Hstep (absent_ key)). by destruct (absent_ key).
Qed.
End map_facts.

(** Immutable maps implement finite maps: on a map with the given contents,
    [insert], [replace] and [remove] answer exactly the failures of a present or
    an absent key, and otherwise publish a new token whose entries are the old
    ones updated at the key (a new key last, the others in place); every map
    made before keeps its contents. *)
Theorem map_operations (ids : MapIdentities) (kind : KeyKind) (s : mstate) (map : operand)
    (key value : jsval) (m : nmap jsval) (k : Key)
    (Hs : wf s) (Hb : backing ids map s = Done m) (Hk : key_of kind key = Some k) :
  match map_get m k with
  | None =>
      getBody ids kind map key s = Done (error (absent ids)) /\
      implements ids s (insertBody ids kind map key value s) (m.*1 ++ [k])
        (fun k' => if decide (k = k') then Some value else map_get m k') /\
      replaceBody ids kind map key value s = Done (error (absent ids), s) /\
      remove ids kind map key s = Done (error (absent ids), s)
  | Some v =>
      getBody ids kind map key s = Done (ok v) /\
      insertBody ids kind map key value s = Done (error (exists_ ids), s) /\
      implements ids s (replaceBody ids kind map key value s) m.*1
        (fun k' => if decide (k = k') then Some value else map_get m k') /\
      implements ids s (remove ids kind map key s) (filter (fun k' => k' <> k) m.*1)
        (fun k' => if decide (k = k') then None else map_get m k')
  end.
Proof.
  pose proof (backing_nodup ids map s m Hs Hb) as Hnd.
  pose proof (published_implements ids s (map_set m k value) Hs (map_set_nodup m k value Hnd)) as Hset.
  unfold getBody, insertBody, replaceBody, remove, checkKey, map_has. rewrite Hb, Hk.
  cbn [run_bind]. destruct (map_get m k) as [v|] eqn:Hg.
  - rewrite bool_decide_true by eauto. cbn [negb]. split_and!; [done | done | |].
    + destruct Hset as (t & s' & m' & H1 & H2 & H3 & H4 & H5 & H6).
      exists t, s', m'. split_and!; try done; [by rewrite H5, map_set_present by eauto |].
      intros k'. by rewrite H6, map_get_set.
    + assert (NoDup (map_delete m k).*1) as Hnd'.
      { rewrite map_delete_keys by done. by apply NoDup_filter. }
      destruct (published_implements ids s (map_delete m k) Hs Hnd')
        as (t & s' & m' & H1 & H2 & H3 & H4 & H5 & H6).
      exists t, s', m'. split_and!; try done; [by rewrite H5, map_delete_keys by done |].
      intros k'. by rewrite H6, map_get_delete.
  - rewrite bool_decide_false by (intros [? ?]; done). cbn [negb]. split_and!; [done | | done | done].
    destruct Hset as (t & s' & m' & H1 & H2 & H3 & H4 & H5 & H6).
    exists t, s', m'. split_and!; try done.
    + rewrite H5, map_set_absent by done. by rewrite fmap_app.
    + intros k'. by rewrite H6, map_get_set.
Qed.

(** The batch runner is the fold it replaces: on keys of the map's kind it
    declines exactly foreign or non-integer maps, fails exactly when a
    transition throws, and otherwise publishes at most one token whose contents
    are those of folding [get], [insert] and [replace] key by key. *)
Theorem batch_equals_fold (ids : MapIdentities) (kind : KeyKind) (s : mstate)
    (initial : operand) (keys : list Key) (absent_ : Key -> run Z) (present : Key -> Z -> run Z)
    (Hs : wf s) (Hk : Forall (fun k => key_of kind (jsval_of_key k) = Some k) keys) :
  match runBatch ids initial keys absent_ present s with
  | None =>
      (exists f, backing ids initial s = Thrown f) \/
      (exists m, backing ids initial s = Done m /\ forallb is_bigint m.*2 = false)
  | Some (ok token, s') =>
      exists token' s'' m,
        fold_transitions ids kind absent_ present initial keys s = Done (ok token', s'') /\
        backing ids token s' = Done m /\ backing ids token' s'' = Done m /\
        preserves s s' /\ (next s' <= S (next s))%nat
  | Some (standard f, s') =>
      s' = s /\ fold_transitions ids kind absent_ present initial keys s = Thrown f
  | Some (domain _, _) => False
  end.
Proof.
  unfold runBatch. destruct (backing ids initial s) as [m|f] eqn:Hb; [| left; by exists f].
  destruct (forallb is_bigint m.*2) eqn:Hz; cbn [negb]; [| right; by exists m].
  case_bool_decide as Hnil.
  - subst keys. exists initial, s, m. split_and!; try done; [apply preserves_refl | lia].
  - pose proof (batch_loop_fold ids kind absent_ present keys m initial s Hs Hb Hz Hk) as Hl.
    pose proof (backing_nodup ids initial s m Hs Hb) as Hnd.
    destruct (batch_loop keys absent_ present m) as [final|f] eqn:Hloop; [| done].
    destruct Hl as (t' & s'' & Hf & Hb' & _).
    assert (NoDup final.*1) as Hnd'.
    { clear -Hnd Hloop. revert m Hnd Hloop. induction keys as [|key keys IH]; intros m Hnd Hl.
      - cbn in Hl. congruence.
      - cbn in Hl. destruct (map_get m key) as [[]|]; try (injection Hl as <-; done).
        + destruct (present key z) as [o|]; [| done]. cbn in Hl.
          by apply (IH _ (map_set_nodup m key _ Hnd) Hl).
        + destruct (absent_ key) as [o|]; [| done]. cbn in Hl.
          by apply (IH _ (map_set_nodup m key _ Hnd) Hl). }
    destruct (published_spec ids final s Hs Hnd') as (t & s' & -> & _ & Hbt & Hp & Hn).
    exists t', s'', final. split_and!; try done. lia.
Qed.

(** *** A concrete word count *)
Module Words.
Definition ids : MapIdentities := mkMapIdentities (js "m") (js "e") (js "absent") (js "exists").
Definition s0 : mstate := mkM 0 ∅ ∅.
Definition s1 : mstate := Eval vm_compute in (published ids [(KStr (js "a"), JBigInt 1)] s0).2.
Definition one (k : Key) : run Z := Done 1.
Definition bump (k : Key) (n : Z) : run Z := Done (n + 1).
Definition words : list Key := [KStr (js "b"); KStr (js "a"); KStr (js "b")].
End Words.

Lemma Words_wf : wf Words.s1.
Proof.
  split; intros t b Hb; change (storage Words.s1) with
    (<[0%nat := mkBackingMap (js "m") [(KStr (js "a"), JBigInt 1)]]> (∅ : gmap nat backing_map)) in Hb;
    apply lookup_insert_Some in Hb as [[<- <-]|[_ Hb]]; try (by rewrite lookup_empty in Hb).
  - cbn. lia.
  - apply NoDup_singleton.
Defined.

Lemma map_operations_witness :
  implements Words.ids Words.s1
    (replaceBody Words.ids str_key (Token 0) (JStr (js "a")) (JBigInt 7) Words.s1)
    [KStr (js "a")]
    (fun k' => if decide (KStr (js "a") = k') then Some (JBigInt 7)
               else map_get [(KStr (js "a"), JBigInt 1)] k').
Proof.
  exact (proj1 (proj2 (proj2
    (map_operations Words.ids str_key Words.s1 (Token 0) (JStr (js "a")) (JBigInt 7)
       [(KStr (js "a"), JBigInt 1)] (KStr (js "a")) Words_wf eq_refl eq_refl)))).
Defined.

Lemma batch_equals_fold_witness :
  exists token' s'' m,
    fold_transitions Words.ids str_key Words.one Words.bump (Token 0) Words.words Words.s1
      = Done (ok token', s'') /\
    backing Words.ids token' s'' = Done m /\
    m = [(KStr (js "a"), JBigInt 2); (KStr (js "b"), JBigInt 2)].
Proof.
  assert (Forall (fun k => key_of str_key (jsval_of_key k) = Some k) Words.words) as Hk
    by (repeat constructor).
  pose proof (batch_equals_fold Words.ids str_key Words.s1 (Token 0) Words.words Words.one
                Words.bump Words_wf Hk) as H.
  vm_compute in H. destruct H as (t & s & m & H1 & H2 & H3 & _).
  exists t, s, m. split; [exact H1 | split; [exact H3 |]]. injection H2 as <-. reflexivity.
Defined.

(** ** Sets *)

Record set_wf (s : sstate) : Prop := {
  swf_fresh : forall t b, s_storage s !! t = Some b -> (t < s_next s)%nat;
  swf_nodup : forall t b, s_storage s !! t = Some b -> NoDup (bs_values b)
}.

Definition set_preserves (s s' : sstate) : Prop :=
  forall id value a, set_backing id value s = Done a -> set_backing id value s' = Done a.

(** A new token that stands for a set with these members, each kept once. *)
Definition set_implements (id : jstr) (s : sstate)
    (result : run (Completion operand * sstate)) (member : Key -> bool) : Prop :=
  exists token s' a, result = Done (ok token, s') /\ set_wf s' /\ set_preserves s s' /\
    set_backing id token s' = Done a /\ NoDup a /\ forall k, set_has a k = member k.

Lemma set_has_spec a k : set_has a k = true <-> k ∈ a.
Proof. unfold set_has. by rewrite bool_decide_eq_true. Qed.

Lemma set_has_iff a k (P : Prop) `{!Decision P} : (k ∈ a <-> P) -> set_has a k = bool_decide P.
Proof. intros H. unfold set_has. by apply bool_decide_ext. Qed.

Lemma set_add_elem a k k' : k' ∈ set_add a k <-> k' = k \/ k' ∈ a.
Proof.
  unfold set_add. destruct (set_has a k) eqn:Hk.
  - apply set_has_spec in Hk. set_solver.
  - rewrite elem_of_app, list_elem_of_singleton. tauto.
Qed.

Lemma set_add_nodup a k : NoDup a -> NoDup (set_add a k).
Proof.
  intros Hnd. unfold set_add. destruct (set_has a k) eqn:Hk; [done |].
  apply NoDup_app. split; [done |]. split; [| apply NoDup_singleton].
  intros x Hx ->%list_elem_of_singleton. apply set_has_spec in Hx. congruence.
Qed.

Lemma set_union_elem b a k : k ∈ set_union a b <-> k ∈ a \/ k ∈ b.
Proof.
  unfold set_union. revert a. induction b as [|x b IH]; intros a; cbn [fold_left].
  - set_solver.
  - rewrite IH, set_add_elem, elem_of_cons. tauto.
Qed.

Lemma set_union_nodup b a : NoDup a -> NoDup (set_union a b).
Proof.
  unfold set_union. revert a. induction b as [|x b IH]; intros a Ha; cbn [fold_left]; [done |].
  by apply IH, set_add_nodup.
Qed.

Lemma set_published_spec id values s member :
  set_wf s -> NoDup values -> (forall k, set_has values k = member k) ->
  set_implements id s (Done (set_published id values s)) member.
Proof.
  intros [Hf Hn] Hnd Hm. eexists _, _, values. split; [reflexivity |].
  split; [split; cbn | split; [| split; [| done]]].
  - intros t b [[<- _]|[_ Ht]]%lookup_insert_Some; [lia |]. specialize (Hf t b Ht). lia.
  - intros t b [[_ <-]|[_ Ht]]%lookup_insert_Some; [done |]. by apply (Hn t).
  - intros id' value a Hb. destruct value as [t|]; [| done]. cbn in *.
    destruct (s_storage s !! t) as [found|] eqn:Ht; [| done]. specialize (Hf t found Ht).
    by rewrite lookup_insert_ne, Ht by lia.
  - cbn. rewrite lookup_insert_eq. cbn. by rewrite bool_decide_true.
Qed.

Lemma set_backing_nodup id value s a : set_wf s -> set_backing id value s = Done a -> NoDup a.
Proof.
  intros Hw Hb. destruct value as [t|]; [| done]. cbn in Hb.
  destruct (s_storage s !! t) as [found|] eqn:Ht; [| done]. case_bool_decide; [| done].
  injection Hb as <-. by apply (swf_nodup s Hw t).
Qed.

(** Immutable sets implement finite sets: [add], [union], [intersection] and
    [difference] publish a new token with exactly the members of the operation,
    each once, and every set made before keeps its members; [contains] tests
    membership. *)
Theorem set_operations (id : jstr) (kind : KeyKind) (s : sstate) (left right : operand)
    (a b : nset) (key : jsval) (k : Key)
    (Hs : set_wf s) (Ha : set_backing id left s = Done a) (Hb : set_backing id right s = Done b)
    (Hk : key_of kind key = Some k) :
  contains id kind left key s = Done (ok (set_has a k)) /\
  set_implements id s (add id kind left key s) (fun k' => bool_decide (k' = k) || set_has a k') /\
  set_implements id s (union id left right s) (fun k' => set_has a k' || set_has b k') /\
  set_implements id s (intersection id left right s) (fun k' => set_has a k' && set_has b k') /\
  set_implements id s (difference id left right s)
    (fun k' => set_has a k' && negb (set_has b k')).
Proof.
  pose proof (set_backing_nodup id left s a Hs Ha) as Hna.
  unfold contains, add, union, intersection, difference, checkKey. rewrite Ha, Hb, Hk.
  cbn [run_bind]. split_and!; [done | apply set_published_spec.. ]; try done.
  - by apply set_add_nodup.
  - intros k'. rewrite (set_has_iff _ _ (k' = k \/ k' ∈ a)) by apply set_add_elem.
    by rewrite bool_decide_or.
  - by apply set_union_nodup.
  - intros k'. rewrite (set_has_iff _ _ (k' ∈ a \/ k' ∈ b)) by apply set_union_elem.
    by rewrite bool_decide_or.
  - by apply NoDup_filter.
  - intros k'. rewrite (set_has_iff _ _ (k' ∈ a /\ k' ∈ b)).
    + by rewrite bool_decide_and.
    + rewrite list_elem_of_filter, set_has_spec. tauto.
  - by apply NoDup_filter.
  - intros k'. rewrite (set_has_iff _ _ (k' ∈ a /\ k' ∉ b)).
    + by rewrite bool_decide_and, bool_decide_not.
    + unfold set_difference. rewrite list_elem_of_filter. tauto.
Qed.

Lemma set_operations_witness :
  let s := mkS 2 {[0%nat := mkBackingSet (js "s") [KInt 1; KInt 2];
                   1%nat := mkBackingSet (js "s") [KInt 2; KInt 3]]} in
  set_backing (js "s") (Token 0) s = Done [KInt 1; KInt 2] /\
  set_implements (js "s") s (union (js "s") (Token 0) (Token 1) s)
    (fun k' => set_has [KInt 1; KInt 2] k' || set_has [KInt 2; KInt 3] k').
Proof.
  intros s. split; [reflexivity |].
  assert (set_wf s) as Hw.
  { split; intros t b Hb; unfold s in Hb; cbn [s_storage] in Hb;
      apply lookup_insert_Some in Hb as [[<- <-]|[_ Hb]];
      try (apply lookup_singleton_Some in Hb as [<- <-]); cbn; try lia;
      repeat (constructor; [rewrite ?elem_of_cons, ?elem_of_nil; intros H;
                            repeat (destruct H as [H|H]; [discriminate H |]); inversion H |]);
      constructor. }
  exact (proj1 (proj2 (proj2 (set_operations (js "s") int_key s (Token 0) (Token 1)
    [KInt 1; KInt 2] [KInt 2; KInt 3] (JBigInt 1) (KInt 1) Hw eq_refl eq_refl eq_refl)))).
Defined.
