(* ===== verification/Owner.v ===== *)
(** * Ownership of resources ([owner-core.ts])

    Scopes, resources with leases, owned groups of tasks, guarded callbacks and
    the draining of scopes, of one root.  The objects of the code are entries of
    lists and named by their index; a release closure is a lease entry with its
    [released] flag.  Each synchronous section between two awaits is one
    operation; what an await waits for is the guard of the operation after it. *)
From stdpp Require Import base gmap list strings.
From Stdlib Require Import ZArith Lia.
From S2P Require Import Prelude Completion.

Inductive State : Type := open | closing | closed.

#[global] Instance State_eq_dec : EqDecision State.
Proof. solve_decision. Defined.

Record ScopeState : Type := mkScope {
  exitReleases : list nat;
  parent : option nat;
  sc_state : State;
  base : nat
}.

(** Where the promise [closing] of a resource is: [beginClose] was not called, it
    waits for leases, the native close runs, or it settled ([ok] or not). *)
Inductive Phase : Type := NotStarted | Waiting | Running | Finished (success : bool).

Record ResourceState : Type := mkResource {
  rs_kind : string;
  rs_scope : nat;
  rs_state : State;
  leases : gmap nat Z;
  idempotent : bool;
  scopeManaged : bool;
  shutdownMs : option Z;
  timer : bool;
  autoPending : bool;
  rs_cleanup : option nat;
  creator : option nat;
  initialRelease : option nat;
  phase : Phase
}.

(** A release closure of [acquire]. *)
Record Lease : Type := mkLease { le_resource : nat; le_owner : nat; released : bool }.

(** [kind] of a completion, with the occurrence of a standard failure. *)
Inductive outcome : Type := OutOk | OutDomain | OutStandard (occurrence : nat).

#[global] Instance outcome_eq_dec : EqDecision outcome.
Proof. solve_decision. Defined.

Record Task : Type := mkTask {
  tk_scope : nat;
  dynamic : list nat;
  tk_release : list nat;
  tk_completion : option outcome
}.

Record Group : Type := mkGroup {
  gr_scope : nat;
  gr_tasks : list nat;
  sealed : bool;
  selected : list nat;
  pending : Z
}.

(** A call of [drain] past its first loop: the snapshot of resources it still has
    to look at, the resource whose close it awaits, and its first failure. *)
Record Drain : Type := mkDrain {
  dr_scope : nat;
  dr_queue : list nat;
  dr_waiting : option nat;
  dr_first : option nat
}.

Inductive event : Type :=
| Used (resource : nat)                       (* the operation got the native handle *)
| CloseCalled (resource : nat)                (* the native close was called *)
| Emitted (occurrence : nat) (late : bool).   (* a diagnostic was delivered *)

Record root : Type := mkRoot {
  scopes : list ScopeState;
  resources : list ResourceState;
  all_leases : list Lease;
  tasks : list Task;
  groups : list Group;
  live_groups : list nat;
  callbacks : list nat;
  uses : list (nat * nat);          (* running uses: resource and lease *)
  drains : list Drain;
  fresh_owner : nat;
  next_occurrence : nat;
  reported : list nat;
  failed : bool;
  trace : list event
}.

Record Execution : Type := mkExecution {
  x_scope : nat;
  x_owner : option nat;
  x_task : option nat
}.

(** ** State passing with exceptions: changes made before a throw stay *)
Definition M (A : Type) : Type := root -> run A * root.

Definition ret {A} (a : A) : M A := fun s => (Done a, s).
Definition bind {A B} (m : M A) (k : A -> M B) : M B :=
  fun s => match m s with
           | (Done a, s') => k a s'
           | (Thrown f, s') => (Thrown f, s')
           end.
Definition get : M root := fun s => (Done s, s).
Definition put (s : root) : M unit := fun _ => (Done tt, s).

Notation "'do!' x ':=' c1 'in' c2" := (bind c1 (fun x => c2))
  (at level 10, x pattern, c1 at level 100, c2 at level 200) : res_scope.

Definition invalid {A} : M A :=
  fun s => (Thrown (mkStandard resource_state "resource_state: invalid resource use" "can:owner"), s).

(** ** Field updates *)
Definition with_scopes (s : root) v := mkRoot v (resources s) (all_leases s) (tasks s) (groups s)
  (live_groups s) (callbacks s) (uses s) (drains s) (fresh_owner s) (next_occurrence s)
  (reported s) (failed s) (trace s).
Definition with_resources (s : root) v := mkRoot (scopes s) v (all_leases s) (tasks s) (groups s)
  (live_groups s) (callbacks s) (uses s) (drains s) (fresh_owner s) (next_occurrence s)
  (reported s) (failed s) (trace s).
Definition with_leases (s : root) v := mkRoot (scopes s) (resources s) v (tasks s) (groups s)
  (live_groups s) (callbacks s) (uses s) (drains s) (fresh_owner s) (next_occurrence s)
  (reported s) (failed s) (trace s).
Definition with_tasks (s : root) v := mkRoot (scopes s) (resources s) (all_leases s) v (groups s)
  (live_groups s) (callbacks s) (uses s) (drains s) (fresh_owner s) (next_occurrence s)
  (reported s) (failed s) (trace s).
Definition with_groups (s : root) v lv := mkRoot (scopes s) (resources s) (all_leases s) (tasks s) v
  lv (callbacks s) (uses s) (drains s) (fresh_owner s) (next_occurrence s)
  (reported s) (failed s) (trace s).
Definition with_callbacks (s : root) v := mkRoot (scopes s) (resources s) (all_leases s) (tasks s)
  (groups s) (live_groups s) v (uses s) (drains s) (fresh_owner s) (next_occurrence s)
  (reported s) (failed s) (trace s).
Definition with_uses (s : root) v := mkRoot (scopes s) (resources s) (all_leases s) (tasks s)
  (groups s) (live_groups s) (callbacks s) v (drains s) (fresh_owner s) (next_occurrence s)
  (reported s) (failed s) (trace s).
Definition with_drains (s : root) v := mkRoot (scopes s) (resources s) (all_leases s) (tasks s)
  (groups s) (live_groups s) (callbacks s) (uses s) v (fresh_owner s) (next_occurrence s)
  (reported s) (failed s) (trace s).
Definition with_owner (s : root) v := mkRoot (scopes s) (resources s) (all_leases s) (tasks s)
  (groups s) (live_groups s) (callbacks s) (uses s) (drains s) v (next_occurrence s)
  (reported s) (failed s) (trace s).
Definition with_report (s : root) n r f t := mkRoot (scopes s) (resources s) (all_leases s) (tasks s)
  (groups s) (live_groups s) (callbacks s) (uses s) (drains s) (fresh_owner s) n r f t.
Definition with_event (s : root) e :=
  with_report s (next_occurrence s) (reported s) (failed s) (trace s ++ [e]).

Definition set_resource (r : nat) (v : ResourceState) : M unit :=
  fun s => (Done tt, with_resources s (<[r := v]> (resources s))).

Definition set_scope_state (v : ScopeState) (st : State) : ScopeState :=
  mkScope (exitReleases v) (parent v) st (base v).

Definition upd_resource (v : ResourceState) (st : State) (ls : gmap nat Z) (tm au : bool)
    (cl : option nat) (ph : Phase) : ResourceState :=
  mkResource (rs_kind v) (rs_scope v) st ls (idempotent v) (scopeManaged v) (shutdownMs v) tm au cl
    (creator v) (initialRelease v) ph.

Definition set_leases (v : ResourceState) (ls : gmap nat Z) : ResourceState :=
  upd_resource v (rs_state v) ls (timer v) (autoPending v) (rs_cleanup v) (phase v).

Definition set_cleanup (v : ResourceState) (cl : nat) : ResourceState :=
  upd_resource v (rs_state v) (leases v) (timer v) (autoPending v) (Some cl) (phase v).

Definition set_timer (v : ResourceState) (tm : bool) : ResourceState :=
  upd_resource v (rs_state v) (leases v) tm (autoPending v) (rs_cleanup v) (phase v).

(** ** Scopes *)

(** The loop over [at.parent]; the chain is no longer than the scopes made. *)
Fixpoint inside_from (fuel : nat) (scopes : list ScopeState) (at_ : nat) (ancestor : nat) : bool :=
  if (at_ =? ancestor)%nat then true
  else match fuel with
       | O => false
       | S fuel' =>
           match (scopes !! at_) ≫= parent with
           | None => false
           | Some p => inside_from fuel' scopes p ancestor
           end
       end.

Definition inside (s : root) (scope ancestor : nat) : bool :=
  inside_from (length (scopes s)) (scopes s) scope ancestor.

Definition scope_state (s : root) (i : nat) : State :=
  match scopes s !! i with Some v => sc_state v | None => closed end.

Definition scope_base (s : root) (i : nat) : nat :=
  match scopes s !! i with Some v => base v | None => 0%nat end.

(** [requireContext]: a token's execution while its scope is not closed. *)
Definition requireContext (current : Execution) : M unit :=
  do! s := get in
  if bool_decide (scope_state s (x_scope current) = closed) then invalid else ret tt.

(** ** Diagnostics *)

(** [emit]: each occurrence is delivered once. *)
Definition emit (occurrence : nat) (late : bool) : M unit :=
  do! s := get in
  if bool_decide (occurrence ∈ reported s) then ret tt
  else put (with_report s (next_occurrence s) (occurrence :: reported s) (failed s)
              (trace s ++ [Emitted occurrence late])).

Definition cleanup : M nat :=
  do! s := get in
  let occurrence := next_occurrence s in
  do! _ := put (with_report s (S occurrence) (reported s) true (trace s)) in
  do! _ := emit occurrence false in
  ret occurrence.

(** ** Leases *)

(** [resource(value, kind)]; [None] stands for no kind asked for. *)
Definition resource (r : nat) (kind : option string) : M ResourceState :=
  do! s := get in
  match resources s !! r with
  | None => invalid
  | Some state =>
      match kind with
      | Some k => if bool_decide (rs_kind state = k) then ret state else invalid
      | None => ret state
      end
  end.

Definition validateScope (state : ResourceState) (current : Execution) : M unit :=
  do! s := get in
  if negb (inside s (x_scope current) (rs_scope state))
     || bool_decide (scope_state s (rs_scope state) = closed)
  then invalid else ret tt.

Definition owner_of (s : root) (current : Execution) : nat :=
  default (scope_base s (x_scope current)) (x_owner current).

Definition has_lease (v : ResourceState) (owner : nat) : bool :=
  bool_decide (is_Some (leases v !! owner)).

Definition acquire (r : nat) (current : Execution) : M nat :=
  do! state := resource r None in
  do! _ := validateScope state current in
  do! s := get in
  let owner := owner_of s current in
  if bool_decide (rs_state state = closed)
     || (bool_decide (rs_state state = closing) && negb (has_lease state owner))
     || (bool_decide (scope_state s (rs_scope state) = closing) && negb (has_lease state owner))
  then invalid
  else
    do! _ := set_resource r
               (set_leases state (<[owner := default 0 (leases state !! owner) + 1]> (leases state))) in
    do! s := get in
    do! _ := put (with_leases s (all_leases s ++ [mkLease r owner false])) in
    ret (length (all_leases s)).

(** The closure [acquire] returns. *)
Definition release (l : nat) : M unit :=
  do! s := get in
  match all_leases s !! l with
  | None => invalid
  | Some lease =>
      if released lease then invalid
      else
        do! _ := put (with_leases s
                   (<[l := mkLease (le_resource lease) (le_owner lease) true]> (all_leases s))) in
        do! state := resource (le_resource lease) None in
        let count := default 0 (leases state !! le_owner lease) in
        set_resource (le_resource lease)
          (set_leases state
             (if count =? 1 then delete (le_owner lease) (leases state)
              else <[le_owner lease := count - 1]> (leases state)))
  end.

(** The [once] wrapper of an initial lease. *)
Definition release_once (l : nat) : M unit :=
  do! s := get in
  match all_leases s !! l with
  | Some lease => if released lease then ret tt else release l
  | None => ret tt
  end.

Fixpoint each {A} (f : A -> M unit) (ls : list A) : M unit :=
  match ls with
  | [] => ret tt
  | l :: rest => do! _ := f l in each f rest
  end.

(** The loop of [retain] over the captured resources, with the leases taken. *)
Fixpoint retain_from (captured : list nat) (current : Execution) (taken : list nat) :
    M (list nat) :=
  match captured with
  | [] => ret taken
  | r :: rest =>
      fun s =>
        match acquire r current s with
        | (Done l, s') => retain_from rest current (l :: taken) s'
        | (Thrown f, s') =>
            match each release taken s' with
            | (Done _, s'') => (Thrown f, s'')
            | (Thrown g, s'') => (Thrown g, s'')
            end
        end
  end.

(** [retain]: the leases in release order (the last taken first); a failed
    acquisition gives back those already taken. *)
Definition retain (captured : list nat) (current : Execution) : M (list nat) :=
  retain_from captured current [].

(** ** Resources *)

Record RegisterOptions : Type := mkOptions {
  opt_idempotent : bool;
  opt_scopeManaged : bool;
  opt_shutdown : option Z
}.

Definition add_task_dynamic (t l : nat) : M unit :=
  fun s => (Done tt,
    match tasks s !! t with
    | None => s
    | Some task =>
        with_tasks s (<[t := mkTask (tk_scope task) (dynamic task ++ [l]) (tk_release task)
                             (tk_completion task)]> (tasks s))
    end).

Definition add_exit_release (sc l : nat) : M unit :=
  fun s => (Done tt,
    match scopes s !! sc with
    | None => s
    | Some v => with_scopes s (<[sc := mkScope (exitReleases v ++ [l]) (parent v) (sc_state v)
                                        (base v)]> (scopes s))
    end).

Definition set_creator (r t l : nat) : M unit :=
  fun s => (Done tt,
    match resources s !! r with
    | None => s
    | Some v =>
        with_resources s (<[r := mkResource (rs_kind v) (rs_scope v) (rs_state v) (leases v)
          (idempotent v) (scopeManaged v) (shutdownMs v) (timer v) (autoPending v) (rs_cleanup v)
          (Some t) (Some l) (phase v)]> (resources s))
    end).

Definition registerResourceCore (current : Execution) (kind : string) (options : RegisterOptions) :
    M nat :=
  do! s := get in
  if bool_decide (kind = ""%string) || negb (bool_decide (scope_state s (x_scope current) = open))
  then invalid
  else if match opt_shutdown options with Some ms => ms <? 0 | None => false end then
    fun s => (Thrown (mkStandard native_exception
                        "TypeError: invalid registered shutdown deadline" "can:owner"), s)
  else
    let r := length (resources s) in
    do! _ := put (with_resources s (resources s ++
      [mkResource kind (x_scope current) open ∅ (opt_idempotent options)
         (opt_scopeManaged options) (opt_shutdown options) false false None None None NotStarted])) in
    match x_task current with
    | None => ret r
    | Some t =>
        do! l := acquire r current in
        do! _ := set_creator r t l in
        do! _ := add_task_dynamic t l in
        do! s := get in
        if bool_decide (tk_scope <$> tasks s !! t = Some (x_scope current)) then ret r
        else do! _ := add_exit_release (x_scope current) l in ret r
    end.

(** [useResourceCore] up to the operation, and its [finally]. *)
Definition use_begin (current : Execution) (r : nat) (kind : string) : M nat :=
  do! _ := resource r (Some kind) in
  do! l := acquire r current in
  do! s := get in
  do! _ := put (with_event (with_uses s ((r, l) :: uses s)) (Used r)) in
  ret l.

Definition use_end (r l : nat) : M unit :=
  do! s := get in
  if bool_decide ((r, l) ∈ uses s) then
    do! _ := put (with_uses s (filter (fun u => u <> (r, l)) (uses s))) in
    release l
  else ret tt.

(** [beginClose] up to its first await. *)
Definition beginClose (r : nat) : M unit :=
  do! state := resource r None in
  set_resource r (upd_resource state closing (leases state) (timer state) false
                    (rs_cleanup state) Waiting).

(** The end of [while (state.leases.size) await changed(root)] and the call of the
    native close. *)
Definition close_call (r : nat) : M unit :=
  do! state := resource r None in
  match phase state with
  | Waiting =>
      if bool_decide (leases state = ∅) then
        do! _ := set_resource r (upd_resource state (rs_state state) (leases state) (timer state)
                                   (autoPending state) (rs_cleanup state) Running) in
        do! s := get in
        put (with_event s (CloseCalled r))
      else ret tt
  | _ => ret tt
  end.

(** The native close settled. *)
Definition close_settled (r : nat) (success : bool) : M unit :=
  do! state := resource r None in
  match phase state with
  | Running =>
      if success then
        set_resource r (mkResource (rs_kind state) (rs_scope state) closed (leases state)
          (idempotent state) (scopeManaged state) (shutdownMs state) false (autoPending state)
          (rs_cleanup state) None None (Finished true))
      else
        do! occurrence := cleanup in
        set_resource r (upd_resource state (rs_state state) (leases state) false
                          (autoPending state) (Some occurrence) (Finished false))
  | _ => ret tt
  end.

Definition closeResourceCore (current : Execution) (r : nat) (kind : string)
    (deadline : option Z) : M unit :=
  do! state := resource r (Some kind) in
  do! _ := validateScope state current in
  if negb (bool_decide (rs_state state = open)) && negb (idempotent state) then invalid
  else if match deadline with Some ms => ms <? 0 | None => false end then
    fun s => (Thrown (mkStandard native_exception "TypeError: invalid close deadline" "can:owner"), s)
  else
    do! _ := (match initialRelease state with
              | Some l =>
                  if bool_decide (creator state = x_task current) then release_once l else ret tt
              | None => ret tt
              end) in
    match phase state with
    | NotStarted => beginClose r
    | _ => ret tt
    end.

(** The timer of a close deadline. *)
Definition close_deadline (r : nat) : M unit :=
  do! state := resource r None in
  do! occurrence := cleanup in
  set_resource r (set_cleanup state occurrence).

(** ** Owned groups *)

(** The retention loop of [prepareLaunch], with the releases prepared so far (the
    last participant first). *)
Fixpoint retain_all (participants : list (list nat)) (child : Execution)
    (retained : list (list nat)) : M (list (list nat)) :=
  match participants with
  | [] => ret (rev retained)
  | captured :: rest =>
      fun s =>
        match retain captured child s with
        | (Done ls, s') => retain_all rest child (ls :: retained) s'
        | (Thrown f, s') =>
            match each (each release) retained s' with
            | (Done _, s'') => (Thrown f, s'')
            | (Thrown g, s'') => (Thrown g, s'')
            end
        end
  end.

Definition task_running (s : root) (t : option nat) : bool :=
  match t with
  | Some t => bool_decide (tk_completion <$> tasks s !! t = Some None)
  | None => false
  end.

(** [prepareLaunch]: nothing runs before every capture of every participant is
    leased to the group's owner. *)
Definition prepareLaunch (current : Execution) (participants : list (list nat)) (native : bool) :
    M nat :=
  do! s := get in
  if negb (bool_decide (scope_state s (x_scope current) = open))
     && negb (native && task_running s (x_task current))
  then invalid
  else
    let own := match x_owner current with
               | Some o => if native then (o, fresh_owner s) else (fresh_owner s, S (fresh_owner s))
               | None => (fresh_owner s, S (fresh_owner s))
               end in
    do! _ := put (with_owner s own.2) in
    let child := mkExecution (x_scope current) (Some own.1) (x_task current) in
    do! retained := retain_all participants child [] in
    do! s := get in
    let first := length (tasks s) in
    let g := length (groups s) in
    do! _ := put (with_tasks s (tasks s
               ++ ((fun ls => mkTask (x_scope current) [] ls None) <$> retained))) in
    do! s := get in
    do! _ := put (with_groups s
               (groups s ++ [mkGroup (x_scope current) (seq first (length participants)) false []
                               (Z.of_nat (length participants))])
               (g :: live_groups s)) in
    ret g.

(** [observeLaunched]: an unselected standard failure is reported late. *)
Definition observeLaunched (group : Group) (index : nat) : M unit :=
  do! s := get in
  match mbind tk_completion (mbind (fun t : nat => tasks s !! t) (gr_tasks group !! index)) with
  | Some (OutStandard occurrence) =>
      if bool_decide (index ∈ selected group) then ret tt else emit occurrence true
  | _ => ret tt
  end.

Definition finishLaunched (g : nat) (index : option nat) : M unit :=
  do! s := get in
  match groups s !! g with
  | None => ret tt
  | Some group =>
      if negb (sealed group) then ret tt
      else
        do! _ := (match index with
                  | None => each (observeLaunched group) (seq 0 (length (gr_tasks group)))
                  | Some i => observeLaunched group i
                  end) in
        if pending group =? 0 then
          do! s := get in put (with_groups s (groups s) (filter (fun x => x <> g) (live_groups s)))
        else ret tt
  end.

Definition set_group (g : nat) (v : Group) : M unit :=
  fun s => (Done tt, with_groups s (<[g := v]> (groups s)) (live_groups s)).

Definition set_task (t : nat) (v : Task) : M unit :=
  fun s => (Done tt, with_tasks s (<[t := v]> (tasks s))).

(** [settleLaunched]: the task's completion arrives (once per task). *)
Definition settleLaunched (g index : nat) (completion : outcome) : M unit :=
  do! s := get in
  match groups s !! g with
  | None => ret tt
  | Some group =>
      match gr_tasks group !! index with
      | None => ret tt
      | Some t =>
          match tasks s !! t with
          | Some (mkTask sc dyn rel None) =>
              do! _ := set_task t (mkTask sc dyn rel (Some completion)) in
              do! _ := each release rel in
              do! _ := each release_once dyn in
              do! _ := set_task t (mkTask sc [] rel (Some completion)) in
              do! _ := set_group g (mkGroup (gr_scope group) (gr_tasks group) (sealed group)
                                      (selected group) (pending group - 1)) in
              finishLaunched g (Some index)
          | _ => ret tt
          end
      end
  end.

(** [publish]. *)
Definition publish (g : nat) (chosen : list nat) : M unit :=
  do! s := get in
  match groups s !! g with
  | None => ret tt
  | Some group =>
      if sealed group || existsb (fun i => (length (gr_tasks group) <=? i)%nat) chosen then invalid
      else
        do! _ := set_group g (mkGroup (gr_scope group) (gr_tasks group) true chosen (pending group)) in
        finishLaunched g None
  end.

(** ** Child scopes and guarded callbacks *)

Definition createChildScope (current : Execution) : M nat :=
  do! s := get in
  if negb (bool_decide (scope_state s (x_scope current) = open)) then invalid
  else
    do! _ := put (with_owner (with_scopes s (scopes s
               ++ [mkScope [] (Some (x_scope current)) open (fresh_owner s)]))
               (S (fresh_owner s))) in
    ret (length (scopes s)).

(** [settleScopeBody] up to its drain. *)
Definition settleScopeBody (sc : nat) : M unit :=
  do! s := get in
  match scopes s !! sc with
  | None => ret tt
  | Some v =>
      do! _ := each release_once (exitReleases v) in
      fun s => (Done tt, with_scopes s
        (<[sc := mkScope [] (parent v) closing (base v)]> (scopes s)))
  end.

(** A dispatch of a callback guarded by a scope, up to the callback's start. *)
Definition callback_begin (sc : nat) : M nat :=
  do! s := get in
  if negb (bool_decide (scope_state s sc = open)) then invalid
  else
    let t := length (tasks s) in
    do! _ := put (with_owner (with_callbacks (with_tasks s (tasks s ++ [mkTask sc [] [] None]))
                    (t :: callbacks s)) (S (fresh_owner s))) in
    ret t.

Definition settleCallbackTask (t : nat) (completion : outcome) : M unit :=
  do! s := get in
  match tasks s !! t with
  | Some (mkTask sc dyn rel None) =>
      do! _ := set_task t (mkTask sc dyn rel (Some completion)) in
      do! _ := each release_once dyn in
      do! _ := set_task t (mkTask sc [] rel (Some completion)) in
      do! s := get in
      put (with_callbacks s (filter (fun x => x <> t) (callbacks s)))
  | _ => ret tt
  end.

(** ** Draining a scope *)

Definition wants_timer (s : root) (sc : nat) (v : ResourceState) : bool :=
  inside s (rs_scope v) sc && negb (bool_decide (rs_state v = closed))
  && bool_decide (is_Some (shutdownMs v)) && negb (timer v)
  && negb (bool_decide (is_Some (rs_cleanup v))).

(** The timers one pass of the first loop arms. *)
Definition drain_timers (sc : nat) : M unit :=
  fun s => (Done tt, with_resources s
    ((fun v => if wants_timer s sc v then set_timer v true else v) <$> resources s)).

(** A shutdown timer fires. *)
Definition shutdown_fired (r : nat) : M unit :=
  do! state := resource r None in
  if negb (timer state) then ret tt
  else if bool_decide (rs_state state = closed) then set_resource r (set_timer state false)
  else
    do! occurrence := cleanup in
    let opened := bool_decide (rs_state state = open) in
    set_resource r (upd_resource state (if opened then closing else rs_state state) (leases state)
      false (if opened then true else autoPending state) (Some occurrence) (phase state)).

Definition busy_group (s : root) (sc g : nat) : bool :=
  match groups s !! g with Some v => inside s (gr_scope v) sc | None => false end.
Definition busy_callback (s : root) (sc t : nat) : bool :=
  match tasks s !! t with Some v => inside s (tk_scope v) sc | None => false end.

(** The first loop ends when no group and no callback is left inside the scope; the
    scope closes and the resources are taken in reverse order. *)
Definition drain_ready (sc : nat) : M unit :=
  do! s := get in
  if existsb (busy_group s sc) (live_groups s) || existsb (busy_callback s sc) (callbacks s)
  then ret tt
  else
    fun s => (Done tt,
      match scopes s !! sc with
      | None => s
      | Some v =>
          with_drains (with_scopes s (<[sc := set_scope_state v closing]> (scopes s)))
            (drains s ++ [mkDrain sc (rev (seq 0 (length (resources s)))) None None])
      end).

Definition set_drain (d : nat) (v : Drain) : M unit :=
  fun s => (Done tt, with_drains s (<[d := v]> (drains s))).

Definition settled (v : ResourceState) : bool :=
  match phase v with Finished _ => true | _ => false end.

(** One resource of the second loop, up to the await of its close. *)
Definition drain_next (d : nat) : M unit :=
  do! s := get in
  match drains s !! d with
  | Some (mkDrain sc (r :: rest) None first) =>
      do! state := resource r None in
      if negb (inside s (rs_scope state) sc) then set_drain d (mkDrain sc rest None first)
      else if bool_decide (rs_state state = open) || autoPending state then
        do! _ := (if negb (scopeManaged state) && negb (bool_decide (is_Some (rs_cleanup state)))
                  then do! occurrence := cleanup in set_resource r (set_cleanup state occurrence)
                  else ret tt) in
        do! _ := beginClose r in
        set_drain d (mkDrain sc rest (Some r) first)
      else
        match phase state with
        | NotStarted =>
            set_drain d (mkDrain sc rest None
              (match first with Some f => Some f | None => rs_cleanup state end))
        | _ => set_drain d (mkDrain sc rest (Some r) first)
        end
  | _ => ret tt
  end.

(** The awaited close settled; [first ??= resource.cleanup]. *)
Definition drain_resume (d : nat) : M unit :=
  do! s := get in
  match drains s !! d with
  | Some (mkDrain sc rest (Some r) first) =>
      do! state := resource r None in
      if settled state then
        set_drain d (mkDrain sc rest None
          (match first with Some f => Some f | None => rs_cleanup state end))
      else ret tt
  | _ => ret tt
  end.

(** The drain returns and its caller closes the scope. *)
Definition drain_end (d : nat) : M unit :=
  do! s := get in
  match drains s !! d with
  | Some (mkDrain sc [] None first) =>
      fun s => (Done tt,
        match scopes s !! sc with
        | None => s
        | Some v => with_scopes s (<[sc := set_scope_state v closed]> (scopes s))
        end)
  | _ => ret tt
  end.

(** ** The root and its moves *)

(** [createRoot]: scope 0 is the root scope, owner 0 its base. *)
Definition createRoot : root :=
  mkRoot [mkScope [] None open 0] [] [] [] [] [] [] [] [] 1 0 [] false [].

(** Everything that can happen next, in any order: calls of the program with any
    execution, completions, timers, and the resumption of awaits. *)
Inductive move : Type :=
| Register (x : Execution) (kind : string) (options : RegisterOptions)
| UseBegin (x : Execution) (r : nat) (kind : string)
| UseEnd (r l : nat)
| Close (x : Execution) (r : nat) (kind : string) (deadline : option Z)
| CloseCall (r : nat)
| CloseSettled (r : nat) (success : bool)
| CloseDeadline (r : nat)
| Launch (x : Execution) (participants : list (list nat)) (native : bool)
| Settle (g index : nat) (completion : outcome)
| Publish (g : nat) (chosen : list nat)
| ChildScope (x : Execution)
| ScopeBodyEnd (sc : nat)
| CallbackBegin (sc : nat)
| CallbackEnd (t : nat) (completion : outcome)
| DrainTimers (sc : nat)
| ShutdownFired (r : nat)
| DrainReady (sc : nat)
| DrainNext (d : nat)
| DrainResume (d : nat)
| DrainEnd (d : nat).

Definition discard {A} (m : M A) : M unit := do! _ := m in ret tt.

Definition act (m : move) : M unit :=
  match m with
  | Register x kind options =>
      do! _ := requireContext x in discard (registerResourceCore x kind options)
  | UseBegin x r kind => do! _ := requireContext x in discard (use_begin x r kind)
  | UseEnd r l => use_end r l
  | Close x r kind deadline => do! _ := requireContext x in closeResourceCore x r kind deadline
  | CloseCall r => close_call r
  | CloseSettled r success => close_settled r success
  | CloseDeadline r => close_deadline r
  | Launch x participants native =>
      do! _ := requireContext x in discard (prepareLaunch x participants native)
  | Settle g index completion => settleLaunched g index completion
  | Publish g chosen => publish g chosen
  | ChildScope x => do! _ := requireContext x in discard (createChildScope x)
  | ScopeBodyEnd sc => settleScopeBody sc
  | CallbackBegin sc => discard (callback_begin sc)
  | CallbackEnd t completion => settleCallbackTask t completion
  | DrainTimers sc => drain_timers sc
  | ShutdownFired r => shutdown_fired r
  | DrainReady sc => drain_ready sc
  | DrainNext d => drain_next d
  | DrainResume d => drain_resume d
  | DrainEnd d => drain_end d
  end.

Definition run_moves (moves : list move) (s : root) : root :=
  fold_left (fun s m => (act m s).2) moves s.

Definition statusOf (s : root) (r : nat) : option (string * State * Z) :=
  (fun v => (rs_kind v, rs_state v, sum_map (fun _ n => n) (leases v))) <$> resources s !! r.

(** A resource used, closed while in use, and closed for real after the use. *)
Example close_waits_for_use :
  let x := mkExecution 0 None None in
  let s := run_moves [Register x "file" (mkOptions false true None); UseBegin x 0 "file";
                      Close x 0 "file" None; CloseCall 0; UseEnd 0 0; CloseCall 0;
                      CloseSettled 0 true] createRoot in
  trace s = [Used 0; CloseCalled 0] /\ statusOf s 0 = Some ("file"%string, closed, 0).
Proof. vm_compute. done. Qed.
