(* ===== verification/OwnerInv.v ===== *)
(** * The ownership invariant of [Owner.v] *)
From stdpp Require Import base gmap list strings.
From Stdlib Require Import ZArith Lia.
From S2P Require Import Prelude Completion Owner.

(** ** The invariant *)

Definition live_lease (r o : nat) (l : Lease) : bool :=
  (le_resource l =? r)%nat && (le_owner l =? o)%nat && negb (released l).

(** The leases on [r] that its owner [o] holds and has not released. *)
Definition lease_count (r o : nat) (ls : list Lease) : nat :=
  length (List.filter (live_lease r o) ls).

(** How the [Map] of a resource records a count. *)
Definition recorded (n : nat) : option Z := if (n =? 0)%nat then None else Some (Z.of_nat n).

(** The native close was called. *)
Definition begun (v : ResourceState) : bool :=
  match phase v with Running | Finished _ => true | _ => false end.

Record phase_ok (v : ResourceState) : Prop := {
  po_state :
    match rs_state v with
    | open => phase v = NotStarted /\ autoPending v = false
    | closing => (autoPending v = true /\ phase v = NotStarted) \/
                 (autoPending v = false /\ phase v <> NotStarted /\ phase v <> Finished true)
    | closed => phase v = Finished true /\ autoPending v = false
    end;
  po_quiet : begun v = true -> leases v = ∅
}.

(** A release closure kept for later: by a task, a scope or a resource. *)
Definition parked (s : root) (l : nat) : Prop :=
  (exists t task, tasks s !! t = Some task /\ (l ∈ dynamic task \/ l ∈ tk_release task)) \/
  (exists sc v, scopes s !! sc = Some v /\ l ∈ exitReleases v) \/
  (exists r v, resources s !! r = Some v /\ initialRelease v = Some l).

(** The native close of a resource is called at most once, and no operation gets
    its native handle afterwards. *)
Definition trace_ok (rs : list ResourceState) (t : list event) : Prop :=
  forall i r, t !! i = Some (CloseCalled r) ->
    (exists v, rs !! r = Some v /\ begun v = true) /\
    (forall j, t !! j = Some (CloseCalled r) -> j = i) /\
    (forall j, t !! j = Some (Used r) -> (j < i)%nat).

Record Inv (s : root) : Prop := {
  i_count : forall r v o, resources s !! r = Some v ->
    leases v !! o = recorded (lease_count r o (all_leases s));
  i_range : forall l le, all_leases s !! l = Some le -> (le_resource le < length (resources s))%nat;
  i_phase : forall r v, resources s !! r = Some v -> phase_ok v;
  i_trace : trace_ok (resources s) (trace s);
  i_uses : forall r l, (r, l) ∈ uses s ->
    exists o, all_leases s !! l = Some (mkLease r o false);
  i_apart : forall r l, (r, l) ∈ uses s -> ~ parked s l;
  i_parked : forall l, parked s l -> (l < length (all_leases s))%nat
}.

(** ** Counting leases *)

Lemma lease_count_snoc r o ls l :
  lease_count r o (ls ++ [l]) = (lease_count r o ls + if live_lease r o l then 1 else 0)%nat.
Proof.
  unfold lease_count. rewrite List.filter_app, length_app. cbn. by destruct (live_lease r o l).
Qed.

Lemma lease_count_cons r o x ls :
  lease_count r o (x :: ls) = ((if live_lease r o x then 1 else 0) + lease_count r o ls)%nat.
Proof. unfold lease_count. cbn. by destruct (live_lease r o x). Qed.

Lemma lease_count_mem r o ls l le :
  ls !! l = Some le -> live_lease r o le = true -> (0 < lease_count r o ls)%nat.
Proof.
  revert l. induction ls as [|x ls IH]; intros l Hl Hle; [done |]. rewrite lease_count_cons.
  destruct l as [|l]; cbn in Hl; [injection Hl as ->; rewrite Hle; lia |].
  specialize (IH l Hl Hle). lia.
Qed.

Lemma lease_count_release r o ls l le :
  ls !! l = Some le -> released le = false ->
  lease_count r o (<[l := mkLease (le_resource le) (le_owner le) true]> ls)
  = (lease_count r o ls
     - if ((le_resource le =? r)%nat && (le_owner le =? o)%nat) then 1 else 0)%nat.
Proof.
  revert l. induction ls as [|x ls IH]; intros l Hl Hr; [done |]. destruct l as [|l].
  - injection Hl as ->. cbn [insert list_insert]. rewrite !lease_count_cons. unfold live_lease. cbn.
    rewrite Hr. cbn. rewrite andb_false_r, andb_true_r. destruct (_ && _)%bool; lia.
  - change (<[S l := mkLease (le_resource le) (le_owner le) true]> (x :: ls))
      with (x :: <[l := mkLease (le_resource le) (le_owner le) true]> ls).
    cbn in Hl. rewrite !lease_count_cons, (IH l Hl Hr).
    destruct ((le_resource le =? r) && (le_owner le =? o))%nat eqn:Hb; [| lia].
    pose proof (lease_count_mem r o ls l le Hl) as Hge. unfold live_lease in Hge at 1.
    rewrite Hb, Hr in Hge. specialize (Hge eq_refl). lia.
Qed.

Lemma lease_count_none r o ls :
  (forall l le, ls !! l = Some le -> le_resource le <> r) -> lease_count r o ls = 0%nat.
Proof.
  induction ls as [|x ls IH]; intros Hls; [done |]. rewrite lease_count_cons.
  assert (live_lease r o x = false) as ->.
  { unfold live_lease. destruct (Nat.eqb_spec (le_resource x) r) as [He|]; [| done].
    by destruct (Hls 0%nat x eq_refl). }
  apply IH. intros l le Hl. by apply (Hls (S l)).
Qed.

Lemma lease_count_pos r o ls l :
  ls !! l = Some (mkLease r o false) -> (0 < lease_count r o ls)%nat.
Proof.
  intros Hl. apply (lease_count_mem _ _ _ _ _ Hl). unfold live_lease. cbn. by rewrite !Nat.eqb_refl.
Qed.

#[global] Arguments lease_count : simpl never.

(** ** Frames *)

Definition emitted (e : event) : Prop := exists o late, e = Emitted o late.

Definition trace_grows (t t' : list event) : Prop := exists es, t' = t ++ es /\ Forall emitted es.

Lemma trace_grows_refl t : trace_grows t t.
Proof. exists []. by rewrite app_nil_r. Qed.

Lemma trace_grows_trans t1 t2 t3 : trace_grows t1 t2 -> trace_grows t2 t3 -> trace_grows t1 t3.
Proof.
  intros (e1 & -> & H1) (e2 & -> & H2). exists (e1 ++ e2). rewrite app_assoc.
  split; [done |]. by apply Forall_app.
Qed.

Lemma trace_grows_lookup t t' i e :
  trace_grows t t' -> t' !! i = Some e -> emitted e \/ t !! i = Some e.
Proof.
  intros (es & -> & Hes) [Hi|[_ Hi]]%lookup_app_Some; [by right | left].
  by apply (proj1 (Forall_lookup _ _) Hes _ _ Hi).
Qed.

Lemma trace_ok_grows rs t t' : trace_ok rs t -> trace_grows t t' -> trace_ok rs t'.
Proof.
  intros Hok Hg i r Hi.
  destruct (trace_grows_lookup _ _ _ _ Hg Hi) as [(? & ? & [=])|Hi'].
  destruct (Hok i r Hi') as (H1 & H2 & H3). split_and!; [done | |];
    intros j Hj; destruct (trace_grows_lookup _ _ _ _ Hg Hj) as [(? & ? & [=])|Hj']; auto.
Qed.

(** The rest of the state may change freely. *)
Lemma Inv_frame s s' :
  Inv s -> resources s' = resources s -> all_leases s' = all_leases s ->
  trace_grows (trace s) (trace s') ->
  (forall u, u ∈ uses s' -> u ∈ uses s) -> (forall l, parked s' l -> parked s l) -> Inv s'.
Proof.
  intros [H1 H2 H3 H4 H5 H6 H7] Hr Hl Ht Hu Hp. split; rewrite ?Hr, ?Hl; try done.
  - by eapply trace_ok_grows.
  - intros r l Hin%Hu. by apply H5.
  - intros r l Hin%Hu Hpk%Hp. by apply (H6 r l).
  - intros l Hpk%Hp. by apply H7.
Qed.

(** A resource changes, its leases and its creator's lease aside. *)
Lemma Inv_set_resource s r v v' :
  Inv s -> resources s !! r = Some v -> leases v' = leases v ->
  (forall l, initialRelease v' = Some l -> initialRelease v = Some l) ->
  phase_ok v' -> (begun v = true -> begun v' = true) ->
  Inv (with_resources s (<[r := v']> (resources s))).
Proof.
  intros [H1 H2 H3 H4 H5 H6 H7] Hv Hl Hi Hp Hb.
  assert (r < length (resources s))%nat as Hlen by by eapply lookup_lt_Some.
  assert (forall l, parked (with_resources s (<[r := v']> (resources s))) l -> parked s l) as Hpk.
  { intros l [H|[H|(r' & w & Hw & Hin)]]; [by left | by right; left | right; right].
    cbn in Hw. apply list_lookup_insert_Some in Hw as [(<- & <- & _)|[_ Hw]]; eauto. }
  split; cbn; try done.
  - intros r' w o [(<- & <- & _)|[_ Hw]]%list_lookup_insert_Some; [rewrite Hl |]; auto.
  - intros l le Hle. rewrite length_insert. eauto.
  - intros r' w [(<- & <- & _)|[_ Hw]]%list_lookup_insert_Some; eauto.
  - intros i r' Hi'. destruct (H4 i r' Hi') as ((w & Hw & Hbw) & G2 & G3). split; [| done].
    destruct (decide (r' = r)) as [->|Hne].
    + exists v'. rewrite list_lookup_insert_eq by done. split; [done |]. apply Hb. congruence.
    + exists w. by rewrite list_lookup_insert_ne by done.
  - intros r' l Hin Hpk'. apply (H6 r' l Hin), Hpk, Hpk'.
  - intros l Hpk'. by apply H7, Hpk.
Qed.

(** ** Leases *)

Lemma recorded_has n o (m : gmap nat Z) :
  m !! o = recorded n -> default 0 (m !! o) = Z.of_nat n.
Proof. intros ->. unfold recorded. by destruct (Nat.eqb_spec n 0) as [->|]. Qed.

(** The checks of [acquire], all at once. *)
Lemma acquire_cases r x s :
  (exists f, acquire r x s = (Thrown f, s)) \/
  exists v, resources s !! r = Some v /\
    inside s (x_scope x) (rs_scope v) = true /\ scope_state s (rs_scope v) <> closed /\
    rs_state v <> closed /\
    (rs_state v = closing \/ scope_state s (rs_scope v) = closing ->
       has_lease v (owner_of s x) = true) /\
    acquire r x s = (Done (length (all_leases s)),
      with_leases (with_resources s (<[r := set_leases v
          (<[owner_of s x := default 0 (leases v !! owner_of s x) + 1]> (leases v))]> (resources s)))
        (all_leases s ++ [mkLease r (owner_of s x) false])).
Proof.
  unfold acquire, resource, validateScope, invalid, bind, get, put, ret, set_resource.
  destruct (resources s !! r) as [v|] eqn:Hv; [| left; by eexists].
  destruct (inside s (x_scope x) (rs_scope v)) eqn:Hin; cbn [negb orb]; [| left; by eexists].
  destruct (bool_decide (scope_state s (rs_scope v) = closed)) eqn:Hsc; [left; by eexists |].
  destruct (bool_decide (rs_state v = closed)) eqn:Hst; cbn [orb]; [left; by eexists |].
  apply bool_decide_eq_false in Hsc, Hst.
  destruct (has_lease v (owner_of s x)) eqn:Hh; cbn [negb].
  - rewrite !andb_false_r. cbn. right. exists v. split_and!; try done.
  - rewrite !andb_true_r.
    destruct (bool_decide (rs_state v = closing)) eqn:Hc1; cbn [orb]; [left; by eexists |].
    destruct (bool_decide (scope_state s (rs_scope v) = closing)) eqn:Hc2; [left; by eexists |].
    apply bool_decide_eq_false in Hc1, Hc2.
    right. exists v. split_and!; try done. intros [?|?]; done.
Qed.

(** An acquired resource was not given to its native close. *)
Lemma acquire_not_begun v o :
  phase_ok v -> rs_state v <> closed -> (rs_state v = closing -> has_lease v o = true) ->
  begun v = false.
Proof.
  intros [Hst Hq] Hc Hl. destruct (begun v) eqn:Hb; [| done]. specialize (Hq eq_refl).
  unfold has_lease, begun in *. destruct (rs_state v); [| | done].
  - destruct Hst as [Hp _]. by rewrite Hp in Hb.
  - specialize (Hl eq_refl). rewrite Hq, lookup_empty in Hl.
    apply bool_decide_eq_true in Hl as [? ?]. done.
Qed.

Lemma set_leases_phase v ls :
  phase_ok v -> begun v = false -> phase_ok (set_leases v ls).
Proof.
  intros [Hst Hq] Hb. split; cbn; [done |]. intros Hb'. unfold begun in *. cbn in *. congruence.
Qed.

(** What [acquire] leaves alone. *)
Definition same_rest (s s' : root) : Prop :=
  scopes s' = scopes s /\ tasks s' = tasks s /\ groups s' = groups s /\
  live_groups s' = live_groups s /\ callbacks s' = callbacks s /\ uses s' = uses s /\
  drains s' = drains s /\ trace s' = trace s /\
  (forall l, parked s' l <-> parked s l) /\
  (length (all_leases s) <= length (all_leases s'))%nat /\
  length (resources s') = length (resources s).

Lemma same_rest_refl s : same_rest s s.
Proof. unfold same_rest. split_and!; try done. Qed.

Lemma same_rest_trans s1 s2 s3 : same_rest s1 s2 -> same_rest s2 s3 -> same_rest s1 s3.
Proof.
  unfold same_rest. intros (?&?&?&?&?&?&?&?&P1&?&?) (?&?&?&?&?&?&?&?&P2&?&?).
  split_and!; try congruence; try lia. intros l. by rewrite P2, P1.
Qed.

(** Replacing the leases of a resource does not park or unpark anything. *)
Lemma parked_set_leases s r v ls al l :
  resources s !! r = Some v ->
  parked (with_leases (with_resources s (<[r := set_leases v ls]> (resources s))) al) l
  <-> parked s l.
Proof.
  intros Hv. assert (r < length (resources s))%nat as Hlen by by eapply lookup_lt_Some.
  unfold parked. cbn. split; (intros [H|[H|(r' & w & Hw & Hin)]]; [by left | by right; left | right; right]).
  - apply list_lookup_insert_Some in Hw as [(<- & <- & _)|[_ Hw]]; cbn in *; eauto.
  - destruct (decide (r = r')) as [<-|Hne].
    + exists r, (set_leases v ls). rewrite list_lookup_insert_eq by done. split; [done |].
      rewrite Hv in Hw. injection Hw as ->. done.
    + exists r', w. by rewrite list_lookup_insert_ne by done.
Qed.

Lemma acquire_inv r x s :
  Inv s ->
  let '(result, s') := acquire r x s in
  Inv s' /\ same_rest s s' /\
  match result with
  | Thrown _ => s' = s
  | Done l => l = length (all_leases s) /\ ~ parked s' l /\
      all_leases s' = all_leases s ++ [mkLease r (owner_of s x) false] /\
      exists v, resources s !! r = Some v /\ begun v = false
  end.
Proof.
  intros Hinv. destruct (acquire_cases r x s) as [[f ->]|(v & Hv & _ & _ & Hnc & Hh & ->)].
  { split; [done |]. split; [apply same_rest_refl | done]. }
  set (o := owner_of s x) in *. destruct Hinv as [H1 H2 H3 H4 H5 H6 H7].
  assert (begun v = false) as Hb.
  { apply (acquire_not_begun v o); [by eapply H3 | done | intros; apply Hh; by left]. }
  assert (r < length (resources s))%nat as Hlen by by eapply lookup_lt_Some.
  pose proof (fun l => parked_set_leases s r v
    (<[o := default 0 (leases v !! o) + 1]> (leases v))
    (all_leases s ++ [mkLease r o false]) l Hv) as Hpk.
  split; [split |]; cbn [resources all_leases trace uses tasks scopes with_leases with_resources].
  - intros r' w o' Hw. rewrite lease_count_snoc. unfold live_lease. cbn [le_resource le_owner released].
    rewrite andb_true_r. apply list_lookup_insert_Some in Hw as [(<- & <- & _)|[Hne Hw]].
    + rewrite Nat.eqb_refl. cbn [andb set_leases upd_resource leases].
      destruct (Nat.eqb_spec o o') as [<-|Hno].
      * rewrite lookup_insert_eq. rewrite (recorded_has _ _ _ (H1 r v o Hv)).
        unfold recorded. destruct (Nat.eqb_spec (lease_count r o (all_leases s) + 1) 0); [lia |].
        f_equal. lia.
      * rewrite lookup_insert_ne by done. rewrite Nat.add_0_r. by apply H1.
    + destruct (Nat.eqb_spec r r'); [done |]. cbn [andb]. rewrite Nat.add_0_r. by apply H1.
  - intros l le [Hl|[_ Hl]]%lookup_app_Some; rewrite length_insert; [by eapply H2 |].
    destruct (l - length (all_leases s))%nat; [| done]. injection Hl as <-. done.
  - intros r' w [(<- & <- & _)|[_ Hw]]%list_lookup_insert_Some; [| by eapply H3].
    apply set_leases_phase; [by eapply H3 | done].
  - intros i r' Hi. destruct (H4 i r' Hi) as ((w & Hw & Hbw) & G). split; [| done].
    destruct (decide (r' = r)) as [->|Hne]; [congruence |].
    exists w. by rewrite list_lookup_insert_ne by done.
  - intros r' l Hin. destruct (H5 r' l Hin) as [o' Ho']. exists o'. by apply lookup_app_l_Some.
  - intros r' l Hin Hp%Hpk. by apply (H6 r' l).
  - intros l Hp%Hpk. rewrite length_app. specialize (H7 l Hp). lia.
  - split.
    + unfold same_rest. cbn. split_and!; try done; [rewrite length_app; lia | apply length_insert].
    + split; [done |]. split; [intros Hp%Hpk; apply H7 in Hp; lia |]. split; [done |]. by exists v.
Qed.

Lemma release_cases l s :
  Inv s ->
  (exists f, release l s = (Thrown f, s)) \/
  exists le v, all_leases s !! l = Some le /\ released le = false /\
    resources s !! le_resource le = Some v /\
    release l s = (Done tt,
      with_resources (with_leases s (<[l := mkLease (le_resource le) (le_owner le) true]> (all_leases s)))
        (<[le_resource le := set_leases v
           (if default 0 (leases v !! le_owner le) =? 1 then delete (le_owner le) (leases v)
            else <[le_owner le := default 0 (leases v !! le_owner le) - 1]> (leases v))]>
           (resources s))).
Proof.
  intros Hinv. unfold release, resource, bind, get, put, set_resource, invalid.
  destruct (all_leases s !! l) as [le|] eqn:Hl; [| left; by eexists].
  destruct (released le) eqn:Hr; [left; by eexists |]. cbn [resources with_leases].
  destruct (lookup_lt_is_Some_2 _ _ (i_range s Hinv l le Hl)) as [v Hv]. rewrite Hv.
  right. exists le, v. done.
Qed.

Lemma release_inv l s :
  Inv s -> (forall r, (r, l) ∉ uses s) ->
  Inv (release l s).2 /\ same_rest s (release l s).2.
Proof.
  intros Hinv Hnu. destruct (release_cases l s Hinv) as [[f ->]|(le & v & Hl & Hr & Hv & ->)].
  { split; [done | apply same_rest_refl]. }
  destruct Hinv as [H1 H2 H3 H4 H5 H6 H7].
  set (r := le_resource le) in *. set (o := le_owner le) in *.
  set (ls := if default 0 (leases v !! o) =? 1 then delete o (leases v)
             else <[o := default 0 (leases v !! o) - 1]> (leases v)).
  set (al := <[l := mkLease r o true]> (all_leases s)).
  assert (r < length (resources s))%nat as Hlen by by eapply lookup_lt_Some.
  assert (l < length (all_leases s))%nat as Hll by by eapply lookup_lt_Some.
  assert (0 < lease_count r o (all_leases s))%nat as Hpos.
  { apply (lease_count_pos r o _ l). rewrite Hl. subst r o. destruct le. cbn in *. by rewrite Hr. }
  pose proof (recorded_has _ _ _ (H1 r v o Hv)) as Hc.
  assert (begun v = false) as Hb.
  { destruct (begun v) eqn:Hb; [| done]. pose proof (po_quiet v (H3 r v Hv) Hb) as He.
    rewrite He, lookup_empty in Hc. cbn in Hc. lia. }
  change (with_resources (with_leases s al) (<[r := set_leases v ls]> (resources s)))
    with (with_leases (with_resources s (<[r := set_leases v ls]> (resources s))) al).
  pose proof (fun l' => parked_set_leases s r v ls al l' Hv) as Hpk.
  cbn [snd].
  split; [split |]; cbn [resources all_leases trace uses tasks scopes with_leases with_resources].
  - intros r' w o' Hw. subst al. unfold r, o. rewrite (lease_count_release r' o' _ l le Hl Hr).
    fold r. fold o. apply list_lookup_insert_Some in Hw as [(<- & <- & _)|[Hne Hw]].
    + rewrite Nat.eqb_refl. cbn [andb set_leases upd_resource leases]. subst ls. rewrite Hc.
      destruct (Nat.eqb_spec o o') as [<-|Hno].
      * destruct (Z.eqb_spec (Z.of_nat (lease_count r o (all_leases s))) 1) as [H1'|H1'].
        { rewrite lookup_delete_eq. unfold recorded.
          destruct (Nat.eqb_spec (lease_count r o (all_leases s) - 1) 0); [done | lia]. }
        rewrite lookup_insert_eq. unfold recorded.
        destruct (Nat.eqb_spec (lease_count r o (all_leases s) - 1) 0); [lia |]. f_equal. lia.
      * rewrite Nat.sub_0_r.
        destruct (Z.eqb_spec (Z.of_nat (lease_count r o (all_leases s))) 1);
          [rewrite (lookup_delete_ne (M := gmap nat)) by done | rewrite lookup_insert_ne by done];
          by apply H1.
    + destruct (Nat.eqb_spec r r'); [done |]. cbn [andb]. rewrite Nat.sub_0_r. by apply H1.
  - intros l' le' Hl'. rewrite length_insert. subst al.
    apply list_lookup_insert_Some in Hl' as [(<- & <- & _)|[_ Hl']]; [done | by eapply H2].
  - intros r' w [(<- & <- & _)|[_ Hw]]%list_lookup_insert_Some; [| by eapply H3].
    apply set_leases_phase; [by eapply H3 | done].
  - intros i r' Hi. destruct (H4 i r' Hi) as ((w & Hw & Hbw) & G). split; [| done].
    destruct (decide (r' = r)) as [->|Hne]; [congruence |].
    exists w. by rewrite list_lookup_insert_ne by done.
  - intros r' l' Hin. destruct (H5 r' l' Hin) as [o' Ho']. exists o'. subst al.
    rewrite list_lookup_insert_ne; [done |]. intros <-. by apply (Hnu r').
  - intros r' l' Hin Hp%Hpk. by apply (H6 r' l').
  - intros l' Hp%Hpk. subst al. rewrite length_insert. by apply H7.
  - unfold same_rest. cbn. subst al. split_and!; try done; rewrite ?length_insert; done.
Qed.

(** ** Programs that keep the invariant *)

(** From a state that satisfies the invariant and [P], the program keeps the
    invariant, and a result satisfies [Q]. *)
Definition triple {A} (P : root -> Prop) (m : M A) (Q : A -> root -> Prop) : Prop :=
  forall s, Inv s -> P s ->
    let '(r, s') := m s in Inv s' /\ match r with Done a => Q a s' | Thrown _ => True end.

Definition keeps {A} (m : M A) : Prop := triple (fun _ => True) m (fun _ _ => True).

Lemma triple_bind {A B} P (m : M A) Q (k : A -> M B) R :
  triple P m Q -> (forall a, triple (Q a) (k a) R) -> triple P (do! a := m in k a) R.
Proof.
  intros Hm Hk s Hi Hp. unfold bind. specialize (Hm s Hi Hp).
  destruct (m s) as [[a|f] s']; destruct Hm as [Hi' Hq]; [| done]. by apply (Hk a).
Qed.

Lemma triple_ret {A} (P : root -> Prop) (a : A) (Q : A -> root -> Prop) :
  (forall s, P s -> Q a s) -> triple P (ret a) Q.
Proof. intros HQ s Hi Hp. split; [done |]. by apply HQ. Qed.

Lemma triple_get (P : root -> Prop) : triple P get (fun a s => a = s /\ P s).
Proof. intros s Hi Hp. done. Qed.

Lemma triple_invalid {A} (P : root -> Prop) (Q : A -> root -> Prop) : triple P invalid Q.
Proof. intros s Hi Hp. done. Qed.

Lemma triple_pre {A} (P P' : root -> Prop) (m : M A) Q :
  (forall s, Inv s -> P s -> P' s) -> triple P' m Q -> triple P m Q.
Proof. intros HP Hm s Hi Hp. apply Hm; auto. Qed.

Lemma triple_post {A} (P : root -> Prop) (m : M A) (Q Q' : A -> root -> Prop) :
  (forall a s, Q a s -> Q' a s) -> triple P m Q -> triple P m Q'.
Proof.
  intros HQ Hm s Hi Hp. specialize (Hm s Hi Hp). destruct (m s) as [[a|f] s'];
    destruct Hm; split; auto.
Qed.

(** One step whose effect is a function of the state. *)
Lemma triple_update (P : root -> Prop) (f : root -> root) (Q : root -> Prop) :
  (forall s, Inv s -> P s -> Inv (f s) /\ Q (f s)) ->
  triple P (fun s => (Done tt, f s)) (fun _ => Q).
Proof. intros Hf s Hi Hp. by apply Hf. Qed.

Lemma triple_put (P : root -> Prop) (s' : root) (Q : root -> Prop) :
  (forall s, Inv s -> P s -> Inv s' /\ Q s') -> triple P (put s') (fun _ => Q).
Proof. intros Hf s Hi Hp. by apply (Hf s). Qed.

Lemma triple_resource (P : root -> Prop) r kind :
  triple P (resource r kind) (fun v s => resources s !! r = Some v /\ P s).
Proof.
  intros s Hi Hp. unfold resource, get, bind, invalid, ret.
  destruct (resources s !! r) as [v|] eqn:Hv; [| done]. destruct kind; [case_bool_decide |]; done.
Qed.

(** *** The general update *)
Lemma Inv_change s s' :
  Inv s -> all_leases s' = all_leases s -> length (resources s') = length (resources s) ->
  (forall r v', resources s' !! r = Some v' -> exists v, resources s !! r = Some v /\
     leases v' = leases v /\ phase_ok v' /\ (begun v = true -> begun v' = true)) ->
  trace_grows (trace s) (trace s') ->
  (forall u, u ∈ uses s' -> u ∈ uses s) ->
  (forall l, parked s' l -> parked s l \/
     (l < length (all_leases s))%nat /\ forall r, (r, l) ∉ uses s) ->
  Inv s'.
Proof.
  intros [H1 H2 H3 H4 H5 H6 H7] Hl Hlen Hr Ht Hu Hp. split; rewrite ?Hl.
  - intros r v' o Hv'. destruct (Hr r v' Hv') as (v & Hv & -> & _). by apply H1.
  - intros l le Hle. rewrite Hlen. by eapply H2.
  - intros r v' Hv'. by destruct (Hr r v' Hv') as (v & _ & _ & ? & _).
  - apply (trace_ok_grows _ (trace s)); [| done]. intros i r Hi.
    destruct (H4 i r Hi) as ((v & Hv & Hb) & G). split; [| done].
    destruct (lookup_lt_is_Some_2 (resources s') r) as [v' Hv'].
    { rewrite Hlen. by eapply lookup_lt_Some. }
    exists v'. split; [done |]. destruct (Hr r v' Hv') as (w & Hw & _ & _ & Hbw).
    apply Hbw. congruence.
  - intros r l Hin%Hu. by apply H5.
  - intros r l Hin%Hu [Hpk|[_ Hn]]%Hp; [by apply (H6 r l) | by apply (Hn r)].
  - intros l [Hpk|[Hlt _]]%Hp; [by apply H7 | done].
Qed.

(** A lease that may be parked: it exists and no running use holds it. *)
Definition spare (s : root) (l : nat) : Prop :=
  (l < length (all_leases s))%nat /\ forall r, (r, l) ∉ uses s.

Lemma parked_spare s l : Inv s -> parked s l -> spare s l.
Proof.
  intros Hi Hp. split; [by apply (i_parked s Hi) |]. intros r Hin. by apply (i_apart s Hi r l).
Qed.

Lemma spare_rest s s' l : same_rest s s' -> spare s l -> spare s' l.
Proof.
  intros (_&_&_&_&_&Hu&_&_&_&Hl&_) [H1 H2]. split; [lia |]. intros r. rewrite Hu. apply H2.
Qed.

Lemma triple_release (P : root -> Prop) l :
  (forall s s', P s -> same_rest s s' -> P s') -> (forall s, Inv s -> P s -> spare s l) ->
  triple P (release l) (fun _ => P).
Proof.
  intros Hst Hsp s Hi Hp. destruct (Hsp s Hi Hp) as [_ Hn].
  destruct (release_inv l s Hi Hn) as [Hi' Hr]. destruct (release l s) as [[u|f] s'];
    cbn in *; split; try done. by apply (Hst s).
Qed.

Lemma triple_each {B} (P : root -> Prop) (f : B -> M unit) (ls : list B) :
  (forall l, l ∈ ls -> triple P (f l) (fun _ => P)) -> triple P (each f ls) (fun _ => P).
Proof.
  induction ls as [|l ls IH]; intros Hf; cbn; [by apply triple_ret |].
  eapply triple_bind; [apply Hf; left |]. intros u. apply IH. intros l' Hl'. apply Hf. by right.
Qed.

Lemma triple_release_once (P : root -> Prop) l :
  (forall s s', P s -> same_rest s s' -> P s') -> (forall s, Inv s -> P s -> spare s l) ->
  triple P (release_once l) (fun _ => P).
Proof.
  intros Hst Hsp s Hi Hp. unfold release_once, bind, get, ret.
  destruct (all_leases s !! l) as [le|]; [| done]. destruct (released le); [done |].
  by apply triple_release.
Qed.

Lemma triple_acquire (P : root -> Prop) r x :
  (forall s s', P s -> same_rest s s' -> P s') ->
  triple P (acquire r x) (fun l s => P s /\ spare s l /\ ~ parked s l /\
    (exists o, all_leases s !! l = Some (mkLease r o false)) /\
    exists v, resources s !! r = Some v /\ begun v = false).
Proof.
  intros Hst s Hi Hp. pose proof (acquire_inv r x s Hi) as Ha.
  destruct (acquire_cases r x s) as [[f Hf]|(v & Hv & _ & _ & _ & _ & Hf)];
    rewrite Hf in Ha; rewrite Hf; clear Hf; destruct Ha as (Hi' & Hr & H).
  { done. }
  destruct H as (_ & Hpk & Hal & v' & Hv' & Hb). split; [done |].
  assert (exists w, resources (with_resources s (<[r := set_leases v
    (<[owner_of s x := default 0 (leases v !! owner_of s x) + 1]> (leases v : gmap nat Z))]>
      (resources s))) !! r = Some w /\ begun w = false) as Hw.
  { rewrite Hv in Hv'. injection Hv' as <-. eexists. split.
    - cbn. apply list_lookup_insert_eq. by eapply lookup_lt_Some.
    - exact Hb. }
  match type of Hr with same_rest s ?x => set (s' := x) in * end.
  assert (length (all_leases s') = S (length (all_leases s))) as Hlen
    by (rewrite Hal, length_app; cbn; lia).
  split; [by apply (Hst s) |]. split; [split; [lia |] |].
  - intros r' Hin. change (uses s') with (uses s) in Hin.
    destruct (i_uses s Hi r' _ Hin) as [o Ho]. apply lookup_lt_Some in Ho. lia.
  - split; [done |]. split; [| exact Hw].
    exists (owner_of s x). rewrite Hal. by rewrite lookup_app_r, Nat.sub_diag by done.
Qed.

(** *** Diagnostics *)
Definition same_core (s s' : root) : Prop :=
  resources s' = resources s /\ all_leases s' = all_leases s /\ tasks s' = tasks s /\
  scopes s' = scopes s /\ groups s' = groups s /\ live_groups s' = live_groups s /\
  callbacks s' = callbacks s /\ uses s' = uses s /\ drains s' = drains s /\
  trace_grows (trace s) (trace s').

Lemma same_core_inv s s' : same_core s s' -> Inv s -> Inv s'.
Proof.
  intros (Hr & Hl & Ht & Hs & _ & _ & _ & Hu & _ & Htr) Hi.
  apply (Inv_frame s); try done; [by rewrite Hu |].
  intros l. unfold parked. by rewrite Hr, Ht, Hs.
Qed.

Lemma emit_core o late s :
  exists s', emit o late s = (Done tt, s') /\ same_core s s'.
Proof.
  unfold emit, bind, get, ret, put. case_bool_decide.
  - exists s. split; [done |]. unfold same_core. split_and!; try done. apply trace_grows_refl.
  - eexists. split; [done |]. unfold same_core. cbn. split_and!; try done.
    exists [Emitted o late]. split; [done |]. constructor; [by exists o, late | done].
Qed.

Lemma cleanup_core s : exists o s', cleanup s = (Done o, s') /\ same_core s s'.
Proof.
  unfold cleanup. unfold bind at 1. cbn [get]. unfold bind at 1. cbn [put]. unfold bind.
  destruct (emit_core (next_occurrence s) false
    (with_report s (S (next_occurrence s)) (reported s) true (trace s))) as (s' & -> & Hc).
  exists (next_occurrence s), s'. split; [done |].
  destruct Hc as (H1&H2&H3&H4&H5&H6&H7&H8&H9&H10). by split_and!.
Qed.

Lemma triple_cleanup (P : root -> Prop) :
  (forall s s', P s -> same_core s s' -> P s') -> triple P cleanup (fun _ => P).
Proof.
  intros Hst s Hi Hp. destruct (cleanup_core s) as (o & s' & -> & Hc).
  split; [by eapply same_core_inv | by eapply Hst].
Qed.

Lemma triple_emit (P : root -> Prop) o late :
  (forall s s', P s -> same_core s s' -> P s') -> triple P (emit o late) (fun _ => P).
Proof.
  intros Hst s Hi Hp. destruct (emit_core o late s) as (s' & -> & Hc).
  split; [by eapply same_core_inv | by eapply Hst].
Qed.

(** ** Every operation keeps the invariant *)

(** A resource update that leaves the leases alone. *)
Lemma triple_set_resource (P : root -> Prop) r v v' (Q : root -> Prop) :
  leases v' = leases v -> (forall l, initialRelease v' = Some l -> initialRelease v = Some l) ->
  (phase_ok v -> phase_ok v') -> (begun v = true -> begun v' = true) ->
  (forall s, P s -> resources s !! r = Some v) ->
  (forall s, P s -> Q (with_resources s (<[r := v']> (resources s)))) ->
  triple P (set_resource r v') (fun _ => Q).
Proof.
  intros Hl Hi Hp Hb Hv HQ. apply triple_update. intros s Hs HP. split; [| by apply HQ].
  apply (Inv_set_resource s r v v'); auto. apply Hp. by apply (i_phase s Hs r v), Hv.
Qed.

(** Other fields. *)
Lemma triple_frame (P : root -> Prop) (f : root -> root) (Q : root -> Prop) :
  (forall s, resources (f s) = resources s /\ all_leases (f s) = all_leases s /\
     trace (f s) = trace s /\ uses (f s) = uses s) ->
  (forall s l, P s -> parked (f s) l -> parked s l \/ spare s l) ->
  (forall s, P s -> Q (f s)) ->
  triple P (fun s => (Done tt, f s)) (fun _ => Q).
Proof.
  intros Hf Hpk HQ. apply triple_update. intros s Hs HP. split; [| by apply HQ].
  destruct (Hf s) as (H1 & H2 & H3 & H4). apply (Inv_change s); try done.
  - by rewrite H1.
  - intros r v. rewrite H1. intros Hv. exists v. split_and!; try done. by apply (i_phase s Hs r).
  - rewrite H3. apply trace_grows_refl.
  - intros u. by rewrite H4.
  - intros l Hl. by apply Hpk.
Qed.

Ltac keep_steps :=
  repeat first
    [ apply triple_invalid
    | apply triple_ret; done
    | match goal with |- triple _ (if ?b then _ else _) _ => destruct b end
    | match goal with |- triple _ (match ?x with _ => _ end) _ => destruct x end ].

(** A closing that waits, or is done, is as [phase_ok] asks. *)
Lemma phase_ok_upd v st ls tm au cl ph :
  match st with
  | open => ph = NotStarted /\ au = false
  | closing => (au = true /\ ph = NotStarted) \/
               (au = false /\ ph <> NotStarted /\ ph <> Finished true)
  | closed => ph = Finished true /\ au = false
  end ->
  (match ph with Running | Finished _ => true | _ => false end = true -> ls = ∅) ->
  phase_ok (upd_resource v st ls tm au cl ph).
Proof. intros H1 H2. by split. Qed.

Lemma phase_ok_same v st tm au cl :
  phase_ok v -> st = rs_state v -> au = autoPending v ->
  phase_ok (upd_resource v st (leases v) tm au cl (phase v)).
Proof. intros [H1 H2] -> ->. split; [exact H1 | exact H2]. Qed.

Lemma beginClose_triple (P : root -> Prop) r :
  (forall s v v', P s -> P (with_resources s (<[r := upd_resource v closing (leases v) (timer v)
     false (rs_cleanup v) v']> (resources s)))) ->
  (forall s v, P s -> resources s !! r = Some v -> phase v = NotStarted) ->
  triple P (beginClose r) (fun _ => P).
Proof.
  intros HP Hns. unfold beginClose. eapply triple_bind; [apply triple_resource |].
  intros v. cbn beta. intros s Hs [Hv Hp]. pose proof (Hns s v Hp Hv) as Hph.
  refine (triple_set_resource (fun s => resources s !! r = Some v /\ P s) r v _ P _ _ _ _ _ _ s Hs (conj Hv Hp)).
  - done.
  - done.
  - intros _. apply phase_ok_upd; [right; done | done].
  - unfold begun. by rewrite Hph.
  - by intros ? [? _].
  - intros s' [_ Hp']. by apply HP.
Qed.

Lemma close_call_keeps r : keeps (close_call r).
Proof.
  unfold close_call. eapply triple_bind; [apply triple_resource |]. intros v s Hs [Hv _].
  destruct (phase v) eqn:Hph; try done. case_bool_decide as He; [| done].
  unfold bind, get, put, set_resource.
  set (v' := upd_resource v (rs_state v) (leases v) (timer v) (autoPending v) (rs_cleanup v) Running).
  assert (begun v = false) as Hnb by (unfold begun; by rewrite Hph).
  assert (Inv (with_resources s (<[r := v']> (resources s)))) as Hi.
  { apply (Inv_set_resource s r v v'); try done.
    destruct (i_phase s Hs r v Hv) as [Hst Hq]. rewrite Hph in Hst. split; [| done].
    unfold v'. cbn. destruct (rs_state v); [by destruct Hst | | by destruct Hst].
    right. destruct Hst as [[_ Hst]|[Ha _]]; done. }
  split; [| done]. destruct Hi as [H1 H2 H3 H4 H5 H6 H7]. split; try done.
  cbn [with_event with_report trace resources with_resources] in *.
  assert (forall i, trace s !! i <> Some (CloseCalled r)) as Hno.
  { intros i Hi. destruct (i_trace s Hs i r Hi) as ((w & Hw & Hb) & _). congruence. }
  assert (r < length (resources s))%nat as Hlen by by eapply lookup_lt_Some.
  intros i r' [Hi'|[Hge Hi']]%lookup_app_Some.
  - destruct (H4 i r' Hi') as (G1 & G2 & G3). split; [done |].
    split; intros j [Hj|[Hgj Hj]]%lookup_app_Some; auto.
    + destruct (j - length (trace s))%nat; [| done]. injection Hj as <-. by destruct (Hno i).
    + destruct (j - length (trace s))%nat; done.
  - destruct (i - length (trace s))%nat as [|m] eqn:Hm; [| done]. injection Hi' as <-.
    split; [exists v'; by rewrite list_lookup_insert_eq by done |].
    split; intros j [Hj|[Hgj Hj]]%lookup_app_Some.
    + by destruct (Hno j).
    + destruct (j - length (trace s))%nat as [|m'] eqn:Hm'; [lia | done].
    + apply lookup_lt_Some in Hj. lia.
    + destruct (j - length (trace s))%nat; done.
Qed.

Lemma close_settled_keeps r success : keeps (close_settled r success).
Proof.
  unfold close_settled. eapply triple_bind; [apply triple_resource |]. intros v.
  destruct (phase v) eqn:Hph; try (apply triple_ret; done). destruct success.
  - intros s Hs [Hv _]. destruct (i_phase s Hs r v Hv) as [Hst Hq].
    unfold begun in Hq. rewrite Hph in *. specialize (Hq eq_refl).
    split; [| done]. apply (Inv_set_resource s r v); try done.
    split; cbn; [| done]. split; [done |]. destruct (rs_state v); [by destruct Hst | | by destruct Hst].
    destruct Hst as [[_ Hst]|[Ha _]]; done.
  - eapply triple_bind.
    + apply (triple_cleanup (fun s => resources s !! r = Some v /\ True)). intros s s' Hv Hc.
      destruct Hc as [-> _]. apply Hv.
    + intros o s Hs [Hv _]. destruct (i_phase s Hs r v Hv) as [Hst Hq].
      unfold begun in Hq. rewrite Hph in *. specialize (Hq eq_refl).
      split; [| done]. apply (Inv_set_resource s r v); try done.
      apply phase_ok_upd; [| done]. destruct (rs_state v);
        [by destruct Hst | | by destruct Hst].
      right. destruct Hst as [[_ Hst]|[Ha _]]; done.
Qed.

Lemma set_cleanup_keeps (P : root -> Prop) r v o :
  (forall s, P s -> resources s !! r = Some v) ->
  (forall s, P s -> P (with_resources s (<[r := set_cleanup v o]> (resources s))) \/ True) ->
  triple P (set_resource r (set_cleanup v o)) (fun _ _ => True).
Proof.
  intros Hv _. apply (triple_set_resource P r v); try done.
  intros Hp. by apply phase_ok_same.
Qed.

Lemma close_deadline_keeps r : keeps (close_deadline r).
Proof.
  unfold close_deadline. eapply triple_bind; [apply triple_resource |]. intros v.
  eapply triple_bind.
  - apply (triple_cleanup (fun s => resources s !! r = Some v /\ True)).
    intros s s' [Hv _] Hc. destruct Hc as [-> _]. done.
  - intros o. apply set_cleanup_keeps; [by intros ? [? _] | by right].
Qed.

Lemma shutdown_fired_keeps r : keeps (shutdown_fired r).
Proof.
  unfold shutdown_fired. eapply triple_bind; [apply triple_resource |]. intros v.
  destruct (timer v); cbn [negb]; [| by apply triple_ret].
  case_bool_decide as Hc.
  - apply (triple_set_resource _ r v); try done; [| by intros ? [? _]].
    intros Hp. by apply phase_ok_same.
  - eapply triple_bind.
    + apply (triple_cleanup (fun s => resources s !! r = Some v /\ True)).
      intros s s' [Hv _] Hco. destruct Hco as [-> _]. done.
    + intros o. apply (triple_set_resource _ r v); try done; [| by intros ? [? _]].
      intros [Hst Hq]. case_bool_decide as Ho.
      * rewrite Ho in Hst. destruct Hst as [Hph _].
        apply phase_ok_upd; [by left | by rewrite Hph].
      * apply phase_ok_same; done.
Qed.

Lemma use_begin_keeps x r kind : keeps (use_begin x r kind).
Proof.
  unfold use_begin. eapply triple_bind; [apply triple_resource |]. intros v0.
  eapply triple_bind.
  { eapply triple_pre; [| apply (triple_acquire (fun _ => True))]; done. }
  intros l s Hs (_ & [Hlt Hnu] & Hnp & [o Ho] & v & Hv & Hb).
  unfold bind, get, put, ret. split; [| done].
  destruct Hs as [H1 H2 H3 H4 H5 H6 H7]. split; try done;
    cbn [with_event with_report with_uses uses trace all_leases resources] in *.
  - intros i r' [Hi|[_ Hi]]%lookup_app_Some.
    + destruct (H4 i r' Hi) as ((w & Hw & Hbw) & G2 & G3). split; [by exists w |].
      split; intros j [Hj|[Hge Hj]]%lookup_app_Some; auto.
      * destruct (j - length (trace s))%nat; done.
      * destruct (j - length (trace s))%nat; [| done]. injection Hj as <-. congruence.
    + destruct (i - length (trace s))%nat; done.
  - intros r' l' [[= -> ->]|Hin]%elem_of_cons; [by exists o | by apply H5].
  - intros r' l' [[= -> ->]|Hin]%elem_of_cons; [exact Hnp | by apply (H6 r')].
Qed.

Lemma use_end_keeps r l : keeps (use_end r l).
Proof.
  unfold use_end. intros s Hs _. unfold bind at 1. cbn [get].
  case_bool_decide as Hin; [| done]. unfold bind, put.
  assert (Inv (with_uses s (filter (fun u => u <> (r, l)) (uses s)))) as Hi.
  { apply (Inv_frame s); try done; [apply trace_grows_refl |].
    intros u Hu. cbn in Hu. by apply list_elem_of_filter in Hu as [_ Hu]. }
  assert (spare (with_uses s (filter (fun u => u <> (r, l)) (uses s))) l) as Hsp.
  { destruct (i_uses s Hs r l Hin) as [o Ho]. split; [by eapply lookup_lt_Some |].
    intros r' [Hne Hin']%list_elem_of_filter. destruct (i_uses s Hs r' l Hin') as [o' Ho']. congruence. }
  pose proof (triple_release (fun s' => spare s' l) l
    (fun s1 s2 H Hr => spare_rest s1 s2 l Hr H) (fun _ _ H => H) _ Hi Hsp) as Hrel.
  destruct (release l _) as [[u|f] s']; [| done]. by destruct Hrel.
Qed.

(** *** Frames of the remaining fields *)

Lemma requireContext_keeps x : keeps (requireContext x).
Proof.
  unfold requireContext. intros s Hs _. unfold bind. cbn [get]. by case_bool_decide.
Qed.

Lemma keeps_bind {A B} (m : M A) (k : A -> M B) :
  keeps m -> (forall a, keeps (k a)) -> keeps (do! a := m in k a).
Proof. intros Hm Hk. eapply triple_bind; [exact Hm | intros a; apply Hk]. Qed.

Lemma keeps_discard {A} (m : M A) : keeps m -> keeps (discard m).
Proof. intros Hm. apply keeps_bind; [done |]. intros a. by apply triple_ret. Qed.

Lemma keeps_triple {A} (m : M A) (P : root -> Prop) : keeps m -> triple P m (fun _ _ => True).
Proof. intros Hm. eapply triple_pre; [| exact Hm]. done. Qed.

(** *** Resources *)

Lemma add_task_dynamic_keeps t l :
  triple (fun s => spare s l) (add_task_dynamic t l) (fun _ s => spare s l).
Proof.
  apply triple_frame.
  - intros s. by destruct (tasks s !! t).
  - intros s l' Hsp Hp. destruct (tasks s !! t) as [task|] eqn:Ht; [| by left].
    assert (t < length (tasks s))%nat by by eapply lookup_lt_Some.
    destruct Hp as [(t' & task' & Ht' & Hin)|[Hp|Hp]]; [| by left; right; left | by left; right; right].
    cbn in Ht'. apply list_lookup_insert_Some in Ht' as [(<- & <- & _)|[_ Ht']]; cbn in Hin.
    + destruct Hin as [Hin|Hin].
      * apply elem_of_app in Hin as [Hin|Hin%list_elem_of_singleton]; [| subst; by right].
        left. left. exists t, task. auto.
      * left. left. exists t, task. auto.
    + left. left. by exists t', task'.
  - intros s Hsp. by destruct (tasks s !! t).
Qed.

Lemma add_exit_release_keeps sc l :
  triple (fun s => spare s l) (add_exit_release sc l) (fun _ s => spare s l).
Proof.
  apply triple_frame.
  - intros s. by destruct (scopes s !! sc).
  - intros s l' Hsp Hp. destruct (scopes s !! sc) as [v|] eqn:Hv; [| by left].
    destruct Hp as [Hp|[(sc' & v' & Hv' & Hin)|Hp]]; [by left; left | | by left; right; right].
    cbn in Hv'. apply list_lookup_insert_Some in Hv' as [(<- & <- & _)|[_ Hv']]; cbn in Hin.
    + apply elem_of_app in Hin as [Hin|Hin%list_elem_of_singleton]; [| subst; by right].
      left. right. left. by exists sc, v.
    + left. right. left. by exists sc', v'.
  - intros s Hsp. by destruct (scopes s !! sc).
Qed.

Lemma set_creator_keeps r t l :
  triple (fun s => spare s l) (set_creator r t l) (fun _ s => spare s l).
Proof.
  apply triple_update. intros s Hs Hsp. destruct (resources s !! r) as [v|] eqn:Hv; [| done].
  split; [| done]. apply (Inv_change s); cbn; try done.
  - apply length_insert.
  - intros r' v' [(<- & <- & _)|[_ Hv']]%list_lookup_insert_Some.
    + exists v. split_and!; try done. destruct (i_phase s Hs r v Hv) as [H1 H2]. by split.
    + exists v'. split_and!; try done. by apply (i_phase s Hs r').
  - apply trace_grows_refl.
  - intros l' Hp. destruct Hp as [Hp|[Hp|(r' & v' & Hv' & Hin)]]; [by left; left | by left; right; left |].
    cbn in Hv'. apply list_lookup_insert_Some in Hv' as [(<- & <- & _)|[_ Hv']].
    + cbn in Hin. injection Hin as <-. by right.
    + left. right. right. by exists r', v'.
Qed.

Lemma register_put_keeps kind x options (s : root) :
  Inv s ->
  Inv (with_resources s (resources s ++
    [mkResource kind x open ∅ (opt_idempotent options) (opt_scopeManaged options)
       (opt_shutdown options) false false None None None NotStarted])).
Proof.
  intros [H1 H2 H3 H4 H5 H6 H7]. set (v0 := mkResource _ _ _ _ _ _ _ _ _ _ _ _ _).
  assert (forall r v, (resources s ++ [v0]) !! r = Some v ->
    resources s !! r = Some v \/ (r = length (resources s) /\ v = v0)) as Hlook.
  { intros r v [Hr|[Hge Hr]]%lookup_app_Some; [by left | right].
    destruct (r - length (resources s))%nat as [|m] eqn:Hm; [| done]. injection Hr as <-.
    split; [lia | done]. }
  assert (forall l, parked (with_resources s (resources s ++ [v0])) l -> parked s l) as Hpk.
  { intros l [Hp|[Hp|(r & v & Hv & Hin)]]; [by left | by right; left |].
    destruct (Hlook r v Hv) as [Hv'|[_ ->]]; [| done]. right. right. by exists r, v. }
  split; cbn [resources all_leases trace uses tasks scopes with_resources].
  - intros r v o [Hv|[-> ->]]%Hlook; [by apply H1 |]. cbn.
    rewrite lookup_empty, lease_count_none; [done |].
    intros l le Hl. specialize (H2 l le Hl). lia.
  - intros l le Hl. rewrite length_app. specialize (H2 l le Hl). lia.
  - intros r v [Hv|[-> ->]]%Hlook; [by apply (H3 r) | by split].
  - intros i r Hi. destruct (H4 i r Hi) as ((v & Hv & Hb) & G). split; [| done].
    exists v. split; [by apply lookup_app_l_Some | done].
  - done.
  - intros r l Hin Hp%Hpk. by apply (H6 r l).
  - intros l Hp%Hpk. by apply H7.
Qed.

Lemma register_keeps x kind options : keeps (registerResourceCore x kind options).
Proof.
  unfold registerResourceCore. intros s Hs _. unfold bind at 1. cbn [get].
  destruct (_ || _)%bool; [done |]. destruct (match opt_shutdown options with Some _ => _ | None => _ end);
    [done |].
  unfold bind at 1. cbn [put].
  pose proof (register_put_keeps kind (x_scope x) options s Hs) as Hs'. revert Hs'.
  generalize (with_resources s (resources s ++
    [mkResource kind (x_scope x) open ∅ (opt_idempotent options) (opt_scopeManaged options)
       (opt_shutdown options) false false None None None NotStarted])).
  intros s' Hs'. destruct (x_task x) as [t|]; [| done].
  refine ((_ : keeps _) s' Hs' I). unfold keeps.
  eapply triple_bind; [apply (triple_acquire (fun _ => True)); done |]. intros l.
  eapply triple_pre; [intros s1 _ (_ & Hsp & _); exact Hsp |].
  eapply triple_bind; [apply set_creator_keeps |]. intros u.
  eapply triple_bind; [apply add_task_dynamic_keeps |]. intros u'.
  eapply triple_bind; [apply triple_get |]. intros s2.
  case_bool_decide; [by apply triple_ret |].
  eapply triple_bind; [| intros; by apply triple_ret].
  eapply triple_pre; [| apply add_exit_release_keeps]. intros s3 _ [_ H3]. exact H3.
Qed.

Lemma beginClose_keeps r :
  triple (fun s => forall v, resources s !! r = Some v -> phase v = NotStarted)
    (beginClose r) (fun _ _ => True).
Proof.
  unfold beginClose. eapply triple_bind; [apply triple_resource |]. intros v s Hs [Hv Hns].
  split; [| done]. specialize (Hns v Hv). apply (Inv_set_resource s r v); try done.
  - apply phase_ok_upd; [by right | done].
  - unfold begun. by rewrite Hns.
Qed.

(** The initial lease of a resource is parked by the resource itself. *)
Lemma same_rest_phase l s v r :
  Inv s -> resources s !! r = Some v ->
  exists v', resources (release l s).2 !! r = Some v' /\ phase v' = phase v.
Proof.
  intros Hs Hv. destruct (release_cases l s Hs) as [[f ->]|(le & w & Hl & Hr & Hw & ->)]; [eauto |].
  cbn. destruct (decide (le_resource le = r)) as [<-|Hne].
  - eexists. rewrite list_lookup_insert_eq by (by eapply lookup_lt_Some). split; [done |].
    rewrite Hv in Hw. injection Hw as ->. done.
  - rewrite list_lookup_insert_ne by done. eauto.
Qed.

Lemma close_keeps x r kind deadline : keeps (closeResourceCore x r kind deadline).
Proof.
  unfold closeResourceCore. eapply triple_bind; [apply triple_resource |]. intros v.
  intros s Hs [Hv _]. unfold bind at 1.
  assert (validateScope v x s = (Done tt, s) \/ exists f, validateScope v x s = (Thrown f, s)) as Hval.
  { unfold validateScope, bind, get, invalid, ret. destruct (_ || _)%bool; eauto. }
  destruct Hval as [->|[f ->]]; [| done].
  destruct (_ && _)%bool; [done |].
  destruct (match deadline with Some _ => _ | None => _ end); [done |].
  unfold bind at 1. destruct (initialRelease v) as [l|] eqn:Hl.
  - assert (Inv (release l s).2) as Hri.
    { apply release_inv; [done |]. intros r' Hin. apply (i_apart s Hs r' l Hin).
      right. right. by exists r, v. }
    pose proof (same_rest_phase l s v r Hs Hv) as (v' & Hv' & Hph).
    assert (forall s', Inv s' -> (exists v', resources s' !! r = Some v' /\ phase v' = phase v) ->
      let '(res, s'') := (match phase v with NotStarted => beginClose r | _ => ret tt end) s' in
      Inv s'' /\ match res with Done _ | _ => True end) as Hend.
    { intros s' Hs' (w & Hw & Hpw). destruct (phase v) eqn:Hp; try done.
      apply (beginClose_keeps r s' Hs'). intros w' Hw'. congruence. }
    case_bool_decide; [| apply Hend; eauto].
    unfold release_once, bind, get, ret.
    destruct (all_leases s !! l) as [le|]; [| apply Hend; eauto].
    destruct (released le); [apply Hend; eauto |].
    destruct (release l s) as [[u|f] s']; [| done]. apply Hend; eauto.
  - cbn [ret]. destruct (phase v) eqn:Hp; try done.
    apply (beginClose_keeps r s Hs). intros w Hw. congruence.
Qed.

(** *** Retention *)

Definition stable (P : root -> Prop) : Prop := forall s s', P s -> same_rest s s' -> P s'.

Lemma stable_spares (P : root -> Prop) ls : stable P -> stable (fun s => P s /\ Forall (spare s) ls).
Proof.
  intros HP s s' [Hp Hl] Hr. split; [by apply (HP s) |].
  eapply Forall_impl; [exact Hl |]. intros l Hsp. by eapply spare_rest.
Qed.

Lemma triple_release_all (P : root -> Prop) ls :
  stable P -> (forall s, P s -> Forall (spare s) ls) -> triple P (each release ls) (fun _ => P).
Proof.
  intros HP Hl. apply triple_each. intros l Hin. apply triple_release; [exact HP |].
  intros s _ Hp. by apply (proj1 (Forall_forall _ _) (Hl s Hp)).
Qed.

Lemma triple_release_once_all (P : root -> Prop) ls :
  stable P -> (forall s, P s -> Forall (spare s) ls) -> triple P (each release_once ls) (fun _ => P).
Proof.
  intros HP Hl. apply triple_each. intros l Hin. apply triple_release_once; [exact HP |].
  intros s _ Hp. by apply (proj1 (Forall_forall _ _) (Hl s Hp)).
Qed.

(** A rollback runs and the exception goes on. *)
Lemma triple_rollback {A B} (P : root -> Prop) (m : M A) (Q : A -> root -> Prop)
    (k : A -> M B) (undo : M unit) R :
  triple P m (fun a s => Q a s) -> (forall a, triple (Q a) (k a) R) ->
  (forall s f s', Inv s -> P s -> m s = (Thrown f, s') -> Inv (undo s').2) ->
  triple P (fun s => match m s with
                     | (Done a, s') => k a s'
                     | (Thrown f, s') => match undo s' with
                                         | (Done _, s'') => (Thrown f, s'')
                                         | (Thrown g, s'') => (Thrown g, s'')
                                         end
                     end) R.
Proof.
  intros Hm Hk Hu s Hs Hp. specialize (Hm s Hs Hp).
  destruct (m s) as [[a|f] s'] eqn:Hms; destruct Hm as [Hs' Hq]; [by apply (Hk a) |].
  specialize (Hu s f s' Hs Hp Hms). destruct (undo s') as [[u|g] s'']; done.
Qed.

Lemma acquire_throw r x s f s' : Inv s -> acquire r x s = (Thrown f, s') -> s' = s.
Proof.
  intros Hs Ha. pose proof (acquire_inv r x s Hs) as H. rewrite Ha in H. by destruct H as (_ & _ & ?).
Qed.

Lemma triple_retain_from (P : root -> Prop) captured x taken :
  stable P ->
  triple (fun s => P s /\ Forall (spare s) taken) (retain_from captured x taken)
    (fun ls s => P s /\ Forall (spare s) ls).
Proof.
  intros HP. revert taken. induction captured as [|r captured IH]; intros taken; cbn [retain_from].
  { by apply triple_ret. }
  eapply triple_rollback; [apply triple_acquire; by apply stable_spares | |].
  - intros l. eapply triple_pre; [| apply IH]. intros s Hs ((Hp & Ht) & Hsp & _).
    split; [done |]. by constructor.
  - intros s f s' Hs [Hp Ht] Ha. apply acquire_throw in Ha as ->; [| done].
    pose proof (triple_release_all (fun s => P s /\ Forall (spare s) taken) taken
      (stable_spares P taken HP) (fun _ H => proj2 H) s Hs (conj Hp Ht)) as Hr.
    by destruct (each release taken s) as [[u|g] s''], Hr.
Qed.

Lemma triple_retain (P : root -> Prop) captured x :
  stable P -> triple P (retain captured x) (fun ls s => P s /\ Forall (spare s) ls).
Proof.
  intros HP. eapply triple_pre; [| by apply triple_retain_from]. intros s _ Hp. by split.
Qed.

(** A failed retention leaves the tasks, the uses and the parked leases alone. *)
Lemma each_release_rest ls s :
  Inv s -> Forall (spare s) ls -> Inv (each release ls s).2 /\ same_rest s (each release ls s).2.
Proof.
  revert s. induction ls as [|l ls IH]; intros s Hs Hl; cbn [each]; [by split; [| apply same_rest_refl] |].
  apply Forall_cons in Hl as [[Hlt Hn] Hl]. unfold bind.
  destruct (release_inv l s Hs Hn) as [Hs' Hr]. destruct (release l s) as [[u|f] s']; [| done].
  cbn in Hs', Hr. destruct (IH s' Hs') as [Hs'' Hr'].
  { eapply Forall_impl; [exact Hl |]. intros l' Hsp. by eapply spare_rest. }
  split; [done | by eapply same_rest_trans].
Qed.

Lemma retain_from_rest captured x taken s :
  Inv s -> Forall (spare s) taken -> same_rest s (retain_from captured x taken s).2.
Proof.
  revert taken s. induction captured as [|r captured IH]; intros taken s Hs Ht; cbn [retain_from].
  { apply same_rest_refl. }
  pose proof (acquire_inv r x s Hs) as Ha. destruct (acquire r x s) as [[l|f] s'] eqn:Heq.
  - destruct Ha as (Hs' & Hr & Hl & Hnp & Hal & _). eapply same_rest_trans; [exact Hr |].
    apply IH; [done |]. constructor.
    + split; [rewrite Hal, length_app; cbn; lia |]. intros r' Hin.
      destruct Hr as (_&_&_&_&_&Hu&_). rewrite Hu in Hin.
      destruct (i_uses s Hs r' l Hin) as [o Ho]. apply lookup_lt_Some in Ho. lia.
    + eapply Forall_impl; [exact Ht |]. intros l' Hsp. by eapply spare_rest.
  - destruct Ha as (_ & _ & ->). pose proof (each_release_rest taken s Hs Ht) as [_ Hr].
    by destruct (each release taken s) as [[u|g] s''].
Qed.

Lemma each_each_release (P : root -> Prop) lss :
  stable P -> (forall s, P s -> Forall (Forall (spare s)) lss) ->
  triple P (each (each release) lss) (fun _ => P).
Proof.
  intros HP Hl. apply triple_each. intros ls Hin. apply triple_release_all; [exact HP |].
  intros s Hp. by apply (proj1 (Forall_forall _ _) (Hl s Hp)).
Qed.

Lemma stable_spares2 (P : root -> Prop) lss :
  stable P -> stable (fun s => P s /\ Forall (Forall (spare s)) lss).
Proof.
  intros HP s s' [Hp Hl] Hr. split; [by apply (HP s) |].
  eapply Forall_impl; [exact Hl |]. intros ls Hls. eapply Forall_impl; [exact Hls |].
  intros l Hsp. by eapply spare_rest.
Qed.

Lemma triple_retain_all (P : root -> Prop) participants x retained :
  stable P ->
  triple (fun s => P s /\ Forall (Forall (spare s)) retained)
    (retain_all participants x retained)
    (fun lss s => P s /\ Forall (Forall (spare s)) lss).
Proof.
  intros HP. revert retained. induction participants as [|captured rest IH]; intros retained;
    cbn [retain_all].
  { apply triple_ret. intros s [Hp Hl]. split; [done | by apply Forall_rev]. }
  eapply triple_rollback; [apply triple_retain; by apply stable_spares2 | |].
  - intros ls. eapply triple_pre; [| apply IH]. intros s Hs ((Hp & Hl) & Hls).
    split; [done |]. by constructor.
  - intros s f s' Hs [Hp Hl] Hre.
    pose proof (triple_retain (fun s => P s /\ Forall (Forall (spare s)) retained) captured x
      (stable_spares2 P retained HP) s Hs (conj Hp Hl)) as Ht. rewrite Hre in Ht.
    destruct Ht as [Hs' _].
    pose proof (retain_from_rest captured x [] s Hs ltac:(constructor)) as Hr.
    unfold retain in Hre. rewrite Hre in Hr. cbn in Hr.
    pose proof (stable_spares2 P retained HP s s' (conj Hp Hl) Hr) as Hpl.
    pose proof (each_each_release _ retained (stable_spares2 P retained HP) (fun _ H => proj2 H)
      s' Hs' Hpl) as Hr2.
    by destruct (each (each release) retained s') as [[u|g] s''], Hr2.
Qed.

(** *** Groups *)

Lemma triple_frame_same (P : root -> Prop) (f : root -> root) :
  (forall s, resources (f s) = resources s /\ all_leases (f s) = all_leases s /\
     trace (f s) = trace s /\ uses (f s) = uses s /\ tasks (f s) = tasks s /\
     scopes (f s) = scopes s) ->
  (forall s, P s -> P (f s)) ->
  triple P (fun s => (Done tt, f s)) (fun _ => P).
Proof.
  intros Hf HP. apply triple_frame; [| | done].
  - intros s. destruct (Hf s) as (?&?&?&?&_). done.
  - intros s l _. unfold parked. destruct (Hf s) as (->&_&_&_&->&->). by left.
Qed.

Lemma put_frame (s : root) (f : root -> root) :
  Inv s -> (Inv s -> Inv (f s)) -> Inv (f s).
Proof. auto. Qed.

Lemma Inv_same_parts s s' :
  Inv s -> resources s' = resources s -> all_leases s' = all_leases s -> trace s' = trace s ->
  uses s' = uses s -> tasks s' = tasks s -> scopes s' = scopes s -> Inv s'.
Proof.
  intros Hs Hr Hl Ht Hu Htk Hsc. apply (Inv_frame s); try done.
  - rewrite Ht. apply trace_grows_refl.
  - by rewrite Hu.
  - intros l. unfold parked. by rewrite Hr, Htk, Hsc.
Qed.

Lemma new_tasks_inv s news :
  Inv s -> Forall (fun t => Forall (spare s) (dynamic t ++ tk_release t)) news ->
  Inv (with_tasks s (tasks s ++ news)).
Proof.
  intros Hs Hn. apply (Inv_change s); try done.
  - intros r v Hv. exists v. split_and!; try done. by apply (i_phase s Hs r).
  - apply trace_grows_refl.
  - intros l [(t & task & Ht & Hin)|Hp]; [| by left; right].
    cbn in Ht. apply lookup_app_Some in Ht as [Ht|[_ Ht]]; [left; left; eauto | right].
    pose proof (proj1 (Forall_lookup _ _) Hn _ _ Ht) as Hsp. cbn in Hsp.
    apply (proj1 (Forall_forall _ _) Hsp l). apply elem_of_app. tauto.
Qed.

Lemma prepareLaunch_keeps x participants native : keeps (prepareLaunch x participants native).
Proof.
  unfold prepareLaunch. intros s Hs _. unfold bind at 1. cbn [get].
  destruct (_ && _)%bool; [done |].
  set (own := match x_owner x with Some o => _ | None => _ end). unfold bind at 1. cbn [put].
  assert (Inv (with_owner s own.2)) as Hs' by (by apply (Inv_same_parts s)).
  revert Hs'. generalize (with_owner s own.2). intros s1 Hs1.
  set (child := mkExecution _ _ _).
  pose proof (triple_retain_all (fun _ => True) participants child [] ltac:(done) s1 Hs1
    ltac:(by split)) as Hre.
  unfold bind at 1. destruct (retain_all participants child [] s1) as [[retained|f] s2]; [| by destruct Hre].
  destruct Hre as (Hs2 & _ & Hsp).
  unfold bind, get, put, ret. split; [| done].
  set (s3 := with_tasks s2 _). assert (Inv s3) as Hs3; [| by apply (Inv_same_parts s3)].
  apply new_tasks_inv; [done |]. rewrite Forall_fmap. eapply Forall_impl; [exact Hsp |].
  intros ls Hls. done.
Qed.

Lemma observe_keeps group i : keeps (observeLaunched group i).
Proof.
  unfold observeLaunched. intros s Hs _. unfold bind at 1. cbn [get].
  destruct (mbind tk_completion _) as [[| |o]|]; try done.
  case_bool_decide; [done |]. by apply (triple_emit (fun _ => True)).
Qed.

Lemma keeps_each {B} (f : B -> M unit) ls : (forall l, keeps (f l)) -> keeps (each f ls).
Proof. intros Hf. apply (triple_each (fun _ => True)). intros l _. apply Hf. Qed.

Lemma keeps_put_frame (f : root -> root) :
  (forall s, resources (f s) = resources s /\ all_leases (f s) = all_leases s /\
     trace (f s) = trace s /\ uses (f s) = uses s /\ tasks (f s) = tasks s /\
     scopes (f s) = scopes s) ->
  keeps (fun s => (Done tt, f s)).
Proof. intros Hf. by apply (triple_frame_same (fun _ => True)). Qed.

Lemma finish_keeps g index : keeps (finishLaunched g index).
Proof.
  unfold finishLaunched. intros s Hs _. unfold bind at 1. cbn [get].
  destruct (groups s !! g) as [group|]; [| done]. destruct (sealed group); cbn [negb]; [| done].
  refine ((_ : keeps _) s Hs I). apply keeps_bind.
  - destruct index; [apply observe_keeps | apply keeps_each; intros; apply observe_keeps].
  - intros _. destruct (pending group =? 0); [| by apply triple_ret].
    by apply (keeps_put_frame (fun s => with_groups s (groups s) (filter (fun x => x <> g) (live_groups s)))).
Qed.

Lemma set_group_keeps g v : keeps (set_group g v).
Proof. by apply keeps_put_frame. Qed.

Lemma publish_keeps g chosen : keeps (publish g chosen).
Proof.
  unfold publish. intros s Hs _. unfold bind at 1. cbn [get].
  destruct (groups s !! g) as [group|]; [| done]. destruct (_ || _)%bool; [done |].
  refine ((_ : keeps _) s Hs I).
  apply keeps_bind; [apply set_group_keeps | intros; apply finish_keeps].
Qed.

(** A task whose kept leases are among those it had, or gone. *)
Lemma set_task_triple t v (P : root -> Prop) :
  (forall s l, P s -> l ∈ dynamic v ++ tk_release v -> spare s l) ->
  (forall s, P s -> P (with_tasks s (<[t := v]> (tasks s)))) ->
  triple P (set_task t v) (fun _ => P).
Proof.
  intros Hsp HP. apply triple_frame; [done | | done]. intros s l Hp Hpk.
  destruct Hpk as [(t' & task & Ht & Hin)|Hpk]; [| by left; right].
  cbn in Ht. apply list_lookup_insert_Some in Ht as [(<- & <- & _)|[_ Ht]]; [| left; left; eauto].
  right. apply Hsp; [done |]. apply elem_of_app. tauto.
Qed.

(** The leases of a finished task are given back. *)
Lemma settle_task_keeps t sc dyn rel completion (rest : M unit) s :
  Inv s -> tasks s !! t = Some (mkTask sc dyn rel None) -> keeps rest ->
  let '(r, s') := (do! _ := set_task t (mkTask sc dyn rel (Some completion)) in
                   do! _ := each release rel in
                   do! _ := each release_once dyn in
                   do! _ := set_task t (mkTask sc [] rel (Some completion)) in rest) s in
  Inv s' /\ match r with Done _ | _ => True end.
Proof.
  intros Hs Ht Hrest. set (P := fun s : root => Forall (spare s) (dyn ++ rel)).
  assert (P s) as Hp.
  { apply Forall_forall. intros l Hl. apply parked_spare; [done |]. left.
    exists t, (mkTask sc dyn rel None). split; [done |]. apply elem_of_app in Hl. done. }
  assert (stable P) as Hst.
  { intros s1 s2 H Hr. eapply Forall_impl; [exact H |]. intros l Hsp. by eapply spare_rest. }
  assert (forall s1 l, P s1 -> l ∈ dyn ++ rel -> spare s1 l) as HPl.
  { intros s1 l H Hl. by apply (proj1 (Forall_forall _ _) H). }
  refine ((_ : triple P _ (fun _ _ => True)) s Hs Hp).
  eapply triple_bind; [apply (set_task_triple t _ P); [by apply HPl | done] |]. intros u1.
  eapply triple_bind; [apply (triple_release_all P); [done |] |].
  { intros s1 H. by apply Forall_app in H as [_ H]. }
  intros u2. eapply triple_bind; [apply (triple_release_once_all P); [done |] |].
  { intros s1 H. by apply Forall_app in H as [H _]. }
  intros u3. eapply triple_bind; [apply (set_task_triple t _ P); [| done] |].
  { intros s1 l H Hl. cbn in Hl. apply (HPl s1 l H). apply elem_of_app. by right. }
  intros u4. by apply keeps_triple.
Qed.

Lemma settle_keeps g index completion : keeps (settleLaunched g index completion).
Proof.
  unfold settleLaunched. intros s Hs _. unfold bind at 1. cbn [get].
  destruct (groups s !! g) as [group|]; [| done].
  destruct (gr_tasks group !! index) as [t|]; [| done].
  destruct (tasks s !! t) as [[sc dyn rel [c|]]|] eqn:Ht; [done | | done].
  apply settle_task_keeps; [done | done |].
  apply keeps_bind; [apply set_group_keeps | intros; apply finish_keeps].
Qed.

(** *** Scopes, callbacks and drains *)

Lemma createChildScope_keeps x : keeps (createChildScope x).
Proof.
  unfold createChildScope. intros s Hs _. unfold bind at 1. cbn [get].
  destruct (negb _); [done |]. unfold bind, put, ret. split; [| done].
  apply (Inv_frame s); try done; [apply trace_grows_refl |].
  intros l [Hp|[(sc & v & Hv & Hin)|Hp]]; [by left | | by right; right].
  cbn in Hv. apply lookup_app_Some in Hv as [Hv|[_ Hv]]; [right; left; eauto |].
  apply list_lookup_singleton_Some in Hv as [_ <-]. inversion Hin.
Qed.

Lemma settleScopeBody_keeps sc : keeps (settleScopeBody sc).
Proof.
  unfold settleScopeBody. intros s Hs _. unfold bind at 1. cbn [get].
  destruct (scopes s !! sc) as [v|] eqn:Hv; [| done].
  set (P := fun s : root => Forall (spare s) (exitReleases v)).
  refine ((_ : triple P _ (fun _ _ => True)) s Hs _).
  - eapply triple_bind; [apply (triple_release_once_all P) |].
    + intros s1 s2 H Hr. eapply Forall_impl; [exact H |]. intros l Hsp. by eapply spare_rest.
    + done.
    + intros u. apply keeps_triple. apply (triple_frame (fun _ => True)); [done | | done].
      intros s1 l _ [Hp|[(sc' & v' & Hv' & Hin)|Hp]]; [by left; left | | by left; right; right].
      cbn in Hv'. apply list_lookup_insert_Some in Hv' as [(<- & <- & _)|[_ Hv']];
        [inversion Hin | left; right; left; eauto].
  - apply Forall_forall. intros l Hl. apply parked_spare; [done |]. right. left. eauto.
Qed.

Lemma callback_begin_keeps sc : keeps (callback_begin sc).
Proof.
  unfold callback_begin. intros s Hs _. unfold bind at 1. cbn [get].
  destruct (negb _); [done |]. unfold bind, put, ret. split; [| done].
  apply (Inv_same_parts (with_tasks s (tasks s ++ [mkTask sc [] [] None]))); try done.
  apply new_tasks_inv; [done |]. by repeat constructor.
Qed.

Lemma settleCallbackTask_keeps t completion : keeps (settleCallbackTask t completion).
Proof.
  unfold settleCallbackTask. intros s Hs _. unfold bind at 1. cbn [get].
  destruct (tasks s !! t) as [[sc dyn rel [c|]]|] eqn:Ht; [done | | done].
  set (P := fun s : root => Forall (spare s) (dyn ++ rel)).
  assert (forall s1 l, P s1 -> l ∈ dyn ++ rel -> spare s1 l) as HPl.
  { intros s1 l H Hl. by apply (proj1 (Forall_forall _ _) H). }
  refine ((_ : triple P _ (fun _ _ => True)) s Hs _).
  - eapply triple_bind; [apply (set_task_triple t _ P); [by apply HPl | done] |]. intros u1.
    eapply triple_bind; [apply (triple_release_once_all P) |].
    { intros s1 s2 H Hr. eapply Forall_impl; [exact H |]. intros l Hsp. by eapply spare_rest. }
    { intros s1 H. by apply Forall_app in H as [H _]. }
    intros u2. eapply triple_bind; [apply (set_task_triple t _ P); [| done] |].
    { intros s1 l H Hl. cbn in Hl. apply (HPl s1 l H). apply elem_of_app. by right. }
    intros u3. apply keeps_triple.
    by apply (keeps_put_frame (fun s => with_callbacks s (filter (fun x => x <> t) (callbacks s)))).
  - apply Forall_forall. intros l Hl. apply parked_spare; [done |]. left.
    exists t, (mkTask sc dyn rel None). split; [done |]. apply elem_of_app in Hl. done.
Qed.

Lemma drain_timers_keeps sc : keeps (drain_timers sc).
Proof.
  apply triple_update. intros s Hs _. split; [| done].
  assert (forall r v', ((fun v => if wants_timer s sc v then set_timer v true else v) <$> resources s) !! r
    = Some v' -> exists v, resources s !! r = Some v /\ leases v' = leases v /\
      initialRelease v' = initialRelease v /\ (phase_ok v -> phase_ok v') /\ begun v' = begun v) as Hlook.
  { intros r v' Hv'. rewrite list_lookup_fmap in Hv'.
    destruct (resources s !! r) as [v|]; [| done]. injection Hv' as <-. exists v.
    destruct (wants_timer s sc v); split_and!; try done. intros Hp. by apply phase_ok_same. }
  apply (Inv_change s); try done.
  - apply length_fmap.
  - intros r v' Hv'. destruct (Hlook r v' Hv') as (v & Hv & Hl & _ & Hp & Hb). exists v.
    split_and!; try done; [by apply Hp, (i_phase s Hs r) | by rewrite Hb].
  - apply trace_grows_refl.
  - intros l [Hp|[Hp|(r & v' & Hv' & Hin)]]; [by left; left | by left; right; left |].
    destruct (Hlook r v' Hv') as (v & Hv & _ & Hi & _). left. right. right. exists r, v.
    by rewrite <- Hi.
Qed.

Lemma Inv_scope_state s sc v st :
  Inv s -> scopes s !! sc = Some v ->
  Inv (with_scopes s (<[sc := set_scope_state v st]> (scopes s))).
Proof.
  intros Hs Hv. apply (Inv_frame s); try done; [apply trace_grows_refl |].
  intros l [Hp|[(sc' & v' & Hv' & Hin)|Hp]]; [by left | | by right; right].
  cbn in Hv'. apply list_lookup_insert_Some in Hv' as [(<- & <- & _)|[_ Hv']];
    right; left; eauto.
Qed.

Lemma drain_ready_keeps sc : keeps (drain_ready sc).
Proof.
  unfold drain_ready. intros s Hs _. unfold bind at 1. cbn [get].
  destruct (_ || _)%bool; [done |]. split; [| done].
  destruct (scopes s !! sc) as [v|] eqn:Hv; [| done].
  by apply (Inv_same_parts _ _ (Inv_scope_state s sc v closing Hs Hv)).
Qed.

Lemma set_drain_keeps d v : keeps (set_drain d v).
Proof. by apply keeps_put_frame. Qed.

Lemma drain_next_keeps d : keeps (drain_next d).
Proof.
  unfold drain_next. intros s Hs _. unfold bind at 1. cbn [get].
  destruct (drains s !! d) as [[sc [|r rest] [w|] first]|]; try done.
  refine ((_ : keeps _) s Hs I).
  eapply triple_bind; [apply triple_resource |]. intros v.
  destruct (negb _); [apply keeps_triple, set_drain_keeps |].
  destruct (_ || _)%bool eqn:Hopen.
  - intros s1 Hs1 [Hv _].
    assert (phase v = NotStarted) as Hns.
    { destruct (i_phase s1 Hs1 r v Hv) as [Hst _].
      apply orb_true_iff in Hopen as [Ho|Ha]; [apply bool_decide_eq_true in Ho; rewrite Ho in Hst |].
      - by destruct Hst.
      - rewrite Ha in Hst. destruct (rs_state v); [by destruct Hst | | by destruct Hst].
        by destruct Hst as [[_ ?]|[? _]]. }
    set (P := fun s : root => forall v, resources s !! r = Some v -> phase v = NotStarted).
    refine ((_ : triple (fun s => resources s !! r = Some v) _ (fun _ _ => True)) s1 Hs1 Hv).
    eapply (triple_bind _ _ (fun _ => P)).
    + destruct (_ && _)%bool; [| apply triple_ret; intros s2 H2 w Hw; congruence].
      eapply triple_bind.
      * apply (triple_cleanup (fun s => resources s !! r = Some v)).
        intros s2 s3 H2 Hc. destruct Hc as [-> _]. done.
      * intros o. apply (triple_set_resource _ r v); try done; [by intros Hp; apply phase_ok_same |].
        intros s2 H2 w Hw. cbn in Hw.
        rewrite list_lookup_insert_eq in Hw by (by eapply lookup_lt_Some). by injection Hw as <-.
    + intros u. eapply triple_bind; [apply beginClose_keeps | intros; apply set_drain_keeps].
  - destruct (phase v); apply keeps_triple, set_drain_keeps.
Qed.

Lemma drain_resume_keeps d : keeps (drain_resume d).
Proof.
  unfold drain_resume. intros s Hs _. unfold bind at 1. cbn [get].
  destruct (drains s !! d) as [[sc rest [r|] first]|]; try done.
  refine ((_ : keeps _) s Hs I).
  eapply triple_bind; [apply triple_resource |]. intros v.
  destruct (settled v); [apply keeps_triple, set_drain_keeps | by apply triple_ret].
Qed.

Lemma drain_end_keeps d : keeps (drain_end d).
Proof.
  unfold drain_end. intros s Hs _. unfold bind at 1. cbn [get].
  destruct (drains s !! d) as [[sc [|r rest] [w|] first]|]; try done. split; [| done].
  destruct (scopes s !! sc) as [v|] eqn:Hv; [| done]. by apply Inv_scope_state.
Qed.

Lemma act_keeps m : keeps (act m).
Proof.
  destruct m; cbn [act];
    try (apply keeps_bind; [apply requireContext_keeps | intros _; try apply keeps_discard]).
  - apply register_keeps.
  - apply use_begin_keeps.
  - apply use_end_keeps.
  - apply close_keeps.
  - apply close_call_keeps.
  - apply close_settled_keeps.
  - apply close_deadline_keeps.
  - apply prepareLaunch_keeps.
  - apply settle_keeps.
  - apply publish_keeps.
  - apply createChildScope_keeps.
  - apply settleScopeBody_keeps.
  - apply keeps_discard, callback_begin_keeps.
  - apply settleCallbackTask_keeps.
  - apply drain_timers_keeps.
  - apply shutdown_fired_keeps.
  - apply drain_ready_keeps.
  - apply drain_next_keeps.
  - apply drain_resume_keeps.
  - apply drain_end_keeps.
Qed.

Lemma Inv_createRoot : Inv createRoot.
Proof.
  assert (forall l, ~ parked createRoot l) as Hp.
  { intros l [(t & task & Ht & _)|[(sc & v & Hv & Hin)|(r & v & Hv & _)]];
      [done | | done].
    cbn in Hv. apply list_lookup_singleton_Some in Hv as [_ <-]. inversion Hin. }
  split; try done.
  - intros r l Hin. inversion Hin.
  - intros l Hl. by destruct (Hp l).
Qed.

Lemma run_moves_inv moves : Inv (run_moves moves createRoot).
Proof.
  unfold run_moves. pose proof Inv_createRoot as H. revert H. generalize createRoot.
  induction moves as [|m moves IH]; intros s Hs; [done |]. cbn [fold_left]. apply IH.
  pose proof (act_keeps m s Hs I) as Ha. by destruct (act m s) as [r s'], Ha.
Qed.
