(* ===== verification/OwnerTheorems.v ===== *)
(** * Ownership: what every run of [owner-core.ts] keeps *)
From stdpp Require Import base gmap list strings.
From Stdlib Require Import ZArith Lia.
From S2P Require Import Prelude Completion Owner OwnerInv.

(** ** Failed launches *)

(** From [s0] to [s] the leases [taken] were acquired and are still held; other
    leases acquired in between were given back. *)
Record held (s0 s : root) (taken : list nat) : Prop := {
  hd_inv : Inv s;
  hd_rest : same_rest s0 s;
  hd_old : forall l, (l < length (all_leases s0))%nat -> all_leases s !! l = all_leases s0 !! l;
  hd_new : forall l le, (length (all_leases s0) <= l)%nat -> all_leases s !! l = Some le ->
    (released le = false <-> l ∈ taken);
  hd_taken : Forall (fun l => (length (all_leases s0) <= l < length (all_leases s))%nat) taken;
  hd_nodup : NoDup taken;
  hd_resources : forall r v, resources s0 !! r = Some v ->
    exists ls, resources s !! r = Some (set_leases v ls)
}.

Lemma set_leases_same v : set_leases v (leases v) = v.
Proof. by destruct v. Qed.

Lemma held_refl s : Inv s -> held s s [].
Proof.
  intros Hs. split; try done; try apply same_rest_refl; try apply NoDup_nil_2.
  - intros l le Hge Hl. apply lookup_lt_Some in Hl. lia.
  - intros r v Hv. exists (leases v). by rewrite set_leases_same.
Qed.

Lemma held_spare s0 s taken : Inv s0 -> held s0 s taken -> Forall (spare s) taken.
Proof.
  intros H0 [Hi Hr _ _ Ht _ _]. eapply Forall_impl; [exact Ht |]. intros l [Hge Hlt].
  split; [done |]. intros r Hin. destruct Hr as (_&_&_&_&_&Hu&_). rewrite Hu in Hin.
  destruct (i_uses s0 H0 r l Hin) as [o Ho]. apply lookup_lt_Some in Ho. lia.
Qed.

Lemma held_acquire s0 s taken r x l s' :
  held s0 s taken -> acquire r x s = (Done l, s') -> held s0 s' (l :: taken).
Proof.
  intros [Hi Hr Ho Hn Ht Hd Hv] Ha. pose proof (acquire_inv r x s Hi) as Hinv.
  destruct (acquire_cases r x s) as [[f Hf]|(v & Hv' & _ & _ & _ & _ & Hf)]; [congruence |].
  rewrite Ha in Hinv, Hf. destruct Hinv as (Hi' & Hr' & -> & _ & Hal & _).
  assert (length (all_leases s) >= length (all_leases s0))%nat as Hge by apply Hr.
  assert (length (all_leases s') = S (length (all_leases s))) as Hlen
    by (rewrite Hal, length_app; cbn; lia).
  split; try done.
  - by eapply same_rest_trans.
  - intros l Hl. rewrite Hal, lookup_app_l by lia. by apply Ho.
  - intros l le Hl. rewrite Hal. intros [Hle|[Hge' Hle]]%lookup_app_Some.
    + rewrite (Hn l le Hl Hle). apply lookup_lt_Some in Hle. rewrite elem_of_cons.
      split; [by right | intros [->|?]; [lia | done]].
    + destruct (l - length (all_leases s))%nat as [|m] eqn:Hm; [| done]. injection Hle as <-.
      split; [| done]. intros _. replace l with (length (all_leases s)) by lia. by left.
  - constructor; [lia |]. eapply Forall_impl; [exact Ht |]. cbn. intros; lia.
  - constructor; [| done]. intros Hin. apply (proj1 (Forall_forall _ _) Ht) in Hin. lia.
  - intros r' w Hw. destruct (Hv r' w Hw) as [ls Hls]. injection Hf as ->.
    cbn. destruct (decide (r = r')) as [->|Hne].
    + rewrite list_lookup_insert_eq by (by eapply lookup_lt_Some). rewrite Hls in Hv'.
      injection Hv' as <-. eexists. done.
    + rewrite list_lookup_insert_ne by done. by exists ls.
Qed.

Lemma held_release s0 s l taken :
  Inv s0 -> held s0 s (l :: taken) ->
  exists s', release l s = (Done tt, s') /\ held s0 s' taken.
Proof.
  intros H0 Hh. pose proof (held_spare _ _ _ H0 Hh) as Hsp. apply Forall_cons in Hsp as [[_ Hnu] _].
  destruct Hh as [Hi Hr Ho Hn Ht Hd Hv]. apply Forall_cons in Ht as [[Hge Hlt] Ht].
  apply NoDup_cons in Hd as [Hnin Hd].
  pose proof (release_inv l s Hi Hnu) as [Hi' Hr'].
  destruct (lookup_lt_is_Some_2 _ _ Hlt) as [le Hle].
  assert (released le = false) as Hrel by (apply (Hn l le Hge Hle); left).
  destruct (lookup_lt_is_Some_2 _ _ (i_range s Hi l le Hle)) as [v Hv'].
  destruct (release_cases l s Hi) as [[f Hf]|(le' & v' & Hle' & _ & Hv'' & Hf)].
  { exfalso. unfold release, resource, bind, get, put, set_resource in Hf. rewrite Hle, Hrel in Hf.
    cbn [resources with_leases] in Hf. rewrite Hv' in Hf. done. }
  rewrite Hle in Hle'. injection Hle' as <-. eexists. split; [exact Hf |].
  rewrite Hf in Hi', Hr'. cbn [snd] in Hi', Hr'.
  split; cbn [all_leases resources with_leases with_resources]; try done.
  - by eapply same_rest_trans.
  - intros l' Hl'. rewrite list_lookup_insert_ne by lia. by apply Ho.
  - intros l' le' Hl' [(<- & <- & _)|[Hne Hle']]%list_lookup_insert_Some.
    + cbn. split; [done |]. intros Hin. done.
    + rewrite (Hn l' le' Hl' Hle'), elem_of_cons. split; [intros [?|?] | right]; done.
  - rewrite length_insert. done.
  - intros r w Hw. destruct (Hv r w Hw) as [ls Hls].
    destruct (decide (le_resource le = r)) as [<-|Hne].
    + rewrite list_lookup_insert_eq by (by eapply lookup_lt_Some). rewrite Hls in Hv''.
      injection Hv'' as <-. eexists. done.
    + rewrite list_lookup_insert_ne by done. by exists ls.
Qed.

Lemma held_release_all s0 s ls taken :
  Inv s0 -> held s0 s (ls ++ taken) ->
  exists s', each release ls s = (Done tt, s') /\ held s0 s' taken.
Proof.
  intros H0. revert s. induction ls as [|l ls IH]; intros s Hh; cbn [each]; [by exists s |].
  destruct (held_release s0 s l (ls ++ taken) H0 Hh) as (s' & Hr & Hh'). unfold bind. rewrite Hr.
  by apply IH.
Qed.

Lemma held_release_lists s0 s lss :
  Inv s0 -> held s0 s (concat lss) ->
  exists s', each (each release) lss s = (Done tt, s') /\ held s0 s' [].
Proof.
  intros H0. revert s. induction lss as [|ls lss IH]; intros s Hh; cbn [each]; [by exists s |].
  destruct (held_release_all s0 s ls (concat lss) H0 Hh) as (s' & Hr & Hh'). unfold bind. rewrite Hr.
  by apply IH.
Qed.

(** [retain] takes every lease or gives back those it took. *)
Lemma held_retain_from s0 captured x taken rest s :
  Inv s0 -> held s0 s (taken ++ rest) ->
  match retain_from captured x taken s with
  | (Done ls, s') => held s0 s' (ls ++ rest)
  | (Thrown _, s') => held s0 s' rest
  end.
Proof.
  intros H0. revert taken s. induction captured as [|r captured IH]; intros taken s Hh;
    cbn [retain_from]; [done |].
  destruct (acquire r x s) as [[l|f] s'] eqn:Ha.
  - apply IH. by eapply (held_acquire s0 s (taken ++ rest)).
  - apply acquire_throw in Ha as ->; [| by apply Hh].
    by destruct (held_release_all s0 s taken rest H0 Hh) as (s' & -> & ?).
Qed.

Lemma held_retain_all s0 participants x retained s :
  Inv s0 -> held s0 s (concat retained) ->
  match retain_all participants x retained s with
  | (Done _, s') => True
  | (Thrown _, s') => held s0 s' []
  end.
Proof.
  intros H0. revert retained s. induction participants as [|c rest IH]; intros retained s Hh;
    cbn [retain_all]; [done |].
  pose proof (held_retain_from s0 c x [] (concat retained) s H0 Hh) as Hre.
  unfold retain. destruct (retain_from c x [] s) as [[ls|f] s'].
  - by apply (IH (ls :: retained)).
  - by destruct (held_release_lists s0 s' retained H0 Hre) as (s'' & -> & ?).
Qed.

(** Leases given back do not count. *)
Lemma held_count s0 s r o :
  held s0 s [] -> lease_count r o (all_leases s) = lease_count r o (all_leases s0).
Proof.
  intros [_ Hr Ho Hn _ _ _].
  assert (length (all_leases s0) <= length (all_leases s))%nat as Hge by apply Hr.
  rewrite <- (take_drop (length (all_leases s0)) (all_leases s)).
  replace (take (length (all_leases s0)) (all_leases s)) with (all_leases s0).
  2:{ apply list_eq. intros i. destruct (decide (i < length (all_leases s0))%nat) as [Hi|Hi].
      - rewrite lookup_take_lt by done. by rewrite Ho.
      - rewrite lookup_take_ge by lia. by apply lookup_ge_None_2; lia. }
  assert (Forall (fun le => released le = true) (drop (length (all_leases s0)) (all_leases s))) as Hall.
  { apply Forall_lookup. intros i le Hle. rewrite lookup_drop in Hle.
    destruct (released le) eqn:Hrel; [done |]. apply (Hn (length (all_leases s0) + i)%nat le ltac:(lia) Hle) in Hrel. inversion Hrel. }
  unfold lease_count. rewrite List.filter_app, length_app.
  replace (List.filter (live_lease r o) (drop _ _)) with (@nil Lease); [cbn; lia |].
  induction Hall as [|le ls Hle _ IH]; [done |]. cbn. unfold live_lease at 1. rewrite Hle.
  by rewrite andb_false_r.
Qed.

Lemma held_resources s0 s : Inv s0 -> held s0 s [] -> resources s = resources s0.
Proof.
  intros H0 Hh. apply list_eq. intros r. destruct (resources s0 !! r) as [v|] eqn:Hv.
  - destruct (hd_resources _ _ _ Hh r v Hv) as [ls Hls]. rewrite Hls. f_equal.
    rewrite <- (set_leases_same v) at 2. f_equal. apply map_eq. intros o.
    rewrite (i_count s0 H0 r v o Hv), <- (held_count s0 s r o Hh).
    by rewrite <- (i_count s (hd_inv _ _ _ Hh) r _ o Hls).
  - apply lookup_ge_None in Hv. apply lookup_ge_None.
    destruct (hd_rest _ _ _ Hh) as (_&_&_&_&_&_&_&_&_&_&->). done.
Qed.

(** ** Successful launches *)

Lemma acquire_done r x s l s' :
  acquire r x s = (Done l, s') -> l = length (all_leases s) /\
  all_leases s' = all_leases s ++ [mkLease r (owner_of s x) false] /\ scopes s' = scopes s /\
  tasks s' = tasks s /\ groups s' = groups s.
Proof.
  destruct (acquire_cases r x s) as [[f ->]|(v & _ & _ & _ & _ & _ & ->)]; [done |].
  by intros [= <- <-].
Qed.

Lemma retain_from_done captured x o taken s ls s' :
  x_owner x = Some o -> retain_from captured x taken s = (Done ls, s') ->
  all_leases s' = all_leases s ++ ((fun r => mkLease r o false) <$> captured) /\
  ls = rev (seq (length (all_leases s)) (length captured)) ++ taken /\
  tasks s' = tasks s /\ groups s' = groups s.
Proof.
  intros Hx. revert taken s. induction captured as [|r captured IH]; intros taken s; cbn [retain_from].
  { intros [= <- <-]. by rewrite app_nil_r. }
  destruct (acquire r x s) as [[l|f] s1] eqn:Ha; [| by destruct (each release taken s1) as [[|] ?]].
  intros (H1 & H2 & H3 & H4)%IH. apply acquire_done in Ha as (-> & Hal & _ & Ht & Hg).
  unfold owner_of in Hal. rewrite Hx in Hal. cbn [default] in Hal.
  rewrite H1, Hal, <- app_assoc. split; [done |]. split; [| by split; congruence].
  rewrite H2, Hal, length_app. cbn [length seq rev]. rewrite <- app_assoc, Nat.add_1_r. done.
Qed.

Lemma Forall2_rev_seq (P : nat -> nat -> Prop) n captured :
  (forall i r, captured !! i = Some r -> P (n + i)%nat r) ->
  Forall2 P (rev (seq n (length captured))) (rev captured).
Proof.
  revert n. induction captured as [|r captured IH]; intros n HP; cbn; [constructor |].
  apply Forall2_app.
  - apply IH. intros i r' Hi. replace (S n + i)%nat with (n + S i)%nat by lia. by apply HP.
  - constructor; [| constructor]. replace n with (n + 0)%nat at 1 by lia. by apply HP.
Qed.

(** The lists of leases of the participants, on their captures last to first. *)
Definition lists_held (s : root) (o : nat) : list (list nat) -> list (list nat) -> Prop :=
  Forall2 (fun ls captured =>
    Forall2 (fun l r => all_leases s !! l = Some (mkLease r o false)) ls (rev captured)).

Lemma lists_held_grows s s' o lss css news :
  all_leases s' = all_leases s ++ news -> lists_held s o lss css -> lists_held s' o lss css.
Proof.
  intros Hal Hh. eapply Forall2_impl; [exact Hh |]. intros ls cs Hls.
  eapply Forall2_impl; [exact Hls |]. intros l r Hl. cbn. rewrite Hal. by apply lookup_app_l_Some.
Qed.

Lemma retain_all_done participants x o retained before s lss s' :
  x_owner x = Some o -> lists_held s o (rev retained) before ->
  retain_all participants x retained s = (Done lss, s') ->
  lists_held s' o lss (before ++ participants) /\ tasks s' = tasks s /\ groups s' = groups s.
Proof.
  intros Hx. revert retained before s.
  induction participants as [|c rest IH]; intros retained before s Hh; cbn [retain_all].
  { intros [= <- <-]. by rewrite app_nil_r. }
  unfold retain. destruct (retain_from c x [] s) as [[ls|f] s1] eqn:Hre;
    [| by destruct (each (each release) retained s1) as [[|] ?]].
  apply (retain_from_done c x o) in Hre as (Hal & -> & Ht & Hg); [| done]. rewrite app_nil_r.
  intros Hrest. apply (IH _ (before ++ [c])) in Hrest as (H1 & H2 & H3).
  - rewrite <- app_assoc in H1. split; [done |]. by split; congruence.
  - cbn [rev]. apply Forall2_app.
    + by eapply lists_held_grows.
    + constructor; [| constructor]. apply Forall2_rev_seq. intros i r Hi. rewrite Hal.
      rewrite lookup_app_r by lia. replace (_ + i - _)%nat with i by lia.
      by rewrite list_lookup_fmap, Hi.
Qed.

(** ** The properties *)

(** C8. Lease accounting.  After any sequence of calls, completions, timers and
    resumed awaits, the lease map of every resource records for each owner exactly
    the number of release closures it was given on that resource and has not
    called, and has no entry for an owner without one. *)
Theorem lease_accounting moves r v o :
  resources (run_moves moves createRoot) !! r = Some v ->
  leases v !! o = recorded (lease_count r o (all_leases (run_moves moves createRoot))).
Proof. apply i_count, run_moves_inv. Qed.

(** C9. Closing excludes use.  In every reachable state, a resource whose native
    close was called has no lease and no operation running on its native handle;
    the close was called only once, and no operation was given the handle
    afterwards. *)
Theorem close_excludes_use moves r i :
  trace (run_moves moves createRoot) !! i = Some (CloseCalled r) ->
  (forall j, trace (run_moves moves createRoot) !! j = Some (CloseCalled r) -> j = i) /\
  (forall j, trace (run_moves moves createRoot) !! j = Some (Used r) -> (j < i)%nat) /\
  (forall l, (r, l) ∉ uses (run_moves moves createRoot)) /\
  exists v, resources (run_moves moves createRoot) !! r = Some v /\ leases v = ∅.
Proof.
  generalize (run_moves_inv moves). generalize (run_moves moves createRoot). intros s Hs Hi.
  destruct (i_trace s Hs i r Hi) as ((v & Hv & Hb) & H2 & H3).
  pose proof (po_quiet v (i_phase s Hs r v Hv) Hb) as He.
  split; [done |]. split; [done |]. split; [| by exists v].
  intros l Hin. destruct (i_uses s Hs r l Hin) as [o Ho]. apply lease_count_pos in Ho.
  pose proof (i_count s Hs r v o Hv) as Hc. rewrite He, lookup_empty in Hc.
  unfold recorded in Hc. destruct (Nat.eqb_spec (lease_count r o (all_leases s)) 0); [lia | done].
Qed.

(** A launch of an owned group is all or nothing.  From every reachable state
    [prepareLaunch] either throws, having started no task and no group and having
    given back every lease it took, so that every resource is as it was; or it
    registers one unsettled task per participant, in order, holding one lease of
    the group's owner on each capture of that participant. *)
Theorem launch_all_or_nothing moves x participants native :
  let s := run_moves moves createRoot in
  match prepareLaunch x participants native s with
  | (Thrown _, s') =>
      resources s' = resources s /\ tasks s' = tasks s /\ groups s' = groups s /\
      live_groups s' = live_groups s /\
      forall r o, lease_count r o (all_leases s') = lease_count r o (all_leases s)
  | (Done g, s') =>
      let o := match x_owner x with
               | Some o => if native then o else fresh_owner s
               | None => fresh_owner s
               end in
      let n := length participants in
      g = length (groups s) /\
      groups s' !! g = Some (mkGroup (x_scope x) (seq (length (tasks s)) n) false [] (Z.of_nat n)) /\
      exists held_lists, lists_held s' o held_lists participants /\
        tasks s' = tasks s ++ ((fun ls => mkTask (x_scope x) [] ls None) <$> held_lists)
  end.
Proof.
  intros s. assert (Inv s) as Hs by apply run_moves_inv. revert Hs. generalize s. clear s moves.
  intros s Hs. unfold prepareLaunch. unfold bind at 1. cbn [get].
  destruct (_ && _)%bool; [done |]. unfold bind at 1. cbn [put].
  set (own := match x_owner x with Some o => _ | None => _ end).
  set (s0 := with_owner s own.2). set (child := mkExecution _ _ _).
  assert (Inv s0) as H0 by by apply (Inv_same_parts s).
  pose proof (held_retain_all s0 participants child [] s0 H0 (held_refl s0 H0)) as Hfail.
  pose proof (retain_all_done participants child own.1 [] [] s0) as Hok.
  unfold bind at 1. destruct (retain_all participants child [] s0) as [[lss|f] s1].
  - assert (lists_held s0 own.1 (rev []) []) as Hnil by constructor.
    destruct (Hok lss s1 eq_refl Hnil eq_refl) as (Hl & Ht & Hg).
    unfold bind, get, put, ret. cbn [tasks with_tasks with_groups groups live_groups].
    change (tasks s0) with (tasks s) in Ht. change (groups s0) with (groups s) in Hg.
    rewrite Hg, Ht. split; [done |]. split.
    { rewrite lookup_app_r, Nat.sub_diag by done. done. }
    exists lss. split; [| done]. unfold own in Hl. destruct (x_owner x); [destruct native |]; exact Hl.
  - change (resources s) with (resources s0). split; [by apply held_resources |].
    destruct (hd_rest _ _ _ Hfail) as (_ & -> & -> & -> & _). split_and!; try done.
    intros r o. by apply (held_count s0).
Qed.

(** *** Witnesses *)

Definition demo : list move :=
  let x := mkExecution 0 None None in
  [Register x "file" (mkOptions false true None); UseBegin x 0 "file"; Close x 0 "file" None;
   CloseCall 0; UseEnd 0 0; CloseCall 0].

Lemma lease_accounting_witness :
  exists v, resources (run_moves demo createRoot) !! 0%nat = Some v /\
    leases v !! 0%nat = recorded (lease_count 0 0 (all_leases (run_moves demo createRoot))).
Proof.
  eexists. split; [vm_compute; reflexivity |].
  apply (lease_accounting demo 0 _ 0). vm_compute. reflexivity.
Defined.

Lemma close_excludes_use_witness :
  (0 < 1)%nat /\ (forall l, (0%nat, l) ∉ uses (run_moves demo createRoot)).
Proof.
  split; [lia |].
  exact (proj1 (proj2 (proj2 (close_excludes_use demo 0 1 ltac:(vm_compute; reflexivity))))).
Defined.
