(* ===== verification/Lineage.v ===== *)
(** * Assertion lineage ([assert/lineage.ts])

    Invocation frames, participant paths, callable receipts and their order.  An
    invocation identity is the index of its frame in the list of frames (the weak
    map [frames]), a callable identity the index of its instance.  The family of a
    root is the index of the root's frame. *)
From stdpp Require Import base gmap list strings sorting.
From Stdlib Require Import ZArith Lia.
From S2P Require Import Prelude JsNumber JsString Numbers.

(** ** Data *)

Record RootIdentity : Type := mkRootIdentity {
  package : jstr;
  declaration : jstr;
  root_name : jstr
}.

Record CallablePath : Type := mkCallablePath {
  cp_site : jstr;
  cp_occurrence : Z;
  cp_instance : jstr
}.

Record PathSegment : Type := mkSegment {
  site : jstr;
  seg_occurrence : Z;
  participant : list Z;
  callable : option CallablePath
}.

Record InvocationPath : Type := mkPath {
  path_root : RootIdentity;
  segments : list PathSegment
}.

Record Frame : Type := mkFrame {
  family : nat;
  path : InvocationPath;
  fr_participant : list Z;
  occurrences : gmap jstr Z
}.

Record Instance_ : Type := mkInstance {
  in_family : option nat;
  in_path : CallablePath
}.

(** The two weak maps. *)
Record lineage : Type := mkLineage {
  frames : list Frame;
  instances : list Instance_
}.

Definition no_lineage : lineage := mkLineage [] [].

Definition frame (L : lineage) (identity : nat) : res Frame :=
  match frames L !! identity with
  | Some f => Ret f
  | None => Throw "invalid invocation identity"
  end.

Definition instance (L : lineage) (identity : nat) : res Instance_ :=
  match instances L !! identity with
  | Some i => Ret i
  | None => Throw "invalid callable identity"
  end.

(** ** Sites *)

(** [s.lastIndexOf("#")]: the parts before and after the last one. *)
Fixpoint last_hash (s : jstr) : option (jstr * jstr) :=
  match s with
  | [] => None
  | c :: rest =>
      match last_hash rest with
      | Some (a, b) => Some (c :: a, b)
      | None => if (c =? 35)%N then Some ([], rest) else None
      end
  end.

Definition siteParts (s : jstr) : res (jstr * Z) :=
  match last_hash s with
  | Some (owner, ordinal) =>
      if bool_decide (owner = []) || negb (integer_digits ordinal)
         || negb (is_safe (rnd (Z.of_N (dec_value ordinal))))
      then Throw "invalid lexical site"
      else Ret (owner, rnd (Z.of_N (dec_value ordinal)))
  | None => Throw "invalid lexical site"
  end.

(** ** Occurrences and identities *)

Definition set_frame (L : lineage) (i : nat) (f : Frame) : lineage :=
  mkLineage (<[i := f]> (frames L)) (instances L).

(** [occurrence(parent, site)]: the number and the state after. *)
Definition occurrence (L : lineage) (parent : nat) (s : jstr) : res (Z * lineage) :=
  let! f := frame L parent in
  let! _ := siteParts s in
  let next := default 0 (occurrences f !! s) in
  if negb (is_safe (fadd next 1)) then Throw "invocation occurrence overflow"
  else Ret (next, set_frame L parent
                    (mkFrame (family f) (path f) (fr_participant f)
                       (<[s := fadd next 1]> (occurrences f)))).

Definition make (L : lineage) (parent : Frame) (segment : PathSegment) : nat * lineage :=
  (length (frames L),
   mkLineage (frames L ++ [mkFrame (family parent)
                             (mkPath (path_root (path parent)) (segments (path parent) ++ [segment]))
                             (participant segment) ∅])
     (instances L)).

Definition rootIdentity (L : lineage) (root : RootIdentity) : res (nat * lineage) :=
  if bool_decide (package root = []) || bool_decide (declaration root = [])
     || bool_decide (root_name root = [])
  then Throw "invalid assertion root identity"
  else Ret (length (frames L),
            mkLineage (frames L ++ [mkFrame (length (frames L)) (mkPath root []) [] ∅])
              (instances L)).

Definition invocationIdentity (L : lineage) (parentIdentity : nat) (s : jstr) (c : option nat) :
    res (nat * lineage) :=
  let! parent := frame L parentIdentity in
  let! receipt := match c with
                  | None => Ret None
                  | Some c => let! i := instance L c in Ret (Some i)
                  end in
  if match mbind in_family receipt with Some fam => negb (fam =? family parent)%nat | None => false end
  then Throw "callable belongs to another assertion root"
  else
    let! (n, L') := occurrence L parentIdentity s in
    Ret (make L' parent (mkSegment s n (fr_participant parent) (in_path <$> receipt))).

(** *** Participants *)

Fixpoint compareNumbers (a b : list Z) : Z :=
  match a, b with
  | x :: a', y :: b' => if x =? y then compareNumbers a' b' else if x <? y then -1 else 1
  | [], [] => 0
  | [], _ :: _ => -1
  | _ :: _, [] => 1
  end.

Definition valid_position (p : list Z) : bool :=
  ((length p =? 1)%nat || (length p =? 2)%nat) && forallb (fun v => is_safe v && (0 <=? v)) p.

(** The loop over the positions; [seen] holds the positions themselves, which
    [JSON.stringify] tells apart. *)
Fixpoint check_positions (positions : list (list Z)) (seen : list (list Z))
    (previous : option (list Z)) : res unit :=
  match positions with
  | [] => Ret tt
  | p :: rest =>
      if negb (valid_position p) then Throw "invalid participant path"
      else if bool_decide (p ∈ seen) then Throw "duplicate participant path"
      else if match previous with
              | Some q => (0 <=? compareNumbers q p)
                          || (bool_decide (head q = head p)
                              && ((length q =? 1)%nat || (length p =? 1)%nat))
              | None => false
              end
      then Throw "participant paths are not in flattened source order"
      else check_positions rest (p :: seen) (Some p)
  end.

Fixpoint make_all (L : lineage) (parent : Frame) (s : jstr) (visit : Z)
    (positions : list (list Z)) : list nat * lineage :=
  match positions with
  | [] => ([], L)
  | p :: rest =>
      let '(i, L1) := make L parent (mkSegment s visit (fr_participant parent ++ p) None) in
      let '(ids, L2) := make_all L1 parent s visit rest in
      (i :: ids, L2)
  end.

Definition participantIdentities (L : lineage) (parentIdentity : nat) (s : jstr)
    (positions : list (list Z)) : res (list nat * lineage) :=
  let! parent := frame L parentIdentity in
  let! _ := check_positions positions [] None in
  let! (visit, L') := occurrence L parentIdentity s in
  Ret (make_all L' parent s visit positions).

Definition invocationPath (L : lineage) (identity : nat) : res InvocationPath :=
  let! f := frame L identity in Ret (path f).

(** *** Callable receipts *)

Definition reserveCallableOccurrence (L : lineage) (parentIdentity : nat) (s : jstr) :
    res ((nat * InvocationPath * Z) * lineage) :=
  let! parent := frame L parentIdentity in
  let! (n, L') := occurrence L parentIdentity s in
  Ret ((family parent, path parent, n), L').

Definition registerCallableInstance (L : lineage) (fam : option nat) (s : jstr) (visit : Z)
    (inst : jstr) : nat * lineage :=
  (length (instances L),
   mkLineage (frames L) (instances L ++ [mkInstance fam (mkCallablePath s visit inst)])).

(** ** Order *)

Definition compareText (a b : jstr) : Z := if jstr_ltb a b then -1 else if jstr_ltb b a then 1 else 0.

(** [a || b] of two numbers. *)
Definition or_else (a b : Z) : Z := if a =? 0 then b else a.

Definition instance_text (s : PathSegment) : jstr :=
  match callable s with Some c => cp_instance c | None => [] end.

Definition compareSegments (x y : PathSegment) : res Z :=
  let! (xd, xn) := siteParts (site x) in
  let! (yd, yn) := siteParts (site y) in
  Ret (or_else (compareText xd yd)
        (or_else (Z.sgn (xn - yn))
          (or_else (Z.sgn (seg_occurrence x - seg_occurrence y))
            (or_else (compareNumbers (participant x) (participant y))
              (compareText (instance_text x) (instance_text y)))))).

Fixpoint comparePaths (x y : list PathSegment) : res Z :=
  match x, y with
  | a :: x', b :: y' =>
      let! difference := compareSegments a b in
      if negb (difference =? 0) then Ret difference else comparePaths x' y'
  | [], [] => Ret 0
  | [], _ :: _ => Ret (-1)
  | _ :: _, [] => Ret 1
  end.

Definition compareInvocations (L : lineage) (left right : nat) : res Z :=
  let! a := frame L left in
  let! b := frame L right in
  if negb (family a =? family b)%nat then Throw "cannot order different assertion roots"
  else comparePaths (segments (path a)) (segments (path b)).

(** ** What the operations can make *)
Inductive step : Type :=
| MakeRoot (root : RootIdentity)
| Invoke (parent : nat) (s : jstr) (c : option nat)
| Participants (parent : nat) (s : jstr) (positions : list (list Z))
| Reserve (parent : nat) (s : jstr)
| Mint (fam : option nat) (s : jstr) (visit : Z) (inst : jstr).

Definition state_of {A} (L : lineage) (r : res (A * lineage)) : lineage :=
  match r with Ret (_, L') => L' | Throw _ => L end.

Definition do_step (L : lineage) (m : step) : lineage :=
  match m with
  | MakeRoot root => state_of L (rootIdentity L root)
  | Invoke parent s c => state_of L (invocationIdentity L parent s c)
  | Participants parent s positions => state_of L (participantIdentities L parent s positions)
  | Reserve parent s => state_of L (reserveCallableOccurrence L parent s)
  | Mint fam s visit inst => (registerCallableInstance L fam s visit inst).2
  end.

Definition run_steps (steps : list step) : lineage := fold_left do_step steps no_lineage.

Example lineage_ex :
  let L := run_steps [MakeRoot (mkRootIdentity (js "p") (js "d") (js "n")); Invoke 0 (js "f#1") None;
                      Invoke 0 (js "f#1") None; Participants 0 (js "f#0") [[0]; [1; 0]; [1; 1]];
                      Invoke 4 (js "f#10") None; Invoke 0 (js "f") None] in
  length (frames L) = 7%nat /\ compareInvocations L 1 2 = Ret (-1) /\
  compareInvocations L 1 3 = Ret 1 /\ compareInvocations L 4 6 = Ret (-1).
Proof. vm_compute. done. Qed.
