(* ===== verification/Ordering.v ===== *)
(** * Comparison functions

    The interface between a comparator and its users: a three-way comparison is a
    total preorder.  Comparators compose by projection, by [||] and along lists. *)
From stdpp Require Import base list.
From Stdlib Require Import ZArith Lia.
From S2P Require Import Prelude JsString Lineage.

Class Ordering {A} (cmp : A -> A -> Z) : Prop := {
  ord_sym : forall x y, Z.sgn (cmp y x) = - Z.sgn (cmp x y);
  ord_trans : forall x y z, cmp x y <= 0 -> cmp y z <= 0 -> cmp x z <= 0
}.

(** A comparison that only takes equal elements for equal. *)
Class Strict {A} (cmp : A -> A -> Z) : Prop :=
  strict_eq : forall x y, cmp x y = 0 -> x = y.

Section laws.
Context {A} (cmp : A -> A -> Z) `{!Ordering cmp}.

Lemma ord_refl x : cmp x x = 0.
Proof. pose proof (ord_sym x x). lia. Qed.

Lemma ord_flip x y : (cmp x y <= 0 <-> 0 <= cmp y x) /\ (cmp x y = 0 <-> cmp y x = 0).
Proof. pose proof (ord_sym x y). lia. Qed.

Lemma ord_lt_le x y z : cmp x y < 0 -> cmp y z <= 0 -> cmp x z < 0.
Proof.
  intros H1 H2. destruct (Z.ltb_spec (cmp x z) 0); [done |].
  assert (cmp z x <= 0) as H3 by (apply ord_flip; lia).
  pose proof (ord_trans y z x H2 H3) as H4. apply ord_flip in H4. lia.
Qed.

Lemma ord_le_lt x y z : cmp x y <= 0 -> cmp y z < 0 -> cmp x z < 0.
Proof.
  intros H1 H2. destruct (Z.ltb_spec (cmp x z) 0); [done |].
  assert (cmp z x <= 0) as H3 by (apply ord_flip; lia).
  pose proof (ord_trans z x y H3 H1) as H4. apply ord_flip in H4. lia.
Qed.

Lemma ord_eq_trans x y z : cmp x y = 0 -> cmp y z = 0 -> cmp x z = 0.
Proof.
  intros H1 H2. pose proof (proj1 (proj2 (ord_flip x y)) H1).
  pose proof (proj1 (proj2 (ord_flip y z)) H2).
  assert (cmp x z <= 0) by (apply (ord_trans x y z); lia).
  assert (cmp z x <= 0) as H5 by (apply (ord_trans z y x); lia). apply ord_flip in H5. lia.
Qed.
End laws.

#[global] Instance Ordering_on {A B} (f : A -> B) (cmp : B -> B -> Z) :
  Ordering cmp -> Ordering (fun x y => cmp (f x) (f y)).
Proof. intros [Hs Ht]. split; intros; [apply Hs | eapply Ht; eauto]. Qed.

#[global] Instance Ordering_or_else {A} (c1 c2 : A -> A -> Z) :
  Ordering c1 -> Ordering c2 -> Ordering (fun x y => or_else (c1 x y) (c2 x y)).
Proof.
  intros H1 H2. unfold or_else. split.
  - intros x y. pose proof (ord_sym (cmp := c1) x y). pose proof (ord_sym (cmp := c2) x y).
    destruct (Z.eqb_spec (c1 x y) 0), (Z.eqb_spec (c1 y x) 0); lia.
  - intros x y z. destruct (Z.eqb_spec (c1 x y) 0) as [E1|E1].
    + destruct (Z.eqb_spec (c1 y z) 0) as [E2|E2].
      * rewrite (ord_eq_trans c1 x y z E1 E2). cbn. apply (ord_trans (cmp := c2)).
      * intros _ Hyz. pose proof (ord_le_lt c1 x y z). destruct (Z.eqb_spec (c1 x z) 0); lia.
    + intros Hxy Hyz. assert (c1 y z <= 0) by (destruct (Z.eqb_spec (c1 y z) 0); lia).
      pose proof (ord_lt_le c1 x y z). destruct (Z.eqb_spec (c1 x z) 0); lia.
Qed.

(** Lists in lexicographic order, a prefix first. *)
Fixpoint lex {A} (cmp : A -> A -> Z) (x y : list A) : Z :=
  match x, y with
  | a :: x', b :: y' => or_else (cmp a b) (lex cmp x' y')
  | [], [] => 0
  | [], _ :: _ => -1
  | _ :: _, [] => 1
  end.

#[global] Instance Ordering_lex {A} (cmp : A -> A -> Z) : Ordering cmp -> Ordering (lex cmp).
Proof.
  intros Hc. split.
  - intros x. induction x as [|a x IH]; intros [|b y]; cbn; try done.
    specialize (IH y). pose proof (ord_sym (cmp := cmp) a b). unfold or_else.
    destruct (Z.eqb_spec (cmp a b) 0), (Z.eqb_spec (cmp b a) 0); lia.
  - intros x. induction x as [|a x IH]; intros [|b y] [|c z]; cbn; try lia.
    unfold or_else. specialize (IH y z). destruct (Z.eqb_spec (cmp a b) 0) as [E1|E1].
    + destruct (Z.eqb_spec (cmp b c) 0) as [E2|E2].
      * rewrite (ord_eq_trans cmp a b c E1 E2). done.
      * intros _ Hyz. pose proof (ord_le_lt cmp a b c). destruct (Z.eqb_spec (cmp a c) 0); lia.
    + intros Hxy Hyz. assert (cmp b c <= 0) by (destruct (Z.eqb_spec (cmp b c) 0); lia).
      pose proof (ord_lt_le cmp a b c). destruct (Z.eqb_spec (cmp a c) 0); lia.
Qed.

#[global] Instance Strict_lex {A} (cmp : A -> A -> Z) : Strict cmp -> Strict (lex cmp).
Proof.
  intros Hc x. induction x as [|a x IH]; intros [|b y]; cbn; try done.
  unfold or_else. destruct (Z.eqb_spec (cmp a b) 0) as [E|E]; [| lia].
  intros H. by rewrite (Hc a b E), (IH y H).
Qed.

(** ** Numbers and strings *)
#[global] Instance Ordering_sgn : Ordering (fun x y : Z => Z.sgn (x - y)).
Proof. split; intros; lia. Qed.

#[global] Instance Strict_sgn : Strict (fun x y : Z => Z.sgn (x - y)).
Proof. intros x y. lia. Qed.

Lemma compareNumbers_lex a b : compareNumbers a b = lex (fun x y => Z.sgn (x - y)) a b.
Proof.
  revert b. induction a as [|x a IH]; intros [|y b]; cbn [compareNumbers lex]; try done.
  rewrite <- IH. unfold or_else.
  destruct (Z.eqb_spec x y), (Z.eqb_spec (Z.sgn (x - y)) 0), (Z.ltb_spec x y); lia.
Qed.

Lemma compareText_lex a b : compareText a b = lex (fun x y : N => Z.sgn (Z.of_N x - Z.of_N y)) a b.
Proof.
  unfold compareText. revert b. induction a as [|x a IH]; intros [|y b]; try done.
  cbn [jstr_ltb lex]. rewrite <- IH. unfold or_else.
  destruct (N.ltb_spec x y), (N.ltb_spec y x), (Z.eqb_spec (Z.sgn (Z.of_N x - Z.of_N y)) 0); lia.
Qed.

Lemma Ordering_ext {A} (c1 c2 : A -> A -> Z) :
  (forall x y, c1 x y = c2 x y) -> Ordering c2 -> Ordering c1.
Proof. intros He [Hs Ht]. split; intros *; rewrite !He; [apply Hs | apply Ht]. Qed.

#[global] Instance Ordering_compareNumbers : Ordering compareNumbers.
Proof. eapply Ordering_ext; [apply compareNumbers_lex | apply _]. Qed.

#[global] Instance Strict_compareNumbers : Strict compareNumbers.
Proof. intros x y. rewrite compareNumbers_lex. apply Strict_lex, Strict_sgn. Qed.

#[global] Instance Ordering_compareText : Ordering compareText.
Proof.
  eapply Ordering_ext; [apply compareText_lex |]. apply Ordering_lex.
  apply (Ordering_on Z.of_N (fun x y => Z.sgn (x - y))). apply _.
Qed.

#[global] Instance Strict_compareText : Strict compareText.
Proof.
  intros x y. rewrite compareText_lex. apply Strict_lex. intros a b H. lia.
Qed.
