(* ===== verification/LineageTheorems.v ===== *)
(** * Assertion lineage: paths identify invocations, and their order is total *)
From stdpp Require Import base gmap list strings.
From Stdlib Require Import ZArith Lia.
From S2P Require Import Prelude JsNumber JsString Numbers Lineage Ordering.

(** ** Sites *)

Lemma last_hash_some s a b : last_hash s = Some (a, b) -> s = a ++ 35%N :: b.
Proof.
  revert a b. induction s as [|c s IH]; intros a b; cbn; [done |].
  destruct (last_hash s) as [[a' b']|]; [intros [= <- <-]; cbn; f_equal; auto |].
  destruct (N.eqb_spec c 35) as [->|]; [| done]. by intros [= <- <-].
Qed.

Lemma siteParts_ret s owner n :
  siteParts s = Ret (owner, n) ->
  exists ordinal, s = owner ++ 35%N :: ordinal /\ integer_digits ordinal = true /\
    n = Z.of_N (dec_value ordinal) /\ owner <> [].
Proof.
  unfold siteParts. destruct (last_hash s) as [[a b]|] eqn:Hl; [| done].
  destruct (bool_decide (a = [])) eqn:Ha; [done |]. apply bool_decide_eq_false in Ha.
  destruct (integer_digits b) eqn:Hd; cbn [negb orb]; [| done].
  destruct (is_safe (rnd (Z.of_N (dec_value b)))) eqn:Hs; [| done]. cbn. intros [= <- <-].
  apply last_hash_some in Hl. exists b. split_and!; try done.
  by apply rnd_safe_exact; [lia |].
Qed.

(** The two parts give the site back. *)
Lemma siteParts_inj s t p : siteParts s = Ret p -> siteParts t = Ret p -> s = t.
Proof.
  destruct p as [owner n]. intros (o1 & -> & H1 & -> & _)%siteParts_ret.
  intros (o2 & -> & H2 & He & _)%siteParts_ret. do 2 f_equal.
  rewrite <- (dec_of_N_of_value o1 H1), <- (dec_of_N_of_value o2 H2). f_equal. lia.
Qed.

(** ** The comparison as a pure function *)

Definition site_pair (s : PathSegment) : jstr * Z :=
  match siteParts (site s) with Ret p => p | Throw _ => ([], 0) end.

Definition segOrder (x y : PathSegment) : Z :=
  or_else (compareText (site_pair x).1 (site_pair y).1)
    (or_else (Z.sgn ((site_pair x).2 - (site_pair y).2))
      (or_else (Z.sgn (seg_occurrence x - seg_occurrence y))
        (or_else (compareNumbers (participant x) (participant y))
          (compareText (instance_text x) (instance_text y))))).

#[global] Instance Ordering_segOrder : Ordering segOrder.
Proof.
  unfold segOrder.
  apply Ordering_or_else; [apply (Ordering_on (fun s => (site_pair s).1)); apply _ |].
  apply Ordering_or_else.
  { apply (Ordering_on (fun s => (site_pair s).2) (fun x y => Z.sgn (x - y))); apply _. }
  apply Ordering_or_else.
  { apply (Ordering_on seg_occurrence (fun x y => Z.sgn (x - y))); apply _. }
  apply Ordering_or_else; [apply (Ordering_on participant); apply _ |].
  apply (Ordering_on instance_text); apply _.
Qed.

Definition valid_site (s : PathSegment) : Prop := exists p, siteParts (site s) = Ret p.

Lemma compareSegments_ret x y :
  valid_site x -> valid_site y -> compareSegments x y = Ret (segOrder x y).
Proof.
  intros [[xd xn] Hx] [[yd yn] Hy]. unfold compareSegments, segOrder, site_pair.
  by rewrite Hx, Hy.
Qed.

Lemma comparePaths_ret x y :
  Forall valid_site x -> Forall valid_site y -> comparePaths x y = Ret (lex segOrder x y).
Proof.
  intros Hx. revert y. induction Hx as [|a x Ha Hx IH]; intros y Hy; destruct Hy as [|b y Hb Hy];
    try done.
  cbn [comparePaths lex]. rewrite compareSegments_ret by done. cbn. unfold or_else.
  destruct (segOrder a b =? 0); [by apply IH | done].
Qed.

(** What a segment is known by. *)
Definition seg_key (s : PathSegment) : jstr * Z * list Z :=
  (site s, seg_occurrence s, participant s).

Lemma or_else_zero a b : or_else a b = 0 -> a = 0 /\ b = 0.
Proof. unfold or_else. destruct (Z.eqb_spec a 0); lia. Qed.

Lemma segOrder_key x y : valid_site x -> valid_site y -> segOrder x y = 0 -> seg_key x = seg_key y.
Proof.
  intros [p Hx] [q Hy]. unfold segOrder.
  intros (H1 & (H2 & (H3 & (H4 & _)%or_else_zero)%or_else_zero)%or_else_zero)%or_else_zero.
  apply strict_eq in H1, H4. unfold seg_key. f_equal; [f_equal |]; [| lia | done].
  unfold site_pair in H1, H2. rewrite Hx, Hy in *. apply (siteParts_inj _ _ p); [done |].
  rewrite Hy. f_equal. destruct p, q. cbn in *. f_equal; [done | lia].
Qed.

Lemma lex_keys x y :
  Forall valid_site x -> Forall valid_site y -> lex segOrder x y = 0 ->
  seg_key <$> x = seg_key <$> y.
Proof.
  intros Hx. revert y. induction Hx as [|a x Ha Hx IH]; intros y Hy; destruct Hy as [|b y Hb Hy];
    try done.
  cbn [lex]. intros [H1 H2]%or_else_zero. rewrite !fmap_cons. f_equal; [by apply segOrder_key | by apply IH].
Qed.

(** ** The invariant of the frames *)

Definition segs (f : Frame) : list PathSegment := segments (path f).

Definition keys (f : Frame) : list (jstr * Z * list Z) := seg_key <$> segs f.

Definition counter (f : Frame) (s : jstr) : Z := default 0 (occurrences f !! s).

Record Frames (L : lineage) : Prop := {
  fr_valid : forall i f, frames L !! i = Some f -> Forall valid_site (segs f);
  fr_parent : forall i f, frames L !! i = Some f ->
    (segs f = [] /\ family f = i) \/
    exists p fp s, frames L !! p = Some fp /\ family fp = family f /\
      segs f = segs fp ++ [s] /\ seg_occurrence s < counter fp (site s);
  fr_unique : forall i j f g, frames L !! i = Some f -> frames L !! j = Some g ->
    family f = family g -> keys f = keys g -> i = j;
  fr_counter : forall i f s, frames L !! i = Some f -> 0 <= counter f s;
  fr_family : forall i f, frames L !! i = Some f -> (family f < length (frames L))%nat
}.

Lemma Frames_none : Frames no_lineage.
Proof. by split. Qed.

(** A frame's counters go up. *)
Lemma Frames_set L i f occ :
  Frames L -> frames L !! i = Some f ->
  (forall s, counter f s <= default 0 (occ !! s)) ->
  Frames (set_frame L i (mkFrame (family f) (path f) (fr_participant f) occ)).
Proof.
  intros [H1 H2 H3 H4 H5] Hf Hc. set (f' := mkFrame _ _ _ _).
  assert (forall j g, frames (set_frame L i f') !! j = Some g ->
    exists g', frames L !! j = Some g' /\ family g = family g' /\ segs g = segs g') as Hback.
  { intros j g [(<- & <- & _)|[_ Hg]]%list_lookup_insert_Some; eauto. }
  split.
  - intros j g (g' & Hg & _ & ->)%Hback. by eapply H1.
  - intros j g (g' & Hg & Hfam & Hs)%Hback. rewrite Hs, Hfam.
    destruct (H2 j g' Hg) as [?|(p & fp & s & Hp & Hfp & Hseg & Hlt)]; [by left | right].
    destruct (decide (p = i)) as [->|Hne].
    + rewrite Hf in Hp. injection Hp as <-. exists i, f', s. cbn.
      rewrite list_lookup_insert_eq by (by eapply lookup_lt_Some). split_and!; try done.
      specialize (Hc (site s)). unfold counter in *. cbn. lia.
    + exists p, fp, s. cbn. by rewrite list_lookup_insert_ne by done.
  - intros j k g h (g' & Hg & Hfg & Hsg)%Hback (h' & Hh & Hfh & Hsh)%Hback.
    unfold keys. rewrite Hfg, Hfh, Hsg, Hsh. by apply H3.
  - intros j g s [(<- & <- & _)|[_ Hg]]%list_lookup_insert_Some; [| by eapply H4].
    specialize (Hc s). specialize (H4 i f s Hf). unfold counter at 1. cbn. lia.
  - intros j g (g' & Hg & -> & _)%Hback. cbn. rewrite length_insert. by eapply H5.
Qed.

Lemma Frames_occurrence L p s n L' fp :
  Frames L -> frames L !! p = Some fp -> occurrence L p s = Ret (n, L') ->
  Frames L' /\ (exists q, siteParts s = Ret q) /\ n = counter fp s /\
  exists fp', frames L' !! p = Some fp' /\ family fp' = family fp /\ path fp' = path fp /\
    counter fp' s = n + 1 /\
    (forall j g, frames L' !! j = Some g -> exists g', frames L !! j = Some g' /\
       family g = family g' /\ segs g = segs g').
Proof.
  intros HF Hp. unfold occurrence, frame. rewrite Hp. cbn [res_bind].
  destruct (siteParts s) as [q|] eqn:Hs; [| done]. cbn [res_bind].
  destruct (is_safe (fadd _ 1)) eqn:Hsafe; [| done]. cbn [negb]. intros [= <- <-].
  change (default 0 (occurrences fp !! s)) with (counter fp s) in *.
  assert (fadd (counter fp s) 1 = counter fp s + 1) as ->.
  { pose proof (fr_counter L HF p fp s Hp). unfold fadd in *. by apply rnd_safe_exact; [lia |]. }
  set (occ := <[s := counter fp s + 1]> (occurrences fp)).
  split; [| split; [by exists q | split; [done |]]].
  - apply Frames_set; try done. intros t. unfold occ, counter. destruct (decide (s = t)) as [<-|Hne].
    + rewrite lookup_insert_eq. cbn. unfold counter. lia.
    + by rewrite lookup_insert_ne.
  - eexists. cbn. rewrite list_lookup_insert_eq by (by eapply lookup_lt_Some).
    split; [done |]. split_and!; try done.
    + unfold occ, counter. cbn. by rewrite lookup_insert_eq.
    + intros j g [(<- & <- & _)|[_ Hg]]%list_lookup_insert_Some; eauto.
Qed.

(** A child of [p] on a key that no child of [p] has. *)
Definition fresh_child (L : lineage) (p : nat) (fp : Frame) (seg : PathSegment) : Prop :=
  frames L !! p = Some fp /\ valid_site seg /\ 0 <= seg_occurrence seg < counter fp (site seg) /\
  forall j g s, frames L !! j = Some g -> family g = family fp -> segs g = segs fp ++ [s] ->
    seg_key s <> seg_key seg.

Lemma Frames_make L p fp fp0 seg :
  Frames L -> fresh_child L p fp seg -> family fp0 = family fp -> path fp0 = path fp ->
  Frames (make L fp0 seg).2.
Proof.
  intros HF (Hp & Hv & Hlt & Hfresh) Hfam Hpath.
  unfold make. cbn [snd]. rewrite Hfam, Hpath. set (new := mkFrame _ _ _ _).
  assert (segs new = segs fp ++ [seg]) as Hnew by done.
  assert (family new = family fp) as Hfn by done.
  assert (keys new = keys fp ++ [seg_key seg]) as Hkeys by (unfold keys; by rewrite Hnew, fmap_app).
  assert (forall i g, (frames L ++ [new]) !! i = Some g ->
    frames L !! i = Some g \/ (i = length (frames L) /\ g = new)) as Hlook.
  { intros i g. apply lookup_snoc_cases. }
  assert (forall j g, frames L !! j = Some g -> family g = family new -> keys g = keys new -> False) as Hno.
  { intros j g Hg Hfg Hkg. destruct (fr_parent L HF j g Hg) as [[Hnil _]|(p' & fp' & s & Hp' & Hfp' & Hseg & Hl)].
    - rewrite Hkeys in Hkg. unfold keys in Hkg. rewrite Hnil in Hkg. by destruct (seg_key <$> segs fp).
    - assert (keys g = keys fp' ++ [seg_key s]) as Hkg' by (unfold keys; by rewrite Hseg, fmap_app).
      rewrite Hkg', Hkeys in Hkg. apply app_inj_tail in Hkg as [Hk1 Hk2].
      assert (p' = p) as -> by (eapply (fr_unique L HF); [exact Hp' | exact Hp | congruence | done]).
      rewrite Hp in Hp'. injection Hp' as <-. apply (Hfresh j g s Hg); congruence. }
  split; cbn [frames].
  - intros i g [Hg|[-> ->]]%Hlook; [by eapply fr_valid |]. rewrite Hnew. apply Forall_app. split.
    + by apply (fr_valid L HF p).
    + by constructor.
  - intros i g [Hg|[-> ->]]%Hlook.
    + destruct (fr_parent L HF i g Hg) as [?|(p' & fp' & s & Hp' & ?)]; [by left | right].
      exists p', fp', s. split; [by apply lookup_app_l_Some | done].
    + right. exists p, fp, seg. split; [by apply lookup_app_l_Some |]. split_and!; try done. lia.
  - intros i j f g [Hf|[-> ->]]%Hlook [Hg|[-> ->]]%Hlook Hfg Hk; [by eapply (fr_unique L HF) | | | done].
    + by destruct (Hno i f Hf Hfg Hk).
    + by destruct (Hno j g Hg (eq_sym Hfg) (eq_sym Hk)).
  - intros i g s [Hg|[-> ->]]%Hlook; [by eapply fr_counter |]. unfold counter. cbn.
    by rewrite lookup_empty.
  - intros i g Hg. rewrite length_app. cbn [length].
    enough (family g < length (frames L))%nat by lia.
    apply Hlook in Hg as [Hg|[-> ->]]; [exact (fr_family L HF i g Hg) | rewrite Hfn; exact (fr_family L HF p fp Hp)].
Qed.

(** The children of one visit differ in their participants. *)
Lemma Frames_make_all L p fp fp0 s visit positions :
  Frames L -> frames L !! p = Some fp -> (exists q, siteParts s = Ret q) ->
  0 <= visit < counter fp s -> family fp0 = family fp -> path fp0 = path fp ->
  NoDup positions ->
  (forall j g t, frames L !! j = Some g -> family g = family fp -> segs g = segs fp ++ [t] ->
    forall q, q ∈ positions -> seg_key t <> (s, visit, fr_participant fp0 ++ q)) ->
  Frames (make_all L fp0 s visit positions).2.
Proof.
  intros HF Hp Hs Hv Hfam Hpath Hnd. revert L HF Hp. induction Hnd as [|q rest Hq Hnd IH];
    intros L HF Hp Hfresh; cbn [make_all]; [done |].
  set (seg := mkSegment s visit (fr_participant fp0 ++ q) None).
  assert (Frames (make L fp0 seg).2) as HF'.
  { apply (Frames_make L p fp); try done. split; [done |]. split; [done |]. split; [done |].
    intros j g t Hg Hfg Hseg. apply (Hfresh j g t Hg Hfg Hseg). left. }
  unfold make in *. cbn [snd] in HF'. specialize (IH _ HF').
  destruct (make_all _ fp0 s visit rest) as [ids L2]. apply IH.
  - by apply lookup_app_l_Some.
  - intros j g t [Hg|[_ Hg]]%lookup_app_Some Hfg Hseg q' Hq'.
    + apply (Hfresh j g t Hg Hfg Hseg). by right.
    + destruct (j - length (frames L))%nat; [| done]. injection Hg as <-.
      unfold segs in Hseg. cbn in Hseg. rewrite Hpath in Hseg. apply app_inv_head in Hseg.
      injection Hseg as <-. unfold seg_key. cbn. intros [= He]. apply app_inv_head in He. by subst.
Qed.

Lemma check_positions_nodup positions seen previous :
  check_positions positions seen previous = Ret tt ->
  NoDup positions /\ forall p, p ∈ positions -> p ∉ seen.
Proof.
  revert seen previous. induction positions as [|p rest IH]; intros seen previous; cbn.
  { intros _. split; [constructor | intros p Hp; inversion Hp]. }
  destruct (valid_position p); [| done]. cbn [negb].
  destruct (bool_decide (p ∈ seen)) eqn:Hin; [done |]. apply bool_decide_eq_false in Hin.
  destruct (match previous with Some q => _ | None => _ end); [done |].
  intros [Hnd Hs]%IH. split.
  - constructor; [| done]. intros Hp. apply (Hs p Hp). left.
  - intros q [->|Hq]%elem_of_cons; [done |]. intros Hq'. apply (Hs q Hq). by right.
Qed.

(** After a visit of a site, no frame is on that visit yet. *)
Lemma occurrence_fresh L L' p fp fp' s n :
  Frames L -> frames L !! p = Some fp -> frames L' !! p = Some fp' -> family fp' = family fp ->
  path fp' = path fp -> n = counter fp s ->
  (forall j g, frames L' !! j = Some g -> exists g', frames L !! j = Some g' /\
     family g = family g' /\ segs g = segs g') ->
  forall j g t, frames L' !! j = Some g -> family g = family fp' -> segs g = segs fp' ++ [t] ->
    site t = s -> seg_occurrence t <> n.
Proof.
  intros HF Hp Hp' Hfam Hpath -> Hback j g t Hg Hfg Hseg Hs Hn.
  destruct (Hback j g Hg) as (g' & Hg' & Hf' & Hs').
  assert (segs fp' = segs fp) as Hsp by (unfold segs; by rewrite Hpath).
  destruct (fr_parent L HF j g' Hg') as [[Hnil _]|(q & fq & u & Hq & Hfq & Hsu & Hl)].
  { rewrite Hs', Hnil in Hseg. by destruct (segs fp'). }
  rewrite Hs', Hsu, Hsp in Hseg. apply app_inj_tail in Hseg as [Hseg ->].
  assert (q = p) as ->.
  { eapply (fr_unique L HF); [exact Hq | exact Hp | congruence |]. unfold keys. by rewrite Hseg. }
  rewrite Hp in Hq. injection Hq as <-. rewrite Hs in Hl. lia.
Qed.

Lemma Frames_root L root : Frames L -> Frames (state_of L (rootIdentity L root)).
Proof.
  intros HF. unfold rootIdentity. destruct (_ || _)%bool; [done |]. cbn [state_of].
  set (new := mkFrame _ _ _ _).
  assert (forall j g, frames L !! j = Some g -> family g <> length (frames L)) as Hfam.
  { intros j g Hg. specialize (fr_family L HF j g Hg). lia. }
  split; cbn [frames].
  - intros i g [Hg|[-> ->]]%lookup_snoc_cases; [by eapply fr_valid | constructor].
  - intros i g [Hg|[-> ->]]%lookup_snoc_cases; [| by left].
    destruct (fr_parent L HF i g Hg) as [?|(q & fq & s & Hq & ?)]; [by left | right].
    exists q, fq, s. split; [by apply lookup_app_l_Some | done].
  - intros i j f g [Hf|[-> ->]]%lookup_snoc_cases [Hg|[-> ->]]%lookup_snoc_cases Hfg Hk;
      [by eapply (fr_unique L HF) | | | done].
    + by destruct (Hfam i f Hf).
    + by destruct (Hfam j g Hg).
  - intros i g s [Hg|[-> ->]]%lookup_snoc_cases; [by eapply fr_counter |]. unfold counter. cbn.
    by rewrite lookup_empty.
  - intros i g Hg. rewrite length_app. cbn [length].
    apply lookup_snoc_cases in Hg as [Hg|[-> ->]]; [specialize (fr_family L HF i g Hg); lia | cbn; lia].
Qed.

Lemma Frames_step L m : Frames L -> Frames (do_step L m).
Proof.
  intros HF. destruct m as [root|p s c|p s positions|p s|fam s visit inst]; cbn [do_step].
  - by apply Frames_root.
  - unfold invocationIdentity, frame. destruct (frames L !! p) as [fp|] eqn:Hp; [| done]. cbn [res_bind].
    destruct (match c with None => _ | Some _ => _ end) as [receipt|]; [| done]. cbn [res_bind].
    destruct (match mbind in_family receipt with Some _ => _ | None => _ end); [done |].
    destruct (occurrence L p s) as [[n L']|] eqn:Ho; [| done]. cbn [res_bind].
    destruct (Frames_occurrence L p s n L' fp HF Hp Ho)
      as (HF' & Hs & Hn & fp' & Hp' & Hfam & Hpath & Hc & Hback).
    destruct (make L' fp _) as [i L''] eqn:Hm. cbn [state_of].
    replace L'' with (make L' fp (mkSegment s n (fr_participant fp) (in_path <$> receipt))).2
      by (by rewrite Hm).
    pose proof (fr_counter L HF p fp s Hp).
    apply (Frames_make L' p fp'); try done. split; [done |]. split; [done |]. cbn. split; [lia |].
    intros j g t Hg Hfg Hseg Hk. unfold seg_key in Hk. cbn in Hk. injection Hk as H1 H2 H3.
    by apply (occurrence_fresh L L' p fp fp' s n HF Hp Hp' Hfam Hpath Hn Hback j g t Hg Hfg Hseg).
  - unfold participantIdentities, frame. destruct (frames L !! p) as [fp|] eqn:Hp; [| done]. cbn [res_bind].
    destruct (check_positions positions [] None) as [[]|] eqn:Hcp; [| done]. cbn [res_bind].
    apply check_positions_nodup in Hcp as [Hnd _].
    destruct (occurrence L p s) as [[n L']|] eqn:Ho; [| done]. cbn [res_bind].
    destruct (Frames_occurrence L p s n L' fp HF Hp Ho)
      as (HF' & Hs & Hn & fp' & Hp' & Hfam & Hpath & Hc & Hback).
    destruct (make_all L' fp s n positions) as [ids L''] eqn:Hm. cbn [state_of].
    replace L'' with (make_all L' fp s n positions).2 by (by rewrite Hm).
    pose proof (fr_counter L HF p fp s Hp).
    apply (Frames_make_all L' p fp'); try done; [lia |].
    intros j g t Hg Hfg Hseg q _ Hk. unfold seg_key in Hk. injection Hk as H1 H2 H3.
    by apply (occurrence_fresh L L' p fp fp' s n HF Hp Hp' Hfam Hpath Hn Hback j g t Hg Hfg Hseg).
  - unfold reserveCallableOccurrence, frame. destruct (frames L !! p) as [fp|] eqn:Hp; [| done].
    cbn [res_bind]. destruct (occurrence L p s) as [[n L']|] eqn:Ho; [| done]. cbn.
    by apply (Frames_occurrence L p s n L' fp HF Hp Ho).
  - destruct HF as [H1 H2 H3 H4 H5]. by split.
Qed.

Lemma Frames_run steps : Frames (run_steps steps).
Proof.
  unfold run_steps. pose proof Frames_none as H. revert H. generalize no_lineage.
  induction steps as [|m steps IH]; intros L HL; [done |]. cbn [fold_left]. by apply IH, Frames_step.
Qed.

(** ** The properties *)

Definition in_family_of (L : lineage) (fam : nat) (i : nat) : Prop :=
  exists f, frames L !! i = Some f /\ family f = fam.

(** The order on the invocations of one root, as a total function. *)
Definition segs_of (L : lineage) (i : nat) : list PathSegment :=
  match frames L !! i with Some f => segs f | None => [] end.

Definition invocationOrder (L : lineage) (i j : nat) : Z := lex segOrder (segs_of L i) (segs_of L j).

#[global] Instance Ordering_invocationOrder L : Ordering (invocationOrder L).
Proof. apply (Ordering_on (segs_of L)). apply _. Qed.

Lemma compareInvocations_ret L fam i j :
  Frames L -> in_family_of L fam i -> in_family_of L fam j ->
  compareInvocations L i j = Ret (invocationOrder L i j).
Proof.
  intros HF (f & Hf & Hff) (g & Hg & Hfg). unfold compareInvocations, frame, invocationOrder, segs_of.
  rewrite Hf, Hg. cbn [res_bind]. rewrite Hff, Hfg, Nat.eqb_refl. cbn [negb].
  apply comparePaths_ret; by eapply fr_valid.
Qed.

(** C10. Invocations of one assertion root are totally ordered.  Whatever sequence of
    roots, invocations, participant batches and callable receipts made the frames,
    [compareInvocations] never throws on two invocations of one root, is 0 only on
    one and the same invocation, is antisymmetric and transitive. *)
Theorem invocations_totally_ordered steps fam i j k :
  let L := run_steps steps in
  in_family_of L fam i -> in_family_of L fam j -> in_family_of L fam k ->
  exists a b c, compareInvocations L i j = Ret a /\ compareInvocations L j k = Ret b /\
    compareInvocations L i k = Ret c /\ (a = 0 <-> i = j) /\
    (exists a', compareInvocations L j i = Ret a' /\ Z.sgn a' = - Z.sgn a) /\
    (a <= 0 -> b <= 0 -> c <= 0).
Proof.
  intros L Hi Hj Hk. pose proof (Frames_run steps : Frames L) as HF.
  exists (invocationOrder L i j), (invocationOrder L j k), (invocationOrder L i k).
  rewrite !(compareInvocations_ret L fam) by done.
  destruct Hi as (f & Hf & Hff), Hj as (g & Hg & Hfg), Hk as (h & Hh & Hfh).
  unfold invocationOrder, segs_of. rewrite Hf, Hg, Hh. split_and!; try done.
  - split.
    + intros Hz. eapply (fr_unique L HF); [exact Hf | exact Hg | congruence |].
      apply lex_keys; [by eapply fr_valid | by eapply fr_valid | done].
    + intros <-. rewrite Hf in Hg. injection Hg as <-. apply ord_refl. apply _.
  - eexists. split; [done |]. apply ord_sym.
  - apply ord_trans.
Qed.

(** *** Participants in written order *)

Lemma lex_app_tail x u v : lex segOrder (x ++ [u]) (x ++ [v]) = or_else (segOrder u v) 0.
Proof.
  induction x as [|a x IH]; cbn [app lex]; [done |].
  rewrite IH. by rewrite (ord_refl segOrder a).
Qed.

Lemma compareNumbers_app x a b : compareNumbers (x ++ a) (x ++ b) = compareNumbers a b.
Proof. induction x as [|c x IH]; cbn [app compareNumbers]; [done |]. by rewrite Z.eqb_refl. Qed.

Lemma compareNumbers_sign a b : compareNumbers a b < 0 -> compareNumbers a b = -1.
Proof.
  revert b. induction a as [|x a IH]; intros [|y b]; cbn [compareNumbers]; try lia.
  destruct (x =? y); [apply IH |]. destruct (x <? y); lia.
Qed.

(** Every later position compares greater. *)
Lemma check_positions_sorted positions seen previous :
  check_positions positions seen previous = Ret tt ->
  (forall q, previous = Some q -> Forall (fun p => compareNumbers q p < 0) positions) /\
  forall a b p q, (a < b)%nat -> positions !! a = Some p -> positions !! b = Some q ->
    compareNumbers p q < 0.
Proof.
  revert seen previous. induction positions as [|p rest IH]; intros seen previous; cbn [check_positions].
  { intros _. split; [constructor | intros a b x y _ Ha; done]. }
  destruct (negb (valid_position p)); [done |]. destruct (bool_decide (p ∈ seen)); [done |].
  destruct (match previous with Some q => _ | None => _ end) eqn:Hprev; [done |].
  intros [H1 H2]%IH. specialize (H1 p eq_refl). split.
  - intros q ->. apply orb_false_iff in Hprev as [Hle%Z.leb_gt _]. constructor; [done |].
    eapply Forall_impl; [exact H1 |]. cbn. intros r Hr. by apply (ord_lt_le compareNumbers q p r); [| lia].
  - intros [|a] [|b] x y Hab Ha Hb; try lia.
    + injection Ha as <-. by apply (proj1 (Forall_lookup _ _) H1 b).
    + apply (H2 a b x y); [lia | done | done].
Qed.

Lemma make_all_lookup L fp s visit positions ids L' :
  make_all L fp s visit positions = (ids, L') ->
  ids = seq (length (frames L)) (length positions) /\
  (forall i f, frames L !! i = Some f -> frames L' !! i = Some f) /\
  forall a p, positions !! a = Some p -> exists f,
    frames L' !! (length (frames L) + a)%nat = Some f /\ family f = family fp /\
    segs f = segs fp ++ [mkSegment s visit (fr_participant fp ++ p) None].
Proof.
  revert L ids. induction positions as [|p rest IH]; intros L ids; cbn [make_all].
  { intros [= <- <-]. done. }
  unfold make. destruct (make_all _ fp s visit rest) as [ids' L2] eqn:Hrest. intros [= <- <-].
  apply IH in Hrest as (-> & Hold & Hnew). cbn [frames] in *. rewrite length_app in *. cbn [length] in *.
  split; [cbn; by rewrite Nat.add_1_r |]. split.
  - intros i f Hf. apply Hold. by apply lookup_app_l_Some.
  - intros [|a] q Hq.
    + injection Hq as <-. eexists. rewrite Nat.add_0_r. split; [apply Hold |].
      { rewrite lookup_app_r, Nat.sub_diag by done. done. }
      done.
    + destruct (Hnew a q Hq) as (f & Hf & ?). exists f. split; [| done].
      replace (length (frames L) + S a)%nat with (length (frames L) + 1 + a)%nat by lia. done.
Qed.

(** A batch of participants runs in written order.  When [participantIdentities]
    accepts a batch, it makes one identity per position, in order, all of the
    parent's family, and every identity compares less than each later one, so the
    schedule of the barrier follows the flattened source order. *)
Theorem participants_in_order steps p s positions ids L' :
  participantIdentities (run_steps steps) p s positions = Ret (ids, L') ->
  length ids = length positions /\ NoDup ids /\
  forall a b i j, (a < b)%nat -> ids !! a = Some i -> ids !! b = Some j ->
    compareInvocations L' i j = Ret (-1).
Proof.
  pose proof (Frames_run steps) as HF. revert HF. generalize (run_steps steps). intros L HF.
  unfold participantIdentities, frame. destruct (frames L !! p) as [fp|] eqn:Hp; [| done]. cbn [res_bind].
  destruct (check_positions positions [] None) as [[]|] eqn:Hcp; [| done]. cbn [res_bind].
  apply check_positions_sorted in Hcp as [_ Hsort].
  destruct (occurrence L p s) as [[n L1]|] eqn:Ho; [| done]. cbn [res_bind]. intros [= Hm].
  apply make_all_lookup in Hm as (-> & _ & Hnew).
  destruct (Frames_occurrence L p s n L1 fp HF Hp Ho) as (HF1 & [q Hs] & _ & fp1 & Hp1 & _ & Hpath & _).
  split; [apply length_seq |]. split; [apply NoDup_seq |]. intros a b i j Hab Ha Hb.
  apply lookup_seq in Ha as [-> Ha], Hb as [-> Hb].
  destruct (lookup_lt_is_Some_2 _ _ Ha) as [pa Hpa], (lookup_lt_is_Some_2 _ _ Hb) as [pb Hpb].
  destruct (Hnew a pa Hpa) as (f & Hf & Hff & Hsf), (Hnew b pb Hpb) as (g & Hg & Hfg & Hsg).
  assert (Forall valid_site (segs fp)) as Hv by by apply (fr_valid L HF p).
  unfold compareInvocations, frame. rewrite Hf, Hg. cbn [res_bind]. rewrite Hff, Hfg, Nat.eqb_refl.
  cbn [negb]. unfold segs in Hsf, Hsg, Hv. rewrite Hsf, Hsg.
  rewrite comparePaths_ret; [| (apply Forall_app; split; [done |]; constructor; [by exists q | done])..].
  f_equal. rewrite lex_app_tail. unfold segOrder. cbn [site site_pair seg_occurrence participant].
  unfold site_pair. cbn [site]. rewrite Hs, (ord_refl compareText), !Z.sub_diag.
  pose proof (compareNumbers_sign pa pb (Hsort a b pa pb Hab Hpa Hpb)) as Hc.
  rewrite compareNumbers_app, Hc. done.
Qed.

(** *** Witnesses *)

Definition demo_steps : list step :=
  [MakeRoot (mkRootIdentity (js "p") (js "d") (js "n")); Invoke 0 (js "f#1") None;
   Invoke 0 (js "f#1") None; Invoke 1 (js "g#10") None].

Lemma invocations_totally_ordered_witness :
  exists a b c, compareInvocations (run_steps demo_steps) 1 2 = Ret a /\
    compareInvocations (run_steps demo_steps) 2 3 = Ret b /\
    compareInvocations (run_steps demo_steps) 1 3 = Ret c /\ (a = 0 <-> 1%nat = 2%nat) /\
    (exists a', compareInvocations (run_steps demo_steps) 2 1 = Ret a' /\ Z.sgn a' = - Z.sgn a) /\
    (a <= 0 -> b <= 0 -> c <= 0).
Proof.
  apply (invocations_totally_ordered demo_steps 0 1 2 3); eexists; split; vm_compute; reflexivity.
Defined.

Lemma participants_in_order_witness :
  match participantIdentities (run_steps demo_steps) 1 (js "h#0") [[0]; [1; 0]; [1; 1]] with
  | Ret (ids, L') => compareInvocations L' 5 6 = Ret (-1)
  | Throw _ => False
  end.
Proof.
  destruct (participantIdentities (run_steps demo_steps) 1 (js "h#0") [[0]; [1; 0]; [1; 1]])
    as [[ids L']|msg] eqn:H; [| vm_compute in H; discriminate H].
  assert (ids = [4; 5; 6]%nat) as Hids by (vm_compute in H; by injection H as <- <-).
  destruct (participants_in_order demo_steps 1 (js "h#0") [[0]; [1; 0]; [1; 1]] ids L' H) as (_ & _ & Ho).
  apply (Ho 1%nat 2%nat); [lia | by rewrite Hids | by rewrite Hids].
Defined.
