(* ===== verification/Barrier.v ===== *)
(** * The assertion barrier ([assert/barrier.ts])

    Frames of one barrier in their phases, the pending fixture requests and the
    heap that orders them.  A frame is the index of its entry, a request the index
    of its entry; [compare] is the comparator given to [createBarrier], which may
    throw or answer a number that is not finite ([None]). *)
From stdpp Require Import base gmap list strings.
From Stdlib Require Import ZArith Lia.
From S2P Require Import Prelude.

Inductive Phase : Type := reserved | running | waiting | fixture | done_.

#[global] Instance Phase_eq_dec : EqDecision Phase.
Proof. solve_decision. Defined.

Record FrameState : Type := mkFrameState { identity : nat; fs_phase : Phase }.

Record Request : Type := mkRequest { rq_frame : nat; rq_sequence : Z }.

(** What the barrier did for its requests. *)
Inductive event : Type :=
| Released (request : nat)
| Rejected (request : nat).

(** [entries] are the frames ever reserved; [frames] of the code holds those not
    done, [identities] the identities of all of them. *)
Record State : Type := mkState {
  entries : list FrameState;
  active : Z;
  requests : list Request;
  pending : list nat;
  incoming : list nat;
  heap : list nat;
  sequence : Z;
  queued : bool;
  history : list event
}.

Definition createBarrier : State := mkState [] 0 [] [] [] [] 0 false [].

Definition live_frames (s : State) : list FrameState :=
  filter (fun f => fs_phase f <> done_) (entries s).

Definition blocking (p : Phase) : Z :=
  match p with running | reserved => 1 | _ => 0 end.

Definition with_frames (s : State) (es : list FrameState) (a : Z) : State :=
  mkState es a (requests s) (pending s) (incoming s) (heap s) (sequence s) (queued s) (history s).

(** [phase(entry, next)]. *)
Definition set_phase (s : State) (f : nat) (next : Phase) : State :=
  match entries s !! f with
  | None => s
  | Some e => with_frames s (<[f := mkFrameState (identity e) next]> (entries s))
                (active s + (blocking next - blocking (fs_phase e)))
  end.

Section barrier.
Context (comparator : nat -> nat -> option Z).

(** [compare(state, a, b)] on two requests; [None] is a throw. *)
Definition compare (s : State) (a b : nat) : option Z :=
  match requests s !! a, requests s !! b with
  | Some qa, Some qb =>
      match entries s !! rq_frame qa, entries s !! rq_frame qb with
      | Some fa, Some fb =>
          match comparator (identity fa) (identity fb) with
          | Some order =>
              Some (if negb (order =? 0) then order
                    else if rq_sequence qa <? rq_sequence qb then -1
                    else if rq_sequence qb <? rq_sequence qa then 1 else 0)
          | None => None
          end
      | _, _ => None
      end
  | _, _ => None
  end.

(** ** The heap *)

(** The loop of [insert]: the hole at [index] moves up. *)
Fixpoint sift_up (cmp : nat -> nat -> option Z) (fuel : nat) (h : list nat) (index request : nat) :
    option (list nat) :=
  match index, fuel with
  | S i, S fuel' =>
      let parent := Nat.div2 i in
      match h !! parent with
      | None => None
      | Some p =>
          match cmp p request with
          | None => None
          | Some c =>
              if c <=? 0 then Some (<[index := request]> h)
              else sift_up cmp fuel' (<[index := p]> h) parent request
          end
      end
  | _, _ => Some (<[index := request]> h)
  end.

Definition insert_heap (cmp : nat -> nat -> option Z) (h : list nat) (request : nat) :
    option (list nat) :=
  sift_up cmp (length h) (h ++ [request]) (length h) request.

(** The child the loop of [take] goes to. *)
Definition smaller_child (cmp : nat -> nat -> option Z) (h : list nat) (index : nat) : option nat :=
  let child := (index * 2 + 1)%nat in
  match h !! (child + 1)%nat, h !! child with
  | Some r, Some l =>
      match cmp r l with
      | None => None
      | Some c => Some (if c <? 0 then (child + 1)%nat else child)
      end
  | _, _ => Some child
  end.

Fixpoint sift_down (cmp : nat -> nat -> option Z) (fuel : nat) (h : list nat) (index last : nat) :
    option (list nat) :=
  match fuel with
  | O => Some (<[index := last]> h)
  | S fuel' =>
      if (index * 2 + 1 <? length h)%nat then
        match smaller_child cmp h index with
        | None => None
        | Some child =>
            match h !! child with
            | None => None
            | Some c =>
                match cmp last c with
                | None => None
                | Some order =>
                    if order <=? 0 then Some (<[index := last]> h)
                    else sift_down cmp fuel' (<[index := c]> h) child last
                end
            end
        end
      else Some (<[index := last]> h)
  end.

(** [take]: the root and the heap without it; never called on an empty heap. *)
Definition take_heap (cmp : nat -> nat -> option Z) (h : list nat) : option (nat * list nat) :=
  match head h, last h with
  | Some request, Some lst =>
      let h' := removelast h in
      if (length h' =? 0)%nat then Some (request, h')
      else match sift_down cmp (length h') h' 0 lst with
           | Some h'' => Some (request, h'')
           | None => None
           end
  | _, _ => None
  end.

(** The loop over [state.incoming]. *)
Fixpoint insert_all (cmp : nat -> nat -> option Z) (h : list nat) (news : list nat) :
    option (list nat) :=
  match news with
  | [] => Some h
  | r :: rest =>
      match insert_heap cmp h r with
      | None => None
      | Some h' => insert_all cmp h' rest
      end
  end.

(** ** Releases *)

(** [changed]. *)
Definition changed (s : State) : State :=
  mkState (entries s) (active s) (requests s) (pending s) (incoming s) (heap s) (sequence s) true
    (history s).

Definition request_frame (s : State) (r : nat) : nat :=
  match requests s !! r with Some q => rq_frame q | None => length (entries s) end.

Definition resume_all (s : State) (rs : list nat) : State :=
  fold_left (fun s r => set_phase s (request_frame s r) running) rs s.

(** The microtask of [changed]. *)
Definition microtask (s : State) : State :=
  if negb (queued s) then s
  else
    let s := mkState (entries s) (active s) (requests s) (pending s) (incoming s) (heap s)
               (sequence s) false (history s) in
    if negb (active s =? 0) || (length (pending s) =? 0)%nat then s
    else
      match insert_all (compare s) (heap s) (incoming s) ≫= take_heap (compare s) with
      | Some (request, heap') =>
          let s' := mkState (entries s) (active s) (requests s)
                      (filter (fun r => r <> request) (pending s)) [] heap' (sequence s) false
                      (history s ++ [Released request]) in
          set_phase s' (request_frame s request) running
      | None =>
          let s' := resume_all s (pending s) in
          mkState (entries s') (active s') (requests s) [] [] [] (sequence s) false
            (history s ++ (Rejected <$> pending s))
      end.

(** ** The operations *)

(** [reserveFrame]; [known] says that [compareInvocations(state.root, identity)]
    does not throw. *)
Definition reserveFrame (s : State) (id : nat) (known : bool) : res (nat * State) :=
  if negb known then Throw "cannot order different assertion roots"
  else if bool_decide (id ∈ identity <$> entries s) then Throw "invocation frame already reserved"
  else Ret (length (entries s),
            with_frames s (entries s ++ [mkFrameState id reserved]) (active s + 1)).

Definition transition (s : State) (f : nat) (from to : Phase) : res State :=
  match entries s !! f with
  | None => Throw "invalid assertion frame"
  | Some e =>
      if negb (bool_decide (fs_phase e = from)) then Throw "invalid assertion frame transition"
      else Ret (changed (set_phase s f to))
  end.

Definition startFrame (s : State) (f : nat) : res State := transition s f reserved running.
Definition suspendFrame (s : State) (f : nat) : res State := transition s f running waiting.
Definition resumeFrame (s : State) (f : nat) : res State := transition s f waiting running.
Definition finishFrame (s : State) (f : nat) : res State := transition s f running done_.
Definition abandonFrame (s : State) (f : nat) : res State := transition s f reserved done_.

Definition fixtureEvent (s : State) (f : nat) : res State :=
  match entries s !! f with
  | None => Throw "invalid assertion frame"
  | Some e =>
      if negb (bool_decide (fs_phase e = running))
      then Throw "fixture requested outside a running invocation"
      else
        let s := set_phase s f fixture in
        let r := length (requests s) in
        Ret (changed (mkState (entries s) (active s) (requests s ++ [mkRequest f (sequence s)])
               (pending s ++ [r]) (incoming s ++ [r]) (heap s) (sequence s + 1) (queued s)
               (history s)))
  end.

(** ** Everything that can happen next *)
Inductive move : Type :=
| Reserve (id : nat) (known : bool)
| Start (f : nat)
| Suspend (f : nat)
| Resume (f : nat)
| Finish (f : nat)
| Abandon (f : nat)
| Fixture (f : nat)
| Microtask.

Definition state_of (s : State) (r : res State) : State :=
  match r with Ret s' => s' | Throw _ => s end.

Definition act (s : State) (m : move) : State :=
  match m with
  | Reserve id known => match reserveFrame s id known with Ret (_, s') => s' | Throw _ => s end
  | Start f => state_of s (startFrame s f)
  | Suspend f => state_of s (suspendFrame s f)
  | Resume f => state_of s (resumeFrame s f)
  | Finish f => state_of s (finishFrame s f)
  | Abandon f => state_of s (abandonFrame s f)
  | Fixture f => state_of s (fixtureEvent s f)
  | Microtask => microtask s
  end.

Definition run_moves (moves : list move) : State := fold_left act moves createBarrier.
End barrier.

Definition barrierState (s : State) : nat * list (nat * Phase) :=
  (length (pending s), (fun f => (identity f, fs_phase f)) <$> live_frames s).

(** Three frames ask in the order 2, 0, 1 and are released in the order 0, 1, 2. *)
Example canonical_release :
  history (run_moves (fun a b => Some (Z.of_nat a - Z.of_nat b))
    [Reserve 2 true; Reserve 0 true; Reserve 1 true; Start 0; Start 1; Start 2;
     Fixture 0; Microtask; Fixture 1; Microtask; Fixture 2; Microtask; Finish 1; Microtask; Finish 2; Microtask])
  = [Released 1; Released 2; Released 0].
Proof. vm_compute. done. Qed.
