(* ===== verification/BarrierTheorems.v ===== *)
(** * The assertion barrier: quiescence, one settlement per request, canonical order *)
From stdpp Require Import base gmap list strings.
From Stdlib Require Import ZArith Lia.
From S2P Require Import Prelude JsString Lineage Ordering LineageTheorems Barrier.

(** ** The binary heap of the barrier

    [insert_heap] and [take_heap] are a priority queue for every comparison that is a
    total preorder. *)

(** ** Positions *)

Definition parent_of (i : nat) : nat := Nat.div2 (i - 1).

Lemma parent_child i j : (0 < j)%nat -> parent_of j = i <-> (j = i * 2 + 1)%nat \/ (j = i * 2 + 2)%nat.
Proof.
  unfold parent_of. rewrite Nat.div2_div. pose proof (Nat.div_mod (j - 1) 2).
  pose proof (Nat.mod_upper_bound (j - 1) 2). lia.
Qed.

Lemma parent_lt i : (0 < i)%nat -> (parent_of i < i)%nat.
Proof.
  unfold parent_of. rewrite Nat.div2_div. pose proof (Nat.div_mod (i - 1) 2). lia.
Qed.

Lemma perm_insert {A} (l : list A) i x y : l !! i = Some x -> x :: <[i := y]> l ≡ₚ y :: l.
Proof.
  intros Hx. rewrite insert_take_drop by (by eapply lookup_lt_Some).
  rewrite <- (take_drop_middle l i x Hx) at 3.
  rewrite <- !Permutation_middle. apply perm_swap.
Qed.

Section heap.
Context (c : nat -> nat -> Z) `{!Ordering c}.
Context (cmp : nat -> nat -> option Z) (P : nat -> Prop).
Hypothesis cmp_total : forall a b, P a -> P b -> cmp a b = Some (c a b).

Implicit Types h : list nat.

(** Parents are not above their children, edges at [hole] aside. *)
Definition edge_ok h (i : nat) : Prop :=
  forall a p, h !! i = Some a -> h !! parent_of i = Some p -> c p a <= 0.

Definition heap_ok h : Prop := forall i, (0 < i)%nat -> edge_ok h i.

Lemma heap_root h r : heap_ok h -> h !! 0%nat = Some r -> forall a, a ∈ h -> c r a <= 0.
Proof.
  intros Hh Hr a [i Hi]%list_elem_of_lookup. revert a Hi.
  induction (lt_wf i) as [i _ IH]. intros a Hi.
  destruct (decide (i = 0%nat)) as [->|Hne].
  { rewrite Hr in Hi. injection Hi as ->. rewrite ord_refl; [lia | done]. }
  pose proof (parent_lt i ltac:(lia)) as Hlt.
  destruct (lookup_lt_is_Some_2 h (parent_of i)) as [p Hp].
  { apply lookup_lt_Some in Hi. lia. }
  apply (ord_trans r p a); [by apply (IH (parent_of i)) |]. by apply (Hh i ltac:(lia)).
Qed.

(** ** Up *)

(** The hole at [index] may take [request] without breaking an edge below it. *)
Record up_ok h (index request : nat) : Prop := {
  up_edges : forall i, (0 < i)%nat -> i <> index -> parent_of i <> index -> edge_ok h i;
  up_below : forall i a, (0 < i)%nat -> parent_of i = index -> h !! i = Some a -> c request a <= 0;
  up_across : forall i a p, (0 < i)%nat -> (0 < index)%nat -> parent_of i = index -> h !! i = Some a ->
    h !! parent_of index = Some p -> c p a <= 0
}.

Lemma up_place h index request :
  up_ok h index request -> (index < length h)%nat ->
  (forall p, (0 < index)%nat -> h !! parent_of index = Some p -> c p request <= 0) ->
  heap_ok (<[index := request]> h).
Proof.
  intros [H1 H2 _] Hlen Hp i Hi a p Ha Hpar.
  destruct (decide (i = index)) as [->|Hne].
  - rewrite list_lookup_insert_eq in Ha by done. injection Ha as <-.
    pose proof (parent_lt index Hi). rewrite list_lookup_insert_ne in Hpar by lia. by apply Hp.
  - rewrite list_lookup_insert_ne in Ha by done.
    destruct (decide (parent_of i = index)) as [He|Hne'].
    + rewrite He, list_lookup_insert_eq in Hpar by done. injection Hpar as <-. by apply (H2 i).
    + rewrite list_lookup_insert_ne in Hpar by done. by apply (H1 i Hi Hne Hne').
Qed.

Lemma up_move h index request p :
  up_ok h index request -> (0 < index)%nat -> (index < length h)%nat ->
  h !! parent_of index = Some p -> c request p <= 0 ->
  up_ok (<[index := p]> h) (parent_of index) request.
Proof.
  intros [H1 H2 H3] Hi Hlen Hp Hle. pose proof (parent_lt index Hi) as Hlt.
  assert (forall i a, (0 < i)%nat -> i <> index -> parent_of i = parent_of index ->
    h !! i = Some a -> c p a <= 0) as Hsib.
  { intros i a Hi' Hne He Ha. apply (H1 i Hi' Hne ltac:(lia) a p Ha). by rewrite He. }
  split.
  - intros i Hi' Hne Hpar a q Ha Hq.
    destruct (decide (i = index)) as [->|Hni].
    { by destruct Hpar. }
    rewrite list_lookup_insert_ne in Ha by done.
    destruct (decide (parent_of i = index)) as [He|Hne'].
    + rewrite He, list_lookup_insert_eq in Hq by done. injection Hq as <-. by apply (H3 i a p).
    + rewrite list_lookup_insert_ne in Hq by done. by apply (H1 i Hi' Hni Hne' a q).
  - intros i a Hi' He Ha. destruct (decide (i = index)) as [->|Hni].
    + rewrite list_lookup_insert_eq in Ha by done. by injection Ha as <-.
    + rewrite list_lookup_insert_ne in Ha by done. apply (ord_trans request p a); [done |].
      by apply (Hsib i).
  - intros i a q Hi' Hpi He Ha Hq. pose proof (parent_lt (parent_of index) Hpi).
    rewrite list_lookup_insert_ne in Hq by lia.
    assert (c q p <= 0) as Hqp by (apply (H1 (parent_of index) Hpi ltac:(lia) ltac:(lia)); done).
    destruct (decide (i = index)) as [->|Hni].
    + rewrite list_lookup_insert_eq in Ha by done. by injection Ha as <-.
    + rewrite list_lookup_insert_ne in Ha by done. apply (ord_trans q p a); [done |].
      by apply (Hsib i).
Qed.

Lemma sift_up_ok fuel h index request x :
  (index <= fuel)%nat -> h !! index = Some x -> Forall P h -> P request -> up_ok h index request ->
  exists h', sift_up cmp fuel h index request = Some h' /\ heap_ok h' /\ x :: h' ≡ₚ request :: h.
Proof.
  revert h index x. induction fuel as [|fuel IH]; intros h index x Hfuel Hx HP Hr Hup.
  - assert (index = 0)%nat as -> by lia. cbn. eexists. split; [done |]. split; [| by apply perm_insert].
    apply up_place; [done | by eapply lookup_lt_Some | lia].
  - pose proof (lookup_lt_Some _ _ _ Hx) as Hlen. destruct index as [|i]; cbn [sift_up].
    { eexists. split; [done |]. split; [| by apply perm_insert]. apply up_place; [done | done | lia]. }
    assert (Nat.div2 i = parent_of (S i)) as -> by (unfold parent_of; f_equal; lia).
    pose proof (parent_lt (S i) ltac:(lia)) as Hlt.
    destruct (lookup_lt_is_Some_2 h (parent_of (S i)) ltac:(lia)) as [p Hp]. rewrite Hp.
    assert (P p) as HPp by by apply (proj1 (Forall_lookup _ _) HP _ _ Hp).
    rewrite cmp_total by done. destruct (Z.leb_spec (c p request) 0) as [Hle|Hgt].
    + eexists. split; [done |]. split; [| by apply perm_insert].
      apply up_place; [done | done |]. intros q _ Hq. congruence.
    + destruct (IH (<[S i := p]> h) (parent_of (S i)) p) as (h' & Hs & Hok & Hperm).
      * lia.
      * rewrite list_lookup_insert_ne by lia. done.
      * by apply Forall_insert.
      * done.
      * apply up_move; try done; [lia |]. pose proof (ord_flip c p request). lia.
      * exists h'. split; [done |]. split; [done |].
        apply (Permutation_cons_inv (a := p)). rewrite (perm_swap x p), Hperm.
        rewrite (perm_swap request x), (perm_insert h (S i) x p Hx). apply perm_swap.
Qed.

Lemma insert_heap_ok h request :
  Forall P h -> P request -> heap_ok h ->
  exists h', insert_heap cmp h request = Some h' /\ heap_ok h' /\ h' ≡ₚ request :: h.
Proof.
  intros HP Hr Hh.
  assert ((h ++ [request]) !! length h = Some request) as Hx
    by (by rewrite lookup_app_r, Nat.sub_diag by done).
  destruct (sift_up_ok (length h) (h ++ [request]) (length h) request request) as (h' & Hs & Hok & Hp).
  - done.
  - exact Hx.
  - apply Forall_app. split; [done | by constructor].
  - done.
  - split.
    + intros i Hi Hne Hpar a p Ha Hp. pose proof (parent_lt i Hi).
      pose proof (lookup_lt_Some _ _ _ Ha) as Hlt. rewrite length_app in Hlt. cbn in Hlt.
      rewrite lookup_app_l in Ha, Hp by lia. by apply (Hh i Hi).
    + intros i a Hi Hpar Ha. apply lookup_lt_Some in Ha. rewrite length_app in Ha. cbn in Ha.
      pose proof (parent_lt i Hi). lia.
    + intros i a p Hi _ Hpar Ha. apply lookup_lt_Some in Ha. rewrite length_app in Ha. cbn in Ha.
      pose proof (parent_lt i Hi). lia.
  - exists h'. split; [done |]. split; [done |]. apply Permutation_cons_inv in Hp.
    rewrite Hp. by rewrite <- Permutation_cons_append.
Qed.

(** ** Down *)

Record down_ok h (index lst : nat) : Prop := {
  dn_edges : forall i, (0 < i)%nat -> i <> index -> parent_of i <> index -> edge_ok h i;
  dn_above : forall p, (0 < index)%nat -> h !! parent_of index = Some p -> c p lst <= 0;
  dn_across : forall i a p, (0 < i)%nat -> (0 < index)%nat -> parent_of i = index -> h !! i = Some a ->
    h !! parent_of index = Some p -> c p a <= 0
}.

Lemma down_place h index lst :
  down_ok h index lst -> (index < length h)%nat ->
  (forall i a, (0 < i)%nat -> parent_of i = index -> h !! i = Some a -> c lst a <= 0) ->
  heap_ok (<[index := lst]> h).
Proof.
  intros [H1 H2 _] Hlen Hb i Hi a p Ha Hpar.
  destruct (decide (i = index)) as [->|Hne].
  - rewrite list_lookup_insert_eq in Ha by done. injection Ha as <-.
    pose proof (parent_lt index Hi). rewrite list_lookup_insert_ne in Hpar by lia. by apply H2.
  - rewrite list_lookup_insert_ne in Ha by done.
    destruct (decide (parent_of i = index)) as [He|Hne'].
    + rewrite He, list_lookup_insert_eq in Hpar by done. injection Hpar as <-. by apply (Hb i).
    + rewrite list_lookup_insert_ne in Hpar by done. by apply (H1 i Hi Hne Hne').
Qed.

Lemma down_move h index child lst k :
  down_ok h index lst -> (index < length h)%nat -> (0 < child)%nat -> parent_of child = index ->
  h !! child = Some k -> c k lst <= 0 ->
  (forall i a, (0 < i)%nat -> parent_of i = index -> h !! i = Some a -> c k a <= 0) ->
  down_ok (<[index := k]> h) child lst.
Proof.
  intros [H1 H2 H3] Hlen Hc Hpar Hk Hle Hmin. pose proof (parent_lt child Hc) as Hlt. split.
  - intros i Hi Hne Hpc a p Ha Hp. destruct (decide (i = index)) as [->|Hni].
    + rewrite list_lookup_insert_eq in Ha by done. injection Ha as <-.
      pose proof (parent_lt index Hi). rewrite list_lookup_insert_ne in Hp by lia.
      by apply (H3 child k p).
    + rewrite list_lookup_insert_ne in Ha by done.
      destruct (decide (parent_of i = index)) as [He|Hne'].
      * rewrite He, list_lookup_insert_eq in Hp by done. injection Hp as <-. by apply (Hmin i).
      * rewrite list_lookup_insert_ne in Hp by done. by apply (H1 i Hi Hni Hne').
  - intros p _ Hp. rewrite Hpar, list_lookup_insert_eq in Hp by done. by injection Hp as <-.
  - intros i a p Hi _ Hpi Ha Hp. rewrite Hpar, list_lookup_insert_eq in Hp by done. injection Hp as <-.
    pose proof (parent_lt i Hi). rewrite list_lookup_insert_ne in Ha by lia.
    apply (H1 i Hi ltac:(lia) ltac:(lia) a k Ha). by rewrite Hpi.
Qed.

Lemma smaller_child_ok h index :
  Forall P h -> (index * 2 + 1 < length h)%nat ->
  exists child k, smaller_child cmp h index = Some child /\ (0 < child)%nat /\
    parent_of child = index /\ h !! child = Some k /\
    forall i a, (0 < i)%nat -> parent_of i = index -> h !! i = Some a -> c k a <= 0.
Proof.
  intros HP Hlen. unfold smaller_child.
  destruct (lookup_lt_is_Some_2 h (index * 2 + 1) Hlen) as [l Hl]. rewrite Hl.
  assert (forall i a, (0 < i)%nat -> parent_of i = index -> h !! i = Some a ->
    a = l \/ h !! (index * 2 + 1 + 1)%nat = Some a) as Hkids.
  { intros i a Hi Hp Ha. apply parent_child in Hp as [->| ->]; [left; congruence | right | done].
    replace (index * 2 + 1 + 1)%nat with (index * 2 + 2)%nat by lia. done. }
  assert (P l) as HPl by by apply (proj1 (Forall_lookup _ _) HP _ _ Hl).
  destruct (h !! (index * 2 + 1 + 1)%nat) as [r|] eqn:Hr.
  - assert (P r) as HPr by by apply (proj1 (Forall_lookup _ _) HP _ _ Hr).
    rewrite cmp_total by done. pose proof (ord_refl c l). pose proof (ord_refl c r).
    pose proof (ord_flip c l r). destruct (Z.ltb_spec (c r l) 0) as [Hlt|Hge].
    + exists (index * 2 + 1 + 1)%nat, r. split; [done |]. split; [lia |].
      split; [apply parent_child; lia |]. split; [done |].
      intros i a Hi Hp Ha. destruct (Hkids i a Hi Hp Ha) as [->|[= <-]]; lia.
    + exists (index * 2 + 1)%nat, l. split; [done |]. split; [lia |].
      split; [apply parent_child; lia |]. split; [done |].
      intros i a Hi Hp Ha. destruct (Hkids i a Hi Hp Ha) as [->|[= <-]]; lia.
  - exists (index * 2 + 1)%nat, l. split; [done |]. split; [lia |].
    split; [apply parent_child; lia |]. split; [done |].
    intros i a Hi Hp Ha. destruct (Hkids i a Hi Hp Ha) as [->|]; [| done].
    rewrite ord_refl; [lia | done].
Qed.

Lemma sift_down_ok fuel h index lst x :
  (length h <= index + fuel)%nat -> h !! index = Some x -> Forall P h -> P lst ->
  down_ok h index lst ->
  exists h', sift_down cmp fuel h index lst = Some h' /\ heap_ok h' /\ x :: h' ≡ₚ lst :: h.
Proof.
  revert h index x. induction fuel as [|fuel IH]; intros h index x Hfuel Hx HP Hl Hdn;
    pose proof (lookup_lt_Some _ _ _ Hx) as Hlen; [lia |].
  cbn [sift_down]. destruct (Nat.ltb_spec (index * 2 + 1) (length h)) as [Hlt|Hge].
  - destruct (smaller_child_ok h index HP Hlt) as (child & k & -> & Hc & Hpar & Hk & Hmin). rewrite Hk.
    assert (P k) as HPk by by apply (proj1 (Forall_lookup _ _) HP _ _ Hk).
    rewrite cmp_total by done. pose proof (ord_flip c k lst) as [Hfl _].
    destruct (Z.leb_spec (c lst k) 0) as [Hle|Hgt].
    + eexists. split; [done |]. split; [| by apply perm_insert].
      apply down_place; [done | done |]. intros i a Hi Hp Ha.
      apply (ord_trans lst k a); [done |]. by apply (Hmin i).
    + pose proof (parent_lt child Hc).
      destruct (IH (<[index := k]> h) child k) as (h' & Hs & Hok & Hperm).
      * rewrite length_insert. lia.
      * rewrite list_lookup_insert_ne by lia. done.
      * by apply Forall_insert.
      * done.
      * apply down_move; try done. lia.
      * exists h'. split; [done |]. split; [done |].
        apply (Permutation_cons_inv (a := k)). rewrite (perm_swap x k), Hperm.
        rewrite (perm_swap lst x), (perm_insert h index x k Hx). apply perm_swap.
  - eexists. split; [done |]. split; [| by apply perm_insert]. apply down_place; [done | done |].
    intros i a Hi Hp Ha. apply lookup_lt_Some in Ha.
    apply parent_child in Hp as [->| ->]; [lia | lia | done].
Qed.

(** The least element comes out, the others stay, and the rest is a heap. *)
Lemma take_heap_ok h :
  Forall P h -> heap_ok h -> h <> [] ->
  exists r h', take_heap cmp h = Some (r, h') /\ heap_ok h' /\ r :: h' ≡ₚ h /\
    (forall a, a ∈ h -> c r a <= 0).
Proof.
  intros HP Hh Hne. destruct (exists_last Hne) as (h0 & lst & ->).
  unfold take_heap. rewrite last_snoc, removelast_last.
  apply Forall_app in HP as [HP0 HPl]. apply Forall_cons in HPl as [HPl _].
  destruct h0 as [|r h0].
  - cbn. exists lst, []. split; [done |]. split; [intros i Hi a p Ha; done |]. split; [done |].
    intros a [->|Ha]%elem_of_cons; [rewrite ord_refl; [lia | done] | inversion Ha].
  - cbn [head app length Nat.eqb].
    assert (down_ok (r :: h0) 0 lst) as Hdn.
    { split; [| intros *; lia | intros *; lia]. intros i Hi _ Hp a p Ha Hpa.
      apply (Hh i Hi a p); by apply lookup_app_l_Some. }
    destruct (sift_down_ok (S (length h0)) (r :: h0) 0 lst r) as (h' & -> & Hok & Hperm); try done.
    exists r, h'. split; [done |]. split; [done |]. split.
    + rewrite Hperm. apply (Permutation_cons_append (r :: h0) lst).
    + by apply heap_root.
Qed.

Lemma insert_all_ok h news :
  Forall P h -> Forall P news -> heap_ok h ->
  exists h', insert_all cmp h news = Some h' /\ heap_ok h' /\ h' ≡ₚ news ++ h.
Proof.
  intros HP Hn. revert h HP. induction Hn as [|r news Hr Hn IH]; intros h HP Hh; cbn [insert_all].
  { by exists h. }
  destruct (insert_heap_ok h r HP Hr Hh) as (h1 & -> & Hok & Hp).
  destruct (IH h1) as (h' & -> & Hok' & Hp'); [rewrite Hp; by constructor | done |].
  exists h'. split; [done |]. split; [done |]. rewrite Hp', Hp. cbn.
  by rewrite Permutation_middle.
Qed.
End heap.

(** Only the order of the elements of the heap matters. *)
Lemma heap_ok_ext c c' h :
  (forall a b, a ∈ h -> b ∈ h -> c' a b = c a b) -> heap_ok c h -> heap_ok c' h.
Proof.
  intros He Hh i Hi a p Ha Hp.
  rewrite He; [by apply (Hh i Hi a p) | by eapply list_elem_of_lookup_2..].
Qed.

(** ** Heaps of any comparator: nothing is lost *)

Lemma sift_up_perm cmp fuel h index request x h' :
  h !! index = Some x -> sift_up cmp fuel h index request = Some h' -> x :: h' ≡ₚ request :: h.
Proof.
  revert h index x. induction fuel as [|fuel IH]; intros h index x Hx; destruct index as [|i];
    cbn [sift_up]; try (intros [= <-]; by apply perm_insert).
  destruct (h !! Nat.div2 i) as [p|] eqn:Hp; [| done]. destruct (cmp p request) as [c|]; [| done].
  destruct (c <=? 0); [intros [= <-]; by apply perm_insert |]. intros Hs.
  assert (Nat.div2 i < S i)%nat by (rewrite Nat.div2_div; pose proof (Nat.div_mod i 2); lia).
  apply (IH _ _ p) in Hs; [| by rewrite list_lookup_insert_ne by lia].
  apply (Permutation_cons_inv (a := p)). rewrite (perm_swap x p), Hs.
  rewrite (perm_swap request x), (perm_insert h (S i) x p Hx). apply perm_swap.
Qed.

Lemma insert_all_perm cmp h news h' : insert_all cmp h news = Some h' -> h' ≡ₚ news ++ h.
Proof.
  revert h. induction news as [|r news IH]; intros h; cbn [insert_all]; [by intros [= <-] |].
  destruct (insert_heap cmp h r) as [h1|] eqn:Hi; [| done]. intros ->%IH. cbn.
  rewrite Permutation_middle. f_equiv. unfold insert_heap in Hi.
  apply (sift_up_perm _ _ _ _ _ r) in Hi; [| by rewrite lookup_app_r, Nat.sub_diag by done].
  apply Permutation_cons_inv in Hi. rewrite Hi. by rewrite <- Permutation_cons_append.
Qed.

Lemma smaller_child_up cmp h index child : smaller_child cmp h index = Some child -> (index < child)%nat.
Proof.
  unfold smaller_child.
  destruct (h !! (index * 2 + 1 + 1)%nat) as [r|], (h !! (index * 2 + 1)%nat) as [l|]; try (intros [= <-]; lia).
  destruct (cmp r l) as [c|]; [| done]. destruct (c <? 0); intros [= <-]; lia.
Qed.

Lemma sift_down_perm cmp fuel h index lst x h' :
  h !! index = Some x -> sift_down cmp fuel h index lst = Some h' -> x :: h' ≡ₚ lst :: h.
Proof.
  revert h index x. induction fuel as [|fuel IH]; intros h index x Hx; cbn [sift_down];
    [intros [= <-]; by apply perm_insert |].
  destruct (_ <? _)%nat; [| intros [= <-]; by apply perm_insert].
  destruct (smaller_child cmp h index) as [child|] eqn:Hc; [| done]. apply smaller_child_up in Hc.
  destruct (h !! child) as [k|] eqn:Hk; [| done]. destruct (cmp lst k) as [c|]; [| done].
  destruct (c <=? 0); [intros [= <-]; by apply perm_insert |]. intros Hs.
  apply (IH _ _ k) in Hs; [| by rewrite list_lookup_insert_ne by lia].
  apply (Permutation_cons_inv (a := k)). rewrite (perm_swap x k), Hs.
  rewrite (perm_swap lst x), (perm_insert h index x k Hx). apply perm_swap.
Qed.

Lemma take_heap_perm cmp h r h' : take_heap cmp h = Some (r, h') -> r :: h' ≡ₚ h.
Proof.
  unfold take_heap. destruct h as [|x h]; [done |].
  destruct (exists_last (l := x :: h) ltac:(done)) as (h0 & lst & Heq). rewrite Heq.
  rewrite last_snoc, removelast_last. destruct h0 as [|y h0].
  - cbn. by intros [= <- <-].
  - cbn [head app length Nat.eqb]. destruct (sift_down _ _ _ _ _) as [h2|] eqn:Hs; [| done].
    intros [= <- <-]. apply (sift_down_perm _ _ _ _ _ y) in Hs; [| done]. rewrite Hs.
    apply (Permutation_cons_append (y :: h0) lst).
Qed.

(** ** Frames *)

Definition blockers (es : list FrameState) : Z :=
  foldr (fun e acc => blocking (fs_phase e) + acc) 0 es.

Lemma blockers_app es es' : blockers (es ++ es') = blockers es + blockers es'.
Proof. unfold blockers. induction es as [|e es IH]; cbn in *; lia. Qed.

Lemma blockers_insert es f e e' :
  es !! f = Some e ->
  blockers (<[f := e']> es) = blockers es - blocking (fs_phase e) + blocking (fs_phase e').
Proof.
  intros He. rewrite insert_take_drop by (by eapply lookup_lt_Some).
  assert (blockers es = blockers (take f es ++ e :: drop (S f) es)) as ->
    by (by rewrite (take_drop_middle es f e He)).
  rewrite !blockers_app. cbn. lia.
Qed.

Lemma blocking_nonneg p : 0 <= blocking p.
Proof. by destruct p. Qed.

Lemma blockers_nonneg es : 0 <= blockers es.
Proof.
  unfold blockers. induction es as [|e es IH]; cbn; [lia |].
  pose proof (blocking_nonneg (fs_phase e)). lia.
Qed.

Lemma blockers_zero es : blockers es = 0 -> Forall (fun e => blocking (fs_phase e) = 0) es.
Proof.
  induction es as [|e es IH]; [done |]. change (blockers (e :: es)) with (blocking (fs_phase e) + blockers es).
  pose proof (blocking_nonneg (fs_phase e)). pose proof (blockers_nonneg es).
  intros H1. constructor; [| apply IH]; lia.
Qed.

Definition settled_request (e : event) : nat :=
  match e with Released r => r | Rejected r => r end.

Record Inv (s : State) : Prop := {
  b_active : active s = blockers (entries s);
  b_once : pending s ++ (settled_request <$> history s) ≡ₚ seq 0 (length (requests s));
  b_heap : heap s ++ incoming s ≡ₚ pending s;
  b_frames : forall r q, requests s !! r = Some q -> (rq_frame q < length (entries s))%nat;
  b_sequence : sequence s = Z.of_nat (length (requests s));
  b_numbers : forall r q, requests s !! r = Some q -> rq_sequence q = Z.of_nat r
}.

(** What [set_phase] leaves alone. *)
Lemma set_phase_rest s f p :
  let s' := set_phase s f p in
  requests s' = requests s /\ pending s' = pending s /\ incoming s' = incoming s /\
  heap s' = heap s /\ sequence s' = sequence s /\ queued s' = queued s /\ history s' = history s /\
  identity <$> entries s' = identity <$> entries s.
Proof.
  cbn. unfold set_phase. destruct (entries s !! f) as [e|] eqn:He; [| done]. cbn. split_and!; try done.
  rewrite list_fmap_insert. apply list_insert_id. by rewrite list_lookup_fmap, He.
Qed.

Lemma Inv_set_phase s f p : Inv s -> Inv (set_phase s f p).
Proof.
  intros [H1 H2 H3 H4 H5 H6]. pose proof (set_phase_rest s f p) as (Hr & Hp & Hi & Hh & Hs & _ & Hy & He).
  assert (length (entries (set_phase s f p)) = length (entries s)) as Hlen.
  { apply (f_equal length) in He. by rewrite !length_fmap in He. }
  split; rewrite ?Hr, ?Hp, ?Hi, ?Hh, ?Hs, ?Hy, ?Hlen; try done.
  unfold set_phase. destruct (entries s !! f) as [e|] eqn:Hf; [| done]. cbn.
  rewrite (blockers_insert _ _ _ _ Hf). cbn. lia.
Qed.

Lemma Inv_resume_all s rs : Inv s -> Inv (resume_all s rs).
Proof.
  unfold resume_all. revert s. induction rs as [|r rs IH]; intros s Hs; [done |]. cbn.
  by apply IH, Inv_set_phase.
Qed.

Lemma Inv_changed s : Inv s -> Inv (changed s).
Proof. by intros [H1 H2 H3 H4 H5 H6]. Qed.

Lemma resume_all_requests s rs : requests (resume_all s rs) = requests s /\
  identity <$> entries (resume_all s rs) = identity <$> entries s.
Proof.
  unfold resume_all. revert s. induction rs as [|r rs IH]; intros s; [done |]. cbn.
  destruct (IH (set_phase s (request_frame s r) running)) as [-> ->].
  pose proof (set_phase_rest s (request_frame s r) running) as (Hr & _ & _ & _ & _ & _ & _ & He). done.
Qed.

Lemma pending_nodup s : Inv s -> NoDup (pending s).
Proof.
  intros Hs. pose proof (NoDup_seq 0 (length (requests s))) as Hnd. rewrite <- (b_once s Hs) in Hnd.
  by apply NoDup_app in Hnd as [? _].
Qed.

(** The pending set without one member. *)
Lemma pending_without r (l : list nat) : NoDup l -> r ∈ l -> r :: filter (fun x => x <> r) l ≡ₚ l.
Proof.
  intros Hnd Hr. apply NoDup_Permutation.
  - constructor; [| by apply NoDup_filter]. intros [? _]%list_elem_of_filter. done.
  - done.
  - intros x. rewrite elem_of_cons, list_elem_of_filter. destruct (decide (x = r)) as [->|]; naive_solver.
Qed.

Lemma Inv_microtask comparator s : Inv s -> Inv (microtask comparator s).
Proof.
  intros Hs. pose proof (pending_nodup s Hs) as Hnd. unfold microtask.
  destruct (queued s); [| done]. cbn [negb].
  set (s1 := mkState _ _ _ _ _ _ _ _ _). assert (Inv s1) as Hs1 by by destruct Hs.
  destruct (_ || _)%bool; [done |].
  destruct (insert_all (compare comparator s1) (heap s1) (incoming s1) ≫= take_heap (compare comparator s1))
    as [[r h']|] eqn:Hres.
  - apply Inv_set_phase. apply bind_Some in Hres as (h1 & Hins & Htake).
    apply insert_all_perm in Hins. apply take_heap_perm in Htake.
    change (heap s1) with (heap s) in Hins. change (incoming s1) with (incoming s) in Hins.
    rewrite Hins, Permutation_app_comm, (b_heap s Hs) in Htake.
    assert (r ∈ pending s) as Hr by (rewrite <- Htake; left).
    pose proof (pending_without r (pending s) Hnd Hr) as Hw.
    destruct Hs as [H1 H2 H3 H4 H5 H6]. split; cbn; try done.
    + rewrite fmap_app. cbn. rewrite <- H2.
      transitivity ((r :: filter (fun x => x <> r) (pending s)) ++ (settled_request <$> history s));
        [| by rewrite Hw].
      rewrite app_assoc. symmetry. apply Permutation_cons_append.
    + rewrite app_nil_r. apply (Permutation_cons_inv (a := r)). by rewrite Hw.
  - pose proof (Inv_resume_all s1 (pending s1) Hs1) as Hr.
    destruct (resume_all_requests s1 (pending s1)) as [Hreq Hids].
    destruct Hr as [R1 R2 R3 R4 R5 R6], Hs as [H1 H2 H3 H4 H5 H6]. rewrite Hreq in R4.
    split; cbn; try done.
    rewrite fmap_app, <- list_fmap_compose. rewrite <- H2.
    replace (settled_request ∘ Rejected <$> pending s) with (pending s); [apply Permutation_app_comm |].
    symmetry. apply list_fmap_id.
Qed.

Lemma barrier_act_inv comparator s m : Inv s -> Inv (act comparator s m).
Proof.
  intros Hs. assert (forall f from to, Inv (state_of s (transition s f from to))) as Ht.
  { intros f from to. unfold transition. destruct (entries s !! f); [| done].
    destruct (negb _); [done |]. by apply Inv_changed, Inv_set_phase. }
  destruct m as [id known|f|f|f|f|f|f|]; cbn [act]; try apply Ht; [| | by apply Inv_microtask].
  - unfold reserveFrame. destruct known; [| done]. cbn [negb]. case_bool_decide; [done |].
    destruct Hs as [H1 H2 H3 H4 H5 H6]. split; cbn; try done.
    + rewrite blockers_app. cbn. lia.
    + intros r q Hq. rewrite length_app. specialize (H4 r q Hq). lia.
  - unfold fixtureEvent. destruct (entries s !! f) as [e|] eqn:He; [| done].
    destruct (negb _); [done |]. cbn [state_of]. apply Inv_changed.
    pose proof (Inv_set_phase s f fixture Hs) as Hs'.
    assert (f < length (entries (set_phase s f fixture)))%nat as Hf.
    { pose proof (set_phase_rest s f fixture) as (_ & _ & _ & _ & _ & _ & _ & Hid).
      apply (f_equal length) in Hid. rewrite !length_fmap in Hid. rewrite Hid. by eapply lookup_lt_Some. }
    revert Hs' Hf. generalize (set_phase s f fixture). clear s e He Hs Ht. intros s Hs Hf.
    destruct Hs as [H1 H2 H3 H4 H5 H6]. split; cbn; try done.
    + rewrite length_app, Nat.add_1_r, seq_S. cbn. rewrite <- H2.
      rewrite <- !app_assoc. f_equiv. apply Permutation_app_comm.
    + by rewrite app_assoc, H3.
    + intros r q [Hq|[_ Hq]]%lookup_app_Some; [by eapply H4 |].
      destruct (r - length (requests s))%nat; [| done]. by injection Hq as <-.
    + rewrite length_app. cbn. lia.
    + intros r q [Hq|[Hge Hq]]%lookup_app_Some; [by apply H6 |].
      destruct (r - length (requests s))%nat eqn:Hd; [| done]. injection Hq as <-. cbn. lia.
Qed.

Lemma barrier_run_inv comparator moves : Inv (run_moves comparator moves).
Proof.
  unfold run_moves. assert (Inv createBarrier) as H by by split.
  revert H. generalize createBarrier. induction moves as [|m moves IH]; intros s Hs; [done |].
  cbn. by apply IH, barrier_act_inv.
Qed.

(** ** Comparators that order the invocations *)

(** What the barrier needs of its comparator on the identities it admits. *)
Class Comparator (comparator : nat -> nat -> option Z) (ok : nat -> Prop) (ord : nat -> nat -> Z) :
    Prop := {
  cm_order :: Ordering ord;
  cm_total : forall i j, ok i -> ok j -> comparator i j = Some (ord i j)
}.

(** The moves reserve frames only for admitted identities. *)
Definition admitted (ok : nat -> Prop) (m : move) : Prop :=
  match m with Reserve id true => ok id | _ => True end.

Section canonical.
Context (comparator : nat -> nat -> option Z) (ok : nat -> Prop) (ord : nat -> nat -> Z).
Context `{!Comparator comparator ok ord}.

(** The identity and the sequence number of a request. *)
Definition request_id (s : State) (r : nat) : nat :=
  match requests s !! r with
  | Some q => default 0%nat ((identity <$> entries s) !! rq_frame q)
  | None => 0%nat
  end.

Definition request_seq (s : State) (r : nat) : Z :=
  match requests s !! r with Some q => rq_sequence q | None => 0 end.

(** The order of the requests: by invocation, then by arrival. *)
Definition request_order (s : State) (a b : nat) : Z :=
  or_else (ord (request_id s a) (request_id s b)) (Z.sgn (request_seq s a - request_seq s b)).

#[local] Instance Ordering_request s : Ordering (request_order s).
Proof.
  apply Ordering_or_else; [apply (Ordering_on (request_id s)); apply cm_order |].
  apply (Ordering_on (request_seq s) (fun x y => Z.sgn (x - y))); apply _.
Qed.

Definition good_request (s : State) (r : nat) : Prop :=
  exists q e, requests s !! r = Some q /\ entries s !! rq_frame q = Some e /\ ok (identity e).

Lemma compare_total s a b :
  good_request s a -> good_request s b -> compare comparator s a b = Some (request_order s a b).
Proof.
  intros (qa & ea & Ha & Hea & Hoa) (qb & eb & Hb & Heb & Hob).
  unfold compare, request_order, request_id, request_seq. rewrite Ha, Hb, Hea, Heb, !list_lookup_fmap, Hea, Heb.
  rewrite (cm_total (ok := ok) (ord := ord) _ _ Hoa Hob).
  cbn [default fmap option_fmap option_map from_option id]. f_equal. unfold or_else.
  destruct (ord (identity ea) (identity eb) =? 0); [| done]. cbn [negb].
  destruct (Z.ltb_spec (rq_sequence qa) (rq_sequence qb)), (Z.ltb_spec (rq_sequence qb) (rq_sequence qa)); lia.
Qed.

Record Canon (s : State) : Prop := {
  ca_ok : Forall (fun e => ok (identity e)) (entries s);
  ca_heap : heap_ok (request_order s) (heap s)
}.

Lemma good_below s r : Inv s -> Canon s -> (r < length (requests s))%nat -> good_request s r.
Proof.
  intros Hs Hc [q Hq]%lookup_lt_is_Some_2.
  destruct (lookup_lt_is_Some_2 _ _ (b_frames s Hs r q Hq)) as [e He].
  exists q, e. split_and!; try done. exact (proj1 (Forall_lookup _ _) (ca_ok s Hc) (rq_frame q) e He).
Qed.

Lemma pending_below s r : Inv s -> r ∈ pending s -> (r < length (requests s))%nat.
Proof.
  intros Hs Hr. assert (r ∈ seq 0 (length (requests s))) as Hin.
  { rewrite <- (b_once s Hs). apply elem_of_app. by left. }
  apply elem_of_seq in Hin. lia.
Qed.

Lemma heap_below s r : Inv s -> r ∈ heap s ++ incoming s -> (r < length (requests s))%nat.
Proof. intros Hs Hr. apply pending_below; [done |]. by rewrite <- (b_heap s Hs). Qed.

(** Identities and requests stay, so the heap stays ordered. *)
Lemma Canon_step s s' more news :
  Inv s -> Canon s -> Forall (fun e => ok (identity e)) (entries s') ->
  identity <$> entries s' = (identity <$> entries s) ++ more ->
  requests s' = requests s ++ news -> heap s' = heap s -> Canon s'.
Proof.
  intros Hs [Hok Hh] Hok' Hids Hreq Hheap. split; [done |]. rewrite Hheap.
  apply (heap_ok_ext (request_order s)); [| done].
  assert (forall r, r ∈ heap s -> request_id s' r = request_id s r /\ request_seq s' r = request_seq s r) as Hsame.
  { intros r Hr. assert (r < length (requests s))%nat as Hlt by (apply heap_below; [done | apply elem_of_app; by left]).
    unfold request_id, request_seq. rewrite Hreq, lookup_app_l by done.
    destruct (lookup_lt_is_Some_2 _ _ Hlt) as [q Hq]. rewrite Hq. split; [| done].
    rewrite Hids, lookup_app_l; [done |]. rewrite length_fmap. by apply (b_frames s Hs r). }
  intros x y Hx Hy. destruct (Hsame x Hx) as [H1 H2], (Hsame y Hy) as [H3 H4].
  unfold request_order. by rewrite H1, H2, H3, H4.
Qed.

Lemma ok_ids s s' :
  Forall (fun e => ok (identity e)) (entries s) -> identity <$> entries s' = identity <$> entries s ->
  Forall (fun e => ok (identity e)) (entries s').
Proof.
  intros Hok Hids. rewrite <- (Forall_fmap identity ok), Hids. by apply Forall_fmap.
Qed.

Lemma Canon_set_phase s f p : Inv s -> Canon s -> Canon (set_phase s f p).
Proof.
  intros Hs Hc. pose proof (set_phase_rest s f p) as (Hr & _ & _ & Hh & _ & _ & _ & Hid).
  apply (Canon_step s _ [] []); try done; [| by rewrite app_nil_r | by rewrite app_nil_r].
  by apply (ok_ids s); [apply Hc |].
Qed.

Lemma Canon_changed s : Canon s -> Canon (changed s).
Proof. by intros [H1 H2]. Qed.

(** A microtask on a quiet barrier with a pending request releases the first one. *)
Lemma microtask_releases s :
  Inv s -> Canon s -> queued s = true -> active s = 0 -> pending s <> [] ->
  exists r h', r ∈ pending s /\ (forall a, a ∈ pending s -> request_order s r a <= 0) /\
    heap_ok (request_order s) h' /\
    microtask comparator s =
      set_phase (mkState (entries s) (active s) (requests s) (filter (fun x => x <> r) (pending s)) []
        h' (sequence s) false (history s ++ [Released r])) (request_frame s r) running.
Proof.
  intros Hs Hc Hq Ha Hp. unfold microtask. rewrite Hq. cbn [negb].
  set (s1 := mkState _ _ _ _ _ _ _ _ _). change (active s1) with (active s). rewrite Ha. cbn [Z.eqb negb orb].
  change (pending s1) with (pending s).
  assert ((length (pending s) =? 0)%nat = false) as -> by (by destruct (pending s)).
  assert (forall r, r ∈ heap s ++ incoming s -> good_request s r) as Hgood.
  { intros r Hr. apply good_below; try done. by apply heap_below. }
  assert (forall a b, good_request s a -> good_request s b ->
    compare comparator s1 a b = Some (request_order s a b)) as Htot.
  { intros a b Hga Hgb. exact (compare_total s a b Hga Hgb). }
  change (heap s1) with (heap s). change (incoming s1) with (incoming s).
  assert (Forall (good_request s) (heap s)) as Hg1.
  { apply Forall_forall. intros r Hr. apply Hgood, elem_of_app. by left. }
  assert (Forall (good_request s) (incoming s)) as Hg2.
  { apply Forall_forall. intros r Hr. apply Hgood, elem_of_app. by right. }
  destruct (insert_all_ok (request_order s) (compare comparator s1) (good_request s) Htot (heap s)
    (incoming s) Hg1 Hg2 (ca_heap s Hc)) as (h1 & Hins & Hok1 & Hperm1).
  rewrite Hins. cbn [mbind option_bind].
  assert (h1 ≡ₚ pending s) as Hp1 by (rewrite Hperm1, Permutation_app_comm; apply (b_heap s Hs)).
  destruct (take_heap_ok (request_order s) (compare comparator s1) (good_request s) Htot h1)
    as (r & h' & Htake & Hok' & Hperm & Hmin).
  - rewrite Hperm1. by apply Forall_app.
  - done.
  - intros ->. by apply Permutation_nil_l in Hp1.
  - rewrite Htake. exists r, h'. split; [rewrite <- Hp1, <- Hperm; left |]. split; [| done].
    intros a Hin. apply Hmin. by rewrite Hp1.
Qed.

Lemma Canon_microtask s : Inv s -> Canon s -> Canon (microtask comparator s).
Proof.
  intros Hs Hc. destruct (queued s) eqn:Hq; [| unfold microtask; by rewrite Hq].
  destruct (decide (active s = 0)) as [Ha|Ha];
    [| unfold microtask; rewrite Hq; cbn; apply Z.eqb_neq in Ha; rewrite Ha; by destruct Hc].
  destruct (pending s) as [|r0 rest] eqn:Hp.
  { unfold microtask. rewrite Hq. cbn. rewrite Hp, orb_true_r. by destruct Hc. }
  destruct (microtask_releases s Hs Hc Hq Ha) as (r & h' & Hr & Hmin & Hok & ->); [by rewrite Hp |].
  set (s1 := mkState _ _ _ _ _ _ _ _ _).
  pose proof (set_phase_rest s1 (request_frame s r) running) as (Hreq & _ & _ & Hh & _ & _ & _ & Hid).
  split; [apply (ok_ids s1); [apply Hc | done] |]. rewrite Hh.
  apply (heap_ok_ext (request_order s)); [| done]. intros x y _ _. unfold request_order, request_id, request_seq. by rewrite Hreq, Hid.
Qed.

Lemma Canon_act s m : Inv s -> Canon s -> admitted ok m -> Canon (act comparator s m).
Proof.
  intros Hs Hc Hm. assert (forall f from to, Canon (state_of s (transition s f from to))) as Ht.
  { intros f from to. unfold transition. destruct (entries s !! f); [| done].
    destruct (negb _); [done |]. by apply Canon_changed, Canon_set_phase. }
  destruct m as [id known|f|f|f|f|f|f|]; cbn [act]; try apply Ht; [| | by apply Canon_microtask].
  - unfold reserveFrame. destruct known; [| done]. cbn [negb]. case_bool_decide; [done |].
    apply (Canon_step s _ [id] []); try done.
    + apply Forall_app. split; [apply Hc | by constructor].
    + cbn. by rewrite fmap_app.
    + by rewrite app_nil_r.
  - unfold fixtureEvent. destruct (entries s !! f) as [e|]; [| done]. destruct (negb _); [done |].
    cbn [state_of]. apply Canon_changed.
    pose proof (Canon_set_phase s f fixture Hs Hc) as Hc'. pose proof (Inv_set_phase s f fixture Hs) as Hs'.
    apply (Canon_step (set_phase s f fixture) _ [] [mkRequest f (sequence (set_phase s f fixture))]); try done.
    + apply Hc'.
    + by rewrite app_nil_r.
Qed.

Lemma Canon_run moves : Forall (admitted ok) moves -> Canon (run_moves comparator moves).
Proof.
  unfold run_moves. assert (Inv createBarrier) as Hs by by split.
  assert (Canon createBarrier) as Hc by (split; [done | intros i Hi a p Ha; done]).
  revert Hs Hc. generalize createBarrier. induction moves as [|m moves IH]; intros s Hs Hc Hall; [done |].
  apply Forall_cons in Hall as [Hm Hall]. cbn. apply IH; [by apply barrier_act_inv | by apply Canon_act | done].
Qed.
End canonical.

(** ** The canonical comparator *)

Definition canonical (L : lineage) (i j : nat) : option Z :=
  match compareInvocations L i j with Ret z => Some z | Throw _ => None end.

(** [compareInvocations] keeps the promise on the invocations of one root. *)
#[global] Instance Comparator_canonical steps fam :
  Comparator (canonical (run_steps steps)) (in_family_of (run_steps steps) fam)
    (invocationOrder (run_steps steps)).
Proof.
  split; [apply _ |]. intros i j Hi Hj. unfold canonical.
  by rewrite (compareInvocations_ret _ fam) by (done || apply Frames_run).
Qed.

(** ** The properties *)

Definition quiet (s : State) : Prop :=
  Forall (fun e => fs_phase e <> reserved /\ fs_phase e <> running) (entries s).

Lemma quiet_active s : Inv s -> active s = 0 <-> quiet s.
Proof.
  intros Hs. rewrite (b_active s Hs). split.
  - intros Hz%blockers_zero. eapply Forall_impl; [exact Hz |]. cbn. intros e. by destruct (fs_phase e).
  - intros Hq. unfold quiet in Hq. induction Hq as [|e es [H1 H2] Hq IH]; [done |].
    change (blockers (e :: es)) with (blocking (fs_phase e) + blockers es). rewrite IH.
    by destruct (fs_phase e).
Qed.

(** Quiescence and single settlement, for every comparator, even one that throws
    in the middle of a heap operation: the count [active] is always the number of
    frames that are reserved or running, and every fixture request ever made is
    either pending or was released or rejected, exactly once. *)
Theorem barrier_accounts comparator moves :
  let s := run_moves comparator moves in
  active s = blockers (entries s) /\
  pending s ++ (settled_request <$> history s) ≡ₚ seq 0 (length (requests s)).
Proof. split; apply barrier_run_inv. Qed.

(** C11. The canonical schedule.  Under the canonical comparator, whatever
    interleaving of frame transitions and fixture requests came before, the
    microtask of the barrier releases nothing unless a change was queued, no frame
    is reserved or running and a request is pending; otherwise it releases exactly
    one request, whose invocation comes first among the pending ones (an earlier
    request of the same invocation first), and resumes its frame.  No request is
    ever rejected. *)
Theorem release_is_canonical steps fam moves :
  Forall (admitted (in_family_of (run_steps steps) fam)) moves ->
  let L := run_steps steps in
  let s := run_moves (canonical L) moves in
  let s' := microtask (canonical L) s in
  (queued s = false \/ ~ quiet s \/ pending s = [] -> history s' = history s) /\
  (queued s = true -> quiet s -> pending s <> [] ->
     exists r q, history s' = history s ++ [Released r] /\ r ∈ pending s /\
       requests s !! r = Some q /\
       (fs_phase <$> entries s' !! rq_frame q) = Some running /\
       forall a, a ∈ pending s -> a <> r -> exists c,
         compareInvocations L (request_id s r) (request_id s a) = Ret c /\
         (c < 0 \/ (c = 0 /\ (r < a)%nat))).
Proof.
  intros Hadm L s s'. pose proof (barrier_run_inv (canonical L) moves : Inv s) as Hs.
  pose proof (Canon_run (canonical L) (in_family_of L fam) (invocationOrder L) moves Hadm) as Hc.
  split.
  - intros Hno. unfold s', microtask. destruct (queued s) eqn:Hq; [| done]. cbn [negb].
    set (s1 := mkState _ _ _ _ _ _ _ _ _). destruct Hno as [?|[Hnq|Hp]]; [done | |].
    + assert (active s1 <> 0) as Ha%Z.eqb_neq by (intros Ha; by apply Hnq, (quiet_active s)).
      by rewrite Ha.
    + change (pending s1) with (pending s). by rewrite Hp, orb_true_r.
  - intros Hq Hquiet Hp. apply (quiet_active s Hs) in Hquiet.
    destruct (microtask_releases (canonical L) (in_family_of L fam) (invocationOrder L) s Hs Hc Hq Hquiet Hp)
      as (r & h' & Hr & Hmin & _ & Heq).
    pose proof (pending_below s r Hs Hr) as Hlt. destruct (lookup_lt_is_Some_2 _ _ Hlt) as [q Hrq].
    exists r, q. unfold s'. rewrite Heq. set (s1 := mkState _ _ _ _ _ _ _ _ _).
    pose proof (set_phase_rest s1 (request_frame s r) running) as (_ & _ & _ & _ & _ & _ & Hy & _).
    split; [exact Hy |]. split; [done |]. split; [done |]. split.
    + unfold request_frame. rewrite Hrq. destruct (lookup_lt_is_Some_2 _ _ (b_frames s Hs r q Hrq)) as [e He].
      unfold set_phase. change (entries s1) with (entries s). rewrite He. cbn.
      by rewrite list_lookup_insert_eq by (by eapply lookup_lt_Some).
    + intros a Ha Hne. specialize (Hmin a Ha). pose proof (pending_below s a Hs Ha) as Hla.
      destruct (good_below (in_family_of L fam) (invocationOrder L) s r Hs Hc Hlt)
        as (q1 & e1 & Hq1 & He1 & Hf1).
      destruct (good_below (in_family_of L fam) (invocationOrder L) s a Hs Hc Hla)
        as (q2 & e2 & Hq2 & He2 & Hf2).
      assert (request_id s r = identity e1) as Hid1
        by (unfold request_id; by rewrite Hq1, list_lookup_fmap, He1).
      assert (request_id s a = identity e2) as Hid2
        by (unfold request_id; by rewrite Hq2, list_lookup_fmap, He2).
      exists (invocationOrder L (identity e1) (identity e2)). rewrite Hid1, Hid2.
      split; [apply (compareInvocations_ret L fam); try done; apply Frames_run |].
      unfold request_order, or_else, request_seq in Hmin. rewrite Hid1, Hid2, Hq1, Hq2 in Hmin.
      rewrite (b_numbers s Hs r q1 Hq1), (b_numbers s Hs a q2 Hq2) in Hmin.
      destruct (Z.eqb_spec (invocationOrder L (identity e1) (identity e2)) 0); [right | left]; lia.
Qed.

(** *** Witness *)

Definition demo_moves : list move :=
  [Reserve 2 true; Reserve 1 true; Start 0; Start 1; Fixture 0; Microtask; Fixture 1].

Lemma release_is_canonical_witness :
  let s := run_moves (canonical (run_steps demo_steps)) demo_moves in
  pending s = [0; 1]%nat /\
  exists r q, history (microtask (canonical (run_steps demo_steps)) s) = history s ++ [Released r] /\
    r ∈ pending s /\ requests s !! r = Some q.
Proof.
  assert (Forall (admitted (in_family_of (run_steps demo_steps) 0)) demo_moves) as Hadm.
  { repeat constructor; eexists; split; vm_compute; reflexivity. }
  pose proof (proj2 (release_is_canonical demo_steps 0 demo_moves Hadm)) as H.
  split; [vm_compute; reflexivity |].
  destruct H as (r & q & H1 & H2 & H3 & _);
    [vm_compute; reflexivity | vm_compute; repeat constructor; discriminate | vm_compute; discriminate |].
  exists r, q. split; [exact H1 | split; [exact H2 | exact H3]].
Defined.
