(* ===== verification/Regex.v ===== *)
(** * Regular expressions

    The patterns the runtime tests a whole string against ([/^...$/.test(s)]),
    matched by derivatives; [matches_spec] says that the matcher decides the
    language. *)
From stdpp Require Import base list.
From Stdlib Require Import ZArith Lia.
From S2P Require Import Prelude JsString.

Inductive regex : Type :=
| RNone
| REps
| RChr (p : N -> bool)
| RSeq (a b : regex)
| RAlt (a b : regex)
| RStar (a : regex).

(** Strings in the language of a pattern. *)
Inductive denotes : regex -> jstr -> Prop :=
| den_eps : denotes REps []
| den_chr p c : p c = true -> denotes (RChr p) [c]
| den_seq a b s t : denotes a s -> denotes b t -> denotes (RSeq a b) (s ++ t)
| den_alt_l a b s : denotes a s -> denotes (RAlt a b) s
| den_alt_r a b s : denotes b s -> denotes (RAlt a b) s
| den_star_nil a : denotes (RStar a) []
| den_star_cons a s t : denotes a s -> denotes (RStar a) t -> denotes (RStar a) (s ++ t).

Fixpoint nullable (r : regex) : bool :=
  match r with
  | RNone | RChr _ => false
  | REps | RStar _ => true
  | RSeq a b => nullable a && nullable b
  | RAlt a b => nullable a || nullable b
  end.

(** Constructors that drop the empty language, which keeps derivatives small. *)
Definition rseq (a b : regex) : regex :=
  match a with RNone => RNone | REps => b | _ => RSeq a b end.

Definition ralt (a b : regex) : regex :=
  match a, b with RNone, _ => b | _, RNone => a | _, _ => RAlt a b end.

Fixpoint deriv (c : N) (r : regex) : regex :=
  match r with
  | RNone | REps => RNone
  | RChr p => if p c then REps else RNone
  | RSeq a b => if nullable a then ralt (rseq (deriv c a) b) (deriv c b) else rseq (deriv c a) b
  | RAlt a b => ralt (deriv c a) (deriv c b)
  | RStar a => rseq (deriv c a) (RStar a)
  end.

Fixpoint matches (r : regex) (s : jstr) : bool :=
  match s with
  | [] => nullable r
  | c :: s' => matches (deriv c r) s'
  end.

(** ** Quantifiers *)

Fixpoint rtimes (n : nat) (a : regex) : regex :=
  match n with O => REps | S n' => rseq a (rtimes n' a) end.

Fixpoint rupto (n : nat) (a : regex) : regex :=
  match n with O => REps | S n' => RAlt REps (RSeq a (rupto n' a)) end.

(** [a{m,n}], [a+], [a?], [ab] *)
Definition rrep (m n : nat) (a : regex) : regex := rseq (rtimes m a) (rupto (n - m) a).
Definition rplus (a : regex) : regex := RSeq a (RStar a).
Definition ropt (a : regex) : regex := RAlt REps a.
Definition rlit (c : N) : regex := RChr (fun d => (d =? c)%N).

(** ** Correctness *)

Lemma denotes_none s : ~ denotes RNone s.
Proof. intros H. inversion H. Qed.

Lemma denotes_eps s : denotes REps s <-> s = [].
Proof. split; [intros H; by inversion H | intros ->; constructor]. Qed.

Lemma denotes_chr p s : denotes (RChr p) s <-> exists c, s = [c] /\ p c = true.
Proof. split; [intros H; inversion H; eauto | intros (c & -> & H); by constructor]. Qed.

Lemma denotes_seq a b u : denotes (RSeq a b) u <-> exists s t, u = s ++ t /\ denotes a s /\ denotes b t.
Proof. split; [intros H; inversion H; eauto | intros (s & t & -> & ? & ?); by constructor]. Qed.

Lemma denotes_alt a b s : denotes (RAlt a b) s <-> denotes a s \/ denotes b s.
Proof. split; [intros H; inversion H; auto | intros [?|?]; by constructor]. Qed.

Lemma denotes_rseq a b s : denotes (rseq a b) s <-> denotes (RSeq a b) s.
Proof.
  destruct a; try done; cbn; rewrite denotes_seq; split.
  - by intros ?%denotes_none.
  - by intros (? & ? & _ & ?%denotes_none & _).
  - intros H. exists [], s. split_and!; [done | constructor | done].
  - by intros (? & ? & -> & ->%denotes_eps & H).
Qed.

Lemma denotes_ralt a b s : denotes (ralt a b) s <-> denotes a s \/ denotes b s.
Proof.
  pose proof (denotes_none s). destruct a; cbn; try tauto; destruct b; try (rewrite denotes_alt; tauto); tauto.
Qed.

Lemma nullable_spec r : nullable r = true <-> denotes r [].
Proof.
  induction r as [| |p|a IHa b IHb|a IHa b IHb|a IHa]; cbn.
  - split; [done | by intros ?%denotes_none].
  - by rewrite denotes_eps.
  - rewrite denotes_chr. split; [done | by intros (? & ? & _)].
  - rewrite andb_true_iff, IHa, IHb, denotes_seq. split.
    + intros [? ?]. by exists [], [].
    + intros (s & t & Heq & ? & ?). by symmetry in Heq; apply app_eq_nil in Heq as [-> ->].
  - rewrite orb_true_iff, IHa, IHb, denotes_alt. done.
  - split; [intros _; constructor | done].
Qed.

(** The first character of a nonempty match of [a*] is in its first round. *)
Lemma denotes_star_cons a c s :
  denotes (RStar a) (c :: s) -> exists s1 s2, s = s1 ++ s2 /\ denotes a (c :: s1) /\ denotes (RStar a) s2.
Proof.
  intros H. remember (RStar a) as r eqn:Hr. remember (c :: s) as u eqn:Hu. revert c s Hu.
  induction H as [| | | | | |a' s1 s2 Ha _ Hs IH]; intros ch rest Hu; try done.
  injection Hr as ->. destruct s1 as [|d s1]; [by apply IH |].
  cbn in Hu. injection Hu as -> <-. eauto.
Qed.

Lemma deriv_spec c r s : denotes (deriv c r) s <-> denotes r (c :: s).
Proof.
  revert s. induction r as [| |p|a IHa b IHb|a IHa b IHb|a IHa]; intros s; cbn.
  - split; by intros ?%denotes_none.
  - rewrite denotes_eps. split; [by intros ?%denotes_none | done].
  - rewrite denotes_chr. destruct (p c) eqn:Hp.
    + rewrite denotes_eps. split; [intros ->; eauto | by intros (d & [= <- ->] & _)].
    + split; [by intros ?%denotes_none | intros (d & [= <- ->] & ?); congruence].
  - assert (denotes (RSeq (deriv c a) b) s \/ (nullable a = true /\ denotes (deriv c b) s)
      <-> denotes (RSeq a b) (c :: s)) as <-.
    { rewrite !denotes_seq. split.
      - intros [(s1 & s2 & -> & H1%IHa & H2)|[Hn%nullable_spec H2%IHb]];
          [by exists (c :: s1), s2 | by exists [], (c :: s)].
      - intros ([|d s1] & s2 & Heq & H1 & H2); cbn in Heq.
        + right. subst s2. by rewrite nullable_spec, IHb.
        + left. injection Heq as <- ->. exists s1, s2. by rewrite IHa. }
    destruct (nullable a); [rewrite denotes_ralt, denotes_rseq; naive_solver |].
    rewrite denotes_rseq. naive_solver.
  - by rewrite denotes_ralt, denotes_alt, IHa, IHb.
  - rewrite denotes_rseq, denotes_seq. split.
    + intros (s1 & s2 & -> & H1%IHa & H2). by apply (den_star_cons a (c :: s1)).
    + intros (s1 & s2 & -> & H1 & H2)%denotes_star_cons. exists s1, s2. by rewrite IHa.
Qed.

Theorem matches_spec r s : matches r s = true <-> denotes r s.
Proof.
  revert r. induction s as [|c s IH]; intros r; cbn; [apply nullable_spec |].
  by rewrite IH, deriv_spec.
Qed.

(** ** Characters of a match *)

(** Every character of the pattern is in [q]. *)
Inductive all_chars (q : N -> Prop) : regex -> Prop :=
| ac_none : all_chars q RNone
| ac_eps : all_chars q REps
| ac_chr p : (forall c, p c = true -> q c) -> all_chars q (RChr p)
| ac_seq a b : all_chars q a -> all_chars q b -> all_chars q (RSeq a b)
| ac_alt a b : all_chars q a -> all_chars q b -> all_chars q (RAlt a b)
| ac_star a : all_chars q a -> all_chars q (RStar a).

Lemma denotes_chars q r s : all_chars q r -> denotes r s -> Forall q s.
Proof.
  intros Hq H. induction H as [|p c Hc|a b s t _ IH1 _ IH2|a b s _ IH|a b s _ IH|a|a s t _ IH1 _ IH2];
    inversion Hq; subst; auto; apply Forall_app; auto.
Qed.

Lemma all_chars_rseq q a b : all_chars q a -> all_chars q b -> all_chars q (rseq a b).
Proof. intros Ha Hb. destruct a; cbn; try constructor; done. Qed.

Lemma all_chars_rtimes q n a : all_chars q a -> all_chars q (rtimes n a).
Proof. intros Ha. induction n; cbn; [constructor | by apply all_chars_rseq]. Qed.

Lemma all_chars_rupto q n a : all_chars q a -> all_chars q (rupto n a).
Proof. intros Ha. induction n; cbn; repeat constructor; done. Qed.

Lemma all_chars_rrep q m n a : all_chars q a -> all_chars q (rrep m n a).
Proof. intros Ha. apply all_chars_rseq; [by apply all_chars_rtimes | by apply all_chars_rupto]. Qed.

(** ** Building matches *)
Lemma denotes_rtimes_one a s t n : denotes a s -> denotes (rtimes n a) t -> denotes (rtimes (S n) a) (s ++ t).
Proof. intros Ha Ht. cbn. apply denotes_rseq. by constructor. Qed.
