(* ===== verification/Destination.v ===== *)
(** * Webhook destinations ([outbound/destination-policy.ts])

    Policy files, the admission of a destination, redirects and reports.  The
    WHATWG [URL] class and [String.prototype.toLowerCase] are parameters: [URL] is
    what the code reads of a parsed URL, [new_url] its constructor (with a base),
    [cleared_href] the [href] of one whose userinfo and fragment were set to the
    empty string. *)
From stdpp Require Import base gmap list strings.
From Stdlib Require Import ZArith Lia.
From S2P Require Import Prelude JsNumber JsString JsValue Regex.

(** ** Patterns *)

Definition env_first (c : N) : bool := is_upper c || (c =? 95)%N.

(** [/^[A-Z_][A-Z0-9_]{0,127}$/] *)
Definition ENV_PATTERN : regex :=
  RSeq (RChr env_first) (rrep 0 127 (RChr (fun c => is_upper c || is_digit c || (c =? 95)%N))).

(** [/^[A-Za-z0-9][A-Za-z0-9._:-]{0,63}$/] *)
Definition VERSION_PATTERN : regex :=
  RSeq (RChr is_alnum) (rrep 0 63 (RChr is_ident_char)).

Definition lower_alnum (c : N) : bool := is_lower c || is_digit c.

Definition rdigit : regex := RChr is_digit.

(** [[a-z0-9](?:[a-z0-9-]{0,61}[a-z0-9])?] *)
Definition DNS_LABEL : regex :=
  RSeq (RChr lower_alnum)
    (ropt (RSeq (rrep 0 61 (RChr (fun c => lower_alnum c || (c =? 45)%N))) (RChr lower_alnum))).

(** [.] *)
Definition not_line_end (c : N) : bool :=
  negb ((c =? 10)%N || (c =? 13)%N || (c =? 0x2028)%N || (c =? 0x2029)%N).

(** The lookahead [(?=.{1,253}$)] and the labels. *)
Definition dns_test (s : jstr) : bool :=
  (1 <=? length s)%nat && (length s <=? 253)%nat && forallb not_line_end s
  && matches (RSeq DNS_LABEL (RStar (RSeq (rlit 46) DNS_LABEL))) s.

(** [/^\d{1,3}(?:\.\d{1,3}){3}$/] *)
Definition IPV4_PATTERN : regex :=
  RSeq (rrep 1 3 rdigit) (rrep 3 3 (RSeq (rlit 46) (rrep 1 3 rdigit))).

(** [/^[0-9a-f:]+(?:\.[0-9.]+)?$/] *)
Definition IPV6_PATTERN : regex :=
  RSeq (rplus (RChr (fun c => is_digit c || ((97 <=? c) && (c <=? 102))%N || (c =? 58)%N)))
    (ropt (RSeq (rlit 46) (rplus (RChr (fun c => is_digit c || (c =? 46)%N))))).

Definition wildcard : jstr := js "*.".

(** ** Literals *)

Definition parseIPv4 (host : jstr) : option (list Z) :=
  if negb (matches IPV4_PATTERN host) then None
  else
    let parts := (fun p => Z.of_N (dec_value p)) <$> split_char 46 host in
    if existsb (fun part => 255 <? part) parts then None else Some parts.

Definition part (v4 : list Z) (i : nat) : Z := default 0 (v4 !! i).

Definition isLoopbackLiteral (host : jstr) : bool :=
  match parseIPv4 host with
  | Some v4 => part v4 0 =? 127
  | None => bool_decide (host = js "::1") || bool_decide (host = js "0:0:0:0:0:0:0:1")
  end.

(** ** Types of a policy *)

Inductive DestinationScheme : Type := http | https | any.
Inductive RedirectPolicy : Type := deny | same_origin | allowlisted.
Inductive NetworkScope : Type := scope_deny | scope_allow.

#[global] Instance DestinationScheme_eq_dec : EqDecision DestinationScheme.
Proof. solve_decision. Defined.
#[global] Instance RedirectPolicy_eq_dec : EqDecision RedirectPolicy.
Proof. solve_decision. Defined.
#[global] Instance NetworkScope_eq_dec : EqDecision NetworkScope.
Proof. solve_decision. Defined.

Record DestinationRule : Type := mkRule {
  rule_scheme : DestinationScheme;
  rule_host : jstr;
  rule_port : option Z;
  pathPrefix : option jstr;
  rule_credential : option jstr
}.

Record DestinationPolicy : Type := mkPolicy {
  pol_version : jstr;
  rules : list DestinationRule;
  redirect : RedirectPolicy;
  maxRedirectHops : Z;
  loopback : NetworkScope;
  privateNetworks : NetworkScope
}.

Record URL : Type := mkURL {
  protocol : jstr;
  username : jstr;
  password : jstr;
  hash : jstr;
  hostname : jstr;
  url_port : jstr;
  pathname : jstr;
  url_origin : jstr;
  href : jstr
}.

Record DestinationDecision : Type := mkDecision {
  dec_allowed : bool;
  ruleIndex : option nat;
  dec_credential : option jstr;
  dec_reason : string
}.

Definition denied (reason : string) : DestinationDecision := mkDecision false None None reason.

Record RedirectDecision : Type := mkRedirect {
  red_allowed : bool;
  target : option jstr;
  red_reason : string
}.

Definition no_redirect (reason : string) : RedirectDecision := mkRedirect false None reason.

Section destinations.
Context (toLowerCase : jstr -> jstr) (new_url : jstr -> option URL -> option URL)
  (cleared_href : URL -> jstr).

Definition isPrivateLiteral (host : jstr) : bool :=
  match parseIPv4 host with
  | Some v4 =>
      (part v4 0 =? 10)
      || ((part v4 0 =? 172) && (16 <=? part v4 1) && (part v4 1 <=? 31))
      || ((part v4 0 =? 192) && (part v4 1 =? 168))
      || ((part v4 0 =? 169) && (part v4 1 =? 254))
      || (part v4 0 =? 127)
      || ((part v4 0 =? 0) && (part v4 1 =? 0) && (part v4 2 =? 0) && (part v4 3 =? 0))
  | None =>
      if negb (includes_char host 58) then false
      else
        let head := default [] (split_char 58 (toLowerCase host) !! 0%nat) in
        starts_with head (js "fc") || starts_with head (js "fd")
        || bool_decide (head = js "fe80") || bool_decide (head = js "fe81")
        || bool_decide (head = js "fe82") || bool_decide (head = js "fe83")
        || matches (rplus (rlit 48)) head
        || bool_decide (host = js "::1") || bool_decide (host = js "0:0:0:0:0:0:0:1")
  end.

(** ** Validation of a policy file *)

Definition envName (value : jsval) : res jstr :=
  match value with
  | JStr s => if matches ENV_PATTERN s then Ret s else Throw "invalid credential environment name"
  | _ => Throw "invalid credential environment name"
  end.

Definition checkHost (value : jsval) : res jstr :=
  match value with
  | JStr v =>
      let text := toLowerCase v in
      let wild := starts_with text wildcard in
      let bare := if wild then drop 2 text else text in
      if (length bare =? 0)%nat || (253 <? length bare)%nat then Throw "invalid destination host"
      else if matches (rplus (RChr (fun c => is_digit c || (c =? 46)%N))) bare then
        if wild || negb (bool_decide (is_Some (parseIPv4 bare))) then Throw "invalid destination host"
        else Ret text
      else if dns_test bare || (negb wild && matches IPV6_PATTERN bare) then Ret text
      else Throw "invalid destination host"
  | _ => Throw "invalid destination host"
  end.

Definition checkPort (value : jsval) : res Z :=
  match js_safe_integer value with
  | Some z => if (z <? 1) || (65535 <? z) then Throw "invalid destination port" else Ret z
  | None => Throw "invalid destination port"
  end.

Definition checkPathPrefix (value : jsval) : res jstr :=
  match value with
  | JStr s => if starts_with s (js "/") && is_well_formed s then Ret s
              else Throw "invalid destination path prefix"
  | _ => Throw "invalid destination path prefix"
  end.

Definition isRecord (value : jsval) : bool := match value with JObject _ => true | _ => false end.

Definition checkScheme (value : jsval) : res DestinationScheme :=
  match value with
  | JStr s =>
      if bool_decide (s = js "http") then Ret http
      else if bool_decide (s = js "https") then Ret https
      else if bool_decide (s = js "any") then Ret any
      else Throw "invalid destination scheme"
  | _ => Throw "invalid destination scheme"
  end.

(** [if (v !== undefined) field = check(v)] *)
Definition optional {A} (v : jsval) (check : jsval -> res A) : res (option A) :=
  if is_undefined v then Ret None else let! a := check v in Ret (Some a).

Definition checkRule (value : jsval) : res DestinationRule :=
  if negb (isRecord value) then Throw "invalid destination rule"
  else
    let! scheme := checkScheme (property value (js "scheme")) in
    let! host := checkHost (property value (js "host")) in
    let! port := optional (property value (js "port")) checkPort in
    let! prefix := optional (property value (js "pathPrefix")) checkPathPrefix in
    let! credential := optional (property value (js "credential")) envName in
    Ret (mkRule scheme host port prefix credential).

Definition checkScope (value : jsval) (message : string) : res NetworkScope :=
  match value with
  | JStr s => if bool_decide (s = js "deny") then Ret scope_deny
              else if bool_decide (s = js "allow") then Ret scope_allow
              else Throw message
  | _ => Throw message
  end.

Definition checkRedirect (value : jsval) : res RedirectPolicy :=
  match value with
  | JStr s => if bool_decide (s = js "deny") then Ret deny
              else if bool_decide (s = js "same-origin") then Ret same_origin
              else if bool_decide (s = js "allowlisted") then Ret allowlisted
              else Throw "invalid redirect policy"
  | _ => Throw "invalid redirect policy"
  end.

Definition destinationPolicy (init : jsval) : res DestinationPolicy :=
  if negb (isRecord init) then Throw "invalid destination policy"
  else
    match property init (js "version") with
    | JStr version =>
        if negb (matches VERSION_PATTERN version) then Throw "invalid destination policy version"
        else
          match property init (js "rules") with
          | JArray items =>
              let! rs := map_res checkRule items in
              let! red := checkRedirect (property init (js "redirect")) in
              match js_safe_integer (property init (js "maxRedirectHops")) with
              | Some hops =>
                  if (hops <? 0) || (8 <? hops) then Throw "invalid redirect hop bound"
                  else
                    let scope name message :=
                      let v := property init name in
                      if is_undefined v then Ret scope_deny else checkScope v message in
                    let! lb := scope (js "loopback") "invalid loopback scope"%string in
                    let! pn := scope (js "privateNetworks") "invalid private-network scope"%string in
                    Ret (mkPolicy version rs red hops lb pn)
              | None => Throw "invalid redirect hop bound"
              end
          | _ => Throw "invalid destination rules"
          end
    | _ => Throw "invalid destination policy version"
    end.

(** ** Admission *)

Definition checkUrlShape (policy : DestinationPolicy) (parsed : URL) : option DestinationDecision :=
  if negb (bool_decide (protocol parsed = js "http:")) && negb (bool_decide (protocol parsed = js "https:"))
  then Some (denied "unsupported-scheme")
  else if negb (bool_decide (username parsed = [])) || negb (bool_decide (password parsed = []))
  then Some (denied "userinfo-forbidden")
  else if negb (bool_decide (hash parsed = [])) then Some (denied "fragment-forbidden")
  else
    let host := toLowerCase (hostname parsed) in
    if isLoopbackLiteral host && bool_decide (loopback policy = scope_deny)
    then Some (denied "loopback-denied")
    else if isPrivateLiteral host && bool_decide (privateNetworks policy = scope_deny)
    then Some (denied "private-network-denied")
    else None.

Definition hostMatches (rule host : jstr) : bool :=
  if starts_with rule wildcard then
    let suffix := drop 2 rule in
    (length suffix + 1 <? length host)%nat && ends_with host suffix
    && bool_decide (host !! (length host - length suffix - 1)%nat = Some 46%N)
    && negb (matches IPV4_PATTERN host) && negb (includes_char host 58)
  else bool_decide (host = rule).

(** [DEFAULT_PORTS[parsed.protocol]] after [checkUrlShape]. *)
Definition default_port (protocol : jstr) : Z := if bool_decide (protocol = js "http:") then 80 else 443.

Definition scheme_text (s : DestinationScheme) : jstr :=
  match s with http => js "http" | https => js "https" | any => js "any" end.

(** The tests of the loop body of [evaluateDestination]. *)
Definition rule_matches (parsed : URL) (rule : DestinationRule) : bool :=
  (bool_decide (rule_scheme rule = any)
   || bool_decide (scheme_text (rule_scheme rule) ++ js ":" = protocol parsed))
  && hostMatches (rule_host rule) (toLowerCase (hostname parsed))
  && (default (default_port (protocol parsed)) (rule_port rule)
      =? (if bool_decide (url_port parsed = []) then default_port (protocol parsed)
          else Z.of_N (dec_value (url_port parsed))))
  && match pathPrefix rule with
     | Some prefix => starts_with (pathname parsed) prefix
     | None => true
     end.

Fixpoint first_match (parsed : URL) (index : nat) (rs : list DestinationRule) : DestinationDecision :=
  match rs with
  | [] => denied "no-matching-rule"
  | rule :: rest =>
      if rule_matches parsed rule
      then mkDecision true (Some index) (rule_credential rule) "allowed"
      else first_match parsed (S index) rest
  end.

Definition evaluateDestination (policy : DestinationPolicy) (url : jstr) : DestinationDecision :=
  match new_url url None with
  | None => denied "invalid-url"
  | Some parsed =>
      match checkUrlShape policy parsed with
      | Some shape => shape
      | None => first_match parsed 0 (rules policy)
      end
  end.

(** ** Redirects *)

Definition redactUrl (url : jstr) : jstr :=
  match new_url url None with
  | Some parsed => cleared_href parsed
  | None => js "<invalid-url>"
  end.

Definition evaluateRedirect (policy : DestinationPolicy) (requestUrl location : jstr)
    (hopsSoFar : jsval) : res RedirectDecision :=
  match js_safe_integer hopsSoFar with
  | None => Throw "invalid redirect hop count"
  | Some hops =>
      if hops <? 0 then Throw "invalid redirect hop count"
      else if bool_decide (redirect policy = deny) then Ret (no_redirect "deny")
      else if maxRedirectHops policy <=? hops then Ret (no_redirect "max-hops")
      else
        match new_url requestUrl None with
        | None => Ret (no_redirect "invalid-request-url")
        | Some posting =>
            match new_url location (Some posting) with
            | None => Ret (no_redirect "invalid-location")
            | Some tgt =>
                if bool_decide (redirect policy = same_origin) then
                  if negb (bool_decide (url_origin tgt = url_origin posting))
                  then Ret (no_redirect "cross-origin")
                  else
                    match checkUrlShape policy tgt with
                    | Some shape => Ret (no_redirect (dec_reason shape))
                    | None => Ret (mkRedirect true (Some (redactUrl (href tgt))) "allowed")
                    end
                else
                  let check := evaluateDestination policy (href tgt) in
                  if negb (dec_allowed check)
                  then Ret (no_redirect ("target-" ++ dec_reason check))
                  else Ret (mkRedirect true (Some (redactUrl (href tgt))) "allowed")
            end
        end
  end.
End destinations.

(** ** Credentials and reports *)

Definition credentialValue (name : jstr) (readEnvironment : jstr -> option jstr) : option jstr :=
  match readEnvironment name with
  | Some value => if bool_decide (value = []) then None else Some value
  | None => None
  end.

Record PolicyReport : Type := mkPolicyReport {
  pr_version : jstr;
  pr_redirect : RedirectPolicy;
  pr_maxRedirectHops : Z;
  pr_rules : list jstr
}.

Definition policyReport (policy : DestinationPolicy) : PolicyReport :=
  mkPolicyReport (pol_version policy) (redirect policy) (maxRedirectHops policy)
    (rule_host <$> rules policy).

(** ** Concrete literals *)

Definition ascii_lower (s : jstr) : jstr := (fun c => if is_upper c then (c + 32)%N else c) <$> s.

Example literals :
  (isPrivateLiteral ascii_lower <$> [js "10.1.2.3"; js "172.31.255.255"; js "172.32.0.1"; js "fe80::1";
     js "fd12::9"; js "2001:db8::1"; js "::1"; js "8.8.8.8"])
  = [true; true; false; true; true; false; true; false].
Proof. vm_compute. done. Qed.
