(* ===== verification/DestinationTheorems.v ===== *)
(** * Webhook destinations: who is admitted, and where redirects may go *)
From stdpp Require Import base gmap list strings.
From Stdlib Require Import ZArith Lia.
From S2P Require Import Prelude JsNumber JsString JsValue Regex Destination.

(** ** Dotted addresses *)

Definition dotted (a b c d : N) : jstr :=
  dec_of_N a ++ 46%N :: dec_of_N b ++ 46%N :: dec_of_N c ++ 46%N :: dec_of_N d.

Lemma octets_ok :
  forallb (fun n => matches (rrep 1 3 rdigit) (dec_of_N (N.of_nat n))
                    && forallb is_digit (dec_of_N (N.of_nat n))) (seq 0 256) = true.
Proof. vm_compute. reflexivity. Qed.

Lemma octet_ok n : (n < 256)%N ->
  denotes (rrep 1 3 rdigit) (dec_of_N n) /\ 46%N ∉ dec_of_N n.
Proof.
  intros Hn. pose proof octets_ok as H. rewrite forallb_forall in H.
  specialize (H (N.to_nat n)). rewrite N2Nat.id in H.
  destruct (proj1 (andb_true_iff _ _) (H ltac:(apply in_seq; lia))) as [H1 H2].
  split; [by apply matches_spec |]. intros Hin. rewrite forallb_forall in H2.
  specialize (H2 46%N (proj1 (list_elem_of_In _ _) Hin)). done.
Qed.

Lemma dot_octet n : (n < 256)%N -> denotes (RSeq (rlit 46) (rrep 1 3 rdigit)) (46%N :: dec_of_N n).
Proof. intros Hn. apply (den_seq _ _ [46%N]); [by constructor | by apply octet_ok]. Qed.

Lemma parseIPv4_dotted a b c d :
  (a < 256)%N -> (b < 256)%N -> (c < 256)%N -> (d < 256)%N ->
  parseIPv4 (dotted a b c d) = Some [Z.of_N a; Z.of_N b; Z.of_N c; Z.of_N d].
Proof.
  intros Ha Hb Hc Hd. unfold parseIPv4.
  assert (matches IPV4_PATTERN (dotted a b c d) = true) as ->.
  { apply matches_spec. unfold IPV4_PATTERN, dotted. constructor; [by apply octet_ok |].
    unfold rrep at 1. cbn [Nat.sub rupto]. apply denotes_rseq.
    rewrite <- (app_nil_r (46%N :: _)). constructor; [| constructor].
    pose proof (dot_octet b Hb) as Db. pose proof (dot_octet c Hc) as Dc. pose proof (dot_octet d Hd) as Dd.
    change (46%N :: dec_of_N b ++ 46%N :: dec_of_N c ++ 46%N :: dec_of_N d)
      with ((46%N :: dec_of_N b) ++ (46%N :: dec_of_N c) ++ (46%N :: dec_of_N d)).
    apply denotes_rtimes_one; [done |]. apply denotes_rtimes_one; [done |].
    rewrite <- (app_nil_r (46%N :: dec_of_N d)). apply denotes_rtimes_one; [done |]. constructor. }
  cbn [negb]. unfold dotted.
  rewrite !split_char_app by (by apply octet_ok). rewrite split_char_none by (by apply octet_ok).
  cbn [fmap list_fmap existsb]. rewrite !dec_value_dec_of_N.
  destruct (Z.ltb_spec 255 (Z.of_N a)), (Z.ltb_spec 255 (Z.of_N b)), (Z.ltb_spec 255 (Z.of_N c)),
    (Z.ltb_spec 255 (Z.of_N d)); try lia. done.
Qed.

(** ** Address blocks *)

Definition address (a b c d : N) : Z :=
  Z.of_N a * 2 ^ 24 + Z.of_N b * 2 ^ 16 + Z.of_N c * 2 ^ 8 + Z.of_N d.

(** [ip] is in [base/bits]. *)
Definition in_block (ip : Z) (block : Z * Z) : bool :=
  Z.shiftr ip (32 - block.2) =? Z.shiftr block.1 (32 - block.2).

(** 10/8, 172.16/12, 192.168/16, 169.254/16, 127/8 and 0.0.0.0. *)
Definition private_blocks : list (Z * Z) :=
  [(address 10 0 0 0, 8); (address 172 16 0 0, 12); (address 192 168 0 0, 16);
   (address 169 254 0 0, 16); (address 127 0 0 0, 8); (0, 32)].

Lemma address_shift a b c d :
  (a < 256)%N -> (b < 256)%N -> (c < 256)%N -> (d < 256)%N ->
  Z.shiftr (address a b c d) 24 = Z.of_N a /\
  Z.shiftr (address a b c d) 20 = Z.of_N a * 16 + Z.of_N b / 16 /\
  Z.shiftr (address a b c d) 16 = Z.of_N a * 256 + Z.of_N b.
Proof.
  intros Ha Hb Hc Hd. rewrite !Z.shiftr_div_pow2 by lia. unfold address.
  split_and!; Z.to_euclidean_division_equations; lia.
Qed.

(** The network floor on IPv4.  For every IPv4 address in dotted decimal form,
    the private-network test holds exactly on the blocks 10.0.0.0/8, 172.16.0.0/12,
    192.168.0.0/16, 169.254.0.0/16, 127.0.0.0/8 and the address 0.0.0.0, and the
    loopback test exactly on 127.0.0.0/8. *)
Theorem ipv4_floor_is_cidr toLowerCase a b c d :
  (a < 256)%N -> (b < 256)%N -> (c < 256)%N -> (d < 256)%N ->
  isPrivateLiteral toLowerCase (dotted a b c d) = existsb (in_block (address a b c d)) private_blocks /\
  isLoopbackLiteral (dotted a b c d) = in_block (address a b c d) (address 127 0 0 0, 8).
Proof.
  intros Ha Hb Hc Hd. unfold isPrivateLiteral, isLoopbackLiteral, part.
  rewrite (parseIPv4_dotted a b c d Ha Hb Hc Hd). cbn [lookup list_lookup default from_option id].
  destruct (address_shift a b c d Ha Hb Hc Hd) as (H24 & H20 & H16).
  unfold private_blocks, in_block. cbn [existsb fst snd].
  change (32 - 8) with 24. change (32 - 12) with 20. change (32 - 16) with 16. change (32 - 32) with 0.
  rewrite H24, H20, H16, !Z.shiftr_0_r.
  change (Z.shiftr (address 10 0 0 0) 24) with 10. change (Z.shiftr (address 172 16 0 0) 20) with 2753.
  change (Z.shiftr (address 192 168 0 0) 16) with 49320.
  change (Z.shiftr (address 169 254 0 0) 16) with 43518.
  change (Z.shiftr (address 127 0 0 0) 24) with 127.
  split; [| done]. apply eq_true_iff_eq.
  rewrite !orb_true_iff, !andb_true_iff, !Z.leb_le, !Z.eqb_eq. unfold address.
  assert (false = true <-> False) as -> by done.
  Z.to_euclidean_division_equations. lia.
Qed.

(** ** Admission *)

Section admission.
Context (toLowerCase : jstr -> jstr) (new_url : jstr -> option URL -> option URL)
  (cleared_href : URL -> jstr).

(** The floor every admitted URL is above. *)
Definition above_floor (policy : DestinationPolicy) (u : URL) : Prop :=
  (protocol u = js "http:" \/ protocol u = js "https:") /\
  username u = [] /\ password u = [] /\ hash u = [] /\
  (isLoopbackLiteral (toLowerCase (hostname u)) = true -> loopback policy = scope_allow) /\
  (isPrivateLiteral toLowerCase (toLowerCase (hostname u)) = true -> privateNetworks policy = scope_allow).

Lemma checkUrlShape_floor policy u :
  checkUrlShape toLowerCase policy u = None <-> above_floor policy u.
Proof.
  unfold checkUrlShape, above_floor.
  assert (forall s, s <> scope_deny <-> s = scope_allow) as Hs by (intros []; split; done).
  repeat (case_bool_decide; cbn [negb andb orb]);
    destruct (isLoopbackLiteral _); cbn [andb]; try destruct (isPrivateLiteral _ _); cbn [andb];
    try case_bool_decide; naive_solver.
Qed.

Lemma shape_denied policy u d :
  checkUrlShape toLowerCase policy u = Some d ->
  dec_allowed d = false /\ ruleIndex d = None /\ dec_credential d = None.
Proof. unfold checkUrlShape. intros H. by repeat case_hyp H; simplify_eq. Qed.

Lemma first_match_spec u base rs :
  (exists i rule, rs !! i = Some rule /\ rule_matches toLowerCase u rule = true /\
     (forall j r, (j < i)%nat -> rs !! j = Some r -> rule_matches toLowerCase u r = false) /\
     first_match toLowerCase u base rs
     = mkDecision true (Some (base + i)%nat) (rule_credential rule) "allowed") \/
  ((forall j r, rs !! j = Some r -> rule_matches toLowerCase u r = false) /\
   first_match toLowerCase u base rs = denied "no-matching-rule").
Proof.
  revert base. induction rs as [|rule rs IH]; intros base; cbn [first_match]; [by right |].
  destruct (rule_matches toLowerCase u rule) eqn:Hm.
  - left. exists 0%nat, rule. rewrite Nat.add_0_r. split_and!; try done. intros j r Hj. lia.
  - destruct (IH (S base)) as [(i & r & Hi & Hr & Hbefore & ->)|[Hno ->]].
    + left. exists (S i), r. split_and!; try done; [| do 2 f_equal; lia].
      intros [|j] r' Hj Hr'; [by injection Hr' as <- | apply (Hbefore j r'); [lia | done]].
    + right. split; [| done]. intros [|j] r Hr; [by injection Hr as <- | by apply (Hno j)].
Qed.

Lemma destination_admission_matches policy url u :
  new_url url None = Some u -> dec_allowed (evaluateDestination toLowerCase new_url policy url) = true ->
  exists rule, rule ∈ rules policy /\ rule_matches toLowerCase u rule = true.
Proof.
  unfold evaluateDestination. intros ->. destruct (checkUrlShape toLowerCase policy u) as [d|] eqn:Hs.
  - destruct (shape_denied policy u d Hs) as (-> & _). done.
  - destruct (first_match_spec u 0 (rules policy)) as [(i & rule & H1 & H2 & _)|[_ ->]]; [| done].
    intros _. exists rule. split; [by eapply list_elem_of_lookup_2 | done].
Qed.

(** Admission.  A destination is allowed exactly when it parses, is plain http
    or https without userinfo and fragment, does not name a loopback or private
    address literal the policy closes, and some rule matches it; the decision then
    names the first matching rule and hands out that rule's credential name and no
    other.  A denied destination carries no rule and no credential. *)
Theorem destination_admission policy url :
  let d := evaluateDestination toLowerCase new_url policy url in
  if dec_allowed d then
    exists u i rule, new_url url None = Some u /\ above_floor policy u /\
      rules policy !! i = Some rule /\ rule_matches toLowerCase u rule = true /\
      (forall j r, (j < i)%nat -> rules policy !! j = Some r ->
         rule_matches toLowerCase u r = false) /\
      ruleIndex d = Some i /\ dec_credential d = rule_credential rule
  else
    ruleIndex d = None /\ dec_credential d = None /\
    forall u, new_url url None = Some u -> above_floor policy u ->
      forall rule, rule ∈ rules policy -> rule_matches toLowerCase u rule = false.
Proof.
  cbn. unfold evaluateDestination. destruct (new_url url None) as [u|]; [| done].
  destruct (checkUrlShape toLowerCase policy u) as [d|] eqn:Hshape.
  - destruct (shape_denied policy u d Hshape) as (-> & H1 & H2). split_and!; try done.
    intros u' [= <-] Hf%checkUrlShape_floor. congruence.
  - apply checkUrlShape_floor in Hshape.
    destruct (first_match_spec u 0 (rules policy)) as [(i & rule & H1 & H2 & H3 & ->)|[H1 ->]]; cbn.
    + by exists u, i, rule.
    + split_and!; try done. intros u' [= <-] _ rule [j Hj]%list_elem_of_lookup. by apply (H1 j).
Qed.

(** Redirects stay inside the policy.  An allowed redirect hop is not past the hop
    bound, its target resolves against the posting URL, is above the floor, and
    either keeps the posting origin (mode same-origin) or is itself an admitted
    destination (mode allowlisted); the reported target has its userinfo and
    fragment cleared. *)
Theorem redirect_inside_policy policy requestUrl location hops r :
  evaluateRedirect toLowerCase new_url cleared_href policy requestUrl location (js_int hops) = Ret r ->
  red_allowed r = true ->
  0 <= hops < maxRedirectHops policy /\
  exists posting t, new_url requestUrl None = Some posting /\ new_url location (Some posting) = Some t /\
    target r = Some (redactUrl new_url cleared_href (href t)) /\
    match redirect policy with
    | deny => False
    | same_origin => url_origin t = url_origin posting /\ above_floor policy t
    | allowlisted => dec_allowed (evaluateDestination toLowerCase new_url policy (href t)) = true
    end.
Proof.
  unfold evaluateRedirect. rewrite js_safe_integer_js_int. destruct (is_safe hops); [| done].
  destruct (Z.ltb_spec hops 0); [done |]. case_bool_decide as Hdeny; [by intros [= <-] |].
  destruct (Z.leb_spec (maxRedirectHops policy) hops); [by intros [= <-] |].
  destruct (new_url requestUrl None) as [posting|] eqn:Hp; [| by intros [= <-]].
  destruct (new_url location (Some posting)) as [t|] eqn:Ht; [| by intros [= <-]].
  case_bool_decide as Hso.
  - case_bool_decide as Ho; cbn [negb]; [| by intros [= <-]].
    destruct (checkUrlShape toLowerCase policy t) as [d|] eqn:Hs; [by intros [= <-] |].
    intros [= <-] _. split; [lia |]. exists posting, t. rewrite Hso. split_and!; try done.
    by apply checkUrlShape_floor.
  - destruct (dec_allowed (evaluateDestination toLowerCase new_url policy (href t))) eqn:Hd; cbn [negb];
      [| by intros [= <-]].
    intros [= <-] _. split; [lia |]. exists posting, t. split_and!; try done.
    by destruct (redirect policy).
Qed.
End admission.

(** ** Hosts of a validated policy *)

Definition not_bracket (c : N) : Prop := c <> 91%N.

#[local] Ltac no_bracket :=
  repeat first
    [ apply all_chars_rrep
    | constructor
    | intros ? Hc ->; vm_compute in Hc; done ].

Lemma dns_chars s : dns_test s = true -> Forall not_bracket s.
Proof.
  unfold dns_test. intros [_ H%matches_spec]%andb_true_iff.
  eapply denotes_chars; [| exact H]. unfold DNS_LABEL, ropt, rlit, rrep. no_bracket.
Qed.

Lemma ipv6_chars s : matches IPV6_PATTERN s = true -> Forall not_bracket s.
Proof.
  intros H%matches_spec. eapply denotes_chars; [| exact H].
  unfold IPV6_PATTERN, ropt, rplus, rlit. no_bracket.
Qed.

Lemma numeric_chars s :
  matches (rplus (RChr (fun c => is_digit c || (c =? 46)%N))) s = true -> Forall not_bracket s.
Proof. intros H%matches_spec. eapply denotes_chars; [| exact H]. unfold rplus. no_bracket. Qed.

Lemma checkHost_chars toLowerCase v host :
  checkHost toLowerCase v = Ret host -> starts_with host wildcard = true \/ Forall not_bracket host.
Proof.
  unfold checkHost. destruct v as [| | | | |s| | |]; try done.
  destruct (starts_with (toLowerCase s) wildcard) eqn:Hw; cbn [negb].
  { intros H. repeat case_hyp H; simplify_eq; by left. }
  destruct (_ || _)%bool; [done |].
  destruct (matches (rplus _) (toLowerCase s)) eqn:Hn.
  { cbn [orb]. destruct (negb _); [done |]. intros [= <-]. right. by apply numeric_chars. }
  cbn [andb]. destruct (dns_test (toLowerCase s)) eqn:Hd; cbn [orb].
  { intros [= <-]. right. by apply dns_chars. }
  destruct (matches IPV6_PATTERN (toLowerCase s)) eqn:H6; [| done]. intros [= <-]. right.
  by apply ipv6_chars.
Qed.

Lemma policy_rules toLowerCase init policy rule :
  destinationPolicy toLowerCase init = Ret policy -> rule ∈ rules policy ->
  exists v, checkRule toLowerCase v = Ret rule.
Proof.
  unfold destinationPolicy. destruct (negb (isRecord init)); [done |].
  destruct (property init (js "version")) as [| | | | |version| | |]; try done.
  destruct (negb (matches VERSION_PATTERN version)); [done |].
  destruct (property init (js "rules")) as [| | | | | |items| |]; try done.
  intros H Hin. apply res_bind_ret in H as (rs & Hrs & H). apply res_bind_ret in H as (red & _ & H).
  destruct (js_safe_integer _) as [hops|]; [| done]. destruct (_ || _)%bool; [done |].
  apply res_bind_ret in H as (lb & _ & H). apply res_bind_ret in H as (pn & _ & H).
  injection H as <-. by eapply map_res_in.
Qed.

Lemma checkRule_host toLowerCase v rule :
  checkRule toLowerCase v = Ret rule -> exists h, checkHost toLowerCase h = Ret (rule_host rule).
Proof.
  unfold checkRule. destruct (negb (isRecord v)); [done |]. intros H.
  apply res_bind_ret in H as (scheme & _ & H). apply res_bind_ret in H as (host & Hhost & H).
  apply res_bind_ret in H as (port & _ & H). apply res_bind_ret in H as (prefix & _ & H).
  apply res_bind_ret in H as (credential & _ & H). injection H as <-. eauto.
Qed.

Lemma bracket_no_match r h : all_chars not_bracket r -> matches r (91%N :: h) = false.
Proof.
  intros Hr. destruct (matches r (91%N :: h)) eqn:Hm; [| done]. apply matches_spec in Hm.
  apply (denotes_chars _ _ _ Hr) in Hm. by apply Forall_cons in Hm as [[] _].
Qed.

Lemma bracket_not_ipv4 h : parseIPv4 (91%N :: h) = None.
Proof.
  unfold parseIPv4. rewrite bracket_no_match; [done |]. unfold IPV4_PATTERN, rlit, rdigit. no_bracket.
Qed.

(** IPv6 destinations.  A WHATWG URL gives the host of an IPv6 literal in
    brackets.  On such a host neither the loopback nor the private-network test ever
    holds, not even on [::1], so the network floor does not see it; but no rule of a
    validated policy matches a bracketed host, so a destination named by an IPv6
    literal is never admitted. *)
Theorem ipv6_only_stopped_by_rules toLowerCase new_url init policy url u h :
  destinationPolicy toLowerCase init = Ret policy ->
  new_url url None = Some u -> hostname u = 91%N :: h -> 58%N ∈ h ->
  toLowerCase (hostname u) = hostname u ->
  isLoopbackLiteral (hostname u) = false /\ isPrivateLiteral toLowerCase (hostname u) = false /\
  dec_allowed (evaluateDestination toLowerCase new_url policy url) = false.
Proof.
  intros Hpol Hu Hh Hcolon Hlow. split; [| split].
  - rewrite Hh. unfold isLoopbackLiteral. by rewrite bracket_not_ipv4.
  - unfold isPrivateLiteral. rewrite Hlow, Hh, bracket_not_ipv4.
    destruct (includes_char (91%N :: h) 58); [| done]. cbn [negb split_char].
    destruct (split_char 58 h) as [|p ps]; [done |]. cbn.
    assert (matches (rplus (rlit 48)) (91%N :: p) = false) as Hz.
    { apply bracket_no_match. unfold rplus, rlit. no_bracket. }
    cbn in Hz. rewrite Hz. done.
  - pose proof (destination_admission_matches) as Hadm.
    destruct (dec_allowed (evaluateDestination toLowerCase new_url policy url)) eqn:Hd; [| done].
    exfalso. destruct (Hadm toLowerCase new_url policy url u Hu Hd) as (rule & Hin & Hm).
    destruct (policy_rules _ _ _ _ Hpol Hin) as (v & [hv Hhost]%checkRule_host).
    unfold rule_matches in Hm. rewrite Hlow in Hm.
    assert (hostMatches (rule_host rule) (hostname u) = true) as Hhm.
    { repeat (apply andb_true_iff in Hm as [Hm ?]). done. }
    unfold hostMatches in Hhm. destruct (starts_with (rule_host rule) wildcard) eqn:Hw.
    + apply andb_true_iff in Hhm as [_ Hinc%negb_true_iff]. rewrite Hh in Hinc.
      assert (includes_char (91%N :: h) 58 = true); [| congruence].
      apply existsb_exists. exists 58%N. split; [| done]. apply list_elem_of_In. by right.
    + apply bool_decide_eq_true in Hhm.
      destruct (checkHost_chars _ _ _ Hhost) as [?|Hch]; [congruence |].
      rewrite <- Hhm, Hh in Hch. by apply Forall_cons in Hch as [[] _].
Qed.

(** *** Concrete URLs *)

(** The URLs of the witnesses, as a WHATWG parser gives them. *)
Definition sample_url (text : jstr) (base : option URL) : option URL :=
  let make host path := Some (mkURL (js "https:") [] [] [] host [] path (js "https://" ++ host)
                                (js "https://" ++ host ++ path)) in
  if bool_decide (text = js "https://hooks.example.com/a") then make (js "hooks.example.com") (js "/a")
  else if bool_decide (text = js "https://hooks.example.com/b") then make (js "hooks.example.com") (js "/b")
  else if bool_decide (text = js "https://[::1]/") then make (js "[::1]") (js "/")
  else match base with
       | Some b => if bool_decide (text = js "/b") then make (hostname b) text else None
       | None => None
       end.

Definition sample_policy_file : jsval :=
  JObject [(js "version", JStr (js "2026-01"));
           (js "rules", JArray [JObject [(js "scheme", JStr (js "https"));
                                         (js "host", JStr (js "hooks.example.com"));
                                         (js "credential", JStr (js "HOOK_TOKEN"))]]);
           (js "redirect", JStr (js "same-origin")); (js "maxRedirectHops", js_int 2)].

Definition sample_policy : DestinationPolicy :=
  mkPolicy (js "2026-01") [mkRule https (js "hooks.example.com") None None (Some (js "HOOK_TOKEN"))]
    same_origin 2 scope_deny scope_deny.

Lemma ipv4_floor_is_cidr_witness :
  isPrivateLiteral ascii_lower (js "172.20.0.1") = true /\
  isPrivateLiteral ascii_lower (dotted 172 20 0 1)
  = existsb (in_block (address 172 20 0 1)) private_blocks.
Proof.
  split; [vm_compute; reflexivity |].
  exact (proj1 (ipv4_floor_is_cidr ascii_lower 172 20 0 1 eq_refl eq_refl eq_refl eq_refl)).
Defined.

Lemma redirect_inside_policy_witness :
  exists r, evaluateRedirect ascii_lower sample_url href sample_policy
              (js "https://hooks.example.com/a") (js "/b") (js_int 1) = Ret r /\
    red_allowed r = true /\ 0 <= 1 < maxRedirectHops sample_policy.
Proof.
  eexists. split; [vm_compute; reflexivity |]. split; [reflexivity |].
  refine (proj1 (redirect_inside_policy ascii_lower sample_url href sample_policy
    (js "https://hooks.example.com/a") (js "/b") 1 _ _ _)); [vm_compute; reflexivity | reflexivity].
Defined.

Lemma ipv6_only_stopped_by_rules_witness :
  destinationPolicy ascii_lower sample_policy_file = Ret sample_policy /\
  dec_allowed (evaluateDestination ascii_lower sample_url sample_policy (js "https://[::1]/")) = false.
Proof.
  assert (destinationPolicy ascii_lower sample_policy_file = Ret sample_policy) as Hpol
    by (vm_compute; reflexivity).
  split; [exact Hpol |].
  refine (proj2 (proj2 (ipv6_only_stopped_by_rules ascii_lower sample_url sample_policy_file sample_policy
    (js "https://[::1]/") _ (js "::1]") Hpol _ _ _ _)));
    [vm_compute; reflexivity | reflexivity | left | reflexivity].
Defined.

(** Link-local addresses past fe83 and the unspecified address are not private. *)
Lemma private_literal_gaps :
  (isPrivateLiteral ascii_lower <$> [js "fe84::1"; js "fe90::1"; js "febf::1"; js "::"])
  = [false; false; false; false].
Proof. vm_compute. reflexivity. Qed.
