(* ===== verification/Boundary.v ===== *)
(** * Request budgets and the cancel-absent operation boundary
    ([transport/request-budget.ts], [transport/operation-budget.ts])

    A boundary races an operation against its effective bound, the request scope and
    a caller cancel.  The races of a process share the sequence counter and the
    fallback ring; they, the abort signals and the collector sinks are entries of
    lists, and every timer, abort and settlement is one move.  Clock readings are
    integers; [None] stands for [Infinity] in bounds. *)
From stdpp Require Import base gmap list strings.
From Stdlib Require Import ZArith Lia.
From S2P Require Import Prelude JsNumber JsString JsValue.

Definition MAX_MILLISECONDS : Z := 2147483647.

(** ** Request budgets *)

Record RequestBudget : Type := mkBudget { totalMilliseconds : Z; budget_start : Z }.

Definition checkBound (message : string) (value : jsval) : res Z :=
  match js_safe_integer value with
  | Some z => if (z <? 1) || (MAX_MILLISECONDS <? z) then Throw message else Ret z
  | None => Throw message
  end.

(** [createRequestBudget]; [now] is the reading of the clock at creation. *)
Definition createRequestBudget (total : jsval) (now : Z) : res RequestBudget :=
  let! total := checkBound "invalid request budget" total in
  Ret (mkBudget total now).

Definition remainingMilliseconds (b : RequestBudget) (now : Z) : Z :=
  Z.max 0 (fsub (totalMilliseconds b) (fsub now (budget_start b))).

Definition effectiveMilliseconds (b : RequestBudget) (operationBound : jsval) (now : Z) : res Z :=
  let! bound := checkBound "invalid request operation bound" operationBound in
  Ret (Z.max 0 (Z.min bound (remainingMilliseconds b now))).

Definition expired (b : RequestBudget) (now : Z) : bool := remainingMilliseconds b now <=? 0.

Inductive UnknownWriteSource : Type := sql | s3 | action | worker | fetch.

#[global] Instance UnknownWriteSource_eq_dec : EqDecision UnknownWriteSource.
Proof. solve_decision. Defined.

(** The marker: its other members are constants. *)
Definition unknownWrite (source : UnknownWriteSource) : UnknownWriteSource := source.

(** ** Escalations *)

Inductive EscalationCause : Type := by_budget | disconnect | shutdown | cancel.

#[global] Instance EscalationCause_eq_dec : EqDecision EscalationCause.
Proof. solve_decision. Defined.

Record EscalationRecord : Type := mkEscalation {
  es_seq : Z;
  es_marker : UnknownWriteSource;
  es_cause : EscalationCause;
  es_bound : option jsval;
  es_effective : option Z;
  es_at : Z
}.

Record LateRecord : Type := mkLate { lt_seq : Z; lt_resolved : bool; lt_at : Z }.

(** A sink: the two arrays of a collector, or those of the ring. *)
Record Sink : Type := mkSink {
  escalations : list EscalationRecord;
  lates : list LateRecord;
  dropped : Z
}.

Definition RING_CAP : nat := 256.

(** [ringPush]: the pushed array and the number of records it dropped. *)
Definition ringPush {A} (ring : list A) (record : A) : list A * Z :=
  let ring' := ring ++ [record] in
  if (RING_CAP <? length ring')%nat then (tail ring', 1) else (ring', 0).

Definition ring_escalate (s : Sink) (r : EscalationRecord) : Sink :=
  let '(es, d) := ringPush (escalations s) r in mkSink es (lates s) (dropped s + d).

Definition ring_late (s : Sink) (r : LateRecord) : Sink :=
  let '(ls, d) := ringPush (lates s) r in mkSink (escalations s) ls (dropped s + d).

Definition empty_sink : Sink := mkSink [] [] 0.

Definition checkOperationBound (bound : jsval) : res Z := checkBound "invalid operation bound" bound.

Definition min_inf (a b : option Z) : option Z :=
  match a, b with
  | Some x, Some y => Some (Z.min x y)
  | Some x, None => Some x
  | None, b => b
  end.

Definition effectiveBoundMs (bound : option jsval) (budget : option RequestBudget) (now : Z) :
    res (option Z) :=
  let! bound := match bound with
                | Some b => let! z := checkOperationBound b in Ret (Some z)
                | None => Ret None
                end in
  let remaining := (fun b => remainingMilliseconds b now) <$> budget in
  Ret (Z.max 0 <$> min_inf bound remaining).

(** ** Races *)

(** [race_sink] is the collector, or [None] for the ring; signals are named by their
    index. *)
Record BoundaryRace : Type := mkRace {
  source : UnknownWriteSource;
  boundMs : option jsval;
  budget : option RequestBudget;
  scopeSignal : option nat;
  signal : option nat;
  race_sink : option nat
}.

Inductive BoundaryOutcome : Type :=
| settled (value : jsval)
| unknown (escalation : EscalationRecord)
| rejected.

(** A call of [raceBoundary]; [operation] is how its started operation settled. *)
Record Race : Type := mkRun {
  rc_race : BoundaryRace;
  rc_effective : option Z;
  started : bool;
  done_flag : bool;
  operation : option (option jsval);
  outcome : option BoundaryOutcome
}.

Inductive event : Type :=
| Escalated (race : nat) (record : EscalationRecord)
| LateSettled (race : nat) (record : LateRecord).

Record State : Type := mkState {
  nextSequence : Z;
  ring : Sink;
  collectors : list Sink;
  signals : list (option jstr);     (* the reason of an aborted signal *)
  races : list Race;
  log : list event                  (* the calls of sinks, in order *)
}.

Definition initial (n_collectors n_signals : nat) : State :=
  mkState 0 empty_sink (replicate n_collectors empty_sink) (replicate n_signals None) [] [].

Definition aborted (s : State) (signal : option nat) : option jstr :=
  match signal with
  | Some k => match signals s !! k with Some r => r | None => None end
  | None => None
  end.

Definition scopeCause (reason : jstr) : EscalationCause :=
  if bool_decide (reason = js "disconnect") then disconnect
  else if bool_decide (reason = js "shutdown") then shutdown else by_budget.

(** [sink.escalate(escalation)] for the sink of a race. *)
Definition escalate (s : State) (i : nat) (sink : option nat) (r : EscalationRecord) : State :=
  match sink with
  | None => mkState (nextSequence s) (ring_escalate (ring s) r) (collectors s) (signals s) (races s)
              (log s ++ [Escalated i r])
  | Some k =>
      mkState (nextSequence s) (ring s)
        (alter (fun c => mkSink (escalations c ++ [r]) (lates c) (dropped c)) k (collectors s))
        (signals s) (races s) (log s ++ [Escalated i r])
  end.

Definition late (s : State) (i : nat) (sink : option nat) (r : LateRecord) : State :=
  match sink with
  | None => mkState (nextSequence s) (ring_late (ring s) r) (collectors s) (signals s) (races s)
              (log s ++ [LateSettled i r])
  | Some k =>
      mkState (nextSequence s) (ring s)
        (alter (fun c => mkSink (escalations c) (lates c ++ [r]) (dropped c)) k (collectors s))
        (signals s) (races s) (log s ++ [LateSettled i r])
  end.

(** [sequence()] and the record made with it. *)
Definition next_record (s : State) (race : BoundaryRace) (cause : EscalationCause)
    (effective : option Z) (now : Z) : EscalationRecord * State :=
  let n := nextSequence s + 1 in
  (mkEscalation n (unknownWrite (source race)) cause (boundMs race) effective now,
   mkState n (ring s) (collectors s) (signals s) (races s) (log s)).

Definition add_race (s : State) (r : Race) : State :=
  mkState (nextSequence s) (ring s) (collectors s) (signals s) (races s ++ [r]) (log s).

Definition set_race (s : State) (i : nat) (r : Race) : State :=
  mkState (nextSequence s) (ring s) (collectors s) (signals s) (<[i := r]> (races s)) (log s).

(** [fileUnknown] for the next race: nothing was started. *)
Definition fileUnknown (s : State) (race : BoundaryRace) (cause : EscalationCause)
    (effective : option Z) (now : Z) : State :=
  let '(e, s') := next_record s race cause effective now in
  add_race (escalate s' (length (races s)) (race_sink race) e)
    (mkRun race effective false true None (Some (unknown e))).

(** [raceBoundary] up to its return or the end of the promise executor;
    [start_throws] says that [start()] throws instead of returning a promise. *)
Definition raceBoundary (s : State) (race : BoundaryRace) (now : Z) (start_throws : bool) : State :=
  let fail := mkRun race None false true None (Some rejected) in
  if bool_decide (source race = sql) && bool_decide (is_Some (signal race)) then add_race s fail
  else
    match aborted s (signal race) with
    | Some _ => fileUnknown s race cancel (Some 0) now
    | None =>
        match aborted s (scopeSignal race) with
        | Some reason => fileUnknown s race (scopeCause reason) (Some 0) now
        | None =>
            match effectiveBoundMs (boundMs race) (budget race) now with
            | Throw _ => add_race s fail
            | Ret effective =>
                if match effective with Some z => z <=? 0 | None => false end
                then fileUnknown s race by_budget effective now
                else if start_throws
                then add_race s (mkRun race effective true true None (Some rejected))
                else add_race s (mkRun race effective true false None None)
            end
        end
    end.

(** [expire(cause)] of a race. *)
Definition expire (s : State) (i : nat) (cause : EscalationCause) (now : Z) : State :=
  match races s !! i with
  | Some (mkRun race effective true false op None) =>
      let '(e, s') := next_record s race cause effective now in
      set_race (escalate s' i (race_sink race) e) i
        (mkRun race effective true true op (Some (unknown e)))
  | _ => s
  end.

(** The listeners of one signal run in the order of their races. *)
Definition listens (r : Race) (k : nat) : option bool :=
  if bool_decide (scopeSignal (rc_race r) = Some k) then Some true
  else if bool_decide (signal (rc_race r) = Some k) then Some false else None.

Definition notify (k : nat) (reason : jstr) (now : Z) (s : State) (i : nat) : State :=
  match races s !! i with
  | Some r =>
      match listens r k with
      | Some true => expire s i (scopeCause reason) now
      | Some false => expire s i cancel now
      | None => s
      end
  | None => s
  end.

Definition abort_signal (s : State) (k : nat) (reason : jstr) (now : Z) : State :=
  match signals s !! k with
  | Some None =>
      fold_left (notify k reason now)
        (seq 0 (length (races s)))
        (mkState (nextSequence s) (ring s) (collectors s) (<[k := Some reason]> (signals s))
           (races s) (log s))
  | _ => s
  end.

(** The reactions to the settlement of the operation: [finish], and the observer an
    expiry installed. [value] is [None] for a rejection. *)
Definition operation_settles (s : State) (i : nat) (value : option jsval) (now : Z) : State :=
  match races s !! i with
  | Some (mkRun race effective true false None None) =>
      set_race s i (mkRun race effective true true (Some value)
                      (Some (match value with Some v => settled v | None => rejected end)))
  | Some (mkRun race effective true true None (Some (unknown e))) =>
      late (set_race s i (mkRun race effective true true (Some value) (Some (unknown e)))) i
        (race_sink race) (mkLate (es_seq e) (bool_decide (is_Some value)) now)
  | _ => s
  end.

(** The timer; it is armed for a finite bound only. *)
Definition timer_fires (s : State) (i : nat) (now : Z) : State :=
  match races s !! i with
  | Some r => match rc_effective r with Some _ => expire s i by_budget now | None => s end
  | None => s
  end.

(** [drainBudgetEscalations]. *)
Definition drainBudgetEscalations (s : State) : Sink * State :=
  (ring s, mkState (nextSequence s) empty_sink (collectors s) (signals s) (races s) (log s)).

(** ** Everything that can happen next *)
Inductive move : Type :=
| Begin (race : BoundaryRace) (now : Z) (start_throws : bool)
| Timer (i : nat) (now : Z)
| Abort (k : nat) (reason : jstr) (now : Z)
| Settles (i : nat) (value : option jsval) (now : Z)
| Drain.

Definition act (s : State) (m : move) : State :=
  match m with
  | Begin race now start_throws => raceBoundary s race now start_throws
  | Timer i now => timer_fires s i now
  | Abort k reason now => abort_signal s k reason now
  | Settles i value now => operation_settles s i value now
  | Drain => (drainBudgetEscalations s).2
  end.

Definition run_moves (n_collectors n_signals : nat) (moves : list move) : State :=
  fold_left act moves (initial n_collectors n_signals).

(** The timer wins, then the write settles late. *)
Example expired_then_late :
  let s := run_moves 0 1 [Begin (mkRace sql (Some (js_int 50)) None (Some 0%nat) None None) 0 false;
                          Timer 0 50; Settles 0 (Some JUndefined) 70; Abort 0 (js "shutdown") 80] in
  log s = [Escalated 0 (mkEscalation 1 sql by_budget (Some (js_int 50)) (Some 50) 50);
           LateSettled 0 (mkLate 1 true 70)].
Proof. vm_compute. done. Qed.
