(* ===== verification/BoundaryTheorems.v ===== *)
(** * The operation boundary: one outcome, one escalation, one late record *)
From stdpp Require Import base gmap list strings.
From Stdlib Require Import ZArith Lia.
From S2P Require Import Prelude JsNumber JsString JsValue Boundary.

(** ** The records of a log *)

Definition escalation_of (i : nat) (e : event) : option EscalationRecord :=
  match e with Escalated j r => if (j =? i)%nat then Some r else None | LateSettled _ _ => None end.

Definition late_of (i : nat) (e : event) : option LateRecord :=
  match e with LateSettled j r => if (j =? i)%nat then Some r else None | Escalated _ _ => None end.

Definition sequence_of (e : event) : option Z :=
  match e with Escalated _ r => Some (es_seq r) | LateSettled _ _ => None end.

Definition event_race (e : event) : nat :=
  match e with Escalated i _ => i | LateSettled i _ => i end.

Lemma omap_snoc {A B} (f : A -> option B) l x :
  omap f (l ++ [x]) = omap f l ++ match f x with Some y => [y] | None => [] end.
Proof. rewrite omap_app. cbn. by destruct (f x). Qed.

(** ** The invariant *)

(** What the log and the fields say about one race. *)
Record race_ok (l : list event) (i : nat) (r : Race) : Prop := {
  ro_done : done_flag r = bool_decide (is_Some (outcome r));
  ro_open : outcome r = None -> started r = true /\ operation r = None /\
    (source (rc_race r) = sql -> signal (rc_race r) = None);
  ro_escalations : omap (escalation_of i) l =
    match outcome r with Some (unknown e) => [e] | _ => [] end;
  ro_late : match outcome r, operation r with
            | Some (unknown e), Some v => started r = true /\
                exists at_, omap (late_of i) l = [mkLate (es_seq e) (bool_decide (is_Some v)) at_]
            | _, _ => omap (late_of i) l = []
            end;
  ro_unknown : forall e, outcome r = Some (unknown e) ->
    es_marker e = source (rc_race r) /\ (source (rc_race r) = sql -> es_cause e <> cancel);
  ro_settled : forall v, outcome r = Some (settled v) -> started r = true /\ operation r = Some (Some v)
}.

Record Inv (s : State) : Prop := {
  bi_next : 0 <= nextSequence s;
  bi_sequence : omap sequence_of (log s) = Z.of_nat <$> seq 1 (Z.to_nat (nextSequence s));
  bi_races : forall i r, races s !! i = Some r -> race_ok (log s) i r;
  bi_log : forall e, e ∈ log s -> (event_race e < length (races s))%nat
}.

Lemma race_ok_other l x i r : event_race x <> i -> race_ok l i r -> race_ok (l ++ [x]) i r.
Proof.
  intros Hne [H1 H2 H3 H4 H5 H6]. destruct x as [j e|j e]; cbn in Hne; apply Nat.eqb_neq in Hne;
    (split; try done; rewrite omap_snoc; cbn; rewrite ?Hne, app_nil_r; done).
Qed.

Lemma fresh_race l i : (forall e, e ∈ l -> (event_race e < i)%nat) ->
  omap (escalation_of i) l = [] /\ omap (late_of i) l = [].
Proof.
  induction l as [|x l IH]; intros Hl; [done |]. destruct IH as [IH1 IH2].
  { intros e He. apply Hl. by right. }
  specialize (Hl x ltac:(left)). cbn. rewrite IH1, IH2.
  destruct x as [j e|j e]; cbn in *; (destruct (Nat.eqb_spec j i); [lia | done]).
Qed.

Lemma seqs_snoc n : 0 <= n ->
  Z.of_nat <$> seq 1 (Z.to_nat (n + 1)) = (Z.of_nat <$> seq 1 (Z.to_nat n)) ++ [n + 1].
Proof.
  intros Hn. replace (Z.to_nat (n + 1)) with (S (Z.to_nat n)) by lia.
  rewrite seq_S, fmap_app. cbn. do 2 f_equal. lia.
Qed.

(** A new race whose log entries, if any, are its own escalation. *)
Lemma Inv_add s race r :
  Inv s -> rc_race r = race -> done_flag r = bool_decide (is_Some (outcome r)) ->
  (outcome r = None -> started r = true /\ (source race = sql -> signal race = None)) ->
  operation r = None -> (forall e, outcome r <> Some (unknown e)) ->
  (forall v, outcome r <> Some (settled v)) -> Inv (add_race s r).
Proof.
  intros [H1 H2 H3 H4] Hr Hd Ho Hop Hu Hs. destruct (fresh_race (log s) (length (races s)) H4) as [F1 F2].
  split; cbn; try done.
  - intros i r' [Hi|[Hge Hi]]%lookup_app_Some; [by apply H3 |].
    destruct (i - length (races s))%nat as [|k] eqn:Hk; [| done]. injection Hi as <-.
    replace i with (length (races s)) by lia. split; try done.
    + intros Hn. destruct (Ho Hn) as [? ?]. by rewrite Hr.
    + rewrite F1. destruct (outcome r) as [[v|e|]|]; try done. by destruct (Hu e).
    + rewrite Hop. destruct (outcome r) as [[v|e|]|]; done.
    + intros e He. by destruct (Hu e).
    + intros v Hv. by destruct (Hs v).
  - intros e He. rewrite length_app. specialize (H4 e He). lia.
Qed.

Lemma Inv_fileUnknown s race cause effective now :
  Inv s -> (source race = sql -> cause <> cancel) -> Inv (fileUnknown s race cause effective now).
Proof.
  intros [H1 H2 H3 H4] Hc. destruct (fresh_race (log s) (length (races s)) H4) as [F1 F2].
  unfold fileUnknown, next_record. set (e := mkEscalation _ _ _ _ _ _).
  assert (log (escalate (mkState (nextSequence s + 1) (ring s) (collectors s) (signals s) (races s) (log s))
      (length (races s)) (race_sink race) e) = log s ++ [Escalated (length (races s)) e]) as Hlog
    by by destruct (race_sink race).
  assert (forall x k, races (escalate x (length (races s)) k e) = races x) as Hraces by by intros ? [].
  assert (forall x k, nextSequence (escalate x (length (races s)) k e) = nextSequence x) as Hnext
    by by intros ? [].
  split; cbn; rewrite ?Hlog, ?Hraces, ?Hnext; cbn; [lia | | |].
  - rewrite omap_snoc, H2, seqs_snoc by done. done.
  - intros i r [Hi|[Hge Hi]]%lookup_app_Some.
    + apply race_ok_other; [| by apply H3]. cbn. apply lookup_lt_Some in Hi. lia.
    + destruct (i - length (races s))%nat as [|k] eqn:Hk; [| done]. injection Hi as <-.
      replace i with (length (races s)) by lia. split; cbn; try done.
      * rewrite omap_snoc, F1. cbn. by rewrite Nat.eqb_refl.
      * rewrite omap_snoc, F2. done.
      * by intros ? [= <-].
  - intros x [Hx|Hx%list_elem_of_singleton]%elem_of_app; rewrite length_app; cbn.
    + specialize (H4 x Hx). lia.
    + subst x. cbn. lia.
Qed.

Lemma Inv_raceBoundary s race now start_throws : Inv s -> Inv (raceBoundary s race now start_throws).
Proof.
  intros Hs. unfold raceBoundary.
  case_bool_decide as Hsql; cbn [andb].
  - case_bool_decide as Hsig; [by apply (Inv_add s race) |].
    assert (signal race = None) as Hnone by (destruct (signal race); [by destruct Hsig | done]).
    rewrite Hnone. cbn [aborted].
    destruct (aborted s (scopeSignal race)) as [reason|].
    { apply Inv_fileUnknown; [done |]. intros _. unfold scopeCause. by repeat case_bool_decide. }
    destruct (effectiveBoundMs _ _ _) as [effective|]; [| by apply (Inv_add s race)].
    destruct (match effective with Some z => z <=? 0 | None => false end); [by apply Inv_fileUnknown |].
    destruct start_throws; by apply (Inv_add s race).
  - destruct (aborted s (signal race)) as [reason|]; [by apply Inv_fileUnknown |].
    destruct (aborted s (scopeSignal race)) as [reason|].
    { by apply Inv_fileUnknown. }
    destruct (effectiveBoundMs _ _ _) as [effective|]; [| by apply (Inv_add s race)].
    destruct (match effective with Some z => z <=? 0 | None => false end); [by apply Inv_fileUnknown |].
    destruct start_throws; by apply (Inv_add s race).
Qed.

(** An open race is closed by its expiry. *)
Lemma Inv_expire s i cause now :
  Inv s -> (forall r, races s !! i = Some r -> outcome r = None -> source (rc_race r) = sql ->
              signal (rc_race r) = None -> cause <> cancel) ->
  Inv (expire s i cause now).
Proof.
  intros Hs Hc. unfold expire. destruct (races s !! i) as [r|] eqn:Hr; [| done].
  pose proof (bi_races s Hs i r Hr) as Hok. specialize (Hc r eq_refl).
  destruct r as [race effective [] [] op out]; try done; destruct out as [o|]; try done.
  destruct Hok as [R1 R2 R3 R4 R5 R6]. cbn in *. destruct (R2 eq_refl) as (_ & -> & Hsig).
  destruct Hs as [H1 H2 H3 H4]. unfold next_record. set (e := mkEscalation _ _ _ _ _ _).
  assert (forall x k, log (escalate x i k e) = log x ++ [Escalated i e]) as Hlog by by intros ? [].
  assert (forall x k, races (escalate x i k e) = races x) as Hraces by by intros ? [].
  assert (forall x k, nextSequence (escalate x i k e) = nextSequence x) as Hnext by by intros ? [].
  assert (i < length (races s))%nat as Hlt by by eapply lookup_lt_Some.
  split; cbn; rewrite ?Hlog, ?Hraces, ?Hnext; cbn; [lia | | |].
  - rewrite omap_snoc, H2, seqs_snoc by done. done.
  - intros j r [(<- & <- & _)|[Hne Hj]]%list_lookup_insert_Some.
    + split; cbn; try done.
      * rewrite omap_snoc, R3. cbn. by rewrite Nat.eqb_refl.
      * rewrite omap_snoc, R4. done.
      * intros e' [= <-]. split; [done |]. intros Hsql. cbn. by apply Hc; [| | apply Hsig].
    + apply race_ok_other; [done | by apply H3].
  - intros x [Hx|Hx%list_elem_of_singleton]%elem_of_app; rewrite length_insert; [by apply H4 |].
    by subst x.
Qed.

Lemma Inv_settles s i value now : Inv s -> Inv (operation_settles s i value now).
Proof.
  intros Hs. unfold operation_settles. destruct (races s !! i) as [r|] eqn:Hr; [| done].
  pose proof (bi_races s Hs i r Hr) as Hok.
  assert (i < length (races s))%nat as Hlt by by eapply lookup_lt_Some.
  destruct r as [race effective [] [] [op|] out]; try done.
  - destruct out as [[v|e|]|]; try done. destruct Hok as [R1 R2 R3 R4 R5 R6], Hs as [H1 H2 H3 H4]. cbn in *.
    set (l := mkLate _ _ _).
    assert (forall x k, log (late x i k l) = log x ++ [LateSettled i l]) as Hlog by by intros ? [].
    assert (forall x k, races (late x i k l) = races x) as Hraces by by intros ? [].
    assert (forall x k, nextSequence (late x i k l) = nextSequence x) as Hnext by by intros ? [].
    split; rewrite ?Hlog, ?Hraces, ?Hnext; cbn; [done | | |].
    + by rewrite omap_snoc, H2, app_nil_r.
    + intros j r [(<- & <- & _)|[Hne Hj]]%list_lookup_insert_Some.
      * split; cbn; try done.
        -- rewrite omap_snoc, R3. done.
        -- split; [done |]. exists now. rewrite omap_snoc, R4. cbn. by rewrite Nat.eqb_refl.
      * apply race_ok_other; [done | by apply H3].
    + intros x [Hx|Hx%list_elem_of_singleton]%elem_of_app; rewrite length_insert; [by apply H4 |].
      by subst x.
  - destruct out as [o|]; try done. destruct Hok as [R1 R2 R3 R4 R5 R6], Hs as [H1 H2 H3 H4]. cbn in *.
    split; cbn; try done.
    + intros j r [(<- & <- & _)|[Hne Hj]]%list_lookup_insert_Some; [| by apply H3].
      split; cbn; try done; destruct value as [v|]; try done; by intros ? [= <-].
    + intros x Hx. rewrite length_insert. by apply H4.
Qed.

Lemma Inv_same s s' :
  Inv s -> nextSequence s' = nextSequence s -> races s' = races s -> log s' = log s -> Inv s'.
Proof. intros [H1 H2 H3 H4] E1 E2 E3. split; rewrite ?E1, ?E2, ?E3; done. Qed.

Lemma boundary_act_inv s m : Inv s -> Inv (act s m).
Proof.
  intros Hs. destruct m as [race now b|i now|k reason now|i value now|]; cbn [act].
  - by apply Inv_raceBoundary.
  - unfold timer_fires. destruct (races s !! i) as [r|]; [| done].
    destruct (rc_effective r); [| done]. by apply Inv_expire.
  - unfold abort_signal. destruct (signals s !! k) as [[|]|]; try done.
    match goal with |- Inv (fold_left _ _ ?x) => assert (Inv x) as Hs' by by apply (Inv_same s) end.
    revert Hs'. generalize (mkState (nextSequence s) (ring s) (collectors s) (<[k:=Some reason]> (signals s))
      (races s) (log s)).
    induction (seq 0 (length (races s))) as [|i rest IH]; intros s' Hs'; [done |]. cbn [fold_left]. apply IH.
    unfold notify. destruct (races s' !! i) as [r|] eqn:Hr; [| done]. unfold listens.
    case_bool_decide as Hscope.
    { apply Inv_expire; [done |]. intros. unfold scopeCause. by repeat case_bool_decide. }
    case_bool_decide as Hsig; [| done]. apply Inv_expire; [done |].
    intros r' Hr' _ _ Hnone. rewrite Hr in Hr'. injection Hr' as <-. congruence.
  - by apply Inv_settles.
  - by apply (Inv_same s).
Qed.

Lemma Inv_fold s moves : Inv s -> Inv (fold_left act moves s).
Proof.
  revert s. induction moves as [|m moves IH]; intros s Hs; [done |]. cbn. by apply IH, boundary_act_inv.
Qed.

Lemma boundary_run_inv n k moves : Inv (run_moves n k moves).
Proof. apply Inv_fold. by split; cbn; try done; intros ? ?%elem_of_nil. Qed.

(** ** Outcomes stay *)

Definition outcomes_kept (s s' : State) : Prop :=
  forall i r o, races s !! i = Some r -> outcome r = Some o ->
    exists r', races s' !! i = Some r' /\ outcome r' = Some o.

Lemma kept_refl s : outcomes_kept s s.
Proof. intros i r o Hr Ho. by exists r. Qed.

Lemma kept_trans s1 s2 s3 : outcomes_kept s1 s2 -> outcomes_kept s2 s3 -> outcomes_kept s1 s3.
Proof. intros H1 H2 i r o Hr Ho. destruct (H1 i r o Hr Ho) as (r' & Hr' & Ho'). by apply (H2 i r'). Qed.

Lemma kept_races s s' : races s' = races s -> outcomes_kept s s'.
Proof. intros He i r o Hr Ho. exists r. by rewrite He. Qed.

Lemma kept_add s s' x : races s' = races s ++ [x] -> outcomes_kept s s'.
Proof. intros He i r o Hr Ho. exists r. split; [| done]. rewrite He. by apply lookup_app_l_Some. Qed.

Lemma kept_set s s' i r x :
  races s' = <[i := x]> (races s) -> races s !! i = Some r ->
  (forall o, outcome r = Some o -> outcome x = Some o) -> outcomes_kept s s'.
Proof.
  intros He Hr Hx j r' o Hj Ho. rewrite He. destruct (decide (i = j)) as [<-|Hne].
  - exists x. rewrite list_lookup_insert_eq by (by eapply lookup_lt_Some). split; [done |].
    rewrite Hr in Hj. injection Hj as <-. by apply Hx.
  - exists r'. by rewrite list_lookup_insert_ne by done.
Qed.

Lemma escalate_races s i k e : races (escalate s i k e) = races s.
Proof. by destruct k. Qed.

Lemma late_races s i k l : races (late s i k l) = races s.
Proof. by destruct k. Qed.

Lemma kept_expire s i cause now : outcomes_kept s (expire s i cause now).
Proof.
  unfold expire. destruct (races s !! i) as [r|] eqn:Hr; [| apply kept_refl].
  destruct r as [race effective [] [] op [o|]]; try apply kept_refl.
  eapply (kept_set s _ i); [cbn; rewrite escalate_races; reflexivity | exact Hr | done].
Qed.

Lemma kept_act s m : outcomes_kept s (act s m).
Proof.
  destruct m as [race now b|i now|k reason now|i value now|]; cbn [act].
  - assert (forall cause effective, outcomes_kept s (fileUnknown s race cause effective now)) as Hf.
    { intros cause effective. eapply kept_add. cbn. rewrite escalate_races. reflexivity. }
    unfold raceBoundary. destruct (_ && _)%bool; [by eapply kept_add |].
    destruct (aborted s (signal race)); [apply Hf |].
    destruct (aborted s (scopeSignal race)); [apply Hf |].
    destruct (effectiveBoundMs _ _ _) as [effective|]; [| by eapply kept_add].
    destruct (match effective with Some z => z <=? 0 | None => false end); [apply Hf |].
    destruct b; by eapply kept_add.
  - unfold timer_fires. destruct (races s !! i) as [r|]; [| apply kept_refl].
    destruct (rc_effective r); [apply kept_expire | apply kept_refl].
  - unfold abort_signal. destruct (signals s !! k) as [[|]|]; try apply kept_refl.
    match goal with |- outcomes_kept _ (fold_left _ _ ?x) => set (s0 := x) end.
    apply (kept_trans s s0); [by apply kept_races |]. generalize s0. clear s0.
    induction (seq 0 (length (races s))) as [|i rest IH]; intros s'; [apply kept_refl |]. cbn [fold_left].
    eapply kept_trans; [| apply IH]. unfold notify. destruct (races s' !! i) as [r|]; [| apply kept_refl].
    destruct (listens r k) as [[]|]; [apply kept_expire.. | apply kept_refl].
  - unfold operation_settles. destruct (races s !! i) as [r|] eqn:Hr; [| apply kept_refl].
    destruct r as [race effective [] [] [op|] [[v|e|]|]]; try apply kept_refl.
    + eapply (kept_set s _ i); [rewrite late_races; reflexivity | exact Hr | done].
    + eapply (kept_set s _ i); [reflexivity | exact Hr | done].
  - by apply kept_races.
Qed.

Lemma kept_fold s moves : outcomes_kept s (fold_left act moves s).
Proof.
  revert s. induction moves as [|m moves IH]; intros s; [apply kept_refl |]. cbn.
  eapply kept_trans; [apply kept_act | apply IH].
Qed.

(** ** The property *)

(** C12. Honest boundaries.  Whatever interleaving of races, timers, aborts,
    settlements and drains follows, the outcome of a boundary never changes once it
    is there.  An unknown-write outcome has filed exactly one escalation record, its
    own, with the source of the race and never the cause cancel on SQL, and at most
    one late record, which carries the sequence number of that escalation and exists
    only when the operation had been started; any other outcome has filed none.
    Sequence numbers are never used twice. *)
Theorem boundary_is_honest n k before after i r o :
  races (run_moves n k before) !! i = Some r -> outcome r = Some o ->
  let s := run_moves n k (before ++ after) in
  NoDup (omap sequence_of (log s)) /\
  exists r', races s !! i = Some r' /\ outcome r' = Some o /\
    match o with
    | unknown e =>
        omap (escalation_of i) (log s) = [e] /\ es_marker e = source (rc_race r') /\
        (source (rc_race r') = sql -> es_cause e <> cancel) /\
        (omap (late_of i) (log s) = [] \/
         started r' = true /\ exists resolved at_, omap (late_of i) (log s) = [mkLate (es_seq e) resolved at_])
    | _ => omap (escalation_of i) (log s) = [] /\ omap (late_of i) (log s) = []
    end.
Proof.
  intros Hr Ho s. assert (Inv s) as Hs by apply boundary_run_inv. split.
  { rewrite (bi_sequence s Hs). apply (NoDup_fmap_2 Z.of_nat), NoDup_seq. }
  destruct (kept_fold (run_moves n k before) after i r o Hr Ho) as (r' & Hr' & Ho').
  unfold run_moves in Hr'. rewrite <- fold_left_app in Hr'. exists r'. split; [done |]. split; [done |].
  destruct (bi_races s Hs i r' Hr') as [R1 R2 R3 R4 R5 R6]. rewrite Ho' in *.
  destruct o as [v|e|]; [done | | done]. destruct (R5 e eq_refl) as [Hm Hc].
  split_and!; try done. destruct (operation r') as [v|]; [right | by left].
  destruct R4 as [Hst [at_ Hl]]. split; [done |]. by exists (bool_decide (is_Some v)), at_.
Qed.

Lemma boundary_is_honest_witness :
  let before := [Begin (mkRace sql (Some (js_int 50)) None None None None) 0 false; Timer 0 50] in
  let s := run_moves 0 0 (before ++ [Settles 0 (Some JUndefined) 70]) in
  NoDup (omap sequence_of (log s)) /\ length (log s) = 2%nat.
Proof.
  split; [| vm_compute; reflexivity].
  refine (proj1 (boundary_is_honest 0 0
    [Begin (mkRace sql (Some (js_int 50)) None None None None) 0 false; Timer 0 50]
    [Settles 0 (Some JUndefined) 70] 0 _ _ _ _)); vm_compute; reflexivity.
Defined.
