(* ===== verification/Uri.v ===== *)
(** * URI component coding

    [encodeURIComponent] and [decodeURIComponent] of the language, written out
    from their specification over the UTF-8 coding of [Unicode.v]: what the
    routes and the URL helpers of the platform use to move text through a path
    segment. *)
From stdpp Require Import base list strings.
From Stdlib Require Import ZArith Lia.
From S2P Require Import Prelude JsString Unicode Bytes.

(** [A-Z a-z 0-9 - _ . ! ~ * ' ( )] are written as they are. *)
Definition unescaped (c : N) : bool :=
  is_alnum c || existsb (N.eqb c) (js "-_.!~*'()").

Definition upper_hex (n : N) : N := if (n <? 10)%N then (48 + n)%N else (55 + n)%N.

Definition percent (b : N) : jstr := [37; upper_hex (b / 16); upper_hex (b mod 16)]%N.

Definition encode_scalar (c : N) : jstr :=
  if unescaped c then [c] else mjoin (percent <$> utf8 c).

(** [None] is the [URIError] of an unpaired surrogate. *)
Definition encodeURIComponent (s : jstr) : option jstr :=
  if is_well_formed s then Some (mjoin (encode_scalar <$> code_points s)) else None.

(** One escape [%XX]. *)
Definition escape (s : jstr) : option (N * jstr) :=
  match s with
  | 37%N :: h :: l :: rest =>
      match hex_value h, hex_value l with
      | Some h, Some l => Some ((h * 16 + l)%N, rest)
      | _, _ => None
      end
  | _ => None
  end.

Fixpoint escapes (n : nat) (s : jstr) : option (list N * jstr) :=
  match n with
  | O => Some ([], s)
  | S n' =>
      match escape s with
      | Some (b, rest) => (fun '(bs, r) => (b :: bs, r)) <$> escapes n' rest
      | None => None
      end
  end.

(** The octets that follow a first octet: its leading one bits less one. *)
Definition following (b : N) : option nat :=
  if (b <? 0x80)%N then Some 0%nat
  else if (b <? 0xC0)%N then None
  else if (b <? 0xE0)%N then Some 1%nat
  else if (b <? 0xF0)%N then Some 2%nat
  else if (b <? 0xF8)%N then Some 3%nat
  else None.

(** One escaped code point, whose octets must be its UTF-8 encoding. *)
Definition escaped_scalar (s : jstr) : option (N * jstr) :=
  match escape s with
  | None => None
  | Some (b, _) =>
      match following b with
      | None => None
      | Some n =>
          match escapes (S n) s with
          | None => None
          | Some (bytes, rest) =>
              match utf8_scalar bytes with
              | Some (c, []) => Some (c, rest)
              | _ => None
              end
          end
      end
  end.

(** Each round takes a unit at least: the length of the text is fuel enough. *)
Fixpoint decode_units (fuel : nat) (s : jstr) : option jstr :=
  match s, fuel with
  | [], _ => Some []
  | _, O => None
  | c :: rest, S fuel' =>
      if (c =? 37)%N then
        match escaped_scalar s with
        | None => None
        | Some (p, rest) => app (utf16 p) <$> decode_units fuel' rest
        end
      else cons c <$> decode_units fuel' rest
  end.

(** [None] is the [URIError] of a malformed escape. *)
Definition decodeURIComponent (s : jstr) : option jstr := decode_units (length s) s.

Example decode_euro : decodeURIComponent (js "a%E2%82%ac") = Some [97; 0x20AC]%N.
Proof. reflexivity. Qed.
Example decode_overlong : decodeURIComponent (js "%C0%AF") = None.
Proof. reflexivity. Qed.
Example encode_pair : encodeURIComponent [0xD83D; 0xDE00; 47]%N = Some (js "%F0%9F%98%80%2F").
Proof. reflexivity. Qed.

(** ** The coding round-trips *)

Lemma hex_value_upper n : (n < 16)%N -> hex_value (upper_hex n) = Some n.
Proof.
  intros Hn. assert (Forall (fun n => hex_value (upper_hex n) = Some n) (N.of_nat <$> seq 0 16)) as H.
  { repeat constructor. }
  rewrite Forall_forall in H. apply H, list_elem_of_fmap. exists (N.to_nat n).
  split; [lia | apply elem_of_seq; lia].
Qed.

Lemma escape_percent b rest : (b < 256)%N -> escape (percent b ++ rest) = Some (b, rest).
Proof.
  intros Hb. unfold percent. cbn [app escape].
  rewrite !hex_value_upper by (apply N.Div0.div_lt_upper_bound || apply N.mod_lt; lia).
  do 2 f_equal. rewrite N.mul_comm. symmetry. apply N.Div0.div_mod.
Qed.

Lemma escapes_percent bs rest :
  Forall (fun b => b < 256)%N bs -> escapes (length bs) (mjoin (percent <$> bs) ++ rest) = Some (bs, rest).
Proof.
  induction 1 as [|b bs Hb Hbs IH]; [done |].
  change (mjoin (percent <$> b :: bs)) with (percent b ++ mjoin (percent <$> bs)).
  rewrite <- app_assoc. cbn [length escapes]. rewrite escape_percent by done. by rewrite IH.
Qed.

(** The encoding of a scalar, by the class of its first octet. *)
Lemma utf8_shape c :
  is_scalar c = true ->
  exists b bs, utf8 c = b :: bs /\ Forall (fun b => b < 256)%N (b :: bs) /\ following b = Some (length bs).
Proof.
  intros Hc%is_scalar_spec. unfold utf8, following.
  destruct (N.ltb_spec c 0x80); [| destruct (N.ltb_spec c 0x800); [| destruct (N.ltb_spec c 0x10000)]];
    eexists _, _; (split; [reflexivity |]).
  - split; [repeat constructor; lia |]. repeat case_goal; units; (done || lia).
  - assert (0 <= c / 0x40 < 0x20 /\ 2 <= c / 0x40)%N by divs. assert (0 <= c mod 0x40 < 0x40)%N by divs.
    split; [repeat constructor; lia |]. repeat case_goal; units; (done || lia).
  - assert (0 <= c / 0x1000 < 0x10)%N by divs. assert (0 <= c mod 0x40 < 0x40)%N by divs.
    assert (0 <= c / 0x40 mod 0x40 < 0x40)%N by divs.
    split; [repeat constructor; lia |]. repeat case_goal; units; (done || lia).
  - assert (0 <= c / 0x40000 < 0x8)%N by divs. assert (0 <= c mod 0x40 < 0x40)%N by divs.
    assert (0 <= c / 0x40 mod 0x40 < 0x40)%N by divs. assert (0 <= c / 0x1000 mod 0x40 < 0x40)%N by divs.
    split; [repeat constructor; lia |]. repeat case_goal; units; (done || lia).
Qed.

Lemma escaped_scalar_encode c rest :
  is_scalar c = true -> escaped_scalar (mjoin (percent <$> utf8 c) ++ rest) = Some (c, rest).
Proof.
  intros Hc. pose proof (utf8_scalar_encode c [] Hc) as Hs. rewrite app_nil_r in Hs.
  destruct (utf8_shape c Hc) as (b & bs & Hu & Hb & Hf). rewrite Hu in *.
  unfold escaped_scalar. pose proof (escapes_percent (b :: bs) rest Hb) as He.
  change (length (b :: bs)) with (S (length bs)) in He.
  apply Forall_cons_1 in Hb as [Hb _].
  change (mjoin (percent <$> b :: bs)) with (percent b ++ mjoin (percent <$> bs)) in *.
  rewrite <- app_assoc in *. rewrite escape_percent by done. by rewrite Hf, He, Hs.
Qed.

Lemma unescaped_bounds c : unescaped c = true -> (c < 0x80)%N /\ c <> 37%N /\ c <> 47%N.
Proof.
  unfold unescaped, is_alnum, is_digit, is_upper, is_lower. cbn. intros H.
  split_and!; [| intros ->; discriminate | intros ->; discriminate].
  repeat (apply orb_true_iff in H as [H|H]); units; try lia; discriminate.
Qed.

Lemma encode_scalar_nonempty c : (1 <= length (encode_scalar c))%nat.
Proof.
  unfold encode_scalar. destruct (unescaped c); [done |].
  pose proof (utf8_length c). destruct (utf8 c); cbn in *; lia.
Qed.

Lemma decode_units_encode c rest fuel :
  is_scalar c = true ->
  decode_units (S fuel) (encode_scalar c ++ rest) = app (utf16 c) <$> decode_units fuel rest.
Proof.
  intros Hc. unfold encode_scalar. destruct (unescaped c) eqn:Hu.
  - apply unescaped_bounds in Hu as (Hu & Hp & _). cbn [app decode_units].
    rewrite eqb_false by done. unfold utf16. by rewrite ltb_true by lia.
  - pose proof (escaped_scalar_encode c rest Hc) as He.
    assert (exists t, mjoin (percent <$> utf8 c) ++ rest = 37%N :: t) as [t Ht].
    { destruct (utf8_shape c Hc) as (b & bs & -> & _). by eexists. }
    rewrite Ht in *. cbn [decode_units]. by rewrite N.eqb_refl, He.
Qed.

Lemma decode_units_encodes cs fuel :
  Forall (fun c => is_scalar c = true) cs -> (length (mjoin (encode_scalar <$> cs)) <= fuel)%nat ->
  decode_units fuel (mjoin (encode_scalar <$> cs)) = Some (mjoin (utf16 <$> cs)).
Proof.
  intros H. revert fuel. induction H as [|c cs Hc Hcs IH]; intros fuel Hf; [by destruct fuel |].
  change (mjoin (encode_scalar <$> c :: cs)) with (encode_scalar c ++ mjoin (encode_scalar <$> cs)) in *.
  rewrite length_app in Hf. pose proof (encode_scalar_nonempty c). destruct fuel as [|fuel]; [lia |].
  rewrite decode_units_encode by done. rewrite IH by lia. done.
Qed.

(** Decoding an encoded text gives it back. *)
Lemma decode_encode s e :
  is_units s = true -> encodeURIComponent s = Some e -> decodeURIComponent e = Some s.
Proof.
  unfold encodeURIComponent. intros Hu H. destruct (is_well_formed s) eqn:Hw; [| done].
  injection H as <-. destruct (well_formed_scalars s Hu Hw) as [Hs Hj].
  unfold decodeURIComponent. by rewrite decode_units_encodes, Hj.
Qed.

(** ** The characters of an encoded text *)

Definition encoded_char (c : N) : bool := unescaped c || (c =? 37)%N.

Lemma upper_hex_char n : (n < 16)%N -> encoded_char (upper_hex n) = true.
Proof.
  intros Hn. assert (Forall (fun n => encoded_char (upper_hex n) = true) (N.of_nat <$> seq 0 16)) as H.
  { repeat constructor. }
  rewrite Forall_forall in H. apply H, list_elem_of_fmap. exists (N.to_nat n).
  split; [lia | apply elem_of_seq; lia].
Qed.

Lemma percent_chars b : (b < 256)%N -> Forall (fun c => encoded_char c = true) (percent b).
Proof.
  intros Hb. constructor; [done |].
  repeat constructor; apply upper_hex_char; [apply N.Div0.div_lt_upper_bound | apply N.mod_lt]; lia.
Qed.

Lemma encode_scalar_chars c :
  is_scalar c = true -> Forall (fun c => encoded_char c = true) (encode_scalar c).
Proof.
  intros Hc. unfold encode_scalar. destruct (unescaped c) eqn:Hu.
  - constructor; [| done]. unfold encoded_char. by rewrite Hu.
  - destruct (utf8_shape c Hc) as (b & bs & -> & Hb & _).
    induction Hb as [|b' bs' Hb' _ IH]; [done |]. apply Forall_app. split; [by apply percent_chars | done].
Qed.

Lemma encode_chars s e :
  is_units s = true -> encodeURIComponent s = Some e -> Forall (fun c => encoded_char c = true) e.
Proof.
  unfold encodeURIComponent. intros Hu H. destruct (is_well_formed s) eqn:Hw; [| done].
  injection H as <-. destruct (well_formed_scalars s Hu Hw) as [Hs _].
  induction Hs as [|c cs Hc _ IH]; [done |]. apply Forall_app. split; [by apply encode_scalar_chars | done].
Qed.

Lemma encoded_char_not_slash c : encoded_char c = true -> c <> 47%N.
Proof. unfold encoded_char. intros H ->. discriminate. Qed.
