(* ===== verification/ActionRoutes.v ===== *)
(** * Action routes

    The guarded action route table of [src/runtime/platform/action-routes.ts]:
    compilation of checked [action] declarations, collisions, canonical dispatch
    and the URL builder.  The detail text of an [ActionRouteIssue], which only
    diagnostics read, is left out; its code and its data are kept. *)
From stdpp Require Import base list strings.
From Stdlib Require Import ZArith Lia.
From S2P Require Import Prelude JsString JsValue Numbers Unicode Uri Regex.

(** ** Issues *)

Inductive ActionRouteIssue : Type :=
| invalid_route
| duplicate_route (method path : jstr)
| ambiguous_route (first second : jstr)
| unknown_action
| capture_arity
| capture_type
| capture_value.

Abbreviation routed A := (ActionRouteIssue + A)%type.

Definition routed_bind {A B} (m : routed A) (f : A -> routed B) : routed B :=
  match m with inl issue => inl issue | inr a => f a end.

Declare Scope routed_scope.
Notation "'let?' x ':=' c1 'in' c2" := (routed_bind c1 (fun x => c2))
  (at level 10, x pattern, c1 at level 100, c2 at level 200) : routed_scope.
#[local] Open Scope routed_scope.

(** [if (!b) throw invalid(...); k] *)
Definition require {A} (b : bool) (k : routed A) : routed A := if b then k else inl invalid_route.

(** [l.map(f)] where [f] may throw. *)
Fixpoint map_routed {A B} (f : A -> routed B) (l : list A) : routed (list B) :=
  match l with
  | [] => inr []
  | a :: rest => let? b := f a in let? bs := map_routed f rest in inr (b :: bs)
  end.

(** ** Types *)

Inductive ActionCaptureType : Type := capture_str | capture_int.
Inductive ActionRouteMode : Type := mode_json | mode_form | mode_document.

#[global] Instance ActionCaptureType_eq_dec : EqDecision ActionCaptureType.
Proof. solve_decision. Defined.
#[global] Instance ActionRouteMode_eq_dec : EqDecision ActionRouteMode.
Proof. solve_decision. Defined.

Inductive ActionRouteSegment : Type :=
| Static (raw decoded : jstr)
| Capture (name : jstr) (type : ActionCaptureType).

Record CompiledActionRoute : Type := mkRoute {
  identity : jstr;
  method : jstr;
  template : jstr;
  segments : list ActionRouteSegment;
  statics : nat;
  bunKey : jstr;
  mode : ActionRouteMode
}.

Record ActionRouteTable : Type := mkTable { routes : list CompiledActionRoute }.

Inductive capture_data : Type := CStr (s : jstr) | CInt (z : Z).
Record ActionRouteCapture : Type := mkCapture { capture_name : jstr; value : capture_data }.

Inductive ActionRouteMatch : Type :=
| Match (identity : jstr) (captures : list ActionRouteCapture) (mode : ActionRouteMode)
| BadRequest
| NotFound
| MethodNotAllowed (allow : jstr).

Definition MIN_INT64 : Z := - (2 ^ 63).
Definition MAX_INT64 : Z := 2 ^ 63 - 1.

(** ** Templates *)

(** The characters [checkTemplate] refuses in a path: up to the space, DEL and [\?#*]. *)
Definition template_char (code : N) : bool :=
  negb ((code <=? 0x20)%N || (code =? 0x7f)%N || existsb (N.eqb code) (js "\?#*")).

(** [/^[a-z][a-z0-9_]*$/] *)
Definition CAPTURE_NAME : regex :=
  RSeq (RChr is_lower) (RStar (RChr (fun c => is_lower c || is_digit c || (c =? 95)%N))).

(** [s.slice(1, -1)] *)
Definition slice_1_1 (s : jstr) : jstr := take (length s - 2) (drop 1 s).

(** The loop over the segments; [seen] are the captures so far. *)
Fixpoint check_segments (segments seen : list jstr) : bool :=
  match segments with
  | [] => true
  | segment :: rest =>
      if starts_with segment (js ":") then false
      else if negb (includes_char segment 123) && negb (includes_char segment 125)
      then check_segments rest seen
      else if negb (starts_with segment (js "{")) || negb (ends_with segment (js "}"))
              || (length segment <? 3)%nat then false
      else
        let name := slice_1_1 segment in
        matches CAPTURE_NAME name && negb (bool_decide (name ∈ seen))
        && check_segments rest (name :: seen)
  end.

Definition checkTemplate (path : jstr) : routed (list jstr) :=
  require (is_well_formed path) (
  require (starts_with path (js "/") && negb (starts_with path (js "//"))) (
  require (forallb template_char (code_points path)) (
  let segments := split_char 47 path in
  require (check_segments (drop 1 segments) []) (inr segments)))).

(** [/[\x00-\x1f\x7f\\]/] *)
Definition control (c : N) : bool := (c <? 0x20)%N || (c =? 0x7f)%N || (c =? 92)%N.

Definition decodeStatic (segment : jstr) : routed jstr :=
  match decodeURIComponent segment with
  | None => inl invalid_route
  | Some decoded => require (negb (existsb control decoded)) (inr decoded)
  end.

(** ** Compilation *)

Definition capture_row_type (v : jsval) : option ActionCaptureType :=
  match v with
  | JStr s => if bool_decide (s = js "str") then Some capture_str
              else if bool_decide (s = js "int") then Some capture_int else None
  | _ => None
  end.

Abbreviation rows := (list (jstr * ActionCaptureType)).

(** [rows.get(name)] of the map built row by row, in insertion order. *)
Definition row (rs : rows) (name : jstr) : option ActionCaptureType :=
  snd <$> find (fun r => bool_decide (r.1 = name)) rs.

Fixpoint capture_rows (items : list jsval) (rs : rows) : routed rows :=
  match items with
  | [] => inr rs
  | v :: rest =>
      if negb (is_object v) then inl invalid_route
      else
        match property v (js "name"), capture_row_type (property v (js "type")) with
        | JStr name, Some type =>
            match row rs name with
            | Some _ => inl invalid_route
            | None => capture_rows rest (rs ++ [(name, type)])
            end
        | _, _ => inl invalid_route
        end
  end.

Definition compile_segment (rs : rows) (segment : jstr) : routed ActionRouteSegment :=
  if starts_with segment (js "{") then
    match row rs (slice_1_1 segment) with
    | None => inl invalid_route
    | Some type => inr (Capture (slice_1_1 segment) type)
    end
  else let? decoded := decodeStatic segment in inr (Static segment decoded).

Definition is_static (segment : ActionRouteSegment) : bool :=
  match segment with Static _ _ => true | Capture _ _ => false end.

(** [segments.length > 0 && segments[0].kind === "static" && segments[0].decoded === "__can"] *)
Definition reserved_first (segments : list ActionRouteSegment) : bool :=
  match segments with
  | Static _ decoded :: _ => bool_decide (decoded = js "__can")
  | _ => false
  end.

Definition bun_segment (segment : jstr) : jstr :=
  if starts_with segment (js "{") then js ":" ++ slice_1_1 segment else segment.

Definition braced (name : jstr) : jstr := js "{" ++ name ++ js "}".

(** [source.mode ?? "json"] and the test of the three modes. *)
Definition route_mode (v : jsval) : routed ActionRouteMode :=
  match v with
  | JUndefined | JNull => inr mode_json
  | JStr s => if bool_decide (s = js "json") then inr mode_json
              else if bool_decide (s = js "form") then inr mode_form
              else if bool_decide (s = js "document") then inr mode_document
              else inl invalid_route
  | _ => inl invalid_route
  end.

Definition compileRoute (entry : jsval) : routed CompiledActionRoute :=
  if negb (is_object entry) then inl invalid_route
  else
    match property entry (js "identity"), property entry (js "method"),
          property entry (js "path"), property entry (js "captures") with
    | JStr identity, JStr method, JStr path, JArray captures =>
        require (negb (bool_decide (identity = []))) (
        require (bool_decide (method = js "GET") || bool_decide (method = js "POST")) (
        let? raw := checkTemplate path in
        let? rs := capture_rows captures [] in
        let? segments := map_routed (compile_segment rs) (drop 1 raw) in
        require (forallb (fun r => bool_decide (braced r.1 ∈ drop 1 raw)) rs) (
        require (negb (reserved_first segments)) (
        let? mode := route_mode (property entry (js "mode")) in
        inr (mkRoute identity method path segments
               (length (filter (fun s => is_static s = true) segments))
               (js "/" ++ intersperse (js "/") (bun_segment <$> drop 1 raw)) mode)))))
    | _, _, _, _ => inl invalid_route
    end.

Definition shape_segment (segment : ActionRouteSegment) : jstr :=
  match segment with Capture _ _ => js "{}" | Static _ decoded => decoded end.

Definition shapeOf (route : CompiledActionRoute) : jstr :=
  js "/" ++ intersperse (js "/") (shape_segment <$> segments route).

Inductive collision : Type := duplicate | ambiguous.

(** The loop of [collides]: [None] when two statics differ, otherwise whether
    the kinds agree everywhere. *)
Fixpoint same_shape (first second : list ActionRouteSegment) : option bool :=
  match first, second with
  | a :: first, b :: second =>
      match a, b with
      | Static _ x, Static _ y => if bool_decide (x = y) then same_shape first second else None
      | Capture _ _, Capture _ _ => same_shape first second
      | _, _ => (fun _ => false) <$> same_shape first second
      end
  | _, _ => Some true
  end.

Definition covers (outer inner : CompiledActionRoute) : bool :=
  (statics inner <? statics outer)%nat
  && forallb (fun p => is_static p.1 || negb (is_static p.2)) (zip (segments outer) (segments inner)).

Definition collides (first second : CompiledActionRoute) : option collision :=
  if negb (bool_decide (method first = method second))
     || negb (bool_decide (length (segments first) = length (segments second))) then None
  else
    match same_shape (segments first) (segments second) with
    | None => None
    | Some true => Some duplicate
    | Some false => if covers first second || covers second first then None else Some ambiguous
    end.

Definition collision_issue (a b : CompiledActionRoute) : option ActionRouteIssue :=
  match collides a b with
  | Some duplicate => Some (duplicate_route (method b) (shapeOf b))
  | Some ambiguous => Some (ambiguous_route (template a) (template b))
  | None => None
  end.

(** The inner loop, [j] from [i + 1]. *)
Fixpoint first_collision (a : CompiledActionRoute) (rest : list CompiledActionRoute) : option ActionRouteIssue :=
  match rest with
  | [] => None
  | b :: rest =>
      match collision_issue a b with
      | Some issue => Some issue
      | None => first_collision a rest
      end
  end.

Fixpoint collisions (rs : list CompiledActionRoute) : option ActionRouteIssue :=
  match rs with
  | [] => None
  | a :: rest =>
      match first_collision a rest with
      | Some issue => Some issue
      | None => collisions rest
      end
  end.

Definition compileActionRoutes (entries : jsval) : routed ActionRouteTable :=
  match entries with
  | JArray items =>
      let? rs := map_routed compileRoute items in
      match collisions rs with
      | Some issue => inl issue
      | None => inr (mkTable rs)
      end
  | _ => inl invalid_route
  end.

(** ** Dispatch *)

(** Path integers: no leading zeros, no plus sign, no [-0], within int64. *)
Definition strictInt (text : jstr) : option Z :=
  let '(minus, rest) := strip_minus text in
  let unsigned := if minus then rest else text in
  if negb (if minus then negb (bool_decide (unsigned = js "0")) && integer_digits unsigned
           else integer_digits text) then None
  else if (19 <? length unsigned)%nat then None
  else
    let value := bigint_of_text text in
    if (value <? MIN_INT64) || (MAX_INT64 <? value) then None else Some value.

Record DecodedTarget : Type := mkTarget { raw : list jstr; decoded : list jstr }.

(** One decoded segment of a target; [None] is the early return. *)
Definition decode_segment (segment : jstr) : option jstr :=
  match decodeURIComponent segment with
  | None => None
  | Some text =>
      if includes_char text 47 || existsb control text
         || bool_decide (text = js ".") || bool_decide (text = js "..") then None
      else Some text
  end.

Definition decodeSegments (pathname : jstr) : option DecodedTarget :=
  match split_char 47 pathname with
  | [] :: rest => mkTarget rest <$> mapM decode_segment rest
  | _ => None
  end.

Definition actionTargetSegments (pathname : jsval) : option (list jstr) :=
  match pathname with
  | JStr s => decoded <$> decodeSegments s
  | _ => None
  end.

Definition segment_fits (segment : ActionRouteSegment) (text : jstr) : bool :=
  match segment with
  | Static _ decoded => bool_decide (decoded = text)
  | Capture _ _ => negb (bool_decide (text = []))
  end.

Definition structural (route : CompiledActionRoute) (decoded : list jstr) : bool :=
  bool_decide (length (segments route) = length decoded)
  && forallb (fun p => segment_fits p.1 p.2) (zip (segments route) decoded).

(** The loop of [typed] over the segments, the raw and the decoded target. *)
Fixpoint typed_captures (segments : list ActionRouteSegment) (raw decoded : list jstr)
    : option (list ActionRouteCapture) :=
  match segments, raw, decoded with
  | Static _ _ :: segments, _ :: raw, _ :: decoded => typed_captures segments raw decoded
  | Capture name capture_int :: segments, r :: raw, d :: decoded =>
      if negb (bool_decide (r = d)) then None
      else match strictInt d with
           | None => None
           | Some value => cons (mkCapture name (CInt value)) <$> typed_captures segments raw decoded
           end
  | Capture name capture_str :: segments, _ :: raw, d :: decoded =>
      cons (mkCapture name (CStr d)) <$> typed_captures segments raw decoded
  | _, _, _ => Some []
  end.

Definition typed (route : CompiledActionRoute) (target : DecodedTarget)
    : option (list ActionRouteCapture) :=
  if structural route (decoded target)
  then typed_captures (segments route) (raw target) (decoded target) else None.

(** The variables of the loop of [matchActionRoute]. *)
Record dispatch : Type := mkDispatch {
  best : option (CompiledActionRoute * list ActionRouteCapture);
  groupStructural : bool;
  foreign : list jstr
}.

(** [foreign.add(m)] *)
Definition add_foreign (m : jstr) (l : list jstr) : list jstr :=
  if bool_decide (m ∈ l) then l else l ++ [m].

Definition dispatch_step (m : jstr) (target : DecodedTarget) (st : dispatch)
    (route : CompiledActionRoute) : dispatch :=
  match typed route target with
  | Some captures =>
      if bool_decide (method route = m) then
        let better := match best st with
                      | None => true
                      | Some (b, _) => (statics b <? statics route)%nat
                      end in
        if better then mkDispatch (Some (route, captures)) (groupStructural st) (foreign st) else st
      else mkDispatch (best st) (groupStructural st) (add_foreign (method route) (foreign st))
  | None =>
      if negb (structural route (decoded target)) then st
      else if bool_decide (method route = m) then mkDispatch (best st) true (foreign st)
      else mkDispatch (best st) (groupStructural st) (add_foreign (method route) (foreign st))
  end.

Definition dispatch_all (m : jstr) (target : DecodedTarget) (rs : list CompiledActionRoute) : dispatch :=
  fold_left (dispatch_step m target) rs (mkDispatch None false []).

(** The answer from the variables when the loop has ended. *)
Definition dispatch_answer (st : dispatch) : ActionRouteMatch :=
  match best st with
  | Some (route, captures) => Match (identity route) captures (mode route)
  | None =>
      if groupStructural st then BadRequest
      else if negb (bool_decide (foreign st = []))
      then MethodNotAllowed (intersperse (js ", ") (sort_strings (foreign st)))
      else NotFound
  end.

Definition matchActionRoute (table : ActionRouteTable) (m : jstr) (pathname : jsval) : ActionRouteMatch :=
  match (match pathname with JStr s => decodeSegments s | _ => None end) with
  | None => BadRequest
  | Some target => dispatch_answer (dispatch_all m target (routes table))
  end.

(** ** The URL builder *)

Definition checkURLValue (text : jstr) : bool :=
  negb (bool_decide (text = [])) && negb (bool_decide (text = js "."))
  && negb (bool_decide (text = js "..")) && negb (includes_char text 47)
  && negb (existsb control text).

(** One capture of the built path. *)
Definition build_capture (type : ActionCaptureType) (v : jsval) : routed jstr :=
  match type with
  | capture_int =>
      match v with
      | JBigInt z => if (z <? MIN_INT64) || (MAX_INT64 <? z) then inl capture_value else inr (dec_of_Z z)
      | _ => inl capture_type
      end
  | capture_str =>
      match v with
      | JStr s =>
          if negb (is_well_formed s) || negb (checkURLValue s) then inl capture_value
          else match encodeURIComponent s with
               | Some e => inr e
               | None => inl capture_value
               end
      | _ => inl capture_type
      end
  end.

(** The [map] over the segments; the head of [values] is [values[i]]. *)
Fixpoint build_segments (segments : list ActionRouteSegment) (values : list jsval) : routed (list jstr) :=
  match segments with
  | [] => inr []
  | Static raw _ :: rest => let? built := build_segments rest values in inr (raw :: built)
  | Capture _ type :: rest =>
      let? text := build_capture type (default JUndefined (head values)) in
      let? built := build_segments rest (tail values) in
      inr (text :: built)
  end.

Definition captures_of (segments : list ActionRouteSegment) : list ActionRouteSegment :=
  filter (fun s => is_static s = false) segments.

Definition find_route (table : ActionRouteTable) (id : jstr) : option CompiledActionRoute :=
  find (fun route => bool_decide (identity route = id)) (routes table).

Definition buildActionURL (table : ActionRouteTable) (id : jstr) (values : jsval) : routed jstr :=
  match find_route table id with
  | None => inl unknown_action
  | Some route =>
      match values with
      | JArray vs =>
          if negb (bool_decide (length vs = length (captures_of (segments route)))) then inl capture_arity
          else
            let? built := build_segments (segments route) vs in
            inr (js "/" ++ intersperse (js "/") built)
      | _ => inl capture_arity
      end
  end.

Definition bunRouteKeys (table : ActionRouteTable) : list jstr := bunKey <$> routes table.

(** [/^[0-9a-f]{64}$/] *)
Definition generationPattern : regex :=
  rrep 64 64 (RChr (fun c => is_digit c || ((97 <=? c) && (c <=? 102))%N)).

Definition isGenerationId (v : jsval) : bool :=
  match v with JStr s => matches generationPattern s | _ => false end.

Definition generationMismatchKind : jstr := js "can.generation-mismatch".

(** The properties of an object, each name once. *)
Definition own_keys (v : jsval) : list jstr :=
  match v with JObject props => remove_dups props.*1 | _ => [] end.

Definition readGenerationMismatch (v : jsval) : option jstr :=
  match v with
  | JObject _ =>
      if negb (bool_decide (length (own_keys v) = 3%nat)) then None
      else
        match js_safe_integer (property v (js "schemaVersion")), property v (js "kind"),
              property v (js "serverGeneration") with
        | Some 1, JStr kind, JStr named =>
            if bool_decide (kind = generationMismatchKind) && isGenerationId (JStr named)
            then Some named else None
        | _, _, _ => None
        end
  | _ => None
  end.

(** ** Examples *)

Definition entry (id method path : string) (captures : list (string * string)) : jsval :=
  JObject [(js "identity", JStr (js id)); (js "method", JStr (js method));
           (js "path", JStr (js path));
           (js "captures", JArray ((fun c =>
              JObject [(js "name", JStr (js c.1)); (js "type", JStr (js c.2))]) <$> captures))].

Definition users : list jsval :=
  [entry "list" "GET" "/users" []; entry "show" "GET" "/users/{id}" [("id", "int")];
   entry "new" "GET" "/users/new" []; entry "save" "POST" "/users/{name}" [("name", "str")]]%string.

Definition dispatch_users (m path : string) : option ActionRouteMatch :=
  match compileActionRoutes (JArray users) with
  | inr table => Some (matchActionRoute table (js m) (JStr (js path)))
  | inl _ => None
  end.

Example users_compile : dispatch_users "GET" "/users/new" = Some (Match (js "new") [] mode_json).
Proof. vm_compute. reflexivity. Qed.
Example users_int :
  dispatch_users "GET" "/users/-42" = Some (Match (js "show") [mkCapture (js "id") (CInt (-42))] mode_json).
Proof. vm_compute. reflexivity. Qed.
Example users_bad_int : dispatch_users "GET" "/users/042" = Some BadRequest.
Proof. vm_compute. reflexivity. Qed.
Example users_method : dispatch_users "PUT" "/users/new" = Some (MethodNotAllowed (js "GET, POST")).
Proof. vm_compute. reflexivity. Qed.
