(* ===== verification/ActionRoutesTheorems.v ===== *)
(** * What action routes guarantee

    Compiled tables are well formed; path integers are exactly the canonical
    texts of the 64-bit integers; dispatch follows its specification whatever
    the order of the table; built URLs come back to the action that built them
    or to one that covers it. *)
From stdpp Require Import base sets list strings.
From Stdlib Require Import ZArith Lia.
From S2P Require Import Prelude JsString JsValue Numbers Unicode Regex Uri ActionRoutes.

(** ** Dispatch of action routes

    The absence of collisions orders the routes that fit one path by
    specificity; the variables of the dispatch loop; the specification [answers]
    of a dispatch, which does not mention the order of the table. *)

(** ** Facts about action routes

    Canonical integers, decoded targets, the invariant of a compiled route, the
    absence of collisions and the variables of the dispatch loop. *)

(** ** Canonical integers *)

Lemma dec_digits_length fuel n acc :
  (n < 10 ^ N.of_nat fuel)%N -> (length (dec_digits fuel n acc) <= fuel + length acc)%nat.
Proof.
  revert n acc. induction fuel as [|fuel IH]; intros n acc Hn; [done |].
  rewrite Nat2N.inj_succ, N.pow_succ_r' in Hn. cbn [dec_digits].
  destruct (N.ltb_spec n 10) as [Hs|Hs]; [cbn; lia |].
  pose proof (IH (n / 10)%N ((48 + n mod 10)%N :: acc)) as H. cbn in H.
  specialize (H ltac:(apply N.Div0.div_lt_upper_bound; lia)). lia.
Qed.

(** The fuel does not show in the digits once it is enough. *)
Lemma dec_digits_fuel fuel k n acc :
  (n < 10 ^ N.of_nat fuel)%N -> (0 < fuel)%nat ->
  dec_digits (fuel + k) n acc = dec_digits fuel n acc.
Proof.
  revert n acc. induction fuel as [|fuel IH]; intros n acc Hn Hf; [lia |].
  cbn [dec_digits Nat.add]. destruct (N.ltb_spec n 10) as [Hs|Hs]; [done |].
  rewrite Nat2N.inj_succ, N.pow_succ_r' in Hn.
  destruct fuel as [|fuel]; [change (10 ^ N.of_nat 0)%N with 1%N in Hn; lia |].
  apply IH; [apply N.Div0.div_lt_upper_bound; lia | lia].
Qed.

Lemma dec_of_N_length n k :
  (n < 10 ^ N.of_nat k)%N -> (0 < k)%nat -> (length (dec_of_N n) <= k)%nat.
Proof.
  intros Hn Hk. unfold dec_of_N. set (f := S (N.to_nat (N.size n))).
  assert (n < 10 ^ N.of_nat f)%N as Hf.
  { apply N.lt_le_trans with (2 ^ N.size n)%N; [apply N.size_gt |].
    apply N.le_trans with (10 ^ N.size n)%N; [apply N.pow_le_mono_l; lia |].
    apply N.pow_le_mono_r; lia. }
  assert (dec_digits f n [] = dec_digits k n []) as ->.
  { destruct (Nat.le_ge_cases f k).
    - replace k with (f + (k - f))%nat by lia. by rewrite dec_digits_fuel by lia.
    - replace f with (k + (f - k))%nat by lia. by rewrite dec_digits_fuel by lia. }
  pose proof (dec_digits_length k n [] Hn) as H. cbn in H. lia.
Qed.

Lemma integer_digits_zero s : integer_digits s = true -> dec_value s = 0%N -> s = js "0".
Proof. intros H Hv. rewrite <- (dec_of_N_of_value s H), Hv. done. Qed.

Lemma int64_digits z :
  MIN_INT64 <= z <= MAX_INT64 -> (length (dec_of_N (Z.to_N (Z.abs z))) <= 19)%nat.
Proof. unfold MIN_INT64, MAX_INT64. intros Hz. apply dec_of_N_length; [|lia]. cbn. lia. Qed.

(** [strictInt] accepts the canonical decimal texts of the 64-bit integers. *)
Lemma strictInt_dec z : MIN_INT64 <= z <= MAX_INT64 -> strictInt (dec_of_Z z) = Some z.
Proof.
  intros Hz. pose proof (int64_digits z Hz) as Hl. pose proof (bigint_of_text_dec z) as Hb.
  unfold strictInt, dec_of_Z in *. destruct (Z.ltb_spec z 0).
  - replace (Z.abs z) with (- z) in Hl by lia. cbn [strip_minus].
    rewrite dec_of_N_digits. rewrite bool_decide_eq_false_2.
    2:{ intros He. apply (f_equal dec_value) in He. rewrite dec_value_dec_of_N in He.
        change (dec_value (js "0")) with 0%N in He. lia. }
    cbn [negb andb]. rewrite (proj2 (Nat.ltb_ge _ _) Hl), Hb.
    by rewrite (proj2 (Z.ltb_ge _ _)), (proj2 (Z.ltb_ge _ _)) by lia.
  - replace (Z.abs z) with z in Hl by lia. rewrite integer_digits_not_minus by apply dec_of_N_digits.
    rewrite dec_of_N_digits. cbn [negb]. rewrite (proj2 (Nat.ltb_ge _ _) Hl), Hb.
    by rewrite (proj2 (Z.ltb_ge _ _)), (proj2 (Z.ltb_ge _ _)) by lia.
Qed.

Lemma strictInt_some text z :
  strictInt text = Some z -> text = dec_of_Z z /\ MIN_INT64 <= z <= MAX_INT64.
Proof.
  unfold strictInt. destruct (strip_minus text) as [minus rest] eqn:Hm.
  assert (text = js "-0" -> minus = true /\ rest = js "0") as Hz by (intros ->; by injection Hm as <- <-).
  intros H. case_hyp H; [done |]. case_hyp H; [done |].
  destruct ((bigint_of_text text <? MIN_INT64) || (MAX_INT64 <? bigint_of_text text)) eqn:Hr; [done |].
  injection H as <-. split_bools. split; [| lia].
  assert (integerText text = true) as Hi.
  { unfold integerText. rewrite Hm. cbn [snd]. destruct minus; split_bools; [done |].
    destruct (strip_minus_spec text) as [He|(r & _ & He)]; rewrite He in Hm; [by injection Hm as <- | done]. }
  destruct (integerText_canonical text Hi) as [?|He]; [done |]. exfalso.
  destruct (Hz He) as [-> ->]. cbn in *. discriminate.
Qed.

(** ** Targets *)

(** What a decoded segment cannot be. *)
Definition clean (text : jstr) : Prop :=
  (47%N ∉ text) /\ existsb control text = false /\ text <> js "." /\ text <> js "..".

Lemma decode_segment_spec segment text :
  decode_segment segment = Some text <-> decodeURIComponent segment = Some text /\ clean text.
Proof.
  unfold decode_segment, clean. destruct (decodeURIComponent segment) as [t|]; [| naive_solver].
  assert (forall b : bool, (if b then None else Some t) = Some text <-> b = false /\ t = text) as ->
    by (intros []; naive_solver).
  rewrite !orb_false_iff, !bool_decide_eq_false, includes_char_false. naive_solver.
Qed.

Lemma split_join sep parts :
  Forall (fun p => sep ∉ p) parts -> parts <> [] -> split_char sep (intersperse [sep] parts) = parts.
Proof.
  induction 1 as [|p ps Hp Hps IH]; intros Hne; [done |].
  destruct ps as [|q ps]; [by apply split_char_none |].
  rewrite intersperse_cons by done. cbn [app]. rewrite split_char_app by done. by rewrite IH.
Qed.

Lemma split_char_parts sep s : Forall (fun p => sep ∉ p) (split_char sep s) /\ split_char sep s <> [].
Proof.
  induction s as [|c s [IH Hne]]; cbn; [split; [repeat constructor; set_solver | done] |].
  destruct (N.eqb_spec c sep) as [->|Hc]; [split; [constructor; [set_solver | done] | done] |].
  destruct (split_char sep s) as [|p ps]; [done |]. split; [| done].
  apply Forall_cons in IH as [Hp Hps]. constructor; [set_solver | done].
Qed.

(** The target of a path put together from decodable segments. *)
Lemma decodeSegments_join parts texts :
  Forall (fun p => 47%N ∉ p) parts -> parts <> [] -> Forall2 (fun p t => decode_segment p = Some t) parts texts ->
  decodeSegments (js "/" ++ intersperse (js "/") parts) = Some (mkTarget parts texts).
Proof.
  intros Hp Hne Hd. unfold decodeSegments.
  change (js "/" ++ ?s) with ([] ++ 47%N :: s). rewrite split_char_app by set_solver.
  change (js "/") with [47%N]. rewrite split_join by done.
  assert (mapM decode_segment parts = Some texts) as ->; [by apply mapM_Some | done].
Qed.

(** Every segment of a decoded target is clean. *)
Lemma decodeSegments_clean path target :
  decodeSegments path = Some target ->
  length (raw target) = length (decoded target) /\ Forall clean (decoded target).
Proof.
  unfold decodeSegments. destruct (split_char 47 path) as [|[|c p] rest]; [done | | done].
  destruct (mapM decode_segment rest) as [texts|] eqn:Hm; cbn; [| done]. intros [= <-]. cbn.
  apply mapM_Some in Hm. split; [by eapply Forall2_length |].
  induction Hm as [|r d rs ds H _ IH]; constructor; [| done]. by apply decode_segment_spec in H as [_ ?].
Qed.

(** ** Compiled routes *)

(** The invariant of a compiled segment. *)
Definition segment_ok (segment : ActionRouteSegment) : Prop :=
  match segment with
  | Static raw decoded =>
      47%N ∉ raw /\ decodeURIComponent raw = Some decoded /\ existsb control decoded = false
  | Capture name _ => matches CAPTURE_NAME name = true
  end.

Definition capture_names (segments : list ActionRouteSegment) : list jstr :=
  omap (fun s => match s with Capture name _ => Some name | Static _ _ => None end) segments.

Record route_ok (route : CompiledActionRoute) : Prop := {
  ok_identity : identity route <> [];
  ok_method : method route = js "GET" \/ method route = js "POST";
  ok_segments : Forall segment_ok (segments route);
  ok_nonempty : segments route <> [];
  ok_names : NoDup (capture_names (segments route));
  ok_statics : statics route = length (filter (fun s => is_static s = true) (segments route));
  ok_reserved : reserved_first (segments route) = false
}.

Lemma require_inr {A} b (k : routed A) a : require b k = inr a -> b = true /\ k = inr a.
Proof. destruct b; [auto | discriminate]. Qed.

Lemma routed_bind_inr {A B} (m : routed A) (f : A -> routed B) b :
  routed_bind m f = inr b -> exists a, m = inr a /\ f a = inr b.
Proof. destruct m; cbn; [discriminate | eauto]. Qed.

Lemma map_routed_forall {A B} (f : A -> routed B) l l' :
  map_routed f l = inr l' -> Forall2 (fun a b => f a = inr b) l l'.
Proof.
  revert l'. induction l as [|a l IH]; intros l'; cbn; [intros [= <-]; constructor |].
  intros (b & Hb & (bs & Hbs & [= <-])%routed_bind_inr)%routed_bind_inr. constructor; auto.
Qed.

Ltac inv_routed :=
  repeat match goal with
  | H : require _ _ = inr _ |- _ => apply require_inr in H; destruct H as [? H]
  | H : routed_bind _ _ = inr _ |- _ => apply routed_bind_inr in H; destruct H as (? & ? & H)
  | H : inl _ = inr _ |- _ => discriminate H
  | H : inr _ = inr _ |- _ => injection H as H; subst
  end.

Lemma starts_with_char s c : starts_with s [c] = true <-> head s = Some c.
Proof.
  unfold starts_with. rewrite bool_decide_eq_true. destruct s as [|d s]; cbn; [done |].
  split; [by intros [= ->] | by intros [= ->]; rewrite take_0].
Qed.

Lemma compile_static rs segment seg :
  includes_char segment 123 = false -> compile_segment rs segment = inr seg ->
  exists decoded, seg = Static segment decoded /\ decodeStatic segment = inr decoded.
Proof.
  intros Hi H. unfold compile_segment in H.
  destruct (starts_with segment (js "{")) eqn:Hs.
  - apply starts_with_char in Hs. destruct segment as [|c s]; [done |]. injection Hs as ->.
    cbn in Hi. discriminate.
  - inv_routed. eauto.
Qed.

Lemma compile_capture rs segment seg :
  starts_with segment (js "{") = true -> compile_segment rs segment = inr seg ->
  exists type, seg = Capture (slice_1_1 segment) type /\ row rs (slice_1_1 segment) = Some type.
Proof. unfold compile_segment. intros -> H. destruct (row rs _) eqn:Hr; [| done]. inv_routed. eauto. Qed.

Lemma decodeStatic_ok segment decoded :
  decodeStatic segment = inr decoded ->
  decodeURIComponent segment = Some decoded /\ existsb control decoded = false.
Proof.
  unfold decodeStatic. destruct (decodeURIComponent segment); [| done].
  intros H. inv_routed. by split_bools.
Qed.

(** One round of the template loop. *)
Lemma check_segments_cons segment rest seen :
  check_segments (segment :: rest) seen = true ->
  (includes_char segment 123 = false /\ check_segments rest seen = true) \/
  (starts_with segment (js "{") = true /\ matches CAPTURE_NAME (slice_1_1 segment) = true /\
   slice_1_1 segment ∉ seen /\ check_segments rest (slice_1_1 segment :: seen) = true).
Proof.
  cbn [check_segments]. destruct (starts_with segment (js ":")); [done |].
  destruct (includes_char segment 123) eqn:H1, (includes_char segment 125) eqn:H2; cbn [negb andb];
    intros H; [right | right | right | by left].
  all: destruct (starts_with segment (js "{")) eqn:Hs; cbn [negb orb] in H; [| done];
    case_hyp H; [done |]; split_bools; split_and!; done.
Qed.

(** What the loops over the template and over its segments establish. *)
Lemma compile_segments_ok rs raws segs seen :
  Forall2 (fun s seg => compile_segment rs s = inr seg) raws segs ->
  Forall (fun s => 47%N ∉ s) raws -> check_segments raws seen = true ->
  Forall segment_ok segs /\ NoDup (capture_names segs) /\
  Forall (fun n => n ∉ seen) (capture_names segs).
Proof.
  intros H. revert seen. induction H as [|s seg raws segs Hc _ IH]; intros seen Hraw Hcheck.
  { split_and!; constructor. }
  apply Forall_cons in Hraw as [Hs Hraw].
  apply check_segments_cons in Hcheck as [[Hi Hcheck]|(Hst & Hm & Hn & Hcheck)].
  - apply compile_static in Hc as (decoded & -> & Hd); [| done].
    destruct (IH seen Hraw Hcheck) as (H1 & H2 & H3). apply decodeStatic_ok in Hd as [? ?].
    split_and!; [by constructor | done..].
  - apply compile_capture in Hc as (type & -> & _); [| done].
    destruct (IH _ Hraw Hcheck) as (H1 & H2 & H3). cbn.
    assert (slice_1_1 s ∉ capture_names segs) as Hfresh.
    { intros Hin. rewrite Forall_forall in H3. apply (H3 _ Hin). by left. }
    split_and!; [by constructor | by constructor |].
    constructor; [done |]. eapply Forall_impl; [exact H3 |]. cbn. set_solver.
Qed.

Lemma checkTemplate_ok path segs :
  checkTemplate path = inr segs ->
  segs = split_char 47 path /\ check_segments (drop 1 segs) [] = true /\ drop 1 segs <> [] /\
  Forall (fun s => 47%N ∉ s) segs.
Proof.
  unfold checkTemplate. intros H. inv_routed. split_bools. split_and!; [done | done | |apply split_char_parts].
  match goal with H : starts_with path (js "/") = true |- _ => apply (starts_with_char _ 47) in H as Hh end.
  destruct path as [|c path]; [done |]. injection Hh as ->.
  change (47%N :: path) with ([] ++ 47%N :: path). rewrite split_char_app by set_solver.
  cbn. by apply split_char_parts.
Qed.

Lemma compileRoute_ok entry route : compileRoute entry = inr route -> route_ok route.
Proof.
  unfold compileRoute. destruct (negb (is_object entry)); [done |]. intros H.
  do 4 (case_hyp H; try done). inv_routed.
  match goal with H : checkTemplate _ = inr _ |- _ => apply checkTemplate_ok in H as (_ & Hc & Hne & Hs) end.
  match goal with H : map_routed _ _ = inr _ |- _ => apply map_routed_forall in H as Hf end.
  destruct (compile_segments_ok _ _ _ _ Hf (Forall_drop _ 1 _ Hs) Hc) as (Hok & Hnames & _).
  split_bools. split; cbn; try done.
  - match goal with H : (_ || _)%bool = true |- _ => apply orb_true_iff in H as [?|?] end; split_bools; auto.
  - intros ->. apply Forall2_nil_inv_r in Hf. done.
Qed.

(** ** Collisions *)

Definition unambiguous (rs : list CompiledActionRoute) : Prop :=
  forall a b, a ∈ rs -> b ∈ rs -> a = b \/ collides a b = None.

Lemma same_shape_sym s t : same_shape s t = same_shape t s.
Proof.
  revert t. induction s as [|a s IH]; intros [|b t]; try done.
  destruct a as [ra da|], b as [rb db|]; cbn; rewrite IH; try done.
  destruct (bool_decide_reflect (da = db)), (bool_decide_reflect (db = da)); congruence.
Qed.

Lemma bool_decide_sym {A} `{EqDecision A} (x y : A) : bool_decide (x = y) = bool_decide (y = x).
Proof. apply bool_decide_ext. by split. Qed.

Lemma collides_none_sym a b : collides a b = None -> collides b a = None.
Proof.
  unfold collides. rewrite (same_shape_sym (segments b)), (orb_comm (covers b a)).
  rewrite (bool_decide_sym (method b)), (bool_decide_sym (length (segments b))).
  case_match; [done |]. by destruct (same_shape _ _) as [[]|]; repeat case_match.
Qed.

Lemma first_collision_none a rest b : first_collision a rest = None -> b ∈ rest -> collides a b = None.
Proof.
  induction rest as [|c rest IH]; intros H Hb; [by apply not_elem_of_nil in Hb |].
  cbn in H. unfold collision_issue in H at 1. apply elem_of_cons in Hb as [->|Hb].
  - by destruct (collides a c) as [[]|].
  - destruct (collides a c) as [[]|]; try done. auto.
Qed.

Lemma collisions_none rs : collisions rs = None -> unambiguous rs.
Proof.
  induction rs as [|a rs IH]; [intros _ a b Ha; by apply not_elem_of_nil in Ha |].
  cbn. destruct (first_collision a rs) eqn:Hf; [done |]. intros H x y Hx Hy.
  apply elem_of_cons in Hx as [->|Hx], Hy as [->|Hy].
  - by left.
  - right. by eapply first_collision_none.
  - right. by eapply collides_none_sym, first_collision_none.
  - by apply IH.
Qed.

Lemma structural_spec route d :
  structural route d = true <->
  Forall2 (fun segment text => segment_fits segment text = true) (segments route) d.
Proof.
  unfold structural. rewrite andb_true_iff, bool_decide_eq_true. split.
  - intros [Hl Hf]. apply Forall2_same_length_lookup. split; [done |].
    intros i x y Hx Hy. rewrite forallb_forall in Hf. apply (Hf (x, y)), list_elem_of_In.
    apply (list_elem_of_lookup_2 _ i), lookup_zip_Some. by split.
  - intros H. split; [by eapply Forall2_length |]. induction H; cbn; [done |]. by rewrite H, IHForall2.
Qed.

(** Two routes that fit one path differ in shape only by capturing. *)
Lemma same_shape_fits s t d :
  Forall2 (fun segment text => segment_fits segment text = true) s d ->
  Forall2 (fun segment text => segment_fits segment text = true) t d -> is_Some (same_shape s t).
Proof.
  intros H. revert t. induction H as [|a x s d Ha _ IH]; intros t Ht; inversion Ht as [|b ? t' ? Hb Ht']; subst.
  { by eexists. }
  destruct (IH _ Ht') as [same Hs]. destruct a, b; cbn in *; rewrite ?Hs; cbn; eauto.
  split_bools. subst. rewrite bool_decide_eq_true_2 by done. eauto.
Qed.

(** The routes of one method that fit one path are ordered by [covers]. *)
Lemma unambiguous_covers rs a b d :
  unambiguous rs -> a ∈ rs -> b ∈ rs -> method a = method b ->
  structural a d = true -> structural b d = true ->
  a = b \/ covers a b = true \/ covers b a = true.
Proof.
  intros Hu Ha Hb Hm Hsa%structural_spec Hsb%structural_spec.
  destruct (Hu a b Ha Hb) as [?|Hc]; [by left | right].
  destruct (same_shape_fits _ _ _ Hsa Hsb) as [same Hs]. unfold collides in Hc.
  rewrite (bool_decide_eq_true_2 _ Hm), bool_decide_eq_true_2 in Hc.
  2:{ by rewrite (Forall2_length _ _ _ Hsa), (Forall2_length _ _ _ Hsb). }
  cbn [negb orb] in Hc. rewrite Hs in Hc. destruct same; [done |].
  destruct (covers a b); [by left |]. destruct (covers b a); [by right | done].
Qed.

Lemma covers_statics a b : covers a b = true -> (statics b < statics a)%nat.
Proof. unfold covers. intros [H _]%andb_true_iff. by apply Nat.ltb_lt. Qed.

Lemma typed_structural route target captures :
  typed route target = Some captures -> structural route (decoded target) = true.
Proof. unfold typed. by destruct (structural route (decoded target)). Qed.

(** ** The loop *)

(** A route of method [m] that the loop has seen fits the target, with its types. *)
Definition fits_own (m : jstr) (target : DecodedTarget) (rs : list CompiledActionRoute)
    (route : CompiledActionRoute) (captures : list ActionRouteCapture) : Prop :=
  route ∈ rs /\ method route = m /\ typed route target = Some captures.

(** Some route of method [m] has the shape of the target. *)
Definition offers (rs : list CompiledActionRoute) (target : DecodedTarget) (m : jstr) : Prop :=
  exists route, route ∈ rs /\ method route = m /\ structural route (decoded target) = true.

Record dispatched (m : jstr) (target : DecodedTarget) (rs : list CompiledActionRoute) (st : dispatch) : Prop := {
  di_best : match best st with
            | Some (route, captures) =>
                fits_own m target rs route captures /\
                forall r c, fits_own m target rs r c -> (statics r <= statics route)%nat
            | None => forall r c, ~ fits_own m target rs r c
            end;
  di_group : groupStructural st = true <->
             exists r, r ∈ rs /\ method r = m /\ structural r (decoded target) = true /\ typed r target = None;
  di_foreign : forall x, x ∈ foreign st <-> x <> m /\ offers rs target x;
  di_nodup : NoDup (foreign st)
}.

Lemma add_foreign_spec x m l : x ∈ add_foreign m l <-> x = m \/ x ∈ l.
Proof. unfold add_foreign. destruct (bool_decide_reflect (m ∈ l)); set_solver. Qed.

Lemma add_foreign_nodup m l : NoDup l -> NoDup (add_foreign m l).
Proof.
  unfold add_foreign. destruct (bool_decide_reflect (m ∈ l)); [done |]. intros H.
  apply NoDup_app. split_and!; [done | set_solver | by apply NoDup_singleton].
Qed.

Lemma offers_snoc rs target x route :
  offers (rs ++ [route]) target x <->
  offers rs target x \/ (method route = x /\ structural route (decoded target) = true).
Proof. unfold offers. set_solver. Qed.

Lemma fits_own_snoc m target rs route r c :
  fits_own m target (rs ++ [route]) r c <->
  fits_own m target rs r c \/ (r = route /\ method route = m /\ typed route target = Some c).
Proof. unfold fits_own. set_solver. Qed.

Lemma dispatched_nil m target : dispatched m target [] (mkDispatch None false []).
Proof.
  assert (forall r : CompiledActionRoute, r ∉ []) as Hn by (intros r; apply not_elem_of_nil).
  split; cbn.
  - intros r c (H & _). by apply Hn in H.
  - split; [done | intros (r & H & _); by apply Hn in H].
  - intros x. split; [intros H; by apply not_elem_of_nil in H |].
    intros (_ & r & H & _). by apply Hn in H.
  - constructor.
Qed.

(** Extending the part of the loop that found another method. *)
Lemma foreign_snoc m target rs st route :
  method route <> m -> structural route (decoded target) = true ->
  (forall x, x ∈ foreign st <-> x <> m /\ offers rs target x) ->
  forall x, x ∈ add_foreign (method route) (foreign st) <-> x <> m /\ offers (rs ++ [route]) target x.
Proof.
  intros Hm Hs H x. rewrite add_foreign_spec, H, offers_snoc. split; [| naive_solver].
  intros [->|[? ?]]; auto.
Qed.

Lemma foreign_same m target rs st route :
  method route = m \/ structural route (decoded target) = false ->
  (forall x, x ∈ foreign st <-> x <> m /\ offers rs target x) ->
  forall x, x ∈ foreign st <-> x <> m /\ offers (rs ++ [route]) target x.
Proof. intros Hr H x. rewrite H, offers_snoc. destruct Hr; naive_solver congruence. Qed.

(** A route that does not fit leaves the best one. *)
Lemma best_same m target rs st route :
  method route <> m \/ typed route target = None ->
  dispatched m target rs st ->
  match best st with
  | Some (r, c) => fits_own m target (rs ++ [route]) r c /\
      forall r' c', fits_own m target (rs ++ [route]) r' c' -> (statics r' <= statics r)%nat
  | None => forall r c, ~ fits_own m target (rs ++ [route]) r c
  end.
Proof.
  intros Hr [Hb _ _ _].
  assert (forall r c, fits_own m target (rs ++ [route]) r c <-> fits_own m target rs r c) as Heq.
  { intros r c. rewrite fits_own_snoc. split; [| by left]. intros [?|(-> & ? & ?)]; [done |].
    destruct Hr; congruence. }
  destruct (best st) as [[r c]|]; [| intros r c; rewrite Heq; apply Hb].
  destruct Hb as [Hf Hmax]. split; [by apply Heq |]. intros r' c'. rewrite Heq. apply Hmax.
Qed.

(** A route that fits, with its types, takes the place of a less specific one. *)
Lemma best_typed m target rs st route captures :
  method route = m -> typed route target = Some captures -> dispatched m target rs st ->
  let st' := dispatch_step m target st route in
  groupStructural st' = groupStructural st /\ foreign st' = foreign st /\
  match best st' with
  | Some (r, c) => fits_own m target (rs ++ [route]) r c /\
      forall r' c', fits_own m target (rs ++ [route]) r' c' -> (statics r' <= statics r)%nat
  | None => False
  end.
Proof.
  intros Hm Ht [Hb _ _ _]. cbn. unfold dispatch_step. rewrite Ht, bool_decide_eq_true_2 by done.
  assert (forall r' c', fits_own m target (rs ++ [route]) r' c' -> fits_own m target rs r' c' \/ r' = route)
    as Hcases by (intros r' c' [?|(-> & _)]%fits_own_snoc; auto).
  destruct (best st) as [[b c]|] eqn:Hbest.
  - destruct Hb as [Hf Hmax]. destruct (Nat.ltb_spec (statics b) (statics route)); cbn.
    + split_and!; [done | done | by apply fits_own_snoc; right |].
      intros r' c' [H'| ->]%Hcases; [specialize (Hmax _ _ H'); lia | lia].
    + rewrite Hbest. split_and!; [done | done | by apply fits_own_snoc; left |].
      intros r' c' [H'| ->]%Hcases; [by eapply Hmax | lia].
  - cbn. split_and!; [done | done | by apply fits_own_snoc; right |].
    intros r' c' [H'| ->]%Hcases; [by apply Hb in H' | lia].
Qed.

Lemma group_snoc m target rs (route : CompiledActionRoute) :
  (exists r, r ∈ rs ++ [route] /\ method r = m /\ structural r (decoded target) = true /\ typed r target = None) <->
  (exists r, r ∈ rs /\ method r = m /\ structural r (decoded target) = true /\ typed r target = None) \/
  (method route = m /\ structural route (decoded target) = true /\ typed route target = None).
Proof.
  split.
  - intros (r & [Hr| ->%list_elem_of_singleton]%elem_of_app & H); [left; by exists r | by right].
  - intros [(r & Hr & H)|H]; [exists r | exists route]; (split; [| done]); apply elem_of_app;
      [by left | right; by apply list_elem_of_singleton].
Qed.

Lemma dispatched_step m target rs st route :
  dispatched m target rs st -> dispatched m target (rs ++ [route]) (dispatch_step m target st route).
Proof.
  intros Hd. pose proof Hd as [_ Hg Hf Hn].
  destruct (typed route target) as [captures|] eqn:Ht; destruct (decide (method route = m)) as [Hm|Hm].
  - destruct (best_typed m target rs st route captures Hm Ht Hd) as (H1 & H2 & H3). split.
    + by destruct (best (dispatch_step m target st route)) as [[r c]|].
    + rewrite H1, group_snoc, Hg. naive_solver congruence.
    + rewrite H2. apply foreign_same; auto.
    + by rewrite H2.
  - pose proof (typed_structural _ _ _ Ht) as Hs.
    unfold dispatch_step. rewrite Ht, bool_decide_eq_false_2 by done. split; cbn.
    + by apply best_same; [left |].
    + rewrite group_snoc, Hg. naive_solver congruence.
    + by apply foreign_snoc.
    + by apply add_foreign_nodup.
  - unfold dispatch_step. rewrite Ht. pose proof (best_same m target rs st route (or_intror Ht) Hd).
    destruct (structural route (decoded target)) eqn:Hs; cbn [negb];
      [rewrite bool_decide_eq_true_2 by done |]; split; cbn; try done; try (apply foreign_same; auto).
    all: rewrite group_snoc, ?Hg; naive_solver congruence.
  - unfold dispatch_step. rewrite Ht. pose proof (best_same m target rs st route (or_intror Ht) Hd).
    destruct (structural route (decoded target)) eqn:Hs; cbn [negb];
      [rewrite bool_decide_eq_false_2 by done |]; split; cbn; try done.
    + rewrite group_snoc, Hg. naive_solver congruence.
    + by apply foreign_snoc.
    + by apply add_foreign_nodup.
    + rewrite group_snoc, Hg. naive_solver congruence.
    + apply foreign_same; auto.
Qed.

Lemma dispatch_all_dispatched m target rs : dispatched m target rs (dispatch_all m target rs).
Proof.
  unfold dispatch_all. induction rs as [|route rs IH] using rev_ind; [apply dispatched_nil |].
  rewrite fold_left_app. cbn. by apply dispatched_step.
Qed.

(** ** The specification of a dispatch *)

#[global] Instance offers_dec rs target x : Decision (offers rs target x).
Proof.
  refine (cast_if (decide (Exists (fun r => method r = x /\ structural r (decoded target) = true) rs)));
    by rewrite Exists_exists in *.
Defined.

(** The [Allow] header: the other methods whose routes have the target's shape. *)
Definition allowed (rs : list CompiledActionRoute) (target : DecodedTarget) (m : jstr) : list jstr :=
  filter (fun x => x <> m /\ offers rs target x) [js "GET"; js "POST"].

(** What a request of method [m] for [target] is answered: by the one route that
    covers every other route that fits. *)
Inductive answers (rs : list CompiledActionRoute) (target : DecodedTarget) (m : jstr) : ActionRouteMatch -> Prop :=
| answer_match route captures :
    fits_own m target rs route captures ->
    (forall r c, fits_own m target rs r c -> r = route \/ covers route r = true) ->
    answers rs target m (Match (identity route) captures (mode route))
| answer_bad :
    (forall r c, ~ fits_own m target rs r c) -> offers rs target m ->
    answers rs target m BadRequest
| answer_method :
    ~ offers rs target m -> allowed rs target m <> [] ->
    answers rs target m (MethodNotAllowed (intersperse (js ", ") (allowed rs target m)))
| answer_none :
    (forall x, ~ offers rs target x) -> answers rs target m NotFound.

Lemma fits_own_offers m target rs r c : fits_own m target rs r c -> offers rs target m.
Proof. intros (? & ? & ?%typed_structural). by exists r. Qed.

(** [foreign] sorted: its methods are [GET] and [POST]. *)
Lemma sorted_methods (P : jstr -> Prop) `{!forall x, Decision (P x)} l :
  NoDup l -> (forall x, x ∈ l <-> P x) -> (forall x, P x -> x = js "GET" \/ x = js "POST") ->
  sort_strings l = filter P [js "GET"; js "POST"].
Proof.
  intros Hn Hl Hp.
  assert (Forall (fun x => x = js "GET" \/ x = js "POST") l) as Hall
    by (apply Forall_forall; intros x ?%Hl; auto).
  rewrite !filter_cons, filter_nil.
  assert (forall x, bool_decide (P x) = bool_decide (x ∈ l)) as Hd by (intros; apply bool_decide_ext; by rewrite Hl).
  destruct l as [|a [|b [|c l]]].
  - rewrite !decide_False by (rewrite <- Hl; apply not_elem_of_nil). done.
  - rewrite Forall_singleton in Hall. destruct Hall as [->| ->].
    + rewrite decide_True by (by apply Hl, list_elem_of_singleton).
      rewrite decide_False by (rewrite <- Hl, list_elem_of_singleton; done). done.
    + rewrite decide_False by (rewrite <- Hl, list_elem_of_singleton; done).
      rewrite decide_True by (by apply Hl, list_elem_of_singleton). done.
  - apply NoDup_cons in Hn as [Ha _]. rewrite list_elem_of_singleton in Ha.
    rewrite !Forall_cons in Hall. destruct Hall as ([->| ->] & [->| ->] & _); try done;
      rewrite !decide_True by (apply Hl; set_solver); done.
  - exfalso. apply NoDup_cons in Hn as [Ha [Hb _]%NoDup_cons].
    rewrite !Forall_cons in Hall. destruct Hall as ([->| ->] & [->| ->] & [->| ->] & _); set_solver.
Qed.

(** The answer depends on the routes, not on their order. *)
Lemma answers_perm rs rs' target m a :
  (forall r, r ∈ rs <-> r ∈ rs') -> answers rs target m a -> answers rs' target m a.
Proof.
  intros Heq.
  assert (forall r c, fits_own m target rs r c <-> fits_own m target rs' r c) as Hf
    by (intros; unfold fits_own; by rewrite Heq).
  assert (forall x, offers rs target x <-> offers rs' target x) as Ho
    by (intros x; unfold offers; by setoid_rewrite Heq).
  assert (allowed rs target m = allowed rs' target m) as Ha
    by (unfold allowed; apply list_filter_iff; intros x; by rewrite Ho).
  intros [route captures H1 H2|H1 H2|H1 H2|H1].
  - apply answer_match; [by apply Hf |]. intros r c Hr. by apply (H2 r c), Hf.
  - apply answer_bad; [| by apply Ho]. intros r c Hr. by apply (H1 r c), Hf.
  - rewrite Ha in *. apply answer_method; [| done]. by rewrite <- Ho.
  - apply answer_none. intros x. by rewrite <- Ho.
Qed.

Lemma answers_functional rs target m a b : answers rs target m a -> answers rs target m b -> a = b.
Proof.
  assert (allowed rs target m <> [] -> ~ (forall x, ~ offers rs target x)) as Ha.
  { intros Hne Hn. apply Hne. unfold allowed. rewrite !filter_cons, filter_nil.
    rewrite !decide_False by (intros [_ H]; by apply Hn in H). done. }
  intros [r1 c1 F1 M1|N1 O1|N1 O1|N1] [r2 c2 F2 M2|N2 O2|N2 O2|N2]; try done;
    try (exfalso; naive_solver eauto using fits_own_offers).
  destruct (M1 r2 c2 F2) as [->|Hc1%covers_statics], (M2 r1 c1 F1) as [Heq|Hc2%covers_statics]; try lia.
  - destruct F1 as (_ & _ & F1), F2 as (_ & _ & F2). congruence.
  - subst. lia.
Qed.

Lemma compileActionRoutes_ok entries table :
  compileActionRoutes entries = inr table ->
  Forall route_ok (routes table) /\ unambiguous (routes table).
Proof.
  unfold compileActionRoutes. destruct entries; try done. intros H. inv_routed.
  destruct (collisions _) eqn:Hc; [done |]. inv_routed. cbn. split; [| by apply collisions_none].
  match goal with H : map_routed _ _ = _ |- _ => apply map_routed_forall in H as Hf end.
  clear -Hf. induction Hf as [|e r es rs He _ IH]; constructor; [by eapply compileRoute_ok | done].
Qed.

(** ** The dispatch follows its specification *)

Lemma dispatch_answers rs m target :
  unambiguous rs -> Forall route_ok rs -> answers rs target m (dispatch_answer (dispatch_all m target rs)).
Proof.
  intros Hu Hok. destruct (dispatch_all_dispatched m target rs) as [Hb Hg Hf Hn].
  set (st := dispatch_all m target rs) in *. unfold dispatch_answer.
  destruct (best st) as [[route captures]|].
  { destruct Hb as [Hfit Hmax]. apply answer_match; [done |]. intros r c Hr.
    destruct Hfit as (Hin & Hm & Ht), Hr as (Hin' & Hm' & Ht').
    destruct (unambiguous_covers rs route r (decoded target)) as [->|[?|Hc%covers_statics]];
      try done; try (by eapply typed_structural); [congruence | by left | by right |].
    specialize (Hmax r c ltac:(done)). lia. }
  assert (groupStructural st = true <-> offers rs target m) as Hgo.
  { rewrite Hg. split; [intros (r & ? & ? & ? & _); by exists r |].
    intros (r & Hr & Hm & Hs). exists r. split_and!; try done.
    destruct (typed r target) as [c|] eqn:Ht; [| done]. by destruct (Hb r c). }
  destruct (groupStructural st) eqn:Hgs; [apply answer_bad; [done | by apply Hgo] |].
  assert (~ offers rs target m) as Hno by (intros Ho%Hgo; done).
  assert (sort_strings (foreign st) = allowed rs target m) as Hs.
  { apply sorted_methods; [done | done |]. intros x [_ (r & Hr & <- & _)].
    rewrite Forall_forall in Hok. apply Hok, Hr. }
  destruct (bool_decide_reflect (foreign st = [])) as [He|Hne]; cbn [negb].
  - apply answer_none. intros x Hx. assert (x ∈ foreign st) as H; [| rewrite He in H; by apply not_elem_of_nil in H].
    apply Hf. split; [intros -> | done]. done.
  - rewrite Hs. apply answer_method; [done |]. rewrite <- Hs.
    destruct (foreign st) as [|x l]; [done |]. cbn. by destruct (foldr insert_sorted [] l); cbn; try case_match.
Qed.

(** A typed match reads what the target holds. *)
Definition capture_ok (target : DecodedTarget) (c : ActionRouteCapture) : Prop :=
  match value c with
  | CInt z => dec_of_Z z ∈ raw target /\ MIN_INT64 <= z <= MAX_INT64
  | CStr s => s ∈ decoded target /\ s <> [] /\ clean s
  end.

Lemma typed_captures_ok target segs rs ds captures :
  Forall2 (fun segment text => segment_fits segment text = true) segs ds ->
  Forall clean ds -> length rs = length ds ->
  (forall r, r ∈ rs -> r ∈ raw target) -> (forall d, d ∈ ds -> d ∈ decoded target) ->
  typed_captures segs rs ds = Some captures ->
  Forall (capture_ok target) captures /\ capture_name <$> captures = capture_names segs.
Proof.
  intros H. revert rs captures. induction H as [|seg d segs ds Hfit Hfits IH];
    intros rs captures Hclean Hl Hr Hd Ht; [cbn in Ht; by injection Ht as <- |].
  destruct rs as [|r rs]; [done |]. injection Hl as Hl. apply Forall_cons in Hclean as [Hc Hclean].
  assert (forall x, x ∈ rs -> x ∈ raw target) as Hr' by (intros; apply Hr; by right).
  assert (forall x, x ∈ ds -> x ∈ decoded target) as Hd' by (intros; apply Hd; by right).
  destruct seg as [sr sd|name []]; cbn in Ht.
  - by eapply IH.
  - destruct (typed_captures segs rs ds) as [cs|] eqn:Hcs; [| done]. injection Ht as <-.
    destruct (IH rs cs) as [H1 H2]; try done. cbn in Hfit. split_bools.
    split; [constructor; [| done]; cbn; split_and!; [apply Hd; left | done..] | cbn; by f_equal].
  - destruct (bool_decide_reflect (r = d)) as [->|]; [| done]. cbn in Ht.
    destruct (strictInt d) as [z|] eqn:Hz; [| done].
    destruct (typed_captures segs rs ds) as [cs|] eqn:Hcs; [| done]. injection Ht as <-.
    destruct (IH rs cs) as [H1 H2]; try done. apply strictInt_some in Hz as [-> Hz].
    split; [constructor; [| done]; cbn; split; [apply Hr; left | done] | cbn; by f_equal].
Qed.

Lemma fits_own_captures m path target rs route captures :
  decodeSegments path = Some target -> fits_own m target rs route captures ->
  Forall (capture_ok target) captures /\ capture_name <$> captures = capture_names (segments route).
Proof.
  intros [Hl Hc]%decodeSegments_clean (_ & _ & Ht). pose proof (typed_structural _ _ _ Ht) as Hs.
  unfold typed in Ht. rewrite Hs in Ht. apply structural_spec in Hs. by eapply typed_captures_ok.
Qed.

(** C13. Every dispatch of a compiled table is the one its specification gives:
    the answer names the route that covers every other route of the request's
    method that fits the path with its types, 400 when the method has only
    routes of the path's shape that refuse it, 405 with the sorted methods of the
    other routes of that shape when it has none, 404 when no route has it; a
    malformed path is 400.  Reordering the table changes nothing, and the values
    of a match are the path's: strings that are one clean segment, integers in
    64 bits spelled canonically. *)
Theorem dispatch_by_specificity (entries : jsval) (table : ActionRouteTable) (rs : list CompiledActionRoute)
    (m path : jstr) (Hc : compileActionRoutes entries = inr table) (Hp : rs ≡ₚ routes table) :
  matchActionRoute (mkTable rs) m (JStr path) = matchActionRoute table m (JStr path) /\
  match decodeSegments path with
  | None => matchActionRoute table m (JStr path) = BadRequest
  | Some target =>
      answers (routes table) target m (matchActionRoute table m (JStr path)) /\
      (forall a, answers (routes table) target m a -> a = matchActionRoute table m (JStr path)) /\
      forall id captures md, matchActionRoute table m (JStr path) = Match id captures md ->
        Forall (capture_ok target) captures /\ NoDup (capture_name <$> captures)
  end.
Proof.
  destruct (compileActionRoutes_ok entries table Hc) as [Hok Hu].
  assert (forall r, r ∈ rs <-> r ∈ routes table) as Heq by (intros r; by rewrite Hp).
  assert (unambiguous rs) as Hu' by (intros a b Ha%Heq Hb%Heq; by apply Hu).
  assert (Forall route_ok rs) as Hok' by (by rewrite Hp).
  unfold matchActionRoute. cbn. destruct (decodeSegments path) as [target|] eqn:Hd; [| done].
  pose proof (dispatch_answers _ m target Hu Hok) as Ha.
  pose proof (dispatch_answers _ m target Hu' Hok') as Ha'. apply (answers_perm _ _ _ _ _ Heq) in Ha'.
  split_and!; [by eapply answers_functional | done | intros; by eapply answers_functional |].
  intros id captures md Hm. rewrite Hm in Ha. inversion Ha as [route c Hfit _| | |]; subst.
  destruct (fits_own_captures _ _ _ _ _ _ Hd Hfit) as [H1 ->]. split; [done |].
  rewrite Forall_forall in Hok. apply Hok, Hfit.
Qed.

Lemma dispatch_by_specificity_witness :
  exists table, compileActionRoutes (JArray users) = inr table /\
    matchActionRoute (mkTable (rev (routes table))) (js "GET") (JStr (js "/users/new"))
    = matchActionRoute table (js "GET") (JStr (js "/users/new")).
Proof.
  destruct (compileActionRoutes (JArray users)) as [|table] eqn:Hc; [vm_compute in Hc; discriminate |].
  exists table. split; [done |].
  refine (proj1 (dispatch_by_specificity (JArray users) table (rev (routes table)) (js "GET")
    (js "/users/new") Hc _)).
  symmetry. apply Permutation_rev.
Defined.

(** A path capture of type [int] is accepted exactly when its text is the
    canonical decimal of an integer in [-2^63, 2^63 - 1]: no leading zero, plus
    sign, [-0], or value out of range by one. *)
Theorem strict_int_is_int64 (text : jstr) (z : Z) :
  strictInt text = Some z <-> text = dec_of_Z z /\ - 2 ^ 63 <= z <= 2 ^ 63 - 1.
Proof.
  split; [intros H; by apply strictInt_some in H |]. intros [-> Hz]. by apply strictInt_dec.
Qed.

(** ** Building URLs *)

Lemma decode_units_plain s fuel : 37%N ∉ s -> (length s <= fuel)%nat -> decode_units fuel s = Some s.
Proof.
  revert fuel. induction s as [|c s IH]; intros [|fuel] Hs Hf; cbn in *; try done; try lia.
  apply not_elem_of_cons in Hs as [Hc Hs]. rewrite eqb_false by done. by rewrite IH by (done || lia).
Qed.

Lemma dec_of_Z_chars z : Forall (fun c => (48 <= c <= 57)%N \/ c = 45%N) (dec_of_Z z).
Proof.
  assert (forall n, Forall (fun c => (48 <= c <= 57)%N \/ c = 45%N) (dec_of_N n)) as H.
  { intros n. pose proof (dec_digits_all_digits (S (N.to_nat (N.size n))) n [] eq_refl) as H.
    apply Forall_forall. intros c Hc. left. apply is_digit_spec.
    unfold all_digits in H. rewrite forallb_forall in H. by apply H, list_elem_of_In. }
  unfold dec_of_Z. destruct (z <? 0); [constructor; [by right | apply H] | apply H].
Qed.

Lemma forall_not_elem {A} (P : A -> Prop) l x : Forall P l -> ~ P x -> x ∉ l.
Proof. rewrite Forall_forall. intros H Hx Hin. by apply Hx, H. Qed.

Lemma dec_of_Z_segment z : decode_segment (dec_of_Z z) = Some (dec_of_Z z) /\ 47%N ∉ dec_of_Z z.
Proof.
  pose proof (dec_of_Z_chars z) as H.
  assert (47%N ∉ dec_of_Z z) as Hs by (eapply forall_not_elem; [exact H | cbn; lia]). split; [| done].
  apply decode_segment_spec. split.
  { apply decode_units_plain; [eapply forall_not_elem; [exact H | cbn; lia] | done]. }
  split_and!; [done | | |].
  - induction H as [|c s Hc _ IH]; [done |]. cbn. apply not_elem_of_cons in Hs as [_ Hs].
    rewrite IH, orb_false_r by done. unfold control. destruct Hc as [Hc|Hc].
    + rewrite ltb_false, !eqb_false by lia. done.
    + by subst.
  - intros He. rewrite He in H. apply Forall_cons in H as [H _]. cbn in H. lia.
  - intros He. rewrite He in H. apply Forall_cons in H as [H _]. cbn in H. lia.
Qed.

Definition value_data (v : jsval) : capture_data :=
  match v with JBigInt z => CInt z | JStr s => CStr s | _ => CStr [] end.

(** The captures the values stand for, in path order. *)
Fixpoint bound_captures (segs : list ActionRouteSegment) (vs : list jsval) : list ActionRouteCapture :=
  match segs with
  | [] => []
  | Static _ _ :: segs => bound_captures segs vs
  | Capture name _ :: segs =>
      mkCapture name (value_data (default JUndefined (head vs))) :: bound_captures segs (tail vs)
  end.

(** JavaScript strings are sequences of 16-bit units. *)
Definition value_units (v : jsval) : Prop :=
  match v with JStr s => is_units s = true | _ => True end.

(** A static segment that a request can spell. *)
Definition reachable (segment : ActionRouteSegment) : Prop :=
  match segment with Static _ decoded => clean decoded | Capture _ _ => True end.

Lemma build_capture_int v text :
  build_capture capture_int v = inr text ->
  exists z, v = JBigInt z /\ text = dec_of_Z z /\ strictInt text = Some z.
Proof.
  destruct v; cbn; try done. destruct ((z <? MIN_INT64) || (MAX_INT64 <? z)) eqn:Hz; [done |].
  intros [= <-]. split_bools. exists z. split_and!; [done..|]. by apply strictInt_dec.
Qed.

Lemma build_capture_str v text :
  build_capture capture_str v = inr text -> value_units v ->
  exists s, v = JStr s /\ s <> [] /\ decode_segment text = Some s /\ 47%N ∉ text.
Proof.
  destruct v; cbn; try done. intros H Hu. case_hyp H; [done |].
  destruct (encodeURIComponent s) as [e|] eqn:He; [| done]. injection H as <-.
  apply orb_false_iff in Heqb as [_ Hv%negb_false_iff]. unfold checkURLValue in Hv. split_bools.
  exists s. split_and!; [done | done | |].
  - apply decode_segment_spec. split; [by eapply decode_encode |].
    split_and!; [by apply includes_char_false | done..].
  - eapply forall_not_elem; [by eapply encode_chars | by intros ?%encoded_char_not_slash].
Qed.

(** The built segments decode to texts the route accepts, with the values. *)
Lemma build_segments_fit segs vs built :
  build_segments segs vs = inr built -> Forall segment_ok segs -> Forall reachable segs ->
  Forall value_units vs ->
  Forall (fun p => 47%N ∉ p) built /\ length built = length segs /\
  exists ds, Forall2 (fun p t => decode_segment p = Some t) built ds /\
    Forall2 (fun segment text => segment_fits segment text = true) segs ds /\
    typed_captures segs built ds = Some (bound_captures segs vs).
Proof.
  revert vs built. induction segs as [|seg segs IH]; intros vs built H Hok Hre Hvs; cbn in H.
  { inv_routed. split_and!; [done | done |]. exists []. split_and!; constructor. }
  apply Forall_cons in Hok as [Hs Hok]. apply Forall_cons in Hre as [Hr Hre].
  destruct seg as [sr sd|name type]; inv_routed.
  - destruct (IH vs x) as (H1 & H2 & ds & H3 & H4 & H5); try done.
    destruct Hs as (Hsl & Hdec & _). split_and!; [by constructor | cbn; by f_equal |].
    exists (sd :: ds). split_and!; [| | done].
    + constructor; [| done]. by apply decode_segment_spec.
    + constructor; [| done]. cbn. by apply bool_decide_eq_true_2.
  - destruct (IH (tail vs) x0) as (H1' & H2 & ds & H3 & H4 & H5); try done; [by destruct Hvs |].
    assert (value_units (default JUndefined (head vs))) as Hv by (by destruct Hvs).
    destruct type.
    + apply build_capture_str in H0 as (s & He & Hne & Hd & Hsl); [| done].
      split_and!; [by constructor | cbn; by f_equal |].
      exists (s :: ds). split_and!; [by constructor | | cbn; by rewrite H5, He].
      constructor; [| done]. cbn. by rewrite bool_decide_eq_false_2.
    + apply build_capture_int in H0 as (z & He & -> & Hz). destruct (dec_of_Z_segment z) as [Hd Hsl].
      split_and!; [by constructor | cbn; by f_equal |].
      exists (dec_of_Z z :: ds). split_and!; [by constructor | |].
      * constructor; [| done]. cbn. rewrite bool_decide_eq_false_2; [done |]. intros Hn.
        rewrite Hn in Hz. done.
      * cbn. rewrite bool_decide_eq_true_2, Hz by done. cbn. by rewrite H5, He.
Qed.

Lemma buildActionURL_target table id vs url route :
  buildActionURL table id (JArray vs) = inr url -> find_route table id = Some route ->
  route_ok route -> Forall reachable (segments route) -> Forall value_units vs ->
  exists target, decodeSegments url = Some target /\
    typed route target = Some (bound_captures (segments route) vs).
Proof.
  unfold buildActionURL. intros H Hf Hok Hre Hvs. rewrite Hf in H. case_hyp H; [done |]. inv_routed.
  destruct (build_segments_fit _ _ _ H0 (ok_segments _ Hok) Hre Hvs) as (Hsl & Hl & ds & Hdec & Hfit & Ht).
  exists (mkTarget x ds). split.
  - apply decodeSegments_join; [done | | done]. intros ->. symmetry in Hl. apply nil_length_inv in Hl.
    by apply (ok_nonempty _ Hok).
  - unfold typed. cbn. by rewrite (proj2 (structural_spec _ _) Hfit).
Qed.

Lemma find_route_in table id route : find_route table id = Some route -> route ∈ routes table.
Proof. unfold find_route. intros [H _]%find_some. by apply list_elem_of_In. Qed.

(** C14. A URL built for an action whose static segments a request can spell (decoded,
    they hold no slash and no control character and are not dots, which dispatch
    refuses) is dispatched, for the method of the action, to that action with the
    values it was built from, in path order; the only other outcome is a route that
    covers the action's at this path, with a static segment where the action
    captures. *)
Theorem built_url_comes_back (entries : jsval) (table : ActionRouteTable) (id url : jstr) (vs : list jsval)
    (route : CompiledActionRoute) (Hc : compileActionRoutes entries = inr table)
    (Hf : find_route table id = Some route) (Hb : buildActionURL table id (JArray vs) = inr url)
    (Hvs : Forall value_units vs) (Hre : Forall reachable (segments route)) :
  identity route = id /\
  exists r captures,
    matchActionRoute table (method route) (JStr url) = Match (identity r) captures (mode r) /\
    r ∈ routes table /\
    ((r = route /\ captures = bound_captures (segments route) vs) \/ covers r route = true).
Proof.
  destruct (compileActionRoutes_ok entries table Hc) as [Hok Hu].
  pose proof (find_route_in _ _ _ Hf) as Hin. pose proof Hok as Hok'.
  rewrite Forall_forall in Hok'. specialize (Hok' _ Hin).
  destruct (buildActionURL_target _ _ _ _ _ Hb Hf Hok' Hre Hvs) as (target & Ht & Hty).
  split; [by apply find_some in Hf as [_ ?%bool_decide_eq_true] |].
  assert (fits_own (method route) target (routes table) route (bound_captures (segments route) vs)) as Hfit
    by (split_and!; done).
  unfold matchActionRoute. rewrite Ht. pose proof (dispatch_answers _ (method route) target Hu Hok) as Ha.
  inversion Ha as [r c Hr Hcov Heq|Hn _ Heq|Hn _ Heq|Hn Heq].
  - exists r, c. split_and!; [done | apply Hr |].
    destruct (Hcov _ _ Hfit) as [He|He]; [left; split; [done |] | by right].
    subst. destruct Hr as (_ & _ & Hr). congruence.
  - by destruct (Hn _ _ Hfit).
  - by destruct Hn; eapply fits_own_offers.
  - by destruct (Hn (method route)); eapply fits_own_offers.
Qed.

Definition save_values : list jsval := [JStr [0x20AC; 47 + 1; 32]%N].

Lemma built_url_comes_back_witness :
  exists table route, compileActionRoutes (JArray users) = inr table /\
    find_route table (js "save") = Some route /\
    exists r captures,
      matchActionRoute table (method route) (JStr (js "/users/%E2%82%AC0%20")) = Match (identity r) captures (mode r).
Proof.
  destruct (compileActionRoutes (JArray users)) as [|table] eqn:Hc; [vm_compute in Hc; discriminate |].
  destruct (find_route table (js "save")) as [route|] eqn:Hf;
    [| exfalso; vm_compute in Hc; injection Hc as <-; vm_compute in Hf; discriminate].
  exists table, route. split_and!; [done.. |].
  destruct (built_url_comes_back (JArray users) table (js "save") (js "/users/%E2%82%AC0%20") save_values
    route Hc Hf) as (_ & r & captures & H & _).
  - vm_compute in Hc. injection Hc as <-. vm_compute. reflexivity.
  - constructor; [by vm_compute | constructor].
  - vm_compute in Hc. injection Hc as <-. vm_compute in Hf. injection Hf as <-.
    repeat constructor; try (intros H; vm_compute in H; discriminate); try (by vm_compute).
    intros H. apply list_elem_of_In in H. vm_compute in H. intuition discriminate.
  - by exists r, captures.
Defined.

(** The builder does not see a covering route: the URL of [show] for this name
    is the URL of [new]. *)
Definition shadowed : list jsval :=
  [entry "show" "GET" "/users/{name}" [("name", "str")]; entry "new" "GET" "/users/new" []]%string.

Example built_url_shadowed :
  match compileActionRoutes (JArray shadowed) with
  | inr table =>
      match buildActionURL table (js "show") (JArray [JStr (js "new")]) with
      | inr url => Some (matchActionRoute table (js "GET") (JStr url))
      | inl _ => None
      end
  | inl _ => None
  end = Some (Match (js "new") [] mode_json).
Proof. vm_compute. reflexivity. Qed.

(** A static segment that decodes to a slash compiles and builds, but no request
    reaches it. *)
Example built_url_unreachable :
  match compileActionRoutes (JArray [entry "a" "GET" "/a%2Fb" []]) with
  | inr table =>
      match buildActionURL table (js "a") (JArray []) with
      | inr url => Some (matchActionRoute table (js "GET") (JStr url))
      | inl _ => None
      end
  | inl _ => None
  end = Some BadRequest.
Proof. vm_compute. reflexivity. Qed.

Lemma first_collision_some a rest issue :
  first_collision a rest = Some issue -> exists j b, rest !! j = Some b /\ collision_issue a b = Some issue.
Proof.
  induction rest as [|c rest IH]; [done |]. cbn. destruct (collision_issue a c) as [i|] eqn:Hi.
  - intros [= ->]. by exists 0%nat, c.
  - intros (j & b & Hj & H)%IH. by exists (S j), b.
Qed.

Lemma collisions_some rs issue :
  collisions rs = Some issue ->
  exists i j a b, (i < j)%nat /\ rs !! i = Some a /\ rs !! j = Some b /\ collision_issue a b = Some issue.
Proof.
  induction rs as [|a rs IH]; [done |]. cbn. destruct (first_collision a rs) as [i|] eqn:Hi.
  - intros [= ->]. apply first_collision_some in Hi as (j & b & Hj & H).
    exists 0%nat, (S j), a, b. split_and!; [lia | done..].
  - intros (k & j & x & y & Hlt & Hx & Hy & H)%IH. exists (S k), (S j), x, y. split_and!; [lia | done..].
Qed.

Lemma collisions_none_pairs rs i j a b :
  collisions rs = None -> (i < j)%nat -> rs !! i = Some a -> rs !! j = Some b -> collides a b = None.
Proof.
  revert i j. induction rs as [|c rs IH]; intros i j H Hlt Hi Hj; [done |]. cbn in H.
  destruct (first_collision c rs) eqn:Hf; [done |]. destruct j as [|j]; [lia |].
  destruct i as [|i]; [injection Hi as -> | by apply (IH i j); [| lia | |]].
  eapply first_collision_none; [done |]. by eapply list_elem_of_lookup_2.
Qed.

(** Entries that all compile give well-formed routes: method [GET] or [POST],
    statics decoded from their spelling and free of controls, captures with
    distinct lower-case names, the count of statics, no reserved first segment.
    The table is refused exactly when two of them collide, as the issue of such a
    pair, so no two routes of an accepted table compete for a path unless one
    covers the other. *)
Theorem compiled_table_type (items : list jsval) (rs : list CompiledActionRoute)
    (H : map_routed compileRoute items = inr rs) :
  Forall route_ok rs /\
  match compileActionRoutes (JArray items) with
  | inr table =>
      routes table = rs /\
      forall i j a b, (i < j)%nat -> rs !! i = Some a -> rs !! j = Some b -> collides a b = None
  | inl issue =>
      exists i j a b, (i < j)%nat /\ rs !! i = Some a /\ rs !! j = Some b /\ collision_issue a b = Some issue
  end.
Proof.
  split.
  - apply map_routed_forall in H. induction H; constructor; [by eapply compileRoute_ok | done].
  - cbn. rewrite H. cbn. destruct (collisions rs) as [issue|] eqn:Hc.
    + by apply collisions_some.
    + split; [done |]. intros. by eapply collisions_none_pairs.
Qed.

Lemma compiled_table_type_witness : exists rs, map_routed compileRoute users = inr rs /\ Forall route_ok rs.
Proof.
  destruct (map_routed compileRoute users) as [|rs] eqn:H; [vm_compute in H; discriminate |].
  exists rs. split; [done |]. exact (proj1 (compiled_table_type users rs H)).
Defined.
