(* ===== verification/Router.v ===== *)
(** * Router

    The combined router of [src/runtime/platform/router.ts]: exact routes, the
    compiled action table behind them, construction with its refusals, and
    dispatch of a request with the effects it has on the request token.  The
    WHATWG [URL] class is a parameter, and so are the mounted callbacks and the
    conversion of their value to a native response. *)
From stdpp Require Import base gmap list strings.
From Stdlib Require Import ZArith Lia.
From S2P Require Import Prelude JsString JsValue Completion Uri ActionRoutes.

(** ** Values *)

Inductive Method : Type := GET | POST | PUT | PATCH | DELETE | OPTIONS | HEAD.

Definition method_text (m : Method) : jstr :=
  match m with
  | GET => js "GET" | POST => js "POST" | PUT => js "PUT" | PATCH => js "PATCH"
  | DELETE => js "DELETE" | OPTIONS => js "OPTIONS" | HEAD => js "HEAD"
  end.

(** Tokens and callbacks are object identities. *)
Abbreviation token := nat.

Record Route : Type := mkExact {
  route_method : Method;
  source : jstr;
  path : jstr;
  stream : bool;
  callback : token
}.

Abbreviation exact_table := (gmap jstr (gmap jstr Route)).

Record Router : Type := mkRouter {
  exact : exact_table;
  actions : option (ActionRouteTable * gmap jstr token)
}.

Record ActionRouteBinding : Type := mkBinding { binding_entry : jsval; binding_callback : token }.

(** The weak maps of the two modules, and the next fresh token. *)
Record store : Type := mkStore {
  route_tokens : gmap token Route;
  action_bindings : gmap token ActionRouteBinding;
  router_tokens : gmap token Router;
  next_token : token
}.

Definition origin : string := "can:router".
Definition resourceStateFailure : StandardFailure := mkStandard resource_state "resource-state" origin.

Definition read {A} (map : gmap token A) (value : token) : run A :=
  match map !! value with
  | Some a => Done a
  | None => Thrown resourceStateFailure
  end.

Definition opaque_route (s : store) (data : Route) : token * store :=
  (next_token s, mkStore (<[next_token s := data]> (route_tokens s)) (action_bindings s)
                   (router_tokens s) (S (next_token s))).

Definition opaque_router (s : store) (data : Router) : token * store :=
  (next_token s, mkStore (route_tokens s) (action_bindings s)
                   (<[next_token s := data]> (router_tokens s)) (S (next_token s))).

(** [kind] is what the declared type of the value says. *)
Definition isRouterValue (kind : option jstr) (s : store) (value : token) : bool :=
  match kind with
  | None => false
  | Some kind =>
      if bool_decide (kind = js "route") then
        bool_decide (is_Some (route_tokens s !! value)) || bool_decide (is_Some (action_bindings s !! value))
      else if bool_decide (kind = js "router") then bool_decide (is_Some (router_tokens s !! value))
      else false
  end.

(** ** Construction *)

Record RouterTypes : Type := mkTypes { invalid_type : jstr; duplicate_type : jstr; ambiguous_type : jstr }.

Definition router_error {A} (type : jstr) (fields : list (string * jstr)) : Completion A :=
  domain (mkDomain type ((fun f => (f.1, JStr f.2)) <$> fields) origin).

(** [/[\x00-\x20\x7f\\?#*]/] *)
Definition static_path_char (c : N) : bool :=
  (c <=? 0x20)%N || (c =? 0x7f)%N || existsb (N.eqb c) (js "\?#*").

(** [normalizedPath] of a URL with this path name; [None] is its [URIError]. *)
Definition normalizedPath (pathname : jstr) : option jstr :=
  match decodeURIComponent pathname with
  | None => None
  | Some path => if negb (starts_with path (js "/")) || existsb control path then None else Some path
  end.

Section construction.
(** [new URL(source, "http://can.invalid").pathname]; [None] is its [TypeError]. *)
Context (url_pathname : jstr -> option jstr) (types : RouterTypes).

Definition static_source (source : jstr) : bool :=
  is_well_formed source && starts_with source (js "/") && negb (starts_with source (js "//"))
  && negb (existsb static_path_char source)
  && negb (existsb (fun segment => starts_with segment (js ":")) (split_char 47 source)).

Definition constructRoute (m : Method) (source : jstr) (callback : token) (s : store) : Completion token * store :=
  let fail := (router_error (invalid_type types) [("reason"%string, js "path")], s) in
  if negb (static_source source) then fail
  else
    match url_pathname source with
    | None => fail
    | Some pathname =>
        match normalizedPath pathname with
        | None => fail
        | Some path =>
            if bool_decide (path = js "/__can") || starts_with path (js "/__can/") then fail
            else let '(t, s) := opaque_route s (mkExact m source path false callback) in (ok t, s)
        end
    end.

Definition stream_route (input : token) (s : store) : run (Completion token * store) :=
  run! route := read (route_tokens s) input in
  let '(t, s) := opaque_route s
    (mkExact (route_method route) (source route) (path route) true (callback route)) in
  Done (ok t, s).

(** [table.get(path)?.get(method)] *)
Definition exact_route (table : exact_table) (path m : jstr) : option Route :=
  table !! path ≫= (fun methods => methods !! m).

Definition set_exact (table : exact_table) (route : Route) : exact_table :=
  let methods := default ∅ (table !! path route) in
  <[path route := <[method_text (route_method route) := route]> methods]> table.

(** The loop of [make] over the mounted values. *)
Fixpoint mount (s : store) (input : list token) (table : exact_table) (mounted : list ActionRouteBinding)
    : run (Completion (exact_table * list ActionRouteBinding)) :=
  match input with
  | [] => Done (ok (table, mounted))
  | t :: rest =>
      match action_bindings s !! t with
      | Some binding => mount s rest table (mounted ++ [binding])
      | None =>
          run! route := read (route_tokens s) t in
          match exact_route table (path route) (method_text (route_method route)) with
          | Some previous =>
              Done (if bool_decide (source previous = source route)
                    then router_error (duplicate_type types)
                           [("method"%string, method_text (route_method route)); ("path"%string, path route)]
                    else router_error (ambiguous_type types)
                           [("first"%string, source previous); ("second"%string, source route)])
          | None => mount s rest (set_exact table route) mounted
          end
      end
  end.

(** The failure an [ActionRouteIssue] becomes. *)
Definition issue_error {A} (issue : ActionRouteIssue) : Completion A :=
  match issue with
  | duplicate_route m p => router_error (duplicate_type types) [("method"%string, m); ("path"%string, p)]
  | ambiguous_route a b => router_error (ambiguous_type types) [("first"%string, a); ("second"%string, b)]
  | _ => router_error (invalid_type types) [("reason"%string, js "path")]
  end.

(** The decoded path of a route without captures. *)
Fixpoint all_static (segments : list ActionRouteSegment) : option (list jstr) :=
  match segments with
  | [] => Some []
  | Static _ decoded :: rest => cons decoded <$> all_static rest
  | Capture _ _ :: _ => None
  end.

Definition static_path (route : CompiledActionRoute) : option jstr :=
  (fun statics => js "/" ++ intersperse (js "/") statics) <$> all_static (segments route).

(** The first action route that repeats an exact one. *)
Fixpoint static_overlap (table : exact_table) (rs : list CompiledActionRoute) : option (jstr * jstr) :=
  match rs with
  | [] => None
  | route :: rest =>
      match static_path route with
      | Some decoded =>
          match exact_route table decoded (method route) with
          | Some _ => Some (method route, decoded)
          | None => static_overlap table rest
          end
      | None => static_overlap table rest
      end
  end.

Definition entry_identity (entry : jsval) : jstr :=
  match property entry (js "identity") with JStr s => s | _ => [] end.

Definition action_callbacks (mounted : list ActionRouteBinding) : gmap jstr token :=
  fold_left (fun callbacks b => <[entry_identity (binding_entry b) := binding_callback b]> callbacks) mounted ∅.

Definition make (input : list token) (s : store) : run (Completion token * store) :=
  run! c := mount s input ∅ [] in
  Done match c with
       | domain f => (domain f, s)
       | standard f => (standard f, s)
       | ok (table, []) => let '(t, s) := opaque_router s (mkRouter table None) in (ok t, s)
       | ok (table, mounted) =>
           match compileActionRoutes (JArray (binding_entry <$> mounted)) with
           | inl issue => (issue_error issue, s)
           | inr compiled =>
               match static_overlap table (routes compiled) with
               | Some (m, p) =>
                   (router_error (duplicate_type types) [("method"%string, m); ("path"%string, p)], s)
               | None =>
                   let '(t, s) := opaque_router s
                     (mkRouter table (Some (compiled, action_callbacks mounted))) in
                   (ok t, s)
               end
           end
       end.
End construction.

(** ** Dispatch *)

Record Snapshot : Type := mkSnapshot {
  snap_method : jstr;
  snap_path : jstr;
  rawPath : jstr;
  headers : list (jstr * jstr)
}.

Definition generationHeaderName : jstr := js "can-generation".

(** What happens to the request while it is dispatched, in order. *)
Inductive event : Type :=
| Noted (source : jstr)
| Invoked (callback : token) (captures : list ActionRouteCapture)
| Abandoned
| Revoked.

(** Responses of the router itself, and those of a handler's value. *)
Inductive reply (V : Type) : Type :=
| Fixed (status : Z) (allow : jstr)
| GenerationMismatch (generation : jstr)
| Upgraded
| NativeResponse (value : V) (head : bool).
Arguments Fixed {V} status allow.
Arguments GenerationMismatch {V} generation.
Arguments Upgraded {V}.
Arguments NativeResponse {V} value head.

(** [text.split(", ")] *)
Fixpoint split_comma (s : jstr) : list jstr :=
  match s with
  | 44%N :: 32%N :: rest => [] :: split_comma rest
  | c :: rest =>
      match split_comma rest with
      | p :: ps => (c :: p) :: ps
      | [] => [[c]]
      end
  | [] => [[]]
  end.

Section dispatching.
(** The completion of a mounted callback on this request, and whether it
    upgraded the request. *)
Context {V : Type} (handler : token -> list ActionRouteCapture -> Completion V * bool).

Definition rejected (response : reply V) : run (Completion (reply V)) * list event :=
  (Done (ok response), [Abandoned; Revoked]).

(** The [try] block around a mounted callback, with its [finally]. *)
Definition serve (note : jstr) (callback : token) (captures : list ActionRouteCapture) (m : jstr)
    : run (Completion (reply V)) * list event :=
  let '(completed, upgraded) := handler callback captures in
  (Done (completion_bind completed (fun value =>
     ok (if upgraded : bool then Upgraded else NativeResponse value (bool_decide (m = js "HEAD"))))),
   [Noted note; Invoked callback captures; Abandoned]).

(** [headers.find(([name]) => name === key)?.[1]] *)
Definition header (hs : list (jstr * jstr)) (key : jstr) : option jstr :=
  snd <$> find (fun h => bool_decide (h.1 = key)) hs.

(** The names of the methods of [methods], then those of [allow] not among them. *)
Definition method_names (methods : option (gmap jstr Route)) : list jstr :=
  match methods with Some m => (map_to_list m).*1 | None => [] end.

Definition invalidActionRoute : StandardFailure := mkStandard native_exception "invalid compiler action route" origin.

Definition dispatch (s : store) (router : token) (snapshot : Snapshot) (generation : option jstr)
    : run (Completion (reply V)) * list event :=
  match read (router_tokens s) router with
  | Thrown f => (Thrown f, [])
  | Done table =>
      let methods := exact table !! snap_path snapshot in
      match methods ≫= (fun ms => ms !! snap_method snapshot) with
      | Some route =>
          serve (js "route:" ++ method_text (route_method route) ++ js " " ++ source route)
            (callback route) [] (snap_method snapshot)
      | None =>
          match actions table with
          | None =>
              rejected match methods with
                       | None => Fixed 404 []
                       | Some _ => Fixed 405 (intersperse (js ", ") (sort_strings (method_names methods)))
                       end
          | Some (compiled, callbacks) =>
              match actionTargetSegments (JStr (rawPath snapshot)) with
              | None => rejected (Fixed 400 [])
              | Some _ =>
                  match matchActionRoute compiled (snap_method snapshot) (JStr (rawPath snapshot)) with
                  | Match id captures md =>
                      match callbacks !! id with
                      | None => (Thrown invalidActionRoute, [])
                      | Some callback =>
                          let note := js "action:" ++ id in
                          match generation with
                          | Some g =>
                              if negb (bool_decide (md = mode_document))
                                 && negb (bool_decide (header (headers snapshot) generationHeaderName = Some g))
                              then (Done (ok (GenerationMismatch g)), [Noted note; Abandoned; Revoked])
                              else serve note callback captures (snap_method snapshot)
                          | None => serve note callback captures (snap_method snapshot)
                          end
                      end
                  | BadRequest => rejected (Fixed 400 [])
                  | MethodNotAllowed allow =>
                      rejected (Fixed 405 (intersperse (js ", ")
                        (sort_strings (fold_left (fun l m => add_foreign m l) (split_comma allow)
                           (method_names methods)))))
                  | NotFound =>
                      rejected match method_names methods with
                               | [] => Fixed 404 []
                               | names => Fixed 405 (intersperse (js ", ") (sort_strings names))
                               end
                  end
              end
          end
      end
  end.
End dispatching.

Inductive route_kind : Type := stream_kind | buffered_kind.

Definition routeKind (s : store) (router : token) (m path : jstr) : run (option route_kind) :=
  run! table := read (router_tokens s) router in
  Done ((fun route => if stream route then stream_kind else buffered_kind)
          <$> exact_route (exact table) path m).

Definition routerActionKeys (s : store) (router : token) : run (list jstr) :=
  run! table := read (router_tokens s) router in
  Done match actions table with
       | None => []
       | Some (compiled, _) => bunRouteKeys compiled
       end.
