(* ===== verification/RouterTheorems.v ===== *)
(** * What the router guarantees

    Construction keeps exactly the mounted routes and refuses conflicts; a
    dispatch of a constructed router always answers, runs at most one handler,
    and only the one its table names. *)
From stdpp Require Import base sets gmap list strings.
From Stdlib Require Import ZArith Lia.
From S2P Require Import Prelude JsString JsValue Completion Uri ActionRoutes.
From S2P Require Import Router ActionRoutesTheorems.

(** ** Construction *)

(** The exact route a mounted token stands for. *)
Definition mounted_route (s : store) (t : token) : option Route :=
  match action_bindings s !! t with Some _ => None | None => route_tokens s !! t end.

Definition mounted_routes (s : store) (input : list token) : list Route := omap (mounted_route s) input.

Definition mounted_bindings (s : store) (input : list token) : list ActionRouteBinding :=
  omap (fun t => action_bindings s !! t) input.

Definition at_key (r : Route) (p m : jstr) : Prop := path r = p /\ method_text (route_method r) = m.

Lemma exact_route_set table r p m :
  exact_route (set_exact table r) p m =
  if decide (at_key r p m) then Some r else exact_route table p m.
Proof.
  unfold exact_route, set_exact, at_key. destruct (decide (path r = p)) as [<-|Hp].
  - rewrite lookup_insert_eq. cbn. destruct (decide (method_text (route_method r) = m)) as [<-|Hm].
    + rewrite decide_True, lookup_insert_eq by done. done.
    + rewrite decide_False, lookup_insert_ne by tauto. by destruct (table !! path r).
  - rewrite decide_False, lookup_insert_ne by tauto. done.
Qed.

Section with_types.
Context (types : RouterTypes).

(** What the loop over the mounted values keeps. *)
Lemma mount_ok s input table mounted table' mounted' :
  mount types s input table mounted = Done (ok (table', mounted')) ->
  mounted' = mounted ++ mounted_bindings s input /\
  (forall p m r, exact_route table' p m = Some r <->
     exact_route table p m = Some r \/ (r ∈ mounted_routes s input /\ at_key r p m)) /\
  (forall r, r ∈ mounted_routes s input -> exact_route table (path r) (method_text (route_method r)) = None).
Proof.
  revert table mounted. induction input as [|t rest IH]; intros table mounted H; cbn in H.
  { injection H as <- <-. cbn. rewrite app_nil_r. split_and!; [done | |].
    - intros p m r. split; [by left | intros [?|[Hr _]]; [done | by apply not_elem_of_nil in Hr]].
    - intros r Hr. by apply not_elem_of_nil in Hr. }
  unfold mounted_bindings, mounted_routes, mounted_route. cbn.
  destruct (action_bindings s !! t) as [b|] eqn:Hb.
  { apply IH in H as (-> & H1 & H2). by rewrite <- app_assoc. }
  unfold read in H. destruct (route_tokens s !! t) as [route|]; [| done]. cbn in H.
  destruct (exact_route table (path route) _) as [previous|] eqn:Hprev.
  { by destruct (bool_decide _). }
  apply IH in H as (-> & H1 & H2). split_and!; [done | |].
  - intros p m r. rewrite H1, exact_route_set. split.
    + intros [He|[Hr Hk]]; [| right; split; [by right | done]].
      case_decide; [simplify_eq; right; split; [by left | done] | by left].
    + intros [He|[[->|Hr]%elem_of_cons Hk]].
      * left. case_decide as Hk; [| done]. destruct Hk as [<- <-]. congruence.
      * left. by rewrite decide_True.
      * by right.
  - intros r [->|Hr]%elem_of_cons; [done |]. specialize (H2 r Hr). rewrite exact_route_set in H2.
    by case_decide.
Qed.

(** No path is listed without a method. *)
Definition nonempty_table (table : exact_table) : Prop :=
  forall p methods, table !! p = Some methods -> methods <> ∅.

Lemma mount_nonempty s input table mounted table' mounted' :
  nonempty_table table -> mount types s input table mounted = Done (ok (table', mounted')) ->
  nonempty_table table'.
Proof.
  revert table mounted. induction input as [|t rest IH]; intros table mounted Hn H; cbn in H; [by simplify_eq |].
  destruct (action_bindings s !! t) as [b|]; [by eapply IH |].
  unfold read in H. destruct (route_tokens s !! t) as [route|]; [| done]. cbn in H.
  destruct (exact_route table (path route) _); [by destruct (bool_decide _) |].
  eapply IH; [| exact H]. intros p methods Hp. unfold set_exact in Hp.
  destruct (decide (path route = p)) as [<-|Hne].
  - rewrite lookup_insert_eq in Hp. injection Hp as <-. apply insert_non_empty.
  - rewrite lookup_insert_ne in Hp by done. by apply (Hn p).
Qed.

(** Two mounted routes with one method and path. *)
Definition conflict (table : exact_table) (rs : list Route) (previous route : Route) : Prop :=
  route ∈ rs /\ at_key previous (path route) (method_text (route_method route)) /\
  (exact_route table (path route) (method_text (route_method route)) = Some previous \/ previous ∈ rs).

Lemma mount_domain s input table mounted f :
  (forall p m r, exact_route table p m = Some r -> at_key r p m) ->
  mount types s input table mounted = Done (domain f) ->
  exists previous route, conflict table (mounted_routes s input) previous route /\
    df_type f = if bool_decide (source previous = source route) then duplicate_type types else ambiguous_type types.
Proof.
  revert table mounted. induction input as [|t rest IH]; intros table mounted Hkey H; cbn in H; [done |].
  unfold mounted_routes, mounted_route. cbn. destruct (action_bindings s !! t) as [b|] eqn:Hb.
  { by eapply IH. }
  unfold read in H. destruct (route_tokens s !! t) as [route|]; [| done]. cbn in H.
  destruct (exact_route table (path route) _) as [previous|] eqn:Hprev.
  - exists previous, route. split; [split_and!; [by left | by apply Hkey | by left] |].
    destruct (bool_decide _); by injection H as <-.
  - apply IH in H as (previous & r & (Hr & Hk & Hp) & Hf).
    + exists previous, r. split; [| done]. split_and!; [by right | done |].
      rewrite exact_route_set in Hp. destruct Hp as [Hp|Hp]; [| right; by right].
      case_decide; [injection Hp as ->; right; by left | by left].
    + intros p m r Hr. rewrite exact_route_set in Hr. case_decide as Hk; [by simplify_eq | auto].
Qed.

(** The path of a route without captures is taken by no exact route. *)
Lemma static_overlap_none table rs route p :
  static_overlap table rs = None -> route ∈ rs -> static_path route = Some p ->
  exact_route table p (method route) = None.
Proof.
  induction rs as [|r rs IH]; intros H Hr Hp; [by apply not_elem_of_nil in Hr |].
  cbn in H. apply elem_of_cons in Hr as [<-|Hr].
  - rewrite Hp in H. by destruct (exact_route table p (method route)).
  - apply IH; [| done..]. repeat (case_hyp H; try done).
Qed.

Lemma static_overlap_some table rs m p :
  static_overlap table rs = Some (m, p) ->
  exists route r, route ∈ rs /\ static_path route = Some p /\ m = method route /\
    exact_route table p (method route) = Some r.
Proof.
  induction rs as [|c rs IH]; [done |]. intros Ho. cbn in Ho.
  assert (static_overlap table rs = Some (m, p) \/ exists q r, static_path c = Some q /\
    exact_route table q (method c) = Some r /\ (m, p) = (method c, q)) as [H|(q & r & Hq & Hr & [= -> ->])].
  { destruct (static_path c) as [q|]; [| by left].
    destruct (exact_route table q (method c)) as [r|] eqn:Hr; [| by left]. injection Ho as <- <-.
    right. by exists q, r. }
  - destruct (IH H) as (route & r & ? & ?). exists route, r. by split; [right |].
  - exists c, r. by split; [left |].
Qed.

Lemma action_callbacks_some mounted id :
  is_Some (action_callbacks mounted !! id) <-> id ∈ (entry_identity ∘ binding_entry <$> mounted).
Proof.
  unfold action_callbacks. induction mounted as [|b mounted IH] using rev_ind.
  - cbn. rewrite lookup_empty. split; [by intros [? ?] | intros H; by apply not_elem_of_nil in H].
  - rewrite fold_left_app, fmap_app, elem_of_app. cbn [fold_left fmap list_fmap].
    rewrite list_elem_of_singleton. cbn. destruct (decide (entry_identity (binding_entry b) = id)) as [<-|Hne].
    + rewrite lookup_insert_eq. split; [by right | by eexists].
    + rewrite lookup_insert_ne by done. rewrite IH. split; [by left | intros [?|?]; [done | congruence]].
Qed.

Lemma action_callbacks_in mounted id c :
  action_callbacks mounted !! id = Some c ->
  exists b, b ∈ mounted /\ entry_identity (binding_entry b) = id /\ binding_callback b = c.
Proof.
  unfold action_callbacks. induction mounted as [|b mounted IH] using rev_ind; [by cbn; rewrite lookup_empty |].
  rewrite fold_left_app. cbn. destruct (decide (entry_identity (binding_entry b) = id)) as [<-|Hne].
  - rewrite lookup_insert_eq. intros [= <-]. exists b. split_and!; [| done..].
    apply elem_of_app. right. by apply list_elem_of_singleton.
  - rewrite lookup_insert_ne by done. intros (b' & Hb & ?)%IH. exists b'. split; [| done].
    apply elem_of_app. by left.
Qed.

(** The identity of a compiled route is that of its entry. *)
Lemma compileRoute_identity entry route :
  compileRoute entry = inr route -> identity route = entry_identity entry.
Proof.
  unfold compileRoute, entry_identity. destruct (negb (is_object entry)); [done |]. intros H.
  destruct (property entry (js "identity")); try done. do 3 (case_hyp H; try done). by inv_routed.
Qed.

Lemma compiled_identities items table route :
  compileActionRoutes (JArray items) = inr table -> route ∈ routes table ->
  identity route ∈ entry_identity <$> items.
Proof.
  cbn. intros H Hr. inv_routed. destruct (collisions _); [done |]. inv_routed. cbn in Hr.
  match goal with H : map_routed _ _ = _ |- _ => apply map_routed_forall in H as Hf end. clear -Hf Hr.
  induction Hf as [|e r es rs He _ IH]; [by apply not_elem_of_nil in Hr |].
  apply elem_of_cons in Hr as [->|Hr]; [| right; by apply IH].
  cbn. rewrite (compileRoute_identity _ _ He). left.
Qed.
End with_types.

#[local] Arguments compileActionRoutes : simpl never.

(** What [make] promises of a router it returns. *)
Definition constructed (s : store) (input : list token) (table : Router) : Prop :=
  (forall p m r, exact_route (exact table) p m = Some r <-> r ∈ mounted_routes s input /\ at_key r p m) /\
  nonempty_table (exact table) /\
  match actions table with
  | None => mounted_bindings s input = []
  | Some (compiled, callbacks) =>
      compileActionRoutes (JArray (binding_entry <$> mounted_bindings s input)) = inr compiled /\
      (forall route p, route ∈ routes compiled -> static_path route = Some p ->
         exact_route (exact table) p (method route) = None) /\
      forall route, route ∈ routes compiled ->
        exists b, b ∈ mounted_bindings s input /\ entry_identity (binding_entry b) = identity route /\
          callbacks !! identity route = Some (binding_callback b)
  end.

Lemma action_callbacks_total mounted compiled route :
  compileActionRoutes (JArray (binding_entry <$> mounted)) = inr compiled -> route ∈ routes compiled ->
  exists b, b ∈ mounted /\ entry_identity (binding_entry b) = identity route /\
    action_callbacks mounted !! identity route = Some (binding_callback b).
Proof.
  intros Hc Hr. pose proof (compiled_identities _ _ _ Hc Hr) as Hid.
  rewrite <- list_fmap_compose in Hid. apply action_callbacks_some in Hid as [c Hc'].
  pose proof (action_callbacks_in _ _ _ Hc') as (b & ? & ? & <-). by exists b.
Qed.

Lemma make_constructed types input s t s' :
  make types input s = Done (ok t, s') ->
  exists table, router_tokens s' !! t = Some table /\ constructed s input table.
Proof.
  unfold make. destruct (mount types s input ∅ []) as [[[table mounted]| |]|] eqn:Hm; cbn; try done.
  destruct (mount_ok types _ _ _ _ _ _ Hm) as (Hb & Hx & _). cbn in Hb.
  assert (nonempty_table table) as Hne.
  { eapply mount_nonempty; [| exact Hm]. intros p ms Hp. by rewrite lookup_empty in Hp. }
  assert (forall p m r, exact_route table p m = Some r <-> r ∈ mounted_routes s input /\ at_key r p m) as Hexact.
  { intros p m r. rewrite Hx. unfold exact_route. rewrite lookup_empty. cbn. naive_solver. }
  destruct mounted as [|b mounted].
  - intros [= <- <-]. eexists. split; [apply lookup_insert_eq |]. by split_and!.
  - destruct (compileActionRoutes _) as [issue|compiled] eqn:Hc; [by destruct issue |].
    destruct (static_overlap table (routes compiled)) as [[? ?]|] eqn:Ho; [done |].
    intros [= <- <-]. eexists. split; [apply lookup_insert_eq |]. split; [done |]. split; [done |]. cbn.
    rewrite <- Hb. split_and!; [done | |].
    + intros route p Hr Hp. by eapply static_overlap_none.
    + intros route Hr. by eapply action_callbacks_total.
Qed.

(** A constructed router holds exactly the exact routes that were mounted,
    each under its decoded path and method, and the compiled table of the mounted
    actions: an action route without captures shares its method and path with no
    exact route, and every compiled identity has the callback of a binding that
    was mounted under it. *)
Theorem router_construction (types : RouterTypes) (input : list token) (s s' : store) (t : token)
    (H : make types input s = Done (ok t, s')) :
  exists table, router_tokens s' !! t = Some table /\ constructed s input table /\
    (forall u r, router_tokens s !! u = Some r -> u <> t -> router_tokens s' !! u = Some r).
Proof.
  destruct (make_constructed _ _ _ _ _ H) as (table & Ht & Hc). exists table. split_and!; [done..|].
  intros u r Hu Hne. unfold make in H. destruct (mount _ _ _ _ _) as [[[? []]| |]|]; cbn in H; try done.
  - injection H as <- <-. cbn. by rewrite lookup_insert_ne.
  - destruct (compileActionRoutes _) as [[]|]; try done. destruct (static_overlap _ _) as [[]|]; [done |].
    injection H as <- <-. cbn. by rewrite lookup_insert_ne.
Qed.

(** [make] fails only for a reason: two mounted routes with one method and
    path — the duplicate failure when their sources are equal too, the ambiguous
    one otherwise —, an issue of the action table, or an action route without
    captures that repeats an exact route; a failure changes no token. *)
Theorem router_refusals (types : RouterTypes) (input : list token) (s s' : store) (f : DomainFailure)
    (H : make types input s = Done (domain f, s')) :
  s' = s /\
  ((exists previous route, previous ∈ mounted_routes s input /\ route ∈ mounted_routes s input /\
      at_key previous (path route) (method_text (route_method route)) /\
      df_type f = if bool_decide (source previous = source route) then duplicate_type types
                  else ambiguous_type types) \/
   (exists issue, compileActionRoutes (JArray (binding_entry <$> mounted_bindings s input)) = inl issue /\
      (domain f : Completion token) = issue_error types issue) \/
   (exists compiled route r p,
      compileActionRoutes (JArray (binding_entry <$> mounted_bindings s input)) = inr compiled /\
      route ∈ routes compiled /\ static_path route = Some p /\
      r ∈ mounted_routes s input /\ at_key r p (method route) /\ df_type f = duplicate_type types)).
Proof.
  unfold make in H. destruct (mount types s input ∅ []) as [[[table mounted]|g|]|] eqn:Hm; cbn in H; try done.
  - destruct (mount_ok types _ _ _ _ _ _ Hm) as (Hb & Hx & _). cbn in Hb. subst mounted.
    destruct (mounted_bindings s input) as [|b bs] eqn:Hbs; [done |].
    destruct (compileActionRoutes _) as [issue|compiled] eqn:Hc.
    + injection H as Hi <-. split; [done |]. right. left. by exists issue.
    + destruct (static_overlap table (routes compiled)) as [[m p]|] eqn:Ho; [| done].
      injection H as <- <-. split; [done |]. right. right.
      destruct (static_overlap_some _ _ _ _ Ho) as (route & r & Hr & Hp & -> & Hex).
      exists compiled, route, r, p. apply Hx in Hex. unfold exact_route in Hex. rewrite lookup_empty in Hex.
      destruct Hex as [?|[? ?]]; [done |]. done.
  - injection H as <- <-. split; [done |]. left.
    assert (forall p m r, exact_route ∅ p m = Some r -> at_key r p m) as Hempty
      by (intros p m r; unfold exact_route; by rewrite lookup_empty).
    destruct (mount_domain types _ _ _ _ _ Hempty Hm)
      as (previous & route & (Hr & Hk & Hp) & Hf).
    exists previous, route. unfold exact_route in Hp. rewrite lookup_empty in Hp.
    destruct Hp as [Hp|Hp]; [done |]. done.
Qed.

(** ** Dispatch *)

Section dispatch_facts.
Context {V : Type} (handler : token -> list ActionRouteCapture -> Completion V * bool).

(** The handler a dispatch may run: the exact route's, or that of the action
    whose route covers every other that fits the path, for the generation the
    server is pinned to. *)
Definition admitted (s : store) (input : list token) (table : Router) (snapshot : Snapshot)
    (generation : option jstr) (callback : token) (captures : list ActionRouteCapture) : Prop :=
  (exists route, route ∈ mounted_routes s input /\ at_key route (snap_path snapshot) (snap_method snapshot) /\
     callback = Router.callback route /\ captures = []) \/
  (exact_route (exact table) (snap_path snapshot) (snap_method snapshot) = None /\
   exists compiled callbacks target route b,
     actions table = Some (compiled, callbacks) /\ decodeSegments (rawPath snapshot) = Some target /\
     fits_own (snap_method snapshot) target (routes compiled) route captures /\
     (forall r c, fits_own (snap_method snapshot) target (routes compiled) r c -> r = route \/ covers route r = true) /\
     b ∈ mounted_bindings s input /\ entry_identity (binding_entry b) = identity route /\
     callback = binding_callback b /\
     (generation = None \/ mode route = mode_document \/
      header (headers snapshot) generationHeaderName = generation)).

(** The two shapes of a dispatch. *)
Definition served (out : run (Completion (reply V)) * list event) (callback : token)
    (captures : list ActionRouteCapture) : Prop :=
  exists note, out.2 = [Noted note; Invoked callback captures; Abandoned] /\
    exists up head, out.1 = Done (completion_bind (handler callback captures).1 (fun value =>
      ok (if up : bool then Upgraded else NativeResponse value head))).

Definition turned_away (out : run (Completion (reply V)) * list event) : Prop :=
  (exists status allow, out.1 = Done (ok (Fixed status allow)) /\ out.2 = [Abandoned; Revoked]) \/
  (exists g note, out.1 = Done (ok (GenerationMismatch g)) /\ out.2 = [Noted note; Abandoned; Revoked]).

Lemma serve_served note callback captures m : served (serve handler note callback captures m) callback captures.
Proof.
  unfold serve. destruct (handler callback captures) as [completed upgraded] eqn:Hh.
  exists note. split; [done |]. exists upgraded, (bool_decide (m = js "HEAD")). by rewrite Hh.
Qed.

Lemma rejected_away (status : Z) (allow : jstr) : turned_away (rejected (Fixed status allow)).
Proof. left. by exists status, allow. Qed.

Lemma match_answers items compiled m path target :
  compileActionRoutes (JArray items) = inr compiled -> decodeSegments path = Some target ->
  Forall route_ok (routes compiled) /\
  answers (routes compiled) target m (matchActionRoute compiled m (JStr path)).
Proof.
  intros Hc Hd. destruct (compileActionRoutes_ok _ _ Hc) as [Hok Hu]. split; [done |].
  unfold matchActionRoute. rewrite Hd. by apply dispatch_answers.
Qed.
End dispatch_facts.

Lemma dispatch_exact {V} (handler : token -> list ActionRouteCapture -> Completion V * bool)
    s t table snapshot generation route :
  router_tokens s !! t = Some table ->
  exact_route (exact table) (snap_path snapshot) (snap_method snapshot) = Some route ->
  exists note, dispatch handler s t snapshot generation = serve handler note (callback route) [] (snap_method snapshot).
Proof.
  intros Ht He. unfold dispatch, read. rewrite Ht. unfold exact_route in He.
  destruct (exact table !! snap_path snapshot) as [ms|]; [| done]. cbn in He |- *. rewrite He. by eexists.
Qed.

(** The handler of a match, when the generation agrees. *)
Lemma serve_or_mismatch {V} (handler : token -> list ActionRouteCapture -> Completion V * bool)
    note cb captures m md hs (generation : option jstr) (P : Prop) :
  (generation = None \/ md = mode_document \/ header hs generationHeaderName = generation -> P) ->
  let out := match generation with
             | Some g =>
                 if negb (bool_decide (md = mode_document))
                    && negb (bool_decide (header hs generationHeaderName = Some g))
                 then (Done (ok (GenerationMismatch g)), [Noted note; Abandoned; Revoked])
                 else serve handler note cb captures m
             | None => serve handler note cb captures m
             end in
  (P /\ served handler out cb captures) \/ turned_away out.
Proof.
  intros HP out. subst out. destruct generation as [g|]; [| left; split; [by apply HP; left | apply serve_served]].
  destruct (bool_decide_reflect (md = mode_document)); cbn [negb andb];
    [left; split; [apply HP; auto | apply serve_served] |].
  destruct (bool_decide_reflect (header hs generationHeaderName = Some g)); cbn [negb andb];
    [left; split; [apply HP; auto | apply serve_served] |].
  right. right. by exists g, note.
Qed.

(** C15. On a router that [make] returned, every dispatch answers: it either runs
    exactly one handler, an admitted one, on the captures of the path, and then
    abandons the request, or it runs none, answers a fixed response and revokes
    the request.  No handler sees a target that does not decode or captures that
    are not of its types, and a pinned server lets only requests of its own
    generation through to JSON and form actions. *)
Theorem dispatch_guarded {V : Type} (handler : token -> list ActionRouteCapture -> Completion V * bool)
    (types : RouterTypes) (input : list token) (s s' : store) (t : token) (table : Router)
    (snapshot : Snapshot) (generation : option jstr)
    (Hm : make types input s = Done (ok t, s')) (Ht : router_tokens s' !! t = Some table) :
  let out := dispatch handler s' t snapshot generation in
  (exists callback captures,
     admitted s input table snapshot generation callback captures /\ served handler out callback captures)
  \/ turned_away out.
Proof.
  destruct (make_constructed _ _ _ _ _ Hm) as (table' & Ht' & Hx & _ & Ha). simplify_eq. intros out. subst out.
  destruct (exact_route (exact table) (snap_path snapshot) (snap_method snapshot)) as [route|] eqn:He.
  { destruct (dispatch_exact handler s' t table snapshot generation route Ht He) as [note ->].
    left. exists (callback route), []. split; [| apply serve_served]. left.
    exists route. apply Hx in He as [? ?]. done. }
  unfold dispatch, read. rewrite Ht. pose proof He as He'. unfold exact_route in He'. rewrite He'.
  destruct (actions table) as [[compiled callbacks]|] eqn:Hact; [| right; case_match; apply rejected_away].
  destruct Ha as (Hc & _ & Hcb). unfold actionTargetSegments.
  destruct (decodeSegments (rawPath snapshot)) as [target|] eqn:Hd; [| right; apply rejected_away]. cbn [fmap option_fmap option_map].
  destruct (match_answers _ _ (snap_method snapshot) _ _ Hc Hd) as [_ Hans].
  inversion Hans as [route captures Hfit Hcov Heq|? ? Heq|? ? Heq|? Heq]; try (right; by (case_match || idtac); apply rejected_away).
  destruct (Hcb route (proj1 Hfit)) as (b & Hb & Hid & Hlook). rewrite Hlook.
  destruct (serve_or_mismatch handler (js "action:" ++ identity route) (binding_callback b) captures
    (snap_method snapshot) (mode route) (headers snapshot) generation
    (admitted s input table snapshot generation (binding_callback b) captures)) as [[H1 H2]|H]; [| | by right].
  - intros Hg. right. split; [done |]. exists compiled, callbacks, target, route, b. split_and!; done.
  - left. by exists (binding_callback b), captures.
Qed.

(** ** The status of a request no handler serves *)

Lemma allowed_cases rs target m :
  allowed rs target m <> [] -> split_comma (intersperse (js ", ") (allowed rs target m)) = allowed rs target m.
Proof.
  unfold allowed. rewrite !filter_cons, filter_nil. intros H.
  repeat case_decide; first [done | vm_compute; reflexivity].
Qed.

Lemma elem_of_allowed rs target m x :
  Forall route_ok rs -> ~ offers rs target m -> x ∈ allowed rs target m <-> offers rs target x.
Proof.
  intros Hok Hm. unfold allowed. rewrite list_elem_of_filter. split; [by intros [[_ ?] _] |].
  intros Ho. pose proof Ho as (r & Hr & <- & _). split; [split; [by intros <- | done] |].
  rewrite Forall_forall in Hok. destruct (ok_method _ (Hok _ Hr)) as [->| ->]; set_solver.
Qed.

Lemma fold_add_foreign ms l x : x ∈ fold_left (fun l m => add_foreign m l) ms l <-> x ∈ l \/ x ∈ ms.
Proof.
  revert l. induction ms as [|m ms IH]; intros l; cbn; [set_solver |].
  rewrite IH, add_foreign_spec. set_solver.
Qed.

Lemma fold_add_foreign_nodup ms l : NoDup l -> NoDup (fold_left (fun l m => add_foreign m l) ms l).
Proof. revert l. induction ms as [|m ms IH]; intros l H; [done |]. cbn. by apply IH, add_foreign_nodup. Qed.

Lemma method_names_spec table p x :
  x ∈ method_names (table !! p) <-> is_Some (exact_route table p x).
Proof.
  unfold method_names, exact_route. destruct (table !! p) as [ms|]; cbn.
  - rewrite list_elem_of_fmap. split.
    + intros ([k r] & -> & H%elem_of_map_to_list). by exists r.
    + intros [r Hr]. exists (x, r). split; [done |]. by apply elem_of_map_to_list.
  - split; [intros H; by apply not_elem_of_nil in H | by intros [? ?]].
Qed.

Lemma method_names_nodup methods : NoDup (method_names methods).
Proof. destruct methods as [ms|]; [apply NoDup_fst_map_to_list | constructor]. Qed.

(** Some mounted route offers this method for the path of the request. *)
Definition offered (table : Router) (snapshot : Snapshot) (x : jstr) : Prop :=
  is_Some (exact_route (exact table) (snap_path snapshot) x) \/
  exists compiled callbacks target, actions table = Some (compiled, callbacks) /\
    decodeSegments (rawPath snapshot) = Some target /\ offers (routes compiled) target x.

(** What a fixed answer says of the tables. *)
Definition fixed_answer (table : Router) (snapshot : Snapshot) (status : Z) (allow : jstr) : Prop :=
  exact_route (exact table) (snap_path snapshot) (snap_method snapshot) = None /\
  ((status = 404 /\ forall x, ~ offered table snapshot x) \/
   (status = 405 /\ ~ offered table snapshot (snap_method snapshot) /\
      exists l, allow = intersperse (js ", ") (sort_strings l) /\ NoDup l /\ l <> [] /\
        forall x, x ∈ l <-> offered table snapshot x) \/
   (status = 400 /\ is_Some (actions table) /\
      (decodeSegments (rawPath snapshot) = None \/ offered table snapshot (snap_method snapshot)))).

Lemma fixed_405 table snapshot l :
  exact_route (exact table) (snap_path snapshot) (snap_method snapshot) = None ->
  ~ offered table snapshot (snap_method snapshot) -> NoDup l -> l <> [] ->
  (forall x, x ∈ l <-> offered table snapshot x) ->
  fixed_answer table snapshot 405 (intersperse (js ", ") (sort_strings l)).
Proof. intros He Ho Hn Hne Hl. split; [done |]. right. left. split_and!; [done | done |]. by exists l. Qed.

(** The answer without an action table. *)
Lemma exact_only_answer s input table snapshot :
  constructed s input table -> actions table = None ->
  exact_route (exact table) (snap_path snapshot) (snap_method snapshot) = None ->
  match exact table !! snap_path snapshot with
  | None => fixed_answer table snapshot 404 []
  | Some _ => fixed_answer table snapshot 405
      (intersperse (js ", ") (sort_strings (method_names (exact table !! snap_path snapshot))))
  end.
Proof.
  intros (Hx & Hne & _) Ha He.
  assert (forall x, offered table snapshot x <-> is_Some (exact_route (exact table) (snap_path snapshot) x)) as Ho.
  { intros x. unfold offered. rewrite Ha. naive_solver. }
  destruct (exact table !! snap_path snapshot) as [ms|] eqn:Hms.
  - rewrite <- Hms. apply fixed_405; [done | | apply method_names_nodup | |].
    + rewrite Ho, He. by intros [? ?].
    + rewrite Hms. intros Hn. apply (Hne _ _ Hms). apply map_to_list_empty_iff.
      by apply fmap_nil_inv in Hn.
    + intros y. by rewrite method_names_spec, Ho.
  - split; [done |]. left. split; [done |]. intros x [r Hr]%Ho. unfold exact_route in Hr. by rewrite Hms in Hr.
Qed.

(** The answer with one, from what the action table answered. *)
Lemma union_answer table snapshot compiled callbacks target a :
  actions table = Some (compiled, callbacks) -> decodeSegments (rawPath snapshot) = Some target ->
  exact_route (exact table) (snap_path snapshot) (snap_method snapshot) = None ->
  Forall route_ok (routes compiled) -> answers (routes compiled) target (snap_method snapshot) a ->
  let names := method_names (exact table !! snap_path snapshot) in
  match a with
  | Match _ _ _ => True
  | BadRequest => fixed_answer table snapshot 400 []
  | MethodNotAllowed allow => fixed_answer table snapshot 405 (intersperse (js ", ")
      (sort_strings (fold_left (fun l m => add_foreign m l) (split_comma allow) names)))
  | NotFound => if decide (names = []) then fixed_answer table snapshot 404 []
                else fixed_answer table snapshot 405 (intersperse (js ", ") (sort_strings names))
  end.
Proof.
  intros Ha Hd He Hok Hans names.
  assert (forall x, offered table snapshot x <-> x ∈ names \/ offers (routes compiled) target x) as Ho.
  { intros x. unfold offered, names. rewrite method_names_spec, Ha, Hd. naive_solver. }
  assert (snap_method snapshot ∉ names) as Hown by (unfold names; rewrite method_names_spec, He; by intros [? ?]).
  destruct Hans as [| Hn Hoff | Hn Hne | Hn]; [done | | |].
  - split; [done |]. right. right. split_and!; [done | by rewrite Ha | right; apply Ho; by right].
  - rewrite allowed_cases by done. apply fixed_405; [done | rewrite Ho; tauto | | |].
    + apply fold_add_foreign_nodup, method_names_nodup.
    + destruct (allowed (routes compiled) target (snap_method snapshot)) as [|x l] eqn:Hl; [done |].
      intros Hf. apply (not_elem_of_nil x). rewrite <- Hf. apply fold_add_foreign. right. by left.
    + intros x. by rewrite fold_add_foreign, Ho, elem_of_allowed.
  - destruct (decide (names = [])) as [Hnil|Hnil].
    + split; [done |]. left. split; [done |]. intros x [Hx|Hx]%Ho; [| by apply (Hn x)].
      rewrite Hnil in Hx. by apply not_elem_of_nil in Hx.
    + apply fixed_405; [done | rewrite Ho; naive_solver | apply method_names_nodup | done |].
      intros x. rewrite Ho. naive_solver.
Qed.

(** The fixed answers of a constructed router: 404 when no table offers the
    path under any method; 405 when other methods are offered but not the
    request's, with the sorted union of the methods of both tables as [Allow],
    each once; 400 when actions are mounted and the target does not decode, or the
    request's own method has the path's shape but refuses it. *)
Theorem fixed_answers {V : Type} (handler : token -> list ActionRouteCapture -> Completion V * bool)
    (types : RouterTypes) (input : list token) (s s' : store) (t : token) (table : Router)
    (snapshot : Snapshot) (generation : option jstr) (status : Z) (allow : jstr)
    (Hm : make types input s = Done (ok t, s')) (Ht : router_tokens s' !! t = Some table)
    (Hout : dispatch handler s' t snapshot generation
            = (Done (ok (Fixed status allow)), [Abandoned; Revoked])) :
  fixed_answer table snapshot status allow.
Proof.
  destruct (make_constructed _ _ _ _ _ Hm) as (table' & Ht' & Hcon). simplify_eq.
  destruct (exact_route (exact table) (snap_path snapshot) (snap_method snapshot)) as [route|] eqn:He.
  { destruct (dispatch_exact handler s' t table snapshot generation route Ht He) as [note Hs].
    rewrite Hs in Hout. unfold serve in Hout. by destruct (handler _ _). }
  unfold dispatch, read in Hout. rewrite Ht in Hout.
  pose proof He as He'. unfold exact_route in He'. rewrite He' in Hout.
  destruct (actions table) as [[compiled callbacks]|] eqn:Hact.
  2:{ pose proof (exact_only_answer _ _ _ _ Hcon Hact He) as H.
      destruct (exact table !! snap_path snapshot); injection Hout as <- <-; done. }
  pose proof Hcon as (_ & _ & Ha). rewrite Hact in Ha. destruct Ha as (Hc & _ & Hcb).
  unfold actionTargetSegments in Hout. destruct (decodeSegments (rawPath snapshot)) as [target|] eqn:Hd.
  2:{ injection Hout as <- <-. split; [done |]. right. right. rewrite Hact. split_and!; [done | done | by left]. }
  cbn [fmap option_fmap option_map] in Hout.
  destruct (match_answers _ _ (snap_method snapshot) _ _ Hc Hd) as [Hok Hans].
  pose proof (union_answer _ _ _ _ _ _ Hact Hd He Hok Hans) as H.
  destruct (matchActionRoute compiled (snap_method snapshot) (JStr (rawPath snapshot))) as [id captures md| | |al].
  - destruct (callbacks !! id); [| done]. unfold serve in Hout. destruct (handler _ _).
    destruct generation; [case_match |]; done.
  - by injection Hout as <- <-.
  - destruct (method_names _) eqn:Hnames; cbn in H; injection Hout as <- <-; done.
  - by injection Hout as <- <-.
Qed.

(** ** A router *)

Definition demo_types : RouterTypes := mkTypes (js "invalid") (js "duplicate") (js "ambiguous").

(** Tokens 0 and 1 are exact routes, 2 a binding of [GET /users/{id}], 3 repeats 0. *)
Definition demo_store : store :=
  mkStore {[ 0%nat := mkExact GET (js "/home") (js "/home") false 10;
             1%nat := mkExact POST (js "/users/7") (js "/users/7") false 11;
             3%nat := mkExact GET (js "/home") (js "/home") false 13 ]}
    {[ 2%nat := mkBinding (entry "show" "GET" "/users/{id}" [("id", "int")]) 12 ]} ∅ 4.

Definition demo_handler (c : token) (captures : list ActionRouteCapture) : Completion token * bool := (ok c, false).

Definition demo_make : run (Completion token * store) := make demo_types [0; 1; 2]%nat demo_store.

Lemma demo_made : exists s', demo_make = Done (ok 4%nat, s').
Proof. eexists. vm_compute. reflexivity. Qed.

Lemma router_construction_witness :
  exists s' table, demo_make = Done (ok 4%nat, s') /\ router_tokens s' !! 4%nat = Some table /\
    constructed demo_store [0; 1; 2]%nat table.
Proof.
  destruct demo_made as [s' Hs']. destruct (router_construction demo_types [0; 1; 2]%nat demo_store s' 4 Hs')
    as (table & H1 & H2 & _). by exists s', table.
Defined.

Lemma router_refusals_witness :
  exists f s', make demo_types [0; 1; 3]%nat demo_store = Done (domain f, s') /\ s' = demo_store.
Proof.
  eexists _, _. split; [vm_compute; reflexivity |].
  refine (proj1 (router_refusals demo_types [0; 1; 3]%nat demo_store _ _ _)). vm_compute. reflexivity.
Defined.

Definition demo_snapshot (m path : string) : Snapshot := mkSnapshot (js m) (js path) (js path) [].

Lemma dispatch_guarded_witness :
  exists s' table, demo_make = Done (ok 4%nat, s') /\ router_tokens s' !! 4%nat = Some table /\
    ((exists callback captures,
        admitted demo_store [0; 1; 2]%nat table (demo_snapshot "GET" "/users/9") None callback captures /\
        served demo_handler (dispatch demo_handler s' 4 (demo_snapshot "GET" "/users/9") None) callback captures)
     \/ turned_away (dispatch demo_handler s' 4 (demo_snapshot "GET" "/users/9") None)).
Proof.
  destruct demo_made as [s' Hs']. destruct (make_constructed _ _ _ _ _ Hs') as (table & Ht & _).
  exists s', table. split_and!; [done.. |].
  exact (dispatch_guarded demo_handler demo_types [0; 1; 2]%nat demo_store s' 4 table
    (demo_snapshot "GET" "/users/9") None Hs' Ht).
Defined.

Lemma fixed_answers_witness :
  exists s' table, demo_make = Done (ok 4%nat, s') /\ router_tokens s' !! 4%nat = Some table /\
    fixed_answer table (demo_snapshot "PUT" "/users/7") 405 (js "GET, POST").
Proof.
  destruct demo_made as [s' Hs']. destruct (make_constructed _ _ _ _ _ Hs') as (table & Ht & _).
  exists s', table. split_and!; [done.. |].
  refine (fixed_answers demo_handler demo_types [0; 1; 2]%nat demo_store s' 4 table
    (demo_snapshot "PUT" "/users/7") None 405 (js "GET, POST") Hs' Ht _).
  clear Ht. vm_compute in Hs'. injection Hs' as <-. vm_compute. reflexivity.
Defined.
