(* ===== verification/Data.v ===== *)
(** * Ordinary data

    The heap of frozen records and arrays that generated code builds, and the
    descriptor-only reads the runtime uses on them, after [src/runtime/data.ts].
    Objects are identities in a store; proxies and accessors are there because
    the reads must refuse them. *)
From stdpp Require Import base gmap list strings.
From Stdlib Require Import ZArith Lia.
From S2P Require Import Prelude JsNumber JsString.

Abbreviation loc := nat.

Inductive value : Type :=
| VUndefined
| VNull
| VBool (b : bool)
| VNum (x : num)
| VBigInt (z : Z)
| VStr (s : jstr)
| VRef (l : loc).

#[global] Instance num_eq_dec : EqDecision num.
Proof. intros x y. unfold Decision. repeat decide equality. Defined.

(** [Object.is] *)
#[global] Instance value_eq_dec : EqDecision value.
Proof. solve_decision. Defined.

(** [nominal] is the symbol of the module. *)
Inductive key : Type := KStr (s : jstr) | nominal.

#[global] Instance key_eq_dec : EqDecision key.
Proof. solve_decision. Defined.

(** A property with [value], or one with a getter. *)
Inductive descriptor : Type := DataProp (v : value) | Accessor.

Record object : Type := mkObject {
  is_array : bool;
  is_function : bool;
  is_proxy : bool;
  frozen : bool;
  props : list (key * descriptor)
}.

(** The objects of the program and the two weak maps of the module. *)
Record heap : Type := mkHeap {
  objects : gmap loc object;
  nominalRecords : gmap loc jstr;
  opaqueChildren : gmap loc (list value);
  fresh : loc
}.

(** ** Reads *)

(** [isHostProxy] of the host, then [Reflect.ownKeys]. *)
Definition data_object (h : heap) (v : value) : res object :=
  match v with
  | VRef l =>
      match objects h !! l with
      | Some o => if is_function o || is_proxy o then Throw "expected non-proxy data object" else Ret o
      | None => Throw "expected non-proxy data object"
      end
  | _ => Throw "expected non-proxy data object"
  end.

Definition dataKeys (h : heap) (v : value) : res (list key) :=
  let! o := data_object h v in Ret (props o).*1.

Definition find_prop (ps : list (key * descriptor)) (k : key) : option descriptor :=
  snd <$> find (fun p => bool_decide (p.1 = k)) ps.

Definition dataProperty (h : heap) (v : value) (k : key) : res value :=
  let! o := data_object h v in
  match find_prop (props o) k with
  | Some (DataProp x) => Ret x
  | _ => Throw "expected own data property"
  end.

(** [String(index)] *)
Definition index_key (i : nat) : key := KStr (dec_of_N (N.of_nat i)).

Definition length_key : key := KStr (js "length").

(** The [length] of an array is always a number. *)
Definition array_length (v : value) : option nat :=
  match v with
  | VNum x => match safe_integer x with Some z => if 0 <=? z then Some (Z.to_nat z) else None | None => None end
  | _ => None
  end.

Definition dataArray (h : heap) (v : value) : res (list value) :=
  let! o := data_object h v in
  if negb (is_array o) then Throw "expected data array"
  else
    let! len := dataProperty h v length_key in
    match array_length len with
    | Some n =>
        if negb (bool_decide (length (props o) = S n)) then Throw "expected dense data array"
        else map_res (fun i => dataProperty h v (index_key i)) (seq 0 n)
    | None => Throw "expected dense data array"
    end.

Definition recordIdentity (h : heap) (v : value) : option jstr :=
  match v with VRef l => nominalRecords h !! l | _ => None end.

(** ** Construction *)

Definition alloc (h : heap) (o : object) (identity : option jstr) : value * heap :=
  (VRef (fresh h),
   mkHeap (<[fresh h := o]> (objects h))
     (match identity with
      | Some id => <[fresh h := id]> (nominalRecords h)
      | None => nominalRecords h
      end) (opaqueChildren h) (S (fresh h))).

(** [Object.defineProperty] for each field: a repeated name is refused unless its
    value is the same, because the first definition is not configurable. *)
Fixpoint define_fields (fields : list (jstr * value)) (ps : list (key * descriptor)) : res (list (key * descriptor)) :=
  match fields with
  | [] => Ret ps
  | (name, v) :: rest =>
      match find_prop ps (KStr name) with
      | None => define_fields rest (ps ++ [(KStr name, DataProp v)])
      | Some (DataProp w) =>
          if bool_decide (v = w) then define_fields rest ps else Throw "Cannot redefine property"
      | Some Accessor => Throw "Cannot redefine property"
      end
  end.

Definition record (h : heap) (identity : jstr) (fields : list (jstr * value)) : res (value * heap) :=
  let! ps := define_fields fields [(nominal, DataProp (VStr identity))] in
  Ret (alloc h (mkObject false false false true ps) (Some identity)).

(** Replace the value of a name, or add it at the end. *)
Fixpoint put (ps : list (key * descriptor)) (k : key) (d : descriptor) : list (key * descriptor) :=
  match ps with
  | [] => [(k, d)]
  | (k', d') :: rest => if bool_decide (k' = k) then (k, d) :: rest else (k', d') :: put rest k d
  end.

(** [update(original, replacements)] of an ordinary record, whose properties are
    data properties. *)
Definition update (h : heap) (original : value) (replacements : list (jstr * value)) : res (value * heap) :=
  match recordIdentity h original with
  | None | Some [] => Throw "invalid ordinary record"
  | Some identity =>
      let! o := data_object h original in
      let ps := fold_left (fun ps r => put ps (KStr r.1) (DataProp r.2)) replacements (props o) in
      Ret (alloc h (mkObject false false false true ps) (Some identity))
  end.

(** A fresh array literal, frozen. *)
Definition array (h : heap) (elements : list value) : value * heap :=
  alloc h (mkObject true false false true
    (imap (fun i v => (index_key i, DataProp v)) elements
       ++ [(length_key, DataProp (VNum (num_of_Z (Z.of_nat (length elements)))))])) None.

Definition registerOpaqueContents (h : heap) (l : loc) (values : list value) : res heap :=
  match opaqueChildren h !! l with
  | Some _ => Throw "opaque contents already registered"
  | None => Ret (mkHeap (objects h) (nominalRecords h) (<[l := values]> (opaqueChildren h)) (fresh h))
  end.

Definition opaqueContents (h : heap) (l : loc) : option (list value) := opaqueChildren h !! l.
