(* ===== verification/Domain.v ===== *)
(** * Typed domain errors

    [src/runtime/domain-core.ts]: the validation of an emitted plan, the iterative
    check of a payload against a concrete type, the creation of domain
    occurrences and the bound of an escaping one.  The generated catalogue, the
    host's digest and the admissions of opaque and callable values are
    parameters. *)
From stdpp Require Import base gmap list strings.
From Stdlib Require Import ZArith Lia.
From S2P Require Import Prelude JsNumber JsString Data.

(** ** Plans *)

Record ErrorDeclaration : Type := mkDeclaration {
  decl_identity : jstr;
  decl_name : jstr;
  decl_parameters : num
}.

Record FailureShape : Type := mkShape {
  identity : jstr;
  kind : jstr;
  declaration : option jstr;
  arguments : list jstr;
  fields : list (jstr * jstr);
  leaves : list jstr;
  element : option jstr;
  result : option jstr;
  inputs : list jstr;
  errors : list jstr
}.

Record ErrorPlan : Type := mkPlan {
  declarations : list ErrorDeclaration;
  shapes : list FailureShape
}.

#[warnings="-register-all"]
Inductive Descriptor : Type := mkDescriptor (name : jstr) (args : option (list Descriptor)).

Record CatalogueErrorEntry : Type := mkErrorEntry {
  entry_identity : jstr;
  entry_name : jstr;
  entry_parameters : nat
}.

Record CatalogueShape : Type := mkCatalogueShape {
  cs_name : jstr;
  cs_identity : jstr;
  cs_kind : jstr;
  cs_parameters : list (jstr * jstr);
  cs_fields : list (jstr * Descriptor);
  cs_leaves : list Descriptor
}.

(** The generated catalogue. *)
Record Catalogue : Type := mkCatalogue {
  catalogue_errors : list CatalogueErrorEntry;
  catalogueTypeShapes : list CatalogueShape
}.

(** Maps built in order: the first entry of an error identity stays, the last
    shape of a name or identity stays. *)
Definition catalogueErrorIndex (c : Catalogue) : gmap jstr CatalogueErrorEntry :=
  fold_left (fun built e => match built !! entry_identity e with
                            | Some _ => built
                            | None => <[entry_identity e := e]> built
                            end) (catalogue_errors c) ∅.

Definition byName (c : Catalogue) : gmap jstr CatalogueShape :=
  fold_left (fun m e => <[cs_name e := e]> m) (catalogueTypeShapes c) ∅.

Definition byIdentity (c : Catalogue) : gmap jstr CatalogueShape :=
  fold_left (fun m e => <[cs_identity e := e]> m) (catalogueTypeShapes c) ∅.

(** ** Identities *)

(** A key is an array of strings and of arrays of strings. *)
Inductive key_part : Type := KeyText (s : jstr) | KeyList (l : list jstr).

Definition json_key_part (p : key_part) : jstr :=
  match p with KeyText s => json_quote s | KeyList l => json_string_array l end.

(** [JSON.stringify(key)] *)
Definition json_key (k : list key_part) : jstr :=
  [91%N] ++ intersperse [44%N] (json_key_part <$> k) ++ [93%N].

Definition concreteTypeDigestInput (k : list key_part) : jstr :=
  js "can-concrete-type-v1" ++ [0%N] ++ json_key k.

Definition is_kind (s : FailureShape) (k : string) : bool := bool_decide (kind s = js k).

Definition shapeIdentityKey (shape : FailureShape) (resolve : option jstr -> res FailureShape)
    : res (list key_part) :=
  if is_kind shape "array" then
    let! e := resolve (element shape) in
    Ret [KeyText (js "array"); KeyText []; KeyText (identity e)]
  else if is_kind shape "callable" || is_kind shape "choice_arm" then
    let! r := resolve (result shape) in
    Ret [KeyText (kind shape); KeyText (identity r); KeyList (inputs shape); KeyList (errors shape)]
  else Ret (KeyText (kind shape) :: KeyText (default [] (declaration shape)) :: (KeyText <$> arguments shape)).

(** ** Validation of a plan *)

Definition project_prefix : jstr := js "can.project.".

(** [name.includes("::")] *)
Fixpoint includes_colons (s : jstr) : bool :=
  match s with
  | 58%N :: ((58%N :: _) as rest) => true
  | _ :: rest => includes_colons rest
  | [] => false
  end.

(** One round of the declaration loop; the test of [parameters] is
    [Number.isInteger] and not negative. *)
Definition declare (c : Catalogue) (known : gmap jstr ErrorDeclaration) (d : ErrorDeclaration)
    : res (gmap jstr ErrorDeclaration) :=
  match num_to_Z (decl_parameters d), known !! decl_identity d with
  | Some n, None =>
      if n <? 0 then Throw "invalid or duplicate error declaration"
      else
        match catalogueErrorIndex c !! decl_identity d with
        | Some builtin =>
            guard_throw (bool_decide (entry_name builtin = decl_name d) && (Z.of_nat (entry_parameters builtin) =? n))
              "catalogue declaration mismatch" (Ret (<[decl_identity d := d]> known))
        | None =>
            guard_throw (starts_with (decl_identity d) project_prefix && includes_colons (decl_name d))
              "invalid project error declaration" (Ret (<[decl_identity d := d]> known))
        end
  | _, _ => Throw "invalid or duplicate error declaration"
  end.

Fixpoint fold_res {A B} (f : B -> A -> res B) (l : list A) (b : B) : res B :=
  match l with
  | [] => Ret b
  | a :: rest => let! b := f b a in fold_res f rest b
  end.

Definition index_shape (known : gmap jstr FailureShape) (s : FailureShape) : res (gmap jstr FailureShape) :=
  match known !! identity s with
  | Some _ => Throw "duplicate concrete type identity"
  | None => Ret (<[identity s := s]> known)
  end.

(** [get(id)]: the empty text is as good as none. *)
Definition get (shapes : gmap jstr FailureShape) (id : option jstr) : res FailureShape :=
  match id with
  | None | Some [] => Throw "missing concrete failure type"
  | Some id =>
      match shapes !! id with
      | Some s => Ret s
      | None => Throw "missing concrete failure type"
      end
  end.

Section matching.
Context (catalogue : Catalogue) (shapes : gmap jstr FailureShape) (env : gmap jstr jstr).

(** [matches(id, descriptor, env)]; [id] of an absent argument is [undefined]. *)
Fixpoint matches_type (id : option jstr) (d : Descriptor) {struct d} : res bool :=
  match d with
  | mkDescriptor name args =>
      match env !! name with
      | Some bound => Ret (bool_decide (id = Some bound))
      | None =>
          let! s := get shapes id in
          if bool_decide (name = js "[]") then
            match args with
            | Some [a] => if is_kind s "array" then matches_type (element s) a else Ret false
            | _ => Ret false
            end
          else
            match byName catalogue !! name with
            | None =>
                Ret (is_kind s "primitive" && bool_decide (declaration s = Some name)
                     && bool_decide (length (default [] args) = 0%nat))
            | Some builtin =>
                if bool_decide (declaration s = Some (cs_identity builtin))
                   && bool_decide (length (arguments s) = length (default [] args))
                then
                  match args with
                  | None => Ret true
                  | Some ds =>
                      (fix every (ds : list Descriptor) (ids : list jstr) : res bool :=
                         match ds with
                         | [] => Ret true
                         | d :: ds =>
                             let! b := matches_type (head ids) d in
                             if b : bool then every ds (tail ids) else Ret false
                         end) ds (arguments s)
                  end
                else Ret false
            end
      end
  end.

(** [builtin.fields.every((f, i) => ...)] *)
Fixpoint fields_match (fs : list (jstr * jstr)) (ds : list (jstr * Descriptor)) : res bool :=
  match ds, fs with
  | [], _ => Ret true
  | (dname, d) :: ds, (name, type) :: fs =>
      if bool_decide (name = dname) then
        let! b := matches_type (Some type) d in
        if b : bool then fields_match fs ds else Ret false
      else Ret false
  | _ :: _, [] => Ret false
  end.

(** [s.leaves.some(id => matches(id, leaf, env))] *)
Fixpoint some_leaf (ids : list jstr) (leaf : Descriptor) : res bool :=
  match ids with
  | [] => Ret false
  | id :: rest => let! b := matches_type (Some id) leaf in if b : bool then Ret true else some_leaf rest leaf
  end.

Fixpoint leaves_match (ids : list jstr) (ds : list Descriptor) : res bool :=
  match ds with
  | [] => Ret true
  | d :: ds => let! b := some_leaf ids d in if b : bool then leaves_match ids ds else Ret false
  end.
End matching.

Definition standard_failure_decl : jstr := js "can.prelude@1::standard_failure".

Definition leaf_kind (leaf : FailureShape) : bool :=
  is_kind leaf "record" || is_kind leaf "error"
  || (is_kind leaf "opaque" && bool_decide (declaration leaf = Some standard_failure_decl)).

(** [l.some(f)] where [f] may throw. *)
Fixpoint some_res {A} (f : A -> res bool) (l : list A) : res bool :=
  match l with
  | [] => Ret false
  | a :: rest => let! b := f a in if b : bool then Ret true else some_res f rest
  end.

(** The constraints on the arguments of a catalogue shape. *)
Definition check_constraint (shapes : gmap jstr FailureShape) (p : (jstr * jstr) * jstr) : res unit :=
  let '((_, constraint), id) := p in
  let! arg := get shapes (Some id) in
  if bool_decide (constraint = js "map_key")
     && negb (is_kind arg "primitive"
              && bool_decide (default [] (declaration arg) ∈ [js "int"; js "bool"; js "str"]))
  then Throw "invalid map key specialization"
  else if bool_decide (constraint = js "failure_variant") && negb (is_kind arg "variant")
  then Throw "invalid failure variant specialization"
  else if is_kind arg "void" then Throw "void generic payload argument"
  else Ret tt.

Definition project_declared (s : FailureShape) : bool :=
  match declaration s with Some d => starts_with d project_prefix | None => false end.

Section validation.
Context (catalogue : Catalogue) (digestHex : jstr -> jstr -> jstr).

(** The comparison with the catalogue shape of the same declaration. *)
Definition check_builtin (shapes : gmap jstr FailureShape) (s : FailureShape) (b : CatalogueShape) : res unit :=
  if negb (bool_decide (kind s = cs_kind b)) || negb (bool_decide (length (arguments s) = length (cs_parameters b)))
     || negb (bool_decide (length (fields s) = length (cs_fields b)))
  then Throw "catalogue payload shape mismatch"
  else
    let env := fold_left (fun m p => <[p.1.1 := p.2]> m) (zip (cs_parameters b) (arguments s)) ∅ in
    let! fs := fields_match catalogue shapes env (fields s) (cs_fields b) in
    guard_throw fs "catalogue payload field mismatch" (
    let! ls := if bool_decide (length (leaves s) = length (cs_leaves b))
               then leaves_match catalogue shapes env (leaves s) (cs_leaves b) else Ret false in
    guard_throw ls "catalogue variant leaves mismatch" (
    let! _ := map_res (check_constraint shapes) (zip (cs_parameters b) (arguments s)) in
    Ret tt)).

(** The body of the loop over the shapes of the plan. *)
Definition check_shape (decls : gmap jstr ErrorDeclaration) (shapes : gmap jstr FailureShape) (s : FailureShape)
    : res unit :=
  let! key := shapeIdentityKey s (get shapes) in
  guard_throw (bool_decide (digestHex (concreteTypeDigestInput key) (identity s) = identity s))
    "concrete failure type identity mismatch" (
  let! _ := map_res (fun id => get shapes (Some id))
              (arguments s ++ inputs s ++ errors s ++ leaves s ++ (fields s).*2) in
  guard_throw (bool_decide (NoDup (fields s).*1)) "duplicate payload field" (
  let! bad :=
    if is_kind s "variant" then
      if bool_decide (leaves s = []) || negb (bool_decide (NoDup (leaves s))) then Ret true
      else some_res (fun id => let! leaf := get shapes (Some id) in Ret (negb (leaf_kind leaf))) (leaves s)
    else Ret false in
  guard_throw (negb bad) "invalid concrete variant leaves" (
  let! _ :=
    match declaration s ≫= (fun d => if bool_decide (d = []) then None else byIdentity catalogue !! d) with
    | Some b => check_builtin shapes s b
    | None =>
        guard_throw (negb (is_kind s "record" || is_kind s "error" || is_kind s "variant" || is_kind s "opaque")
                     || project_declared s) "unknown nominal payload declaration" (Ret tt)
    end in
  if is_kind s "error" then
    match declaration s ≫= (fun d => decls !! d) with
    | Some d =>
        guard_throw (bool_decide (num_to_Z (decl_parameters d) = Some (Z.of_nat (length (arguments s)))))
          "unallocated error payload type" (Ret tt)
    | None => Throw "unallocated error payload type"
    end
  else Ret tt))).

(** The maps the validated plan leaves to the runtime. *)
Definition validate (plan : ErrorPlan) : res (gmap jstr ErrorDeclaration * gmap jstr FailureShape) :=
  let! decls := fold_res (declare catalogue) (declarations plan) ∅ in
  let! shapes := fold_res index_shape (shapes plan) ∅ in
  let! _ := map_res (check_shape decls shapes) (Domain.shapes plan) in
  Ret (decls, shapes).
End validation.

(** ** Payloads *)

(** An entry of the work list of [accepts]. *)
Record Work : Type := mkWork { work_type : jstr; work_value : value; exit : bool }.

(** The variables of [accepts]: the work, its top first, the active objects, and
    the checked types of every object. *)
Record traversal : Type := mkTraversal {
  work : list Work;
  active : gset loc;
  checked : gset (loc * jstr)
}.

Inductive verdict : Type := Accepted | Rejected | More (t : traversal).

(** [typeof v] for the primitives; [None] for everything else. *)
Definition typeof_primitive (v : value) : option jstr :=
  match v with
  | VBigInt _ => Some (js "int")
  | VNum _ => Some (js "float")
  | VBool _ => Some (js "bool")
  | VStr _ => Some (js "str")
  | _ => None
  end.

Section payloads.
Context (shapes : gmap jstr FailureShape) (h : heap).
(** The weak set of standard occurrences and the two admissions of the host. *)
Context (isStandardFailure : value -> bool) (opaqueAdmission callableAdmission : option (jstr -> value -> res bool)).

Definition admits (admission : option (jstr -> value -> res bool)) (type : jstr) (v : value) : res bool :=
  match admission with Some f => f type v | None => Ret false end.

(** [s.leaves.find(...)]; an empty identity is no leaf. *)
Fixpoint find_leaf (ids : list jstr) (v : value) : res (option jstr) :=
  match ids with
  | [] => Ret None
  | id :: rest =>
      if bool_decide (Some id = recordIdentity h v) then Ret (Some id)
      else
        let! s := get shapes (Some id) in
        if bool_decide (declaration s = Some standard_failure_decl) && isStandardFailure v then Ret (Some id)
        else find_leaf rest v
  end.

Definition is_text_key (k : key) : bool := match k with KStr _ => true | nominal => false end.

(** The work an array or a record leaves, in order. *)
Definition children (s : FailureShape) (v : value) : res (list Work) :=
  if is_kind s "array" then
    let! values := dataArray h v in
    Ret ((fun x => mkWork (default [] (element s)) x false) <$> values)
  else if is_kind s "record" || is_kind s "error" then
    let! keys := dataKeys h v in
    if negb (bool_decide (recordIdentity h v = Some (identity s)))
       || negb (bool_decide (length (filter (fun k => is_text_key k = true) keys) = length (fields s)))
    then Throw "rejected"
    else
      map_res (fun f => let! x := dataProperty h v (KStr f.1) in Ret (mkWork f.2 x false)) (fields s)
  else Throw "rejected".

(** Entering an array or a record. *)
Definition enter (s : FailureShape) (v : value) (rest : list Work) (t : traversal) : verdict :=
  match v with
  | VRef l =>
      if bool_decide (l ∈ active t) then Rejected
      else if bool_decide ((l, identity s) ∈ checked t) then More (mkTraversal rest (active t) (checked t))
      else
        match data_object h v with
        | Throw _ => Rejected
        | Ret o =>
            if negb (frozen o) then Rejected
            else
              match children s v with
              | Throw _ => Rejected
              | Ret ws =>
                  More (mkTraversal (ws ++ mkWork (identity s) v true :: rest) ({[l]} ∪ active t) (checked t))
              end
        end
  | _ => Rejected
  end.

Definition verdict_of (b : res bool) (t : traversal) : verdict :=
  match b with Ret true => More t | _ => Rejected end.

(** One round of the loop; a throw is [false]. *)
Definition accept_step (t : traversal) : verdict :=
  match work t with
  | [] => Accepted
  | entry :: rest =>
      match get shapes (Some (work_type entry)) with
      | Throw _ => Rejected
      | Ret s =>
          let v := work_value entry in
          let next := mkTraversal rest (active t) (checked t) in
          if exit entry then
            match v with
            | VRef l => More (mkTraversal rest (active t ∖ {[l]}) ({[(l, work_type entry)]} ∪ checked t))
            | _ => Rejected
            end
          else if is_kind s "primitive" then
            if bool_decide (is_Some (typeof_primitive v)) && bool_decide (declaration s = typeof_primitive v)
            then More next else Rejected
          else if is_kind s "variant" then
            match find_leaf (leaves s) v with
            | Ret (Some leaf) =>
                if bool_decide (leaf = []) then Rejected
                else More (mkTraversal (mkWork leaf v false :: rest) (active t) (checked t))
            | _ => Rejected
            end
          else if is_kind s "opaque" then
            if bool_decide (declaration s = Some standard_failure_decl)
            then (if isStandardFailure v then More next else Rejected)
            else verdict_of (admits opaqueAdmission (identity s) v) next
          else if is_kind s "callable" || is_kind s "choice_arm"
          then verdict_of (admits callableAdmission (identity s) v) next
          else enter s v rest t
      end
  end.

(** The loop; [None] when the fuel is out. *)
Fixpoint accept_loop (fuel : nat) (t : traversal) : option bool :=
  match fuel with
  | O => None
  | S fuel' =>
      match accept_step t with
      | Accepted => Some true
      | Rejected => Some false
      | More t => accept_loop fuel' t
      end
  end.

Definition initial (type : jstr) (v : value) : traversal := mkTraversal [mkWork type v false] ∅ ∅.

(** Each object is entered at most once per type: a bound on the rounds. *)
Definition object_cost (o : object) : nat := 1 + 3 * length (props o).
Definition accept_fuel : nat :=
  4 + size shapes * list_sum (object_cost <$> (map_to_list (objects h)).*2).

Definition accepts (type : jstr) (v : value) : option bool := accept_loop accept_fuel (initial type v).
End payloads.

(** ** Occurrences *)

Record DomainDetails : Type := mkDetails {
  occurrenceID : Z;
  details_declaration : ErrorDeclaration;
  typeIdentity : jstr;
  typeArguments : list jstr;
  payload : value;
  cause : value
}.

(** The weak map of occurrences and the counter of occurrence numbers; an
    occurrence is a fresh token. *)
Record occurrences : Type := mkOccurrences {
  details : gmap nat DomainDetails;
  next_token : nat;
  nextOccurrence : Z
}.

(** What [createDomainRuntimeWithDigest] closes over. *)
Record runtime : Type := mkRuntime {
  rt_declarations : gmap jstr ErrorDeclaration;
  rt_shapes : gmap jstr FailureShape;
  rt_standard : value -> bool;
  rt_opaque : option (jstr -> value -> res bool);
  rt_callable : option (jstr -> value -> res bool)
}.

Definition rt_accepts (rt : runtime) (h : heap) (type : jstr) (v : value) : option bool :=
  accepts (rt_shapes rt) h (rt_standard rt) (rt_opaque rt) (rt_callable rt) type v.

Definition isDomainFailure (s : occurrences) (token : nat) : bool := bool_decide (is_Some (details s !! token)).

Definition domainFailureDiagnostics (s : occurrences) (token : nat) : res DomainDetails :=
  match details s !! token with
  | Some d => Ret d
  | None => Throw "invalid domain occurrence"
  end.

(** [create(typeIdentity, payload, origin, cause)]; the origin and provenance are
    carried by [Completion.v]. *)
Definition create (rt : runtime) (h : heap) (s : occurrences) (type : jstr) (v cause : value)
    : res (nat * occurrences) :=
  let! shape := get (rt_shapes rt) (Some type) in
  match rt_declarations rt !! default [] (declaration shape) with
  | None => Throw "invalid domain error payload"
  | Some d =>
      if is_kind shape "error" && bool_decide (rt_accepts rt h type v = Some true)
      then Ret (next_token s,
                mkOccurrences
                  (<[next_token s := mkDetails (nextOccurrence s) d type (arguments shape) v cause]> (details s))
                  (S (next_token s)) (nextOccurrence s + 1))
      else Throw "invalid domain error payload"
  end.

Definition checkBound (rt : runtime) (s : occurrences) (token : nat) (allowed : list jstr) : res nat :=
  let! d := domainFailureDiagnostics s token in
  match rt_declarations rt !! decl_identity (details_declaration d) with
  | None => Throw "undeclared escaping domain error"
  | Some known =>
      guard_throw (bool_decide (decl_name known = decl_name (details_declaration d))
                   && bool_decide (decl_parameters known = decl_parameters (details_declaration d))
                   && bool_decide (typeIdentity d ∈ allowed))
        "undeclared escaping domain error" (Ret token)
  end.
