(* ===== verification/DomainTheorems.v ===== *)
(** * What the check of domain payloads guarantees

    On a validated plan the check ends, whatever the heap; what it accepts has the
    type; and on data built by the runtime, which has no cycles, it accepts
    everything that has the type. *)
From stdpp Require Import base sets gmap list strings.
From Stdlib Require Import ZArith Lia.
From S2P Require Import Prelude JsNumber JsString Data Domain.

(** ** Validated plans *)

Lemma map_res_ret {A B} (f : A -> res B) l l' :
  map_res f l = Ret l' -> Forall2 (fun a b => f a = Ret b) l l'.
Proof.
  revert l'. induction l as [|a l IH]; intros l'; cbn; [intros [= <-]; constructor |].
  intros H. inv_res. constructor; auto.
Qed.

Lemma map_res_all {A B} (f : A -> res B) l l' a : map_res f l = Ret l' -> a ∈ l -> exists b, f a = Ret b.
Proof.
  intros H%map_res_ret Ha. induction H as [|x y l l' Hx _ IH]; [by apply not_elem_of_nil in Ha |].
  apply elem_of_cons in Ha as [->|Ha]; eauto.
Qed.

Lemma some_res_false {A} (f : A -> res bool) l a : some_res f l = Ret false -> a ∈ l -> f a = Ret false.
Proof.
  induction l as [|x l IH]; intros H Ha; [by apply not_elem_of_nil in Ha |].
  cbn in H. apply res_bind_ret in H as ([] & Hx & H); [done |].
  apply elem_of_cons in Ha as [->|Ha]; auto.
Qed.

Lemma index_shapes l known shapes :
  fold_res index_shape l known = Ret shapes ->
  (forall id s, known !! id = Some s -> identity s = id) ->
  forall id s, shapes !! id = Some s <-> known !! id = Some s \/ (s ∈ l /\ identity s = id).
Proof.
  revert known. induction l as [|s l IH]; intros known H Hk; cbn in H.
  { injection H as <-. intros id s. split; [by left |].
    intros [?|[H _]]; [done | by apply not_elem_of_nil in H]. }
  unfold index_shape in H at 1. destruct (known !! identity s) eqn:Hs; cbn in H; [done |].
  pose proof (IH _ H) as H2. intros id s'. rewrite H2; clear H2.
  - destruct (decide (identity s = id)) as [<-|Hne].
    + rewrite lookup_insert_eq. split.
      * intros [[= <-]|[Hin He]]; [right; split; [by left | done] | right; split; [by right | done]].
      * intros [Hl|[[->|Hin]%elem_of_cons He]]; [congruence | by left | by right].
    + rewrite lookup_insert_ne by done. split.
      * intros [?|[Hin He]]; [by left | right; split; [by right | done]].
      * intros [?|[[->|Hin]%elem_of_cons He]]; [by left | done | by right].
  - clear id s'. intros id s' Hl. destruct (decide (identity s = id)) as [<-|Hne].
    + rewrite lookup_insert_eq in Hl. by injection Hl as <-.
    + rewrite lookup_insert_ne in Hl by done. by apply Hk.
Qed.

(** A validated plan: shapes under their identities, whose references resolve,
    with distinct fields, whose variants have distinct leaves that are records,
    errors or the standard failure, and whose errors are declared. *)
Record plan_ok (decls : gmap jstr ErrorDeclaration) (shapes : gmap jstr FailureShape) : Prop := {
  po_identity : forall id s, shapes !! id = Some s -> identity s = id;
  po_references : forall id s ref, shapes !! id = Some s ->
    ref ∈ arguments s ++ inputs s ++ errors s ++ leaves s ++ (fields s).*2 ->
    exists s', get shapes (Some ref) = Ret s';
  po_element : forall id s, shapes !! id = Some s -> is_kind s "array" = true ->
    exists e, get shapes (element s) = Ret e;
  po_fields : forall id s, shapes !! id = Some s -> NoDup (fields s).*1;
  po_leaves : forall id s, shapes !! id = Some s -> is_kind s "variant" = true ->
    leaves s <> [] /\ NoDup (leaves s) /\
    forall leaf, leaf ∈ leaves s -> exists s', get shapes (Some leaf) = Ret s' /\ leaf_kind s' = true;
  po_errors : forall id s, shapes !! id = Some s -> is_kind s "error" = true ->
    exists name d, declaration s = Some name /\ decls !! name = Some d /\
      num_to_Z (decl_parameters d) = Some (Z.of_nat (length (arguments s)))
}.

Lemma variant_leaves shapes s bad :
  (if is_kind s "variant" then
     if bool_decide (leaves s = []) || negb (bool_decide (NoDup (leaves s))) then Ret true
     else some_res (fun id => let! leaf := get shapes (Some id) in Ret (negb (leaf_kind leaf))) (leaves s)
   else Ret false) = Ret bad -> bad = false -> is_kind s "variant" = true ->
  leaves s <> [] /\ NoDup (leaves s) /\
  forall leaf, leaf ∈ leaves s -> exists s', get shapes (Some leaf) = Ret s' /\ leaf_kind s' = true.
Proof.
  intros H -> Hk. rewrite Hk in H.
  destruct (bool_decide (leaves s = []) || _) eqn:Hc; [done |]. split_bools. split_and!; [done | done |].
  intros leaf Hl. pose proof (some_res_false _ _ _ H Hl) as Hf. cbn in Hf.
  apply res_bind_ret in Hf as (s' & Hs & [= Hf]). exists s'. split; [done |]. by apply negb_false_iff.
Qed.

(** What the body of the shape loop establishes. *)
Lemma check_shape_ok catalogue digestHex decls shapes s :
  check_shape catalogue digestHex decls shapes s = Ret tt ->
  (forall ref, ref ∈ arguments s ++ inputs s ++ errors s ++ leaves s ++ (fields s).*2 ->
     exists s', get shapes (Some ref) = Ret s') /\
  (is_kind s "array" = true -> exists e, get shapes (element s) = Ret e) /\
  NoDup (fields s).*1 /\
  (is_kind s "variant" = true ->
     leaves s <> [] /\ NoDup (leaves s) /\
     forall leaf, leaf ∈ leaves s -> exists s', get shapes (Some leaf) = Ret s' /\ leaf_kind s' = true) /\
  (is_kind s "error" = true ->
     exists name d, declaration s = Some name /\ decls !! name = Some d /\
       num_to_Z (decl_parameters d) = Some (Z.of_nat (length (arguments s)))) /\
  exists key, shapeIdentityKey s (get shapes) = Ret key /\
    digestHex (concreteTypeDigestInput key) (identity s) = identity s.
Proof.
  unfold check_shape. intros H.
  apply res_bind_ret in H as (key & Hkey & H). apply guard_throw_ret in H as [Hdig H].
  apply res_bind_ret in H as (refs & Hrefs & H). apply guard_throw_ret in H as [Hnd H].
  apply res_bind_ret in H as (bad & Hbad & H). apply guard_throw_ret in H as [Hneg H].
  apply res_bind_ret in H as (u & _ & H). split_bools. split_and!.
  - intros ref Hr. by destruct (map_res_all _ _ _ _ Hrefs Hr) as [s' Hs]; exists s'.
  - intros Ha. unfold shapeIdentityKey in Hkey. rewrite Ha in Hkey.
    apply res_bind_ret in Hkey as (e & He & _). by exists e.
  - done.
  - by eapply variant_leaves.
  - intros He. rewrite He in H. destruct (declaration s) as [name|]; cbn in H; [| done].
    destruct (decls !! name) as [d|] eqn:Hd; [| done].
    unfold guard_throw in H. destruct (bool_decide_reflect (num_to_Z (decl_parameters d)
      = Some (Z.of_nat (length (arguments s))))); [| done].
    by exists name, d.
  - by exists key.
Qed.

Lemma validate_ok catalogue digestHex plan decls shapes :
  validate catalogue digestHex plan = Ret (decls, shapes) -> plan_ok decls shapes /\
  (forall id s, shapes !! id = Some s <-> s ∈ Domain.shapes plan /\ identity s = id) /\
  (forall id s, shapes !! id = Some s -> exists key, shapeIdentityKey s (get shapes) = Ret key /\
     digestHex (concreteTypeDigestInput key) id = id).
Proof.
  unfold validate. intros H. apply res_bind_ret in H as (ds & _ & H).
  apply res_bind_ret in H as (ss & Hss & H). apply res_bind_ret in H as (us & Hus & [= -> ->]).
  assert (forall id s, shapes !! id = Some s <-> s ∈ Domain.shapes plan /\ identity s = id) as Hin.
  { intros id s. rewrite (index_shapes _ _ _ Hss) by (intros ? ? Hl; by rewrite lookup_empty in Hl).
    rewrite lookup_empty. naive_solver. }
  assert (forall id s, shapes !! id = Some s -> check_shape catalogue digestHex decls shapes s = Ret tt) as Hc.
  { intros id s [Hs _]%Hin. by destruct (map_res_all _ _ _ _ Hus Hs) as [[] ?]. }
  split_and!; [| done |].
  - split; intros id s.
    + by intros [_ ?]%Hin.
    + intros ref Hs. by apply (check_shape_ok _ _ _ _ _ (Hc _ _ Hs)).
    + intros Hs. by apply (check_shape_ok _ _ _ _ _ (Hc _ _ Hs)).
    + intros Hs. by apply (check_shape_ok _ _ _ _ _ (Hc _ _ Hs)).
    + intros Hs. by apply (check_shape_ok _ _ _ _ _ (Hc _ _ Hs)).
    + intros Hs. by apply (check_shape_ok _ _ _ _ _ (Hc _ _ Hs)).
  - intros id s Hs. destruct (check_shape_ok _ _ _ _ _ (Hc _ _ Hs)) as (_ & _ & _ & _ & _ & key & Hk & Hd).
    exists key. split; [done |]. by apply Hin in Hs as [_ <-].
Qed.

(** ** Termination *)

Section traversal.
Context (shapes : gmap jstr FailureShape) (h : heap).
Context (isStandardFailure : value -> bool) (opaqueAdmission callableAdmission : option (jstr -> value -> res bool)).

#[local] Abbreviation step := (accept_step shapes h isStandardFailure opaqueAdmission callableAdmission).
#[local] Abbreviation loop := (accept_loop shapes h isStandardFailure opaqueAdmission callableAdmission).

(** The only facts about the plan the traversal needs. *)
Hypothesis identities : forall id s, shapes !! id = Some s -> identity s = id.
Hypothesis variants : forall id s leaf, shapes !! id = Some s -> is_kind s "variant" = true -> leaf ∈ leaves s ->
  exists s', get shapes (Some leaf) = Ret s' /\ leaf_kind s' = true.

Lemma get_some id s : get shapes id = Ret s -> exists i, id = Some i /\ i <> [] /\ shapes !! i = Some s.
Proof.
  unfold get. destruct id as [[|c i]|]; try done. destruct (shapes !! (c :: i)) eqn:Hs; [| done].
  intros [= ->]. by exists (c :: i).
Qed.

Definition variant_type (type : jstr) : bool :=
  match get shapes (Some type) with Ret s => is_kind s "variant" | Throw _ => false end.

Definition weight (w : Work) : nat :=
  if exit w then 1 else if variant_type (work_type w) then 3 else 2.

Definition pair_cost (p : loc * jstr) : nat :=
  match objects h !! p.1 with Some o => object_cost o | None => 0 end.

Definition measure (t : traversal) (rest : list (loc * jstr)) : nat :=
  list_sum (weight <$> work t) + list_sum (pair_cost <$> rest).

Definition exit_loc (w : Work) : option loc :=
  if exit w then match work_value w with VRef l => Some l | _ => None end else None.

(** [rest] are the pairs of an object and a type that have not been entered. *)
Record entered (t : traversal) (rest : list (loc * jstr)) : Prop := {
  en_active : forall l, l ∈ active t <-> l ∈ omap exit_loc (work t);
  en_nodup : NoDup (omap exit_loc (work t));
  en_rest : forall l o id s, objects h !! l = Some o -> shapes !! id = Some s ->
    (l, id) ∈ rest \/ (l, id) ∈ checked t \/ mkWork id (VRef l) true ∈ work t
}.

Lemma list_sum_cons (x : nat) l : list_sum (x :: l) = (x + list_sum l)%nat.
Proof. done. Qed.

Lemma list_sum_perm (l k : list nat) : l ≡ₚ k -> list_sum l = list_sum k.
Proof. unfold list_sum. induction 1; cbn [fold_right] in *; lia. Qed.

Lemma find_leaf_in ids v leaf : find_leaf shapes h isStandardFailure ids v = Ret (Some leaf) -> leaf ∈ ids.
Proof.
  induction ids as [|id ids IH]; cbn; [done |].
  destruct (bool_decide (Some id = recordIdentity h v)); [intros [= <-]; by left |].
  intros (s & _ & Hs)%res_bind_ret. case_hyp Hs; [injection Hs as <-; by left | right; by apply IH].
Qed.

Lemma dataArray_length v o xs :
  data_object h v = Ret o -> dataArray h v = Ret xs -> length (props o) = S (length xs).
Proof.
  unfold dataArray. intros Ho H. rewrite Ho in H. cbn in H. destruct (negb (is_array o)); [done |].
  apply res_bind_ret in H as (len & _ & H). destruct (array_length len) as [n|]; [| done].
  destruct (bool_decide_reflect (length (props o) = S n)) as [Hl|]; [| done]. cbn in H.
  apply map_res_ret, Forall2_length in H. rewrite length_seq in H. lia.
Qed.

(** An object has at most as many children as properties. *)
Lemma children_length s v o ws :
  data_object h v = Ret o -> children h s v = Ret ws ->
  (length ws <= length (props o))%nat /\ Forall (fun w => exit w = false) ws.
Proof.
  unfold children. intros Ho H. destruct (is_kind s "array").
  - apply res_bind_ret in H as (xs & Hx & [= <-]). rewrite length_fmap.
    rewrite (dataArray_length _ _ _ Ho Hx). split; [lia |]. apply Forall_fmap, Forall_true. done.
  - destruct (is_kind s "record" || is_kind s "error"); [| done].
    unfold dataKeys in H. rewrite Ho in H. cbn in H.
    destruct (negb _ || _) eqn:Hc; [done |]. split_bools. apply map_res_ret in H as Hf.
    pose proof (Forall2_length _ _ _ Hf) as Hl. rewrite <- Hl. split.
    + match goal with H : length (filter _ _) = _ |- _ => rewrite <- H end.
      rewrite length_filter, length_fmap. done.
    + clear -Hf. induction Hf as [|f w fs ws Hw _ IH]; constructor; [| done].
      by apply res_bind_ret in Hw as (x & _ & [= <-]).
Qed.

Lemma weight_bound ws : Forall (fun w => exit w = false) ws -> (list_sum (weight <$> ws) <= 3 * length ws)%nat.
Proof.
  induction 1 as [|w ws Hw _ IH]; [done |]. rewrite fmap_cons, list_sum_cons, length_cons.
  unfold weight at 1. rewrite Hw. destruct (variant_type _); lia.
Qed.

Lemma omap_exit_none ws : Forall (fun w => exit w = false) ws -> omap exit_loc ws = [].
Proof. induction 1 as [|w ws Hw _ IH]; [done |]. cbn. unfold exit_loc at 1. by rewrite Hw. Qed.

(** One round keeps the bookkeeping and lowers the measure. *)
Definition progress (t t' : traversal) (rest : list (loc * jstr)) : Prop :=
  exists rest', entered t' rest' /\ (measure t' rest' < measure t rest)%nat.

Lemma entered_pop t rest w ws :
  work t = w :: ws -> exit w = false -> entered t rest ->
  entered (mkTraversal ws (active t) (checked t)) rest.
Proof.
  intros Hw He [H1 H2 H3]. rewrite Hw in *. cbn in H1, H2. unfold exit_loc in H1, H2 at 1. rewrite He in *.
  split; cbn; [done | done |]. intros l o id s Ho Hs.
  destruct (H3 l o id s Ho Hs) as [?|[?|[Heq|?]%elem_of_cons]]; auto. subst w. done.
Qed.

(** Any round that only pops an entry. *)
Lemma progress_pop t rest w ws :
  work t = w :: ws -> exit w = false -> entered t rest ->
  progress t (mkTraversal ws (active t) (checked t)) rest.
Proof.
  intros Hw He Hen. exists rest. split; [by eapply entered_pop |].
  unfold measure. cbn [work]. rewrite Hw, fmap_cons, list_sum_cons. unfold weight at 2. rewrite He.
  destruct (variant_type _); lia.
Qed.

Lemma progress_leaf t rest w ws s leaf :
  work t = w :: ws -> exit w = false -> entered t rest ->
  shapes !! work_type w = Some s -> work_type w <> [] -> is_kind s "variant" = true -> leaf ∈ leaves s ->
  progress t (mkTraversal (mkWork leaf (work_value w) false :: ws) (active t) (checked t)) rest.
Proof.
  intros Hw He Hen Hs Hne Hv Hl. exists rest. split.
  - pose proof (entered_pop _ _ _ _ Hw He Hen) as [H1 H2 H3]. split; cbn; [done | done |].
    intros l o id s' Ho Hs'. destruct (H3 l o id s' Ho Hs') as [?|[?|?]]; auto.
    right. right. by right.
  - unfold measure. cbn [work]. rewrite Hw, !fmap_cons, !list_sum_cons.
    destruct (variants _ _ _ Hs Hv Hl) as (s' & Hget & Hleaf).
    assert (weight w = 3%nat) as ->.
    { unfold weight, variant_type, get. rewrite He. destruct (work_type w); [done |]. by rewrite Hs, Hv. }
    assert (weight (mkWork leaf (work_value w) false) = 2%nat) as ->; [| lia].
    unfold weight, variant_type. cbn [exit work_type]. rewrite Hget.
    assert (is_kind s' "variant" = false) as ->; [| done].
    unfold leaf_kind, is_kind in *. apply bool_decide_eq_false. intros Hk. rewrite Hk in Hleaf.
    vm_compute in Hleaf. discriminate.
Qed.

Lemma progress_exit t rest w ws l :
  work t = w :: ws -> exit w = true -> work_value w = VRef l -> entered t rest ->
  progress t (mkTraversal ws (active t ∖ {[l]}) ({[(l, work_type w)]} ∪ checked t)) rest.
Proof.
  intros Hw He Hv [H1 H2 H3]. destruct w as [ty v ex]. cbn in *. subst ex v.
  rewrite Hw in *. cbn in H1, H2. apply NoDup_cons in H2 as [Hl H2]. exists rest. split.
  - split; cbn; [| done |].
    + intros l'. rewrite elem_of_difference, H1, elem_of_cons, elem_of_singleton.
      split; [intros [[?|?] ?]; done | intros ?; split; [by right | intros ->; done]].
    + intros l' o id s Ho Hs. destruct (H3 l' o id s Ho Hs) as [?|[?|[[= -> ->]|?]%elem_of_cons]]; auto.
      * right. left. set_solver.
      * right. left. set_solver.
  - unfold measure. cbn [work]. rewrite Hw, fmap_cons, list_sum_cons. unfold weight at 2. cbn [exit]. lia.
Qed.

Lemma data_object_ref l o : data_object h (VRef l) = Ret o -> objects h !! l = Some o.
Proof. cbn. destruct (objects h !! l) as [o'|]; [| done]. destruct (_ || _); [done |]. by intros [= ->]. Qed.

Lemma progress_enter t rest w ws s l o kids :
  work t = w :: ws -> exit w = false -> entered t rest ->
  shapes !! work_type w = Some s -> work_value w = VRef l -> l ∉ active t -> (l, identity s) ∉ checked t ->
  data_object h (VRef l) = Ret o -> children h s (VRef l) = Ret kids ->
  progress t (mkTraversal (kids ++ mkWork (identity s) (VRef l) true :: ws) ({[l]} ∪ active t) (checked t)) rest.
Proof.
  intros Hw He Hen Hs Hv Hact Hch Ho Hk.
  destruct (children_length s (VRef l) o kids Ho Hk) as [Hlen Hex].
  pose proof (identities _ _ Hs) as Hid. pose proof (data_object_ref _ _ Ho) as Hobj.
  pose proof (entered_pop _ _ _ _ Hw He Hen) as [H1 H2 H3]. cbn in H1, H2.
  assert ((l, identity s) ∈ rest) as Hin.
  { destruct (H3 l o (identity s) s Hobj ltac:(by rewrite Hid)) as [?|[?|Hex']]; [done | done |].
    exfalso. apply Hact, H1. apply list_elem_of_omap. by eexists. }
  apply elem_of_Permutation in Hin as [rest' Hrest]. exists rest'. split.
  - assert (omap exit_loc (kids ++ mkWork (identity s) (VRef l) true :: ws) = l :: omap exit_loc ws) as Heq.
    { rewrite omap_app, omap_exit_none by done. done. }
    split; cbn [work active checked].
    + intros l'. rewrite Heq, elem_of_union, elem_of_singleton, elem_of_cons, H1. done.
    + rewrite Heq. apply NoDup_cons. split; [by rewrite <- H1 | done].
    + intros l' o' id s' Ho' Hs'. destruct (H3 l' o' id s' Ho' Hs') as [Hr|[?|?]]; [| by right; left |].
      * rewrite Hrest in Hr. apply elem_of_cons in Hr as [[= -> ->]|?]; [| by left].
        right. right. apply elem_of_app. right. by left.
      * right. right. apply elem_of_app. right. by right.
  - unfold measure. cbn [work]. rewrite Hw, fmap_app, fmap_cons, list_sum_app, !fmap_cons, !list_sum_cons.
    rewrite (list_sum_perm _ _ (fmap_Permutation pair_cost _ _ Hrest)), fmap_cons, list_sum_cons.
    pose proof (weight_bound kids Hex). unfold pair_cost at 2. cbn [fst]. rewrite Hobj. unfold object_cost.
    unfold weight at 2 4. cbn [exit work_type]. rewrite He. destruct (variant_type (work_type w)); lia.
Qed.

Lemma verdict_of_more b t t' : verdict_of b t = More t' -> t' = t /\ b = Ret true.
Proof. destruct b as [[]|]; try done. by intros [= ->]. Qed.

Lemma enter_more s v rest t t' :
  enter h s v rest t = More t' ->
  exists l, v = VRef l /\ l ∉ active t /\
    (((l, identity s) ∈ checked t /\ t' = mkTraversal rest (active t) (checked t)) \/
     (exists o kids, (l, identity s) ∉ checked t /\ data_object h v = Ret o /\ frozen o = true /\
        children h s v = Ret kids /\
        t' = mkTraversal (kids ++ mkWork (identity s) v true :: rest) ({[l]} ∪ active t) (checked t))).
Proof.
  unfold enter. destruct v as [| | | | | |l]; try done. destruct (bool_decide_reflect (l ∈ active t)); [done |].
  destruct (bool_decide_reflect ((l, identity s) ∈ checked t)).
  - intros [= <-]. exists l. split_and!; [done | done | by left].
  - destruct (data_object h (VRef l)) as [o|] eqn:Ho; [| done]. destruct (frozen o) eqn:Hf; [| done].
    cbn [negb]. destruct (children h s (VRef l)) as [kids|] eqn:Hk; [| done]. intros [= <-].
    exists l. split_and!; [done | done |]. right. by exists o, kids.
Qed.

Lemma step_progress t t' rest : entered t rest -> step t = More t' -> progress t t' rest.
Proof.
  intros Hen. unfold accept_step. destruct (work t) as [|w ws] eqn:Hw; [done |].
  destruct (get shapes (Some (work_type w))) as [s|] eqn:Hget; [| done].
  apply get_some in Hget as (i & [= <-] & Hne & Hs).
  destruct (exit w) eqn:He.
  { destruct (work_value w) as [| | | | | |l] eqn:Hv; try done. intros [= <-]. by apply progress_exit. }
  pose proof (progress_pop _ _ _ _ Hw He Hen) as Hpop.
  destruct (is_kind s "primitive"). { case_match; [by intros [= <-] | done]. }
  destruct (is_kind s "variant") eqn:Hvar.
  { destruct (find_leaf _ _ _ _ _) as [[leaf|]|] eqn:Hf; try done. case_match; [done |]. intros [= <-].
    eapply progress_leaf; try done. by eapply find_leaf_in. }
  destruct (is_kind s "opaque").
  { case_match; [case_match; [by intros [= <-] | done] |]. by intros [-> _]%verdict_of_more. }
  destruct (is_kind s "callable" || is_kind s "choice_arm"). { by intros [-> _]%verdict_of_more. }
  intros (l & Hv & Hact & [[_ ->]|(o & kids & Hch & Ho & _ & Hk & ->)])%enter_more; [done |].
  rewrite Hv in *. by eapply progress_enter.
Qed.

Lemma loop_returns fuel t rest :
  entered t rest -> (measure t rest < fuel)%nat -> exists b, loop fuel t = Some b.
Proof.
  revert t rest. induction fuel as [|fuel IH]; intros t rest Hen Hm; [lia |]. cbn.
  destruct (step t) as [| |t'] eqn:Hs; [by eexists.. |].
  destruct (step_progress _ _ _ Hen Hs) as (rest' & Hen' & Hlt). apply (IH t' rest' Hen'). lia.
Qed.

(** The answer does not depend on the fuel once there is one. *)
Lemma loop_more fuel k t b : loop fuel t = Some b -> loop (fuel + k) t = Some b.
Proof.
  revert t. induction fuel as [|fuel IH]; intros t; [done |]. cbn. destruct (step t); [done.. | apply IH].
Qed.

Definition all_pairs : list (loc * jstr) :=
  list_prod (map_to_list (objects h)).*1 (map_to_list shapes).*1.

Lemma pairs_cost ls (ts : list jstr) :
  (forall l, l ∈ ls -> is_Some (objects h !! l)) ->
  list_sum (pair_cost <$> list_prod ls ts)
  = (length ts * list_sum ((fun l => from_option object_cost 0%nat (objects h !! l)) <$> ls))%nat.
Proof.
  intros Hls. induction ls as [|l ls IH]; [cbn; lia |]. cbn [list_prod].
  rewrite fmap_app, list_sum_app, IH by (intros; apply Hls; by right). rewrite fmap_cons, list_sum_cons.
  assert (list_sum (pair_cost <$> map (fun y => (l, y)) ts)
    = length ts * from_option object_cost 0 (objects h !! l))%nat as ->; [| lia].
  clear. induction ts as [|t ts IH]; [done |]. cbn [map]. rewrite fmap_cons, list_sum_cons, IH, length_cons.
  unfold pair_cost at 1. cbn [fst]. destruct (objects h !! l); cbn; lia.
Qed.

Lemma all_pairs_cost :
  list_sum (pair_cost <$> all_pairs)
  = (size shapes * list_sum (object_cost <$> (map_to_list (objects h)).*2))%nat.
Proof.
  unfold all_pairs. rewrite pairs_cost.
  - rewrite length_fmap, length_map_to_list. do 2 f_equal. rewrite <- !list_fmap_compose.
    apply list_fmap_ext. intros i [l o] Hi. cbn.
    apply list_elem_of_lookup_2, elem_of_map_to_list in Hi. by rewrite Hi.
  - intros l ([l' o] & -> & Hin)%list_elem_of_fmap. cbn. apply elem_of_map_to_list in Hin. by eexists.
Qed.

Lemma initial_entered type v : entered (initial type v) all_pairs.
Proof.
  split; cbn.
  - intros l. split; [set_solver | intros Hl; by apply not_elem_of_nil in Hl].
  - constructor.
  - intros l o id s Ho Hs. left. apply list_elem_of_In, in_prod; apply list_elem_of_In, list_elem_of_fmap.
    + exists (l, o). split; [done |]. by apply elem_of_map_to_list.
    + exists (id, s). split; [done |]. by apply elem_of_map_to_list.
Qed.

Lemma accepts_returns type v :
  exists b, forall k, loop (accept_fuel shapes h + k) (initial type v) = Some b.
Proof.
  destruct (loop_returns (accept_fuel shapes h) (initial type v) all_pairs) as [b Hb].
  - apply initial_entered.
  - unfold measure, accept_fuel. rewrite all_pairs_cost. cbn [initial work].
    rewrite fmap_cons, list_sum_cons. unfold weight. cbn. destruct (variant_type type); lia.
  - exists b. intros k. by apply loop_more.
Qed.
End traversal.

(** ** Types of values *)

Section typing.
Context (shapes : gmap jstr FailureShape) (h : heap).
Context (isStandardFailure : value -> bool) (opaqueAdmission callableAdmission : option (jstr -> value -> res bool)).

#[local] Abbreviation step := (accept_step shapes h isStandardFailure opaqueAdmission callableAdmission).
#[local] Abbreviation loop := (accept_loop shapes h isStandardFailure opaqueAdmission callableAdmission).

(** The declarative types: a derivation is finite, so cyclic data has none. *)
#[warnings="-register-all"]
Inductive has_type : jstr -> value -> Prop :=
| ty_primitive type s v d :
    get shapes (Some type) = Ret s -> is_kind s "primitive" = true ->
    declaration s = Some d -> typeof_primitive v = Some d -> has_type type v
| ty_variant type s v leaf :
    get shapes (Some type) = Ret s -> is_kind s "variant" = true ->
    find_leaf shapes h isStandardFailure (leaves s) v = Ret (Some leaf) -> leaf <> [] ->
    has_type leaf v -> has_type type v
| ty_standard type s v :
    get shapes (Some type) = Ret s -> is_kind s "opaque" = true ->
    declaration s = Some standard_failure_decl -> isStandardFailure v = true -> has_type type v
| ty_opaque type s v :
    get shapes (Some type) = Ret s -> is_kind s "opaque" = true ->
    declaration s <> Some standard_failure_decl -> admits opaqueAdmission (identity s) v = Ret true ->
    has_type type v
| ty_callable type s v :
    get shapes (Some type) = Ret s -> is_kind s "callable" || is_kind s "choice_arm" = true ->
    admits callableAdmission (identity s) v = Ret true -> has_type type v
| ty_array type s l o values :
    get shapes (Some type) = Ret s -> is_kind s "array" = true ->
    data_object h (VRef l) = Ret o -> frozen o = true -> dataArray h (VRef l) = Ret values ->
    Forall (has_type (default [] (element s))) values -> has_type type (VRef l)
| ty_record type s l o values :
    get shapes (Some type) = Ret s -> is_kind s "record" || is_kind s "error" = true ->
    data_object h (VRef l) = Ret o -> frozen o = true ->
    recordIdentity h (VRef l) = Some (identity s) ->
    length (filter (fun k => is_text_key k = true) (props o).*1) = length (fields s) ->
    Forall2 (fun f x => dataProperty h (VRef l) (KStr f.1) = Ret x /\ has_type f.2 x) (fields s) values ->
    has_type type (VRef l).

Definition work_typed (w : Work) : Prop := has_type (work_type w) (work_value w).

Lemma is_kind_eq s k k' : is_kind s k = true -> js k <> js k' -> is_kind s k' = false.
Proof. unfold is_kind. intros H%bool_decide_eq_true Hne. rewrite H. by apply bool_decide_eq_false. Qed.

(** The children of an object, typed, type the object. *)
Lemma children_type type s l o kids :
  get shapes (Some type) = Ret s -> identity s = type -> data_object h (VRef l) = Ret o -> frozen o = true ->
  children h s (VRef l) = Ret kids -> Forall work_typed kids -> has_type type (VRef l).
Proof.
  intros Hget Hid Ho Hf Hk Hkids. unfold children in Hk. destruct (is_kind s "array") eqn:Ha.
  - apply res_bind_ret in Hk as (xs & Hx & [= <-]). eapply ty_array; try done.
    rewrite Forall_fmap in Hkids. exact Hkids.
  - destruct (is_kind s "record" || is_kind s "error") eqn:Hr; [| done].
    unfold dataKeys in Hk. rewrite Ho in Hk. cbn [res_bind] in Hk. case_hyp Hk; [done |].
    apply map_res_ret in Hk. split_bools. eapply (ty_record _ _ _ _ (work_value <$> kids)); try done.
    clear -Hk Hkids. induction Hk as [|f w fs ws Hw _ IH]; [constructor |].
    apply Forall_cons in Hkids as [Ht Hkids]. apply res_bind_ret in Hw as (x & Hx & [= <-]).
    constructor; [done | by apply IH].
Qed.

(** What is left to do types [Q] when it is typed, and every exit on the way. *)
Fixpoint pending (Q : Prop) (ws : list Work) : Prop :=
  match ws with
  | [] => Q
  | w :: ws => if exit w then work_typed w /\ pending Q ws else work_typed w -> pending Q ws
  end.

Lemma pending_app Q kids ws :
  Forall (fun w => exit w = false) kids -> (Forall work_typed kids -> pending Q ws) -> pending Q (kids ++ ws).
Proof.
  induction 1 as [|k kids Hk _ IH]; intros H; [by apply H |]. cbn. rewrite Hk. intros Ht. apply IH.
  intros Hks. apply H. by constructor.
Qed.

Definition checked_typed (t : traversal) : Prop := forall l type, (l, type) ∈ checked t -> has_type type (VRef l).

Hypothesis identities : forall id s, shapes !! id = Some s -> identity s = id.

(** A pop of a typed entry. *)
Lemma pending_pop Q w ws : exit w = false -> pending Q (w :: ws) -> work_typed w -> pending Q ws.
Proof. cbn. intros -> H. exact H. Qed.

Lemma step_sound Q t t' :
  checked_typed t -> pending Q (work t) -> step t = More t' -> checked_typed t' /\ pending Q (work t').
Proof.
  intros Hc Hp. unfold accept_step. destruct (work t) as [|w ws] eqn:Hw; [done |].
  destruct (get shapes (Some (work_type w))) as [s|] eqn:Hget; [| done].
  assert (identity s = work_type w) as Hid by (by apply get_some in Hget as (i & [= <-] & _ & ?%identities)).
  destruct (exit w) eqn:He.
  { destruct (work_value w) as [| | | | | |l] eqn:Hv; try done. intros [= <-]. cbn.
    cbn in Hp. rewrite He in Hp. destruct Hp as [Ht Hp]. split; [| done].
    intros l' ty [[= -> ->]%elem_of_singleton|?]%elem_of_union; [| by apply Hc].
    unfold work_typed in Ht. by rewrite Hv in Ht. }
  pose proof (pending_pop _ _ _ He Hp) as Hpop. unfold work_typed in Hpop.
  destruct (is_kind s "primitive") eqn:Hprim.
  { case_match eqn:Hd; [| done]. intros [= <-]. split; [done |]. cbn. split_bools.
    match goal with H : is_Some (typeof_primitive _) |- _ => destruct H as [d Hd'] end.
    apply Hpop. eapply ty_primitive; [done | done | by rewrite Hd' in * | done]. }
  destruct (is_kind s "variant") eqn:Hvar.
  { destruct (find_leaf _ _ _ _ _) as [[leaf|]|] eqn:Hf; try done.
    destruct (bool_decide_reflect (leaf = [])); [done |]. intros [= <-].
    split; [done |]. cbn. unfold work_typed. cbn. intros Hl. apply Hpop. by eapply ty_variant. }
  destruct (is_kind s "opaque") eqn:Hop.
  { destruct (bool_decide_reflect (declaration s = Some standard_failure_decl)).
    - destruct (isStandardFailure (work_value w)) eqn:Hstd; [| done]. intros [= <-]. split; [done |].
      apply Hpop. by eapply ty_standard.
    - intros [-> Ha]%verdict_of_more. split; [done |]. apply Hpop. by eapply ty_opaque. }
  destruct (is_kind s "callable" || is_kind s "choice_arm") eqn:Hcall.
  { intros [-> Ha]%verdict_of_more. split; [done |]. apply Hpop. by eapply ty_callable. }
  intros (l & Hv & Hact & [[Hch ->]|(o & kids & Hch & Ho & Hf & Hk & ->)])%enter_more;
    (split; [done |]); cbn [work]; rewrite Hv in *.
  - apply Hpop. apply Hc. by rewrite <- Hid.
  - apply pending_app; [by eapply children_length |]. intros Hkids. cbn [pending exit]. 
    assert (has_type (work_type w) (VRef l)) as Ht by (by eapply children_type).
    split; [unfold work_typed; cbn; by rewrite Hid | by apply Hpop].
Qed.

Lemma loop_sound Q fuel t :
  checked_typed t -> pending Q (work t) -> loop fuel t = Some true -> Q.
Proof.
  revert t. induction fuel as [|fuel IH]; intros t Hc Hp; cbn; [done |].
  destruct (step t) as [| |t'] eqn:Hs; [| done |].
  - intros _. unfold accept_step in Hs. destruct (work t) as [|w ws]; [done |].
    exfalso. revert Hs. clear. unfold verdict_of, enter. repeat (case_match; try done).
  - destruct (step_sound Q _ _ Hc Hp Hs) as [Hc' Hp']. by apply IH.
Qed.

Lemma accepts_sound fuel type v : loop fuel (initial type v) = Some true -> has_type type v.
Proof.
  apply loop_sound; [| cbn; done]. intros l ty Hl. cbn in Hl. set_solver.
Qed.

(** ** Completeness on data without cycles *)

(** References point to older objects: what building data one value at a time
    gives. *)
Definition well_built : Prop :=
  forall l o k l', objects h !! l = Some o -> (k, DataProp (VRef l')) ∈ props o -> (l' < l)%nat.

Definition below (v : value) (l : loc) : Prop := match v with VRef l' => (l' < l)%nat | _ => True end.

Lemma find_prop_in ps k d : find_prop ps k = Some d -> (k, d) ∈ ps.
Proof.
  unfold find_prop. destruct (find _ ps) as [[k' d']|] eqn:Hf; [| done]. intros [= <-].
  apply find_some in Hf as [Hin He%bool_decide_eq_true]. cbn in He. subst. by apply list_elem_of_In.
Qed.

Lemma property_below l k x : well_built -> dataProperty h (VRef l) k = Ret x -> below x l.
Proof.
  unfold dataProperty. intros Hw H. apply res_bind_ret in H as (o & Ho & H).
  destruct (find_prop (props o) k) as [[y|]|] eqn:Hp; try done. injection H as ->.
  apply find_prop_in in Hp. apply data_object_ref in Ho. destruct x; try done. by eapply Hw.
Qed.

Lemma typed_children type s l o :
  well_built -> get shapes (Some type) = Ret s -> data_object h (VRef l) = Ret o ->
  (is_kind s "array" = true /\ exists values, dataArray h (VRef l) = Ret values /\
     Forall (has_type (default [] (element s))) values) \/
  (is_kind s "array" = false /\ is_kind s "record" || is_kind s "error" = true /\
     recordIdentity h (VRef l) = Some (identity s) /\
     length (filter (fun k => is_text_key k = true) (props o).*1) = length (fields s) /\
     exists values, Forall2 (fun f x => dataProperty h (VRef l) (KStr f.1) = Ret x /\ has_type f.2 x) (fields s) values) ->
  exists kids, children h s (VRef l) = Ret kids /\
    Forall (fun w => exit w = false /\ work_typed w /\ below (work_value w) l) kids.
Proof.
  intros Hw Hget Ho [(Ha & xs & Hx & Ht)|(Ha & Hr & Hrec & Hlen & xs & Hf)]; unfold children; rewrite Ha.
  - rewrite Hx. cbn. eexists. split; [done |]. apply Forall_fmap.
    unfold dataArray in Hx. apply res_bind_ret in Hx as (o' & _ & Hx). case_hyp Hx; [done |].
    apply res_bind_ret in Hx as (len & _ & Hx). destruct (array_length len); [| done]. case_hyp Hx; [done |].
    apply map_res_ret in Hx. rewrite Forall_forall in *. intros x Hin. split_and!; [done | by apply Ht |].
    apply list_elem_of_lookup in Hin as [i Hi]. destruct (Forall2_lookup_r _ _ _ _ _ Hx Hi) as (j & _ & Hj).
    by eapply property_below.
  - rewrite Hr. unfold dataKeys. rewrite Ho. cbn [res_bind].
    rewrite bool_decide_eq_true_2, bool_decide_eq_true_2 by done. cbn [negb orb].
    clear Hlen. induction Hf as [|f x fs xs [Hp Ht] _ IH]; [by exists [] |].
    destruct IH as (kids & Hk & Hkids). cbn [map_res]. rewrite Hp. cbn [res_bind]. rewrite Hk. cbn.
    eexists. split; [done |]. constructor; [| done]. split_and!; [done | done |]. by eapply property_below.
Qed.

(** The entries above an exit hold younger values only. *)
Fixpoint ordered (ws : list Work) : Prop :=
  match ws with
  | [] => True
  | w :: ws => (forall l, l ∈ omap exit_loc ws -> below (work_value w) l) /\ ordered ws
  end.

Record complete_inv (t : traversal) : Prop := {
  ci_typed : Forall (fun w => exit w = false -> work_typed w) (work t);
  ci_exits : Forall (fun w => exit w = true -> exists s l, get shapes (Some (work_type w)) = Ret s /\
                                                  work_value w = VRef l) (work t);
  ci_ordered : ordered (work t)
}.

Lemma ordered_kids kids l type ws :
  Forall (fun w => exit w = false /\ work_typed w /\ below (work_value w) l) kids ->
  (forall l', l' ∈ omap exit_loc ws -> (l < l')%nat) -> ordered ws ->
  ordered (kids ++ mkWork type (VRef l) true :: ws).
Proof.
  intros Hk Hl Ho. induction Hk as [|w kids (He & _ & Hb) Hk IH]; [by split |]. split; [| done].
  intros l'. rewrite omap_app, omap_exit_none.
  - cbn. intros [->|Hin]%elem_of_cons; [done |]. specialize (Hl _ Hin).
    destruct (work_value w); try done. cbn in *. lia.
  - eapply Forall_impl; [exact Hk |]. by intros w' (? & _).
Qed.

Lemma complete_pop t w ws :
  work t = w :: ws -> complete_inv t -> complete_inv (mkTraversal ws (active t) (checked t)).
Proof.
  intros Hw [H1 H2 H3]. rewrite Hw in *. apply Forall_cons in H1 as [_ H1]. apply Forall_cons in H2 as [_ H2].
  destruct H3 as [_ H3]. by split.
Qed.

(** The step on a typed value, by the kind of the type. *)
Lemma enter_typed type s l o rest t ws :
  well_built -> entered shapes h t rest -> complete_inv t ->
  work t = mkWork type (VRef l) false :: ws ->
  get shapes (Some type) = Ret s -> data_object h (VRef l) = Ret o -> frozen o = true ->
  (exists kids, children h s (VRef l) = Ret kids /\
    Forall (fun w => exit w = false /\ work_typed w /\ below (work_value w) l) kids) ->
  exists t', enter h s (VRef l) ws t = More t' /\ complete_inv t'.
Proof.
  intros Hwb Hen Hci Hw Hget Ho Hf (kids & Hk & Hkids). pose proof (complete_pop _ _ _ Hw Hci) as Hpop.
  pose proof Hci as [H1 H2 H3]. rewrite Hw in *. destruct H3 as [Hb H3]. cbn [work_value] in Hb.
  unfold enter. rewrite bool_decide_eq_false_2.
  2:{ intros Hact. apply (en_active _ _ _ _ Hen) in Hact. rewrite Hw in Hact. cbn in Hact.
      specialize (Hb _ Hact). cbn in Hb. lia. }
  destruct (bool_decide _); [by eexists |]. rewrite Ho, Hf. cbn [negb]. rewrite Hk. eexists. split; [done |].
  apply Forall_cons in H1 as [Ht1 H1]. apply Forall_cons in H2 as [_ H2].
  assert (get shapes (Some (identity s)) = Ret s) as Hgs.
  { apply get_some in Hget as Hg. destruct Hg as (i & [= <-] & _ & Hs). by rewrite (identities _ _ Hs). }
  split; cbn [work].
  - apply Forall_app. split; [eapply Forall_impl; [exact Hkids | by intros w (_ & ? & _) _] |].
    constructor; [done | done].
  - apply Forall_app. split; [eapply Forall_impl; [exact Hkids | intros w (He & _) He'; congruence] |].
    constructor; [| done]. intros _. by exists s, l.
  - apply ordered_kids; [done | | done]. intros l' Hl'. by specialize (Hb _ Hl').
Qed.

Lemma leaf_inv t w ws leaf :
  work t = w :: ws -> complete_inv t -> has_type leaf (work_value w) ->
  complete_inv (mkTraversal (mkWork leaf (work_value w) false :: ws) (active t) (checked t)).
Proof.
  intros Hw Hci Hl. pose proof (complete_pop _ _ _ Hw Hci) as [H1 H2 _]. destruct Hci as [_ _ H3].
  rewrite Hw in H3. destruct H3 as [Hb H3]. split; cbn; [by constructor | by constructor | by split].
Qed.

(** A typed top entry has the kind of exactly one rule. *)
Ltac kinds := repeat match goal with
  | H : is_kind ?s ?k = true |- context [is_kind ?s ?k'] =>
      rewrite (is_kind_eq s k k' H ltac:(by vm_compute)) || rewrite H
  end; cbn [orb].

Lemma step_typed t rest w ws :
  well_built -> entered shapes h t rest -> complete_inv t -> work t = w :: ws -> exit w = false ->
  exists t', step t = More t' /\ complete_inv t'.
Proof.
  intros Hwb Hen Hci Hw He. pose proof Hci as [H1 _ _]. rewrite Hw in H1.
  apply Forall_cons in H1 as [Ht _]. specialize (Ht He). pose proof (complete_pop _ _ _ Hw Hci) as Hpop.
  unfold accept_step. rewrite Hw. destruct w as [type v ex]. cbn in He, Ht. subst ex. cbn [work_type work_value exit].
  unfold work_typed in Ht. cbn in Ht.
  inversion Ht as [? s ? d Hget Hk Hd Hv|? s ? leaf Hget Hk Hf Hne Hl|? s ? Hget Hk Hd Hstd|? s ? Hget Hk Hd Ha
    |? s ? Hget Hk Ha|? s l o xs Hget Hk Ho Hfr Hx Hall|? s l o xs Hget Hk Ho Hfr Hrec Hlen Hall]; subst; rewrite Hget.
  - kinds. rewrite Hv, Hd, !bool_decide_eq_true_2 by (done || by eexists). by eexists.
  - kinds. rewrite Hf, bool_decide_eq_false_2 by done. eexists. split; [done |].
    apply (leaf_inv _ _ _ leaf Hw Hci Hl).
  - kinds. rewrite bool_decide_eq_true_2, Hstd by done. by eexists.
  - kinds. rewrite bool_decide_eq_false_2, Ha by done. by eexists.
  - apply orb_true_iff in Hk as [Hk|Hk]; kinds; rewrite ?orb_true_r, Ha; by eexists.
  - kinds. eapply enter_typed; try done. eapply typed_children; try done. left. split; [done |]. by exists xs.
  - apply orb_true_iff in Hk as Hk'. destruct Hk' as [Hk'|Hk']; kinds;
      (eapply enter_typed; try done; eapply typed_children; try done; right;
       split_and!; [by apply (is_kind_eq s _ _ Hk') | done | done | done | by exists xs]).
Qed.

Lemma step_complete t rest :
  well_built -> entered shapes h t rest -> complete_inv t -> step t <> Accepted ->
  exists t', step t = More t' /\ complete_inv t'.
Proof.
  intros Hwb Hen Hci Hna. destruct (work t) as [|w ws] eqn:Hw.
  { unfold accept_step in Hna. by rewrite Hw in Hna. }
  destruct (exit w) eqn:He; [| by eapply step_typed].
  pose proof (complete_pop _ _ _ Hw Hci) as Hpop. pose proof Hci as [_ H2 _]. rewrite Hw in H2.
  apply Forall_cons in H2 as [Hx _]. destruct (Hx He) as (s & l & Hget & Hv).
  unfold accept_step. rewrite Hw, Hget, He, Hv. eexists. split; [done |].
  destruct Hpop as [H4 H5 H6]. by split.
Qed.

Hypothesis variants : forall id s leaf, shapes !! id = Some s -> is_kind s "variant" = true -> leaf ∈ leaves s ->
  exists s', get shapes (Some leaf) = Ret s' /\ leaf_kind s' = true.

Lemma loop_complete fuel t rest :
  well_built -> entered shapes h t rest -> complete_inv t -> loop fuel t <> Some false.
Proof.
  revert t rest. induction fuel as [|fuel IH]; intros t rest Hwb Hen Hci; [done |]. cbn.
  destruct (step t) as [| |t'] eqn:Hs; [done | |].
  - destruct (step_complete t rest Hwb Hen Hci) as (t' & Ht' & _); [by rewrite Hs | congruence].
  - destruct (step_complete t rest Hwb Hen Hci) as (t'' & Ht' & Hci'); [by rewrite Hs |].
    rewrite Hs in Ht'. injection Ht' as <-.
    destruct (step_progress shapes h isStandardFailure opaqueAdmission callableAdmission identities variants
      _ _ _ Hen Hs) as (rest' & Hen' & _). by apply (IH t' rest').
Qed.

Lemma accepts_complete fuel type v : well_built -> has_type type v -> loop fuel (initial type v) <> Some false.
Proof.
  intros Hwb Ht. eapply loop_complete; [done | by apply initial_entered |].
  split; cbn; [by repeat constructor | by repeat constructor |].
  split; [| done]. intros l Hl. by apply not_elem_of_nil in Hl.
Qed.
End typing.

(** ** The runtime of a validated plan *)

(** A runtime closes over the maps of a validated plan. *)
Definition of_plan (catalogue : Catalogue) (digestHex : jstr -> jstr -> jstr) (plan : ErrorPlan) (rt : runtime) : Prop :=
  validate catalogue digestHex plan = Ret (rt_declarations rt, rt_shapes rt).

Lemma plan_identities decls shapes :
  plan_ok decls shapes -> forall id s, shapes !! id = Some s -> identity s = id.
Proof. by intros []. Qed.

Lemma plan_variants decls shapes :
  plan_ok decls shapes -> forall id s leaf, shapes !! id = Some s -> is_kind s "variant" = true ->
  leaf ∈ leaves s -> exists s', get shapes (Some leaf) = Ret s' /\ leaf_kind s' = true.
Proof. intros H id s leaf Hs Hk. by apply (po_leaves _ _ H _ _ Hs Hk). Qed.

(** C16. The check of a payload against a type of a validated plan ends, on every
    heap — cycles, proxies and missing objects included — within a number of
    rounds bounded by the number of types times the size of the heap, and no more
    rounds change its answer. *)
Theorem accepts_terminates (catalogue : Catalogue) (digestHex : jstr -> jstr -> jstr) (plan : ErrorPlan)
    (rt : runtime) (Hp : of_plan catalogue digestHex plan rt) (h : heap) (type : jstr) (v : value) :
  exists b, rt_accepts rt h type v = Some b /\
    forall k, accept_loop (rt_shapes rt) h (rt_standard rt) (rt_opaque rt) (rt_callable rt)
                (accept_fuel (rt_shapes rt) h + k) (initial type v) = Some b.
Proof.
  apply validate_ok in Hp as (Hok & _).
  destruct (accepts_returns (rt_shapes rt) h (rt_standard rt) (rt_opaque rt) (rt_callable rt)
    (plan_identities _ _ Hok) (plan_variants _ _ Hok) type v) as [b Hb].
  exists b. split; [| done]. specialize (Hb 0%nat). by rewrite Nat.add_0_r in Hb.
Qed.

Abbreviation rt_has_type rt h := (has_type (rt_shapes rt) h (rt_standard rt) (rt_opaque rt) (rt_callable rt)).

(** C17. The iterative check, with its active set and its memo of checked objects,
    decides the declarative types: what it accepts has a finite typing derivation
    on any heap, and on data built by the runtime, whose references point to
    older objects, everything that has the type is accepted. *)
Theorem accepts_is_typing (catalogue : Catalogue) (digestHex : jstr -> jstr -> jstr) (plan : ErrorPlan)
    (rt : runtime) (Hp : of_plan catalogue digestHex plan rt) (h : heap) (type : jstr) (v : value) :
  (rt_accepts rt h type v = Some true -> rt_has_type rt h type v) /\
  (well_built h -> rt_accepts rt h type v = Some true <-> rt_has_type rt h type v).
Proof.
  apply validate_ok in Hp as (Hok & _). pose proof (plan_identities _ _ Hok) as Hid.
  pose proof (plan_variants _ _ Hok) as Hv.
  assert (rt_accepts rt h type v = Some true -> rt_has_type rt h type v) as Hs by (by apply accepts_sound).
  split; [done |]. intros Hwb. split; [done |]. intros Ht.
  destruct (accepts_returns (rt_shapes rt) h (rt_standard rt) (rt_opaque rt) (rt_callable rt) Hid Hv type v) as [b Hb].
  specialize (Hb 0%nat). rewrite Nat.add_0_r in Hb. unfold rt_accepts, accepts. rewrite Hb.
  destruct b; [done |]. by apply accepts_complete in Hb.
Qed.

(** A plan that validates is well formed: every shape is filed under its own
    identity, which the digest of its canonical key confirms; every reference
    resolves; fields are distinct; variants have distinct leaves of leaf kinds;
    error types are declared with as many parameters as arguments. *)
Theorem validated_plan (catalogue : Catalogue) (digestHex : jstr -> jstr -> jstr) (plan : ErrorPlan)
    (decls : gmap jstr ErrorDeclaration) (shapes : gmap jstr FailureShape)
    (H : validate catalogue digestHex plan = Ret (decls, shapes)) :
  plan_ok decls shapes /\
  (forall id s, shapes !! id = Some s <-> s ∈ Domain.shapes plan /\ identity s = id) /\
  (forall id s, shapes !! id = Some s -> exists key, shapeIdentityKey s (get shapes) = Ret key /\
     digestHex (concreteTypeDigestInput key) id = id).
Proof. by apply (validate_ok catalogue). Qed.

(** ** Occurrences *)

(** Every occurrence was created for a declared error with a payload that was
    accepted; its number is below the counter and its token is taken. *)
Definition occurrences_ok (rt : runtime) (s : occurrences) : Prop :=
  forall t d, details s !! t = Some d ->
    (t < next_token s)%nat /\ occurrenceID d < nextOccurrence s /\
    (exists h, rt_accepts rt h (typeIdentity d) (payload d) = Some true) /\
    exists shape name, get (rt_shapes rt) (Some (typeIdentity d)) = Ret shape /\
      declaration shape = Some name /\ rt_declarations rt !! name = Some (details_declaration d) /\
      typeArguments d = arguments shape.

Inductive created (rt : runtime) : occurrences -> Prop :=
| created_none n : created rt (mkOccurrences ∅ 0 n)
| created_step s h type v cause t s' :
    created rt s -> create rt h s type v cause = Ret (t, s') -> created rt s'.

Lemma create_cases rt h s type v cause t s' :
  create rt h s type v cause = Ret (t, s') ->
  exists shape d, get (rt_shapes rt) (Some type) = Ret shape /\ is_kind shape "error" = true /\
    rt_declarations rt !! default [] (declaration shape) = Some d /\
    rt_accepts rt h type v = Some true /\ t = next_token s /\
    s' = mkOccurrences (<[t := mkDetails (nextOccurrence s) d type (arguments shape) v cause]> (details s))
           (S (next_token s)) (nextOccurrence s + 1).
Proof.
  unfold create. intros (shape & Hget & H)%res_bind_ret.
  destruct (rt_declarations rt !! _) as [d|] eqn:Hd; [| done].
  destruct (is_kind shape "error" && bool_decide _) eqn:Hc; [| done]. split_bools. injection H as <- <-.
  by exists shape, d.
Qed.

Lemma created_ok catalogue digestHex plan rt s :
  of_plan catalogue digestHex plan rt -> created rt s ->
  occurrences_ok rt s /\
  (forall t t' d d', details s !! t = Some d -> details s !! t' = Some d' -> occurrenceID d = occurrenceID d' -> t = t').
Proof.
  intros Hp Hc. apply validate_ok in Hp as (Hok & _).
  induction Hc as [n|s h type v cause t s' _ [IH IHid] H].
  { split; [intros t d Hd | intros t t' d d' Hd]; cbn in Hd; by rewrite lookup_empty in Hd. }
  apply create_cases in H as (shape & d & Hget & Hk & Hd & Ha & -> & ->).
  assert (exists name, declaration shape = Some name /\ rt_declarations rt !! name = Some d) as (name & Hname & Hdn).
  { apply get_some in Hget as Hs. destruct Hs as (i & _ & _ & Hs).
    destruct (po_errors _ _ Hok _ _ Hs Hk) as (name & d' & Hname & Hd' & _). rewrite Hname in Hd. cbn in Hd.
    exists name. by simplify_eq. }
  assert (details s !! next_token s = None) as Hfresh.
  { destruct (details s !! next_token s) as [d'|] eqn:Hl; [| done]. apply IH in Hl as (? & _). lia. }
  split.
  - intros t' d' Hl. cbn in Hl |- *. apply lookup_insert_Some in Hl as [[<- <-]|[Hne Hl]].
    + cbn. split_and!; [lia | lia | by exists h | by exists shape, name].
    + destruct (IH _ _ Hl) as (H1 & H2 & H3). split_and!; [lia | lia | apply H3 | apply H3].
  - intros t1 t2 d1 d2 H1 H2 Heq. cbn in H1, H2.
    apply lookup_insert_Some in H1 as [[<- <-]|[Hn1 H1]]; apply lookup_insert_Some in H2 as [[<- <-]|[Hn2 H2]];
      cbn in Heq.
    + done.
    + destruct (IH _ _ H2) as (_ & ? & _). lia.
    + destruct (IH _ _ H1) as (_ & ? & _). lia.
    + by eapply IHid.
Qed.

Lemma declare_keys catalogue l known decls :
  fold_res (declare catalogue) l known = Ret decls ->
  (forall id d, known !! id = Some d -> decl_identity d = id) ->
  forall id d, decls !! id = Some d -> decl_identity d = id.
Proof.
  revert known. induction l as [|d l IH]; intros known H Hk; cbn in H; [by injection H as <- |].
  apply res_bind_ret in H as (known' & Hd & H). apply (IH _ H). clear IH H.
  assert (known' = <[decl_identity d := d]> known) as ->.
  { unfold declare, guard_throw in Hd. repeat (case_hyp Hd; try done); by injection Hd as <-. }
  intros id d' Hl. apply lookup_insert_Some in Hl as [[<- <-]|[_ Hl]]; [done | by apply Hk].
Qed.

Lemma declared_identity catalogue digestHex plan rt :
  of_plan catalogue digestHex plan rt ->
  forall name d, rt_declarations rt !! name = Some d -> decl_identity d = name.
Proof.
  unfold of_plan, validate. intros (ds & Hds & H)%res_bind_ret.
  apply res_bind_ret in H as (ss & _ & H). apply res_bind_ret in H as (us & _ & H). injection H as -> _.
  apply (declare_keys _ _ _ _ Hds). intros id d Hl. by rewrite lookup_empty in Hl.
Qed.

(** Occurrences a runtime has created have distinct numbers and payloads of
    their types, and [checkBound] lets one escape exactly when its type is among
    the declared ones; a token that is no occurrence never escapes. *)
Theorem escaping_occurrences (catalogue : Catalogue) (digestHex : jstr -> jstr -> jstr) (plan : ErrorPlan)
    (rt : runtime) (s : occurrences) (t : nat) (allowed : list jstr)
    (Hp : of_plan catalogue digestHex plan rt) (Hc : created rt s) :
  checkBound rt s t allowed =
    match details s !! t with
    | Some d => if decide (typeIdentity d ∈ allowed) then Ret t else Throw "undeclared escaping domain error"
    | None => Throw "invalid domain occurrence"
    end /\
  (forall d, details s !! t = Some d -> exists h, rt_has_type rt h (typeIdentity d) (payload d)) /\
  (forall t' d d', details s !! t = Some d -> details s !! t' = Some d' -> occurrenceID d = occurrenceID d' -> t = t').
Proof.
  destruct (created_ok _ _ _ _ _ Hp Hc) as [Hok Huniq]. split_and!; [| | by apply Huniq].
  - unfold checkBound, domainFailureDiagnostics. destruct (details s !! t) as [d|] eqn:Hd; [| done]. cbn.
    destruct (Hok _ _ Hd) as (_ & _ & _ & shape & name & _ & _ & Hn & _). rewrite (declared_identity _ _ _ _ Hp _ _ Hn), Hn.
    rewrite !bool_decide_eq_true_2 by done. cbn [andb]. unfold guard_throw.
    destruct (decide _); [by rewrite bool_decide_eq_true_2 | by rewrite bool_decide_eq_false_2].
  - intros d Hd. destruct (Hok _ _ Hd) as (_ & _ & [h Ha] & _). exists h.
    apply validate_ok in Hp as (Hpl & _). by eapply accepts_sound; [apply (plan_identities _ _ Hpl) |].
Qed.

(** ** Data built by the runtime *)

(** A value whose object, if it has one, exists already. *)
Definition exists_in (h : heap) (v : value) : Prop := match v with VRef l => (l < fresh h)%nat | _ => True end.

Inductive built : heap -> Prop :=
| built_empty : built (mkHeap ∅ ∅ ∅ 0)
| built_record h identity fields v h' :
    built h -> Forall (fun f => exists_in h f.2) fields -> record h identity fields = Ret (v, h') -> built h'
| built_update h original replacements v h' :
    built h -> Forall (fun r => exists_in h r.2) replacements -> update h original replacements = Ret (v, h') -> built h'
| built_array h elements :
    built h -> Forall (exists_in h) elements -> built (array h elements).2
| built_opaque h l values h' :
    built h -> registerOpaqueContents h l values = Ret h' -> built h'.

(** References below [n]. *)
Definition props_below (n : nat) (ps : list (key * descriptor)) : Prop :=
  forall k l, (k, DataProp (VRef l)) ∈ ps -> (l < n)%nat.

Record built_ok (h : heap) : Prop := {
  bo_objects : forall l o, objects h !! l = Some o ->
    (l < fresh h)%nat /\ frozen o = true /\ is_proxy o = false /\ is_function o = false /\ props_below l (props o);
  bo_nominal : forall l id, nominalRecords h !! l = Some id -> exists o, objects h !! l = Some o /\ is_array o = false
}.

Lemma define_fields_below n fields ps ps' :
  define_fields fields ps = Ret ps' ->
  (forall f l, f ∈ fields -> f.2 = VRef l -> (l < n)%nat) -> props_below n ps -> props_below n ps'.
Proof.
  revert ps. induction fields as [|[name v] fields IH]; intros ps H Hf Hp; cbn in H; [by injection H as <- |].
  assert (forall f l, f ∈ fields -> f.2 = VRef l -> (l < n)%nat) as Hf' by (intros f l ?; apply Hf; by right).
  destruct (find_prop ps (KStr name)) as [[w|]|]; [case_hyp H; [by apply (IH ps) | done] | done |].
  apply (IH _ H Hf'). intros k l [Hin|[= -> <-]%list_elem_of_singleton]%elem_of_app; [by eapply Hp |].
  by apply (Hf (name, VRef l)); [left |].
Qed.

Lemma put_below n ps k d :
  props_below n ps -> (forall l, d = DataProp (VRef l) -> (l < n)%nat) -> props_below n (put ps k d).
Proof.
  intros Hp Hd. induction ps as [|[k' d'] ps IH]; cbn.
  - intros k0 l [= -> <-]%list_elem_of_singleton. by apply Hd.
  - assert (props_below n ps) as Hps by (intros k0 l Hin; apply (Hp k0); by right).
    case_bool_decide; intros k0 l [[= -> <-]|Hin]%elem_of_cons.
    + by apply Hd.
    + by eapply Hps.
    + eapply Hp. by left.
    + by eapply (IH Hps).
Qed.

Lemma alloc_built h o identity :
  built_ok h -> frozen o = true -> is_proxy o = false -> is_function o = false -> props_below (fresh h) (props o) ->
  (is_Some identity -> is_array o = false) -> built_ok (alloc h o identity).2.
Proof.
  intros [H1 H2] Hf Hp Hfn Hb Ha. split; cbn.
  - intros l o' Hl. apply lookup_insert_Some in Hl as [[<- <-]|[_ Hl]]; [by split_and!; [lia |..] |].
    destruct (H1 _ _ Hl) as (? & ?). by split; [lia |].
  - intros l id Hl. destruct identity as [i|].
    + apply lookup_insert_Some in Hl as [[<- <-]|[Hne Hl]].
      * exists o. rewrite lookup_insert_eq. split; [done |]. by apply Ha.
      * destruct (H2 _ _ Hl) as (o' & ? & ?). exists o'. by rewrite lookup_insert_ne.
    + destruct (H2 _ _ Hl) as (o' & Ho & ?). exists o'. split; [| done]. rewrite lookup_insert_ne; [done |].
      destruct (H1 _ _ Ho) as [? _]. lia.
Qed.

Lemma built_is_ok h : built h -> built_ok h.
Proof.
  induction 1 as [|h identity fields v h' _ IH Hf H|h original rs v h' _ IH Hr H|h elements _ IH He|h l values h' _ IH H].
  - split; cbn; intros l x Hl; by rewrite lookup_empty in Hl.
  - unfold record in H. apply res_bind_ret in H as (ps & Hps & H). injection H as <- <-.
    apply (alloc_built h (mkObject false false false true ps) (Some identity)); try done. cbn. eapply define_fields_below; [done | |].
    + rewrite Forall_forall in Hf. intros f l Hin Hv. specialize (Hf _ Hin). by rewrite Hv in Hf.
    + intros k l [= ?]%list_elem_of_singleton.
  - unfold update in H. destruct (recordIdentity h original) as [[|c id]|] eqn:Hid; try done.
    apply res_bind_ret in H as (o & Ho & [= <- <-]).
    apply (alloc_built h (mkObject false false false true _) (Some (c :: id))); try done. cbn.
    destruct original as [| | | | | |l]; try done. apply data_object_ref in Ho.
    destruct (bo_objects _ IH _ _ Ho) as (Hl & _ & _ & _ & Hb).
    assert (props_below (fresh h) (props o)) as Hps by (intros k l' Hin; specialize (Hb k l' Hin); lia).
    clear -Hr Hps. revert Hps. generalize (props o). induction Hr as [|[name v] rs Hv _ IH]; intros ps Hps; [done |].
    cbn. apply IH. apply put_below; [done |]. intros l [= ->]. done.
  - apply alloc_built; try done. cbn. intros k l [Hin|Hin]%elem_of_app.
    + apply list_elem_of_lookup in Hin as [i Hi]. rewrite list_lookup_imap in Hi.
      destruct (elements !! i) as [x|] eqn:Hx; [| done]. cbn in Hi. injection Hi as _ ->.
      rewrite Forall_forall in He. apply (He (VRef l)). by eapply list_elem_of_lookup_2.
    + by apply list_elem_of_singleton in Hin.
  - unfold registerOpaqueContents in H. destruct (opaqueChildren h !! l); [done |]. injection H as <-.
    by destruct IH; split.
Qed.

(** Every heap that [record], [update], [array] and [registerOpaqueContents]
    build out of values they returned holds frozen, non-proxy objects only, whose
    references point to older objects, so it has no cycles; nominal identities
    belong to records. *)
Theorem built_data_acyclic (h : heap) (H : built h) :
  well_built h /\
  (forall l o, objects h !! l = Some o -> frozen o = true /\ is_proxy o = false /\ is_function o = false) /\
  (forall l id, nominalRecords h !! l = Some id -> exists o, objects h !! l = Some o /\ is_array o = false).
Proof.
  destruct (built_is_ok h H) as [H1 H2]. split_and!; [| | done].
  - intros l o k l' Ho Hin. destruct (H1 _ _ Ho) as (_ & _ & _ & _ & Hb). by eapply Hb.
  - intros l o Ho. destruct (H1 _ _ Ho) as (_ & ? & ? & ? & _). done.
Qed.

(** ** A plan *)

(** With the canonical input itself for digest, identities are their own keys. *)
Definition demo_digest (input claimed : jstr) : jstr := input.

Definition text_key (parts : list string) : jstr := concreteTypeDigestInput ((fun s => KeyText (js s)) <$> parts).

Definition int_id : jstr := text_key ["primitive"; "int"].
Definition list_id : jstr := concreteTypeDigestInput [KeyText (js "array"); KeyText []; KeyText int_id].
Definition bad_id : jstr := text_key ["error"; "can.project.shop@1::bad"].

Definition demo_shape (id : jstr) (k : string) (d : option jstr) (fs : list (jstr * jstr)) (e : option jstr) : FailureShape :=
  mkShape id (js k) d [] fs [] e None [] [].

Definition demo_plan : ErrorPlan :=
  mkPlan [mkDeclaration (js "can.project.shop@1::bad") (js "shop::bad") (num_of_Z 0)]
    [demo_shape int_id "primitive" (Some (js "int")) [] None;
     demo_shape list_id "array" None [] (Some int_id);
     demo_shape bad_id "error" (Some (js "can.project.shop@1::bad"))
       [(js "code", int_id); (js "rows", list_id)] None].

Definition demo_catalogue : Catalogue := mkCatalogue [mkErrorEntry (js "can.number@1::zero") (js "zero") 0] [].

Definition demo_maps : gmap jstr ErrorDeclaration * gmap jstr FailureShape :=
  match validate demo_catalogue demo_digest demo_plan with Ret m => m | Throw _ => (∅, ∅) end.

Definition demo_runtime : runtime := mkRuntime demo_maps.1 demo_maps.2 (fun _ => false) None None.

Lemma demo_validates : of_plan demo_catalogue demo_digest demo_plan demo_runtime.
Proof.
  assert (is_ret (validate demo_catalogue demo_digest demo_plan) = true) as H by (vm_compute; reflexivity).
  unfold of_plan. cbn [rt_declarations rt_shapes demo_runtime]. unfold demo_maps.
  by destruct (validate demo_catalogue demo_digest demo_plan) as [[decls shapes]|].
Qed.

(** [bad(code: 7, rows: [1, 2])] and an array that contains itself. *)
Definition demo_heap : heap :=
  let '(rows, h) := array (mkHeap ∅ ∅ ∅ 0) [VBigInt 1; VBigInt 2] in
  match record h bad_id [(js "code", VBigInt 7); (js "rows", rows)] with
  | Ret (_, h) => h
  | Throw _ => h
  end.

Definition cyclic_heap : heap :=
  mkHeap {[ 0%nat := mkObject true false false true
    [(index_key 0, DataProp (VRef 0)); (length_key, DataProp (VNum (num_of_Z 1)))] ]} ∅ ∅ 1.

Example demo_accepts : rt_accepts demo_runtime demo_heap bad_id (VRef 1) = Some true.
Proof. vm_compute. reflexivity. Qed.
Example demo_rejects_cycle : rt_accepts demo_runtime cyclic_heap list_id (VRef 0) = Some false.
Proof. vm_compute. reflexivity. Qed.

Lemma accepts_terminates_witness :
  of_plan demo_catalogue demo_digest demo_plan demo_runtime /\
  exists b, rt_accepts demo_runtime cyclic_heap list_id (VRef 0) = Some b.
Proof.
  split; [exact demo_validates |].
  destruct (accepts_terminates demo_catalogue demo_digest demo_plan demo_runtime demo_validates cyclic_heap list_id (VRef 0))
    as (b & Hb & _). by exists b.
Defined.

Lemma accepts_is_typing_witness : rt_has_type demo_runtime demo_heap bad_id (VRef 1).
Proof.
  exact (proj1 (accepts_is_typing demo_catalogue demo_digest demo_plan demo_runtime demo_validates
    demo_heap bad_id (VRef 1)) demo_accepts).
Defined.

Lemma validated_plan_witness : plan_ok demo_maps.1 demo_maps.2.
Proof. exact (proj1 (validated_plan demo_catalogue demo_digest demo_plan _ _ demo_validates)). Defined.

Lemma escaping_occurrences_witness :
  exists s, created demo_runtime s /\ checkBound demo_runtime s 0 [bad_id] = Ret 0%nat /\
    checkBound demo_runtime s 0 [int_id] = Throw "undeclared escaping domain error".
Proof.
  destruct (create demo_runtime demo_heap (mkOccurrences ∅ 0 0) bad_id (VRef 1) VUndefined) as [[t s]|] eqn:Hc;
    [| vm_compute in Hc; discriminate].
  pose proof (created_step demo_runtime _ _ _ _ _ _ _ (created_none demo_runtime 0) Hc) as Hcr.
  assert (exists d, details s !! 0%nat = Some d /\ typeIdentity d = bad_id) as (d & Hd & Ht).
  { apply create_cases in Hc as (shape & d & _ & _ & _ & _ & -> & ->). eexists. split; [apply lookup_insert_eq | done]. }
  exists s. split; [done |]. split.
  - rewrite (proj1 (escaping_occurrences _ _ _ _ _ 0 [bad_id] demo_validates Hcr)), Hd, Ht.
    rewrite decide_True; [done | by left].
  - rewrite (proj1 (escaping_occurrences _ _ _ _ _ 0 [int_id] demo_validates Hcr)), Hd, Ht.
    rewrite decide_False; [done |]. intros [H|H]%elem_of_cons; [by vm_compute in H | by apply not_elem_of_nil in H].
Defined.

Lemma built_data_acyclic_witness : well_built (array (mkHeap ∅ ∅ ∅ 0) [VBigInt 1]).2.
Proof.
  apply (built_data_acyclic (array (mkHeap ∅ ∅ ∅ 0) [VBigInt 1]).2).
  apply built_array; [constructor | repeat constructor].
Defined.
