(* ===== verification/Digits.v ===== *)
(** * Digit strings

    The value of a string of decimal digits against its length, its leading and
    trailing zeros and the order of strings: what the codec's exact integers
    and the length bounds of the routes rest on. *)
From stdpp Require Import base list strings.
From Stdlib Require Import ZArith Lia.
From S2P Require Import Prelude JsString Numbers.

Definition digits_value (s : jstr) : Z := Z.of_N (dec_value s).

Lemma all_digits_app s t : all_digits (s ++ t) = all_digits s && all_digits t.
Proof. unfold all_digits. apply forallb_app. Qed.

Lemma all_digits_cons c s : all_digits (c :: s) = true -> (48 <= c <= 57)%N /\ all_digits s = true.
Proof.
  intros [Hc Hs]%andb_true_iff. split; [by apply is_digit_spec | done].
Qed.

Lemma all_digits_rev s : all_digits (rev s) = all_digits s.
Proof.
  induction s as [|c s IH]; [done |]. cbn [rev]. rewrite all_digits_app, IH.
  unfold all_digits. cbn. rewrite andb_true_r. apply andb_comm.
Qed.

Lemma all_digits_replicate n : all_digits (replicate n 48%N) = true.
Proof. by induction n. Qed.

Lemma all_digits_take n s : all_digits s = true -> all_digits (take n s) = true.
Proof.
  rewrite <- (take_drop n s) at 1. rewrite all_digits_app. by intros [? _]%andb_true_iff.
Qed.

Lemma digits_value_nonneg s : 0 <= digits_value s.
Proof. unfold digits_value. lia. Qed.

Lemma digits_value_snoc s c : (48 <= c)%N -> digits_value (s ++ [c]) = digits_value s * 10 + (Z.of_N c - 48).
Proof. intros Hc. unfold digits_value. rewrite dec_value_snoc. lia. Qed.

Lemma digits_value_app s t :
  all_digits t = true -> digits_value (s ++ t) = digits_value s * 10 ^ Z.of_nat (length t) + digits_value t.
Proof.
  induction t as [|c t IH] using rev_ind; intros Ht.
  - rewrite app_nil_r. change (digits_value []) with 0. cbn. lia.
  - rewrite all_digits_app in Ht. apply andb_true_iff in Ht as [Ht Hc].
    apply all_digits_cons in Hc as [Hc _].
    rewrite app_assoc, !digits_value_snoc, IH by (done || lia).
    rewrite length_app, Nat2Z.inj_add, Z.pow_add_r by lia. cbn [length]. lia.
Qed.

Lemma digits_value_cons c s :
  all_digits (c :: s) = true ->
  digits_value (c :: s) = (Z.of_N c - 48) * 10 ^ Z.of_nat (length s) + digits_value s.
Proof.
  intros H. pose proof (all_digits_cons _ _ H) as [Hc Hs].
  rewrite (digits_value_app [c] s Hs : digits_value (c :: s) = _).
  f_equal. f_equal. change [c] with ([] ++ [c]). rewrite digits_value_snoc by lia.
  change (digits_value []) with 0. lia.
Qed.

Lemma digits_value_zeros n : digits_value (replicate n 48%N) = 0.
Proof.
  induction n as [|n IH]; [done |]. cbn [replicate]. rewrite digits_value_cons, IH; [lia |].
  exact (all_digits_replicate (S n)).
Qed.

Lemma digits_value_lt s : all_digits s = true -> digits_value s < 10 ^ Z.of_nat (length s).
Proof.
  induction s as [|c s IH] using rev_ind; intros H; [done |].
  rewrite all_digits_app in H. apply andb_true_iff in H as [Hs Hc].
  apply all_digits_cons in Hc as [Hc _]. rewrite digits_value_snoc by lia. specialize (IH Hs).
  rewrite length_app, Nat2Z.inj_add, Z.pow_add_r by lia. cbn [length]. lia.
Qed.

(** A string of digits that does not start with a zero. *)
Definition leading (s : jstr) : Prop := all_digits s = true /\ s <> [] /\ head s <> Some 48%N.

Lemma leading_integer s : leading s -> integer_digits s = true.
Proof.
  intros (Hd & Hne & Hh). destruct s as [|c s]; [done |].
  assert (c <> 48%N) as Hc by (cbn in Hh; congruence).
  unfold all_digits in Hd. cbn [forallb] in Hd. apply andb_true_iff in Hd as [Hc' Hs].
  assert (is_digit c && negb (c =? 48)%N && all_digits s = true) as H.
  { rewrite Hc'. unfold all_digits. rewrite Hs, andb_true_r. apply negb_true_iff. by apply N.eqb_neq. }
  unfold integer_digits. repeat case_goal; subst; done.
Qed.

Lemma leading_text s : leading s -> dec_of_N (dec_value s) = s.
Proof. intros H. by apply dec_of_N_of_value, leading_integer. Qed.

Lemma leading_ge s : leading s -> 10 ^ (Z.of_nat (length s) - 1) <= digits_value s.
Proof.
  intros (Hd & Hne & Hh). destruct s as [|c s]; [done |].
  rewrite digits_value_cons by done. pose proof (all_digits_cons _ _ Hd) as [Hc _].
  pose proof (digits_value_nonneg s). assert (c <> 48%N) by (cbn in Hh; congruence).
  replace (Z.of_nat (length (c :: s)) - 1) with (Z.of_nat (length s)) by (cbn; lia).
  assert (0 < 10 ^ Z.of_nat (length s)) by (apply Z.pow_pos_nonneg; lia). nia.
Qed.

Lemma leading_pos s : leading s -> 0 < digits_value s.
Proof.
  intros H. pose proof (leading_ge s H). destruct H as (_ & Hne & _).
  assert (0 < 10 ^ (Z.of_nat (length s) - 1)); [| lia].
  apply Z.pow_pos_nonneg; [lia |]. destruct s; cbn; [done | lia].
Qed.

Lemma leading_app s t : leading s -> all_digits t = true -> leading (s ++ t).
Proof.
  intros (Hd & Hne & Hh) Ht. unfold leading. rewrite all_digits_app, Hd, Ht.
  destruct s; [done |]. split_and!; done.
Qed.

Lemma leading_take n s : leading s -> (0 < n)%nat -> leading (take n s).
Proof.
  intros (Hd & Hne & Hh) Hn. split_and!; [by apply all_digits_take | |];
    destruct s, n; cbn in *; try done; lia.
Qed.

(** ** Rendered integers and their length *)

Lemma text_leading n : (0 < n)%N -> leading (dec_of_N n).
Proof.
  intros Hn. pose proof (dec_of_N_digits n) as H. apply integer_digits_cases in H as [H|H].
  - apply (f_equal dec_value) in H. rewrite dec_value_dec_of_N in H. change (dec_value [48%N]) with 0%N in H. lia.
  - destruct H as (Hh & Hne & Hd). done.
Qed.

Lemma text_all_digits n : all_digits (dec_of_N n) = true.
Proof.
  pose proof (dec_of_N_digits n) as H. apply integer_digits_cases in H as [->|(_ & _ & H)]; done.
Qed.

Lemma text_length n k :
  (1 <= k)%nat -> (length (dec_of_N n) <= k)%nat <-> Z.of_N n < 10 ^ Z.of_nat k.
Proof.
  intros Hk. destruct (decide (n = 0%N)) as [->|Hn].
  - split; [intros _; change (Z.of_N 0) with 0; apply Z.pow_pos_nonneg; lia | cbn; lia].
  - pose proof (text_leading n ltac:(lia)) as Hl. pose proof (leading_ge _ Hl) as Hge.
    pose proof (digits_value_lt _ (proj1 Hl)) as Hlt. unfold digits_value in *.
    rewrite dec_value_dec_of_N in *. split; intros H.
    + apply Z.lt_le_trans with (1 := Hlt). apply Z.pow_le_mono_r; lia.
    + assert (10 ^ (Z.of_nat (length (dec_of_N n)) - 1) < 10 ^ Z.of_nat k) as Hp by lia.
      apply Z.pow_lt_mono_r_iff in Hp; lia.
Qed.

Lemma text_nonempty n : dec_of_N n <> [].
Proof.
  pose proof (dec_of_N_digits n). by destruct (dec_of_N n).
Qed.

(** ** Leading and trailing zeros *)

Fixpoint drop_zeros (s : jstr) : jstr :=
  match s with
  | 48%N :: rest => drop_zeros rest
  | _ => s
  end.

Lemma drop_zeros_eq s : exists n, s = replicate n 48%N ++ drop_zeros s.
Proof.
  induction s as [|c s [n IH]]; [by exists 0%nat |].
  destruct (decide (c = 48%N)) as [->|Hc].
  - exists (S n). cbn. by rewrite <- IH.
  - exists 0%nat. cbn. repeat case_goal; subst; done.
Qed.

Lemma drop_zeros_head s : head (drop_zeros s) <> Some 48%N.
Proof.
  induction s as [|c s IH]; [done |]. destruct (decide (c = 48%N)) as [->|Hc]; [done |].
  assert (drop_zeros (c :: s) = c :: s) as -> by (cbn; repeat case_goal; subst; done).
  cbn. congruence.
Qed.

Lemma drop_zeros_digits s : all_digits s = true -> all_digits (drop_zeros s) = true.
Proof.
  destruct (drop_zeros_eq s) as [n Hs]. rewrite Hs at 1. rewrite all_digits_app.
  by intros [_ ?]%andb_true_iff.
Qed.

Lemma drop_zeros_value s : all_digits s = true -> digits_value (drop_zeros s) = digits_value s.
Proof.
  intros H. destruct (drop_zeros_eq s) as [n Hs].
  rewrite Hs at 2. rewrite digits_value_app, digits_value_zeros by by apply drop_zeros_digits. lia.
Qed.

Lemma drop_zeros_leading s : all_digits s = true -> drop_zeros s <> [] -> leading (drop_zeros s).
Proof. intros H Hne. split_and!; [by apply drop_zeros_digits | done | apply drop_zeros_head]. Qed.

(** How many zeros end [s]. *)
Definition trailing_zeros (s : jstr) : nat := length s - length (drop_zeros (rev s)).

Lemma trailing_zeros_eq s :
  s = rev (drop_zeros (rev s)) ++ replicate (trailing_zeros s) 48%N.
Proof.
  unfold trailing_zeros. destruct (drop_zeros_eq (rev s)) as [n Hn].
  assert (length s = n + length (drop_zeros (rev s)))%nat as ->.
  { rewrite <- (length_rev s), Hn at 1. by rewrite length_app, length_replicate. }
  rewrite Nat.add_sub. apply (f_equal (@rev N)) in Hn. rewrite rev_involutive, rev_app_distr in Hn.
  rewrite Hn at 1. f_equal. rewrite rev_alt. apply reverse_replicate.
Qed.

(** The trailing zeros are the powers of ten that divide the value. *)
Lemma trailing_zeros_divide s k :
  leading s -> (10 ^ Z.of_nat k | digits_value s) <-> (k <= trailing_zeros s)%nat.
Proof.
  intros Hl. pose proof (proj1 Hl) as Hd. pose proof (leading_pos s Hl) as Hpos.
  pose proof (drop_zeros_head (rev s)) as Hh. pose proof (trailing_zeros_eq s) as Heq.
  set (t := trailing_zeros s) in *. destruct (drop_zeros (rev s)) as [|c u] eqn:Hu.
  { rewrite Heq in Hpos. cbn [rev app] in Hpos. rewrite digits_value_zeros in Hpos. lia. }
  cbn [rev] in Heq. rewrite Heq in Hd. rewrite all_digits_app in Hd.
  apply andb_true_iff in Hd as [Hdu _]. rewrite all_digits_app in Hdu.
  apply andb_true_iff in Hdu as [Hdu Hc]. apply all_digits_cons in Hc as [Hc _].
  assert (digits_value s = (digits_value (rev u) * 10 + (Z.of_N c - 48)) * 10 ^ Z.of_nat t) as Hv.
  { rewrite Heq, digits_value_app, digits_value_zeros, digits_value_snoc, length_replicate
      by (apply all_digits_replicate || lia). lia. }
  assert (c <> 48%N) as Hc48 by (cbn in Hh; congruence).
  rewrite Hv. split.
  - intros [q Hq]. destruct (le_lt_dec k t) as [|Hlt]; [done | exfalso].
    replace (Z.of_nat k) with (1 + Z.of_nat (k - t - 1) + Z.of_nat t) in Hq by lia.
    rewrite !Z.pow_add_r, Z.mul_assoc in Hq by lia.
    apply Z.mul_reg_r in Hq; [| apply Z.pow_nonzero; lia].
    change (10 ^ 1) with 10 in Hq. pose proof (Z.mod_add (Z.of_N c - 48) (digits_value (rev u)) 10 ltac:(lia)).
    assert ((digits_value (rev u) * 10 + (Z.of_N c - 48)) mod 10 = 0) as H0.
    { rewrite Hq. replace (q * (10 * _)) with (q * 10 ^ Z.of_nat (k - t - 1) * 10) by ring.
      apply Z.mod_mul. lia. }
    rewrite Z.add_comm, H, Z.mod_small in H0; lia.
  - intros Hle. exists ((digits_value (rev u) * 10 + (Z.of_N c - 48)) * 10 ^ Z.of_nat (t - k)).
    rewrite <- Z.mul_assoc, <- Z.pow_add_r by lia. do 2 f_equal. lia.
Qed.

Lemma trailing_zeros_lt s : leading s -> (trailing_zeros s < length s)%nat.
Proof.
  intros Hl. pose proof (leading_pos s Hl) as Hpos. unfold trailing_zeros.
  destruct (drop_zeros (rev s)) as [|c u] eqn:Hu.
  - pose proof (trailing_zeros_eq s) as Heq. rewrite Hu in Heq. cbn [rev app] in Heq.
    rewrite Heq, digits_value_zeros in Hpos. lia.
  - destruct Hl as (_ & Hne & _). destruct s; [done |]. cbn [length]. lia.
Qed.

(** Cutting zeros off the end divides. *)
Lemma take_zeros_value s k :
  all_digits s = true -> (k <= trailing_zeros s)%nat -> (trailing_zeros s <= length s)%nat ->
  digits_value s = digits_value (take (length s - k) s) * 10 ^ Z.of_nat k.
Proof.
  intros Hd Hk Ht. rewrite <- (take_drop (length s - k) s) at 1.
  assert (drop (length s - k) s = replicate k 48%N) as ->.
  { rewrite (trailing_zeros_eq s) at 2.
    assert (length s = length (drop_zeros (rev s)) + trailing_zeros s)%nat as Hlen.
    { rewrite (trailing_zeros_eq s) at 1. by rewrite length_app, length_rev, length_replicate. }
    rewrite drop_app_ge by (rewrite length_rev; lia). rewrite drop_replicate, length_rev.
    f_equal. lia. }
  rewrite digits_value_app, digits_value_zeros, length_replicate by apply all_digits_replicate. lia.
Qed.

(** ** The order of strings is the order of values *)

Lemma jstr_ltb_value s t :
  all_digits s = true -> all_digits t = true -> length s = length t ->
  (jstr_ltb s t = true <-> digits_value s < digits_value t) /\ (s = t <-> digits_value s = digits_value t).
Proof.
  revert t. induction s as [|c s IH]; intros [|d t] Hs Ht Hlen; try done.
  pose proof (all_digits_cons _ _ Hs) as [Hc Hs']. pose proof (all_digits_cons _ _ Ht) as [Hd Ht'].
  injection Hlen as Hlen. destruct (IH t Hs' Ht' Hlen) as [IH1 IH2].
  rewrite !digits_value_cons by done. rewrite <- Hlen. cbn [jstr_ltb].
  pose proof (digits_value_lt _ Hs'). pose proof (digits_value_lt _ Ht') as Hlt'. rewrite <- Hlen in Hlt'.
  pose proof (digits_value_nonneg s). pose proof (digits_value_nonneg t).
  set (w := 10 ^ Z.of_nat (length s)) in *.
  destruct (N.ltb_spec c d); [split; [split; [nia | done] | split; [intros [= -> ->]; lia | nia]] |].
  destruct (N.ltb_spec d c); [split; [split; [done | nia] | split; [intros [= -> ->]; lia | nia]] |].
  assert (c = d) as -> by lia. split; [rewrite IH1; lia |].
  split; [intros [= ->]; done | intros Heq; f_equal; apply IH2; lia].
Qed.

(** A longer string without a leading zero is larger. *)
Lemma leading_shorter s t :
  leading s -> leading t -> (length s < length t)%nat -> digits_value s < digits_value t.
Proof.
  intros Hs Ht Hlt. pose proof (digits_value_lt _ (proj1 Hs)). pose proof (leading_ge _ Ht).
  assert (10 ^ Z.of_nat (length s) <= 10 ^ (Z.of_nat (length t) - 1)); [| lia].
  apply Z.pow_le_mono_r; lia.
Qed.

(** ** The longest prefix of digits *)

Lemma span_digits_spec s d r :
  span_digits s = (d, r) -> s = d ++ r /\ all_digits d = true /\ forall c u, r = c :: u -> is_digit c = false.
Proof.
  revert d r. induction s as [|c s IH]; intros d r; cbn.
  - intros [= <- <-]. done.
  - destruct (is_digit c) eqn:Hc.
    + destruct (span_digits s) as [d' r'] eqn:Hs. intros [= <- <-].
      destruct (IH d' r' eq_refl) as (-> & Hd & Hr). split_and!; [done | | done].
      unfold all_digits in *. cbn. by rewrite Hc, Hd.
    + intros [= <- <-]. split_and!; [done.. |]. by intros ? ? [= <- _].
Qed.

Lemma span_digits_all s : all_digits s = true -> span_digits s = (s, []).
Proof.
  induction s as [|c s IH]; [done |]. unfold all_digits. cbn [forallb span_digits].
  intros [-> Hs]%andb_true_iff. by rewrite (IH Hs).
Qed.
