(* ===== verification/Codec.v ===== *)
(** * Codec controls and exact integers

    [src/runtime/codec/budget.ts]: the reasons of a refused document, the budget
    of bytes and nodes that every traversal draws on, and the JSON-pointer paths.
    [src/runtime/codec/numbers.ts]: the exact reading of a numeric token as a
    bigint, and the bounded rendering of a bigint. *)
From stdpp Require Import base list strings.
From Stdlib Require Import ZArith Lia.
From S2P Require Import Prelude JsNumber JsString Numbers Digits.

(** ** Issues

    [CodecIssue] carries a path and a reason; every other exception of the codec
    is a [TypeError]. *)
Inductive Reason : Type :=
| utf8 | unicode_scalar | byte_range | invalid_json | invalid_toml | invalid_yaml
| invalid_json5 | duplicate_member | missing_member | extra_member | type
| integer_token | nonfinite | variant_tag | cycle | depth_limit | node_limit
| byte_limit | media_type | row_limit | row_value_limit | charset.

#[global] Instance Reason_eq_dec : EqDecision Reason.
Proof. solve_decision. Defined.

Inductive coded (A : Type) : Type :=
| Coded (a : A)
| reject (path : jstr) (reason : Reason)
| Fault (msg : string).
Arguments Coded {A} a.
Arguments reject {A} path reason.
Arguments Fault {A} msg.

Definition coded_bind {A B} (m : coded A) (f : A -> coded B) : coded B :=
  match m with
  | Coded a => f a
  | reject path reason => reject path reason
  | Fault msg => Fault msg
  end.

Declare Scope codec_scope.
Delimit Scope codec_scope with codec.
Notation "'let*' x ':=' c1 'in' c2" := (coded_bind c1 (fun x => c2))
  (at level 10, x pattern, c1 at level 100, c2 at level 200) : codec_scope.
#[global] Open Scope codec_scope.

Lemma coded_bind_ok {A B} (m : coded A) (f : A -> coded B) b :
  coded_bind m f = Coded b -> exists a, m = Coded a /\ f a = Coded b.
Proof. destruct m; simpl; [eauto | discriminate..]. Qed.

(** ** The budget *)

Definition standaloneBytes : Z := 8388608.
Definition maxDepth : Z := 64.
Definition maxNodes : Z := 1000000.

Record Budget : Type := mkBudget { bytes : Z; remaining : Z; nodes : Z }.

(** [new Budget(bytes)] *)
Definition new_Budget (bytes : Z) : coded Budget :=
  if negb (is_safe bytes) || (bytes <? 1) || (67108864 <? bytes)
  then Fault "invalid private codec budget"
  else Coded (mkBudget bytes bytes 0).

Definition charge (b : Budget) (size : Z) (path : jstr) : coded Budget :=
  if negb (is_safe size) || (size <? 0) then Fault "invalid codec charge"
  else if remaining b <? size then reject path byte_limit
  else Coded (mkBudget (bytes b) (remaining b - size) (nodes b)).

Definition visit (b : Budget) (depth : Z) (path : jstr) : coded Budget :=
  if maxDepth <? depth then reject path depth_limit
  else if maxNodes <? nodes b + 1 then reject path node_limit
  else Coded (mkBudget (bytes b) (remaining b) (nodes b + 1)).

(** What a budget always satisfies. *)
Definition budget_ok (b : Budget) : Prop :=
  0 <= remaining b <= bytes b /\ bytes b <= 67108864 /\ 0 <= nodes b <= maxNodes.

(** ** Paths *)

(** [s.replaceAll(c, by)] for one unit [c]. *)
Definition replace_unit (c : N) (by_ : jstr) (s : jstr) : jstr :=
  concat ((fun d => if (d =? c)%N then by_ else [d]) <$> s).

Definition childPath (parent key : jstr) : jstr :=
  parent ++ 47%N :: replace_unit 47 (js "~1") (replace_unit 126 (js "~0") key).

(** [childPath(parent, index)] *)
Definition indexPath (parent : jstr) (i : nat) : jstr := childPath parent (dec_of_N (N.of_nat i)).

(** ** Exact integers *)

(** The sign of an exponent spelling and what follows it. *)
Definition exponent_sign (source : jstr) : bool * jstr :=
  match source with
  | 45%N :: rest => (true, rest)
  | 43%N :: rest => (false, rest)
  | _ => (false, source)
  end.

(** The comparison of two digit strings without leading zeros. *)
Definition compareMagnitude (digits limit : jstr) : Z :=
  if negb (bool_decide (length digits = length limit))
  then (if (length digits <? length limit)%nat then -1 else 1)
  else if bool_decide (digits = limit) then 0
  else if jstr_ltb digits limit then -1 else 1.

(** Compares the exponent [source] spells with [bound], without its value. *)
Definition compareExponent (source : jstr) (bound : Z) : Z :=
  let '(negative, unsigned) := exponent_sign source in
  let digits := drop_zeros unsigned in
  if bool_decide (digits = []) then (if bound =? 0 then 0 else if 0 <? bound then -1 else 1)
  else
    let boundNegative := bound <? 0 in
    if negb (Bool.eqb negative boundNegative) then (if negative then -1 else 1)
    else
      let magnitude := compareMagnitude digits (dec_of_Z (Z.abs bound)) in
      if negative then - magnitude else magnitude.

(** [/^(-?)(\d+)(?:\.(\d+))?(?:[eE]([+-]?\d+))?$/.exec(token)]: the sign, the
    whole digits, the fraction digits ([""] when absent) and the exponent. *)
Record parts : Type := mkParts {
  p_sign : bool; p_whole : jstr; p_fraction : jstr; p_exponent : option jstr
}.

(** [([+-]?\d+)$] *)
Definition exponent_text (s : jstr) : bool :=
  let digits := (exponent_sign s).2 in negb (bool_decide (digits = [])) && all_digits digits.

Definition exponent_group (s : jstr) : option (option jstr) :=
  match s with
  | [] => Some None
  | c :: rest =>
      if ((c =? 101)%N || (c =? 69)%N) && exponent_text rest then Some (Some rest) else None
  end.

Definition numeric_token (token : jstr) : option parts :=
  let '(negative, body) := strip_minus token in
  let '(whole, rest) := span_digits body in
  if bool_decide (whole = []) then None
  else
    match rest with
    | 46%N :: after =>
        let '(fraction, tail) := span_digits after in
        if bool_decide (fraction = []) then None
        else mkParts negative whole fraction <$> exponent_group tail
    | _ => mkParts negative whole [] <$> exponent_group rest
    end.

(** [Number(exponent)] on a matched exponent, whose size the callers bound. *)
Definition exponent_value (source : jstr) : Z :=
  let '(negative, digits) := exponent_sign source in
  if negative : bool then - Z.of_N (dec_value digits) else Z.of_N (dec_value digits).

Definition len (s : jstr) : Z := Z.of_nat (length s).

Definition decodeInteger (token : jstr) (budget : Budget) (path : jstr) : coded (Z * Budget) :=
  if bytes budget <? len token then reject path byte_limit
  else
    match numeric_token token with
    | None => Fault "missing native numeric token evidence"
    | Some p =>
        let fraction := p_fraction p in
        let coefficient := drop_zeros (p_whole p ++ fraction) in
        if bool_decide (coefficient = []) then
          let* budget' := charge budget 1 path in Coded (0, budget')
        else
          let trailing := trailing_zeros coefficient in
          let exponent := default (js "0") (p_exponent p) in
          if compareExponent exponent (len fraction - Z.of_nat trailing) <? 0
          then reject path integer_token
          else
            let sign := if p_sign p then 1 else 0 in
            if 0 <? compareExponent exponent (remaining budget - sign - len coefficient + len fraction)
            then reject path byte_limit
            else
              let shift := exponent_value exponent - len fraction in
              let size := len coefficient + shift + sign in
              let* budget' := charge budget size path in
              let digits :=
                if 0 <=? shift then coefficient ++ replicate (Z.to_nat shift) 48%N
                else take (Z.to_nat (len coefficient + shift)) coefficient in
              Coded (bigint_of_text ((if p_sign p then [45%N] else []) ++ digits), budget')
    end.

Definition encodeInteger (value : Z) (budget : Budget) (path : jstr) : coded (jstr * Budget) :=
  let sign := if value <? 0 then 1 else 0 in
  let digits := remaining budget - sign in
  if digits <? 1 then reject path byte_limit
  else
    let threshold := 10 ^ digits in
    if negb ((20 <=? remaining budget) && (- 10 ^ 19 <? value) && (value <? 10 ^ 19))
       && ((threshold <=? value) || (value <=? - threshold))
    then reject path byte_limit
    else
      let text := dec_of_Z value in
      let* budget' := charge budget (len text) path in Coded (text, budget').

Example childPath_ex : childPath (js "/a") (js "x~/y") = js "/a/x~0~1y".
Proof. reflexivity. Qed.

Definition small_budget : Budget := mkBudget 40 40 0.

Example decodeInteger_ex :
  decodeInteger (js "-12.50e+3") small_budget [] = Coded (-12500, mkBudget 40 34 0).
Proof. reflexivity. Qed.
Example decodeInteger_fraction : decodeInteger (js "1.25e1") small_budget [] = reject [] integer_token.
Proof. reflexivity. Qed.
Example decodeInteger_huge : decodeInteger (js "1e99999999999999999999") small_budget [] = reject [] byte_limit.
Proof. reflexivity. Qed.
Example decodeInteger_drop : decodeInteger (js "120e-1") small_budget [] = Coded (12, mkBudget 40 38 0).
Proof. reflexivity. Qed.
