(* ===== verification/CodecTheorems.v ===== *)
(** * The codec's budget and exact integers: properties *)
From stdpp Require Import base list strings.
From Stdlib Require Import ZArith Lia.
From S2P Require Import Prelude JsNumber JsString Numbers Digits Codec.

(** ** Exponents *)

Lemma exponent_text_digits source :
  exponent_text source = true -> all_digits (exponent_sign source).2 = true.
Proof. unfold exponent_text. by intros [_ ?]%andb_true_iff. Qed.

Lemma compareMagnitude_spec digits m :
  leading digits -> 0 <= m -> compareMagnitude digits (dec_of_Z m) = Z.sgn (digits_value digits - m).
Proof.
  intros Hl Hm. unfold compareMagnitude, dec_of_Z. destruct (Z.ltb_spec m 0); [lia |].
  set (limit := dec_of_N (Z.to_N m)). pose proof (text_all_digits (Z.to_N m)) as Hlim. fold limit in Hlim.
  assert (digits_value limit = m) as Hv.
  { unfold digits_value, limit. rewrite dec_value_dec_of_N. lia. }
  pose proof (leading_pos _ Hl) as Hpos. rewrite <- Hv.
  case_bool_decide as Hlen; cbn [negb].
  - destruct (jstr_ltb_value digits limit (proj1 Hl) Hlim Hlen) as [Hlt Heq].
    case_bool_decide as He; [apply Heq in He; lia |].
    assert (digits_value digits <> digits_value limit) by (by rewrite <- Heq).
    destruct (jstr_ltb digits limit); [assert (digits_value digits < digits_value limit) by (by apply Hlt); lia |].
    assert (~ digits_value digits < digits_value limit); [| lia]. intros H'. by apply Hlt in H'.
  - destruct (decide (m = 0)) as [->|Hm0].
    { change (length limit) with 1%nat in *. destruct (Nat.ltb_spec (length digits) 1); [| lia].
      destruct Hl as (_ & Hne & _). destruct digits; [done | cbn in *; lia]. }
    pose proof (text_leading (Z.to_N m) ltac:(lia)) as Hll. fold limit in Hll.
    destruct (Nat.ltb_spec (length digits) (length limit)) as [Hlt|Hge].
    + pose proof (leading_shorter _ _ Hl Hll Hlt). lia.
    + pose proof (leading_shorter _ _ Hll Hl ltac:(lia)). lia.
Qed.

Lemma compareExponent_spec source bound :
  exponent_text source = true -> compareExponent source bound = Z.sgn (exponent_value source - bound).
Proof.
  intros Ht%exponent_text_digits. unfold compareExponent, exponent_value.
  destruct (exponent_sign source) as [negative unsigned]. cbn [snd] in Ht.
  change (Z.of_N (dec_value unsigned)) with (digits_value unsigned).
  rewrite <- (drop_zeros_value unsigned Ht).
  destruct (decide (drop_zeros unsigned = [])) as [H0|H0].
  { rewrite bool_decide_true, H0 by done. change (digits_value []) with 0.
    assert ((if negative then - 0 else 0) = 0) as -> by by destruct negative.
    destruct (Z.eqb_spec bound 0), (Z.ltb_spec 0 bound); lia. }
  rewrite bool_decide_false by done. pose proof (drop_zeros_leading unsigned Ht H0) as Hl.
  set (digits := drop_zeros unsigned) in *. pose proof (leading_pos _ Hl) as Hpos.
  rewrite compareMagnitude_spec by (done || lia).
  destruct negative, (Z.ltb_spec bound 0) as [Hb|Hb]; cbn [Bool.eqb negb]; lia.
Qed.

(** ** Numeric tokens *)

(** The token is [p]'s spelling, so its parts are digits. *)
Definition parts_ok (p : parts) : Prop :=
  all_digits (p_whole p) = true /\ p_whole p <> [] /\ all_digits (p_fraction p) = true
  /\ exponent_text (default (js "0") (p_exponent p)) = true.

Lemma exponent_group_ok s e : exponent_group s = Some e -> exponent_text (default (js "0") e) = true.
Proof.
  unfold exponent_group. destruct s as [|c s]; [by intros [= <-] |].
  destruct (exponent_text s) eqn:Hs; [rewrite andb_true_r | by rewrite andb_false_r].
  destruct ((c =? 101)%N || (c =? 69)%N); [by intros [= <-] | done].
Qed.

Lemma numeric_token_ok token p : numeric_token token = Some p -> parts_ok p.
Proof.
  unfold numeric_token. destruct (strip_minus token) as [negative body].
  destruct (span_digits body) as [whole rest] eqn:Hw.
  destruct (span_digits_spec _ _ _ Hw) as (_ & Hwd & _).
  case_bool_decide as Hne; [done |]. intros H.
  assert ((exists e, exponent_group rest = Some e /\ p = mkParts negative whole [] e)
    \/ exists fraction tail after e, span_digits after = (fraction, tail)
         /\ exponent_group tail = Some e /\ p = mkParts negative whole fraction e) as Hcases.
  { repeat case_hyp H; try done; apply fmap_Some in H as (e & He & ->);
      first [by left; eauto | right; do 4 eexists; eauto]. }
  destruct Hcases as [(e & He & ->)|(fraction & tail & after & e & Hf & He & ->)].
  - split_and!; [done.. |]. by apply exponent_group_ok in He.
  - destruct (span_digits_spec _ _ _ Hf) as (_ & Hfd & _).
    split_and!; [done.. |]. by apply exponent_group_ok in He.
Qed.

(** ** What a token denotes

    The decimal [±whole.fraction * 10^exponent] is the integer [z]. *)
Definition denotes_integer (p : parts) (z : Z) : Prop :=
  let e := exponent_value (default (js "0") (p_exponent p)) - len (p_fraction p) in
  z * 10 ^ Z.max 0 (- e)
  = (if p_sign p then -1 else 1) * digits_value (p_whole p ++ p_fraction p) * 10 ^ Z.max 0 e.

Lemma denotes_unique p z z' : denotes_integer p z -> denotes_integer p z' -> z = z'.
Proof.
  unfold denotes_integer. intros Hz Hz'. rewrite <- Hz' in Hz.
  apply Z.mul_reg_r in Hz; [done |]. apply Z.pow_nonzero; lia.
Qed.

(** Signed digit strings without leading zeros are rendered integers. *)
Lemma signed_text negative ds :
  leading ds ->
  let text := (if negative : bool then [45%N] else []) ++ ds in
  bigint_of_text text = (if negative then -1 else 1) * digits_value ds
  /\ dec_of_Z (bigint_of_text text) = text.
Proof.
  intros Hl text. pose proof (leading_pos _ Hl) as Hpos.
  assert (bigint_of_text text = (if negative then -1 else 1) * digits_value ds) as Hz.
  { unfold text, bigint_of_text. destruct negative; cbn [app strip_minus]; [unfold digits_value; lia |].
    rewrite integer_digits_not_minus by by apply leading_integer. unfold digits_value. lia. }
  split; [done |]. rewrite Hz. unfold text, dec_of_Z.
  destruct negative; cbn [app].
  - destruct (Z.ltb_spec (-1 * digits_value ds) 0); [| lia].
    replace (Z.to_N _) with (dec_value ds) by (unfold digits_value; lia). by rewrite leading_text.
  - destruct (Z.ltb_spec (1 * digits_value ds) 0); [lia |].
    replace (Z.to_N _) with (dec_value ds) by (unfold digits_value; lia). by apply leading_text.
Qed.

(** The coefficient shifted by [e]: appended zeros, or a cut at the end. *)
Definition shifted (coefficient : jstr) (e : Z) : jstr :=
  if 0 <=? e then coefficient ++ replicate (Z.to_nat e) 48%N
  else take (Z.to_nat (len coefficient + e)) coefficient.

Lemma shifted_spec coefficient e :
  leading coefficient -> - Z.of_nat (trailing_zeros coefficient) <= e ->
  leading (shifted coefficient e)
  /\ len (shifted coefficient e) = len coefficient + e
  /\ digits_value (shifted coefficient e) * 10 ^ Z.max 0 (- e)
     = digits_value coefficient * 10 ^ Z.max 0 e.
Proof.
  intros Hl He. pose proof (trailing_zeros_lt _ Hl) as Ht. unfold shifted, len.
  destruct (Z.leb_spec 0 e) as [H0|H0].
  - rewrite Z.max_l, Z.max_r by lia. split_and!.
    + apply leading_app; [done | apply all_digits_replicate].
    + rewrite length_app, length_replicate. lia.
    + rewrite digits_value_app, digits_value_zeros, length_replicate, Z2Nat.id
        by (apply all_digits_replicate || lia). lia.
  - rewrite Z.max_r, Z.max_l by lia. split_and!.
    + apply leading_take; [done | lia].
    + rewrite length_take. lia.
    + replace (Z.to_nat (Z.of_nat (length coefficient) + e))
        with (length coefficient - Z.to_nat (- e))%nat by lia.
      rewrite (take_zeros_value coefficient (Z.to_nat (- e)) (proj1 Hl)) by lia.
      rewrite Z2Nat.id by lia. lia.
Qed.

(** The value of the token in terms of its coefficient. *)
Lemma denotes_coefficient p z :
  parts_ok p ->
  let e := exponent_value (default (js "0") (p_exponent p)) - len (p_fraction p) in
  denotes_integer p z <->
  z * 10 ^ Z.max 0 (- e)
  = (if p_sign p then -1 else 1) * digits_value (drop_zeros (p_whole p ++ p_fraction p)) * 10 ^ Z.max 0 e.
Proof.
  intros (Hw & _ & Hf & _). unfold denotes_integer.
  rewrite drop_zeros_value by by rewrite all_digits_app, Hw, Hf. done.
Qed.

Lemma charge_spec b size path :
  budget_ok b -> 0 <= size ->
  (size <= remaining b /\ charge b size path = Coded (mkBudget (bytes b) (remaining b - size) (nodes b)))
  \/ (remaining b < size /\ (is_safe size = true -> charge b size path = reject path byte_limit)).
Proof.
  intros (Hr & Hb & _) Hs. unfold charge. destruct (Z.ltb_spec size 0); [lia |].
  destruct (Z.ltb_spec (remaining b) size); [right; split; [done |] | left; split; [done |]].
  - intros ->. done.
  - assert (is_safe size = true) as -> by (apply is_safe_spec; unfold MAX_SAFE; lia). done.
Qed.

Definition charged (b : Budget) (text : jstr) : Budget :=
  mkBudget (bytes b) (remaining b - len text) (nodes b).

Lemma decodeInteger_spec token p b path :
  budget_ok b -> numeric_token token = Some p -> len token <= bytes b ->
  match decodeInteger token b path with
  | Coded (z, b') => denotes_integer p z /\ b' = charged b (dec_of_Z z) /\ len (dec_of_Z z) <= remaining b
  | reject q integer_token => q = path /\ forall z, ~ denotes_integer p z
  | reject q byte_limit => q = path /\ exists z, denotes_integer p z /\ remaining b < len (dec_of_Z z)
  | _ => False
  end.
Proof.
  intros Hb Hp Htok. unfold decodeInteger. destruct (Z.ltb_spec (bytes b) (len token)); [lia |].
  rewrite Hp. pose proof (numeric_token_ok _ _ Hp) as Hok. pose proof (denotes_coefficient p) as Hden.
  pose proof Hok as (Hw & _ & Hf & Hex).
  set (exponent := default (js "0") (p_exponent p)) in *.
  set (coefficient := drop_zeros (p_whole p ++ p_fraction p)) in *.
  rewrite !(compareExponent_spec exponent) by done.
  set (e := exponent_value exponent - len (p_fraction p)) in *.
  case_bool_decide as H0.
  { assert (denotes_integer p 0) as Hz.
    { apply Hden; [done |]. rewrite H0. change (digits_value []) with 0. destruct (p_sign p); lia. }
    destruct (charge_spec b 1 path Hb ltac:(lia)) as [[Hle ->]|[Hlt ->]]; [..| done]; cbn.
    - split_and!; [done | reflexivity | done].
    - split; [done |]. exists 0. done. }
  assert (leading coefficient) as Hl.
  { apply drop_zeros_leading; [by rewrite all_digits_app, Hw, Hf | done]. }
  destruct (Z.ltb_spec (Z.sgn (exponent_value exponent - (len (p_fraction p) - Z.of_nat (trailing_zeros coefficient)))) 0)
    as [Hneg|Hint].
  { split; [done |]. intros z Hz. apply Hden in Hz; [| done]. fold e in Hz.
    assert (Z.of_nat (trailing_zeros coefficient) < - e) as He by (unfold e; lia).
    rewrite (Z.max_r 0), (Z.max_l 0) in Hz by lia. change (10 ^ 0) with 1 in Hz.
    assert (~ (Z.to_nat (- e) <= trailing_zeros coefficient)%nat) as Hn by lia.
    apply Hn. apply (trailing_zeros_divide _ _ Hl). rewrite Z2Nat.id by lia.
    exists ((if p_sign p then -1 else 1) * z). destruct (p_sign p); lia. }
  destruct (shifted_spec coefficient e Hl ltac:(unfold e; lia)) as (Hsl & Hlen & Hval).
  destruct (signed_text (p_sign p) _ Hsl) as [Hbig Htext].
  set (text := (if p_sign p then [45%N] else []) ++ shifted coefficient e) in *.
  assert (len text = len coefficient + e + (if p_sign p then 1 else 0)) as Hsize.
  { unfold text. unfold len in *. rewrite length_app. destruct (p_sign p); cbn [length]; lia. }
  assert (denotes_integer p (bigint_of_text text)) as Hdz.
  { apply Hden; [done |]. fold e. rewrite Hbig, <- !Z.mul_assoc, Hval. done. }
  destruct (Z.ltb_spec 0 (Z.sgn (exponent_value exponent - (remaining b - (if p_sign p then 1 else 0) - len coefficient + len (p_fraction p)))))
    as [Hbig'|Hfit].
  { split; [done |]. exists (bigint_of_text text). rewrite Htext. split; [done | unfold e in *; lia]. }
  rewrite <- Hsize.
  destruct (charge_spec b (len text) path Hb ltac:(unfold len; lia)) as [[Hle ->]|[Hlt _]]; [| unfold e in *; lia].
  cbn [coded_bind]. fold (shifted coefficient e). fold text. rewrite Htext. done.
Qed.

(** ** Rendered integers as tokens *)

Lemma strip_minus_text z : strip_minus (dec_of_Z z) = (z <? 0, dec_of_N (Z.to_N (Z.abs z))).
Proof.
  unfold dec_of_Z. destruct (Z.ltb_spec z 0).
  - cbn [strip_minus]. do 2 f_equal. lia.
  - rewrite integer_digits_not_minus by apply dec_of_N_digits. do 2 f_equal. lia.
Qed.

Definition integer_parts (z : Z) : parts := mkParts (z <? 0) (dec_of_N (Z.to_N (Z.abs z))) [] None.

Lemma numeric_token_text z : numeric_token (dec_of_Z z) = Some (integer_parts z).
Proof.
  unfold numeric_token. rewrite strip_minus_text, span_digits_all by apply text_all_digits.
  rewrite bool_decide_false by apply text_nonempty. done.
Qed.

Lemma denotes_integer_parts z : denotes_integer (integer_parts z) z.
Proof.
  unfold denotes_integer, integer_parts. cbn [p_sign p_whole p_fraction p_exponent default].
  change (exponent_value (js "0")) with 0. change (len []) with 0.
  rewrite app_nil_r. unfold digits_value. rewrite dec_value_dec_of_N.
  change (10 ^ Z.max 0 _) with 1. destruct (Z.ltb_spec z 0); lia.
Qed.

Lemma len_dec_of_Z z : len (dec_of_Z z) = (if z <? 0 then 1 else 0) + len (dec_of_N (Z.to_N (Z.abs z))).
Proof.
  unfold len, dec_of_Z. destruct (Z.ltb_spec z 0); cbn [length].
  - replace (Z.abs z) with (- z) by lia. lia.
  - replace (Z.abs z) with z by lia. lia.
Qed.

(** The decimal text of [z] fits in [n] units. *)
Lemma text_fits z n :
  1 <= n -> (len (dec_of_N (Z.to_N (Z.abs z))) <= n <-> Z.abs z < 10 ^ n).
Proof.
  intros Hn. unfold len. rewrite <- (Z2Nat.id n) by lia. rewrite <- Nat2Z.inj_le.
  rewrite text_length by lia. rewrite Z2N.id by lia. done.
Qed.

Lemma encodeInteger_spec value b path :
  budget_ok b ->
  match encodeInteger value b path with
  | Coded (text, b') => text = dec_of_Z value /\ b' = charged b text /\ len text <= remaining b
  | reject q r => q = path /\ r = byte_limit /\ remaining b < len (dec_of_Z value)
  | Fault _ => False
  end.
Proof.
  intros Hb. unfold encodeInteger. pose proof (len_dec_of_Z value) as Hlen.
  set (sign := if value <? 0 then 1 else 0) in *.
  assert (1 <= len (dec_of_N (Z.to_N (Z.abs value)))) as H1.
  { unfold len. pose proof (text_nonempty (Z.to_N (Z.abs value))). destruct (dec_of_N _); [done | cbn; lia]. }
  destruct (Z.ltb_spec (remaining b - sign) 1); [split_and!; [done.. | lia] |].
  pose proof (text_fits value (remaining b - sign) ltac:(lia)) as Hfit.
  set (wide := negb _ && _). destruct wide eqn:Hw; unfold wide in Hw.
  - split_and!; [done.. |]. apply andb_true_iff in Hw as [_ Hw]. apply orb_true_iff in Hw.
    rewrite !Z.leb_le in Hw. lia.
  - assert (len (dec_of_Z value) <= remaining b) as Hle.
    { destruct (decide (Z.abs value < 10 ^ (remaining b - sign))) as [Hs|Hs]; [apply Hfit in Hs; lia |].
      exfalso. apply andb_false_iff in Hw as [Hw|Hw].
      - apply negb_false_iff in Hw. split_bools. apply Hs.
        apply Z.lt_le_trans with (10 ^ 19); [lia |]. apply Z.pow_le_mono_r; [lia |].
        unfold sign. destruct (value <? 0); lia.
      - apply orb_false_iff in Hw as [Hw1 Hw2]. split_bools. lia. }
    destruct (charge_spec b (len (dec_of_Z value)) path Hb ltac:(unfold len; lia)) as [[_ ->]|[? _]]; [| lia].
    done.
Qed.

(** ** Properties *)

(** A numeric token is read as exactly the integer it denotes, whatever its
    fraction and exponent: the reading succeeds when the decimal text of that
    integer fits in the remaining bytes, which it is charged; a token that
    denotes no integer is refused as such, and one that denotes an integer too
    long for the budget is refused for its size, even when the exponent is
    astronomically large.  Nothing else happens. *)
Theorem decodeInteger_exact token p b path :
  budget_ok b -> numeric_token token = Some p -> len token <= bytes b ->
  (forall z b', decodeInteger token b path = Coded (z, b')
     <-> denotes_integer p z /\ len (dec_of_Z z) <= remaining b /\ b' = charged b (dec_of_Z z))
  /\ (decodeInteger token b path = reject path integer_token <-> forall z, ~ denotes_integer p z)
  /\ (decodeInteger token b path = reject path byte_limit
      <-> exists z, denotes_integer p z /\ remaining b < len (dec_of_Z z)).
Proof.
  intros Hb Hp Hlen. pose proof (decodeInteger_spec token p b path Hb Hp Hlen) as H.
  pose proof (denotes_unique p) as Hun.
  destruct (decodeInteger token b path) as [[z b']|q r|]; [| destruct r; try done; destruct H as [-> H] | done].
  - destruct H as (Hz & -> & Hfit). split_and!.
    + intros z' b''. split; [intros [= <- <-]; done |]. intros (Hz' & _ & ->).
      by rewrite (Hun z' z Hz' Hz).
    + split; [done | intros Hno; by destruct (Hno z)].
    + split; [done |]. intros (z' & Hz' & Hlt). rewrite (Hun z' z Hz' Hz) in Hlt. lia.
  - split_and!; [split; [done | intros (Hz & _); by destruct (H z)] | done |].
    split; [done |]. intros (z & Hz & _). by destruct (H z).
  - destruct H as (z & Hz & Hlt). split_and!; [| split; [done | intros Hno; by destruct (Hno z)] | split; [eauto | done]].
    intros z' b'. split; [done |]. intros (Hz' & Hle & _). rewrite (Hun z' z Hz' Hz) in Hle. lia.
Qed.

Lemma decodeInteger_exact_witness :
  budget_ok small_budget
  /\ decodeInteger (js "-12.50e+3") small_budget [] = Coded (-12500, charged small_budget (js "-12500")).
Proof.
  assert (budget_ok small_budget) as Hb by (unfold budget_ok, maxNodes; cbn; lia).
  split; [exact Hb |].
  apply (proj1 (decodeInteger_exact (js "-12.50e+3")
    (mkParts true (js "12") (js "50") (Some (js "+3"))) small_budget [] Hb eq_refl ltac:(by vm_compute))).
  split_and!; by vm_compute.
Defined.

(** Rendering a bigint under the budget succeeds exactly when its decimal text
    fits, charges that text, and reading the text back gives the bigint for the
    same charge. *)
Theorem encodeInteger_roundtrip value b path :
  budget_ok b ->
  match encodeInteger value b path with
  | Coded (text, b') =>
      len text <= remaining b /\ decodeInteger text b path = Coded (value, b') /\ budget_ok b'
  | reject q r => q = path /\ r = byte_limit /\ remaining b < len (dec_of_Z value)
  | Fault _ => False
  end.
Proof.
  intros Hb. pose proof (encodeInteger_spec value b path Hb) as H.
  destruct (encodeInteger value b path) as [[text b']|q r|]; [| done..].
  destruct H as (-> & -> & Hle). pose proof Hb as ((Hr0 & Hr) & Hn). split_and!; [done | |].
  - pose proof (decodeInteger_spec (dec_of_Z value) _ b path Hb (numeric_token_text value) ltac:(lia)) as Hd.
    pose proof (denotes_integer_parts value) as Hv.
    destruct (decodeInteger (dec_of_Z value) b path) as [[z b']|q r|]; [| destruct r; try done | done].
    + destruct Hd as (Hz & -> & _). by rewrite (denotes_unique _ _ _ Hz Hv).
    + destruct Hd as [_ Hd]. by destruct (Hd value).
    + destruct Hd as (_ & z & Hz & Hlt). rewrite (denotes_unique _ _ _ Hz Hv) in Hlt. lia.
  - unfold budget_ok, charged, len in *. cbn. lia.
Qed.

Lemma encodeInteger_roundtrip_witness :
  budget_ok small_budget
  /\ decodeInteger (js "-9007199254740993") small_budget [] = Coded (-9007199254740993, mkBudget 40 23 0).
Proof.
  assert (budget_ok small_budget) as Hb by (unfold budget_ok, maxNodes; cbn; lia).
  split; [exact Hb |].
  exact (proj1 (proj2 (encodeInteger_roundtrip (-9007199254740993) small_budget [] Hb))).
Defined.
