(* ===== verification/Json.v ===== *)
(** * JSON texts

    The documents of [JSON.parse] and [JSON.stringify] and the two functions, then
    the facts the codecs share: prefixes of the parser, its fuel, and parsing after
    writing. *)
From stdpp Require Import base list strings.
From Stdlib Require Import ZArith Lia.
From S2P Require Import Prelude JsString Numbers Unicode Digits.

(** ** Documents

    What the codecs use of the language: [JSON.parse] with the source spelling
    of each number (the third argument of its reviver) and [JSON.stringify] of a
    tree whose numbers are already spelled ([JSON.rawJSON]).  Members stay in
    source order and keep their repetitions, which [JSON.parse] itself drops;
    [last_member] is what a property of the parsed object reads. *)

#[warnings="-register-all"]
Inductive doc : Type :=
| DNull
| DBool (b : bool)
| DNumber (token : jstr)
| DString (s : jstr)
| DArray (items : list doc)
| DObject (members : list (jstr * doc)).

(** ** Reading *)

Definition whitespace (c : N) : bool := (c =? 32)%N || (c =? 9)%N || (c =? 13)%N || (c =? 10)%N.

Fixpoint skip_ws (s : jstr) : jstr :=
  match s with
  | c :: rest => if whitespace c then skip_ws rest else s
  | [] => []
  end.

Definition hex_value (c : N) : option N :=
  if is_digit c then Some (c - 48)%N
  else if (97 <=? c)%N && (c <=? 102)%N then Some (c - 87)%N
  else if (65 <=? c)%N && (c <=? 70)%N then Some (c - 55)%N
  else None.

Definition simple_escape (c : N) : option N :=
  if (c =? 34)%N then Some 34%N else if (c =? 92)%N then Some 92%N
  else if (c =? 47)%N then Some 47%N else if (c =? 98)%N then Some 8%N
  else if (c =? 102)%N then Some 12%N else if (c =? 110)%N then Some 10%N
  else if (c =? 114)%N then Some 13%N else if (c =? 116)%N then Some 9%N
  else None.

Definition hex4 (a b c d : N) : option N :=
  match hex_value a, hex_value b, hex_value c, hex_value d with
  | Some a, Some b, Some c, Some d => Some (((a * 16 + b) * 16 + c) * 16 + d)%N
  | _, _, _, _ => None
  end.

Definition cons_unit (u : option N) (r : option (jstr * jstr)) : option (jstr * jstr) :=
  match u, r with
  | Some u, Some (s, rest) => Some (u :: s, rest)
  | _, _ => None
  end.

(** The units of a string after its opening quote, and what follows the closing
    one. *)
Fixpoint string_body (s : jstr) : option (jstr * jstr) :=
  match s with
  | [] => None
  | c :: rest =>
      if (c =? 34)%N then Some ([], rest)
      else if (c =? 92)%N then
        match rest with
        | e :: rest' =>
            if (e =? 117)%N then
              match rest' with
              | h1 :: h2 :: h3 :: h4 :: rest'' => cons_unit (hex4 h1 h2 h3 h4) (string_body rest'')
              | _ => None
              end
            else cons_unit (simple_escape e) (string_body rest')
        | [] => None
        end
      else if (c <? 32)%N then None
      else cons_unit (Some c) (string_body rest)
  end.

(** [(\.\d+)?] and [([eE][+-]?\d+)?] as prefixes: what follows them. *)
Definition number_fraction (s : jstr) : option jstr :=
  match s with
  | 46%N :: after => let '(f, rest) := span_digits after in if bool_decide (f = []) then None else Some rest
  | _ => Some s
  end.

Definition skip_sign (s : jstr) : jstr :=
  match s with
  | d :: rest => if (d =? 43)%N || (d =? 45)%N then rest else s
  | [] => []
  end.

Definition number_exponent (s : jstr) : option jstr :=
  match s with
  | c :: rest =>
      if (c =? 101)%N || (c =? 69)%N then
        let '(e, rest') := span_digits (skip_sign rest) in if bool_decide (e = []) then None else Some rest'
      else Some s
  | [] => Some s
  end.

(** The longest prefix that spells a number, and what follows it. *)
Definition number_prefix (s : jstr) : option (jstr * jstr) :=
  let '(whole, r1) := span_digits (strip_minus s).2 in
  if integer_digits whole then
    match number_fraction r1 with
    | Some r2 =>
        match number_exponent r2 with
        | Some r3 => Some (take (length s - length r3) s, r3)
        | None => None
        end
    | None => None
    end
  else None.

Definition literal (text : jstr) (d : doc) (s : jstr) : option (doc * jstr) :=
  if starts_with s text then Some (d, drop (length text) s) else None.

Definition push_item (d : doc) (r : option (list doc * jstr)) : option (list doc * jstr) :=
  match r with Some (ds, rest) => Some (d :: ds, rest) | None => None end.

Definition push_member (k : jstr) (d : doc) (r : option (list (jstr * doc) * jstr)) :=
  match r with Some (ms, rest) => Some ((k, d) :: ms, rest) | None => None end.

(** A member name and its colon, up to the start of the value. *)
Definition parse_name (s : jstr) : option (jstr * jstr) :=
  match s with
  | c :: s1 =>
      if (c =? 34)%N then
        match string_body s1 with
        | Some (k, s2) =>
            match skip_ws s2 with
            | e :: s3 => if (e =? 58)%N then Some (k, skip_ws s3) else None
            | [] => None
            end
        | None => None
        end
      else None
  | [] => None
  end.

(** A value at the start of [s] (no white space before it), and what follows;
    the elements of an array after its bracket or a comma, up to the closing
    bracket; the members of an object likewise. *)
Fixpoint parse_value (fuel : nat) (s : jstr) : option (doc * jstr) :=
  match fuel with
  | O => None
  | S fuel =>
      match s with
      | [] => None
      | c :: rest =>
          if (c =? 34)%N then
            match string_body rest with Some (u, rest') => Some (DString u, rest') | None => None end
          else if (c =? 91)%N then
            match skip_ws rest with
            | [] => None
            | e :: rest' =>
                if (e =? 93)%N then Some (DArray [], rest')
                else match parse_elements fuel (e :: rest') with
                     | Some (ds, rest'') => Some (DArray ds, rest'')
                     | None => None
                     end
            end
          else if (c =? 123)%N then
            match skip_ws rest with
            | [] => None
            | e :: rest' =>
                if (e =? 125)%N then Some (DObject [], rest')
                else match parse_members fuel (e :: rest') with
                     | Some (ms, rest'') => Some (DObject ms, rest'')
                     | None => None
                     end
            end
          else if (c =? 110)%N then literal (js "null") DNull s
          else if (c =? 116)%N then literal (js "true") (DBool true) s
          else if (c =? 102)%N then literal (js "false") (DBool false) s
          else match number_prefix s with
               | Some (token, rest') => Some (DNumber token, rest')
               | None => None
               end
      end
  end
with parse_elements (fuel : nat) (s : jstr) : option (list doc * jstr) :=
  match fuel with
  | O => None
  | S fuel =>
      match parse_value fuel s with
      | Some (d, rest) =>
          match skip_ws rest with
          | e :: rest' =>
              if (e =? 44)%N then push_item d (parse_elements fuel (skip_ws rest'))
              else if (e =? 93)%N then Some ([d], rest')
              else None
          | [] => None
          end
      | None => None
      end
  end
with parse_members (fuel : nat) (s : jstr) : option (list (jstr * doc) * jstr) :=
  match fuel with
  | O => None
  | S fuel =>
      match parse_name s with
      | Some (k, s') =>
          match parse_value fuel s' with
          | Some (d, rest) =>
              match skip_ws rest with
              | e :: rest' =>
                  if (e =? 44)%N then push_member k d (parse_members fuel (skip_ws rest'))
                  else if (e =? 125)%N then Some ([(k, d)], rest')
                  else None
              | [] => None
              end
          | None => None
          end
      | None => None
      end
  end.

(** Two units of fuel per character, and one over, are enough ([parse_stable]). *)
Definition parse_fuel (s : jstr) : nat := S (2 * length s).

(** [JSON.parse(text)]; [None] is its [SyntaxError]. *)
Definition JSON_parse (text : jstr) : option doc :=
  match parse_value (parse_fuel text) (skip_ws text) with
  | Some (d, rest) => if bool_decide (skip_ws rest = []) then Some d else None
  | None => None
  end.

(** [JSON.parse] of a string literal, as the scanner calls it on its tokens. *)
Definition parse_string_literal (token : jstr) : option jstr :=
  match JSON_parse token with
  | Some (DString s) => Some s
  | _ => None
  end.

Definition last_member (members : list (jstr * doc)) (k : jstr) : option doc :=
  snd <$> find (fun m => bool_decide (m.1 = k)) (reverse members).

(** ** Writing *)

Fixpoint JSON_stringify (d : doc) : jstr :=
  match d with
  | DNull => js "null"
  | DBool b => if b then js "true" else js "false"
  | DNumber token => token
  | DString s => json_quote s
  | DArray items => 91%N :: intersperse [44%N] (JSON_stringify <$> items) ++ [93%N]
  | DObject members =>
      123%N :: intersperse [44%N] ((fun m => json_quote m.1 ++ 58%N :: JSON_stringify m.2) <$> members) ++ [125%N]
  end.

Example parse_ex :
  JSON_parse (js " [1, {} , -2.5e+3,true , [ ]]")
  = Some (DArray [DNumber (js "1"); DObject []; DNumber (js "-2.5e+3"); DBool true; DArray []]).
Proof. reflexivity. Qed.
Example parse_member :
  JSON_parse ([123; 34; 92; 117; 48; 48; 54; 49; 34; 32; 58; 49; 125]%N) = Some (DObject [(js "a", DNumber (js "1"))]).
Proof. reflexivity. Qed.
Example parse_bad : JSON_parse (js "01") = None /\ JSON_parse (js "[1,]") = None /\ JSON_parse (js "1.") = None.
Proof. split_and!; reflexivity. Qed.

(** ** Induction on documents *)
Section doc_induction.
Context (P : doc -> Prop).
Hypothesis P_null : P DNull.
Hypothesis P_bool : forall b, P (DBool b).
Hypothesis P_number : forall t, P (DNumber t).
Hypothesis P_string : forall s, P (DString s).
Hypothesis P_array : forall items, Forall P items -> P (DArray items).
Hypothesis P_object : forall members, Forall (fun m => P m.2) members -> P (DObject members).

Fixpoint doc_induction (d : doc) : P d :=
  match d with
  | DNull => P_null
  | DBool b => P_bool b
  | DNumber t => P_number t
  | DString s => P_string s
  | DArray items =>
      P_array items ((fix go l : Forall P l :=
        match l with [] => Forall_nil_2 _ | d :: l => Forall_cons_2 _ _ _ (doc_induction d) (go l) end) items)
  | DObject members =>
      P_object members ((fix go l : Forall (fun m => P m.2) l :=
        match l with [] => Forall_nil_2 _ | m :: l => Forall_cons_2 _ _ _ (doc_induction m.2) (go l) end) members)
  end.
End doc_induction.

(** ** White space *)

Lemma skip_ws_length s : (length (skip_ws s) <= length s)%nat.
Proof. induction s as [|c s IH]; cbn; [lia |]. destruct (whitespace c); cbn; lia. Qed.

Lemma skip_ws_idem s : skip_ws (skip_ws s) = skip_ws s.
Proof.
  induction s as [|c s IH]; [done |]. cbn. destruct (whitespace c) eqn:Hc; [done |]. cbn. by rewrite Hc.
Qed.

Lemma skip_ws_head c s : whitespace c = false -> skip_ws (c :: s) = c :: s.
Proof. intros H. cbn. by rewrite H. Qed.

(** ** Strings *)

(** A string that is read is a prefix that reads the same before anything. *)
Lemma string_body_prefix n : forall s k rest,
  (length s <= n)%nat -> string_body s = Some (k, rest) ->
  exists t, s = t ++ rest /\ forall r, string_body (t ++ r) = Some (k, r).
Proof.
  induction n as [|n IH]; intros s k rest Hn; destruct s as [|c s]; cbn [string_body length] in *; try done; [lia |].
  assert (forall u s' pre, (length s' <= n)%nat ->
    (forall t r, string_body (pre ++ t ++ r) = cons_unit u (string_body (t ++ r))) ->
    cons_unit u (string_body s') = Some (k, rest) ->
    exists t, pre ++ s' = t ++ rest /\ forall r, string_body (t ++ r) = Some (k, r)) as Hstep.
  { intros u s' pre Hs' Hpre Hu. unfold cons_unit in Hu. destruct u as [u|]; [| done].
    destruct (string_body s') as [[k' rest']|] eqn:Hb; [| done]. injection Hu as <- <-.
    destruct (IH _ _ _ Hs' Hb) as (t & -> & Ht). exists (pre ++ t). split; [by rewrite app_assoc |].
    intros r. by rewrite <- app_assoc, Hpre, Ht. }
  destruct (N.eqb_spec c 34) as [->|H34].
  { intros [= <- <-]. exists [34%N]. done. }
  apply N.eqb_neq in H34. destruct (N.eqb_spec c 92) as [->|H92].
  - destruct s as [|e s]; [done |]. destruct (N.eqb_spec e 117) as [->|He].
    + destruct s as [|h1 [|h2 [|h3 [|h4 s]]]]; try done. intros H.
      apply (Hstep (hex4 h1 h2 h3 h4) s [92; 117; h1; h2; h3; h4]%N); [cbn in *; lia | | done]. intros t r. reflexivity.
    + intros H. apply (Hstep (simple_escape e) s [92; e]%N); [cbn in *; lia | | done]. intros t r.
      apply N.eqb_neq in He. cbn. by rewrite He.
  - destruct (N.ltb_spec c 32) as [|Hlt]; [done |]. intros H.
    apply (Hstep (Some c) s [c]); [lia | | done]. intros t r. apply N.eqb_neq in H92.
    apply N.ltb_ge in Hlt. cbn. by rewrite H34, H92, Hlt.
Qed.

Lemma string_body_shorter s k rest : string_body s = Some (k, rest) -> (length rest < length s)%nat.
Proof.
  intros H. destruct (string_body_prefix _ s k rest (le_n _) H) as (t & -> & Ht).
  destruct t; [specialize (Ht []); done |]. rewrite length_app. cbn. lia.
Qed.

(** The literal of a string that was read parses by itself. *)
Lemma parse_string_literal_prefix s k rest :
  string_body s = Some (k, rest) ->
  exists t, s = t ++ rest /\ parse_string_literal (34%N :: t) = Some k.
Proof.
  intros H. destruct (string_body_prefix _ s k rest (le_n _) H) as (t & -> & Ht).
  exists t. split; [done |]. specialize (Ht []). rewrite app_nil_r in Ht.
  unfold parse_string_literal, JSON_parse, parse_fuel. cbn [skip_ws whitespace N.eqb Pos.eqb orb].
  cbn [parse_value N.eqb Pos.eqb]. by rewrite Ht.
Qed.

(** ** Numbers *)

Definition number_unit (c : N) : bool :=
  is_digit c || (c =? 43)%N || (c =? 45)%N || (c =? 46)%N || (c =? 101)%N || (c =? 69)%N.

(** [rest] is what is left of [s] after some of [p]'s units. *)
Definition reads (p : N -> bool) (s rest : jstr) : Prop := exists t, s = t ++ rest /\ forallb p t = true.

Lemma reads_refl p s : reads p s s.
Proof. by exists []. Qed.

Lemma reads_cons p c s rest : p c = true -> reads p s rest -> reads p (c :: s) rest.
Proof. intros Hc (t & -> & Ht). exists (c :: t). cbn. by rewrite Hc. Qed.

Lemma reads_trans p s s' rest : reads p s s' -> reads p s' rest -> reads p s rest.
Proof. intros (t & -> & Ht) (u & -> & Hu). exists (t ++ u). rewrite app_assoc, forallb_app, Ht. done. Qed.

Lemma digit_unit c : is_digit c = true -> number_unit c = true.
Proof. unfold number_unit. by intros ->. Qed.

Lemma reads_digits s d r : span_digits s = (d, r) -> reads number_unit s r.
Proof.
  revert d. induction s as [|c s IH]; intros d; cbn; [intros [= <- <-]; apply reads_refl |].
  destruct (is_digit c) eqn:Hc; [| intros [= <- <-]; apply reads_refl].
  destruct (span_digits s) as [d' r'] eqn:Hs. intros [= <- <-].
  apply reads_cons; [by apply digit_unit | by eapply IH].
Qed.

Lemma reads_minus s : reads number_unit s (strip_minus s).2.
Proof.
  destruct (strip_minus_spec s) as [H|(r & -> & H)]; rewrite H; [apply reads_refl |].
  apply reads_cons; [done | apply reads_refl].
Qed.

Lemma reads_fraction s rest : number_fraction s = Some rest -> reads number_unit s rest.
Proof.
  unfold number_fraction. intros H.
  assert (s = rest \/ exists after, s = 46%N :: after /\ exists f, span_digits after = (f, rest)) as [->|(after & -> & f & Hf)].
  { repeat case_hyp H; try done; injection H as <-; subst; eauto. }
  - apply reads_refl.
  - apply reads_cons; [done |]. by eapply reads_digits.
Qed.

Lemma reads_exponent s rest : number_exponent s = Some rest -> reads number_unit s rest.
Proof.
  unfold number_exponent. destruct s as [|c s]; [intros [= <-]; apply reads_refl |].
  destruct ((c =? 101)%N || (c =? 69)%N) eqn:Hc; [| intros [= <-]; apply reads_refl].
  intros H. apply reads_cons.
  { unfold number_unit. apply orb_true_iff in Hc as [->| ->]; by rewrite ?orb_true_r. }
  destruct (span_digits (skip_sign s)) as [e r] eqn:He. case_bool_decide; [done |]. injection H as <-.
  apply reads_digits in He. destruct s as [|d s]; [done |]. cbn in He.
  destruct ((d =? 43)%N || (d =? 45)%N) eqn:Hd; [| done]. apply reads_cons; [| done].
  unfold number_unit. apply orb_true_iff in Hd as [->| ->]; by rewrite ?orb_true_r.
Qed.

Lemma take_prefix (t rest : jstr) : take (length (t ++ rest) - length rest) (t ++ rest) = t.
Proof. rewrite length_app, Nat.add_sub. apply take_app_length. Qed.

Lemma number_prefix_reads s token rest :
  number_prefix s = Some (token, rest) -> s = token ++ rest /\ forallb number_unit token = true.
Proof.
  unfold number_prefix. pose proof (reads_minus s) as H1.
  destruct (span_digits (strip_minus s).2) as [whole r1] eqn:Hw. apply reads_digits in Hw.
  destruct (integer_digits whole); [| done].
  destruct (number_fraction r1) as [r2|] eqn:Hf; [| done]. apply reads_fraction in Hf.
  destruct (number_exponent r2) as [r3|] eqn:He; [| done]. apply reads_exponent in He.
  intros [= <- <-].
  assert (reads number_unit s r3) as (t & -> & Ht) 
    by exact (reads_trans _ _ _ _ H1 (reads_trans _ _ _ _ Hw (reads_trans _ _ _ _ Hf He))).
  by rewrite take_prefix.
Qed.

Lemma number_prefix_nonempty s token rest : number_prefix s = Some (token, rest) -> (length rest < length s)%nat.
Proof.
  intros H. pose proof (number_prefix_reads _ _ _ H) as [Hs _]. destruct token as [|c token].
  - exfalso. cbn in Hs. subst rest. revert H. unfold number_prefix.
    pose proof (reads_minus s) as H1. destruct (span_digits (strip_minus s).2) as [whole r1] eqn:Hw.
    destruct (integer_digits whole) eqn:Hi; [| done].
    destruct (number_fraction r1) as [r2|] eqn:Hf; [| done]. apply reads_fraction in Hf.
    destruct (number_exponent r2) as [r3|] eqn:He; [| done]. apply reads_exponent in He.
    intros [= _ ->].
    destruct H1 as (t1 & E1 & _), Hf as (t2 & E2 & _), He as (t3 & E3 & _).
    destruct (span_digits_spec _ _ _ Hw) as (E4 & _).
    apply (f_equal length) in E1, E2, E3, E4. rewrite length_app in E1, E2, E3, E4.
    assert (length whole = 0)%nat as H0 by lia. by destruct whole.
  - rewrite Hs. cbn. rewrite length_app. lia.
Qed.

(** ** The parser consumes, and its fuel is enough *)

Lemma literal_spec text d s r : literal text d s = Some r -> s = text ++ r.2 /\ r.1 = d.
Proof.
  unfold literal, starts_with. case_bool_decide as H; [| done]. intros [= <-]. cbn.
  rewrite <- H at 1. by rewrite take_drop.
Qed.

Lemma literal_shorter text d s d' rest : text <> [] -> literal text d s = Some (d', rest) -> (length rest < length s)%nat.
Proof.
  intros Hne [-> _]%literal_spec. rewrite length_app. destruct text; [done | cbn; lia].
Qed.

Lemma parse_name_spec s k s' :
  parse_name s = Some (k, s') ->
  exists t s2 s3, s = 34%N :: t ++ s2 /\ skip_ws s2 = 58%N :: s3 /\ s' = skip_ws s3
    /\ string_body (t ++ s2) = Some (k, s2) /\ parse_string_literal (34%N :: t) = Some k.
Proof.
  unfold parse_name. destruct s as [|c s1]; [done |]. destruct (N.eqb_spec c 34) as [->|]; [| done].
  destruct (string_body s1) as [[k' s2]|] eqn:Hb; [| done].
  destruct (skip_ws s2) as [|e s3] eqn:Hs; [done |]. destruct (N.eqb_spec e 58) as [->|]; [| done].
  intros [= <- <-]. destruct (parse_string_literal_prefix _ _ _ Hb) as (t & -> & Ht). eauto 10.
Qed.

Lemma parse_name_shorter s k s' : parse_name s = Some (k, s') -> (length s' + 2 < length s)%nat.
Proof.
  intros (t & s2 & s3 & -> & Hs2 & -> & Hb & _)%parse_name_spec. apply string_body_shorter in Hb.
  pose proof (skip_ws_length s2) as H2. rewrite Hs2 in H2. pose proof (skip_ws_length s3). cbn in *. lia.
Qed.

Lemma parse_shorter f :
  (forall s d rest, parse_value f s = Some (d, rest) -> (length rest < length s)%nat)
  /\ (forall s ds rest, parse_elements f s = Some (ds, rest) -> (length rest < length s)%nat)
  /\ (forall s ms rest, parse_members f s = Some (ms, rest) -> (length rest < length s)%nat).
Proof.
  induction f as [|f (IHv & IHe & IHm)]; [done |]. split_and!.
  - intros [|c s] d rest; cbn [parse_value]; [done |]. pose proof (skip_ws_length s) as Hws. cbn [length].
    intros H. repeat case_hyp H; try done; try injection H as <- <-; try (by apply literal_shorter in H);
      repeat match goal with
      | E : string_body _ = _ |- _ => apply string_body_shorter in E
      | E : parse_elements _ _ = _ |- _ => apply IHe in E
      | E : parse_members _ _ = _ |- _ => apply IHm in E
      | E : number_prefix _ = _ |- _ => apply number_prefix_nonempty in E
      end; cbn [length] in *; lia.
  - intros s ds rest. cbn [parse_elements]. unfold push_item. intros H.
    destruct (parse_value f s) as [[d r]|] eqn:Hv; [| done]. apply IHv in Hv.
    pose proof (skip_ws_length r) as Hws. destruct (skip_ws r) as [|e r']; [done |]. cbn [length] in Hws.
    pose proof (skip_ws_length r'). repeat case_hyp H; try done; injection H as <- <-; [| lia].
    match goal with E : parse_elements _ _ = _ |- _ => apply IHe in E end. lia.
  - intros s ms rest. cbn [parse_members]. unfold push_member. intros H.
    destruct (parse_name s) as [[k s']|] eqn:Hn; [| done]. apply parse_name_shorter in Hn.
    destruct (parse_value f s') as [[d r]|] eqn:Hv; [| done]. apply IHv in Hv.
    pose proof (skip_ws_length r) as Hws. destruct (skip_ws r) as [|e r']; [done |]. cbn [length] in Hws.
    pose proof (skip_ws_length r'). repeat case_hyp H; try done; injection H as <- <-; [| lia].
    match goal with E : parse_members _ _ = _ |- _ => apply IHm in E end. lia.
Qed.

(** More fuel than two units per character does not change the answer. *)
Lemma parse_stable f : forall g s,
  ((2 * length s < f -> 2 * length s < g -> parse_value f s = parse_value g s)
   /\ (2 * length s + 1 < f -> 2 * length s + 1 < g -> parse_elements f s = parse_elements g s)
   /\ (2 * length s + 1 < f -> 2 * length s + 1 < g -> parse_members f s = parse_members g s))%nat.
Proof.
  induction f as [|f IH]; intros g s; [split_and!; lia |].
  destruct g as [|g]; [split_and!; lia |]. split_and!; intros Hf Hg.
  - destruct s as [|c s]; [done |]. cbn [parse_value length] in *. pose proof (skip_ws_length s) as Hws.
    destruct (IH g (skip_ws s)) as (_ & He & Hm). specialize (He ltac:(lia) ltac:(lia)).
    specialize (Hm ltac:(lia) ltac:(lia)). destruct (skip_ws s) as [|e s']; [done |]. by rewrite He, Hm.
  - cbn [parse_elements]. destruct (IH g s) as (-> & _); [| lia..].
    destruct (parse_value g s) as [[d rest]|] eqn:Hv; [| done]. apply parse_shorter in Hv.
    pose proof (skip_ws_length rest) as Hws. destruct (skip_ws rest) as [|e r]; [done |]. cbn [length] in Hws.
    pose proof (skip_ws_length r). destruct (IH g (skip_ws r)) as (_ & -> & _); [done | lia..].
  - cbn [parse_members]. destruct (parse_name s) as [[k s']|] eqn:Hn; [| done].
    apply parse_name_shorter in Hn. destruct (IH g s') as (-> & _); [| lia..].
    destruct (parse_value g s') as [[d rest]|] eqn:Hv; [| done]. apply parse_shorter in Hv.
    pose proof (skip_ws_length rest) as Hws. destruct (skip_ws rest) as [|h r]; [done |]. cbn [length] in Hws.
    pose proof (skip_ws_length r). destruct (IH g (skip_ws r)) as (_ & _ & ->); [done | lia..].
Qed.

Lemma parse_value_fuel f s : (2 * length s < f)%nat -> parse_value f s = parse_value (parse_fuel s) s.
Proof. intros H. apply (parse_stable f (parse_fuel s) s); unfold parse_fuel; lia. Qed.

(** ** Reading back what was written *)

(** [rest] does not continue a number. *)
Definition stop (rest : jstr) : Prop :=
  match rest with c :: _ => number_unit c = false | [] => True end.

Definition number_token (t : jstr) : bool := bool_decide (number_prefix t = Some (t, [])).

Lemma stop_not_digit rest c u : stop rest -> rest = c :: u -> is_digit c = false.
Proof.
  intros Hs ->. cbn in Hs. unfold number_unit in Hs. by destruct (is_digit c).
Qed.

Lemma span_digits_app s d r rest :
  stop rest -> span_digits s = (d, r) -> span_digits (s ++ rest) = (d, r ++ rest).
Proof.
  intros Hstop. revert d r. induction s as [|c s IH]; intros d r; cbn.
  - intros [= <- <-]. destruct rest as [|c u]; [done |]. cbn. by rewrite (stop_not_digit _ c u Hstop eq_refl).
  - destruct (is_digit c); [| by intros [= <- <-]].
    destruct (span_digits s) as [d' r']. intros [= <- <-]. by rewrite (IH _ _ eq_refl).
Qed.

Lemma number_fraction_app s r rest :
  stop rest -> number_fraction s = Some r -> number_fraction (s ++ rest) = Some (r ++ rest).
Proof.
  intros Hstop. destruct s as [|c s].
  - intros [= <-]. cbn. destruct rest as [|c u]; [done |]. unfold number_fraction.
    destruct (decide (c = 46%N)) as [->|Hc]; [done |]. repeat case_goal; subst; done.
  - destruct (decide (c = 46%N)) as [->|Hc].
    + cbn. destruct (span_digits s) as [f r'] eqn:Hs. rewrite (span_digits_app _ _ _ _ Hstop Hs).
      case_bool_decide; [done |]. by intros [= <-].
    + assert (forall u, number_fraction (c :: u) = Some (c :: u)) as Hn.
      { intros u. unfold number_fraction. repeat case_goal; subst; done. }
      cbn [app]. rewrite !Hn. by intros [= <-].
Qed.

Lemma number_exponent_app s r rest :
  stop rest -> number_exponent s = Some r -> number_exponent (s ++ rest) = Some (r ++ rest).
Proof.
  intros Hstop. destruct s as [|c s].
  - intros [= <-]. cbn. destruct rest as [|c u]; [done |]. cbn in Hstop |- *. unfold number_unit in Hstop.
    destruct ((c =? 101)%N || (c =? 69)%N) eqn:Hc; [| done].
    apply orb_true_iff in Hc as [Hc|Hc]; rewrite Hc in Hstop; by rewrite ?orb_true_r in Hstop.
  - cbn. destruct ((c =? 101)%N || (c =? 69)%N); [| by intros [= <-]].
    destruct s as [|d s]; [done |].
    assert (skip_sign ((d :: s) ++ rest) = skip_sign (d :: s) ++ rest) as Happ.
    { cbn. by destruct ((d =? 43)%N || (d =? 45)%N). }
    rewrite Happ. destruct (span_digits (skip_sign (d :: s))) as [e r'] eqn:Hs. rewrite (span_digits_app _ _ _ _ Hstop Hs).
    case_bool_decide; [done |]. by intros [= <-].
Qed.

Lemma number_prefix_app t rest :
  number_token t = true -> stop rest -> number_prefix (t ++ rest) = Some (t, rest).
Proof.
  intros Ht%bool_decide_eq_true Hstop. pose proof (number_prefix_nonempty _ _ _ Ht) as Hne.
  assert ((strip_minus (t ++ rest)).2 = (strip_minus t).2 ++ rest) as Hstrip.
  { destruct t as [|c t]; [cbn in Hne; lia |]. cbn. destruct (decide (c = 45%N)) as [->|Hc]; [done |].
    repeat case_goal; subst; done. }
  revert Ht. unfold number_prefix. rewrite Hstrip. destruct (span_digits (strip_minus t).2) as [whole r1] eqn:Hw.
  rewrite (span_digits_app _ _ _ _ Hstop Hw). destruct (integer_digits whole); [| done].
  destruct (number_fraction r1) as [r2|] eqn:Hf; [| done].
  rewrite (number_fraction_app _ _ _ Hstop Hf).
  destruct (number_exponent r2) as [r3|] eqn:He; [| done].
  rewrite (number_exponent_app _ _ _ Hstop He). intros [= _ ->]. cbn. by rewrite take_prefix.
Qed.

Lemma hex_value_digit n : (n < 16)%N -> hex_value (hex_digit n) = Some n.
Proof.
  intros Hn. unfold hex_value, hex_digit, is_digit.
  destruct (N.ltb_spec n 10); repeat case_goal; split_bools; rewrite ?N.leb_le, ?N.leb_gt in *;
    try (f_equal; lia); repeat match goal with H : _ && _ = false |- _ => apply andb_false_iff in H as [H|H] end;
    rewrite ?N.leb_gt in *; try lia.
Qed.

Lemma hex4_escape c :
  (c < 0x10000)%N ->
  hex4 (hex_digit (c / 4096 mod 16)) (hex_digit (c / 256 mod 16)) (hex_digit (c / 16 mod 16)) (hex_digit (c mod 16))
  = Some c.
Proof.
  intros Hc. unfold hex4. rewrite !hex_value_digit by (apply N.mod_lt; done). f_equal.
  assert (c / 256 = c / 16 / 16)%N as -> by (rewrite N.Div0.div_div; done).
  assert (c / 4096 = c / 16 / 16 / 16)%N as -> by (rewrite !N.Div0.div_div; done).
  assert (c / 16 / 16 / 16 < 16)%N as H by (rewrite !N.Div0.div_div; apply N.Div0.div_lt_upper_bound; lia).
  rewrite (N.mod_small (c / 16 / 16 / 16)) by done.
  pose proof (N.div_mod' c 16). pose proof (N.div_mod' (c / 16) 16). pose proof (N.div_mod' (c / 16 / 16) 16).
  lia.
Qed.

Lemma string_body_escape c u :
  (c < 0x10000)%N -> string_body (unicode_escape c ++ u) = cons_unit (Some c) (string_body u).
Proof. intros Hc. cbn -[N.div N.modulo hex4]. by rewrite hex4_escape. Qed.

Lemma string_body_unit c u :
  (c < 0x10000)%N -> string_body (quote_unit c ++ u) = cons_unit (Some c) (string_body u).
Proof.
  intros Hc. unfold quote_unit.
  repeat match goal with |- context [if (c =? ?n)%N then _ else _] =>
    destruct (N.eqb_spec c n) as [->|?]; [reflexivity |] end.
  destruct (N.ltb_spec c 32); [by apply string_body_escape |]. cbn.
  rewrite (proj2 (N.eqb_neq c 34)), (proj2 (N.eqb_neq c 92)), (proj2 (N.ltb_ge c 32)) by done. done.
Qed.

Lemma string_body_raw c u : (0x80 <= c)%N -> string_body (c :: u) = cons_unit (Some c) (string_body u).
Proof.
  intros Hc. cbn. rewrite (proj2 (N.eqb_neq c 34)), (proj2 (N.eqb_neq c 92)), (proj2 (N.ltb_ge c 32)) by lia. done.
Qed.

Lemma string_body_quote n : forall s rest,
  (length s <= n)%nat -> is_units s = true -> string_body (quote_units s ++ 34%N :: rest) = Some (s, rest).
Proof.
  induction n as [|n IH]; intros [|c s] rest Hn Hu; try done; [cbn in Hn; lia |].
  cbn [is_units forallb] in Hu. apply andb_true_iff in Hu as [Hc%N.ltb_lt Hu]. cbn [length] in Hn.
  cbn [quote_units]. destruct (is_high_surrogate c) eqn:Hhi.
  - destruct s as [|d s].
    + rewrite string_body_escape by done. done.
    + destruct (is_low_surrogate d) eqn:Hlo.
      * cbn [is_units forallb] in Hu. apply andb_true_iff in Hu as [_ Hu].
        unfold is_high_surrogate, is_low_surrogate in *. split_bools. rewrite N.leb_le in *.
        cbn [app]. rewrite !string_body_raw by lia. rewrite IH by (done || cbn in Hn; lia). done.
      * rewrite <- app_assoc, string_body_escape by done. by rewrite IH by (done || cbn in *; lia).
  - destruct (is_low_surrogate c) eqn:Hlo; rewrite <- app_assoc;
      [rewrite string_body_escape by done | rewrite string_body_unit by done]; by rewrite IH by (done || lia).
Qed.

(** What [JSON.stringify] writes with nothing to escape twice: number tokens of
    the grammar and strings of 16-bit units. *)
Fixpoint doc_ok (d : doc) : bool :=
  match d with
  | DNull | DBool _ => true
  | DNumber t => number_token t
  | DString s => is_units s
  | DArray items => forallb doc_ok items
  | DObject members => forallb (fun m => is_units m.1 && doc_ok m.2) members
  end.

(** What can follow a value inside a document. *)
Definition delimiter (c : N) : bool := (c =? 44)%N || (c =? 93)%N || (c =? 125)%N.
Definition delimited (rest : jstr) : Prop :=
  match rest with c :: _ => delimiter c = true | [] => True end.

Lemma delimited_stop rest : delimited rest -> stop rest.
Proof.
  destruct rest as [|c rest]; [done |]. cbn. unfold delimiter. intros H.
  repeat (apply orb_true_iff in H as [H|H]); apply N.eqb_eq in H as ->; done.
Qed.

Lemma delimiter_head c s : delimiter c = true -> skip_ws (c :: s) = c :: s.
Proof.
  unfold delimiter. intros H.
  repeat (apply orb_true_iff in H as [H|H]); apply N.eqb_eq in H as ->; done.
Qed.

(** A written document starts with a unit that is no white space and closes no
    container. *)
Definition opens (c : N) : Prop := whitespace c = false /\ (c =? 93)%N = false /\ (c =? 125)%N = false.

Lemma number_token_opens t : number_token t = true -> exists c u, t = c :: u /\ (c = 45%N \/ (48 <= c <= 57)%N).
Proof.
  intros Ht%bool_decide_eq_true. pose proof (number_prefix_nonempty _ _ _ Ht) as Hne.
  destruct t as [|c t]; [cbn in Hne; lia |]. exists c, t. split; [done |].
  revert Ht. unfold number_prefix. cbn [strip_minus]. destruct (decide (c = 45%N)) as [->|Hc]; [by left |].
  assert ((match c with 45%N => (true, t) | _ => (false, c :: t) end).2 = c :: t) as ->
    by (repeat case_goal; subst; done).
  cbn. destruct (is_digit c) eqn:Hd; [| done]. apply is_digit_spec in Hd. by right.
Qed.

Lemma stringify_opens d : doc_ok d = true -> exists c u, JSON_stringify d = c :: u /\ opens c.
Proof.
  unfold opens. destruct d as [|b|t|s|items|ms]; cbn; intros Hok; try (by do 2 eexists).
  - destruct b; by do 2 eexists.
  - destruct (number_token_opens t Hok) as (c & u & -> & Hc). exists c, u. split; [done |].
    unfold whitespace. destruct Hc as [->|Hc]; [done |].
    rewrite (proj2 (N.eqb_neq c 32)), (proj2 (N.eqb_neq c 9)), (proj2 (N.eqb_neq c 13)),
      (proj2 (N.eqb_neq c 10)), (proj2 (N.eqb_neq c 93)), (proj2 (N.eqb_neq c 125)) by lia. done.
Qed.

Lemma parse_number t rest f :
  number_token t = true -> stop rest -> parse_value (S f) (t ++ rest) = Some (DNumber t, rest).
Proof.
  intros Ht Hstop. pose proof (number_prefix_app t rest Ht Hstop) as Hp.
  destruct (number_token_opens t Ht) as (c & u & -> & Hc). cbn [app parse_value] in *.
  assert (forall n, (57 < n)%N \/ n = 34%N -> (c =? n)%N = false) as Hne.
  { intros n Hn. apply N.eqb_neq. lia. }
  rewrite !Hne by (by left) || by right. by rewrite Hp.
Qed.

Lemma parse_name_quote k s c u :
  is_units k = true -> s = c :: u -> whitespace c = false ->
  parse_name (json_quote k ++ 58%N :: s) = Some (k, s).
Proof.
  intros Hk -> Hc. unfold parse_name, json_quote. cbn [app N.eqb Pos.eqb]. rewrite <- app_assoc. cbn [app].
  rewrite (string_body_quote _ _ _ (le_n _) Hk). cbn. by rewrite Hc.
Qed.

Definition parses_back (d : doc) : Prop :=
  doc_ok d = true -> forall rest f, delimited rest -> (2 * length (JSON_stringify d ++ rest) < f)%nat ->
  parse_value f (JSON_stringify d ++ rest) = Some (d, rest).

Lemma parse_items items :
  Forall parses_back items -> items <> [] -> forallb doc_ok items = true ->
  forall rest f, let s := intersperse [44%N] (JSON_stringify <$> items) ++ 93%N :: rest in
  (2 * length s + 1 < f)%nat -> parse_elements f s = Some (items, rest).
Proof.
  induction 1 as [|d items Hd Hitems IH]; intros Hne Hok rest f; [done |]. cbv zeta. cbn [forallb] in Hok.
  apply andb_true_iff in Hok as [Hdok Hok]. destruct f as [|f]; [lia |]. cbn [parse_elements].
  destruct items as [|d' items].
  - cbn. intros Hf. rewrite Hd by (done || lia). done.
  - rewrite fmap_cons, intersperse_cons by done. rewrite <- !app_assoc. intros Hf.
    rewrite length_app in Hf. cbn [length app] in Hf |- *.
    rewrite Hd by (done || (rewrite length_app; cbn [length]; lia)).
    rewrite delimiter_head by done. cbn [N.eqb Pos.eqb].
    pose proof (stringify_opens d') as Hopen. cbn [forallb] in Hok.
    apply andb_true_iff in Hok as [Hd' Hok']. destruct (Hopen Hd') as (c & u & Hc & Hws & _).
    assert (exists w, intersperse [44%N] (JSON_stringify <$> d' :: items) ++ 93%N :: rest = c :: w) as [w Hw].
    { rewrite fmap_cons, Hc. destruct items; [| rewrite fmap_cons, intersperse_cons by done]; cbn; eauto. }
    rewrite fmap_cons in Hw, Hf |- *. rewrite Hw, skip_ws_head, <- Hw by done.
    rewrite fmap_cons in IH. rewrite IH; [done | done | cbn; by rewrite Hd' | lia].
Qed.

Definition member_text (m : jstr * doc) : jstr := json_quote m.1 ++ 58%N :: JSON_stringify m.2.

Lemma parse_name_member k d w :
  is_units k = true -> doc_ok d = true ->
  parse_name (member_text (k, d) ++ w) = Some (k, JSON_stringify d ++ w).
Proof.
  intros Hk Hd. destruct (stringify_opens d Hd) as (c & u & Hc & Hws & _).
  unfold member_text. cbn [fst snd]. rewrite <- app_assoc. cbn [app].
  apply (parse_name_quote k _ c (u ++ w)); [done | by rewrite Hc | done].
Qed.

Lemma member_text_length m w : (length (JSON_stringify m.2 ++ w) + 2 < length (member_text m ++ w))%nat.
Proof.
  unfold member_text, json_quote. rewrite !length_app. cbn [length]. rewrite length_app. cbn [length]. lia.
Qed.

Lemma member_opens m w : exists v, member_text m ++ w = 34%N :: v.
Proof. by eexists. Qed.

Lemma parse_object members :
  Forall (fun m => parses_back m.2) members -> members <> [] ->
  forallb (fun m => is_units m.1 && doc_ok m.2) members = true ->
  forall rest f, let s := intersperse [44%N] (member_text <$> members) ++ 125%N :: rest in
  (2 * length s + 1 < f)%nat -> parse_members f s = Some (members, rest).
Proof.
  induction 1 as [|m members Hd Hms IH]; intros Hne Hok rest f; [done |]. cbv zeta. cbn [forallb] in Hok.
  apply andb_true_iff in Hok as [[Hk Hdok]%andb_true_iff Hok]. destruct f as [|f]; [lia |]. cbn [parse_members].
  destruct members as [|m' members].
  - cbn [fmap list_fmap intersperse]. pose proof (member_text_length m (125%N :: rest)). intros Hf.
    destruct m as [k d]. rewrite parse_name_member by done. cbn [fst snd] in *. rewrite Hd by (done || lia). done.
  - rewrite fmap_cons, intersperse_cons, <- !app_assoc by done. set (w := _ ++ 125%N :: rest).
    cbn [app]. pose proof (member_text_length m (44%N :: w)) as Hl. intros Hf.
    destruct m as [k d]. rewrite parse_name_member by done. cbn [fst snd] in *. rewrite Hd by (done || lia).
    rewrite delimiter_head by done. cbn [N.eqb Pos.eqb].
    assert (exists v, w = 34%N :: v) as [v Hv].
    { unfold w. rewrite fmap_cons. destruct members; [| rewrite fmap_cons, intersperse_cons, <- app_assoc by done];
        apply member_opens. }
    rewrite Hv, skip_ws_head, <- Hv by done. unfold w. rewrite IH; [done | done | done |].
    fold w. rewrite length_app in Hf. cbn [length] in Hf. lia.
Qed.

Lemma parse_stringify d : parses_back d.
Proof.
  induction d as [|b|t|s|items IH|members IH] using doc_induction; intros Hok rest f Hrest Hf;
    (destruct f as [|f]; [lia |]).
  - reflexivity.
  - by destruct b.
  - apply parse_number; [done | by apply delimited_stop].
  - cbn. rewrite <- app_assoc. cbn [app]. by rewrite (string_body_quote _ _ _ (le_n _) Hok).
  - cbn [JSON_stringify app] in *. rewrite <- app_assoc in *. cbn [app parse_value N.eqb Pos.eqb length] in *.
    destruct items as [|d items]; [done |]. pose proof (parse_items (d :: items) IH ltac:(done) Hok rest f) as Hp.
    cbn [doc_ok forallb] in Hok. apply andb_true_iff in Hok as [Hd _].
    destruct (stringify_opens d Hd) as (c & u & Hc & Hws & H93 & _). cbv zeta in Hp.
    assert (exists w, intersperse [44%N] (JSON_stringify <$> d :: items) ++ 93%N :: rest = c :: w) as [w Hw].
    { rewrite fmap_cons, Hc. destruct items; [| rewrite fmap_cons, intersperse_cons by done]; cbn; eauto. }
    rewrite Hw in *. rewrite skip_ws_head by done. rewrite H93, Hp by lia. done.
  - cbn [JSON_stringify app] in *. fold member_text in *. rewrite <- app_assoc in *.
    cbn [app parse_value N.eqb Pos.eqb length] in *.
    destruct members as [|m members]; [done |].
    pose proof (parse_object (m :: members) IH ltac:(done) Hok rest f) as Hp. cbv zeta in Hp.
    assert (exists w, intersperse [44%N] (member_text <$> m :: members) ++ 125%N :: rest = 34%N :: w) as [w Hw].
    { rewrite fmap_cons. destruct members; [| rewrite fmap_cons, intersperse_cons, <- app_assoc by done]; apply member_opens. }
    rewrite Hw in *. rewrite skip_ws_head by done. cbn [N.eqb Pos.eqb]. rewrite Hp by lia. done.
Qed.

(** What is written reads back. *)
Lemma JSON_parse_stringify d : doc_ok d = true -> JSON_parse (JSON_stringify d) = Some d.
Proof.
  intros Hok. unfold JSON_parse. destruct (stringify_opens d Hok) as (c & u & Hc & Hws & _).
  rewrite Hc at 2. rewrite skip_ws_head, <- Hc by done.
  pose proof (parse_stringify d Hok [] (parse_fuel (JSON_stringify d)) I) as H. rewrite app_nil_r in H.
  rewrite H by (unfold parse_fuel; lia). done.
Qed.

(** ** Number tokens by themselves *)

(** An exponent part, or nothing. *)
Definition exponent_start (e : jstr) : Prop := e = [] \/ exists c u, e = c :: u /\ (c = 101%N \/ c = 69%N).

Lemma span_digits_exact d x :
  all_digits d = true -> (forall c u, x = c :: u -> is_digit c = false) -> span_digits (d ++ x) = (d, x).
Proof.
  induction d as [|c d IH]; intros Hd Hx; cbn.
  - destruct x as [|c u]; [done |]. cbn. by rewrite (Hx c u eq_refl).
  - unfold all_digits in Hd. cbn [forallb] in Hd. apply andb_true_iff in Hd as [-> Hd]. by rewrite (IH Hd Hx).
Qed.

Lemma exponent_start_digit e c u : exponent_start e -> e = c :: u -> is_digit c = false.
Proof. intros [->|(c' & u' & -> & Hc)] He; [done |]. injection He as -> ->. by destruct Hc as [->| ->]. Qed.

Lemma skip_sign_cut r : exists sgn, r = sgn ++ skip_sign r
  /\ forall c u, is_digit c = true -> skip_sign (sgn ++ c :: u) = c :: u.
Proof.
  destruct r as [|d r]; [exists [] | cbn; destruct ((d =? 43)%N || (d =? 45)%N) eqn:Hd; [exists [d] | exists []]];
    (split; [done |]); intros c u Hc; cbn.
  - apply is_digit_spec in Hc. by rewrite (proj2 (N.eqb_neq c 43)), (proj2 (N.eqb_neq c 45)) by lia.
  - by rewrite Hd.
  - apply is_digit_spec in Hc. by rewrite (proj2 (N.eqb_neq c 43)), (proj2 (N.eqb_neq c 45)) by lia.
Qed.

Lemma number_exponent_cut r2 rest :
  number_exponent r2 = Some rest -> exists e, r2 = e ++ rest /\ number_exponent e = Some [] /\ exponent_start e.
Proof.
  destruct r2 as [|c r]; [intros [= <-]; exists []; split_and!; [done.. | by left] |].
  cbn. destruct ((c =? 101)%N || (c =? 69)%N) eqn:Hc; [| intros [= <-]; exists []; split_and!; [done.. | by left]].
  destruct (skip_sign_cut r) as (sgn & Hr & Hsgn). set (after := skip_sign r) in *.
  destruct (span_digits after) as [e rest'] eqn:Hs. destruct (span_digits_spec _ _ _ Hs) as (Ha & He & Hrest).
  case_bool_decide as Hne; [done |]. intros [= ->]. exists (c :: sgn ++ e). rewrite Hr, Ha. split_and!.
  - cbn. by rewrite <- app_assoc.
  - destruct e as [|x e]; [done |]. pose proof He as Hx. unfold all_digits in Hx. cbn [forallb] in Hx.
    apply andb_true_iff in Hx as [Hx _]. cbn [number_exponent]. rewrite Hc, (Hsgn x e Hx).
    rewrite span_digits_all by done. done.
  - right. exists c, (sgn ++ e). split; [done |]. apply orb_true_iff in Hc as [H|H]; apply N.eqb_eq in H; auto.
Qed.

Lemma number_fraction_cut r1 r2 :
  number_fraction r1 = Some r2 ->
  exists f, r1 = f ++ r2 /\ (forall e, exponent_start e -> number_fraction (f ++ e) = Some e)
    /\ (f = [] \/ exists u, f = 46%N :: u).
Proof.
  intros H. destruct (decide (head r1 = Some 46%N)) as [Hh|Hh].
  - destruct r1 as [|c after]; [done |]. cbn in Hh. injection Hh as ->. cbn in H.
    destruct (span_digits after) as [f rest] eqn:Hs. case_bool_decide as Hne; [done |]. injection H as ->.
    destruct (span_digits_spec _ _ _ Hs) as (-> & Hf & _). exists (46%N :: f). split_and!; [done | | right; by exists f].
    intros e He. cbn. rewrite span_digits_exact by (done || (intros c u; by apply exponent_start_digit)).
    by rewrite bool_decide_false.
  - assert (r2 = r1) as ->.
    { unfold number_fraction in H. repeat case_hyp H; subst; try (by destruct Hh); by injection H. }
    exists []. split_and!; [done | | by left]. intros e [->|(c & u & -> & [->| ->])]; done.
Qed.

(** The token of a prefix is a token. *)
Lemma number_prefix_token s t rest : number_prefix s = Some (t, rest) -> number_token t = true.
Proof.
  intros H. destruct (number_prefix_reads _ _ _ H) as [Hs _]. apply bool_decide_eq_true. revert H. unfold number_prefix.
  assert (exists sgn, s = sgn ++ (strip_minus s).2
    /\ forall c u, is_digit c = true -> (strip_minus (sgn ++ c :: u)).2 = c :: u) as (sgn & Hsgn & Hstrip).
  { destruct (strip_minus_spec s) as [E|(r & -> & E)]; rewrite E; [exists [] | exists [45%N]]; (split; [done |]);
      intros c u Hc; [| done]. apply is_digit_spec in Hc. cbn. repeat case_goal; subst; try done; lia. }
  destruct (span_digits (strip_minus s).2) as [whole r1] eqn:Hw.
  destruct (span_digits_spec _ _ _ Hw) as (Hbody & Hwd & _).
  destruct (integer_digits whole) eqn:Hint; [| done].
  destruct (number_fraction r1) as [r2|] eqn:Hf; [| done].
  destruct (number_exponent r2) as [r3|] eqn:He; [| done]. intros [= _ ->].
  apply number_fraction_cut in Hf as (f & -> & Hf & Hfs). apply number_exponent_cut in He as (e & -> & He & Hes).
  assert (t = sgn ++ whole ++ f ++ e) as Ht.
  { apply (app_inv_tail rest). rewrite <- Hs, Hsgn, Hbody. by rewrite <- !app_assoc. }
  destruct whole as [|c whole]; [done |]. pose proof Hwd as Hc. unfold all_digits in Hc. cbn [forallb] in Hc.
  apply andb_true_iff in Hc as [Hc _].
  assert (span_digits (strip_minus t).2 = (c :: whole, f ++ e)) as ->.
  { rewrite Ht. cbn [app]. rewrite (Hstrip c (whole ++ f ++ e) Hc). apply (span_digits_exact (c :: whole)); [done |].
    destruct Hfs as [->|[u ->]]; cbn [app]; [intros x y; by apply exponent_start_digit | by intros x y [= <- _]]. }
  rewrite Hint, Hf, He by done. by rewrite Nat.sub_0_r, take_ge.
Qed.

(** ** Tokens of a parsed document *)

Fixpoint doc_tokens (d : doc) : bool :=
  match d with
  | DNumber t => number_token t
  | DArray items => forallb doc_tokens items
  | DObject members => forallb (fun m => doc_tokens m.2) members
  | _ => true
  end.

Lemma parse_tokens f :
  (forall s d rest, parse_value f s = Some (d, rest) -> doc_tokens d = true)
  /\ (forall s ds rest, parse_elements f s = Some (ds, rest) -> forallb doc_tokens ds = true)
  /\ (forall s ms rest, parse_members f s = Some (ms, rest) -> forallb (fun m => doc_tokens m.2) ms = true).
Proof.
  induction f as [|f (IHv & IHe & IHm)]; [done |]. split_and!.
  - intros [|c s] d rest; cbn [parse_value]; [done |]. intros H.
    repeat case_hyp H; try done; try (apply literal_spec in H as [_ H]; cbn in H; by subst d);
      injection H as <- <-; try done; cbn [doc_tokens]; eauto using number_prefix_token.
  - intros s ds rest. cbn [parse_elements]. unfold push_item. intros H.
    repeat case_hyp H; try done; injection H as <- <-; cbn [forallb];
      erewrite IHv by eassumption; [cbn [andb]; eauto | done].
  - intros s ms rest. cbn [parse_members]. unfold push_member. intros H.
    repeat case_hyp H; try done; injection H as <- <-; cbn [forallb snd];
      erewrite IHv by eassumption; [cbn [andb]; eauto | done].
Qed.

Lemma JSON_parse_tokens text d : JSON_parse text = Some d -> doc_tokens d = true.
Proof.
  unfold JSON_parse. destruct (parse_value _ _) as [[d' rest]|] eqn:H; [| done].
  case_bool_decide; [| done]. intros [= ->]. by eapply parse_tokens.
Qed.
