(* ===== verification/Scan.v ===== *)
(** * The duplicate-member scanner

    The scanner of [codec/duplicates.ts] and its specification: on every text the
    native parser reads, the one-pass scanner computes what a recursive walk over
    the parsed document computes. *)
From stdpp Require Import base gmap list strings.
From Stdlib Require Import ZArith Lia.
From S2P Require Import Prelude JsNumber JsString Numbers Digits Codec Json.

(** ** The scanner

    [src/runtime/codec/duplicates.ts]: one pass over the text with an explicit
    stack of open containers, which counts the values and depth of the document
    and finds the path of its first repeated member.  The index [i] of the code
    is the suffix of the text that is left. *)

Record frame : Type := mkFrame {
  kind : N;
  path : jstr;
  index : nat;
  member_key : option jstr;
  keys : option (gset jstr)
}.

(** The stack has its innermost frame first. *)
Record scanner : Type := mkScanner {
  stack : list frame;
  budget : Budget;
  duplicate : option jstr
}.

Definition valuePath (st : scanner) : jstr * scanner :=
  match stack st with
  | [] => ([], st)
  | parent :: rest =>
      if (kind parent =? 91)%N then
        (indexPath (path parent) (index parent),
         mkScanner (mkFrame (kind parent) (path parent) (S (index parent)) (member_key parent) (keys parent) :: rest)
           (budget st) (duplicate st))
      else
        (match member_key parent with None => path parent | Some key => childPath (path parent) key end,
         mkScanner (mkFrame (kind parent) (path parent) (index parent) None (keys parent) :: rest)
           (budget st) (duplicate st))
  end.

Definition depth (st : scanner) : Z := Z.of_nat (length (stack st)).

Definition scan_visit (st : scanner) (d : Z) : coded scanner :=
  let* b := Codec.visit (budget st) d [] in Coded (mkScanner (stack st) b (duplicate st)).

(** [{] or [[]. *)
Definition open_container (st : scanner) (ch : N) : coded scanner :=
  if maxDepth <? depth st + 1 then reject [] depth_limit
  else
    let* st1 := scan_visit st (depth st + 1) in
    let '(p, st2) := valuePath st1 in
    let f := mkFrame ch p 0 None (if (ch =? 123)%N then Some ∅ else None) in
    Coded (mkScanner (f :: stack st2) (budget st2) (duplicate st2)).

Definition close_container (st : scanner) : scanner :=
  mkScanner (tl (stack st)) (budget st) (duplicate st).

(** The text after a string whose opening quote was passed. *)
Fixpoint string_end (s : jstr) : jstr :=
  match s with
  | [] => []
  | c :: rest =>
      if (c =? 92)%N then match rest with _ :: rest' => string_end rest' | [] => [] end
      else if (c =? 34)%N then rest
      else string_end rest
  end.

(** A member name: [text.slice(start, i)] parsed by itself. *)
Definition member_name (st : scanner) (f : frame) (rest_ : list frame) (seen : gset jstr) (token : jstr) : scanner :=
  match parse_string_literal token with
  | Some key =>
      mkScanner (mkFrame (kind f) (path f) (index f) (Some key) (Some ({[ key ]} ∪ seen)) :: rest_) (budget st)
        (match duplicate st with
         | None => if bool_decide (key ∈ seen) then Some (childPath (path f) key) else None
         | Some d => Some d
         end)
  | None => st
  end.

Definition value_token (st : scanner) : coded scanner :=
  let st' := (valuePath st).2 in scan_visit st' (depth st').

Definition colon_next (s : jstr) : bool :=
  match skip_ws s with c :: _ => (c =? 58)%N | [] => false end.

Definition string_token (st : scanner) (s rest : jstr) : coded scanner :=
  match stack st with
  | f :: rest_ =>
      match keys f with
      | Some seen =>
          if colon_next rest then Coded (member_name st f rest_ seen (take (length s - length rest) s))
          else value_token st
      | None => value_token st
      end
  | [] => value_token st
  end.

(** Neither white space nor one of the structural characters and the quote. *)
Definition primitive_unit (c : N) : bool := negb (whitespace c) && negb (bool_decide (c ∈ [123; 125; 91; 93; 44; 58; 34]%N)).

Fixpoint drop_primitive (s : jstr) : jstr :=
  match s with
  | c :: rest => if primitive_unit c then drop_primitive rest else s
  | [] => []
  end.

(** One turn of the loop at a non-empty suffix. *)
Definition scan_step (st : scanner) (s : jstr) : coded (scanner * jstr) :=
  match s with
  | [] => Coded (st, [])
  | ch :: rest =>
      if whitespace ch || (ch =? 58)%N || (ch =? 44)%N then Coded (st, rest)
      else if (ch =? 123)%N || (ch =? 91)%N then
        let* st' := open_container st ch in Coded (st', rest)
      else if (ch =? 125)%N || (ch =? 93)%N then Coded (close_container st, rest)
      else if (ch =? 34)%N then
        let rest' := string_end rest in
        let* st' := string_token st s rest' in Coded (st', rest')
      else
        let* st' := value_token st in Coded (st', drop_primitive s)
  end.

(** Every turn consumes, so the length of the text is enough fuel
    ([scan_loop_fuel]). *)
Fixpoint scan_loop (fuel : nat) (st : scanner) (s : jstr) : coded scanner :=
  match s, fuel with
  | [], _ => Coded st
  | _, O => Fault "fuel"
  | _, S fuel => let* (st', rest) := scan_step st s in scan_loop fuel st' rest
  end.

Definition standalone_budget : Budget := mkBudget standaloneBytes standaloneBytes 0.

Definition scanJSON (text : jstr) : coded (option jstr) :=
  let* st := scan_loop (length text) (mkScanner [] standalone_budget None) text in
  Coded (duplicate st).

(** A text with [q] for its quotes. *)
Definition dq (s : string) : jstr := (fun c => if (c =? 39)%N then 34%N else c) <$> js s.

Example scan_ex : scanJSON (dq "{'a':1,'b':[{},{'x/':1,'y':'x', 'x/' :2}]}") = Coded (Some (js "/b/1/x~1")).
Proof. vm_compute. reflexivity. Qed.
Example scan_fine : scanJSON (dq "{'a':{'b':1},'b':['a','a']}") = Coded None.
Proof. vm_compute. reflexivity. Qed.

(** ** The walk

    The budget of nodes and the first repetition found so far go along. *)
Definition tally : Type := Budget * option jstr.

Definition note_member (p k : jstr) (seen : gset jstr) (dup : option jstr) : option jstr :=
  match dup with
  | None => if bool_decide (k ∈ seen) then Some (childPath p k) else None
  | Some d => Some d
  end.

Definition enter_container (dep : Z) (t : tally) : coded tally :=
  if maxDepth <? dep + 1 then reject [] depth_limit
  else let* b := Codec.visit t.1 (dep + 1) [] in Coded (b, t.2).

Section walk_members.
Context (walk : doc -> jstr -> Z -> tally -> coded tally).

Fixpoint walk_items (items : list doc) (p : jstr) (i : nat) (dep : Z) (t : tally) : coded tally :=
  match items with
  | [] => Coded t
  | d :: items => let* t := walk d (indexPath p i) dep t in walk_items items p (S i) dep t
  end.

Fixpoint walk_members (members : list (jstr * doc)) (p : jstr) (seen : gset jstr) (dep : Z) (t : tally) : coded tally :=
  match members with
  | [] => Coded t
  | m :: members =>
      let* t := walk m.2 (childPath p m.1) dep (t.1, note_member p m.1 seen t.2) in
      walk_members members p ({[ m.1 ]} ∪ seen) dep t
  end.
End walk_members.

Fixpoint walk (d : doc) (p : jstr) (dep : Z) (t : tally) : coded tally :=
  match d with
  | DArray items => let* t := enter_container dep t in walk_items walk items p 0 (dep + 1) t
  | DObject members => let* t := enter_container dep t in walk_members walk members p ∅ (dep + 1) t
  | _ => let* b := Codec.visit t.1 dep [] in Coded (b, t.2)
  end.

(** ** The loop *)

Lemma coded_bind_assoc {A B C} (m : coded A) (f : A -> coded B) (g : B -> coded C) :
  coded_bind (coded_bind m f) g = coded_bind m (fun a => coded_bind (f a) g).
Proof. by destruct m. Qed.

Lemma string_end_length n : forall s, (length s <= n)%nat -> (length (string_end s) <= length s)%nat.
Proof.
  induction n as [|n IH]; intros [|c s] Hn; cbn in *; try lia.
  destruct (c =? 92)%N; [destruct s as [|e s]; cbn in *; [lia |]; specialize (IH s); lia |].
  destruct (c =? 34)%N; [lia |]. specialize (IH s). lia.
Qed.

Lemma drop_primitive_length s : (length (drop_primitive s) <= length s)%nat.
Proof. induction s as [|c s IH]; cbn; [lia |]. destruct (primitive_unit c); cbn; lia. Qed.

(** The tests of the loop that fail before a primitive make it one. *)
Lemma primitive_unit_intro c :
  whitespace c || (c =? 58)%N || (c =? 44)%N = false -> (c =? 123)%N || (c =? 91)%N = false ->
  (c =? 125)%N || (c =? 93)%N = false -> (c =? 34)%N = false -> primitive_unit c = true.
Proof.
  intros. split_bools. unfold primitive_unit. apply andb_true_iff. split; [by apply negb_true_iff |].
  apply negb_true_iff, bool_decide_eq_false.
  repeat match goal with H : (_ =? _)%N = false |- _ => apply N.eqb_neq in H end. set_solver.
Qed.

Lemma scan_step_shorter st c s st' rest :
  scan_step st (c :: s) = Coded (st', rest) -> (length rest <= length s)%nat.
Proof.
  cbn [scan_step]. intros H.
  destruct (whitespace c || (c =? 58)%N || (c =? 44)%N) eqn:H1; [by injection H as _ <- |].
  destruct ((c =? 123)%N || (c =? 91)%N) eqn:H2;
    [apply coded_bind_ok in H as (a & _ & H); by injection H as _ <- |].
  destruct ((c =? 125)%N || (c =? 93)%N) eqn:H3; [by injection H as _ <- |].
  destruct (c =? 34)%N eqn:H4.
  - apply coded_bind_ok in H as (a & _ & H). injection H as _ <-. by eapply string_end_length.
  - apply coded_bind_ok in H as (a & _ & H). injection H as _ <-.
    cbn [drop_primitive]. rewrite (primitive_unit_intro c) by done. apply drop_primitive_length.
Qed.

Lemma scan_loop_fuel f : forall st s, (length s <= f)%nat -> scan_loop f st s = scan_loop (length s) st s.
Proof.
  induction f as [f IH] using lt_wf_ind. intros st [|c s] Hf; [by destruct f |].
  cbn [length] in Hf |- *. destruct f as [|f]; [lia |]. cbn [scan_loop].
  destruct (scan_step st (c :: s)) as [[st' rest]| |] eqn:Hs; [| done..]. cbn [coded_bind].
  apply scan_step_shorter in Hs. rewrite (IH f) by lia. rewrite (IH (length s)) by lia. done.
Qed.

Definition scan_from (st : scanner) (s : jstr) : coded scanner := scan_loop (length s) st s.

Lemma scan_from_cons st c s :
  scan_from st (c :: s) = let* (st', rest) := scan_step st (c :: s) in scan_from st' rest.
Proof.
  unfold scan_from. cbn [length scan_loop].
  destruct (scan_step st (c :: s)) as [[st' rest]| |] eqn:Hs; [| done..]. cbn [coded_bind].
  apply scan_step_shorter in Hs. by apply scan_loop_fuel.
Qed.

Lemma scan_from_skip st c s :
  whitespace c || (c =? 58)%N || (c =? 44)%N = true -> scan_from st (c :: s) = scan_from st s.
Proof. intros H. rewrite scan_from_cons. cbn [scan_step]. by rewrite H. Qed.

Lemma scan_from_ws st s : scan_from st (skip_ws s) = scan_from st s.
Proof.
  induction s as [|c s IH]; [done |]. cbn [skip_ws]. destruct (whitespace c) eqn:Hc; [| done].
  rewrite scan_from_skip by by rewrite Hc. done.
Qed.

(** ** One value *)

(** The state after a value at the place where [st] is. *)
Definition after_value (st : scanner) (t : tally) : scanner :=
  mkScanner (stack (valuePath st).2) t.1 t.2.

Definition value_result (st : scanner) (d : doc) (rest : jstr) : coded scanner :=
  let* t := walk d (valuePath st).1 (depth st) (budget st, duplicate st) in
  scan_from (after_value st t) rest.

Lemma valuePath_frame st : budget (valuePath st).2 = budget st /\ duplicate (valuePath st).2 = duplicate st
  /\ length (stack (valuePath st).2) = length (stack st).
Proof. unfold valuePath. destruct (stack st) as [|f r] eqn:Hs; [cbn; by rewrite Hs |]. by destruct (kind f =? 91)%N. Qed.

Lemma value_token_walk st :
  value_token st = let* b := Codec.visit (budget st) (depth st) [] in Coded (after_value st (b, duplicate st)).
Proof.
  unfold value_token, scan_visit, depth, after_value. destruct (valuePath_frame st) as (-> & -> & ->). done.
Qed.

(** [rest] is empty or goes on with a delimiter, after white space. *)
Definition follows (rest : jstr) : Prop := delimited (skip_ws rest).

Lemma follows_not_colon rest : follows rest -> colon_next rest = false.
Proof.
  unfold follows, colon_next. destruct (skip_ws rest) as [|c s]; [done |]. cbn. unfold delimiter. intros H.
  apply N.eqb_neq. intros ->. done.
Qed.

Lemma follows_not_primitive rest : follows rest -> drop_primitive rest = rest.
Proof.
  destruct rest as [|c s]; [done |]. unfold follows. cbn [skip_ws drop_primitive]. unfold primitive_unit.
  destruct (whitespace c); [done |]. cbn. unfold delimiter. intros H.
  repeat (apply orb_true_iff in H as [H|H]); apply N.eqb_eq in H as ->; done.
Qed.

Lemma number_unit_primitive c : number_unit c = true -> primitive_unit c = true.
Proof.
  unfold number_unit, primitive_unit, whitespace. intros H.
  assert ((48 <= c <= 57)%N \/ c = 43%N \/ c = 45%N \/ c = 46%N \/ c = 101%N \/ c = 69%N) as Hc.
  { repeat (apply orb_true_iff in H as [H|H]); try (apply is_digit_spec in H; lia); apply N.eqb_eq in H; lia. }
  rewrite (proj2 (N.eqb_neq c 32)), (proj2 (N.eqb_neq c 9)), (proj2 (N.eqb_neq c 13)), (proj2 (N.eqb_neq c 10)) by lia.
  cbn. apply negb_true_iff, bool_decide_eq_false. rewrite !elem_of_cons, elem_of_nil. lia.
Qed.

Lemma drop_primitive_app t rest :
  forallb primitive_unit t = true -> follows rest -> drop_primitive (t ++ rest) = rest.
Proof.
  intros Ht Hrest. induction t as [|c t IH]; [by apply follows_not_primitive |].
  cbn [forallb] in Ht. apply andb_true_iff in Ht as [Hc Ht]. cbn. rewrite Hc. by apply IH.
Qed.

(** A leaf that is no string. *)
Lemma scan_primitive st d c t rest :
  forallb primitive_unit (c :: t) = true -> follows rest ->
  (forall p dep tl, walk d p dep tl = let* b := Codec.visit tl.1 dep [] in Coded (b, tl.2)) ->
  scan_from st ((c :: t) ++ rest) = value_result st d rest.
Proof.
  intros Ht Hrest Hd. cbn [app]. rewrite scan_from_cons. pose proof Ht as Hall.
  cbn [forallb] in Ht. apply andb_true_iff in Ht as [Hc _]. cbn [scan_step].
  unfold primitive_unit in Hc. apply andb_true_iff in Hc as [Hws%negb_true_iff Hin%negb_true_iff].
  apply bool_decide_eq_false in Hin. rewrite !elem_of_cons, elem_of_nil in Hin.
  rewrite Hws, (proj2 (N.eqb_neq c 58)), (proj2 (N.eqb_neq c 44)), (proj2 (N.eqb_neq c 123)),
    (proj2 (N.eqb_neq c 91)), (proj2 (N.eqb_neq c 125)), (proj2 (N.eqb_neq c 93)), (proj2 (N.eqb_neq c 34)) by naive_solver.
  cbn [orb]. rewrite value_token_walk. unfold value_result. rewrite Hd. cbn [fst snd].
  rewrite (drop_primitive_app (c :: t) rest Hall Hrest : drop_primitive (c :: t ++ rest) = rest).
  by destruct (Codec.visit _ _ _).
Qed.

Lemma string_end_body n : forall s k rest, (length s <= n)%nat -> string_body s = Some (k, rest) -> string_end s = rest.
Proof.
  induction n as [|n IH]; intros [|c s] k rest Hn; cbn [string_body string_end length] in *; try done; [lia |].
  destruct (N.eqb_spec c 34) as [->|H34]; [by intros [= _ <-] |].
  assert (forall u s', (length s' <= n)%nat -> cons_unit u (string_body s') = Some (k, rest) -> string_end s' = rest) as Hstep.
  { intros u s' Hs' H. unfold cons_unit in H. destruct u; [| done].
    destruct (string_body s') as [[k' r]|] eqn:Hb; [| done]. injection H as _ <-. by eapply IH. }
  destruct (N.eqb_spec c 92) as [->|H92].
  - destruct s as [|e s]; [done |]. destruct (N.eqb_spec e 117) as [->|He].
    + destruct s as [|h1 [|h2 [|h3 [|h4 s]]]]; try done. intros H.
      assert (forall h, (h =? 92)%N = true \/ (h =? 34)%N = true -> hex_value h = None) as Hhex.
      { intros h [E|E]; apply N.eqb_eq in E as ->; done. }
      assert (hex4 h1 h2 h3 h4 <> None) as Hh by (intros Hno; by rewrite Hno in H).
      unfold hex4 in Hh.
      assert (forall h, hex_value h <> None -> (h =? 92)%N = false /\ (h =? 34)%N = false) as Hplain.
      { intros h Hne. split; apply not_true_iff_false; intros Ht; apply Hne, Hhex; auto. }
      destruct (Hplain h1) as [E1 E1']; [by destruct (hex_value h1) |].
      destruct (Hplain h2) as [E2 E2']; [by destruct (hex_value h1), (hex_value h2) |].
      destruct (Hplain h3) as [E3 E3']; [by destruct (hex_value h1), (hex_value h2), (hex_value h3) |].
      destruct (Hplain h4) as [E4 E4']; [by destruct (hex_value h1), (hex_value h2), (hex_value h3), (hex_value h4) |].
      cbn [string_end]. rewrite E1, E1', E2, E2', E3, E3', E4, E4'.
      apply (Hstep (hex4 h1 h2 h3 h4)); [cbn in *; lia | done].
    + intros H. apply (Hstep (simple_escape e)); [cbn in *; lia | done].
  - destruct (c <? 32)%N; [done |]. intros H. apply (Hstep (Some c)); [lia | done].
Qed.

(** ** Simulation by induction on the parser *)

Lemma open_container_walk st ch :
  open_container st ch
  = let* t := enter_container (depth st) (budget st, duplicate st) in
    Coded (mkScanner (mkFrame ch (valuePath st).1 0 None (if (ch =? 123)%N then Some ∅ else None)
                        :: stack (valuePath st).2) t.1 t.2).
Proof.
  unfold open_container, enter_container, scan_visit. cbn [fst snd].
  destruct (maxDepth <? depth st + 1); [done |].
  destruct (Codec.visit (budget st) (depth st + 1) []) as [b| |]; [| done..]. cbn [coded_bind].
  destruct st as [[|f r] b0 dup]; [done |]. unfold valuePath. cbn. by destruct (kind f =? 91)%N.
Qed.

Lemma stack_depth st : Z.of_nat (S (length (stack (valuePath st).2))) = depth st + 1.
Proof. unfold depth. destruct (valuePath_frame st) as (_ & _ & ->). lia. Qed.

Definition in_array (p : jstr) (i : nat) (stk : list frame) (t : tally) : scanner :=
  mkScanner (mkFrame 91 p i None None :: stk) t.1 t.2.
Definition in_object (p : jstr) (seen : gset jstr) (stk : list frame) (t : tally) : scanner :=
  mkScanner (mkFrame 123 p 0 None (Some seen) :: stk) t.1 t.2.

Definition value_sim (s : jstr) (d : doc) (rest : jstr) : Prop :=
  follows rest -> forall st, scan_from st s = value_result st d rest.
Definition elements_sim (s : jstr) (ds : list doc) (rest : jstr) : Prop :=
  forall p i stk t, scan_from (in_array p i stk t) s
    = let* t := walk_items walk ds p i (Z.of_nat (S (length stk))) t in scan_from (mkScanner stk t.1 t.2) rest.
Definition members_sim (s : jstr) (ms : list (jstr * doc)) (rest : jstr) : Prop :=
  forall p seen stk t, scan_from (in_object p seen stk t) s
    = let* t := walk_members walk ms p seen (Z.of_nat (S (length stk))) t in scan_from (mkScanner stk t.1 t.2) rest.

Lemma scan_close st c s :
  (c =? 125)%N || (c =? 93)%N = true -> scan_from st (c :: s) = scan_from (close_container st) s.
Proof.
  intros H. rewrite scan_from_cons. apply orb_true_iff in H as [H|H]; apply N.eqb_eq in H as ->; done.
Qed.

Lemma follows_delimiter rest c s : skip_ws rest = c :: s -> delimiter c = true -> follows rest.
Proof. intros H Hc. unfold follows. by rewrite H. Qed.

Lemma scan_array st s ds rest c s' :
  skip_ws s = c :: s' ->
  (c = 93%N /\ ds = [] /\ rest = s') \/ elements_sim (c :: s') ds rest ->
  scan_from st (91%N :: s) = value_result st (DArray ds) rest.
Proof.
  intros Hs Hcase. rewrite scan_from_cons. cbn [scan_step whitespace N.eqb Pos.eqb orb].
  rewrite open_container_walk. unfold value_result. cbn [walk].
  destruct (enter_container (depth st) (budget st, duplicate st)) as [t| |]; [| done..].
  cbn [coded_bind N.eqb Pos.eqb]. rewrite <- scan_from_ws, Hs. destruct Hcase as [(-> & -> & ->)|Hsim].
  - rewrite scan_close by done. done.
  - pose proof (Hsim (valuePath st).1 0%nat (stack (valuePath st).2) t) as H. unfold in_array in H.
    rewrite H, stack_depth. done.
Qed.

Lemma scan_object st s ms rest c s' :
  skip_ws s = c :: s' ->
  (c = 125%N /\ ms = [] /\ rest = s') \/ members_sim (c :: s') ms rest ->
  scan_from st (123%N :: s) = value_result st (DObject ms) rest.
Proof.
  intros Hs Hcase. rewrite scan_from_cons. cbn [scan_step whitespace N.eqb Pos.eqb orb].
  rewrite open_container_walk. unfold value_result. cbn [walk].
  destruct (enter_container (depth st) (budget st, duplicate st)) as [t| |]; [| done..].
  cbn [coded_bind N.eqb Pos.eqb]. rewrite <- scan_from_ws, Hs. destruct Hcase as [(-> & -> & ->)|Hsim].
  - rewrite scan_close by done. done.
  - pose proof (Hsim (valuePath st).1 ∅ (stack (valuePath st).2) t) as H. unfold in_object in H.
    rewrite H, stack_depth. done.
Qed.

Lemma scan_string st s k rest :
  string_body s = Some (k, rest) -> follows rest -> scan_from st (34%N :: s) = value_result st (DString k) rest.
Proof.
  intros Hb Hrest. rewrite scan_from_cons. cbn [scan_step whitespace N.eqb Pos.eqb orb].
  rewrite (string_end_body _ _ _ _ (le_n _) Hb).
  assert (string_token st (34%N :: s) rest = value_token st) as ->.
  { unfold string_token. rewrite (follows_not_colon rest Hrest). repeat case_goal; done. }
  rewrite value_token_walk. unfold value_result. cbn [walk fst snd]. by destruct (Codec.visit _ _ _).
Qed.

Lemma scan_member p seen stk t s k s' :
  parse_name s = Some (k, s') ->
  scan_from (in_object p seen stk t) s
  = scan_from (mkScanner (mkFrame 123 p 0 (Some k) (Some ({[k]} ∪ seen)) :: stk) t.1 (note_member p k seen t.2)) s'.
Proof.
  intros (u & s2 & s3 & -> & Hs2 & -> & Hb & Hk)%parse_name_spec. rewrite scan_from_cons.
  cbn [scan_step whitespace N.eqb Pos.eqb orb]. rewrite (string_end_body _ _ _ _ (le_n _) Hb).
  unfold string_token. cbn [in_object stack keys]. unfold colon_next. rewrite Hs2. cbn [N.eqb Pos.eqb].
  rewrite (take_prefix (34%N :: u) s2 : take (length (34%N :: u ++ s2) - length s2) (34%N :: u ++ s2) = _).
  unfold member_name. rewrite Hk. cbn [coded_bind kind path index budget duplicate].
  rewrite <- (scan_from_ws _ s2), Hs2, scan_from_skip by done. rewrite scan_from_ws. done.
Qed.

Lemma scan_parsed f :
  (forall s d rest, parse_value f s = Some (d, rest) -> value_sim s d rest)
  /\ (forall s ds rest, parse_elements f s = Some (ds, rest) -> elements_sim s ds rest)
  /\ (forall s ms rest, parse_members f s = Some (ms, rest) -> members_sim s ms rest).
Proof.
  induction f as [|f (IHv & IHe & IHm)]; [done |]. split_and!.
  - intros [|c s] d rest; cbn [parse_value]; [done |]. intros H Hrest st.
    destruct (N.eqb_spec c 34) as [->|_].
    { destruct (string_body s) as [[u r]|] eqn:Hb; [| done]. injection H as <- <-. by apply scan_string. }
    destruct (N.eqb_spec c 91) as [->|_].
    { destruct (skip_ws s) as [|e s'] eqn:Hs; [done |]. destruct (N.eqb_spec e 93) as [->|_].
      - injection H as <- <-. eapply scan_array; [done | by left].
      - destruct (parse_elements f (e :: s')) as [[ds r]|] eqn:Hp; [| done]. injection H as <- <-.
        eapply scan_array; [done |]. right. by apply IHe. }
    destruct (N.eqb_spec c 123) as [->|_].
    { destruct (skip_ws s) as [|e s'] eqn:Hs; [done |]. destruct (N.eqb_spec e 125) as [->|_].
      - injection H as <- <-. eapply scan_object; [done | by left].
      - destruct (parse_members f (e :: s')) as [[ms r]|] eqn:Hp; [| done]. injection H as <- <-.
        eapply scan_object; [done |]. right. by apply IHm. }
    assert ((exists text, literal text d (c :: s) = Some (d, rest) /\ d <> DArray [] /\ text <> []
              /\ forallb primitive_unit text = true
              /\ (forall p dep tl, walk d p dep tl = let* b := Codec.visit tl.1 dep [] in Coded (b, tl.2)))
            \/ exists t, number_prefix (c :: s) = Some (t, rest) /\ d = DNumber t) as Hleaf.
    { repeat case_hyp H; try done;
        try (left; pose proof H as Hl; apply literal_spec in Hl as [_ Hl]; cbn [fst] in Hl; subst d;
          eexists; by split_and!).
      injection H as <- <-. right. eauto. }
    destruct Hleaf as [(text & Hl & _ & Hne & Ht & Hd)|(t & Ht & ->)].
    + apply literal_spec in Hl as [-> _]. cbn [snd]. destruct text as [|c' text]; [done |].
      by apply scan_primitive.
    + pose proof (number_prefix_nonempty _ _ _ Ht) as Hne. apply number_prefix_reads in Ht as [Hs Ht].
      rewrite Hs in Hne |- *. destruct t as [|c' t]; [cbn in Hne; lia |].
      apply scan_primitive; [| done | done]. clear -Ht. revert Ht. generalize (c' :: t) as u.
      induction u as [|x u IH]; [done |]. cbn [forallb]. intros [Hx Hu]%andb_true_iff.
      by rewrite (number_unit_primitive x Hx), (IH Hu).
  - intros s ds rest. cbn [parse_elements]. unfold push_item. intros H p i stk t.
    destruct (parse_value f s) as [[d r]|] eqn:Hv; [| done]. apply IHv in Hv.
    destruct (skip_ws r) as [|e r'] eqn:Hr; [done |].
    assert (delimiter e = true) as He.
    { unfold delimiter. destruct (e =? 44)%N; [done |]. by destruct (e =? 93)%N. }
    rewrite (Hv (follows_delimiter _ _ _ Hr He)). unfold value_result, depth.
    change (stack (in_array p i stk t)) with (mkFrame 91 p i None None :: stk). cbn [length].
    change (valuePath (in_array p i stk t)).1 with (indexPath p i).
    change (budget (in_array p i stk t), duplicate (in_array p i stk t)) with (t.1, t.2).
    rewrite <- surjective_pairing.
    assert (forall t', after_value (in_array p i stk t) t' = in_array p (S i) stk t') as Hafter by done.
    destruct (N.eqb_spec e 44) as [->|_]; [| destruct (N.eqb_spec e 93) as [->|_]; [| done]].
    + destruct (parse_elements f (skip_ws r')) as [[ds' r'']|] eqn:Hp; [| done]. injection H as <- <-.
      cbn [walk_items]. destruct (walk d _ _ _) as [t'| |]; [| done..]. cbn [coded_bind].
      rewrite Hafter, <- scan_from_ws, Hr, scan_from_skip, <- scan_from_ws by done.
      by apply IHe.
    + injection H as <- <-. cbn [walk_items]. destruct (walk d _ _ _) as [t'| |]; [| done..].
      cbn [coded_bind]. rewrite Hafter, <- scan_from_ws, Hr, scan_close by done. done.
  - intros s ms rest. cbn [parse_members]. unfold push_member. intros H p seen stk t.
    destruct (parse_name s) as [[k s']|] eqn:Hn; [| done]. rewrite (scan_member _ _ _ _ _ _ _ Hn).
    destruct (parse_value f s') as [[d r]|] eqn:Hv; [| done]. apply IHv in Hv.
    destruct (skip_ws r) as [|e r'] eqn:Hr; [done |].
    assert (delimiter e = true) as He.
    { unfold delimiter. destruct (e =? 44)%N; [done |]. destruct (e =? 125)%N; [by rewrite orb_true_r | done]. }
    rewrite (Hv (follows_delimiter _ _ _ Hr He)). unfold value_result, depth. cbn [stack length].
    set (st := mkScanner _ _ _). change (valuePath st).1 with (childPath p k).
    change (budget st, duplicate st) with (t.1, note_member p k seen t.2).
    assert (forall t', after_value st t' = in_object p ({[k]} ∪ seen) stk t') as Hafter by done.
    destruct (N.eqb_spec e 44) as [->|_]; [| destruct (N.eqb_spec e 125) as [->|_]; [| done]].
    + destruct (parse_members f (skip_ws r')) as [[ms' r'']|] eqn:Hp; [| done]. injection H as <- <-.
      cbn [walk_members fst snd]. destruct (walk d _ _ _) as [t'| |]; [| done..]. cbn [coded_bind].
      rewrite Hafter, <- scan_from_ws, Hr, scan_from_skip, <- scan_from_ws by done.
      by apply IHm.
    + injection H as <- <-. cbn [walk_members fst snd]. destruct (walk d _ _ _) as [t'| |]; [| done..].
      cbn [coded_bind]. rewrite Hafter, <- scan_from_ws, Hr, scan_close by done. done.
Qed.

Lemma scanJSON_walk text d :
  JSON_parse text = Some d ->
  scanJSON text = let* t := walk d [] 0 (standalone_budget, None) in Coded t.2.
Proof.
  unfold JSON_parse. destruct (parse_value _ (skip_ws text)) as [[d' rest]|] eqn:Hp; [| done].
  case_bool_decide as Hrest; [| done]. intros [= ->]. unfold scanJSON.
  change (scan_loop (length text)) with (scan_loop (length text)).
  pose proof (proj1 (scan_parsed _) _ _ _ Hp) as Hsim.
  change (scan_loop (length text) ?st text) with (scan_from st text).
  rewrite <- scan_from_ws, Hsim by (unfold follows; by rewrite Hrest). unfold value_result. cbn [stack].
  change (depth _) with 0. change (valuePath _).1 with (@nil N). cbn [budget duplicate].
  destruct (walk d [] 0 (standalone_budget, None)) as [t| |]; [| done..]. cbn [coded_bind].
  rewrite <- scan_from_ws, Hrest. done.
Qed.

(** ** What the walk finds *)

Fixpoint doc_nodes (d : doc) : Z :=
  match d with
  | DArray items => 1 + foldr (fun d n => doc_nodes d + n) 0 items
  | DObject members => 1 + foldr (fun m n => doc_nodes m.2 + n) 0 members
  | _ => 1
  end.

(** How deep the containers nest. *)
Fixpoint doc_depth (d : doc) : Z :=
  match d with
  | DArray items => 1 + foldr (fun d n => Z.max (doc_depth d) n) 0 items
  | DObject members => 1 + foldr (fun m n => Z.max (doc_depth m.2) n) 0 members
  | _ => 0
  end.

Definition or_else {A} (a b : option A) : option A := match a with Some x => Some x | None => b end.

Section first_in_lists.
Context (first : doc -> jstr -> option jstr).

Fixpoint first_in_items (items : list doc) (p : jstr) (i : nat) : option jstr :=
  match items with
  | [] => None
  | d :: items => or_else (first d (indexPath p i)) (first_in_items items p (S i))
  end.

Fixpoint first_in_members (members : list (jstr * doc)) (p : jstr) (seen : gset jstr) : option jstr :=
  match members with
  | [] => None
  | m :: members =>
      if bool_decide (m.1 ∈ seen) then Some (childPath p m.1)
      else or_else (first m.2 (childPath p m.1)) (first_in_members members p ({[ m.1 ]} ∪ seen))
  end.
End first_in_lists.

(** The path of the first repeated member, in the order of the text. *)
Fixpoint first_repeated (d : doc) (p : jstr) : option jstr :=
  match d with
  | DArray items => first_in_items first_repeated items p 0
  | DObject members => first_in_members first_repeated members p ∅
  | _ => None
  end.

(** No object of the document has two members of one name. *)
Fixpoint distinct_members (d : doc) : Prop :=
  match d with
  | DArray items => foldr (fun d q => distinct_members d /\ q) True items
  | DObject members => NoDup members.*1 /\ foldr (fun m q => distinct_members m.2 /\ q) True members
  | _ => True
  end.

(** The document is within the fixed limits. *)
Definition fits (d : doc) : Prop := doc_depth d <= maxDepth /\ doc_nodes d <= maxNodes.

Lemma doc_depth_nonneg d : 0 <= doc_depth d.
Proof.
  destruct d as [| | | |items|ms]; cbn; try lia.
  - induction items; cbn; lia.
  - induction ms; cbn; lia.
Qed.

Lemma doc_nodes_pos d : 1 <= doc_nodes d.
Proof.
  induction d as [| | | |items IH|ms IH] using doc_induction; cbn; try lia.
  - induction IH as [|? ? ? ? IH']; cbn; lia.
  - induction IH as [|? ? ? ? IH']; cbn; lia.
Qed.

(** A walk of [n] values nesting [k] deep that finds [found]. *)
Definition walked (r : coded tally) (dep k n : Z) (found : option jstr) (t : tally) : Prop :=
  match r with
  | Coded t' =>
      dep + k <= maxDepth /\ nodes t.1 + n <= maxNodes
      /\ t' = (mkBudget (bytes t.1) (remaining t.1) (nodes t.1 + n), or_else t.2 found)
  | reject q reason =>
      q = [] /\ ((reason = depth_limit /\ maxDepth < dep + k) \/ (reason = node_limit /\ maxNodes < nodes t.1 + n))
  | Fault _ => False
  end.

(** Two walks in sequence. *)
Lemma walked_bind r f dep k1 n1 k2 n2 found1 found2 t :
  0 <= n2 -> walked r dep k1 n1 found1 t ->
  (forall t', dep + k1 <= maxDepth -> nodes t'.1 <= maxNodes -> walked (f t') dep k2 n2 found2 t') ->
  walked (coded_bind r f) dep (Z.max k1 k2) (n1 + n2) (or_else found1 found2) t.
Proof.
  intros Hn H1 H2. destruct r as [t'|q reason|]; [| | done].
  - cbn [coded_bind]. destruct H1 as (Hk & Hm & ->). specialize (H2 (mkBudget (bytes t.1) (remaining t.1) (nodes t.1 + n1), or_else t.2 found1) Hk Hm).
    unfold walked in *. cbn [fst snd bytes remaining nodes] in *. destruct (f _) as [t''|q reason|]; [| | done].
    + destruct H2 as (Hk2 & Hm2 & ->). split_and!; [lia.. |]. f_equal; [f_equal; lia |]. by destruct t.2, found1.
    + destruct H2 as [-> [[-> ?]|[-> ?]]]; (split; [done |]); [left | right]; (split; [done | lia]).
  - cbn in *. destruct H1 as [-> [[-> ?]|[-> ?]]]; (split; [done |]); [left | right]; (split; [done | lia]).
Qed.

Lemma visit_walked t dep :
  dep <= maxDepth ->
  walked (let* b := Codec.visit t.1 dep [] in Coded (b, t.2)) dep 0 1 None t.
Proof.
  intros Hdep. unfold Codec.visit. destruct (Z.ltb_spec maxDepth dep); [lia |].
  destruct (Z.ltb_spec maxNodes (nodes t.1 + 1)); cbn.
  - split; [done |]. right. done.
  - split_and!; [lia.. |]. f_equal. by destruct t.2.
Qed.

Lemma enter_walked t dep :
  dep <= maxDepth -> walked (enter_container dep t) dep 1 1 None t.
Proof.
  intros Hdep. unfold enter_container, Codec.visit. destruct (Z.ltb_spec maxDepth (dep + 1)); cbn.
  { split; [done |]. by left. }
  destruct (Z.ltb_spec maxNodes (nodes t.1 + 1)); cbn.
  - split; [done |]. by right.
  - split_and!; [lia.. |]. f_equal. by destruct t.2.
Qed.

Lemma or_else_assoc {A} (a b c : option A) : or_else a (or_else b c) = or_else (or_else a b) c.
Proof. by destruct a. Qed.

(** One level further in. *)
Lemma walked_deeper r dep k n found t : walked r (dep + 1) k n found t -> walked r dep (1 + k) n found t.
Proof. unfold walked. destruct r as [t'|q reason|]; [| | done]; naive_solver lia. Qed.

Definition walks (d : doc) : Prop :=
  forall p dep t, dep <= maxDepth -> nodes t.1 <= maxNodes ->
  walked (walk d p dep t) dep (doc_depth d) (doc_nodes d) (first_repeated d p) t.

Lemma walked_done t dep : dep <= maxDepth -> nodes t.1 <= maxNodes -> walked (Coded t) dep 0 0 None t.
Proof.
  intros Hdep Hn. split_and!; [lia.. |]. destruct t as [[b r n] dup]. cbn. rewrite Z.add_0_r. by destruct dup.
Qed.

Lemma walked_noted r dep k n found b dup x :
  walked r dep k n found (b, or_else dup x) -> walked r dep k n (or_else x found) (b, dup).
Proof. unfold walked. cbn [fst snd]. by rewrite or_else_assoc. Qed.

Lemma sum_nodes_nonneg (items : list doc) : 0 <= foldr (fun d n => doc_nodes d + n) 0 items.
Proof. induction items as [|d items IH]; cbn; [lia |]. pose proof (doc_nodes_pos d). lia. Qed.

Lemma sum_member_nodes_nonneg (ms : list (jstr * doc)) : 0 <= foldr (fun m n => doc_nodes m.2 + n) 0 ms.
Proof. induction ms as [|m ms IH]; cbn; [lia |]. pose proof (doc_nodes_pos m.2). lia. Qed.

Lemma walk_items_spec items :
  Forall walks items -> forall p i dep t, dep <= maxDepth -> nodes t.1 <= maxNodes ->
  walked (walk_items walk items p i dep t) dep (foldr (fun d n => Z.max (doc_depth d) n) 0 items)
    (foldr (fun d n => doc_nodes d + n) 0 items) (first_in_items first_repeated items p i) t.
Proof.
  induction 1 as [|d items Hd _ IH]; intros p i dep t Hdep Hn; cbn [walk_items foldr first_in_items].
  - by apply walked_done.
  - apply walked_bind; [apply sum_nodes_nonneg | by apply Hd | intros t' _ Hn'; by apply IH].
Qed.

Lemma walk_members_spec members :
  Forall (fun m => walks m.2) members -> forall p seen dep t, dep <= maxDepth -> nodes t.1 <= maxNodes ->
  walked (walk_members walk members p seen dep t) dep (foldr (fun m n => Z.max (doc_depth m.2) n) 0 members)
    (foldr (fun m n => doc_nodes m.2 + n) 0 members) (first_in_members first_repeated members p seen) t.
Proof.
  induction 1 as [|m members Hd _ IH]; intros p seen dep t Hdep Hn; cbn [walk_members foldr first_in_members].
  - by apply walked_done.
  - set (x := if bool_decide (m.1 ∈ seen) then Some (childPath p m.1) else None).
    assert (note_member p m.1 seen t.2 = or_else t.2 x) as -> by by destruct t.2.
    assert ((if bool_decide (m.1 ∈ seen) then Some (childPath p m.1)
      else or_else (first_repeated m.2 (childPath p m.1)) (first_in_members first_repeated members p ({[m.1]} ∪ seen)))
      = or_else (or_else x (first_repeated m.2 (childPath p m.1)))
          (first_in_members first_repeated members p ({[m.1]} ∪ seen))) as ->.
    { unfold x. by case_bool_decide. }
    apply walked_bind; [apply sum_member_nodes_nonneg | | intros t' _ Hn'; by apply IH].
    destruct t as [b dup]. apply walked_noted. by apply Hd.
Qed.

Lemma max_depth_nonneg {A} (f : A -> Z) (l : list A) : 0 <= foldr (fun a n => Z.max (f a) n) 0 l.
Proof. induction l; cbn; lia. Qed.

Lemma walked_container r f dep k n found t :
  0 <= k -> 0 <= n -> dep <= maxDepth -> nodes t.1 <= maxNodes -> r = enter_container dep t ->
  (forall t', dep + 1 <= maxDepth -> nodes t'.1 <= maxNodes -> walked (f t') (dep + 1) k n found t') ->
  walked (coded_bind r f) dep (1 + k) (1 + n) found t.
Proof.
  intros Hk Hn Hdep Ht -> Hf. rewrite <- (Z.max_r 1 (1 + k)) by lia.
  apply (walked_bind _ _ _ _ _ _ _ None); [done | by apply enter_walked |].
  intros t' Hd Hn'. apply walked_deeper. by apply Hf.
Qed.

Lemma walk_spec d : walks d.
Proof.
  induction d as [|b|s|s|items IH|members IH] using doc_induction; intros p dep t Hdep Hn;
    try (apply visit_walked; done); cbn [walk doc_depth doc_nodes first_repeated];
    (eapply walked_container; [apply max_depth_nonneg | | done | done | done |]).
  - apply sum_nodes_nonneg.
  - intros t' Hd Hn'. by apply walk_items_spec.
  - apply sum_member_nodes_nonneg.
  - intros t' Hd Hn'. by apply walk_members_spec.
Qed.

Lemma or_else_none {A} (a b : option A) : or_else a b = None <-> a = None /\ b = None.
Proof. destruct a; naive_solver. Qed.

Lemma first_repeated_none d : forall p, first_repeated d p = None <-> distinct_members d.
Proof.
  induction d as [|b|s|s|items IH|members IH] using doc_induction; intros p; try done.
  - cbn. generalize 0%nat as i. induction IH as [|d items Hd _ IH]; intros i; cbn; [done |].
    rewrite or_else_none, Hd, IH. done.
  - cbn. assert (forall seen, first_in_members first_repeated members p seen = None
      <-> (NoDup members.*1 /\ forall k, k ∈ members.*1 -> k ∉ seen)
          /\ foldr (fun m q => distinct_members m.2 /\ q) True members) as H.
    { induction IH as [|m members Hd _ IH]; intros seen; cbn [first_in_members foldr].
      - split; [| done]. intros _. split; [split; [constructor | by intros k Hk%elem_of_nil] | done].
      - rewrite fmap_cons, NoDup_cons. case_bool_decide as Hin.
        + split; [done |]. intros [[_ Hk] _]. destruct (Hk m.1); [by left | done].
        + rewrite or_else_none, Hd, IH. setoid_rewrite elem_of_cons. set_solver. }
    rewrite H. set_solver.
Qed.

Lemma scan_fits text d : JSON_parse text = Some d -> fits d -> scanJSON text = Coded (first_repeated d []).
Proof.
  intros Hp Hf. rewrite (scanJSON_walk _ _ Hp).
  pose proof (walk_spec d [] 0 (standalone_budget, None) ltac:(done) ltac:(done)) as Hw. unfold fits, walked in *.
  destruct (walk d [] 0 _) as [t|q r|]; cbn [coded_bind fst snd nodes standalone_budget or_else] in *; [| | done].
  - destruct Hw as (_ & _ & ->). done.
  - destruct Hw as [_ [[-> ?]|[-> ?]]]; lia.
Qed.

(** A document beyond a limit is refused for that limit. *)
Lemma scan_unfit text d : JSON_parse text = Some d -> ~ fits d -> exists r, scanJSON text = reject [] r
  /\ ((r = depth_limit /\ maxDepth < doc_depth d) \/ (r = node_limit /\ maxNodes < doc_nodes d)).
Proof.
  intros Hp. rewrite (scanJSON_walk _ _ Hp).
  pose proof (walk_spec d [] 0 (standalone_budget, None) ltac:(done) ltac:(done)) as Hw. unfold fits, walked in *.
  destruct (walk d [] 0 _) as [t|q r|]; cbn [coded_bind fst snd nodes standalone_budget or_else] in *; [| | done].
  - intros Hnf. destruct Hw as (? & ? & _). destruct Hnf. lia.
  - intros _. destruct Hw as [-> Hr]. exists r. split; [done |]. destruct Hr as [[-> ?]|[-> ?]]; [left | right]; split; (done || lia).
Qed.

(** ** Properties *)

(** C25. On every text the native parser reads, the scanner, which neither parses
    nor recurses, gives the answer of the document: within the limits of depth
    and values it is the path of the first repeated member in the order of the
    text, compared after unescaping, and none exactly when the members of every
    object are distinct; beyond a limit the text is refused for that limit. *)
Theorem scan_is_document_walk text d :
  JSON_parse text = Some d ->
  (fits d -> scanJSON text = Coded (first_repeated d []))
  /\ (first_repeated d [] = None <-> distinct_members d)
  /\ (~ fits d -> exists r, scanJSON text = reject [] r
        /\ ((r = depth_limit /\ maxDepth < doc_depth d) \/ (r = node_limit /\ maxNodes < doc_nodes d))).
Proof.
  intros Hp. split_and!; [by apply scan_fits | apply first_repeated_none | by apply scan_unfit].
Qed.

Lemma scan_is_document_walk_witness :
  scanJSON (dq "[1,{'a':[],'\u0061':{}}]") = Coded (Some (js "/1/a")).
Proof.
  pose (d := DArray [DNumber (js "1"); DObject [(js "a", DArray []); (js "a", DObject [])]]).
  assert (JSON_parse (dq "[1,{'a':[],'\u0061':{}}]") = Some d) as Hp by (vm_compute; reflexivity).
  assert (fits d) as Hfits by (split; vm_compute; discriminate).
  assert (first_repeated d [] = Some (js "/1/a")) as <- by (vm_compute; reflexivity).
  exact (proj1 (scan_is_document_walk _ d Hp) Hfits).
Defined.
