(* ===== verification/Jsonl.v ===== *)
(** * Line framing

    [createJsonlFramer] of [src/runtime/codec/jsonl.ts]: the complete lines of a
    byte stream, whatever its chunks, with the incomplete suffix retained under
    a cap.  Bytes are their values. *)
From stdpp Require Import base list strings.
From Stdlib Require Import ZArith Lia.
From S2P Require Import Prelude JsNumber JsString Codec.

Record framer : Type := mkFramer { limit : Z; suffix : list N; yielded : nat }.

Definition createJsonlFramer (bytes : Z) : framer := mkFramer bytes [] 0.

(** [take]: the line without its trailing carriage return. *)
Definition take_line (line : list N) : list N :=
  match last line with
  | Some 13%N => removelast line
  | _ => line
  end.

Definition non_blank (line : list N) : bool := negb (bool_decide (line = [])).

(** The loop of [push] over the data from index [i], with [line] for
    [data.slice(start, i)]: the non-blank lines and the rest after the last
    newline. *)
Fixpoint frame_lines (data line : list N) : list (list N) * list N :=
  match data with
  | [] => ([], line)
  | c :: data =>
      if (c =? 10)%N then
        let '(lines, rest) := frame_lines data [] in
        let line' := take_line line in
        ((if non_blank line' then [line'] else []) ++ lines, rest)
      else frame_lines data (line ++ [c])
  end.

Definition push (f : framer) (chunk : list N) : coded (list (list N)) * framer :=
  let '(lines, rest) := frame_lines (suffix f ++ chunk) [] in
  let f' := mkFramer (limit f) rest (yielded f + length lines) in
  (if limit f <? len rest then reject (indexPath [] (yielded f')) byte_limit else Coded lines, f').

Definition finish (f : framer) : option (list N) * framer :=
  if bool_decide (suffix f = []) then (None, f)
  else
    let line := take_line (suffix f) in
    (if non_blank line then Some line else None, mkFramer (limit f) [] (yielded f)).

(** A reader's chunks through one framer, up to the first refusal, then the
    final line. *)
Fixpoint push_all (f : framer) (chunks : list (list N)) : coded (list (list N) * framer) :=
  match chunks with
  | [] => Coded ([], f)
  | chunk :: chunks =>
      let '(r, f') := push f chunk in
      let* lines := r in
      let* (more, f'') := push_all f' chunks in
      Coded (lines ++ more, f'')
  end.

Definition frame_stream (bytes : Z) (chunks : list (list N)) : coded (list (list N)) :=
  let* (lines, f) := push_all (createJsonlFramer bytes) chunks in
  Coded (lines ++ match (finish f).1 with Some line => [line] | None => [] end).

(** ** Facts *)

(** The lines of the whole stream. *)
Definition stream_lines (data : list N) : list (list N) :=
  filter (fun l => non_blank l = true) (take_line <$> split_char 10 data).

(** What follows the last newline, and the non-blank lines before it. *)
Definition incomplete (data : list N) : list N := default [] (last (split_char 10 data)).
Definition complete_lines (data : list N) : list (list N) :=
  filter (fun l => non_blank l = true) (take_line <$> removelast (split_char 10 data)).

Lemma split_char_snoc c s t :
  split_char c (s ++ t) = removelast (split_char c s) ++
    match split_char c t with
    | p :: ps => (default [] (last (split_char c s)) ++ p) :: ps
    | [] => []
    end.
Proof.
  induction s as [|d s IH]; cbn [app split_char].
  { cbn. pose proof (split_char_nonempty c t). by destruct (split_char c t). }
  pose proof (split_char_nonempty c s) as Hs. destruct (N.eqb_spec d c).
  - rewrite IH. destruct (split_char c s) as [|p ps]; [done |]. done.
  - rewrite IH. destruct (split_char c s) as [|p [|p' ps]]; [done | |].
    + cbn. pose proof (split_char_nonempty c t). by destruct (split_char c t).
    + done.
Qed.

Lemma newline_pieces c s : Forall (fun p => c ∉ p) (split_char c s).
Proof.
  induction s as [|d s IH]; cbn; [repeat constructor; by intros ?%elem_of_nil |].
  destruct (N.eqb_spec d c) as [|Hne]; [constructor; [by intros ?%elem_of_nil | done] |].
  destruct (split_char c s) as [|p ps]; [repeat constructor |]; inversion IH; subst.
  - rewrite not_elem_of_cons. split; [done | by intros ?%elem_of_nil].
  - constructor; [| done]. rewrite not_elem_of_cons. done.
Qed.

Lemma incomplete_clean data : 10%N ∉ incomplete data.
Proof.
  unfold incomplete. destruct (last (split_char 10 data)) as [p|] eqn:Hl; [| by intros ?%elem_of_nil].
  apply last_Some in Hl as [l Hl]. pose proof (newline_pieces 10 data) as H. rewrite Hl in H.
  by apply Forall_app in H as [_ [H _]%Forall_cons].
Qed.

(** Cutting the stream anywhere leaves the incomplete part in front. *)
Lemma split_char_cut s t :
  split_char 10 (s ++ t) = removelast (split_char 10 s) ++ split_char 10 (incomplete s ++ t).
Proof.
  rewrite split_char_snoc, (split_char_snoc 10 (incomplete s) t).
  rewrite (split_char_none 10 (incomplete s)) by apply incomplete_clean. done.
Qed.

Lemma split_char_last data : split_char 10 data = removelast (split_char 10 data) ++ [incomplete data].
Proof.
  rewrite (app_removelast_last [] (split_char_nonempty 10 data)) at 1. f_equal. unfold incomplete.
  rewrite (app_removelast_last [] (split_char_nonempty 10 data)) at 2. by rewrite last_snoc.
Qed.

Lemma complete_lines_cut s t :
  complete_lines (s ++ t) = complete_lines s ++ complete_lines (incomplete s ++ t).
Proof.
  unfold complete_lines. rewrite split_char_cut, removelast_app by apply split_char_nonempty.
  by rewrite fmap_app, filter_app.
Qed.

Lemma incomplete_cut s t : incomplete (s ++ t) = incomplete (incomplete s ++ t).
Proof.
  unfold incomplete at 1 2. rewrite split_char_cut. rewrite (split_char_last (incomplete s ++ t)), app_assoc.
  by rewrite !last_snoc.
Qed.

Lemma incomplete_length data : (length (incomplete data) <= length data)%nat.
Proof.
  induction data as [|c data IH]; [done |]. unfold incomplete in *. cbn [split_char].
  pose proof (split_char_nonempty 10 data) as Hne.
  destruct (c =? 10)%N, (split_char 10 data) as [|p [|q l]]; cbn in *; try done; lia.
Qed.

Lemma complete_lines_incomplete data : complete_lines (incomplete data) = [].
Proof. unfold complete_lines. by rewrite split_char_none by apply incomplete_clean. Qed.

Lemma stream_lines_eq data :
  stream_lines data = complete_lines data
    ++ (if non_blank (take_line (incomplete data)) then [take_line (incomplete data)] else []).
Proof.
  unfold stream_lines, complete_lines. rewrite split_char_last at 1. rewrite fmap_app, filter_app. f_equal.
  cbn. unfold filter. cbn. case_decide as H; [by rewrite H |]. by destruct (non_blank _).
Qed.

Lemma frame_lines_spec data line :
  10%N ∉ line -> frame_lines data line = (complete_lines (line ++ data), incomplete (line ++ data)).
Proof.
  revert line. induction data as [|c data IH]; intros line Hline; cbn [frame_lines].
  - rewrite app_nil_r. unfold complete_lines, incomplete. by rewrite split_char_none.
  - destruct (N.eqb_spec c 10) as [->|Hc].
    + rewrite IH by by intros ?%elem_of_nil. cbn [app]. unfold complete_lines, incomplete.
      rewrite split_char_app by done. pose proof (split_char_nonempty 10 data) as Hne.
      f_equal; destruct (split_char 10 data) as [|p ps]; [done | | done | done].
      cbn [removelast]. rewrite fmap_cons. unfold filter at 2. cbn [list_filter].
      case_decide as Hb; [by rewrite Hb |]. by destruct (non_blank _).
    + rewrite IH; [by rewrite <- app_assoc |].
      rewrite elem_of_app, list_elem_of_singleton. naive_solver.
Qed.

(** The framer after the bytes [seen]. *)
Definition framed (bytes : Z) (seen : list N) : framer :=
  mkFramer bytes (incomplete seen) (length (complete_lines seen)).

Lemma push_spec bytes seen chunk :
  push (framed bytes seen) chunk
  = (if bytes <? len (incomplete (seen ++ chunk))
     then reject (indexPath [] (length (complete_lines (seen ++ chunk)))) byte_limit
     else Coded (complete_lines (incomplete seen ++ chunk)), framed bytes (seen ++ chunk)).
Proof.
  unfold push, framed. cbn [limit suffix yielded].
  rewrite frame_lines_spec by by intros ?%elem_of_nil. cbn [app].
  rewrite <- (incomplete_cut seen chunk), (complete_lines_cut seen chunk), length_app. done.
Qed.

(** The stream is too long at the prefix [seen]. *)
Definition overruns (bytes : Z) (seen : list N) : Prop := bytes < len (incomplete seen).

Lemma push_all_spec bytes chunks : forall seen,
  match push_all (framed bytes seen) chunks with
  | Coded (lines, f) =>
      complete_lines seen ++ lines = complete_lines (seen ++ concat chunks)
      /\ f = framed bytes (seen ++ concat chunks)
      /\ forall n, (0 < n <= length chunks)%nat -> ~ overruns bytes (seen ++ concat (take n chunks))
  | reject q r =>
      r = byte_limit /\ exists n, (0 < n <= length chunks)%nat /\ overruns bytes (seen ++ concat (take n chunks))
        /\ q = indexPath [] (length (complete_lines (seen ++ concat (take n chunks))))
        /\ forall m, (0 < m < n)%nat -> ~ overruns bytes (seen ++ concat (take m chunks))
  | Fault _ => False
  end.
Proof.
  induction chunks as [|chunk chunks IH]; intros seen; cbn [push_all].
  { cbn. rewrite !app_nil_r. split_and!; [done.. |]. cbn. lia. }
  rewrite push_spec. destruct (Z.ltb_spec bytes (len (incomplete (seen ++ chunk)))) as [Hover|Hfits]; cbn [coded_bind].
  - split; [done |]. exists 1%nat. cbn. rewrite app_nil_r. split_and!; [lia.. | done | done | lia].
  - specialize (IH (seen ++ chunk)). cbn [concat]. rewrite app_assoc.
    assert (forall n, (seen ++ chunk) ++ concat (take n chunks) = seen ++ concat (take (S n) (chunk :: chunks))) as Hn.
    { intros n. cbn. by rewrite <- app_assoc. }
    destruct (push_all (framed bytes (seen ++ chunk)) chunks) as [[lines f]|q r|]; cbn [coded_bind]; [| | done].
    + destruct IH as (Hl & -> & Hno). split_and!; [| done |].
      * rewrite <- Hl, (complete_lines_cut seen chunk). by rewrite <- app_assoc.
      * intros [|[|n]] Hlen; [lia | cbn; rewrite app_nil_r; unfold overruns; lia |].
        rewrite <- Hn. apply Hno. cbn [length] in Hlen. lia.
    + destruct IH as (-> & n & Hlen & Hov & -> & Hno). split; [done |]. exists (S n).
      rewrite <- Hn. cbn [length]. split_and!; [lia.. | done | done |].
      intros [|[|m]] Hm; [lia | cbn; rewrite app_nil_r; unfold overruns; lia |].
      rewrite <- Hn. apply Hno. lia.
Qed.

(** ** Properties *)

(** The lines a framer yields are those of the whole stream, however it is cut
    into chunks: the pieces between newlines without their trailing carriage
    return, blank ones dropped, the last one whether or not a newline ends it.
    The stream is refused exactly when after some chunk the part behind the last
    newline exceeds the cap, with the index of the record it belongs to. *)
Theorem framing_is_chunk_independent (bytes : Z) (chunks : list (list N)) :
  match frame_stream bytes chunks with
  | Coded lines =>
      lines = stream_lines (concat chunks)
      /\ forall n, (0 < n <= length chunks)%nat -> ~ overruns bytes (concat (take n chunks))
  | reject q r =>
      r = byte_limit /\ exists n, (0 < n <= length chunks)%nat /\ overruns bytes (concat (take n chunks))
        /\ q = indexPath [] (length (complete_lines (concat (take n chunks))))
        /\ forall m, (0 < m < n)%nat -> ~ overruns bytes (concat (take m chunks))
  | Fault _ => False
  end.
Proof.
  unfold frame_stream. pose proof (push_all_spec bytes chunks []) as H.
  change (createJsonlFramer bytes) with (framed bytes []).
  destruct (push_all (framed bytes []) chunks) as [[lines f]|q r|]; cbn [coded_bind]; [| done..].
  destruct H as (Hl & -> & Hno). split; [| done]. cbn [app] in *. change (complete_lines []) with (@nil (list N)) in Hl.
  cbn [app] in Hl. rewrite Hl, stream_lines_eq. f_equal. unfold finish, framed. cbn [suffix limit].
  case_bool_decide as He; [by rewrite He |]. by destruct (non_blank _).
Qed.

(** A record of exactly the cap whose carriage return and newline arrive in
    different chunks is refused, and accepted when they arrive together. *)
Theorem crlf_across_chunks :
  frame_stream 3 [js "abc" ++ [13; 10]%N] = Coded [js "abc"]
  /\ frame_stream 3 [js "abc" ++ [13]%N; [10%N]] = reject (js "/0") byte_limit.
Proof. split; reflexivity. Qed.
