(* ===== verification/DataFacts.v ===== *)
(** * Ordinary data: reading back what was built

    A heap only grows: what [array] and [record] build reads back as it was
    given, and reads of older objects do not change. *)
From stdpp Require Import base gmap list strings.
From Stdlib Require Import ZArith Lia.
From S2P Require Import Prelude JsNumber JsString Numbers Digits JsValue Data.

(** Before any object is made. *)
Definition empty_heap : heap := mkHeap ∅ ∅ ∅ 0.

(** The next object is new. *)
Definition heap_ok (h : heap) : Prop :=
  forall l, (fresh h <= l)%nat -> objects h !! l = None /\ nominalRecords h !! l = None.

Lemma empty_heap_ok : heap_ok empty_heap.
Proof. intros l _. split; apply lookup_empty. Qed.

Definition extends (h h' : heap) : Prop :=
  objects h ⊆ objects h' /\ nominalRecords h ⊆ nominalRecords h' /\ (fresh h <= fresh h')%nat.

#[global] Instance extends_preorder : PreOrder extends.
Proof.
  split; [intros h; by split_and! |]. intros h1 h2 h3 (H1 & H2 & H3) (H4 & H5 & H6).
  split_and!; [by etrans | by etrans | lia].
Qed.

Lemma alloc_ok h o id : heap_ok h -> heap_ok (alloc h o id).2.
Proof.
  intros H l Hl. cbn in *. destruct (H l ltac:(lia)) as [Ho Hn]. split.
  - rewrite lookup_insert_ne by lia. done.
  - destruct id; [rewrite lookup_insert_ne by lia |]; done.
Qed.

Lemma alloc_extends h o id : heap_ok h -> extends h (alloc h o id).2.
Proof.
  intros H. destruct (H (fresh h) (le_n _)) as [Ho Hn]. split_and!; cbn; [by apply insert_subseteq | | lia].
  destruct id; [by apply insert_subseteq | done].
Qed.

(** ** Reads survive growth *)
Section growth.
Context (h h' : heap) (Hext : extends h h').

Lemma data_object_grows v o : data_object h v = Ret o -> data_object h' v = Ret o.
Proof.
  destruct v as [| | | | | |l]; try done. cbn. destruct (objects h !! l) as [o'|] eqn:Ho; [| done].
  by rewrite (lookup_weaken _ _ _ _ Ho (proj1 Hext)).
Qed.

Lemma dataProperty_grows v k x : dataProperty h v k = Ret x -> dataProperty h' v k = Ret x.
Proof.
  unfold dataProperty. intros (o & Ho & H)%res_bind_ret. by rewrite (data_object_grows _ _ Ho).
Qed.

Lemma dataKeys_grows v ks : dataKeys h v = Ret ks -> dataKeys h' v = Ret ks.
Proof. unfold dataKeys. intros (o & Ho & H)%res_bind_ret. by rewrite (data_object_grows _ _ Ho). Qed.

Lemma map_res_grows {A B} (f g : A -> res B) l l' :
  (forall a b, f a = Ret b -> g a = Ret b) -> map_res f l = Ret l' -> map_res g l = Ret l'.
Proof.
  intros Hfg. revert l'. induction l as [|a l IH]; intros l'; cbn; [done |].
  intros (b & Hb & (bs & Hbs & [= <-])%res_bind_ret)%res_bind_ret. by rewrite (Hfg _ _ Hb), (IH _ Hbs).
Qed.

Lemma dataArray_grows v vs : dataArray h v = Ret vs -> dataArray h' v = Ret vs.
Proof.
  unfold dataArray. intros (o & Ho & H)%res_bind_ret. rewrite (data_object_grows _ _ Ho). cbn [res_bind].
  destruct (negb (is_array o)); [done |]. apply res_bind_ret in H as (len & Hlen & H).
  rewrite (dataProperty_grows _ _ _ Hlen). cbn [res_bind]. destruct (array_length len); [| done].
  destruct (negb _); [done |]. revert H. apply map_res_grows. intros i x. apply dataProperty_grows.
Qed.

Lemma recordIdentity_grows v id : recordIdentity h v = Some id -> recordIdentity h' v = Some id.
Proof.
  destruct v as [| | | | | |l]; try done. cbn. intros H. by eapply lookup_weaken, (proj1 (proj2 Hext)).
Qed.
End growth.

(** ** Arrays *)

Lemma find_prop_app ps qs k :
  find_prop (ps ++ qs) k = match find_prop ps k with Some d => Some d | None => find_prop qs k end.
Proof.
  unfold find_prop. induction ps as [|p ps IH]; [done |]. cbn. case_bool_decide; done.
Qed.

Lemma find_prop_cons p ps k : find_prop (p :: ps) k = if bool_decide (p.1 = k) then Some p.2 else find_prop ps k.
Proof. unfold find_prop. cbn. by case_bool_decide. Qed.

Lemma index_key_inj i j : index_key i = index_key j -> i = j.
Proof.
  intros [= H]. apply (f_equal dec_value) in H. rewrite !dec_value_dec_of_N in H. lia.
Qed.

Lemma find_prop_imap vs i k :
  find_prop (imap (fun j v => (index_key (i + j), DataProp v)) vs) (index_key (i + k)) = DataProp <$> vs !! k.
Proof.
  revert i k. induction vs as [|v vs IH]; intros i k; [done |]. cbn [imap]. rewrite find_prop_cons. cbn [fst snd].
  destruct k as [|k].
  - by rewrite bool_decide_true.
  - rewrite (bool_decide_false (index_key (i + 0) = index_key (i + S k))) by (intros Heq%index_key_inj; lia).
    rewrite <- Nat.add_succ_comm. cbn [lookup list_lookup]. etrans; [| apply IH].
    erewrite imap_ext; [reflexivity |]. intros j x _. cbn. by rewrite Nat.add_succ_r.
Qed.

Lemma length_key_not_index i : length_key <> index_key i.
Proof.
  intros [= H]. pose proof (text_all_digits (N.of_nat i)) as Hd. rewrite <- H in Hd. done.
Qed.

Lemma find_prop_no_length vs (f : nat -> nat) :
  find_prop (imap (fun j v => (index_key (f j), DataProp v)) vs) length_key = None.
Proof.
  revert f. induction vs as [|v vs IH]; intros f; [done |]. cbn [imap]. rewrite find_prop_cons. cbn [fst].
  rewrite bool_decide_false by (intros He; by apply (length_key_not_index (f 0%nat))).
  apply (IH (f ∘ S)).
Qed.

Lemma map_res_lookup {A} (vs : list A) (f : nat -> res A) k :
  (forall i x, vs !! i = Some x -> f (k + i)%nat = Ret x) -> map_res f (seq k (length vs)) = Ret vs.
Proof.
  revert k. induction vs as [|v vs IH]; intros k Hf; [done |]. cbn [length seq map_res].
  rewrite <- (Nat.add_0_r k) at 1. rewrite (Hf 0%nat v eq_refl). cbn [res_bind]. rewrite IH; [done |].
  intros i x Hx. rewrite <- (Hf (S i) x Hx). f_equal. lia.
Qed.

Lemma array_length_num n : Z.of_nat n <= MAX_SAFE -> array_length (VNum (num_of_Z (Z.of_nat n))) = Some n.
Proof.
  intros Hn. unfold array_length.
  pose proof (js_safe_integer_int (Z.of_nat n)) as H. unfold js_safe_integer, js_int in H.
  rewrite H by (apply is_safe_spec; unfold MAX_SAFE in *; lia).
  destruct (Z.leb_spec 0 (Z.of_nat n)); [| lia]. by rewrite Nat2Z.id.
Qed.

Lemma array_reads h vs :
  Z.of_nat (length vs) <= MAX_SAFE -> dataArray (array h vs).2 (array h vs).1 = Ret vs.
Proof.
  intros Hn. unfold array, alloc, dataArray. cbn [fst snd].
  set (h' := mkHeap _ _ _ _). 
  set (ps := imap (fun i v => (index_key i, DataProp v)) vs
    ++ [(length_key, DataProp (VNum (num_of_Z (Z.of_nat (length vs)))))]).
  assert (data_object h' (VRef (fresh h)) = Ret (mkObject true false false true ps)) as Ho.
  { cbn. by rewrite lookup_insert_eq. }
  assert (forall k, dataProperty h' (VRef (fresh h)) k
    = match find_prop ps k with Some (DataProp x) => Ret x | _ => Throw "expected own data property" end) as Hp.
  { intros k. unfold dataProperty. by rewrite Ho. }
  rewrite Ho. cbn [res_bind is_array negb props]. rewrite Hp.
  assert (find_prop ps length_key = Some (DataProp (VNum (num_of_Z (Z.of_nat (length vs)))))) as ->.
  { unfold ps. rewrite find_prop_app. pose proof (find_prop_no_length vs (fun j => j)) as Hl. cbn beta in Hl.
    by rewrite Hl. }
  cbn [res_bind]. rewrite array_length_num by done.
  rewrite bool_decide_true by (unfold ps; rewrite length_app, length_imap; cbn; lia). cbn [negb].
  apply map_res_lookup. intros i x Hx. cbn [Nat.add]. rewrite Hp. unfold ps. rewrite find_prop_app.
  pose proof (find_prop_imap vs 0 i) as Hf. cbn [Nat.add] in Hf. by rewrite Hf, Hx.
Qed.

(** ** Records *)

Definition field_props (fs : list (jstr * value)) : list (key * descriptor) :=
  (fun f => (KStr f.1, DataProp f.2)) <$> fs.

Lemma define_fields_new fs ps :
  NoDup fs.*1 -> (forall f, f ∈ fs -> find_prop ps (KStr f.1) = None) ->
  define_fields fs ps = Ret (ps ++ field_props fs).
Proof.
  revert ps. induction fs as [|[name v] fs IH]; intros ps Hnd Hnew; cbn [define_fields].
  - by rewrite app_nil_r.
  - pose proof (Hnew (name, v) ltac:(by left)) as H0. cbn [fst] in H0. rewrite H0. rewrite fmap_cons, NoDup_cons in Hnd.
    destruct Hnd as [Hin Hnd]. rewrite IH; [by rewrite <- app_assoc | done |].
    intros f Hf. rewrite find_prop_app, Hnew by by right. rewrite find_prop_cons. cbn [fst snd].
    rewrite bool_decide_false; [done |]. intros [= ->]. apply Hin, list_elem_of_fmap. by exists f.
Qed.

Lemma find_field_prop fs name v :
  NoDup fs.*1 -> (name, v) ∈ fs -> find_prop (field_props fs) (KStr name) = Some (DataProp v).
Proof.
  induction fs as [|[n w] fs IH]; intros Hnd Hin; [by apply elem_of_nil in Hin |].
  unfold field_props. rewrite fmap_cons, find_prop_cons. cbn [fst snd] in *. rewrite fmap_cons, NoDup_cons in Hnd.
  apply elem_of_cons in Hin as [[= -> ->]|Hin]; [by rewrite bool_decide_true |].
  rewrite bool_decide_false; [by apply (IH (proj2 Hnd)) |]. intros [= ->]. apply (proj1 Hnd), list_elem_of_fmap.
  exists (name, v). done.
Qed.

Lemma record_reads h id fs :
  NoDup fs.*1 ->
  exists v h', record h id fs = Ret (v, h') /\ v = VRef (fresh h) /\ recordIdentity h' v = Some id
    /\ dataKeys h' v = Ret (nominal :: (KStr <$> fs.*1))
    /\ (forall name x, (name, x) ∈ fs -> dataProperty h' v (KStr name) = Ret x)
    /\ (heap_ok h -> heap_ok h' /\ extends h h').
Proof.
  intros Hnd. unfold record. rewrite define_fields_new by done. cbn [res_bind app].
  eexists _, _. split; [reflexivity |]. cbn [alloc]. split; [done |].
  set (ps := _ :: field_props fs). set (o := mkObject false false false true ps). split_and!.
  - cbn. by rewrite lookup_insert_eq.
  - unfold dataKeys, data_object. cbn [objects]. rewrite lookup_insert_eq. cbn. f_equal. f_equal.
    unfold field_props. rewrite <- !list_fmap_compose. apply list_fmap_ext. by intros.
  - intros name x Hin. unfold dataProperty, data_object. cbn [objects]. rewrite lookup_insert_eq. cbn -[find_prop].
    unfold ps. rewrite find_prop_cons. cbn [fst]. rewrite bool_decide_false by done. by rewrite (find_field_prop fs name x).
  - intros Hok. split; [by apply (alloc_ok h o (Some id)) | by apply (alloc_extends h o (Some id))].
Qed.

Lemma array_grows h vs : heap_ok h -> heap_ok (array h vs).2 /\ extends h (array h vs).2.
Proof. intros H. unfold array. split; [by apply alloc_ok | by apply alloc_extends]. Qed.
