(* ===== verification/JsonCodec.v ===== *)
(** * The JSON codec

    [src/runtime/codec/project.ts] (schema graph and projection of a parsed
    document), [document.ts] (decoding the bytes, duplicates, the native parse)
    and [encodeJSON]/[decodeJSON] of [json.ts].  Values live in the heap of
    [Data]; a parsed document is the tree of [Json], whose numbers carry the
    source tokens that the reviver of [document.ts] captures. *)
From stdpp Require Import base gmap list strings.
From Stdlib Require Import ZArith Lia SpecFloat.
From S2P Require Import Prelude JsNumber JsString Unicode Numbers Digits Data Codec Scan Json.

(** ** Schemas *)

Record SchemaField : Type := mkField { f_name : jstr; f_type : jstr }.

Record SchemaNode : Type := mkNode {
  identity : jstr;
  n_kind : jstr;
  name : jstr;
  element : option jstr;
  fields : option (list SchemaField);
  leaves : option (list jstr)
}.

Record Schema : Type := mkSchema { root : jstr; schema_nodes : list SchemaNode }.

Abbreviation node_map := (gmap jstr SchemaNode).

Definition graph (schema : Schema) : coded node_map :=
  let pairs := (fun node => (identity node, node)) <$> schema_nodes schema in
  if bool_decide (NoDup pairs.*1) then Coded (list_to_map pairs) else Fault "duplicate codec schema node".

Definition get (nodes : node_map) (id : option jstr) : coded SchemaNode :=
  match id with
  | Some id => match nodes !! id with Some node => Coded node | None => Fault "missing codec schema node" end
  | None => Fault "missing codec schema node"
  end.

Definition has_kind (node : SchemaNode) (k : string) : bool := bool_decide (n_kind node = js k).
Definition has_name (node : SchemaNode) (k : string) : bool := bool_decide (name node = js k).
Definition node_fields (node : SchemaNode) : list SchemaField := default [] (fields node).

(** [l.map(f)] where [f] may throw, in the codec's results. *)
Fixpoint map_coded {A B} (f : A -> coded B) (l : list A) : coded (list B) :=
  match l with
  | [] => Coded []
  | a :: rest => let* b := f a in let* bs := map_coded f rest in Coded (b :: bs)
  end.

(** [node.leaves!.map(get).find(...)] *)
Definition find_leaf (nodes : node_map) (node : SchemaNode) (test : SchemaNode -> bool) : coded (option SchemaNode) :=
  match leaves node with
  | Some ids => let* found := map_coded (fun id => get nodes (Some id)) ids in Coded (find test found)
  | None => Fault "undefined is not an object"
  end.

(** ** Checks shared by both directions *)

(** [scalar]: the text survives the trip through UTF-8. *)
Definition scalar (text path : jstr) : coded unit :=
  if bool_decide (utf8_decode (utf8_encode text) = Some text) then Coded tt else reject path unicode_scalar.

Definition checkedData {A} (read : res A) (path : jstr) : coded A :=
  match read with Ret a => Coded a | Throw _ => reject path type end.

(** The first of the sorted names that are not fields. *)
Definition extras (own names : list jstr) (path : jstr) : coded unit :=
  match sort_strings (filter (fun k => k ∉ names) own) with
  | [] => Coded tt
  | extra :: _ => reject (childPath path extra) extra_member
  end.

(** ** Encoding *)

Definition byte_size (text : jstr) : Z := Z.of_nat (length (utf8_encode text)).

Definition textCost (b : Budget) (value path : jstr) : coded Budget :=
  if remaining b <? len value then reject path byte_limit
  else
    let* _ := scalar value path in
    charge b (byte_size (json_quote value)) path.

Fixpoint text_costs (b : Budget) (names : list jstr) (path : jstr) : coded Budget :=
  match names with
  | [] => Coded b
  | n :: names => let* b := textCost b n path in text_costs b names path
  end.

Definition key_costs (b : Budget) (names : list jstr) (path : jstr) : coded Budget :=
  let n := Z.of_nat (length names) in
  let* b := charge b (2 + Z.max 0 (n - 1) + n) path in text_costs b names path.

Definition array_cost (n : Z) : Z := 2 + Z.max 0 (n - 1).

Definition is_array_value (h : heap) (v : value) : bool :=
  match v with VRef l => match objects h !! l with Some o => is_array o | None => false end | _ => false end.

(** [value !== null && typeof value === "object"] *)
Definition typeof_object (h : heap) (v : value) : option (loc * object) :=
  match v with
  | VRef l => match objects h !! l with Some o => if is_function o then None else Some (l, o) | None => None end
  | _ => None
  end.

(** [object(value, path)]: no array, and readable through the data boundary. *)
Definition data_record (h : heap) (v : value) (path : jstr) : coded (list key) :=
  if is_array_value h v then reject path type else checkedData (dataKeys h v) path.

Definition string_keys (ks : list key) : list jstr :=
  omap (fun k => match k with KStr s => Some s | nominal => None end) ks.

Definition required (h : heap) (v : value) (ks : list key) (k path : jstr) : coded value :=
  if bool_decide (KStr k ∈ ks) then checkedData (dataProperty h v (KStr k)) (childPath path k)
  else reject (childPath path k) missing_member.

Section encode.
Context (number_text : num -> jstr).
Context (nodes : node_map) (h : heap).

(** [Object.is(value, -0)] *)
Definition negative_zero (x : num) : bool := match x with S754_zero true => true | _ => false end.

(** The text of a finite float on the wire. *)
Definition float_text (x : num) : jstr := if negative_zero x then js "-0" else number_text x.

(** The budget and the rendered integers. *)
Abbreviation charges := (Budget * gmap Z jstr)%type.

Definition encode_primitive (node : SchemaNode) (v : value) (path : jstr) (c : charges) : coded charges :=
  let '(b, integers) := c in
  if has_name node "str" then
    match v with VStr s => let* b := textCost b s path in Coded (b, integers) | _ => reject path type end
  else if has_name node "bool" then
    match v with VBool x => let* b := charge b (if x then 4 else 5) path in Coded (b, integers) | _ => reject path type end
  else if has_name node "int" then
    match v with
    | VBigInt z => let* (text, b) := encodeInteger z b path in Coded (b, <[z := text]> integers)
    | _ => reject path type
    end
  else if has_name node "float" then
    match v with
    | VNum x =>
        if isFinite x then let* b := charge b (len (float_text x)) path in Coded (b, integers)
        else reject path nonfinite
    | _ => reject path type
    end
  else Fault "unknown codec primitive".

(** The loops over elements and fields, with the recursive call [visit]. *)
Section loops.
Context (visit : SchemaNode -> value -> jstr -> Z -> charges -> coded charges).

Fixpoint encode_items (element : option jstr) (items : list value) (i : nat) (path : jstr) (dep : Z) (c : charges)
    : coded charges :=
  match items with
  | [] => Coded c
  | item :: items =>
      let* node := get nodes element in
      let* c := visit node item (indexPath path i) dep c in
      encode_items element items (S i) path dep c
  end.

Fixpoint encode_fields (fs : list SchemaField) (v : value) (ks : list key) (path : jstr) (dep : Z) (c : charges)
    : coded charges :=
  match fs with
  | [] => Coded c
  | f :: fs =>
      let* node := get nodes (Some (f_type f)) in
      let* x := required h v ks (f_name f) path in
      let* c := visit node x (childPath path (f_name f)) dep c in
      encode_fields fs v ks path dep c
  end.
End loops.

(** [visit] of [encodeJSON]; [active] are the objects being walked, left by
    every return. *)
Fixpoint encode_visit (fuel : nat) (active : gset loc) (node : SchemaNode) (v : value) (path : jstr) (dep : Z)
    (c : charges) : coded charges :=
  match fuel with
  | O => Fault "fuel"
  | S fuel =>
      let container := negb (has_kind node "primitive") in
      let* b := Codec.visit c.1 (dep + (if container then 1 else 0)) path in
      let c := (b, c.2) in
      if has_kind node "primitive" then encode_primitive node v path c
      else if has_kind node "variant" then
        let* selected := find_leaf nodes node (fun leaf => bool_decide (Some (identity leaf) = recordIdentity h v)) in
        match selected with
        | None => reject path variant_tag
        | Some leaf =>
            let* b := key_costs c.1 [js "case"; js "value"] path in
            let case := childPath path (js "case") in
            let* b := Codec.visit b (dep + 1) case in
            let* b := textCost b (name leaf) case in
            encode_visit fuel active leaf v (childPath path (js "value")) (dep + 1) (b, c.2)
        end
      else
        match typeof_object h v with
        | None => reject path type
        | Some (l, o) =>
            if bool_decide (l ∈ active) then reject path cycle
            else
              let active := {[ l ]} ∪ active in
              if has_kind node "array" then
                if negb (is_array o) then reject path type
                else
                  let* length := checkedData (dataProperty h v length_key) path in
                  match array_length length with
                  | None => Fault "invalid codec charge"
                  | Some n =>
                      let* b := charge c.1 (array_cost (Z.of_nat n)) path in
                      let* items := checkedData (dataArray h v) path in
                      encode_items (encode_visit fuel active) (element node) items 0 path (dep + 1) (b, c.2)
                  end
              else if negb (has_kind node "record" || has_kind node "error") then Fault "unsupported codec node"
              else if negb (bool_decide (recordIdentity h v = Some (identity node))) then reject path type
              else
                let* ks := data_record h v path in
                let names := f_name <$> node_fields node in
                let* b := key_costs c.1 names path in
                let* c := encode_fields (encode_visit fuel active) (node_fields node) v ks path (dep + 1) (b, c.2) in
                let* _ := extras (string_keys ks) names path in
                Coded c
        end
  end.

(** ** The formatter's view

    [JSON.stringify] drives the traversal of the facades; its [toJSON]-free
    objects list integer-like names first, in numeric order. *)
Definition is_array_index (s : jstr) : bool := integer_digits s && (dec_value s <? 2 ^ 32 - 1)%N.

Fixpoint insert_index {A} (m : jstr * A) (l : list (jstr * A)) : list (jstr * A) :=
  match l with
  | [] => [m]
  | m' :: l' => if (dec_value m'.1 <? dec_value m.1)%N then m' :: insert_index m l' else m :: l
  end.

Definition property_order {A} (ms : list (jstr * A)) : list (jstr * A) :=
  foldr insert_index [] (filter (fun m => is_array_index m.1 = true) ms)
    ++ filter (fun m => is_array_index m.1 = false) ms.

Section view_loops.
Context (view : SchemaNode -> value -> coded doc).

Fixpoint view_items (element : option jstr) (v : value) (n i : nat) : coded (list doc) :=
  match n with
  | O => Coded []
  | S n =>
      let* node := get nodes element in
      let* x := match dataProperty h v (index_key i) with Ret x => Coded x | Throw msg => Fault msg end in
      let* d := view node x in
      let* ds := view_items element v n (S i) in
      Coded (d :: ds)
  end.

Fixpoint view_fields (fs : list SchemaField) (v : value) : coded (list (jstr * doc)) :=
  match fs with
  | [] => Coded []
  | f :: fs =>
      let* node := get nodes (Some (f_type f)) in
      let* x := match dataProperty h v (KStr (f_name f)) with Ret x => Coded x | Throw msg => Fault msg end in
      let* d := view node x in
      let* ms := view_fields fs v in
      Coded ((f_name f, d) :: ms)
  end.
End view_loops.

Definition view_primitive (integers : gmap Z jstr) (node : SchemaNode) (v : value) : coded doc :=
  match v with
  | VBigInt z =>
      if has_name node "int" then
        match integers !! z with Some text => Coded (DNumber text) | None => Fault "undefined" end
      else Fault "JSON.stringify cannot serialize BigInt"
  | VNum x => if isFinite x then Coded (DNumber (float_text x)) else Coded DNull
  | VStr s => Coded (DString s)
  | VBool b => Coded (DBool b)
  | _ => Coded DNull
  end.

Fixpoint view (fuel : nat) (integers : gmap Z jstr) (node : SchemaNode) (v : value) : coded doc :=
  match fuel with
  | O => Fault "fuel"
  | S fuel =>
      if has_kind node "primitive" then view_primitive integers node v
      else if has_kind node "variant" then
        let* selected := find_leaf nodes node (fun leaf => bool_decide (Some (identity leaf) = recordIdentity h v)) in
        match selected with
        | None => reject [] variant_tag
        | Some leaf =>
            let* d := view fuel integers leaf v in
            Coded (DObject [(js "case", DString (name leaf)); (js "value", d)])
        end
      else if has_kind node "array" then
        let* length := match dataProperty h v length_key with Ret x => Coded x | Throw msg => Fault msg end in
        match array_length length with
        | None => Fault "invalid array length"
        | Some n => let* ds := view_items (view fuel integers) (element node) v n 0 in Coded (DArray ds)
        end
      else if bool_decide (NoDup (f_name <$> node_fields node)) then
        let* ms := view_fields (view fuel integers) (node_fields node) v in
        Coded (DObject (property_order ms))
      else Fault "Attempting to change value of a readonly property."
  end.

End encode.

(** Containers nest at most 64 deep, so both traversals end within 66 calls
    ([encode_never_faults]). *)
Definition visit_fuel : nat := 66.

Definition encode_with (fuel : nat) (number_text : num -> jstr) (schema : Schema) (h : heap) (input : value) (bytes : Z)
    : coded (list N) :=
  let* nodes := graph schema in
  let* b := new_Budget bytes in
  let* node := get nodes (Some (root schema)) in
  let* (b, integers) := encode_visit number_text nodes h fuel ∅ node input [] 0 (b, ∅) in
  let* d := view number_text nodes h fuel integers node input in
  let encoded := utf8_encode (JSON_stringify d) in
  if bool_decide (Z.of_nat (length encoded) = bytes - remaining b) then Coded encoded
  else Fault "codec preflight/formatter length mismatch".

Definition encodeJSON : (num -> jstr) -> Schema -> heap -> value -> Z -> coded (list N) := encode_with visit_fuel.

(** ** Decoding *)

Definition decodeText (input : list N) (bytes : Z) : coded jstr :=
  if bytes <? Z.of_nat (length input) then reject [] byte_limit
  else match utf8_decode input with Some text => Coded text | None => reject [] Codec.utf8 end.

(** The duplicate is reported after the native syntax. *)
Definition parseJSONText (text : jstr) : coded doc :=
  let* duplicate := scanJSON text in
  match JSON_parse text with
  | None => reject [] invalid_json
  | Some parsed =>
      match duplicate with
      | Some path => reject path duplicate_member
      | None => Coded parsed
      end
  end.

Definition parseDocument (input : list N) (bytes : Z) : coded doc :=
  let* text := decodeText input bytes in parseJSONText text.

(** [Number(token)], the value the native parser gives a numeric token. *)
Definition number_of_token (token : jstr) : num :=
  match floatText token with Some d => number_of_decimal d | None => S754_nan end.

(** [exactInt] *)
Definition exactInt (d : doc) (path : jstr) (b : Budget) : coded (Z * Budget) :=
  match d with DNumber token => decodeInteger token b path | _ => reject path type end.

Definition member_value (ms : list (jstr * doc)) (k path : jstr) : coded doc :=
  match last_member ms k with
  | Some d => Coded d
  | None => reject (childPath path k) missing_member
  end.

Section project.
Context (nodes : node_map).

Abbreviation pstate := (Budget * heap)%type.

Definition project_primitive (node : SchemaNode) (d : doc) (path : jstr) (st : pstate) : coded (value * pstate) :=
  if has_name node "str" then
    match d with DString s => let* _ := scalar s path in Coded (VStr s, st) | _ => reject path type end
  else if has_name node "bool" then
    match d with DBool x => Coded (VBool x, st) | _ => reject path type end
  else if has_name node "float" then
    match d with
    | DNumber token =>
        let x := number_of_token token in
        if isFinite x then Coded (VNum x, st) else reject path nonfinite
    | _ => reject path type
    end
  else if has_name node "int" then
    let* (z, b) := exactInt d path st.1 in Coded (VBigInt z, (b, st.2))
  else Fault "unknown codec primitive".

Section loops.
Context (visit : SchemaNode -> doc -> jstr -> Z -> pstate -> coded (value * pstate)).

Fixpoint project_items (element : option jstr) (items : list doc) (i : nat) (path : jstr) (dep : Z) (st : pstate)
    : coded (list value * pstate) :=
  match items with
  | [] => Coded ([], st)
  | item :: items =>
      let* node := get nodes element in
      let* (v, st) := visit node item (indexPath path i) dep st in
      let* (vs, st) := project_items element items (S i) path dep st in
      Coded (v :: vs, st)
  end.

Fixpoint project_fields (fs : list SchemaField) (ms : list (jstr * doc)) (path : jstr) (dep : Z) (st : pstate)
    : coded (list (jstr * value) * pstate) :=
  match fs with
  | [] => Coded ([], st)
  | f :: fs =>
      let* node := get nodes (Some (f_type f)) in
      let* d := member_value ms (f_name f) path in
      let* (v, st) := visit node d (childPath path (f_name f)) dep st in
      let* (vs, st) := project_fields fs ms path dep st in
      Coded ((f_name f, v) :: vs, st)
  end.
End loops.

(** The keys of the parsed object, a repeated member counting once. *)
Definition own_names (ms : list (jstr * doc)) : list jstr := remove_dups ms.*1.

(** [visit] of [projectValue] with [exactInt].  A parsed document is a tree, so
    [active] never refuses. *)
Fixpoint project_visit (fuel : nat) (node : SchemaNode) (d : doc) (path : jstr) (dep : Z) (st : pstate)
    : coded (value * pstate) :=
  match fuel with
  | O => Fault "fuel"
  | S fuel =>
      let container := negb (has_kind node "primitive") in
      let* b := Codec.visit st.1 (dep + (if container then 1 else 0)) path in
      let st := (b, st.2) in
      if has_kind node "primitive" then project_primitive node d path st
      else if has_kind node "array" then
        match d with
        | DArray items =>
            let* (vs, st) := project_items (project_visit fuel) (element node) items 0 path (dep + 1) st in
            let '(v, h) := array st.2 vs in Coded (v, (st.1, h))
        | _ => reject path type
        end
      else
        match d with
        | DObject ms =>
            if has_kind node "variant" then
              let case := childPath path (js "case") in
              let* tag := member_value ms (js "case") path in
              let* b := Codec.visit st.1 (dep + 1) case in
              match tag with
              | DString tag =>
                  let* _ := scalar tag case in
                  let* found := find_leaf nodes node (fun leaf => bool_decide (name leaf = tag)) in
                  match found with
                  | None => reject case variant_tag
                  | Some leaf =>
                      let* inner := member_value ms (js "value") path in
                      let* (v, st) := project_visit fuel leaf inner (childPath path (js "value")) (dep + 1) (b, st.2) in
                      let* _ := extras (own_names ms) [js "case"; js "value"] path in
                      Coded (v, st)
                  end
              | _ => reject case type
              end
            else if negb (has_kind node "record" || has_kind node "error") then Fault "unsupported codec node"
            else
              let* (entries, st) := project_fields (project_visit fuel) (node_fields node) ms path (dep + 1) st in
              let* _ := extras (own_names ms) (f_name <$> node_fields node) path in
              match record st.2 (identity node) entries with
              | Ret (v, h) => Coded (v, (st.1, h))
              | Throw msg => Fault msg
              end
        | _ => reject path type
        end
  end.
End project.

Definition project_with (fuel : nat) (schema : Schema) (parsed : doc) (b : Budget) (h : heap) : coded (value * (Budget * heap)) :=
  let* nodes := graph schema in
  let* node := get nodes (Some (root schema)) in
  project_visit nodes fuel node parsed [] 0 (b, h).

Definition projectValue : Schema -> doc -> Budget -> heap -> coded (value * (Budget * heap)) := project_with visit_fuel.

Definition decodeJSON (schema : Schema) (h : heap) (input : list N) (bytes : Z) : coded (value * heap) :=
  let* b := new_Budget bytes in
  let* parsed := parseDocument input bytes in
  let* (v, (_, h)) := projectValue schema parsed b h in
  Coded (v, h).
