(* ===== verification/JsonCodecTheorems.v ===== *)
(** * The JSON codec: properties

    A typed value and the document written for it are related by [describes];
    encoding writes the description of its input, and decoding a description
    builds a value with that description. *)
From stdpp Require Import base gmap list strings.
From Stdlib Require Import ZArith Lia SpecFloat.
From S2P Require Import Prelude JsNumber JsString Numbers Unicode Data Digits Codec CodecTheorems Json Scan DataFacts JsonCodec.

(** ** The size of a JSON text in UTF-8

    Concatenation adds sizes where no surrogate pair is split, and what
    [JSON.stringify] writes never ends inside one: the size of a document is the
    sum that the encoder charges before formatting. *)

(** ** Well-formed prefixes *)

Lemma well_formed_app a b :
  is_well_formed a = true ->
  is_well_formed (a ++ b) = is_well_formed b /\ code_points (a ++ b) = code_points a ++ code_points b.
Proof.
  induction a as [a IH] using (well_founded_induction (well_founded_ltof _ length)). unfold ltof in IH.
  destruct a as [|c a]; [done |]. cbn [app is_well_formed code_points].
  destruct (is_high_surrogate c).
  - destruct a as [|d a]; [done |]. cbn [app]. destruct (is_low_surrogate d); [| done]. intros Ha.
    destruct (IH a ltac:(cbn; lia) Ha) as [-> ->]. done.
  - destruct (is_low_surrogate c); [done |]. intros Ha. destruct (IH a ltac:(cbn; lia) Ha) as [-> ->]. done.
Qed.

Lemma byte_size_app a b : is_well_formed a = true -> byte_size (a ++ b) = byte_size a + byte_size b.
Proof.
  intros Ha. unfold byte_size, utf8_encode. destruct (well_formed_app a b Ha) as [_ ->].
  rewrite !fmap_app, join_app, length_app. lia.
Qed.

Lemma well_formed_both a b : is_well_formed a = true -> is_well_formed b = true -> is_well_formed (a ++ b) = true.
Proof. intros Ha Hb. by destruct (well_formed_app a b Ha) as [-> _]. Qed.

(** ASCII text is one byte per unit. *)
Definition ascii_text (s : jstr) : bool := forallb (fun c => (c <? 0x80)%N) s.

Lemma ascii_well_formed s : ascii_text s = true -> is_well_formed s = true.
Proof.
  induction s as [|c s IH]; [done |]. cbn [ascii_text forallb is_well_formed]. intros [Hc%N.ltb_lt Hs]%andb_true_iff.
  unfold is_high_surrogate, is_low_surrogate. rewrite (leb_false 0xD800), (leb_false 0xDC00) by lia. cbn [andb]. by apply IH.
Qed.

Lemma ascii_size s : ascii_text s = true -> byte_size s = len s.
Proof.
  unfold len. induction s as [|c s IH]; [done |]. cbn [ascii_text forallb]. intros [Hc Hs]%andb_true_iff.
  assert (byte_size [c] = 1) as Hone.
  { apply N.ltb_lt in Hc. unfold byte_size, utf8_encode. cbn [code_points]. unfold is_high_surrogate.
    rewrite (leb_false 0xD800) by lia. cbn [andb]. rewrite !fmap_cons. unfold to_scalar, is_scalar.
    rewrite (ltb_true c 0xD800) by lia. cbn [orb]. unfold Unicode.utf8. rewrite (ltb_true c 0x80) by lia. done. }
  change (c :: s) with ([c] ++ s). rewrite byte_size_app, Hone, (IH Hs); [cbn [length app]; lia |].
  apply ascii_well_formed. cbn. by rewrite Hc.
Qed.

Lemma byte_size_cons c s : (c <? 0x80)%N = true -> byte_size (c :: s) = 1 + byte_size s.
Proof.
  intros Hc. assert (ascii_text [c] = true) as Ha by (cbn; by rewrite Hc).
  change (c :: s) with ([c] ++ s). rewrite byte_size_app by by apply ascii_well_formed.
  by rewrite (ascii_size [c] Ha).
Qed.

Lemma ascii_app a b : ascii_text (a ++ b) = ascii_text a && ascii_text b.
Proof. apply forallb_app. Qed.

Lemma number_ascii t : number_token t = true -> ascii_text t = true.
Proof.
  intros Ht%bool_decide_eq_true. apply number_prefix_reads in Ht as [_ Ht]. revert Ht.
  induction t as [|c t IH]; [done |]. cbn [forallb ascii_text]. intros [Hc Ht]%andb_true_iff.
  apply andb_true_iff. split; [| by apply IH]. apply N.ltb_lt. unfold number_unit in Hc.
  repeat (apply orb_true_iff in Hc as [Hc|Hc]); try (apply N.eqb_eq in Hc; lia). apply is_digit_spec in Hc. lia.
Qed.

(** ** Written strings *)

Lemma hex_digit_ascii n : (n < 16)%N -> (hex_digit n <? 0x80)%N = true.
Proof. intros Hn. unfold hex_digit. apply N.ltb_lt. destruct (N.ltb_spec n 10); lia. Qed.

Lemma escape_ascii c : ascii_text (unicode_escape c) = true.
Proof.
  cbn -[hex_digit N.div N.modulo]. rewrite !hex_digit_ascii by (apply N.mod_lt; done). done.
Qed.

Lemma quote_unit_well_formed c :
  is_high_surrogate c = false -> is_low_surrogate c = false -> is_well_formed (quote_unit c) = true.
Proof.
  intros Hh Hl. unfold quote_unit. repeat case_goal; try done.
  - apply ascii_well_formed, escape_ascii.
  - cbn. by rewrite Hh, Hl.
Qed.

Lemma quote_units_well_formed s : is_well_formed (quote_units s) = true.
Proof.
  induction s as [s IH] using (well_founded_induction (well_founded_ltof _ length)). unfold ltof in IH.
  destruct s as [|c s]; [done |]. cbn [quote_units].
  pose proof (ascii_well_formed _ (escape_ascii c)) as Hesc.
  destruct (is_high_surrogate c) eqn:Hh.
  - destruct s as [|d s]; [done |]. destruct (is_low_surrogate d) eqn:Hl.
    + cbn [is_well_formed]. rewrite Hh, Hl. apply IH. cbn. lia.
    + apply well_formed_both; [done |]. apply IH. cbn. lia.
  - destruct (is_low_surrogate c) eqn:Hl; (apply well_formed_both; [| apply IH; cbn; lia]); [done |].
    by apply quote_unit_well_formed.
Qed.

Lemma quote_well_formed s : is_well_formed (json_quote s) = true.
Proof.
  unfold json_quote. apply (well_formed_both [34%N]); [done |].
  apply well_formed_both; [apply quote_units_well_formed | done].
Qed.

(** ** Written documents *)

Lemma intersperse_size ps :
  Forall (fun p => is_well_formed p = true) ps ->
  is_well_formed (intersperse [44%N] ps) = true
  /\ byte_size (intersperse [44%N] ps)
     = Z.max 0 (Z.of_nat (length ps) - 1) + foldr (fun p n => byte_size p + n) 0 ps.
Proof.
  induction 1 as [|p ps Hp Hps [IHw IHs]]; [done |]. destruct ps as [|q ps].
  - cbn [intersperse foldr length]. split; [done | lia].
  - rewrite intersperse_cons by done. split.
    + apply well_formed_both; [done |]. by apply (well_formed_both [44%N]).
    + rewrite byte_size_app by done. cbn [app]. rewrite byte_size_cons, IHs by done.
      cbn [foldr length]. lia.
Qed.

Lemma stringify_well_formed d : doc_ok d = true -> is_well_formed (JSON_stringify d) = true.
Proof.
  induction d as [|b|t|s|items IH|members IH] using doc_induction; intros Hok; cbn [JSON_stringify doc_ok] in *.
  - done.
  - by destruct b.
  - by apply ascii_well_formed, number_ascii.
  - apply quote_well_formed.
  - apply (well_formed_both [91%N]); [done |]. apply well_formed_both; [| done].
    apply intersperse_size, Forall_fmap, Forall_forall. intros d Hd.
    rewrite Forall_forall in IH. apply (IH d Hd). rewrite forallb_forall in Hok. by apply Hok, list_elem_of_In.
  - apply (well_formed_both [123%N]); [done |]. apply well_formed_both; [| done].
    apply intersperse_size, Forall_fmap, Forall_forall. intros m Hm.
    apply well_formed_both; [apply quote_well_formed |]. apply (well_formed_both [58%N]); [done |].
    rewrite Forall_forall in IH. apply (IH m Hm). rewrite forallb_forall in Hok.
    specialize (Hok m (proj1 (list_elem_of_In _ _) Hm)). by apply andb_true_iff in Hok as [_ ?].
Qed.

Definition doc_size (d : doc) : Z := byte_size (JSON_stringify d).

Definition members_cost (n : Z) : Z := 2 + Z.max 0 (n - 1) + n.

Lemma array_size items :
  forallb doc_ok items = true ->
  doc_size (DArray items) = array_cost (Z.of_nat (length items)) + foldr (fun d n => doc_size d + n) 0 items.
Proof.
  intros Hok. unfold doc_size, array_cost. cbn [JSON_stringify].
  assert (Forall (fun p => is_well_formed p = true) (JSON_stringify <$> items)) as Hw.
  { apply Forall_fmap, Forall_forall. intros d Hd. apply stringify_well_formed.
    rewrite forallb_forall in Hok. by apply Hok, list_elem_of_In. }
  destruct (intersperse_size _ Hw) as [Hw' Hs].
  rewrite byte_size_cons, byte_size_app, Hs, length_fmap by done.
  change (byte_size [93%N]) with 1.
  assert (foldr (fun p n => byte_size p + n) 0 (JSON_stringify <$> items)
    = foldr (fun d n => byte_size (JSON_stringify d) + n) 0 items) as -> by (clear; induction items; cbn; congruence).
  lia.
Qed.

Lemma object_size members :
  forallb (fun m => is_units m.1 && doc_ok m.2) members = true ->
  doc_size (DObject members) = members_cost (Z.of_nat (length members))
    + foldr (fun m n => byte_size (json_quote m.1) + doc_size m.2 + n) 0 members.
Proof.
  intros Hok. unfold doc_size, members_cost. cbn [JSON_stringify].
  assert (forall m, m ∈ members -> is_well_formed (JSON_stringify m.2) = true) as Hm.
  { intros m Hm. apply stringify_well_formed. rewrite forallb_forall in Hok.
    specialize (Hok m (proj1 (list_elem_of_In _ _) Hm)). by apply andb_true_iff in Hok as [_ ?]. }
  set (text := fun m : jstr * doc => json_quote m.1 ++ 58%N :: JSON_stringify m.2).
  assert (Forall (fun p => is_well_formed p = true) (text <$> members)) as Hw.
  { apply Forall_fmap, Forall_forall. intros m Hin. apply well_formed_both; [apply quote_well_formed |].
    apply (well_formed_both [58%N]); [done | by apply Hm]. }
  destruct (intersperse_size _ Hw) as [Hw' Hs].
  rewrite byte_size_cons, byte_size_app, Hs, length_fmap by done.
  change (byte_size [125%N]) with 1.
  assert (foldr (fun p n => byte_size p + n) 0 (text <$> members)
    = Z.of_nat (length members) + foldr (fun m n => byte_size (json_quote m.1) + byte_size (JSON_stringify m.2) + n) 0 members) as ->.
  { clear -Hm. induction members as [|m members IH]; [done |]. rewrite fmap_cons. cbn [foldr length].
    rewrite IH by (intros m' Hm'; apply Hm; by right). unfold text.
    rewrite byte_size_app, byte_size_cons by (done || apply quote_well_formed). lia. }
  lia.
Qed.

(** ** Texts that survive UTF-8 *)

Lemma scalar_ok text path u : scalar text path = Coded u -> is_units text = true /\ is_well_formed text = true.
Proof.
  unfold scalar. case_bool_decide as H; [| done]. intros _. split; [by eapply decoded_units |].
  by apply utf8_encode_decode in H as [_ ?].
Qed.

Lemma scalar_well_formed text path : is_units text = true -> is_well_formed text = true -> scalar text path = Coded tt.
Proof.
  intros Hu Hw. unfold scalar. destruct (utf8_decode_encode text Hu) as [-> H].
  rewrite bool_decide_true; [done |]. f_equal. by apply H.
Qed.

(** ** Well-formed schemas *)

Definition known (net : node_map) (id : jstr) : bool := bool_decide (is_Some (net !! id)).

Definition leaf_names (net : node_map) (ids : list jstr) : list jstr := omap (fun id => name <$> net !! id) ids.

(** A variant is over nominal records. *)
Definition nominal_leaf (net : node_map) (id : jstr) : bool :=
  match net !! id with Some leaf => has_kind leaf "record" || has_kind leaf "error" | None => false end.

Definition field_ok (net : node_map) (f : SchemaField) : bool :=
  known net (f_type f) && negb (is_array_index (f_name f)) && is_units (f_name f) && is_well_formed (f_name f).

(** What the compiler emits: a closed graph of known kinds, with distinct field
    and leaf names, no field named by a number or by half a surrogate pair.  An array of the language has
    fewer than [2 ^ 32] elements. *)
Definition node_ok (net : node_map) (node : SchemaNode) : bool :=
  if has_kind node "primitive" then has_name node "str" || has_name node "bool" || has_name node "int" || has_name node "float"
  else if has_kind node "variant" then
    match leaves node with
    | Some ids => forallb (nominal_leaf net) ids && bool_decide (NoDup (leaf_names net ids))
    | None => false
    end
  else if has_kind node "array" then
    match element node with Some e => known net e | None => false end
  else
    (has_kind node "record" || has_kind node "error")
    && forallb (field_ok net) (node_fields node)
    && bool_decide (NoDup (f_name <$> node_fields node))
    && (Z.of_nat (length (node_fields node)) <? 2 ^ 32).

Definition graph_ok (net : node_map) : Prop := forall id node, net !! id = Some node -> node_ok net node = true.

Definition schema_ok (schema : Schema) (net : node_map) : Prop :=
  graph schema = Coded net /\ is_Some (net !! root schema) /\ graph_ok net.

Lemma field_known net f : field_ok net f = true -> exists fn, net !! f_type f = Some fn.
Proof. unfold field_ok. rewrite !andb_true_iff. by intros [[[H%bool_decide_eq_true _] _] _]. Qed.

Lemma field_plain net f : field_ok net f = true -> is_array_index (f_name f) = false.
Proof. unfold field_ok. rewrite !andb_true_iff. by intros [[[_ H%negb_true_iff] _] _]. Qed.

(** ** Descriptions *)
Section describes.
Context (net : node_map).

Definition text_ok (s : jstr) : Prop := is_units s = true /\ is_well_formed s = true.

#[warnings="-register-all"]
Inductive describes (h : heap) : SchemaNode -> value -> doc -> Prop :=
| desc_str node s :
    has_kind node "primitive" = true -> has_name node "str" = true -> text_ok s ->
    describes h node (VStr s) (DString s)
| desc_bool node b :
    has_kind node "primitive" = true -> has_name node "bool" = true -> describes h node (VBool b) (DBool b)
| desc_int node z :
    has_kind node "primitive" = true -> has_name node "int" = true ->
    describes h node (VBigInt z) (DNumber (dec_of_Z z))
| desc_float node x t :
    has_kind node "primitive" = true -> has_name node "float" = true ->
    isFinite x = true -> number_token t = true -> number_of_token t = x ->
    describes h node (VNum x) (DNumber t)
| desc_array node e en v vs ds :
    has_kind node "array" = true -> element node = Some e -> net !! e = Some en ->
    dataArray h v = Ret vs -> Forall2 (describes h en) vs ds -> describes h node v (DArray ds)
| desc_record node v ks ms :
    has_kind node "record" || has_kind node "error" = true ->
    recordIdentity h v = Some (identity node) ->
    dataKeys h v = Ret ks -> (forall k, k ∈ string_keys ks <-> k ∈ f_name <$> node_fields node) ->
    ms.*1 = f_name <$> node_fields node -> Forall text_ok ms.*1 ->
    Forall2 (fun f m => exists fn x,
      net !! f_type f = Some fn /\ dataProperty h v (KStr (f_name f)) = Ret x /\ describes h fn x m.2)
      (node_fields node) ms ->
    describes h node v (DObject ms)
| desc_variant node ids id leaf v d :
    has_kind node "variant" = true -> leaves node = Some ids -> id ∈ ids -> net !! id = Some leaf ->
    recordIdentity h v = Some (identity leaf) -> text_ok (name leaf) -> describes h leaf v d ->
    describes h node v (DObject [(js "case", DString (name leaf)); (js "value", d)]).

(** Kinds exclude each other. *)
Lemma kind_other node k k' : has_kind node k = true -> js k <> js k' -> has_kind node k' = false.
Proof. unfold has_kind. intros H%bool_decide_eq_true Hne. apply bool_decide_eq_false. congruence. Qed.

Lemma record_not node k : has_kind node "record" || has_kind node "error" = true ->
  k = "primitive"%string \/ k = "variant"%string \/ k = "array"%string -> has_kind node k = false.
Proof. intros [H|H]%orb_true_iff Hk; eapply kind_other; try exact H; destruct Hk as [->|[->| ->]]; done. Qed.

Lemma int_token z : number_token (dec_of_Z z) = true.
Proof.
  apply bool_decide_eq_true. unfold number_prefix. rewrite strip_minus_text. cbn [snd].
  rewrite span_digits_all by apply text_all_digits. rewrite dec_of_N_digits. cbn [number_fraction number_exponent length].
  by rewrite Nat.sub_0_r, take_ge.
Qed.

(** A description is a document the parser and the scanner accept. *)
Lemma describes_doc_ok h d : forall node v, describes h node v d -> doc_ok d = true.
Proof.
  induction d as [|b|t|s|items IH|members IH] using doc_induction; intros node v H; inversion H as
    [? ? _ _ [Hu _]| |? z|? ? ? _ _ _ Ht| ? ? ? ? vs ? _ _ _ _ Hall|? ? ? ? _ _ _ _ _ Hnames Hall|? ? ? ? ? d _ _ _ _ _ [Hu _] Hd]; subst; try done.
  - apply int_token.
  - cbn. clear H. revert vs Hall. induction IH as [|d items Hd _ IH]; intros vs Hall; [done |].
    apply Forall2_cons_inv_r in Hall as (v' & vs' & Hv & Hvs & ->). cbn. rewrite (Hd _ _ Hv). by apply (IH vs').
  - cbn. clear H. revert Hnames Hall. generalize (node_fields node) as fs.
    induction IH as [|m members Hd _ IH]; intros fs Hnames Hall; [done |].
    apply Forall2_cons_inv_r in Hall as (f & fs' & (fn & x & _ & _ & Hx) & Hfs & ->).
    rewrite fmap_cons, Forall_cons in Hnames. destruct Hnames as [[Hm _] Hnames].
    cbn. rewrite Hm, (Hd _ _ Hx). by apply (IH fs').
  - inversion IH as [|? ? _ IH']; subst. inversion IH' as [|? ? Hd' _]; subst. cbn. unfold text_ok in Hu. cbn in Hd'.
    by rewrite Hu, (Hd' _ _ Hd).
Qed.

Lemma describes_grows h h' d : extends h h' -> forall node v, describes h node v d -> describes h' node v d.
Proof.
  intros Hext. induction d as [|b|t|s|items IH|members IH] using doc_induction; intros node v H; inversion H; subst;
    try (by econstructor).
  - eapply desc_array; [done.. | by eapply dataArray_grows |].
    match goal with Hall : Forall2 _ _ _ |- _ => revert Hall end. clear -IH. revert vs.
    induction IH as [|d items Hd _ IH]; intros vs Hall; [by apply Forall2_nil_inv_r in Hall as -> |].
    apply Forall2_cons_inv_r in Hall as (v' & vs' & Hv & Hvs & ->). constructor; [by apply Hd | by apply IH].
  - eapply desc_record; [done | by eapply recordIdentity_grows | by eapply dataKeys_grows | done.. |].
    match goal with Hall : Forall2 _ _ _ |- _ => revert Hall end. clear -IH Hext. generalize (node_fields node) as fs.
    induction IH as [|m members Hd _ IH]; intros fs Hall; [by apply Forall2_nil_inv_r in Hall as -> |].
    apply Forall2_cons_inv_r in Hall as (f & fs' & (fn & x & Hfn & Hp & Hx) & Hfs & ->).
    constructor; [| by apply IH]. exists fn, x. split_and!; [done | by eapply dataProperty_grows | by apply Hd].
  - inversion IH as [|? ? _ IH']; subst. inversion IH' as [|? ? Hd' _]; subst.
    eapply desc_variant; [done.. | by eapply recordIdentity_grows | done | by apply Hd'].
Qed.

Lemma fields_distinct node :
  node_ok net node = true -> has_kind node "record" || has_kind node "error" = true ->
  NoDup (f_name <$> node_fields node) /\ forallb (field_ok net) (node_fields node) = true.
Proof.
  unfold node_ok. intros Hok Hrec. rewrite !(record_not node) in Hok by (done || tauto).
  split_bools. done.
Qed.

Lemma describes_distinct h d :
  graph_ok net -> forall node v, node_ok net node = true -> describes h node v d -> distinct_members d.
Proof.
  intros Hg. induction d as [|b|t|s|items IH|members IH] using doc_induction; intros node v Hok H; inversion H; subst; try done.
  - cbn. match goal with Hall : Forall2 _ _ _, He : net !! _ = Some en |- _ => revert Hall; apply Hg in He; revert He end.
    clear -IH. intros Hen. revert vs. induction IH as [|d items Hd _ IH]; intros vs Hall; [done |].
    apply Forall2_cons_inv_r in Hall as (v' & vs' & Hv & Hvs & ->). split; [by eapply Hd | by eapply IH].
  - cbn. split.
    + match goal with Hn : members.*1 = _ |- _ => rewrite Hn end. by apply fields_distinct.
    + match goal with Hall : Forall2 _ _ _ |- _ => revert Hall end. clear -IH Hg. generalize (node_fields node) as fs.
      induction IH as [|m members Hd _ IH]; intros fs Hall; [done |].
      apply Forall2_cons_inv_r in Hall as (f & fs' & (fn & x & Hfn & Hp & Hx) & Hfs & ->).
      split; [eapply Hd; [by eapply Hg | done] | by eapply IH].
  - inversion IH as [|? ? _ IH']; subst. inversion IH' as [|? ? Hd' _]; subst. cbn. split_and!; try done.
    + apply NoDup_cons. split; [| apply NoDup_singleton]. by intros ?%list_elem_of_singleton.
    + eapply Hd'; [by eapply Hg | done].
Qed.

(** ** Sizes of the parts *)

Lemma doc_size_nonneg d : 0 <= doc_size d.
Proof. unfold doc_size, byte_size. lia. Qed.

Lemma items_size items :
  doc_ok (DArray items) = true -> foldr (fun d n => doc_size d + n) 0 items <= doc_size (DArray items).
Proof. intros Hok. rewrite array_size by done. unfold array_cost. lia. Qed.

Lemma members_size members :
  doc_ok (DObject members) = true -> foldr (fun m n => doc_size m.2 + n) 0 members <= doc_size (DObject members).
Proof.
  intros Hok. rewrite object_size by done. unfold members_cost.
  enough (foldr (fun m n => doc_size m.2 + n) 0 members
    <= foldr (fun m n => byte_size (json_quote m.1) + doc_size m.2 + n) 0 members) by lia.
  clear. induction members as [|m members IH]; cbn; [lia |].
  assert (0 <= byte_size (json_quote m.1)) by (unfold byte_size; lia). lia.
Qed.

(** ** Lookups *)

Lemma get_known id node : net !! id = Some node -> get net (Some id) = Coded node.
Proof. unfold get. by intros ->. Qed.

Lemma last_member_in (ms : list (jstr * doc)) k d : NoDup ms.*1 -> (k, d) ∈ ms -> last_member ms k = Some d.
Proof.
  intros Hnd Hin. unfold last_member.
  assert (NoDup (reverse ms).*1) as Hnd'.
  { rewrite fmap_reverse. by rewrite reverse_Permutation. }
  apply elem_of_reverse in Hin. revert Hnd' Hin. generalize (reverse ms) as l. clear.
  induction l as [|[k' d'] l IH]; intros Hnd Hin; [by apply elem_of_nil in Hin |].
  rewrite fmap_cons, NoDup_cons in Hnd. cbn. apply elem_of_cons in Hin as [[= -> ->]|Hin].
  - by rewrite bool_decide_true.
  - rewrite bool_decide_false; [by apply (IH (proj2 Hnd)) |]. cbn. intros ->. apply (proj1 Hnd), list_elem_of_fmap. by exists (k, d).
Qed.

Lemma member_value_in ms k d path : NoDup ms.*1 -> (k, d) ∈ ms -> member_value ms k path = Coded d.
Proof. intros Hnd Hin. unfold member_value. by rewrite (last_member_in _ _ _ Hnd Hin). Qed.

Lemma extras_none own names path : (forall k, k ∈ own -> k ∈ names) -> extras own names path = Coded tt.
Proof.
  intros H. unfold extras. assert (filter (fun k => k ∉ names) own = []) as ->; [| done].
  induction own as [|k own IH]; [done |]. rewrite filter_cons_False.
  - apply IH. intros k' Hk'. apply H. by right.
  - intros Hk. apply Hk, H. by left.
Qed.

Lemma leaves_found ids :
  forallb (nominal_leaf net) ids = true ->
  exists ls, map_coded (fun id => get net (Some id)) ids = Coded ls /\ leaf_names net ids = name <$> ls
    /\ (forall id leaf, id ∈ ids -> net !! id = Some leaf -> leaf ∈ ls)
    /\ (forall leaf, leaf ∈ ls -> exists id, id ∈ ids /\ net !! id = Some leaf).
Proof.
  induction ids as [|id ids IH]; intros Hk.
  { exists []. split_and!; [done.. | by intros ? ? ?%elem_of_nil | by intros ? ?%elem_of_nil]. }
  cbn [forallb] in Hk. apply andb_true_iff in Hk as [Hleaf Hk].
  unfold nominal_leaf in Hleaf. destruct (net !! id) as [node|] eqn:Hid; [| done].
  destruct (IH Hk) as (ls & Hls & Hn & Hin & Hback). exists (node :: ls). cbn [map_coded].
  rewrite (get_known _ _ Hid), Hls. split_and!; [done | | |].
  - unfold leaf_names in *. cbn. by rewrite Hid, <- Hn.
  - intros id' leaf [->|Hid']%elem_of_cons Hl; [| right; by eapply Hin].
    assert (leaf = node) as -> by congruence. by left.
  - intros leaf [->|Hl]%elem_of_cons; [exists id; split; [by left | done] |].
    destruct (Hback _ Hl) as (id' & ? & ?). exists id'. split; [by right | done].
Qed.

Lemma find_named ls leaf :
  NoDup (name <$> ls) -> leaf ∈ ls -> find (fun l => bool_decide (name l = name leaf)) ls = Some leaf.
Proof.
  induction ls as [|l ls IH]; intros Hnd Hin; [by apply elem_of_nil in Hin |].
  rewrite fmap_cons, NoDup_cons in Hnd. cbn. apply elem_of_cons in Hin as [->|Hin]; [by rewrite bool_decide_true |].
  rewrite bool_decide_false; [by apply (IH (proj2 Hnd)) |]. intros He. apply (proj1 Hnd). rewrite He. by apply list_elem_of_fmap_2.
Qed.

Lemma variant_ok node :
  node_ok net node = true -> has_kind node "variant" = true ->
  exists ids, leaves node = Some ids /\ forallb (nominal_leaf net) ids = true /\ NoDup (leaf_names net ids).
Proof.
  unfold node_ok. intros Hok Hk. rewrite (kind_other _ _ "primitive" Hk), Hk in Hok by done.
  destruct (leaves node) as [ids|]; [| done]. apply andb_true_iff in Hok as [? ?%bool_decide_eq_true]. eauto.
Qed.

Lemma find_leaf_named node ids id leaf :
  node_ok net node = true -> has_kind node "variant" = true ->
  leaves node = Some ids -> id ∈ ids -> net !! id = Some leaf ->
  find_leaf net node (fun l => bool_decide (name l = name leaf)) = Coded (Some leaf).
Proof.
  intros Hok Hk Hl Hin Hleaf. destruct (variant_ok node Hok Hk) as (ids' & Hl' & Hkn & Hnd).
  assert (ids' = ids) as -> by congruence. destruct (leaves_found ids Hkn) as (ls & Hls & Hn & Hfwd & _).
  unfold find_leaf. rewrite Hl, Hls. cbn [coded_bind]. rewrite Hn in Hnd. f_equal.
  apply find_named; [done | by eapply Hfwd].
Qed.

(** ** Decoding a description *)

(** What decoding costs: at most the document's size, exactly its values. *)
Definition spent (b b' : Budget) (size count : Z) : Prop :=
  bytes b' = bytes b /\ remaining b - size <= remaining b' <= remaining b /\ nodes b' = nodes b + count.

Lemma spent_trans b1 b2 b3 s1 s2 n1 n2 : spent b1 b2 s1 n1 -> spent b2 b3 s2 n2 -> spent b1 b3 (s1 + s2) (n1 + n2).
Proof. unfold spent. lia. Qed.

(** The budget has room for a document of this size, count and depth. *)
Definition room (b : Budget) (dep size count depth : Z) : Prop :=
  0 <= remaining b - size /\ remaining b <= bytes b <= 67108864 /\ 0 <= nodes b /\ nodes b + count <= maxNodes /\ dep + depth <= maxDepth.

Lemma room_ok b dep size count k : 0 <= size -> 0 <= count -> room b dep size count k -> budget_ok b.
Proof. unfold room, budget_ok. lia. Qed.

Lemma visit_room b dep path :
  dep <= maxDepth -> nodes b + 1 <= maxNodes ->
  Codec.visit b dep path = Coded (mkBudget (bytes b) (remaining b) (nodes b + 1)).
Proof.
  intros Hd Hn. unfold Codec.visit. destruct (Z.ltb_spec maxDepth dep); [lia |].
  destruct (Z.ltb_spec maxNodes (nodes b + 1)); [lia | done].
Qed.

Definition decoded (node : SchemaNode) (d : doc) (b : Budget) (hd : heap) (r : coded (value * (Budget * heap))) : Prop :=
  exists v b' hd', r = Coded (v, (b', hd')) /\ spent b b' (doc_size d) (doc_nodes d)
    /\ heap_ok hd' /\ extends hd hd' /\ describes hd' node v d.

Definition decodes (h : heap) (d : doc) : Prop :=
  forall node v fuel path dep b hd,
  node_ok net node = true -> describes h node v d -> doc_depth d < Z.of_nat fuel -> heap_ok hd ->
  room b dep (doc_size d) (doc_nodes d) (doc_depth d) ->
  decoded node d b hd (project_visit net fuel node d path dep (b, hd)).

Lemma decode_primitive h node v d path b hd :
  has_kind node "primitive" = true -> describes h node v d -> heap_ok hd -> budget_ok b -> doc_size d <= remaining b ->
  exists v' b', project_primitive node d path (b, hd) = Coded (v', (b', hd))
    /\ spent b b' (doc_size d) 0 /\ describes hd node v' d.
Proof.
  intros Hk Hd Hh Hb Hsize. assert (forall k, js k <> js "primitive" -> has_kind node k = false) as Hother.
  { intros k Hne. eapply kind_other; [done | congruence]. }
  assert (spent b b (doc_size d) 0) as Hsame by (pose proof (doc_size_nonneg d); unfold spent; lia).
  inversion Hd as [? s _ Hn [Hu Hw]|? x _ Hn|? z _ Hn|? x t _ Hn Hfin Ht Hx|? ? ? ? ? ? Hk'|? ? ? ? Hk'|? ? ? ? ? ? Hk']; subst;
    try (by rewrite Hother in Hk'); try (by rewrite !Hother in Hk'); unfold project_primitive;
    assert (forall n n', has_name node n = true -> js n <> js n' -> has_name node n' = false) as Hname
      by (intros n n' H%bool_decide_eq_true Hne; apply bool_decide_eq_false; congruence).
  - rewrite Hn, scalar_well_formed by done. exists (VStr s), b. split_and!; [done.. |]. by constructor.
  - rewrite (Hname "bool" "str"), Hn by done. exists (VBool x), b. split_and!; [done.. |]. by constructor.
  - rewrite (Hname "int" "str"), (Hname "int" "bool"), (Hname "int" "float"), Hn by done. cbn [exactInt fst].
    assert (doc_size (DNumber (dec_of_Z z)) = len (dec_of_Z z)) as Hlen.
    { apply ascii_size, number_ascii, int_token. }
    rewrite Hlen in *. pose proof Hb as (Hr & _).
    pose proof (decodeInteger_spec (dec_of_Z z) _ b path Hb (numeric_token_text z) ltac:(lia)) as Hs.
    pose proof (denotes_integer_parts z) as Hz.
    destruct (decodeInteger (dec_of_Z z) b path) as [[z' b']|q r|]; [| destruct r; try done | done].
    + destruct Hs as (Hz' & -> & Hle). rewrite (denotes_unique _ _ _ Hz' Hz) in *.
      exists (VBigInt z), (charged b (dec_of_Z z)). split_and!; [done | | by constructor].
      unfold spent, charged, len. cbn. lia.
    + destruct Hs as [_ Hs]. by destruct (Hs z).
    + destruct Hs as (_ & z' & Hz' & Hlt). rewrite (denotes_unique _ _ _ Hz' Hz) in Hlt. lia.
  - rewrite (Hname "float" "str"), (Hname "float" "bool"), Hn, Hfin by done.
    exists (VNum (number_of_token t)), b. split_and!; [done.. |]. by constructor.
Qed.

Lemma decode_items h items :
  Forall (decodes h) items -> forall e en vs fuel i path dep b hd,
  net !! e = Some en -> node_ok net en = true -> Forall2 (describes h en) vs items ->
  foldr (fun d n => Z.max (doc_depth d) n) 0 items < Z.of_nat fuel -> heap_ok hd ->
  room b dep (foldr (fun d n => doc_size d + n) 0 items) (foldr (fun d n => doc_nodes d + n) 0 items)
    (foldr (fun d n => Z.max (doc_depth d) n) 0 items) ->
  exists vs' b' hd', project_items net (project_visit net fuel) (Some e) items i path dep (b, hd) = Coded (vs', (b', hd'))
    /\ spent b b' (foldr (fun d n => doc_size d + n) 0 items) (foldr (fun d n => doc_nodes d + n) 0 items)
    /\ heap_ok hd' /\ extends hd hd' /\ Forall2 (describes hd' en) vs' items.
Proof.
  induction 1 as [|d items Hd _ IH]; intros e en vs fuel i path dep b hd Hen Hok Hall Hfuel Hh Hroom.
  { exists [], b, hd. split_and!; [done | unfold spent; cbn; lia | done | done | constructor]. }
  apply Forall2_cons_inv_r in Hall as (v & vs' & Hv & Hvs & ->). cbn [foldr project_items] in *.
  rewrite (get_known _ _ Hen). cbn [coded_bind].
  pose proof (doc_size_nonneg d). pose proof (doc_nodes_pos d). pose proof (sum_nodes_nonneg items).
  assert (0 <= foldr (fun d n => doc_size d + n) 0 items) as Hs0.
  { clear. induction items as [|d items IH]; cbn; [lia |]. pose proof (doc_size_nonneg d). lia. }
  destruct (Hd en v fuel (indexPath path i) dep b hd Hok Hv) as (v' & b1 & hd1 & -> & Hsp & Hh1 & Hext & Hdesc);
    [lia | done | unfold room in *; lia |]. cbn [coded_bind].
  destruct (IH e en vs' fuel (S i) path dep b1 hd1) as (vs1 & b2 & hd2 & -> & Hsp2 & Hh2 & Hext2 & Hall2);
    [done | done | done | lia | done | unfold room, spent in *; lia |]. cbn [coded_bind].
  exists (v' :: vs1), b2, hd2. split_and!; [done | by eapply spent_trans | done | by etrans |].
  constructor; [by eapply describes_grows | done].
Qed.

Definition described_field (hp : heap) (read : SchemaField -> value -> Prop) (f : SchemaField) (m : jstr * doc) : Prop :=
  exists fn x, net !! f_type f = Some fn /\ read f x /\ describes hp fn x m.2.

Lemma decode_fields h (read : SchemaField -> value -> Prop) members :
  Forall (fun m => decodes h m.2) members -> forall fs ms fuel path dep b hd,
  Forall2 (described_field h read) fs members -> graph_ok net -> members.*1 = f_name <$> fs ->
  NoDup ms.*1 -> (forall m, m ∈ members -> m ∈ ms) ->
  foldr (fun m n => Z.max (doc_depth m.2) n) 0 members < Z.of_nat fuel -> heap_ok hd ->
  room b dep (foldr (fun m n => doc_size m.2 + n) 0 members) (foldr (fun m n => doc_nodes m.2 + n) 0 members)
    (foldr (fun m n => Z.max (doc_depth m.2) n) 0 members) ->
  exists entries b' hd', project_fields net (project_visit net fuel) fs ms path dep (b, hd) = Coded (entries, (b', hd'))
    /\ spent b b' (foldr (fun m n => doc_size m.2 + n) 0 members) (foldr (fun m n => doc_nodes m.2 + n) 0 members)
    /\ heap_ok hd' /\ extends hd hd' /\ entries.*1 = f_name <$> fs
    /\ Forall2 (described_field hd' (fun f x => (f_name f, x) ∈ entries)) fs members.
Proof.
  induction 1 as [|[k d] members Hd _ IH]; intros fs ms fuel path dep b hd Hall Hg Hnames Hnd Hin Hfuel Hh Hroom.
  { apply Forall2_nil_inv_r in Hall as ->. exists [], b, hd.
    split_and!; [done | unfold spent; cbn; lia | done | done | done | constructor]. }
  apply Forall2_cons_inv_r in Hall as (f & fs' & (fn & x & Hfn & _ & Hx) & Hfs & ->). cbn [foldr project_fields snd] in *.
  rewrite !fmap_cons in Hnames. cbn [fst] in Hnames. injection Hnames as -> Hnames.
  rewrite (get_known _ _ Hfn). cbn [coded_bind]. rewrite (member_value_in ms (f_name f) d) by (done || apply Hin; by left).
  cbn [coded_bind]. pose proof (doc_size_nonneg d). pose proof (doc_nodes_pos d). pose proof (sum_member_nodes_nonneg members).
  assert (0 <= foldr (fun (m : jstr * doc) n => doc_size m.2 + n) 0 members) as Hs0.
  { clear. induction members as [|m members IH]; cbn; [lia |]. pose proof (doc_size_nonneg m.2). lia. }
  destruct (Hd fn x fuel (childPath path (f_name f)) dep b hd (Hg _ _ Hfn) Hx) as (v & b1 & hd1 & -> & Hsp & Hh1 & Hext & Hdesc);
    [cbn [snd]; lia | done | unfold room in *; cbn [snd]; lia |]. cbn [coded_bind].
  destruct (IH fs' ms fuel path dep b1 hd1) as (entries & b2 & hd2 & -> & Hsp2 & Hh2 & Hext2 & Hkeys & Hall2);
    [done | done | done | done | intros m Hm; apply Hin; by right | lia | done | unfold room, spent in *; cbn [snd] in *; lia |].
  cbn [coded_bind]. exists ((f_name f, v) :: entries), b2, hd2.
  split_and!; [done | by eapply spent_trans | done | by etrans | by rewrite !fmap_cons, Hkeys |].
  constructor.
  - exists fn, v. split_and!; [done | by left | by eapply describes_grows].
  - eapply Forall2_impl; [exact Hall2 |]. intros f' m' (fn' & x' & ? & Hin' & ?). exists fn', x'.
    split_and!; [done | by right | done].
Qed.

Lemma string_keys_built names : string_keys (nominal :: (KStr <$> names)) = names.
Proof. unfold string_keys. cbn. induction names as [|n names IH]; [done |]. cbn. by rewrite IH. Qed.

Lemma decode_record h node v ms fuel path dep b hd :
  Forall (fun m => decodes h m.2) ms -> graph_ok net -> node_ok net node = true ->
  has_kind node "record" || has_kind node "error" = true ->
  describes h node v (DObject ms) -> doc_depth (DObject ms) < Z.of_nat (S fuel) -> heap_ok hd ->
  room b dep (doc_size (DObject ms)) (doc_nodes (DObject ms)) (doc_depth (DObject ms)) ->
  decoded node (DObject ms) b hd (project_visit net (S fuel) node (DObject ms) path dep (b, hd)).
Proof.
  intros IH Hg Hok Hk Hdesc Hfuel Hh Hroom. pose proof (describes_doc_ok _ _ _ _ Hdesc) as Hdoc.
  inversion Hdesc as [| | | | |? ? ks ? _ Hid Hks Hsame Hnames Htext Hall|? ? ? ? ? ? Hkv]; subst.
  2:{ rewrite (record_not node "variant") in Hkv by (done || tauto). done. }
  destruct (fields_distinct node Hok Hk) as [Hnd _]. pose proof (members_size ms Hdoc) as Hsz.
  pose proof (doc_size_nonneg (DObject ms)). cbn [doc_nodes doc_depth] in *.
  pose proof (sum_member_nodes_nonneg ms) as Hn0. pose proof (max_depth_nonneg (fun m : jstr * doc => doc_depth m.2) ms) as Hd0.
  cbn [project_visit fst snd]. rewrite !(record_not node) by (done || tauto). cbn [negb].
  rewrite visit_room by (unfold room in *; lia). cbn [coded_bind fst snd]. rewrite Hk. cbn [negb].
  destruct (decode_fields h (fun f x => dataProperty h v (KStr (f_name f)) = Ret x) ms IH (node_fields node) ms fuel path (dep + 1)
    (mkBudget (bytes b) (remaining b) (nodes b + 1)) hd) as (entries & b1 & hd1 & -> & Hsp & Hh1 & Hext & Hkeys & Hfs);
    [done | done | done | by rewrite Hnames | done | lia | done | unfold room in *; cbn [bytes remaining nodes]; lia |].
  cbn [coded_bind fst snd]. unfold own_names. rewrite extras_none; cycle 1.
  { intros k. by rewrite elem_of_remove_dups, Hnames. }
  cbn [coded_bind].
  destruct (record_reads hd1 (identity node) entries) as (v' & hd2 & -> & _ & Hid' & Hks' & Hprops & Hgrow); [by rewrite Hkeys |].
  destruct (Hgrow Hh1) as [Hh2 Hext2]. exists v', b1, hd2.
  split_and!; [done | unfold spent in *; cbn [bytes remaining nodes doc_nodes] in *; lia | done | by etrans |].
  eapply desc_record; [done | done | exact Hks' | | done | done |].
  - intros k. by rewrite string_keys_built, Hkeys.
  - eapply Forall2_impl; [exact Hfs |]. intros f m (fn & x & Hfn & Hin & Hx). exists fn, x.
    split_and!; [done | by apply Hprops | by eapply describes_grows].
Qed.

Lemma nominal_identity hp leaf v d :
  has_kind leaf "record" || has_kind leaf "error" = true -> describes hp leaf v d ->
  recordIdentity hp v = Some (identity leaf).
Proof.
  intros Hk H. inversion H as [? ? Hk'|? ? Hk'|? ? Hk'|? ? ? Hk'|? ? ? ? ? ? Hk'|? ? ? ? _ Hid|? ? ? ? ? ? Hk']; subst;
    try (rewrite (record_not leaf) in Hk' by (done || tauto); done). done.
Qed.

Lemma variant_leaf node ids id leaf :
  node_ok net node = true -> has_kind node "variant" = true -> leaves node = Some ids -> id ∈ ids ->
  net !! id = Some leaf -> has_kind leaf "record" || has_kind leaf "error" = true.
Proof.
  intros Hok Hk Hl Hin Hleaf. destruct (variant_ok node Hok Hk) as (ids' & Hl' & Hkn & _).
  assert (ids' = ids) as -> by congruence. rewrite forallb_forall in Hkn.
  specialize (Hkn id (proj1 (list_elem_of_In _ _) Hin)). unfold nominal_leaf in Hkn. by rewrite Hleaf in Hkn.
Qed.

Lemma decode_variant h node v ms fuel path dep b hd :
  Forall (fun m => decodes h m.2) ms -> graph_ok net -> node_ok net node = true ->
  has_kind node "variant" = true ->
  describes h node v (DObject ms) -> doc_depth (DObject ms) < Z.of_nat (S fuel) -> heap_ok hd ->
  room b dep (doc_size (DObject ms)) (doc_nodes (DObject ms)) (doc_depth (DObject ms)) ->
  decoded node (DObject ms) b hd (project_visit net (S fuel) node (DObject ms) path dep (b, hd)).
Proof.
  intros IH Hg Hok Hk Hdesc Hfuel Hh Hroom. pose proof (describes_doc_ok _ _ _ _ Hdesc) as Hdoc.
  inversion Hdesc as [| | | | |? ? ks ? Hkr| ? ids id leaf ? d _ Hl Hin Hleaf Hid [Hu Hw] Hd]; subst.
  { rewrite (record_not node "variant") in Hk by (done || tauto). done. }
  inversion IH as [|? ? _ IH']; subst. inversion IH' as [|? ? Hdec _]; subst. cbn [snd] in Hdec.
  pose proof (members_size _ Hdoc) as Hsz. cbn [foldr snd doc_nodes doc_depth] in *.
  pose proof (doc_size_nonneg d). pose proof (doc_nodes_pos d). pose proof (doc_depth_nonneg d).
  pose proof (doc_size_nonneg (DString (name leaf))).
  cbn [project_visit fst snd]. rewrite (kind_other _ _ "primitive" Hk), (kind_other _ _ "array" Hk) by done.
  cbn [negb]. rewrite visit_room by (unfold room in *; lia). cbn [coded_bind fst snd]. rewrite Hk.
  rewrite (member_value_in _ _ (DString (name leaf))); cycle 1.
  { apply NoDup_cons. split; [by intros ?%list_elem_of_singleton | apply NoDup_singleton]. }
  { by left. }
  cbn [coded_bind]. rewrite visit_room by (cbn [nodes]; unfold room in *; lia). cbn [coded_bind bytes remaining nodes].
  rewrite scalar_well_formed by done. cbn [coded_bind].
  rewrite (find_leaf_named node ids id leaf) by done. cbn [coded_bind].
  rewrite (member_value_in _ _ d); cycle 1.
  { apply NoDup_cons. split; [by intros ?%list_elem_of_singleton | apply NoDup_singleton]. }
  { right. by left. }
  cbn [coded_bind].
  destruct (Hdec leaf v fuel (childPath path (js "value")) (dep + 1) (mkBudget (bytes b) (remaining b) (nodes b + 1 + 1)) hd
    (Hg _ _ Hleaf) Hd) as (v' & b1 & hd1 & -> & Hsp & Hh1 & Hext & Hdesc');
    [lia | done | unfold room in *; cbn [bytes remaining nodes]; lia |].
  cbn [coded_bind]. rewrite extras_none; cycle 1.
  { intros k. unfold own_names. rewrite elem_of_remove_dups. done. }
  exists v', b1, hd1. split_and!; [done | unfold spent in *; cbn [bytes remaining nodes doc_nodes foldr snd] in *; lia | done | done |].
  eapply desc_variant; [done.. | | done | done].
  apply (nominal_identity hd1 leaf v' d); [| done]. apply (variant_leaf node ids id leaf); done.
Qed.

Lemma decode_leaf h node v d fuel path dep b hd :
  has_kind node "primitive" = true -> describes h node v d -> doc_nodes d = 1 -> heap_ok hd ->
  room b dep (doc_size d) 1 0 -> decoded node d b hd (project_visit net (S fuel) node d path dep (b, hd)).
Proof.
  intros Hk Hdesc Hn Hh Hroom. cbn [project_visit fst snd]. rewrite Hk. cbn [negb]. pose proof (doc_size_nonneg d).
  rewrite visit_room by (unfold room in *; lia). cbn [coded_bind fst snd].
  destruct (decode_primitive h node v d path (mkBudget (bytes b) (remaining b) (nodes b + 1)) hd) as (v' & b' & -> & Hsp & Hd);
    [done | done | done | unfold room, budget_ok in *; cbn; lia | unfold room in *; cbn; lia |].
  exists v', b', hd. split_and!; [done | unfold spent in *; cbn in Hsp; lia | done | done | done].
Qed.

Lemma decode_array h node v items fuel path dep b hd :
  Forall (decodes h) items -> graph_ok net -> describes h node v (DArray items) ->
  doc_depth (DArray items) < Z.of_nat (S fuel) -> heap_ok hd ->
  room b dep (doc_size (DArray items)) (doc_nodes (DArray items)) (doc_depth (DArray items)) ->
  decoded node (DArray items) b hd (project_visit net (S fuel) node (DArray items) path dep (b, hd)).
Proof.
  intros IH Hg Hdesc Hfuel Hh Hroom. pose proof (describes_doc_ok _ _ _ _ Hdesc) as Hdoc.
  inversion Hdesc as [| | | |? e en ? vs ? Hk He Hen Hvs Hall| |]; subst.
  pose proof (items_size items Hdoc) as Hsz. pose proof (doc_size_nonneg (DArray items)).
  cbn [doc_nodes doc_depth] in *. pose proof (sum_nodes_nonneg items) as Hn0.
  pose proof (max_depth_nonneg doc_depth items) as Hd0.
  cbn [project_visit fst snd]. rewrite (kind_other _ _ "primitive" Hk) by done. cbn [negb].
  rewrite visit_room by (unfold room in *; lia). cbn [coded_bind fst snd]. rewrite Hk, He.
  destruct (decode_items h items IH e en vs fuel 0 path (dep + 1) (mkBudget (bytes b) (remaining b) (nodes b + 1)) hd)
    as (vs' & b1 & hd1 & -> & Hsp & Hh1 & Hext & Hall');
    [done | by eapply Hg | done | lia | done | unfold room in *; cbn [bytes remaining nodes]; lia |].
  cbn [coded_bind fst snd]. destruct (array hd1 vs') as [v' hd2] eqn:Harr.
  assert (Z.of_nat (length vs') <= MAX_SAFE) as Hlen.
  { rewrite (Forall2_length _ _ _ Hall'). assert (Z.of_nat (length items) <= foldr (fun d n => doc_nodes d + n) 0 items) as Hl.
    { clear. induction items as [|d items IH]; cbn; [lia |]. pose proof (doc_nodes_pos d). lia. }
    unfold room, maxNodes, MAX_SAFE in *. lia. }
  pose proof (array_reads hd1 vs' Hlen) as Hreads. rewrite Harr in Hreads. cbn [fst snd] in Hreads.
  assert (heap_ok hd2 /\ extends hd1 hd2) as [Hh2 Hext2].
  { pose proof (array_grows hd1 vs' Hh1) as Hg'. by rewrite Harr in Hg'. }
  exists v', b1, hd2. split_and!; [done | unfold spent in *; cbn [bytes remaining nodes doc_nodes] in *; lia | done | by etrans |].
  eapply desc_array; [done.. |]. eapply Forall2_impl; [exact Hall' |]. intros x d Hx. by eapply describes_grows.
Qed.

Lemma decodes_all h d : graph_ok net -> decodes h d.
Proof.
  intros Hg. induction d as [|x|t|s|items IH|members IH] using doc_induction;
    intros node v [|fuel] path dep b hd Hok Hdesc Hfuel Hh Hroom;
    try (match type of Hfuel with doc_depth ?d < _ => pose proof (doc_depth_nonneg d) end; cbn [Z.of_nat] in Hfuel; lia).
  1-4: inversion Hdesc; subst; by eapply decode_leaf.
  - by eapply decode_array.
  - inversion Hdesc; subst; [by eapply decode_record | by eapply decode_variant].
Qed.
End describes.
