(* ===== verification/JsonEncodeTheorems.v ===== *)
(** * The JSON codec: what the encoder writes

    A preflight that succeeds has charged, to the byte, the document that the
    formatter then writes, and that document describes the value. *)
From stdpp Require Import base gmap list strings.
From Stdlib Require Import ZArith Lia SpecFloat.
From S2P Require Import Prelude JsNumber JsString Unicode Numbers Digits Json Data DataFacts.
From S2P Require Import Codec CodecTheorems Scan JsonCodec JsonCodecTheorems.

(** ** Charges *)

(** Exactly [size] bytes and [count] values. *)
Definition costs (b b' : Budget) (size count : Z) : Prop :=
  bytes b' = bytes b /\ remaining b' = remaining b - size /\ nodes b' = nodes b + count
  /\ (0 <= remaining b -> 0 <= remaining b') /\ (nodes b <= maxNodes -> nodes b' <= maxNodes).

Lemma costs_trans b1 b2 b3 s1 s2 n1 n2 : costs b1 b2 s1 n1 -> costs b2 b3 s2 n2 -> costs b1 b3 (s1 + s2) (n1 + n2).
Proof. unfold costs. intuition lia. Qed.

Lemma charge_costs b size path b' : charge b size path = Coded b' -> costs b b' size 0.
Proof.
  unfold charge. destruct (negb (is_safe size) || (size <? 0)); [done |].
  destruct (Z.ltb_spec (remaining b) size); [done |]. intros [= <-]. unfold costs. cbn. lia.
Qed.

Lemma visit_costs b dep path b' : Codec.visit b dep path = Coded b' -> dep <= maxDepth /\ costs b b' 0 1.
Proof.
  unfold Codec.visit. destruct (Z.ltb_spec maxDepth dep); [done |].
  destruct (Z.ltb_spec maxNodes (nodes b + 1)); [done |]. intros [= <-]. unfold costs. cbn. lia.
Qed.

Lemma textCost_costs b s path b' :
  textCost b s path = Coded b' -> text_ok s /\ costs b b' (byte_size (json_quote s)) 0.
Proof.
  unfold textCost. destruct (remaining b <? len s); [done |]. intros (u & Hu & H)%coded_bind_ok.
  split; [by eapply scalar_ok | by eapply charge_costs].
Qed.

Definition names_size (names : list jstr) : Z := foldr (fun k n => byte_size (json_quote k) + n) 0 names.

Lemma text_costs_costs names : forall b path b',
  text_costs b names path = Coded b' -> Forall text_ok names /\ costs b b' (names_size names) 0.
Proof.
  induction names as [|k names IH]; intros b path b'; cbn [text_costs].
  - intros [= <-]. split; [done |]. unfold costs, names_size. cbn. lia.
  - intros (b1 & H1 & H)%coded_bind_ok. apply textCost_costs in H1 as [Hk H1]. apply IH in H as [Hn H].
    split; [by constructor |]. exact (costs_trans _ _ _ _ _ _ _ H1 H).
Qed.

Lemma key_costs_costs b names path b' :
  key_costs b names path = Coded b' ->
  Forall text_ok names /\ costs b b' (members_cost (Z.of_nat (length names)) + names_size names) 0.
Proof.
  unfold key_costs. intros (b1 & H1%charge_costs & H)%coded_bind_ok. apply text_costs_costs in H as [Hn H].
  split; [done |]. exact (costs_trans _ _ _ _ _ _ _ H1 H).
Qed.

(** ** Reads of an array *)

Lemma map_res_nth {A B} (f : A -> res B) l l' :
  map_res f l = Ret l' -> forall i x, l' !! i = Some x -> exists a, l !! i = Some a /\ f a = Ret x.
Proof.
  revert l'. induction l as [|a l IH]; intros l'; cbn; [by intros [= <-] |].
  intros (b & Hb & (bs & Hbs & [= <-])%res_bind_ret)%res_bind_ret [|i] x Hx; cbn in Hx.
  - injection Hx as ->. by exists a.
  - by apply (IH bs).
Qed.

Lemma map_res_len {A B} (f : A -> res B) l l' : map_res f l = Ret l' -> length l' = length l.
Proof.
  revert l'. induction l as [|a l IH]; intros l'; cbn; [by intros [= <-] |].
  intros (b & Hb & (bs & Hbs & [= <-])%res_bind_ret)%res_bind_ret. cbn. by rewrite (IH bs).
Qed.

Lemma dataArray_spec h v items :
  dataArray h v = Ret items ->
  exists len, dataProperty h v length_key = Ret len /\ array_length len = Some (length items)
    /\ forall i x, items !! i = Some x -> dataProperty h v (index_key i) = Ret x.
Proof.
  unfold dataArray. intros (o & Ho & H)%res_bind_ret. destruct (negb (is_array o)); [done |].
  apply res_bind_ret in H as (len & Hlen & H). destruct (array_length len) as [n|] eqn:Hn; [| done].
  destruct (negb _); [done |]. exists len. pose proof (map_res_len _ _ _ H) as Hl. rewrite length_seq in Hl.
  split_and!; [done | by rewrite Hl |]. intros i x Hx.
  destruct (map_res_nth _ _ _ H i x Hx) as (j & Hj & Hp). apply lookup_seq in Hj as [-> _]. done.
Qed.

Lemma find_prop_elem ps k d : find_prop ps k = Some d -> (k, d) ∈ ps.
Proof.
  induction ps as [|[k' d'] ps IH]; [done |]. rewrite find_prop_cons. cbn [fst snd].
  case_bool_decide as Hk; [intros [= ->]; subst; by left | intros H; right; by apply IH].
Qed.

Lemma dataProperty_elem h v k x :
  dataProperty h v k = Ret x -> exists l o, v = VRef l /\ objects h !! l = Some o /\ (k, DataProp x) ∈ props o.
Proof.
  unfold dataProperty. intros (o & Ho & H)%res_bind_ret. destruct v as [| | | | | |l]; try done. cbn in Ho.
  destruct (objects h !! l) as [o'|] eqn:Hl; [| done].
  destruct (is_function o' || is_proxy o'); [done |]. injection Ho as ->. exists l, o.
  destruct (find_prop (props o) k) as [[y|]|] eqn:Hp; try done. injection H as ->.
  by apply find_prop_elem in Hp.
Qed.

Lemma property_order_id (ms : list (jstr * doc)) :
  Forall (fun k => is_array_index k = false) ms.*1 -> property_order ms = ms.
Proof.
  intros H. unfold property_order.
  assert (filter (fun m => is_array_index m.1 = true) ms = [] /\ filter (fun m => is_array_index m.1 = false) ms = ms) as [-> ->]; [| done].
  induction ms as [|m ms IH]; [done |]. rewrite fmap_cons, Forall_cons in H. destruct H as [Hm H].
  destruct (IH H) as [IH1 IH2]. rewrite filter_cons_False by by rewrite Hm. rewrite filter_cons_True by done.
  by rewrite IH2.
Qed.

(** ** The preflight *)
Section encode.
Context (number_text : num -> jstr) (net : node_map) (h : heap).

(** The text of a float is a numeric token that reads back as the float, and as
    every string of the language its length is a safe integer. *)
Definition prints_back (x : num) : Prop :=
  number_token (float_text number_text x) = true /\ number_of_token (float_text number_text x) = x
  /\ len (float_text number_text x) <= MAX_SAFE.

Definition value_prints (v : value) : Prop := forall x, v = VNum x -> isFinite x = true -> prints_back x.

(** The floats that records and arrays of the heap hold (the [length] of an
    array is not one of its elements). *)
Definition heap_prints : Prop :=
  forall l o k x, objects h !! l = Some o -> (k, DataProp (VNum x)) ∈ props o ->
  (is_array o = true -> k <> length_key) -> isFinite x = true -> prints_back x.

Context (Hgraph : graph_ok net) (Hheap : heap_prints).

Definition integers_ok (integers : gmap Z jstr) : Prop := forall z t, integers !! z = Some t -> t = dec_of_Z z.

Abbreviation charges := (Budget * gmap Z jstr)%type.

(** What a successful visit of [d]'s value has done. *)
Definition grown (c c' : charges) (size count : Z) : Prop :=
  costs c.1 c'.1 size count /\ c.2 ⊆ c'.2 /\ (integers_ok c.2 -> integers_ok c'.2).

Lemma grown_trans c1 c2 c3 s1 s2 n1 n2 : grown c1 c2 s1 n1 -> grown c2 c3 s2 n2 -> grown c1 c3 (s1 + s2) (n1 + n2).
Proof.
  intros (H1 & H2 & H3) (H4 & H5 & H6). split_and!; [by eapply costs_trans | by etrans | tauto].
Qed.

Lemma grown_budget b b' ints s n : costs b b' s n -> grown (b, ints) (b', ints) s n.
Proof. by intros H. Qed.

Definition formatted (view_ : gmap Z jstr -> coded doc) (c' : charges) (d : doc) : Prop :=
  forall integers, c'.2 ⊆ integers -> integers_ok integers -> view_ integers = Coded d.

Definition visited (fuel : nat) (node : SchemaNode) (v : value) (dep : Z) (c c' : charges) : Prop :=
  exists d, grown c c' (doc_size d) (doc_nodes d) /\ dep + doc_depth d <= maxDepth
    /\ describes net h node v d
    /\ formatted (fun integers => view number_text net h fuel integers node v) c' d.

Lemma encode_primitive_spec node v path b ints c' :
  has_kind node "primitive" = true -> value_prints v -> integers_ok ints ->
  encode_primitive number_text node v path (b, ints) = Coded c' ->
  exists d, grown (b, ints) c' (doc_size d) 0 /\ doc_nodes d = 1 /\ doc_depth d = 0
    /\ describes net h node v d
    /\ formatted (fun integers => view_primitive number_text integers node v) c' d.
Proof.
  intros Hk Hprint Hints. unfold encode_primitive.
  destruct (has_name node "str") eqn:Hstr.
  { destruct v as [| | | | |s|]; try done. intros (b1 & Hb1 & [= <-])%coded_bind_ok.
    apply textCost_costs in Hb1 as [Ht Hb1]. exists (DString s).
    split_and!; [by apply grown_budget | done.. | by constructor | by intros integers]. }
  destruct (has_name node "bool") eqn:Hbool.
  { destruct v as [| |x| | | |]; try done. intros (b1 & Hb1 & [= <-])%coded_bind_ok.
    apply charge_costs in Hb1. exists (DBool x).
    assert (doc_size (DBool x) = if x then 4 else 5) as Hs by by destruct x.
    split_and!; [apply grown_budget; by rewrite Hs | done.. | by constructor | by intros integers]. }
  destruct (has_name node "int") eqn:Hint.
  { destruct v as [| | | |z| |]; try done. intros ([text b1] & Hb1 & [= <-])%coded_bind_ok.
    assert (text = dec_of_Z z /\ costs b b1 (len text) 0) as [-> Hc].
    { unfold encodeInteger in Hb1. destruct (_ <? 1); [done |]. destruct (negb _ && _); [done |].
      apply coded_bind_ok in Hb1 as (b2 & Hb2 & [= <- <-]). split; [done |]. by eapply charge_costs. }
    assert (integers_ok (<[z := dec_of_Z z]> ints)) as Hok'.
    { intros z' t [[<- <-]|[_ Ht]]%lookup_insert_Some; [done | by apply Hints]. }
    exists (DNumber (dec_of_Z z)).
    assert (doc_size (DNumber (dec_of_Z z)) = len (dec_of_Z z)) as -> by apply ascii_size, number_ascii, int_token.
    split_and!; [| done | done | by constructor |].
    - split_and!; [done | cbn [snd] | done]. destruct (ints !! z) as [t|] eqn:Hz.
      + rewrite insert_id; [done |]. by rewrite Hz, (Hints z t Hz).
      + by apply insert_subseteq.
    - intros integers Hsub _. unfold view_primitive. rewrite Hint. cbn [snd] in Hsub.
      rewrite (lookup_weaken _ integers z (dec_of_Z z) (lookup_insert_eq _ _ _) Hsub). done. }
  destruct (has_name node "float") eqn:Hfloat; [| done].
  destruct v as [| | |x| | |]; try done. destruct (isFinite x) eqn:Hfin; [| done].
  intros (b1 & Hb1 & [= <-])%coded_bind_ok. apply charge_costs in Hb1.
  destruct (Hprint x eq_refl Hfin) as (Ht & Hx & _). exists (DNumber (float_text number_text x)).
  assert (doc_size (DNumber (float_text number_text x)) = len (float_text number_text x)) as ->
    by by apply ascii_size, number_ascii.
  split_and!; [by apply grown_budget | done.. | by constructor |].
  intros integers _ _. unfold view_primitive. by rewrite Hfin.
Qed.

Definition visits (fuel : nat) : Prop :=
  forall active node v path dep c c', node_ok net node = true -> value_prints v -> integers_ok c.2 ->
  encode_visit number_text net h fuel active node v path dep c = Coded c' -> visited fuel node v dep c c'.

Lemma encode_items_spec fuel active e en path dep :
  visits fuel -> net !! e = Some en -> dep <= maxDepth -> forall items i c c' v,
  integers_ok c.2 -> (forall j x, items !! j = Some x -> dataProperty h v (index_key (i + j)) = Ret x /\ value_prints x) ->
  encode_items net (encode_visit number_text net h fuel active) (Some e) items i path dep c = Coded c' ->
  exists ds, grown c c' (foldr (fun d n => doc_size d + n) 0 ds) (foldr (fun d n => doc_nodes d + n) 0 ds)
    /\ dep + foldr (fun d n => Z.max (doc_depth d) n) 0 ds <= maxDepth
    /\ Forall2 (describes net h en) items ds
    /\ forall integers, c'.2 ⊆ integers -> integers_ok integers ->
       view_items net h (view number_text net h fuel integers) (Some e) v (length items) i = Coded ds.
Proof.
  intros Hvisits Hen Hdep. induction items as [|x items IH]; intros i c c' v Hints Hread; cbn [encode_items].
  { intros [= <-]. exists []. split_and!; [| cbn; lia | constructor | done].
    split_and!; [unfold costs; cbn; lia | done | done]. }
  rewrite (get_known _ _ _ Hen). cbn [coded_bind]. intros (c1 & H1 & H)%coded_bind_ok.
  destruct (Hread 0%nat x eq_refl) as [Hx Hpx]. rewrite Nat.add_0_r in Hx.
  apply Hvisits in H1 as (d & Hg1 & Hd1 & Hdesc & Hview); [| by eapply Hgraph | done | done].
  pose proof Hg1 as (_ & Hsub1 & Hok1).
  destruct (IH (S i) c1 c' v (Hok1 Hints)) as (ds & Hg & Hds & Hall & Hviews); [| done |].
  { intros j y Hy. rewrite Nat.add_succ_comm. by apply (Hread (S j)). }
  exists (d :: ds). split_and!; [by eapply grown_trans | cbn; lia | by constructor |].
  intros integers Hsub Hok. cbn [length view_items]. rewrite (get_known _ _ _ Hen). cbn [coded_bind].
  rewrite Hx. cbn [coded_bind]. rewrite Hview; [| | done].
  - cbn [coded_bind]. by rewrite Hviews.
  - etrans; [| exact Hsub]. by destruct Hg as (_ & ? & _).
Qed.

Lemma encode_fields_spec fuel active v ks path dep :
  visits fuel -> dep <= maxDepth -> (forall k x, dataProperty h v k = Ret x -> value_prints x) -> forall fs c c',
  forallb (field_ok net) fs = true -> integers_ok c.2 ->
  encode_fields net h (encode_visit number_text net h fuel active) fs v ks path dep c = Coded c' ->
  exists ms, grown c c' (foldr (fun m n => doc_size m.2 + n) 0 ms) (foldr (fun m n => doc_nodes m.2 + n) 0 ms)
    /\ dep + foldr (fun m n => Z.max (doc_depth m.2) n) 0 ms <= maxDepth
    /\ ms.*1 = f_name <$> fs /\ (forall f, f ∈ fs -> KStr (f_name f) ∈ ks)
    /\ Forall2 (fun f m => exists fn x,
         net !! f_type f = Some fn /\ dataProperty h v (KStr (f_name f)) = Ret x /\ describes net h fn x m.2) fs ms
    /\ forall integers, c'.2 ⊆ integers -> integers_ok integers ->
       view_fields net h (view number_text net h fuel integers) fs v = Coded ms.
Proof.
  intros Hvisits Hdep Hprint. induction fs as [|f fs IH]; intros c c' Hfs Hints; cbn [encode_fields].
  { intros [= <-]. exists []. split_and!; [| cbn; lia | done | by intros ? ?%elem_of_nil | constructor | done].
    split_and!; [unfold costs; cbn; lia | done | done]. }
  cbn [forallb] in Hfs. apply andb_true_iff in Hfs as [Hf Hfs].
  destruct (field_known net f Hf) as [fn Hfn].
  rewrite (get_known _ _ _ Hfn). cbn [coded_bind]. intros (x & Hx & (c1 & H1 & H)%coded_bind_ok)%coded_bind_ok.
  unfold required in Hx. case_bool_decide as Hin; [| done]. unfold checkedData in Hx.
  destruct (dataProperty h v (KStr (f_name f))) as [y|] eqn:Hp; [| done]. injection Hx as ->.
  apply Hvisits in H1 as (d & Hg1 & Hd1 & Hdesc & Hview); [| by eapply Hgraph | by eapply Hprint | done].
  pose proof Hg1 as (_ & Hsub1 & Hok1).
  destruct (IH c1 c' Hfs (Hok1 Hints) H) as (ms & Hg & Hds & Hnames & Hkeys & Hall & Hviews).
  exists ((f_name f, d) :: ms). split_and!; [by eapply grown_trans | cbn; lia | by rewrite !fmap_cons, Hnames | | |].
  - intros f' [->|Hf']%elem_of_cons; [done | by apply Hkeys].
  - constructor; [by exists fn, x | done].
  - intros integers Hsub Hok. cbn [view_fields]. rewrite (get_known _ _ _ Hfn). cbn [coded_bind].
    rewrite Hp. cbn [coded_bind]. rewrite Hview; [| | done].
    + cbn [coded_bind]. by rewrite Hviews.
    + etrans; [| exact Hsub]. by destruct Hg as (_ & ? & _).
Qed.

Lemma element_prints v k x :
  dataProperty h v k = Ret x -> (is_array_value h v = true -> k <> length_key) -> value_prints x.
Proof.
  intros Hp Hk y -> Hfin. apply dataProperty_elem in Hp as (l & o & -> & Ho & Hin).
  apply (Hheap l o k y Ho Hin); [| done]. intros Ha. apply Hk. unfold is_array_value. by rewrite Ho.
Qed.

Lemma visit_array fuel active node v l o path dep c c' :
  visits fuel -> node_ok net node = true -> has_kind node "array" = true ->
  integers_ok c.2 -> dep + 1 <= maxDepth ->
  (if negb (is_array o) then reject path type
   else
     let* length := checkedData (dataProperty h v length_key) path in
     match array_length length with
     | None => Fault "invalid codec charge"
     | Some n =>
         let* b := charge c.1 (array_cost (Z.of_nat n)) path in
         let* items := checkedData (dataArray h v) path in
         encode_items net (encode_visit number_text net h fuel ({[ l ]} ∪ active)) (element node) items 0 path (dep + 1) (b, c.2)
     end) = Coded c' ->
  exists ds, grown c c' (doc_size (DArray ds)) (doc_nodes (DArray ds) - 1) /\ dep + doc_depth (DArray ds) <= maxDepth
    /\ describes net h node v (DArray ds)
    /\ formatted (fun integers => view number_text net h (S fuel) integers node v) c' (DArray ds).
Proof.
  intros Hvisits Hok Hk Hints Hdep. destruct (is_array o) eqn:Ha; [cbn [negb] | done].
  intros (len & Hlen & H)%coded_bind_ok. unfold checkedData in Hlen.
  destruct (dataProperty h v length_key) as [len'|] eqn:Hp; [| done]. injection Hlen as ->.
  destruct (array_length len) as [n|] eqn:Hn; [| done]. apply coded_bind_ok in H as (b & Hb%charge_costs & H).
  apply coded_bind_ok in H as (items & Hitems & H). unfold checkedData in Hitems.
  destruct (dataArray h v) as [items'|] eqn:Harr; [| done]. injection Hitems as ->.
  destruct (dataArray_spec h v items Harr) as (len' & Hlen' & Hn' & Hread).
  assert (len' = len) as -> by congruence. assert (n = length items) as -> by congruence.
  assert (exists e en, element node = Some e /\ net !! e = Some en) as (e & en & He & Hen).
  { unfold node_ok in Hok. rewrite (kind_other _ _ "primitive" Hk), (kind_other _ _ "variant" Hk), Hk in Hok by done.
    destruct (element node) as [e|]; [| done]. apply bool_decide_eq_true in Hok as [en Hen]. by exists e, en. }
  rewrite He in H.
  destruct (encode_items_spec fuel ({[ l ]} ∪ active) e en path (dep + 1) Hvisits Hen Hdep items 0 (b, c.2) c' v Hints) as
    (ds & Hg & Hds & Hall & Hviews); [| done |].
  { intros j x Hx. split; [by apply Hread |]. eapply element_prints; [by apply Hread |].
    intros _. apply not_eq_sym, length_key_not_index. }
  assert (doc_ok (DArray ds) = true) as Hdoc.
  { eapply (describes_doc_ok net h _ node v). by eapply desc_array. }
  exists ds. split_and!.
  - rewrite array_size by done. cbn [doc_nodes]. rewrite <- (Forall2_length _ _ _ Hall).
    destruct Hg as (Hc & Hs & Hi). split_and!; [| done | done].
    replace (1 + _ - 1) with (0 + foldr (fun d n => doc_nodes d + n) 0 ds) by lia. by eapply costs_trans.
  - cbn [doc_depth]. lia.
  - by eapply desc_array.
  - intros integers Hsub Hiok. cbn [view]. rewrite (kind_other _ _ "primitive" Hk), (kind_other _ _ "variant" Hk), Hk, Hp by done.
    cbn [coded_bind]. rewrite Hn, He. by rewrite Hviews.
Qed.

Lemma object_names_size (ms : list (jstr * doc)) :
  foldr (fun m n => byte_size (json_quote m.1) + doc_size m.2 + n) 0 ms
  = names_size ms.*1 + foldr (fun m n => doc_size m.2 + n) 0 ms.
Proof. unfold names_size. induction ms as [|m ms IH]; [done |]. rewrite fmap_cons. cbn [foldr]. lia. Qed.

Lemma visit_record fuel active node v path dep c c' :
  visits fuel -> node_ok net node = true -> has_kind node "record" || has_kind node "error" = true ->
  integers_ok c.2 -> dep + 1 <= maxDepth -> recordIdentity h v = Some (identity node) ->
  (let* ks := data_record h v path in
   let names := f_name <$> node_fields node in
   let* b := key_costs c.1 names path in
   let* c := encode_fields net h (encode_visit number_text net h fuel active) (node_fields node) v ks path (dep + 1) (b, c.2) in
   let* _ := extras (string_keys ks) names path in
   Coded c) = Coded c' ->
  exists ms, grown c c' (doc_size (DObject ms)) (doc_nodes (DObject ms) - 1) /\ dep + doc_depth (DObject ms) <= maxDepth
    /\ describes net h node v (DObject ms)
    /\ formatted (fun integers => view number_text net h (S fuel) integers node v) c' (DObject ms).
Proof.
  intros Hvisits Hok Hk Hints Hdep Hid (ks & Hks & H)%coded_bind_ok.
  apply coded_bind_ok in H as (b & Hb & H). apply coded_bind_ok in H as (c1 & Hc1 & H).
  apply coded_bind_ok in H as (u & Hu & [= <-]). apply key_costs_costs in Hb as [Htext Hb].
  unfold data_record in Hks. destruct (is_array_value h v) eqn:Ha; [done |]. unfold checkedData in Hks.
  destruct (dataKeys h v) as [ks'|] eqn:Hkeys; [| done]. injection Hks as ->.
  destruct (fields_distinct net node Hok Hk) as [Hnd Hfs].
  destruct (encode_fields_spec fuel active v ks path (dep + 1) Hvisits Hdep) with (fs := node_fields node) (c := (b, c.2)) (c' := c1)
    as (ms & Hg & Hds & Hnames & Hin & Hall & Hviews); [| done | done | done |].
  { intros k x Hp. eapply element_prints; [done | by rewrite Ha]. }
  assert (describes net h node v (DObject ms)) as Hdesc.
  { eapply desc_record; [done | done | exact Hkeys | | done | by rewrite Hnames | done].
    intros k. split.
    - intros Hkk. unfold extras in Hu. destruct (sort_strings _) as [|x xs] eqn:Hsort; [| done].
      destruct (decide (k ∈ f_name <$> node_fields node)) as [|Hno]; [done | exfalso].
      assert (k ∈ sort_strings (filter (fun k => k ∉ f_name <$> node_fields node) (string_keys ks))) as Hs.
      { rewrite sort_strings_perm. by apply list_elem_of_filter. }
      rewrite Hsort in Hs. by apply elem_of_nil in Hs.
    - intros (f & -> & Hf)%list_elem_of_fmap. unfold string_keys. apply list_elem_of_omap.
      exists (KStr (f_name f)). split; [by apply Hin | done]. }
  pose proof (describes_doc_ok _ _ _ _ _ Hdesc) as Hdoc. exists ms. split_and!.
  - rewrite object_size, object_names_size by done. cbn [doc_nodes]. rewrite Hnames.
    assert (length ms = length (f_name <$> node_fields node)) as -> by (rewrite <- Hnames; by rewrite length_fmap).
    destruct Hg as (Hc & Hs & Hi). split_and!; [| done | done]. rewrite Z.add_assoc.
    replace (1 + _ - 1) with (0 + foldr (fun m n => doc_nodes m.2 + n) 0 ms) by lia. by eapply costs_trans.
  - cbn [doc_depth]. lia.
  - done.
  - intros integers Hsub Hiok. cbn [view]. rewrite !(record_not node) by (done || tauto).
    rewrite bool_decide_true by done. rewrite Hviews by done. cbn [coded_bind]. rewrite property_order_id; [done |].
    rewrite Hnames. apply Forall_fmap, Forall_forall. intros f Hf. rewrite forallb_forall in Hfs.
    specialize (Hfs f (proj1 (list_elem_of_In _ _) Hf)). by apply (field_plain net).
Qed.

Lemma visit_variant fuel active node v path dep c c' :
  visits fuel -> node_ok net node = true -> has_kind node "variant" = true -> value_prints v ->
  integers_ok c.2 -> dep + 1 <= maxDepth ->
  (let* selected := find_leaf net node (fun leaf => bool_decide (Some (identity leaf) = recordIdentity h v)) in
   match selected with
   | None => reject path variant_tag
   | Some leaf =>
       let* b := key_costs c.1 [js "case"; js "value"] path in
       let case := childPath path (js "case") in
       let* b := Codec.visit b (dep + 1) case in
       let* b := textCost b (name leaf) case in
       encode_visit number_text net h fuel active leaf v (childPath path (js "value")) (dep + 1) (b, c.2)
   end) = Coded c' ->
  exists ms, grown c c' (doc_size (DObject ms)) (doc_nodes (DObject ms) - 1) /\ dep + doc_depth (DObject ms) <= maxDepth
    /\ describes net h node v (DObject ms)
    /\ formatted (fun integers => view number_text net h (S fuel) integers node v) c' (DObject ms).
Proof.
  intros Hvisits Hok Hk Hprint Hints Hdep (selected & Hfind & H)%coded_bind_ok.
  pose proof Hfind as Hview. unfold find_leaf in Hfind.
  destruct (variant_ok net node Hok Hk) as (ids & Hl & Hnom & Hnd). rewrite Hl in Hfind.
  destruct (leaves_found net ids Hnom) as (ls & Hls & _ & _ & Hback). rewrite Hls in Hfind. injection Hfind as Hsel.
  destruct selected as [leaf|]; [| done].
  apply find_some in Hsel as [Hinl Hid%bool_decide_eq_true].
  destruct (Hback leaf (proj2 (list_elem_of_In _ _) Hinl)) as (id & Hid' & Hleaf).
  apply coded_bind_ok in H as (b1 & [_ Hb1]%key_costs_costs & H).
  apply coded_bind_ok in H as (b2 & [_ Hb2]%visit_costs & H).
  apply coded_bind_ok in H as (b3 & [Htext Hb3]%textCost_costs & H).
  apply Hvisits in H as (d & Hg & Hd & Hdesc & Hv); [| by eapply Hgraph | done | done].
  exists [(js "case", DString (name leaf)); (js "value", d)].
  assert (describes net h node v (DObject [(js "case", DString (name leaf)); (js "value", d)])) as Hdesc'.
  { by eapply desc_variant. }
  pose proof (describes_doc_ok _ _ _ _ _ Hdesc') as Hdoc. split_and!.
  - rewrite object_size by done. cbn [foldr fst snd doc_nodes length]. destruct Hg as (Hc & Hs & Hi).
    split_and!; [| done | done]. pose proof (costs_trans _ _ _ _ _ _ _ (costs_trans _ _ _ _ _ _ _ (costs_trans _ _ _ _ _ _ _ Hb1 Hb2) Hb3) Hc) as Hall.
    cbn [fst snd length names_size foldr] in Hall. change (doc_size (DString (name leaf))) with (byte_size (json_quote (name leaf))).
    unfold costs in *. cbn [length] in *. lia.
  - cbn [doc_depth foldr snd]. lia.
  - done.
  - intros integers Hsub Hiok. cbn [view]. rewrite (kind_other _ _ "primitive" Hk), Hk by done.
    rewrite Hview. cbn [coded_bind]. by rewrite Hv.
Qed.

Lemma visits_all fuel : visits fuel.
Proof.
  induction fuel as [|fuel IH]; intros active node v path dep c c' Hok Hprint Hints; [done |].
  cbn [encode_visit]. intros (b & [Hdep Hb]%visit_costs & H)%coded_bind_ok. cbn [fst snd] in H.
  assert (forall ms : doc, forall s n, grown (b, c.2) c' s n -> n = doc_nodes ms - 1 -> grown c c' s (doc_nodes ms)) as Hback.
  { intros ms s n Hg ->. destruct Hg as (Hc & Hs & Hi). split_and!; [| done | done].
    pose proof (costs_trans _ _ _ _ _ _ _ Hb Hc) as Ht. replace (doc_nodes ms) with (1 + (doc_nodes ms - 1)) by lia.
    replace s with (0 + s) by lia. done. }
  destruct (has_kind node "primitive") eqn:Hp; cbn [negb] in Hdep.
  { apply encode_primitive_spec in H as (d & Hg & Hn & Hd & Hdesc & Hv); [| done..].
    exists d. split_and!; [eapply (Hback d); [exact Hg | lia] | lia | done |].
    intros integers Hsub Hiok. cbn [view]. rewrite Hp. by apply Hv. }
  destruct (has_kind node "variant") eqn:Hvar.
  { apply (visit_variant fuel active node v path dep (b, c.2)) in H as (ms & Hg & Hd & Hdesc & Hv); [| done..].
    exists (DObject ms). split_and!; [by eapply Hback | done..]. }
  destruct (typeof_object h v) as [[l o]|]; [| done]. case_bool_decide; [done |].
  destruct (has_kind node "array") eqn:Harr.
  { apply (visit_array fuel active node v l o path dep (b, c.2)) in H as (ds & Hg & Hd & Hdesc & Hv); [| done..].
    exists (DArray ds). split_and!; [by eapply Hback | done..]. }
  destruct (has_kind node "record" || has_kind node "error") eqn:Hrec; cbn [negb] in H; [| done].
  case_bool_decide as Hid; cbn [negb] in H; [| done].
  apply (visit_record fuel ({[ l ]} ∪ active) node v path dep (b, c.2)) in H as (ms & Hg & Hd & Hdesc & Hv); [| done..].
  exists (DObject ms). split_and!; [by eapply Hback | done..].
Qed.
End encode.
