(* ===== verification/JsonTotal.v ===== *)
(** * The JSON codec: nothing but values and issues

    With a compiled schema, decoding any bytes ends in a typed value or in a
    codec issue, and encoding any value of the heap ends in bytes or in an
    issue: no exception of another kind, and the fuel never runs out. *)
From stdpp Require Import base gmap list strings.
From Stdlib Require Import ZArith Lia SpecFloat.
From S2P Require Import Prelude JsNumber JsString Numbers Unicode Data Digits Codec CodecTheorems Json Scan DataFacts JsonCodec JsonCodecTheorems JsonEncodeTheorems.

(** ** The JSON codec: encoding and decoding together *)

(** ** The written text *)

Lemma ascii_units s : ascii_text s = true -> is_units s = true.
Proof.
  unfold ascii_text, is_units. induction s as [|c s IH]; [done |]. cbn [forallb].
  intros [Hc%N.ltb_lt Hs]%andb_true_iff. rewrite (IH Hs), andb_true_r. apply N.ltb_lt. lia.
Qed.

Lemma units_app a b : is_units (a ++ b) = is_units a && is_units b.
Proof. apply forallb_app. Qed.

Lemma quote_unit_units c : (c < 0x10000)%N -> is_units (quote_unit c) = true.
Proof.
  intros Hc. unfold quote_unit. repeat case_goal; try done; [apply ascii_units, escape_ascii |].
  cbn. apply N.ltb_lt in Hc. by rewrite Hc.
Qed.

Lemma quote_units_units s : is_units s = true -> is_units (quote_units s) = true.
Proof.
  induction s as [s IH] using (well_founded_induction (well_founded_ltof _ length)). unfold ltof in IH.
  destruct s as [|c s]; [done |]. intros [Hc Hs]%andb_true_iff. fold (is_units s) in Hs. cbn [quote_units].
  pose proof (ascii_units _ (escape_ascii c)) as Hesc. destruct (is_high_surrogate c).
  - destruct s as [|d s]; [done |]. destruct (is_low_surrogate d).
    + cbn [is_units forallb] in *. apply andb_true_iff in Hs as [Hd Hs]. rewrite Hc, Hd. cbn.
      apply (IH s); [cbn; lia | done].
    + rewrite units_app, Hesc. apply (IH (d :: s)); [cbn; lia | done].
  - destruct (is_low_surrogate c); rewrite units_app; [rewrite Hesc | rewrite quote_unit_units by by apply N.ltb_lt];
      (apply (IH s); [cbn; lia | done]).
Qed.

Lemma json_quote_units s : is_units s = true -> is_units (json_quote s) = true.
Proof. intros H. unfold json_quote. cbn. fold (is_units (quote_units s ++ [34%N])). by rewrite units_app, quote_units_units. Qed.

Lemma intersperse_units ps : Forall (fun p => is_units p = true) ps -> is_units (intersperse [44%N] ps) = true.
Proof.
  induction 1 as [|p ps Hp Hps IH]; [done |]. destruct ps as [|q ps]; [done |].
  rewrite intersperse_cons by done. by rewrite !units_app, Hp, IH.
Qed.

Lemma stringify_units d : doc_ok d = true -> is_units (JSON_stringify d) = true.
Proof.
  induction d as [|b|t|s|items IH|members IH] using doc_induction; intros Hok; cbn [JSON_stringify doc_ok] in *.
  - done.
  - by destruct b.
  - by apply ascii_units, number_ascii.
  - by apply json_quote_units.
  - change (is_units ([91%N] ++ intersperse [44%N] (JSON_stringify <$> items) ++ [93%N]) = true).
    rewrite !units_app, intersperse_units; [done |]. apply Forall_fmap, Forall_forall. intros d Hd.
    rewrite Forall_forall in IH. apply (IH d Hd). rewrite forallb_forall in Hok. by apply Hok, list_elem_of_In.
  - set (text := fun m : jstr * doc => json_quote m.1 ++ 58%N :: JSON_stringify m.2).
    change (is_units ([123%N] ++ intersperse [44%N] (text <$> members) ++ [125%N]) = true).
    rewrite !units_app, intersperse_units; [done |]. apply Forall_fmap, Forall_forall. intros m Hm.
    rewrite forallb_forall in Hok. specialize (Hok m (proj1 (list_elem_of_In _ _) Hm)).
    apply andb_true_iff in Hok as [Hk Hd].
    change (is_units (json_quote m.1 ++ [58%N] ++ JSON_stringify m.2) = true).
    rewrite !units_app, json_quote_units by done. rewrite Forall_forall in IH. by rewrite (IH m Hm Hd).
Qed.

Lemma decodeText_stringify d bytes :
  doc_ok d = true -> doc_size d <= bytes -> decodeText (utf8_encode (JSON_stringify d)) bytes = Coded (JSON_stringify d).
Proof.
  intros Hok Hle. unfold decodeText, doc_size, byte_size in *. destruct (Z.ltb_spec bytes (Z.of_nat (length (utf8_encode (JSON_stringify d))))); [lia |].
  destruct (utf8_decode_encode _ (stringify_units d Hok)) as [-> Hw]. by rewrite (proj2 Hw (stringify_well_formed d Hok)).
Qed.

Lemma parseJSONText_stringify d :
  doc_ok d = true -> distinct_members d -> fits d -> parseJSONText (JSON_stringify d) = Coded d.
Proof.
  intros Hok Hd Hf. unfold parseJSONText. pose proof (JSON_parse_stringify d Hok) as Hp.
  rewrite (scan_fits _ _ Hp Hf), Hp. by rewrite (proj2 (first_repeated_none d []) Hd).
Qed.

(** ** Whole runs *)

Lemma new_Budget_ok bytes b :
  new_Budget bytes = Coded b -> b = mkBudget bytes bytes 0 /\ 1 <= bytes <= 67108864.
Proof.
  unfold new_Budget. destruct (negb (is_safe bytes)); [done |]. destruct (Z.ltb_spec bytes 1); [done |].
  destruct (Z.ltb_spec 67108864 bytes); [done |]. intros [= <-]. split; [done | lia].
Qed.

Lemma new_Budget_cap cap : 1 <= cap <= 67108864 -> new_Budget cap = Coded (mkBudget cap cap 0).
Proof.
  intros Hcap. unfold new_Budget. assert (is_safe cap = true) as -> by (apply is_safe_spec; unfold MAX_SAFE; lia).
  destruct (Z.ltb_spec cap 1), (Z.ltb_spec 67108864 cap); try lia. done.
Qed.

Section runs.
Context (number_text : num -> jstr) (schema : Schema) (net : node_map) (h : heap).
Context (Hschema : schema_ok schema net) (Hheap : heap_prints number_text h).

(** A preflight that succeeds is formatted, in exactly the bytes it charged. *)
Lemma encode_after_preflight fuel node v cap b' integers :
  net !! root schema = Some node -> value_prints number_text v -> 1 <= cap <= 67108864 ->
  encode_visit number_text net h fuel ∅ node v [] 0 (mkBudget cap cap 0, ∅) = Coded (b', integers) ->
  exists d, encode_with fuel number_text schema h v cap = Coded (utf8_encode (JSON_stringify d))
    /\ describes net h node v d /\ doc_size d = cap - remaining b' /\ 0 <= remaining b' /\ fits d.
Proof.
  intros Hnode Hprint Hbytes Hvisit. destruct Hschema as (Hgraph & _ & Hg).
  assert (integers_ok (∅ : gmap Z jstr)) as H0 by (intros z t Hz; by rewrite lookup_empty in Hz).
  pose proof (visits_all number_text net h Hg Hheap fuel ∅ node v [] 0
    (mkBudget cap cap 0, ∅) _ (Hg _ _ Hnode) Hprint H0 Hvisit) as
    (d & (Hc & _ & Hi) & Hdepth & Hdesc & Hview). cbn [fst snd] in *.
  destruct Hc as (Hb & Hr & Hn & Hr0 & Hmax). cbn [bytes remaining nodes] in *.
  exists d. unfold encode_with. rewrite Hgraph. cbn [coded_bind].
  rewrite new_Budget_cap by done. cbn [coded_bind]. rewrite (get_known _ _ _ Hnode). cbn [coded_bind]. rewrite Hvisit. cbn [coded_bind].
  rewrite (Hview integers); [| done | by apply Hi]. cbn [coded_bind]. unfold doc_size, byte_size in *.
  rewrite bool_decide_true by lia. split_and!; [done | done | lia | lia |]. split; [lia |].
  unfold maxNodes in *. lia.
Qed.

Lemma encode_ok fuel v cap encoded :
  value_prints number_text v -> encode_with fuel number_text schema h v cap = Coded encoded ->
  exists node d, net !! root schema = Some node /\ encoded = utf8_encode (JSON_stringify d)
    /\ describes net h node v d /\ doc_size d <= cap /\ 1 <= cap <= 67108864 /\ fits d.
Proof.
  intros Hprint H. pose proof H as Henc. destruct Hschema as (Hgraph & [node Hnode] & Hg).
  unfold encode_with in H. rewrite Hgraph in H. cbn [coded_bind] in H.
  apply coded_bind_ok in H as (b & [-> Hbytes]%new_Budget_ok & H). rewrite (get_known _ _ _ Hnode) in H. cbn [coded_bind] in H.
  apply coded_bind_ok in H as ([b' integers] & Hvisit & _).
  destruct (encode_after_preflight fuel node v cap b' integers Hnode Hprint Hbytes Hvisit) as (d & Hd & Hdesc & Hsize & Hr & Hfits).
  exists node, d. rewrite Hd in Henc. injection Henc as <-. split_and!; try done; lia.
Qed.

Lemma project_described fuel node v d b hd :
  net !! root schema = Some node -> describes net h node v d -> doc_depth d < Z.of_nat fuel -> heap_ok hd ->
  room b 0 (doc_size d) (doc_nodes d) (doc_depth d) ->
  decoded net node d b hd (project_with fuel schema d b hd).
Proof.
  intros Hnode Hdesc Hfuel Hh Hroom. destruct Hschema as (Hgraph & _ & Hg). unfold project_with.
  rewrite Hgraph. cbn [coded_bind]. rewrite (get_known _ _ _ Hnode). cbn [coded_bind].
  by apply (decodes_all net h d Hg node v fuel [] 0 b hd (Hg _ _ Hnode)).
Qed.

Lemma decode_described node v d cap hd :
  net !! root schema = Some node -> describes net h node v d -> doc_size d <= cap -> 1 <= cap <= 67108864 ->
  fits d -> heap_ok hd ->
  exists v' hd', decodeJSON schema hd (utf8_encode (JSON_stringify d)) cap = Coded (v', hd')
    /\ describes net hd' node v' d /\ heap_ok hd' /\ extends hd hd'.
Proof.
  intros Hnode Hdesc Hsize Hcap [Hdepth Hcount] Hh. destruct Hschema as (Hgraph & _ & Hg).
  pose proof (describes_doc_ok _ _ _ _ _ Hdesc) as Hok.
  pose proof (describes_distinct net h d Hg node v (Hg _ _ Hnode) Hdesc) as Hdist.
  pose proof (doc_size_nonneg d).
  destruct (project_described visit_fuel node v d (mkBudget cap cap 0) hd Hnode Hdesc) as
    (v' & b' & hd' & Hrun & _ & Hh' & Hext & Hdesc'); [unfold maxDepth, visit_fuel in *; lia | done | |].
  { unfold room. cbn [remaining bytes nodes]. lia. }
  exists v', hd'. split_and!; [| done..]. unfold decodeJSON, parseDocument.
  rewrite new_Budget_cap by done. cbn [coded_bind]. rewrite decodeText_stringify by done. cbn [coded_bind].
  rewrite parseJSONText_stringify by done. cbn [coded_bind]. unfold projectValue. by rewrite Hrun.
Qed.
End runs.

Definition no_fault {A} (r : coded A) : Prop := match r with Fault _ => False | _ => True end.

Lemma no_fault_bind {A B} (m : coded A) (f : A -> coded B) :
  no_fault m -> (forall a, m = Coded a -> no_fault (f a)) -> no_fault (coded_bind m f).
Proof. destruct m; cbn; auto. Qed.

(** [r] ends in a value that satisfies [Q], or in an issue. *)
Definition ends {A} (r : coded A) (Q : A -> Prop) : Prop :=
  match r with Coded a => Q a | reject _ _ => True | Fault _ => False end.

Lemma ends_bind {A B} (m : coded A) (f : A -> coded B) P Q :
  ends m P -> (forall a, P a -> ends (f a) Q) -> ends (coded_bind m f) Q.
Proof. destruct m; cbn; auto. Qed.

Lemma ends_weaken {A} (r : coded A) (P Q : A -> Prop) : ends r P -> (forall a, P a -> Q a) -> ends r Q.
Proof. destruct r; cbn; auto. Qed.

(** ** Tokens *)

Lemma number_token_numeric t : number_token t = true -> exists p, numeric_token t = Some p.
Proof.
  intros Ht%bool_decide_eq_true. revert Ht. unfold number_prefix, numeric_token.
  destruct (strip_minus t) as [negative body]. cbn [snd].
  destruct (span_digits body) as [whole r1] eqn:Hw. destruct (integer_digits whole) eqn:Hi; [| done].
  rewrite bool_decide_false by (intros ->; done).
  destruct (number_fraction r1) as [r2|] eqn:Hf; [| done].
  destruct (number_exponent r2) as [r3|] eqn:He; [| done]. intros [= _ ->].
  assert (exists e, exponent_group r2 = Some e) as [e Hg].
  { unfold exponent_group. destruct r2 as [|c r]; [by eexists |]. cbn in He.
    destruct ((c =? 101)%N || (c =? 69)%N); [| done]. cbn [andb].
    destruct (span_digits (skip_sign r)) as [x y] eqn:Hs. case_bool_decide as Hne; [done |]. injection He as ->.
    destruct (span_digits_spec _ _ _ Hs) as (Hx & Hd & _). rewrite app_nil_r in Hx.
    assert ((exponent_sign r).2 = skip_sign r) as Hsign.
    { destruct r as [|d r]; [done |]. cbn. destruct (decide (d = 43%N)) as [->|H1]; [done |].
      destruct (decide (d = 45%N)) as [->|H2]; [done |].
      rewrite (proj2 (N.eqb_neq d 43)), (proj2 (N.eqb_neq d 45)) by done. cbn. repeat case_goal; subst; done. }
    unfold exponent_text. rewrite Hsign, Hx, Hd, bool_decide_false by done. by eexists. }
  destruct (decide (head r1 = Some 46%N)) as [Hh|Hh].
  - destruct r1 as [|c after]; [done |]. cbn in Hh. injection Hh as ->. cbn in Hf.
    destruct (span_digits after) as [f rest]. case_bool_decide; [done |]. injection Hf as ->. rewrite Hg. by eexists.
  - assert (r2 = r1) as ->.
    { unfold number_fraction in Hf. repeat case_hyp Hf; subst; try (by destruct Hh); by injection Hf. }
    assert (match r1 with 46%N :: after => let '(fraction, tail) := span_digits after in
        if bool_decide (fraction = []) then None else mkParts negative whole fraction <$> exponent_group tail
      | _ => mkParts negative whole [] <$> exponent_group r1 end = mkParts negative whole [] <$> exponent_group r1) as ->.
    { repeat case_goal; subst; try done; by destruct Hh. }
    rewrite Hg. by eexists.
Qed.

Lemma charged_ok b t : budget_ok b -> len t <= remaining b -> budget_ok (charged b t).
Proof. unfold budget_ok, charged, len. cbn. lia. Qed.

Lemma decodeInteger_ends t b path :
  number_token t = true -> budget_ok b ->
  ends (decodeInteger t b path) (fun r => budget_ok r.2 /\ nodes r.2 = nodes b).
Proof.
  intros Ht Hb. destruct (number_token_numeric t Ht) as [p Hp].
  destruct (Z.ltb_spec (bytes b) (len t)) as [Hlt|Hle].
  { unfold decodeInteger. destruct (Z.ltb_spec (bytes b) (len t)); [done | lia]. }
  pose proof (decodeInteger_spec t p b path Hb Hp Hle) as H.
  destruct (decodeInteger t b path) as [[z b']|q r|]; [| done..]. destruct H as (_ & -> & Hfit). cbn.
  split; [by apply charged_ok | done].
Qed.

Lemma visit_ends b dep path :
  budget_ok b -> ends (Codec.visit b dep path) (fun b' => budget_ok b' /\ nodes b' = nodes b + 1 /\ dep <= maxDepth).
Proof.
  intros Hb. unfold Codec.visit. destruct (Z.ltb_spec maxDepth dep); [done |].
  destruct (Z.ltb_spec maxNodes (nodes b + 1)); [done |]. unfold budget_ok in *. cbn. lia.
Qed.

(** ** Decoding *)
Section project.
Context (net : node_map) (Hgraph : graph_ok net).

Definition typed (h : heap) (node : SchemaNode) (v : value) : Prop := exists d, describes net h node v d.

Lemma typed_grows h h' node v : extends h h' -> typed h node v -> typed h' node v.
Proof. intros Hext [d Hd]. exists d. by eapply describes_grows. Qed.

(** The result of projecting at [node] from [b] and [hd]. *)
Definition projected (node : SchemaNode) (b : Budget) (hd : heap) (r : value * (Budget * heap)) : Prop :=
  let '(v, (b', hd')) := r in
  budget_ok b' /\ nodes b + 1 <= nodes b' /\ heap_ok hd' /\ extends hd hd' /\ typed hd' node v.

Lemma primitive_name node :
  node_ok net node = true -> has_kind node "primitive" = true ->
  has_name node "str" || has_name node "bool" || has_name node "int" || has_name node "float" = true.
Proof. unfold node_ok. intros Hok Hk. by rewrite Hk in Hok. Qed.

Lemma project_primitive_ends node d path b hd :
  node_ok net node = true -> has_kind node "primitive" = true -> doc_tokens d = true -> budget_ok b -> heap_ok hd ->
  ends (project_primitive node d path (b, hd))
    (fun r => budget_ok r.2.1 /\ nodes r.2.1 = nodes b /\ r.2.2 = hd /\ typed hd node r.1).
Proof.
  intros Hok Hk Hd Hb Hh. pose proof (primitive_name node Hok Hk) as Hnames. unfold project_primitive.
  destruct (has_name node "str") eqn:Hstr.
  { destruct d as [| | |s| |]; try done. destruct (scalar s path) as [u| |] eqn:Hs; [| done |].
    - cbn. split_and!; [done.. |]. exists (DString s). constructor; [done | done | by eapply scalar_ok].
    - unfold scalar in Hs. by case_bool_decide. }
  destruct (has_name node "bool") eqn:Hbool.
  { destruct d as [|x| | | |]; try done. cbn. split_and!; [done.. |]. exists (DBool x). by constructor. }
  destruct (has_name node "float") eqn:Hfloat.
  { destruct d as [| |t| | |]; try done. destruct (isFinite (number_of_token t)) eqn:Hfin; [| done]. cbn.
    split_and!; [done.. |]. exists (DNumber t). by constructor. }
  destruct (has_name node "int") eqn:Hint; [| done].
  destruct d as [| |t| | |]; try done. cbn [exactInt fst]. eapply ends_bind; [by apply decodeInteger_ends |].
  intros [z b'] [Hb' Hn]. cbn in *. split_and!; [done.. |]. exists (DNumber (dec_of_Z z)). by constructor.
Qed.

Definition projects (fuel : nat) : Prop :=
  forall node d path dep b hd, node_ok net node = true -> doc_tokens d = true -> budget_ok b -> heap_ok hd ->
  dep <= maxDepth < dep + Z.of_nat fuel ->
  ends (project_visit net fuel node d path dep (b, hd)) (projected node b hd).

Lemma project_items_ends fuel e en path dep :
  projects fuel -> net !! e = Some en -> dep <= maxDepth < dep + Z.of_nat fuel ->
  forall items i b hd, forallb doc_tokens items = true -> budget_ok b -> heap_ok hd ->
  ends (project_items net (project_visit net fuel) (Some e) items i path dep (b, hd))
    (fun r => budget_ok r.2.1 /\ nodes b + Z.of_nat (length r.1) <= nodes r.2.1 /\ heap_ok r.2.2 /\ extends hd r.2.2
       /\ Forall (typed r.2.2 en) r.1).
Proof.
  intros Hp Hen Hdep. induction items as [|d items IH]; intros i b hd Ht Hb Hh; cbn [project_items].
  { cbn. split_and!; [done | lia | done | done | constructor]. }
  cbn [forallb] in Ht. apply andb_true_iff in Ht as [Hd Ht]. rewrite (get_known _ _ _ Hen). cbn [coded_bind].
  eapply ends_bind; [by apply Hp; [eapply Hgraph | ..] |].
  intros [v [b1 hd1]] (Hb1 & Hn1 & Hh1 & Hext & Hv). cbn [fst snd].
  eapply ends_bind; [by apply IH |]. intros [vs [b2 hd2]] (Hb2 & Hn2 & Hh2 & Hext2 & Hvs). cbn in *.
  split_and!; [done | lia | done | by etrans |]. constructor; [by eapply typed_grows | done].
Qed.

Lemma project_fields_ends fuel ms path dep :
  projects fuel -> dep <= maxDepth < dep + Z.of_nat fuel -> forallb (fun m => doc_tokens m.2) ms = true ->
  forall fs b hd, forallb (field_ok net) fs = true ->
  budget_ok b -> heap_ok hd ->
  ends (project_fields net (project_visit net fuel) fs ms path dep (b, hd))
    (fun r => budget_ok r.2.1 /\ nodes b <= nodes r.2.1 /\ heap_ok r.2.2 /\ extends hd r.2.2
       /\ r.1.*1 = f_name <$> fs
       /\ exists docs, docs.*1 = f_name <$> fs
            /\ Forall2 (described_field net r.2.2 (fun f x => (f_name f, x) ∈ r.1)) fs docs).
Proof.
  intros Hp Hdep Hms. induction fs as [|f fs IH]; intros b hd Hfs Hb Hh; cbn [project_fields].
  { cbn. split_and!; [done.. |]. by exists []. }
  cbn [forallb] in Hfs. apply andb_true_iff in Hfs as [Hf Hfs].
  destruct (field_known net f Hf) as [fn Hfn].
  rewrite (get_known _ _ _ Hfn). cbn [coded_bind].
  eapply (ends_bind _ _ (fun d => doc_tokens d = true)).
  { unfold member_value. destruct (last_member ms (f_name f)) as [d|] eqn:Hl; [| done]. cbn.
    unfold last_member in Hl. apply fmap_Some in Hl as (m & Hm & ->). apply find_some in Hm as [Hin _].
    rewrite forallb_forall in Hms. apply Hms. apply list_elem_of_In, elem_of_reverse, list_elem_of_In. done. }
  intros d Hd. eapply ends_bind; [by apply Hp; [eapply Hgraph | ..] |].
  intros [v [b1 hd1]] (Hb1 & Hn1 & Hh1 & Hext & [dv Hv]). cbn [fst snd].
  eapply ends_bind; [by apply IH |]. intros [es [b2 hd2]] (Hb2 & Hn2 & Hh2 & Hext2 & Hnames & docs & Hdn & Hdocs).
  cbn in *. split_and!; [done | lia | done | by etrans | by rewrite Hnames |].
  exists ((f_name f, dv) :: docs). split; [by rewrite !fmap_cons, Hdn |]. constructor.
  - exists fn, v. split_and!; [done | by left | by eapply describes_grows].
  - eapply Forall2_impl; [exact Hdocs |]. intros f' m' (fn' & x' & ? & ? & ?). exists fn', x'.
    split_and!; [done | by right | done].
Qed.

Lemma project_array_ends fuel node items path dep b hd :
  projects fuel -> node_ok net node = true -> has_kind node "array" = true -> dep <= maxDepth < dep + Z.of_nat fuel ->
  forallb doc_tokens items = true -> budget_ok b -> heap_ok hd ->
  ends (let* (vs, st) := project_items net (project_visit net fuel) (element node) items 0 path dep (b, hd) in
        let '(v, h) := array st.2 vs in Coded (v, (st.1, h)))
    (fun r => let '(v, (b', hd')) := r in
       budget_ok b' /\ nodes b <= nodes b' /\ heap_ok hd' /\ extends hd hd' /\ typed hd' node v).
Proof.
  intros Hp Hok Hk Hdep Ht Hb Hh.
  assert (exists e en, element node = Some e /\ net !! e = Some en) as (e & en & He & Hen).
  { unfold node_ok in Hok. rewrite (kind_other _ _ "primitive" Hk), (kind_other _ _ "variant" Hk), Hk in Hok by done.
    destruct (element node) as [e|]; [| done]. apply bool_decide_eq_true in Hok as [en Hen]. by exists e, en. }
  rewrite He. eapply ends_bind; [by apply (project_items_ends fuel e en) |].
  intros [vs [b1 hd1]] (Hb1 & Hn1 & Hh1 & Hext & Hvs). cbn [fst snd] in *.
  destruct (array hd1 vs) as [v hd2] eqn:Harr.
  pose proof (array_grows hd1 vs Hh1) as [Hh2 Hext2]. rewrite Harr in Hh2, Hext2. cbn [snd] in *.
  assert (Z.of_nat (length vs) <= MAX_SAFE) as Hlen.
  { destruct Hb as (_ & _ & H0), Hb1 as (_ & _ & H1). unfold maxNodes, MAX_SAFE in *. lia. }
  pose proof (array_reads hd1 vs Hlen) as Hreads. rewrite Harr in Hreads. cbn [fst snd] in Hreads.
  assert (exists ds, Forall2 (describes net hd2 en) vs ds) as [ds Hds].
  { clear -Hvs Hext2. induction Hvs as [|x vs [d Hd] _ [ds IH]]; [by exists [] |].
    exists (d :: ds). constructor; [by eapply describes_grows | done]. }
  cbn. split_and!; [done | lia | done | by etrans |]. exists (DArray ds). by eapply desc_array.
Qed.

Lemma project_record_ends fuel node ms path dep b hd :
  projects fuel -> node_ok net node = true -> has_kind node "record" || has_kind node "error" = true ->
  dep <= maxDepth < dep + Z.of_nat fuel -> forallb (fun m => doc_tokens m.2) ms = true -> budget_ok b -> heap_ok hd ->
  ends (let* (entries, st) := project_fields net (project_visit net fuel) (node_fields node) ms path dep (b, hd) in
        let* _ := extras (own_names ms) (f_name <$> node_fields node) path in
        match record st.2 (identity node) entries with
        | Ret (v, h) => Coded (v, (st.1, h))
        | Throw msg => Fault msg
        end)
    (fun r => let '(v, (b', hd')) := r in
       budget_ok b' /\ nodes b <= nodes b' /\ heap_ok hd' /\ extends hd hd' /\ typed hd' node v).
Proof.
  intros Hp Hok Hk Hdep Ht Hb Hh. destruct (fields_distinct net node Hok Hk) as [Hnd Hfs].
  eapply ends_bind; [by apply (project_fields_ends fuel ms path dep) |].
  intros [es [b1 hd1]] (Hb1 & Hn1 & Hh1 & Hext & Hnames & docs & Hdn & Hdocs). cbn [fst snd] in *.
  apply (ends_bind _ _ (fun _ => True)); [unfold extras; by destruct (sort_strings _) |]. intros u _.
  destruct (record_reads hd1 (identity node) es) as (v & hd2 & -> & _ & Hid & Hks & Hprops & Hgrow); [by rewrite Hnames |].
  destruct (Hgrow Hh1) as [Hh2 Hext2]. cbn. split_and!; [done | lia | done | by etrans |].
  exists (DObject docs). eapply desc_record; [done | done | exact Hks | | done | |].
  - intros k. by rewrite string_keys_built, Hnames.
  - rewrite Hdn. apply Forall_fmap, Forall_forall. intros f Hf. rewrite forallb_forall in Hfs.
    specialize (Hfs f (proj1 (list_elem_of_In _ _) Hf)). unfold field_ok in Hfs. rewrite !andb_true_iff in Hfs.
    unfold text_ok. cbn. tauto.
  - eapply Forall2_impl; [exact Hdocs |]. intros f m (fn & x & Hfn & Hin & Hx). exists fn, x.
    split_and!; [done | by apply Hprops | by eapply describes_grows].
Qed.

Lemma member_tokens ms k path :
  forallb (fun m => doc_tokens m.2) ms = true -> ends (member_value ms k path) (fun d => doc_tokens d = true).
Proof.
  intros Hms. unfold member_value. destruct (last_member ms k) as [d|] eqn:Hl; [| done]. cbn.
  unfold last_member in Hl. apply fmap_Some in Hl as (m & Hm & ->). apply find_some in Hm as [Hin _].
  rewrite forallb_forall in Hms. apply Hms. apply list_elem_of_In, elem_of_reverse, list_elem_of_In. done.
Qed.

Lemma find_leaf_known node test :
  node_ok net node = true -> has_kind node "variant" = true ->
  exists found, find_leaf net node test = Coded found
    /\ forall leaf, found = Some leaf -> test leaf = true
       /\ exists ids id, leaves node = Some ids /\ id ∈ ids /\ net !! id = Some leaf.
Proof.
  intros Hok Hk. destruct (variant_ok net node Hok Hk) as (ids & Hl & Hnom & _).
  destruct (leaves_found net ids Hnom) as (ls & Hls & _ & _ & Hback).
  exists (find test ls). unfold find_leaf. rewrite Hl, Hls. split; [done |].
  intros leaf [Hin Ht]%find_some. split; [done |].
  destruct (Hback leaf (proj2 (list_elem_of_In _ _) Hin)) as (id & ? & ?). by exists ids, id.
Qed.

Lemma projects_all fuel : projects fuel.
Proof.
  induction fuel as [|fuel IH]; intros node d path dep b hd Hok Ht Hb Hh Hdep; [lia |].
  cbn [project_visit fst snd]. eapply ends_bind; [by apply visit_ends |].
  intros b1 (Hb1 & Hn1 & Hd1). cbn [fst snd].
  destruct (has_kind node "primitive") eqn:Hp; cbn [negb] in Hd1.
  { eapply ends_weaken; [by apply project_primitive_ends |]. intros [v [b2 hd2]] (Hb2 & Hn2 & Hh2 & Hv). cbn in *.
    subst hd2. split_and!; [done | lia | done | done | done]. }
  assert (forall r, (let '(v, (b', hd')) := r in
       budget_ok b' /\ nodes b1 <= nodes b' /\ heap_ok hd' /\ extends hd hd' /\ typed hd' node v) ->
       projected node b hd r) as Hback.
  { intros [v [b2 hd2]] (? & ? & ? & ? & ?). split_and!; try done. lia. }
  destruct (has_kind node "array") eqn:Harr.
  { destruct d as [| | | |items|]; try done.
    eapply ends_weaken; [apply (project_array_ends fuel node items path (dep + 1) b1 hd); try done; lia | exact Hback]. }
  destruct d as [| | | | |ms]; try done. cbn [doc_tokens] in Ht.
  destruct (has_kind node "variant") eqn:Hvar.
  - eapply ends_bind; [by apply (member_tokens ms) |]. intros tag Htag.
    eapply ends_bind; [by apply visit_ends |]. intros b2 (Hb2 & Hn2 & _).
    destruct tag as [| | |tag| |]; try done. destruct (scalar tag _) as [u| |] eqn:Hs; [| done |].
    2:{ unfold scalar in Hs. by case_bool_decide. }
    cbn [coded_bind]. destruct (find_leaf_known node (fun leaf => bool_decide (name leaf = tag)) Hok Hvar) as (found & -> & Hfound).
    cbn [coded_bind]. destruct found as [leaf|]; [| done].
    destruct (Hfound leaf eq_refl) as [Hname%bool_decide_eq_true (ids & id & Hl & Hin & Hleaf)].
    eapply ends_bind; [by apply (member_tokens ms) |]. intros inner Hinner.
    eapply ends_bind; [apply IH; try done; [by eapply Hgraph | lia] |].
    intros [v [b3 hd3]] (Hb3 & Hn3 & Hh3 & Hext & [dv Hv]).
    apply (ends_bind _ _ (fun _ => True)); [unfold extras; by destruct (sort_strings _) |]. intros _ _. cbn.
    split_and!; [done | lia | done | done |]. exists (DObject [(js "case", DString (name leaf)); (js "value", dv)]).
    eapply desc_variant; [done.. | | | done].
    + eapply (nominal_identity net hd3 leaf v dv); [| done]. by eapply (variant_leaf net node ids id).
    + rewrite Hname. by eapply scalar_ok.
  - assert (has_kind node "record" || has_kind node "error" = true) as Hrec.
    { unfold node_ok in Hok. rewrite Hp, Hvar, Harr in Hok. apply andb_true_iff in Hok as [Hok _].
      apply andb_true_iff in Hok as [Hok _]. by apply andb_true_iff in Hok as [Hok _]. }
    rewrite Hrec. cbn [negb].
    eapply ends_weaken; [apply (project_record_ends fuel node ms path (dep + 1) b1 hd); try done; lia | exact Hback].
Qed.
End project.

(** ** The scanner *)

Lemma scan_visit_ends st d : ends (scan_visit st d) (fun _ => True).
Proof.
  unfold scan_visit, Codec.visit. destruct (maxDepth <? d); [done |]. by destruct (maxNodes <? nodes (budget st) + 1).
Qed.

Lemma value_token_ends st : ends (value_token st) (fun _ => True).
Proof. apply scan_visit_ends. Qed.

Lemma scan_step_ends st s : ends (scan_step st s) (fun _ => True).
Proof.
  destruct s as [|c s]; [done |]. cbn [scan_step].
  destruct (whitespace c || (c =? 58)%N || (c =? 44)%N); [done |].
  destruct ((c =? 123)%N || (c =? 91)%N).
  { apply (ends_bind _ _ (fun _ => True)); [| done]. unfold open_container. destruct (maxDepth <? depth st + 1); [done |].
    apply (ends_bind _ _ (fun _ => True)); [apply scan_visit_ends |]. intros st' _. by destruct (valuePath st'). }
  destruct ((c =? 125)%N || (c =? 93)%N); [done |].
  destruct (c =? 34)%N; (apply (ends_bind _ _ (fun _ => True)); [| done]); [| apply value_token_ends].
  unfold string_token. repeat case_goal; try apply value_token_ends. done.
Qed.

Lemma scan_from_ends n : forall st s, (length s <= n)%nat -> ends (scan_from st s) (fun _ => True).
Proof.
  induction n as [|n IH]; intros st [|c s] Hn; try done; [cbn in Hn; lia |]. rewrite scan_from_cons.
  pose proof (scan_step_ends st (c :: s)) as Hs. destruct (scan_step st (c :: s)) as [[st' rest]| |] eqn:Hstep; try done.
  apply scan_step_shorter in Hstep. cbn. apply IH. cbn in Hn. lia.
Qed.

Lemma parseJSONText_ends text : ends (parseJSONText text) (fun d => doc_tokens d = true).
Proof.
  unfold parseJSONText. apply (ends_bind _ _ (fun _ => True)).
  - unfold scanJSON. apply (ends_bind _ _ (fun _ => True)); [by apply (scan_from_ends (length text)) | done].
  - intros [path|] _; destruct (JSON_parse text) as [d|] eqn:Hp; try done. cbn. by eapply JSON_parse_tokens.
Qed.

(** ** The encoder *)

(** What the language guarantees of every array: its length is a number below
    [2 ^ 32]. *)
Definition arrays_ok (h : heap) : Prop :=
  forall v x, is_array_value h v = true -> dataProperty h v length_key = Ret x ->
  exists n, array_length x = Some n /\ Z.of_nat n < 2 ^ 32.

Lemma charge_ends b size path :
  budget_ok b -> 0 <= size <= MAX_SAFE -> ends (charge b size path) (fun b' => budget_ok b').
Proof.
  intros Hb Hs. destruct (charge_spec b size path Hb ltac:(lia)) as [[Hle ->]|[Hlt H]].
  - unfold budget_ok in *. cbn. lia.
  - rewrite H; [done |]. apply is_safe_spec. unfold MAX_SAFE in *. lia.
Qed.

(** Bounds that keep the sizes exact. *)
Lemma utf8_length_le c : (length (Unicode.utf8 c) <= 4)%nat.
Proof. unfold Unicode.utf8. repeat case_goal; cbn; lia. Qed.

Lemma byte_size_bound s : byte_size s <= 4 * len s.
Proof.
  unfold byte_size, utf8_encode, len.
  assert (length (code_points s) <= length s)%nat as Hcp.
  { induction s as [s IH] using (well_founded_induction (well_founded_ltof _ length)). unfold ltof in IH.
    destruct s as [|c s]; [done |]. cbn [code_points]. destruct (is_high_surrogate c).
    - destruct s as [|d s]; [done |]. destruct (is_low_surrogate d); cbn [length].
      + specialize (IH s ltac:(cbn; lia)). lia.
      + specialize (IH (d :: s) ltac:(cbn; lia)). cbn in *. lia.
    - cbn [length]. specialize (IH s ltac:(cbn; lia)). lia. }
  assert (forall cs, length (mjoin (Unicode.utf8 <$> cs)) <= 4 * length cs)%nat as Hjoin.
  { induction cs as [|c cs IHc]; [done |].
    change (mjoin (Unicode.utf8 <$> c :: cs)) with (Unicode.utf8 c ++ mjoin (Unicode.utf8 <$> cs)).
    rewrite length_app. pose proof (utf8_length_le c). cbn [length]. lia. }
  specialize (Hjoin (to_scalar <$> code_points s)). rewrite length_fmap in Hjoin. lia.
Qed.

Lemma quote_units_length s : (length (quote_units s) <= 6 * length s)%nat.
Proof.
  induction s as [s IH] using (well_founded_induction (well_founded_ltof _ length)). unfold ltof in IH.
  destruct s as [|c s]; [done |]. cbn [quote_units].
  assert (length (unicode_escape c) = 6)%nat as Hesc by done.
  assert (length (quote_unit c) <= 6)%nat as Hunit.
  { unfold quote_unit. repeat case_goal; cbn; lia. }
  pose proof (IH s ltac:(cbn; lia)) as Hs.
  destruct (is_high_surrogate c).
  - destruct s as [|d s]; [rewrite Hesc; cbn; lia |]. destruct (is_low_surrogate d).
    + pose proof (IH s ltac:(cbn; lia)). cbn [length] in *. lia.
    + rewrite length_app. cbn [length] in *. lia.
  - destruct (is_low_surrogate c); rewrite length_app; cbn [length] in *; lia.
Qed.

Lemma quote_size_bound s : 0 <= byte_size (json_quote s) <= 24 * len s + 8.
Proof.
  split; [unfold byte_size; lia |]. pose proof (byte_size_bound (json_quote s)) as Hb.
  pose proof (quote_units_length s). unfold len, json_quote in *. cbn [length] in Hb.
  rewrite length_app in Hb. cbn [length] in Hb. lia.
Qed.

Lemma textCost_ends b s path : budget_ok b -> ends (textCost b s path) (fun b' => budget_ok b').
Proof.
  intros Hb. unfold textCost. destruct (Z.ltb_spec (remaining b) (len s)); [done |].
  apply (ends_bind _ _ (fun _ => True)); [unfold scalar; by case_bool_decide |]. intros _ _.
  apply charge_ends; [done |]. pose proof (quote_size_bound s). unfold budget_ok, MAX_SAFE in *. lia.
Qed.

Lemma text_costs_ends names path : forall b, budget_ok b -> ends (text_costs b names path) (fun b' => budget_ok b').
Proof.
  induction names as [|k names IH]; intros b Hb; [done |]. cbn [text_costs].
  eapply ends_bind; [by apply textCost_ends |]. apply IH.
Qed.

Lemma key_costs_ends b names path :
  budget_ok b -> Z.of_nat (length names) < 2 ^ 32 -> ends (key_costs b names path) (fun b' => budget_ok b').
Proof.
  intros Hb Hn. unfold key_costs. eapply ends_bind; [apply charge_ends; [done | unfold MAX_SAFE; lia] |].
  intros b' Hb'. by apply text_costs_ends.
Qed.

Section encode.
Context (number_text : num -> jstr) (net : node_map) (h : heap).
Context (Hgraph : graph_ok net) (Harrays : arrays_ok h) (Hheap : heap_prints number_text h).

Abbreviation charges := (Budget * gmap Z jstr)%type.

Lemma encode_primitive_ends node v path b ints :
  node_ok net node = true -> has_kind node "primitive" = true -> value_prints number_text v -> budget_ok b ->
  ends (encode_primitive number_text node v path (b, ints)) (fun c => budget_ok c.1).
Proof.
  intros Hok Hk Hprint Hb. pose proof (primitive_name net node Hok Hk) as Hnames. unfold encode_primitive.
  destruct (has_name node "str").
  { destruct v; try done. eapply ends_bind; [by apply textCost_ends | done]. }
  destruct (has_name node "bool").
  { destruct v as [| |x| | | |]; try done. eapply ends_bind; [| by intros b' Hb'].
    apply charge_ends; [done |]. unfold MAX_SAFE. destruct x; lia. }
  destruct (has_name node "int").
  { destruct v as [| | | |z| |]; try done. pose proof (encodeInteger_spec z b path Hb) as H.
    destruct (encodeInteger z b path) as [[text b']|q r|]; [| done..]. destruct H as (-> & -> & Hfit). cbn.
    by apply charged_ok. }
  destruct (has_name node "float"); [| done].
  destruct v as [| | |x| | |]; try done. destruct (isFinite x) eqn:Hfin; [| done].
  eapply ends_bind; [| by intros b' Hb']. apply charge_ends; [done |]. destruct (Hprint x eq_refl Hfin) as (_ & _ & Hlong).
  unfold len in *. lia.
Qed.

Definition visits_end (fuel : nat) : Prop :=
  forall active node v path dep c, node_ok net node = true -> value_prints number_text v -> budget_ok c.1 ->
  dep <= maxDepth < dep + Z.of_nat fuel ->
  ends (encode_visit number_text net h fuel active node v path dep c) (fun c' : charges => budget_ok c'.1).

Lemma checkedData_ends {A} (r : res A) path : ends (checkedData r path) (fun a => r = Ret a).
Proof. by destruct r. Qed.

Lemma encode_items_end fuel active e en path dep :
  visits_end fuel -> net !! e = Some en -> dep <= maxDepth < dep + Z.of_nat fuel -> forall items i c,
  Forall (value_prints number_text) items -> budget_ok c.1 ->
  ends (encode_items net (encode_visit number_text net h fuel active) (Some e) items i path dep c)
    (fun c' : charges => budget_ok c'.1).
Proof.
  intros Hv Hen Hdep. induction items as [|x items IH]; intros i c Hp Hb; [done |]. cbn [encode_items].
  rewrite (get_known _ _ _ Hen). cbn [coded_bind]. apply Forall_cons in Hp as [Hx Hp].
  eapply ends_bind; [by apply Hv; [eapply Hgraph | ..] |]. intros c1 Hc1. by apply IH.
Qed.

Lemma encode_fields_end fuel active v ks path dep :
  visits_end fuel -> dep <= maxDepth < dep + Z.of_nat fuel -> is_array_value h v = false -> forall fs c,
  forallb (field_ok net) fs = true -> budget_ok c.1 ->
  ends (encode_fields net h (encode_visit number_text net h fuel active) fs v ks path dep c)
    (fun c' : charges => budget_ok c'.1).
Proof.
  intros Hv Hdep Ha. induction fs as [|f fs IH]; intros c Hfs Hb; [done |]. cbn [encode_fields forallb] in *.
  apply andb_true_iff in Hfs as [Hf Hfs]. destruct (field_known net f Hf) as [fn Hfn].
  rewrite (get_known _ _ _ Hfn). cbn [coded_bind].
  apply (ends_bind _ _ (value_prints number_text)).
  { unfold required. case_bool_decide; [| done]. eapply ends_weaken; [apply checkedData_ends |]. intros x Hx.
    eapply (element_prints number_text h Hheap); [exact Hx | by rewrite Ha]. }
  intros x Hx. eapply ends_bind; [by apply Hv; [eapply Hgraph | ..] |]. intros c1 Hc1. by apply IH.
Qed.

Lemma items_print v items : dataArray h v = Ret items -> Forall (value_prints number_text) items.
Proof.
  intros Hitems. destruct (dataArray_spec h v items Hitems) as (_ & _ & _ & Hread).
  apply Forall_lookup. intros i x Hx. eapply (element_prints number_text h Hheap); [by apply Hread |].
  intros _. apply not_eq_sym, length_key_not_index.
Qed.

Lemma visits_end_all fuel : visits_end fuel.
Proof.
  induction fuel as [|fuel IH]; intros active node v path dep c Hok Hprint Hb Hdep; [lia |].
  cbn [encode_visit]. eapply ends_bind; [by apply visit_ends |]. intros b (Hb1 & _ & Hd). cbn [fst snd].
  destruct (has_kind node "primitive") eqn:Hp; cbn [negb] in Hd; [by apply encode_primitive_ends |].
  destruct (has_kind node "variant") eqn:Hvar.
  { destruct (find_leaf_known net node (fun leaf => bool_decide (Some (identity leaf) = recordIdentity h v)) Hok Hvar)
      as (found & -> & Hfound). cbn [coded_bind]. destruct found as [leaf|]; [| done].
    destruct (Hfound leaf eq_refl) as (_ & ids & id & _ & _ & Hleaf).
    eapply ends_bind; [by apply key_costs_ends |]. intros b2 Hb2.
    eapply ends_bind; [by apply visit_ends |]. intros b3 (Hb3 & _ & _).
    eapply ends_bind; [by apply textCost_ends |]. intros b4 Hb4.
    apply IH; try done; [by eapply Hgraph | lia]. }
  destruct (typeof_object h v) as [[l o]|] eqn:Hobj; [| done]. case_bool_decide; [done |].
  assert (is_array_value h v = is_array o) as Ha.
  { unfold typeof_object, is_array_value in *. destruct v as [| | | | | |l']; try done.
    destruct (objects h !! l') as [o'|]; [| done]. destruct (is_function o'); [done |]. by injection Hobj as _ ->. }
  destruct (has_kind node "array") eqn:Harr.
  { destruct (is_array o); [cbn [negb] | done].
    eapply ends_bind; [apply checkedData_ends |]. intros len Hlen.
    destruct (Harrays v len) as (n & -> & Hn); [done | done |].
    eapply ends_bind; [apply charge_ends; [done | unfold array_cost, MAX_SAFE; lia] |]. intros b2 Hb2.
    eapply ends_bind; [apply checkedData_ends |]. intros items Hitems.
    assert (exists e en, element node = Some e /\ net !! e = Some en) as (e & en & He & Hen).
    { unfold node_ok in Hok. rewrite Hp, Hvar, Harr in Hok.
      destruct (element node) as [e|]; [| done]. apply bool_decide_eq_true in Hok as [en Hen]. by exists e, en. }
    rewrite He. apply (encode_items_end fuel _ e en); try done; [lia | exact (items_print v items Hitems)]. }
  assert (has_kind node "record" || has_kind node "error" = true /\ forallb (field_ok net) (node_fields node) = true
    /\ Z.of_nat (length (node_fields node)) < 2 ^ 32) as (Hrec & Hfs & Hlen).
  { unfold node_ok in Hok. rewrite Hp, Hvar, Harr in Hok. rewrite !andb_true_iff, Z.ltb_lt in Hok. tauto. }
  rewrite Hrec. cbn [negb]. case_bool_decide; cbn [negb]; [| done]. unfold data_record.
  destruct (is_array_value h v) eqn:Hav; [done |]. eapply ends_bind; [apply checkedData_ends |]. intros ks _.
  eapply ends_bind; [apply key_costs_ends; [done | by rewrite length_fmap] |]. intros b2 Hb2.
  eapply ends_bind; [apply (encode_fields_end fuel); try done; lia |]. intros c' Hc'.
  apply (ends_bind _ _ (fun _ => True)); [unfold extras; by destruct (sort_strings _) |]. by intros _ _.
Qed.
End encode.

(** ** Properties *)

Section properties.
Context (number_text : num -> jstr) (schema : Schema) (net : node_map).

Lemma root_ok : schema_ok schema net -> exists node, net !! root schema = Some node /\ node_ok net node = true.
Proof. intros (_ & [node Hnode] & Hg). exists node. split; [done | by eapply Hg]. Qed.

Lemma project_with_ends fuel b h d :
  schema_ok schema net -> doc_tokens d = true -> budget_ok b -> heap_ok h -> maxDepth < Z.of_nat fuel ->
  ends (project_with fuel schema d b h) (fun r => let '(v, (_, h')) := r in
    heap_ok h' /\ extends h h' /\ exists node, net !! root schema = Some node /\ typed net h' node v).
Proof.
  intros Hs Hd Hb Hh Hfuel. destruct (root_ok Hs) as (node & Hnode & Hok). destruct Hs as (Hgraph & _ & Hg).
  unfold project_with. rewrite Hgraph. cbn [coded_bind]. rewrite (get_known _ _ _ Hnode). cbn [coded_bind].
  eapply ends_weaken; [apply (projects_all net Hg fuel); try done; unfold maxDepth in *; lia |].
  intros [v [b' h']] (_ & _ & Hh' & Hext & Ht). split_and!; [done | done |]. by exists node.
Qed.

Lemma encode_with_ends fuel h v cap :
  schema_ok schema net -> arrays_ok h -> heap_prints number_text h -> value_prints number_text v ->
  1 <= cap <= 67108864 -> maxDepth < Z.of_nat fuel ->
  ends (encode_with fuel number_text schema h v cap) (fun encoded => Z.of_nat (length encoded) <= cap).
Proof.
  intros Hs Harr Hheap Hv Hcap Hfuel. destruct (root_ok Hs) as (node & Hnode & Hok).
  pose proof Hs as (Hgraph & _ & Hg).
  pose proof (visits_end_all number_text net h Hg Harr Hheap fuel ∅ node v [] 0 (mkBudget cap cap 0, ∅)) as Hends.
  unfold maxDepth in *. specialize (Hends Hok Hv ltac:(unfold budget_ok, maxNodes; cbn; lia) ltac:(lia)).
  destruct (encode_visit number_text net h fuel ∅ node v [] 0 (mkBudget cap cap 0, ∅)) as [[b' ints]|q r|] eqn:Hvisit;
    [| | done].
  - destruct (encode_after_preflight number_text schema net h Hs Hheap fuel node v cap b' ints) as (d & -> & _ & Hsize & Hr & _);
      try done. cbn. unfold doc_size, byte_size in Hsize. lia.
  - unfold encode_with. rewrite Hgraph, new_Budget_cap by done. cbn [coded_bind].
    rewrite (get_known _ _ _ Hnode). cbn [coded_bind]. by rewrite Hvisit.
Qed.
End properties.

(** C22. Encoding a value and decoding the bytes, under the same cap and with any
    heap to build in, gives a value of the same description: the same schema
    node, record identities, leaves of variants, members, elements, texts and
    numbers.  Floats come back as [JSON.parse] reads what [JSON.stringify]
    printed, so the hypothesis on the printer is that the floats of the value
    read back. *)
Theorem json_roundtrip number_text schema net h v cap encoded hd :
  schema_ok schema net -> heap_prints number_text h -> value_prints number_text v -> heap_ok hd ->
  encodeJSON number_text schema h v cap = Coded encoded ->
  exists node d v' hd', net !! root schema = Some node
    /\ describes net h node v d /\ encoded = utf8_encode (JSON_stringify d)
    /\ decodeJSON schema hd encoded cap = Coded (v', hd')
    /\ describes net hd' node v' d /\ extends hd hd'.
Proof.
  intros Hs Hheap Hv Hhd Henc.
  destruct (encode_ok number_text schema net h Hs Hheap _ v cap encoded Hv Henc) as
    (node & d & Hnode & -> & Hdesc & Hsize & Hcap & Hfits).
  destruct (decode_described schema net h Hs node v d cap hd Hnode Hdesc Hsize Hcap Hfits Hhd) as
    (v' & hd' & Hdec & Hdesc' & _ & Hext).
  exists node, d, v', hd'. done.
Qed.

(** C23. Encoding any value of the heap, of whatever shape, cyclic ones included,
    ends in at most [cap] bytes or in a codec issue: the budget charged before
    formatting is exactly the length of what the formatter writes, and 66 calls
    are enough for both traversals. *)
Theorem encode_ends_within_budget number_text schema net h v cap :
  schema_ok schema net -> arrays_ok h -> heap_prints number_text h -> value_prints number_text v ->
  1 <= cap <= 67108864 ->
  match encodeJSON number_text schema h v cap with
  | Coded encoded => Z.of_nat (length encoded) <= cap
  | reject _ _ => True
  | Fault _ => False
  end.
Proof. intros. by apply (encode_with_ends number_text schema net visit_fuel). Qed.

(** C24. Decoding any bytes ends in a value of the schema's type or in a codec issue;
    the objects that existed before are untouched. *)
Theorem decoded_is_typed schema net hd input cap :
  schema_ok schema net -> heap_ok hd -> 1 <= cap <= 67108864 ->
  match decodeJSON schema hd input cap with
  | Coded (v, hd') => heap_ok hd' /\ extends hd hd' /\ exists node, net !! root schema = Some node /\ typed net hd' node v
  | reject _ _ => True
  | Fault _ => False
  end.
Proof.
  intros Hs Hh Hcap.
  assert (ends (decodeJSON schema hd input cap) (fun r => let '(v, hd') := r in
    heap_ok hd' /\ extends hd hd' /\ exists node, net !! root schema = Some node /\ typed net hd' node v)) as H; [| done].
  unfold decodeJSON. rewrite new_Budget_cap by done. cbn [coded_bind].
  apply (ends_bind _ _ (fun d => doc_tokens d = true)).
  { unfold parseDocument. apply (ends_bind _ _ (fun _ => True)); [| intros text _; apply parseJSONText_ends].
    unfold decodeText. destruct (cap <? _); [done |]. by destruct (utf8_decode input). }
  intros d Hd. eapply ends_bind; [apply (project_with_ends schema net visit_fuel); try done;
    unfold budget_ok, maxNodes; cbn; lia |]. by intros [v [b' hd']].
Qed.

(** ** A schema and a value *)

Definition prim (k : string) : SchemaNode := mkNode (js k) (js "primitive") (js k) None None None.

Definition demo_nodes : list SchemaNode :=
  [prim "str"; prim "int"; prim "float"; prim "bool";
   mkNode (js "tags") (js "array") (js "tags") (Some (js "str")) None None;
   mkNode (js "item") (js "record") (js "item") None
     (Some [mkField (js "name") (js "str"); mkField (js "count") (js "int");
            mkField (js "tags") (js "tags"); mkField (js "ratio") (js "float"); mkField (js "next") (js "choice")]) None;
   mkNode (js "end") (js "record") (js "end") None None None;
   mkNode (js "choice") (js "variant") (js "choice") None None (Some [js "item"; js "end"])].

Definition demo_schema : Schema := mkSchema (js "choice") demo_nodes.
Definition demo_net : node_map := list_to_map ((fun node => (identity node, node)) <$> demo_nodes).

(** A printer that is right for [1.5]. *)
Definition demo_text (x : num) : jstr := js "1.5".
Definition one_and_a_half : num := number_of_token (js "1.5").

Definition demo_heap_value : value * heap :=
  let '(tags, h) := array empty_heap [VStr (js "x"); VStr [233; 10]%N] in
  match record h (js "end") [] with
  | Ret (e, h) =>
      match record h (js "item") [(js "name", VStr (js "a")); (js "count", VBigInt (-12)); (js "tags", tags);
                                  (js "ratio", VNum one_and_a_half); (js "next", e)] with
      | Ret r => r
      | Throw _ => (VNull, h)
      end
  | Throw _ => (VNull, h)
  end.

Lemma demo_schema_ok : schema_ok demo_schema demo_net.
Proof.
  split_and!; [vm_compute; reflexivity | eexists; vm_compute; reflexivity |].
  assert (bool_decide (map_Forall (fun _ node => node_ok demo_net node = true) demo_net) = true) as H
    by (vm_compute; reflexivity).
  apply bool_decide_eq_true in H. intros id node Hid. exact (H id node Hid).
Qed.

Lemma demo_heap_prints : heap_prints demo_text demo_heap_value.2.
Proof.
  assert (forallb (fun o => is_array o || forallb (fun p => match p.2 with
    | DataProp (VNum x) => bool_decide (x = one_and_a_half) | _ => true end) (props o)
    ) ((map_to_list (objects demo_heap_value.2)).*2)
    && forallb (fun o => negb (is_array o) || forallb (fun p => match p.2 with
    | DataProp (VNum x) => bool_decide (p.1 = length_key) | _ => true end) (props o)
    ) ((map_to_list (objects demo_heap_value.2)).*2) = true) as H by (vm_compute; reflexivity).
  apply andb_true_iff in H as [H1 H2]. rewrite forallb_forall in H1, H2.
  intros l o k x Ho Hin Hk Hfin.
  assert (In o ((map_to_list (objects demo_heap_value.2)).*2)) as Hmem.
  { apply list_elem_of_In, list_elem_of_fmap. exists (l, o). split; [done |]. by apply elem_of_map_to_list. }
  specialize (H1 o Hmem). specialize (H2 o Hmem). apply list_elem_of_In in Hin. destruct (is_array o) eqn:Ha; cbn in *.
  - rewrite forallb_forall in H2. specialize (H2 _ Hin). cbn in H2. apply bool_decide_eq_true in H2. by destruct Hk.
  - rewrite forallb_forall in H1. specialize (H1 _ Hin). cbn in H1. apply bool_decide_eq_true in H1 as ->.
    split_and!; by vm_compute.
Qed.

Lemma demo_value_prints : value_prints demo_text demo_heap_value.1.
Proof. intros x Hx. vm_compute in Hx. discriminate. Qed.

Definition demo_json : jstr :=
  dq "{'case':'item','value':{'name':'a','count':-12,'tags':['x','" ++ [233%N] ++
  dq "\n'],'ratio':1.5,'next':{'case':'end','value':{}}}}".

Example demo_encodes :
  encodeJSON demo_text demo_schema demo_heap_value.2 demo_heap_value.1 1000 = Coded (utf8_encode demo_json).
Proof. vm_compute. reflexivity. Qed.

Lemma json_roundtrip_witness :
  exists v' hd', decodeJSON demo_schema empty_heap (utf8_encode demo_json) 1000 = Coded (v', hd').
Proof.
  destruct (json_roundtrip demo_text demo_schema demo_net demo_heap_value.2 demo_heap_value.1 1000 _ empty_heap
    demo_schema_ok demo_heap_prints demo_value_prints empty_heap_ok demo_encodes) as (_ & _ & v' & hd' & _ & _ & _ & H & _).
  by exists v', hd'.
Defined.

(** [arrays_ok] by evaluation. *)
Definition array_ok (o : object) : bool :=
  negb (is_array o) || match find_prop (props o) length_key with
    | Some (DataProp x) => match array_length x with Some n => Z.of_nat n <? 2 ^ 32 | None => false end
    | _ => true
    end.

Lemma arrays_ok_check h : forallb array_ok (map_to_list (objects h)).*2 = true -> arrays_ok h.
Proof.
  rewrite forallb_forall. intros H v x Ha Hp. unfold dataProperty in Hp.
  apply res_bind_ret in Hp as (o & Ho & Hp). destruct v as [| | | | | |l]; try done. unfold is_array_value in Ha. cbn in Ho.
  destruct (objects h !! l) as [o'|] eqn:Hl; [| done].
  destruct (is_function o' || is_proxy o'); [done |]. injection Ho as ->.
  assert (In o (map_to_list (objects h)).*2) as Hmem.
  { apply list_elem_of_In, list_elem_of_fmap. exists (l, o). split; [done |]. by apply elem_of_map_to_list. }
  specialize (H o Hmem). unfold array_ok in H. rewrite Ha in H. cbn in H.
  destruct (find_prop (props o) length_key) as [[y|]|]; try done.
  injection Hp as ->. destruct (array_length x) as [n|]; [| done]. exists n. split; [done | by apply Z.ltb_lt].
Qed.

Lemma demo_arrays_ok : arrays_ok demo_heap_value.2.
Proof. apply arrays_ok_check. vm_compute. reflexivity. Qed.

Lemma encode_ends_within_budget_witness :
  match encodeJSON demo_text demo_schema demo_heap_value.2 demo_heap_value.1 20 with
  | Coded encoded => Z.of_nat (length encoded) <= 20
  | reject _ _ => True
  | Fault _ => False
  end.
Proof.
  apply (encode_ends_within_budget demo_text demo_schema demo_net demo_heap_value.2 demo_heap_value.1 20
    demo_schema_ok demo_arrays_ok demo_heap_prints demo_value_prints). lia.
Defined.

Example demo_decode_issue :
  decodeJSON demo_schema empty_heap (utf8_encode (dq "{'case':'item','value':{'name':'a','count':1.5}}")) 1000
  = reject (js "/value/count") integer_token.
Proof. vm_compute. reflexivity. Qed.

Lemma decoded_is_typed_witness :
  match decodeJSON demo_schema empty_heap (utf8_encode demo_json) 1000 with
  | Coded (v, hd') => heap_ok hd' /\ extends empty_heap hd'
      /\ exists node, demo_net !! root demo_schema = Some node /\ typed demo_net hd' node v
  | reject _ _ => True
  | Fault _ => False
  end.
Proof.
  apply (decoded_is_typed demo_schema demo_net empty_heap (utf8_encode demo_json) 1000 demo_schema_ok empty_heap_ok). lia.
Defined.
