(* ===== verification/JsonValue.v ===== *)
(** * JSON values as data

    [src/runtime/codec/value.ts]: the codec of the language's own JSON type, whose
    values are nominal records (one identity per kind of value and one for the
    members of an object) that carry their content in [value], [values] or
    [members].  A document keeps its integers exact; a token with a fraction, an
    exponent or the sign of [-0] is a float.  The encoder's traversal and its
    formatter share one pass: [rawJSON] makes the tokens it has priced part of the
    tree that [JSON.stringify] writes. *)
From stdpp Require Import base gmap list strings.
From Stdlib Require Import ZArith Lia SpecFloat.
From S2P Require Import Prelude JsNumber JsString Unicode Numbers Digits Data Codec JsonCodec Scan Json.

(** ** Kinds and identities *)

Inductive kind : Type := k_null | k_bool | k_int | k_float | k_string | k_array | k_object | k_member.

#[global] Instance kind_eq_dec : EqDecision kind.
Proof. solve_decision. Defined.

Record JSONValueIds : Type := mkIds {
  id_null : jstr; id_bool : jstr; id_int : jstr; id_float : jstr;
  id_string : jstr; id_array : jstr; id_object : jstr; id_member : jstr
}.

(** [ids[kind]] *)
Definition id_of (ids : JSONValueIds) (k : kind) : jstr :=
  match k with
  | k_null => id_null ids | k_bool => id_bool ids | k_int => id_int ids | k_float => id_float ids
  | k_string => id_string ids | k_array => id_array ids | k_object => id_object ids | k_member => id_member ids
  end.

Definition all_kinds : list kind := [k_null; k_bool; k_int; k_float; k_string; k_array; k_object; k_member].

(** [new Map(Object.entries(ids).map(([kind, id]) => [id, kind]))]: of two kinds
    with one identity the later entry stays. *)
Definition kinds (ids : JSONValueIds) : gmap jstr kind :=
  fold_left (fun m k => <[id_of ids k := k]> m) all_kinds ∅.

(** [/^-?\d+$/.test(token) && token !== "-0"] *)
Definition integer_spelling (token : jstr) : bool :=
  let digits := (strip_minus token).2 in
  negb (bool_decide (digits = [])) && all_digits digits && negb (bool_decide (token = js "-0")).

(** ** Decoding *)
Section decode.
Context (ids : JSONValueIds).

Abbreviation dstate := (Budget * heap)%type.

(** [record(ids[kind], fields)] *)
Definition make (k : kind) (fields : list (jstr * value)) (st : dstate) : coded (value * dstate) :=
  match record st.2 (id_of ids k) fields with
  | Ret (v, h) => Coded (v, (st.1, h))
  | Throw msg => Fault msg
  end.

Section loops.
Context (visit : doc -> jstr -> Z -> dstate -> coded (value * dstate)).

Fixpoint decode_items (items : list doc) (i : nat) (path : jstr) (dep : Z) (st : dstate)
    : coded (list value * dstate) :=
  match items with
  | [] => Coded ([], st)
  | item :: items =>
      let* (v, st) := visit item (indexPath path i) dep st in
      let* (vs, st) := decode_items items (S i) path dep st in
      Coded (v :: vs, st)
  end.

Fixpoint decode_members (ms : list (jstr * doc)) (path : jstr) (dep : Z) (st : dstate)
    : coded (list value * dstate) :=
  match ms with
  | [] => Coded ([], st)
  | (name, d) :: ms =>
      let next := childPath path name in
      let* _ := scalar name next in
      let* (v, st) := visit d next dep st in
      let* (m, st) := make k_member [(js "name", VStr name); (js "value", v)] st in
      let* (vs, st) := decode_members ms path dep st in
      Coded (m :: vs, st)
  end.
End loops.

(** [visit] of [decodeJSONValue].  The members of a parsed object are distinct
    ([parseDocument] refuses duplicates) and listed in the native key order. *)
Fixpoint decode_value (fuel : nat) (d : doc) (path : jstr) (dep : Z) (st : dstate) : coded (value * dstate) :=
  match fuel with
  | O => Fault "fuel"
  | S fuel =>
      let container := match d with DArray _ | DObject _ => true | _ => false end in
      let* b := Codec.visit st.1 (dep + (if container then 1 else 0)) path in
      let st := (b, st.2) in
      match d with
      | DNull => make k_null [] st
      | DBool x => make k_bool [(js "value", VBool x)] st
      | DString s => let* _ := scalar s path in make k_string [(js "value", VStr s)] st
      | DNumber token =>
          if integer_spelling token then
            let* (z, b) := decodeInteger token b path in
            make k_int [(js "value", VBigInt z)] (b, st.2)
          else
            let x := number_of_token token in
            if isFinite x then make k_float [(js "value", VNum x)] st else reject path nonfinite
      | DArray items =>
          let* (vs, st) := decode_items (decode_value fuel) items 0 path (dep + 1) st in
          let '(a, h) := array st.2 vs in
          make k_array [(js "values", a)] (st.1, h)
      | DObject ms =>
          let* (vs, st) := decode_members (decode_value fuel) (property_order ms) path (dep + 1) st in
          let '(a, h) := array st.2 vs in
          make k_object [(js "members", a)] (st.1, h)
      end
  end.
End decode.

Definition decodeJSONValue (ids : JSONValueIds) (h : heap) (input : list N) (bytes : Z) : coded (value * heap) :=
  let* b := new_Budget bytes in
  let* parsed := parseDocument input bytes in
  let* (v, (_, h)) := decode_value ids visit_fuel parsed [] 0 (b, h) in
  Coded (v, h).

(** ** Encoding *)
Section encode.
Context (number_text : num -> jstr) (ids : JSONValueIds) (h : heap).

(** [text]: the priced string. *)
Definition text (b : Budget) (v : value) (path : jstr) : coded (jstr * Budget) :=
  match v with
  | VStr s => let* b := textCost b s path in Coded (s, b)
  | _ => reject path type
  end.

(** The string keys of an object in the native order. *)
Definition ownStrings (ks : list key) : list jstr := (property_order ((fun k => (k, tt)) <$> string_keys ks)).*1.

Definition fields (v : value) (k : kind) (names : list jstr) (path : jstr) : coded (list value) :=
  if negb (bool_decide (recordIdentity h v = Some (id_of ids k))) then reject path type
  else
    let* ks := checkedData (dataKeys h v) path in
    match filter (fun key => key ∉ names) (ownStrings ks) with
    | extra :: _ => reject (childPath path extra) extra_member
    | [] => map_coded (fun name => checkedData (dataProperty h v (KStr name)) path) names
    end.

(** The token of a finite float: an integer spelling gets a fraction, so that it
    is read back as a float. *)
Definition float_token (x : num) : jstr :=
  let token := float_text number_text x in
  if integer_spelling token then token ++ js ".0" else token.

(** The kinds whose content is one [value]. *)
Definition encode_leaf (k : kind) (item : value) (path : jstr) (b : Budget) : coded (doc * Budget) :=
  match k with
  | k_bool =>
      match item with
      | VBool x => let* b := charge b (if x then 4 else 5) path in Coded (DBool x, b)
      | _ => reject path type
      end
  | k_string => let* (s, b) := text b item path in Coded (DString s, b)
  | k_int =>
      match item with
      | VBigInt z => let* (token, b) := encodeInteger z b path in Coded (DNumber token, b)
      | _ => reject path type
      end
  | k_float =>
      match item with
      | VNum x =>
          if isFinite x then
            let* b := charge b (len (float_token x)) path in Coded (DNumber (float_token x), b)
          else reject path nonfinite
      | _ => reject path type
      end
  | _ => reject path variant_tag
  end.

Section loops.
Context (visit : value -> jstr -> Z -> Budget -> coded (doc * Budget)).

Fixpoint encode_entries (items : list value) (i : nat) (path : jstr) (dep : Z) (b : Budget) : coded (list doc * Budget) :=
  match items with
  | [] => Coded ([], b)
  | item :: items =>
      let* (d, b) := visit item (indexPath path i) dep b in
      let* (ds, b) := encode_entries items (S i) path dep b in
      Coded (d :: ds, b)
  end.

(** [seen] are the own properties of [result]. *)
Fixpoint encode_members (entries : list value) (seen : list jstr) (path : jstr) (dep : Z) (b : Budget)
    : coded (list (jstr * doc) * Budget) :=
  match entries with
  | [] => Coded ([], b)
  | entry :: entries =>
      let* content := fields entry k_member [js "name"; js "value"] path in
      match content with
      | [VStr name; child] =>
          let next := childPath path name in
          if bool_decide (name ∈ seen) then reject next duplicate_member
          else
            let* b := textCost b name next in
            let* (d, b) := visit child next dep b in
            let* (ms, b) := encode_members entries (name :: seen) path dep b in
            Coded ((name, d) :: ms, b)
      | _ => reject path type
      end
  end.
End loops.

Definition is_container (k : kind) : bool := match k with k_array | k_object => true | _ => false end.

(** The array that a container's record holds, priced by its length. *)
Definition container_entries (k : kind) (v : value) (path : jstr) (b : Budget) : coded (list value * Budget) :=
  let* content := fields v k [match k with k_array => js "values" | _ => js "members" end] path in
  match content with
  | [items] =>
      let* length := checkedData (dataProperty h items length_key) path in
      match array_length length with
      | None => reject path type
      | Some n =>
          let n := Z.of_nat n in
          let* b := charge b (fadd (array_cost n) (match k with k_object => n | _ => 0 end)) path in
          let* entries := checkedData (dataArray h items) path in
          Coded (entries, b)
      end
  | _ => reject path type
  end.

(** [visit] of [encodeJSONValue]; [active] are the records being walked. *)
Fixpoint encode_value (fuel : nat) (active : gset loc) (v : value) (path : jstr) (dep : Z) (b : Budget)
    : coded (doc * Budget) :=
  match fuel with
  | O => Fault "fuel"
  | S fuel =>
      match kinds ids !! default [] (recordIdentity h v) with
      | None => reject path type
      | Some k =>
          let* b := Codec.visit b (dep + (if is_container k then 1 else 0)) path in
          let within := match v with VRef l => {[ l ]} | _ => ∅ end in
          if bool_decide (within ∩ active ≠ ∅) then reject path cycle
          else
            let active := within ∪ active in
            match k with
            | k_null =>
                let* _ := fields v k [] path in
                let* b := charge b 4 path in Coded (DNull, b)
            | k_array =>
                let* (entries, b) := container_entries k v path b in
                let* (ds, b) := encode_entries (encode_value fuel active) entries 0 path (dep + 1) b in
                Coded (DArray ds, b)
            | k_object =>
                let* (entries, b) := container_entries k v path b in
                let* (ms, b) := encode_members (encode_value fuel active) entries [] path (dep + 1) b in
                Coded (DObject (property_order ms), b)
            | _ =>
                let* content := fields v k [js "value"] path in
                match content with
                | [item] => encode_leaf k item path b
                | _ => reject path type
                end
            end
      end
  end.

Definition encodeJSONValue (input : value) (bytes : Z) : coded (list N) :=
  let* b := new_Budget bytes in
  let* (d, b) := encode_value visit_fuel ∅ input [] 0 b in
  let encoded := utf8_encode (JSON_stringify d) in
  if bool_decide (Z.of_nat (length encoded) = bytes - remaining b) then Coded encoded
  else Fault "codec preflight/formatter length mismatch".
End encode.
