(* ===== verification/JsonValueTheorems.v ===== *)
(** * JSON values: what the codec promises

    The values of the language's JSON type are trees over the heap ([holds]).  The
    encoder accepts exactly those, writes the document of the tree and nothing
    else; the decoder reads a document back as its tree, members in the native key
    order. *)
From stdpp Require Import base gmap list strings sorting.
From Stdlib Require Import ZArith Lia SpecFloat.
From S2P Require Import Prelude JsNumber JsString Unicode Numbers Digits Json Data DataFacts.
From S2P Require Import Codec CodecTheorems Scan JsonCodec JsonCodecTheorems JsonEncodeTheorems JsonTotal.
From S2P Require Import JsonValue.

(** ** The native key order *)
Section order.
Context {A : Type}.
Implicit Types (m : jstr * A) (ms : list (jstr * A)).

Abbreviation index_le := (fun m m' : jstr * A => (dec_value m.1 <= dec_value m'.1)%N).

Lemma insert_index_perm m ms : insert_index m ms ≡ₚ m :: ms.
Proof. induction ms as [|m' ms IH]; cbn; [done |]. case_match; [rewrite IH; apply perm_swap | done]. Qed.

Lemma sort_index_perm ms : foldr insert_index [] ms ≡ₚ ms.
Proof. induction ms as [|m ms IH]; cbn; [done |]. by rewrite insert_index_perm, IH. Qed.

Lemma property_order_perm ms : property_order ms ≡ₚ ms.
Proof.
  unfold property_order. rewrite sort_index_perm.
  induction ms as [|m ms IH]; [done |]. rewrite !filter_cons. destruct (is_array_index m.1) eqn:Hm.
  - destruct (decide (true = true)); [| done]. destruct (decide (true = false)); [done |]. cbn. by rewrite IH.
  - destruct (decide (false = true)); [done |]. destruct (decide (false = false)); [| done].
    by rewrite <- Permutation_middle, IH.
Qed.

Lemma insert_index_sorted m ms :
  StronglySorted index_le ms -> StronglySorted index_le (insert_index m ms).
Proof.
  induction 1 as [|m' ms Hs IH Hall]; cbn; [by repeat constructor |].
  destruct (N.ltb_spec (dec_value m'.1) (dec_value m.1)) as [Hlt|Hle].
  - constructor; [done |]. rewrite Forall_forall in *. intros x. rewrite insert_index_perm, elem_of_cons.
    intros [->|Hx]; [lia | by apply Hall].
  - constructor; [by constructor |]. constructor; [done |]. eapply Forall_impl; [exact Hall |]. cbn. intros; lia.
Qed.

Lemma sort_index_id ms : StronglySorted index_le ms -> foldr insert_index [] ms = ms.
Proof.
  induction 1 as [|m ms Hs IH Hall]; [done |]. cbn. rewrite IH. destruct ms as [|m' ms]; [done |]. cbn.
  apply Forall_cons in Hall as [Hm _]. destruct (N.ltb_spec (dec_value m'.1) (dec_value m.1)); [lia | done].
Qed.

Lemma property_order_idem ms : property_order (property_order ms) = property_order ms.
Proof.
  unfold property_order at 1. set (xs := foldr insert_index [] (filter (fun m => is_array_index m.1 = true) ms)).
  set (ys := filter (fun m => is_array_index m.1 = false) ms).
  assert (Forall (fun m => is_array_index m.1 = true) xs) as Hxs.
  { apply Forall_forall. intros m. unfold xs. rewrite sort_index_perm, list_elem_of_filter. tauto. }
  assert (Forall (fun m => is_array_index m.1 = false) ys) as Hys.
  { apply Forall_forall. intros m. unfold ys. rewrite list_elem_of_filter. tauto. }
  assert (property_order ms = xs ++ ys) as -> by done. rewrite !filter_app.
  assert (forall b (l : list (jstr * A)), Forall (fun m => is_array_index m.1 = b) l ->
    filter (fun m => is_array_index m.1 = b) l = l /\ filter (fun m => is_array_index m.1 = negb b) l = []) as Hf.
  { intros b l. induction 1 as [|m l Hm Hl [IH1 IH2]]; [done |]. rewrite filter_cons_True, IH1 by done.
    rewrite filter_cons_False, IH2; [done |]. rewrite Hm. by destruct b. }
  destruct (Hf true xs Hxs) as [-> Hx]. destruct (Hf false ys Hys) as [-> Hy]. cbn [negb] in *. rewrite Hx, Hy, app_nil_r.
  cbn [app]. f_equal. apply sort_index_id. unfold xs. clear.
  induction (filter (fun m => is_array_index m.1 = true) ms) as [|m l IH]; cbn; [constructor | by apply insert_index_sorted].
Qed.
End order.

(** Reordering looks at the names only. *)
Lemma property_order_fmap {A B} (f : A -> B) (ms : list (jstr * A)) :
  property_order ((fun m => (m.1, f m.2)) <$> ms) = (fun m => (m.1, f m.2)) <$> property_order ms.
Proof.
  unfold property_order. set (g := fun m : jstr * A => (m.1, f m.2)).
  assert (forall b (l : list (jstr * A)), filter (fun m : jstr * B => is_array_index m.1 = b) (g <$> l)
    = g <$> filter (fun m : jstr * A => is_array_index m.1 = b) l) as Hf.
  { intros b l. induction l as [|m l IH]; [done |]. rewrite fmap_cons, !filter_cons. cbn [g fst].
    destruct (decide (is_array_index m.1 = b)); [by rewrite fmap_cons, IH | done]. }
  rewrite !Hf, fmap_app. f_equal.
  assert (forall m (l : list (jstr * A)), insert_index (g m) (g <$> l) = g <$> insert_index m l) as Hi.
  { intros m l. induction l as [|m' l IH]; [done |]. rewrite fmap_cons. cbn. rewrite IH. by destruct (_ <? _)%N. }
  induction (filter (fun m => is_array_index m.1 = true) ms) as [|m l IH]; [done |].
  rewrite fmap_cons. cbn [foldr]. by rewrite IH, Hi.
Qed.

(** ** Trees *)

#[warnings="-register-all"]
Inductive tree : Type :=
| TNull
| TBool (b : bool)
| TInt (z : Z)
| TFloat (x : num)
| TString (s : jstr)
| TArray (items : list tree)
| TObject (members : list (jstr * tree)).

Section tree_induction.
Context (P : tree -> Prop).
Hypothesis P_null : P TNull.
Hypothesis P_bool : forall b, P (TBool b).
Hypothesis P_int : forall z, P (TInt z).
Hypothesis P_float : forall x, P (TFloat x).
Hypothesis P_string : forall s, P (TString s).
Hypothesis P_array : forall items, Forall P items -> P (TArray items).
Hypothesis P_object : forall members, Forall (fun m => P m.2) members -> P (TObject members).

Fixpoint tree_induction (t : tree) : P t :=
  match t with
  | TNull => P_null
  | TBool b => P_bool b
  | TInt z => P_int z
  | TFloat x => P_float x
  | TString s => P_string s
  | TArray items =>
      P_array items ((fix go l : Forall P l :=
        match l with [] => Forall_nil_2 _ | t :: l => Forall_cons_2 _ _ _ (tree_induction t) (go l) end) items)
  | TObject members =>
      P_object members ((fix go l : Forall (fun m => P m.2) l :=
        match l with [] => Forall_nil_2 _ | m :: l => Forall_cons_2 _ _ _ (tree_induction m.2) (go l) end) members)
  end.
End tree_induction.

(** The members of every object in the native key order. *)
Fixpoint native (t : tree) : tree :=
  match t with
  | TArray items => TArray (native <$> items)
  | TObject members => TObject (property_order ((fun m => (m.1, native m.2)) <$> members))
  | _ => t
  end.

(** The tree a parsed document stands for. *)
Fixpoint tree_of (d : doc) : tree :=
  match d with
  | DNull => TNull
  | DBool b => TBool b
  | DNumber token =>
      if integer_spelling token then TInt (bigint_of_text token) else TFloat (number_of_token token)
  | DString s => TString s
  | DArray items => TArray (tree_of <$> items)
  | DObject members => TObject (property_order ((fun m => (m.1, tree_of m.2)) <$> members))
  end.

Section document.
Context (number_text : num -> jstr).

(** The document that stands for a tree. *)
Fixpoint document (t : tree) : doc :=
  match t with
  | TNull => DNull
  | TBool b => DBool b
  | TInt z => DNumber (dec_of_Z z)
  | TFloat x => DNumber (float_token number_text x)
  | TString s => DString s
  | TArray items => DArray (document <$> items)
  | TObject members => DObject (property_order ((fun m => (m.1, document m.2)) <$> members))
  end.

(** The token of a float reads back as the float. *)
Definition prints (x : num) : Prop :=
  number_token (float_token number_text x) = true /\ number_of_token (float_token number_text x) = x.
End document.

(** ** Values of the heap *)
Section holds.
Context (ids : JSONValueIds) (h : heap).

(** A record of kind [k] with exactly these fields. *)
Definition is_record (v : value) (k : kind) (fs : list (jstr * value)) : Prop :=
  recordIdentity h v = Some (id_of ids k)
  /\ (exists ks, dataKeys h v = Ret ks /\ forall s, KStr s ∈ ks -> s ∈ fs.*1)
  /\ forall name x, (name, x) ∈ fs -> dataProperty h v (KStr name) = Ret x.

#[warnings="-register-all"]
Inductive holds : value -> tree -> Prop :=
| holds_null v : is_record v k_null [] -> holds v TNull
| holds_bool v b : is_record v k_bool [(js "value", VBool b)] -> holds v (TBool b)
| holds_int v z : is_record v k_int [(js "value", VBigInt z)] -> holds v (TInt z)
| holds_float v x : is_record v k_float [(js "value", VNum x)] -> isFinite x = true -> holds v (TFloat x)
| holds_string v s : is_record v k_string [(js "value", VStr s)] -> text_ok s -> holds v (TString s)
| holds_array v a vs items :
    is_record v k_array [(js "values", a)] -> dataArray h a = Ret vs -> Forall2 holds vs items ->
    holds v (TArray items)
| holds_object v a es members :
    is_record v k_object [(js "members", a)] -> dataArray h a = Ret es ->
    Forall2 (fun e m => text_ok m.1 /\ exists x,
      is_record e k_member [(js "name", VStr m.1); (js "value", x)] /\ holds x m.2) es members ->
    NoDup members.*1 -> holds v (TObject members).

(** ** The fields of a record *)

Lemma ownStrings_elem ks s : s ∈ ownStrings ks <-> KStr s ∈ ks.
Proof.
  unfold ownStrings. rewrite (property_order_perm (A := unit)), <- list_fmap_compose. cbn.
  rewrite list_elem_of_fmap. unfold string_keys. split.
  - intros (s' & -> & (k & Hk & Hs)%list_elem_of_omap). destruct k as [s''|]; [| done]. by injection Hs as ->.
  - intros Hs. exists s. split; [done |]. apply list_elem_of_omap. by exists (KStr s).
Qed.

Lemma fields_record v k names path xs :
  fields ids h v k names path = Coded xs -> length xs = length names /\ is_record v k (zip names xs).
Proof.
  unfold fields. case_bool_decide as Hid; cbn [negb]; [| done]. unfold checkedData.
  destruct (dataKeys h v) as [ks|] eqn:Hks; [| done]. cbn [coded_bind].
  destruct (filter _ (ownStrings ks)) as [|extra extras] eqn:Hfilter; [| done]. intros Hxs.
  assert (Forall2 (fun name x => dataProperty h v (KStr name) = Ret x) names xs) as Hall.
  { revert xs Hxs. generalize names as l. clear. induction l as [|name l IH]; intros xs; cbn; [by intros [= <-] |].
    destruct (dataProperty h v (KStr name)) as [x|] eqn:Hx; [cbn | done].
    intros (ys & Hys & [= <-])%coded_bind_ok. constructor; [done | by apply IH]. }
  pose proof (Forall2_length _ _ _ Hall) as Hlen. split; [done |]. split_and!; [done | |].
  - exists ks. split; [done |]. intros s Hs. change ((zip names xs).*1) with (fst <$> zip names xs).
    rewrite fst_zip by lia. destruct (decide (s ∈ names)) as [|Hno]; [done | exfalso].
    assert (s ∈ filter (fun key => key ∉ names) (ownStrings ks)) as Hin
      by (apply list_elem_of_filter; split; [done | by apply ownStrings_elem]).
    rewrite Hfilter in Hin. by apply elem_of_nil in Hin.
  - intros name x Hin. rewrite Forall2_lookup in Hall. apply list_elem_of_lookup in Hin as [i Hi].
    apply lookup_zip_with_Some in Hi as (n & y & [= <- <-] & Hn & Hy). specialize (Hall i). rewrite Hn, Hy in Hall.
    by inversion Hall.
Qed.

Lemma record_fields v k names xs path :
  is_record v k (zip names xs) -> length xs = length names -> fields ids h v k names path = Coded xs.
Proof.
  intros (Hid & (ks & Hks & Hin) & Hread) Hlen. unfold fields. rewrite bool_decide_true by done. cbn [negb].
  unfold checkedData at 1. rewrite Hks. cbn [coded_bind].
  change ((zip names xs).*1) with (fst <$> zip names xs) in Hin. rewrite fst_zip in Hin by lia.
  assert (filter (fun key => key ∉ names) (ownStrings ks) = []) as ->.
  { destruct (filter _ (ownStrings ks)) as [|s l] eqn:Hf; [done | exfalso].
    assert (s ∈ filter (fun key => key ∉ names) (ownStrings ks)) as [Hs H%ownStrings_elem]%list_elem_of_filter
      by (rewrite Hf; by left).
    by apply Hs, Hin. }
  clear Hin. assert (forall name x, (name, x) ∈ zip names xs -> dataProperty h v (KStr name) = Ret x) as H by done.
  clear Hread. revert xs Hlen H. induction names as [|name names IH]; intros [|x xs] Hlen H; try done. cbn [map_coded].
  rewrite (H name x) by by left. cbn [checkedData coded_bind]. rewrite (IH xs); [done | by injection Hlen |].
  intros n y Hy. apply H. by right.
Qed.

Lemma one_field v k name path x : fields ids h v k [name] path = Coded [x] <-> is_record v k [(name, x)].
Proof. split; [intros [_ H]%fields_record; done | intros H; by apply (record_fields _ _ [name] [x])]. Qed.

Lemma two_fields v k n1 n2 path x1 x2 :
  fields ids h v k [n1; n2] path = Coded [x1; x2] <-> is_record v k [(n1, x1); (n2, x2)].
Proof. split; [intros [_ H]%fields_record; done | intros H; by apply (record_fields _ _ [n1; n2] [x1; x2])]. Qed.

Lemma no_field v path : fields ids h v k_null [] path = Coded [] <-> is_record v k_null [].
Proof. split; [intros [_ H]%fields_record; done | intros H; by apply (record_fields _ _ [] [])]. Qed.

(** ** Kinds *)

Lemma kinds_known s k : kinds ids !! s = Some k -> id_of ids k = s.
Proof.
  unfold kinds, all_kinds. cbn [fold_left]. intros H.
  repeat (apply lookup_insert_Some in H as [[<- <-]|[_ H]]; [done |]). by rewrite lookup_empty in H.
Qed.

Context (Hids : NoDup (id_of ids <$> all_kinds)).

Lemma id_of_inj k k' : id_of ids k = id_of ids k' -> k = k'.
Proof using Hids.
  intros H. assert (forall k, exists i, all_kinds !! i = Some k) as Hall.
  { intros []; [by exists 0%nat | by exists 1%nat | by exists 2%nat | by exists 3%nat | by exists 4%nat
    | by exists 5%nat | by exists 6%nat | by exists 7%nat]. }
  destruct (Hall k) as [i Hi], (Hall k') as [j Hj]. assert (i = j) as <-; [| congruence].
  eapply NoDup_lookup; [exact Hids | | ]; rewrite list_lookup_fmap, ?Hi, ?Hj; cbn; [done | by rewrite H].
Qed.

Lemma kinds_of k : kinds ids !! id_of ids k = Some k.
Proof using Hids.
  unfold kinds, all_kinds. cbn [fold_left].
  destruct k; repeat first [by rewrite lookup_insert_eq | rewrite lookup_insert_ne by by intros ?%id_of_inj].
Qed.

Lemma record_kind v k fs : is_record v k fs -> kinds ids !! default [] (recordIdentity h v) = Some k.
Proof using Hids. intros (-> & _). apply kinds_of. Qed.

Lemma record_same_kind v k k' fs fs' : is_record v k fs -> is_record v k' fs' -> k = k'.
Proof using Hids. intros (H & _) (H' & _). rewrite H in H'. injection H' as H'. by apply id_of_inj. Qed.

Lemma record_same_field v k fs fs' name x y :
  is_record v k fs -> is_record v k fs' -> (name, x) ∈ fs -> (name, y) ∈ fs' -> x = y.
Proof. intros (_ & _ & H) (_ & _ & H') Hx Hy. specialize (H _ _ Hx). specialize (H' _ _ Hy). congruence. Qed.

Definition member_holds (e : value) (m : jstr * tree) : Prop :=
  text_ok m.1 /\ exists x, is_record e k_member [(js "name", VStr m.1); (js "value", x)] /\ holds x m.2.

Lemma items_unique items :
  Forall (fun t => forall v t', holds v t -> holds v t' -> t = t') items -> forall vs items',
  Forall2 holds vs items -> Forall2 holds vs items' -> items = items'.
Proof using.
  induction 1 as [|t items Ht _ IH]; intros vs items' H H'.
  - apply Forall2_nil_inv_r in H as ->. by apply Forall2_nil_inv_l in H' as ->.
  - apply Forall2_cons_inv_r in H as (v & vs' & Hv & Hvs & ->).
    apply Forall2_cons_inv_l in H' as (t' & items'' & Ht' & Hts & ->). f_equal; [by eapply Ht | by eapply IH].
Qed.

Lemma members_unique members :
  Forall (fun m => forall v t', holds v m.2 -> holds v t' -> m.2 = t') members -> forall es members',
  Forall2 member_holds es members -> Forall2 member_holds es members' -> members = members'.
Proof using.
  induction 1 as [|[k t] members Ht _ IH]; intros es members' H H'.
  - apply Forall2_nil_inv_r in H as ->. by apply Forall2_nil_inv_l in H' as ->.
  - apply Forall2_cons_inv_r in H as (e & es' & (_ & x & Hr & Hx) & Hes & ->).
    apply Forall2_cons_inv_l in H' as ([k' t'] & members'' & (_ & y & Hr' & Hy) & Hms & ->). cbn [fst snd] in *.
    pose proof (record_same_field _ _ _ _ (js "name") _ _ Hr Hr' ltac:(by left) ltac:(by left)) as [= ->].
    assert (x = y) as -> by (apply (record_same_field _ _ _ _ (js "value") _ _ Hr Hr'); right; by left).
    f_equal; [f_equal; by eapply Ht | by eapply IH].
Qed.

(** A value stands for at most one tree. *)
Lemma holds_unique t : forall v t', holds v t -> holds v t' -> t = t'.
Proof using Hids.
  assert (forall v k n x y, is_record v k [(n, x)] -> is_record v k [(n, y)] -> x = y) as Hone.
  { intros v k n x y R R'. apply (record_same_field _ _ _ _ n _ _ R R'); by left. }
  induction t as [|b|z|x|s|items IH|members IH] using tree_induction; intros v t' H H';
    inversion H as [? R|? ? R|? ? R|? ? R|? ? R|? a vs ? R Ha Hall|? a es ? R Ha Hall]; subst;
    inversion H' as [? R'|? ? R'|? ? R'|? ? R'|? ? R'|? a' vs' ? R' Ha' Hall'|? a' es' ? R' Ha' Hall']; subst;
    pose proof (record_same_kind _ _ _ _ _ R R'); try done; pose proof (Hone _ _ _ _ _ R R'); try congruence.
  - assert (vs' = vs) as -> by congruence. f_equal. by eapply items_unique.
  - assert (es' = es) as -> by congruence. f_equal. by apply (members_unique members IH es).
Qed.
End holds.

(** ** Sums over reordered members *)

Lemma sum_perm {A} (f : A -> Z) (l l' : list A) :
  l ≡ₚ l' -> foldr (fun m n => f m + n) 0 l = foldr (fun m n => f m + n) 0 l'.
Proof. induction 1; cbn; lia. Qed.

Lemma max_perm {A} (f : A -> Z) (l l' : list A) :
  l ≡ₚ l' -> foldr (fun m n => Z.max (f m) n) 0 l = foldr (fun m n => Z.max (f m) n) 0 l'.
Proof. induction 1; cbn; lia. Qed.

Lemma property_order_names {A} (ms : list (jstr * A)) : NoDup ms.*1 -> NoDup (property_order ms).*1.
Proof. by rewrite property_order_perm. Qed.

Lemma fmap_names {A B} (f : A -> B) (ms : list (jstr * A)) : ((fun m => (m.1, f m.2)) <$> ms).*1 = ms.*1.
Proof. rewrite <- list_fmap_compose. by apply list_fmap_ext. Qed.

(** The document of an object whose members are listed in any order. *)
Lemma ordered_object ms :
  doc_ok (DObject ms) = doc_ok (DObject (property_order ms))
  /\ doc_nodes (DObject (property_order ms)) = doc_nodes (DObject ms)
  /\ doc_depth (DObject (property_order ms)) = doc_depth (DObject ms)
  /\ (doc_ok (DObject ms) = true -> doc_size (DObject (property_order ms)) = doc_size (DObject ms)).
Proof.
  pose proof (property_order_perm ms) as Hp.
  assert (doc_ok (DObject ms) = doc_ok (DObject (property_order ms))) as Hok.
  { apply eq_iff_eq_true. cbn [doc_ok]. rewrite !forallb_forall. split; intros H m Hm; apply H;
      apply list_elem_of_In; apply list_elem_of_In in Hm; by rewrite Hp in *. }
  split_and!; [done | | |].
  - cbn [doc_nodes]. by rewrite (sum_perm (fun m => doc_nodes m.2) _ _ Hp).
  - cbn [doc_depth]. by rewrite (max_perm (fun m => doc_depth m.2) _ _ Hp).
  - intros H. rewrite !object_size by (cbn [doc_ok] in *; congruence).
    rewrite (Permutation_length Hp). f_equal.
    transitivity (foldr (fun m n => (byte_size (json_quote m.1) + doc_size m.2) + n) 0 (property_order ms)); [done |].
    by rewrite (sum_perm (fun m => byte_size (json_quote m.1) + doc_size m.2) _ _ Hp).
Qed.

(** ** What the encoder writes *)

Lemma float_token_float number_text x : integer_spelling (float_token number_text x) = false.
Proof.
  unfold float_token. destruct (integer_spelling (float_text number_text x)) eqn:H; [| done].
  unfold integer_spelling. set (t := float_text number_text x ++ js ".0").
  assert (46%N ∈ (strip_minus t).2) as Hin.
  { assert (46%N ∈ t) as Ht by (unfold t; rewrite elem_of_app; right; by left).
    unfold strip_minus. destruct t as [|c t']; [by apply elem_of_nil in Ht |].
    apply elem_of_cons in Ht. repeat case_match; subst; cbn; try (by apply elem_of_cons; tauto).
    destruct Ht as [|Ht]; [done |]. done. }
  apply andb_false_iff. left. apply andb_false_iff. right. apply not_true_iff_false. intros Hd.
  unfold all_digits in Hd. rewrite forallb_forall in Hd. specialize (Hd 46%N (proj1 (list_elem_of_In _ _) Hin)). done.
Qed.

Section encode.
Context (number_text : num -> jstr) (ids : JSONValueIds) (h : heap).

(** The floats that records hold print as tokens that read back as the floats;
    like every string of the language the tokens have a safe length. *)
Definition floats_print : Prop :=
  forall v x, dataProperty h v (KStr (js "value")) = Ret (VNum x) -> isFinite x = true ->
  prints number_text x /\ len (float_token number_text x) <= MAX_SAFE.

Context (Hfloats : floats_print).

Lemma record_float v x : is_record ids h v k_float [(js "value", VNum x)] -> isFinite x = true ->
  prints number_text x /\ len (float_token number_text x) <= MAX_SAFE.
Proof using Hfloats. intros (_ & _ & H) Hx. apply (Hfloats v x); [apply H; by left | done]. Qed.

Lemma json_document_ok t : forall v, holds ids h v t -> doc_ok (document number_text t) = true /\ distinct_members (document number_text t).
Proof using Hfloats.
  induction t as [|b|z|x|s|items IH|members IH] using tree_induction; intros v H;
    inversion H as [? R|? ? R|? ? R|? ? R|? ? R|? a vs ? R Ha Hall|? a es ? R Ha Hall Hnd]; subst; try done.
  - split; [apply int_token | done].
  - split; [apply (record_float v x); done | done].
  - split; [| done]. cbn. by match goal with T : text_ok s |- _ => destruct T end.
  - cbn [document]. clear R H Ha. revert vs Hall.
    induction IH as [|t items Ht _ IH]; intros vs Hall; [done |].
    apply Forall2_cons_inv_r in Hall as (v' & vs' & Hv & Hvs & ->). destruct (Ht v' Hv) as [H1 H2].
    destruct (IH _ Hvs) as [H3 H4]. rewrite fmap_cons. cbn in *. by rewrite H1, H3.
  - cbn [document]. set (ms := (fun m => (m.1, document number_text m.2)) <$> members).
    assert (Forall (fun m => is_units m.1 && doc_ok m.2 = true /\ distinct_members m.2) ms) as Hms.
    { clear R H Ha Hnd. revert es Hall. unfold ms. clear ms.
      induction IH as [|m members Ht _ IH]; intros es Hall; [constructor |].
      apply Forall2_cons_inv_r in Hall as (e & es' & ([Hu _] & x & _ & Hx) & Hes & ->). rewrite fmap_cons.
      destruct (Ht x Hx) as [H1 H2]. constructor; [cbn [fst snd]; by rewrite Hu, H1 | by eapply IH]. }
    assert (Forall (fun m => is_units m.1 && doc_ok m.2 = true /\ distinct_members m.2) (property_order ms)) as Hord
      by (by rewrite property_order_perm).
    split.
    + cbn [doc_ok]. apply forallb_forall. intros m Hm. rewrite Forall_forall in Hord. by apply Hord, list_elem_of_In.
    + cbn [distinct_members]. split; [apply property_order_names; unfold ms; by rewrite fmap_names |].
      clear -Hord. induction Hord as [|m l [_ Hm] _ IH]; [done |]. done.
Qed.

Lemma costs_ok b b' size count : costs b b' size count -> budget_ok b -> 0 <= size -> 0 <= count -> budget_ok b'.
Proof using. unfold costs, budget_ok. intuition lia. Qed.

(** A visit that succeeds. *)
Definition encodes (fuel : nat) : Prop :=
  forall active v path dep b d b', budget_ok b ->
  encode_value number_text ids h fuel active v path dep b = Coded (d, b') ->
  exists t, holds ids h v t /\ d = document number_text t /\ costs b b' (doc_size d) (doc_nodes d)
    /\ dep + doc_depth d <= maxDepth.

Lemma encode_entries_spec fuel active path dep :
  encodes fuel -> dep <= maxDepth -> forall vs i b ds b', budget_ok b ->
  encode_entries (encode_value number_text ids h fuel active) vs i path dep b = Coded (ds, b') ->
  exists ts, Forall2 (holds ids h) vs ts /\ ds = document number_text <$> ts
    /\ costs b b' (foldr (fun d n => doc_size d + n) 0 ds) (foldr (fun d n => doc_nodes d + n) 0 ds)
    /\ dep + foldr (fun d n => Z.max (doc_depth d) n) 0 ds <= maxDepth.
Proof using.
  intros Henc Hdep. induction vs as [|v vs IH]; intros i b ds b' Hb; cbn [encode_entries].
  { intros [= <- <-]. exists []. split_and!; [constructor | done | unfold costs; cbn; lia | cbn; lia]. }
  intros ([d b1] & (t & Ht & -> & Hc & Hd)%Henc & H)%coded_bind_ok; [| done].
  apply coded_bind_ok in H as ([ds1 b2] & (ts & Hts & -> & Hcs & Hds)%IH & [= <- <-]);
    [| by eapply costs_ok; [exact Hc | | apply doc_size_nonneg | pose proof (doc_nodes_pos (document number_text t)); lia]].
  exists (t :: ts). split_and!; [by constructor | done | by eapply costs_trans | cbn [foldr]; lia].
Qed.

Lemma encode_members_spec fuel active path dep :
  encodes fuel -> dep <= maxDepth -> forall es seen b ms b', budget_ok b ->
  encode_members ids h (encode_value number_text ids h fuel active) es seen path dep b = Coded (ms, b') ->
  exists ts, Forall2 (member_holds ids h) es ts /\ ms = (fun m => (m.1, document number_text m.2)) <$> ts
    /\ NoDup ts.*1 /\ (forall k, k ∈ ts.*1 -> k ∉ seen)
    /\ costs b b' (foldr (fun m n => byte_size (json_quote m.1) + doc_size m.2 + n) 0 ms)
         (foldr (fun m n => doc_nodes m.2 + n) 0 ms)
    /\ dep + foldr (fun m n => Z.max (doc_depth m.2) n) 0 ms <= maxDepth.
Proof using.
  intros Henc Hdep. induction es as [|e es IH]; intros seen b ms b' Hb; cbn [encode_members].
  { intros [= <- <-]. exists []. split_and!; [constructor | done | constructor | by intros ? ?%elem_of_nil | unfold costs; cbn; lia | cbn; lia]. }
  intros (content & Hf & H)%coded_bind_ok.
  destruct content as [|[| | | | |name|] [|x [|]]]; try done. apply two_fields in Hf.
  case_bool_decide as Hseen; [done |]. apply coded_bind_ok in H as (b1 & [Htext Hb1]%textCost_costs & H).
  assert (budget_ok b1) as Hok1 by (eapply costs_ok; [exact Hb1 | done | unfold byte_size; lia | done]).
  apply coded_bind_ok in H as ([d b2] & (t & Ht & -> & Hc & Hd)%Henc & H); [| done].
  apply coded_bind_ok in H as ([ms1 b3] & (ts & Hts & -> & Hnd & Hfresh & Hcs & Hds)%IH & [= <- <-]);
    [| by eapply costs_ok; [exact Hc | | apply doc_size_nonneg | pose proof (doc_nodes_pos (document number_text t)); lia]].
  exists ((name, t) :: ts). rewrite !fmap_cons. cbn [fst snd foldr]. split_and!.
  - constructor; [| done]. split; [done | by exists x].
  - done.
  - apply NoDup_cons. split; [| done]. intros Hin. apply (Hfresh _ Hin). by left.
  - intros k [->|Hk]%elem_of_cons; [done |]. intros Hks. apply (Hfresh k Hk). by right.
  - pose proof (costs_trans _ _ _ _ _ _ _ (costs_trans _ _ _ _ _ _ _ Hb1 Hc) Hcs) as Hall.
    unfold costs in *. lia.
  - lia.
Qed.

Lemma container_entries_spec k v path b vs b' :
  container_entries ids h k v path b = Coded (vs, b') ->
  exists a, is_record ids h v k [(match k with k_array => js "values" | _ => js "members" end, a)]
    /\ dataArray h a = Ret vs
    /\ costs b b' (fadd (array_cost (Z.of_nat (length vs))) (match k with k_object => Z.of_nat (length vs) | _ => 0 end)) 0.
Proof using.
  unfold container_entries. intros (content & Hf & H)%coded_bind_ok. destruct content as [|a [|]]; try done.
  apply one_field in Hf. apply coded_bind_ok in H as (len & Hlen & H). unfold checkedData in Hlen.
  destruct (dataProperty h a length_key) as [len'|] eqn:Hp; [| done]. injection Hlen as ->.
  destruct (array_length len) as [n|] eqn:Hn; [| done]. apply coded_bind_ok in H as (b1 & Hb1%charge_costs & H).
  apply coded_bind_ok in H as (vs' & Hvs & [= <- <-]). unfold checkedData in Hvs.
  destruct (dataArray h a) as [vs''|] eqn:Harr; [| done]. injection Hvs as ->. exists a.
  destruct (dataArray_spec h a vs' Harr) as (len'' & Hlen'' & Hn' & _).
  assert (len'' = len) as -> by congruence. assert (n = length vs') as -> by congruence. done.
Qed.

(** What is charged for a container is exact, because what is not exact was refused. *)
Lemma charged_exactly size b b' n : 0 <= n -> costs b b' (fadd size n) 0 -> 0 <= size -> 0 <= remaining b <= 67108864 ->
  fadd size n = size + n.
Proof using.
  intros Hn (_ & Hr & _ & Hr0 & _) Hs Hb. unfold fadd in *. destruct (decide (size + n <= 2 ^ 53)) as [Hle|Hgt].
  - apply rnd_small. lia.
  - pose proof (rnd_large (size + n) ltac:(lia)). specialize (Hr0 ltac:(lia)). lia.
Qed.

Lemma encode_leaf_spec k v item path b d b' :
  is_record ids h v k [(js "value", item)] -> encode_leaf number_text k item path b = Coded (d, b') -> budget_ok b ->
  exists t, holds ids h v t /\ d = document number_text t /\ costs b b' (doc_size d) 0 /\ doc_nodes d = 1 /\ doc_depth d = 0.
Proof using Hfloats.
  intros Hr H Hb. unfold encode_leaf in H. destruct k; try done.
  - destruct item as [| |x| | | |]; try done. apply coded_bind_ok in H as (b1 & Hb1%charge_costs & [= <- <-]).
    exists (TBool x). split_and!; [by constructor | done | | done..].
    assert (doc_size (DBool x) = if x then 4 else 5) as -> by by destruct x. done.
  - destruct item as [| | | |z| |]; try done. apply coded_bind_ok in H as ([token b1] & Hz & [= <- <-]).
    pose proof (encodeInteger_spec z b path Hb) as He. rewrite Hz in He. destruct He as (-> & -> & Hfit).
    exists (TInt z). split_and!; [by constructor | done | | done..].
    assert (doc_size (DNumber (dec_of_Z z)) = len (dec_of_Z z)) as -> by apply ascii_size, number_ascii, int_token.
    unfold costs, charged, len in *. cbn. lia.
  - destruct item as [| | |x| | |]; try done. destruct (isFinite x) eqn:Hx; [| done].
    apply coded_bind_ok in H as (b1 & Hb1%charge_costs & [= <- <-]).
    exists (TFloat x). split_and!; [by constructor | done | | done..].
    destruct (record_float v x Hr Hx) as [[Ht _] _].
    assert (doc_size (DNumber (float_token number_text x)) = len (float_token number_text x)) as -> by by apply ascii_size, number_ascii.
    done.
  - apply coded_bind_ok in H as ([s b1] & Hs & [= <- <-]). unfold text in Hs. destruct item as [| | | | |s'|]; try done.
    apply coded_bind_ok in Hs as (b2 & [Ht Hb2]%textCost_costs & [= <- <-]). exists (TString s').
    split_and!; [by constructor | done | done | done..].
Qed.

Lemma encode_array_spec fuel active v path dep b d b' :
  encodes fuel -> dep + 1 <= maxDepth -> budget_ok b ->
  (let* (entries, b) := container_entries ids h k_array v path b in
   let* (ds, b) := encode_entries (encode_value number_text ids h fuel active) entries 0 path (dep + 1) b in
   Coded (DArray ds, b)) = Coded (d, b') ->
  exists t, holds ids h v t /\ d = document number_text t /\ costs b b' (doc_size d) (doc_nodes d - 1)
    /\ dep + doc_depth d <= maxDepth.
Proof using Hfloats.
  intros Henc Hdep Hb ([vs b1] & (a & Hr & Ha & Hb1)%container_entries_spec & H)%coded_bind_ok.
  rewrite (charged_exactly _ b b1) in Hb1; [| done.. | unfold array_cost; lia | unfold budget_ok in Hb; lia].
  apply coded_bind_ok in H as ([ds b2] & (ts & Hts & -> & Hcs & Hds)%encode_entries_spec & [= <- <-]); [| done | done |].
  2:{ eapply costs_ok; [exact Hb1 | done | unfold array_cost; lia | done]. }
  assert (holds ids h v (TArray ts)) as Hv by by eapply holds_array. exists (TArray ts).
  destruct (json_document_ok _ _ Hv) as [Hok _]. cbn [document] in *. split_and!; [done | done | | cbn [doc_depth]; lia].
  rewrite array_size, length_fmap by done. rewrite <- (Forall2_length _ _ _ Hts). cbn [doc_nodes].
  pose proof (costs_trans _ _ _ _ _ _ _ Hb1 Hcs) as Hall. unfold costs in *. lia.
Qed.

Lemma encode_object_spec fuel active v path dep b d b' :
  encodes fuel -> dep + 1 <= maxDepth -> budget_ok b ->
  (let* (entries, b) := container_entries ids h k_object v path b in
   let* (ms, b) := encode_members ids h (encode_value number_text ids h fuel active) entries [] path (dep + 1) b in
   Coded (DObject (property_order ms), b)) = Coded (d, b') ->
  exists t, holds ids h v t /\ d = document number_text t /\ costs b b' (doc_size d) (doc_nodes d - 1)
    /\ dep + doc_depth d <= maxDepth.
Proof using Hfloats.
  intros Henc Hdep Hb ([es b1] & (a & Hr & Ha & Hb1)%container_entries_spec & H)%coded_bind_ok.
  rewrite (charged_exactly _ b b1) in Hb1; [| lia | done | unfold array_cost; lia | unfold budget_ok in Hb; lia].
  apply coded_bind_ok in H as ([ms b2] & (ts & Hts & -> & Hnd & _ & Hcs & Hds)%encode_members_spec & [= <- <-]); [| done | done |].
  2:{ eapply costs_ok; [exact Hb1 | done | unfold array_cost; lia | done]. }
  assert (holds ids h v (TObject ts)) as Hv by by eapply holds_object. exists (TObject ts).
  destruct (json_document_ok _ _ Hv) as [Hok _]. cbn [document] in *.
  set (ms := (fun m => (m.1, document number_text m.2)) <$> ts) in *.
  destruct (ordered_object ms) as (Hord & Hn & Hdp & Hsize). rewrite <- Hord in Hok. rewrite Hsize, Hn, Hdp by done.
  split_and!; [done | done | | cbn [doc_depth]; lia].
  rewrite object_size by done. assert (length ms = length es) as ->
    by (unfold ms; rewrite length_fmap; by rewrite (Forall2_length _ _ _ Hts)).
  cbn [doc_nodes]. unfold members_cost. pose proof (costs_trans _ _ _ _ _ _ _ Hb1 Hcs) as Hall.
  unfold costs, array_cost in *. lia.
Qed.

Lemma encodes_all fuel : encodes fuel.
Proof using Hfloats.
  induction fuel as [|fuel IH]; intros active v path dep b d b' Hb; [done |]. cbn [encode_value].
  destruct (kinds ids !! default [] (recordIdentity h v)) as [k|]; [| done].
  intros (b1 & [Hdep Hb1]%visit_costs & H)%coded_bind_ok. case_bool_decide as Hcycle; [done |].
  assert (budget_ok b1) as Hok1 by by eapply costs_ok.
  assert (forall d c, costs b1 b' (doc_size d) (doc_nodes d - 1) -> c = doc_nodes d -> costs b b' (doc_size d) c) as Hback.
  { intros d0 c Hc ->. pose proof (costs_trans _ _ _ _ _ _ _ Hb1 Hc) as Ht. unfold costs in *. lia. }
  destruct k; cbn [is_container] in Hdep;
    try (apply coded_bind_ok in H as (content & Hf & H); destruct content as [|item [|]]; try done; apply one_field in Hf;
      eapply encode_leaf_spec in H as (t & Ht & -> & Hc & Hn & Hd); [| done | done]; exists t;
      split_and!; [done | done | apply Hback; [by rewrite Hn | done] | lia]).
  - apply coded_bind_ok in H as (content & Hf & H). apply coded_bind_ok in H as (b2 & Hb2%charge_costs & [= <- <-]).
    pose proof Hf as Hl. apply fields_record in Hl as [Hl _]. destruct content; [| done].
    exists TNull. split_and!; [constructor; by apply no_field in Hf | done | by apply Hback | cbn; lia].
  - apply encode_array_spec in H as (t & Ht & Hd & Hc & Hdp); [| done..]. exists t. split_and!; [done | done | by apply Hback | done].
  - apply encode_object_spec in H as (t & Ht & Hd & Hc & Hdp); [| done..]. exists t. split_and!; [done | done | by apply Hback | done].
  - by apply coded_bind_ok in H as ([|item [|]] & _ & H).
Qed.

(** Whole runs: what is accepted stands for a tree, whose document is written
    within the budget. *)
Lemma encode_sound v cap out :
  encodeJSONValue number_text ids h v cap = Coded out ->
  exists t, holds ids h v t /\ out = utf8_encode (JSON_stringify (document number_text t))
    /\ doc_size (document number_text t) <= cap /\ 1 <= cap <= 67108864 /\ fits (document number_text t).
Proof using Hfloats.
  unfold encodeJSONValue. intros (b & [-> Hcap]%new_Budget_ok & H)%coded_bind_ok.
  apply coded_bind_ok in H as ([d b'] & (t & Ht & -> & Hc & Hd)%encodes_all & H);
    [| unfold budget_ok, maxNodes; cbn; lia].
  case_bool_decide; [| done]. injection H as <-. exists t. unfold costs in Hc. cbn in Hc. unfold fits, maxNodes in *.
  split_and!; try done; lia.
Qed.
End encode.

(** ** Quoted texts *)

Lemma utf8_length_ge c : (1 <= length (Unicode.utf8 c))%nat.
Proof. unfold Unicode.utf8. repeat case_goal; cbn; lia. Qed.

Lemma surrogate_pair_length c d : (2 <= length (Unicode.utf8 (to_scalar (surrogate_pair c d))))%nat.
Proof.
  assert (0x800 <= to_scalar (surrogate_pair c d))%N as H.
  { unfold to_scalar, surrogate_pair. destruct (is_scalar _); lia. }
  unfold Unicode.utf8. destruct (N.ltb_spec (to_scalar (surrogate_pair c d)) 0x80); [lia |]. repeat case_goal; cbn; lia.
Qed.

Lemma len_le_byte_size s : len s <= byte_size s.
Proof.
  unfold byte_size, utf8_encode, len. apply inj_le.
  induction s as [s IH] using (well_founded_induction (well_founded_ltof _ length)). unfold ltof in IH.
  assert (forall c l, mjoin (Unicode.utf8 <$> (to_scalar <$> c :: l)) = Unicode.utf8 (to_scalar c) ++ mjoin (Unicode.utf8 <$> (to_scalar <$> l))) as Hcons by done.
  destruct s as [|c s]; [done |]. cbn [code_points]. destruct (is_high_surrogate c).
  - destruct s as [|d s].
    { rewrite Hcons, length_app. pose proof (utf8_length_ge (to_scalar c)). cbn [length]. lia. }
    destruct (is_low_surrogate d); rewrite Hcons, length_app; cbn [length].
    + pose proof (surrogate_pair_length c d). specialize (IH s ltac:(cbn; lia)). lia.
    + pose proof (utf8_length_ge (to_scalar c)). specialize (IH (d :: s) ltac:(cbn; lia)). cbn [length] in IH. lia.
  - rewrite Hcons, length_app. pose proof (utf8_length_ge (to_scalar c)). specialize (IH s ltac:(cbn; lia)). cbn [length]. lia.
Qed.

Lemma quote_units_longer s : (length s <= length (quote_units s))%nat.
Proof.
  induction s as [s IH] using (well_founded_induction (well_founded_ltof _ length)). unfold ltof in IH.
  destruct s as [|c s]; [done |]. cbn [quote_units].
  assert (1 <= length (quote_unit c))%nat by (unfold quote_unit; repeat case_goal; cbn; lia).
  assert (length (unicode_escape c) = 6)%nat as Hesc by done. pose proof (IH s ltac:(cbn; lia)).
  destruct (is_high_surrogate c).
  - destruct s as [|d s]; [rewrite Hesc; cbn; lia |]. destruct (is_low_surrogate d).
    + specialize (IH s ltac:(cbn; lia)). cbn [length]. lia.
    + rewrite length_app, Hesc. cbn [length] in *. lia.
  - destruct (is_low_surrogate c); rewrite length_app; cbn [length]; lia.
Qed.

Lemma len_le_quote s : len s <= byte_size (json_quote s).
Proof.
  pose proof (len_le_byte_size (json_quote s)) as H. pose proof (quote_units_longer s).
  unfold len, json_quote in *. cbn [length] in H. rewrite length_app in H. cbn [length] in H. lia.
Qed.

(** ** What the encoder accepts *)

Lemma charge_room b size path :
  budget_ok b -> 0 <= size <= remaining b -> charge b size path = Coded (mkBudget (bytes b) (remaining b - size) (nodes b)).
Proof. intros Hb Hs. by destruct (charge_spec b size path Hb ltac:(lia)) as [[_ H]|[? _]]; [| lia]. Qed.

Lemma textCost_room b s path :
  budget_ok b -> text_ok s -> byte_size (json_quote s) <= remaining b ->
  textCost b s path = Coded (mkBudget (bytes b) (remaining b - byte_size (json_quote s)) (nodes b)).
Proof.
  intros Hb [Hu Hw] Hs. unfold textCost. pose proof (len_le_quote s). destruct (Z.ltb_spec (remaining b) (len s)); [lia |].
  rewrite scalar_well_formed by done. cbn [coded_bind]. apply charge_room; [done |]. unfold byte_size in *. lia.
Qed.

(** How much of a tree there is. *)
Fixpoint tree_size (t : tree) : nat :=
  match t with
  | TArray items => S (foldr (fun t n => tree_size t + n)%nat 0%nat items)
  | TObject members => S (foldr (fun m n => tree_size m.2 + n)%nat 0%nat members)
  | _ => 1%nat
  end.

Lemma item_smaller t items : t ∈ items -> (tree_size t < tree_size (TArray items))%nat.
Proof.
  intros H. cbn [tree_size]. induction items as [|t' items IH]; [by apply elem_of_nil in H |].
  cbn. apply elem_of_cons in H as [->|H]; [lia | specialize (IH H); lia].
Qed.

Lemma member_smaller m members : m ∈ members -> (tree_size m.2 < tree_size (TObject members))%nat.
Proof.
  intros H. cbn [tree_size]. induction members as [|m' members IH]; [by apply elem_of_nil in H |].
  cbn. apply elem_of_cons in H as [->|H]; [lia | specialize (IH H); lia].
Qed.

Section accepts.
Context (number_text : num -> jstr) (ids : JSONValueIds) (h : heap).
Context (Hids : NoDup (id_of ids <$> all_kinds)) (Hfloats : floats_print number_text h).

Abbreviation doc_of := (document number_text).

(** The records being walked stand for larger trees, so a value that stands for
    [t] is not one of them. *)
Definition outside (active : gset loc) (t : tree) : Prop :=
  forall l, l ∈ active -> exists T, holds ids h (VRef l) T /\ (tree_size t < tree_size T)%nat.

Definition within (v : value) : gset loc := match v with VRef l => {[ l ]} | _ => ∅ end.

Lemma outside_fresh active v t : holds ids h v t -> outside active t -> within v ∩ active = ∅.
Proof using Hids.
  intros Hv Hout. destruct v as [| | | | | |l]; cbn [within]; try apply (left_absorb_L ∅ (∩)).
  apply disjoint_intersection_L, disjoint_singleton_l. intros Hin.
  destruct (Hout l Hin) as (T & HT & Hlt). rewrite (holds_unique ids h Hids T (VRef l) t HT Hv) in Hlt. lia.
Qed.

Lemma outside_child active v t t' :
  holds ids h v t -> outside active t -> (tree_size t' < tree_size t)%nat -> outside (within v ∪ active) t'.
Proof using.
  intros Hv Hout Hlt l [Hl|Hl]%elem_of_union.
  - destruct v as [| | | | | |l']; cbn [within] in Hl; try (by apply elem_of_empty in Hl).
    apply elem_of_singleton in Hl as ->. by exists t.
  - destruct (Hout l Hl) as (T & HT & HlT). exists T. split; [done | lia].
Qed.

Definition accepted (t : tree) : Prop :=
  forall v fuel active path dep b, holds ids h v t -> outside active t -> doc_depth (doc_of t) < Z.of_nat fuel ->
  room b dep (doc_size (doc_of t)) (doc_nodes (doc_of t)) (doc_depth (doc_of t)) ->
  exists b', encode_value number_text ids h fuel active v path dep b = Coded (doc_of t, b')
    /\ costs b b' (doc_size (doc_of t)) (doc_nodes (doc_of t)).

Lemma accept_entries fuel active path dep ts :
  Forall accepted ts -> forall vs i b, Forall2 (holds ids h) vs ts -> Forall (outside active) ts ->
  let ds := doc_of <$> ts in
  foldr (fun d n => Z.max (doc_depth d) n) 0 ds < Z.of_nat fuel ->
  room b dep (foldr (fun d n => doc_size d + n) 0 ds) (foldr (fun d n => doc_nodes d + n) 0 ds)
    (foldr (fun d n => Z.max (doc_depth d) n) 0 ds) ->
  exists b', encode_entries (encode_value number_text ids h fuel active) vs i path dep b = Coded (ds, b')
    /\ costs b b' (foldr (fun d n => doc_size d + n) 0 ds) (foldr (fun d n => doc_nodes d + n) 0 ds).
Proof using.
  induction 1 as [|t ts Ht _ IH]; intros vs i b Hvs Hout ds Hfuel Hroom; unfold ds in *; clear ds.
  { apply Forall2_nil_inv_r in Hvs as ->. exists b. split; [done | unfold costs; cbn; lia]. }
  apply Forall2_cons_inv_r in Hvs as (v & vs' & Hv & Hvs & ->). apply Forall_cons in Hout as [Ho Hout].
  rewrite fmap_cons in *. cbn [foldr encode_entries] in *.
  pose proof (doc_size_nonneg (doc_of t)). pose proof (doc_nodes_pos (doc_of t)). pose proof (sum_nodes_nonneg (doc_of <$> ts)).
  assert (0 <= foldr (fun d n => doc_size d + n) 0 (doc_of <$> ts)) as Hs0.
  { clear. induction (doc_of <$> ts) as [|d l IH]; cbn; [lia |]. pose proof (doc_size_nonneg d). lia. }
  destruct (Ht v fuel active (indexPath path i) dep b Hv Ho) as (b1 & -> & Hc); [lia | unfold room in *; lia |]. cbn [coded_bind].
  destruct (IH vs' (S i) b1 Hvs Hout) as (b2 & -> & Hcs); [lia | unfold room, costs in *; lia |]. cbn [coded_bind].
  exists b2. split; [done | by eapply costs_trans].
Qed.

Lemma accept_members fuel active path dep ts :
  Forall (fun m => accepted m.2) ts -> forall es seen b, Forall2 (member_holds ids h) es ts ->
  Forall (fun m => outside active m.2) ts -> NoDup ts.*1 -> (forall k, k ∈ ts.*1 -> k ∉ seen) ->
  let ms := (fun m => (m.1, doc_of m.2)) <$> ts in
  foldr (fun m n => Z.max (doc_depth m.2) n) 0 ms < Z.of_nat fuel ->
  room b dep (foldr (fun m n => byte_size (json_quote m.1) + doc_size m.2 + n) 0 ms)
    (foldr (fun m n => doc_nodes m.2 + n) 0 ms) (foldr (fun m n => Z.max (doc_depth m.2) n) 0 ms) ->
  exists b', encode_members ids h (encode_value number_text ids h fuel active) es seen path dep b = Coded (ms, b')
    /\ costs b b' (foldr (fun m n => byte_size (json_quote m.1) + doc_size m.2 + n) 0 ms)
         (foldr (fun m n => doc_nodes m.2 + n) 0 ms).
Proof using.
  induction 1 as [|[k t] ts Ht _ IH]; intros es seen b Hes Hout Hnd Hseen ms Hfuel Hroom; unfold ms in *; clear ms.
  { apply Forall2_nil_inv_r in Hes as ->. exists b. split; [done | unfold costs; cbn; lia]. }
  apply Forall2_cons_inv_r in Hes as (e & es' & (Htext & x & Hr & Hx) & Hes & ->). apply Forall_cons in Hout as [Ho Hout].
  rewrite fmap_cons in *. cbn [foldr encode_members fst snd] in *. apply NoDup_cons in Hnd as [Hk Hnd].
  apply (two_fields ids h e k_member (js "name") (js "value") path) in Hr. rewrite Hr. cbn [coded_bind].
  rewrite bool_decide_false by (apply Hseen; by left). set (rest := (fun m => (m.1, doc_of m.2)) <$> ts) in *.
  pose proof (doc_size_nonneg (doc_of t)). pose proof (doc_nodes_pos (doc_of t)). pose proof (sum_member_nodes_nonneg rest).
  assert (0 <= foldr (fun m n => byte_size (json_quote m.1) + doc_size m.2 + n) 0 rest) as Hs0.
  { clear. induction rest as [|m l IH]; cbn; [lia |]. pose proof (doc_size_nonneg m.2). unfold byte_size in *. lia. }
  assert (0 <= byte_size (json_quote k)) by (unfold byte_size; lia).
  rewrite textCost_room; [| unfold room, budget_ok in *; lia | done | unfold room in *; lia]. cbn [coded_bind].
  destruct (Ht x fuel active (childPath path k) dep (mkBudget (bytes b) (remaining b - byte_size (json_quote k)) (nodes b)) Hx Ho)
    as (b1 & -> & Hc); [lia | unfold room in *; cbn [bytes remaining nodes]; lia |]. cbn [coded_bind].
  destruct (IH es' (k :: seen) b1 Hes Hout Hnd) as (b2 & -> & Hcs);
    [| lia | unfold room, costs in *; cbn [bytes remaining nodes] in *; lia |].
  { intros k' Hk' [->|Hs]%elem_of_cons; [done |]. apply (Hseen k'); [by right | done]. }
  cbn [coded_bind]. exists b2. split; [done |]. unfold costs, room in *. cbn [bytes remaining nodes] in *.
  destruct Hc as (? & ? & ? & Hr1 & Hn1), Hcs as (? & ? & ? & Hr2 & Hn2). split_and!; [lia.. | |]; intros; lia.
Qed.

Lemma accept_container k v path b a vs :
  is_record ids h v k [(match k with k_array => js "values" | _ => js "members" end, a)] -> dataArray h a = Ret vs ->
  budget_ok b -> array_cost (Z.of_nat (length vs)) + (match k with k_object => Z.of_nat (length vs) | _ => 0 end) <= remaining b ->
  container_entries ids h k v path b
  = Coded (vs, mkBudget (bytes b)
      (remaining b - (array_cost (Z.of_nat (length vs)) + match k with k_object => Z.of_nat (length vs) | _ => 0 end)) (nodes b)).
Proof using.
  intros Hr Ha Hb Hle. unfold container_entries. rewrite (proj2 (one_field _ _ _ _ _ path _) Hr). cbn [coded_bind].
  destruct (dataArray_spec h a vs Ha) as (len & Hlen & Hn & _). unfold checkedData. rewrite Hlen. cbn [coded_bind]. rewrite Hn.
  assert (0 <= array_cost (Z.of_nat (length vs))) by (unfold array_cost; lia).
  assert (0 <= match k with k_object => Z.of_nat (length vs) | _ => 0 end) by (destruct k; lia).
  assert (fadd (array_cost (Z.of_nat (length vs))) (match k with k_object => Z.of_nat (length vs) | _ => 0 end)
    = array_cost (Z.of_nat (length vs)) + match k with k_object => Z.of_nat (length vs) | _ => 0 end) as ->.
  { unfold fadd. apply rnd_small. unfold budget_ok in Hb. lia. }
  rewrite charge_room by (done || lia). cbn [coded_bind]. by rewrite Ha.
Qed.

(** The content of a leaf. *)
Lemma accept_leaf k v item t path b :
  is_record ids h v k [(js "value", item)] -> holds ids h v t -> is_container k = false -> k <> k_null -> k <> k_member ->
  budget_ok b -> doc_size (doc_of t) <= remaining b ->
  exists b', encode_leaf number_text k item path b = Coded (doc_of t, b') /\ costs b b' (doc_size (doc_of t)) 0.
Proof using Hids Hfloats.
  intros Hr Ht Hk Hn Hm Hb Hs.
  assert (forall b, costs b (mkBudget (bytes b) (remaining b - doc_size (doc_of t)) (nodes b)) (doc_size (doc_of t)) 0
    \/ remaining b < doc_size (doc_of t)) as Hcosts by (intros b0; unfold costs; cbn; lia).
  destruct (Hcosts b) as [Hc|]; [| lia]. clear Hcosts. pose proof (doc_size_nonneg (doc_of t)).
  inversion Ht as [? R|? x R|? z R|? x R Hfin|? s R Htext|? a vs ? R Ha Hall|? a es ? R Ha Hall Hnd]; subst;
    pose proof (record_same_kind ids h Hids _ _ _ _ _ Hr R) as ->; try done;
    pose proof (record_same_field ids h _ _ _ _ (js "value") _ _ Hr R ltac:(by left) ltac:(by left)) as ->;
    cbn [encode_leaf document] in *; eexists; (split; [| exact Hc]).
  - assert ((if x then 4 else 5) = doc_size (DBool x)) as -> by by destruct x. by rewrite charge_room.
  - assert (doc_size (DNumber (dec_of_Z z)) = len (dec_of_Z z)) as Hl by apply ascii_size, number_ascii, int_token.
    pose proof (encodeInteger_spec z b path Hb) as He. destruct (encodeInteger z b path) as [[tok b']|q r|]; [| lia | done].
    destruct He as (-> & -> & _). cbn [coded_bind]. unfold charged. by rewrite Hl.
  - rewrite Hfin. destruct (record_float number_text ids h Hfloats v x R Hfin) as [[Htok _] _].
    assert (doc_size (DNumber (float_token number_text x)) = len (float_token number_text x)) as Hl by by apply ascii_size, number_ascii.
    rewrite <- Hl. by rewrite charge_room.
  - unfold text. change (doc_size (DString s)) with (byte_size (json_quote s)) in *. by rewrite textCost_room.
Qed.

Lemma visit_ok b dep path d (container : bool) :
  dep + (if container then 1 else 0) <= maxDepth -> room b dep (doc_size d) (doc_nodes d) (doc_depth d) ->
  Codec.visit b (dep + (if container then 1 else 0)) path = Coded (mkBudget (bytes b) (remaining b) (nodes b + 1)).
Proof using. intros Hd Hr. pose proof (doc_nodes_pos d). apply visit_room; unfold room in *; lia. Qed.

(** The first steps of every visit, up to the content of the record. *)
Lemma accept_visit v k fs t fuel active path dep b :
  is_record ids h v k fs -> holds ids h v t -> outside active t ->
  is_container k = (match doc_of t with DArray _ | DObject _ => true | _ => false end) ->
  room b dep (doc_size (doc_of t)) (doc_nodes (doc_of t)) (doc_depth (doc_of t)) ->
  exists b1, bytes b1 = bytes b /\ remaining b1 = remaining b /\ nodes b1 = nodes b + 1 /\ budget_ok b1
    /\ encode_value number_text ids h (S fuel) active v path dep b
       = match k with
         | k_null =>
             let* _ := fields ids h v k [] path in
             let* b := charge b1 4 path in Coded (DNull, b)
         | k_array =>
             let* (entries, b) := container_entries ids h k v path b1 in
             let* (ds, b) := encode_entries (encode_value number_text ids h fuel (within v ∪ active)) entries 0 path (dep + 1) b in
             Coded (DArray ds, b)
         | k_object =>
             let* (entries, b) := container_entries ids h k v path b1 in
             let* (ms, b) := encode_members ids h (encode_value number_text ids h fuel (within v ∪ active)) entries [] path (dep + 1) b in
             Coded (DObject (property_order ms), b)
         | _ =>
             let* content := fields ids h v k [js "value"] path in
             match content with
             | [item] => encode_leaf number_text k item path b1
             | _ => reject path type
             end
         end.
Proof using Hids.
  intros R Ht Hout Hk Hroom. exists (mkBudget (bytes b) (remaining b) (nodes b + 1)).
  pose proof (doc_nodes_pos (doc_of t)). pose proof (doc_size_nonneg (doc_of t)).
  split_and!; try done; [unfold room, budget_ok in *; cbn; lia |].
  assert (dep + (if is_container k then 1 else 0) <= maxDepth) as Hd.
  { rewrite Hk. destruct (doc_of t) as [| | | |items|ms]; cbn [doc_depth] in *; unfold room in Hroom; try lia.
    - assert (0 <= foldr (fun d n => Z.max (doc_depth d) n) 0 items) by (clear; induction items; cbn; lia). lia.
    - assert (0 <= foldr (fun m n => Z.max (doc_depth m.2) n) 0 ms) by (clear; induction ms; cbn; lia). lia. }
  cbn [encode_value]. rewrite (record_kind ids h Hids _ _ _ R).
  rewrite (visit_ok _ _ _ _ _ Hd Hroom). cbn [coded_bind]. fold (within v).
  rewrite bool_decide_false by (intros Hne; by apply Hne, (outside_fresh active v t)). by destruct k.
Qed.

Lemma accept_record_leaf v k item t : is_record ids h v k [(js "value", item)] -> is_container k = false ->
  k <> k_null -> k <> k_member -> doc_nodes (doc_of t) = 1 ->
  is_container k = (match doc_of t with DArray _ | DObject _ => true | _ => false end) ->
  forall fuel active path dep b, holds ids h v t -> outside active t -> doc_depth (doc_of t) < Z.of_nat fuel ->
  room b dep (doc_size (doc_of t)) (doc_nodes (doc_of t)) (doc_depth (doc_of t)) ->
  exists b', encode_value number_text ids h fuel active v path dep b = Coded (doc_of t, b')
    /\ costs b b' (doc_size (doc_of t)) (doc_nodes (doc_of t)).
Proof using Hids Hfloats.
  intros R Hc Hn Hm Hnodes Hk [|fuel] active path dep b Ht Hout Hfuel Hroom.
  { pose proof (doc_depth_nonneg (doc_of t)). lia. }
  destruct (accept_visit v k _ t fuel active path dep b R Ht Hout Hk Hroom) as (b1 & Hb & Hr & Hnb & Hok & ->).
  destruct (accept_leaf k v item t path b1 R Ht Hc Hn Hm Hok) as (b' & Hleaf & Hcost); [unfold room in Hroom; lia |].
  exists b'. rewrite (proj2 (one_field _ _ _ _ _ path _) R). cbn [coded_bind].
  split; [by destruct k |]. rewrite Hnodes. unfold costs, room in *. lia.
Qed.

Lemma accept_array items : Forall accepted items -> accepted (TArray items).
Proof using Hids Hfloats.
  intros IH v [|fuel] active path dep b Ht Hout Hfuel Hroom.
  { pose proof (doc_depth_nonneg (doc_of (TArray items))). lia. }
  pose proof (json_document_ok number_text ids h Hfloats _ v Ht) as [Hok _].
  inversion Ht as [| | | | |? a vs ? R Ha Hall|]; subst.
  destruct (accept_visit v k_array _ _ fuel active path dep b R Ht Hout eq_refl Hroom) as (b1 & Hb & Hr & Hnb & Hokb & ->).
  cbn [document] in *. rewrite array_size, length_fmap in * by done. rewrite <- (Forall2_length _ _ _ Hall) in *. cbn [doc_nodes doc_depth] in *.
  assert (0 <= foldr (fun d n => doc_size d + n) 0 (doc_of <$> items)) as Hs0.
  { clear. induction (doc_of <$> items) as [|d l IH]; cbn; [lia |]. pose proof (doc_size_nonneg d). lia. }
  pose proof (sum_nodes_nonneg (doc_of <$> items)).
  rewrite (accept_container k_array v path b1 a vs R Ha Hokb) by (unfold room in Hroom; lia). cbn [coded_bind].
  set (b2 := mkBudget _ _ _).
  destruct (accept_entries fuel (within v ∪ active) path (dep + 1) items IH vs 0%nat b2 Hall) as (b3 & -> & Hcs).
  - apply Forall_forall. intros t Hin. by eapply outside_child, item_smaller.
  - lia.
  - unfold room, array_cost in *. cbn [b2 bytes remaining nodes] in *. lia.
  - exists b3. split; [done |]. unfold costs, room, array_cost in *. cbn [b2 bytes remaining nodes] in *. lia.
Qed.

Lemma accept_object members : Forall (fun m => accepted m.2) members -> accepted (TObject members).
Proof using Hids Hfloats.
  intros IH v [|fuel] active path dep b Ht Hout Hfuel Hroom.
  { pose proof (doc_depth_nonneg (doc_of (TObject members))). lia. }
  pose proof (json_document_ok number_text ids h Hfloats _ v Ht) as [Hok _].
  inversion Ht as [| | | | | |? a es ? R Ha Hall Hnd]; subst.
  destruct (accept_visit v k_object _ _ fuel active path dep b R Ht Hout eq_refl Hroom) as (b1 & Hb & Hr & Hnb & Hokb & ->).
  cbn [document] in *. set (ms := (fun m => (m.1, doc_of m.2)) <$> members) in *.
  destruct (ordered_object ms) as (Hord & Hn & Hdp & Hsize). rewrite <- Hord in Hok. rewrite Hsize, Hn, Hdp in * by done.
  rewrite object_size in * by done. assert (length ms = length es) as Hlen
    by (unfold ms; rewrite length_fmap; by rewrite (Forall2_length _ _ _ Hall)).
  rewrite Hlen in *. cbn [doc_nodes doc_depth] in *. unfold members_cost in *.
  assert (0 <= foldr (fun m n => byte_size (json_quote m.1) + doc_size m.2 + n) 0 ms) as Hs0.
  { clear. induction ms as [|m l IH]; cbn; [lia |]. pose proof (doc_size_nonneg m.2). unfold byte_size in *. lia. }
  pose proof (sum_member_nodes_nonneg ms).
  rewrite (accept_container k_object v path b1 a es R Ha Hokb) by (unfold room, array_cost in *; lia). cbn [coded_bind].
  set (b2 := mkBudget _ _ _).
  destruct (accept_members fuel (within v ∪ active) path (dep + 1) members IH es [] b2 Hall) as (b3 & -> & Hcs).
  - apply Forall_forall. intros m Hin. by eapply outside_child, member_smaller.
  - done.
  - by intros k _ ?%elem_of_nil.
  - fold ms. lia.
  - fold ms. unfold room, array_cost in *. cbn [b2 bytes remaining nodes] in *. lia.
  - fold ms in Hcs |- *. exists b3. split; [done |]. unfold costs, room, array_cost in *. cbn [b2 bytes remaining nodes] in *. lia.
Qed.

Lemma accept_all t : accepted t.
Proof using Hids Hfloats.
  induction t as [|x|z|x|s|items IH|members IH] using tree_induction; [..| by apply accept_array | by apply accept_object];
    intros v fuel active path dep b Ht; inversion Ht as [? R|? ? R|? ? R|? ? R Hfin|? ? R Htext| |]; subst;
    [| by eapply (accept_record_leaf _ _ _ _ R)..].
  intros Hout Hfuel Hroom. destruct fuel as [|fuel]; [cbn in Hfuel; lia |].
  destruct (accept_visit v k_null _ _ fuel active path dep b R Ht Hout eq_refl Hroom) as (b1 & Hb & Hr & Hnb & Hok & ->).
  rewrite (proj2 (no_field ids h v path) R). cbn [coded_bind].
  change (doc_size (doc_of TNull)) with 4 in *. rewrite charge_room by (done || unfold room in Hroom; lia). cbn [coded_bind].
  eexists. split; [done |]. unfold costs, room in *. cbn in *. lia.
Qed.

(** Every value that stands for a tree whose document fits is accepted. *)
Lemma encode_complete v t cap :
  holds ids h v t -> fits (doc_of t) -> doc_size (doc_of t) <= cap -> 1 <= cap <= 67108864 ->
  encodeJSONValue number_text ids h v cap = Coded (utf8_encode (JSON_stringify (doc_of t))).
Proof using Hids Hfloats.
  intros Ht [Hdepth Hnodes] Hsize Hcap. unfold encodeJSONValue. rewrite new_Budget_cap by done. cbn [coded_bind].
  destruct (accept_all t v visit_fuel ∅ [] 0 (mkBudget cap cap 0) Ht) as (b' & -> & Hc).
  - by intros l ?%elem_of_empty.
  - unfold visit_fuel, maxDepth in *. lia.
  - pose proof (doc_nodes_pos (doc_of t)). unfold room. cbn [bytes remaining nodes]. lia.
  - cbn [coded_bind]. unfold costs in Hc. cbn [bytes remaining nodes] in Hc. unfold doc_size, byte_size in *.
    rewrite bool_decide_true by lia. done.
Qed.
End accepts.

(** ** Growing heaps *)
Section growth.
Context (ids : JSONValueIds) (h h' : heap) (Hext : extends h h').

Lemma is_record_grows v k fs : is_record ids h v k fs -> is_record ids h' v k fs.
Proof using Hext.
  intros (Hid & (ks & Hks & Hin) & Hread). split_and!; [by eapply recordIdentity_grows | |].
  - exists ks. split; [by eapply dataKeys_grows | done].
  - intros name x Hx. eapply dataProperty_grows; [done | by apply Hread].
Qed.

Lemma holds_grows t : forall v, holds ids h v t -> holds ids h' v t.
Proof using Hext.
  induction t as [|b|z|x|s|items IH|members IH] using tree_induction; intros v H;
    inversion H as [? R|? ? R|? ? R|? ? R|? ? R|? a vs ? R Ha Hall|? a es ? R Ha Hall Hnd]; subst;
    pose proof (is_record_grows _ _ _ R); try by constructor.
  - eapply holds_array; [done | by eapply dataArray_grows |]. clear -IH Hall. revert vs Hall.
    induction IH as [|t items Ht _ IH]; intros vs Hall; [by apply Forall2_nil_inv_r in Hall as -> |].
    apply Forall2_cons_inv_r in Hall as (v & vs' & Hv & Hvs & ->). constructor; [by apply Ht | by apply IH].
  - eapply holds_object; [done | by eapply dataArray_grows | | done]. clear -IH Hall Hext. revert es Hall.
    induction IH as [|m members Ht _ IH]; intros es Hall; [by apply Forall2_nil_inv_r in Hall as -> |].
    apply Forall2_cons_inv_r in Hall as (e & es' & (Htext & x & Hr & Hx) & Hes & ->). constructor; [| by apply IH].
    split; [done |]. exists x. split; [by apply is_record_grows | by apply Ht].
Qed.
End growth.

Section decode.
Context (ids : JSONValueIds).

Lemma make_reads k fs b hd :
  NoDup fs.*1 ->
  exists v hd', make ids k fs (b, hd) = Coded (v, (b, hd')) /\ is_record ids hd' v k fs
    /\ (heap_ok hd -> heap_ok hd' /\ extends hd hd').
Proof.
  intros Hnd. destruct (record_reads hd (id_of ids k) fs Hnd) as (v & hd' & Hrec & _ & Hid & Hkeys & Hread & Hok).
  exists v, hd'. unfold make. cbn [fst snd]. rewrite Hrec. split_and!; [done | | done]. split_and!; [done | | done].
  eexists. split; [exact Hkeys |]. intros s [|Hs]%elem_of_cons; [done |].
  apply list_elem_of_fmap in Hs as (s' & [= ->] & ?). done.
Qed.

(** A visit of the decoder that ends in a value. *)
Definition reads_tree (b : Budget) (hd : heap) (t : tree) (count : Z) (r : value * (Budget * heap)) : Prop :=
  let '(v, (b', hd')) := r in
  budget_ok b' /\ nodes b' = nodes b + count /\ heap_ok hd' /\ extends hd hd' /\ holds ids hd' v t.

Definition decodes_ends (fuel : nat) : Prop :=
  forall d path dep b hd, doc_tokens d = true -> distinct_members d -> budget_ok b -> heap_ok hd ->
  dep <= maxDepth < dep + Z.of_nat fuel ->
  ends (decode_value ids fuel d path dep (b, hd)) (reads_tree b hd (tree_of d) (doc_nodes d)).

Lemma decode_items_ends fuel path dep :
  decodes_ends fuel -> dep <= maxDepth < dep + Z.of_nat fuel -> forall items i b hd,
  forallb doc_tokens items = true -> foldr (fun d q => distinct_members d /\ q) True items -> budget_ok b -> heap_ok hd ->
  ends (decode_items (decode_value ids fuel) items i path dep (b, hd)) (fun r => let '(vs, (b', hd')) := r in
    budget_ok b' /\ nodes b' = nodes b + foldr (fun d n => doc_nodes d + n) 0 items /\ heap_ok hd' /\ extends hd hd'
    /\ Forall2 (holds ids hd') vs (tree_of <$> items)).
Proof using.
  intros Hdec Hdep. induction items as [|d items IH]; intros i b hd Htok Hdist Hb Hh; cbn [decode_items].
  { split_and!; [done | cbn; lia | done | done | constructor]. }
  cbn [forallb foldr] in *. apply andb_true_iff in Htok as [Ht Htok]. destruct Hdist as [Hd Hdist].
  eapply ends_bind; [by apply Hdec |]. intros [v [b1 hd1]] (Hb1 & Hn1 & Hh1 & Hext1 & Hv).
  eapply ends_bind; [by apply IH |]. intros [vs [b2 hd2]] (Hb2 & Hn2 & Hh2 & Hext2 & Hvs). cbn.
  split_and!; [done | lia | done | by etrans |]. constructor; [by eapply holds_grows | done].
Qed.

Lemma decode_members_ends fuel path dep :
  decodes_ends fuel -> dep <= maxDepth < dep + Z.of_nat fuel -> forall ms b hd,
  forallb (fun m => doc_tokens m.2) ms = true -> foldr (fun m q => distinct_members m.2 /\ q) True ms -> budget_ok b -> heap_ok hd ->
  ends (decode_members ids (decode_value ids fuel) ms path dep (b, hd)) (fun r => let '(es, (b', hd')) := r in
    budget_ok b' /\ nodes b' = nodes b + foldr (fun m n => doc_nodes m.2 + n) 0 ms /\ heap_ok hd' /\ extends hd hd'
    /\ Forall2 (member_holds ids hd') es ((fun m => (m.1, tree_of m.2)) <$> ms)).
Proof using.
  intros Hdec Hdep. induction ms as [|[k d] ms IH]; intros b hd Htok Hdist Hb Hh; cbn [decode_members].
  { split_and!; [done | cbn; lia | done | done | constructor]. }
  cbn [forallb foldr snd] in *. apply andb_true_iff in Htok as [Ht Htok]. destruct Hdist as [Hd Hdist].
  apply (ends_bind _ _ (fun _ => text_ok k)).
  { destruct (scalar k (childPath path k)) as [u| |] eqn:Hs; [by eapply scalar_ok | done |]. by unfold scalar in Hs; case_bool_decide. }
  intros _ Htext. eapply ends_bind; [by apply Hdec |]. intros [v [b1 hd1]] (Hb1 & Hn1 & Hh1 & Hext1 & Hv).
  destruct (make_reads k_member [(js "name", VStr k); (js "value", v)] b1 hd1) as (m & hd2 & -> & Hr & Hok2).
  { by apply NoDup_cons; split; [intros ?%list_elem_of_singleton | apply NoDup_singleton]. }
  destruct (Hok2 Hh1) as [Hh2 Hext2]. cbn [coded_bind].
  eapply ends_bind; [by apply IH |]. intros [es [b3 hd3]] (Hb3 & Hn3 & Hh3 & Hext3 & Hes). cbn.
  split_and!; [done | lia | done | by do 2 (etrans; [eassumption |]) |]. constructor; [| done].
  split; [done |]. exists v. split; [by eapply is_record_grows | eapply (holds_grows ids hd1); [by etrans | done]].
Qed.

(** An integer spelling denotes the integer it spells. *)
Lemma integer_spelling_denotes token :
  integer_spelling token = true -> exists p, numeric_token token = Some p /\ denotes_integer p (bigint_of_text token).
Proof using.
  unfold integer_spelling, numeric_token, bigint_of_text. destruct (strip_minus token) as [negative whole]. cbn [snd].
  rewrite !andb_true_iff. intros [[Hne%negb_true_iff Hd] _]. apply bool_decide_eq_false in Hne.
  rewrite (span_digits_all _ Hd), bool_decide_false by done. eexists. split; [reflexivity |].
  unfold denotes_integer. cbn [p_sign p_whole p_fraction p_exponent default]. rewrite app_nil_r.
  change (exponent_value (js "0")) with 0. change (len []) with 0. change (10 ^ Z.max 0 _) with 1. unfold digits_value.
  destruct negative; lia.
Qed.

Lemma decode_token_ends token b path :
  number_token token = true -> integer_spelling token = true -> budget_ok b ->
  ends (decodeInteger token b path) (fun r => r.1 = bigint_of_text token /\ budget_ok r.2 /\ nodes r.2 = nodes b).
Proof using.
  intros Ht Hi Hb. pose proof (decodeInteger_ends token b path Ht Hb) as Hends.
  destruct (integer_spelling_denotes token Hi) as (p & Hp & Hden).
  destruct (Z.ltb_spec (bytes b) (len token)) as [Hlt|Hle].
  { unfold decodeInteger. destruct (Z.ltb_spec (bytes b) (len token)); [done | lia]. }
  pose proof (decodeInteger_spec token p b path Hb Hp Hle) as Hs.
  destruct (decodeInteger token b path) as [[z b']|q r|]; [| done..]. cbn in *. destruct Hs as (Hz & _ & _).
  split; [by eapply denotes_unique | done].
Qed.

Lemma items_bound items : Z.of_nat (length items) <= foldr (fun d n => doc_nodes d + n) 0 items.
Proof using. induction items as [|d items IH]; cbn [foldr length]; [lia |]. pose proof (doc_nodes_pos d). lia. Qed.

Lemma members_bound (ms : list (jstr * doc)) : Z.of_nat (length ms) <= foldr (fun m n => doc_nodes m.2 + n) 0 ms.
Proof using. induction ms as [|m ms IH]; cbn [foldr length]; [lia |]. pose proof (doc_nodes_pos m.2). lia. Qed.

(** A leaf that is built. *)
Lemma make_leaf_reads k item t b hd count :
  budget_ok b -> heap_ok hd -> (forall hd' v, is_record ids hd' v k [(js "value", item)] -> holds ids hd' v t) ->
  forall b0, nodes b = nodes b0 + count -> ends (make ids k [(js "value", item)] (b, hd)) (reads_tree b0 hd t count).
Proof using.
  intros Hb Hh Ht b0 Hn. destruct (make_reads k [(js "value", item)] b hd) as (v & hd' & -> & Hr & Hok); [apply NoDup_singleton |].
  destruct (Hok Hh) as [Hh' Hext]. cbn. split_and!; try done. by apply Ht.
Qed.

(** A container that is built around its array. *)
Lemma make_container_reads k field vs t b hd b0 hd0 count :
  budget_ok b -> heap_ok hd -> extends hd0 hd -> Z.of_nat (length vs) <= MAX_SAFE -> nodes b = nodes b0 + count ->
  (forall hd' v a, extends hd hd' -> is_record ids hd' v k [(field, a)] -> dataArray hd' a = Ret vs -> holds ids hd' v t) ->
  ends (let '(a, h) := array hd vs in make ids k [(field, a)] (b, h)) (reads_tree b0 hd0 t count).
Proof using.
  intros Hb Hh Hext0 Hlen Hn Ht. pose proof (array_reads hd vs Hlen) as Ha. destruct (array_grows hd vs Hh) as [Hh1 Hext1].
  destruct (array hd vs) as [a h1]. cbn [fst snd] in *.
  destruct (make_reads k [(field, a)] b h1) as (v & hd' & -> & Hr & Hok); [apply NoDup_singleton |].
  destruct (Hok Hh1) as [Hh' Hext']. cbn. split_and!; [done | done | done | by do 2 (etrans; [eassumption |]) |].
  eapply Ht; [by etrans | done | by eapply dataArray_grows].
Qed.

Lemma members_perm_distinct (ms ms' : list (jstr * doc)) : ms ≡ₚ ms' ->
  foldr (fun m q => distinct_members m.2 /\ q) True ms -> foldr (fun m q => distinct_members m.2 /\ q) True ms'.
Proof using. induction 1; cbn; tauto. Qed.

Lemma decodes_all_end fuel : decodes_ends fuel.
Proof using.
  induction fuel as [|fuel IH]; intros d path dep b hd Htok Hdist Hb Hh Hdep; [lia |]. cbn [decode_value].
  eapply ends_bind; [by apply visit_ends |]. intros b1 (Hb1 & Hn1 & Hd1). cbn [fst snd] in *.
  destruct d as [|x|token|s|items|ms]; cbn [tree_of doc_nodes doc_tokens distinct_members] in *.
  - destruct (make_reads k_null [] b1 hd) as (v & hd' & -> & Hr & Hok); [constructor |].
    destruct (Hok Hh) as [Hh' Hext]. cbn. split_and!; try done. by constructor.
  - apply make_leaf_reads; try done. intros. by constructor.
  - destruct (integer_spelling token) eqn:Hi.
    + eapply ends_bind; [by apply decode_token_ends |]. intros [z b2] (Hz & Hb2 & Hn2). cbn [fst snd] in *. subst z.
      apply make_leaf_reads; [done | done | intros; by constructor | lia].
    + destruct (isFinite (number_of_token token)) eqn:Hfin; [| done].
      apply make_leaf_reads; try done. intros. by constructor.
  - destruct (scalar s path) as [u| |] eqn:Hs; [| done | by unfold scalar in Hs; case_bool_decide]. cbn [coded_bind].
    apply make_leaf_reads; try done. intros. constructor; [done | by eapply scalar_ok].
  - eapply ends_bind; [apply (decode_items_ends fuel path (dep + 1)); try done; lia |].
    intros [vs [b2 hd2]] (Hb2 & Hn2 & Hh2 & Hext2 & Hvs). cbn [fst snd].
    apply make_container_reads; try done; [| lia |].
    + pose proof (items_bound items). pose proof (Forall2_length _ _ _ Hvs) as Hl. rewrite length_fmap in Hl. rewrite Hl.
      unfold budget_ok, maxNodes, MAX_SAFE in *. lia.
    + intros hd' v a Hext Hr Ha. eapply holds_array; [done | done |]. eapply Forall2_impl; [exact Hvs |].
      intros. by eapply holds_grows.
  - destruct Hdist as [Hnd Hdist]. pose proof (property_order_perm ms) as Hp.
    eapply ends_bind; [apply (decode_members_ends fuel path (dep + 1)); try done; try lia |].
    { rewrite forallb_forall in *. intros m Hm. apply Htok, list_elem_of_In. rewrite <- Hp. by apply list_elem_of_In. }
    { by eapply members_perm_distinct. }
    intros [es [b2 hd2]] (Hb2 & Hn2 & Hh2 & Hext2 & Hes). cbn [fst snd]. rewrite (sum_perm (fun m => doc_nodes m.2) _ _ Hp) in Hn2.
    apply make_container_reads; try done; [| lia |].
    + pose proof (members_bound ms). pose proof (Forall2_length _ _ _ Hes) as Hl. rewrite length_fmap, (Permutation_length Hp) in Hl. rewrite Hl.
      unfold budget_ok, maxNodes, MAX_SAFE in *. lia.
    + intros hd' v a Hext Hr Ha. rewrite property_order_fmap. eapply holds_object; [done | done | |].
      * eapply Forall2_impl; [exact Hes |]. intros e m (Htext & x & Hrx & Hx). split; [done |]. exists x.
        split; [by eapply is_record_grows | by eapply holds_grows].
      * rewrite fmap_names. by apply property_order_names.
Qed.

(** *** Documents that are read whatever the budget is, if they fit *)

(** Integers as they are rendered, finite floats, texts without lone surrogates. *)
Fixpoint readable (d : doc) : Prop :=
  match d with
  | DNumber token =>
      (exists z, token = dec_of_Z z) \/ (integer_spelling token = false /\ isFinite (number_of_token token) = true)
  | DString s => text_ok s
  | DArray items => foldr (fun d q => readable d /\ q) True items
  | DObject ms => foldr (fun m q => (text_ok m.1 /\ readable m.2) /\ q) True ms
  | _ => True
  end.

Definition read_whole (d : doc) : Prop :=
  forall fuel path dep b hd, readable d -> doc_ok d = true -> doc_depth d < Z.of_nat fuel ->
  room b dep (doc_size d) (doc_nodes d) (doc_depth d) ->
  exists v b' hd', decode_value ids fuel d path dep (b, hd) = Coded (v, (b', hd')) /\ spent b b' (doc_size d) (doc_nodes d).

Lemma read_items fuel path dep items :
  Forall read_whole items -> forall i b hd,
  foldr (fun d q => readable d /\ q) True items -> forallb doc_ok items = true ->
  foldr (fun d n => Z.max (doc_depth d) n) 0 items < Z.of_nat fuel ->
  room b dep (foldr (fun d n => doc_size d + n) 0 items) (foldr (fun d n => doc_nodes d + n) 0 items)
    (foldr (fun d n => Z.max (doc_depth d) n) 0 items) ->
  exists vs b' hd', decode_items (decode_value ids fuel) items i path dep (b, hd) = Coded (vs, (b', hd'))
    /\ spent b b' (foldr (fun d n => doc_size d + n) 0 items) (foldr (fun d n => doc_nodes d + n) 0 items).
Proof using.
  induction 1 as [|d items Hd _ IH]; intros i b hd Hr Hok Hfuel Hroom.
  { exists [], b, hd. split; [done | unfold spent; cbn; lia]. }
  cbn [foldr forallb decode_items] in *. apply andb_true_iff in Hok as [Hokd Hok]. destruct Hr as [Hrd Hr].
  pose proof (doc_size_nonneg d). pose proof (doc_nodes_pos d). pose proof (sum_nodes_nonneg items).
  assert (0 <= foldr (fun d n => doc_size d + n) 0 items) as Hs0.
  { clear. induction items as [|d l IH]; cbn; [lia |]. pose proof (doc_size_nonneg d). lia. }
  destruct (Hd fuel (indexPath path i) dep b hd Hrd Hokd) as (v & b1 & hd1 & -> & Hsp); [lia | unfold room in *; lia |].
  cbn [coded_bind]. destruct (IH (S i) b1 hd1 Hr Hok) as (vs & b2 & hd2 & -> & Hsp2); [lia | unfold room, spent in *; lia |].
  cbn [coded_bind]. exists (v :: vs), b2, hd2. split; [done | by eapply spent_trans].
Qed.

Lemma read_members fuel path dep ms :
  Forall (fun m => read_whole m.2) ms -> forall b hd,
  foldr (fun m q => (text_ok m.1 /\ readable m.2) /\ q) True ms -> forallb (fun m => is_units m.1 && doc_ok m.2) ms = true ->
  foldr (fun m n => Z.max (doc_depth m.2) n) 0 ms < Z.of_nat fuel ->
  room b dep (foldr (fun m n => doc_size m.2 + n) 0 ms) (foldr (fun m n => doc_nodes m.2 + n) 0 ms)
    (foldr (fun m n => Z.max (doc_depth m.2) n) 0 ms) ->
  exists es b' hd', decode_members ids (decode_value ids fuel) ms path dep (b, hd) = Coded (es, (b', hd'))
    /\ spent b b' (foldr (fun m n => doc_size m.2 + n) 0 ms) (foldr (fun m n => doc_nodes m.2 + n) 0 ms).
Proof using.
  induction 1 as [|[k d] ms Hd _ IH]; intros b hd Hr Hok Hfuel Hroom.
  { exists [], b, hd. split; [done | unfold spent; cbn; lia]. }
  cbn [foldr forallb decode_members fst snd] in *. rewrite !andb_true_iff in Hok. destruct Hok as [[_ Hokd] Hok].
  destruct Hr as [[[Hu Hw] Hrd] Hr]. rewrite scalar_well_formed by done. cbn [coded_bind].
  pose proof (doc_size_nonneg d). pose proof (doc_nodes_pos d). pose proof (sum_member_nodes_nonneg ms).
  assert (0 <= foldr (fun (m : jstr * doc) n => doc_size m.2 + n) 0 ms) as Hs0.
  { clear. induction ms as [|m l IH]; cbn; [lia |]. pose proof (doc_size_nonneg m.2). lia. }
  destruct (Hd fuel (childPath path k) dep b hd Hrd Hokd) as (v & b1 & hd1 & -> & Hsp); [lia | unfold room in *; lia |].
  cbn [coded_bind]. destruct (make_reads k_member [(js "name", VStr k); (js "value", v)] b1 hd1) as (m & hd2 & -> & _).
  { by apply NoDup_cons; split; [intros ?%list_elem_of_singleton | apply NoDup_singleton]. }
  cbn [coded_bind]. destruct (IH b1 hd2 Hr Hok) as (es & b2 & hd3 & -> & Hsp2); [lia | unfold room, spent in *; lia |].
  cbn [coded_bind]. exists (m :: es), b2, hd3. split; [done | by eapply spent_trans].
Qed.

Lemma integer_spelling_dec z : integer_spelling (dec_of_Z z) = true.
Proof using.
  unfold integer_spelling. rewrite strip_minus_text. cbn [snd]. rewrite bool_decide_false by apply text_nonempty.
  rewrite text_all_digits. cbn [negb andb]. rewrite bool_decide_false; [done |]. intros H.
  pose proof (strip_minus_text z) as Hs. rewrite H in Hs. change (strip_minus (js "-0")) with (true, [48%N]) in Hs.
  injection Hs as Hz Hd.
  apply (f_equal dec_value) in Hd. rewrite dec_value_dec_of_N in Hd. change (dec_value [48%N]) with 0%N in Hd.
  symmetry in Hz. apply Z.ltb_lt in Hz. lia.
Qed.

Lemma read_dec z b path :
  budget_ok b -> len (dec_of_Z z) <= remaining b -> decodeInteger (dec_of_Z z) b path = Coded (z, charged b (dec_of_Z z)).
Proof using.
  intros Hb Hle. pose proof (decodeInteger_spec (dec_of_Z z) _ b path Hb (numeric_token_text z) ltac:(unfold budget_ok in Hb; lia)) as Hs.
  pose proof (denotes_integer_parts z) as Hz.
  destruct (decodeInteger (dec_of_Z z) b path) as [[z' b']|q r|]; [| destruct r; try done | done].
  - destruct Hs as (Hz' & -> & _). by rewrite (denotes_unique _ _ _ Hz' Hz).
  - destruct Hs as [_ Hs]. by destruct (Hs z).
  - destruct Hs as (_ & z' & Hz' & Hlt). rewrite (denotes_unique _ _ _ Hz' Hz) in Hlt. lia.
Qed.

Lemma make_fresh k fs b hd : NoDup fs.*1 -> exists v hd', make ids k fs (b, hd) = Coded (v, (b, hd')).
Proof using. intros H. destruct (make_reads k fs b hd H) as (v & hd' & ? & _). by exists v, hd'. Qed.

Lemma make_one k n x b hd : exists v hd', make ids k [(n, x)] (b, hd) = Coded (v, (b, hd')).
Proof using. apply make_fresh, NoDup_singleton. Qed.

Lemma read_leaf d fuel path dep b hd :
  doc_nodes d = 1 -> doc_depth d = 0 -> doc_depth d < Z.of_nat fuel -> room b dep (doc_size d) (doc_nodes d) (doc_depth d) ->
  (let b1 := mkBudget (bytes b) (remaining b) (nodes b + 1) in budget_ok b1 -> doc_size d <= remaining b1 ->
   exists v b' hd', decode_value ids (S (pred fuel)) d path dep (b, hd) = Coded (v, (b', hd')) /\ spent b1 b' (doc_size d) 0) ->
  exists v b' hd', decode_value ids fuel d path dep (b, hd) = Coded (v, (b', hd')) /\ spent b b' (doc_size d) (doc_nodes d).
Proof using.
  intros Hn Hd Hfuel Hroom H. pose proof (doc_size_nonneg d). destruct fuel as [|fuel]; [lia |].
  destruct H as (v & b' & hd' & Hrun & Hsp); [unfold room, budget_ok in *; cbn; lia | unfold room in *; cbn; lia |].
  exists v, b', hd'. split; [done |]. unfold spent in *. cbn [bytes remaining nodes] in *. lia.
Qed.

Lemma read_all d : read_whole d.
Proof using.
  induction d as [|x|token|s|items IH|ms IH] using doc_induction; intros fuel path dep b hd Hr Hok Hfuel Hroom.
  1-4: apply read_leaf; [done.. |]; intros b1 Hb1 Hs; cbn [decode_value fst snd pred];
    rewrite Z.add_0_r; rewrite visit_room by (unfold room in Hroom; cbn [doc_depth doc_nodes] in Hroom; lia);
    fold b1; cbn [coded_bind].
  - destruct (make_fresh k_null [] b1 hd) as (v & hd' & ->); [constructor |]. exists v, b1, hd'. split; [done |]. pose proof (doc_size_nonneg DNull). unfold spent. lia.
  - destruct (make_one k_bool (js "value") (VBool x) b1 hd) as (v & hd' & ->). exists v, b1, hd'. split; [done |].
    pose proof (doc_size_nonneg (DBool x)). unfold spent. lia.
  - pose proof (doc_size_nonneg (DNumber token)). destruct Hr as [[z ->]|[Hi Hfin]].
    + rewrite integer_spelling_dec. assert (doc_size (DNumber (dec_of_Z z)) = len (dec_of_Z z)) as Hl
        by apply ascii_size, number_ascii, int_token.
      rewrite Hl in *. rewrite read_dec by done. cbn [coded_bind].
      destruct (make_one k_int (js "value") (VBigInt z) (charged b1 (dec_of_Z z)) hd) as (v & hd' & ->).
      exists v, (charged b1 (dec_of_Z z)), hd'. split; [done |]. unfold spent, charged. cbn [bytes remaining nodes]. lia.
    + rewrite Hi, Hfin. destruct (make_one k_float (js "value") (VNum (number_of_token token)) b1 hd) as (v & hd' & ->).
      exists v, b1, hd'. split; [done |]. unfold spent. lia.
  - destruct Hr as [Hu Hw]. rewrite scalar_well_formed by done. cbn [coded_bind].
    destruct (make_one k_string (js "value") (VStr s) b1 hd) as (v & hd' & ->). exists v, b1, hd'. split; [done |].
    pose proof (doc_size_nonneg (DString s)). unfold spent. lia.
  - destruct fuel as [|fuel]; [pose proof (doc_depth_nonneg (DArray items)); lia |]. cbn [decode_value fst snd].
    pose proof (items_size items Hok) as Hsz. cbn [doc_depth doc_nodes readable doc_ok] in *. pose proof (max_depth_nonneg doc_depth items).
    pose proof (sum_nodes_nonneg items). rewrite visit_room by (unfold room in Hroom; lia). cbn [coded_bind fst snd].
    destruct (read_items fuel path (dep + 1) items IH 0%nat (mkBudget (bytes b) (remaining b) (nodes b + 1)) hd Hr Hok)
      as (vs & b' & hd' & -> & Hsp); [lia | unfold room in *; cbn [bytes remaining nodes]; lia |].
    cbn [coded_bind fst snd]. destruct (array hd' vs) as [a h1].
    destruct (make_one k_array (js "values") a b' h1) as (v & hd2 & ->). exists v, b', hd2. split; [done |].
    unfold spent in *. cbn [bytes remaining nodes] in *. lia.
  - destruct fuel as [|fuel]; [pose proof (doc_depth_nonneg (DObject ms)); lia |]. cbn [decode_value fst snd].
    pose proof (members_size ms Hok) as Hsz. cbn [doc_depth doc_nodes readable doc_ok] in *.
    pose proof (max_depth_nonneg (fun m => doc_depth m.2) ms). pose proof (sum_member_nodes_nonneg ms).
    rewrite visit_room by (unfold room in Hroom; lia). cbn [coded_bind fst snd]. pose proof (property_order_perm ms) as Hp.
    rewrite <- (sum_perm (fun m => doc_nodes m.2) _ _ Hp), <- (max_perm (fun m => doc_depth m.2) _ _ Hp) in *.
    rewrite <- (sum_perm (fun m => doc_size m.2) _ _ Hp) in Hsz.
    destruct (read_members fuel path (dep + 1) (property_order ms)) with (b := mkBudget (bytes b) (remaining b) (nodes b + 1)) (hd := hd)
      as (es & b' & hd' & -> & Hsp); [by rewrite Hp | | | lia | unfold room in *; cbn [bytes remaining nodes]; lia |].
    + clear -Hr Hp. revert Hr. symmetry in Hp. induction Hp; cbn; tauto.
    + rewrite forallb_forall in *. intros m Hm. apply Hok, list_elem_of_In. rewrite <- Hp. by apply list_elem_of_In.
    + cbn [coded_bind fst snd]. destruct (array hd' es) as [a h1].
      destruct (make_one k_object (js "members") a b' h1) as (v & hd2 & ->). exists v, b', hd2. split; [done |].
      unfold spent in *. cbn [bytes remaining nodes] in *. lia.
Qed.
End decode.

(** ** The only exception of the encoder

    A record whose [length] is no array's can be too large to charge, which the
    budget reports as a [TypeError]; nothing else is ever thrown. *)
Section faults.
Context (number_text : num -> jstr) (ids : JSONValueIds) (h : heap).

Definition only_charge {A} (r : coded A) : Prop :=
  match r with Fault msg => msg = "invalid codec charge"%string | _ => True end.

Lemma only_charge_bind {A B} (m : coded A) (f : A -> coded B) :
  only_charge m -> (forall a, m = Coded a -> only_charge (f a)) -> only_charge (coded_bind m f).
Proof. destruct m; cbn; auto. Qed.

Lemma charge_only b size path : only_charge (charge b size path).
Proof. unfold charge. destruct (negb _ || _); [done |]. by destruct (_ <? _). Qed.

Lemma visit_only b dep path : only_charge (Codec.visit b dep path).
Proof. unfold Codec.visit. destruct (_ <? _); [done |]. by destruct (_ <? _). Qed.

Lemma textCost_only b s path : only_charge (textCost b s path).
Proof.
  unfold textCost. destruct (_ <? _); [done |]. apply only_charge_bind; [unfold scalar; by case_bool_decide |].
  intros _ _. apply charge_only.
Qed.

Lemma checkedData_only {A} (r : res A) path : only_charge (checkedData r path).
Proof. by destruct r. Qed.

Lemma encodeInteger_only z b path : only_charge (encodeInteger z b path).
Proof.
  unfold encodeInteger. destruct (_ <? _); [done |]. destruct (_ && _); [done |].
  apply only_charge_bind; [apply charge_only | done].
Qed.

Lemma fields_only v k names path : only_charge (fields ids h v k names path).
Proof.
  unfold fields. case_bool_decide; [cbn [negb] | done]. apply only_charge_bind; [apply checkedData_only |].
  intros ks _. destruct (filter _ _); [| done]. induction names as [|name names IH]; [done |]. cbn [map_coded].
  apply only_charge_bind; [apply checkedData_only |]. intros x _. by apply only_charge_bind.
Qed.

#[local] Hint Resolve charge_only visit_only textCost_only checkedData_only encodeInteger_only fields_only : core.

Lemma container_only k v path b : only_charge (container_entries ids h k v path b).
Proof.
  unfold container_entries. apply only_charge_bind; [auto |]. intros [|items [|]] _; try done.
  apply only_charge_bind; [auto |]. intros len _. destruct (array_length len); [| done].
  apply only_charge_bind; [auto |]. intros b1 _. by apply only_charge_bind.
Qed.

Lemma leaf_only k item path b : only_charge (encode_leaf number_text k item path b).
Proof.
  destruct k; cbn [encode_leaf]; try done.
  - destruct item; try done. by apply only_charge_bind.
  - destruct item; try done. apply only_charge_bind; [auto |]. by intros [token b1] _.
  - destruct item; try done. destruct (isFinite x); [| done]. by apply only_charge_bind.
  - apply only_charge_bind; [| by intros [s b1] _]. unfold text. destruct item; try done. by apply only_charge_bind.
Qed.

Lemma encode_only fuel : forall active v path dep b,
  dep <= maxDepth < dep + Z.of_nat fuel -> only_charge (encode_value number_text ids h fuel active v path dep b).
Proof.
  induction fuel as [|fuel IH]; intros active v path dep b Hdep; [lia |]. cbn [encode_value].
  destruct (kinds ids !! _) as [k|]; [| done]. apply only_charge_bind; [auto |]. intros b1 [Hd _]%visit_costs.
  case_bool_decide; [done |]. set (active' := _ ∪ active).
  assert (is_container k = true -> forall es i b, only_charge (encode_entries (encode_value number_text ids h fuel active') es i path (dep + 1) b)) as Hitems.
  { intros Hk. rewrite Hk in Hd. induction es as [|e es IHes]; intros i b2; [done |]. cbn [encode_entries].
    apply only_charge_bind; [apply IH; lia |]. intros [d b3] _. apply only_charge_bind; [apply IHes |]. by intros [ds b4] _. }
  assert (is_container k = true -> forall es seen b, only_charge (encode_members ids h (encode_value number_text ids h fuel active') es seen path (dep + 1) b)) as Hmembers.
  { intros Hk. rewrite Hk in Hd. induction es as [|e es IHes]; intros seen b2; [done |]. cbn [encode_members].
    apply only_charge_bind; [auto |]. intros [|[| | | | |name|] [|child [|]]] _; try done. case_bool_decide; [done |].
    apply only_charge_bind; [auto |]. intros b3 _. apply only_charge_bind; [apply IH; lia |]. intros [d b4] _.
    apply only_charge_bind; [apply IHes |]. by intros [ms b5] _. }
  destruct k; try (apply only_charge_bind; [auto |]; intros [|item [|]] _; try done; apply leaf_only).
  - apply only_charge_bind; [auto |]. intros _ _. by apply only_charge_bind.
  - apply only_charge_bind; [apply container_only |]. intros [es b2] _. apply only_charge_bind; [by apply Hitems |]. by intros [ds b3] _.
  - apply only_charge_bind; [apply container_only |]. intros [es b2] _. apply only_charge_bind; [by apply Hmembers |]. by intros [ms b3] _.
Qed.
End faults.

(** ** Trees and their documents *)

Lemma tree_of_document number_text ids h t :
  floats_print number_text h -> forall v, holds ids h v t ->
  tree_of (document number_text t) = native t /\ readable (document number_text t).
Proof.
  intros Hfloats. induction t as [|b|z|x|s|items IH|members IH] using tree_induction; intros v H;
    inversion H as [? R|? ? R|? ? R|? ? R Hfin|? ? R Htext|? a vs ? R Ha Hall|? a es ? R Ha Hall Hnd]; subst;
    cbn [document native tree_of readable]; try done.
  - rewrite integer_spelling_dec, bigint_of_text_dec. split; [done |]. left. by exists z.
  - destruct (record_float number_text ids h Hfloats v x R Hfin) as [[_ Hback] _].
    rewrite float_token_float, Hback. split; [done | by right].
  - assert (tree_of <$> (document number_text <$> items) = native <$> items
      /\ foldr (fun d q => readable d /\ q) True (document number_text <$> items)) as [-> ?]; [| done].
    clear -IH Hall. revert vs Hall. induction IH as [|t items Ht _ IH]; intros vs Hall; [done |].
    apply Forall2_cons_inv_r in Hall as (v & vs' & Hv & Hvs & ->). destruct (Ht v Hv) as [H1 H2], (IH vs' Hvs) as [H3 H4].
    rewrite !fmap_cons, H1, H3. done.
  - rewrite <- property_order_fmap, property_order_idem, <- list_fmap_compose. set (ms := (fun m => (m.1, document number_text m.2)) <$> members).
    assert ((fun m => (m.1, tree_of m.2)) ∘ (fun m => (m.1, document number_text m.2)) <$> members
        = (fun m => (m.1, native m.2)) <$> members
      /\ foldr (fun m q => (text_ok m.1 /\ readable m.2) /\ q) True ms) as [-> Hms].
    { unfold ms. clear -IH Hall. revert es Hall. induction IH as [|m members Ht _ IH]; intros es Hall; [done |].
      apply Forall2_cons_inv_r in Hall as (e & es' & (Htext & x & _ & Hx) & Hes & ->).
      destruct (Ht x Hx) as [H1 H2], (IH es' Hes) as [H3 H4]. rewrite !fmap_cons, H3. cbn. by rewrite H1. }
    split; [done |]. revert Hms. pose proof (property_order_perm ms) as Hp. symmetry in Hp. clear -Hp. induction Hp; cbn; tauto.
Qed.

(** The documents that the decoder accepts. *)
Lemma parseJSONText_document text d :
  parseJSONText text = Coded d -> JSON_parse text = Some d /\ distinct_members d /\ doc_tokens d = true.
Proof.
  unfold parseJSONText. intros (dup & Hscan & H)%coded_bind_ok.
  destruct (JSON_parse text) as [d'|] eqn:Hp; [| done]. destruct dup; [done |]. injection H as ->.
  split; [done |]. split; [| by eapply JSON_parse_tokens].
  destruct (decide (doc_depth d <= maxDepth /\ doc_nodes d <= maxNodes)) as [Hf|Hf].
  - rewrite (scan_fits text d Hp Hf) in Hscan. injection Hscan as Hscan. by eapply first_repeated_none.
  - destruct (scan_unfit text d Hp Hf) as (r & Hr & _). by rewrite Hr in Hscan.
Qed.

(** ** Properties *)

(** C27. The encoder accepts exactly the values that stand for a tree (records of the
    codec's kinds, dense arrays, distinct member names, texts without lone
    surrogates, finite floats) whose document fits the limits of depth, values
    and bytes, and what it answers is that document; shared records are written
    once per use and cyclic values, which stand for no tree, are never accepted.
    It throws nothing but the budget's refusal of a length no array has. *)
Theorem json_values_encode_exactly number_text ids h v cap out :
  NoDup (id_of ids <$> all_kinds) -> floats_print number_text h -> 1 <= cap <= 67108864 ->
  (encodeJSONValue number_text ids h v cap = Coded out
   <-> exists t, holds ids h v t /\ fits (document number_text t) /\ doc_size (document number_text t) <= cap
         /\ out = utf8_encode (JSON_stringify (document number_text t)))
  /\ forall msg, encodeJSONValue number_text ids h v cap = Fault msg -> msg = "invalid codec charge"%string.
Proof.
  intros Hids Hfloats Hcap. split; [split |].
  - intros H. destruct (encode_sound number_text ids h Hfloats v cap out H) as (t & Ht & -> & Hsize & _ & Hfits).
    by exists t.
  - intros (t & Ht & Hfits & Hsize & ->). by apply encode_complete.
  - intros msg. unfold encodeJSONValue. rewrite new_Budget_cap by done. cbn [coded_bind].
    pose proof (encode_only number_text ids h visit_fuel ∅ v [] 0 (mkBudget cap cap 0) ltac:(unfold visit_fuel, maxDepth; lia)) as Honly.
    destruct (encode_value _ _ _ _ _ _ _ _ _) as [[d b']|q r|m] eqn:Hrun; cbn [coded_bind]; [| done | by intros [= <-]].
    case_bool_decide as Hlen; [done |]. exfalso. apply Hlen.
    apply (encodes_all number_text ids h Hfloats visit_fuel) in Hrun as (t & Ht & -> & Hc & _);
      [| unfold budget_ok, maxNodes; cbn; lia]. unfold costs in Hc. cbn [bytes remaining nodes] in Hc.
    unfold doc_size, byte_size in Hc. lia.
Qed.

(** Decoding any bytes ends in an issue, or in a value that stands for the tree of
    the document the native parser reads from them, in a heap that only grew. *)
Theorem json_values_decode ids hd input cap :
  heap_ok hd -> 1 <= cap <= 67108864 ->
  match decodeJSONValue ids hd input cap with
  | Coded (v, hd') => exists text d, utf8_decode input = Some text /\ JSON_parse text = Some d
      /\ holds ids hd' v (tree_of d) /\ heap_ok hd' /\ extends hd hd'
  | reject _ _ => True
  | Fault _ => False
  end.
Proof.
  intros Hh Hcap. unfold decodeJSONValue. rewrite new_Budget_cap by done. cbn [coded_bind].
  unfold parseDocument, decodeText. destruct (cap <? _); [done |].
  destruct (utf8_decode input) as [text|]; [| done]. cbn [coded_bind]. pose proof (parseJSONText_ends text) as Hends.
  destruct (parseJSONText text) as [d|q r|] eqn:Hparse; [| done | done]. cbn [coded_bind].
  destruct (parseJSONText_document text d Hparse) as (Hp & Hdist & Htok).
  pose proof (decodes_all_end ids visit_fuel d [] 0 (mkBudget cap cap 0) hd Htok Hdist
    ltac:(unfold budget_ok, maxNodes; cbn; lia) Hh ltac:(unfold visit_fuel, maxDepth; lia)) as H.
  destruct (decode_value ids visit_fuel d [] 0 _) as [[v [b' hd']]|q r|]; [| done | done]. cbn in *.
  destruct H as (_ & _ & Hh' & Hext & Hv). by exists text, d.
Qed.

(** What is written is read back under the same cap as the same tree, integers
    exact and floats as floats, with the members of every object in the native
    key order. *)
Theorem json_values_roundtrip number_text ids h v cap out hd :
  NoDup (id_of ids <$> all_kinds) -> floats_print number_text h -> heap_ok hd ->
  encodeJSONValue number_text ids h v cap = Coded out ->
  exists t v' hd', holds ids h v t /\ decodeJSONValue ids hd out cap = Coded (v', hd')
    /\ holds ids hd' v' (native t) /\ extends hd hd'.
Proof.
  intros Hids Hfloats Hh H. destruct (encode_sound number_text ids h Hfloats v cap out H) as (t & Ht & -> & Hsize & Hcap & Hfits).
  set (d := document number_text t) in *. pose proof (json_document_ok number_text ids h Hfloats t v Ht) as [Hok Hdist].
  destruct (tree_of_document number_text ids h t Hfloats v Ht) as [Htree Hread]. fold d in Hok, Hdist, Htree, Hread.
  pose proof (doc_size_nonneg d). pose proof Hfits as [Hdepth Hnodes].
  destruct (read_all ids d visit_fuel [] 0 (mkBudget cap cap 0) hd Hread Hok) as (v' & b' & hd' & Hrun & _);
    [unfold visit_fuel, maxDepth in *; lia | unfold room; cbn [bytes remaining nodes]; lia |].
  exists t, v', hd'. pose proof (decodes_all_end ids visit_fuel d [] 0 (mkBudget cap cap 0) hd) as Hends. rewrite Hrun in Hends.
  assert (JSON_parse (JSON_stringify d) = Some d) as Hparse by by apply JSON_parse_stringify.
  cbn in Hends. destruct Hends as (_ & _ & _ & Hext & Hv); [by eapply JSON_parse_tokens | done | | done | |].
  { unfold budget_ok, maxNodes. cbn. lia. }
  { unfold maxDepth, visit_fuel. lia. }
  split_and!; [done | | by rewrite <- Htree | done].
  unfold decodeJSONValue, parseDocument. rewrite new_Budget_cap by done. cbn [coded_bind].
  rewrite decodeText_stringify by done. cbn [coded_bind]. rewrite parseJSONText_stringify by done. cbn [coded_bind].
  by rewrite Hrun.
Qed.

(** ** A value *)

Definition jv_ids : JSONValueIds :=
  mkIds (js "n") (js "b") (js "i") (js "f") (js "s") (js "a") (js "o") (js "m").

(** A printer that is right for [2]. *)
Definition jv_text (x : num) : jstr := js "2".

Definition jv_source : jstr := dq "{'b':[1,2.0,null,'x'],'7':true,'a':{}}".

Definition jv_value : value * heap :=
  match decodeJSONValue jv_ids empty_heap (utf8_encode jv_source) 100 with
  | Coded r => r
  | _ => (VNull, empty_heap)
  end.

(** Integer-like names come first, and the float keeps its case. *)
Example jv_written :
  encodeJSONValue jv_text jv_ids jv_value.2 jv_value.1 100
  = Coded (utf8_encode (dq "{'7':true,'b':[1,2.0,null,'x'],'a':{}}")).
Proof. vm_compute. reflexivity. Qed.

Example jv_duplicate :
  decodeJSONValue jv_ids empty_heap (utf8_encode (dq "{'a':1,'a':2}")) 100 = reject (js "/a") duplicate_member.
Proof. vm_compute. reflexivity. Qed.

Example jv_minus_zero :
  (let* (v, h) := decodeJSONValue jv_ids empty_heap (utf8_encode (dq "-0")) 100 in Coded (recordIdentity h v))
  = Coded (Some (js "f")).
Proof. vm_compute. reflexivity. Qed.

Lemma jv_ids_distinct : NoDup (id_of jv_ids <$> all_kinds).
Proof. apply (bool_decide_unpack (NoDup _)). vm_compute. exact I. Qed.

Definition float_is (x0 : num) (o : object) : bool :=
  match find_prop (props o) (KStr (js "value")) with
  | Some (DataProp (VNum x)) => bool_decide (x = x0)
  | _ => true
  end.

Lemma floats_print_check number_text h x0 :
  forallb (float_is x0) (map_to_list (objects h)).*2 = true ->
  prints number_text x0 -> len (float_token number_text x0) <= MAX_SAFE -> floats_print number_text h.
Proof.
  rewrite forallb_forall. intros H Hp Hl v x Hx _. unfold dataProperty in Hx. apply res_bind_ret in Hx as (o & Ho & Hx).
  destruct v as [| | | | | |l]; try done. cbn in Ho. destruct (objects h !! l) as [o'|] eqn:Hlk; [| done].
  destruct (is_function o' || is_proxy o'); [done |]. injection Ho as ->.
  specialize (H o). unfold float_is in H. destruct (find_prop (props o) _) as [[y|]|]; try done. injection Hx as ->.
  assert (x = x0) as ->; [| done]. apply (bool_decide_eq_true_1 (x = x0)), H, list_elem_of_In, list_elem_of_fmap.
  exists (l, o). split; [done | by apply elem_of_map_to_list].
Qed.

Lemma jv_floats : floats_print jv_text jv_value.2.
Proof.
  apply (floats_print_check _ _ (number_of_token (js "2.0"))); [vm_compute; reflexivity | by split; vm_compute | by vm_compute].
Qed.

Lemma json_values_encode_exactly_witness :
  (exists t, holds jv_ids jv_value.2 jv_value.1 t)
  /\ encodeJSONValue jv_text jv_ids jv_value.2 jv_value.1 10 <> Fault "codec preflight/formatter length mismatch".
Proof.
  split.
  - destruct (proj1 (proj1 (json_values_encode_exactly jv_text jv_ids jv_value.2 jv_value.1 100 _ jv_ids_distinct jv_floats
      ltac:(lia))) jv_written) as (t & Ht & _). by exists t.
  - intros H. discriminate (proj2 (json_values_encode_exactly jv_text jv_ids jv_value.2 jv_value.1 10 [] jv_ids_distinct jv_floats
      ltac:(lia)) _ H).
Defined.

Lemma json_values_decode_witness :
  match decodeJSONValue jv_ids empty_heap (utf8_encode jv_source) 100 with
  | Coded (v, hd') => exists text d, utf8_decode (utf8_encode jv_source) = Some text /\ JSON_parse text = Some d
      /\ holds jv_ids hd' v (tree_of d) /\ heap_ok hd' /\ extends empty_heap hd'
  | reject _ _ => True
  | Fault _ => False
  end.
Proof. apply (json_values_decode jv_ids empty_heap (utf8_encode jv_source) 100 empty_heap_ok). lia. Defined.

Lemma json_values_roundtrip_witness :
  exists t v' hd', holds jv_ids jv_value.2 jv_value.1 t
    /\ decodeJSONValue jv_ids empty_heap (utf8_encode (dq "{'7':true,'b':[1,2.0,null,'x'],'a':{}}")) 100 = Coded (v', hd')
    /\ holds jv_ids hd' v' (native t).
Proof.
  destruct (json_values_roundtrip jv_text jv_ids jv_value.2 jv_value.1 100 _ empty_heap jv_ids_distinct jv_floats
    empty_heap_ok jv_written) as (t & v' & hd' & Ht & Hd & Hv & _).
  exists t, v', hd'. split; [exact Ht |]. split; [exact Hd | exact Hv].
Defined.
