(* ===== verification/JsonlCodec.v ===== *)
(** * JSON lines through the codec

    [projectJsonlRecord] and [decodeJsonlRecords] of
    [src/runtime/codec/jsonl.ts] and [consume] of [json.ts]: the records of a
    whole payload, and the records of a reader handed to a handler one by one. *)
From stdpp Require Import base gmap list strings.
From Stdlib Require Import ZArith Lia.
From S2P Require Import Prelude JsNumber JsString Unicode Data DataFacts Codec Jsonl JsonCodec Json.

(** ** Records *)

(** An issue of a record carries the index of the record in front of its path. *)
Definition prefixed {A} (path : jstr) (r : coded A) : coded A :=
  match r with
  | reject q reason => reject (path ++ q) reason
  | r => r
  end.

Definition decodeLine (line : list N) (path : jstr) : coded jstr :=
  match utf8_decode line with
  | Some text => Coded text
  | None => reject path Codec.utf8
  end.

Definition projectJsonlRecord (schema : Schema) (line : list N) (index : nat) (b : Budget) (h : heap)
    : coded (value * (Budget * heap)) :=
  let path := indexPath [] index in
  let* text := decodeLine line path in
  let* parsed := prefixed path (parseJSONText text) in
  prefixed path (projectValue schema parsed b h).

(** The loop over lines, with the one budget all records share. *)
Fixpoint project_lines (schema : Schema) (lines : list (list N)) (index : nat) (st : Budget * heap)
    : coded (list value * (Budget * heap)) :=
  match lines with
  | [] => Coded ([], st)
  | line :: lines =>
      let* (v, st) := projectJsonlRecord schema line index st.1 st.2 in
      let* (vs, st) := project_lines schema lines (S index) st in
      Coded (v :: vs, st)
  end.

(** The framer keeps its own default cap, whatever the cap of the payload. *)
Definition decodeJsonlRecords (schema : Schema) (h : heap) (input : list N) (bytes : Z) : coded (value * heap) :=
  if bytes <? Z.of_nat (length input) then reject [] byte_limit
  else
    let* b := new_Budget bytes in
    let '(pushed, f) := push (createJsonlFramer standaloneBytes) input in
    let* lines := pushed in
    let* (records, st) := project_lines schema lines 0 (b, h) in
    match (finish f).1 with
    | Some tail =>
        let* (v, st) := projectJsonlRecord schema tail (length records) st.1 st.2 in
        Coded (array st.2 (records ++ [v]))
    | None => Coded (array st.2 records)
    end.

(** ** Consuming a reader *)

(** What [reasonFor] looks at in the cause of a failed read; [None] when the
    cause is no object. *)
Record native_cause : Type := mkCause { c_name : option jstr; c_code : option jstr }.

Definition reasonFor (cause : option native_cause) : jstr :=
  match cause with
  | Some c =>
      if bool_decide (c_name c = Some (js "AbortError")) then js "aborted"
      else default (js "io_error") (c_code c)
  | None => js "io_error"
  end.

(** One [source.read()]: a chunk, a rejection, or the end, with what
    [cell.cancelled] is at that moment. *)
Inductive read_event : Type :=
| Chunk (bytes : list N)
| ReadFails (cause : option native_cause)
| ReadDone (cancelled : option jstr).

(** The completions [consume] answers with; [R] are the completions of the
    handler other than [ok], returned as they are. *)
Inductive consumed (R : Type) : Type :=
| Consumed (count : nat)
| InvalidData (path : jstr) (reason : Reason)
| ReadFailed (reason : jstr)
| Cancelled (reason : jstr)
| HandlerEnded (completion : R)
| ConsumeThrows (msg : string).
Arguments Consumed {R} count.
Arguments InvalidData {R} path reason.
Arguments ReadFailed {R} reason.
Arguments Cancelled {R} reason.
Arguments HandlerEnded {R} completion.
Arguments ConsumeThrows {R} msg.

(** The cell of the reader: its kind, whether it has a native reader, and the
    mark a failed read leaves. *)
Record cell : Type := mkCell { item_bytes : bool; has_reader : bool; errored : bool }.

Section consume.
Context {R X : Type} (schema : Schema).
(** The authored handler: [None] is [ok], and [X] is all that its calls can
    change.  The values it receives are frozen. *)
Context (handler : value -> X -> option R * X).

(** What the awaits of [consume] share. *)
Record consumer : Type := mkConsumer {
  r_budget : Budget; r_heap : heap; r_framer : framer; r_index : nat; r_state : X
}.

(** The outcome when the call ends here, [None] when it goes on. *)
Definition deliver (line : list N) (c : consumer) : option (consumed R) * consumer :=
  match projectJsonlRecord schema line (r_index c) (r_budget c) (r_heap c) with
  | Coded (v, (b, h)) =>
      let '(out, x) := handler v (r_state c) in
      (HandlerEnded <$> out, mkConsumer b h (r_framer c) (S (r_index c)) x)
  | reject path reason =>
      (Some (InvalidData path reason), mkConsumer (r_budget c) (r_heap c) (r_framer c) (S (r_index c)) (r_state c))
  | Fault msg =>
      (Some (ConsumeThrows msg), mkConsumer (r_budget c) (r_heap c) (r_framer c) (S (r_index c)) (r_state c))
  end.

Fixpoint deliver_all (lines : list (list N)) (c : consumer) : option (consumed R) * consumer :=
  match lines with
  | [] => (None, c)
  | line :: lines =>
      match deliver line c with
      | (None, c) => deliver_all lines c
      | stop => stop
      end
  end.

Definition set_framer (c : consumer) (f : framer) : consumer :=
  mkConsumer (r_budget c) (r_heap c) f (r_index c) (r_state c).

(** After the last chunk. *)
Definition consume_tail (c : consumer) : consumed R * consumer :=
  let '(tail, f) := finish (r_framer c) in
  let c := set_framer c f in
  match tail with
  | Some line =>
      match deliver line c with
      | (Some out, c) => (out, c)
      | (None, c) => (Consumed (r_index c), c)
      end
  | None => (Consumed (r_index c), c)
  end.

(** The loop over the reads; [None] while the source has not answered.  The
    mark of a failed read is returned with the outcome. *)
Fixpoint consume_loop (events : list read_event) (ce : cell) (c : consumer) : option (consumed R * consumer) * cell :=
  match events with
  | [] => (None, ce)
  | ReadFails cause :: _ =>
      (Some (ReadFailed (reasonFor cause), c), mkCell (item_bytes ce) (has_reader ce) true)
  | ReadDone (Some reason) :: _ => (Some (Cancelled reason, c), ce)
  | ReadDone None :: _ => (Some (consume_tail c), ce)
  | Chunk chunk :: events =>
      let '(pushed, f) := push (r_framer c) chunk in
      let c := set_framer c f in
      match pushed with
      | reject path reason => (Some (InvalidData path reason, c), ce)
      | Fault msg => (Some (ConsumeThrows msg, c), ce)
      | Coded lines =>
          match deliver_all lines c with
          | (Some out, c) => (Some (out, c), ce)
          | (None, c) => consume_loop events ce c
          end
      end
  end.

(** The operation [consume] runs over the cell, and the state of the handler
    when it ends. *)
Definition consume (ce : cell) (events : list read_event) (h : heap) (x : X) : option (consumed R * X) * cell :=
  match new_Budget standaloneBytes with
  | Coded b =>
      if negb (item_bytes ce) || negb (has_reader ce) then (Some (InvalidData [] type, x), ce)
      else
        let '(r, ce) := consume_loop events ce (mkConsumer b h (createJsonlFramer standaloneBytes) 0 x) in
        ((fun r => (r.1, r_state r.2)) <$> r, ce)
  | _ => (None, ce)
  end.

End consume.

(** ** Streaming against the whole payload *)

(** The values in front of the first line that does not decode, and how the
    decoding ends. *)
Fixpoint decode_prefix (schema : Schema) (lines : list (list N)) (index : nat) (st : Budget * heap)
    : list value * coded (Budget * heap) :=
  match lines with
  | [] => ([], Coded st)
  | line :: lines =>
      match projectJsonlRecord schema line index st.1 st.2 with
      | Coded (v, st) => let '(vs, e) := decode_prefix schema lines (S index) st in (v :: vs, e)
      | reject path reason => ([], reject path reason)
      | Fault msg => ([], Fault msg)
      end
  end.

(** The handler over some values, up to its first completion that is not ok. *)
Fixpoint feed {R X} (handler : value -> X -> option R * X) (vs : list value) (x : X) : option R * X :=
  match vs with
  | [] => (None, x)
  | v :: vs =>
      match handler v x with
      | (None, x) => feed handler vs x
      | stop => stop
      end
  end.

Lemma project_lines_prefix schema lines : forall index st,
  project_lines schema lines index st
  = let* st' := (decode_prefix schema lines index st).2 in Coded ((decode_prefix schema lines index st).1, st').
Proof.
  induction lines as [|line lines IH]; intros index st; cbn; [done |].
  destruct (projectJsonlRecord _ _ _ _ _) as [[v st']| |]; cbn; [| done..].
  rewrite IH. destruct (decode_prefix schema lines (S index) st') as [vs e]. by destruct e.
Qed.

Lemma decode_prefix_app schema l1 l2 : forall index st,
  decode_prefix schema (l1 ++ l2) index st
  = let '(vs, e) := decode_prefix schema l1 index st in
    match e with
    | Coded st' => let '(vs', e') := decode_prefix schema l2 (index + length vs) st' in (vs ++ vs', e')
    | e => (vs, e)
    end.
Proof.
  induction l1 as [|line l1 IH]; intros index st; cbn.
  { rewrite Nat.add_0_r. by destruct (decode_prefix schema l2 index st). }
  destruct (projectJsonlRecord _ _ _ _ _) as [[v st']| |]; cbn; [| done..].
  rewrite IH. destruct (decode_prefix schema l1 (S index) st') as [vs e]. destruct e as [st2| |]; cbn; [| done..].
  rewrite Nat.add_succ_r. cbn. by destruct (decode_prefix schema l2 _ st2).
Qed.

(** The values come from the first lines, in order. *)
Lemma decode_prefix_sound schema lines : forall index st vs e,
  decode_prefix schema lines index st = (vs, e) ->
  exists st', project_lines schema (take (length vs) lines) index st = Coded (vs, st')
    /\ forall st'', e = Coded st'' -> length vs = length lines.
Proof.
  induction lines as [|line lines IH]; intros index st vs e; cbn; [intros [= <- <-]; by exists st |].
  destruct (projectJsonlRecord schema line index st.1 st.2) as [[v st1]| |] eqn:Hp; [| intros [= <- <-]; by exists st..].
  destruct (decode_prefix schema lines (S index) st1) as [ws e'] eqn:Hd. intros [= <- <-].
  destruct (IH _ _ _ _ Hd) as (st' & H & Hlen). exists st'. cbn. rewrite Hp. cbn. rewrite H. cbn.
  split; [done |]. intros st'' He. by rewrite (Hlen _ He).
Qed.

Lemma feed_app {R X} (handler : value -> X -> option R * X) vs ws : forall x,
  feed handler (vs ++ ws) x
  = match feed handler vs x with (None, x') => feed handler ws x' | stop => stop end.
Proof. induction vs as [|v vs IH]; intros x; cbn; [done |]. destruct (handler v x) as [[r|] x']; [done |]. apply IH. Qed.

Section streaming.
Context {R X : Type} (schema : Schema) (handler : value -> X -> option R * X).

(** [c] after some more delivered records. *)
#[local] Abbreviation consumer := (@consumer X).
Definition advanced (c : consumer) (st : Budget * heap) (n : nat) (x : X) : consumer :=
  mkConsumer st.1 st.2 (r_framer c) (r_index c + n) x.

(** Handing the records of [lines] over either stops with an outcome and a state
    of the handler, or goes on from the advanced consumer. *)
Definition delivery (lines : list (list N)) (c : consumer) (stopped : consumed R -> X -> Prop) (goes : consumer -> Prop) : Prop :=
  let '(vs, e) := decode_prefix schema lines (r_index c) (r_budget c, r_heap c) in
  match feed handler vs (r_state c) with
  | (Some r, x) => stopped (HandlerEnded r) x
  | (None, x) =>
      match e with
      | Coded st => goes (advanced c st (length vs) x)
      | reject path reason => stopped (InvalidData path reason) x
      | Fault msg => stopped (ConsumeThrows msg) x
      end
  end.

Lemma delivery_weaken lines c (S1 S2 : consumed R -> X -> Prop) (G1 G2 : consumer -> Prop) :
  (forall out x, S1 out x -> S2 out x) -> (forall c', r_framer c' = r_framer c -> G1 c' -> G2 c') ->
  delivery lines c S1 G1 -> delivery lines c S2 G2.
Proof.
  intros HS HG. unfold delivery. destruct (decode_prefix _ _ _ _) as [vs e].
  destruct (feed handler vs _) as [[r|] x]; [by apply HS |]. destruct e; [by apply HG | by apply HS..].
Qed.

Lemma delivery_app l1 l2 c S G :
  delivery (l1 ++ l2) c S G <-> delivery l1 c S (fun c' => delivery l2 c' S G).
Proof.
  unfold delivery. rewrite decode_prefix_app.
  destruct (decode_prefix schema l1 _ _) as [vs e]. destruct e as [st| |]; [| done..].
  cbn -[feed]. rewrite <- surjective_pairing.
  destruct (decode_prefix schema l2 _ st) as [ws e']. rewrite feed_app.
  destruct (feed handler vs (r_state c)) as [[r|] x]; [done |].
  destruct (feed handler ws x) as [[r|] x']; [done |]. destruct e'; [| done..].
  unfold advanced. cbn. by rewrite length_app, Nat.add_assoc.
Qed.

Lemma delivery_framer lines c f S G :
  delivery lines (set_framer c f) S G <-> delivery lines c S (fun c' => G (set_framer c' f)).
Proof. done. Qed.

Lemma deliver_all_spec lines : forall c : consumer,
  delivery lines c
    (fun out x => exists c', deliver_all schema handler lines c = (Some out, c') /\ r_state c' = x)
    (fun c' => deliver_all schema handler lines c = (None, c')).
Proof.
  induction lines as [|line lines IH]; intros c; cbn.
  { unfold delivery, advanced. cbn. rewrite Nat.add_0_r. by destruct c. }
  unfold delivery, deliver. cbn. destruct (projectJsonlRecord _ _ _ _ _) as [[v [b h]]| |]; cbn; [| by eexists..].
  destruct (handler v (r_state c)) as [[r|] x'] eqn:Hv.
  { destruct (decode_prefix _ _ _ _) as [vs e]. cbn. rewrite Hv. by eexists. }
  specialize (IH (mkConsumer b h (r_framer c) (S (r_index c)) x')). unfold delivery in IH. cbn in IH.
  destruct (decode_prefix schema lines (S (r_index c)) (b, h)) as [vs e]. cbn. rewrite Hv.
  unfold advanced in *. cbn in *. by rewrite Nat.add_succ_r.
Qed.

Lemma consume_loop_chunks chunks rest ce : forall (c : consumer) seen,
  r_framer c = framed standaloneBytes seen ->
  len (seen ++ concat chunks) <= standaloneBytes ->
  delivery (complete_lines (incomplete seen ++ concat chunks)) c
    (fun out x => exists c', consume_loop schema handler ((Chunk <$> chunks) ++ rest) ce c = (Some (out, c'), ce)
       /\ r_state c' = x)
    (fun c' => consume_loop schema handler ((Chunk <$> chunks) ++ rest) ce c
       = consume_loop schema handler rest ce (set_framer c' (framed standaloneBytes (seen ++ concat chunks)))).
Proof.
  induction chunks as [|chunk chunks IH]; intros c seen Hf Hlen; cbn -[framed delivery].
  { rewrite !app_nil_r, complete_lines_incomplete. unfold delivery, set_framer, advanced. cbn -[framed].
    rewrite Nat.add_0_r, <- Hf. by destruct c. }
  rewrite Hf, push_spec. cbn [concat] in *. rewrite app_assoc in Hlen.
  assert (len (incomplete (seen ++ chunk)) <= standaloneBytes) as Hinc.
  { pose proof (incomplete_length (seen ++ chunk)). unfold len in *. rewrite length_app in Hlen. lia. }
  destruct (Z.ltb_spec standaloneBytes (len (incomplete (seen ++ chunk)))) as [|_]; [lia |].
  rewrite (app_assoc (incomplete seen)), complete_lines_cut, <- incomplete_cut, (app_assoc seen).
  apply delivery_app. set (c0 := set_framer c (framed standaloneBytes (seen ++ chunk))).
  pose proof (deliver_all_spec (complete_lines (incomplete seen ++ chunk)) c0) as Hd.
  apply delivery_framer in Hd. revert Hd. apply delivery_weaken.
  - intros out x (c' & -> & Hx). by exists c'.
  - intros c' _ ->. specialize (IH (set_framer c' (framed standaloneBytes (seen ++ chunk))) (seen ++ chunk) eq_refl Hlen).
    by apply delivery_framer in IH.
Qed.

Lemma new_framer : createJsonlFramer standaloneBytes = framed standaloneBytes [].
Proof. done. Qed.

Lemma finish_framed f data :
  f = framed standaloneBytes data ->
  finish f = (if non_blank (take_line (incomplete data)) then Some (take_line (incomplete data)) else None,
              mkFramer standaloneBytes [] (length (complete_lines data))).
Proof.
  intros ->. unfold finish, framed. cbn [suffix limit yielded].
  case_bool_decide as He; [| done]. by rewrite He.
Qed.

(** The whole run over a reader that ends. *)
Lemma consume_stream chunks (h : heap) (x : X) b :
  new_Budget standaloneBytes = Coded b ->
  len (concat chunks) <= standaloneBytes ->
  delivery (stream_lines (concat chunks)) (mkConsumer b h (createJsonlFramer standaloneBytes) 0 x)
    (fun out x' => consume schema handler (mkCell true true false) ((Chunk <$> chunks) ++ [ReadDone None]) h x
       = (Some (out, x'), mkCell true true false))
    (fun c' => consume schema handler (mkCell true true false) ((Chunk <$> chunks) ++ [ReadDone None]) h x
       = (Some (Consumed (r_index c'), r_state c'), mkCell true true false)).
Proof.
  intros Hb Hlen. unfold consume. rewrite Hb. cbn [item_bytes has_reader negb orb].
  pose proof (consume_loop_chunks chunks [ReadDone None] (mkCell true true false)
    (mkConsumer b h (createJsonlFramer standaloneBytes) 0 x) [] new_framer Hlen) as H.
  change (incomplete [] ++ concat chunks) with (concat chunks) in H. cbn [app] in H.
  rewrite stream_lines_eq. apply delivery_app. revert H. apply delivery_weaken.
  { by intros out x' (c' & -> & <-). }
  intros c' _ ->. cbn [consume_loop]. unfold consume_tail. rewrite (finish_framed _ (concat chunks)) by done.
  set (c1 := set_framer (set_framer c' _) _).
  destruct (non_blank (take_line (incomplete (concat chunks)))).
  - pose proof (deliver_all_spec [take_line (incomplete (concat chunks))] c1) as H.
    apply delivery_framer in H. apply (delivery_framer _ _ (framed standaloneBytes (concat chunks))) in H.
    revert H. apply delivery_weaken.
    + intros out x' (c2 & Hd & Hx). cbn in Hd. destruct (deliver schema handler _ c1) as [[o|] c3]; [| done].
      injection Hd as -> ->. cbn. by rewrite Hx.
    + intros c2 _ Hd. cbn in Hd. destruct (deliver schema handler _ c1) as [[o|] c3]; [done |].
      injection Hd as ->. done.
  - unfold delivery, advanced. cbn. by rewrite Nat.add_0_r.
Qed.
End streaming.

(** The records of a whole payload under the standalone cap. *)
Lemma decode_records_prefix schema h input b :
  new_Budget standaloneBytes = Coded b -> len input <= standaloneBytes ->
  decodeJsonlRecords schema h input standaloneBytes
  = let '(vs, e) := decode_prefix schema (stream_lines input) 0 (b, h) in
    let* st := e in Coded (array st.2 vs).
Proof.
  intros Hb Hlen. unfold decodeJsonlRecords. fold (len input).
  destruct (Z.ltb_spec standaloneBytes (len input)) as [|_]; [lia |]. rewrite Hb. cbn [coded_bind].
  rewrite new_framer, push_spec. cbn [app].
  assert (len (incomplete input) <= standaloneBytes) as Hinc by (pose proof (incomplete_length input); unfold len in *; lia).
  destruct (Z.ltb_spec standaloneBytes (len (incomplete input))) as [|_]; [lia |]. cbn [coded_bind].
  change (incomplete [] ++ input) with input.
  rewrite stream_lines_eq, decode_prefix_app, project_lines_prefix, (finish_framed _ input) by done.
  destruct (decode_prefix schema (complete_lines input) 0 (b, h)) as [vs e]. destruct e as [st| |]; cbn; [| done..].
  destruct (non_blank _); cbn; [| by rewrite app_nil_r].
  by destruct (projectJsonlRecord _ _ _ _ _) as [[v st']| |].
Qed.

Lemma stream_lines_length data : (length (stream_lines data) <= S (length data))%nat.
Proof.
  unfold stream_lines. etrans; [apply length_filter |]. rewrite length_fmap. apply split_char_length.
Qed.

(** ** Property *)

(** C26. Consuming a reader is decoding the whole payload, when that is at most 8 MiB
    (the bound of [decodeJsonlRecords]): however the bytes are cut into chunks, the handler receives, in order and up to its first completion
    that is not ok, the records [decodeJsonlRecords] puts in the array, or those
    in front of the record it refuses; the call then ends with the number of
    records, or with the same issue at the same path. *)
Theorem consume_is_whole_decode {R X} schema (handler : value -> X -> option R * X) (h : heap) (x : X) chunks :
  len (concat chunks) <= standaloneBytes ->
  exists vs st out,
    project_lines schema (take (length vs) (stream_lines (concat chunks))) 0 (Scan.standalone_budget, h) = Coded (vs, st)
    /\ consume schema handler (mkCell true true false) ((Chunk <$> chunks) ++ [ReadDone None]) h x
       = (Some (match feed handler vs x with
                | (Some r, x') => (HandlerEnded r, x')
                | (None, x') => (out, x')
                end), mkCell true true false)
    /\ match decodeJsonlRecords schema h (concat chunks) standaloneBytes with
       | Coded (v, h') => dataArray h' v = Ret vs /\ out = Consumed (length vs)
       | reject path reason => out = InvalidData path reason
       | Fault msg => out = ConsumeThrows msg
       end.
Proof.
  intros Hlen. assert (new_Budget standaloneBytes = Coded Scan.standalone_budget) as Hb by done.
  pose proof (consume_stream schema handler chunks h x _ Hb Hlen) as H.
  rewrite (decode_records_prefix _ _ _ _ Hb Hlen). unfold delivery in H. cbn [r_index r_budget r_heap r_state] in H.
  destruct (decode_prefix schema (stream_lines (concat chunks)) 0 _) as [vs e] eqn:Hd.
  destruct (decode_prefix_sound _ _ _ _ _ _ Hd) as (st & Hp & Hall).
  exists vs, st. destruct e as [st'|path reason|msg]; cbn [coded_bind].
  - exists (Consumed (length vs)). split_and!; [done | by destruct (feed handler vs x) as [[r|] x'] |].
    destruct (array st'.2 vs) as [v h'] eqn:Ha. split; [| done].
    pose proof (array_reads st'.2 vs) as Hr. rewrite Ha in Hr. apply Hr.
    rewrite (Hall _ eq_refl). pose proof (stream_lines_length (concat chunks)).
    unfold len, standaloneBytes, MAX_SAFE in *. lia.
  - exists (InvalidData path reason). split_and!; [done | by destruct (feed handler vs x) as [[r|] x'] | done].
  - exists (ConsumeThrows msg). split_and!; [done | by destruct (feed handler vs x) as [[r|] x'] | done].
Qed.

(** Integers, one per line. *)
Definition int_schema : Schema := mkSchema (js "i") [mkNode (js "i") (js "primitive") (js "int") None None None].
Definition three_chunks : list (list N) := [js "12" ++ [10]%N ++ js "3"; js "4" ++ [13; 10]%N; js "5"].
Definition refuse_34 (v : value) (x : list value) : option nat * list value :=
  (if bool_decide (v = VBigInt 34) then Some 0%nat else None, v :: x).

Lemma consume_is_whole_decode_witness :
  len (concat three_chunks) <= standaloneBytes
  /\ consume int_schema refuse_34 (mkCell true true false) ((Chunk <$> three_chunks) ++ [ReadDone None]) empty_heap []
     = (Some (HandlerEnded 0%nat, [VBigInt 34; VBigInt 12]), mkCell true true false)
  /\ exists v h', decodeJsonlRecords int_schema empty_heap (concat three_chunks) standaloneBytes = Coded (v, h')
     /\ dataArray h' v = Ret [VBigInt 12; VBigInt 34; VBigInt 5].
Proof.
  assert (len (concat three_chunks) <= standaloneBytes) as Hlen by (vm_compute; discriminate).
  split; [done |].
  destruct (consume_is_whole_decode int_schema refuse_34 empty_heap [] three_chunks Hlen) as (vs & st & out & Hp & Hrun & Hend).
  assert (match decodeJsonlRecords int_schema empty_heap (concat three_chunks) standaloneBytes with
     | Coded (v, h') => dataArray h' v = Ret [VBigInt 12; VBigInt 34; VBigInt 5]
     | _ => False
     end) as Hd by (vm_compute; reflexivity).
  destruct (decodeJsonlRecords _ _ _ _) as [[v h']| |]; [| done..].
  destruct Hend as [Hvs _]. rewrite Hd in Hvs. injection Hvs as <-.
  split; [| by exists v, h']. rewrite Hrun. vm_compute. reflexivity.
Defined.
