(* ===== verification/SqlLedger.v ===== *)
(** * The SQL ledger backend

    [src/runtime/outbound/sql-ledger.ts] over the tables of [ledger-schema.ts]: the
    row codec, the snapshot load and the conditional rewrite, as a [LedgerStore].
    A database is its tables; a transaction of the driver is atomic and may be
    rejected before or after it takes effect.  The order in which a [SELECT] answers
    rows, the rendering of integers by the driver and the comparison of text keys
    by the database are parameters. *)
From stdpp Require Import base gmap list strings.
From Stdlib Require Import ZArith Lia.
From S2P Require Import Prelude JsNumber JsString JsValue Identity Epoch Ledger LedgerInv LedgerConc.

Inductive LedgerDialect : Type := sqlite | postgres | mysql.

(** ** Tables ([ledger-schema.ts]) *)

Inductive cell : Type := CInt (z : Z) | CText (s : jstr) | CNull.

Abbreviation row := (list (string * cell)).

#[global] Instance cell_eq_dec : EqDecision cell.
Proof. solve_decision. Defined.

(** A column: [NOT NULL], the type and the [CHECK] of its values. *)
Inductive column : Type :=
| IntColumn (nullable : bool) (check : Z -> bool)
| TextColumn (max_length : option nat) (check : jstr -> bool).

Record table : Type := mkTable { columns : list (string * column); primary_key : list string }.

Definition any_int : column := IntColumn false (fun _ => true).
Definition counter : column := IntColumn false (fun z => 0 <=? z).
Definition positive : column := IntColumn false (fun z => 0 <? z).
Definition flag : column := IntColumn false (fun z => (z =? 0) || (z =? 1)).
Definition optional_counter : column := IntColumn true (fun z => 0 <=? z).

(** [VARCHAR(191)] of MySQL; [TEXT] elsewhere. *)
Definition key_text (d : LedgerDialect) : column :=
  TextColumn (match d with mysql => Some 191%nat | _ => None end) (fun _ => true).
Definition long_text : column := TextColumn None (fun _ => true).
Definition state_texts : list jstr := [js "held"; js "fenced"; js "settled"; js "released"].
Definition state_text (d : LedgerDialect) : column :=
  TextColumn (match d with mysql => Some 16%nat | _ => None end) (fun s => bool_decide (s ∈ state_texts)).

Definition schedules_table (d : LedgerDialect) : table :=
  mkTable [("pool", key_text d); ("token_limit", counter); ("period_ms", positive); ("anchor_ms", counter);
           ("version", key_text d)]%string ["pool"; "anchor_ms"]%string.
Definition epochs_table (d : LedgerDialect) : table :=
  mkTable [("tenant", key_text d); ("pool", key_text d); ("epoch_start", counter); ("epoch_end", any_int);
           ("token_limit", counter); ("schedule_version", key_text d); ("committed", counter); ("held", counter)]%string
    ["tenant"; "pool"; "epoch_start"]%string.
Definition invocations_table (d : LedgerDialect) : table :=
  mkTable [("invocation_id", key_text d); ("tenant", key_text d); ("pool", key_text d); ("correlation", key_text d);
           ("epoch_start", any_int); ("epoch_end", any_int); ("token_limit", any_int); ("schedule_version", key_text d);
           ("provider", long_text); ("model", long_text); ("profile_version", long_text); ("upper_bound", positive);
           ("state", state_text d); ("fenced", flag); ("input_tokens", optional_counter);
           ("output_tokens", optional_counter); ("breach", flag)]%string ["invocation_id"]%string.
Definition quarantine_table (d : LedgerDialect) : table :=
  mkTable [("profile_key", key_text d); ("profile_identity", long_text)]%string ["profile_key"]%string.

(** [ai_budget_state] holds at most the row of id 1: its version. *)
Record tables : Type := mkTables {
  t_version : option Z;
  t_schedules : list row;
  t_epochs : list row;
  t_invocations : list row;
  t_quarantine : list row
}.

(** After [applyLedgerDDL] on an empty database. *)
Definition applyLedgerDDL : tables := mkTables (Some 0) [] [] [] [].

Definition get_cell (r : row) (name : string) : option cell := snd <$> find (fun p => bool_decide (p.1 = name)) r.

(** 64-bit columns. *)
Definition int64 (z : Z) : bool := (- 2 ^ 63 <=? z) && (z <? 2 ^ 63).

Definition admits_cell (c : column) (v : option cell) : bool :=
  match c, v with
  | IntColumn _ check, Some (CInt z) => int64 z && check z
  | IntColumn nullable _, Some CNull => nullable
  | TextColumn max check, Some (CText s) =>
      check s && match max with Some n => (length s <=? n)%nat | None => true end
  | _, _ => false
  end.

(** ** Driver values *)

Section codec.
Context (sha256 : jstr -> jstr).
Context (render : Z -> jsval).

(** [row[name]] *)
Definition read (r : row) (name : string) : jsval :=
  match get_cell r name with
  | Some (CInt z) => render z
  | Some (CText s) => JStr s
  | Some CNull => JNull
  | None => JUndefined
  end.

Definition corrupt {A} : res A := Throw "ledger SQL row corrupt".

Definition toSafeInt (v : jsval) : res Z :=
  match v with
  | JNum x => match safe_integer x with Some z => Ret z | None => corrupt end
  | JBigInt z => if is_safe z then Ret z else corrupt
  | _ => corrupt
  end.
Definition toNonNegativeInt (v : jsval) : res Z := let! z := toSafeInt v in if z <? 0 then corrupt else Ret z.
Definition toText (v : jsval) : res jstr := match v with JStr s => Ret s | _ => corrupt end.
Definition toFlag (v : jsval) : res bool :=
  let! z := toSafeInt v in if negb (z =? 0) && negb (z =? 1) then corrupt else Ret (z =? 1).

(** ** Decoding *)

Definition decode_schedule (r : row) : res EpochSchedule :=
  let! pool := toText (read r "pool") in
  let! limit := toNonNegativeInt (read r "token_limit") in
  let! period := toSafeInt (read r "period_ms") in
  let! anchor := toNonNegativeInt (read r "anchor_ms") in
  let! version := toText (read r "version") in
  epochSchedule (JStr pool) (js_int limit) (js_int period) (js_int anchor) (JStr version).

(** [grouped[key] ?? []]: an inherited member is a function without [push]. *)
Definition add_schedule (grouped : gmap jstr (list EpochSchedule)) (s : EpochSchedule) : res (gmap jstr (list EpochSchedule)) :=
  match get_member grouped (sch_pool s) with
  | Own group => Ret (<[sch_pool s := group ++ [s]]> grouped)
  | Missing => Ret (<[sch_pool s := [s]]> grouped)
  | Inherited _ => Throw "group.push is not a function"
  end.

(** [group.sort((a, b) => a.anchorMs - b.anchorMs)], which is stable. *)
Fixpoint insert_anchor (s : EpochSchedule) (l : list EpochSchedule) : list EpochSchedule :=
  match l with
  | [] => [s]
  | t :: l => if sch_anchorMs s <=? sch_anchorMs t then s :: t :: l else t :: insert_anchor s l
  end.
Definition sort_anchors (l : list EpochSchedule) : list EpochSchedule := foldr insert_anchor [] l.

Fixpoint group_schedules (rows : list row) (grouped : gmap jstr (list EpochSchedule)) : res (gmap jstr (list EpochSchedule)) :=
  match rows with
  | [] => Ret grouped
  | r :: rows =>
      let! s := decode_schedule r in
      let! grouped := add_schedule grouped s in
      group_schedules rows grouped
  end.

Definition decodeSchedules (rows : list row) : res (gmap jstr (list EpochSchedule)) :=
  let! grouped := group_schedules rows ∅ in Ret (sort_anchors <$> grouped).

Definition decode_epoch (r : row) : res EpochRow :=
  let! tenant_text := toText (read r "tenant") in
  let! tenant := tenantId (JStr tenant_text) in
  let! pool_text := toText (read r "pool") in
  let! pool := poolId (JStr pool_text) in
  let! start := toNonNegativeInt (read r "epoch_start") in
  let! end_ := toSafeInt (read r "epoch_end") in
  let! limit := toNonNegativeInt (read r "token_limit") in
  let! version := toText (read r "schedule_version") in
  let! committed := toNonNegativeInt (read r "committed") in
  let! held := toNonNegativeInt (read r "held") in
  Ret {| row_tenant := tenant; row_pool := pool; row_start := start; row_end := end_; row_limit := limit;
         row_scheduleVersion := version; row_committed := committed; row_held := held |}.

Fixpoint decodeEpochs (rows : list row) (epochs : gmap jstr EpochRow) : res (gmap jstr EpochRow) :=
  match rows with
  | [] => Ret epochs
  | r :: rows =>
      let! e := decode_epoch r in
      decodeEpochs rows (<[epochRowKey (row_tenant e) (row_pool e) (row_start e) := e]> epochs)
  end.

Definition state_name (s : InvocationState) : jstr :=
  match s with Held => js "held" | Fenced => js "fenced" | Settled => js "settled" | Released => js "released" end.
Definition state_of_name (s : jstr) : res InvocationState :=
  match find (fun st => bool_decide (state_name st = s)) [Held; Fenced; Settled; Released] with
  | Some st => Ret st
  | None => corrupt
  end.

Definition is_null (v : jsval) : bool := match v with JNull => true | _ => false end.

Definition decode_usage (input output : jsval) : res (option Usage) :=
  if is_null input && is_null output then Ret None
  else if is_null input || is_null output then corrupt
  else
    let! i := toNonNegativeInt input in
    let! o := toNonNegativeInt output in
    Ret (Some {| inputTokens := i; outputTokens := o |}).

Definition decode_invocation (r : row) : res InvocationRecord :=
  let! id_text := toText (read r "invocation_id") in
  let! id := invocationId (JStr id_text) in
  let! correlation_text := toText (read r "correlation") in
  let! correlation := correlationId (JStr correlation_text) in
  let! provider := toText (read r "provider") in
  let! model := toText (read r "model") in
  let! profile_version := toText (read r "profile_version") in
  let! profile := meteringProfile (JStr provider) (JStr model) (JStr profile_version) in
  let! state_value := toText (read r "state") in
  let! state := state_of_name state_value in
  let! usage := decode_usage (read r "input_tokens") (read r "output_tokens") in
  let! tenant_text := toText (read r "tenant") in
  let! tenant := tenantId (JStr tenant_text) in
  let! pool_text := toText (read r "pool") in
  let! pool := poolId (JStr pool_text) in
  let! start := toNonNegativeInt (read r "epoch_start") in
  let! end_ := toSafeInt (read r "epoch_end") in
  let! limit := toNonNegativeInt (read r "token_limit") in
  let! version := toText (read r "schedule_version") in
  let! bound := toSafeInt (read r "upper_bound") in
  let! fenced := toFlag (read r "fenced") in
  let! breach := toFlag (read r "breach") in
  Ret {| inv_id := id; inv_tenant := tenant; inv_pool := pool; inv_correlation := correlation;
         inv_epochStart := start; inv_epochEnd := end_; inv_limit := limit; inv_scheduleVersion := version;
         inv_profile := profile; inv_profileIdentity := profileId profile; inv_upperBound := bound;
         inv_state := state; inv_fenced := fenced; inv_usage := usage; inv_breach := breach |}.

Fixpoint decodeInvocations (rows : list row) (invocations : gmap jstr Entry) : res (gmap jstr Entry) :=
  match rows with
  | [] => Ret invocations
  | r :: rows =>
      let! i := decode_invocation r in decodeInvocations rows (<[inv_id i := Full i]> invocations)
  end.

Fixpoint decodeQuarantine (rows : list row) (quarantined : gset jstr) : res (gset jstr) :=
  match rows with
  | [] => Ret quarantined
  | r :: rows =>
      let! key := toText (read r "profile_key") in decodeQuarantine rows ({[ key ]} ∪ quarantined)
  end.

(** The rows of a [SELECT], in the order the database answers them. *)
Context (select : list row -> list row).

Definition loadSnapshot (t : tables) : res LedgerState :=
  match t_version t with
  | None => corrupt
  | Some v =>
      let! version := toNonNegativeInt (render v) in
      let! schedules := decodeSchedules (select (t_schedules t)) in
      let! epochs := decodeEpochs (select (t_epochs t)) ∅ in
      let! invocations := decodeInvocations (select (t_invocations t)) ∅ in
      let! quarantined := decodeQuarantine (select (t_quarantine t)) ∅ in
      Ret {| version := version; schedules := schedules; epochs := epochs; invocations := invocations;
             quarantined := quarantined |}
  end.

(** ** Writing *)

Context (dialect : LedgerDialect) (same_text : LedgerDialect -> jstr -> jstr -> bool).

Definition same_cell (a b : option cell) : bool :=
  match a, b with
  | Some (CText s), Some (CText t) => same_text dialect s t
  | Some (CInt x), Some (CInt y) => x =? y
  | _, _ => false
  end.
Definition same_key (t : table) (a b : row) : bool :=
  forallb (fun k => same_cell (get_cell a k) (get_cell b k)) (primary_key t).

(** [insertRow]: [None] when a constraint refuses the row. *)
Definition insertRow (t : table) (names : list string) (values : list cell) (rows : list row) : option (list row) :=
  let r := zip names values in
  if forallb (fun c => admits_cell c.2 (get_cell r c.1)) (columns t) && negb (existsb (same_key t r) rows)
  then Some (rows ++ [r]) else None.

Definition schedule_values (s : EpochSchedule) : list cell :=
  [CText (sch_pool s); CInt (sch_limit s); CInt (sch_periodMs s); CInt (sch_anchorMs s); CText (sch_version s)].
Definition epoch_values (e : EpochRow) : list cell :=
  [CText (row_tenant e); CText (row_pool e); CInt (row_start e); CInt (row_end e); CInt (row_limit e);
   CText (row_scheduleVersion e); CInt (row_committed e); CInt (row_held e)].
Definition flag_cell (b : bool) : cell := CInt (if b then 1 else 0).
Definition invocation_values (r : InvocationRecord) : list cell :=
  [CText (inv_id r); CText (inv_tenant r); CText (inv_pool r); CText (inv_correlation r);
   CInt (inv_epochStart r); CInt (inv_epochEnd r); CInt (inv_limit r); CText (inv_scheduleVersion r);
   CText (mp_provider (inv_profile r)); CText (mp_model (inv_profile r)); CText (mp_version (inv_profile r));
   CInt (inv_upperBound r); CText (state_name (inv_state r)); flag_cell (inv_fenced r);
   match inv_usage r with Some u => CInt (inputTokens u) | None => CNull end;
   match inv_usage r with Some u => CInt (outputTokens u) | None => CNull end;
   flag_cell (inv_breach r)].

Definition schedule_columns : list string := ["pool"; "token_limit"; "period_ms"; "anchor_ms"; "version"]%string.
Definition epoch_columns : list string :=
  ["tenant"; "pool"; "epoch_start"; "epoch_end"; "token_limit"; "schedule_version"; "committed"; "held"]%string.
Definition invocation_columns : list string :=
  ["invocation_id"; "tenant"; "pool"; "correlation"; "epoch_start"; "epoch_end"; "token_limit"; "schedule_version";
   "provider"; "model"; "profile_version"; "upper_bound"; "state"; "fenced"; "input_tokens"; "output_tokens"; "breach"]%string.
Definition quarantine_columns : list string := ["profile_key"; "profile_identity"]%string.

(** One insert after another; [None] from an item is a throw before its insert. *)
Fixpoint insert_all {A} (t : table) (names : list string) (values : A -> option (list cell)) (items : list A) (rows : list row)
    : option (list row) :=
  match items with
  | [] => Some rows
  | a :: items =>
      match values a with
      | Some vs => match insertRow t names vs rows with Some rows => insert_all t names values items rows | None => None end
      | None => None
      end
  end.

(** A record without a profile makes the row's values throw. *)
Definition entry_values (e : Entry) : option (list cell) :=
  match e with Full r => Some (invocation_values r) | Bare => None end.

Definition quarantineDisplay (entries : list Entry) (key : jstr) : jstr :=
  match find (fun e => match e with Full r => bool_decide (profileKey sha256 (inv_profile r) = key) | Bare => false end) entries with
  | Some (Full r) => inv_profileIdentity r
  | _ => key
  end.

Inductive rewrite_result : Type := Rewritten (t : tables) | RolledBack | RewriteThrows.

(** The conditional bump, the deletions and the inserts of one transaction. *)
Definition rewriteState (t : tables) (next : LedgerState) : rewrite_result :=
  match t_version t with
  | Some v =>
      if negb (v =? fsub (version next) 1) then RolledBack
      else
        let entries := (map_to_list (invocations next)).*2 in
        match insert_all (schedules_table dialect) schedule_columns (fun s => Some (schedule_values s))
                (concat (map_to_list (schedules next)).*2) [],
              insert_all (epochs_table dialect) epoch_columns (fun e => Some (epoch_values e)) (map_to_list (epochs next)).*2 [],
              insert_all (invocations_table dialect) invocation_columns entry_values entries [],
              insert_all (quarantine_table dialect) quarantine_columns
                (fun k => Some [CText k; CText (quarantineDisplay entries k)]) (elements (quarantined next)) [] with
        | Some ss, Some es, Some is_, Some qs => Rewritten (mkTables (Some (v + 1)) ss es is_ qs)
        | _, _, _, _ => RewriteThrows
        end
  | None => RolledBack
  end.

(** ** The store *)

(** A database and what happens to each call on it; a script that has run out
    rejects every further call. *)
Record SqlWorld : Type := mkWorld { db : tables; faults : list Fault }.

Definition next_fault (w : SqlWorld) : Fault * list Fault :=
  match faults w with [] => (RejectBefore, []) | f :: fs => (f, fs) end.

Definition sql_load (w : SqlWorld) : option LedgerState * SqlWorld :=
  let '(f, fs) := next_fault w in
  (match f, loadSnapshot (db w) with NoFault, Ret s => Some s | _, _ => None end, mkWorld (db w) fs).

Definition sql_commit (w : SqlWorld) (expectedVersion : Z) (next : LedgerState) : CommitResult * SqlWorld :=
  if negb (version next =? fadd expectedVersion 1) then (CommitThrew, w)
  else
    let '(f, fs) := next_fault w in
    match f with
    | RejectBefore => (CommitThrew, mkWorld (db w) fs)
    | _ =>
        match rewriteState (db w) next with
        | Rewritten t => (match f with RejectAfter => CommitThrew | _ => Committed end, mkWorld t fs)
        | RolledBack => (NotCommitted, mkWorld (db w) fs)
        | RewriteThrows => (CommitThrew, mkWorld (db w) fs)
        end
    end.

#[export] Instance openSqlLedgerStore : LedgerStore SqlWorld := { load := sql_load; commit := sql_commit }.
End codec.
