(* ===== verification/SqlLedgerRefine.v ===== *)
(** * Sessions over the SQL ledger answer as sessions over the memory ledger

    [shape] is what the validated operations add to the invariant of [LedgerInv];
    together they make every written state storable, so a transaction over
    [openSqlLedgerStore] simulates the one over the memory store, faults included. *)
From stdpp Require Import base gmap list strings sorting.
From Stdlib Require Import ZArith Lia Permutation.
From S2P Require Import Prelude JsNumber JsString JsValue Identity Epoch Ledger LedgerInv LedgerConc SqlLedger.

(** ** The SQL ledger backend refines the memory ledger *)

(** ** The rows of a ledger state

    What [rewriteState] writes of a storable state, [loadSnapshot] reads back,
    whatever the order of the rows and the rendering of integers. *)

(** ** Storable states *)

Definition key_fits (d : LedgerDialect) (s : jstr) : Prop :=
  match d with mysql => (length s <= 191)%nat | _ => True end.

Definition valid_name (s : jstr) : Prop := forall kind, identityValue kind (JStr s) = Ret s.

Record schedule_ok (d : LedgerDialect) (p : jstr) (s : EpochSchedule) : Prop := {
  so_pool : sch_pool s = p;
  so_valid : valid_schedule s;
  so_version : VERSION_PATTERN (sch_version s) = true
}.

Record versions_storable (d : LedgerDialect) (p : jstr) (vs : list EpochSchedule) : Prop := {
  vs_own : inherited p = None;
  vs_some : vs <> [];
  vs_all : Forall (schedule_ok d p) vs;
  vs_sorted : StronglySorted (fun a b => sch_anchorMs a < sch_anchorMs b) vs
}.

Record epoch_storable (d : LedgerDialect) (k : jstr) (e : EpochRow) : Prop := {
  es_key : k = epochRowKey (row_tenant e) (row_pool e) (row_start e);
  es_tenant : valid_identity (row_tenant e);
  es_pool : valid_identity (row_pool e);
  es_start : 0 <= row_start e <= MAX_SAFE;
  es_end : is_safe (row_end e) = true;
  es_limit : 0 <= row_limit e <= MAX_SAFE;
  es_version : VERSION_PATTERN (row_scheduleVersion e) = true;
  es_committed : 0 <= row_committed e <= MAX_SAFE;
  es_held : 0 <= row_held e <= MAX_SAFE
}.

Record record_storable (d : LedgerDialect) (k : jstr) (r : InvocationRecord) : Prop := {
  rs_id : inv_id r = k;
  rs_valid : valid_identity k;
  rs_tenant : valid_identity (inv_tenant r);
  rs_pool : valid_identity (inv_pool r);
  rs_correlation : valid_identity (inv_correlation r);
  rs_provider : valid_name (mp_provider (inv_profile r));
  rs_model : valid_name (mp_model (inv_profile r));
  rs_profile_version : valid_name (mp_version (inv_profile r));
  rs_identity : inv_profileIdentity r = profileId (inv_profile r);
  rs_start : 0 <= inv_epochStart r <= MAX_SAFE;
  rs_end : is_safe (inv_epochEnd r) = true;
  rs_limit : 0 <= inv_limit r <= MAX_SAFE;
  rs_version : VERSION_PATTERN (inv_scheduleVersion r) = true;
  rs_bound : 1 <= inv_upperBound r <= MAX_SAFE;
  rs_usage : match inv_usage r with Some u => valid_usage u | None => True end
}.

Record storable (d : LedgerDialect) (s : LedgerState) : Prop := {
  st_version : 0 <= version s <= MAX_SAFE;
  st_schedules : forall p vs, schedules s !! p = Some vs -> versions_storable d p vs;
  st_epochs : forall k e, epochs s !! k = Some e -> epoch_storable d k e;
  st_invocations : forall k e, invocations s !! k = Some e -> exists r, e = Full r /\ record_storable d k r;
  st_quarantined : forall k, k ∈ quarantined s -> key_fits d k
}.

Section codec.
Context (sha256 : jstr -> jstr) (render : Z -> jsval) (select : list row -> list row).
Context (dialect : LedgerDialect) (same_text : LedgerDialect -> jstr -> jstr -> bool).
(** The drivers render an integer as a number or as a bigint. *)
Context (Hrender : forall z, render z = js_int z \/ render z = JBigInt z).
(** A [SELECT] without an order answers the rows in some order. *)
Context (Hselect : forall rows, select rows ≡ₚ rows).
(** Keys are compared by their characters (the default of SQLite and PostgreSQL). *)
Context (Hsame : forall s t, same_text dialect s t = bool_decide (s = t)).

(** ** Cells *)

Lemma toSafeInt_render z : is_safe z = true -> toSafeInt (render z) = Ret z.
Proof using Hrender.
  intros Hz. destruct (Hrender z) as [-> | ->]; unfold js_int; cbn [toSafeInt]; [| by rewrite Hz].
  pose proof (js_safe_integer_int z Hz) as H. unfold js_safe_integer, js_int in H. by rewrite H.
Qed.

Lemma toNonNegativeInt_render z : 0 <= z <= MAX_SAFE -> toNonNegativeInt (render z) = Ret z.
Proof using Hrender.
  intros Hz. unfold toNonNegativeInt. rewrite toSafeInt_render by (apply is_safe_spec; lia). cbn.
  by rewrite (proj2 (Z.ltb_ge z 0)) by lia.
Qed.

Lemma toFlag_render (b : bool) : toFlag (render (if b then 1 else 0)) = Ret b.
Proof using Hrender. unfold toFlag. rewrite toSafeInt_render by by destruct b. by destruct b. Qed.

Lemma render_not_null z : is_null (render z) = false.
Proof using Hrender. by destruct (Hrender z) as [-> | ->]. Qed.

Lemma identity_fits d s : valid_identity s -> key_fits d s.
Proof. intros H%valid_identity_length. destruct d; cbn; [done.. | lia]. Qed.

Lemma version_fits d s : VERSION_PATTERN s = true -> key_fits d s.
Proof.
  unfold VERSION_PATTERN, identity_pattern. destruct s as [|c s]; [done |]. intros H. split_bools.
  destruct d; cbn; [done.. |]. apply Nat.leb_le in H0. lia.
Qed.

Lemma safe_int64 z : is_safe z = true -> int64 z = true.
Proof. rewrite is_safe_spec. unfold int64, MAX_SAFE. rewrite andb_true_iff, Z.leb_le, Z.ltb_lt. lia. Qed.

Lemma admits_key d s : key_fits d s -> admits_cell (key_text d) (Some (CText s)) = true.
Proof. destruct d; cbn; [done.. |]. intros H. by apply Nat.leb_le. Qed.

Lemma admits_counter z : 0 <= z <= MAX_SAFE -> admits_cell counter (Some (CInt z)) = true.
Proof. intros H. cbn. rewrite safe_int64 by (apply is_safe_spec; lia). apply Z.leb_le. lia. Qed.

Lemma admits_positive z : 1 <= z <= MAX_SAFE -> admits_cell positive (Some (CInt z)) = true.
Proof. intros H. cbn. rewrite safe_int64 by (apply is_safe_spec; lia). apply Z.ltb_lt. lia. Qed.

Lemma admits_int z : is_safe z = true -> admits_cell any_int (Some (CInt z)) = true.
Proof. intros H. cbn. by rewrite safe_int64. Qed.

(** ** Rows *)

#[local] Arguments toNonNegativeInt : simpl never.
#[local] Arguments toSafeInt : simpl never.
#[local] Arguments toFlag : simpl never.
#[local] Arguments epochSchedule : simpl never.
#[local] Arguments decode_usage : simpl never.
#[local] Arguments state_of_name : simpl never.
#[local] Arguments meteringProfile : simpl never.
#[local] Arguments checkIdentity : simpl never.
#[local] Arguments invocationId : simpl never.
#[local] Arguments correlationId : simpl never.
#[local] Arguments tenantId : simpl never.
#[local] Arguments poolId : simpl never.

Definition schedule_row (s : EpochSchedule) : row := zip schedule_columns (schedule_values s).
Definition epoch_row (e : EpochRow) : row := zip epoch_columns (epoch_values e).
Definition invocation_row (r : InvocationRecord) : row := zip invocation_columns (invocation_values r).

Definition cell_value (c : cell) : jsval := match c with CInt z => render z | CText s => JStr s | CNull => JNull end.

Lemma read_cell r name c : get_cell r name = Some c -> read render r name = cell_value c.
Proof. unfold read. by intros ->. Qed.

(** Read every column of a row that was written column by column. *)
Ltac read_cells :=
  repeat match goal with
  | |- context [read render ?r ?name] =>
      let v := eval lazy -[state_name flag_cell sch_pool sch_limit sch_periodMs sch_anchorMs sch_version
        row_tenant row_pool row_start row_end row_limit row_scheduleVersion row_committed row_held
        inv_id inv_tenant inv_pool inv_correlation inv_epochStart inv_epochEnd inv_limit inv_scheduleVersion inv_profile
        mp_provider mp_model mp_version inv_upperBound inv_state inv_fenced inv_usage inv_breach inputTokens outputTokens]
        in (get_cell r name) in
      match v with Some ?c => rewrite (read_cell r name c eq_refl) end
  end; cbn [cell_value].

Lemma valid_identity_id kind s : valid_identity s -> checkIdentity kind (JStr s) = Ret s.
Proof. intros H. by apply checkIdentity_ret. Qed.

Lemma decode_schedule_row p s : schedule_ok dialect p s -> decode_schedule render (schedule_row s) = Ret s.
Proof using Hrender.
  intros [_ [Hp Hl Hper Ha] Hv]. unfold decode_schedule, schedule_row. read_cells. cbn.
  rewrite !toNonNegativeInt_render, toSafeInt_render by (done || apply is_safe_spec; lia). cbn.
  unfold epochSchedule, poolId. rewrite valid_identity_id by done. cbn [res_bind].
  unfold checkTokens, checkVersion. rewrite !js_safe_integer_int by (apply is_safe_spec; lia).
  rewrite !(proj2 (Z.leb_le _ _)) by lia. cbn [guard_throw res_bind]. rewrite Hv. cbn. by destruct s.
Qed.

Lemma decode_epoch_row k e : epoch_storable dialect k e -> decode_epoch render (epoch_row e) = Ret e.
Proof using Hrender.
  intros [_ Ht Hp Hs He Hl Hv Hc Hh]. unfold decode_epoch, epoch_row. read_cells. cbn.
  unfold tenantId, poolId. rewrite !valid_identity_id by done. cbn.
  rewrite !toNonNegativeInt_render, toSafeInt_render by done. cbn. by destruct e.
Qed.

Lemma decode_usage_render u :
  match u with Some u => valid_usage u | None => True end ->
  decode_usage
    (cell_value (match u with Some u => CInt (inputTokens u) | None => CNull end))
    (cell_value (match u with Some u => CInt (outputTokens u) | None => CNull end))
  = Ret u.
Proof using Hrender.
  destruct u as [[i o]|]; [| done]. unfold valid_usage. cbn. intros (Hi & Ho & Hs). unfold decode_usage.
  rewrite !render_not_null. cbn. rewrite !toNonNegativeInt_render by lia. done.
Qed.

Lemma decode_invocation_row k r : record_storable dialect k r -> decode_invocation render (invocation_row r) = Ret r.
Proof using Hrender.
  intros [<- Hk Ht Hp Hc H1 H2 H3 Hid Hs He Hl Hv Hb Hu]. unfold decode_invocation, invocation_row. read_cells. cbn.
  unfold invocationId, correlationId, tenantId, poolId, meteringProfile, state_of_name.
  rewrite !valid_identity_id by done. cbn [res_bind].
  rewrite H1, H2, H3. cbn [res_bind]. rewrite decode_usage_render by done.
  assert (find (fun st => bool_decide (state_name st = state_name (inv_state r))) [Held; Fenced; Settled; Released] = Some (inv_state r)) as ->
    by by destruct (inv_state r).
  rewrite !toNonNegativeInt_render, !toSafeInt_render by (done || apply is_safe_spec; lia). cbn.
  rewrite !toFlag_render. cbn. destruct r, inv_profile; cbn in *. by rewrite Hid.
Qed.
End codec.

(** ** Maps from lists of keyed items *)

Section keyed.
Context {A V : Type} (key : A -> jstr) (val : A -> V).

Fixpoint insert_keyed (items : list A) (m : gmap jstr V) : gmap jstr V :=
  match items with
  | [] => m
  | a :: items => insert_keyed items (<[key a := val a]> m)
  end.

Lemma insert_keyed_union items : forall m,
  NoDup (key <$> items) -> (forall a, a ∈ items -> m !! key a = None) ->
  insert_keyed items m = list_to_map ((fun a => (key a, val a)) <$> items) ∪ m.
Proof using Type.
  induction items as [|a items IH]; intros m Hnd Hm; cbn [insert_keyed].
  { cbn. by rewrite (left_id_L ∅ (∪)). }
  rewrite fmap_cons in Hnd. apply NoDup_cons in Hnd as [Ha Hnd]. rewrite IH; [| done |].
  - cbn. rewrite <- insert_union_l, insert_union_r; [done |].
    apply not_elem_of_list_to_map_1. rewrite <- list_fmap_compose. exact Ha.
  - intros b Hb. rewrite lookup_insert_ne; [apply Hm; by right |]. intros Hk. apply Ha. rewrite Hk.
    apply list_elem_of_fmap. by exists b.
Qed.

(** Keying the items of a map again gives the map. *)
Lemma insert_keyed_map (items : list A) (m : gmap jstr V) :
  NoDup (key <$> items) -> (forall k v, m !! k = Some v <-> exists a, a ∈ items /\ key a = k /\ val a = v) ->
  insert_keyed items ∅ = m.
Proof using Type.
  intros Hnd Hm. rewrite insert_keyed_union by (done || intros; apply lookup_empty). rewrite (right_id_L ∅ (∪)).
  assert (NoDup ((fun a => (key a, val a)) <$> items).*1) as Hnd' by by rewrite <- list_fmap_compose.
  apply map_eq. intros k. apply option_eq. intros v. rewrite <- (elem_of_list_to_map _ _ _ Hnd'), Hm, list_elem_of_fmap.
  split; [intros (a & [= -> ->] & Ha) | intros (a & Ha & <- & <-)]; by exists a.
Qed.
End keyed.

Lemma keyed_values {V} (key : V -> jstr) (m : gmap jstr V) :
  (forall k v, m !! k = Some v -> key v = k) -> key <$> (map_to_list m).*2 = (map_to_list m).*1.
Proof.
  intros H. assert (forall l : list (jstr * V), (forall k v, (k, v) ∈ l -> key v = k) -> key <$> l.*2 = l.*1) as Hl.
  { intros l. induction l as [|[k v] l IH]; intros Hk; [done |]. cbn. rewrite (Hk k v) by by left. f_equal. apply IH.
    intros k' v' Hin. apply Hk. by right. }
  apply Hl. intros k v Hin%elem_of_map_to_list. by apply H.
Qed.

Lemma map_values_in {V} (m : gmap jstr V) v : v ∈ (map_to_list m).*2 <-> exists k, m !! k = Some v.
Proof.
  rewrite list_elem_of_fmap. split.
  - intros ([k v'] & -> & Hin%elem_of_map_to_list). by exists k.
  - intros [k Hk]. exists (k, v). split; [done |]. by apply elem_of_map_to_list.
Qed.

(** ** Inserts *)

Section insert.
Context (dialect : LedgerDialect) (same_text : LedgerDialect -> jstr -> jstr -> bool).

Lemma insert_all_inserted {A B} (f : A -> B) (P : A -> Prop) t names values (enc : A -> row) items : forall rows,
  (forall a, P a -> exists vs, values a = Some vs /\ zip names vs = enc a
     /\ forallb (fun c => admits_cell c.2 (get_cell (enc a) c.1)) (columns t) = true) ->
  (forall a b, P a -> P b -> same_key dialect same_text t (enc a) (enc b) = true -> f a = f b) ->
  Forall P items -> NoDup (f <$> items) ->
  (forall a r, a ∈ items -> r ∈ rows -> same_key dialect same_text t (enc a) r = false) ->
  insert_all dialect same_text t names values items rows = Some (rows ++ (enc <$> items)).
Proof using Type.
  intros rows Hv Hkey Hall Hnd. revert rows. induction items as [|a items IH]; intros rows Hrows; cbn [insert_all fmap list_fmap].
  { by rewrite app_nil_r. }
  apply Forall_cons in Hall as [Ha Hall]. rewrite fmap_cons in Hnd. apply NoDup_cons in Hnd as [Hna Hnd].
  destruct (Hv a Ha) as (vs & -> & Henc & Hadm). unfold insertRow. rewrite Henc, Hadm. cbn [andb].
  assert (existsb (same_key dialect same_text t (enc a)) rows = false) as ->.
  { apply not_true_is_false. rewrite existsb_exists. intros (r & Hr%list_elem_of_In & Hs). rewrite Hrows in Hs; [done | by left | done]. }
  cbn [negb]. rewrite IH; [| done | done |].
  - by rewrite <- app_assoc.
  - intros b r Hb [Hr | ->%list_elem_of_singleton]%elem_of_app; [apply Hrows; [by right | done] |].
    apply not_true_is_false. intros Hs. apply Hna. rewrite Forall_forall in Hall.
    rewrite <- (Hkey b a (Hall _ Hb) Ha Hs). apply list_elem_of_fmap. by exists b.
Qed.

(** Into an emptied table. *)
Lemma insert_all_fresh {A B} (f : A -> B) (P : A -> Prop) t names values (enc : A -> row) items :
  (forall a, P a -> exists vs, values a = Some vs /\ zip names vs = enc a
     /\ forallb (fun c => admits_cell c.2 (get_cell (enc a) c.1)) (columns t) = true) ->
  (forall a b, P a -> P b -> same_key dialect same_text t (enc a) (enc b) = true -> f a = f b) ->
  Forall P items -> NoDup (f <$> items) ->
  insert_all dialect same_text t names values items [] = Some (enc <$> items).
Proof using Type.
  intros Hv Hkey Hall Hnd. rewrite (insert_all_inserted f P t names values enc) by (done || by intros a r _ ?%elem_of_nil). done.
Qed.
End insert.

(** ** Sorting by anchor *)

Definition anchor_le (a b : EpochSchedule) : Prop := sch_anchorMs a <= sch_anchorMs b.

Lemma insert_anchor_perm s l : insert_anchor s l ≡ₚ s :: l.
Proof. induction l as [|t l IH]; [done |]. cbn. destruct (_ <=? _); [done |]. rewrite IH. apply perm_swap. Qed.

Lemma sort_anchors_perm l : sort_anchors l ≡ₚ l.
Proof. unfold sort_anchors. induction l as [|s l IH]; [done |]. cbn. by rewrite insert_anchor_perm, IH. Qed.

Lemma insert_anchor_sorted s l : StronglySorted anchor_le l -> StronglySorted anchor_le (insert_anchor s l).
Proof.
  unfold anchor_le. induction 1 as [|t l Hl IH Ht]; cbn; [by repeat constructor |].
  destruct (Z.leb_spec (sch_anchorMs s) (sch_anchorMs t)).
  - constructor; [by constructor |]. constructor; [done |]. eapply Forall_impl; [exact Ht |]. cbn. lia.
  - constructor; [done |]. rewrite insert_anchor_perm. constructor; [lia | done].
Qed.

Lemma sort_anchors_sorted l : StronglySorted anchor_le (sort_anchors l).
Proof. unfold sort_anchors. induction l; [constructor | by apply insert_anchor_sorted]. Qed.

Lemma sorted_inj (l : list EpochSchedule) a b :
  StronglySorted (fun a b => sch_anchorMs a < sch_anchorMs b) l -> a ∈ l -> b ∈ l -> sch_anchorMs a = sch_anchorMs b -> a = b.
Proof.
  induction 1 as [|t l _ IH Ht]; [by intros ?%elem_of_nil |]. rewrite Forall_forall in Ht.
  intros [-> | Ha]%elem_of_cons [-> | Hb]%elem_of_cons He; [done | specialize (Ht _ Hb); lia | specialize (Ht _ Ha); lia | by apply IH].
Qed.

(** Any order of strictly anchored versions sorts back. *)
Lemma sort_anchors_back l vs :
  l ≡ₚ vs -> StronglySorted (fun a b => sch_anchorMs a < sch_anchorMs b) vs -> sort_anchors l = vs.
Proof.
  intros Hp Hs. apply (StronglySorted_unique_strong anchor_le).
  - intros a b Ha Hb Hab Hba. unfold anchor_le in *. apply (sorted_inj vs); [done | | done | lia].
    by rewrite sort_anchors_perm, Hp in Ha.
  - apply sort_anchors_sorted.
  - clear Hp. induction Hs as [|t vs _ IH Ht]; constructor; [done |]. eapply Forall_impl; [exact Ht |]. unfold anchor_le. cbn. lia.
  - by rewrite sort_anchors_perm.
Qed.

(** ** A rewritten state is read back *)

Section store.
Context (sha256 : jstr -> jstr) (render : Z -> jsval) (select : list row -> list row).
Context (dialect : LedgerDialect) (same_text : LedgerDialect -> jstr -> jstr -> bool).
Context (Hrender : forall z, render z = js_int z \/ render z = JBigInt z).
Context (Hselect : forall rows, select rows ≡ₚ rows).
Context (Hsame : forall s t, same_text dialect s t = bool_decide (s = t)).

Abbreviation inserted := (insert_all dialect same_text).
Abbreviation same := (same_key dialect same_text).

(** *** Schedules *)

Definition all_versions (m : gmap jstr (list EpochSchedule)) : list EpochSchedule := concat (map_to_list m).*2.

Lemma versions_of_pool m p :
  (forall p vs, m !! p = Some vs -> versions_storable dialect p vs) ->
  filter (fun s => sch_pool s = p) (all_versions m) ≡ₚ default [] (m !! p).
Proof using Type.
  unfold all_versions. induction m as [|q vs m Hq IH] using map_ind; intros Hm.
  { by rewrite map_to_list_empty, lookup_empty. }
  assert (forall p' vs', m !! p' = Some vs' -> versions_storable dialect p' vs') as Hm'.
  { intros p' vs' H. apply Hm. rewrite lookup_insert_ne by congruence. done. }
  rewrite (map_to_list_insert _ _ _ Hq). cbn. rewrite filter_app, IH by done.
  destruct (Hm q vs) as [_ _ Hall _]; [by rewrite lookup_insert_eq |].
  destruct (decide (p = q)) as [-> | Hne].
  - rewrite lookup_insert_eq, Hq. cbn. rewrite app_nil_r. clear -Hall. induction Hall as [|s vs [Hs _ _] _ IH]; [done |].
    rewrite filter_cons, decide_True by done. by rewrite IH.
  - rewrite lookup_insert_ne by done. assert (filter (fun s => sch_pool s = p) vs = []) as ->; [| done].
    clear -Hall Hne. induction Hall as [|s vs [Hs _ _] _ IH]; [done |]. rewrite filter_cons, decide_False by congruence. done.
Qed.

Lemma all_versions_in m s : s ∈ all_versions m <-> exists p vs, m !! p = Some vs /\ s ∈ vs.
Proof using Type.
  unfold all_versions. rewrite list_elem_of_In, in_concat. split.
  - intros (vs & Hvs & Hs). apply list_elem_of_In in Hvs, Hs. apply map_values_in in Hvs as [p Hp]. by exists p, vs.
  - intros (p & vs & Hp & Hs). exists vs. rewrite <- !list_elem_of_In. split; [| done]. apply map_values_in. by exists p.
Qed.

Lemma group_spec items : forall grouped,
  Forall (fun s => exists p, schedule_ok dialect p s /\ inherited p = None) items ->
  exists g, group_schedules render (schedule_row <$> items) grouped = Ret g
    /\ forall p, g !! p = match grouped !! p, filter (fun s => sch_pool s = p) items with
                          | Some l, l' => Some (l ++ l') | None, [] => None | None, l' => Some l'
                          end.
Proof using Hrender.
  induction items as [|s items IH]; intros grouped Hall; cbn [group_schedules fmap list_fmap].
  { exists grouped. split; [done |]. intros p. cbn. destruct (grouped !! p); [by rewrite app_nil_r | done]. }
  apply Forall_cons in Hall as [(p & Hs & Hp) Hall]. rewrite (decode_schedule_row render dialect Hrender p) by done.
  cbn [res_bind]. destruct Hs as [Hpool _ _]. unfold add_schedule. rewrite Hpool, get_member_not_inherited by done.
  set (g1 := <[p := default [] (grouped !! p) ++ [s]]> grouped).
  assert (match match grouped !! p with Some a => Own a | None => Missing end with
          | Own group => Ret (<[p := group ++ [s]]> grouped) | Missing => Ret (<[p := [s]]> grouped)
          | Inherited _ => Throw "group.push is not a function" end = Ret g1) as ->
    by (unfold g1; by destruct (grouped !! p)).
  cbn [res_bind]. destruct (IH g1 Hall) as (g & -> & Hg). exists g. split; [done |]. intros q. rewrite Hg, filter_cons. unfold g1.
  destruct (decide (p = q)) as [<- | Hne].
  - rewrite lookup_insert_eq, decide_True by done. destruct (grouped !! p) as [l|]; cbn; [by rewrite <- app_assoc | done].
  - rewrite lookup_insert_ne, decide_False by congruence. done.
Qed.

Lemma schedules_back m rows :
  (forall p vs, m !! p = Some vs -> versions_storable dialect p vs) ->
  rows ≡ₚ schedule_row <$> all_versions m -> decodeSchedules render (select rows) = Ret m.
Proof using Hrender Hselect.
  intros Hm Hrows. rewrite <- (Hselect rows) in Hrows. apply Permutation_map_inv in Hrows as (items & Hsel & Hperm).
  rewrite Hsel. unfold decodeSchedules.
  destruct (group_spec items ∅) as (g & Hg & Hlook).
  { apply Forall_forall. intros s Hs. rewrite <- Hperm in Hs. apply all_versions_in in Hs as (p & vs & Hp & Hs).
    destruct (Hm p vs Hp) as [Hi _ Hall _]. rewrite Forall_forall in Hall. exists p. by split; [apply Hall |]. }
  change (map schedule_row items) with (schedule_row <$> items). rewrite Hg. cbn. f_equal. apply map_eq. intros p.
  rewrite lookup_fmap, Hlook, lookup_empty.
  pose proof (versions_of_pool m p Hm) as Hv. rewrite (Hperm) in Hv.
  destruct (m !! p) as [vs|] eqn:Hp; cbn in Hv.
  - destruct (Hm p vs Hp) as [_ Hne _ Hsorted].
    destruct (filter (fun s => sch_pool s = p) items) as [|s l]; [by apply Permutation_nil in Hv |].
    change (Some (sort_anchors (s :: l)) = Some vs). f_equal. by apply sort_anchors_back.
  - symmetry in Hv. apply Permutation_nil in Hv. by rewrite Hv.
Qed.

Lemma all_versions_nodup m :
  (forall p vs, m !! p = Some vs -> versions_storable dialect p vs) ->
  NoDup ((fun s => (sch_pool s, sch_anchorMs s)) <$> all_versions m).
Proof using Type.
  unfold all_versions. induction m as [|q vs m Hq IH] using map_ind; intros Hm; [rewrite map_to_list_empty; constructor |].
  assert (forall p' vs', m !! p' = Some vs' -> versions_storable dialect p' vs') as Hm'.
  { intros p' vs' H. apply Hm. by rewrite lookup_insert_ne by congruence. }
  rewrite (map_to_list_insert _ _ _ Hq). cbn. rewrite fmap_app.
  destruct (Hm q vs) as [_ _ Hall Hsorted]; [by rewrite lookup_insert_eq |]. apply NoDup_app. split_and!; [| | by apply IH].
  - clear -Hsorted. induction Hsorted as [|s vs _ IH Hs]; [constructor |]. rewrite fmap_cons. constructor; [| done].
    intros (t & [= _ Ht] & Hin)%list_elem_of_fmap. rewrite Forall_forall in Hs. specialize (Hs t Hin). lia.
  - intros x (s & -> & Hs)%list_elem_of_fmap (t & [= Hpt _] & Ht)%list_elem_of_fmap.
    apply all_versions_in in Ht as (p & vs' & Hp & Ht). destruct (Hm' p vs' Hp) as [_ _ Hall' _].
    rewrite Forall_forall in Hall, Hall'. destruct (Hall s Hs) as [H1 _ _], (Hall' t Ht) as [H2 _ _]. congruence.
Qed.
(** *** Epochs *)

Definition epoch_key (e : EpochRow) : jstr := epochRowKey (row_tenant e) (row_pool e) (row_start e).

Lemma decode_epochs_spec items : forall m,
  Forall (fun e => exists k, epoch_storable dialect k e) items ->
  decodeEpochs render (epoch_row <$> items) m = Ret (insert_keyed epoch_key id items m).
Proof using Hrender.
  induction items as [|e items IH]; intros m Hall; [done |]. apply Forall_cons in Hall as [[k He] Hall].
  cbn [decodeEpochs fmap list_fmap]. rewrite (decode_epoch_row render dialect Hrender k) by done. cbn [res_bind].
  by rewrite IH.
Qed.

Lemma epochs_back m rows :
  (forall k e, m !! k = Some e -> epoch_storable dialect k e) ->
  rows ≡ₚ epoch_row <$> (map_to_list m).*2 -> decodeEpochs render (select rows) ∅ = Ret m.
Proof using Hrender Hselect.
  intros Hm Hrows. rewrite <- (Hselect rows) in Hrows. apply Permutation_map_inv in Hrows as (items & Hsel & Hperm).
  rewrite Hsel. assert (forall k e, m !! k = Some e -> epoch_key e = k) as Hkey by (intros k e He; symmetry; apply (es_key _ _ _ (Hm _ _ He))).
  change (map epoch_row items) with (epoch_row <$> items). rewrite decode_epochs_spec.
  2: { apply Forall_forall. intros e He. rewrite <- Hperm in He. apply map_values_in in He as [k He]. exists k. by apply Hm. }
  f_equal. apply insert_keyed_map.
  - rewrite <- Hperm, keyed_values by done. apply NoDup_fst_map_to_list.
  - intros k e. split.
    + intros He. exists e. rewrite <- Hperm. split_and!; [apply map_values_in; by exists k | by apply Hkey | done].
    + intros (e' & He & Hk & <-). rewrite <- Hperm in He. apply map_values_in in He as [k' He]. unfold id.
      by rewrite <- Hk, (Hkey _ _ He).
Qed.

(** *** Invocations *)

Lemma decode_invocations_spec items : forall m,
  Forall (fun r => exists k, record_storable dialect k r) items ->
  decodeInvocations render (invocation_row <$> items) m = Ret (insert_keyed inv_id Full items m).
Proof using Hrender.
  induction items as [|e items IH]; intros m Hall; [done |]. apply Forall_cons in Hall as [[k He] Hall].
  cbn [decodeInvocations fmap list_fmap]. rewrite (decode_invocation_row render dialect Hrender k) by done. cbn [res_bind].
  by rewrite IH.
Qed.

(** The records of a map without bare entries. *)
Definition full_record (e : Entry) : option InvocationRecord := match e with Full r => Some r | Bare => None end.
Definition records (m : gmap jstr Entry) : list InvocationRecord := omap full_record (map_to_list m).*2.

Lemma records_in m r : r ∈ records m <-> exists k, m !! k = Some (Full r).
Proof using Type.
  unfold records. rewrite list_elem_of_omap. split.
  - intros (e & He & Hr). destruct e as [r'|]; [injection Hr as -> | done]. by apply map_values_in.
  - intros Hk. exists (Full r). split; [by apply map_values_in | done].
Qed.

Lemma records_values m :
  (forall k e, m !! k = Some e -> exists r, e = Full r /\ record_storable dialect k r) ->
  (map_to_list m).*2 = Full <$> records m /\ inv_id <$> records m = (map_to_list m).*1.
Proof using Type.
  intros Hm. unfold records.
  assert (forall l : list (jstr * Entry), (forall k e, (k, e) ∈ l -> exists r, e = Full r /\ record_storable dialect k r) ->
    l.*2 = Full <$> omap full_record l.*2 /\ inv_id <$> omap full_record l.*2 = l.*1) as H.
  { intros l. induction l as [|[k e] l IH]; intros Hl; [done |].
    destruct (Hl k e) as (r & -> & Hr); [by left |]. destruct IH as [H1 H2]; [intros k' e' Hin; apply Hl; by right |].
    cbn in *. split; [by rewrite <- H1 | by rewrite H2, (rs_id _ _ _ Hr)]. }
  apply H. intros k e Hin%elem_of_map_to_list. by apply Hm.
Qed.

Lemma invocations_back m rows :
  (forall k e, m !! k = Some e -> exists r, e = Full r /\ record_storable dialect k r) ->
  rows ≡ₚ invocation_row <$> records m -> decodeInvocations render (select rows) ∅ = Ret m.
Proof using Hrender Hselect.
  intros Hm Hrows. rewrite <- (Hselect rows) in Hrows. apply Permutation_map_inv in Hrows as (items & Hsel & Hperm).
  rewrite Hsel. change (map invocation_row items) with (invocation_row <$> items). rewrite decode_invocations_spec.
  2: { apply Forall_forall. intros r Hr. rewrite <- Hperm in Hr. apply records_in in Hr as [k Hr].
       destruct (Hm _ _ Hr) as (r' & [= <-] & H). by exists k. }
  f_equal. apply insert_keyed_map.
  - rewrite <- Hperm. destruct (records_values m Hm) as [_ ->]. apply NoDup_fst_map_to_list.
  - intros k e. split.
    + intros He. destruct (Hm _ _ He) as (r & -> & Hr). exists r. rewrite <- Hperm.
      split_and!; [apply records_in; by exists k | apply (rs_id _ _ _ Hr) | done].
    + intros (r & Hr & Hk & <-). rewrite <- Hperm in Hr. apply records_in in Hr as [k' Hr].
      destruct (Hm _ _ Hr) as (r' & [= <-] & H). by rewrite <- Hk, (rs_id _ _ _ H).
Qed.

(** *** Quarantine *)

Lemma quarantine_back (m : gset jstr) (display : jstr -> jstr) rows :
  rows ≡ₚ (fun k => zip quarantine_columns [CText k; CText (display k)]) <$> elements m ->
  decodeQuarantine render (select rows) ∅ = Ret m.
Proof using Hselect.
  intros Hrows. rewrite <- (Hselect rows) in Hrows. apply Permutation_map_inv in Hrows as (items & -> & Hperm).
  assert (forall its acc, decodeQuarantine render (map (fun k => zip quarantine_columns [CText k; CText (display k)]) its) acc
    = Ret (list_to_set its ∪ acc)) as H.
  { intros its. induction its as [|k its IH]; intros acc; cbn [map decodeQuarantine].
    - cbn. by rewrite (left_id_L ∅ (∪)).
    - rewrite (read_cell render _ "profile_key" (CText k)) by reflexivity. cbn [cell_value toText res_bind]. rewrite IH.
      f_equal. by rewrite list_to_set_cons, (assoc_L (∪)), (comm_L (∪) _ {[ k ]}). }
  rewrite H. f_equal. apply set_eq. intros k. rewrite elem_of_union, elem_of_list_to_set, <- Hperm, elem_of_elements, elem_of_empty.
  split; [intros [H1 | []]; exact H1 | intros H1; by left].
Qed.
(** *** The whole state *)

Ltac get_cells :=
  repeat match goal with
  | |- context [get_cell ?r ?name] =>
      let v := eval lazy -[state_name flag_cell sch_pool sch_limit sch_periodMs sch_anchorMs sch_version
        row_tenant row_pool row_start row_end row_limit row_scheduleVersion row_committed row_held
        inv_id inv_tenant inv_pool inv_correlation inv_epochStart inv_epochEnd inv_limit inv_scheduleVersion inv_profile
        mp_provider mp_model mp_version inv_upperBound inv_state inv_fenced inv_usage inv_breach inputTokens outputTokens]
        in (get_cell r name) in
      match v with Some ?c => change (get_cell r name) with (Some c) end
  end.

Lemma schedule_admitted p s :
  schedule_ok dialect p s ->
  forallb (fun c => admits_cell c.2 (get_cell (schedule_row s) c.1)) (columns (schedules_table dialect)) = true.
Proof using Type.
  intros [_ [Hp Hl Hper Ha] Hv]. unfold schedules_table, schedule_row. cbn [columns forallb fst snd]. get_cells.
  by rewrite !admits_key, !admits_counter, admits_positive by auto using identity_fits, version_fits.
Qed.

Lemma epoch_admitted k e :
  epoch_storable dialect k e ->
  forallb (fun c => admits_cell c.2 (get_cell (epoch_row e) c.1)) (columns (epochs_table dialect)) = true.
Proof using Type.
  intros [_ Ht Hp Hs He Hl Hv Hc Hh]. unfold epochs_table, epoch_row. cbn [columns forallb fst snd]. get_cells.
  by rewrite !admits_key, !admits_counter, admits_int by auto using identity_fits, version_fits.
Qed.

Lemma invocation_admitted k r :
  record_storable dialect k r ->
  forallb (fun c => admits_cell c.2 (get_cell (invocation_row r) c.1)) (columns (invocations_table dialect)) = true.
Proof using Hsame.
  intros [<- Hk Ht Hp Hc H1 H2 H3 Hid Hs He Hl Hv Hb Hu]. unfold invocations_table, invocation_row.
  cbn [columns forallb fst snd]. get_cells.
  rewrite !admits_key, !admits_int, admits_positive by (auto using identity_fits, version_fits; apply is_safe_spec; lia).
  assert (forall b : bool, admits_cell flag (Some (flag_cell b)) = true) as Hflag by by intros [].
  assert (admits_cell (state_text dialect) (Some (CText (state_name (inv_state r)))) = true) as -> by by destruct dialect, (inv_state r).
  assert (forall z, 0 <= z <= MAX_SAFE -> admits_cell optional_counter (Some (CInt z)) = true) as Hopt
    by (intros z Hz; exact (admits_counter z Hz)).
  rewrite !Hflag. destruct (inv_usage r) as [[i o]|]; cbn [inputTokens outputTokens] in *; [| done].
  unfold valid_usage in Hu. cbn in Hu. by rewrite !Hopt by lia.
Qed.

Lemma same_text_key a b : same_cell dialect same_text (Some (CText a)) (Some (CText b)) = bool_decide (a = b).
Proof using Hsame. cbn. apply Hsame. Qed.

Lemma schedules_inserted m :
  (forall p vs, m !! p = Some vs -> versions_storable dialect p vs) ->
  inserted (schedules_table dialect) schedule_columns (fun s => Some (schedule_values s)) (all_versions m) []
  = Some (schedule_row <$> all_versions m).
Proof using Hsame.
  intros Hm. apply (insert_all_fresh dialect same_text (fun s => (sch_pool s, sch_anchorMs s)) (fun s => exists p, schedule_ok dialect p s)).
  - intros s [p Hs]. exists (schedule_values s). split_and!; [done | done | by eapply schedule_admitted].
  - intros a b _ _. unfold same_key, schedules_table. cbn [primary_key forallb]. unfold schedule_row. get_cells.
    rewrite same_text_key, !andb_true_iff, bool_decide_eq_true. cbn. rewrite Z.eqb_eq. by intros (-> & -> & _).
  - apply Forall_forall. intros s (p & vs & Hp & Hs)%all_versions_in. destruct (Hm p vs Hp) as [_ _ Hall _].
    rewrite Forall_forall in Hall. exists p. by apply Hall.
  - by apply all_versions_nodup.
Qed.

Lemma epochs_inserted (m : gmap jstr EpochRow) :
  (forall k e, m !! k = Some e -> epoch_storable dialect k e) ->
  inserted (epochs_table dialect) epoch_columns (fun e => Some (epoch_values e)) (map_to_list m).*2 []
  = Some (epoch_row <$> (map_to_list m).*2).
Proof using Hsame.
  intros Hm. apply (insert_all_fresh dialect same_text epoch_key (fun e => exists k, epoch_storable dialect k e)).
  - intros e [k He]. exists (epoch_values e). split_and!; [done | done | by eapply epoch_admitted].
  - intros a b _ _. unfold same_key, epochs_table. cbn [primary_key forallb]. unfold epoch_row. get_cells.
    rewrite !same_text_key, !andb_true_iff, !bool_decide_eq_true. cbn. rewrite Z.eqb_eq. unfold epoch_key. by intros (-> & -> & -> & _).
  - apply Forall_forall. intros e [k He]%map_values_in. exists k. by apply Hm.
  - rewrite keyed_values; [apply NoDup_fst_map_to_list |]. intros k e He. symmetry. apply (es_key _ _ _ (Hm _ _ He)).
Qed.

Lemma invocations_inserted (m : gmap jstr Entry) :
  (forall k e, m !! k = Some e -> exists r, e = Full r /\ record_storable dialect k r) ->
  inserted (invocations_table dialect) invocation_columns entry_values (map_to_list m).*2 []
  = Some (invocation_row <$> records m).
Proof using Hsame.
  intros Hm. destruct (records_values m Hm) as [-> Hids].
  assert (forall its rows, inserted (invocations_table dialect) invocation_columns entry_values (Full <$> its) rows
    = inserted (invocations_table dialect) invocation_columns (fun r => Some (invocation_values r)) its rows) as ->.
  { intros its. induction its as [|r its IH]; intros rows; [done |]. cbn [fmap list_fmap insert_all entry_values].
    destruct (insertRow _ _ _ _ _ rows); [apply IH | done]. }
  apply (insert_all_fresh dialect same_text inv_id (fun r => exists k, record_storable dialect k r)).
  - intros r [k Hr]. exists (invocation_values r). split_and!; [done | done | by eapply invocation_admitted].
  - intros a b _ _. unfold same_key, invocations_table. cbn [primary_key forallb]. unfold invocation_row. get_cells.
    rewrite !same_text_key, !andb_true_iff, !bool_decide_eq_true. by intros [-> _].
  - apply Forall_forall. intros r [k Hr]%records_in. destruct (Hm _ _ Hr) as (r' & [= <-] & H). by exists k.
  - rewrite Hids. apply NoDup_fst_map_to_list.
Qed.

Lemma quarantine_inserted (m : gset jstr) (display : jstr -> jstr) :
  (forall k, k ∈ m -> key_fits dialect k) ->
  inserted (quarantine_table dialect) quarantine_columns (fun k => Some [CText k; CText (display k)]) (elements m) []
  = Some ((fun k => zip quarantine_columns [CText k; CText (display k)]) <$> elements m).
Proof using Hsame.
  intros Hm. apply (insert_all_fresh dialect same_text id (key_fits dialect)).
  - intros k Hk. eexists. split_and!; [done | done |]. unfold quarantine_table. cbn [columns forallb fst snd]. get_cells.
    by rewrite admits_key by done.
  - intros a b _ _. unfold same_key, quarantine_table. cbn [primary_key forallb]. get_cells.
    rewrite same_text_key, !andb_true_iff, bool_decide_eq_true. by intros [-> _].
  - apply Forall_forall. intros k Hk%elem_of_elements. by apply Hm.
  - rewrite list_fmap_id. apply NoDup_elements.
Qed.

Lemma rewrite_storable t next :
  storable dialect next -> 1 <= version next -> t_version t = Some (version next - 1) ->
  exists t', rewriteState sha256 dialect same_text t next = Rewritten t'
    /\ loadSnapshot render select t' = Ret next /\ t_version t' = Some (version next).
Proof using Hrender Hselect Hsame.
  intros [Hv Hs He Hi Hq] H1 Ht. unfold rewriteState. rewrite Ht.
  assert (fsub (version next) 1 = version next - 1) as Hsub by (apply fsub_exact; lia).
  rewrite Hsub, Z.eqb_refl. cbn [negb]. fold (all_versions (schedules next)).
  rewrite schedules_inserted, epochs_inserted, invocations_inserted, quarantine_inserted by done.
  eexists. split_and!; [reflexivity | | cbn; f_equal; lia]. unfold loadSnapshot. cbn [t_version t_schedules t_epochs t_invocations t_quarantine].
  rewrite toNonNegativeInt_render by (done || lia). cbn [res_bind].
  rewrite (schedules_back (schedules next)), (epochs_back (epochs next)), (invocations_back (invocations next)), (quarantine_back (quarantined next) _) by done.
  cbn [res_bind]. assert (version next - 1 + 1 = version next) as -> by lia. by destruct next.
Qed.
End store.

(** ** What the operations keep *)

Record pool_shape (p : jstr) (vs : list EpochSchedule) : Prop := {
  ps_own : inherited p = None;
  ps_all : Forall (fun v => sch_pool v = p /\ VERSION_PATTERN (sch_version v) = true) vs;
  ps_sorted : StronglySorted (fun a b => sch_anchorMs a < sch_anchorMs b) vs
}.

Record row_shape (e : EpochRow) : Prop := {
  ws_start : row_start e <= MAX_SAFE;
  ws_end : is_safe (row_end e) = true;
  ws_version : VERSION_PATTERN (row_scheduleVersion e) = true
}.

Record record_shape (r : InvocationRecord) : Prop := {
  hs_id : valid_identity (inv_id r);
  hs_correlation : valid_identity (inv_correlation r);
  hs_provider : valid_name (mp_provider (inv_profile r));
  hs_model : valid_name (mp_model (inv_profile r));
  hs_profile_version : valid_name (mp_version (inv_profile r));
  hs_version : VERSION_PATTERN (inv_scheduleVersion r) = true
}.

Record shape (d : LedgerDialect) (s : LedgerState) : Prop := {
  sp_schedules : forall p vs, schedules s !! p = Some vs -> pool_shape p vs;
  sp_epochs : forall k e, epochs s !! k = Some e -> row_shape e;
  sp_invocations : forall k e, invocations s !! k = Some e -> exists r, e = Full r /\ record_shape r;
  sp_quarantined : forall k, k ∈ quarantined s -> key_fits d k
}.

Lemma shape_empty d : shape d emptyLedgerState.
Proof. by split; cbn; intros *; rewrite ?lookup_empty, ?elem_of_empty. Qed.

Lemma with_state_shape r st f u b : record_shape r -> record_shape (with_state r st f u b).
Proof. by intros []. Qed.

Lemma identityValue_name kind v s : identityValue kind v = Ret s -> valid_name s.
Proof.
  unfold identityValue, valid_name. destruct v as [| | | | |t| | |]; try discriminate. intros H kind'. inv_res. subst. cbn.
  unfold guard_throw. by match goal with H : _ = true |- _ => rewrite H end.
Qed.

Section operations.
Context (sha256 : jstr -> jstr) (d : LedgerDialect).
(** A digest in hexadecimal is 64 characters. *)
Context (Hdigest : forall s, length (sha256 s) = 64%nat).

Lemma digest_fits s : key_fits d (sha256 s).
Proof using Hdigest. destruct d; cbn; [done.. |]. rewrite Hdigest. lia. Qed.

Lemma storable_of s : Inv sha256 s -> shape d s -> 0 <= version s <= MAX_SAFE -> storable d s.
Proof using Type.
  intros Hinv [Hps Hes His Hqs] Hv. split; [done | | | | done].
  - intros p vs Hp. destruct (Hps p vs Hp) as [Hown Hall Hsorted].
    destruct (inv_schedules _ _ Hinv p vs Hp) as (Hne & Hvalid & _). split; [done | done | | done].
    rewrite Forall_forall in Hall, Hvalid |- *. intros v Hin. destruct (Hall v Hin). split; auto.
  - intros k e He. destruct (Hes k e He) as [Hst Hend Hver]. destruct (inv_rows _ _ Hinv k e He).
    pose proof (row_bounds sha256 s k e Hinv He). split; try done; lia.
  - intros k e He. destruct (His k e He) as (r & -> & [Hid Hc H1 H2 H3 Hver]). exists r. split; [done |].
    destruct (inv_entries _ _ Hinv k r He) as [<- Ht Hp Hb (row & Hrow & Hrl & Hrs & Hre) Hident Husage _ _].
    destruct (Hes _ row Hrow) as [Hst Hend _]. destruct (inv_rows _ _ Hinv _ row Hrow).
    split; try done; try (rewrite <- ?Hrl, <- ?Hrs, <- ?Hre; first [done | lia]).
    unfold usage_ok in Husage. destruct (inv_state r), (inv_usage r); try done. by destruct Husage.
Qed.

(** The steps of the four updates of a state. *)
Lemma shape_record s k r qs :
  shape d s -> record_shape r -> (forall q, q ∈ qs -> key_fits d q) ->
  forall es, (forall k e, es !! k = Some e -> row_shape e) ->
  shape d (next_state s es (<[k := Full r]> (invocations s)) qs).
Proof using Type.
  intros [Hps _ His _] Hr Hq es He. split; cbn; [done | done | | done].
  intros k' e. rewrite lookup_insert_Some. intros [[_ <-] | [_ Hk]]; [by exists r | by eapply His].
Qed.

Lemma shape_row s key row : shape d s -> row_shape row ->
  forall k e, <[key := row]> (epochs s) !! k = Some e -> row_shape e.
Proof using Type.
  intros [_ Hes _ _] Hrow k e. rewrite lookup_insert_Some. intros [[_ <-] | [_ Hk]]; [done | by eapply Hes].
Qed.

Lemma shape_member s key r : shape d s -> get_member (invocations s) key = Own (Full r) ->
  record_shape r.
Proof using Type. intros [_ _ His _] Hm%get_member_own. destruct (His _ _ Hm) as (r' & [= <-] & H). exact H. Qed.

Lemma fence_shape key s s' v : shape d s -> inherited key = None -> fence_apply key s = Ret (Write s' v) -> shape d s'.
Proof using Type.
  intros Hs Hkey H. unfold fence_apply in H. destruct (get_member (invocations s) key) as [[r|]|arity|] eqn:Hm; simplify_eq.
  - apply shape_member in Hm; [| done].
    assert (shape d (next_state s (epochs s) (<[key := Full (with_state r Fenced true (inv_usage r) (inv_breach r))]> (invocations s))
      (quarantined s))) as Hn by (apply shape_record; [done | by apply with_state_shape | apply Hs | apply Hs]).
    destruct (inv_state r), (inv_fenced r); by simplify_eq.
  - unfold get_member in Hm. rewrite Hkey in Hm. by destruct (invocations s !! key).
Qed.

Lemma settle_shape key usage s s' v : shape d s -> settle_apply sha256 key usage s = Ret (Write s' v) -> shape d s'.
Proof using Hdigest.
  intros Hs H. unfold settle_apply in H. destruct (get_member (invocations s) key) as [[r|]|arity|] eqn:Hm; simplify_eq.
  apply shape_member in Hm; [| done].
  assert (settle_unresolved sha256 key usage r s = Write s' v) as Hset.
  { destruct (inv_state r); simplify_eq; try by inv_res. repeat case_hyp H; simplify_eq. }
  clear H. unfold settle_unresolved in Hset. destruct (epochs s !! record_row r) as [row|] eqn:Hrow; [| discriminate].
  case_match; [discriminate |]. injection Hset as <- _.
  apply shape_record; [done | by apply with_state_shape | |].
  - intros q Hq. destruct (_ <? _); [apply elem_of_union in Hq as [->%elem_of_singleton | Hq]; [apply digest_fits |] |]; by apply Hs.
  - apply shape_row; [done |]. by destruct (sp_epochs d s Hs _ row Hrow).
Qed.

Lemma release_shape key s s' v : shape d s -> release_apply key s = Ret (Write s' v) -> shape d s'.
Proof using Type.
  intros Hs H. unfold release_apply in H. destruct (get_member (invocations s) key) as [[r|]|arity|] eqn:Hm; simplify_eq.
  apply shape_member in Hm; [| done].
  destruct (epochs s !! record_row r) as [row|] eqn:Hrow; [| by destruct (inv_state r), (inv_fenced r)].
  assert (shape d (next_state s (<[record_row r := set_held row (fsub (row_held row) (inv_upperBound r))]> (epochs s))
    (<[key := Full (with_state r Released (inv_fenced r) (inv_usage r) (inv_breach r))]> (invocations s)) (quarantined s))) as Hn.
  { apply shape_record; [done | by apply with_state_shape | apply Hs | apply shape_row; [done |]].
    by destruct (sp_epochs d s Hs _ row Hrow). }
  destruct (inv_state r); try discriminate; destruct (inv_fenced r); try discriminate; injection H as <- _; exact Hn.
Qed.

Lemma configure_shape pinned s s' v :
  shape d s -> VERSION_PATTERN (sch_version pinned) = true -> configure_apply pinned s = Ret (Write s' v) -> shape d s'.
Proof using Type.
  intros Hs Hv H. unfold configure_apply in H. destruct (get_member (schedules s) (sch_pool pinned)) eqn:Hm; simplify_eq.
  apply get_member_missing in Hm as [_ Hown]. split; cbn; try apply Hs. intros p vs.
  rewrite lookup_insert_Some. intros [[<- <-] | [_ Hp]]; [| by apply Hs]. split; [done | by repeat constructor | by repeat constructor].
Qed.

Lemma transitionSchedule_version current change now s' :
  transitionSchedule current change now = Ret s' -> VERSION_PATTERN (sch_version s') = true.
Proof using Type.
  unfold transitionSchedule. intros H. inv_res. cbn.
  match goal with H : checkVersion _ = Ret _ |- _ => unfold checkVersion in H; case_match; inv_res; by subst end.
Qed.

(** A transition after the anchor of the current schedule has an anchor of its own. *)
Lemma transition_shape key change at_ s s' v :
  Inv sha256 s -> shape d s -> (forall current, (schedules s !! key) ≫= last = Some current -> sch_anchorMs current < at_) ->
  transition_apply key change at_ s = Ret (Write s' v) -> shape d s'.
Proof using Type.
  intros Hinv Hs Hlater H. unfold transition_apply in H. destruct (get_member (schedules s) key) as [vs|arity|] eqn:Hm; [| by repeat (case_hyp H; inv_res) | discriminate].
  apply get_member_own in Hm. destruct (last vs) as [current|] eqn:Hl; [| discriminate].
  apply res_bind_ret in H as (new & Hnew & H). injection H as <- _.
  specialize (Hlater current). rewrite Hm in Hlater. specialize (Hlater Hl).
  destruct (inv_schedules _ _ Hinv key vs Hm) as (_ & Hvalid & _).
  pose proof (transitionSchedule_version _ _ _ _ Hnew) as Hver.
  apply last_Some in Hl as [old ->]. rewrite Forall_app, Forall_singleton in Hvalid.
  destruct (transitionSchedule_ret _ _ _ _ (proj2 Hvalid) Hnew) as (_ & Hpool & _ & _ & Hat).
  destruct (sp_schedules d s Hs key _ Hm) as [Hown Hall Hsorted].
  split; cbn; try apply Hs. intros p vs. rewrite lookup_insert_Some. intros [[<- <-] | [_ Hp]]; [| by apply Hs].
  split; [done | |].
  - apply Forall_app. split; [done |]. apply Forall_singleton. split; [| done].
    rewrite Hpool. apply Forall_app in Hall as [_ Hc]. by apply Forall_singleton in Hc as [? _].
  - apply StronglySorted_app. split; [| split; [done | by repeat constructor]].
    intros x y Hx Hy. apply list_elem_of_singleton in Hy as ->.
    apply StronglySorted_app in Hsorted as (Hlt & _ & _).
    apply elem_of_app in Hx as [Hx | Hx]; [specialize (Hlt x current Hx ltac:(by left)); lia |].
    apply list_elem_of_singleton in Hx as ->. lia.
Qed.

Record admission_shape (a : ReserveArgs) : Prop := {
  as_id : valid_identity (ra_id a);
  as_correlation : valid_identity (ra_correlation a);
  as_provider : valid_name (mp_provider (ra_profile a));
  as_model : valid_name (mp_model (ra_profile a));
  as_version : valid_name (mp_version (ra_profile a))
}.

Lemma reserve_shape a s s' v :
  Inv sha256 s -> shape d s -> admission_shape a -> reserve_body sha256 a s = Ret (Write s' v) -> shape d s'.
Proof using Type.
  intros Hinv Hs Ha H. unfold reserve_body, reserve_apply in H. apply res_bind_ret in H as (found & Hf & H).
  destruct found as [[schedule epoch]|]; [| discriminate].
  destruct (reserve_epoch_some _ _ _ _ _ _ Hinv Hf) as (vs & Hvs & Happ & He & Hval).
  destruct (get_member (invocations s) (ra_id a)) as [[r|]|arity|] eqn:Hm; [by case_hyp H | discriminate.. |].
  unfold reserve_new in H. case_hyp H; [discriminate |]. case_hyp H; [discriminate |]. injection H as <- _.
  assert (schedule ∈ vs) as Hin by by apply applicable_from_in in Happ as [?|?].
  destruct (sp_schedules d s Hs _ vs Hvs) as [_ Hall _]. rewrite Forall_forall in Hall. destruct (Hall _ Hin) as [_ Hver].
  destruct (epochContaining_some _ _ _ Hval He) as (Hat & Hst & Hend & Hmax).
  assert (row_shape (default (fresh_row (ra_tenant a) (ra_pool a) epoch schedule)
    (epochs s !! epochRowKey (ra_tenant a) (ra_pool a) (ep_start epoch)))) as [H1 H2 H3].
  { destruct (epochs s !! _) as [row|] eqn:Hrow; [by eapply Hs | cbn]. destruct Hval as [_ _ Hper Hanc]. split; cbn; [lia | | done].
    pose proof (quotient_product_bound (ra_at a - sch_anchorMs schedule) (sch_periodMs schedule)). apply is_safe_spec. lia. }
  apply shape_record; [done | by destruct Ha | apply Hs |]. by apply shape_row.
Qed.
End operations.

(** ** One transaction *)

(** A call with this fault and no other client. *)
Definition quiet (f : Fault) : StoreEvent := {| ev_others := []; ev_fault := f |}.

Section simulation.
Context (sha256 : jstr -> jstr) (render : Z -> jsval) (select : list row -> list row).
Context (d : LedgerDialect) (same_text : LedgerDialect -> jstr -> jstr -> bool).
Context (Hdigest : forall s, length (sha256 s) = 64%nat).
Context (Hrender : forall z, render z = js_int z \/ render z = JBigInt z).
Context (Hselect : forall rows, select rows ≡ₚ rows).
Context (Hsame : forall s t, same_text d s t = bool_decide (s = t)).

Abbreviation sql := (openSqlLedgerStore sha256 render select d same_text).
Abbreviation memory := (shared_store sha256).

(** The tables hold the state of the memory store and fail as it does. *)
Record related (w : SqlWorld) (m : SharedStore) : Prop := {
  re_state : loadSnapshot render select (db w) = Ret (sh_state m);
  re_version : t_version (db w) = Some (version (sh_state m));
  re_script : sh_script m = quiet <$> faults w;
  re_inv : Inv sha256 (sh_state m);
  re_shape : shape d (sh_state m);
  re_nonneg : 0 <= version (sh_state m);
  re_bound : version (sh_state m) + Z.of_nat (length (faults w)) <= MAX_SAFE
}.

Lemma related_empty fs :
  Z.of_nat (length fs) <= MAX_SAFE ->
  related (mkWorld applyLedgerDDL fs) {| sh_state := emptyLedgerState; sh_script := quiet <$> fs |}.
Proof using Hrender Hselect.
  intros H. split; [ | done | done | apply Inv_empty | apply shape_empty | done | cbn; lia].
  assert (select [] = []) as Hs by (apply Permutation_nil; symmetry; apply Hselect).
  unfold loadSnapshot. cbn [db t_version t_schedules t_epochs t_invocations t_quarantine applyLedgerDDL].
  rewrite toNonNegativeInt_render by (done || lia). rewrite Hs. cbn. by rewrite fmap_empty.
Qed.

Lemma sql_load_related w m : related w m -> exists w',
  @load _ sql w = ((@load _ memory m).1, w') /\ related w' (@load _ memory m).2.
Proof using Type.
  intros [Hst Hver Hsc Hinv Hsh Hnn Hb]. destruct w as [t fs], m as [s script]. cbn in *. subst script.
  unfold sql_load, next_fault, next_event. cbn [db faults sh_script sh_state].
  destruct fs as [|f fs]; [| destruct f]; cbn -[loadSnapshot]; rewrite ?Hst; (eexists; split; [reflexivity |]);
    split; cbn -[loadSnapshot] in *; (done || lia).
Qed.

(** A load answers the state it leaves. *)
Lemma memory_load_state m s : (@load _ memory m).1 = Some s -> s = sh_state (@load _ memory m).2.
Proof using Type. cbn. destruct (next_event m) as [ev rest]. cbn. destruct (ev_fault ev); naive_solver. Qed.

Lemma sql_commit_related w m next : related w m ->
  Inv sha256 next -> shape d next -> version next = nextVersion (sh_state m) ->
  exists w', @commit _ sql w (version (sh_state m)) next
      = ((@commit _ memory m (version (sh_state m)) next).1, w')
    /\ related w' (@commit _ memory m (version (sh_state m)) next).2
    /\ (@commit _ memory m (version (sh_state m)) next).1 <> NotCommitted.
Proof using Hrender Hselect Hsame.
  intros [Hst Hver Hsc Hinv Hsh Hnn Hb] Hinv' Hsh' Hnext. destruct w as [t fs], m as [s script].
  cbn [db faults sh_state sh_script] in *. subst script.
  unfold commit, openSqlLedgerStore, shared_store, sql_commit, next_fault, next_event. cbn [db faults sh_script sh_state].
  assert ((nextVersion s =? fadd (version s) 1) = true) as Heq by apply Z.eqb_refl.
  rewrite Hnext, Heq. cbn [negb].
  destruct fs as [|f fs]; cbn [fmap list_fmap quiet ev_others ev_fault run_others fold_left].
  { eexists. split_and!; [reflexivity | by split | done]. }
  assert (nextVersion s = version s + 1) as Hadd by (apply nextVersion_exact; cbn [length] in *; lia).
  destruct f.
  2: { eexists. split_and!; [reflexivity | | done]. cbn [length] in *. split; cbn; try done; lia. }
  all: destruct (rewrite_storable sha256 render select d same_text Hrender Hselect Hsame t next) as (t' & Ht' & Hload & Hv');
    [apply (storable_of sha256); [done.. | cbn [length] in *; lia] | lia | by rewrite Hver, Hnext, Hadd, Z.add_simpl_r |].
  all: rewrite Ht'; cbn [commit createMemoryLedgerStore]; rewrite Z.eqb_refl, Hnext, Heq; cbn [negb fst snd].
  all: eexists; split_and!; [reflexivity | | done]; cbn [length] in *; split; cbn [db faults sh_state sh_script]; try done; lia.
Qed.

(** A body that stays within what the tables can hold. *)
Definition keeps {T} (s : LedgerState) (body : LedgerState -> res (Applied T)) : Prop := forall next v,
  Inv sha256 s -> shape d s -> body s = Ret (Write next v) ->
  Inv sha256 next /\ shape d next /\ version next = nextVersion s.

(** Without another client a load leaves the state. *)
Lemma memory_load_same w m : related w m -> sh_state (@load _ memory m).2 = sh_state m.
Proof using Type.
  intros [_ _ Hsc _ _ _ _]. destruct m as [s script]. cbn in Hsc. subst script. cbn. destruct (faults w) as [|f fs]; done.
Qed.

Lemma run_op_related {T} (u : UnavailableReason -> T) body w m :
  keeps (sh_state m) body -> related w m -> exists w',
    @run_op _ sql _ u body w = ((@run_op _ memory _ u body m).1, w') /\ related w' (@run_op _ memory _ u body m).2.
Proof using Hrender Hselect Hsame.
  intros Hk Hr. unfold run_op, runTransaction. destruct (sql_load_related w m Hr) as (w1 & -> & Hr1).
  rewrite <- (memory_load_same w m Hr) in Hk. pose proof (memory_load_state m) as Hl. destruct (@load _ memory m) as [o m1]. cbn [fst snd] in *.
  destruct o as [s|]; [| by eexists]. specialize (Hl s eq_refl). subst s. cbn [attempts].
  destruct (body (sh_state m1)) as [[v|next v]|msg] eqn:Hb; [by eexists | | by eexists].
  destruct (Hk _ _ (re_inv _ _ Hr1) (re_shape _ _ Hr1) Hb) as (H1 & H2 & H3).
  destruct (sql_commit_related w1 m1 next Hr1 H1 H2 H3) as (w2 & -> & Hr2 & Hc).
  destruct (@commit _ memory m1 (version (sh_state m1)) next) as [c m2]. cbn [fst snd] in *. destruct c; [by eexists | by destruct Hc | by eexists].
Qed.
End simulation.

(** ** Sessions *)

(** The public operations of a ledger service but for [ledgerHealth], whose answer
    depends on the order in which the records of a state are enumerated. *)
Inductive LedgerCall : Type :=
| CallReserve (date_now : Z) (fresh_correlation fresh_id : jstr) (input : ReserveInput)
| CallFence (id : jsval)
| CallSettle (id input output : jsval)
| CallRelease (id : jsval)
| CallConfigure (pool limit periodMs anchorMs version : jsval)
| CallTransition (date_now : Z) (pool : jsval) (change : ScheduleChange) (nowMs : jsval)
| CallReconcile (id : jsval)
| CallStatus (tenant pool epochStart : jsval).

Inductive LedgerAnswer : Type :=
| AnswerReserve (r : res ReserveOutcome)
| AnswerFence (r : res FenceOutcome)
| AnswerSettle (r : res SettleOutcome)
| AnswerRelease (r : res ReleaseOutcome)
| AnswerConfigure (r : res ConfigureOutcome)
| AnswerTransition (r : res TransitionOutcome)
| AnswerReconcile (r : res ReconcileOutcome)
| AnswerStatus (r : res EpochStatusOutcome).

Definition answering {W T} (f : T -> LedgerAnswer) (p : T * W) : LedgerAnswer * W := (f p.1, p.2).

Definition answer_call (sha256 : jstr -> jstr) {W} `{LedgerStore W} (c : LedgerCall) (w : W) : LedgerAnswer * W :=
  match c with
  | CallReserve now correlation id input => answering AnswerReserve (reserve sha256 now correlation id input w)
  | CallFence id => answering AnswerFence (fence id w)
  | CallSettle id input output => answering AnswerSettle (settle sha256 id input output w)
  | CallRelease id => answering AnswerRelease (releaseUndispatched id w)
  | CallConfigure p l per a v => answering AnswerConfigure (configurePool p l per a v w)
  | CallTransition now pool change nowMs => answering AnswerTransition (transitionPool now pool change nowMs w)
  | CallReconcile id => answering AnswerReconcile (reconcile id w)
  | CallStatus tenant pool start => answering AnswerStatus (epochStatus tenant pool start w)
  end.

Fixpoint session (sha256 : jstr -> jstr) {W} `{LedgerStore W} (calls : list LedgerCall) (w : W) : list LedgerAnswer * W :=
  match calls with
  | [] => ([], w)
  | c :: calls =>
      let '(a, w) := answer_call sha256 c w in
      let '(rest, w) := session sha256 calls w in
      (a :: rest, w)
  end.

(** Fresh identities are identities, no invocation is fenced that is named after a
    member every object inherits, and a transition comes after the anchor of the
    current schedule of its pool. *)
Definition call_ok (s : LedgerState) (c : LedgerCall) : Prop :=
  match c with
  | CallReserve _ correlation id _ => valid_identity correlation /\ valid_identity id
  | CallFence (JStr id) => inherited id = None
  | CallTransition now pool _ nowMs => forall key at_ current,
      poolId pool = Ret key -> checkClock now nowMs = Ret at_ -> (schedules s !! key) ≫= last = Some current ->
      sch_anchorMs current < at_
  | _ => True
  end.

(** ... of every call, on the state the memory ledger then has. *)
Fixpoint calls_ok (sha256 : jstr -> jstr) (calls : list LedgerCall) (m : SharedStore) : Prop :=
  match calls with
  | [] => True
  | c :: calls => call_ok (sh_state m) c /\ calls_ok sha256 calls (@answer_call sha256 _ (shared_store sha256) c m).2
  end.

Section sessions.
Context (sha256 : jstr -> jstr) (render : Z -> jsval) (select : list row -> list row).
Context (d : LedgerDialect) (same_text : LedgerDialect -> jstr -> jstr -> bool).
Context (Hdigest : forall s, length (sha256 s) = 64%nat).
Context (Hrender : forall z, render z = js_int z \/ render z = JBigInt z).
Context (Hselect : forall rows, select rows ≡ₚ rows).
Context (Hsame : forall s t, same_text d s t = bool_decide (s = t)).

Abbreviation sql := (openSqlLedgerStore sha256 render select d same_text).
Abbreviation memory := (shared_store sha256).
Abbreviation rel := (related sha256 render select d).

(** Two programs that answer alike and keep the worlds related. *)
Definition alike {T} (p : SqlWorld -> T * SqlWorld) (q : SharedStore -> T * SharedStore) : Prop :=
  forall w m, rel w m -> exists w', p w = ((q m).1, w') /\ rel w' (q m).2.

Lemma alike_checked {A T} (v : res A) (k : A -> SqlWorld -> res T * SqlWorld) k' :
  (forall a, v = Ret a -> alike (k a) (k' a)) -> alike (checked v k) (checked v k').
Proof using Type. intros H w m Hr. unfold checked. destruct v as [a|]; [by apply H | by eexists]. Qed.

Lemma alike_ret {T} (x : T) : alike (fun w => (x, w)) (fun m => (x, m)).
Proof using Type. intros w m Hr. by eexists. Qed.

Lemma alike_reading {T} (onfail : T) k : alike (@reading _ sql _ onfail k) (@reading _ memory _ onfail k).
Proof using Type.
  intros w m Hr. unfold reading. destruct (sql_load_related _ _ _ _ same_text w m Hr) as (w1 & -> & Hr1).
  destruct (@load _ memory m) as [[s|] m1]; by eexists.
Qed.

Lemma alike_run {T} (u : UnavailableReason -> T) body :
  (forall s, keeps sha256 d s body) -> alike (@run_op _ sql _ u body) (@run_op _ memory _ u body).
Proof using Hrender Hselect Hsame. intros Hk w m Hr. by apply run_op_related. Qed.

Lemma alike_answering {T} (f : T -> LedgerAnswer) p q :
  alike p q -> alike (fun w => answering f (p w)) (fun m => answering f (q m)).
Proof using Type. intros H w m Hr. destruct (H w m Hr) as (w' & -> & Hr'). by eexists. Qed.

Lemma default_identity (b : bool) fresh kind v x :
  valid_identity fresh -> (if b then Ret fresh else checkIdentity kind v) = Ret x -> valid_identity x.
Proof using Type. intros Hf H. destruct b; [by inv_res |]. by apply checkIdentity_ret in H as [_ H]. Qed.

Lemma reserve_args_shape now correlation id input a :
  valid_identity correlation -> valid_identity id -> reserve_args now correlation id input = Ret a -> admission_shape a.
Proof using Type.
  intros Hc Hi H. unfold reserve_args, meteringProfile in H. inv_res.
  repeat match goal with H : identityValue _ _ = Ret _ |- _ => apply identityValue_name in H end.
  split; cbn; try done; (eapply default_identity; [| eassumption]); done.
Qed.

Lemma keeps_op_at {T} (body : LedgerState -> res (Applied T)) op s :
  (forall s, op_next sha256 op s = written (body s)) -> valid_op op ->
  (forall s' v, Inv sha256 s -> shape d s -> body s = Ret (Write s' v) -> shape d s') -> keeps sha256 d s body.
Proof using Type.
  intros Hop Hv Hs next v Hinv Hsh Hb.
  assert (op_next sha256 op s = Some next) as Hn by (rewrite Hop, Hb; done). split_and!.
  - eapply ledger_step_preserves; [done | by exists op].
  - by eapply Hs.
  - by eapply op_next_version.
Qed.

Lemma keeps_op {T} (body : LedgerState -> res (Applied T)) op :
  (forall s, op_next sha256 op s = written (body s)) -> valid_op op ->
  (forall s s' v, Inv sha256 s -> shape d s -> body s = Ret (Write s' v) -> shape d s') -> forall s, keeps sha256 d s body.
Proof using Type.
  intros Hop Hv Hs s. apply (keeps_op_at body op s Hop Hv). intros s' v. apply Hs.
Qed.

(** A transition after the anchor of its pool's schedule. *)
Lemma transition_alike now pool change nowMs w m : rel w m -> call_ok (sh_state m) (CallTransition now pool change nowMs) ->
  exists w', @transitionPool _ sql now pool change nowMs w = ((@transitionPool _ memory now pool change nowMs m).1, w')
    /\ rel w' (@transitionPool _ memory now pool change nowMs m).2.
Proof using Hrender Hselect Hsame.
  intros Hr Hc. unfold transitionPool, checked. destruct (poolId pool) as [key|] eqn:Hk; [| by eexists].
  destruct (checkClock now nowMs) as [at_|] eqn:Ha; [| by eexists].
  apply (run_op_related sha256 render select d same_text Hrender Hselect Hsame); [| done].
  apply (keeps_op_at _ (OpTransition key change at_)); [done | done |]. intros s' v Hinv Hs.
  apply (transition_shape sha256 d key change at_); [done | done |]. intros current. by apply Hc.
Qed.

Lemma call_alike c w m : rel w m -> call_ok (sh_state m) c ->
  exists w', @answer_call sha256 _ sql c w = ((@answer_call sha256 _ memory c m).1, w') /\ rel w' (@answer_call sha256 _ memory c m).2.
Proof using Hdigest Hrender Hselect Hsame.
  intros Hr Hc. destruct c as [now correlation id input|id|id i o|id|p l per a v|now pool change nowMs|id|t p start].
  6: { destruct (transition_alike now pool change nowMs w m Hr Hc) as (w' & Hw & Hr'). exists w'. cbn [answer_call].
       unfold answering. by rewrite Hw. }
  all: cbn [call_ok] in Hc; revert w m Hr; cbn [answer_call];
    apply alike_answering.
  all: try apply alike_checked.
  - intros a Ha. destruct (is_true (ri_qualified input)); [| apply alike_ret]. cbn [negb].
    apply alike_run. apply (keeps_op _ (OpReserve a)); [done | exact (reserve_args_valid _ _ _ _ _ Ha) |].
    intros s s' v Hinv Hs Hb. eapply reserve_shape; [done | done | | exact Hb].
    destruct Hc as [Hcor Hid]. exact (reserve_args_shape _ _ _ _ _ Hcor Hid Ha).
  - intros key Hkey%checkIdentity_ret. destruct Hkey as [-> _]. apply alike_run.
    apply (keeps_op _ (OpFence key)); [done | done |]. intros s s' v _ Hs Hb. eapply fence_shape; [done | exact Hc | exact Hb].
  - intros key _. destruct (meteringUsage i o) as [u|] eqn:Hu; [| apply alike_ret]. apply alike_run.
    apply (keeps_op _ (OpSettle key u)); [done | exact (meteringUsage_valid _ _ _ Hu) |]. intros s s' v' _ Hs Hb. eapply settle_shape; [done | done | exact Hb].
  - intros key _. apply alike_run.
    apply (keeps_op _ (OpRelease key)); [done | done |]. intros s s' v' _ Hs Hb. eapply release_shape; [done | exact Hb].
  - intros pinned Hp. apply alike_run. apply (keeps_op _ (OpConfigure pinned)); [done | exact (epochSchedule_valid _ _ _ _ _ _ Hp) |].
    intros s s' v' _ Hs Hb. eapply configure_shape; [done | | exact Hb].
    unfold epochSchedule, checkVersion in Hp. inv_res. case_match; inv_res. by subst.
  - intros key _. apply alike_reading.
  - intros t' _. apply alike_checked. intros p' _. apply alike_checked. intros s _. apply alike_reading.
Qed.

Lemma session_alike calls : forall w m, rel w m -> calls_ok sha256 calls m ->
  exists w', @session sha256 _ sql calls w = ((@session sha256 _ memory calls m).1, w') /\ rel w' (@session sha256 _ memory calls m).2.
Proof using Hdigest Hrender Hselect Hsame.
  induction calls as [|c calls IH]; intros w m Hr; cbn [session calls_ok]; [by eexists |]. intros [Hc Hcs].
  destruct (call_alike c w m Hr Hc) as (w1 & -> & Hr1). destruct (@answer_call sha256 _ memory c m) as [a m1]. cbn [fst snd] in *.
  destruct (IH w1 m1 Hr1 Hcs) as (w2 & -> & Hr2). destruct (@session sha256 _ memory calls m1) as [rest m2]. by eexists.
Qed.

(** C5. A session of any public operations but [ledgerHealth] over a freshly created SQL
    ledger whose database compares texts exactly gives, whatever the faults of its
    driver, the answers of the session over the memory ledger under the same faults,
    and the tables then hold exactly the state of the memory ledger.  Two kinds of
    calls are excepted: a transition that does not come after the anchor of its
    pool's current schedule, and a fence of a name that every object inherits; the
    identities a reservation makes are identities. *)
Theorem sql_ledger_refines_memory calls fs :
  let start := {| sh_state := emptyLedgerState; sh_script := quiet <$> fs |} in
  calls_ok sha256 calls start -> Z.of_nat (length fs) <= MAX_SAFE ->
  let '(answers, m) := @session sha256 _ memory calls start in
  exists w, @session sha256 _ sql calls (mkWorld applyLedgerDDL fs) = (answers, w)
    /\ loadSnapshot render select (db w) = Ret (sh_state m).
Proof using Hdigest Hrender Hselect Hsame.
  intros start Hc Hf.
  destruct (session_alike calls _ _ (related_empty sha256 render select d Hrender Hselect fs Hf) Hc) as (w & Hw & Hr). fold start in Hw, Hr.
  destruct (@session sha256 _ memory calls start) as [answers m]. exists w. split; [exact Hw | apply Hr].
Qed.
End sessions.

(** ** What the tables refuse *)

Section refusals.
Context (sha256 : jstr -> jstr) (d : LedgerDialect) (same_text : LedgerDialect -> jstr -> jstr -> bool).

Abbreviation same := (same_key d same_text).

Lemma insert_all_rows {A} t names (values : A -> option (list cell)) items : forall rows rows',
  insert_all d same_text t names values items rows = Some rows' ->
  exists new, rows' = rows ++ new /\ Forall2 (fun a r => exists vs, values a = Some vs /\ r = zip names vs) items new
    /\ (forall i r, new !! i = Some r -> existsb (same t r) (rows ++ take i new) = false).
Proof using Type.
  induction items as [|a items IH]; intros rows rows' H; cbn [insert_all] in H.
  { injection H as <-. exists []. split_and!; [by rewrite app_nil_r | done | done]. }
  destruct (values a) as [vs|] eqn:Hvs; [| discriminate]. unfold insertRow in H.
  destruct (_ && _) eqn:Hok; [| discriminate]. apply andb_true_iff in Hok as [_ Hnew%negb_true_iff].
  destruct (IH _ _ H) as (new & -> & Hall & Hdistinct). exists (zip names vs :: new). split_and!.
  - by rewrite <- app_assoc.
  - constructor; [by exists vs | done].
  - intros [|i] r Hr; cbn in *; [injection Hr as <-; by rewrite app_nil_r |].
    specialize (Hdistinct i r Hr). by rewrite <- app_assoc in Hdistinct.
Qed.

(** Of two items with the same key the later one is refused. *)
Lemma insert_all_clash {A} t names (values : A -> option (list cell)) items i j a b va vb :
  (i < j)%nat -> items !! i = Some a -> items !! j = Some b -> values a = Some va -> values b = Some vb ->
  same t (zip names vb) (zip names va) = true -> insert_all d same_text t names values items [] = None.
Proof using Type.
  intros Hij Ha Hb Hva Hvb Hs. destruct (insert_all _ _ _ _ _ _ _) as [rows|] eqn:H; [| done]. exfalso.
  apply insert_all_rows in H as (new & _ & Hall & Hd).
  destruct (Forall2_lookup_l _ _ _ _ _ Hall Ha) as (ra & Hra & va' & Hva' & ->).
  destruct (Forall2_lookup_l _ _ _ _ _ Hall Hb) as (rb & Hrb & vb' & Hvb' & ->). simplify_eq.
  specialize (Hd j _ Hrb). apply not_true_iff_false in Hd. apply Hd. apply existsb_exists.
  exists (zip names va). split; [| done]. cbn. apply list_elem_of_In, list_elem_of_lookup. exists i.
  by rewrite lookup_take_lt.
Qed.

Lemma concat_order {A} (ls : list (list A)) k l i j a b :
  ls !! k = Some l -> (i < j)%nat -> l !! i = Some a -> l !! j = Some b ->
  exists i' j', (i' < j')%nat /\ concat ls !! i' = Some a /\ concat ls !! j' = Some b.
Proof using Type.
  revert k. induction ls as [|l' ls IH]; intros [|k] Hk Hij Ha Hb; cbn in *; try discriminate.
  - injection Hk as ->. exists i, j. split_and!; [done | by apply lookup_app_l_Some..].
  - destruct (IH k Hk Hij Ha Hb) as (i' & j' & Hij' & Ha' & Hb'). exists (length l' + i')%nat, (length l' + j')%nat.
    assert (forall n, (length l' + n - length l')%nat = n) as Hsub by (intros; lia).
    split_and!; [lia | by rewrite lookup_app_r, Hsub by lia..].
Qed.

Lemma same_anchor_refused t next p vs i j a b :
  (forall s, same_text d s s = true) ->
  schedules next !! p = Some vs -> (i < j)%nat -> vs !! i = Some a -> vs !! j = Some b ->
  sch_pool a = sch_pool b -> sch_anchorMs a = sch_anchorMs b ->
  forall t', rewriteState sha256 d same_text t next <> Rewritten t'.
Proof using Type.
  intros Hrefl Hp Hij Ha Hb Hpool Hanchor t' H. unfold rewriteState in H. destruct (t_version t); [| discriminate].
  destruct (negb _); [discriminate |].
  assert (exists k, (map_to_list (schedules next)).*2 !! k = Some vs) as [k Hk].
  { apply list_elem_of_lookup, map_values_in. by exists p. }
  destruct (concat_order _ k vs i j a b Hk Hij Ha Hb) as (i' & j' & Hij' & Ha' & Hb').
  rewrite (insert_all_clash _ _ _ _ i' j' a b (schedule_values a) (schedule_values b)) in H; [discriminate | done.. |].
  change (same_text d (sch_pool b) (sch_pool a) && ((sch_anchorMs b =? sch_anchorMs a) && true) = true).
  by rewrite Hpool, Hanchor, Hrefl, Z.eqb_refl.
Qed.

(** Advancing a pool at or before the anchor of its current schedule gives two
    versions of one anchor: the transaction is decided and acknowledged by the memory
    ledger, and no SQL ledger can store it. *)
Theorem transition_at_anchor_never_commits key change at_ s next schedule vs current :
  (forall t, same_text d t t = true) ->
  get_member (schedules s) key = Own vs -> last vs = Some current -> valid_schedule current ->
  chg_anchorMs change = JUndefined -> at_ <= sch_anchorMs current ->
  transition_apply key change at_ s = Ret (Write next (Transitioned schedule)) ->
  @commit _ createMemoryLedgerStore s (version s) next = (Committed, next)
  /\ forall t t', rewriteState sha256 d same_text t next <> Rewritten t'.
Proof using Type.
  intros Hrefl Hm Hl Hv Hanchor Hat H. unfold transition_apply in H. rewrite Hm, Hl in H.
  apply res_bind_ret in H as (s' & Ht & H). injection H as <- <-.
  assert (sch_anchorMs s' = sch_anchorMs current /\ sch_pool s' = sch_pool current) as [Ha Hp].
  { unfold transitionSchedule in Ht. rewrite Hanchor in Ht. inv_res.
    match goal with H : inherit_or JUndefined _ _ = Ret _ |- _ => injection H as <- end. split; [| done]. cbn.
    unfold next_boundary. destruct (Z.ltb_spec at_ (sch_anchorMs current)); [done |].
    assert (at_ = sch_anchorMs current) as -> by lia. destruct Hv as [_ _ Hper Hanc].
    by rewrite fsub_exact, Z.sub_diag, Z.mod_0_l by lia. }
  split.
  - cbn. unfold nextVersion. by rewrite !Z.eqb_refl.
  - intros t. apply last_Some in Hl as [vs' ->].
    apply (same_anchor_refused t _ key ((vs' ++ [current]) ++ [s']) (length vs') (S (length vs')) current s'); try done.
    + cbn. by rewrite lookup_insert_eq.
    + lia.
    + rewrite lookup_app_l by (rewrite length_app; cbn; lia). by rewrite list_lookup_middle.
    + apply list_lookup_middle. rewrite length_app. cbn. lia.
Qed.

(** Two invocations whose identities the database compares equal (the default
    collation of MySQL ignores case) cannot both be stored. *)
Theorem equal_collation_never_commits next a b ra rb :
  a <> b -> invocations next !! a = Some (Full ra) -> invocations next !! b = Some (Full rb) ->
  same_text d (inv_id ra) (inv_id rb) = true -> same_text d (inv_id rb) (inv_id ra) = true ->
  forall t t', rewriteState sha256 d same_text t next <> Rewritten t'.
Proof using Type.
  intros Hab Ha Hb Hs1 Hs2 t t' H. unfold rewriteState in H. destruct (t_version t); [| discriminate].
  destruct (negb _); [discriminate |].
  apply elem_of_map_to_list, list_elem_of_lookup in Ha as [i Hi]. apply elem_of_map_to_list, list_elem_of_lookup in Hb as [j Hj].
  assert (i <> j) as Hne by congruence.
  assert ((map_to_list (invocations next)).*2 !! i = Some (Full ra)) as Hi' by by rewrite list_lookup_fmap, Hi.
  assert ((map_to_list (invocations next)).*2 !! j = Some (Full rb)) as Hj' by by rewrite list_lookup_fmap, Hj.
  assert (insert_all d same_text (invocations_table d) invocation_columns entry_values (map_to_list (invocations next)).*2 [] = None) as Hnone.
  { destruct (Nat.lt_total i j) as [Hij | [? | Hij]]; [| done |].
    - eapply (insert_all_clash _ _ _ _ i j); [done.. |].
      change (same_text d (inv_id rb) (inv_id ra) && true = true). by rewrite Hs2.
    - eapply (insert_all_clash _ _ _ _ j i); [done.. |].
      change (same_text d (inv_id ra) (inv_id rb) && true = true). by rewrite Hs1. }
  rewrite Hnone in H. repeat case_match; discriminate.
Qed.
End refusals.

(** ** Instances *)

Definition sample_digest (s : jstr) : jstr := replicate 64 48%N.
Definition sample_input : ReserveInput := {|
  ri_tenant := JStr (js "acme"); ri_pool := JStr (js "gpu"); ri_correlation := JUndefined;
  ri_provider := JStr (js "openai"); ri_model := JStr (js "m1"); ri_version := JStr (js "2026-01");
  ri_upperBound := js_int 40; ri_invocationId := JStr (js "call-1"); ri_qualified := JBool true; ri_nowMs := js_int 1500 |}.
Definition sample_change : ScheduleChange :=
  {| chg_limit := js_int 200; chg_periodMs := JUndefined; chg_anchorMs := JUndefined; chg_version := JStr (js "v2") |}.
Definition sample_calls : list LedgerCall := [
  CallConfigure (JStr (js "gpu")) (js_int 100) (js_int 1000) (js_int 0) (JStr (js "v1"));
  CallReserve 1500 (js "corr-1") (js "fresh-1") sample_input;
  CallSettle (JStr (js "call-1")) (js_int 10) (js_int 60);
  CallReconcile (JStr (js "call-1"));
  CallTransition 0 (JStr (js "gpu")) sample_change (js_int 1600)].
(** The settlement's commit reaches the database and its answer is lost. *)
Definition sample_faults : list Fault := [NoFault; NoFault; NoFault; NoFault; NoFault; RejectAfter; NoFault; NoFault; NoFault].

Definition exact_text (d : LedgerDialect) (s t : jstr) : bool := bool_decide (s = t).

Example sample_session_answers :
  exists r, (@session sample_digest _ (openSqlLedgerStore sample_digest JBigInt id mysql exact_text) sample_calls
     (mkWorld applyLedgerDDL sample_faults)).1 = r
  /\ length r = 5%nat /\ r !! 0%nat = Some (AnswerConfigure (Ret Configured))
  /\ r !! 2%nat = Some (AnswerSettle (Ret (SettleUnavailable AmbiguousCommit)))
  /\ match r !! 3%nat with Some (AnswerReconcile (Ret (Found (Full i)))) => inv_state i = Settled /\ inv_breach i = true | _ => False end
  /\ match r !! 4%nat with Some (AnswerTransition (Ret (Transitioned next))) => sch_anchorMs next = 2000 | _ => False end.
Proof. eexists. split; [vm_compute; reflexivity |]. by vm_compute. Qed.

Lemma sql_ledger_refines_memory_witness :
  let '(answers, m) := @session sample_digest _ (shared_store sample_digest) sample_calls
    {| sh_state := emptyLedgerState; sh_script := quiet <$> sample_faults |} in
  exists w, @session sample_digest _ (openSqlLedgerStore sample_digest JBigInt id mysql exact_text) sample_calls
      (mkWorld applyLedgerDDL sample_faults) = (answers, w)
    /\ loadSnapshot JBigInt id (db w) = Ret (sh_state m).
Proof.
  apply (sql_ledger_refines_memory sample_digest JBigInt id mysql exact_text).
  - intros s. reflexivity.
  - intros z. by right.
  - intros rows. reflexivity.
  - intros s t. reflexivity.
  - cbn [calls_ok call_ok sample_calls]. split_and!; [done | by vm_compute.. | done | done | | done].
    intros key at_ current Hk Ha Hl. vm_compute in Hk, Ha. injection Hk as <-. injection Ha as <-. vm_compute in Hl. injection Hl as <-. done.
  - by vm_compute.
Defined.

Definition sample_pool : EpochSchedule :=
  {| sch_pool := js "gpu"; sch_limit := 100; sch_periodMs := 1000; sch_anchorMs := 5000; sch_version := js "v1" |}.
Definition sample_advance : EpochSchedule :=
  {| sch_pool := js "gpu"; sch_limit := 200; sch_periodMs := 1000; sch_anchorMs := 5000; sch_version := js "v2" |}.
Definition sample_state : LedgerState := set_schedules emptyLedgerState {[ js "gpu" := [sample_pool] ]}.
Definition sample_next : LedgerState :=
  set_schedules sample_state (<[js "gpu" := [sample_pool; sample_advance]]> (schedules sample_state)).

Lemma transition_at_anchor_never_commits_witness :
  @commit _ createMemoryLedgerStore sample_state (version sample_state) sample_next = (Committed, sample_next)
  /\ forall t t', rewriteState sample_digest postgres exact_text t sample_next <> Rewritten t'.
Proof.
  apply (transition_at_anchor_never_commits sample_digest postgres exact_text (js "gpu") sample_change 5000
    sample_state sample_next sample_advance [sample_pool] sample_pool).
  - intros t. by apply bool_decide_eq_true.
  - by vm_compute.
  - reflexivity.
  - split; [reflexivity | split; vm_compute; discriminate..].
  - reflexivity.
  - reflexivity.
  - by vm_compute.
Defined.

(** The comparison of a collation that ignores the case of ASCII letters. *)
Definition ignoring_case (d : LedgerDialect) (s t : jstr) : bool :=
  let lower c := if (65 <=? c)%N && (c <=? 90)%N then (c + 32)%N else c in bool_decide (lower <$> s = lower <$> t).
Definition sample_invocation (name : jstr) : InvocationRecord :=
  held_record name (js "acme") (js "gpu") (js "corr-1")
    {| mp_provider := js "openai"; mp_model := js "m1"; mp_version := js "2026-01" |} 40
    (fresh_row (js "acme") (js "gpu") {| ep_start := 5000; ep_end := 6000 |} sample_pool).
Definition sample_pair : LedgerState :=
  next_state sample_state ∅ (<[js "call-1" := Full (sample_invocation (js "call-1"))]>
    {[ js "CALL-1" := Full (sample_invocation (js "CALL-1")) ]}) ∅.

Lemma equal_collation_never_commits_witness :
  forall t t', rewriteState sample_digest mysql ignoring_case t sample_pair <> Rewritten t'.
Proof.
  apply (equal_collation_never_commits sample_digest mysql ignoring_case sample_pair (js "call-1") (js "CALL-1")
    (sample_invocation (js "call-1")) (sample_invocation (js "CALL-1"))); [discriminate | by vm_compute..].
Defined.
