(* ===== verification/SqlValues.v ===== *)
(** * SQL values and failures

    [src/runtime/platform/sql/]: the projection of parameters and rows
    ([values.ts]), the shape of failures ([errors.ts]), the checks of native
    options ([config.ts]), and the classification of native failures and metadata
    per dialect ([postgres.ts], [sqlite.ts], [mysql.ts]).

    Values of the language are immutable, so a record is the tree of its fields.  A
    [TypeError] is [Throw]; a failure of the operation is a completion. *)
From stdpp Require Import base gmap list strings.
From Stdlib Require Import ZArith Lia SpecFloat.
From S2P Require Import Prelude JsNumber JsString JsValue Completion Numbers Digits.

(** ** Values *)

#[warnings="-register-all"]
Inductive cvalue : Type :=
| CBool (b : bool)
| CInt (z : Z)
| CFloat (x : num)
| CStr (s : jstr)
| CBytes (bytes : list N)
| CRecord (identity : jstr) (fields : list (jstr * cvalue))
| COther.

Definition recordIdentity (v : cvalue) : option jstr :=
  match v with CRecord id _ => Some id | _ => None end.

Definition dataProperty (v : cvalue) (name : jstr) : res cvalue :=
  match v with
  | CRecord _ fields =>
      match find (fun f => bool_decide (f.1 = name)) fields with
      | Some f => Ret f.2
      | None => Throw "expected own data property"
      end
  | _ => Throw "expected non-proxy data object"
  end.

(** What a driver takes and hands back: a bound value, or the cell of a column.  A
    [Date] is its time value, [None] for an invalid one. *)
Inductive cell : Type :=
| NNull
| NUndefined
| NBool (b : bool)
| NBigInt (z : Z)
| NNum (x : num)
| NStr (s : jstr)
| NBytes (bytes : list N)
| NDate (time : option Z)
| NOther.

(** The own columns of a native row, in order. *)
Abbreviation native_row := (list (jstr * cell)).

(** ** Failures *)

Record SQLContracts : Type := mkContracts {
  connectionFailed_id : jstr;
  queryFailed_id : jstr;
  rowMissing : jstr;
  rowCount : jstr;
  schemaMismatch : jstr;
  constraintFailed : jstr;
  rowLimit : jstr;
  unsupportedValue : jstr;
  credentialsMissing : jstr;
  closeFailed : jstr;
  transactionFailed : jstr;
  commitUnknown : jstr
}.

Inductive scalar : Type := s_bool | s_int | s_float | s_str | s_bytes.
Inductive fkind : Type := Plain (kind : scalar) | Option.

#[global] Instance scalar_eq_dec : EqDecision scalar.
Proof. solve_decision. Defined.

Record SQLPlanField : Type := mkPlanField {
  p_name : jstr;
  p_kind : fkind;
  inner : option scalar;
  some_ : option jstr;
  none_ : option jstr
}.

Record SQLPlanSchema : Type := mkPlanSchema { p_root : jstr; p_fields : list SQLPlanField }.

Record SQLPlan : Type := mkPlan {
  params : SQLPlanSchema;
  rows : option SQLPlanSchema;
  plan_some : option jstr;
  plan_none : option jstr
}.

Record SQLValueProfile : Type := mkProfile {
  int01 : bool;
  naive_utc_string : bool;
  canonical_strings : bool
}.

Definition postgresValueProfile : SQLValueProfile := mkProfile false false false.
Definition sqliteValueProfile : SQLValueProfile := mkProfile true false false.
Definition mysqlValueProfile : SQLValueProfile := mkProfile true true true.

Definition MIN_INT64 : Z := - 2 ^ 63.
Definition MAX_INT64 : Z := 2 ^ 63 - 1.
Definition int64 (z : Z) : bool := negb ((z <? MIN_INT64) || (MAX_INT64 <? z)).

(** ** The wall clock of a [Date]

    [getUTCFullYear] and its companions, from the days since 1970. *)
Definition msPerDay : Z := 86400000.

Record civil : Type := mkCivil { year : Z; month : Z; day : Z }.

(** The proleptic Gregorian calendar, counted in years that begin in March. *)
Definition civil_of_days (days : Z) : civil :=
  let z := days + 719468 in
  let era := z / 146097 in
  let doe := z mod 146097 in
  let yoe := (doe - doe / 1460 + doe / 36524 - doe / 146096) / 365 in
  let doy := doe - (365 * yoe + yoe / 4 - yoe / 100) in
  let mp := (5 * doy + 2) / 153 in
  let m := if mp <? 10 then mp + 3 else mp - 9 in
  mkCivil (yoe + era * 400 + (if m <=? 2 then 1 else 0)) m (doy - (153 * mp + 2) / 5 + 1).

(** [String(n).padStart(width, "0")] *)
Definition pad (n width : Z) : jstr :=
  let s := dec_of_Z n in replicate (Z.to_nat width - length s) 48%N ++ s.

Definition naiveUTCString (time : Z) : jstr :=
  let c := civil_of_days (time / msPerDay) in
  let t := time mod msPerDay in
  let base := pad (year c) 4 ++ js "-" ++ pad (month c) 2 ++ js "-" ++ pad (day c) 2 ++ js " "
    ++ pad (t / 3600000) 2 ++ js ":" ++ pad (t / 60000 mod 60) 2 ++ js ":" ++ pad (t / 1000 mod 60) 2 in
  let ms := t mod 1000 in
  if ms =? 0 then base else base ++ js "." ++ pad ms 3.

Example naive_epoch : naiveUTCString 0 = js "1970-01-01 00:00:00".
Proof. reflexivity. Qed.
Example naive_leap : naiveUTCString 1709251199007 = js "2024-02-29 23:59:59.007".
Proof. reflexivity. Qed.
Example naive_before : naiveUTCString (-1) = js "1969-12-31 23:59:59.999".
Proof. reflexivity. Qed.

(** A thrown native value.  [errno] and [constraint] are there when they have the
    type that the classifiers test for. *)
Inductive cause : Type :=
| PostgresError (code : jstr) (errno constraint : option jstr)
| SQLiteError (code : jstr)
| MySQLError (code : jstr) (errno : option Z)
| OtherCause (id : nat).

#[global] Instance cause_eq_dec : EqDecision cause.
Proof. solve_decision. Defined.

(** The classifiers rethrow what is not their driver's. *)
Inductive classified (A : Type) : Type :=
| Classified (c : Completion A)
| Rethrown (c : cause).
Arguments Classified {A} c.
Arguments Rethrown {A} c.

Section failures.
Context (contracts : SQLContracts).

(** [fail(identity, fields)] *)
Definition fail {A} (identity : jstr) (fields : list (string * jsval)) : Completion A :=
  domain (mkDomain identity fields "can:sql").

Definition connectionFailed {A} (phase : jstr) : Completion A :=
  fail (connectionFailed_id contracts) [("phase"%string, JStr phase)].
Definition queryFailed {A} (operation code : jstr) : Completion A :=
  fail (queryFailed_id contracts) [("operation"%string, JStr operation); ("code"%string, JStr code)].
Definition mismatch {A} (path reason : jstr) : Completion A :=
  fail (schemaMismatch contracts) [("path"%string, JStr path); ("reason"%string, JStr reason)].
Definition badValue {A} (path reason : jstr) : Completion A :=
  fail (unsupportedValue contracts) [("path"%string, JStr path); ("reason"%string, JStr reason)].

(** ** Parameters *)

Definition encodeScalar (kind : scalar) (value : cvalue) (path : jstr) : Completion cell :=
  match kind, value with
  | s_bool, CBool b => ok (NBool b)
  | s_int, CInt z => if (z <? MIN_INT64) || (MAX_INT64 <? z) then badValue path (js "int_range") else ok (NBigInt z)
  | s_float, CFloat x => if isFinite x then ok (NNum x) else badValue path (js "nonfinite_float")
  | s_str, CStr s => if is_well_formed s then ok (NStr s) else badValue path (js "unicode_scalar")
  | s_bytes, CBytes bytes => ok (NBytes bytes)
  | _, _ => badValue path (js "type")
  end.

Definition field_path (field : SQLPlanField) : jstr := 47%N :: p_name field.

Definition encodeField (field : SQLPlanField) (value : cvalue) : res (Completion cell) :=
  let path := field_path field in
  match p_kind field with
  | Plain kind => Ret (encodeScalar kind value path)
  | Option =>
      match inner field, some_ field, none_ field with
      | Some kind, Some some_id, Some none_id =>
          if bool_decide (recordIdentity value = Some none_id) then Ret (ok NNull)
          else if negb (bool_decide (recordIdentity value = Some some_id)) then Ret (badValue path (js "option_shape"))
          else
            let! content := dataProperty value (js "value") in
            Ret (encodeScalar kind content (path ++ js "/value"))
      | _, _, _ => Throw "invalid compiler sql schema"
      end
  end.

Fixpoint encode_fields (fields : list SQLPlanField) (values : cvalue) : res (Completion (list cell)) :=
  match fields with
  | [] => Ret (ok [])
  | field :: fields =>
      let! value := dataProperty values (p_name field) in
      let! encoded := encodeField field value in
      match encoded with
      | ok c => let! rest := encode_fields fields values in
                Ret (completion_bind rest (fun cs => ok (c :: cs)))
      | domain f => Ret (domain f)
      | standard f => Ret (standard f)
      end
  end.

Definition encodeParams (plan : SQLPlan) (values : cvalue) : res (Completion (list cell)) :=
  if negb (bool_decide (recordIdentity values = Some (p_root (params plan)))) then Throw "invalid compiler sql parameters"
  else encode_fields (p_fields (params plan)) values.

(** ** Rows *)
Section decode.
Context (profile : SQLValueProfile).

(** [value === n] for a number or a bigint. *)
Definition cell_is (c : cell) (z : Z) : bool :=
  match c with
  | NBigInt n => n =? z
  | NNum x => bool_decide (num_to_Z x = Some z)
  | _ => false
  end.

Definition digit_string (s : jstr) : bool :=
  let digits := (strip_minus s).2 in negb (bool_decide (digits = [])) && all_digits digits.

Definition decodeScalar (kind : scalar) (value : cell) (path : jstr) : Completion cvalue :=
  match kind with
  | s_bool =>
      match value with
      | NBool b => ok (CBool b)
      | _ =>
          if int01 profile && cell_is value 0 then ok (CBool false)
          else if int01 profile && cell_is value 1 then ok (CBool true)
          else mismatch path (js "type")
      end
  | s_int =>
      match value with
      | NBigInt z => if (z <? MIN_INT64) || (MAX_INT64 <? z) then mismatch path (js "int_range") else ok (CInt z)
      | NNum x => match safe_integer x with Some z => ok (CInt z) | None => mismatch path (js "unsafe_integer") end
      | NStr s =>
          if canonical_strings profile && digit_string s then
            let parsed := bigint_of_text s in
            if (parsed <? MIN_INT64) || (MAX_INT64 <? parsed) then mismatch path (js "int_range") else ok (CInt parsed)
          else mismatch path (js "type")
      | _ => mismatch path (js "type")
      end
  | s_float =>
      match value with
      | NNum x => if isFinite x then ok (CFloat x) else mismatch path (js "nonfinite_float")
      | _ => mismatch path (js "type")
      end
  | s_str =>
      match value with
      | NStr s => if is_well_formed s then ok (CStr s) else mismatch path (js "unicode_scalar")
      | NDate time =>
          if naive_utc_string profile then
            match time with None => mismatch path (js "type") | Some t => ok (CStr (naiveUTCString t)) end
          else mismatch path (js "type")
      | _ => mismatch path (js "type")
      end
  | s_bytes => match value with NBytes bytes => ok (CBytes bytes) | _ => mismatch path (js "type") end
  end.

Definition decodeField (field : SQLPlanField) (value : cell) : res (Completion cvalue) :=
  let path := field_path field in
  match value with
  | NNull | NUndefined =>
      match p_kind field, none_ field with
      | Option, Some none_id => Ret (ok (CRecord none_id []))
      | _, _ => Ret (mismatch path (js "null"))
      end
  | _ =>
      match p_kind field with
      | Plain kind => Ret (decodeScalar kind value path)
      | Option =>
          match inner field, some_ field, none_ field with
          | Some kind, Some some_id, Some _ =>
              Ret (completion_bind (decodeScalar kind value (path ++ js "/value"))
                     (fun content => ok (CRecord some_id [(js "value", content)])))
          | _, _, _ => Throw "invalid compiler sql schema"
          end
      end
  end.

Definition column (row : native_row) (name : jstr) : option cell :=
  snd <$> find (fun c => bool_decide (c.1 = name)) row.

Fixpoint decode_fields (fields : list SQLPlanField) (row : native_row) : res (Completion (list (jstr * cvalue))) :=
  match fields with
  | [] => Ret (ok [])
  | field :: fields =>
      match column row (p_name field) with
      | None => Ret (mismatch (field_path field) (js "missing_column"))
      | Some value =>
          let! decoded := decodeField field value in
          match decoded with
          | ok v => let! rest := decode_fields fields row in
                    Ret (completion_bind rest (fun fs => ok ((p_name field, v) :: fs)))
          | domain f => Ret (domain f)
          | standard f => Ret (standard f)
          end
      end
  end.

(** A row is the own columns of an object that is no array, or something else.
    [record] refuses a field name that is given twice. *)
Definition decodeRow (schema : SQLPlanSchema) (row : option native_row) : res (Completion cvalue) :=
  match row with
  | None => Ret (mismatch [] (js "type"))
  | Some row =>
      let columns := row.*1 in
      let names := p_name <$> p_fields schema in
      if negb (bool_decide (length columns = length (p_fields schema))) then
        match find (fun c => negb (bool_decide (c ∈ names))) columns with
        | Some extra => Ret (mismatch (47%N :: extra) (js "extra_column"))
        | None =>
            match find (fun name => negb (bool_decide (name ∈ columns))) names with
            | Some missing => Ret (mismatch (47%N :: missing) (js "missing_column"))
            | None => Ret (mismatch [] (js "type"))
            end
        end
      else
        let! decoded := decode_fields (p_fields schema) row in
        match decoded with
        | ok fields =>
            if bool_decide (NoDup names) then Ret (ok (CRecord (p_root schema) fields))
            else Throw "Cannot redefine property"
        | domain f => Ret (domain f)
        | standard f => Ret (standard f)
        end
  end.
End decode.

(** ** Native options *)

Definition int31 (z : Z) : bool := z <=? 2147483647.

Definition poolMaxConnections (value : cvalue) : res (Completion Z) :=
  match value with
  | CInt z => Ret (if (z <? 1) || negb (int31 z) then connectionFailed (js "config") else ok z)
  | _ => Throw "invalid compiler sql config"
  end.

Inductive sqlite_mode : Type := ro | rw | rwc.
Record SQLiteFileConfig : Type := mkFileConfig { filename : jstr; mode : sqlite_mode; busyTimeoutMs : Z }.

Definition mode_of (v : cvalue) : option sqlite_mode :=
  match v with
  | CStr s =>
      if bool_decide (s = js "ro") then Some ro else if bool_decide (s = js "rw") then Some rw
      else if bool_decide (s = js "rwc") then Some rwc else None
  | _ => None
  end.

Definition sqliteFileConfig (path options : cvalue) : res (Completion SQLiteFileConfig) :=
  match path with
  | CStr path =>
      if bool_decide (path = []) || includes_char path 0 then Ret (connectionFailed (js "config"))
      else
        let! m := dataProperty options (js "mode") in
        match mode_of m with
        | None => Ret (connectionFailed (js "config"))
        | Some m =>
            let! timeout := dataProperty options (js "busy_timeout_ms") in
            match timeout with
            | CInt t =>
                Ret (if (t <? 0) || negb (int31 t) then connectionFailed (js "config") else ok (mkFileConfig path m t))
            | _ => Throw "invalid compiler sql config"
            end
        end
  | _ => Throw "invalid compiler sql path"
  end.

(** ** Native failures and metadata *)

Inductive SQLDialect : Type := postgresql | sqlite | mysql.

#[global] Instance SQLDialect_eq_dec : EqDecision SQLDialect.
Proof. solve_decision. Defined.

Definition isSQLiteFailure (c : cause) : bool := match c with SQLiteError _ => true | _ => false end.

Definition or_unknown (code : jstr) : jstr := if bool_decide (code = []) then js "unknown" else code.

Definition classifyPostgres {A} (operation : jstr) (c : cause) : classified A :=
  match c with
  | PostgresError code errno constraint =>
      if bool_decide (code = js "ERR_POSTGRES_CONNECTION_REFUSED") || bool_decide (code = js "ERR_POSTGRES_CONNECTION_CLOSED")
      then Classified (connectionFailed (js "query"))
      else
        let errno := default [] errno in
        let constraint := default [] constraint in
        if negb (bool_decide (constraint = [])) || (bool_decide (length errno = 5%nat) && starts_with errno (js "23"))
        then Classified (fail (constraintFailed contracts)
               [("constraint"%string, JStr (if bool_decide (constraint = []) then errno else constraint))])
        else Classified (queryFailed operation (if bool_decide (errno = []) then or_unknown code else errno))
  | _ => Rethrown c
  end.

Definition classifySQLite {A} (operation : jstr) (c : cause) : classified A :=
  match c with
  | SQLiteError code =>
      if bool_decide (code = js "ERR_SQLITE_CONNECTION_CLOSED") then Classified (connectionFailed (js "query"))
      else if starts_with code (js "SQLITE_CONSTRAINT")
      then Classified (fail (constraintFailed contracts) [("constraint"%string, JStr code)])
      else Classified (queryFailed operation (or_unknown code))
  | _ => Rethrown c
  end.

Definition mysqlErrNames : list (Z * jstr) :=
  [(1044, js "ER_DBACCESS_DENIED_ERROR"); (1045, js "ER_ACCESS_DENIED_ERROR"); (1062, js "ER_DUP_ENTRY");
   (1064, js "ER_PARSE_ERROR"); (1146, js "ER_NO_SUCH_TABLE"); (1205, js "ER_LOCK_WAIT_TIMEOUT"); (1213, js "ER_LOCK_DEADLOCK")].

Definition classifyMySQL {A} (operation : jstr) (c : cause) : classified A :=
  match c with
  | MySQLError code errno =>
      if bool_decide (code = js "ERR_MYSQL_CONNECTION_REFUSED") || bool_decide (code = js "ERR_MYSQL_CONNECTION_CLOSED")
      then Classified (connectionFailed (js "query"))
      else
        let errno := default 0 errno in
        if (errno =? 1045) || (errno =? 1044) then Classified (connectionFailed (js "auth"))
        else if errno =? 1062 then Classified (fail (constraintFailed contracts) [("constraint"%string, JStr (js "ER_DUP_ENTRY"))])
        else
          match find (fun e => e.1 =? errno) mysqlErrNames with
          | Some e => Classified (queryFailed operation e.2)
          | None =>
              if negb (errno =? 0) then Classified (queryFailed operation (js "mysql_errno_" ++ dec_of_Z errno))
              else Classified (queryFailed operation (or_unknown code))
          end
  | _ => Rethrown c
  end.

(** The count a statement reports, in the property its driver uses. *)
Definition counted (operation : jstr) (count : cell) : Completion Z :=
  match count with
  | NNum x =>
      match safe_integer x with
      | Some z => if z <? 0 then queryFailed operation (js "bad_count") else ok z
      | None => queryFailed operation (js "bad_count")
      end
  | _ => queryFailed operation (js "bad_count")
  end.

Definition sqliteAffectedRows (operation : jstr) (result : cell) (count : cell) : Completion Z :=
  match result with
  | NBigInt z => if z <? 0 then queryFailed operation (js "bad_count") else ok z
  | _ => counted operation count
  end.

(** The one cell of the one row of [SELECT changes()]. *)
Definition sqliteChangesCount (rows : list native_row) : cell :=
  match rows with
  | [row] => default NUndefined (column row (js "affected_rows"))
  | _ => NUndefined
  end.
End failures.

(** ** Typed values *)
Section typed.
Context (contracts : SQLContracts).

Definition typed_scalar (kind : scalar) (v : cvalue) : Prop :=
  match kind, v with
  | s_bool, CBool _ | s_bytes, CBytes _ => True
  | s_int, CInt z => MIN_INT64 <= z <= MAX_INT64
  | s_float, CFloat x => isFinite x = true
  | s_str, CStr s => is_well_formed s = true
  | _, _ => False
  end.

Definition typed_field (field : SQLPlanField) (v : cvalue) : Prop :=
  match p_kind field with
  | Plain kind => typed_scalar kind v
  | Option =>
      exists kind some_id none_id, inner field = Some kind /\ some_ field = Some some_id /\ none_ field = Some none_id
        /\ some_id <> none_id
        /\ (v = CRecord none_id [] \/ exists x, v = CRecord some_id [(js "value", x)] /\ typed_scalar kind x)
  end.

(** A record of exactly the fields of a schema. *)
Definition typed_record (schema : SQLPlanSchema) (fields : list (jstr * cvalue)) : Prop :=
  NoDup (p_name <$> p_fields schema)
  /\ Forall2 (fun field f => f.1 = p_name field /\ typed_field field f.2) (p_fields schema) fields.

(** What a driver hands back for a value it was given. *)
Inductive echo (profile : SQLValueProfile) : cell -> cell -> Prop :=
| echo_same (c : cell) : echo profile c c
| echo_undefined : echo profile NNull NUndefined
| echo_bool (b : bool) (c : cell) : int01 profile = true -> cell_is c (if b then 1 else 0) = true -> echo profile (NBool b) c
| echo_number z x : safe_integer x = Some z -> echo profile (NBigInt z) (NNum x)
| echo_text z s : canonical_strings profile = true -> digit_string s = true -> bigint_of_text s = z ->
    echo profile (NBigInt z) (NStr s).

Lemma encodeScalar_typed kind v path c :
  encodeScalar contracts kind v path = ok c <-> typed_scalar kind v /\ c = match v with
    | CBool b => NBool b | CInt z => NBigInt z | CFloat x => NNum x | CStr s => NStr s | CBytes bs => NBytes bs | _ => NNull end.
Proof.
  destruct kind, v; cbn; try (split; [done | by intros []]); try (split; [by intros [= <-] | by intros [_ ->]]).
  - destruct (Z.ltb_spec z MIN_INT64), (Z.ltb_spec MAX_INT64 z); cbn; (split; [first [done | intros [= <-]; split; [lia | done]] | ]);
      intros [? ->]; first [done | lia].
  - destruct (isFinite x); split; [by intros [= <-] | by intros [_ ->] | done | by intros []].
  - destruct (is_well_formed s); split; [by intros [= <-] | by intros [_ ->] | done | by intros []].
Qed.

Lemma encodeScalar_fails kind v path : ~ typed_scalar kind v -> exists f, encodeScalar contracts kind v path = domain f.
Proof.
  intros H. destruct kind, v; cbn in *; try (by destruct H); try (eexists; reflexivity).
  - destruct (Z.ltb_spec z MIN_INT64), (Z.ltb_spec MAX_INT64 z); cbn; first [exfalso; lia | eexists; reflexivity].
  - destruct (isFinite x); [by destruct H | eexists; reflexivity].
  - destruct (is_well_formed s); [by destruct H | eexists; reflexivity].
Qed.

Lemma decodeScalar_echo profile kind v path bound back :
  encodeScalar contracts kind v path = ok bound -> echo profile bound back -> bound <> NNull ->
  forall path', decodeScalar contracts profile kind back path' = ok v.
Proof.
  intros [Ht ->]%encodeScalar_typed Hecho Hn path'. destruct kind, v; cbn in Ht; try done; inversion Hecho; subst; cbn [decodeScalar].
  - done.
  - destruct back as [| |x|z|x| | | |]; try done; cbn [cell_is] in *.
    + match goal with H : int01 profile = true |- _ => rewrite H end. destruct b; cbn [andb].
      * match goal with H : (z =? 1) = true |- _ => apply Z.eqb_eq in H as -> end. done.
      * match goal with H : (z =? 0) = true |- _ => rewrite H end. done.
    + match goal with H : int01 profile = true |- _ => rewrite H end. destruct b; cbn [andb].
      * match goal with H : bool_decide (num_to_Z x = Some 1) = true |- _ => pose proof H as H1; apply bool_decide_eq_true in H1; rewrite H end.
        rewrite bool_decide_false by congruence. done.
      * match goal with H : bool_decide (num_to_Z x = Some 0) = true |- _ => rewrite H end. done.
  - destruct (Z.ltb_spec z MIN_INT64); [lia |]. destruct (Z.ltb_spec MAX_INT64 z); [lia | done].
  - match goal with H : safe_integer x = Some z |- _ => by rewrite H end.
  - match goal with H : canonical_strings profile = true, H' : digit_string s = true |- _ => rewrite H, H' end. cbn [andb].
    destruct (Z.ltb_spec (bigint_of_text s) MIN_INT64); [lia |]. destruct (Z.ltb_spec MAX_INT64 (bigint_of_text s)); [lia | done].
  - by rewrite Ht.
  - by rewrite Ht.
  - done.
Qed.

Lemma echo_not_null profile c back :
  echo profile c back -> c <> NNull -> c <> NUndefined -> back <> NNull /\ back <> NUndefined.
Proof. intros H Hn Hu. inversion H; subst; try done. destruct back; done. Qed.

Lemma decodeField_plain profile field kind back v :
  p_kind field = Plain kind -> back <> NNull -> back <> NUndefined ->
  decodeScalar contracts profile kind back (field_path field) = ok v -> decodeField contracts profile field back = Ret (ok v).
Proof. intros Hk Hn Hu H. unfold decodeField. rewrite Hk, H. by destruct back. Qed.

Lemma decodeField_some profile field kind some_id none_id back x :
  p_kind field = Option -> inner field = Some kind -> some_ field = Some some_id -> none_ field = Some none_id ->
  back <> NNull -> back <> NUndefined -> decodeScalar contracts profile kind back (field_path field ++ js "/value") = ok x ->
  decodeField contracts profile field back = Ret (ok (CRecord some_id [(js "value", x)])).
Proof. intros Hk Hi Hs Hno Hn Hu H. unfold decodeField. rewrite Hk, Hi, Hs, Hno, H. by destruct back. Qed.

Lemma encodeField_typed field v :
  typed_field field v ->
  exists c, encodeField contracts field v = Ret (ok c)
    /\ forall profile back, echo profile c back -> decodeField contracts profile field back = Ret (ok v).
Proof.
  unfold typed_field, encodeField. destruct (p_kind field) as [kind|] eqn:Hk.
  - intros Ht. set (c := match v with CBool b => NBool b | CInt z => NBigInt z | CFloat x => NNum x | CStr s => NStr s
      | CBytes bs => NBytes bs | _ => NNull end).
    assert (c <> NNull /\ c <> NUndefined) as [Hn Hu] by (by destruct kind, v).
    assert (encodeScalar contracts kind v (field_path field) = ok c) as Hc by by apply encodeScalar_typed.
    exists c. split; [by rewrite Hc |]. intros profile back He. destruct (echo_not_null _ _ _ He Hn Hu).
    eapply decodeField_plain; [done.. |]. by eapply decodeScalar_echo.
  - intros (kind & some_id & none_id & Hi & Hs & Hno & Hne & [->|(x & -> & Ht)]); rewrite Hi, Hs, Hno; cbn [recordIdentity].
    + rewrite bool_decide_true by done. exists NNull. split; [done |]. intros profile back He. unfold decodeField.
      inversion He; subst; by rewrite Hk, Hno.
    + rewrite bool_decide_false by congruence. rewrite bool_decide_true by done. cbn [negb dataProperty find fst].
      rewrite bool_decide_true by done. cbn [res_bind snd].
      set (c := match x with CBool b => NBool b | CInt z => NBigInt z | CFloat x => NNum x | CStr s => NStr s
        | CBytes bs => NBytes bs | _ => NNull end).
      assert (c <> NNull /\ c <> NUndefined) as [Hn Hu] by (by destruct kind, x).
      assert (encodeScalar contracts kind x (field_path field ++ js "/value") = ok c) as Hc by by apply encodeScalar_typed.
      exists c. split; [by rewrite Hc |]. intros profile back He. destruct (echo_not_null _ _ _ He Hn Hu).
      eapply decodeField_some; [done.. |]. by eapply decodeScalar_echo.
Qed.

Lemma find_key {A} (l : list (jstr * A)) k x :
  NoDup l.*1 -> (k, x) ∈ l -> find (fun p => bool_decide (p.1 = k)) l = Some (k, x).
Proof.
  induction l as [|[k' y] l IH]; intros Hnd Hin; [by apply elem_of_nil in Hin |]. rewrite fmap_cons, NoDup_cons in Hnd. cbn.
  apply elem_of_cons in Hin as [[= -> ->]|Hin]; [by rewrite bool_decide_true |].
  rewrite bool_decide_false; [by apply (IH (proj2 Hnd)) |]. intros ->. apply (proj1 Hnd), list_elem_of_fmap. by exists (k, x).
Qed.

Lemma encode_fields_typed v fs fields :
  Forall2 (fun field f => f.1 = p_name field /\ typed_field field f.2) fs fields ->
  (forall k x, (k, x) ∈ fields -> dataProperty v k = Ret x) ->
  exists cs, encode_fields contracts fs v = Ret (ok cs)
    /\ Forall2 (fun (ff : SQLPlanField * (jstr * cvalue)) c => forall profile back, echo profile c back ->
         decodeField contracts profile ff.1 back = Ret (ok ff.2.2)) (zip fs fields) cs.
Proof.
  induction 1 as [|field [k x] fs fields [Hk Ht] _ IH]; intros Hread; [by exists [] |]. cbn [fst snd] in *. subst k.
  cbn [encode_fields]. rewrite (Hread (p_name field) x) by by left. cbn [res_bind].
  destruct (encodeField_typed field x Ht) as (c & -> & Hback). cbn [res_bind].
  destruct IH as (cs & -> & Hcs); [intros k y Hy; apply Hread; by right |]. cbn [res_bind completion_bind].
  exists (c :: cs). split; [done |]. cbn [zip zip_with]. constructor; [exact Hback | exact Hcs].
Qed.

Lemma decode_fields_typed profile row fs fields cs backs :
  Forall2 (fun field f => f.1 = p_name field /\ typed_field field f.2) fs fields ->
  Forall2 (fun (ff : SQLPlanField * (jstr * cvalue)) c => forall profile back, echo profile c back ->
    decodeField contracts profile ff.1 back = Ret (ok ff.2.2)) (zip fs fields) cs ->
  Forall2 (echo profile) cs backs ->
  (forall name back, (name, back) ∈ zip (p_name <$> fs) backs -> column row name = Some back) ->
  decode_fields contracts profile fs row = Ret (ok fields).
Proof.
  intros Hf. revert cs backs. induction Hf as [|field [k x] fs fields [Hk Ht] _ IH]; intros cs backs Hcs Hback Hcol; [done |].
  cbn [fst snd zip zip_with] in *. subst k. apply Forall2_cons_inv_l in Hcs as (c & cs' & Hc & Hcs & ->).
  apply Forall2_cons_inv_l in Hback as (back & backs' & He & Hback & ->). cbn [decode_fields].
  rewrite (Hcol (p_name field) back) by by left. pose proof (Hc profile back He) as Hd. cbn [fst snd] in Hd.
  rewrite Hd. cbn [res_bind].
  rewrite (IH cs' backs'); [done | done | done |]. intros name y Hy. apply Hcol. by right.
Qed.
End typed.

(** C32. A record of the parameters' schema is always accepted, and when the driver
    hands its values back in a row of the same fields, in any representation the
    dialect may choose, the row decodes to the same fields: booleans that return
    as integers, integers that return as numbers or digit strings, and options
    through null. *)
Theorem sql_values_roundtrip contracts profile plan root fields :
  typed_record (params plan) fields ->
  exists bound, encodeParams contracts plan (CRecord (p_root (params plan)) fields) = Ret (ok bound)
    /\ length bound = length fields
    /\ forall backs, Forall2 (echo profile) bound backs ->
       decodeRow contracts profile (mkPlanSchema root (p_fields (params plan))) (Some (zip fields.*1 backs))
       = Ret (ok (CRecord root fields)).
Proof.
  intros [Hnd Hf]. assert (fields.*1 = p_name <$> p_fields (params plan)) as Hnames.
  { clear Hnd. induction Hf as [|field f fs fields [Hk _] _ IH]; [done |]. by rewrite !fmap_cons, IH, Hk. }
  destruct (encode_fields_typed contracts (CRecord (p_root (params plan)) fields) (p_fields (params plan)) fields Hf)
    as (bound & Hbound & Hback).
  { intros k x Hin. cbn [dataProperty]. rewrite (find_key _ k x); [done | by rewrite Hnames | done]. }
  assert (length bound = length fields) as Hlen.
  { rewrite <- (Forall2_length _ _ _ Hback), length_zip_with, (Forall2_length _ _ _ Hf). lia. }
  exists bound. split_and!; [| done |].
  - unfold encodeParams. cbn [recordIdentity]. by rewrite bool_decide_true.
  - intros backs He. pose proof (Forall2_length _ _ _ He) as Hlb.
    assert (length (fields.*1) <= length backs)%nat as Hle by (rewrite length_fmap; lia).
    assert ((zip fields.*1 backs).*1 = fields.*1) as Hcols.
    { change ((zip fields.*1 backs).*1) with (fst <$> zip fields.*1 backs). by rewrite fst_zip. }
    unfold decodeRow. rewrite Hcols. cbn [p_fields p_root]. rewrite length_fmap, (Forall2_length _ _ _ Hf).
    rewrite bool_decide_true by done. cbn [negb].
    rewrite (decode_fields_typed contracts profile (zip fields.*1 backs) _ fields bound backs); [| done..|].
    + cbn [res_bind]. by rewrite bool_decide_true.
    + intros name back Hin. unfold column. rewrite Hnames in *. rewrite (find_key _ name back); [done | | done].
      by rewrite Hcols.
Qed.

(** ** Decoded rows *)

Lemma plain_well_formed s : Forall (fun c => (c < 0xD800)%N) s -> is_well_formed s = true.
Proof.
  induction 1 as [|c s Hc _ IH]; [done |]. cbn. unfold is_high_surrogate, is_low_surrogate.
  destruct (N.leb_spec 0xD800 c); [lia |]. destruct (N.leb_spec 0xDC00 c); [lia |]. done.
Qed.

Lemma pad_plain n w : Forall (fun c => (c < 0xD800)%N) (pad n w).
Proof.
  assert (forall m, Forall (fun c => (c < 0xD800)%N) (dec_of_N m)) as Hd.
  { intros m. apply Forall_forall. intros c Hc. pose proof (text_all_digits m) as H. unfold all_digits in H.
    rewrite forallb_forall in H. specialize (H c (proj1 (list_elem_of_In _ _) Hc)). unfold is_digit in H. rewrite andb_true_iff, !N.leb_le in H. lia. }
  unfold pad. apply Forall_app. split; [by apply Forall_replicate |].
  unfold dec_of_Z. destruct (n <? 0); [constructor; [done | apply Hd] | apply Hd].
Qed.

Lemma naive_well_formed t : is_well_formed (naiveUTCString t) = true.
Proof.
  apply plain_well_formed. unfold naiveUTCString. destruct (_ =? 0); rewrite ?Forall_app; split_and!;
    first [apply pad_plain | by repeat constructor].
Qed.

Section rows.
Context (contracts : SQLContracts) (profile : SQLValueProfile).

(** What the compiler emits for a field. *)
Definition field_schema_ok (field : SQLPlanField) : bool :=
  match p_kind field with
  | Plain _ => true
  | Option =>
      match inner field, some_ field, none_ field with
      | Some _, Some some_id, Some none_id => negb (bool_decide (some_id = none_id))
      | _, _, _ => false
      end
  end.

Lemma decodeScalar_typed kind c path v : decodeScalar contracts profile kind c path = ok v -> typed_scalar kind v.
Proof.
  destruct kind; cbn.
  - destruct c; try (by intros [= <-]); repeat case_match; by intros [= <-].
  - destruct c as [| | |z|x|s| | |]; try done.
    + destruct (Z.ltb_spec z MIN_INT64), (Z.ltb_spec MAX_INT64 z); cbn; try done. intros [= <-]. lia.
    + destruct (safe_integer x) as [z|] eqn:Hx; [| done]. intros [= <-]. unfold safe_integer in Hx.
      destruct (num_to_Z x); [| done]. destruct (is_safe z0) eqn:Hs; [| done]. injection Hx as ->. apply is_safe_spec in Hs.
      unfold MAX_SAFE, MIN_INT64, MAX_INT64 in *. lia.
    + destruct (_ && _); [| done]. set (z := bigint_of_text s).
      destruct (Z.ltb_spec z MIN_INT64), (Z.ltb_spec MAX_INT64 z); cbn; try done. intros [= <-]. lia.
  - destruct c as [| | | |x| | | |]; try done. destruct (isFinite x) eqn:Hx; [| done]. by intros [= <-].
  - destruct c as [| | | | |s| |[t|]|]; try done; [| | by destruct (naive_utc_string profile)].
    + destruct (is_well_formed s) eqn:Hs; [| done]. by intros [= <-].
    + destruct (naive_utc_string profile); [| done]. intros [= <-]. apply naive_well_formed.
  - destruct c; try done. by intros [= <-].
Qed.

Lemma decodeField_typed field c v :
  field_schema_ok field = true -> decodeField contracts profile field c = Ret (ok v) -> typed_field field v.
Proof.
  unfold field_schema_ok, typed_field. intros Hok H.
  assert ((c = NNull \/ c = NUndefined) \/ decodeField contracts profile field c =
    match p_kind field with
    | Plain kind => Ret (decodeScalar contracts profile kind c (field_path field))
    | Option =>
        match inner field, some_ field, none_ field with
        | Some kind, Some some_id, Some _ =>
            Ret (completion_bind (decodeScalar contracts profile kind c (field_path field ++ js "/value"))
                   (fun content => ok (CRecord some_id [(js "value", content)])))
        | _, _, _ => Throw "invalid compiler sql schema"
        end
    end) as [Hnull|Heq] by (destruct c; auto).
  - assert (match p_kind field, none_ field with
      | Option, Some none_id => Ret (ok (CRecord none_id [])) | _, _ => Ret (mismatch contracts (field_path field) (js "null")) end = Ret (ok v)) as H'
      by by destruct Hnull as [-> | ->].
    destruct (p_kind field); [done |]. destruct (inner field) as [kind|]; [| done].
    destruct (some_ field) as [some_id|]; [| done]. destruct (none_ field) as [none_id|]; [| done]. injection H' as <-.
    apply negb_true_iff, bool_decide_eq_false in Hok. exists kind, some_id, none_id. split_and!; try done. by left.
  - rewrite Heq in H. destruct (p_kind field) as [kind|].
    + injection H as H. by eapply decodeScalar_typed.
    + destruct (inner field) as [kind|]; [| done]. destruct (some_ field) as [some_id|]; [| done].
      destruct (none_ field) as [none_id|]; [| done]. apply negb_true_iff, bool_decide_eq_false in Hok. injection H as H.
      destruct (decodeScalar contracts profile kind c _) as [x| |] eqn:Hx; [| done | done]. injection H as <-.
      exists kind, some_id, none_id. split_and!; try done. right. exists x. split; [done | by eapply decodeScalar_typed].
Qed.

Lemma decode_fields_sound row fs : forall fields,
  forallb field_schema_ok fs = true -> decode_fields contracts profile fs row = Ret (ok fields) ->
  Forall2 (fun field f => f.1 = p_name field /\ typed_field field f.2) fs fields /\ Forall (fun field => p_name field ∈ row.*1) fs.
Proof.
  induction fs as [|field fs IH]; intros fields Hok; cbn [decode_fields]; [by intros [= <-] |].
  cbn [forallb] in Hok. apply andb_true_iff in Hok as [Hf Hok].
  destruct (column row (p_name field)) as [c|] eqn:Hc; [| done].
  intros (decoded & Hd & H)%res_bind_ret. destruct decoded as [v| |]; [| done | done].
  apply res_bind_ret in H as (rest & Hrest & H). destruct rest as [fs'| |]; [| done | done]. injection H as <-.
  destruct (IH fs' Hok Hrest) as [H1 H2]. split; constructor; try done.
  - cbn. split; [done |]. by eapply decodeField_typed.
  - unfold column in Hc. apply fmap_Some in Hc as (p & Hp & _). apply find_some in Hp as [Hin Hp].
    apply bool_decide_eq_true in Hp as <-. apply list_elem_of_fmap_2. by apply list_elem_of_In.
Qed.
End rows.

(** A row is accepted only when its columns are exactly the fields of the schema,
    in any order, and then every field has the type of the schema: integers of 64
    bits, finite floats, texts without lone surrogates, options that are one of
    their two leaves.  The decoder itself throws on no row. *)
Theorem sql_rows_are_typed contracts profile schema row :
  NoDup (p_name <$> p_fields schema) -> forallb field_schema_ok (p_fields schema) = true -> NoDup row.*1 ->
  exists c, decodeRow contracts profile schema (Some row) = Ret c
    /\ forall v, c = ok v -> row.*1 ≡ₚ p_name <$> p_fields schema
       /\ exists fields, v = CRecord (p_root schema) fields /\ typed_record schema fields.
Proof.
  intros Hnd Hok Hrow. unfold decodeRow.
  case_bool_decide as Hlen; cbn [negb]; [| repeat case_match; eexists; (split; [reflexivity |]); intros v [=]].
  assert (exists d, decode_fields contracts profile (p_fields schema) row = Ret d) as [d Hd].
  { clear Hlen Hnd. induction (p_fields schema) as [|field fs IH]; [by eexists |]. cbn [forallb decode_fields] in *.
    apply andb_true_iff in Hok as [Hf Hok]. destruct (column row (p_name field)) as [c|]; [| by eexists].
    assert (exists d, decodeField contracts profile field c = Ret d) as [d ->].
    { unfold decodeField, field_schema_ok in *. destruct c; destruct (p_kind field); try (by eexists);
        destruct (inner field), (some_ field), (none_ field); first [done | by eexists]. }
    destruct (IH Hok) as [rest ->]. cbn [res_bind]. destruct d; by eexists. }
  rewrite Hd. cbn [res_bind]. destruct d as [fields|f|f]; [| by eexists..].
  rewrite bool_decide_true by done. eexists. split; [reflexivity |]. intros v [= <-].
  destruct (decode_fields_sound contracts profile row _ fields Hok Hd) as [Hf Hin]. split; [| by exists fields].
  symmetry. apply submseteq_length_Permutation; [| by rewrite !length_fmap in *; rewrite Hlen].
  apply NoDup_submseteq; [done |]. intros k (field & -> & Hk)%list_elem_of_fmap. rewrite Forall_forall in Hin. by apply Hin.
Qed.

(** ** Examples *)

Definition demo_schema : SQLPlanSchema :=
  mkPlanSchema (js "Params")
    [mkPlanField (js "id") (Plain s_int) None None None; mkPlanField (js "on") (Plain s_bool) None None None;
     mkPlanField (js "note") Option (Some s_str) (Some (js "Some")) (Some (js "None"))].
Definition demo_fields : list (jstr * cvalue) :=
  [(js "id", CInt MAX_INT64); (js "on", CBool true); (js "note", CRecord (js "Some") [(js "value", CStr (js "x"))])].
Definition no_contracts : SQLContracts := mkContracts [] [] [] [] [] [] [] [] [] [] [] [].

Lemma demo_typed : typed_record demo_schema demo_fields.
Proof.
  split; [by apply (bool_decide_unpack _); vm_compute |]. unfold demo_schema, demo_fields. cbn [p_fields].
  constructor; [split; [done | by vm_compute] |]. constructor; [by split |]. constructor; [| constructor].
  split; [done |]. exists s_str, (js "Some"), (js "None"). split_and!; try done. right. by exists (CStr (js "x")).
Qed.

(** A signed 64-bit integer, a boolean and a text go through MySQL, which hands the
    integer back as its digits and the boolean as a number. *)
Lemma sql_values_roundtrip_witness :
  exists bound, encodeParams no_contracts (mkPlan demo_schema None None None) (CRecord (js "Params") demo_fields) = Ret (ok bound)
    /\ decodeRow no_contracts mysqlValueProfile (mkPlanSchema (js "Row") (p_fields demo_schema))
         (Some [(js "id", NStr (js "9223372036854775807")); (js "on", NNum (num_of_Z 1)); (js "note", NStr (js "x"))])
       = Ret (ok (CRecord (js "Row") demo_fields)).
Proof.
  destruct (sql_values_roundtrip no_contracts mysqlValueProfile (mkPlan demo_schema None None None) (js "Row") demo_fields demo_typed)
    as (bound & Hbound & _ & Hback).
  exists bound. split; [exact Hbound |]. apply (Hback [NStr (js "9223372036854775807"); NNum (num_of_Z 1); NStr (js "x")]).
  assert (bound = [NBigInt MAX_INT64; NBool true; NStr (js "x")]) as ->.
  { assert (encodeParams no_contracts (mkPlan demo_schema None None None) (CRecord (js "Params") demo_fields)
      = Ret (ok [NBigInt MAX_INT64; NBool true; NStr (js "x")])) as H by (vm_compute; reflexivity).
    cbn [p_root params demo_schema] in Hbound. congruence. }
  constructor; [apply echo_text; vm_compute; reflexivity |]. constructor; [apply echo_bool; vm_compute; reflexivity |].
  constructor; [apply echo_same | constructor].
Defined.

Lemma sql_rows_are_typed_witness :
  exists c, decodeRow no_contracts postgresValueProfile demo_schema
      (Some [(js "on", NBool false); (js "note", NNull); (js "id", NBigInt 5)]) = Ret c
    /\ forall v, c = ok v -> [js "on"; js "note"; js "id"] ≡ₚ p_name <$> p_fields demo_schema
       /\ exists fields, v = CRecord (js "Params") fields /\ typed_record demo_schema fields.
Proof.
  apply (sql_rows_are_typed no_contracts postgresValueProfile demo_schema [(js "on", NBool false); (js "note", NNull); (js "id", NBigInt 5)]);
    [by apply (bool_decide_unpack _); vm_compute | vm_compute; reflexivity | by apply (bool_decide_unpack _); vm_compute].
Defined.
