(* ===== verification/SqlQueries.v ===== *)
(** * SQL queries, pools and transactions

    [src/runtime/platform/sql/]: descriptors and their templates ([descriptor.ts]),
    the query operations shared by pools and transactions, the opening and closing
    of pools and the queue of SQLite mutations ([pool.ts], with the openers of
    [postgres.ts], [mysql.ts] and [sqlite.ts]), and scoped transactions
    ([transaction.ts]).  The native client is an argument.  A [TypeError] for what
    only a broken compiler could pass is [Throw]; what an adapter throws for its
    caller's boundary to catch is the completion that the boundary makes of it. *)
From stdpp Require Import base gmap list strings.
From Stdlib Require Import ZArith Lia SpecFloat.
From S2P Require Import Prelude JsNumber JsString JsValue Completion Numbers Digits SqlValues.

(** ** Descriptors *)

Inductive cardinality : Type := c_one | c_optional | c_many | c_execute.

#[global] Instance cardinality_eq_dec : EqDecision cardinality.
Proof. solve_decision. Defined.

Record SQLSegment : Type := mkSegment { s_text : option jstr; s_param : option Z }.

Record SQLDescriptorEntry : Type := mkEntry {
  e_dialect : SQLDialect;
  e_cardinality : cardinality;
  e_kind : jstr;
  e_segments : list SQLSegment;
  e_params : list jstr;
  e_paramType : jstr;
  e_rowType : jstr;
  e_limit : Z;
  e_total : Z;
  e_version : Z
}.

(** [d_ref] is the identity of the frozen object. *)
Record SQLDescriptor : Type := mkDescriptor {
  d_ref : nat;
  d_owner : jstr;
  d_name : jstr;
  d_entry : SQLDescriptorEntry;
  strings : list jstr;
  numbers : list Z
}.

Definition parserVersion (d : SQLDialect) : Z :=
  match d with postgresql => 170007 | sqlite => 102 | mysql => 80011 end.

(** [`${owner.length}:${owner}${name}`] *)
Definition descriptor_key (owner name : jstr) : jstr := dec_of_N (N.of_nat (length owner)) ++ 58%N :: owner ++ name.

Definition returningOne (e : SQLDescriptorEntry) : bool :=
  (e_limit e =? 0) && bool_decide (e_cardinality e = c_one)
  && (bool_decide (e_kind e = js "InsertStmt") || bool_decide (e_kind e = js "insert_statement")).

(** The literals before and after each site, and the sites' numbers. *)
Fixpoint split_segments (total : Z) (segments : list SQLSegment) (literal : jstr) : res (list jstr * list Z) :=
  match segments with
  | [] => Ret ([literal], [])
  | segment :: rest =>
      match s_text segment, s_param segment with
      | Some text, None => split_segments total rest (literal ++ text)
      | None, Some n =>
          if (1 <=? n) && (n <=? total) then
            let! (literals, ns) := split_segments total rest [] in Ret (literal :: literals, n :: ns)
          else Throw "invalid sql segment"
      | _, _ => Throw "invalid sql segment"
      end
  end.

Definition make_descriptor (ref : nat) (owner name : jstr) (e : SQLDescriptorEntry) : res SQLDescriptor :=
  if bool_decide (name = []) then Throw "invalid sql descriptor name"
  else if bool_decide (e_kind e = []) then Throw "invalid sql statement kind"
  else if bool_decide (e_segments e = []) then Throw "invalid sql segments"
  else if negb (forallb (fun p => negb (bool_decide (p = []))) (e_params e)) then Throw "invalid sql params"
  else if bool_decide (e_paramType e = []) || bool_decide (e_rowType e = []) then Throw "invalid sql identities"
  else if (e_total e <? 0) || (e_limit e <? 0) || (e_total e <? e_limit e) then Throw "invalid sql parameter count"
  else if negb (Bool.eqb (bool_decide (e_cardinality e = c_execute)) (e_limit e =? 0)) && negb (returningOne e)
  then Throw "invalid sql limit"
  else if negb (Z.of_nat (length (e_params e)) =? e_total e - (if e_limit e =? 0 then 0 else 1))
  then Throw "invalid sql parameter names"
  else if negb (e_version e =? parserVersion (e_dialect e)) then Throw "sql parser version mismatch"
  else
    let! (literals, ns) := split_segments (e_total e) (e_segments e) [] in
    if negb (bool_decide (length literals = S (length ns))) then Throw "invalid sql segments"
    else Ret (mkDescriptor ref owner name e literals ns).

(** The table's entries in order, by owner and name. *)
Fixpoint declare_all (entries : list (jstr * jstr * SQLDescriptorEntry)) (ref : nat) (m : gmap jstr SQLDescriptor)
    : res (gmap jstr SQLDescriptor) :=
  match entries with
  | [] => Ret m
  | (owner, name, e) :: rest =>
      let! d := make_descriptor ref owner name e in
      declare_all rest (S ref) (<[descriptor_key owner name := d]> m)
  end.

Definition createSQLDescriptors (entries : list (jstr * jstr * SQLDescriptorEntry)) : res (gmap jstr SQLDescriptor) :=
  declare_all entries 0 ∅.

Definition declareDescriptor (m : gmap jstr SQLDescriptor) (owner name : jstr) : res SQLDescriptor :=
  match m !! descriptor_key owner name with Some d => Ret d | None => Throw "undeclared sql descriptor" end.

(** The strings and the value of every site. *)
Definition SQLTemplate : Type := list jstr * list cell.

Definition template (m : gmap jstr SQLDescriptor) (d : SQLDescriptor) (values : list cell) : res SQLTemplate :=
  match m !! descriptor_key (d_owner d) (d_name d) with
  | Some d' =>
      if negb (bool_decide (d_ref d' = d_ref d)) then Throw "forged sql descriptor"
      else if negb (Z.of_nat (length values) =? e_total (d_entry d)) then Throw "sql descriptor arity"
      else Ret (strings d, (fun n => default NUndefined (values !! Z.to_nat (n - 1))) <$> numbers d)
  | None => Throw "forged sql descriptor"
  end.

(** ** Statements *)

(** What a tagged call of the client settles with: the rows of an array, the
    count and [affectedRows] properties of whatever it is, or a rejection. *)
Inductive statement_result : Type :=
| Result (rows : option (list (option native_row))) (count affectedRows : cell)
| Rejected (c : cause).

(** How the race of the boundary ends: the operation settles first, or the bound
    expires, before the operation starts or while it runs. *)
Inductive race : Type := Settles | Expired (started : bool).

(** What a call meets; [denied] is the violation of an assertion that admits no
    live boundary. *)
Record Call : Type := mkCall {
  denied : option StandardFailure;
  pool_dialect : option SQLDialect;
  available : bool;
  raced : race
}.

(** [resourceStateFailure(undefined, origin)] *)
Definition unavailable (origin : string) : StandardFailure :=
  mkStandard resource_state "resource_state: invalid resource use" origin.

(** What leaves an adapter as a native value is the occurrence that the boundary
    above captures it in ([captured]). *)
Definition escaped (captured : cause -> StandardFailure) {A} (c : cause) : Completion A := standard (captured c).

Section operations.
Context {S : Type} (statement : SQLTemplate -> S -> statement_result * S).
Context (captured : cause -> StandardFailure) (contracts : SQLContracts) (descriptors : gmap jstr SQLDescriptor).

Definition profileFor (d : SQLDialect) : SQLValueProfile :=
  match d with sqlite => sqliteValueProfile | mysql => mysqlValueProfile | postgresql => postgresValueProfile end.

Definition classify {A} (d : SQLDialect) (operation : jstr) (c : cause) : Completion A :=
  match (match d with
         | sqlite => classifySQLite contracts operation c
         | mysql => classifyMySQL contracts operation c
         | postgresql => classifyPostgres contracts operation c
         end) with
  | Classified f => f
  | Rethrown c => escaped captured c
  end.

Definition affectedRows (d : SQLDialect) (operation : jstr) (count affected : cell) : Completion Z :=
  match d with
  | mysql => counted contracts operation affected
  | _ => counted contracts operation count
  end.

(** [raceBoundary] around [useResource]: [body] is what the native operation
    answers, and the state it leaves whoever is still waiting for it. *)
Definition bounded {A} (call : Call) (expired : Completion A) (body : S -> Completion A * S) (st : S) : Completion A * S :=
  match raced call with
  | Expired false => (expired, st)
  | Expired true => if available call then (expired, (body st).2) else (standard (unavailable "can:owner"), st)
  | Settles => if available call then body st else (standard (unavailable "can:owner"), st)
  end.

Definition launch (operation : jstr) (d : SQLDescriptor) (plan : SQLPlan) (call : Call) (ps : cvalue) (limit : cell) (st : S)
    : res (Completion (list (option native_row)) * S) :=
  let e := d_entry d in
  if denied call is Some violation then Ret (standard violation, st)
  else if match pool_dialect call with Some p => negb (bool_decide (p = e_dialect e)) | None => false end
  then Ret (queryFailed contracts operation (js "dialect_mismatch"), st)
  else
    let dialect := default (e_dialect e) (pool_dialect call) in
    let! encoded := encodeParams contracts plan ps in
    match encoded with
    | ok values =>
        let! t := template descriptors d (if e_limit e =? 0 then values else values ++ [limit]) in
        Ret (bounded call (queryFailed contracts operation (js "budget"))
          (fun st =>
             match statement t st with
             | (Rejected c, st) => (classify dialect operation c, st)
             | (Result (Some rows) _ _, st) => (ok rows, st)
             | (Result None _ _, st) => (queryFailed contracts operation (js "bad_result"), st)
             end) st)
    | domain f => Ret (domain f, st)
    | standard f => Ret (standard f, st)
    end.

Definition two : cell := NNum (num_of_Z 2).

Definition row_count {A} (d : SQLDescriptor) : Completion A :=
  fail (rowCount contracts) [("query"%string, JStr (d_name d)); ("actual"%string, JBigInt 2)].

Definition call_profile (d : SQLDescriptor) (call : Call) : SQLValueProfile :=
  profileFor (default (e_dialect (d_entry d)) (pool_dialect call)).

Definition queryOne (d : SQLDescriptor) (plan : SQLPlan) (call : Call) (ps : cvalue) (st : S) : res (Completion cvalue * S) :=
  match rows plan with
  | None => Throw "invalid compiler sql plan"
  | Some schema =>
      let! (outcome, st) := launch (js "query_one") d plan call ps two st in
      match outcome with
      | ok [] => Ret (fail (rowMissing contracts) [("query"%string, JStr (d_name d))], st)
      | ok [row] => let! v := decodeRow contracts (call_profile d call) schema row in Ret (v, st)
      | ok _ => Ret (row_count d, st)
      | domain f => Ret (domain f, st)
      | standard f => Ret (standard f, st)
      end
  end.

Definition queryOptional (d : SQLDescriptor) (plan : SQLPlan) (call : Call) (ps : cvalue) (st : S) : res (Completion cvalue * S) :=
  match rows plan, plan_some plan, plan_none plan with
  | Some schema, Some some_id, Some none_id =>
      let! (outcome, st) := launch (js "query_optional") d plan call ps two st in
      match outcome with
      | ok [] => Ret (ok (CRecord none_id []), st)
      | ok [row] =>
          let! v := decodeRow contracts (call_profile d call) schema row in
          Ret (completion_bind v (fun v => ok (CRecord some_id [(js "value", v)])), st)
      | ok _ => Ret (row_count d, st)
      | domain f => Ret (domain f, st)
      | standard f => Ret (standard f, st)
      end
  | _, _, _ => Throw "invalid compiler sql plan"
  end.

Fixpoint decode_rows (profile : SQLValueProfile) (schema : SQLPlanSchema) (rows : list (option native_row))
    : res (Completion (list cvalue)) :=
  match rows with
  | [] => Ret (ok [])
  | row :: rows =>
      let! v := decodeRow contracts profile schema row in
      match v with
      | ok v => let! vs := decode_rows profile schema rows in Ret (completion_bind vs (fun vs => ok (v :: vs)))
      | domain f => Ret (domain f)
      | standard f => Ret (standard f)
      end
  end.

Definition queryRows (d : SQLDescriptor) (plan : SQLPlan) (call : Call) (ps maxRows : cvalue) (st : S)
    : res (Completion (list cvalue) * S) :=
  match rows plan, maxRows with
  | Some schema, CInt max =>
      if max <? 0 then Ret (badValue contracts (js "max_rows") (js "negative"), st)
      else if MAX_INT64 <=? max then Ret (badValue contracts (js "max_rows") (js "overflow"), st)
      else
        let! (outcome, st) := launch (js "query_rows") d plan call ps (NBigInt (max + 1)) st in
        match outcome with
        | ok rows =>
            if max <? Z.of_nat (length rows) then Ret (fail (rowLimit contracts) [("limit"%string, JBigInt max)], st)
            else let! vs := decode_rows (call_profile d call) schema rows in Ret (vs, st)
        | domain f => Ret (domain f, st)
        | standard f => Ret (standard f, st)
        end
  | None, _ => Throw "invalid compiler sql plan"
  | _, _ => Throw "invalid compiler sql bound"
  end.

(** [sqliteMutation] *)
Definition sqlite_mutation (d : SQLDescriptor) : bool :=
  let e := d_entry d in
  bool_decide (e_dialect e = sqlite) && bool_decide (e_cardinality e = c_execute)
  && (bool_decide (e_kind e = js "insert_statement") || bool_decide (e_kind e = js "update_statement")
      || bool_decide (e_kind e = js "delete_statement")).

Definition sqliteChangesTemplate : SQLTemplate := ([js "SELECT changes() AS affected_rows"], []).

(** The two statements of [executeSQLiteMutation], its turn come ([queued]
    models the turns). *)
Definition executeSQLiteMutation (t : SQLTemplate) (st : S) : statement_result * S :=
  match statement t st with
  | (Rejected c, st) => (Rejected c, st)
  | (Result _ _ _, st) => statement sqliteChangesTemplate st
  end.

(** [sqliteChangesCount(result)] on any result. *)
Definition changes_count (rows : option (list (option native_row))) : cell :=
  match rows with
  | Some [Some row] => sqliteChangesCount [row]
  | _ => NUndefined
  end.

Definition execute (d : SQLDescriptor) (plan : SQLPlan) (call : Call) (ps : cvalue) (st : S) : res (Completion Z * S) :=
  let e := d_entry d in
  if denied call is Some violation then Ret (standard violation, st)
  else if match pool_dialect call with Some p => negb (bool_decide (p = e_dialect e)) | None => false end
  then Ret (queryFailed contracts (js "execute") (js "dialect_mismatch"), st)
  else
    let dialect := default (e_dialect e) (pool_dialect call) in
    let! encoded := encodeParams contracts plan ps in
    match encoded with
    | ok values =>
        let! t := template descriptors d values in
        Ret (bounded call (queryFailed contracts (js "execute") (js "budget"))
          (fun st =>
             match (if sqlite_mutation d then executeSQLiteMutation t st else statement t st) with
             | (Rejected c, st) => (classify dialect (js "execute") c, st)
             | (Result rows count affected, st) =>
                 (if sqlite_mutation d then sqliteAffectedRows contracts (js "execute") (changes_count rows) NUndefined
                  else affectedRows dialect (js "execute") count affected, st)
             end) st)
    | domain f => Ret (domain f, st)
    | standard f => Ret (standard f, st)
    end.
End operations.

(** ** The queue of SQLite mutations

    [sqliteMutationQueues] for one client.  A task has asked for its turn behind the
    tail it found; it writes once that tail is resolved, reads [changes()], and
    leaves.  A refused statement leaves any count behind; [Other] is a statement of
    the same connection that does not go through the queue. *)
Module Mutations.

Inductive phase : Type := Waiting | Written | Finished (count : option Z).

Record task : Type := mkTask { previous : option nat; affects : Z; at_ : phase }.

Record state : Type := mkState { tasks : list task; queue : option nat; changes : Z }.

Inductive event : Type :=
| Ask (affects : Z)
| Write (i : nat)
| Refuse (i : nat) (left : Z)
| Read (i : nat)
| Other (affects : Z).

Definition idle : state := mkState [] None 0.

Definition finished (t : task) : bool := match at_ t with Finished _ => true | _ => false end.

Definition released (ts : list task) (i : nat) : bool := match ts !! i with Some t => finished t | None => false end.

(** [tail = previous.then(() => turn)] *)
Fixpoint resolved (fuel : nat) (ts : list task) (tail : option nat) : bool :=
  match tail, fuel with
  | None, _ => true
  | Some i, S fuel => released ts i && match ts !! i with Some t => resolved fuel ts (previous t) | None => false end
  | Some _, O => false
  end.

Definition put (t : task) (p : phase) : task := mkTask (previous t) (affects t) p.

(** The [finally] block. *)
Definition leave (s : state) (i : nat) (t : task) (count : option Z) : state :=
  mkState (<[i := put t (Finished count)]> (tasks s)) (if bool_decide (queue s = Some i) then None else queue s) (changes s).

Definition turn (s : state) (t : task) : bool :=
  match at_ t with Waiting => resolved (length (tasks s)) (tasks s) (previous t) | _ => false end.

Definition step (s : state) (e : event) : option state :=
  match e with
  | Ask n => Some (mkState (tasks s ++ [mkTask (queue s) n Waiting]) (Some (length (tasks s))) (changes s))
  | Write i =>
      t ← tasks s !! i;
      if turn s t then Some (mkState (<[i := put t Written]> (tasks s)) (queue s) (affects t)) else None
  | Refuse i n =>
      t ← tasks s !! i;
      if match at_ t with Written => true | _ => turn s t end
      then Some (leave (mkState (tasks s) (queue s) n) i t None) else None
  | Read i =>
      t ← tasks s !! i;
      match at_ t with Written => Some (leave s i t (Some (changes s))) | _ => None end
  | Other n => Some (mkState (tasks s) (queue s) n)
  end.

Fixpoint run (s : state) (es : list event) : option state :=
  match es with
  | [] => Some s
  | e :: es => s' ← step s e; run s' es
  end.

Definition queued (e : event) : bool := match e with Other _ => false | _ => true end.

Definition before (ts : list task) (i : nat) : Prop := forall j, (j < i)%nat -> released ts j = true.

Record inv (s : state) : Prop := {
  inv_previous : forall i t, tasks s !! i = Some t ->
    match previous t with None => before (tasks s) i | Some j => i = Datatypes.S j end;
  inv_queue : match queue s with
    | None => before (tasks s) (length (tasks s))
    | Some q => length (tasks s) = Datatypes.S q /\ released (tasks s) q = false
    end;
  inv_order : forall i t, tasks s !! i = Some t -> at_ t <> Waiting -> before (tasks s) i;
  inv_written : forall i t, tasks s !! i = Some t -> at_ t = Written -> changes s = affects t;
  inv_finished : forall i t r, tasks s !! i = Some t -> at_ t = Finished (Some r) -> r = affects t
}.

Lemma resolved_before s fuel : inv s -> forall i t,
  tasks s !! i = Some t -> resolved fuel (tasks s) (previous t) = true -> before (tasks s) i.
Proof.
  intros Hs. induction fuel as [|fuel IH]; intros i t Ht Hr; pose proof (inv_previous s Hs i t Ht) as Hp;
    destruct (previous t) as [j|]; cbn in *; try done.
  apply andb_true_iff in Hr as [Hj Hr]. destruct (tasks s !! j) as [u|] eqn:Hu; [| done].
  specialize (IH j u Hu Hr). subst i. intros k Hk. destruct (decide (k = j)) as [->|]; [done | apply IH; lia].
Qed.

Lemma before_resolved s : inv s -> forall fuel i t,
  tasks s !! i = Some t -> before (tasks s) i -> (i <= fuel)%nat -> resolved fuel (tasks s) (previous t) = true.
Proof.
  intros Hs. induction fuel as [|fuel IH]; intros i t Ht Hb Hi; pose proof (inv_previous s Hs i t Ht) as Hp;
    destruct (previous t) as [j|]; cbn in *; try done; subst i; [lia |].
  assert (released (tasks s) j = true) as Hj by (apply Hb; lia). rewrite Hj. unfold released in Hj.
  destruct (tasks s !! j) as [u|] eqn:Hu; [| done]. apply (IH j u Hu); [| lia]. intros k Hk. apply Hb. lia.
Qed.

Lemma released_put ts i t p j : ts !! i = Some t ->
  released (<[i := put t p]> ts) j = if decide (j = i) then finished (put t p) else released ts j.
Proof.
  intros Hi. unfold released. destruct (decide (j = i)) as [->|Hj].
  - by rewrite list_lookup_insert_eq by (by eapply lookup_lt_Some).
  - by rewrite list_lookup_insert_ne.
Qed.

Lemma before_put ts i t p k : ts !! i = Some t -> finished t = false -> before ts k -> before (<[i := put t p]> ts) k.
Proof.
  intros Hi Hf Hb j Hj. rewrite (released_put ts i t p j Hi). specialize (Hb j Hj).
  destruct (decide (j = i)) as [->|]; [| done]. unfold released in Hb. rewrite Hi in Hb. congruence.
Qed.

(** The one task that has its turn moves on. *)
Lemma inv_put s i t p c : inv s -> tasks s !! i = Some t -> finished t = false -> before (tasks s) i -> p <> Waiting ->
  (p = Written -> c = affects t) -> (forall r, p = Finished (Some r) -> r = affects t) ->
  inv (mkState (<[i := put t p]> (tasks s))
         (if finished (put t p) && bool_decide (queue s = Some i) then None else queue s) c).
Proof.
  intros Hs Hi Hf Hb Hp Hw Hr.
  assert (forall j u, <[i := put t p]> (tasks s) !! j = Some u ->
    (j = i /\ u = put t p) \/ (j <> i /\ tasks s !! j = Some u)) as Hcase.
  { intros j u Hj. apply list_lookup_insert_Some in Hj as [(-> & <- & _)|[? ?]]; [by left | by right]. }
  split; cbn [tasks queue changes].
  - intros j u [[-> ->]|[Hj Hu]]%Hcase.
    + pose proof (inv_previous s Hs i t Hi) as H. cbn [previous put]. destruct (previous t); [done | by apply before_put].
    + pose proof (inv_previous s Hs j u Hu) as H. destruct (previous u); [done | by apply before_put].
  - rewrite length_insert. pose proof (inv_queue s Hs) as Hq. destruct (queue s) as [q|].
    + destruct Hq as [Hlen Hq]. case_bool_decide as Hqi.
      * injection Hqi as ->. destruct (finished (put t p)) eqn:Hfin; cbn [andb].
        -- intros j Hj. rewrite (released_put _ _ _ _ _ Hi). destruct (decide (j = i)); [done |]. apply Hb. lia.
        -- split; [done |]. rewrite (released_put _ _ _ _ _ Hi). by destruct (decide (i = i)).
      * rewrite andb_false_r. split; [done |]. rewrite (released_put _ _ _ _ _ Hi).
        destruct (decide (q = i)) as [->|]; [done | done].
    + destruct (finished _ && _); by apply before_put.
  - intros j u [[-> ->]|[Hj Hu]]%Hcase Hat; apply before_put; try done. by eapply inv_order.
  - intros j u [[-> ->]|[Hj Hu]]%Hcase Hat; [by apply Hw |]. exfalso.
    assert (before (tasks s) j) as Hbj by (eapply inv_order; [done..| congruence]).
    destruct (decide (i < j)%nat) as [Hlt|].
    + specialize (Hbj i Hlt). unfold released in Hbj. rewrite Hi in Hbj. congruence.
    + assert (released (tasks s) j = true) as Hrel by (apply Hb; lia). unfold released in Hrel. rewrite Hu in Hrel.
      unfold finished in Hrel. by rewrite Hat in Hrel.
  - intros j u r [[-> ->]|[Hj Hu]]%Hcase Hat; [by apply Hr |]. by eapply inv_finished.
Qed.

Lemma turn_before s i t : inv s -> tasks s !! i = Some t -> turn s t = true -> finished t = false /\ before (tasks s) i.
Proof.
  unfold turn. intros Hs Hi Ht. destruct (at_ t) eqn:Hat; try done. split; [unfold finished; by rewrite Hat |].
  by eapply resolved_before.
Qed.

Lemma written_before s i t : inv s -> tasks s !! i = Some t -> at_ t = Written -> finished t = false /\ before (tasks s) i.
Proof.
  intros Hs Hi Hat. split; [unfold finished; by rewrite Hat |]. eapply inv_order; [done..|]. by rewrite Hat.
Qed.

Lemma step_inv s e s' : inv s -> queued e = true -> step s e = Some s' -> inv s'.
Proof.
  intros Hs Hq. destruct e as [n|i|i n|i|n]; [| | | | done]; cbn [step]; clear Hq.
  - intros [= <-]. assert (forall k, before (tasks s) k -> (k <= length (tasks s))%nat ->
      before (tasks s ++ [mkTask (queue s) n Waiting]) k) as Hmore.
    { intros k Hk Hle j Hj. unfold released. rewrite lookup_app_l by lia. by apply Hk. }
    assert (forall j u, (tasks s ++ [mkTask (queue s) n Waiting]) !! j = Some u ->
      tasks s !! j = Some u \/ (j = length (tasks s) /\ u = mkTask (queue s) n Waiting)) as Hcase.
    { intros j u Hj. destruct (decide (j < length (tasks s))%nat); [left; by rewrite lookup_app_l in Hj |].
      rewrite lookup_app_r in Hj by lia. right. destruct (j - length (tasks s))%nat eqn:Hn; [| done].
      cbn in Hj. split; [lia | congruence]. }
    split; cbn [tasks queue changes].
    + intros j u [Hu|[-> ->]]%Hcase.
      * pose proof (inv_previous s Hs j u Hu) as H. destruct (previous u); [done |]. apply Hmore; [done |].
        apply lookup_lt_Some in Hu. lia.
      * cbn [previous]. pose proof (inv_queue s Hs) as H. destruct (queue s); [by destruct H |]. by apply Hmore.
    + rewrite length_app. cbn [length]. split; [lia |]. unfold released. by rewrite list_lookup_middle.
    + intros j u [Hu|[-> ->]]%Hcase Hat; [| done]. apply Hmore; [by eapply inv_order |]. apply lookup_lt_Some in Hu. lia.
    + intros j u [Hu|[-> ->]]%Hcase Hat; [by eapply inv_written | done].
    + intros j u r [Hu|[-> ->]]%Hcase Hat; [by eapply inv_finished | done].
  - destruct (tasks s !! i) as [t|] eqn:Hi; [| done]. cbn [mbind option_bind]. destruct (turn s t) eqn:Ht; [| done].
    intros [= <-]. destruct (turn_before s i t Hs Hi Ht) as [Hf Hb]. by apply (inv_put s i t Written (affects t)).
  - destruct (tasks s !! i) as [t|] eqn:Hi; [| done]. cbn [mbind option_bind].
    destruct (match at_ t with Written => true | _ => turn s t end) eqn:Ht; [| done]. intros [= <-].
    assert (finished t = false /\ before (tasks s) i) as [Hf Hb].
    { destruct (at_ t) eqn:Hat; [by apply turn_before | by apply written_before | by apply turn_before]. }
    by apply (inv_put s i t (Finished None) n).
  - destruct (tasks s !! i) as [t|] eqn:Hi; [| done]. cbn [mbind option_bind]. destruct (at_ t) eqn:Hat; try done.
    intros [= <-]. destruct (written_before s i t Hs Hi Hat) as [Hf Hb].
    apply (inv_put s i t (Finished (Some (changes s))) (changes s)); try done.
    intros r [= <-]. by eapply inv_written.
Qed.

Lemma run_inv es : forall s s', inv s -> forallb queued es = true -> run s es = Some s' -> inv s'.
Proof.
  induction es as [|e es IH]; intros s s' Hs Hq; cbn [run forallb] in *; [by intros [= <-] |].
  apply andb_true_iff in Hq as [He Hq]. destruct (step s e) as [s1|] eqn:Hstep; [| done]. cbn [mbind option_bind].
  apply IH; [by eapply step_inv | done].
Qed.

Lemma idle_inv : inv idle.
Proof.
  split; cbn [idle tasks queue changes]; [| intros j Hj; cbn in Hj; lia |..]; intros i t; by rewrite lookup_nil.
Qed.

Lemma progress s : inv s -> (forall t, t ∈ tasks s -> finished t = true) \/ exists i s', step s (Write i) = Some s' \/ step s (Read i) = Some s'.
Proof.
  intros Hs. assert (forall n, (n <= length (tasks s))%nat -> before (tasks s) n \/
    exists i s', step s (Write i) = Some s' \/ step s (Read i) = Some s') as H.
  { induction n as [|n IH]; intros Hn; [left; intros j Hj; lia |]. destruct (IH ltac:(lia)) as [Hb|]; [| by right].
    destruct (lookup_lt_is_Some_2 (tasks s) n) as [t Ht]; [lia |]. destruct (at_ t) eqn:Hat.
    - right. exists n. cbn [step]. rewrite Ht. cbn [mbind option_bind]. unfold turn. rewrite Hat.
      rewrite (before_resolved s Hs _ n t Ht Hb) by lia. eexists. by left.
    - right. exists n. cbn [step]. rewrite Ht. cbn [mbind option_bind]. rewrite Hat. eexists. by right.
    - left. intros j Hj. destruct (decide (j = n)) as [->|]; [| apply Hb; lia]. unfold released, finished. by rewrite Ht, Hat. }
  destruct (H (length (tasks s)) ltac:(lia)) as [Hb|]; [left | by right]. intros t [i Hi]%list_elem_of_lookup.
  specialize (Hb i ltac:(by eapply lookup_lt_Some)). unfold released in Hb. by rewrite Hi in Hb.
Qed.
End Mutations.

(** C29. While every statement that changes rows goes through the queue, each mutation
    that reads a count reads the count of its own write, whatever the others do and
    wherever they fail; some mutation can always move on until all have left, and
    then the client is back where it was. *)
Theorem mutations_report_their_own_count events s :
  forallb Mutations.queued events = true -> Mutations.run Mutations.idle events = Some s ->
  (forall i t r, Mutations.tasks s !! i = Some t -> Mutations.at_ t = Mutations.Finished (Some r) -> r = Mutations.affects t)
  /\ ((exists i s', Mutations.step s (Mutations.Write i) = Some s' \/ Mutations.step s (Mutations.Read i) = Some s')
      \/ ((forall t, t ∈ Mutations.tasks s -> Mutations.finished t = true) /\ Mutations.queue s = None)).
Proof.
  intros Hq Hrun. pose proof (Mutations.run_inv _ _ _ Mutations.idle_inv Hq Hrun) as Hs.
  split; [intros i t r; by apply Mutations.inv_finished |]. destruct (Mutations.progress s Hs) as [Hall|]; [right | by left].
  split; [done |]. pose proof (Mutations.inv_queue s Hs) as H. destruct (Mutations.queue s) as [q|]; [| done].
  destruct H as [Hlen Hrel]. destruct (lookup_lt_is_Some_2 (Mutations.tasks s) q) as [t Ht]; [lia |].
  unfold Mutations.released in Hrel. rewrite Ht, Hall in Hrel; [done | by eapply list_elem_of_lookup_2].
Qed.

Lemma mutations_report_their_own_count_witness : exists s,
  Mutations.run Mutations.idle
    [Mutations.Ask 3; Mutations.Ask 5; Mutations.Write 0; Mutations.Ask 2; Mutations.Read 0; Mutations.Refuse 1 9;
     Mutations.Write 2; Mutations.Read 2] = Some s
  /\ (forall i t r, Mutations.tasks s !! i = Some t -> Mutations.at_ t = Mutations.Finished (Some r) -> r = Mutations.affects t).
Proof.
  eexists. split; [vm_compute; reflexivity |].
  apply (mutations_report_their_own_count
    [Mutations.Ask 3; Mutations.Ask 5; Mutations.Write 0; Mutations.Ask 2; Mutations.Read 0; Mutations.Refuse 1 9;
     Mutations.Write 2; Mutations.Read 2]); vm_compute; reflexivity.
Defined.

(** A SQLite [INSERT ... RETURNING] of one row is a declared descriptor and no
    mutation of the queue: [queryOne] sends it to the client at once, and when that
    falls between the write and the [changes()] of a mutation, the mutation reports
    the other statement's count. *)
Theorem returning_insert_replaces_the_count own other :
  (exists d, make_descriptor 0 (js "app") (js "insert_returning")
       (mkEntry sqlite c_one (js "insert_statement")
          [mkSegment (Some (js "INSERT INTO t (v) VALUES (")) None; mkSegment None (Some 1); mkSegment (Some (js ") RETURNING id")) None]
          [js "v"] (js "Params") (js "Row") 0 1 102) = Ret d
     /\ sqlite_mutation d = false)
  /\ exists s t, Mutations.run Mutations.idle [Mutations.Ask own; Mutations.Write 0; Mutations.Other other; Mutations.Read 0] = Some s
     /\ Mutations.tasks s !! 0%nat = Some t /\ Mutations.affects t = own
     /\ Mutations.at_ t = Mutations.Finished (Some other).
Proof.
  split; [eexists; split; [vm_compute; reflexivity | reflexivity] |].
  do 2 eexists. split; [vm_compute; reflexivity |]. split; [reflexivity |]. split; reflexivity.
Qed.

(** ** Pools *)

Record native_options : Type := mkOptions {
  adapter : SQLDialect;
  target : jstr;
  max : option Z;
  tls : bool;
  readonly : bool;
  create : bool
}.

(** What an opening asks of the native client. *)
Inductive native_call : Type :=
| New (options : native_options)
| Connect
| Tag (t : SQLTemplate)
| CloseNative.

Definition pinStrings : SQLTemplate := ([js "SELECT @@session.time_zone AS tz"], []).
Definition FOREIGN_KEYS_ON : SQLTemplate := ([js "PRAGMA foreign_keys = ON"], []).
Definition FOREIGN_KEYS_READ : SQLTemplate := ([js "PRAGMA foreign_keys"], []).

(** [/^[A-Z_][A-Z0-9_]*$/] *)
Definition upper_or_underscore (c : N) : bool := ((65 <=? c) && (c <=? 90))%N || (c =? 95)%N.
Definition variableName (s : jstr) : bool :=
  match s with
  | [] => false
  | c :: s => upper_or_underscore c && forallb (fun c => upper_or_underscore c || is_digit c) s
  end.

(** A token's client by its calls, with the deadline of its closing. *)
Record PoolState : Type := mkPool {
  dialect : SQLDialect;
  closeDeadlineMs : option Z;
  closeStartedAt : option Z
}.

Section pools.
Context (native : list native_call -> native_call -> statement_result).
Context (captured : cause -> StandardFailure) (contracts : SQLContracts).

(** A call, after the calls already made. *)
Definition ask (c : native_call) (calls : list native_call) : statement_result * list native_call :=
  (native calls c, calls ++ [c]).

(** The column of the first row of an answer. *)
Definition first_cell (r : statement_result) (name : jstr) : option cell :=
  match r with
  | Result (Some (Some row :: _)) _ _ => column row name
  | _ => None
  end.

(** [failConnect] and its inlined copies: the failed close is ignored. *)
Definition failConnect {A} (phase : jstr) (calls : list native_call) : Completion A * list native_call :=
  (connectionFailed contracts phase, (ask CloseNative calls).2).

(** [new Bun.SQL(...)], and [connect] within its [try]. *)
Definition construct {A} (o : native_options) (k : list native_call -> Completion A * list native_call)
    (calls : list native_call) : Completion A * list native_call :=
  match ask (New o) calls with
  | (Rejected c, calls) => (escaped captured c, calls)
  | (_, calls) =>
      match ask Connect calls with
      | (Rejected _, calls) => failConnect (js "connect") calls
      | (_, calls) => k calls
      end
  end.

Definition registerPool (d : SQLDialect) (calls : list native_call) : Completion PoolState * list native_call :=
  (ok (mkPool d None None), calls).

Definition openPostgresClient (url : jstr) (max : Z) : list native_call -> Completion PoolState * list native_call :=
  construct (mkOptions postgresql url (Some max) false false false) (registerPool postgresql).

Definition openMySQLClient (url : jstr) (max : Z) : list native_call -> Completion PoolState * list native_call :=
  construct (mkOptions mysql url (Some max) true false false) (fun calls =>
    let (r, calls) := ask (Tag pinStrings) calls in
    match first_cell r (js "tz") with
    | Some (NStr tz) =>
        if bool_decide (tz = js "+00:00") then registerPool mysql calls else failConnect (js "config") calls
    | _ => failConnect (js "config") calls
    end).

Definition enforceForeignKeys (k : list native_call -> Completion PoolState * list native_call)
    (calls : list native_call) : Completion PoolState * list native_call :=
  match ask (Tag FOREIGN_KEYS_ON) calls with
  | (Rejected _, calls) => failConnect (js "connect") calls
  | (_, calls) =>
      let (r, calls) := ask (Tag FOREIGN_KEYS_READ) calls in
      match first_cell r (js "foreign_keys") with
      | Some (NBigInt 1) => k calls
      | _ => failConnect (js "connect") calls
      end
  end.

Definition openSqliteMemory : list native_call -> Completion PoolState * list native_call :=
  construct (mkOptions sqlite (js ":memory:") None false false false) (enforceForeignKeys (registerPool sqlite)).

Definition busy_pragma (c : SQLiteFileConfig) : SQLTemplate :=
  ([js "PRAGMA busy_timeout = " ++ dec_of_Z (busyTimeoutMs c)], []).

Definition openSqliteFile (c : SQLiteFileConfig) : list native_call -> Completion PoolState * list native_call :=
  construct (mkOptions sqlite (filename c) None false (match mode c with ro => true | _ => false end)
               (match mode c with rwc => true | _ => false end))
    (enforceForeignKeys (fun calls =>
      match ask (Tag (busy_pragma c)) calls with
      | (Rejected _, calls) => failConnect (js "connect") calls
      | (_, calls) => registerPool sqlite calls
      end)).

Definition missingCredential {A} (variable : jstr) : Completion A :=
  fail (credentialsMissing contracts) [("variable"%string, JStr variable)].

(** [open] and [mysqlOpen]: the variable, then its value, then the bound, and only
    then a client. *)
Definition open_with (client : jstr -> Z -> list native_call -> Completion PoolState * list native_call)
    (lookup : jstr -> option jstr) (denied : option StandardFailure) (variable maxConnections : cvalue)
    : res (Completion PoolState * list native_call) :=
  if denied is Some violation then Ret (standard violation, [])
  else
    match variable with
    | CStr variable =>
        if negb (variableName variable) then Ret (missingCredential variable, [])
        else
          match lookup variable with
          | None => Ret (missingCredential variable, [])
          | Some url =>
              let! checked := poolMaxConnections contracts maxConnections in
              match checked with
              | ok max => Ret (client url max [])
              | domain f => Ret (domain f, [])
              | standard f => Ret (standard f, [])
              end
          end
    | _ => Throw "invalid compiler sql variable"
    end.

Definition open : (jstr -> option jstr) -> option StandardFailure -> cvalue -> cvalue -> res (Completion PoolState * list native_call) :=
  open_with openPostgresClient.
Definition mysqlOpen : (jstr -> option jstr) -> option StandardFailure -> cvalue -> cvalue -> res (Completion PoolState * list native_call) :=
  open_with openMySQLClient.

Definition sqliteOpenMemory (denied : option StandardFailure) : res (Completion PoolState * list native_call) :=
  if denied is Some violation then Ret (standard violation, []) else Ret (openSqliteMemory []).

Definition sqliteOpenFile (denied : option StandardFailure) (path options : cvalue) : res (Completion PoolState * list native_call) :=
  if denied is Some violation then Ret (standard violation, [])
  else
    let! checked := sqliteFileConfig contracts path options in
    match checked with
    | ok config => Ret (openSqliteFile config [])
    | domain f => Ret (domain f, [])
    | standard f => Ret (standard f, [])
    end.

(** [close], with what [closeResource] settles with under the deadline it is given;
    and the bound that the closer then gives the native close, in milliseconds. *)
Definition close (denied : option StandardFailure) (pool : option PoolState) (timeoutMs : cvalue) (now : Z) (closeResource : Z -> Completion unit)
    : res (Completion unit * option PoolState) :=
  if denied is Some violation then Ret (standard violation, pool)
  else
    match pool, timeoutMs with
    | None, _ => Ret (standard (unavailable "can:sql"), pool)
    | Some state, CInt t =>
        if (t <? 0) || (2147483647 <? t)
        then Ret (fail (closeFailed contracts) [("reason"%string, JStr (js "invalid_timeout"))], pool)
        else Ret (closeResource t, Some (mkPool (dialect state) (Some t) (Some now)))
    | Some _, _ => Throw "invalid compiler sql timeout"
    end.

Definition remaining (state : PoolState) (now : Z) : option Z :=
  match closeDeadlineMs state, closeStartedAt state with
  | Some deadline, Some started => Some (Z.max 0 (deadline - (now - started)))
  | _, _ => None
  end.

(** The closer of [registerPool]. *)
Definition close_pool (native_close : option Z -> option cause) (state : PoolState) (now : Z) : Completion unit :=
  match native_close (remaining state now) with
  | Some _ => fail (closeFailed contracts) [("reason"%string, JStr (js "close"))]
  | None => ok tt
  end.
End pools.

Section opened.
Context (native : list native_call -> native_call -> statement_result).
Context (captured : cause -> StandardFailure) (contracts : SQLContracts).

(** Whether a call made after [calls] was granted: not rejected, and answered with
    what the opening requires of it. *)
Definition granted (calls : list native_call) (c : native_call) : Prop :=
  match native calls c with
  | Rejected _ => False
  | r =>
      (c = Tag FOREIGN_KEYS_READ -> first_cell r (js "foreign_keys") = Some (NBigInt 1))
      /\ (c = Tag pinStrings -> first_cell r (js "tz") = Some (NStr (js "+00:00")))
  end.

Definition all_granted (calls : list native_call) : Prop :=
  forall pre c post, calls = pre ++ c :: post -> granted pre c.

(** What a dialect asks of a connection before it is handed out. *)
Definition setup_of (d : SQLDialect) (checks : list SQLTemplate) : Prop :=
  match d with
  | sqlite => [FOREIGN_KEYS_ON; FOREIGN_KEYS_READ] `prefix_of` checks
  | mysql => checks = [pinStrings]
  | postgresql => checks = []
  end.

(** A pool is handed out exactly when a client was built and connected and every
    check of its dialect was granted, and it is not closed.  An opening that fails
    built no client, or was refused its last call and then closed the client. *)
Definition opening_ok (r : Completion PoolState * list native_call) : Prop :=
  match r with
  | (ok state, calls) =>
      CloseNative ∉ calls /\ all_granted calls
      /\ exists o checks, calls = New o :: Connect :: (Tag <$> checks) /\ adapter o = dialect state /\ setup_of (dialect state) checks
           /\ (dialect state = mysql -> tls o = true)
  | (_, calls) =>
      calls = [] \/ (exists o c, calls = [New o] /\ native [] (New o) = Rejected c)
      \/ exists pre c, calls = pre ++ [c; CloseNative] /\ CloseNative ∉ pre ++ [c] /\ all_granted pre /\ ~ granted pre c
  end.

Lemma all_granted_nil : all_granted [].
Proof. intros [] c post [=]. Qed.

Lemma all_granted_snoc calls c : all_granted calls -> granted calls c -> all_granted (calls ++ [c]).
Proof.
  intros Hall Hc pre x post H. destruct post as [|y post _] using rev_ind.
  - apply app_inj_tail in H as [<- <-]. exact Hc.
  - rewrite app_comm_cons, app_assoc in H. apply app_inj_tail in H as [H _]. by eapply Hall.
Qed.

Lemma failConnect_ok phase calls c : CloseNative ∉ calls ++ [c] -> all_granted calls -> ~ granted calls c ->
  opening_ok (failConnect native contracts phase (calls ++ [c])).
Proof. intros H Ha Hc. cbn. right. right. exists calls, c. split_and!; [by rewrite <- app_assoc | done..]. Qed.

(** A call that is refused when it is rejected, and only then. *)
Lemma granted_plain calls c : c <> Tag FOREIGN_KEYS_READ -> c <> Tag pinStrings ->
  match native calls c with Rejected _ => ~ granted calls c | _ => granted calls c end.
Proof. intros H1 H2. unfold granted. destruct (native calls c); [by split | by intros []]. Qed.

Lemma construct_ok o k : (all_granted [New o; Connect] -> opening_ok (k [New o; Connect])) ->
  opening_ok (construct native captured contracts o k []).
Proof.
  intros H. unfold construct, ask. cbn [app]. pose proof (granted_plain [] (New o) ltac:(done) ltac:(done)) as Hnew.
  pose proof (granted_plain [New o] Connect ltac:(done) ltac:(done)) as Hcon.
  destruct (native [] (New o)) as [? ? ?|c] eqn:Hn; [| cbn; right; left; by exists o, c].
  pose proof (all_granted_snoc [] (New o) all_granted_nil Hnew) as Ho.
  destruct (native [New o] Connect); [apply H; by apply (all_granted_snoc [New o]) |].
  apply (failConnect_ok _ [New o] Connect); [set_solver | done | done].
Qed.

Lemma enforce_ok calls k : CloseNative ∉ calls -> all_granted calls ->
  (all_granted (calls ++ [Tag FOREIGN_KEYS_ON; Tag FOREIGN_KEYS_READ]) ->
   opening_ok (k (calls ++ [Tag FOREIGN_KEYS_ON; Tag FOREIGN_KEYS_READ]))) ->
  opening_ok (enforceForeignKeys native contracts k calls).
Proof.
  intros Hc Ha Hk. unfold enforceForeignKeys, ask.
  pose proof (granted_plain calls (Tag FOREIGN_KEYS_ON) ltac:(done) ltac:(done)) as Hon.
  destruct (native calls (Tag FOREIGN_KEYS_ON)); [| by apply failConnect_ok; [set_solver | |]].
  pose proof (all_granted_snoc _ _ Ha Hon) as Ha1.
  assert (CloseNative ∉ (calls ++ [Tag FOREIGN_KEYS_ON]) ++ [Tag FOREIGN_KEYS_READ]) as Hc' by set_solver.
  destruct (first_cell (native (calls ++ [Tag FOREIGN_KEYS_ON]) (Tag FOREIGN_KEYS_READ)) (js "foreign_keys")) as [[| | |[|[]|]| | | | |]|] eqn:Hf;
    try (apply failConnect_ok; [done | done |]; unfold granted;
         destruct (native (calls ++ [Tag FOREIGN_KEYS_ON]) (Tag FOREIGN_KEYS_READ)); [intros [H _]; specialize (H eq_refl); congruence | by intros []]).
  rewrite <- app_assoc. apply Hk. rewrite (app_assoc calls [Tag FOREIGN_KEYS_ON] [Tag FOREIGN_KEYS_READ] : calls ++ [Tag FOREIGN_KEYS_ON; Tag FOREIGN_KEYS_READ] = _).
  apply all_granted_snoc; [done |]. unfold granted.
  destruct (native (calls ++ [Tag FOREIGN_KEYS_ON]) (Tag FOREIGN_KEYS_READ)); [| done]. by split.
Qed.

Lemma postgres_ok url max : opening_ok (openPostgresClient native captured contracts url max []).
Proof.
  apply construct_ok. intros Ha. cbn. split; [set_solver |]. split; [done |]. by eexists _, [].
Qed.

Lemma mysql_ok url max : opening_ok (openMySQLClient native captured contracts url max []).
Proof.
  apply construct_ok. intros Ha. unfold ask. set (o := mkOptions mysql url (Some max) true false false) in *.
  assert (CloseNative ∉ [New o; Connect] ++ [Tag pinStrings]) as Hc by set_solver.
  assert (forall r, first_cell (native [New o; Connect] (Tag pinStrings)) (js "tz") = r -> r <> Some (NStr (js "+00:00")) ->
    opening_ok (failConnect native contracts (js "config") ([New o; Connect] ++ [Tag pinStrings]))) as Hbad.
  { intros r Hf Hr. apply failConnect_ok; [done | done |]. unfold granted.
    destruct (native [New o; Connect] (Tag pinStrings)); [| by intros []]. intros [_ H]. specialize (H eq_refl). congruence. }
  destruct (first_cell (native [New o; Connect] (Tag pinStrings)) (js "tz")) as [[| | | | |tz| | |]|] eqn:Hf;
    try (by apply (Hbad _ eq_refl)).
  case_bool_decide as Htz; [| apply (Hbad _ eq_refl); congruence]. subst tz. cbn. split; [set_solver |]. split.
  - apply (all_granted_snoc [New o; Connect]); [done |]. unfold granted.
    destruct (native [New o; Connect] (Tag pinStrings)); [| done]. by split.
  - by eexists _, [pinStrings].
Qed.

Lemma sqlite_memory_ok : opening_ok (openSqliteMemory native captured contracts []).
Proof.
  apply construct_ok. intros Ha. apply enforce_ok; [set_solver | done |]. intros H. cbn [app] in *. cbn. split; [set_solver |].
  split; [done |]. by eexists _, [FOREIGN_KEYS_ON; FOREIGN_KEYS_READ].
Qed.

Lemma sqlite_file_ok config : opening_ok (openSqliteFile native captured contracts config []).
Proof.
  apply construct_ok. intros Ha. apply enforce_ok; [set_solver | done |]. intros H. unfold ask.
  match goal with |- context [native ?l (Tag (busy_pragma config))] => set (calls := l) in * end.
  assert (Tag (busy_pragma config) <> Tag FOREIGN_KEYS_READ /\ Tag (busy_pragma config) <> Tag pinStrings) as [H1 H2].
  { split; intros Heq; apply (f_equal (fun c => match c with Tag ([text], _) => nth 7 text 0%N | _ => 0%N end)) in Heq; by vm_compute in Heq. }
  pose proof (granted_plain calls (Tag (busy_pragma config)) H1 H2) as Hb.
  destruct (native calls (Tag (busy_pragma config))); [| apply failConnect_ok; [set_solver | done | done]].
  cbn. split; [set_solver |]. split; [by apply (all_granted_snoc calls) |].
  eexists _, [FOREIGN_KEYS_ON; FOREIGN_KEYS_READ; busy_pragma config]. split_and!; [done | done | | done].
  by exists [busy_pragma config].
Qed.

Lemma open_with_ok client lookup denied variable max r :
  (forall url max, opening_ok (client url max [])) ->
  open_with contracts client lookup denied variable max = Ret r -> opening_ok r.
Proof.
  intros Hclient. unfold open_with. destruct denied; [intros [= <-]; by left |]. destruct variable; try done.
  destruct (variableName s); cbn [negb]; [| intros [= <-]; by left].
  destruct (lookup s) as [url|]; [| intros [= <-]; by left].
  intros (checked & _ & H)%res_bind_ret. destruct checked; injection H as <-; [apply Hclient | by left | by left].
Qed.
End opened.


(** A client that grants everything, and contracts of one name each. *)
Definition demo_client (calls : list native_call) (c : native_call) : statement_result :=
  match c with
  | Tag _ => Result (Some [Some [(js "foreign_keys", NBigInt 1)]]) NUndefined NUndefined
  | _ => Result None NUndefined NUndefined
  end.

Definition demo_contracts : SQLContracts :=
  mkContracts (js "connection_failed") (js "query_failed") (js "row_missing") (js "row_count") (js "schema_mismatch")
    (js "constraint_failed") (js "row_limit") (js "unsupported_value") (js "credentials_missing") (js "close_failed")
    (js "transaction_failed") (js "commit_unknown").

Definition demo_captured (c : cause) : StandardFailure := mkStandard native_exception "native failure" "can:owner".


(** ** Transactions *)

(** What the pool's database holds for this attempt: the committed contents, and
    the working contents of a transaction that was left open. *)
Record store (S : Type) : Type := mkStore { committed : S; open_tx : option S }.
Arguments mkStore {S} committed open_tx.
Arguments committed {S} s.
Arguments open_tx {S} s.

Inductive rejection : Type :=
| Native (c : cause)
| TxRollback (value : cvalue)
| TxPrimary (completion : Completion cvalue).

Inductive settled : Type := Resolved (value : cvalue) | Rejects (e : rejection).

(** [client.begin]: refused before the callback, or the callback is handed the
    contents it works on, and its promise and what it made of them decide what
    [begin] settles with and leaves. *)
Inductive begun (S : Type) : Type :=
| Refused (c : cause) (st : store S)
| Started (work : S) (finish : settled -> S -> settled * store S).
Arguments Refused {S} c st.
Arguments Started {S} work finish.

Section transactions.
Context {S : Type} (begin_ : store S -> begun S) (run_rollback : store S -> store S).
Context (captured : cause -> StandardFailure) (contracts : SQLContracts).

(** [createSQLFailures] with the origin of transactions. *)
Definition tx_fail {A} (identity : jstr) (fields : list (string * jsval)) : Completion A :=
  domain (mkDomain identity fields "can:sql-transaction").

Definition transaction_failed {A} (phase : jstr) : Completion A :=
  tx_fail (transactionFailed contracts) [("phase"%string, JStr phase)].
Definition commit_unknown {A} (id : jstr) : Completion A :=
  tx_fail (commitUnknown contracts) [("transaction_id"%string, JStr id)].

Definition tx_connection_failed {A} (phase : jstr) : Completion A :=
  tx_fail (connectionFailed_id contracts) [("phase"%string, JStr phase)].

Definition classifyBegin {A} (phase : jstr) (c : cause) (d : SQLDialect) : Completion A :=
  match d, c with
  | sqlite, SQLiteError code =>
      if bool_decide (code = js "ERR_SQLITE_CONNECTION_CLOSED") then tx_connection_failed phase
      else transaction_failed phase
  | mysql, MySQLError code _ =>
      if bool_decide (code = js "ERR_MYSQL_CONNECTION_REFUSED") || bool_decide (code = js "ERR_MYSQL_CONNECTION_CLOSED")
      then tx_connection_failed phase else transaction_failed phase
  | postgresql, PostgresError code _ _ =>
      if bool_decide (code = js "ERR_POSTGRES_CONNECTION_REFUSED") || bool_decide (code = js "ERR_POSTGRES_CONNECTION_CLOSED")
      then tx_connection_failed phase else transaction_failed phase
  | _, _ => escaped captured c
  end.

(** [withScope]: the drain of what the body still owns comes before its result. *)
Definition withScope {A} (body : S -> Completion A * S) (drain : S -> option StandardFailure * S) (work : S)
    : Completion A * S :=
  let (result, work) := body work in
  let (failed, work) := drain work in
  (match failed, result with Some f, ok _ => standard f | _, _ => result end, work).

(** The leaf of the callback's value, and what it carries. *)
Definition decision (commit rollback : jstr) (completed : Completion cvalue) : Completion (bool * cvalue) :=
  completion_bind completed (fun v =>
    let boxed :=
      if bool_decide (recordIdentity v = Some commit) then let! x := dataProperty v (js "value") in Ret (true, x)
      else if bool_decide (recordIdentity v = Some rollback) then let! x := dataProperty v (js "value") in Ret (false, x)
      else Throw "invalid compiler sql decision" in
    match boxed with Ret d => ok d | Throw m => caught (ThrownNative m) "can:owner" end).

(** The callback given to [begin]: how its promise settles. *)
Definition tx_callback (callback : S -> Completion cvalue * S) (drain : S -> option StandardFailure * S)
    (commit rollback : jstr) (work : S) : settled * S :=
  let (outcome, work) :=
    withScope (fun work => let (completed, work) := callback work in (decision commit rollback completed, work)) drain work in
  (match outcome with
   | ok (true, v) => Resolved v
   | ok (false, v) => Rejects (TxRollback v)
   | domain f => Rejects (TxPrimary (domain f))
   | standard f => Rejects (TxPrimary (standard f))
   end, work).

Definition attempt (callback : S -> Completion cvalue * S) (drain : S -> option StandardFailure * S)
    (commit rollback id : jstr) (d : SQLDialect) (st : store S) : Completion cvalue * store S :=
  match begin_ st with
  | Refused c st => (classifyBegin (js "begin") c d, st)
  | Started work finish =>
      let (answer, work) := tx_callback callback drain commit rollback work in
      let enteredCommit := match answer with Resolved _ => true | Rejects _ => false end in
      let (settled, st) := finish answer work in
      match settled with
      | Resolved v => (ok v, st)
      | Rejects (TxRollback v) => (ok v, st)
      | Rejects (TxPrimary c) => (c, st)
      | Rejects (Native c) =>
          if enteredCommit then (commit_unknown id, if isSQLiteFailure c then run_rollback st else st)
          else (classifyBegin (js "callback") c d, st)
      end
  end.

(** [resource_id] is the pool's, when it is a resource at all; [attempts] counts
    the attempts on this pool. *)
Definition withTransaction (call : Call) (nested : bool) (resource_id : option jstr) (attempts : Z)
    (callback : S -> Completion cvalue * S) (drain : S -> option StandardFailure * S) (commit rollback : jstr) (st : store S)
    : res (Completion cvalue * store S * Z) :=
  if denied call is Some violation then Ret (standard violation, st, attempts)
  else if bool_decide (commit = []) || bool_decide (rollback = []) || bool_decide (commit = rollback)
  then Throw "invalid compiler sql decision leaves"
  else if nested then Ret (standard (unavailable "can:sql-transaction"), st, attempts)
  else
    let attempts := attempts + 1 in
    match resource_id with
    | None => Ret (standard (unavailable "can:owner"), st, attempts)
    | Some resource_id =>
        let id := resource_id ++ 45%N :: dec_of_Z attempts in
        let expired := match raced call with Expired false => transaction_failed (js "budget") | _ => commit_unknown id end in
        let (outcome, st) :=
          bounded call expired (attempt callback drain commit rollback id (default postgresql (pool_dialect call))) st in
        Ret (outcome, st, attempts)
    end.
End transactions.

(** What the driver documents of [begin]: a refused begin changes nothing; a
    rejected callback rolls back, and [begin] rejects with the same value or, when
    the rollback itself fails, with a native one; a resolved callback commits, or
    [begin] rejects natively and the commit landed or not, and only SQLite then
    leaves the transaction open.  [ROLLBACK] discards an open transaction. *)
Class TransactionalDriver {S : Type} (begin_ : store S -> begun S) (run_rollback : store S -> store S) : Prop := {
  begin_refused st c st' : begin_ st = Refused c st' -> st' = st;
  begin_works st work finish : begin_ st = Started work finish -> work = committed st;
  begin_rolls_back st work finish e w a st' :
    begin_ st = Started work finish -> finish (Rejects e) w = (a, st') ->
    committed st' = committed st /\ ((a = Rejects e /\ open_tx st' = None) \/ exists c, a = Rejects (Native c));
  begin_commits st work finish v w a st' :
    begin_ st = Started work finish -> finish (Resolved v) w = (a, st') ->
    (a = Resolved v /\ st' = mkStore w None)
    \/ exists c, a = Rejects (Native c) /\ (committed st' = committed st \/ committed st' = w)
         /\ (isSQLiteFailure c = false -> open_tx st' = None);
  rollback_keeps st : committed (run_rollback st) = committed st
}.

Section atomic.
Context {S : Type} (begin_ : store S -> begun S) (run_rollback : store S -> store S).
Context `{Hdriver : TransactionalDriver S begin_ run_rollback} (captured : cause -> StandardFailure) (contracts : SQLContracts).
Context (callback : S -> Completion cvalue * S) (drain : S -> option StandardFailure * S) (commit rollback : jstr).

(** What the callback asks for with a completion, when the drain of what it left
    running has [failure]: the leaf [leaf] with the value [v], and nothing failed. *)
Definition asks (leaf : jstr) (completed : Completion cvalue) (failure : option StandardFailure) (v : cvalue) : Prop :=
  failure = None /\ exists r, completed = ok r /\ recordIdentity r = Some leaf /\ dataProperty r (js "value") = Ret v.

(** The failure that the callback ends with: its own, or that of the drain after a
    leaf. *)
Definition fails (completed : Completion cvalue) (failure : option StandardFailure) (F : Completion cvalue) : Prop :=
  (is_ok completed = false /\ F = completed)
  \/ exists r leaf v f, completed = ok r /\ (leaf = commit \/ leaf = rollback) /\ recordIdentity r = Some leaf
       /\ dataProperty r (js "value") = Ret v /\ failure = Some f /\ F = standard f.

(** What one attempt may have done: [work] is what the callback and then the drain
    leave of the committed contents. *)
Definition atomic (id : jstr) (st : store S) (outcome : Completion cvalue) (st' : store S) : Prop :=
  let (completed, work) := callback (committed st) in
  let (failure, work) := drain work in
  (committed st' = committed st \/ (committed st' = work /\ exists v, asks commit completed failure v))
  /\ (forall v, outcome = ok v ->
        open_tx st' = None
        /\ ((asks commit completed failure v /\ committed st' = work)
            \/ (asks rollback completed failure v /\ committed st' = committed st)))
  /\ (committed st' <> committed st ->
        outcome = commit_unknown contracts id \/ exists v, asks commit completed failure v /\ outcome = ok v)
  /\ ((forall st, open_tx (run_rollback st) = None) -> (exists v, asks commit completed failure v) -> open_tx st = None ->
        open_tx st' = None).

(** What an attempt answers when the driver does as it is asked: it commits, or it
    rejects with what the callback rejects with. *)
Definition obeyed (st : store S) (outcome : Completion cvalue) (st' : store S) : Prop :=
  forall w finish, begin_ st = Started w finish ->
    (forall v x, (finish (Resolved v) x).1 = Resolved v) -> (forall e x, (finish (Rejects e) x).1 = Rejects e) ->
  let (completed, work) := callback (committed st) in
  let (failure, work) := drain work in
  (forall v, asks commit completed failure v -> outcome = ok v /\ committed st' = work)
  /\ (forall v, asks rollback completed failure v -> outcome = ok v /\ committed st' = committed st)
  /\ (forall F, fails completed failure F -> outcome = F /\ committed st' = committed st).

(** How the callback given to [begin] settles. *)
Lemma tx_callback_settles work : commit <> rollback ->
  let (completed, w1) := callback work in
  let (failure, w2) := drain w1 in
  exists answer, tx_callback callback drain commit rollback work = (answer, w2)
    /\ match answer with
       | Resolved v => asks commit completed failure v
       | Rejects (TxRollback v) => asks rollback completed failure v
       | Rejects (TxPrimary c) => is_ok c = false
       | Rejects (Native _) => False
       end
    /\ (forall v, asks commit completed failure v -> answer = Resolved v)
    /\ (forall v, asks rollback completed failure v -> answer = Rejects (TxRollback v))
    /\ (forall F, fails completed failure F -> answer = Rejects (TxPrimary F)).
Proof using Type.
  intros Hne. unfold tx_callback, withScope. destruct (callback work) as [completed w1]. destruct (drain w1) as [failure w2].
  unfold asks, fails. destruct completed as [r|f|f]; unfold decision, completion_bind.
  2-3: (destruct failure; eexists; (split; [reflexivity |]); split_and!; [done | naive_solver.. |];
        intros F [[_ ->] | (? & ? & ? & ? & ? & _)]; done).
  case_bool_decide as Hc; [| case_bool_decide as Hr]; [destruct (dataProperty r (js "value")) as [x|m] eqn:Hx.. |];
    cbn [res_bind caught]; destruct failure as [f|]; eexists; (split; [reflexivity |]);
    (split; [eauto 6 | split; [intros v (? & ? & ? & ? & ?); simplify_eq; congruence |]]);
    (split; [intros v (? & ? & ? & ? & ?); simplify_eq; congruence |]);
    intros F [[? ->] | (? & ? & ? & ? & ? & [|] & ? & ? & ? & ->)]; simplify_eq; congruence.
Qed.

Lemma classifyBegin_fails phase c d v : @classifyBegin captured contracts cvalue phase c d <> ok v.
Proof. destruct d, c; cbn; repeat case_match; done. Qed.

Lemma attempt_atomic id d st : commit <> rollback -> open_tx st = None ->
  let r := attempt begin_ run_rollback captured contracts callback drain commit rollback id d st in
  atomic id st r.1 r.2 /\ obeyed st r.1 r.2.
Proof using Hdriver.
  intros Hne Hopen. unfold attempt, atomic, obeyed. pose proof (tx_callback_settles (committed st) Hne) as Hcb.
  destruct (callback (committed st)) as [completed w1] eqn:Hcall. destruct (drain w1) as [failure work] eqn:Hdrain.
  destruct Hcb as (answer & Hcb & Hans & Hcommit & Hroll & Hfails).
  destruct (begin_ st) as [c st'|w finish] eqn:Hbegin; cbn [fst snd].
  { apply begin_refused in Hbegin as ->. split; [| done]. split; [by left |].
    split; [intros v Hv; by apply classifyBegin_fails in Hv | done]. }
  pose proof (begin_works st w finish Hbegin) as ->. rewrite Hcb.
  destruct (finish answer work) as [a st'] eqn:Hfin. split.
  - destruct answer as [v|e].
    + destruct (begin_commits _ _ _ _ _ _ _ Hbegin Hfin) as [(-> & ->)|(c & -> & Hland & Hleft)]; cbn [fst snd].
      * split; [right; eauto |]. split; [intros x [= <-]; split; [done | by left] |]. split; [right; eauto | done].
      * assert (forall st'', (st'' = run_rollback st' \/ (st'' = st' /\ isSQLiteFailure c = false)) ->
          (committed st'' = committed st \/ committed st'' = work)
          /\ ((forall st, open_tx (run_rollback st) = None) -> open_tx st'' = None)) as Hst.
        { intros st'' [->|[-> Hc]]; [rewrite rollback_keeps; by split | split; [done | intros _; by apply Hleft]]. }
        destruct (Hst (if isSQLiteFailure c then run_rollback st' else st')) as [Hc Ho];
          [destruct (isSQLiteFailure c); auto |].
        split; [destruct Hc; eauto |]. split; [done |]. split; [by left |]. intros Hr _ _. by apply Ho.
    + assert (forall v, asks commit completed failure v -> False) as Hnever by (intros v Hv; by apply Hcommit in Hv).
      destruct (begin_rolls_back _ _ _ _ _ _ _ Hbegin Hfin) as [Hkeep [[-> Hnone]|[c ->]]]; cbn [fst snd].
      * destruct e as [c|v|c]; cbn [fst snd]; [done | |].
        -- split; [by left |]. split; [intros x [= <-]; split; [done | by right] |]. split; [done |]. by intros _ [v' ?%Hnever].
        -- split; [by left |]. split; [intros v ->; done |]. split; [done |]. by intros _ [v' ?%Hnever].
      * split; [by left |]. split; [intros v Hv; by apply classifyBegin_fails in Hv |]. split; [done |]. by intros _ [v ?%Hnever].
  - intros w finish' [= <- <-] Hgood Hbad. split_and!.
    + intros v Hv. apply Hcommit in Hv as ->. pose proof (Hgood v work) as Hg. rewrite Hfin in Hg. cbn in Hg. subst a.
      destruct (begin_commits _ _ _ _ _ _ _ Hbegin Hfin) as [(_ & ->)|(c & [=] & _)]. done.
    + intros v Hv. apply Hroll in Hv as ->. pose proof (Hbad (TxRollback v) work) as Hg. rewrite Hfin in Hg. cbn in Hg. subst a.
      by destruct (begin_rolls_back _ _ _ _ _ _ _ Hbegin Hfin) as [Hkeep _].
    + intros F HF. apply Hfails in HF as ->. pose proof (Hbad (TxPrimary F) work) as Hg. rewrite Hfin in Hg. cbn in Hg. subst a.
      by destruct (begin_rolls_back _ _ _ _ _ _ _ Hbegin Hfin) as [Hkeep _].
Qed.
End atomic.

(** C28. Over a driver that keeps what it documents, a transaction is all or
    nothing.  Whatever the callback does, and however its leaf, its failures, the
    drain of what it left running, the native client and the bound of the boundary
    fall: the committed contents are those before, or those that the callback and
    then the drain left, and that only when the callback ended with the commit leaf
    and the drain did not fail.  Success is reported only for such a commit that
    landed, or for a rollback leaf with the contents kept, with the value of the
    leaf; changed contents are reported as success or as commit-unknown under the
    attempt's id; and once a commit was asked for no transaction is left open,
    unless SQLite refuses the [ROLLBACK].  When neither the bound nor the driver
    interferes, a commit leaf commits, a rollback leaf keeps the contents, and a
    failure of the callback, or else of the drain, is the outcome. *)
Theorem transactions_are_atomic {S : Type} (begin_ : store S -> begun S) (run_rollback : store S -> store S)
    `{!TransactionalDriver begin_ run_rollback} captured contracts call nested resource_id attempts callback drain commit rollback st
    outcome st' attempts' :
  open_tx st = None ->
  withTransaction begin_ run_rollback captured contracts call nested resource_id attempts callback drain commit rollback st
    = Ret (outcome, st', attempts') ->
  (st' = st /\ is_ok outcome = false
   /\ (denied call = None -> nested = false -> is_Some resource_id -> available call = true -> raced call = Expired false))
  \/ exists id r, resource_id = Some r /\ id = r ++ 45%N :: dec_of_Z attempts' /\ attempts < attempts'
     /\ atomic run_rollback contracts callback drain commit rollback id st outcome st'
     /\ (raced call = Settles -> obeyed begin_ callback drain commit rollback st outcome st').
Proof.
  intros Hopen. unfold withTransaction. destruct (denied call); [intros [= <- <- _]; by left |].
  destruct (_ || _ || _) eqn:Hleaves; [done |]. apply orb_false_iff in Hleaves as [_ Hne%bool_decide_eq_false].
  destruct nested; [intros [= <- <- _]; by left |].
  destruct resource_id as [r|]; [| intros [= <- <- _]; left; split_and!; [done | done | by intros _ _ [? [=]]]].
  set (id := r ++ 45%N :: dec_of_Z (attempts + 1)).
  destruct (attempt_atomic begin_ run_rollback captured contracts callback drain commit rollback id
    (default postgresql (pool_dialect call)) st Hne Hopen) as [Hat Hob].
  destruct (attempt begin_ run_rollback captured contracts callback drain commit rollback id
    (default postgresql (pool_dialect call)) st) as [o s] eqn:Ho. cbn [fst snd] in Hat, Hob.
  unfold bounded. destruct (raced call) as [|[]] eqn:Hraced.
  - destruct (available call); [| intros [= <- <- _]; left; split_and!; done]. rewrite Ho. intros [= <- <- <-]. right.
    exists id, r. split_and!; [done | done | lia | done | done].
  - destruct (available call); [| intros [= <- <- _]; left; split_and!; done]. rewrite Ho. cbn [snd]. intros [= <- <- <-]. right.
    exists id, r. split_and!; [done | done | lia | | done]. unfold atomic in *.
    destruct (callback (committed st)) as [completed w1]. destruct (drain w1) as [failure work].
    destruct Hat as (H1 & _ & _ & H4). split; [done |]. split; [done |]. split; [by left | done].
  - intros [= <- <- _]. left. by split_and!.
Qed.

(** A driver that keeps its promises, on a counter. *)
Definition demo_begin (st : store Z) : begun Z :=
  Started (committed st) (fun answer work =>
    match answer with
    | Resolved v => (Resolved v, mkStore work None)
    | Rejects e => (Rejects e, mkStore (committed st) None)
    end).
Definition demo_rollback (st : store Z) : store Z := mkStore (committed st) None.

#[global] Instance demo_driver : TransactionalDriver demo_begin demo_rollback.
Proof.
  split; cbn; unfold demo_begin; try done.
  - by intros st work finish [= <- <-].
  - intros st work finish e w a st' [= <- <-] [= <- <-]. split; [done | by left].
  - intros st work finish v w a st' [= <- <-] [= <- <-]. by left.
Qed.

Definition demo_call : Call := mkCall None (Some sqlite) true Settles.
Definition demo_leaf (leaf : jstr) (v : Z) : cvalue := CRecord leaf [(js "value", CInt v)].

Lemma transactions_are_atomic_witness :
  let callback := fun work => (ok (demo_leaf (js "Commit") 7), work + 1) in
  let drain := fun work => (None, work) in
  let st := mkStore 41 None in
  withTransaction demo_begin demo_rollback demo_captured demo_contracts demo_call false (Some (js "p")) 0 callback drain
    (js "Commit") (js "Rollback") st = Ret (ok (CInt 7), mkStore 42 None, 1)
  /\ ((mkStore 42 None = st /\ @is_ok cvalue (ok (CInt 7)) = false
       /\ (denied demo_call = None -> false = false -> is_Some (Some (js "p")) -> available demo_call = true -> raced demo_call = Expired false))
      \/ exists id r, Some (js "p") = Some r /\ id = r ++ 45%N :: dec_of_Z 1 /\ 0 < 1
         /\ atomic demo_rollback demo_contracts callback drain (js "Commit") (js "Rollback") id st (ok (CInt 7)) (mkStore 42 None)
         /\ (raced demo_call = Settles -> obeyed demo_begin callback drain (js "Commit") (js "Rollback") st (ok (CInt 7)) (mkStore 42 None))).
Proof.
  cbn zeta. split; [vm_compute; reflexivity |].
  apply (transactions_are_atomic demo_begin demo_rollback demo_captured demo_contracts demo_call false); [reflexivity |].
  vm_compute. reflexivity.
Defined.

Example expired_transaction_may_land :
  withTransaction demo_begin demo_rollback demo_captured demo_contracts (mkCall None (Some sqlite) true (Expired true)) false (Some (js "p")) 4
    (fun work => (ok (demo_leaf (js "Commit") 7), work + 1)) (fun work => (None, work)) (js "Commit") (js "Rollback")
    (mkStore 41 None)
  = Ret (commit_unknown demo_contracts (js "p-5"), mkStore 42 None, 5).
Proof. vm_compute. reflexivity. Qed.

(** ** Bound values *)

(** A statement's text with its sites, and what the literals and numbers of a
    descriptor spell. *)
Definition segment_text (s : SQLSegment) : list (N + Z) :=
  match s_text s, s_param s with
  | Some text, _ => inl <$> text
  | None, Some n => [inr n]
  | None, None => []
  end.

Fixpoint weave (literals : list jstr) (ns : list Z) : list (N + Z) :=
  match literals, ns with
  | literal :: literals, n :: ns => (inl <$> literal) ++ inr n :: weave literals ns
  | literal :: _, [] => inl <$> literal
  | [], _ => []
  end.

Lemma split_segments_spec total segments : forall literal literals ns,
  split_segments total segments literal = Ret (literals, ns) ->
  weave literals ns = (inl <$> literal) ++ mjoin (segment_text <$> segments) /\ Forall (fun n => 1 <= n <= total) ns.
Proof.
  induction segments as [|[text param] segments IH]; intros literal literals ns; cbn [split_segments s_text s_param].
  - intros [= <- <-]. cbn. by rewrite app_nil_r.
  - destruct text as [text|], param as [n|]; try done.
    + intros H. destruct (IH _ _ _ H) as [-> Hns]. split; [| done]. rewrite fmap_cons. cbn [mjoin list_join segment_text s_text].
      by rewrite fmap_app, <- app_assoc.
    + destruct (Z.leb_spec 1 n), (Z.leb_spec n total); cbn [andb]; try done.
      intros ([ls ms] & Hrest & H')%res_bind_ret. injection H' as <- <-. destruct (IH _ _ _ Hrest) as [Hw Hns].
      split; [| by constructor]. cbn [weave]. rewrite Hw. done.
Qed.

Lemma make_descriptor_spec ref owner name e d : make_descriptor ref owner name e = Ret d ->
  d_entry d = e /\ weave (strings d) (numbers d) = mjoin (segment_text <$> e_segments e)
  /\ Forall (fun n => 1 <= n <= e_total e) (numbers d).
Proof.
  unfold make_descriptor. repeat (match goal with |- (if ?b then _ else _) = _ -> _ => destruct b; [done |] end).
  intros ([literals ns] & Hsplit & H)%res_bind_ret. destruct (negb _); [done |]. injection H as <-.
  destruct (split_segments_spec _ _ _ _ _ Hsplit). by split.
Qed.

Lemma declare_all_made entries : forall ref m m',
  declare_all entries ref m = Ret m' ->
  map_Forall (fun _ d => exists ref owner name e, make_descriptor ref owner name e = Ret d) m ->
  map_Forall (fun _ d => exists ref owner name e, make_descriptor ref owner name e = Ret d) m'.
Proof.
  induction entries as [|[[owner name] e] entries IH]; intros ref m m' H Hm; cbn [declare_all] in H; [by injection H as <- |].
  apply res_bind_ret in H as (d & Hd & H). eapply IH; [exact H |]. apply map_Forall_insert_2; [by eexists _, _, _, _ | done].
Qed.

(** The values of a statement, each where its site stands. *)
Definition placed (d : SQLDescriptor) (values : list cell) (at_sites : list cell) : Prop :=
  Forall2 (fun n c => values !! Z.to_nat (n - 1) = Some c) (numbers d) at_sites.

Lemma template_placed entries descriptors d values t :
  createSQLDescriptors entries = Ret descriptors -> descriptors !! descriptor_key (d_owner d) (d_name d) = Some d ->
  template descriptors d values = Ret t ->
  t.1 = strings d /\ weave t.1 (numbers d) = mjoin (segment_text <$> e_segments (d_entry d)) /\ placed d values t.2.
Proof.
  intros Hall Hd. unfold template. rewrite Hd, bool_decide_true by done. cbn [negb].
  destruct (Z.eqb_spec (Z.of_nat (length values)) (e_total (d_entry d))) as [Hlen|]; [| done]. intros [= <-]. cbn [fst snd].
  destruct (declare_all_made _ _ _ _ Hall (map_Forall_empty _) _ _ Hd) as (ref & owner & name & e & Hmake).
  destruct (make_descriptor_spec _ _ _ _ _ Hmake) as (<- & Hw & Hns). split_and!; [done | done |].
  unfold placed. apply Forall2_fmap_r, Forall_Forall2_diag. eapply Forall_impl; [exact Hns |]. cbn. intros n Hn.
  destruct (lookup_lt_is_Some_2 values (Z.to_nat (n - 1))) as [c ->]; [lia | done].
Qed.

Section queries.
Context {S : Type} (statement : SQLTemplate -> S -> statement_result * S).
Context (captured : cause -> StandardFailure) (contracts : SQLContracts) (descriptors : gmap jstr SQLDescriptor).

Lemma classify_fails {A} d operation c : is_ok (@classify captured contracts A d operation c) = false.
Proof. unfold classify. destruct d, c; cbn; repeat case_match; simplify_eq; done. Qed.

Lemma launch_ok operation d plan call ps limit st rs st' :
  launch statement captured contracts descriptors operation d plan call ps limit st = Ret (ok rs, st') ->
  exists bound t count affected, encodeParams contracts plan ps = Ret (ok bound)
    /\ template descriptors d (if e_limit (d_entry d) =? 0 then bound else bound ++ [limit]) = Ret t
    /\ statement t st = (Result (Some rs) count affected, st').
Proof.
  unfold launch. destruct (denied call); [done |]. destruct (match pool_dialect call with Some p => _ | None => _ end); [done |].
  intros (encoded & Henc & H)%res_bind_ret. destruct encoded as [bound| |]; [| done | done].
  apply res_bind_ret in H as (t & Ht & H). unfold bounded in H. destruct (raced call) as [|[]]; [| by destruct (available call) | done].
  destruct (available call); [| done]. destruct (statement t st) as [[[rows|] count affected|c] st1] eqn:Hs; [| done |].
  - injection H as <- <-. by exists bound, t, count, affected.
  - exfalso. assert (is_ok (@classify captured contracts (list (option native_row)) (default (e_dialect (d_entry d)) (pool_dialect call)) operation c) = false)
      by apply classify_fails. injection H as H _. rewrite H in *. done.
Qed.

Lemma decode_rows_ok profile schema : forall rs vs,
  decode_rows contracts profile schema rs = Ret (ok vs) ->
  Forall2 (fun row v => decodeRow contracts profile schema row = Ret (ok v)) rs vs.
Proof.
  induction rs as [|row rs IH]; intros vs; cbn [decode_rows]; [by intros [= <-] |].
  intros (v & Hv & H)%res_bind_ret. destruct v as [v| |]; [| done | done].
  apply res_bind_ret in H as (rest & Hrest & H). destruct rest as [rest| |]; [| done | done]. injection H as <-.
  constructor; [done | by apply IH].
Qed.
End queries.

(** C30. A successful [query_rows] ran one statement: the text of its descriptor,
    whatever the parameters are, with the encoded parameters and the limit, one
    past the bound, in the sites of that text; the answer kept to the bound and
    every row of it is among the values, in order. *)
Theorem queries_bind_and_bound {S : Type} (statement : SQLTemplate -> S -> statement_result * S) captured contracts entries descriptors
    d plan call ps max st vs st' :
  createSQLDescriptors entries = Ret descriptors -> descriptors !! descriptor_key (d_owner d) (d_name d) = Some d ->
  queryRows statement captured contracts descriptors d plan call ps (CInt max) st = Ret (ok vs, st') ->
  0 <= max < MAX_INT64 /\ Z.of_nat (length vs) <= max
  /\ exists schema bound sites rs count affected,
       rows plan = Some schema /\ encodeParams contracts plan ps = Ret (ok bound)
       /\ weave (strings d) (numbers d) = mjoin (segment_text <$> e_segments (d_entry d))
       /\ placed d (if e_limit (d_entry d) =? 0 then bound else bound ++ [NBigInt (max + 1)]) sites
       /\ statement (strings d, sites) st = (Result (Some rs) count affected, st')
       /\ Forall2 (fun row v => decodeRow contracts (call_profile d call) schema row = Ret (ok v)) rs vs.
Proof.
  intros Hall Hd. unfold queryRows. destruct (rows plan) as [schema|]; [| done].
  destruct (Z.ltb_spec max 0) as [|Hmin]; [done |]. destruct (Z.leb_spec MAX_INT64 max) as [|Hmax]; [done |].
  intros ([outcome st1] & Hl & H)%res_bind_ret. destruct outcome as [rs| |]; [| done | done].
  destruct (Z.ltb_spec max (Z.of_nat (length rs))) as [|Hlen]; [done |].
  apply res_bind_ret in H as (c & Hc & H). injection H as -> ->. apply decode_rows_ok in Hc.
  apply launch_ok in Hl as (bound & [ss sites] & count & affected & Henc & Ht & Hs).
  destruct (template_placed _ _ _ _ _ Hall Hd Ht) as (Hss & Hw & Hp). cbn [fst snd] in *. subst ss.
  split; [lia |]. split; [by rewrite <- (Forall2_length _ _ _ Hc) |]. by exists schema, bound, sites, rs, count, affected.
Qed.

Definition demo_entry : SQLDescriptorEntry :=
  mkEntry sqlite c_many (js "select_statement")
    [mkSegment (Some (js "SELECT v FROM t WHERE k = ")) None; mkSegment None (Some 1); mkSegment (Some (js " LIMIT ")) None; mkSegment None (Some 2)]
    [js "k"] (js "Params") (js "Row") 2 2 102.
Definition demo_plan : SQLPlan :=
  mkPlan (mkPlanSchema (js "Params") [mkPlanField (js "k") (Plain s_str) None None None])
    (Some (mkPlanSchema (js "Row") [mkPlanField (js "v") (Plain s_int) None None None])) None None.
Definition demo_descriptor : SQLDescriptor :=
  mkDescriptor 0 (js "app") (js "by_key") demo_entry [js "SELECT v FROM t WHERE k = "; js " LIMIT "; []] [1; 2].
Definition demo_table : gmap jstr SQLDescriptor := {[descriptor_key (js "app") (js "by_key") := demo_descriptor]}.
Definition demo_statement (t : SQLTemplate) (n : nat) : statement_result * nat :=
  (Result (Some [Some [(js "v", NBigInt 8)]]) NUndefined NUndefined, S n).

Lemma queries_bind_and_bound_witness :
  queryRows demo_statement demo_captured demo_contracts demo_table demo_descriptor demo_plan demo_call
    (CRecord (js "Params") [(js "k", CStr (js "'; DROP TABLE t"))]) (CInt 1) 0%nat = Ret (ok [CRecord (js "Row") [(js "v", CInt 8)]], 1%nat)
  /\ Z.of_nat (length [CRecord (js "Row") [(js "v", CInt 8)]]) <= 1.
Proof.
  split; [vm_compute; reflexivity |].
  apply (queries_bind_and_bound demo_statement demo_captured demo_contracts [(js "app", js "by_key", demo_entry)] demo_table demo_descriptor
    demo_plan demo_call (CRecord (js "Params") [(js "k", CStr (js "'; DROP TABLE t"))]) 1 0%nat _ 1%nat);
    vm_compute; reflexivity.
Defined.
