(* ===== verification/FileLedger.v ===== *)
(** * The file ledger backend

    [src/runtime/outbound/file-ledger.ts]: the persisted document and its check, the
    lock file, and one [commit] as the sequence of its file operations.  Commits of
    any number of processes interleave between two operations; an operation may be
    rejected and a process may stop at any point. *)
From stdpp Require Import base gmap list strings.
From Stdlib Require Import ZArith Lia.
From S2P Require Import Prelude JsNumber JsString JsValue Unicode Identity Epoch Ledger JsonCodec Json.

Definition LOCK_ATTEMPTS : nat := 200.
Definition LOCK_WAIT_MS : Z := 5.
Definition LOCK_STALE_MS : Z := 10000.

(** ** The document *)

(** The JSON values of a state; the members of a map are in the order of the map. *)
Definition doc_int (z : Z) : doc := DNumber (dec_of_Z z).
Definition doc_map {A} (f : A -> doc) (m : gmap jstr A) : doc := DObject ((fun p => (p.1, f p.2)) <$> map_to_list m).

Definition schedule_doc (s : EpochSchedule) : doc :=
  DObject [(js "pool", DString (sch_pool s)); (js "limit", doc_int (sch_limit s)); (js "periodMs", doc_int (sch_periodMs s));
           (js "anchorMs", doc_int (sch_anchorMs s)); (js "version", DString (sch_version s))].
Definition row_doc (r : EpochRow) : doc :=
  DObject [(js "tenant", DString (row_tenant r)); (js "pool", DString (row_pool r)); (js "start", doc_int (row_start r));
           (js "end", doc_int (row_end r)); (js "limit", doc_int (row_limit r));
           (js "scheduleVersion", DString (row_scheduleVersion r)); (js "committed", doc_int (row_committed r));
           (js "held", doc_int (row_held r))].
Definition state_text (s : InvocationState) : jstr :=
  match s with Held => js "held" | Fenced => js "fenced" | Settled => js "settled" | Released => js "released" end.
Definition usage_doc (u : Usage) : doc :=
  DObject [(js "inputTokens", doc_int (inputTokens u)); (js "outputTokens", doc_int (outputTokens u))].

(** An absent [usage] is not written; a bare record is the fence alone. *)
Definition entry_doc (e : Entry) : doc :=
  match e with
  | Bare => DObject [(js "state", DString (js "fenced")); (js "fenced", DBool true)]
  | Full r => DObject (
      [(js "invocationId", DString (inv_id r)); (js "tenant", DString (inv_tenant r)); (js "pool", DString (inv_pool r));
       (js "correlation", DString (inv_correlation r)); (js "epochStart", doc_int (inv_epochStart r));
       (js "epochEnd", doc_int (inv_epochEnd r)); (js "limit", doc_int (inv_limit r));
       (js "scheduleVersion", DString (inv_scheduleVersion r));
       (js "profile", DObject [(js "provider", DString (mp_provider (inv_profile r))); (js "model", DString (mp_model (inv_profile r)));
                               (js "version", DString (mp_version (inv_profile r)))]);
       (js "profileIdentity", DString (inv_profileIdentity r)); (js "upperBound", doc_int (inv_upperBound r));
       (js "state", DString (state_text (inv_state r))); (js "fenced", DBool (inv_fenced r)); (js "breach", DBool (inv_breach r))]
      ++ match inv_usage r with Some u => [(js "usage", usage_doc u)] | None => [] end)
  end.

Definition state_doc (s : LedgerState) : doc :=
  DObject [(js "version", doc_int (version s)); (js "schedules", doc_map (fun l => DArray (schedule_doc <$> l)) (schedules s));
           (js "epochs", doc_map row_doc (epochs s)); (js "invocations", doc_map entry_doc (invocations s));
           (js "quarantined", DObject ((fun k => (k, DBool true)) <$> elements (quarantined s)))].

Definition isRecord (d : option doc) : option (list (jstr * doc)) :=
  match d with Some (DObject ms) => Some ms | _ => None end.

(** [parsed.version], when it is a safe integer. *)
Definition doc_version (d : doc) : option Z :=
  match d with
  | DObject ms =>
      match last_member ms (js "version") with
      | Some (DNumber token) => safe_integer (number_of_token token)
      | _ => None
      end
  | _ => None
  end.

Fixpoint check_records (ms : list (jstr * doc)) (keys : list string) : res unit :=
  match keys with
  | [] => Ret tt
  | k :: keys =>
      match isRecord (last_member ms (js k)) with
      | None => Throw ("ledger file corrupt: bad " +:+ k)
      | Some _ => check_records ms keys
      end
  end.

Definition parseLedgerState (text : jstr) : res doc :=
  match JSON_parse text with
  | None => Throw "ledger file corrupt: invalid JSON"
  | Some d =>
      match isRecord (Some d) with
      | None => Throw "ledger file corrupt: not an object"
      | Some ms =>
          match doc_version d with
          | Some v =>
              guard_throw (negb (v <? 0)) "ledger file corrupt: bad version" (
              let! _ := check_records ms ["schedules"; "epochs"; "invocations"; "quarantined"]%string in
              Ret d)
          | None => Throw "ledger file corrupt: bad version"
          end
      end
  end.

(** ** The directory *)

(** Files are nodes, which names refer to; a handle keeps the node it opened. *)
Record disk : Type := mkDisk {
  clock : Z;
  (** the lock file: the commit that created it and its modification time *)
  lock : option (nat * Z);
  nodes : gmap nat (list N);
  next_node : nat;
  (** [path] *)
  path : option nat;
  (** [path.tmp-pid], by process *)
  temporaries : gmap Z nat
}.

Definition set_clock (d : disk) (t : Z) : disk := mkDisk t (lock d) (nodes d) (next_node d) (path d) (temporaries d).
Definition set_lock (d : disk) (l : option (nat * Z)) : disk := mkDisk (clock d) l (nodes d) (next_node d) (path d) (temporaries d).

(** [open(temporary, "w")]: an existing file is truncated, else one is created. *)
Definition open_temporary (d : disk) (pid : Z) : nat * disk :=
  match temporaries d !! pid with
  | Some n => (n, mkDisk (clock d) (lock d) (<[n := []]> (nodes d)) (next_node d) (path d) (temporaries d))
  | None =>
      (next_node d, mkDisk (clock d) (lock d) (<[next_node d := []]> (nodes d)) (S (next_node d)) (path d)
                      (<[pid := next_node d]> (temporaries d)))
  end.

(** Writing from the start of a file leaves what lies behind. *)
Definition overwrite (bytes old : list N) : list N := bytes ++ drop (length bytes) old.
Definition write_node (d : disk) (n : nat) (bytes : list N) : disk :=
  mkDisk (clock d) (lock d) (<[n := overwrite bytes (default [] (nodes d !! n))]> (nodes d)) (next_node d) (path d) (temporaries d).

(** [rename(temporary, path)]; [None] when there is no such temporary. *)
Definition rename_temporary (d : disk) (pid : Z) : option disk :=
  (fun n => mkDisk (clock d) (lock d) (nodes d) (next_node d) (Some n) (delete pid (temporaries d))) <$> temporaries d !! pid.

(** ** One commit *)

Inductive phase : Type :=
| Opening (attempts : nat)      (* [open(lockPath, "wx")], attempts left *)
| Stamping                      (* the lock exists; its time is to be written *)
| Statting (attempts : nat)     (* [stat(lockPath)], attempts left after this one *)
| Stealing (attempts : nat)     (* the lock was found stale; [rm(lockPath)] *)
| Waiting (attempts : nat) (since : Z)
| Finding                       (* [open(path, "r")] of [readCurrent] *)
| Reading (node : nat)
| Truncating                    (* [open(temporary, "w")] *)
| Filling (node : nat)
| Renaming
| Flushing                      (* [fsyncDirectory] *)
| Leaving (r : CommitResult)    (* [releaseLock], then this result *)
| Answered (r : CommitResult)
| Stopped.

Record client : Type := mkClient { pid : Z; expectedVersion : Z; next_state : LedgerState; at_ : phase }.

Definition goto (c : client) (p : phase) : client := mkClient (pid c) (expectedVersion c) (next_state c) p.

(** A commit starts with the version check; the directory exists. *)
Definition start_commit (pid expected : Z) (next : LedgerState) : client :=
  mkClient pid expected next
    (if version next =? fadd expected 1 then Opening LOCK_ATTEMPTS else Answered CommitThrew).

(** [for (attempt < LOCK_ATTEMPTS)] *)
Definition retry (attempts : nat) : phase :=
  match attempts with O => Answered CommitThrew | _ => Opening attempts end.

Section protocol.
(** [buffer.toString("utf8")] *)
Context (toString : list N -> jstr).

Definition state_bytes (s : LedgerState) : list N := utf8_encode (JSON_stringify (state_doc s)).

(** [readCurrent] on the bytes of the file; [None] is a missing file. *)
Definition readCurrent (bytes : option (list N)) : res doc :=
  match bytes with
  | None => Ret (state_doc emptyLedgerState)
  | Some bytes => parseLedgerState (toString bytes)
  end.

(** [current.version !== expectedVersion] and what follows. *)
Definition compare (c : client) (current : res doc) : phase :=
  match current with
  | Throw _ => Leaving CommitThrew
  | Ret d =>
      if bool_decide (doc_version d = Some (expectedVersion c)) then Truncating else Leaving NotCommitted
  end.

(** The next operation of client [i], which succeeds (or meets [EEXIST], [ENOENT]). *)
Definition advance (i : nat) (c : client) (d : disk) : client * disk :=
  match at_ c with
  | Opening O => (goto c (Answered CommitThrew), d)
  | Opening (S k) =>
      match lock d with
      | None => (goto c Stamping, set_lock d (Some (i, clock d)))
      | Some _ => (goto c (Statting k), d)
      end
  | Stamping =>
      (* the text goes to the file this commit created, wherever it is now *)
      (goto c Finding,
       match lock d with Some (j, _) => if (j =? i)%nat then set_lock d (Some (i, clock d)) else d | None => d end)
  | Statting k =>
      (match lock d with
       | Some (_, mtime) => if clock d - mtime >? LOCK_STALE_MS then goto c (Stealing k) else goto c (Waiting k (clock d))
       | None => goto c (Waiting k (clock d))
       end, d)
  | Stealing k => (goto c (retry k), set_lock d None)
  | Waiting k since => if clock d <? since + LOCK_WAIT_MS then (c, d) else (goto c (retry k), d)
  | Finding =>
      (goto c (match path d with Some n => Reading n | None => compare c (readCurrent None) end), d)
  | Reading n => (goto c (compare c (readCurrent (Some (default [] (nodes d !! n))))), d)
  | Truncating => let '(n, d) := open_temporary d (pid c) in (goto c (Filling n), d)
  | Filling n => (goto c Renaming, write_node d n (state_bytes (next_state c)))
  | Renaming =>
      match rename_temporary d (pid c) with
      | Some d => (goto c Flushing, d)
      | None => (goto c (Leaving CommitThrew), d)
      end
  | Flushing => (goto c (Leaving Committed), d)
  | Leaving r => (goto c (Answered r), set_lock d None)
  | Answered _ | Stopped => (c, d)
  end.

(** The next operation of the client is rejected instead. *)
Definition reject (c : client) (now : Z) : client :=
  match at_ c with
  | Opening _ | Stamping => goto c (Answered CommitThrew)
  | Statting k | Stealing k => goto c (Waiting k now)
  | Waiting _ _ => c
  | Finding | Reading _ | Truncating | Filling _ | Renaming | Flushing => goto c (Leaving CommitThrew)
  | Leaving _ => goto c (Answered CommitThrew)
  | Answered _ | Stopped => c
  end.

(** ** Interleavings *)

Record world : Type := mkWorld { clients : list client; store : disk }.

Inductive event : Type :=
| Advance (i : nat)
| Reject (i : nat)
| Stop (i : nat)
| Elapse (ms : Z).

Definition occur (w : world) (e : event) : world :=
  match e with
  | Advance i =>
      match clients w !! i with
      | Some c => let '(c, d) := advance i c (store w) in mkWorld (<[i := c]> (clients w)) d
      | None => w
      end
  | Reject i =>
      match clients w !! i with Some c => mkWorld (<[i := reject c (clock (store w))]> (clients w)) (store w) | None => w end
  | Stop i =>
      match clients w !! i with
      | Some c => mkWorld (<[i := goto c (match at_ c with Answered r => Answered r | _ => Stopped end)]> (clients w)) (store w)
      | None => w
      end
  | Elapse ms => mkWorld (clients w) (set_clock (store w) (clock (store w) + Z.max 0 ms))
  end.

Definition run (w : world) (es : list event) : world := fold_left occur es w.

(** [load] reads without the lock. *)
Definition load_file (d : disk) : res doc :=
  readCurrent ((fun n => default [] (nodes d !! n)) <$> path d).
End protocol.
