(* ===== verification/FileLedgerTheorems.v ===== *)
(** * Commits to the file ledger

    While no lock outlives [LOCK_STALE_MS] the lock excludes: a file is replaced only
    by a commit of the version it holds.  A stale lock that two commits steal at once
    loses an update. *)
From stdpp Require Import base gmap list strings.
From Stdlib Require Import ZArith Lia SpecFloat.
From S2P Require Import Prelude JsNumber JsString JsValue Unicode Numbers Digits Json Identity Epoch Ledger JsonCodec CodecTheorems JsonCodecTheorems FileLedger JsonTotal.

(** ** Integers of the document *)

Lemma shift_digits n : forall m, digits2_pos (Pos.iter xO m n) = (digits2_pos m + n)%positive.
Proof.
  induction n as [|n IH] using Pos.peano_ind; intros m; [cbn; lia |].
  rewrite Pos.iter_succ. cbn [digits2_pos]. rewrite IH. lia.
Qed.

Lemma shift_value n : forall m, Zpos (Pos.iter xO m n) = Zpos m * 2 ^ Zpos n.
Proof.
  induction n as [|n IH] using Pos.peano_ind; intros m; [cbn; lia |].
  rewrite Pos.iter_succ, Pos2Z.inj_xO, IH, Pos2Z.inj_succ, Z.pow_succ_r by lia. lia.
Qed.

Lemma digits_bound m : 2 ^ (Zpos (digits2_pos m) - 1) <= Zpos m < 2 ^ Zpos (digits2_pos m).
Proof.
  induction m as [m IH | m IH |]; cbn [digits2_pos]; [| | done];
    rewrite Pos2Z.inj_succ, Z.pow_succ_r by lia; replace (Z.succ (Zpos (digits2_pos m)) - 1) with (Z.succ (Zpos (digits2_pos m) - 1)) by lia;
    rewrite Z.pow_succ_r by lia; lia.
Qed.

(** A mantissa that needs no rounding is kept. *)
Lemma round_exact m e :
  Z.max (Zpos (digits2_pos m) + e - 53) (-1074) <= e -> e <= 971 ->
  binary_round_aux 53 1024 false (Zpos m) e loc_Exact = S754_finite false m e.
Proof.
  intros He Hmax. unfold binary_round_aux, shr_fexp.
  assert (forall mrs, shr mrs e (fexp 53 1024 (Zdigits2 (Zpos m) + e) - e) = (mrs, e)) as Hshr.
  { intros mrs. unfold shr. destruct (fexp 53 1024 (Zdigits2 (Zpos m) + e) - e) eqn:E; try done.
    exfalso. unfold fexp, emin, Zdigits2 in E. lia. }
  rewrite Hshr. cbn [shr_record_of_loc shr_m loc_of_shr_record shr_r shr_s round_nearest_even]. rewrite Hshr. cbn [shr_m].
  by rewrite (proj2 (Z.leb_le e (1024 - 53))) by lia.
Qed.

Lemma safe_number m : Zpos m <= MAX_SAFE -> safe_integer (binary_round 53 1024 false m 0) = Some (Zpos m).
Proof.
  intros Hm. assert (Zpos (digits2_pos m) <= 53) as Hd.
  { destruct (digits_bound m) as [Hlo _]. destruct (Z.le_gt_cases (Zpos (digits2_pos m)) 53) as [|Hgt]; [done |].
    assert (2 ^ 53 <= 2 ^ (Zpos (digits2_pos m) - 1)) by (apply Z.pow_le_mono_r; lia). unfold MAX_SAFE in Hm. lia. }
  assert (is_safe (Zpos m) = true) as Hsafe by (apply is_safe_spec; lia).
  unfold binary_round, shl_align.
  assert (fexp 53 1024 (Z.pos (digits2_pos m) + 0) - 0 = Zpos (digits2_pos m) - 53) as -> by (unfold fexp, emin; lia).
  destruct (Zpos (digits2_pos m) - 53) as [|p|p] eqn:E; [| lia |].
  - rewrite round_exact by lia. unfold safe_integer. cbn. by rewrite Z.mul_1_r, Hsafe.
  - assert (fexp 53 1024 (Z.pos (digits2_pos m) + 0) = Zneg p) as -> by (unfold fexp, emin; lia).
    rewrite round_exact by (rewrite ?shift_digits; lia).
    unfold safe_integer, num_to_Z. cbn [Z.leb Z.compare Z.opp]. rewrite shift_value.
    by rewrite Z.mod_mul, Z.eqb_refl, Z.div_mul, Hsafe by lia.
Qed.

Lemma token_version v : 0 <= v <= MAX_SAFE -> safe_integer (number_of_token (dec_of_Z v)) = Some v.
Proof.
  intros Hv. unfold number_of_token, floatText. rewrite strip_minus_text.
  rewrite span_digits_all by apply text_all_digits.
  rewrite dec_of_N_digits, dec_value_dec_of_N, (proj2 (Z.ltb_ge v 0)) by lia.
  unfold number_of_decimal. cbn [d_mantissa d_exponent d_negative Z.leb Z.compare].
  destruct v as [|v|v]; [done | | lia]. cbn [Z.to_N]. change (safe_integer (binary_round 53 1024 false (v * 1) 0) = Some (Z.pos v)). rewrite Pos.mul_1_r. apply safe_number, Hv.
Qed.

Lemma state_version s : 0 <= version s <= MAX_SAFE -> doc_version (state_doc s) = Some (version s).
Proof. intros H. unfold doc_version, state_doc, last_member. cbn -[doc_map number_of_token]. by apply token_version. Qed.

(** A state whose texts are texts of 16-bit units. *)
Definition writable (s : LedgerState) : Prop := doc_ok (state_doc s) = true /\ 0 <= version s <= MAX_SAFE.

(** ** Exclusion *)

(** The phases between creating the lock and giving it back. *)
Definition inside (p : phase) : bool :=
  match p with
  | Stamping | Finding | Reading _ | Truncating | Filling _ | Renaming | Flushing | Leaving _ => true
  | Opening _ | Statting _ | Stealing _ | Waiting _ _ | Answered _ | Stopped => false
  end.

(** No lock is older than the bound at which it is stolen. *)
Definition timely (d : disk) : Prop := forall j m, lock d = Some (j, m) -> clock d - m <= LOCK_STALE_MS.

Record disk_ok (d : disk) : Prop := {
  do_path : forall n, path d = Some n -> (n < next_node d)%nat;
  do_temp : forall p n, temporaries d !! p = Some n -> (n < next_node d)%nat /\ path d <> Some n;
  do_apart : forall p q n, temporaries d !! p = Some n -> temporaries d !! q = Some n -> p = q
}.

Section protocol.
Context (toString : list N -> jstr).
(** Reading back the UTF-8 of a text gives the text. *)
Context (HtoString : forall bytes text, utf8_decode bytes = Some text -> toString bytes = text).

Abbreviation contents := (load_file toString).

(** The file holds the version this commit expects. *)
Definition compared (c : client) (d : disk) : Prop :=
  exists doc, contents d = Ret doc /\ doc_version doc = Some (expectedVersion c).

Definition phase_ok (c : client) (d : disk) : Prop :=
  match at_ c with
  | Stealing _ => False
  | Reading n => path d = Some n
  | Truncating => compared c d
  | Filling n => compared c d /\ temporaries d !! pid c = Some n /\ nodes d !! n = Some []
  | Renaming => compared c d /\ exists n, temporaries d !! pid c = Some n /\ nodes d !! n = Some (state_bytes (next_state c))
  | _ => True
  end.

(** The commit passed its version check. *)
Definition entered (c : client) : Prop :=
  writable (next_state c) /\ version (next_state c) = fadd (expectedVersion c) 1.

Definition client_ok (i : nat) (c : client) (d : disk) : Prop :=
  entered c /\ (inside (at_ c) = true -> exists m, lock d = Some (i, m)) /\ phase_ok c d.

Definition world_ok (w : world) : Prop :=
  disk_ok (store w) /\ forall i c, clients w !! i = Some c -> client_ok i c (store w).

Lemma read_state s : writable s -> readCurrent toString (Some (state_bytes s)) = Ret (state_doc s).
Proof using HtoString.
  intros [Hok Hv]. unfold readCurrent, state_bytes.
  destruct (utf8_decode_encode _ (stringify_units _ Hok)) as [Hdec Hw].
  rewrite (proj2 Hw (stringify_well_formed _ Hok)) in Hdec. rewrite (HtoString _ _ Hdec).
  unfold parseLedgerState. rewrite JSON_parse_stringify by done. rewrite (state_version s Hv).
  unfold state_doc at 1. cbn [isRecord]. by rewrite (proj2 (Z.ltb_ge (version s) 0)) by lia.
Qed.

(** What the other commits see of one operation. *)
Definition local_change (i : nat) (p : phase) (d d' : disk) : Prop :=
  d' = d \/ (lock d = None /\ d' = set_lock d (Some (i, clock d))) \/ inside p = true.

Lemma contents_lock d l : contents (set_lock d l) = contents d.
Proof using Type. done. Qed.

Lemma client_ok_other i j c p d d' :
  i <> j -> (inside p = true -> exists m, lock d = Some (i, m)) -> local_change i p d d' -> client_ok j c d -> client_ok j c d'.
Proof using Type.
  intros Hij Hp [-> | [[Hn ->] | Hin]] Hc; [done | |].
  - destruct Hc as (Hw & Hl & Hm). destruct (inside (at_ c)) eqn:E.
    { destruct (Hl eq_refl) as [m Hm']. congruence. }
    split; [done |]. split; [congruence |]. unfold phase_ok in *. by destruct (at_ c).
  - destruct (Hp Hin) as [m Hm]. destruct Hc as (Hw & Hl & Hmm). destruct (inside (at_ c)) eqn:E.
    { destruct (Hl eq_refl) as [m' Hm']. congruence. }
    split; [done |]. split; [congruence |]. unfold phase_ok in *. by destruct (at_ c).
Qed.

Lemma disk_ok_lock d l : disk_ok d -> disk_ok (set_lock d l).
Proof using Type. by intros []. Qed.

Lemma open_temporary_ok d pid n d' : disk_ok d -> open_temporary d pid = (n, d') ->
  disk_ok d' /\ contents d' = contents d /\ lock d' = lock d /\ temporaries d' !! pid = Some n /\ nodes d' !! n = Some [].
Proof using Type.
  intros [Hp Ht Ha] H. unfold open_temporary in H. destruct (temporaries d !! pid) as [m|] eqn:Hm; injection H as <- <-; cbn.
  - destruct (Ht _ _ Hm) as [Hlt Hne]. split_and!; [done | | done | done | by rewrite lookup_insert_eq].
    unfold load_file. cbn. destruct (path d) as [k|]; [| done]. cbn. rewrite lookup_insert_ne; [done | congruence].
  - split_and!; [split; cbn | | done | by rewrite lookup_insert_eq..].
    + intros n Hn. specialize (Hp n Hn). lia.
    + intros p n. rewrite lookup_insert_Some. intros [[_ <-] | [_ Hn]].
      * split; [lia |]. intros Hn. specialize (Hp _ Hn). lia.
      * destruct (Ht p n Hn). split; [lia | done].
    + intros p q n. rewrite !lookup_insert_Some. intros [[<- <-] | [_ H1]] [[<- H2] | [_ H2]]; [done | | | by eapply Ha].
      * destruct (Ht _ _ H2). lia.
      * subst n. destruct (Ht _ _ H1). lia.
    + unfold load_file. cbn. destruct (path d) as [k|] eqn:Hk; [| done]. cbn. specialize (Hp k eq_refl).
      rewrite lookup_insert_ne by lia. done.
Qed.

Lemma write_node_ok d n p bytes : disk_ok d -> temporaries d !! p = Some n ->
  disk_ok (write_node d n bytes) /\ contents (write_node d n bytes) = contents d.
Proof using Type.
  intros Hd Hn. destruct (do_temp d Hd p n Hn) as [_ Hne]. split; [by destruct Hd |].
  unfold load_file, write_node. cbn. destruct (path d) as [k|]; [| done]. cbn. rewrite lookup_insert_ne; [done | congruence].
Qed.

Lemma write_fresh d n bytes : nodes d !! n = Some [] -> nodes (write_node d n bytes) !! n = Some bytes.
Proof using Type.
  intros Hn. unfold write_node. cbn [nodes]. rewrite lookup_insert_eq, Hn. cbn [default from_option id].
  unfold overwrite. by rewrite drop_nil, app_nil_r.
Qed.

Lemma rename_ok d pid n s : disk_ok d -> temporaries d !! pid = Some n -> nodes d !! n = Some (state_bytes s) -> writable s ->
  exists d', rename_temporary d pid = Some d' /\ disk_ok d' /\ lock d' = lock d /\ contents d' = Ret (state_doc s).
Proof using HtoString.
  intros [Hp Ht Ha] Hn Hs Hw. unfold rename_temporary. rewrite Hn. cbn. eexists. split; [done |]. split_and!; [split; cbn | done |].
  - intros k [= <-]. by destruct (Ht _ _ Hn).
  - intros q k [Hq Hk]%lookup_delete_Some. destruct (Ht _ _ Hk). split; [done |]. intros [= ->]. apply Hq. by eapply Ha.
  - intros q r k [_ H1]%lookup_delete_Some [_ H2]%lookup_delete_Some. by eapply Ha.
  - unfold load_file. cbn. rewrite Hs. by apply read_state.
Qed.

Lemma compare_ok c d r : contents d = r ->
  match compare c r with
  | Truncating => compared c d
  | Leaving _ => True
  | _ => False
  end.
Proof using Type. intros Hr. unfold compare. destruct r as [doc|]; [| done]. case_bool_decide; [by exists doc | done]. Qed.

Lemma compare_inside c r : inside (compare c r) = true.
Proof using Type. unfold compare. destruct r; [by case_bool_decide | done]. Qed.

Lemma retry_ok k : inside (retry k) = false /\ match retry k with Opening _ | Answered _ => True | _ => False end.
Proof using Type. by destruct k. Qed.

(** What one operation does to the file. *)
Definition file_step (c : client) (d d' : disk) : Prop :=
  contents d' = contents d \/ (at_ c = Renaming /\ compared c d /\ contents d' = Ret (state_doc (next_state c))).


(** A commit that goes on without the lock, and one that goes on with it. *)
Lemma goto_outside i c p d :
  entered c -> inside p = false -> (forall k, p <> Stealing k) -> client_ok i (goto c p) d.
Proof using Type.
  intros Hw Hp Hs. split; [done |]. split; [cbn; congruence |]. unfold phase_ok. destruct p; try done. cbn. by eapply Hs.
Qed.

Lemma goto_inside i c p d m :
  entered c -> lock d = Some (i, m) -> phase_ok (goto c p) d -> client_ok i (goto c p) d.
Proof using Type. intros Hw Hl Hp. split; [done |]. split; [by exists m | done]. Qed.

Lemma compare_goto c d r : contents d = r -> phase_ok (goto c (compare c r)) d.
Proof using Type.
  intros Hr. pose proof (compare_ok c d r Hr) as H. unfold phase_ok. cbn [at_ goto].
  unfold compare in *. destruct r; [case_bool_decide |]; done.
Qed.

Lemma advance_ok i c d c' d' :
  disk_ok d -> timely d -> client_ok i c d -> advance toString i c d = (c', d') ->
  disk_ok d' /\ client_ok i c' d' /\ local_change i (at_ c) d d' /\ file_step c d d'.
Proof using HtoString.
  intros Hd Ht (Hw & Hl & Hm) H. unfold advance in H. unfold local_change, file_step, phase_ok in *.
  destruct (at_ c) as [[|k]| |k|k|k since| |n| |n| | |r|r|] eqn:Hat; cbn [inside] in *;
    try (destruct (Hl eq_refl) as [m Hlock]); clear Hl.
  - simplify_eq. split_and!; [done | by apply goto_outside | by left | by left].
  - destruct (lock d) as [l|] eqn:Hlock; simplify_eq;
      [split_and!; [done | by apply goto_outside | by left | by left] |].
    split_and!; [by apply disk_ok_lock | by apply (goto_inside _ _ _ _ (clock d)) | by right; left | by left].
  - rewrite Hlock, Nat.eqb_refl in H. simplify_eq.
    split_and!; [by apply disk_ok_lock | by apply (goto_inside _ _ _ _ (clock d)) | by right; right | by left].
  - assert (client_ok i c' d /\ d' = d) as [Hc ->]; [| by auto].
    destruct (lock d) as [[j m]|] eqn:Hlock; [| simplify_eq; split; [by apply goto_outside | done]].
    specialize (Ht j m Hlock). rewrite Z.gtb_ltb, (proj2 (Z.ltb_ge _ _)) in H by lia. simplify_eq. split; [by apply goto_outside | done].
  - done.
  - assert (client_ok i c' d /\ d' = d) as [Hc ->]; [| by auto].
    destruct (clock d <? since + LOCK_WAIT_MS); simplify_eq; [| split; [by apply goto_outside; destruct k | done]].
    split; [| done]. split; [done |]. unfold phase_ok. rewrite Hat. by split.
  - injection H as <- <-. split_and!; [done | | by left | by left]. apply (goto_inside _ _ _ _ m); [done.. |].
    destruct (path d) as [n|] eqn:Hpath; [done |]. apply (compare_goto c d (readCurrent toString None)). unfold load_file. by rewrite Hpath.
  - injection H as <- <-. split_and!; [done | | by left | by left]. apply (goto_inside _ _ _ _ m); [done.. |].
    apply (compare_goto c d (readCurrent toString (Some (default [] (nodes d !! n))))). unfold load_file. by rewrite Hm.
  - destruct (open_temporary d (pid c)) as [n d1] eqn:Ho. injection H as <- <-.
    destruct (open_temporary_ok d (pid c) n d1 Hd Ho) as (Hd' & Hc & Hlock' & Htmp & Hnode).
    split_and!; [done | | by right; right | by left]. apply (goto_inside _ _ _ _ m); [done | congruence |].
    unfold phase_ok, compared. cbn [at_ goto pid]. by rewrite Hc.
  - injection H as <- <-. destruct Hm as (Hcmp & Htmp & Hnode).
    destruct (write_node_ok d n (pid c) (state_bytes (next_state c)) Hd Htmp) as [Hd' Hc].
    split_and!; [done | | by right; right | by left]. apply (goto_inside _ _ _ _ m); [done.. |].
    unfold phase_ok, compared. cbn [at_ goto pid next_state]. rewrite Hc. split; [done |]. exists n. split; [exact Htmp | by apply write_fresh].
  - destruct Hm as (Hcmp & n & Htmp & Hnode).
    destruct (rename_ok d (pid c) n (next_state c) Hd Htmp Hnode (proj1 Hw)) as (d1 & Hr & Hd' & Hlock' & Hc).
    rewrite Hr in H. injection H as <- <-. split_and!; [done | | by right; right | right; by split_and!].
    apply (goto_inside _ _ _ _ m); [done | congruence | done].
  - injection H as <- <-. split_and!; [done | | by left | by left]. by apply (goto_inside _ _ _ _ m).
  - injection H as <- <-. split_and!; [by apply disk_ok_lock | by apply goto_outside | by right; right | by left].
  - injection H as <- <-. split_and!; [done | | by left | by left]. split; [done |]. unfold phase_ok. rewrite Hat. by split.
  - injection H as <- <-. split_and!; [done | | by left | by left]. split; [done |]. unfold phase_ok. rewrite Hat. by split.
Qed.

Lemma reject_ok i c d : client_ok i c d -> client_ok i (reject c (clock d)) d.
Proof using Type.
  intros (Hw & Hl & Hm). unfold reject. destruct (at_ c) as [| | | | | | | | | | |r|r|] eqn:Hat; cbn [inside] in Hl;
    try (apply goto_outside; [done | done | congruence]);
    try (split; [done |]; rewrite Hat; split; [done | exact Hm]);
    destruct (Hl eq_refl) as [m Hlock]; by apply (goto_inside _ _ _ _ m).
Qed.

Lemma others_ok i c w :
  world_ok w -> client_ok i c (store w) -> world_ok (mkWorld (<[i := c]> (clients w)) (store w)).
Proof using Type.
  intros [Hd Hall] Hc. split; [done |]. intros j c'. cbn [clients store].
  rewrite list_lookup_insert_Some. intros [(<- & <- & _) | [_ Hj]]; [done | by apply Hall].
Qed.

(** Any event of a timely world keeps the invariant; the file is only replaced by a
    commit that holds the lock and expects the version the file holds. *)
Lemma occur_ok w e : world_ok w -> timely (store w) ->
  world_ok (occur toString w e) /\
  (contents (store (occur toString w e)) = contents (store w) \/
   exists i c, e = Advance i /\ clients w !! i = Some c /\ entered c /\ compared c (store w)
     /\ contents (store (occur toString w e)) = Ret (state_doc (next_state c))).
Proof using HtoString.
  intros [Hd Hall] Ht. destruct e as [i|i|i|ms]; cbn [occur].
  - destruct (clients w !! i) as [c|] eqn:Hi; [| by split; [split | left]].
    destruct (advance toString i c (store w)) as [c' d'] eqn:Ha. cbn [store].
    destruct (advance_ok i c (store w) c' d' Hd Ht (Hall i c Hi) Ha) as (Hd' & Hc' & Hlocal & Hfile). split.
    + split; [done |]. intros j c0. cbn [clients store]. rewrite list_lookup_insert_Some. intros [(<- & <- & _) | [Hne Hj]]; [done |].
      apply (client_ok_other i j c0 (at_ c) (store w)); [done | apply (Hall i c Hi) | done | by apply Hall].
    + destruct Hfile as [-> | (_ & Hcmp & Hc)]; [by left | right; exists i, c; split_and!; try done; apply (Hall i c Hi)].
  - destruct (clients w !! i) as [c|] eqn:Hi; [| by split; [split | left]]. split; [| by left].
    apply others_ok; [by split |]. by apply reject_ok, Hall.
  - destruct (clients w !! i) as [c|] eqn:Hi; [| by split; [split | left]]. split; [| by left].
    apply others_ok; [by split |]. destruct (Hall i c Hi) as [Hw _]. apply goto_outside; [done | by destruct (at_ c) | by destruct (at_ c)].
  - split; [| by left]. split; [by destruct Hd |]. intros i c Hi. destruct (Hall i c Hi) as (Hw & Hl & Hm). by split_and!.
Qed.

(** Commits of states, started together on a directory. *)
Definition start (requests : list (Z * Z * LedgerState)) (d : disk) : world :=
  mkWorld ((fun r => start_commit r.1.1 r.1.2 r.2) <$> requests) d.

(** Requests of states that can be written and advance the version they expect. *)
Definition proper (r : Z * Z * LedgerState) : Prop := writable r.2 /\ version r.2 = fadd r.1.2 1.

Lemma start_ok requests d : disk_ok d -> Forall proper requests -> world_ok (start requests d).
Proof using Type.
  intros Hd Hr. split; [done |]. intros i c. cbn [clients start]. rewrite list_lookup_fmap.
  destruct (requests !! i) as [[[p v] s]|] eqn:Hi; [| done]. intros [= <-].
  destruct (Forall_lookup_1 _ _ _ _ Hr Hi) as [Hw Hv]. cbn [fst snd] in *.
  unfold start_commit. rewrite Hv, Z.eqb_refl. by apply (goto_outside i (mkClient p v s Stopped)).
Qed.

Lemma run_ok w es :
  world_ok w -> (forall n, timely (store (run toString w (take n es)))) -> world_ok (run toString w es).
Proof using HtoString.
  revert w. induction es as [|e es IH]; intros w Hw Ht; [done |]. cbn [run fold_left]. apply IH.
  - apply occur_ok; [done | apply (Ht 0%nat)].
  - intros n. apply (Ht (S n)).
Qed.

(** C6. However commits interleave, fail or stop, as long as no lock grows stale: a
    commit replaces the file only when the file holds the version the commit expects,
    and nothing else changes the file, so no update is lost. *)
Theorem file_commits_are_serial requests d es e :
  disk_ok d -> Forall proper requests ->
  (forall n, timely (store (run toString (start requests d) (take n es)))) ->
  let w := run toString (start requests d) es in
  contents (store (occur toString w e)) = contents (store w) \/
  exists i c current, e = Advance i /\ clients w !! i = Some c /\ contents (store w) = Ret current
    /\ doc_version current = Some (expectedVersion c) /\ version (next_state c) = fadd (expectedVersion c) 1
    /\ contents (store (occur toString w e)) = Ret (state_doc (next_state c)).
Proof using HtoString.
  intros Hd Hr Ht w. assert (world_ok w) as Hw by (apply run_ok; [by apply start_ok | done]).
  assert (timely (store w)) as Hnow by (specialize (Ht (length es)); by rewrite take_ge in Ht).
  destruct (occur_ok w e Hw Hnow) as [_ [Hc | (i & c & -> & Hi & [_ Hv] & (current & Hcur & Hver) & Hc)]]; [by left |].
  right. exists i, c, current. by split_and!.
Qed.

(** No two commits are between creating the lock and giving it back. *)
Theorem file_lock_excludes requests d es i j ci cj :
  disk_ok d -> Forall proper requests ->
  (forall n, timely (store (run toString (start requests d) (take n es)))) ->
  let w := run toString (start requests d) es in
  clients w !! i = Some ci -> clients w !! j = Some cj ->
  inside (at_ ci) = true -> inside (at_ cj) = true -> i = j.
Proof using HtoString.
  intros Hd Hr Ht w Hi Hj Hini Hinj. assert (world_ok w) as [_ Hall] by (apply run_ok; [by apply start_ok | done]).
  destruct (Hall i ci Hi) as (_ & Hli & _). destruct (Hall j cj Hj) as (_ & Hlj & _).
  destruct (Hli Hini) as [m Hm]. destruct (Hlj Hinj) as [m' Hm']. congruence.
Qed.

(** ** A commit alone *)

Lemma advance_alone c d es c' d' :
  advance toString 0 c d = (c', d') ->
  run toString (mkWorld [c] d) (Advance 0 :: es) = run toString (mkWorld [c'] d') es.
Proof using Type. intros H. cbn [run fold_left occur clients store lookup list_lookup]. by rewrite H. Qed.

Lemma answered_alone c d r n :
  at_ c = Answered r -> run toString (mkWorld [c] d) (replicate n (Advance 0)) = mkWorld [c] d.
Proof using Type.
  intros Hc. induction n as [|n IH]; [done |]. cbn [replicate]. rewrite (advance_alone c d _ c d); [done |].
  unfold advance. by rewrite Hc.
Qed.

Abbreviation alone c d n := (run toString (mkWorld [c] d) (replicate n (Advance 0))).

(** From the comparison on, with the lock held. *)
Lemma alone_compared c d m k s :
  disk_ok d -> lock d = Some (0%nat, m) -> contents d = Ret (state_doc s) -> writable s -> writable (next_state c) ->
  exists d', alone (goto c (compare c (Ret (state_doc s)))) d (S (S (S (S (S k)))))
    = mkWorld [goto c (Answered (if version s =? expectedVersion c then Committed else NotCommitted))] d'
  /\ contents d' = Ret (state_doc (if version s =? expectedVersion c then next_state c else s)) /\ lock d' = None /\ disk_ok d'.
Proof using HtoString.
  intros Hd Hl Hc Hs Hn. unfold compare. rewrite (state_version s (proj2 Hs)).
  destruct (Z.eqb_spec (version s) (expectedVersion c)) as [E|E].
  - rewrite bool_decide_eq_true_2 by congruence. cbn [replicate].
    destruct (open_temporary d (pid c)) as [n d1] eqn:Ho.
    destruct (open_temporary_ok d (pid c) n d1 Hd Ho) as (Hd1 & Hc1 & Hl1 & Ht1 & Hn1).
    destruct (write_node_ok d1 n (pid c) (state_bytes (next_state c)) Hd1 Ht1) as [Hd2 Hc2].
    destruct (rename_ok (write_node d1 n (state_bytes (next_state c))) (pid c) n (next_state c) Hd2 Ht1
      (write_fresh _ _ _ Hn1) Hn) as (d3 & Hr & Hd3 & Hl3 & Hc3).
    exists (set_lock d3 None). split; [| by split_and!; try apply disk_ok_lock].
    erewrite (advance_alone _ d); [| unfold advance; cbn [at_ goto pid]; rewrite Ho; reflexivity].
    erewrite (advance_alone _ d1); [| reflexivity].
    erewrite (advance_alone _ (write_node d1 n _)); [| unfold advance; cbn [at_ goto pid next_state]; rewrite Hr; reflexivity].
    erewrite (advance_alone _ d3); [| reflexivity]. erewrite (advance_alone _ d3); [| reflexivity].
    by apply (answered_alone _ _ Committed).
  - rewrite bool_decide_eq_false_2 by congruence. exists (set_lock d None). split; [| by split_and!; try apply disk_ok_lock].
    cbn [replicate]. erewrite (advance_alone _ d); [| reflexivity].
    by apply (answered_alone _ _ NotCommitted (S (S (S (S k))))).
Qed.

(** A commit that meets no other one answers within ten operations, as the memory
    ledger does, leaves the file as the memory ledger's state and gives the lock back. *)
Theorem lone_commit_is_memory_commit pid v next s d :
  disk_ok d -> lock d = None -> contents d = Ret (state_doc s) -> writable s -> proper (pid, v, next) ->
  let '(answer, s') := @commit _ createMemoryLedgerStore s v next in
  exists d', run toString (start [(pid, v, next)] d) (replicate 10 (Advance 0))
      = mkWorld [mkClient pid v next (Answered answer)] d'
    /\ contents d' = Ret (state_doc s') /\ lock d' = None /\ disk_ok d'.
Proof using HtoString.
  intros Hd Hl Hc Hs [Hn Hv]. cbn [fst snd] in *. set (c := mkClient pid v next Stopped).
  assert (start [(pid, v, next)] d = mkWorld [goto c (Opening 200)] d) as ->.
  { unfold start, start_commit. cbn [fmap list_fmap fst snd]. by rewrite Hv, Z.eqb_refl. }
  set (d1 := set_lock d (Some (0%nat, clock d))).
  assert (disk_ok d1) as Hd1 by by apply disk_ok_lock.
  assert (exists k, alone (goto c (Opening 200)) d 10 = alone (goto c (compare c (Ret (state_doc s)))) d1 (S (S (S (S (S k)))))) as [k ->].
  { cbn [replicate]. erewrite (advance_alone _ d _ (goto c Stamping) d1); [| unfold advance; cbn [at_ goto]; by rewrite Hl].
    erewrite (advance_alone _ d1 _ (goto c Finding) d1); [| reflexivity].
    change (contents d) with (contents d1) in Hc. unfold load_file in Hc. destruct (path d1) as [n|] eqn:Hp; cbn [fmap option_fmap option_map] in Hc.
    - exists 1%nat. erewrite (advance_alone _ d1 _ (goto c (Reading n)) d1); [| unfold advance; cbn [at_ goto]; by rewrite Hp].
      erewrite (advance_alone _ d1 _ (goto c (compare c (Ret (state_doc s)))) d1); [done |].
      unfold advance. cbn [at_ goto]. by rewrite Hc.
    - exists 2%nat. erewrite (advance_alone _ d1 _ (goto c (compare c (Ret (state_doc s)))) d1); [done |].
      unfold advance. cbn [at_ goto]. rewrite Hp. by rewrite Hc. }
  destruct (alone_compared c d1 (clock d) k s Hd1 eq_refl Hc Hs Hn) as (d' & -> & Hc' & Hl' & Hd').
  cbn [commit createMemoryLedgerStore]. rewrite Hv, Z.eqb_refl. cbn [expectedVersion c] in *.
  destruct (version s =? v); cbn [negb]; exists d'; by split_and!.
Qed.
End protocol.

(** ** Instances *)

Definition buffer_text (bytes : list N) : jstr := default [] (utf8_decode bytes).
Definition fresh_directory : disk := mkDisk 20000 None ∅ 0 None ∅.
(** The state after one pool was configured. *)
Definition configured (pool : jstr) : LedgerState :=
  set_schedules emptyLedgerState {[ pool := [ {| sch_pool := pool; sch_limit := 100; sch_periodMs := 1000;
    sch_anchorMs := 0; sch_version := js "v1" |} ] ]}.
Definition two_requests : list (Z * Z * LedgerState) :=
  [((1, 0), configured (js "gpu")); ((2, 0), configured (js "tpu"))]%Z.

Lemma buffer_text_spec bytes text : utf8_decode bytes = Some text -> buffer_text bytes = text.
Proof. unfold buffer_text. by intros ->. Qed.

Lemma fresh_directory_ok : disk_ok fresh_directory.
Proof. by split. Qed.

Lemma configured_proper pid : pid = 1 \/ pid = 2 -> proper (pid, 0, configured (js "gpu")) /\ proper (pid, 0, configured (js "tpu")).
Proof. intros _. by repeat split; vm_compute. Qed.

(** Commit 0 runs to its answer while commit 1 meets its lock. *)
Definition sample_events : list event :=
  [Advance 0; Advance 1; Advance 1; Advance 0; Elapse 3; Advance 1; Advance 0; Advance 0; Elapse 4; Advance 1].

Definition timely_now (d : disk) : bool :=
  match lock d with Some (_, m) => clock d - m <=? LOCK_STALE_MS | None => true end.
Lemma timely_now_spec d : timely_now d = true -> timely d.
Proof. unfold timely_now, timely. intros H j m Hl. rewrite Hl in H. by apply Z.leb_le. Qed.

Lemma sample_timely n : timely (store (run buffer_text (start two_requests fresh_directory) (take n sample_events))).
Proof.
  apply timely_now_spec. destruct (Nat.le_gt_cases (length sample_events) n) as [Hn | Hn].
  - rewrite take_ge by done. by vm_compute.
  - do 10 (destruct n as [|n]; [by vm_compute |]). cbn in Hn. lia.
Qed.

(** The replacement of the file is the last event here. *)
Lemma file_commits_are_serial_witness :
  let w := run buffer_text (start two_requests fresh_directory) sample_events in
  load_file buffer_text (store (occur buffer_text w (Advance 0))) = load_file buffer_text (store w) \/
  exists i c current, Advance 0 = Advance i /\ clients w !! i = Some c /\ load_file buffer_text (store w) = Ret current
    /\ doc_version current = Some (expectedVersion c) /\ version (next_state c) = fadd (expectedVersion c) 1
    /\ load_file buffer_text (store (occur buffer_text w (Advance 0))) = Ret (state_doc (next_state c)).
Proof.
  apply (file_commits_are_serial buffer_text buffer_text_spec two_requests fresh_directory sample_events (Advance 0)).
  - exact fresh_directory_ok.
  - repeat constructor; by vm_compute.
  - exact sample_timely.
Defined.

(** Commit 0 is inside when commit 1 waits. *)
Lemma file_lock_excludes_witness :
  exists c, clients (run buffer_text (start two_requests fresh_directory) sample_events) !! 0%nat = Some c
    /\ inside (at_ c) = true /\ 0%nat = 0%nat.
Proof.
  eexists. split; [vm_compute; reflexivity |]. split; [reflexivity |].
  eapply (file_lock_excludes buffer_text buffer_text_spec two_requests fresh_directory sample_events 0 0).
  - exact fresh_directory_ok.
  - repeat constructor; by vm_compute.
  - exact sample_timely.
  - vm_compute. reflexivity.
  - vm_compute. reflexivity.
  - reflexivity.
  - reflexivity.
Defined.

Lemma lone_commit_is_memory_commit_witness :
  let '(answer, s') := @commit _ createMemoryLedgerStore emptyLedgerState 0 (configured (js "gpu")) in
  exists d', run buffer_text (start [((1, 0), configured (js "gpu"))] fresh_directory) (replicate 10 (Advance 0))
      = mkWorld [mkClient 1 0 (configured (js "gpu")) (Answered answer)] d'
    /\ load_file buffer_text d' = Ret (state_doc s') /\ lock d' = None /\ disk_ok d'.
Proof.
  apply (lone_commit_is_memory_commit buffer_text buffer_text_spec).
  - exact fresh_directory_ok.
  - reflexivity.
  - by vm_compute.
  - split; [by vm_compute | split; by vm_compute].
  - split; [split; [by vm_compute | split; by vm_compute] | by vm_compute].
Defined.

(** ** A stale lock *)

(** The directory a stopped process left twenty seconds ago. *)
Definition stale_directory : disk := mkDisk 20000 (Some (7%nat, 0)) ∅ 0 None ∅.

(** Both commits see the stale lock; the first removes it and takes the lock; the
    second removes the lock of the first and takes it too. *)
Definition race : list event :=
  [Advance 0; Advance 1; Advance 0; Advance 1; Advance 0; Advance 0; Advance 1; Advance 1]
  ++ replicate 3 (Advance 0) ++ replicate 3 (Advance 1) ++ replicate 6 (Advance 0) ++ replicate 6 (Advance 1).

(** Two commits that find the same stale lock can both be acknowledged from the same
    version: the file keeps the second alone and the first is lost. *)
Theorem stale_lock_loses_an_update :
  let w := run buffer_text (start two_requests stale_directory) race in
  at_ <$> clients w = [Answered Committed; Answered Committed]
  /\ load_file buffer_text (store w) = Ret (state_doc (configured (js "tpu")))
  /\ state_doc (configured (js "tpu")) <> state_doc (configured (js "gpu")).
Proof. vm_compute. split_and!; [reflexivity | reflexivity | discriminate]. Qed.
