(* ===== verification/Html.v ===== *)
(** * HTML construction

    [src/runtime/platform/html.ts]: the author vocabulary, escaping, addresses, the
    compiled swap policies and the operations that build nodes, safe texts and
    attributes behind opaque tokens. *)
From stdpp Require Import base gmap list strings.
From Stdlib Require Import ZArith Lia.
From S2P Require Import Prelude JsNumber JsString JsValue Completion Uri.

(** ** Tokens *)

Inductive AttributeKind : Type := kind_text | kind_url | kind_htmx.
#[global] Instance AttributeKind_eq_dec : EqDecision AttributeKind.
Proof. solve_decision. Defined.

Record Node : Type := mkNode { n_html : jstr; n_tag : jstr; n_head : bool; n_anchor : bool; n_form : bool }.
Record Attribute : Type := mkAttribute { a_name : jstr; a_value : jstr; a_kind : AttributeKind }.
Record Address : Type := mkAddress { u_value : jstr; u_local : bool }.

(** The six [WeakMap]s; every token is a fresh object. *)
Record Tokens : Type := mkTokens {
  t_next : nat;
  t_nodes : gmap nat Node;
  t_safe : gmap nat jstr;
  t_tags : gmap nat jstr;
  t_attributes : gmap nat Attribute;
  t_urls : gmap nat Address;
  t_targets : gmap nat jstr
}.

Definition no_tokens : Tokens := mkTokens 0 ∅ ∅ ∅ ∅ ∅ ∅.

(** What an operation makes, before it has a token. *)
Inductive Made : Type :=
| Refused (f : DomainFailure)
| MadeNode (n : Node)
| MadeSafe (s : jstr)
| MadeTag (s : jstr)
| MadeAttribute (a : Attribute)
| MadeUrl (u : Address)
| MadeTarget (s : jstr).

(** [token]: a new frozen object in its map. *)
Definition token (t : Tokens) (m : Made) : Completion nat * Tokens :=
  let '(mkTokens n nodes safe tags attributes urls targets) := t in
  match m with
  | Refused f => (domain f, t)
  | MadeNode x => (ok n, mkTokens (S n) (<[n := x]> nodes) safe tags attributes urls targets)
  | MadeSafe x => (ok n, mkTokens (S n) nodes (<[n := x]> safe) tags attributes urls targets)
  | MadeTag x => (ok n, mkTokens (S n) nodes safe (<[n := x]> tags) attributes urls targets)
  | MadeAttribute x => (ok n, mkTokens (S n) nodes safe tags (<[n := x]> attributes) urls targets)
  | MadeUrl x => (ok n, mkTokens (S n) nodes safe tags attributes (<[n := x]> urls) targets)
  | MadeTarget x => (ok n, mkTokens (S n) nodes safe tags attributes urls (<[n := x]> targets))
  end.

Definition read {A} (m : gmap nat A) (value : nat) : run A :=
  match m !! value with
  | Some x => Done x
  | None => Thrown (mkStandard resource_state "resource_state: invalid resource use" "can:html")
  end.

Fixpoint read_all {A} (m : gmap nat A) (values : list nat) : run (list A) :=
  match values with
  | [] => Done []
  | v :: values => run! x := read m v in run! xs := read_all m values in Done (x :: xs)
  end.

Definition renderSafe (t : Tokens) (value : nat) : run jstr := read (t_safe t) value.

(** ** Escaping *)

Definition escape_unit (c : N) : jstr :=
  if (c =? 38)%N then js "&amp;" else if (c =? 60)%N then js "&lt;" else if (c =? 62)%N then js "&gt;"
  else if (c =? 34)%N then js "&quot;" else if (c =? 39)%N then js "&#x27;" else [c].

Definition escapeHTML (value : jstr) : jstr := concat (escape_unit <$> value).

(** ** The vocabulary *)

Definition lower (value : jstr) : jstr := (fun c => if is_upper c then (c + 32)%N else c) <$> value.

Definition space (c : N) : bool := (c =? 9)%N || (c =? 10)%N || (c =? 12)%N || (c =? 13)%N || (c =? 32)%N.

(** The maximal runs without separators. *)
Fixpoint runs (separator : N -> bool) (s : jstr) (word : jstr) : list jstr :=
  match s with
  | [] => if bool_decide (word = []) then [] else [word]
  | c :: s =>
      if separator c then (if bool_decide (word = []) then [] else [word]) ++ runs separator s []
      else runs separator s (word ++ [c])
  end.

(** [value.replace(/^\s+|\s+$/g, "").split(/\s+/)]: of a blank text, one empty word. *)
Definition words (s : jstr) : list jstr := match runs space s [] with [] => [[]] | ws => ws end.

(** [text.split(" ")] of the tables below. *)
Definition table (text : string) : list jstr := split_char 32 (js text).

Definition authorTags : list jstr :=
  table "main header footer nav section article aside h1 h2 h3 h4 h5 h6 p div span ul ol li a form label input textarea select option button table thead tbody tr th td dl dt dd strong em small br hr code pre blockquote img del".
Definition voidTags : list jstr := table "input br hr img".
Definition globals : list jstr := table "id class title lang dir hidden tabindex role".
Definition applicability : list (jstr * list jstr) :=
  (fun p => (js p.1, table p.2)) <$>
  [("name", "form input textarea select button"); ("value", "input option button li"); ("type", "input button a ol");
   ("accept", "input"); ("placeholder", "input textarea"); ("autocomplete", "form input textarea select");
   ("maxlength", "input textarea"); ("for", "label"); ("method", "form"); ("enctype", "form"); ("rel", "a form");
   ("checked", "input"); ("selected", "option"); ("disabled", "input textarea select option button");
   ("required", "input textarea select"); ("multiple", "input select"); ("rows", "textarea"); ("cols", "textarea");
   ("scope", "th"); ("colspan", "td th"); ("rowspan", "td th"); ("alt", "img"); ("align", "td th"); ("start", "ol")]%string.
Definition inputTypes : list jstr :=
  table "hidden text search tel url email password date month week time datetime-local number range color checkbox radio file submit image reset button".
Definition relations : list jstr :=
  table "alternate author bookmark external help license next nofollow noopener noreferrer opener prev privacy-policy search tag terms-of-service".
Definition autocompleteFields : list jstr :=
  table "name honorific-prefix given-name additional-name family-name honorific-suffix nickname username new-password current-password one-time-code organization-title organization street-address address-line1 address-line2 address-line3 address-level4 address-level3 address-level2 address-level1 country country-name postal-code cc-name cc-given-name cc-additional-name cc-family-name cc-number cc-exp cc-exp-month cc-exp-year cc-csc cc-type transaction-currency transaction-amount language bday bday-day bday-month bday-year sex url photo tel tel-country-code tel-national tel-area-code tel-local tel-local-prefix tel-local-suffix tel-extension email impp".

Definition has (l : list jstr) (s : jstr) : bool := bool_decide (s ∈ l).

Definition applies (name : jstr) : option (list jstr) := snd <$> find (fun p => bool_decide (p.1 = name)) applicability.

(** ** Values *)

Definition shift_if (test : jstr -> bool) (parts : list jstr) : list jstr :=
  match parts with p :: rest => if test p then rest else parts | [] => [] end.
Definition first_word (parts : list jstr) : jstr := default [] (head parts).

(** [/^(tel(?:-[a-z-]+)?|email|impp)$/] *)
Definition contact_field (s : jstr) : bool :=
  has (table "email impp tel") s ||
  (starts_with s (js "tel-") && (4 <? length s)%nat && forallb (fun c => is_lower c || (c =? 45)%N) (drop 4 s)).

Definition autocomplete (value : jstr) : bool :=
  let parts := words (lower value) in
  if bool_decide (parts = [js "on"]) || bool_decide (parts = [js "off"]) then true
  else
    let parts := shift_if (fun p => starts_with p (js "section-") && (8 <? length p)%nat) parts in
    let parts := shift_if (has (table "shipping billing")) parts in
    let '(contact, parts) :=
      if has (table "home work mobile fax pager") (first_word parts) then (true, tail parts) else (false, parts) in
    if contact && negb (contact_field (first_word parts)) then false
    else if negb (has autocompleteFields (first_word parts)) then false
    else
      let parts := shift_if (fun p => bool_decide (p = js "webauthn")) (tail parts) in
      bool_decide (parts = []).

Definition digits (s : jstr) : bool := negb (bool_decide (s = [])) && forallb is_digit s.
(** [/^-?[0-9]+$/] *)
Definition signed_digits (s : jstr) : bool :=
  match s with c :: rest => if (c =? 45)%N then digits rest else digits s | [] => false end.

Definition named (name : jstr) (s : string) : bool := bool_decide (name = js s).
Definition on_tag (tag : option jstr) (s : string) : bool := bool_decide (tag = Some (js s)).

Definition relation_list (value : jstr) (tag : option jstr) : bool :=
  forallb (fun p => has relations p &&
    negb (on_tag tag "form" && has (table "alternate author bookmark privacy-policy tag terms-of-service") p)) (words (lower value)).

Definition validValue (name value : jstr) (tag : option jstr) : bool :=
  let v := lower value in
  if named name "dir" then has (table "ltr rtl auto") v
  else if named name "hidden" then has ([] :: table "hidden until-found") v
  else if has (table "checked selected disabled required multiple") name then bool_decide (v = []) || bool_decide (v = name)
  else if named name "method" then has (table "get post dialog") v
  else if named name "enctype" then bool_decide (v = js "multipart/form-data")
  else if named name "scope" then has (table "row col rowgroup colgroup") v
  else if named name "align" then has (table "left center right") v
  else if named name "autocomplete" then (if on_tag tag "form" then has (table "on off") v else autocomplete value)
  else if named name "rel" then relation_list value tag
  else if named name "type" && on_tag tag "input" then has inputTypes v
  else if named name "type" && on_tag tag "button" then has (table "submit reset button") v
  else if named name "type" && on_tag tag "ol" then has (table "1 a A i I") value
  else if named name "maxlength" then digits value && (dec_value value <=? 2147483647)%N
  else if has (table "rows cols colspan rowspan") name then
    digits value &&
    (if named name "rowspan" then (dec_value value <=? 65534)%N
     else (1 <=? dec_value value)%N && (negb (named name "colspan") || (dec_value value <=? 1000)%N))
  else if named name "tabindex" || named name "start" || (named name "value" && on_tag tag "li") then signed_digits value
  else true.

Definition serialize (a : Attribute) : jstr := 32%N :: a_name a ++ js "=" ++ 34%N :: escapeHTML (a_value a) ++ [34%N].

(** [/^[A-Za-z_][A-Za-z0-9_-]*$/] *)
Definition selectorID (value : jstr) : bool :=
  match value with
  | c :: rest => (is_upper c || is_lower c || (c =? 95)%N) && forallb (fun c => is_alnum c || (c =? 95)%N || (c =? 45)%N) rest
  | [] => false
  end.

(** [/^aria-[a-z][a-z0-9-]*$/] *)
Definition aria_name (name : jstr) : bool :=
  starts_with name (js "aria-") &&
  match drop 5 name with
  | c :: rest => is_lower c && forallb (fun c => is_lower c || is_digit c || (c =? 45)%N) rest
  | [] => false
  end.

(** ** Swap policies *)

Inductive Verb : Type := GET | POST.
Inductive Swap : Type := inner | outer.
#[global] Instance Verb_eq_dec : EqDecision Verb.
Proof. solve_decision. Defined.

Record SwapCase : Type := mkCase { c_status : Z; c_swap : Swap }.
Record SwapPolicy : Type := mkPolicy { p_method : Verb; p_segments : list jstr; p_cases : list SwapCase }.

Definition policy_path (segments : list jstr) : bool :=
  negb (bool_decide (segments = [])) && forallb (fun s => negb (bool_decide (s = [])) && negb (includes_char s 47)) segments.
Definition policy_status (c : SwapCase) : bool := (200 <=? c_status c) && (c_status c <=? 599).

(** [readSwapTable] on entries of the right types. *)
Fixpoint readSwapTable (input : list SwapPolicy) : res (list SwapPolicy) :=
  match input with
  | [] => Ret []
  | p :: input =>
      guard_throw (policy_path (p_segments p)) "invalid swap policy path" (
      guard_throw (forallb policy_status (p_cases p)) "invalid swap policy status" (
      let! ps := readSwapTable input in Ret (p :: ps)))
  end.

Definition segment_matches (want got : jstr) : bool :=
  if bool_decide (want = js "{}") then negb (bool_decide (got = [])) else bool_decide (want = got).

Fixpoint segments_match (wants gots : list jstr) : bool :=
  match wants, gots with
  | [], [] => true
  | w :: wants, g :: gots => segment_matches w g && segments_match wants gots
  | _, _ => false
  end.

(** The [Map] of statuses, in insertion order. *)
Definition merge_case (merged : list SwapCase) (item : SwapCase) : list SwapCase :=
  if (200 <=? c_status item) && (c_status item <=? 299) then merged
  else if existsb (fun c => c_status c =? c_status item) merged then merged
  else merged ++ [item].

Definition before_query (value : jstr) : jstr :=
  default [] (head (split_char 63 (default [] (head (split_char 35 value))))).

Fixpoint decode_all (segments : list jstr) : option (list jstr) :=
  match segments with
  | [] => Some []
  | s :: segments =>
      match decodeURIComponent s, decode_all segments with Some d, Some ds => Some (d :: ds) | _, _ => None end
  end.

(** The verb and the decoded segments of an attribute that names an action. *)
Definition action_of (a : Attribute) : option (Verb * list jstr) :=
  if negb (bool_decide (a_kind a = kind_htmx)) then None
  else
    let verb := if named (a_name a) "hx-post" then Some POST else if named (a_name a) "hx-get" then Some GET else None in
    match verb with
    | None => None
    | Some verb =>
        let path := before_query (a_value a) in
        if negb (starts_with path (js "/")) then None
        else (fun d => (verb, d)) <$> decode_all (drop 1 (split_char 47 path))
    end.

Definition policy_cases (verb : Verb) (decoded : list jstr) (merged : list SwapCase) (p : SwapPolicy) : list SwapCase :=
  if bool_decide (p_method p = verb) && segments_match (p_segments p) decoded
  then fold_left merge_case (p_cases p) merged else merged.

Definition attribute_cases (policies : list SwapPolicy) (merged : list SwapCase) (a : Attribute) : list SwapCase :=
  match action_of a with
  | None => merged
  | Some (verb, decoded) => fold_left (policy_cases verb decoded) policies merged
  end.

(** [.sort(([left], [right]) => left - right)], which is stable. *)
Fixpoint insert_status (c : SwapCase) (l : list SwapCase) : list SwapCase :=
  match l with
  | [] => [c]
  | d :: l => if c_status c <=? c_status d then c :: d :: l else d :: insert_status c l
  end.
Definition sort_status (l : list SwapCase) : list SwapCase := foldr insert_status [] l.

Definition swap_text (s : Swap) : jstr := match s with outer => js "outerHTML" | inner => js "innerHTML" end.
Definition status_attribute (c : SwapCase) : Attribute :=
  mkAttribute (js "hx-status:" ++ dec_of_Z (c_status c))
    (js "{" ++ json_quote (js "swap") ++ js ":" ++ json_quote (swap_text (c_swap c)) ++ js "}") kind_htmx.

Definition deriveSwapAttributes (policies : list SwapPolicy) (attrs : list Attribute) : list Attribute :=
  if bool_decide (length policies = 0%nat) then []
  else status_attribute <$> sort_status (fold_left (attribute_cases policies) attrs []).

(** ** Operations *)

Record Contracts : Type := mkContracts { structure_id : jstr; url_id : jstr; target_id : jstr; interval_id : jstr }.

(** What [new URL(value, "https://can.invalid/")] answers. *)
Record ParsedURL : Type := mkURL {
  url_protocol : jstr; url_username : jstr; url_password : jstr; url_origin : jstr;
  url_pathname : jstr; url_search : jstr; url_hash : jstr; url_href : jstr
}.

Section createHTML.
Context (url_parse : jstr -> option ParsedURL).
Context (types : Contracts) (declared : list jstr) (policies : list SwapPolicy).

Definition bad (identity : jstr) (reason : string) : Made :=
  Refused (mkDomain identity [("reason"%string, JStr (js reason))] "can:html").
Definition structure (reason : string) : Made := bad (structure_id types) reason.
Definition interval (n : Z) : Made :=
  Refused (mkDomain (interval_id types) [("milliseconds"%string, JBigInt n)] "can:html").

Definition htmx (name : string) (value : jstr) : Made := MadeAttribute (mkAttribute (js name) value kind_htmx).

Definition local_address (t : Tokens) (input : nat) (name : string) : run Made :=
  run! url := read (t_urls t) input in
  Done (if u_local url then htmx name (u_value url) else bad (url_id types) "same_origin").

Definition makeTag (name : jstr) : Made :=
  if has authorTags (lower name) then MadeTag (lower name) else structure "tag".

Definition node (html tag : jstr) (head anchor form : bool) : Made := MadeNode (mkNode html tag head anchor form).

Definition text (value : jstr) : Made := node (escapeHTML value) [] false false false.
Definition textFragment (value : jstr) : Made := MadeSafe (escapeHTML value).

Definition refused_unit (c : N) : bool := (c <=? 0x1f)%N || (c =? 0x7f)%N || (c =? 92)%N.

Definition parseURL (value : jstr) : Made :=
  if negb (is_well_formed value) || existsb refused_unit value || starts_with value (js "//") then bad (url_id types) "syntax"
  else
    let local := starts_with value (js "/") in
    if negb local && negb (starts_with (lower value) (js "https://")) then bad (url_id types) "scheme"
    else
      match url_parse value with
      | None => bad (url_id types) "syntax"
      | Some parsed =>
          if negb (bool_decide (url_protocol parsed = js "https:")) || negb (bool_decide (url_username parsed = []))
             || negb (bool_decide (url_password parsed = []))
          then bad (url_id types) "authority"
          else
            let output := if local : bool then url_pathname parsed ++ url_search parsed ++ url_hash parsed else url_href parsed in
            if local && (negb (bool_decide (url_origin parsed = js "https://can.invalid")) || starts_with output (js "//"))
            then bad (url_id types) "same_origin"
            else MadeUrl (mkAddress output local)
      end.

Definition textAttribute (name value : jstr) : Made :=
  let name := lower name in
  if negb (has globals name) && negb (aria_name name) && bool_decide (applies name = None) then structure "attribute"
  else if negb (validValue name value None) then structure "attribute_value"
  else MadeAttribute (mkAttribute name value kind_text).

Definition mailbox_unit (c : N) : bool := is_alnum c || (c =? 95)%N || (c =? 43)%N || (c =? 45)%N.
(** [/^[A-Za-z0-9](?:[A-Za-z0-9-]{0,61}[A-Za-z0-9])?$/] *)
Definition domain_label (s : jstr) : bool :=
  negb (bool_decide (s = [])) && (length s <=? 63)%nat && forallb (fun c => is_alnum c || (c =? 45)%N) s
  && match head s with Some c => is_alnum c | None => false end && match last s with Some c => is_alnum c | None => false end.

Fixpoint index_at (c : N) (s : jstr) : option nat :=
  match s with
  | [] => None
  | d :: s => if (d =? c)%N then Some 0%nat else S <$> index_at c s
  end.

Definition valid_email (address : jstr) : bool :=
  (* with no [@], [slice(0, -1)] and [slice(0)] *)
  let '(mailbox, host) := match index_at 64 address with
    | Some at_ => (take at_ address, drop (S at_) address)
    | None => (take (length address - 1) address, address)
    end in
  let labels := split_char 46 host in
  (length mailbox <=? 64)%nat
  && forallb (fun p => negb (bool_decide (p = [])) && forallb mailbox_unit p) (split_char 46 mailbox)
  && (length host <=? 253)%nat && (2 <=? length labels)%nat && forallb domain_label labels
  && match last labels with
     | Some l => forallb (fun c => is_upper c || is_lower c) l && (2 <=? length l)%nat && (length l <=? 63)%nat
     | None => false
     end.

Definition emailHref (address : jstr) : Made :=
  if (254 <? length address)%nat then bad (url_id types) "email_address"
  else if valid_email address then MadeAttribute (mkAttribute (js "href") (js "mailto:" ++ address) kind_url)
  else bad (url_id types) "email_address".

Definition urlAttribute (t : Tokens) (name : jstr) (url : nat) : run Made :=
  let name := lower name in
  run! value := read (t_urls t) url in
  Done (if has (table "href action formaction src") name then MadeAttribute (mkAttribute name (u_value value) kind_url)
        else structure "attribute").

(** The tag an address attribute belongs to. *)
Definition address_tag (name : jstr) : option jstr :=
  snd <$> find (fun p => bool_decide (p.1 = name))
    [(js "href", js "a"); (js "action", js "form"); (js "formaction", js "button"); (js "src", js "img")].

Definition attribute_problem (name inputType : jstr) (a : Attribute) : option string :=
  let is_text := bool_decide (a_kind a = kind_text) in
  if is_text && match applies (a_name a) with Some tags => negb (has tags name) | None => false end then Some "attribute_tag"%string
  else if is_text && negb (validValue (a_name a) (a_value a) (Some name)) then Some "attribute_value"%string
  else if named (a_name a) "maxlength" && named name "input"
          && negb (has (table "text search url tel email password") inputType) then Some "attribute_tag"%string
  else if bool_decide (a_kind a = kind_url) && negb (bool_decide (address_tag (a_name a) = Some name)) then Some "attribute_tag"%string
  else None.

Fixpoint check_attributes (name inputType : jstr) (attrs : list Attribute) (seen : list jstr) : option string :=
  match attrs with
  | [] => None
  | a :: attrs =>
      if has seen (a_name a) then Some "duplicate_attribute"%string
      else
        match attribute_problem name inputType a with
        | Some problem => Some problem
        | None => check_attributes name inputType attrs (a_name a :: seen)
        end
  end.

Definition required_children : list (jstr * list jstr) :=
  (fun p => (js p.1, table p.2)) <$>
  [("ul", "li"); ("ol", "li"); ("select", "option"); ("thead", "tr"); ("tbody", "tr"); ("tr", "th td")]%string.

Definition kid_tags (kids : list Node) : list jstr := n_tag <$> kids.

Definition required_ok (name : jstr) (kids : list jstr) : bool :=
  match find (fun p => bool_decide (p.1 = name)) required_children with
  | Some (_, wanted) => forallb (has wanted) kids
  | None => true
  end.
Definition table_ok (name : jstr) (kids : list jstr) : bool :=
  negb (named name "table") || bool_decide (kids = [js "tbody"]) || bool_decide (kids = [js "thead"; js "tbody"]).

(** Pairs of [dt] and [dd]. *)
Fixpoint pairs_ok (kids : list jstr) : bool :=
  match kids with
  | [] => true
  | a :: b :: kids => named a "dt" && named b "dd" && pairs_ok kids
  | [_] => false
  end.

Definition children_problem (name : jstr) (kids : list Node) : option string :=
  let tags := kid_tags kids in
  if existsb n_head kids then Some "head_context"%string
  else if has voidTags name && negb (bool_decide (length kids = 0%nat)) then Some "void_children"%string
  else if negb (required_ok name tags) then Some "children"%string
  else if negb (table_ok name tags) then Some "children"%string
  else if named name "dl" && negb (pairs_ok tags) then Some "children"%string
  else if (named name "a" && existsb n_anchor kids) || (named name "form" && existsb n_form kids)
  then Some "nested_element"%string
  else None.

Definition inputType_of (attrs : list Attribute) : jstr :=
  lower (match find (fun a => named (a_name a) "type") attrs with Some a => a_value a | None => js "text" end).

Definition element_html (name : jstr) (attrs : list Attribute) (kids : list Node) : jstr :=
  js "<" ++ name ++ concat (serialize <$> attrs) ++ js ">"
  ++ (if has voidTags name then [] else concat (n_html <$> kids) ++ js "</" ++ name ++ js ">").

Definition build_element (name : jstr) (attrs : list Attribute) (kids : list Node) : Made :=
  match check_attributes name (inputType_of attrs) attrs [] with
  | Some problem => structure problem
  | None =>
      match children_problem name kids with
      | Some problem => structure problem
      | None =>
          node (element_html name (attrs ++ deriveSwapAttributes policies attrs) kids) name false
            (named name "a" || existsb n_anchor kids) (named name "form" || existsb n_form kids)
      end
  end.

Definition element (t : Tokens) (tag : nat) (inputAttributes inputChildren : list nat) : run Made :=
  run! name := read (t_tags t) tag in
  run! attrs := read_all (t_attributes t) inputAttributes in
  run! kids := read_all (t_nodes t) inputChildren in
  Done (build_element name attrs kids).

Definition fragment (t : Tokens) (input : list nat) : run Made :=
  run! kids := read_all (t_nodes t) input in
  Done (if existsb n_head kids then structure "head_context" else MadeSafe (concat (n_html <$> kids))).

Definition stylesheet (t : Tokens) (input : nat) : run Made :=
  run! url := read (t_urls t) input in
  Done (node (js "<link rel=" ++ 34%N :: js "stylesheet" ++ 34%N :: js " href=" ++ 34%N :: escapeHTML (u_value url) ++ 34%N :: js ">")
          (js "link") true false false).

Definition quoted (s : string) : jstr := 34%N :: js s ++ [34%N].

Definition metaViewport : Made :=
  node (js "<meta name=" ++ quoted "viewport" ++ js " content=" ++ quoted "width=device-width, initial-scale=1" ++ js ">")
    (js "meta") true false false.

Definition document (t : Tokens) (title : jstr) (head body : list nat) : run Made :=
  run! h := read_all (t_nodes t) head in
  run! b := read_all (t_nodes t) body in
  Done (if negb (forallb n_head h) || existsb n_head b then structure "document_context"
        else MadeSafe (js "<!doctype html><html><head><title>" ++ escapeHTML title ++ js "</title>" ++ concat (n_html <$> h)
               ++ js "</head><body>" ++ concat (n_html <$> b) ++ js "</body></html>")).

Definition target (id : jstr) (found : Made) : Made := if selectorID id then found else bad (target_id types) "id".
Definition targetID (id : jstr) : Made := target id (MadeTarget (35%N :: id)).
Definition targetAttribute (t : Tokens) (value : nat) : run Made :=
  run! v := read (t_targets t) value in Done (htmx "hx-target" v).
Definition indicatorID (id : jstr) : Made := target id (htmx "hx-indicator" (35%N :: id)).

Definition triggerInputChanged (delay : Z) : Made :=
  if (delay <? 0) || (60000 <? delay) then interval delay
  else htmx "hx-trigger" (js "input changed delay:" ++ dec_of_Z delay ++ js "ms").
Definition triggerEvery (period : Z) : Made :=
  if (period <? 1000) || (3600000 <? period) then interval period
  else htmx "hx-trigger" (js "every " ++ dec_of_Z period ++ js "ms").

Definition declareAsset (url : jstr) : res Made :=
  guard_throw (has declared url) "undeclared asset url" (Ret (MadeUrl (mkAddress url true))).

Definition htmx_config : jstr :=
  js "{" ++ json_quote (js "mode") ++ js ":" ++ json_quote (js "same-origin") ++ js "," ++ json_quote (js "noSwap") ++ js ":[204,304,"
  ++ json_quote (js "4xx") ++ js "," ++ json_quote (js "5xx") ++ js "]}".

Definition runtimeHead : Made :=
  node (js "<meta name=" ++ quoted "htmx-config" ++ js " content=" ++ 34%N :: escapeHTML htmx_config ++ 34%N :: js ">"
    ++ js "<script defer src=" ++ quoted "/__can/assets/htmx-4.0.0.min.js" ++ js " integrity="
    ++ quoted "sha384-BvJpBiO8Kh31EqtJe5DRIeWrHWnCGkwytKs9NKFi86Hhw96dEqdEMzZDeK9iEGTc" ++ js "></script>"
    ++ js "<script type=" ++ quoted "module" ++ js " src=" ++ quoted "/__can/assets/htmx-guard.js" ++ js " integrity="
    ++ quoted "sha384-C5A6uJ5FDnfm4n0j9TRlnVP+OIz//4VRs7OcvEYgUzCRevIwXmktURVNyPxYvOpQ" ++ js "></script>")
    (js "runtime") true false false.

(** The operations of the frozen object. *)
Inductive Call : Type :=
| CallMakeTag (name : jstr) | CallText (value : jstr) | CallTextFragment (value : jstr) | CallParseURL (value : jstr)
| CallTextAttribute (name value : jstr) | CallEmailHref (address : jstr) | CallUrlAttribute (name : jstr) (url : nat)
| CallElement (tag : nat) (attributes children : list nat) | CallFragment (children : list nat) | CallStylesheet (url : nat)
| CallMetaViewport | CallDocument (title : jstr) (head body : list nat) | CallGet (url : nat) | CallPost (url : nat)
| CallTargetID (id : jstr) | CallTargetAttribute (target : nat) | CallIndicatorID (id : jstr) | CallSwapInner | CallSwapOuter
| CallTriggerChange | CallTriggerInputChanged (delay : Z) | CallTriggerEvery (period : Z) | CallDisableThis
| CallDeclareAsset (url : jstr) | CallRejectAsset (missing : bool) | CallRuntimeHead.

Definition make (t : Tokens) (c : Call) : run Made :=
  match c with
  | CallMakeTag name => Done (makeTag name)
  | CallText value => Done (text value)
  | CallTextFragment value => Done (textFragment value)
  | CallParseURL value => Done (parseURL value)
  | CallTextAttribute name value => Done (textAttribute name value)
  | CallEmailHref address => Done (emailHref address)
  | CallUrlAttribute name url => urlAttribute t name url
  | CallElement tag attrs kids => element t tag attrs kids
  | CallFragment kids => fragment t kids
  | CallStylesheet url => stylesheet t url
  | CallMetaViewport => Done metaViewport
  | CallDocument title head body => document t title head body
  | CallGet url => local_address t url "hx-get"
  | CallPost url => local_address t url "hx-post"
  | CallTargetID id => Done (targetID id)
  | CallTargetAttribute value => targetAttribute t value
  | CallIndicatorID id => Done (indicatorID id)
  | CallSwapInner => Done (htmx "hx-swap" (js "innerHTML"))
  | CallSwapOuter => Done (htmx "hx-swap" (js "outerHTML"))
  | CallTriggerChange => Done (htmx "hx-trigger" (js "change"))
  | CallTriggerInputChanged delay => Done (triggerInputChanged delay)
  | CallTriggerEvery period => Done (triggerEvery period)
  | CallDisableThis => Done (htmx "hx-disable" (js "this"))
  | CallDeclareAsset url =>
      match declareAsset url with
      | Ret m => Done m
      | Throw message => Thrown (mkStandard native_exception message "can:html")
      end
  | CallRejectAsset missing => Done (bad (url_id types) (if missing then "missing" else "unowned"))
  | CallRuntimeHead => Done runtimeHead
  end.

Definition call (t : Tokens) (c : Call) : run (Completion nat) * Tokens :=
  match make t c with
  | Done m => let '(r, t) := token t m in (Done r, t)
  | Thrown f => (Thrown f, t)
  end.

(** A program of operations, each on the tokens the earlier ones made. *)
Fixpoint calls (t : Tokens) (cs : list Call) : Tokens :=
  match cs with [] => t | c :: cs => calls (call t c).2 cs end.
End createHTML.
