(* ===== verification/HtmlTheorems.v ===== *)
(** * Built HTML is well formed and injection free

    Whatever program of operations runs, every node and safe text it holds reads back as
    a forest of valid elements: author tags, unique attributes, safe addresses, the
    children rules and no nested anchors or forms. *)
From stdpp Require Import base gmap list strings sorting.
From Stdlib Require Import ZArith Lia.
From S2P Require Import Prelude JsNumber JsString JsValue Completion Numbers Uri Digits Html.

(** ** The markup the HTML operations write

    [markup] is the tree a reader of the written text finds: single text units, and
    elements with attributes and children.  [read_markup] is a reference reader for the
    written sublanguage; it reads every rendered forest back. *)

#[warnings="-register-all"]
Inductive markup : Type :=
| TextUnit (c : N)
| Element (tag : jstr) (attrs : list (jstr * jstr)) (kids : list markup).

Section induction.
Context (P : markup -> Prop) (Hunit : forall c, P (TextUnit c))
  (Helement : forall tag attrs kids, Forall P kids -> P (Element tag attrs kids)).
Fixpoint markup_induction (m : markup) : P m :=
  match m with
  | TextUnit c => Hunit c
  | Element tag attrs kids => Helement tag attrs kids
      ((fix go (l : list markup) : Forall P l := match l with [] => Forall_nil_2 _ | m :: l => Forall_cons_2 _ _ _ (markup_induction m) (go l) end) kids)
  end.
End induction.

Definition attribute_text (a : jstr * jstr) : jstr := 32%N :: a.1 ++ js "=" ++ 34%N :: escapeHTML a.2 ++ [34%N].

Fixpoint render (m : markup) : jstr :=
  match m with
  | TextUnit c => escape_unit c
  | Element tag attrs kids =>
      js "<" ++ tag ++ concat (attribute_text <$> attrs) ++ js ">"
      ++ (if has voidTags tag then [] else concat (render <$> kids) ++ js "</" ++ tag ++ js ">")
  end.

Definition renders (forest : list markup) : jstr := concat (render <$> forest).

(** ** Reading *)

Definition name_unit (c : N) : bool := is_lower c || is_digit c || (c =? 45)%N || (c =? 58)%N.

Fixpoint read_name (s : jstr) : jstr * jstr :=
  match s with
  | c :: rest => if name_unit c then let '(n, r) := read_name rest in (c :: n, r) else ([], s)
  | [] => ([], [])
  end.

Definition entities : list (jstr * N) :=
  [(js "&amp;", 38%N); (js "&lt;", 60%N); (js "&gt;", 62%N); (js "&quot;", 34%N); (js "&#x27;", 39%N)].

(** One unit of text or of a value; a bare delimiter is none. *)
Definition read_unit (s : jstr) : option (N * jstr) :=
  match s with
  | [] => None
  | c :: rest =>
      if (c =? 38)%N then (fun e => (e.2, drop (length e.1) s)) <$> find (fun e => starts_with s e.1) entities
      else if (c =? 60)%N || (c =? 62)%N || (c =? 34)%N || (c =? 39)%N then None
      else Some (c, rest)
  end.

Definition expect (p s : jstr) : option jstr := if starts_with s p then Some (drop (length p) s) else None.

Fixpoint read_value (fuel : nat) (s : jstr) : option (jstr * jstr) :=
  match fuel with
  | O => None
  | S fuel =>
      match expect [34%N] s with
      | Some rest => Some ([], rest)
      | None =>
          match read_unit s with
          | Some (c, rest) => match read_value fuel rest with Some (v, rest) => Some (c :: v, rest) | None => None end
          | None => None
          end
      end
  end.

Fixpoint read_attributes (fuel : nat) (s : jstr) : option (list (jstr * jstr) * jstr) :=
  match fuel with
  | O => None
  | S fuel =>
      match expect [32%N] s with
      | None => Some ([], s)
      | Some s =>
          let '(name, s) := read_name s in
          match expect [61; 34]%N s with
          | None => None
          | Some s =>
              match read_value fuel s with
              | None => None
              | Some (value, s) =>
                  match read_attributes fuel s with Some (attrs, s) => Some ((name, value) :: attrs, s) | None => None end
              end
          end
      end
  end.

(** A forest, up to the end of the text or a closing tag. *)
Fixpoint read_forest (fuel : nat) (s : jstr) : option (list markup * jstr) :=
  match fuel with
  | O => None
  | S fuel =>
      if bool_decide (s = []) || starts_with s (js "</") then Some ([], s)
      else
        match expect (js "<") s with
        | None =>
            match read_unit s with
            | Some (c, s) => match read_forest fuel s with Some (f, s) => Some (TextUnit c :: f, s) | None => None end
            | None => None
            end
        | Some s =>
            let '(tag, s) := read_name s in
            match read_attributes fuel s with
            | None => None
            | Some (attrs, s) =>
                match expect (js ">") s with
                | None => None
                | Some s =>
                    let close := if has voidTags tag then Some ([], s) else
                      match read_forest fuel s with
                      | Some (kids, s) =>
                          match expect (js "</" ++ tag ++ js ">") s with Some s => Some (kids, s) | None => None end
                      | None => None
                      end in
                    match close with
                    | None => None
                    | Some (kids, s) =>
                        match read_forest fuel s with Some (f, s) => Some (Element tag attrs kids :: f, s) | None => None end
                    end
                end
            end
        end
  end.

Definition read_markup (s : jstr) : option (list markup) :=
  match read_forest (S (length s)) s with Some (f, []) => Some f | _ => None end.

(** ** Readable trees *)

Definition name_ok (s : jstr) : bool := negb (bool_decide (s = [])) && forallb name_unit s.

Fixpoint readable (m : markup) : bool :=
  match m with
  | TextUnit _ => true
  | Element tag attrs kids =>
      name_ok tag && forallb (fun a => name_ok a.1) attrs
      && (negb (has voidTags tag) || bool_decide (length kids = 0%nat)) && forallb readable kids
  end.

Lemma expect_app p s : expect p (p ++ s) = Some s.
Proof. unfold expect. by rewrite starts_with_app, drop_app_length. Qed.

Lemma starts_with_false c s p u : c <> u -> starts_with (c :: s) (u :: p) = false.
Proof. intros H. unfold starts_with. apply bool_decide_eq_false. cbn. congruence. Qed.

Lemma expect_cons c d s p : c <> d -> expect (c :: p) (d :: s) = None.
Proof. intros H. unfold expect. by rewrite starts_with_false. Qed.

Lemma read_unit_escape c s : read_unit (escape_unit c ++ s) = Some (c, s).
Proof.
  unfold escape_unit.
  destruct (N.eqb_spec c 38) as [->|H1]; [reflexivity |]. destruct (N.eqb_spec c 60) as [->|H2]; [reflexivity |].
  destruct (N.eqb_spec c 62) as [->|H3]; [reflexivity |]. destruct (N.eqb_spec c 34) as [->|H4]; [reflexivity |].
  destruct (N.eqb_spec c 39) as [->|H5]; [reflexivity |].
  cbn [app read_unit]. by rewrite !(proj2 (N.eqb_neq c _)) by done.
Qed.

(** An escaped unit opens with no delimiter. *)
Lemma escape_unit_head c : exists d s, escape_unit c = d :: s /\ d <> 60%N /\ d <> 62%N /\ d <> 34%N.
Proof.
  unfold escape_unit. repeat case_match; try (by do 2 eexists).
  exists c, []. apply N.eqb_neq in H0, H1, H2. by split_and!.
Qed.

Lemma escape_unit_length c : (1 <= length (escape_unit c))%nat.
Proof. destruct (escape_unit_head c) as (d & s & -> & _). cbn. lia. Qed.

Lemma read_value_escape v : forall fuel s, (length (escapeHTML v) < fuel)%nat ->
  read_value fuel (escapeHTML v ++ 34%N :: s) = Some (v, s).
Proof.
  induction v as [|c v IH]; intros [|fuel] s Hf; try (exfalso; lia); [reflexivity |].
  unfold escapeHTML in *. cbn [fmap list_fmap concat] in *. rewrite length_app in Hf. rewrite <- app_assoc. cbn [read_value].
  pose proof (escape_unit_length c).
  destruct (escape_unit_head c) as (d & u & Hd & _ & _ & Hne). rewrite Hd at 1. cbn [app]. rewrite expect_cons by done.
  rewrite read_unit_escape, IH by lia. done.
Qed.

Lemma read_name_app n s : forallb name_unit n = true -> (forall c r, s = c :: r -> name_unit c = false) ->
  read_name (n ++ s) = (n, s).
Proof.
  intros Hn Hs. induction n as [|c n IH]; cbn [read_name app forallb] in *.
  - destruct s as [|c s]; [done |]. cbn [read_name]. by rewrite (Hs c s eq_refl).
  - apply andb_true_iff in Hn as [-> Hn]. by rewrite IH.
Qed.

Lemma read_attributes_render attrs : forall fuel s,
  forallb (fun a => name_ok a.1) attrs = true -> (length (concat (attribute_text <$> attrs)) < fuel)%nat ->
  read_attributes fuel (concat (attribute_text <$> attrs) ++ 62%N :: s) = Some (attrs, 62%N :: s).
Proof.
  induction attrs as [|[n v] attrs IH]; intros [|fuel] s Hok Hf; try (exfalso; lia); [reflexivity |].
  cbn [forallb fst] in Hok. apply andb_true_iff in Hok as [[_ Hn]%andb_true_iff Hok].
  cbn [fmap list_fmap concat] in *. rewrite length_app in Hf. rewrite <- app_assoc. cbn [read_attributes].
  change (attribute_text (n, v)) with ([32%N] ++ n ++ [61; 34]%N ++ escapeHTML v ++ [34%N]) in *.
  rewrite !length_app in Hf. cbn [length] in Hf. rewrite <- !app_assoc, expect_app.
  rewrite read_name_app by (done || by intros c r [= <- _]). rewrite expect_app. cbn [app].
  rewrite read_value_escape by lia. by rewrite IH by (done || lia).
Qed.

(** ** Every readable forest reads back *)

Definition closing (s : jstr) : Prop := s = [] \/ starts_with s (js "</") = true.

Lemma readable_void tag attrs kids :
  readable (Element tag attrs kids) = true -> has voidTags tag = true -> kids = [].
Proof.
  cbn [readable]. intros [[_ H]%andb_true_iff _]%andb_true_iff Hv. rewrite Hv in H. cbn in H.
  apply bool_decide_eq_true in H. by destruct kids.
Qed.

Lemma read_forest_closing fuel s : closing s -> (0 < fuel)%nat -> read_forest fuel s = Some ([], s).
Proof.
  intros Hc Hf. destruct fuel as [|fuel]; [lia |]. cbn [read_forest].
  destruct Hc as [-> | ->]; [done | by rewrite orb_true_r].
Qed.

(** The first unit of a readable forest is not that of a closing tag. *)
Lemma tag_opens tag s : name_ok tag = true -> starts_with (js "<" ++ tag ++ s) (js "</") = false.
Proof.
  unfold name_ok. destruct tag as [|c tag]; [done |]. intros [_ [Hc _]%andb_true_iff]%andb_true_iff.
  unfold starts_with. apply bool_decide_eq_false. cbn. intros [= ->]. done.
Qed.

Definition reads_back (m : markup) : Prop := readable m = true -> forall fuel forest s,
  (length (render m ++ renders forest) < fuel)%nat ->
  (forall fuel', (length (renders forest) < fuel')%nat -> read_forest fuel' (renders forest ++ s) = Some (forest, s)) ->
  read_forest fuel (render m ++ renders forest ++ s) = Some (m :: forest, s).

Lemma renders_cons m forest : renders (m :: forest) = render m ++ renders forest.
Proof. done. Qed.

Lemma read_forest_kids kids : Forall reads_back kids -> forallb readable kids = true -> forall fuel s,
  closing s -> (length (renders kids) < fuel)%nat -> read_forest fuel (renders kids ++ s) = Some (kids, s).
Proof.
  induction 1 as [|m kids Hm _ IH]; intros Hr fuel s Hs Hf; cbn [forallb] in Hr.
  { apply read_forest_closing; [done | lia]. }
  apply andb_true_iff in Hr as [Hrm Hr]. rewrite renders_cons in *. rewrite <- app_assoc. apply Hm; [done | done |].
  intros fuel' Hf'. by apply IH.
Qed.

Lemma read_markup_unit c : reads_back (TextUnit c).
Proof.
  intros _ [|fuel] forest s Hf IH; [lia |]. cbn [render] in *. destruct (escape_unit_head c) as (d & u & Hd & H60 & _).
  pose proof (escape_unit_length c). rewrite length_app in Hf. cbn [read_forest].
  assert (starts_with (escape_unit c ++ renders forest ++ s) (js "</") = false) as -> by (rewrite Hd; by apply starts_with_false).
  assert (expect (js "<") (escape_unit c ++ renders forest ++ s) = None) as -> by (rewrite Hd; by apply expect_cons).
  rewrite bool_decide_eq_false_2 by (rewrite Hd; done). cbn [orb]. rewrite read_unit_escape, IH by lia. done.
Qed.

Lemma read_markup_element tag attrs kids : Forall reads_back kids -> reads_back (Element tag attrs kids).
Proof.
  intros Hkids Hr [|fuel] forest s Hf IH; [lia |]. pose proof (readable_void tag attrs kids Hr) as Hvoid.
  cbn [readable] in Hr. apply andb_true_iff in Hr as [[[Htag Hattrs]%andb_true_iff _]%andb_true_iff Hk].
  cbn [render] in *. set (body := if has voidTags tag then [] else _) in *.
  rewrite <- !app_assoc. cbn [read_forest]. rewrite tag_opens, bool_decide_eq_false_2 by done. cbn [orb].
  rewrite expect_app. rewrite !length_app in Hf. cbn [length js fmap list_fmap String.list_ascii_of_string] in Hf.
  assert (forall r, read_name (tag ++ concat (attribute_text <$> attrs) ++ js ">" ++ r)
    = (tag, concat (attribute_text <$> attrs) ++ js ">" ++ r)) as Hname.
  { intros r. apply read_name_app; [by apply andb_true_iff in Htag as [_ ?] |]. intros c r' Heq.
    destruct attrs as [|a attrs]; injection Heq as <- _; done. }
  rewrite Hname. change (js ">" ++ ?r) with (62%N :: r). rewrite read_attributes_render by (done || lia).
  change (62%N :: ?r) with (js ">" ++ r). rewrite expect_app. unfold body in *.
  destruct (has voidTags tag) eqn:Hv.
  - rewrite Hvoid by done. rewrite IH by lia. done.
  - fold (renders kids) in *. rewrite !length_app in Hf. rewrite <- !app_assoc.
    rewrite (read_forest_kids kids) by (done || lia || by right; apply starts_with_app).
    assert (forall r, js "</" ++ tag ++ js ">" ++ r = (js "</" ++ tag ++ js ">") ++ r) as -> by (intros; by rewrite <- !app_assoc).
    rewrite expect_app, IH by lia. done.
Qed.

Lemma all_read_back m : reads_back m.
Proof. induction m using markup_induction; [apply read_markup_unit | by apply read_markup_element]. Qed.

Lemma read_markup_renders forest : forallb readable forest = true -> read_markup (renders forest) = Some forest.
Proof.
  intros Hr. unfold read_markup. rewrite <- (app_nil_r (renders forest)) at 2.
  rewrite (read_forest_kids forest); [done | | done | by left | lia]. apply Forall_true. exact all_read_back.
Qed.

Fixpoint contains (tag : jstr) (m : markup) : bool :=
  match m with
  | TextUnit _ => false
  | Element t _ kids => bool_decide (t = tag) || existsb (contains tag) kids
  end.

Definition markup_tag (m : markup) : jstr := match m with TextUnit _ => [] | Element t _ _ => t end.

Definition children_ok (name : jstr) (tags : list jstr) : bool :=
  required_ok name tags && table_ok name tags && (negb (named name "dl") || pairs_ok tags).

Definition address_names : list jstr := table "href action formaction src".

Section valid.
Context (declared : list jstr).

(** A path on this origin, or an asset of the program. *)
Definition local_ok (v : jstr) : Prop :=
  (starts_with v (js "/") = true /\ starts_with v (js "//") = false) \/ v ∈ declared.
Definition address_ok (v : jstr) : Prop :=
  local_ok v \/ starts_with v (js "https://") = true \/ starts_with v (js "mailto:") = true.

Definition attribute_safe (a : jstr * jstr) : Prop :=
  (a.1 ∈ address_names -> address_ok a.2) /\ (a.1 = js "hx-get" \/ a.1 = js "hx-post" -> local_ok a.2).

(** The rule at one element. *)
Definition element_valid (tag : jstr) (attrs : list (jstr * jstr)) (kids : list markup) : Prop :=
  tag ∈ authorTags /\ NoDup attrs.*1 /\ Forall attribute_safe attrs
  /\ (tag ∈ voidTags -> kids = []) /\ children_ok tag (markup_tag <$> kids) = true
  /\ (tag = js "a" -> existsb (contains (js "a")) kids = false)
  /\ (tag = js "form" -> existsb (contains (js "form")) kids = false).

Fixpoint valid (m : markup) : Prop :=
  match m with
  | TextUnit _ => True
  | Element tag attrs kids =>
      element_valid tag attrs kids /\ foldr (fun k p => valid k /\ p) True kids
  end.

Lemma valid_element tag attrs kids :
  valid (Element tag attrs kids) <-> element_valid tag attrs kids /\ Forall valid kids.
Proof using Type.
  cbn [valid]. apply and_iff_compat_l. induction kids as [|k kids IH]; cbn; [done |]. rewrite Forall_cons. by rewrite IH.
Qed.

(** ** Names *)

Lemma has_in l s : has l s = true <-> s ∈ l.
Proof using Type. apply bool_decide_eq_true. Qed.

Lemma in_table {A} (p : A -> bool) l s : forallb p l = true -> s ∈ l -> p s = true.
Proof using Type. rewrite forallb_forall. intros H Hs. apply H. by apply list_elem_of_In. Qed.

Lemma aria_name_ok name : aria_name name = true -> name_ok name = true /\ starts_with name (js "aria-") = true.
Proof using Type.
  unfold aria_name. intros [Hs Hr]%andb_true_iff. split; [| done].
  unfold starts_with in Hs. apply bool_decide_eq_true in Hs. rewrite <- (take_drop 5 name).
  change (length (js "aria-")) with 5%nat in Hs. rewrite Hs. destruct (drop 5 name) as [|c r]; [done |].
  apply andb_true_iff in Hr as [Hc Hr]. unfold name_ok. rewrite bool_decide_eq_false_2 by done. rewrite forallb_app. cbn [negb andb].
  change (forallb name_unit (js "aria-")) with true. cbn [andb forallb]. unfold name_unit at 1. rewrite Hc. cbn [orb andb].
  apply forallb_forall. intros d Hd. rewrite forallb_forall in Hr. specialize (Hr d Hd). unfold name_unit.
  apply orb_true_iff in Hr as [-> | ->]; [done | by rewrite !orb_true_r].
Qed.

(** A name of the vocabulary: readable, no address and no status exception. *)
Definition plain_name (name : jstr) : bool :=
  name_ok name && negb (has address_names name) && negb (starts_with name (js "hx-")).

Lemma starts_with_excludes s p q : starts_with s p = true -> (length p <= length q)%nat -> take (length p) q <> p ->
  starts_with s q = false.
Proof using Type.
  unfold starts_with. intros Hp%bool_decide_eq_true Hl Hne. apply bool_decide_eq_false. intros Hq. apply Hne.
  rewrite <- Hq, take_take, Nat.min_l by done. done.
Qed.

Lemma text_name_plain name :
  negb (has globals name) && negb (aria_name name) && bool_decide (applies name = None) = false -> plain_name name = true.
Proof using Type.
  intros H. destruct (has globals name) eqn:Hg.
  { apply has_in in Hg. by apply (in_table plain_name globals); [vm_compute |]. }
  destruct (aria_name name) eqn:Ha.
  { apply aria_name_ok in Ha as [Hn Hs]. unfold plain_name. rewrite Hn. cbn [andb].
    assert (has address_names name = false) as ->.
    { apply not_true_iff_false. intros Hin%has_in.
      apply (in_table (fun n => negb (starts_with n (js "aria-"))) address_names) in Hin; [| by vm_compute]. by rewrite Hs in Hin. }
    cbn [negb andb]. unfold starts_with in *. apply bool_decide_eq_true in Hs.
    rewrite bool_decide_eq_false_2; [done |]. destruct name as [|c name]; [done |]. cbn in Hs |- *. injection Hs as -> _. done. }
  cbn [negb andb] in H. apply bool_decide_eq_false in H. unfold applies in H.
  destruct (find _ applicability) as [[k tags]|] eqn:Hf; [| by destruct H]. apply find_some in Hf as [Hin Hk].
  apply bool_decide_eq_true in Hk. cbn in Hk. subst k.
  apply (in_table plain_name (applicability.*1)); [by vm_compute |]. apply list_elem_of_fmap. exists (name, tags).
  split; [done |]. by apply list_elem_of_In.
Qed.

(** ** Forests of nodes *)

Record forest_of (n : Node) (f : list markup) : Prop := {
  fo_html : n_html n = renders f;
  fo_valid : Forall valid f;
  fo_readable : forallb readable f = true;
  fo_anchor : n_anchor n = existsb (contains (js "a")) f;
  fo_form : n_form n = existsb (contains (js "form")) f;
  fo_tag : n_tag n <> [] -> markup_tag <$> f = [n_tag n]
}.

Lemma renders_app f g : renders (f ++ g) = renders f ++ renders g.
Proof using Type. unfold renders. by rewrite fmap_app, concat_app. Qed.

Lemma renders_units s : renders (TextUnit <$> s) = escapeHTML s.
Proof using Type. unfold renders, escapeHTML. by rewrite <- list_fmap_compose. Qed.

Lemma text_forest s : forest_of (mkNode (escapeHTML s) [] false false false) (TextUnit <$> s).
Proof using Type.
  split; cbn; [by rewrite renders_units | | | | | done].
  - apply Forall_fmap, Forall_true. done.
  - apply forallb_forall. by intros m (c & <- & _)%in_map_iff.
  - induction s; [done | by cbn].
  - induction s; [done | by cbn].
Qed.

(** The kids of an element, together. *)
Lemma kids_forest kids : Forall (fun n => exists f, forest_of n f) kids -> exists f,
  concat (n_html <$> kids) = renders f /\ Forall valid f /\ forallb readable f = true
  /\ existsb n_anchor kids = existsb (contains (js "a")) f /\ existsb n_form kids = existsb (contains (js "form")) f
  /\ (Forall (fun t => t <> []) (kid_tags kids) -> markup_tag <$> f = kid_tags kids) /\ (kids = [] -> f = []).
Proof using Type.
  induction 1 as [|n kids (f & [Hh Hv Hr Ha Hf Ht]) _ (g & Hgh & Hgv & Hgr & Hga & Hgf & Hgt & _)]; [by exists [] |].
  exists (f ++ g). cbn [fmap list_fmap concat existsb kid_tags]. rewrite renders_app, Hh, Hgh, forallb_app, Hr, Hgr, !existsb_app, Ha, Hga, Hf, Hgf.
  split_and!; try done; [by apply Forall_app |]. intros [Hn Hk]%Forall_cons. by rewrite fmap_app, (Ht Hn), (Hgt Hk).
Qed.

Lemma pairs_ok_tags tags : pairs_ok tags = true -> Forall (fun t => t <> []) tags.
Proof using Type.
  induction tags as [tags IH] using (induction_ltof1 _ (@length jstr)). unfold ltof in IH.
  destruct tags as [|a [|b tags]]; [done.. |]. cbn [pairs_ok]. intros [[Ha%bool_decide_eq_true Hb%bool_decide_eq_true]%andb_true_iff H]%andb_true_iff.
  repeat constructor; [by rewrite Ha | by rewrite Hb |]. apply IH; [cbn; lia | done].
Qed.

(** The children rules speak of element children only. *)
Lemma children_ok_tags name tags : children_ok name tags = true ->
  (forall tags', children_ok name tags' = true) \/ Forall (fun t => t <> []) tags.
Proof using Type.
  unfold children_ok. intros [[Hr Ht]%andb_true_iff Hp]%andb_true_iff. unfold required_ok in *.
  destruct (find _ required_children) as [[k wanted]|] eqn:Hf.
  { right. apply find_some in Hf as [Hin _]. apply list_elem_of_In in Hin.
    assert (forallb (fun p => negb (has p.2 [])) required_children = true) as Hne by by vm_compute.
    apply (in_table (fun p => negb (has p.2 [])) _ (k, wanted) Hne) in Hin. cbn in Hin. apply Forall_forall. intros t Htin ->.
    rewrite forallb_forall in Hr. rewrite (Hr []) in Hin by by apply list_elem_of_In. done. }
  unfold table_ok in *. destruct (named name "table") eqn:Htab.
  { right. cbn [negb orb] in Ht. apply orb_true_iff in Ht as [-> %bool_decide_eq_true | ->%bool_decide_eq_true]; by repeat constructor. }
  destruct (named name "dl") eqn:Hdl; [right; by apply pairs_ok_tags | by left].
Qed.

(** ** Attributes *)

Record attribute_ok (a : Attribute) : Prop := {
  ao_name : name_ok (a_name a) = true;
  ao_status : starts_with (a_name a) (js "hx-status:") = false;
  ao_safe : attribute_safe (a_name a, a_value a)
}.

Definition pair_of (a : Attribute) : jstr * jstr := (a_name a, a_value a).

Lemma check_attributes_nodup name input attrs : forall seen,
  check_attributes name input attrs seen = None ->
  NoDup (a_name <$> attrs) /\ (forall a, a ∈ attrs -> a_name a ∉ seen).
Proof using Type.
  induction attrs as [|a attrs IH]; intros seen H; cbn [check_attributes] in H.
  { split; [constructor | by intros a ?%elem_of_nil]. }
  destruct (has seen (a_name a)) eqn:Hs; [discriminate |]. destruct (attribute_problem name input a); [discriminate |].
  destruct (IH _ H) as [Hnd Hall]. assert (a_name a ∉ seen) as Hna by by rewrite <- has_in, Hs. split.
  - cbn [fmap list_fmap]. constructor; [| done]. intros (b & Hab & Hb)%list_elem_of_fmap.
    apply (Hall b Hb). rewrite <- Hab. by left.
  - intros b [-> | Hb]%elem_of_cons; [done |]. intros Hbs. apply (Hall b Hb). by right.
Qed.

Definition status_set (l : list SwapCase) : list Z := c_status <$> l.

Lemma merge_case_nodup merged item : NoDup (status_set merged) -> NoDup (status_set (merge_case merged item)).
Proof using Type.
  intros H. unfold merge_case. destruct (_ && _); [done |]. destruct (existsb _ merged) eqn:E; [done |].
  unfold status_set in *. rewrite fmap_app. apply NoDup_app. split_and!; [done | | apply NoDup_singleton].
  intros z (c & -> & Hc)%list_elem_of_fmap Hz%list_elem_of_singleton. apply not_true_iff_false in E. apply E.
  apply existsb_exists. exists c. split; [by apply list_elem_of_In | by apply Z.eqb_eq].
Qed.

Lemma fold_keeps {A B} (P : A -> Prop) (f : A -> B -> A) l : (forall a b, P a -> P (f a b)) -> forall a, P a -> P (fold_left f l a).
Proof using Type. intros Hf. induction l as [|b l IH]; intros a Ha; [done |]. by apply IH, Hf. Qed.

Lemma merged_nodup policies attrs : NoDup (status_set (fold_left (attribute_cases policies) attrs [])).
Proof using Type.
  apply (fold_keeps (fun m => NoDup (status_set m))); [| constructor]. intros m a Hm. unfold attribute_cases.
  destruct (action_of a) as [[verb decoded]|]; [| done].
  apply (fold_keeps (fun m => NoDup (status_set m))); [| done]. intros m' q Hm'. unfold policy_cases.
  destruct (_ && _); [| done]. apply (fold_keeps (fun m => NoDup (status_set m))); [| done].
  intros m'' c Hm''. by apply merge_case_nodup.
Qed.

Lemma insert_status_perm c l : insert_status c l ≡ₚ c :: l.
Proof using Type. induction l as [|d l IH]; [done |]. cbn. destruct (_ <=? _); [done |]. rewrite IH. apply perm_swap. Qed.
Lemma sort_status_perm l : sort_status l ≡ₚ l.
Proof using Type. induction l as [|c l IH]; [done |]. cbn. by rewrite insert_status_perm, IH. Qed.

Lemma status_name_ok z : name_ok (js "hx-status:" ++ dec_of_Z z) = true.
Proof using Type.
  unfold name_ok. rewrite bool_decide_eq_false_2 by done. rewrite forallb_app. change (forallb name_unit (js "hx-status:")) with true.
  assert (forall n, forallb name_unit (dec_of_N n) = true) as Hn.
  { intros n. apply forallb_forall. intros c Hc. pose proof (text_all_digits n) as Hd. unfold all_digits in Hd.
    rewrite forallb_forall in Hd. unfold name_unit. rewrite (Hd c Hc). by rewrite orb_true_r. }
  unfold dec_of_Z. destruct (z <? 0); cbn [forallb]; rewrite Hn; done.
Qed.

Lemma dec_of_N_inj m n : dec_of_N m = dec_of_N n -> m = n.
Proof using Type. intros H. apply (f_equal dec_value) in H. by rewrite !dec_value_dec_of_N in H. Qed.

Lemma minus_not_digits n s : dec_of_N n <> 45%N :: s.
Proof using Type. intros H. pose proof (text_all_digits n) as Hd. rewrite H in Hd. done. Qed.

Lemma integer_text_inj a b : dec_of_Z a = dec_of_Z b -> a = b.
Proof using Type.
  unfold dec_of_Z. destruct (Z.ltb_spec a 0), (Z.ltb_spec b 0); intros H'.
  - injection H' as H'%dec_of_N_inj. lia.
  - by apply eq_sym, minus_not_digits in H'.
  - by apply minus_not_digits in H'.
  - apply dec_of_N_inj in H'. lia.
Qed.

Lemma derived_attributes policies attrs :
  NoDup (a_name <$> deriveSwapAttributes policies attrs) /\
  forall a, a ∈ deriveSwapAttributes policies attrs -> exists c, a = status_attribute c.
Proof using Type.
  unfold deriveSwapAttributes. destruct (bool_decide _); [split; [constructor | by intros a ?%elem_of_nil] |]. split.
  - rewrite <- list_fmap_compose. rewrite sort_status_perm.
    pose proof (merged_nodup policies attrs) as H. unfold status_set in H.
    rewrite (list_fmap_ext _ (fun c => js "hx-status:" ++ dec_of_Z (c_status c))) by done.
    rewrite (list_fmap_compose c_status (fun z => js "hx-status:" ++ dec_of_Z z)). apply NoDup_fmap_2; [| done].
    intros z z' Heq. apply app_inv_head in Heq. by apply integer_text_inj.
  - intros a (c & -> & _)%list_elem_of_fmap. by exists c.
Qed.

(** ** Elements *)

Lemma serialize_text a : serialize a = attribute_text (pair_of a).
Proof using Type. done. Qed.

Lemma status_starts z : starts_with (js "hx-status:" ++ dec_of_Z z) (js "hx-status:") = true.
Proof using Type. apply starts_with_app. Qed.

Lemma status_safe c : attribute_safe (pair_of (status_attribute c)).
Proof using Type.
  split; cbn [fst pair_of status_attribute a_name].
  - intros Hin. apply (in_table (fun n => negb (starts_with n (js "hx-status:"))) address_names) in Hin; [| by vm_compute].
    by rewrite starts_with_app in Hin.
  - intros [H | H]; discriminate.
Qed.

Lemma element_valid_of policies name attrs kids f :
  name ∈ authorTags -> Forall attribute_ok attrs ->
  check_attributes name (inputType_of attrs) attrs [] = None -> children_problem name kids = None ->
  existsb n_anchor kids = existsb (contains (js "a")) f -> existsb n_form kids = existsb (contains (js "form")) f ->
  (Forall (fun t => t <> []) (kid_tags kids) -> markup_tag <$> f = kid_tags kids) -> (kids = [] -> f = []) ->
  element_valid name (pair_of <$> (attrs ++ deriveSwapAttributes policies attrs)) f.
Proof using Type.
  intros Hname Hattrs Hcheck Hkids Ha Hf Htags Hnil.
  destruct (check_attributes_nodup _ _ _ _ Hcheck) as [Hnd _]. destruct (derived_attributes policies attrs) as [Hdn Hds].
  unfold children_problem in Hkids. destruct (existsb n_head kids); [discriminate |].
  destruct (has voidTags name && _) eqn:Hv; [discriminate |].
  destruct (required_ok name (kid_tags kids)) eqn:Hr; [| discriminate]. destruct (table_ok name (kid_tags kids)) eqn:Ht; [| discriminate].
  cbn [negb] in Hkids. destruct (named name "dl" && negb (pairs_ok (kid_tags kids))) eqn:Hdl; [discriminate |].
  destruct (_ || _) eqn:Hnest; [discriminate |]. apply orb_false_iff in Hnest as [Hna Hnf]. split_and!.
  - done.
  - rewrite <- list_fmap_compose. change (NoDup (a_name <$> (attrs ++ deriveSwapAttributes policies attrs))). rewrite fmap_app.
    apply NoDup_app. split_and!; [done | | done]. intros n (a & -> & Hin)%list_elem_of_fmap (b & Hab & Hb)%list_elem_of_fmap.
    destruct (Hds b Hb) as [c ->]. rewrite Forall_forall in Hattrs. destruct (Hattrs a Hin) as [_ Hs _].
    rewrite Hab in Hs. cbn [status_attribute a_name] in Hs. by rewrite starts_with_app in Hs.
  - apply Forall_fmap, Forall_app. split.
    + apply (Forall_impl _ _ _ Hattrs). by intros a [_ _ ?].
    + apply Forall_forall. intros a Hin. destruct (Hds a Hin) as [c ->]. apply status_safe.
  - intros Hin%has_in. rewrite Hin in Hv. cbn [andb] in Hv. apply negb_false_iff, bool_decide_eq_true in Hv. apply Hnil. by destruct kids.
  - assert (children_ok name (kid_tags kids) = true) as Hok.
    { unfold children_ok. rewrite Hr, Ht. cbn [andb]. destruct (named name "dl"); [| done]. cbn in Hdl |- *. by destruct (pairs_ok _). }
    destruct (children_ok_tags name _ Hok) as [Hall | Hne]; [apply Hall | by rewrite (Htags Hne)].
  - intros ->. rewrite <- Ha. exact Hna.
  - intros ->. rewrite <- Hf. exact Hnf.
Qed.

(** What a built element is. *)
Lemma built_element types policies name attrs kids m :
  name ∈ authorTags -> Forall attribute_ok attrs -> Forall (fun n => exists f, forest_of n f) kids ->
  build_element types policies name attrs kids = m -> (forall f, m <> Refused f) ->
  exists n f, m = MadeNode n /\ n_head n = false /\
    forest_of n [Element name (pair_of <$> (attrs ++ deriveSwapAttributes policies attrs)) f]
    /\ concat (n_html <$> kids) = renders f.
Proof using Type.
  intros Hname Hattrs Hkids Hm Href. unfold build_element in Hm.
  destruct (check_attributes _ _ _ _) eqn:Hcheck; [by destruct (Href _ (eq_sym Hm)) |].
  destruct (children_problem name kids) eqn:Hc; [by destruct (Href _ (eq_sym Hm)) |].
  destruct (kids_forest kids Hkids) as (f & Hhtml & Hval & Hread & Ha & Hf & Htags & Hnil). subst m.
  pose proof (element_valid_of policies name attrs kids f Hname Hattrs Hcheck Hc Ha Hf Htags Hnil) as Hvalid.
  eexists _, f. split_and!; [reflexivity | done | | done].
  assert (name_ok name = true) as Hn by by apply (in_table name_ok authorTags); [vm_compute |].
  split; cbn [n_html n_anchor n_form n_tag node].
  - unfold renders. cbn [fmap list_fmap concat render]. rewrite app_nil_r. unfold element_html.
    assert (serialize <$> (attrs ++ deriveSwapAttributes policies attrs)
      = attribute_text <$> (pair_of <$> (attrs ++ deriveSwapAttributes policies attrs))) as -> by by rewrite <- list_fmap_compose.
    destruct (has voidTags name); [done |]. by rewrite Hhtml.
  - constructor; [| done]. by apply valid_element.
  - cbn [forallb readable]. rewrite Hn, Hread, !andb_true_r. cbn [andb]. apply andb_true_iff. split.
    + apply forallb_forall. intros a Hin%list_elem_of_In. apply list_elem_of_fmap in Hin as (b & -> & Hb). cbn [fst pair_of].
      apply elem_of_app in Hb as [Hb | Hb].
      * rewrite Forall_forall in Hattrs. by destruct (Hattrs b Hb).
      * destruct (derived_attributes policies attrs) as [_ Hd]. destruct (Hd b Hb) as [c ->]. apply status_name_ok.
    + destruct Hvalid as (_ & _ & _ & Hvoid & _). destruct (has voidTags name) eqn:Hv; [| done]. cbn [negb orb].
      apply has_in in Hv. by rewrite (Hvoid Hv).
  - cbn [existsb contains]. rewrite orb_false_r, <- Ha. unfold named. done.
  - cbn [existsb contains]. rewrite orb_false_r, <- Hf. unfold named. done.
  - done.
Qed.

(** ** What the tokens hold *)

Context (url_parse : jstr -> option ParsedURL) (types : Contracts) (policies : list SwapPolicy).

(** The parts of a parsed [https] address. *)
Context (Hurl : forall value p, url_parse value = Some p -> url_protocol p = js "https:" ->
  starts_with (url_href p) (js "https://") = true /\ starts_with (url_pathname p) (js "/") = true).

Definition stylesheet_html (v : jstr) : jstr :=
  js "<link rel=" ++ 34%N :: js "stylesheet" ++ 34%N :: js " href=" ++ 34%N :: escapeHTML v ++ 34%N :: js ">".

Definition made_html (m : Made) : jstr := match m with MadeNode n => n_html n | _ => [] end.

(** The three nodes of a document head. *)
Definition head_ok (html : jstr) : Prop :=
  html = made_html metaViewport \/ html = made_html runtimeHead \/ exists v, address_ok v /\ html = stylesheet_html v.

Definition node_ok (n : Node) : Prop :=
  if n_head n then head_ok (n_html n) else exists f, forest_of n f.

Definition forest_text (s : jstr) (f : list markup) : Prop :=
  s = renders f /\ Forall valid f /\ forallb readable f = true.

Definition safe_ok (s : jstr) : Prop :=
  (exists f, forest_text s f) \/
  exists title heads body f, Forall head_ok heads /\ forest_text body f /\
    s = js "<!doctype html><html><head><title>" ++ escapeHTML title ++ js "</title>" ++ concat heads
        ++ js "</head><body>" ++ body ++ js "</body></html>".

Definition url_ok (u : Address) : Prop :=
  if u_local u then local_ok (u_value u) else starts_with (u_value u) (js "https://") = true.

Record tokens_ok (t : Tokens) : Prop := {
  to_nodes : forall n x, t_nodes t !! n = Some x -> node_ok x;
  to_safe : forall n x, t_safe t !! n = Some x -> safe_ok x;
  to_tags : forall n x, t_tags t !! n = Some x -> x ∈ authorTags;
  to_attributes : forall n x, t_attributes t !! n = Some x -> attribute_ok x;
  to_urls : forall n x, t_urls t !! n = Some x -> url_ok x
}.

Definition made_ok (m : Made) : Prop :=
  match m with
  | MadeNode n => node_ok n
  | MadeSafe s => safe_ok s
  | MadeTag s => s ∈ authorTags
  | MadeAttribute a => attribute_ok a
  | MadeUrl u => url_ok u
  | Refused _ | MadeTarget _ => True
  end.

Lemma insert_holds {A} (P : A -> Prop) (m : gmap nat A) n y :
  (forall k x, m !! k = Some x -> P x) -> P y -> forall k x, <[n := y]> m !! k = Some x -> P x.
Proof using Type. intros Hm Hy k x. rewrite lookup_insert_Some. intros [[_ <-] | [_ Hk]]; [exact Hy | exact (Hm k x Hk)]. Qed.

Lemma token_ok t m : tokens_ok t -> made_ok m -> tokens_ok (token t m).2.
Proof using Type.
  intros [H1 H2 H3 H4 H5] Hm. destruct t as [next ns ss ts as_ us gs].
  cbn [t_nodes t_safe t_tags t_attributes t_urls] in *.
  destruct m; cbn [made_ok] in Hm; cbn [token snd]; split; cbn [t_nodes t_safe t_tags t_attributes t_urls];
    try assumption; apply insert_holds; assumption.
Qed.

Lemma read_done {A} (m : gmap nat A) v x : read m v = Done x -> m !! v = Some x.
Proof using Type. unfold read. by destruct (m !! v) as [y|]; intros [= <-]. Qed.

Lemma read_all_done {A} (P : A -> Prop) (m : gmap nat A) vs : (forall n x, m !! n = Some x -> P x) ->
  forall xs, read_all m vs = Done xs -> Forall P xs.
Proof using Type.
  intros HP. induction vs as [|v vs IH]; intros xs H; cbn [read_all] in H; [by injection H as <- |].
  destruct (read m v) as [x|] eqn:Hx; [| discriminate]. cbn [run_bind] in H.
  destruct (read_all m vs) as [xs'|] eqn:Hxs; [| discriminate]. injection H as <-. constructor; [| by apply IH].
  apply read_done in Hx. by eapply HP.
Qed.

Lemma url_address u : url_ok u -> address_ok (u_value u).
Proof using Type. unfold url_ok, address_ok. destruct (u_local u); auto. Qed.

(** A name outside the addresses and htmx requests carries no obligation. *)
Lemma plain_attribute name value k : plain_name name = true -> attribute_ok (mkAttribute name value k).
Proof using Type.
  unfold plain_name. intros [[Hn Ha%negb_true_iff]%andb_true_iff Hx%negb_true_iff]%andb_true_iff. split; cbn [a_name a_value]; [done | |].
  - destruct (starts_with name (js "hx-status:")) eqn:Hs; [| done]. exfalso.
    assert (starts_with name (js "hx-") = true) as H; [| by rewrite H in Hx].
    unfold starts_with in Hs |- *. apply bool_decide_eq_true in Hs. apply bool_decide_eq_true.
    change (js "hx-") with (take 3 (js "hx-status:")) at 2. rewrite <- Hs, take_take. done.
  - split; cbn [fst snd].
    + intros Hin%has_in. by rewrite Ha in Hin.
    + intros [-> | ->]; done.
Qed.

Lemma htmx_attribute name value :
  name_ok (js name) = true -> starts_with (js name) (js "hx-status:") = false -> has address_names (js name) = false ->
  bool_decide (js name = js "hx-get") = false -> bool_decide (js name = js "hx-post") = false ->
  made_ok (htmx name value).
Proof using Type.
  intros Hn Hs Ha Hg Hp. split; cbn [a_name a_value]; [done | done |]. split; cbn [fst snd].
  - intros Hin%has_in. by rewrite Ha in Hin.
  - intros [H | H]; [by rewrite H in Hg | by rewrite H in Hp].
Qed.

Lemma address_attribute name value : name ∈ address_names -> address_ok value ->
  attribute_ok (mkAttribute name value kind_url).
Proof using Type.
  intros Hin Hv. split; cbn [a_name a_value].
  - by apply (in_table name_ok address_names); [vm_compute |].
  - apply (in_table (fun n => negb (starts_with n (js "hx-status:"))) address_names) in Hin; [| by vm_compute]. by apply negb_true_iff.
  - split; cbn [fst snd]; [done |]. apply (in_table (fun n => negb (bool_decide (n = js "hx-get") || bool_decide (n = js "hx-post"))) address_names) in Hin; [| by vm_compute].
    intros [-> | ->]; done.
Qed.

(** ** The operations *)

Lemma done_inj {A} (a b : A) : Done a = Done b -> b = a.
Proof using Type. by intros [=]. Qed.


Lemma parseURL_ok value : made_ok (parseURL url_parse types value).
Proof using Hurl.
  unfold parseURL. case_match; [done |]. case_match; [done |]. case_match; [| done].
  match goal with H : url_parse value = Some ?p |- _ => specialize (Hurl value p H) end. case_match; [done |].
  match goal with H : _ || _ || _ = false |- _ => apply orb_false_iff in H as [[Hp _]%orb_false_iff _] end.
  apply negb_false_iff, bool_decide_eq_true in Hp. destruct (Hurl Hp) as [Hhref Hpath].
  destruct (starts_with value (js "/")); cbn [andb]; [| exact Hhref]. case_match; [done |].
  match goal with H : _ || _ = false |- _ => apply orb_false_iff in H as [_ Hd] end. cbn [made_ok url_ok u_local u_value]. left. split; [| done].
  unfold starts_with in *. apply bool_decide_eq_true in Hpath. apply bool_decide_eq_true.
  destruct (url_pathname p) as [|c path]; [done |]. cbn in *. by injection Hpath as ->.
Qed.

Lemma textAttribute_ok name value : made_ok (textAttribute types name value).
Proof using Type.
  unfold textAttribute. destruct (_ && bool_decide _) eqn:H; [done |]. destruct (negb (validValue _ _ _)); [done |].
  cbn [made_ok]. by apply plain_attribute, text_name_plain.
Qed.

Lemma emailHref_ok address : made_ok (emailHref types address).
Proof using Type.
  unfold emailHref. case_match; [done |]. case_match; [| done]. cbn [made_ok]. apply address_attribute; [by apply has_in; vm_compute |].
  right. right. apply starts_with_app.
Qed.

Lemma local_address_ok t u name : js name = js "hx-get" \/ js name = js "hx-post" ->
  tokens_ok t -> forall m, local_address types t u name = Done m -> made_ok m.
Proof using Type.
  intros Hname Ht m H. unfold local_address in H. destruct (read (t_urls t) u) as [x|] eqn:Hu; [| discriminate]. cbn [run_bind] in H.
  apply read_done in Hu. pose proof (to_urls t Ht u x Hu) as Hok. apply done_inj in H; subst m. unfold url_ok in Hok.
  destruct (u_local x); [| done]. unfold htmx. cbn [made_ok]. split; cbn [a_name a_value].
  - by destruct Hname as [-> | ->]; vm_compute.
  - by destruct Hname as [-> | ->]; vm_compute.
  - split; cbn [fst snd]; [| done]. intros Hin%has_in. by destruct Hname as [E | E]; rewrite E in Hin; vm_compute in Hin.
Qed.

Lemma element_ok t tag attrs kids m :
  tokens_ok t -> element types policies t tag attrs kids = Done m -> made_ok m.
Proof using Type.
  intros Ht H. unfold element in H. destruct (read (t_tags t) tag) as [name|] eqn:Hn; [| discriminate]. cbn [run_bind] in H.
  destruct (read_all (t_attributes t) attrs) as [al|] eqn:Ha; [| discriminate]. cbn [run_bind] in H.
  destruct (read_all (t_nodes t) kids) as [kl|] eqn:Hk; [| discriminate]. cbn [run_bind] in H. apply done_inj in H; subst m.
  apply read_done, (to_tags t Ht) in Hn. apply (read_all_done attribute_ok) in Ha; [| apply Ht].
  apply (read_all_done node_ok) in Hk; [| apply Ht].
  destruct (build_element types policies name al kl) as [f|n|s|s|a|u|s] eqn:Hb; try done;
    try (exfalso; unfold build_element in Hb; repeat case_match; discriminate).
  cbn [made_ok]. assert (existsb n_head kl = false) as Hhead.
  { destruct (existsb n_head kl) eqn:E; [| done]. unfold build_element, children_problem in Hb. rewrite E in Hb. by destruct (check_attributes _ _ _ _). }
  assert (Forall (fun n => exists f, forest_of n f) kl) as Hforests.
  { apply Forall_forall. intros k Hin. rewrite Forall_forall in Hk. specialize (Hk k Hin). unfold node_ok in Hk.
    destruct (n_head k) eqn:E; [| done]. apply not_true_iff_false in Hhead. destruct Hhead. apply existsb_exists.
    exists k. split; [by apply list_elem_of_In | done]. }
  destruct (built_element types policies name al kl _ Hn Ha Hforests Hb) as (n' & f & Hm & Hh & Hf & _); [congruence |].
  injection Hm as <-. unfold node_ok. rewrite Hh. by eexists.
Qed.

Lemma nodes_of_body kids : Forall node_ok kids -> existsb n_head kids = false ->
  exists f, forest_text (concat (n_html <$> kids)) f.
Proof using Type.
  intros Hk Hh. destruct (kids_forest kids) as (f & Hhtml & Hv & Hr & _); [| by exists f].
  apply Forall_forall. intros n Hin. rewrite Forall_forall in Hk. specialize (Hk n Hin). unfold node_ok in Hk.
  destruct (n_head n) eqn:E; [| done]. apply not_true_iff_false in Hh. destruct Hh. apply existsb_exists.
  exists n. split; [by apply list_elem_of_In | done].
Qed.

Lemma fragment_ok t kids m : tokens_ok t -> fragment types t kids = Done m -> made_ok m.
Proof using Type.
  intros Ht H. unfold fragment in H. destruct (read_all (t_nodes t) kids) as [kl|] eqn:Hk; [| discriminate].
  apply (read_all_done node_ok) in Hk; [| apply Ht]. apply done_inj in H; subst m. destruct (existsb n_head kl) eqn:Hh; [done |].
  left. by apply nodes_of_body.
Qed.

Lemma document_ok t title head body m : tokens_ok t -> document types t title head body = Done m -> made_ok m.
Proof using Type.
  intros Ht H. unfold document in H. destruct (read_all (t_nodes t) head) as [hl|] eqn:Hhd; [| discriminate]. cbn [run_bind] in H.
  destruct (read_all (t_nodes t) body) as [bl|] eqn:Hbd; [| discriminate]. cbn [run_bind] in H. apply done_inj in H; subst m.
  apply (read_all_done node_ok) in Hhd; [| apply Ht]. apply (read_all_done node_ok) in Hbd; [| apply Ht].
  destruct (forallb n_head hl) eqn:Hh; [| done]. destruct (existsb n_head bl) eqn:Hb; [done |]. right.
  destruct (nodes_of_body bl Hbd Hb) as [f Hf]. exists title, (n_html <$> hl), (concat (n_html <$> bl)), f.
  split_and!; [| done | done]. apply Forall_fmap, Forall_forall. intros n Hin. rewrite Forall_forall in Hhd. specialize (Hhd n Hin).
  rewrite forallb_forall in Hh. unfold node_ok in Hhd. by rewrite (Hh n) in Hhd by by apply list_elem_of_In.
Qed.

Lemma make_ok t c m : tokens_ok t -> make url_parse types declared policies t c = Done m -> made_ok m.
Proof using Hurl.
  intros Ht H. destruct c; cbn [make] in H; try (apply done_inj in H; subst m).
  - unfold makeTag. destruct (has authorTags (lower name)) eqn:Hn; [by apply has_in in Hn | done].
  - unfold text, node. cbn [made_ok]. unfold node_ok. cbn [n_head]. eexists. apply text_forest.
  - left. exists (TextUnit <$> value). unfold textFragment. destruct (text_forest value) as [Hh Hv Hr _ _ _]. by split_and!.
  - apply parseURL_ok.
  - apply textAttribute_ok.
  - apply emailHref_ok.
  - unfold urlAttribute in H. destruct (read (t_urls t) url) as [u|] eqn:Hu; [| discriminate]. cbn [run_bind] in H. apply done_inj in H; subst m.
    apply read_done, (to_urls t Ht) in Hu. destruct (has _ (lower name)) eqn:Hn; [| done]. apply has_in in Hn.
    by apply address_attribute, url_address.
  - by eapply element_ok.
  - by eapply fragment_ok.
  - unfold stylesheet in H. destruct (read (t_urls t) url) as [u|] eqn:Hu; [| discriminate]. cbn [run_bind] in H. apply done_inj in H; subst m.
    apply read_done, (to_urls t Ht) in Hu. right. right. exists (u_value u). split; [by apply url_address | reflexivity].
  - by left.
  - by eapply document_ok.
  - eapply local_address_ok; [by left | done | exact H].
  - eapply local_address_ok; [by right | done | exact H].
  - unfold targetID, target. by destruct (selectorID id).
  - unfold targetAttribute in H. destruct (read (t_targets t) target); [| discriminate]. apply done_inj in H; subst m. by apply htmx_attribute; vm_compute.
  - unfold indicatorID, target. destruct (selectorID id); [| done]. by apply htmx_attribute; vm_compute.
  - by apply htmx_attribute; vm_compute.
  - by apply htmx_attribute; vm_compute.
  - by apply htmx_attribute; vm_compute.
  - unfold triggerInputChanged. destruct (_ || _); [done |]. by apply htmx_attribute; vm_compute.
  - unfold triggerEvery. destruct (_ || _); [done |]. by apply htmx_attribute; vm_compute.
  - by apply htmx_attribute; vm_compute.
  - destruct (declareAsset declared url) as [m'|] eqn:Hd; [| discriminate]. apply done_inj in H; subst m.
    unfold declareAsset in Hd. apply guard_throw_ret in Hd as [Hin Hd]. injection Hd as <-. apply has_in in Hin. by right.
  - done.
  - right. by left.
Qed.

Lemma calls_ok cs : forall t, tokens_ok t -> tokens_ok (calls url_parse types declared policies t cs).
Proof using Hurl.
  induction cs as [|c cs IH]; intros t Ht; cbn [calls]; [done |]. apply IH. unfold call.
  destruct (make url_parse types declared policies t c) as [m|] eqn:Hm; [| done].
  pose proof (token_ok t m Ht (make_ok t c m Ht Hm)) as H. by destruct (token t m).
Qed.

Lemma no_tokens_ok : tokens_ok no_tokens.
Proof using Type. by split. Qed.

Lemma read_forest_text s f : forest_text s f -> read_markup s = Some f /\ Forall valid f.
Proof using Type. intros (-> & Hv & Hr). split; [by apply read_markup_renders | done]. Qed.

(** C18. Whatever program of operations runs, a safe text is read by the reference reader as
    a forest of valid elements, or it is a document whose head is made of the three known
    nodes and whose body is such a forest: author text never opens or closes an element,
    never ends an attribute, and no address has another scheme. *)
Theorem built_html_is_valid cs v s :
  t_safe (calls url_parse types declared policies no_tokens cs) !! v = Some s ->
  (exists f, read_markup s = Some f /\ Forall valid f) \/
  exists title heads body f, Forall head_ok heads /\ read_markup body = Some f /\ Forall valid f /\
    s = js "<!doctype html><html><head><title>" ++ escapeHTML title ++ js "</title>" ++ concat heads
        ++ js "</head><body>" ++ body ++ js "</body></html>".
Proof using Hurl.
  intros Hs. destruct (to_safe _ (calls_ok cs no_tokens no_tokens_ok) v s Hs) as [[f Hf] | (title & heads & body & f & Hh & Hf & ->)].
  - left. exists f. by apply read_forest_text.
  - right. exists title, heads, body, f. destruct (read_forest_text body f Hf). by split_and!.
Qed.

(** C19. An element of a program reads back as its tag, exactly the attributes it was given
    with the derived status exceptions, and the forest of its children. *)
Theorem element_reads_back cs tag attrs kids n :
  let t := calls url_parse types declared policies no_tokens cs in
  element types policies t tag attrs kids = Done (MadeNode n) ->
  exists name al kl f,
    t_tags t !! tag = Some name /\ read_all (t_attributes t) attrs = Done al /\ read_all (t_nodes t) kids = Done kl
    /\ read_markup (concat (n_html <$> kl)) = Some f
    /\ read_markup (n_html n) = Some [Element name (pair_of <$> (al ++ deriveSwapAttributes policies al)) f].
Proof using Hurl.
  intros t H. pose proof (calls_ok cs no_tokens no_tokens_ok) as Ht. fold t in Ht. unfold element in H.
  destruct (read (t_tags t) tag) as [name|] eqn:Hn; [| discriminate]. cbn [run_bind] in H.
  destruct (read_all (t_attributes t) attrs) as [al|] eqn:Ha; [| discriminate]. cbn [run_bind] in H.
  destruct (read_all (t_nodes t) kids) as [kl|] eqn:Hk; [| discriminate]. cbn [run_bind] in H. apply done_inj in H.
  apply read_done in Hn. pose proof (to_tags t Ht _ _ Hn) as Htag.
  pose proof (read_all_done attribute_ok _ attrs (to_attributes t Ht) al Ha) as Hal.
  pose proof (read_all_done node_ok _ kids (to_nodes t Ht) kl Hk) as Hkl.
  assert (Forall (fun k => exists f, forest_of k f) kl) as Hforests.
  { apply Forall_forall. intros k Hin. rewrite Forall_forall in Hkl. specialize (Hkl k Hin). unfold node_ok in Hkl.
    destruct (n_head k) eqn:E; [| done]. unfold build_element, children_problem in H.
    assert (existsb n_head kl = true) as Hh by (apply existsb_exists; exists k; split; [by apply list_elem_of_In | done]).
    rewrite Hh in H. by destruct (check_attributes _ _ _ _). }
  destruct (built_element types policies name al kl _ Htag Hal Hforests (eq_sym H)) as (n' & f & Hm & _ & Hf & Hkids); [congruence |].
  injection Hm as <-. exists name, al, kl, f. split_and!; try done.
  - rewrite Hkids. apply read_markup_renders. pose proof (fo_readable _ _ Hf) as Hr. cbn [forallb readable] in Hr.
    by apply andb_true_iff in Hr as [[_ Hr]%andb_true_iff _].
  - rewrite (fo_html _ _ Hf). apply read_markup_renders, (fo_readable _ _ Hf).
Qed.
End valid.

(** Author text is text: it reads back as its own units, with no element at all. *)
Theorem text_is_text value : read_markup (escapeHTML value) = Some (TextUnit <$> value).
Proof.
  pose proof (text_forest [] value) as H. rewrite <- (renders_units value). apply read_markup_renders. apply (fo_readable _ _ _ H).
Qed.

(** ** Status exceptions *)

Definition exceptional (c : SwapCase) : bool := negb ((200 <=? c_status c) && (c_status c <=? 299)).

(** The exceptional cases of the actions an element names, in source order. *)
Definition named_cases (policies : list SwapPolicy) (a : Attribute) : list SwapCase :=
  match action_of a with
  | None => []
  | Some (verb, decoded) =>
      concat (p_cases <$> filter (fun p => Is_true (bool_decide (p_method p = verb) && segments_match (p_segments p) decoded)) policies)
  end.
Definition declared_cases (policies : list SwapPolicy) (attrs : list Attribute) : list SwapCase :=
  filter (fun c => Is_true (exceptional c)) (concat (named_cases policies <$> attrs)).

Definition first_of (cases : list SwapCase) (c : SwapCase) : Prop :=
  find (fun d => c_status d =? c_status c) cases = Some c.

Lemma policy_cases_concat verb decoded policies : forall merged,
  fold_left (policy_cases verb decoded) policies merged
  = fold_left merge_case (concat (p_cases <$> filter (fun p => Is_true (bool_decide (p_method p = verb) && segments_match (p_segments p) decoded)) policies)) merged.
Proof.
  induction policies as [|p policies IH]; intros merged; [done |]. cbn [fold_left]. rewrite IH, filter_cons. unfold policy_cases at 1.
  destruct (bool_decide (p_method p = verb) && segments_match (p_segments p) decoded) eqn:E.
  - rewrite decide_True by done. cbn [fmap list_fmap concat]. by rewrite fold_left_app.
  - by rewrite decide_False by (intros H; exact H).
Qed.

Lemma merged_cases policies attrs :
  fold_left (attribute_cases policies) attrs [] = fold_left merge_case (concat (named_cases policies <$> attrs)) [].
Proof.
  generalize (@nil SwapCase). induction attrs as [|a attrs IH]; intros merged; [done |]. cbn [fold_left fmap list_fmap concat].
  rewrite fold_left_app, <- IH. f_equal. unfold attribute_cases, named_cases. destruct (action_of a) as [[verb decoded]|]; [| done].
  apply policy_cases_concat.
Qed.

Lemma find_app {A} (f : A -> bool) l k : find f (l ++ k) = match find f l with Some x => Some x | None => find f k end.
Proof. induction l as [|x l IH]; [done |]. cbn. by destruct (f x). Qed.

(** Merging keeps the first exceptional case of each status. *)
Lemma merge_first cases : forall c,
  c ∈ fold_left merge_case cases [] <-> first_of (filter (fun c => Is_true (exceptional c)) cases) c.
Proof.
  induction cases as [|x cases IH] using rev_ind; intros c; [split; [by intros ?%elem_of_nil | done] |].
  rewrite fold_left_app, filter_app. cbn [fold_left]. unfold first_of in *. rewrite find_app.
  set (m := fold_left merge_case cases []) in *. set (fs := filter _ cases) in *. rewrite filter_cons, filter_nil.
  unfold merge_case. replace ((200 <=? c_status x) && (c_status x <=? 299)) with (negb (exceptional x)) by apply negb_involutive.
  destruct (exceptional x) eqn:Hx; cbn [negb]; [| rewrite decide_False by (intros H; exact H); cbn [find]; rewrite IH; by destruct (find _ fs)].
  rewrite decide_True by done. cbn [find]. destruct (existsb (fun d => c_status d =? c_status x) m) eqn:Hm.
  - rewrite IH. destruct (find _ fs) eqn:Hf; [done |]. split; [done |]. intros H. exfalso.
    destruct (Z.eqb_spec (c_status x) (c_status c)) as [E|]; [| done].
    apply existsb_exists in Hm as (d & Hd%list_elem_of_In & Hds%Z.eqb_eq). apply IH in Hd. rewrite Hds, E in Hd. congruence.
  - rewrite elem_of_app, list_elem_of_singleton, IH. destruct (find _ fs) as [d|] eqn:Hf.
    + split; [intros [H | ->]; [done |] | by left]. exfalso. apply not_true_iff_false in Hm. apply Hm, existsb_exists.
      pose proof (find_some _ _ Hf) as [_ Hd%Z.eqb_eq]. exists d. split; [| by apply Z.eqb_eq]. apply list_elem_of_In, IH. by rewrite Hd.
    + split; [intros [H | ->]; [done | by rewrite Z.eqb_refl] |].
      destruct (Z.eqb_spec (c_status x) (c_status c)); [intros [= ->]; by right | done].
Qed.

Definition status_le (a b : SwapCase) : Prop := c_status a <= c_status b.

Lemma insert_status_sorted c l : StronglySorted status_le l -> StronglySorted status_le (insert_status c l).
Proof.
  induction 1 as [|d l Hl IH Hd]; cbn; [by repeat constructor |]. destruct (Z.leb_spec (c_status c) (c_status d)) as [Hcd|Hcd].
  - constructor; [by constructor |]. constructor; [done |]. apply (Forall_impl _ _ _ Hd). unfold status_le. intros; lia.
  - constructor; [done |]. rewrite insert_status_perm. constructor; [unfold status_le; lia | done].
Qed.

Lemma sort_status_sorted l : StronglySorted status_le (sort_status l).
Proof. induction l as [|c l IH]; [constructor | by apply insert_status_sorted]. Qed.

(** The status exceptions of an element are in ascending order, one per status, and
    they are exactly the first declared non-2xx cases of the actions it names. *)
Theorem status_exceptions policies attrs :
  exists cases, deriveSwapAttributes policies attrs = status_attribute <$> cases
    /\ StronglySorted (fun a b => c_status a < c_status b) cases
    /\ forall c, c ∈ cases <-> first_of (declared_cases policies attrs) c.
Proof.
  exists (sort_status (fold_left (attribute_cases policies) attrs [])). split_and!.
  - unfold deriveSwapAttributes. case_bool_decide as Hp; [| done]. destruct policies; [| done].
    assert (fold_left (attribute_cases []) attrs [] = []) as ->; [| done].
    apply (fold_keeps (fun m => m = [])); [| done]. intros m a ->. unfold attribute_cases. by destruct (action_of a) as [[]|].
  - pose proof (merged_nodup policies attrs) as Hnd. unfold status_set in Hnd. rewrite <- sort_status_perm in Hnd.
    pose proof (sort_status_sorted (fold_left (attribute_cases policies) attrs [])) as Hs.
    induction Hs as [|c l Hl IH Hc]; [constructor |]. cbn [fmap list_fmap] in Hnd. apply NoDup_cons in Hnd as [Hcn Hnd].
    constructor; [by apply IH |]. apply Forall_forall. intros d Hd. rewrite Forall_forall in Hc. specialize (Hc d Hd).
    unfold status_le in Hc. assert (c_status c <> c_status d); [| lia]. intros E. apply Hcn. rewrite E. apply list_elem_of_fmap. by exists d.
  - intros c. rewrite sort_status_perm, merged_cases. apply merge_first.
Qed.

(** ** Instances *)

Definition sample_parse (value : jstr) : option ParsedURL :=
  if bool_decide (value = js "https://can.dev/docs") then
    Some (mkURL (js "https:") [] [] (js "https://can.dev") (js "/docs") [] [] value)
  else None.

Lemma sample_parse_ok value p : sample_parse value = Some p -> url_protocol p = js "https:" ->
  starts_with (url_href p) (js "https://") = true /\ starts_with (url_pathname p) (js "/") = true.
Proof. unfold sample_parse. destruct (bool_decide_reflect (value = js "https://can.dev/docs")) as [->|]; intros [= <-] _. by vm_compute. Qed.

Definition sample_types : Contracts := mkContracts (js "S") (js "U") (js "T") (js "I").

(** A hostile title and text inside a link. *)
Definition sample_calls : list Call := [
  CallMakeTag (js "A"); CallParseURL (js "https://can.dev/docs"); CallUrlAttribute (js "href") 1;
  CallTextAttribute (js "title") (34%N :: js " onclick=" ++ 34%N :: js "x");
  CallText (js "</a><script>'&"); CallElement 0 [2; 3]%nat [4]%nat; CallFragment [5]%nat].

Definition sample_html : jstr := js "<a href=" ++ quoted "https://can.dev/docs" ++ js " title="
  ++ quoted "&quot; onclick=&quot;x" ++ js ">&lt;/a&gt;&lt;script&gt;&#x27;&amp;</a>".

Example sample_calls_html : t_safe (calls sample_parse sample_types [] [] no_tokens sample_calls) !! 6%nat = Some sample_html.
Proof. vm_compute. reflexivity. Qed.

Lemma built_html_is_valid_witness :
  (exists f, read_markup sample_html = Some f /\ Forall (valid []) f) \/
  exists title heads body f, Forall (head_ok []) heads /\ read_markup body = Some f /\ Forall (valid []) f /\
    sample_html = js "<!doctype html><html><head><title>" ++ escapeHTML title ++ js "</title>" ++ concat heads
        ++ js "</head><body>" ++ body ++ js "</body></html>".
Proof.
  apply (built_html_is_valid [] sample_parse sample_types [] sample_parse_ok sample_calls 6). vm_compute. reflexivity.
Defined.

Lemma element_reads_back_witness :
  let t := calls sample_parse sample_types [] [] no_tokens (take 5 sample_calls) in
  exists name al kl f,
    t_tags t !! 0%nat = Some name /\ read_all (t_attributes t) [2; 3]%nat = Done al /\ read_all (t_nodes t) [4]%nat = Done kl
    /\ read_markup (concat (n_html <$> kl)) = Some f
    /\ read_markup sample_html = Some [Element name (pair_of <$> (al ++ deriveSwapAttributes [] al)) f].
Proof.
  apply (element_reads_back [] sample_parse sample_types [] sample_parse_ok (take 5 sample_calls) 0 [2; 3]%nat [4]%nat
    (mkNode sample_html (js "a") false true false)). vm_compute. reflexivity.
Defined.
