(* ===== verification/Form.v ===== *)
(** * Forms

    [src/runtime/platform/form.ts]: the strict reading of a urlencoded body, the
    classification of its pairs against a compiled schema, the structural analysis
    into a wire record or a list of issues, and the checked name tokens.  The
    decoder [URLSearchParams] uses where percent decoding leaves invalid UTF-8 is
    a parameter.  Values live in the heap of [Data]. *)
From stdpp Require Import base gmap list strings.
From Stdlib Require Import ZArith Lia.
From S2P Require Import Prelude JsNumber JsString JsValue Completion Unicode Bytes Text Uri Data Codec JsonCodec.

(** ** Bounds and patterns *)

Definition maxFormRows : Z := 64.
Definition maxFormRowBytes : Z := 2048.

Definition row_key_char (c : N) : bool := is_alnum c || (c =? 95)%N || (c =? 45)%N.

(** [/^[A-Za-z0-9_-]{1,64}$/] *)
Definition rowKeyPattern (s : jstr) : bool :=
  (1 <=? length s)%nat && (length s <=? 64)%nat && forallb row_key_char s.

Definition name_char (c : N) : bool := is_lower c || is_digit c.

(** [/^[a-z][a-z0-9]*(?:_[a-z0-9]+)*$/]: words without a gap, the first of which
    starts with a letter. *)
Definition fieldNamePattern (s : jstr) : bool :=
  let words := split_char 95 s in
  forallb (fun w => negb (bool_decide (w = [])) && forallb name_char w) words
  && match s with c :: _ => is_lower c | [] => false end.

(** ** Schemas *)

Inductive FormField : Type := mkFormField {
  name : jstr;
  kind : jstr;
  some_id : option jstr;
  none_id : option jstr;
  rows : option FormRowsSchema
}
with FormRowsSchema : Type := mkFormRows {
  row : jstr;
  order : jstr;
  collection : jstr;
  item : jstr;
  row_fields : list FormField
}.

Record FormSchema : Type := mkFormSchema { schema_root : jstr; schema_fields : list FormField }.

Definition is_kind (f : FormField) (k : string) : bool := bool_decide (kind f = js k).

(** An identity that is absent or empty is falsy. *)
Definition given (id : option jstr) : option jstr :=
  match id with Some [] => None | _ => id end.

Inductive FormIssueReason : Type :=
| form_missing | form_repeated | type_issue | row_limit_issue | row_value_limit_issue.

#[global] Instance FormIssueReason_eq_dec : EqDecision FormIssueReason.
Proof. solve_decision. Defined.

Definition reason_text (r : FormIssueReason) : jstr :=
  match r with
  | form_missing => js "form_missing"
  | form_repeated => js "form_repeated"
  | type_issue => js "type"
  | row_limit_issue => js "row_limit"
  | row_value_limit_issue => js "row_value_limit"
  end.

(** ** The strict reading of a body *)

(** What the readers throw besides the issues of the codec. *)
Inductive FormIssue : Type := invalid_form_encoding | field_missing | field_repeated.

Inductive form_result (A : Type) : Type :=
| Formed (c : coded A)
| FormThrown (e : FormIssue).
Arguments Formed {A} c.
Arguments FormThrown {A} e.

(** [/%(?![0-9a-fA-F]{2})/.test(text)] *)
Fixpoint bare_percent (text : jstr) : bool :=
  match text with
  | [] => false
  | c :: rest =>
      (c =? 37)%N
      && negb match rest with
              | a :: b :: _ => bool_decide (is_Some (hex_value a)) && bool_decide (is_Some (hex_value b))
              | _ => false
              end
      || bare_percent rest
  end.

(** The text before the first [=] and the text after it. *)
Definition name_value (text : list N) : list N * list N :=
  match index_of [61%N] text with
  | Some i => (take i text, drop (S i) text)
  | None => (text, [])
  end.

(** [text.replaceAll("+", " ")] *)
Definition plus_spaces (text : list N) : list N := (fun c => if (c =? 43)%N then 32%N else c) <$> text.

Fixpoint check_pairs (pairs : list jstr) : coded unit :=
  match pairs with
  | [] => Coded tt
  | [] :: pairs => check_pairs pairs
  | text :: pairs =>
      let '(key, value) := name_value text in
      match decodeURIComponent (plus_spaces key) with
      | None => reject [] utf8
      | Some name =>
          match decodeURIComponent (plus_spaces value) with
          | None => reject (childPath [] name) utf8
          | Some _ => check_pairs pairs
          end
      end
  end.

(** The percent decoding of the URL standard: an escape that is not one stays. *)
Fixpoint percent_decode (bytes : list N) : list N :=
  match bytes with
  | [] => []
  | b :: rest =>
      if (b =? 37)%N then
        match rest with
        | h :: l :: rest' =>
            match hex_value h, hex_value l with
            | Some h, Some l => (h * 16 + l)%N :: percent_decode rest'
            | _, _ => b :: percent_decode rest
            end
        | _ => b :: percent_decode rest
        end
      else b :: percent_decode rest
  end.

Section reading.
(** UTF-8 decoding with replacement characters. *)
Context (decode_replacing : list N -> jstr).

Definition urlencoded_text (bytes : list N) : jstr := decode_replacing (percent_decode (plus_spaces bytes)).

Definition urlencoded_pair (text : list N) : jstr * jstr :=
  let '(key, value) := name_value text in (urlencoded_text key, urlencoded_text value).

(** [new URLSearchParams(text)]: a leading question mark is not part of it. *)
Definition URLSearchParams (text : jstr) : list (jstr * jstr) :=
  let text := match text with 63%N :: rest => rest | _ => text end in
  urlencoded_pair <$> filter (fun p => p <> []) (split_char 38 (utf8_encode text)).

Definition strictParameters (text : jstr) : form_result (list (jstr * jstr)) :=
  if bare_percent text then FormThrown invalid_form_encoding
  else Formed (let* _ := check_pairs (split_char 38 text) in Coded (URLSearchParams text)).

Definition formParams (input : list N) (limit : Z) : form_result (list (jstr * jstr) * Budget) :=
  if limit <? Z.of_nat (length input) then Formed (reject [] byte_limit)
  else
    match (let* b := new_Budget (Z.max 1 limit) in visit b 1 []) with
    | Coded b =>
        match utf8_decode input with
        | None => Formed (reject [] utf8)
        | Some text =>
            match strictParameters text with
            | Formed c => Formed (let* params := c in Coded (params, b))
            | FormThrown e => FormThrown e
            end
        end
    | reject path reason => Formed (reject path reason)
    | Fault msg => Formed (Fault msg)
    end.
End reading.

(** ** Classification *)

Record RowEntry : Type := mkRowEntry { e_coll : jstr; e_key : jstr; e_field : jstr; e_value : jstr }.

Record Classified : Type := mkClassified {
  top : gmap jstr (list jstr);
  orders : gmap jstr (list jstr);
  entries : list RowEntry;
  keysInOrder : gmap jstr (list jstr);
  known : list (jstr * jstr);
  unknown : list jstr
}.

Definition nothing_classified : Classified := mkClassified ∅ ∅ [] ∅ [] [].

(** [map.get(key) ?? []] with [value] pushed and set again. *)
Definition push_value (m : gmap jstr (list jstr)) (key value : jstr) : gmap jstr (list jstr) :=
  <[key := default [] (m !! key) ++ [value]]> m.

Definition trackKey (keys : gmap jstr (list jstr)) (coll key : jstr) : gmap jstr (list jstr) :=
  let seen := default [] (keys !! coll) in
  <[coll := if bool_decide (key ∈ seen) then seen else seen ++ [key]]> keys.

(** [parseRowEntry]: [coll[key][field]]. *)
Definition parseRowEntry (coll name : jstr) : option (jstr * jstr) :=
  let head := coll ++ [91%N] in
  if negb (starts_with name head) || negb (ends_with name [93%N]) then None
  else
    let inner := drop (length head) (removelast name) in
    match index_of [93; 91]%N inner with
    | None => None
    | Some separator =>
        let key := take separator inner in
        let field := drop (separator + 2) inner in
        if bool_decide (key = []) || bool_decide (field = []) || includes_char field 91 || includes_char field 93
        then None
        else Some (key, field)
    end.

(** [seenUnknown] holds the names of [unknown]. *)
Definition report_unknown (c : Classified) (n : jstr) : Classified :=
  mkClassified (top c) (orders c) (entries c) (keysInOrder c) (known c)
    (if bool_decide (n ∈ unknown c) then unknown c else unknown c ++ [n]).

Definition keep_top (c : Classified) (n value : jstr) : Classified :=
  mkClassified (push_value (top c) n value) (orders c) (entries c) (keysInOrder c) (known c ++ [(n, value)]) (unknown c).

Definition keep_order (c : Classified) (coll n value : jstr) : Classified :=
  mkClassified (top c) (push_value (orders c) coll value) (entries c)
    (if rowKeyPattern value then trackKey (keysInOrder c) coll value else keysInOrder c)
    (known c ++ [(n, value)]) (unknown c).

Definition keep_entry (c : Classified) (coll key field n value : jstr) : Classified :=
  mkClassified (top c) (orders c) (entries c ++ [mkRowEntry coll key field value])
    (trackKey (keysInOrder c) coll key) (known c ++ [(n, value)]) (unknown c).

(** The loop over the collections: [None] when none of them has the name. *)
Fixpoint match_coll (colls : list FormField) (n value : jstr) (c : Classified) : coded (option Classified) :=
  match colls with
  | [] => Coded None
  | coll :: colls =>
      match rows coll with
      | None => Fault "invalid compiler form schema"
      | Some r =>
          if bool_decide (n = order r) then Coded (Some (keep_order c (name coll) n value))
          else
            match parseRowEntry (name coll) n with
            | Some (key, field) =>
                if rowKeyPattern key && existsb (fun f => bool_decide (name f = field)) (row_fields r)
                then Coded (Some (keep_entry c (name coll) key field n value))
                else match_coll colls n value c
            | None => match_coll colls n value c
            end
      end
  end.

Definition scalars (schema : FormSchema) : list jstr :=
  name <$> filter (fun f => is_kind f "rows" = false) (schema_fields schema).
Definition collections (schema : FormSchema) : list FormField :=
  filter (fun f => is_kind f "rows" = true) (schema_fields schema).

(** One pair; a value that is not a string (a file) is [None]. *)
Definition classify_pair (schema : FormSchema) (c : Classified) (p : jstr * option jstr) : coded Classified :=
  let '(n, raw) := p in
  match raw with
  | None => Coded (report_unknown c n)
  | Some value =>
      if bool_decide (n ∈ scalars schema) then Coded (keep_top c n value)
      else
        let* matched := match_coll (collections schema) n value c in
        Coded (default (report_unknown c n) matched)
  end.

Fixpoint classify_pairs (schema : FormSchema) (c : Classified) (pairs : list (jstr * option jstr)) : coded Classified :=
  match pairs with
  | [] => Coded c
  | p :: pairs => let* c := classify_pair schema c p in classify_pairs schema c pairs
  end.

Definition classifyForm (pairs : list (jstr * option jstr)) (schema : FormSchema) : coded Classified :=
  classify_pairs schema nothing_classified pairs.

Definition rowAddress (coll key : jstr) : jstr := coll ++ 91%N :: key ++ [93%N].
Definition entryName (coll key field : jstr) : jstr := coll ++ 91%N :: key ++ [93; 91]%N ++ field ++ [93%N].
Definition utf8Length (value : jstr) : Z := byte_size value.

Example parses_entry : parseRowEntry (js "lines") (js "lines[b][sku]") = Some (js "b", js "sku").
Proof. reflexivity. Qed.
Example nested_is_unknown : parseRowEntry (js "lines") (js "lines[b][sku][x]") = None.
Proof. reflexivity. Qed.

(** ** Analysis

    The heap that the wire record is built in, the budget and the issues so far.
    A refusal of the budget or a fault ends the decoding and keeps none of it. *)
Record fstate : Type := mkF { f_heap : heap; f_budget : Budget; f_issues : list (jstr * FormIssueReason) }.

Definition F (A : Type) : Type := fstate -> coded (A * fstate).
Definition fret {A} (a : A) : F A := fun s => Coded (a, s).
Definition fbind {A B} (m : F A) (k : A -> F B) : F B := fun s => let* (a, s) := m s in k a s.

Declare Scope form_scope.
Delimit Scope form_scope with form.
Notation "'f!' x ':=' c1 'in' c2" := (fbind c1 (fun x => c2))
  (at level 10, x pattern, c1 at level 100, c2 at level 200) : form_scope.
#[local] Open Scope form_scope.

Definition ffault {A} (msg : string) : F A := fun _ => Fault msg.
Definition fvisit (depth : Z) (path : jstr) : F unit := fun s =>
  let* b := visit (f_budget s) depth path in Coded (tt, mkF (f_heap s) b (f_issues s)).
Definition issue (n : jstr) (r : FormIssueReason) : F unit := fun s =>
  Coded (tt, mkF (f_heap s) (f_budget s) (f_issues s ++ [(n, r)])).
Definition frecord (id : jstr) (fs : list (jstr * value)) : F value := fun s =>
  match record (f_heap s) id fs with
  | Ret (v, h) => Coded (v, mkF h (f_budget s) (f_issues s))
  | Throw msg => Fault msg
  end.
Definition farray (vs : list value) : F value := fun s =>
  let '(v, h) := array (f_heap s) vs in Coded (v, mkF h (f_budget s) (f_issues s)).

Fixpoint feach {A} (f : A -> F unit) (l : list A) : F unit :=
  match l with
  | [] => fret tt
  | a :: l => f! _ := f a in feach f l
  end.

(** The order values: the keys that are valid and new. *)
Fixpoint read_order (r : FormRowsSchema) (path : jstr) (keys : list jstr) (seen : list jstr) : F (list jstr) :=
  match keys with
  | [] => fret seen
  | key :: keys =>
      f! _ := fvisit 2 (childPath path key) in
      if negb (rowKeyPattern key) then f! _ := issue (order r) type_issue in read_order r path keys seen
      else if bool_decide (key ∈ seen) then f! _ := issue (order r) form_repeated in read_order r path keys seen
      else read_order r path keys (seen ++ [key])
  end.

(** The entries by key, in the order in which keys come first, and by field. *)
Abbreviation by_key := (list (jstr * gmap jstr (list jstr))).

Definition find_row (rs : by_key) (key : jstr) : option (gmap jstr (list jstr)) :=
  snd <$> find (fun p => bool_decide (p.1 = key)) rs.

Fixpoint put_row (rs : by_key) (key : jstr) (m : gmap jstr (list jstr)) : by_key :=
  match rs with
  | [] => [(key, m)]
  | (k, m') :: rs => if bool_decide (k = key) then (k, m) :: rs else (k, m') :: put_row rs key m
  end.

Definition add_entry (rs : by_key) (e : RowEntry) : by_key :=
  put_row rs (e_key e) (push_value (default ∅ (find_row rs (e_key e))) (e_field e) (e_value e)).

Definition group_entries (coll : jstr) (es : list RowEntry) : by_key :=
  fold_left add_entry (filter (fun e => e_coll e = coll) es) [].

(** One field of one row: its definition, when it has no issue. *)
Definition row_field (coll key path : jstr) (m : gmap jstr (list jstr)) (def : FormField) : F (option (jstr * value)) :=
  let values := default [] (m !! name def) in
  let n := entryName coll key (name def) in
  let valuePath := childPath (childPath path key) (name def) in
  f! _ := fvisit 2 valuePath in
  f! _ := feach (fun text =>
    f! _ := fvisit 2 valuePath in
    if maxFormRowBytes <? utf8Length text then issue n row_value_limit_issue else fret tt) values in
  if is_kind def "array" then f! v := farray (VStr <$> values) in fret (Some (name def, v))
  else
    match values with
    | _ :: _ :: _ => f! _ := issue n form_repeated in fret None
    | _ =>
        if is_kind def "str" then
          match values with
          | text :: _ => fret (Some (name def, VStr text))
          | [] => f! _ := issue n form_missing in fret None
          end
        else if is_kind def "optional" then
          match given (some_id def), given (none_id def) with
          | Some some, Some none =>
              f! _ := fvisit 3 valuePath in
              f! v := match values with
                      | [] => frecord none []
                      | text :: _ => frecord some [(js "value", VStr text)]
                      end in
              fret (Some (name def, v))
          | _, _ => ffault "invalid compiler form schema"
          end
        else ffault "unknown compiler form field"
    end.

Fixpoint row_values (coll key path : jstr) (m : gmap jstr (list jstr)) (defs : list FormField) : F (list (jstr * value)) :=
  match defs with
  | [] => fret []
  | def :: defs =>
      f! v := row_field coll key path m def in
      f! vs := row_values coll key path m defs in
      fret (match v with Some v => v :: vs | None => vs end)
  end.

Fixpoint row_items (coll : jstr) (r : FormRowsSchema) (path : jstr) (rs : by_key) (keys : list jstr) : F (list value) :=
  match keys with
  | [] => fret []
  | key :: keys =>
      match find_row rs key with
      | None => row_items coll r path rs keys
      | Some m =>
          f! _ := fvisit 3 (childPath path key) in
          f! fs := row_values coll key path m (row_fields r) in
          f! v := frecord (row r) fs in
          f! v := frecord (item r) [(js "key", VStr key); (js "value", v)] in
          f! vs := row_items coll r path rs keys in
          fret (v :: vs)
      end
  end.

Definition analyzeRows (coll : jstr) (r : FormRowsSchema) (c : Classified) (rowsLimit : Z) : F value :=
  let path := childPath [] coll in
  f! _ := fvisit 2 path in
  f! ordered := read_order r path (default [] (orders c !! coll)) [] in
  let rs := group_entries coll (entries c) in
  let distinct := default [] (keysInOrder c !! coll) in
  let limited := rowsLimit <? Z.of_nat (length distinct) in
  f! _ := (if limited
           then issue (rowAddress coll (default [] (distinct !! Z.to_nat rowsLimit))) row_limit_issue
           else fret tt) in
  let admitted := take (Z.to_nat rowsLimit) distinct in
  f! _ := feach (fun key => if bool_decide (find_row rs key = None) then issue (rowAddress coll key) form_missing else fret tt) ordered in
  f! _ := feach (fun key =>
      if negb (bool_decide (key ∈ ordered)) && (negb limited || bool_decide (key ∈ admitted))
      then issue (rowAddress coll key) form_missing else fret tt) rs.*1 in
  f! items := row_items coll r path rs ordered in
  f! order_value := farray (VStr <$> ordered) in
  f! items_value := farray items in
  frecord (collection r) [(js "order", order_value); (js "items", items_value)].

(** One field of the form, when it has no issue. *)
Definition form_field (c : Classified) (rowsLimit : Z) (field : FormField) : F (option (jstr * value)) :=
  let path := childPath [] (name field) in
  if is_kind field "rows" then
    match rows field with
    | Some r =>
        if bool_decide (row r = []) || bool_decide (order r = []) || bool_decide (collection r = []) || bool_decide (item r = [])
        then ffault "invalid compiler form schema"
        else f! v := analyzeRows (name field) r c rowsLimit in fret (Some (name field, v))
    | None => ffault "invalid compiler form schema"
    end
  else
    f! _ := fvisit (if is_kind field "str" then 1 else 2) path in
    let values := default [] (top c !! name field) in
    if is_kind field "array" then
      f! _ := feach (fun i => fvisit 2 (indexPath path i)) (seq 0 (length values)) in
      f! v := farray (VStr <$> values) in
      fret (Some (name field, v))
    else
      match values with
      | _ :: _ :: _ => f! _ := issue (name field) form_repeated in fret None
      | _ =>
          if is_kind field "str" then
            match values with
            | text :: _ => fret (Some (name field, VStr text))
            | [] => f! _ := issue (name field) form_missing in fret None
            end
          else if is_kind field "optional" then
            match given (some_id field), given (none_id field) with
            | Some some, Some none =>
                f! _ := fvisit 3 path in
                f! v := match values with
                        | [] => frecord none []
                        | text :: _ =>
                            f! _ := fvisit 3 (childPath path (js "value")) in
                            frecord some [(js "value", VStr text)]
                        end in
                fret (Some (name field, v))
            | _, _ => ffault "invalid compiler form schema"
            end
          else ffault "unknown compiler form field"
      end.

Fixpoint form_values (c : Classified) (rowsLimit : Z) (fs : list FormField) : F (list (jstr * value)) :=
  match fs with
  | [] => fret []
  | f :: fs =>
      f! v := form_field c rowsLimit f in
      f! vs := form_values c rowsLimit fs in
      fret (match v with Some v => v :: vs | None => vs end)
  end.

(** [None] is [null]: there are issues. *)
Record Analysis : Type := mkAnalysis {
  analysed : option value;
  raw_pairs : list (jstr * jstr);
  issues : list (jstr * FormIssueReason)
}.

Definition read_issues : F (list (jstr * FormIssueReason)) := fun s => Coded (f_issues s, s).

Definition analyzeForm (schema : FormSchema) (c : Classified) (rowsLimit : Z) : F Analysis :=
  f! _ := feach (fun n => issue n type_issue) (unknown c) in
  f! fs := form_values c rowsLimit (schema_fields schema) in
  f! found := read_issues in
  match found with
  | [] => f! v := frecord (schema_root schema) fs in fret (mkAnalysis (Some v) (known c) found)
  | _ => fret (mkAnalysis None (known c) found)
  end.

(** ** The two decoders *)

Definition string_pairs (pairs : list (jstr * jstr)) : list (jstr * option jstr) := (fun p => (p.1, Some p.2)) <$> pairs.

(** The common part: classification and analysis of the parameters. *)
Definition analyze_params (schema : FormSchema) (rowsLimit : Z) (params : list (jstr * jstr)) (b : Budget) (h : heap)
    : coded (Analysis * fstate) :=
  let* c := classifyForm (string_pairs params) schema in
  analyzeForm schema c rowsLimit (mkF h b []).

Section decoding.
Context (decode_replacing : list N -> jstr).

Definition decodeForm (schema : FormSchema) (h : heap) (input : list N) (limit : Z) : form_result (value * heap) :=
  match formParams decode_replacing input limit with
  | FormThrown e => FormThrown e
  | Formed c =>
      match (let* (params, b) := c in analyze_params schema maxFormRows params b h) with
      | Coded (a, s) =>
          match analysed a, issues a with
          | Some v, _ => Formed (Coded (v, f_heap s))
          | None, (_, form_missing) :: _ => FormThrown field_missing
          | None, (_, form_repeated) :: _ => FormThrown field_repeated
          | None, (n, type_issue) :: _ => Formed (reject (childPath [] n) type)
          | None, (n, row_limit_issue) :: _ => Formed (reject (childPath [] n) row_limit)
          | None, (n, row_value_limit_issue) :: _ => Formed (reject (childPath [] n) row_value_limit)
          | None, [] => Formed (Fault "undefined is not iterable")
          end
      | reject path reason => Formed (reject path reason)
      | Fault msg => Formed (Fault msg)
      end
  end.

Record ActionFormIdentities : Type := mkActionForm { rejected_id : jstr; rawEntry_id : jstr; issue_id : jstr }.

Inductive ActionFormResult : Type := wire (v : value) | rejected (v : value).

Fixpoint fmap_records {A} (f : A -> F value) (l : list A) : F (list value) :=
  match l with
  | [] => fret []
  | a :: l => f! v := f a in f! vs := fmap_records f l in fret (v :: vs)
  end.

Definition rejected_value (ids : ActionFormIdentities) (a : Analysis) : F value :=
  f! raws := fmap_records (fun p => frecord (rawEntry_id ids) [(js "name", VStr p.1); (js "value", VStr p.2)]) (raw_pairs a) in
  f! raw := farray raws in
  f! found := fmap_records (fun p => frecord (issue_id ids) [(js "name", VStr p.1); (js "reason", VStr (reason_text p.2))]) (issues a) in
  f! found := farray found in
  frecord (rejected_id ids) [(js "raw", raw); (js "issues", found)].

(** Every parameter goes through a [FormData], which keeps order and strings. *)
Definition decodeActionForm (schema : FormSchema) (h : heap) (input : list N) (limit : Z) (ids : ActionFormIdentities)
    (rowsLimit : Z) : form_result (ActionFormResult * heap) :=
  if bool_decide (rejected_id ids = []) || bool_decide (rawEntry_id ids = []) || bool_decide (issue_id ids = [])
  then Formed (Fault "invalid compiler form action")
  else if (rowsLimit <? 1) || (maxFormRows <? rowsLimit) then Formed (Fault "invalid compiler form rows limit")
  else
    match formParams decode_replacing input limit with
    | FormThrown e => FormThrown e
    | Formed c =>
        Formed (let* (params, b) := c in
                let* (a, s) := analyze_params schema rowsLimit params b h in
                match analysed a with
                | Some v => Coded (wire v, f_heap s)
                | None => let* (v, s) := rejected_value ids a s in Coded (rejected v, f_heap s)
                end)
    end.
End decoding.

(** ** Checked names *)

(** The three weak maps of the module, over one supply of tokens. *)
Record NameTokens : Type := mkNames {
  next_token : nat;
  collection_tokens : gmap nat jstr;
  row_tokens : gmap nat jstr;
  field_tokens : gmap nat jstr
}.

Inductive name_map : Type := collection_map | row_map | field_map.

Definition names_in (t : NameTokens) (m : name_map) : gmap nat jstr :=
  match m with collection_map => collection_tokens t | row_map => row_tokens t | field_map => field_tokens t end.

Definition mint (t : NameTokens) (m : name_map) (n : jstr) : nat * NameTokens :=
  let '(mkNames k cs rs fs) := t in
  (k, match m with
      | collection_map => mkNames (S k) (<[k := n]> cs) rs fs
      | row_map => mkNames (S k) cs (<[k := n]> rs) fs
      | field_map => mkNames (S k) cs rs (<[k := n]> fs)
      end).

Definition readToken (t : NameTokens) (m : name_map) (v : nat) : run jstr :=
  match names_in t m !! v with
  | Some n => Done n
  | None => Thrown (mkStandard resource_state "resource_state: invalid resource use" "can:form")
  end.

Section names.
Context (unknownField invalidName : jstr).

Definition name_failure (id n : jstr) : DomainFailure := mkDomain id [("name"%string, JStr n)] "can:form".

Definition checked (v : jsval) : run jstr :=
  match v with
  | JStr s => Done s
  | _ => Thrown (mkStandard native_exception "invalid compiler form name" "can:form")
  end.

(** A token for a name that fits the pattern, or the failure [id]. *)
Definition named (pattern : jstr -> bool) (id : jstr) (m : name_map) (t : NameTokens) (v : jsval)
    : run (Completion nat * NameTokens) :=
  run! text := checked v in
  Done (if pattern text then let '(k, t) := mint t m text in (ok k, t) else (domain (name_failure id text), t)).

Definition namedCollection : NameTokens -> jsval -> run (Completion nat * NameTokens) :=
  named fieldNamePattern unknownField collection_map.
Definition namedField : NameTokens -> jsval -> run (Completion nat * NameTokens) :=
  named fieldNamePattern unknownField field_map.
Definition rowKey : NameTokens -> jsval -> run (Completion nat * NameTokens) :=
  named rowKeyPattern invalidName row_map.

Definition orderName (t : NameTokens) (coll : nat) : run jstr :=
  run! c := readToken t collection_map coll in Done (c ++ js "_order").
Definition inputName (t : NameTokens) (coll key field : nat) : run jstr :=
  run! c := readToken t collection_map coll in
  run! k := readToken t row_map key in
  run! f := readToken t field_map field in
  Done (entryName c k f).
Definition fieldName (t : NameTokens) (field : nat) : run jstr := readToken t field_map field.
End names.
