(* ===== verification/Multipart.v ===== *)
(** * Media types and multipart bodies

    [src/runtime/transport/media.ts]: the strict reading of a media type.
    [src/runtime/platform/multipart.ts]: the parser of [multipart/form-data] over
    the bytes of a whole body.  [String.prototype.toLowerCase] is an argument. *)
From stdpp Require Import base sets list strings.
From Stdlib Require Import ZArith Lia.
From S2P Require Import Prelude JsString Unicode Destination Codec JsonCodecTheorems JsonTotal.

(** ** Text *)

Definition is_blank (c : N) : bool := (c =? 32)%N || (c =? 9)%N.

(** What [String.prototype.trim] removes. *)
Definition white_space (c : N) : bool :=
  ((9 <=? c) && (c <=? 13))%N || (c =? 32)%N || (c =? 0xA0)%N || (c =? 0x1680)%N || ((0x2000 <=? c) && (c <=? 0x200A))%N
  || (c =? 0x2028)%N || (c =? 0x2029)%N || (c =? 0x202F)%N || (c =? 0x205F)%N || (c =? 0x3000)%N || (c =? 0xFEFF)%N.

Fixpoint drop_while (p : N -> bool) (s : list N) : list N :=
  match s with
  | [] => []
  | c :: rest => if p c then drop_while p rest else s
  end.

Fixpoint take_while (p : N -> bool) (s : list N) : list N :=
  match s with
  | [] => []
  | c :: rest => if p c then c :: take_while p rest else []
  end.

Definition trim (s : jstr) : jstr := rev (drop_while white_space (rev (drop_while white_space s))).

(** What comes before the first [c], and what comes after it. *)
Fixpoint cut_at (c : N) (s : jstr) : option (jstr * jstr) :=
  match s with
  | [] => None
  | d :: rest => if (d =? c)%N then Some ([], rest) else p ← cut_at c rest; Some (d :: p.1, p.2)
  end.

(** [new TextDecoder("utf-8", { fatal: true })]: a byte order mark is dropped. *)
Definition text_decode (bytes : list N) : option jstr :=
  s ← utf8_decode bytes;
  Some (match s with c :: rest => if (c =? 0xFEFF)%N then rest else s | [] => [] end).

Section media.
Context (toLowerCase : jstr -> jstr).

(** ** Media types *)

Definition token_char (c : N) : bool := is_alnum c || includes_char (js "!#$%&'*+.^_`|~-") c.

Definition media_char (c : N) : bool := (c =? 9)%N || ((0x20 <=? c) && (c <=? 0x7E))%N || ((0x80 <=? c) && (c <=? 0xFF))%N.

(** The rest of a quoted string after its opening quote: its text without the
    escapes, and what follows the closing quote. *)
Fixpoint quoted (s : jstr) : option (jstr * jstr) :=
  match s with
  | [] => None
  | c :: rest =>
      if (c =? 34)%N then Some ([], rest)
      else if (c =? 13)%N || (c =? 10)%N then None
      else if (c =? 92)%N then
        match rest with
        | d :: rest => if (d =? 13)%N || (d =? 10)%N then None else p ← quoted rest; Some (d :: p.1, p.2)
        | [] => None
        end
      else p ← quoted rest; Some (c :: p.1, p.2)
  end.

(** [[ \t]*(;|$)], and whether it was a semicolon. *)
Definition separator (s : jstr) : option (bool * jstr) :=
  match drop_while is_blank s with
  | [] => Some (false, [])
  | c :: rest => if (c =? 59)%N then Some (true, rest) else None
  end.

(** [parameter.exec(rest)] *)
Definition parameter (s : jstr) : option (jstr * jstr * bool * jstr) :=
  let s := drop_while is_blank s in
  let name := take_while token_char s in
  if bool_decide (name = []) then None
  else
    match drop_while is_blank (drop_while token_char s) with
    | c :: rest =>
        if negb (c =? 61)%N then None
        else
          let rest := drop_while is_blank rest in
          p ← match rest with
              | d :: more => if (d =? 34)%N then quoted more else Some (take_while token_char rest, drop_while token_char rest)
              | [] => None
              end;
          if (match rest with d :: _ => negb (d =? 34)%N | [] => true end) && bool_decide (p.1 = []) then None
          else q ← separator p.2; Some (name, p.1, q.1, q.2)
    | [] => None
    end.

(** The [while] loop: [params] in insertion order. *)
Fixpoint parameters (fuel : nat) (rest : jstr) (params : list (jstr * jstr)) : option (list (jstr * jstr)) :=
  match rest, fuel with
  | [], _ => Some params
  | _, S fuel =>
      '(name, data, more, rest) ← parameter rest;
      let name := toLowerCase name in
      if bool_decide (name ∈ params.*1) then None
      else if more && bool_decide (trim rest = []) then None
      else parameters fuel rest (params ++ [(name, data)])
  | _, O => None
  end.

Definition media (value : jstr) : option (jstr * list (jstr * jstr)) :=
  if negb (forallb media_char value) then None
  else
    let mtype := take_while token_char value in
    match drop_while token_char value with
    | c :: rest =>
        let subtype := take_while token_char rest in
        if negb (c =? 47)%N || bool_decide (mtype = []) || bool_decide (subtype = []) then None
        else
          '(more, rest) ← separator (drop_while token_char rest);
          if more && bool_decide (trim rest = []) then None
          else params ← parameters (length rest) rest []; Some (toLowerCase (mtype ++ 47%N :: subtype), params)
    | [] => None
    end.

Definition mediaType (value : jstr) : coded (jstr * list (jstr * jstr)) :=
  match media value with Some m => Coded m | None => reject [] media_type end.

Definition find_param (name : jstr) (params : list (jstr * jstr)) : option jstr :=
  snd <$> find (fun p => bool_decide (p.1 = name)) params.

Definition responseMedia (value : option jstr) (json : bool) : coded unit :=
  match value with
  | None => if json then reject [] media_type else Coded tt
  | Some value =>
      let* (mtype, params) := mediaType value in
      if json && negb (bool_decide (mtype = js "application/json"))
         && negb (ends_with (default [] (split_char 47 mtype !! 1%nat)) (js "+json"))
      then reject [] media_type
      else
        match find_param (js "charset") params with
        | Some c => if bool_decide (toLowerCase c = js "utf-8") then Coded tt else reject [] charset
        | None => Coded tt
        end
  end.

Definition jsonRequestMedia (value : jstr) : bool :=
  match mediaType value with
  | Coded (mtype, params) =>
      bool_decide (mtype = js "application/json")
      && forallb (fun p => bool_decide (p.1 = js "charset") && bool_decide (toLowerCase p.2 = js "utf-8")) params
  | _ => false
  end.

(** ** Multipart bodies *)

Inductive MultipartIssue : Type := multipart_boundary | multipart_frame | multipart_nested.

(** A document, a [MultipartIssue], or the codec issue of a text that is not
    UTF-8. *)
Inductive multi (A : Type) : Type :=
| Parsed (a : A)
| Issue (reason : MultipartIssue)
| NotText.
#[global] Arguments Parsed {A} a.
#[global] Arguments Issue {A} reason.
#[global] Arguments NotText {A}.

Definition multi_bind {A B} (m : multi A) (k : A -> multi B) : multi B :=
  match m with Parsed a => k a | Issue r => Issue r | NotText => NotText end.

Record MultipartFile : Type := mkFile { file_name : jstr; filename : jstr; contentType : jstr; content : list N }.

Record MultipartDocument : Type := mkDocument { doc_fields : list (jstr * jstr); doc_files : list MultipartFile }.

(** A line so far and the bytes that follow it, cut at CRLF. *)
Fixpoint lines_from (line : list N) (body : list N) : list (list N) :=
  match body with
  | [] => [line]
  | b :: rest =>
      match rest with
      | c :: rest' => if (b =? 13)%N && (c =? 10)%N then line :: lines_from [] rest' else lines_from (line ++ [b]) rest
      | [] => [line ++ [b]]
      end
  end.

Definition linesOf (body : list N) : list (list N) := lines_from [] body.

Definition frame {A} (m : option A) : multi A := match m with Some a => Parsed a | None => Issue multipart_frame end.

Definition asciiLine (line : list N) : multi jstr := frame (text_decode line).

(** What is between the quotes, without the escapes. *)
Fixpoint unescape (s : jstr) : option jstr :=
  match s with
  | [] => Some []
  | c :: rest =>
      if (c =? 92)%N then match rest with d :: rest => cons d <$> unescape rest | [] => None end
      else if (c =? 13)%N || (c =? 10)%N then None
      else cons c <$> unescape rest
  end.

Definition unquote (value : jstr) : multi jstr :=
  match value with
  | c :: rest =>
      if negb (c =? 34)%N then Parsed value
      else if (length value <? 2)%nat || negb (ends_with value [34%N]) then Issue multipart_frame
      else frame (unescape (removelast rest))
  | [] => Parsed []
  end.

(** The loop over [parts.slice(1)]. *)
Fixpoint disposition_parts (parts : list jstr) (name file : option jstr) : multi (option jstr * option jstr) :=
  match parts with
  | [] => Parsed (name, file)
  | part :: parts =>
      match cut_at 61 part with
      | None => Issue multipart_frame
      | Some (before, after) =>
          let key := toLowerCase (trim before) in
          multi_bind (unquote (trim after)) (fun value =>
            if bool_decide (key = js "name") then
              match name with Some _ => Issue multipart_frame | None => disposition_parts parts (Some value) file end
            else if bool_decide (key = js "filename") then
              match file with Some _ => Issue multipart_frame | None => disposition_parts parts name (Some value) end
            else disposition_parts parts name file)
      end
  end.

Definition dispositionOf (header : jstr) : multi (jstr * option jstr) :=
  match split_char 59 header with
  | kind :: parts =>
      if negb (bool_decide (toLowerCase (trim kind) = js "form-data")) then Issue multipart_frame
      else
        multi_bind (disposition_parts parts None None) (fun found =>
          match found with
          | (Some name, file) => Parsed (name, file)
          | (None, _) => Issue multipart_frame
          end)
  | [] => Issue multipart_frame
  end.

Definition boundary_char (c : N) : bool := is_alnum c || includes_char (js "'()+_,-./:=?") c.

Definition boundary_ok (boundary : jstr) : bool :=
  negb (bool_decide (boundary = [])) && forallb boundary_char boundary && (length boundary <=? 70)%nat.

Definition delimiter (boundary : jstr) : list N := utf8_encode (js "--" ++ boundary).
Definition close (boundary : jstr) : list N := utf8_encode (js "--" ++ boundary ++ js "--").

Definition same (line marker : list N) : bool := bool_decide (line = marker).

Definition closedBy (boundary : jstr) (line : list N) : bool :=
  let close := close boundary in
  same line close
  || ((length close <? length line)%nat && same (take (length close) line) close && forallb is_blank (drop (length close) line)).

(** The lines up to the first delimiter, then [None] when they are closed before
    it. *)
Fixpoint preamble (boundary : jstr) (lines : list (list N)) : multi (option (list (list N))) :=
  match lines with
  | [] => Issue multipart_frame
  | line :: lines =>
      if same line (delimiter boundary) then Parsed (Some lines)
      else if closedBy boundary line then Parsed None
      else preamble boundary lines
  end.

Fixpoint header_lines (lines : list (list N)) : multi (list jstr * list (list N)) :=
  match lines with
  | [] => Issue multipart_frame
  | line :: lines =>
      multi_bind (asciiLine line) (fun line =>
        match line with
        | [] => Parsed ([], lines)
        | c :: _ =>
            if is_blank c then Issue multipart_frame
            else multi_bind (header_lines lines) (fun r => Parsed (line :: r.1, r.2))
        end)
  end.

Fixpoint headers (lines : list jstr) (disposition ctype : option jstr) : multi (option jstr * option jstr) :=
  match lines with
  | [] => Parsed (disposition, ctype)
  | header :: lines =>
      match cut_at 58 header with
      | None | Some ([], _) => Issue multipart_frame
      | Some (before, after) =>
          let key := toLowerCase (trim before) in
          let value := trim after in
          if bool_decide (key = js "content-disposition") then
            match disposition with Some _ => Issue multipart_frame | None => headers lines (Some value) ctype end
          else if bool_decide (key = js "content-type") then
            match ctype with Some _ => Issue multipart_frame | None => headers lines disposition (Some value) end
          else headers lines disposition ctype
      end
  end.

(** The lines of a part, and whether it is the last one. *)
Fixpoint content_lines (boundary : jstr) (lines : list (list N)) : multi (list (list N) * bool * list (list N)) :=
  match lines with
  | [] => Issue multipart_frame
  | raw :: lines =>
      if same raw (delimiter boundary) then Parsed ([], false, lines)
      else if closedBy boundary raw then Parsed ([], true, lines)
      else multi_bind (content_lines boundary lines) (fun r => Parsed (raw :: r.1.1, r.1.2, r.2))
  end.

Definition crlf : list N := [13; 10]%N.

(** [joined]: what was written at [offset] so far, in a buffer of [size] zeros. *)
Definition content_size (lines : list (list N)) : nat :=
  (list_sum (length <$> lines) + match lines with [] => 0 | _ => (length lines - 1) * 2 end)%nat.
Definition write_line (written line : list N) : list N :=
  (if bool_decide (written = []) then [] else written ++ crlf) ++ line.
Definition joined (lines : list (list N)) : list N :=
  let written := fold_left write_line lines [] in
  written ++ replicate (content_size lines - length written) 0%N.

Definition check_type (ctype : option jstr) : multi unit :=
  match ctype with
  | None => Parsed tt
  | Some value =>
      if starts_with (toLowerCase value) (js "multipart/") then Issue multipart_nested
      else match media value with Some _ => Parsed tt | None => Issue multipart_frame end
  end.

(** The text or the file of one part. *)
Definition add_part (name : jstr) (file ctype : option jstr) (bytes : list N) (doc : MultipartDocument) : multi MultipartDocument :=
  match file with
  | None =>
      match text_decode bytes with
      | Some value => Parsed (mkDocument (doc_fields doc ++ [(name, value)]) (doc_files doc))
      | None => NotText
      end
  | Some filename =>
      Parsed (mkDocument (doc_fields doc)
        (doc_files doc ++ [mkFile name filename (default (js "application/octet-stream") ctype) bytes]))
  end.

(** The loop over the parts, from the headers of one. *)
Fixpoint parts (fuel : nat) (boundary : jstr) (lines : list (list N)) (doc : MultipartDocument) : multi MultipartDocument :=
  match fuel with
  | O => Issue multipart_frame
  | S fuel =>
      multi_bind (header_lines lines) (fun '(hs, lines) =>
      multi_bind (headers hs None None) (fun '(disposition, ctype) =>
        match disposition with
        | None => Issue multipart_frame
        | Some disposition =>
            multi_bind (check_type ctype) (fun _ =>
            multi_bind (content_lines boundary lines) (fun '(content, closed, lines) =>
            multi_bind (dispositionOf disposition) (fun '(name, file) =>
            multi_bind (add_part name file ctype (joined content) doc) (fun doc =>
              if closed : bool then Parsed doc else parts fuel boundary lines doc))))
        end))
  end.

Definition decodeMultipart (body : list N) (boundary : jstr) : multi MultipartDocument :=
  if negb (boundary_ok boundary) then Issue multipart_boundary
  else
    let lines := linesOf body in
    multi_bind (preamble boundary lines) (fun rest =>
      match rest with
      | None => Parsed (mkDocument [] [])
      | Some lines => parts (S (length lines)) boundary lines (mkDocument [] [])
      end).
End media.

(** ** Lines *)

(** The lines again, with CRLF between them. *)
Fixpoint join_lines (lines : list (list N)) : list N :=
  match lines with
  | [] => []
  | [l] => l
  | l :: lines => l ++ crlf ++ join_lines lines
  end.

Lemma lines_from_cons line b c rest :
  lines_from line (b :: c :: rest)
  = if (b =? 13)%N && (c =? 10)%N then line :: lines_from [] rest else lines_from (line ++ [b]) (c :: rest).
Proof. done. Qed.

Lemma lines_from_spec n : forall body line, (length body <= n)%nat ->
  (forall rest, lines_from line (body ++ crlf ++ rest) = lines_from line body ++ lines_from [] rest)
  /\ join_lines (lines_from line body) = line ++ body
  /\ exists m ls, lines_from line body = (line ++ m) :: ls.
Proof.
  induction n as [|n IH]; intros body line Hn.
  - destruct body; [| cbn in Hn; lia]. cbn. rewrite app_nil_r. split_and!; [done | done |]. exists [], []. by rewrite app_nil_r.
  - destruct body as [|b body]; [cbn; rewrite app_nil_r; split_and!; [done | done |]; exists [], []; by rewrite app_nil_r |].
    destruct body as [|c body].
    + split_and!; [intros rest; cbn; by destruct (b =? 13)%N | done | by exists [b], []].
    + cbn [length] in Hn. cbn [app]. rewrite lines_from_cons. setoid_rewrite lines_from_cons.
      destruct ((b =? 13)%N && (c =? 10)%N) eqn:Hbc.
      * apply andb_true_iff in Hbc as [->%N.eqb_eq ->%N.eqb_eq].
        destruct (IH body [] ltac:(lia)) as (H1 & H2 & m & ls & H3). split_and!.
        -- intros rest. rewrite H1. done.
        -- cbn [join_lines]. destruct (lines_from [] body) as [|l ls'] eqn:Hl; [done |]. by rewrite H2.
        -- exists [], (lines_from [] body). by rewrite app_nil_r.
      * destruct (IH (c :: body) (line ++ [b])) as (H1 & H2 & m & ls & H3); [cbn; lia |]. split_and!.
        -- exact H1.
        -- rewrite H2. by rewrite <- app_assoc.
        -- exists (b :: m), ls. rewrite <- app_assoc in H3. exact H3.
Qed.

Lemma linesOf_app body rest : linesOf (body ++ crlf ++ rest) = linesOf body ++ linesOf rest.
Proof. by apply (lines_from_spec (length body)). Qed.

Lemma linesOf_join body : join_lines (linesOf body) = body.
Proof. unfold linesOf. by destruct (lines_from_spec (length body) body []) as (_ & -> & _). Qed.

Lemma lines_from_plain text : forall line, 13%N ∉ text -> lines_from line text = [line ++ text].
Proof.
  induction text as [|b text IH]; intros line Hb; [by rewrite app_nil_r |]. apply not_elem_of_cons in Hb as [Hb Ht].
  destruct text as [|c text]; [done |]. rewrite lines_from_cons, (proj2 (N.eqb_neq b 13)) by done. cbn [andb].
  rewrite (IH (line ++ [b])) by done. by rewrite <- app_assoc.
Qed.

Lemma linesOf_line text rest : 13%N ∉ text -> linesOf (text ++ crlf ++ rest) = text :: linesOf rest.
Proof. intros H. rewrite linesOf_app. unfold linesOf at 1. by rewrite lines_from_plain. Qed.

(** ** The bytes of a part *)

(** The line breaks at the front of a content, and what follows them. *)
Fixpoint leading_breaks (body : list N) : nat * list N :=
  match body with
  | b :: (c :: rest) =>
      if (b =? 13)%N && (c =? 10)%N then let r := leading_breaks rest in (S r.1, r.2) else (O, body)
  | _ => (O, body)
  end.

(** What a file is read as: its line breaks at the front are gone, and there are
    as many zero bytes at its end. *)
Definition kept (body : list N) : list N :=
  let r := leading_breaks body in r.2 ++ replicate (2 * r.1) 0%N.

Lemma content_size_join lines : content_size lines = length (join_lines lines).
Proof.
  unfold content_size. induction lines as [|l lines IH]; [done |]. destruct lines as [|l' lines]; [cbn; lia |].
  change (join_lines (l :: l' :: lines)) with (l ++ crlf ++ join_lines (l' :: lines)). rewrite !length_app, <- IH.
  rewrite fmap_cons. cbn [list_sum length crlf foldr]. unfold list_sum. lia.
Qed.

Lemma write_lines_after written lines : written <> [] ->
  fold_left write_line lines written = match lines with [] => written | _ => written ++ crlf ++ join_lines lines end.
Proof.
  revert written. induction lines as [|l lines IH]; intros written Hw; [done |]. cbn [fold_left].
  unfold write_line at 2. rewrite bool_decide_false by done. rewrite IH by (by destruct written).
  destruct lines; cbn [join_lines]; by rewrite <- !app_assoc.
Qed.

Lemma write_lines body : fold_left write_line (linesOf body) [] = (leading_breaks body).2.
Proof.
  remember (length body) as n eqn:Hn. assert (length body <= n)%nat as Hle by lia. clear Hn. revert body Hle.
  induction n as [|n IH]; intros body Hle; [by destruct body; [| cbn in Hle; lia] |].
  destruct body as [|b body]; [done |]. destruct body as [|c body]; [done |]. cbn [length] in Hle.
  cbn [leading_breaks]. destruct ((b =? 13)%N && (c =? 10)%N) eqn:Hbc.
  - unfold linesOf. rewrite lines_from_cons, Hbc. cbn [fold_left snd]. unfold write_line at 2.
    rewrite bool_decide_true by done. cbn [app]. apply IH. lia.
  - cbn [snd]. rewrite <- (linesOf_join (b :: c :: body)) at 2. unfold linesOf. rewrite lines_from_cons, Hbc. cbn [app].
    destruct (lines_from_spec (length (c :: body)) (c :: body) [b] ltac:(done)) as (_ & _ & m & ls & ->).
    cbn [fold_left app]. unfold write_line at 2. rewrite bool_decide_true by done. cbn [app].
    rewrite write_lines_after by done. by destruct ls.
Qed.

Lemma leading_breaks_length body : length body = (length (leading_breaks body).2 + 2 * (leading_breaks body).1)%nat.
Proof.
  remember (length body) as n eqn:Hn. assert (length body <= n)%nat as Hle by lia. rewrite Hn. clear Hn. revert body Hle.
  induction n as [|n IH]; intros body Hle; [by destruct body; [| cbn in Hle; lia] |].
  destruct body as [|b [|c body]]; [done | done |]. cbn [length leading_breaks] in *. destruct (_ && _); cbn [fst snd]; [| cbn; lia].
  rewrite (IH body ltac:(lia)) at 1. lia.
Qed.

Lemma joined_lines body : joined (linesOf body) = kept body.
Proof.
  unfold joined, kept. rewrite write_lines. f_equal. rewrite content_size_join, linesOf_join.
  f_equal. rewrite (leading_breaks_length body) at 1. lia.
Qed.

Lemma kept_id body : kept body = body <-> starts_with body crlf = false.
Proof.
  unfold kept, starts_with. destruct body as [|b [|c body]]; [by split | by split; [intros _; apply bool_decide_eq_false |] |]. cbn [length take crlf leading_breaks].
  destruct ((b =? 13)%N && (c =? 10)%N) eqn:Hbc.
  - apply andb_true_iff in Hbc as [->%N.eqb_eq ->%N.eqb_eq]. rewrite bool_decide_true by done. split; [| done].
    cbn [fst snd]. destruct (leading_breaks body) as [k rest] eqn:Hr. cbn [fst snd]. intros H. exfalso.
    assert (forall x y l, leading_breaks body = (x, y :: 10%N :: l) -> y <> 13%N) as Hno.
    { clear. intros x y l. remember (length body) as n eqn:Hn. assert (length body <= n)%nat as Hle by lia. clear Hn.
      revert body x Hle. induction n as [|n IH]; intros body x Hle; [by destruct body; [| cbn in Hle; lia] |].
      destruct body as [|b [|c body]]; [done | done |]. cbn [length leading_breaks] in *.
      destruct ((b =? 13)%N && (c =? 10)%N) eqn:Hbc.
      - intros H. destruct (leading_breaks body) as [k r] eqn:Hr. cbn in H. injection H as _ ->. by eapply (IH body k); [lia |].
      - intros [= _ -> -> _] ->. done. }
    destruct rest as [|x [|y rest]]; cbn in H; [discriminate | discriminate |]. injection H as -> -> _. by eapply Hno.
  - cbn [fst snd]. rewrite app_nil_r. split; [| done]. intros _. apply bool_decide_eq_false. intros [= -> ->]. done.
Qed.

(** ** Texts as bytes *)

Lemma code_points_ascii u s : (u < 0x80)%N -> u ∈ code_points s -> u ∈ s.
Proof.
  intros Hu. remember (length s) as n eqn:Hn. assert (length s <= n)%nat as Hle by lia. clear Hn. revert s Hle.
  induction n as [|n IH]; intros s Hle; [by destruct s; [| cbn in Hle; lia] |]. destruct s as [|c s]; [done |]. cbn [length] in Hle.
  cbn [code_points]. assert (u ∈ c :: code_points s -> u ∈ c :: s) as Hplain.
  { rewrite !elem_of_cons. intros [->|H]; [by left | right; apply IH; [lia | done]]. }
  destruct (is_high_surrogate c); [| exact Hplain]. destruct s as [|d s]; [done |].
  destruct (is_low_surrogate d); [| exact Hplain]. rewrite elem_of_cons. intros [->|H].
  - unfold surrogate_pair in Hu. lia.
  - right. right. apply IH; [cbn in Hle; lia | done].
Qed.

Lemma utf8_ascii c u : (u < 0x80)%N -> u ∈ Unicode.utf8 c -> c = u.
Proof.
  unfold Unicode.utf8. intros Hu Hin.
  destruct (c <? 0x80)%N; [by apply list_elem_of_singleton in Hin |].
  exfalso. revert Hu. apply N.le_ngt.
  repeat (match type of Hin with context [if ?b then _ else _] => destruct b end); rewrite !elem_of_cons, elem_of_nil in Hin;
    destruct_or? Hin; subst; first [done | eapply N.le_trans; [| apply N.le_add_r]; lia].
Qed.

Lemma utf8_encode_ascii u s : (u < 0x80)%N -> u ∉ s -> u ∉ utf8_encode s.
Proof.
  intros Hu Hs H. apply Hs, code_points_ascii; [done |]. unfold utf8_encode in H. apply list_elem_of_join in H as (bs & Hbs & H).
  apply list_elem_of_fmap in H as (c & -> & Hc). apply utf8_ascii in Hbs as ->; [| done].
  apply list_elem_of_fmap in Hc as (d & Hd & Hin). unfold to_scalar in Hd. destruct (is_scalar d); congruence || (subst; done).
Qed.

Lemma utf8_encode_id s : ascii_text s = true -> utf8_encode s = s.
Proof.
  unfold ascii_text, utf8_encode. induction s as [|c s IH]; [done |]. cbn [forallb]. intros [Hc Hs]%andb_true_iff.
  apply N.ltb_lt in Hc. cbn [code_points]. unfold is_high_surrogate. rewrite leb_false by lia. cbn [andb].
  assert (forall x l, mjoin (Unicode.utf8 <$> (to_scalar <$> x :: l))
    = Unicode.utf8 (to_scalar x) ++ mjoin (Unicode.utf8 <$> (to_scalar <$> l))) as Hcons by done.
  rewrite Hcons, IH by done. unfold to_scalar, is_scalar, Unicode.utf8. rewrite (ltb_true c 0xD800) by lia. cbn [orb].
  by rewrite ltb_true.
Qed.

Lemma text_decode_encode s : is_units s = true -> is_well_formed s = true -> head s <> Some 0xFEFF%N ->
  text_decode (utf8_encode s) = Some s.
Proof.
  intros Hu Hw Hb. unfold text_decode. destruct (utf8_decode_encode s Hu) as [-> H]. rewrite (proj2 H Hw). cbn [mbind option_bind].
  destruct s as [|c s]; [done |]. destruct (N.eqb_spec c 0xFEFF); [| done]. cbn in Hb. congruence.
Qed.

Lemma boundary_ascii boundary : boundary_ok boundary = true -> ascii_text boundary = true /\ 13%N ∉ boundary.
Proof.
  unfold boundary_ok. rewrite !andb_true_iff. intros [[_ H] _]. split.
  - unfold ascii_text. rewrite forallb_forall in *. intros c Hc. specialize (H c Hc). unfold boundary_char in H.
    apply N.ltb_lt. apply orb_true_iff in H as [H|H].
    + unfold is_alnum, is_digit, is_upper, is_lower in H. rewrite !orb_true_iff, !andb_true_iff, !N.leb_le in H. lia.
    + apply includes_char_spec in H. revert H. vm_compute (js _). rewrite !elem_of_cons, elem_of_nil. lia.
  - intros Hc%list_elem_of_In. rewrite forallb_forall in H. specialize (H _ Hc). by vm_compute in H.
Qed.

(** ** Headers *)

Definition escape_unit (c : N) : jstr := if (c =? 34)%N || (c =? 92)%N then [92%N; c] else [c].
Definition escape (s : jstr) : jstr := mjoin (escape_unit <$> s).
Definition quote (s : jstr) : jstr := 34%N :: escape s ++ [34%N].

(** A name that a header can carry: text without line ends, and without the
    semicolon at which the parser cuts even inside quotes. *)
Definition name_ok (s : jstr) : Prop :=
  is_units s = true /\ is_well_formed s = true /\ 13%N ∉ s /\ 10%N ∉ s /\ 59%N ∉ s.

Lemma escape_cons c s : escape (c :: s) = escape_unit c ++ escape s.
Proof. done. Qed.

Lemma escape_without u s : u <> 92%N -> u ∉ s -> u ∉ escape s.
Proof.
  intros H92. induction s as [|c s IH]; [done |]. rewrite not_elem_of_cons, escape_cons, elem_of_app. intros [Hc Hs] [H|H]; [| by apply IH].
  unfold escape_unit in H. destruct (_ || _); rewrite !elem_of_cons, elem_of_nil in H; naive_solver.
Qed.

Lemma unescape_escape s : 13%N ∉ s -> 10%N ∉ s -> unescape (escape s) = Some s.
Proof.
  induction s as [|c s IH]; [done |]. rewrite !not_elem_of_cons. intros [H13 Hs13] [H10 Hs10]. rewrite escape_cons. unfold escape_unit.
  destruct (N.eqb_spec c 34) as [->|H34]; [cbn; by rewrite IH |]. destruct (N.eqb_spec c 92) as [->|H92]; [cbn; by rewrite IH |].
  cbn [orb app unescape]. rewrite !(proj2 (N.eqb_neq _ _)) by congruence. cbn [orb]. by rewrite IH.
Qed.

Lemma quote_length s : (2 <= length (quote s))%nat.
Proof. unfold quote. cbn [length]. rewrite length_app. cbn [length]. lia. Qed.

Lemma ends_with_snoc s c : ends_with (s ++ [c]) [c] = true.
Proof.
  unfold ends_with. rewrite length_app. cbn [length]. rewrite (proj2 (Nat.leb_le _ _)) by lia. cbn [andb].
  replace (length s + 1 - 1)%nat with (length s) by lia. rewrite drop_app_length. by apply bool_decide_eq_true.
Qed.

Lemma unquote_quote s : 13%N ∉ s -> 10%N ∉ s -> unquote (quote s) = Parsed s.
Proof.
  intros H13 H10. unfold unquote, quote. cbn [N.eqb Pos.eqb negb].
  pose proof (quote_length s) as Hl. unfold quote in Hl. rewrite (proj2 (Nat.ltb_ge _ _)) by lia.
  change (34%N :: escape s ++ [34%N]) with ((34%N :: escape s) ++ [34%N]). rewrite ends_with_snoc. cbn [negb orb].
  rewrite removelast_last. unfold frame. by rewrite unescape_escape.
Qed.

Lemma trim_id c s d : white_space c = false -> white_space d = false -> trim (c :: s ++ [d]) = c :: s ++ [d].
Proof.
  intros Hc Hd. unfold trim. assert (drop_while white_space (c :: s ++ [d]) = c :: s ++ [d]) as -> by (cbn; by rewrite Hc).
  assert (rev (c :: s ++ [d]) = d :: rev (c :: s)) as Hr.
  { change (c :: s ++ [d]) with ((c :: s) ++ [d]). by rewrite rev_app_distr. }
  rewrite Hr. cbn [drop_while]. rewrite Hd, <- Hr. apply rev_involutive.
Qed.

Lemma trim_space s : trim (32%N :: s) = trim s.
Proof. done. Qed.

Lemma trim_quote s : trim (quote s) = quote s.
Proof. by apply trim_id. Qed.

Lemma cut_at_app c a b : c ∉ a -> cut_at c (a ++ c :: b) = Some (a, b).
Proof.
  induction a as [|d a IH]; cbn; [by rewrite N.eqb_refl |]. intros [Hd Ha]%not_elem_of_cons.
  rewrite (proj2 (N.eqb_neq d c)) by congruence. by rewrite IH.
Qed.

Lemma escape_well_formed s : is_well_formed s = true -> is_well_formed (escape s) = true.
Proof.
  remember (length s) as n eqn:Hn. assert (length s <= n)%nat as Hle by lia. clear Hn. revert s Hle.
  induction n as [|n IH]; intros s Hle; [by destruct s; [| cbn in Hle; lia] |]. destruct s as [|c s]; [done |]. cbn [length] in Hle.
  cbn [is_well_formed]. rewrite escape_cons. destruct (is_high_surrogate c) eqn:Hh.
  - destruct s as [|d s]; [done |]. destruct (is_low_surrogate d) eqn:Hl; [| done]. intros Hw. rewrite escape_cons.
    unfold is_high_surrogate, is_low_surrogate in Hh, Hl. rewrite !andb_true_iff, !N.leb_le in Hh, Hl. unfold escape_unit.
    rewrite !(proj2 (N.eqb_neq _ _)) by lia. cbn [orb app is_well_formed].
    unfold is_high_surrogate, is_low_surrogate. rewrite !(proj2 (N.leb_le _ _)) by lia. cbn [andb]. apply IH; [cbn in Hle; lia | done].
  - destruct (is_low_surrogate c) eqn:Hl; [done |]. intros Hw. unfold escape_unit.
    assert (is_well_formed (escape s) = true) as H by (apply IH; [lia | done]). destruct (_ || _); cbn [app is_well_formed]; by rewrite Hh, Hl.
Qed.

Lemma escape_units s : is_units s = true -> is_units (escape s) = true.
Proof.
  induction s as [|c s IH]; [done |]. cbn [is_units forallb]. intros [Hc Hs]%andb_true_iff. rewrite escape_cons, units_app.
  rewrite (IH Hs), andb_true_r. unfold escape_unit. destruct (_ || _); cbn [is_units forallb]; by rewrite Hc.
Qed.

Lemma quote_text s : name_ok s -> is_units (quote s) = true /\ is_well_formed (quote s) = true
  /\ 13%N ∉ quote s /\ 59%N ∉ quote s.
Proof.
  intros (Hu & Hw & H13 & H10 & H59). unfold quote. change (34%N :: escape s ++ [34%N]) with ([34%N] ++ escape s ++ [34%N]).
  rewrite !units_app, escape_units by done. split; [done |]. split; [| split].
  - apply well_formed_both; [done |]. apply well_formed_both; [by apply escape_well_formed | done].
  - pose proof (escape_without 13 s ltac:(done) H13). set_solver.
  - pose proof (escape_without 59 s ltac:(done) H59). set_solver.
Qed.

(** ** Writing a body *)

Inductive form_part : Type :=
| TextPart (name value : jstr)
| FilePart (name filename : jstr) (ctype : option jstr) (content : list N).

Definition part_bytes (p : form_part) : list N :=
  match p with TextPart _ value => utf8_encode value | FilePart _ _ _ content => content end.

Definition disposition_text (p : form_part) : jstr :=
  js "form-data; name=" ++ match p with
    | TextPart name _ => quote name
    | FilePart name filename _ _ => quote name ++ js "; filename=" ++ quote filename
    end.

Definition disposition_line (p : form_part) : jstr := js "Content-Disposition: " ++ disposition_text p.

Definition type_lines (p : form_part) : list jstr :=
  match p with FilePart _ _ (Some ctype) _ => [js "Content-Type: " ++ ctype] | _ => [] end.

Definition write_lines_crlf (lines : list (list N)) : list N := mjoin ((fun l => l ++ crlf) <$> lines).

Definition part_text (p : form_part) : list N :=
  write_lines_crlf (utf8_encode <$> disposition_line p :: type_lines p ++ [[]]) ++ part_bytes p.

Fixpoint parts_text (boundary : jstr) (p : form_part) (ps : list form_part) : list N :=
  part_text p ++ crlf ++
  match ps with
  | [] => close boundary ++ crlf
  | p :: ps => delimiter boundary ++ crlf ++ parts_text boundary p ps
  end.

Definition body_text (boundary : jstr) (ps : list form_part) : list N :=
  match ps with
  | [] => close boundary ++ crlf
  | p :: ps => delimiter boundary ++ crlf ++ parts_text boundary p ps
  end.

Definition read_part (doc : MultipartDocument) (p : form_part) : MultipartDocument :=
  match p with
  | TextPart name value => mkDocument (doc_fields doc ++ [(name, value)]) (doc_files doc)
  | FilePart name filename ctype content =>
      mkDocument (doc_fields doc)
        (doc_files doc ++ [mkFile name filename (default (js "application/octet-stream") ctype) (kept content)])
  end.

Section reading.
Context (toLowerCase : jstr -> jstr).
Hypothesis Hlower : forall s, ascii_text s = true -> toLowerCase s = ascii_lower s.

Definition type_ok (ctype : jstr) : Prop :=
  media toLowerCase ctype <> None /\ starts_with (toLowerCase ctype) (js "multipart/") = false /\ trim ctype = ctype.

(** Parts that a body can carry under a boundary: no line of their content is a
    delimiter, and a text does not begin with a line break or a byte order mark. *)
Definition part_ok (boundary : jstr) (p : form_part) : Prop :=
  Forall (fun l => same l (delimiter boundary) = false /\ closedBy boundary l = false) (linesOf (part_bytes p))
  /\ match p with
     | TextPart name value =>
         name_ok name /\ is_units value = true /\ is_well_formed value = true /\ head value <> Some 0xFEFF%N
         /\ starts_with (utf8_encode value) crlf = false
     | FilePart name filename ctype _ =>
         name_ok name /\ name_ok filename /\ match ctype with Some ctype => type_ok ctype | None => True end
     end.

Lemma disposition_reads p boundary : part_ok boundary p ->
  dispositionOf toLowerCase (disposition_text p)
  = Parsed (match p with TextPart name _ => (name, None) | FilePart name filename _ _ => (name, Some filename) end).
Proof using Hlower.
  intros [_ Hp]. unfold dispositionOf, disposition_text.
  change (js "form-data; name=") with (js "form-data" ++ 59%N :: js " name" ++ [61%N]). rewrite <- app_assoc. cbn [app].
  rewrite split_char_app by (by apply (bool_decide_unpack _); vm_compute).
  rewrite (Hlower (trim (js "form-data"))) by done. rewrite bool_decide_true by done. cbn [negb].
  assert (forall name rest, name_ok name ->
    disposition_parts toLowerCase ((js " name" ++ 61%N :: quote name) :: rest) None None
    = disposition_parts toLowerCase rest (Some name) None) as Hname.
  { intros name rest (_ & _ & H13 & H10 & _). cbn [disposition_parts].
    rewrite cut_at_app by (by apply (bool_decide_unpack _); vm_compute). rewrite trim_quote, unquote_quote by done. cbn [multi_bind].
    rewrite (Hlower (trim (js " name"))) by done. by rewrite bool_decide_true. }
  destruct p as [name value|name filename ctype content].
  - destruct Hp as (Hn & _). rewrite <- app_assoc. cbn [app]. rewrite split_char_none.
    + by rewrite Hname.
    + destruct (quote_text name Hn) as (_ & _ & _ & H59). rewrite elem_of_app, elem_of_cons. intros [H|[H|H]]; [| done | done].
      revert H. by apply (bool_decide_unpack _); vm_compute.
  - destruct Hp as (Hn & Hf & _). rewrite <- app_assoc. cbn [app].
    change (js "; filename=") with (59%N :: js " filename" ++ [61%N]). cbn [app].
    assert (js " name" ++ 61%N :: quote name ++ 59%N :: (js " filename" ++ [61%N]) ++ quote filename
      = (js " name" ++ 61%N :: quote name) ++ 59%N :: js " filename" ++ 61%N :: quote filename) as -> by by rewrite <- !app_assoc.
    rewrite split_char_app.
    + rewrite split_char_none; [rewrite Hname by done |].
      * cbn [disposition_parts]. rewrite cut_at_app by (by apply (bool_decide_unpack _); vm_compute).
        destruct Hf as (_ & _ & H13 & H10 & _). rewrite trim_quote, unquote_quote by done. cbn [multi_bind].
        rewrite (Hlower (trim (js " filename"))) by done. rewrite bool_decide_false by done. by rewrite bool_decide_true.
      * destruct (quote_text filename Hf) as (_ & _ & _ & H59). rewrite elem_of_app, elem_of_cons. intros [H|[H|H]]; [| done | done].
        revert H. by apply (bool_decide_unpack _); vm_compute.
    + destruct (quote_text name Hn) as (_ & _ & _ & H59). rewrite elem_of_app, elem_of_cons. intros [H|[H|H]]; [| done | done].
      revert H. by apply (bool_decide_unpack _); vm_compute.
Qed.

Lemma disposition_trim p : trim (disposition_text p) = disposition_text p.
Proof.
  assert (exists s, disposition_text p = 102%N :: s ++ [34%N]) as [s ->]; [| by apply trim_id].
  unfold disposition_text. change (js "form-data; name=") with (102%N :: js "orm-data; name="). cbn [app].
  destruct p as [name value|name filename ctype content]; unfold quote.
  - exists (js "orm-data; name=" ++ 34%N :: escape name). by rewrite <- app_assoc.
  - exists (js "orm-data; name=" ++ (34%N :: escape name ++ [34%N]) ++ js "; filename=" ++ 34%N :: escape filename).
    by rewrite <- !app_assoc.
Qed.

(** Header lines are read back as they were written. *)
Definition line_ok (l : jstr) : Prop :=
  is_units l = true /\ is_well_formed l = true /\ 13%N ∉ l /\ exists c l', l = c :: l' /\ is_blank c = false /\ c <> 0xFEFF%N.

Lemma disposition_line_ok boundary p : part_ok boundary p -> line_ok (disposition_line p).
Proof using.
  intros [_ Hp]. assert (is_units (disposition_text p) = true /\ is_well_formed (disposition_text p) = true /\ 13%N ∉ disposition_text p)
    as (Hu & Hw & H13).
  { unfold disposition_text. destruct p as [name value|name filename ctype content].
    - destruct Hp as (Hn & _). destruct (quote_text name Hn) as (Hu & Hw & H13 & _). rewrite units_app, Hu. split; [done |].
      split; [by apply well_formed_both |]. rewrite elem_of_app. intros [H|H]; [| done]. revert H. by apply (bool_decide_unpack _); vm_compute.
    - destruct Hp as (Hn & Hf & _). destruct (quote_text name Hn) as (Hu & Hw & H13 & _), (quote_text filename Hf) as (Hu' & Hw' & H13' & _).
      rewrite !units_app, Hu, Hu'. split; [done |]. split; [do 2 (apply well_formed_both; [done |]); by apply well_formed_both |].
      rewrite !elem_of_app. intros [H|[H|[H|H]]]; try done; revert H; by apply (bool_decide_unpack _); vm_compute. }
  unfold line_ok, disposition_line. rewrite units_app, Hu. split; [done |]. split; [by apply well_formed_both |].
  split; [| by eexists _, _]. rewrite elem_of_app. intros [H|H]; [| done]. revert H. by apply (bool_decide_unpack _); vm_compute.
Qed.

Lemma type_line_ok ctype : type_ok ctype -> line_ok (js "Content-Type: " ++ ctype).
Proof using.
  intros (Hm & _ & _). assert (forallb media_char ctype = true) as H.
  { unfold media in Hm. by destruct (forallb media_char ctype). }
  assert (Forall (fun c => c <= 0xFF /\ c <> 13)%N ctype) as Hc.
  { apply Forall_forall. intros c Hin%list_elem_of_In. rewrite forallb_forall in H. specialize (H c Hin). unfold media_char in H.
    rewrite !orb_true_iff, !andb_true_iff, !N.leb_le, N.eqb_eq in H. lia. }
  unfold line_ok. rewrite units_app. split_and!.
  - apply andb_true_iff. split; [done |]. unfold is_units. rewrite forallb_forall. intros c Hin%list_elem_of_In.
    rewrite Forall_forall in Hc. specialize (Hc c Hin). apply N.ltb_lt. lia.
  - apply well_formed_both; [done |]. clear -Hc. induction Hc as [|c l [Hc _] _ IH]; [done |]. cbn [is_well_formed].
    unfold is_high_surrogate, is_low_surrogate. by rewrite (leb_false 0xD800 c), (leb_false 0xDC00 c) by lia.
  - rewrite elem_of_app. intros [H13|H13]; [revert H13; by apply (bool_decide_unpack _); vm_compute |].
    rewrite Forall_forall in Hc. by destruct (Hc _ H13).
  - by eexists _, _.
Qed.

Lemma header_lines_read hs rest : Forall line_ok hs ->
  header_lines ((utf8_encode <$> hs) ++ [] :: rest) = Parsed (hs, rest).
Proof using.
  induction 1 as [|h hs (Hu & Hw & _ & c & l & -> & Hb & Hbom) _ IH]; [done |]. cbn [fmap list_fmap app header_lines].
  unfold asciiLine. rewrite text_decode_encode; [| done | done | cbn; congruence]. cbn [frame multi_bind]. rewrite Hb.
  change (list_fmap _ _ utf8_encode hs) with (utf8_encode <$> hs). by rewrite IH.
Qed.

Lemma headers_read boundary p : part_ok boundary p ->
  headers toLowerCase (disposition_line p :: type_lines p) None None
  = Parsed (Some (disposition_text p), match p with FilePart _ _ ctype _ => ctype | _ => None end).
Proof using Hlower.
  intros Hp. cbn [headers]. unfold disposition_line.
  change (js "Content-Disposition: ") with (js "Content-Disposition" ++ 58%N :: [32%N]). rewrite <- app_assoc. cbn [app].
  rewrite cut_at_app by (by apply (bool_decide_unpack _); vm_compute).
  change (js "Content-Disposition") with (67%N :: js "ontent-Disposition") at 1. cbn [app].
  rewrite trim_space, disposition_trim. rewrite (Hlower (trim _)) by done. rewrite bool_decide_true by done.
  destruct p as [name value|name filename [ctype|] content]; cbn [type_lines headers]; try done.
  change (js "Content-Type: ") with (js "Content-Type" ++ 58%N :: [32%N]). rewrite <- app_assoc. cbn [app].
  rewrite cut_at_app by (by apply (bool_decide_unpack _); vm_compute).
  change (js "Content-Type") with (67%N :: js "ontent-Type") at 1. cbn [app].
  destruct Hp as (_ & _ & _ & (_ & _ & Ht)). rewrite trim_space, Ht. rewrite (Hlower (trim _)) by done.
  rewrite bool_decide_false by done. by rewrite bool_decide_true.
Qed.

Lemma linesOf_written ls rest : Forall (fun l => 13%N ∉ l) ls -> linesOf (write_lines_crlf ls ++ rest) = ls ++ linesOf rest.
Proof using.
  induction 1 as [|l ls Hl _ IH]; [done |].
  change (write_lines_crlf (l :: ls)) with ((l ++ crlf) ++ write_lines_crlf ls). rewrite <- !app_assoc, linesOf_line by done.
  by rewrite IH.
Qed.

Lemma part_lines boundary p rest : part_ok boundary p ->
  linesOf (part_text p ++ crlf ++ rest)
  = (utf8_encode <$> disposition_line p :: type_lines p) ++ [] :: linesOf (part_bytes p) ++ linesOf rest.
Proof using Hlower.
  intros Hp. unfold part_text. rewrite <- !app_assoc. rewrite linesOf_written.
  - rewrite linesOf_app, app_comm_cons, fmap_app, <- app_assoc. done.
  - apply Forall_fmap. rewrite app_comm_cons. apply Forall_app. split.
    + assert (Forall line_ok (disposition_line p :: type_lines p)) as Hall.
      { constructor; [by eapply disposition_line_ok |]. destruct p as [|name filename [ctype|] content]; try constructor; [| done].
        apply type_line_ok. by destruct Hp as (_ & _ & _ & ?). }
      eapply Forall_impl; [exact Hall |]. cbn. intros l (_ & _ & H & _). by apply utf8_encode_ascii.
    + constructor; [apply not_elem_of_nil | constructor].
Qed.

Definition marker (boundary : jstr) (last : bool) : list N := if last then close boundary else delimiter boundary.

Lemma markers boundary : boundary_ok boundary = true ->
  13%N ∉ marker boundary true /\ 13%N ∉ marker boundary false
  /\ same (close boundary) (delimiter boundary) = false /\ closedBy boundary (close boundary) = true.
Proof using.
  intros (Ha & H13)%boundary_ascii. unfold marker, close, delimiter.
  assert (13%N ∉ js "--") as Hd by (by apply (bool_decide_unpack _); vm_compute). split_and!.
  - apply utf8_encode_ascii; [done |]. rewrite !elem_of_app. naive_solver.
  - apply utf8_encode_ascii; [done |]. rewrite !elem_of_app. naive_solver.
  - apply bool_decide_eq_false. rewrite !utf8_encode_id by (by rewrite ?ascii_app, Ha). intros H%(f_equal length).
    rewrite !length_app in H. cbn in H. lia.
  - unfold closedBy, same. by rewrite bool_decide_true.
Qed.

Lemma content_read boundary cs last rest : boundary_ok boundary = true ->
  Forall (fun l => same l (delimiter boundary) = false /\ closedBy boundary l = false) cs ->
  content_lines boundary (cs ++ marker boundary last :: rest) = Parsed (cs, last, rest).
Proof using.
  intros Hb. destruct (markers boundary Hb) as (_ & _ & Hs & Hc).
  induction 1 as [|l cs [H1 H2] _ IH]; cbn [app content_lines].
  - destruct last; cbn [marker]; [by rewrite Hs, Hc |]. unfold same. by rewrite bool_decide_true.
  - rewrite H1, H2, IH. done.
Qed.

Lemma part_step boundary p last rest fuel doc : boundary_ok boundary = true -> part_ok boundary p ->
  parts toLowerCase (S fuel) boundary (linesOf (part_text p ++ crlf ++ marker boundary last ++ crlf ++ rest)) doc
  = if last then Parsed (read_part doc p) else parts toLowerCase fuel boundary (linesOf rest) (read_part doc p).
Proof using Hlower.
  intros Hb Hp. destruct (markers boundary Hb) as (Ht & Hf & _ & _). rewrite (part_lines boundary p) by done.
  rewrite linesOf_line by (by destruct last). cbn [parts]. rewrite header_lines_read.
  - cbn [multi_bind]. rewrite (headers_read boundary p Hp). cbn [multi_bind].
    assert (check_type toLowerCase (match p with FilePart _ _ ctype _ => ctype | _ => None end) = Parsed tt) as ->.
    { destruct p as [|name filename [ctype|] content]; try done. destruct Hp as (_ & _ & _ & Hm & Hs & _). unfold check_type. rewrite Hs.
      by destruct (media toLowerCase ctype). }
    cbn [multi_bind]. rewrite content_read; [| done | by destruct Hp]. cbn [multi_bind]. rewrite (disposition_reads p boundary Hp).
    destruct p as [name value|name filename ctype content]; cbn [multi_bind add_part part_bytes]; rewrite joined_lines.
    + destruct Hp as (_ & _ & Hu & Hw & Hbom & Hcr). rewrite (proj2 (kept_id _)) by done. rewrite text_decode_encode by done. done.
    + done.
  - constructor; [by eapply disposition_line_ok |]. destruct p as [|name filename [ctype|] content]; try constructor; [| done].
    apply type_line_ok. by destruct Hp as (_ & _ & _ & ?).
Qed.

Lemma parts_text_lines boundary ps : boundary_ok boundary = true -> forall p,
  Forall (part_ok boundary) (p :: ps) -> (S (length ps) <= length (linesOf (parts_text boundary p ps)))%nat.
Proof using Hlower.
  intros Hb. destruct (markers boundary Hb) as (Ht & Hf & _ & _).
  induction ps as [|q ps IH]; intros p [Hp Hps]%Forall_cons; cbn [parts_text]; rewrite (part_lines boundary p) by done; cbn [length fmap list_fmap];
    rewrite length_app; cbn [length]; rewrite length_app; [lia |].
  rewrite (linesOf_line (delimiter boundary)) by done. cbn [length]. specialize (IH q Hps). lia.
Qed.

Lemma parts_read boundary ps : boundary_ok boundary = true -> forall p fuel doc,
  Forall (part_ok boundary) (p :: ps) -> (S (length ps) <= fuel)%nat ->
  parts toLowerCase fuel boundary (linesOf (parts_text boundary p ps)) doc = Parsed (fold_left read_part (p :: ps) doc).
Proof using Hlower.
  intros Hb. induction ps as [|q ps IH]; intros p fuel doc [Hp Hps]%Forall_cons Hfuel; (destruct fuel as [|fuel]; [lia |]).
  - cbn [parts_text]. pose proof (part_step boundary p true [] fuel doc Hb Hp) as H. cbn [marker] in H.
    rewrite app_nil_r in H. exact H.
  - cbn [parts_text]. pose proof (part_step boundary p false (parts_text boundary q ps) fuel doc Hb Hp) as H. cbn [marker] in H.
    rewrite H. cbn [length] in Hfuel. rewrite IH by (done || lia). done.
Qed.
End reading.

(** C34. A body of text parts and files that a body can carry, under any boundary that
    none of their lines spells, is read as exactly those parts in their order: names
    and file names through their escapes, texts through UTF-8, media types as given,
    and the bytes of files.  Names, file names and texts are well-formed UTF-16, names
    and file names hold no semicolon and no line end,
    texts begin with neither a line break nor a byte order mark, and media types are
    valid, trimmed and not multipart.  The bytes of a file are kept unless it begins
    with line breaks: then the parser drops them and pads the end with as many zero
    bytes. *)
Theorem multipart_reads_back toLowerCase boundary ps :
  (forall s, ascii_text s = true -> toLowerCase s = ascii_lower s) ->
  boundary_ok boundary = true -> Forall (part_ok toLowerCase boundary) ps ->
  decodeMultipart toLowerCase (body_text boundary ps) boundary = Parsed (fold_left read_part ps (mkDocument [] []))
  /\ forall content, (kept content = content <-> starts_with content crlf = false)
     /\ kept (crlf ++ content) = (leading_breaks content).2 ++ replicate (2 * S (leading_breaks content).1) 0%N.
Proof.
  intros Hlower Hb Hps. split; [| intros content; split; [apply kept_id | done]].
  unfold decodeMultipart. rewrite Hb. cbn [negb]. destruct (markers boundary Hb) as (Ht & Hf & Hs & Hc).
  destruct ps as [|p ps]; cbn [body_text].
  - rewrite <- (app_nil_r crlf), linesOf_line by done. cbn [preamble]. by rewrite Hs, Hc.
  - rewrite linesOf_line by done. cbn [preamble]. unfold same. rewrite bool_decide_true by done. cbn [multi_bind].
    apply parts_read; [done | done | done |]. pose proof (parts_text_lines toLowerCase Hlower boundary ps Hb p Hps). lia.
Qed.

Definition demo_parts : list form_part :=
  [TextPart (js "note") (js "hi"); FilePart (js "doc") (js "a.txt") (Some (js "text/plain; charset=utf-8")) (js "x" ++ crlf ++ js "y");
   FilePart (js "doc") (js "b.bin") None (crlf ++ js "ab")].

Lemma multipart_reads_back_witness :
  decodeMultipart ascii_lower (body_text (js "b") demo_parts) (js "b")
  = Parsed (mkDocument [(js "note", js "hi")]
      [mkFile (js "doc") (js "a.txt") (js "text/plain; charset=utf-8") (js "x" ++ crlf ++ js "y");
       mkFile (js "doc") (js "b.bin") (js "application/octet-stream") (js "ab" ++ [0; 0]%N)]).
Proof.
  assert (Forall (part_ok ascii_lower (js "b")) demo_parts) as H.
  { assert (forall s, bool_decide (13%N ∉ s) && bool_decide (10%N ∉ s) && bool_decide (59%N ∉ s) && is_units s && is_well_formed s = true -> name_ok s) as Hname.
    { intros s. rewrite !andb_true_iff, !bool_decide_eq_true. unfold name_ok. tauto. }
    repeat constructor; try (by apply Hname; vm_compute); try (by vm_compute); by intros Hm; vm_compute in Hm. }
  exact (proj1 (multipart_reads_back ascii_lower (js "b") demo_parts (fun s _ => eq_refl) eq_refl H)).
Defined.

(** The header is cut at semicolons even inside quotes: such a file name is refused. *)
Example semicolon_in_filename :
  dispositionOf ascii_lower (js "form-data; name=" ++ quote (js "f") ++ js "; filename=" ++ quote (js "a;b.txt"))
  = Issue multipart_frame.
Proof. reflexivity. Qed.

Example media_types :
  media ascii_lower (js "Text/HTML ; Charset=" ++ quote (js "utf-8") ++ js ";q=1 ")
    = Some (js "text/html", [(js "charset", js "utf-8"); (js "q", js "1")])
  /\ media ascii_lower (js "text/html;") = None /\ media ascii_lower (js "text/html;a=1;A=2") = None.
Proof. vm_compute. done. Qed.
