(* ===== verification/WebSocket.v ===== *)
(** * WebSocket sessions

    [src/runtime/platform/websocket.ts]: the pump between the native hooks and the
    reader of a session, the hooks of servers with their registry, sending and
    closing.  Tokens, leases and the native handshake are left to their owners; a
    native call is recorded. *)
From stdpp Require Import base gmap list strings.
From Stdlib Require Import ZArith Lia.
From S2P Require Import Prelude JsNumber JsString Unicode Codec JsonCodec.

(** ** The pump *)

Inductive ws_event : Type :=
| TextEvent (text : jstr)
| BinaryEvent (data : list N)
| DrainEvent
| CloseEvent (code : Z) (reason : jstr).

#[global] Instance ws_event_eq_dec : EqDecision ws_event.
Proof. solve_decision. Defined.

Module Pump.

Inductive EventTake : Type :=
| Event (value : ws_event)
| End
| Failed (reason : string)
| Interrupted.

Record pump : Type := mkPump {
  queue : list (ws_event * bool);
  waiters : list nat;
  terminal : option EventTake;
  interrupted : bool;
  disposed : bool;
  drainPending : bool
}.

Definition createPump : pump := mkPump [] [] None false false false.

(** What answers the waiting takes, each by its number. *)
Abbreviation answers := (list (nat * EventTake)).

Definition each (take : EventTake) (ws : list nat) : answers := (fun w => (w, take)) <$> ws.

Definition wake (take : EventTake) (p : pump) : pump * answers :=
  (mkPump (queue p) [] (terminal p) (interrupted p) (disposed p) (drainPending p), each take (waiters p)).

Definition settle (take : EventTake) (p : pump) : pump * answers :=
  match terminal p with
  | Some _ => (p, [])
  | None =>
      wake take (mkPump (match take with Failed _ => [] | _ => queue p end) (waiters p) (Some take)
                   (interrupted p) (disposed p) (drainPending p))
  end.

Definition dropped (p : pump) : bool := match terminal p with Some _ => true | None => disposed p end.

(** [waiters.shift()] *)
Definition hand (value : ws_event) (ws : list nat) (p : pump) : pump :=
  mkPump (queue p) ws (terminal p) (interrupted p) (disposed p) (drainPending p).

Definition enqueue (value : ws_event) (drain : bool) (p : pump) : pump :=
  mkPump (queue p ++ [(value, drain)]) (waiters p) (terminal p) (interrupted p) (disposed p) (drain || drainPending p).

Definition push (maxQueued : Z) (value : ws_event) (p : pump) : pump * answers :=
  if dropped p then (p, [])
  else
    match waiters p with
    | w :: ws => (hand value ws p, [(w, Event value)])
    | [] =>
        if maxQueued <=? Z.of_nat (length (queue p)) then settle (Failed "queue_overrun") p
        else (enqueue value false p, [])
    end.

Definition pushDrain (value : ws_event) (p : pump) : pump * answers :=
  if dropped p || drainPending p then (p, [])
  else
    match waiters p with
    | w :: ws => (hand value ws p, [(w, Event value)])
    | [] => (enqueue value true p, [])
    end.

Definition pushClose (value : ws_event) (p : pump) : pump * answers :=
  if dropped p then (p, [])
  else
    match waiters p with
    | w :: ws => let (p, woken) := settle End (hand value ws p) in (p, (w, Event value) :: woken)
    | [] => settle End (enqueue value false p)
    end.

Definition fail (reason : string) (p : pump) : pump * answers :=
  if disposed p then (p, []) else settle (Failed reason) p.

Definition take (w : nat) (p : pump) : pump * answers :=
  match queue p with
  | (value, drain) :: rest =>
      (mkPump rest (waiters p) (terminal p) (interrupted p) (disposed p) (if drain : bool then false else drainPending p),
       [(w, Event value)])
  | [] =>
      match terminal p with
      | Some t => (p, [(w, t)])
      | None =>
          if disposed p then (p, [(w, End)])
          else if interrupted p then (p, [(w, Interrupted)])
          else (mkPump [] (waiters p ++ [w]) None (interrupted p) (disposed p) (drainPending p), [])
      end
  end.

Definition interrupt (p : pump) : pump * answers :=
  wake Interrupted (mkPump (queue p) (waiters p) (terminal p) true (disposed p) (drainPending p)).

Definition dispose (p : pump) : pump :=
  mkPump [] (waiters p) (terminal p) (interrupted p) true false.

Inductive op : Type :=
| Push (value : ws_event)
| PushDrain (value : ws_event)
| PushClose (value : ws_event)
| Fail (reason : string)
| Take (w : nat)
| Interrupt
| Dispose.

Definition apply (maxQueued : Z) (o : op) (p : pump) : pump * answers :=
  match o with
  | Push v => push maxQueued v p
  | PushDrain v => pushDrain v p
  | PushClose v => pushClose v p
  | Fail r => fail r p
  | Take w => take w p
  | Interrupt => interrupt p
  | Dispose => (dispose p, [])
  end.

(** The value that a call of the native side adds to the stream, if it does. *)
Definition accepts (maxQueued : Z) (o : op) (p : pump) : list ws_event :=
  if dropped p then []
  else
    match o with
    | Push v => match waiters p with [] => if maxQueued <=? Z.of_nat (length (queue p)) then [] else [v] | _ => [v] end
    | PushDrain v => if drainPending p then [] else [v]
    | PushClose v => [v]
    | _ => []
    end.

Fixpoint trace (maxQueued : Z) (os : list op) (p : pump) : pump * answers * list ws_event :=
  match os with
  | [] => (p, [], [])
  | o :: os =>
      let (p1, out) := apply maxQueued o p in
      let '(p2, outs, values) := trace maxQueued os p1 in
      (p2, out ++ outs, accepts maxQueued o p ++ values)
  end.

(** A history: the pump it leaves, and what answered its takes. *)
Fixpoint run (maxQueued : Z) (os : list op) (p : pump) : pump * answers :=
  match os with
  | [] => (p, [])
  | o :: os =>
      let (p1, out) := apply maxQueued o p in
      let (p2, outs) := run maxQueued os p1 in
      (p2, out ++ outs)
  end.

Definition asked (os : list op) : list nat := omap (fun o => match o with Take w => Some w | _ => None end) os.

Definition delivered (outs : answers) : list ws_event :=
  omap (fun o => match o.2 with Event v => Some v | _ => None end) outs.

Definition final (t : EventTake) : bool := match t with End | Failed _ => true | _ => false end.
Definition failed (p : pump) : bool := match terminal p with Some (Failed _) => true | _ => disposed p end.

(** The reader is released only when no take waits. *)
Fixpoint released_idle (maxQueued : Z) (os : list op) (p : pump) : bool :=
  match os with
  | [] => true
  | o :: os =>
      match o, waiters p with Dispose, _ :: _ => false | _, _ => true end && released_idle maxQueued os (apply maxQueued o p).1
  end.

(** ** What holds of every pump *)
Definition is_drain (e : ws_event * bool) : bool := e.2.
Definition drains (p : pump) : list (ws_event * bool) := filter (fun e => is_drain e = true) (queue p).
Definition data (p : pump) : list (ws_event * bool) := filter (fun e => is_drain e = false) (queue p).

Record inv (maxQueued : Z) (p : pump) : Prop := {
  inv_waiters : waiters p <> [] -> queue p = [] /\ terminal p = None /\ interrupted p = false /\ disposed p = false;
  inv_terminal : match terminal p with Some t => final t = true | None => True end;
  inv_failed : failed p = true -> queue p = [];
  inv_drains : (length (drains p) <= (if drainPending p then 1 else 0))%nat;
  inv_data : Z.of_nat (length (data p)) <= maxQueued + match terminal p with Some End => 1 | _ => 0 end
}.

(** Nothing more will be delivered. *)
Definition ended (p : pump) : Prop := queue p = [] /\ dropped p = true.

Record stepped (maxQueued : Z) (o : op) (p p' : pump) (out : answers) : Prop := {
  step_inv : inv maxQueued p';
  step_asked : out.*1 ++ waiters p' = waiters p ++ asked [o];
  step_kept : failed p' = false -> delivered out ++ (queue p').*1 = (queue p).*1 ++ accepts maxQueued o p;
  step_prefix : delivered out `prefix_of` (queue p).*1 ++ accepts maxQueued o p;
  step_final : forall a w t b, out = a ++ (w, t) :: b -> final t = true -> delivered b = [] /\ ended p';
  step_ended : ended p -> ended p' /\ delivered out = []
}.

Lemma delivered_each t ws : final t = true \/ t = Interrupted -> delivered (each t ws) = [].
Proof. intros Ht. induction ws as [|w ws IH]; [done |]. cbn. destruct Ht as [Ht| ->]; [by destruct t |]; done. Qed.

Lemma each_ids t ws : (each t ws).*1 = ws.
Proof. unfold each. rewrite <- list_fmap_compose. apply list_fmap_id. Qed.

Lemma drains_enqueue v d p : drains (enqueue v d p) = drains p ++ (if d then [(v, d)] else []).
Proof. unfold drains, enqueue. cbn [queue]. rewrite filter_app. f_equal. by destruct d. Qed.

Lemma data_enqueue v d p : data (enqueue v d p) = data p ++ (if d then [] else [(v, d)]).
Proof. unfold data, enqueue. cbn [queue]. rewrite filter_app. f_equal. by destruct d. Qed.

Lemma data_length p : (length (data p) <= length (queue p))%nat.
Proof. apply length_filter. Qed.

Lemma empty_inv maxQueued p : 0 <= maxQueued -> queue p = [] ->
  (waiters p <> [] -> terminal p = None /\ interrupted p = false /\ disposed p = false) ->
  match terminal p with Some t => final t = true | None => True end -> inv maxQueued p.
Proof.
  intros Hmax Hq Hw Ht. split; [intros H; split; [done | by apply Hw] | done | done | |]; unfold drains, data; rewrite Hq; cbn.
  - destruct (drainPending p); lia.
  - repeat case_match; lia.
Qed.

Lemma dropped_split p : dropped p = false -> terminal p = None /\ disposed p = false.
Proof. unfold dropped. by destruct (terminal p). Qed.

(** A pump that drops everything changes nothing. *)
Lemma dropped_step maxQueued o p : inv maxQueued p -> accepts maxQueued o p = [] -> asked [o] = [] -> stepped maxQueued o p p [].
Proof.
  intros Hp Ha Hq. split; [done | by rewrite Hq, app_nil_r | by rewrite Ha, app_nil_r | apply prefix_nil | | by split].
  intros a w t b H. by destruct a.
Qed.

Lemma step_fail maxQueued r p : inv maxQueued p -> 0 <= maxQueued ->
  stepped maxQueued (Fail r) p (fail r p).1 (fail r p).2.
Proof.
  intros Hp Hmax. unfold fail. destruct (disposed p) eqn:Hd; [cbn [fst snd]; by apply dropped_step; [| unfold accepts; destruct (dropped p) |] |].
  unfold settle. destruct (terminal p) as [t|] eqn:Ht; [cbn [fst snd]; by apply dropped_step; [| unfold accepts; destruct (dropped p) |] |].
  cbn [wake fst snd queue waiters terminal interrupted disposed drainPending]. split; cbn [queue waiters terminal].
  - by apply empty_inv.
  - by rewrite each_ids.
  - done.
  - rewrite delivered_each by by left. apply prefix_nil.
  - intros a w t b Hout _. split; [| done]. assert (delivered (each (Failed r) (waiters p)) = []) as Hnone by by apply delivered_each; left.
    rewrite Hout in Hnone. unfold delivered in *. rewrite omap_app in Hnone. apply app_eq_nil in Hnone as [_ Hnone].
    cbn in Hnone. by destruct (match t with Event v => Some v | _ => None end).
  - intros [Hq Hdr]. unfold dropped in Hdr. rewrite Ht in Hdr. congruence.
Qed.

Lemma step_push maxQueued v p : inv maxQueued p -> 0 <= maxQueued ->
  stepped maxQueued (Push v) p (push maxQueued v p).1 (push maxQueued v p).2.
Proof.
  intros Hp Hmax. unfold push. destruct (dropped p) eqn:Hdrop; [cbn [fst snd]; by apply dropped_step; [| unfold accepts; rewrite Hdrop |] |].
  destruct (dropped_split p Hdrop) as [Ht Hd]. destruct (waiters p) as [|w ws] eqn:Hw.
  - destruct (Z.leb_spec maxQueued (Z.of_nat (length (queue p)))) as [Hfull|Hroom].
    + pose proof (step_fail maxQueued "queue_overrun" p Hp Hmax) as H. unfold fail in H. rewrite Hd in H.
      assert (accepts maxQueued (Push v) p = accepts maxQueued (Fail "queue_overrun") p) as Ha.
      { unfold accepts. rewrite Hdrop, Hw. by rewrite (proj2 (Z.leb_le _ _)). }
      destruct H as [H1 H2 H3 H4 H5 H6]. rewrite <- Ha in H3, H4. by split.
    + cbn [fst snd enqueue]. assert (accepts maxQueued (Push v) p = [v]) as Ha.
      { unfold accepts. rewrite Hdrop, Hw. by rewrite (proj2 (Z.leb_gt _ _)). }
      split; cbn [queue waiters terminal enqueue]; rewrite ?Ha.
      * split; rewrite ?drains_enqueue, ?data_enqueue, ?app_nil_r; cbn [enqueue queue waiters terminal interrupted disposed drainPending];
          unfold failed; cbn [enqueue terminal disposed]; rewrite ?Ht, ?Hd, ?Hw; try done.
        -- apply (inv_drains _ _ Hp).
        -- rewrite length_app. cbn [length]. pose proof (data_length p). lia.
      * by rewrite Hw.
      * intros _. by rewrite fmap_app.
      * apply prefix_nil.
      * intros a x t b H. by destruct a.
      * intros [_ H]. congruence.
  - destruct (inv_waiters _ _ Hp) as (Hq & _ & Hi & _); [by rewrite Hw |].
    assert (accepts maxQueued (Push v) p = [v]) as Ha by (unfold accepts; by rewrite Hdrop, Hw).
    cbn [fst snd hand]. split; cbn [queue waiters terminal hand]; rewrite ?Ha, ?Hq, ?Hw; try done.
    + apply empty_inv; cbn [hand queue terminal interrupted disposed]; by rewrite ?Ht, ?Hd.
    + change (asked [Push v]) with (@nil nat). by rewrite app_nil_r.
    + intros a x t b H. destruct a as [|y [|z a]]; [| done | done]. injection H as <- <- <-. done.
    + intros [_ H]. congruence.
Qed.

Lemma step_drain maxQueued v p : inv maxQueued p -> 0 <= maxQueued ->
  stepped maxQueued (PushDrain v) p (pushDrain v p).1 (pushDrain v p).2.
Proof.
  intros Hp Hmax. unfold pushDrain. destruct (dropped p) eqn:Hdrop; cbn [orb];
    [cbn [fst snd]; by apply dropped_step; [| unfold accepts; rewrite Hdrop |] |].
  destruct (dropped_split p Hdrop) as [Ht Hd]. destruct (drainPending p) eqn:Hpend;
    [cbn [fst snd]; by apply dropped_step; [| unfold accepts; rewrite Hdrop, Hpend |] |].
  assert (accepts maxQueued (PushDrain v) p = [v]) as Ha by (unfold accepts; by rewrite Hdrop, Hpend).
  destruct (waiters p) as [|w ws] eqn:Hw; cbn [fst snd]; split; cbn [hand enqueue queue waiters terminal]; rewrite ?Ha, ?Hw; try done.
  - split; rewrite ?drains_enqueue, ?data_enqueue, ?app_nil_r; cbn [enqueue queue waiters terminal interrupted disposed drainPending];
      unfold failed; cbn [enqueue terminal disposed]; rewrite ?Ht, ?Hd, ?Hw; try done.
    + rewrite length_app. cbn [length orb]. pose proof (inv_drains _ _ Hp) as H. rewrite Hpend in H. lia.
    + pose proof (inv_data _ _ Hp) as H. by rewrite Ht in H.
  - intros _. by rewrite fmap_app.
  - apply prefix_nil.
  - intros a x t b H. by destruct a.
  - intros [_ H]. congruence.
  - destruct (inv_waiters _ _ Hp) as (Hq & _ & Hi & _); [by rewrite Hw |].
    apply empty_inv; cbn [hand queue terminal interrupted disposed]; by rewrite ?Ht, ?Hd.
  - change (asked [PushDrain v]) with (@nil nat). by rewrite app_nil_r.
  - destruct (inv_waiters _ _ Hp) as (Hq & _ & Hi & _); [by rewrite Hw |]. by rewrite Hq.
  - destruct (inv_waiters _ _ Hp) as (Hq & _ & Hi & _); [by rewrite Hw |]. by rewrite Hq.
  - intros a x t b H. destruct a as [|y [|z a]]; [| done | done]. injection H as <- <- <-. done.
  - intros [_ H]. congruence.
Qed.

Lemma step_close maxQueued v p : inv maxQueued p -> 0 <= maxQueued ->
  stepped maxQueued (PushClose v) p (pushClose v p).1 (pushClose v p).2.
Proof.
  intros Hp Hmax. unfold pushClose. destruct (dropped p) eqn:Hdrop; [cbn [fst snd]; by apply dropped_step; [| unfold accepts; rewrite Hdrop |] |].
  destruct (dropped_split p Hdrop) as [Ht Hd].
  assert (accepts maxQueued (PushClose v) p = [v]) as Ha by (unfold accepts; by rewrite Hdrop).
  destruct (waiters p) as [|w ws] eqn:Hw; unfold settle; cbn [hand enqueue terminal]; rewrite Ht; cbn [wake queue waiters fst snd hand enqueue].
  - rewrite Hw. cbn [each fmap list_fmap]. split; cbn [queue waiters terminal]; rewrite ?Ha, ?Hw; try done.
    + assert (drains (enqueue v false p) = drains p /\ data (enqueue v false p) = data p ++ [(v, false)]) as [H1 H2].
      { rewrite drains_enqueue, data_enqueue. by rewrite app_nil_r. }
      split; cbn [queue waiters terminal interrupted disposed drainPending enqueue orb]; unfold failed; cbn [terminal disposed enqueue]; rewrite ?Hd; try done.
      * pose proof (inv_drains _ _ Hp) as H. rewrite <- H1 in H. exact H.
      * pose proof (inv_data _ _ Hp) as H. rewrite Ht in H. change (data _) with (data (enqueue v false p)). rewrite H2, length_app. cbn [length]. lia.
    + intros _. by rewrite fmap_app.
    + apply prefix_nil.
    + intros a x t b H. by destruct a.
    + intros [_ H]. congruence.
  - destruct (inv_waiters _ _ Hp) as (Hq & _ & Hi & _); [by rewrite Hw |].
    assert (delivered ((w, Event v) :: each End ws) = [v]) as Hdel.
    { change (delivered ((w, Event v) :: each End ws)) with (v :: delivered (each End ws)). by rewrite delivered_each by by left. }
    split; cbn [queue waiters terminal]; rewrite ?Ha, ?Hw, ?Hq, ?Hdel; try done.
    + by apply empty_inv.
    + rewrite fmap_cons, each_ids. change (asked [PushClose v]) with (@nil nat). by rewrite !app_nil_r.
    + intros a x t b H Hfin. split; [| by split]. destruct a as [|y a]; [by injection H as <- <- <- |].
      injection H as _ H. assert (delivered (each End ws) = []) as Hnone by by apply delivered_each; left.
      rewrite H in Hnone. unfold delivered in *. rewrite omap_app in Hnone. apply app_eq_nil in Hnone as [_ Hnone].
      cbn in Hnone. by destruct (match t with Event v => Some v | _ => None end).
    + intros [_ H]. congruence.
Qed.

Lemma step_take maxQueued w p : inv maxQueued p -> 0 <= maxQueued ->
  stepped maxQueued (Take w) p (take w p).1 (take w p).2.
Proof.
  intros Hp Hmax. assert (accepts maxQueued (Take w) p = []) as Ha by (unfold accepts; by destruct (dropped p)).
  unfold take. destruct (queue p) as [|[v d] rest] eqn:Hq.
  - assert (forall t, waiters p = [] -> final t = false \/ ended p -> match t with Event _ => False | _ => True end ->
      stepped maxQueued (Take w) p p [(w, t)]) as Hanswer.
    { intros t Hw Hfin Ht. split; rewrite ?Ha, ?Hq, ?Hw; try done; try by destruct t.
      intros a x t' b H Ht'. destruct a as [|y [|z a]]; [| done | done]. injection H as <- <- <-. split; [done |].
      destruct Hfin as [Hfin|]; [congruence | done]. }
    assert (waiters p <> [] -> terminal p = None /\ interrupted p = false /\ disposed p = false) as Hwait.
    { intros H. by destruct (inv_waiters _ _ Hp H). }
    assert (terminal p <> None \/ interrupted p = true \/ disposed p = true -> waiters p = []) as Hnow.
    { intros H. destruct (waiters p) as [|x ws]; [done |]. destruct (Hwait ltac:(done)) as (H1 & H2 & H3). rewrite H1, H2, H3 in H. naive_solver. }
    destruct (terminal p) as [t|] eqn:Ht.
    + cbn [fst snd]. pose proof (inv_terminal _ _ Hp) as Hfin. rewrite Ht in Hfin. apply Hanswer; [by apply Hnow; left | | by destruct t].
      right. split; [done |]. unfold dropped. by rewrite Ht.
    + destruct (disposed p) eqn:Hd; cbn [fst snd].
      { apply Hanswer; [apply Hnow; tauto | | done]. right. split; [done |]. unfold dropped. by rewrite Ht. }
      destruct (interrupted p) eqn:Hi; cbn [fst snd]; [apply Hanswer; [apply Hnow; tauto | by left | done] |].
      split; cbn [queue waiters terminal]; rewrite ?Ha, ?Hq; try done.
      * by apply empty_inv.
      * intros a x t b H. by destruct a.
      * intros [_ He]. unfold dropped in He. rewrite Ht in He. congruence.
  - assert (waiters p = []) as Hw.
    { destruct (waiters p) eqn:Hw; [done |]. destruct (inv_waiters _ _ Hp) as (H & _); [by rewrite Hw | congruence]. }
    cbn [fst snd]. split; cbn [queue waiters terminal]; rewrite ?Ha, ?Hq, ?Hw, ?app_nil_r; try done.
    + pose proof (inv_drains _ _ Hp) as H1. pose proof (inv_data _ _ Hp) as H2. pose proof (inv_failed _ _ Hp) as H3.
      unfold drains, data in H1, H2. rewrite Hq in H1, H2, H3. rewrite !filter_cons in H1, H2.
      split; cbn [queue waiters terminal interrupted disposed drainPending]; try done.
      * apply (inv_terminal _ _ Hp).
      * intros H. by specialize (H3 H).
      * unfold drains. cbn [queue]. destruct d; cbn [is_drain snd] in H1.
        -- destruct (decide (true = true)); [| done]. cbn [length] in H1. destruct (drainPending p); lia.
        -- destruct (decide (false = true)); [done |]. done.
      * unfold data. cbn [queue]. destruct d; cbn [is_drain snd] in H2.
        -- destruct (decide (true = false)); [done |]. done.
        -- destruct (decide (false = false)); [| done]. cbn [length] in H2. lia.
    + cbn. by apply prefix_cons, prefix_nil.
    + intros a x t b H. destruct a as [|y [|z a]]; [| done | done]. injection H as <- <- <-. done.
    + intros [He _]. congruence.
Qed.

Lemma step_interrupt maxQueued p : inv maxQueued p -> 0 <= maxQueued ->
  stepped maxQueued Interrupt p (interrupt p).1 (interrupt p).2.
Proof.
  intros Hp Hmax. assert (accepts maxQueued Interrupt p = []) as Ha by (unfold accepts; by destruct (dropped p)).
  unfold interrupt, wake. cbn [fst snd queue waiters terminal interrupted disposed drainPending].
  pose proof (delivered_each Interrupted (waiters p) ltac:(by right)) as Hnone.
  split; cbn [queue waiters terminal]; rewrite ?Ha, ?Hnone, ?app_nil_r; try done.
  - split; cbn [queue waiters terminal interrupted disposed drainPending]; try done; apply Hp.
  - by rewrite each_ids.
  - apply prefix_nil.
  - intros a x t b H Hfin. exfalso. assert (Forall (fun y => y.2 = Interrupted) (each Interrupted (waiters p))) as Hall.
    { unfold each. by apply Forall_fmap, Forall_true. }
    rewrite H in Hall. apply Forall_app in Hall as [_ Hall]. apply Forall_cons in Hall as [Hx _]. cbn in Hx. by subst t.
Qed.

Lemma step_dispose maxQueued p : inv maxQueued p -> 0 <= maxQueued -> waiters p = [] ->
  stepped maxQueued Dispose p (dispose p) [].
Proof.
  intros Hp Hmax Hw. assert (accepts maxQueued Dispose p = []) as Ha by (unfold accepts; by destruct (dropped p)).
  split; unfold dispose; cbn [queue waiters terminal]; rewrite ?Ha, ?Hw, ?app_nil_r; try done.
  - apply empty_inv; [done | done | done |]. apply (inv_terminal _ _ Hp).
  - unfold failed. cbn [terminal disposed]. by destruct (terminal p) as [[]|].
  - apply prefix_nil.
  - intros a x t b H. by destruct a.
  - intros [Hq Hd]. split; [| done]. split; [done |]. unfold dropped in *. cbn [terminal disposed]. by destruct (terminal p).
Qed.

Lemma step_all maxQueued o p : inv maxQueued p -> 0 <= maxQueued ->
  (match o, waiters p with Dispose, _ :: _ => false | _, _ => true end) = true ->
  stepped maxQueued o p (apply maxQueued o p).1 (apply maxQueued o p).2.
Proof.
  intros Hp Hmax Ho. destruct o; cbn [apply].
  - by apply step_push.
  - by apply step_drain.
  - by apply step_close.
  - by apply step_fail.
  - by apply step_take.
  - by apply step_interrupt.
  - apply step_dispose; [done | done |]. by destruct (waiters p).
Qed.

Lemma apply_terminal maxQueued o p t : terminal p = Some t -> terminal (apply maxQueued o p).1 = Some t.
Proof.
  intros Ht. assert (dropped p = true) as Hdr by (unfold dropped; by rewrite Ht).
  destruct o; cbn [apply]; unfold push, pushDrain, pushClose, fail, settle, take; rewrite ?Hdr, ?Ht; cbn [orb]; try done.
  - by destruct (disposed p).
  - destruct (queue p) as [|[v d] rest]; done.
Qed.

Lemma apply_disposed maxQueued o p : disposed p = true -> disposed (apply maxQueued o p).1 = true.
Proof.
  intros Hd. assert (dropped p = true) as Hdr by (unfold dropped; by destruct (terminal p)).
  destruct o; cbn [apply]; unfold push, pushDrain, pushClose, fail, take; rewrite ?Hdr, ?Hd; cbn [orb]; try done.
  destruct (queue p) as [|[v d] rest]; [by destruct (terminal p) | done].
Qed.

Lemma apply_failed maxQueued o p : failed p = true -> failed (apply maxQueued o p).1 = true.
Proof.
  unfold failed. intros Hf. destruct (terminal p) as [t|] eqn:Ht.
  - rewrite (apply_terminal maxQueued o p t Ht). destruct t; try done; by apply apply_disposed.
  - pose proof (apply_disposed maxQueued o p Hf) as ->. by destruct (terminal (apply maxQueued o p).1) as [[]|].
Qed.

Lemma trace_failed maxQueued os : forall p, failed p = true -> failed (trace maxQueued os p).1.1 = true.
Proof.
  induction os as [|o os IH]; intros p Hp; [done |]. cbn [trace]. pose proof (apply_failed maxQueued o p Hp) as H.
  destruct (apply maxQueued o p) as [p1 out]. specialize (IH p1 H). by destruct (trace maxQueued os p1) as [[p2 outs] values].
Qed.

Lemma trace_ended maxQueued os : forall p, inv maxQueued p -> 0 <= maxQueued -> released_idle maxQueued os p = true -> ended p ->
  let '(p', outs, values) := trace maxQueued os p in delivered outs = [] /\ values = [] /\ ended p'.
Proof.
  induction os as [|o os IH]; intros p Hp Hmax Hr He; [done |]. cbn [trace released_idle] in *. apply andb_true_iff in Hr as [Ho Hr].
  pose proof (step_all maxQueued o p Hp Hmax Ho) as Hs. destruct (apply maxQueued o p) as [p1 out]. cbn [fst snd] in *.
  destruct (step_ended _ _ _ _ _ Hs He) as [He1 Hd]. specialize (IH p1 (step_inv _ _ _ _ _ Hs) Hmax Hr He1).
  destruct (trace maxQueued os p1) as [[p2 outs] values]. destruct IH as (Hd2 & -> & He2).
  destruct He as [_ Hdr]. assert (accepts maxQueued o p = []) as -> by (unfold accepts; by rewrite Hdr).
  split; [| by split]. unfold delivered in *. by rewrite omap_app, Hd, Hd2.
Qed.

Lemma trace_spec maxQueued os : forall p, inv maxQueued p -> 0 <= maxQueued -> released_idle maxQueued os p = true ->
  let '(p', outs, values) := trace maxQueued os p in
  inv maxQueued p' /\ outs.*1 ++ waiters p' = waiters p ++ asked os
  /\ delivered outs `prefix_of` (queue p).*1 ++ values
  /\ (failed p' = false -> delivered outs ++ (queue p').*1 = (queue p).*1 ++ values)
  /\ (forall a w t b, outs = a ++ (w, t) :: b -> final t = true -> delivered b = []).
Proof.
  induction os as [|o os IH]; intros p Hp Hmax Hr; cbn [trace released_idle] in *.
  { split_and!; [done | by rewrite app_nil_r | apply prefix_nil | by rewrite app_nil_r |]. intros a w t b H. by destruct a. }
  apply andb_true_iff in Hr as [Ho Hr]. pose proof (step_all maxQueued o p Hp Hmax Ho) as Hs.
  destruct (apply maxQueued o p) as [p1 out]. cbn [fst snd] in *.
  pose proof (step_inv _ _ _ _ _ Hs) as Hp1. pose proof (IH p1 Hp1 Hmax Hr) as H.
  pose proof (trace_ended maxQueued os p1 Hp1 Hmax Hr) as Hend.
  destruct (trace maxQueued os p1) as [[p2 outs] values] eqn:Hrun. destruct H as (Hp2 & Hids & Hpre & Hkeep & Hfin).
  assert (delivered (out ++ outs) = delivered out ++ delivered outs) as Happ by (unfold delivered; by rewrite omap_app).
  assert (asked (o :: os) = asked [o] ++ asked os) as Hasked by (unfold asked; by destruct o).
  split_and!.
  - done.
  - rewrite fmap_app, <- app_assoc, Hids, app_assoc, (step_asked _ _ _ _ _ Hs), <- app_assoc. by rewrite <- Hasked.
  - rewrite Happ. destruct (failed p1) eqn:Hf1.
    + assert (ended p1) as He.
      { split; [by apply (inv_failed _ _ Hp1) |]. unfold failed in Hf1. unfold dropped. by destruct (terminal p1) as [[]|]. }
      destruct (Hend He) as (-> & -> & _). rewrite !app_nil_r. apply (step_prefix _ _ _ _ _ Hs).
    + rewrite app_assoc, <- (step_kept _ _ _ _ _ Hs Hf1), <- app_assoc. by apply prefix_app.
  - intros Hf2. rewrite Happ. destruct (failed p1) eqn:Hf1.
    + pose proof (trace_failed maxQueued os p1 Hf1) as H. rewrite Hrun in H. cbn in H. congruence.
    + rewrite <- app_assoc, (Hkeep Hf2), app_assoc, (step_kept _ _ _ _ _ Hs Hf1). by rewrite <- app_assoc.
  - intros a w t b Hout Ht. apply app_eq_inv in Hout as [(k & -> & Hk)|(k & -> & Hk)].
    + destruct k as [|x k]; cbn in Hk.
      * by apply (Hfin [] w t b).
      * injection Hk as <- ->. destruct (step_final _ _ _ _ _ Hs a w t k eq_refl Ht) as [Hd He].
        destruct (Hend He) as (Hd2 & _). unfold delivered in *. by rewrite omap_app, Hd, Hd2.
    + by apply (Hfin k w t b).
Qed.

(** ** What the native side pushed *)

(** The native side pushes drains as such and nothing else as a drain. *)
Definition proper (o : op) : Prop :=
  match o with Push v | PushClose v => v <> DrainEvent | PushDrain v => v = DrainEvent | _ => True end.

(** The messages of a history, up to its first close and with it. *)
Fixpoint offered (os : list op) : list ws_event :=
  match os with
  | [] => []
  | Push v :: os => v :: offered os
  | PushClose v :: _ => [v]
  | _ :: os => offered os
  end.

Definition drain_free (l : list ws_event) : list ws_event := filter (fun v => v <> DrainEvent) l.
Definition drain_count (l : list ws_event) : nat := length (filter (fun v => v = DrainEvent) l).
Definition is_push_drain (o : op) : bool := match o with PushDrain _ => true | _ => false end.

Lemma trace_run maxQueued os : forall p, run maxQueued os p = (trace maxQueued os p).1.
Proof.
  induction os as [|o os IH]; intros p; [done |]. cbn [run trace]. destruct (apply maxQueued o p) as [p1 out].
  rewrite IH. by destruct (trace maxQueued os p1) as [[p2 outs] values].
Qed.

Lemma run_app maxQueued os1 os2 p :
  run maxQueued (os1 ++ os2) p
  = let (p1, outs1) := run maxQueued os1 p in let (p2, outs2) := run maxQueued os2 p1 in (p2, outs1 ++ outs2).
Proof.
  revert p. induction os1 as [|o os1 IH]; intros p; cbn [app run]; [by destruct (run maxQueued os2 p) |].
  destruct (apply maxQueued o p) as [p1 out]. rewrite IH. destruct (run maxQueued os1 p1) as [p2 outs1].
  destruct (run maxQueued os2 p2) as [p3 outs2]. by rewrite app_assoc.
Qed.

Lemma apply_dropped maxQueued o p : dropped p = true -> dropped (apply maxQueued o p).1 = true.
Proof.
  unfold dropped. destruct (terminal p) as [t|] eqn:Ht.
  - intros _. by rewrite (apply_terminal _ _ _ t Ht).
  - intros Hd. rewrite (apply_disposed _ _ _ Hd). by destruct (terminal (apply maxQueued o p).1).
Qed.

(** How each operation leaves a live pump: live, closed or failed. *)
Lemma apply_live maxQueued o p : dropped p = false ->
  let p1 := (apply maxQueued o p).1 in
  match o with
  | Push v => (dropped p1 = false /\ accepts maxQueued o p = [v])
      \/ (failed p1 = true /\ accepts maxQueued o p = [] /\ maxQueued <= Z.of_nat (length (queue p)))
  | PushDrain v => dropped p1 = false /\ (accepts maxQueued o p = [v] \/ accepts maxQueued o p = [])
  | PushClose v => dropped p1 = true /\ failed p1 = false /\ accepts maxQueued o p = [v]
  | Fail _ | Dispose => failed p1 = true /\ accepts maxQueued o p = []
  | Take _ | Interrupt => dropped p1 = false /\ accepts maxQueued o p = []
  end.
Proof.
  intros Hl. destruct (dropped_split p Hl) as [Ht Hd].
  destruct o; cbn [apply]; unfold accepts, push, pushDrain, pushClose, fail, take, settle; rewrite ?Hl, ?Hd, ?Ht; cbn [orb].
  - destruct (waiters p); [| left; unfold dropped; cbn; by rewrite Ht].
    destruct (Z.leb_spec maxQueued (Z.of_nat (length (queue p)))); [right | left; unfold dropped; cbn; by rewrite Ht].
    by unfold failed.
  - destruct (drainPending p); [by split; [| right] |]. destruct (waiters p); unfold dropped; cbn; rewrite Ht; by split; [| left].
  - destruct (waiters p); cbn [hand enqueue terminal]; rewrite Ht; unfold dropped, failed; cbn; by rewrite ?Hd.
  - by unfold failed.
  - destruct (queue p) as [|[v d] rest]; [destruct (interrupted p) |]; unfold dropped; cbn; by rewrite ?Ht, ?Hd.
  - unfold dropped, interrupt. cbn. by rewrite Ht.
  - unfold failed, dispose. cbn. by rewrite Ht.
Qed.

Lemma failed_dropped p : failed p = true -> dropped p = true.
Proof. unfold failed, dropped. by destruct (terminal p) as [[]|]. Qed.

Lemma trace_dropped maxQueued os : forall p, dropped p = true -> (trace maxQueued os p).2 = [].
Proof.
  induction os as [|o os IH]; intros p Hp; [done |]. cbn [trace]. pose proof (apply_dropped maxQueued o p Hp) as H.
  destruct (apply maxQueued o p) as [p1 out]. specialize (IH p1 H). destruct (trace maxQueued os p1) as [[p2 outs] values].
  cbn in *. subst values. unfold accepts. by rewrite Hp.
Qed.

(** What a live pump accepts is what is offered, as long as it does not fail. *)
Lemma trace_offered maxQueued os : Forall proper os -> forall p, dropped p = false ->
  let '(p', _, values) := trace maxQueued os p in
  drain_free values `prefix_of` offered os /\ (failed p' = false -> drain_free values = offered os).
Proof.
  induction 1 as [|o os Ho _ IH]; intros p Hp; cbn [trace]; [done |].
  pose proof (apply_live maxQueued o p Hp) as Hlive. destruct (apply maxQueued o p) as [p1 out]. cbn [fst] in Hlive.
  specialize (IH p1). pose proof (trace_dropped maxQueued os p1) as Hdrop. pose proof (trace_failed maxQueued os p1) as Hfail.
  destruct (trace maxQueued os p1) as [[p2 outs] values]. cbn [fst snd] in *.
  assert (forall l, failed p1 = true -> accepts maxQueued o p = [] ->
    drain_free (accepts maxQueued o p ++ values) `prefix_of` l /\ (failed p2 = false -> drain_free (accepts maxQueued o p ++ values) = l)) as Hend.
  { intros l Hf ->. rewrite Hdrop by by apply failed_dropped. split; [apply prefix_nil | by rewrite Hfail]. }
  assert (forall v, v <> DrainEvent -> drain_free ([v] ++ values) = v :: drain_free values) as Hcons.
  { intros v Hv. unfold drain_free. cbn [app]. by rewrite filter_cons_True. }
  destruct o as [v|v|v|r|w| |]; cbn [proper offered] in *.
  - destruct Hlive as [[Hl ->] | (Hf & Ha & _)]; [| by apply Hend]. rewrite Hcons by done. destruct (IH Hl) as [H1 H2].
    split; [by apply prefix_cons | intros Hf; by rewrite H2].
  - subst v. destruct Hlive as [Hl [-> | ->]]; by apply IH.
  - destruct Hlive as (Hl & _ & ->). rewrite Hdrop by done. unfold drain_free. cbn [app]. by rewrite filter_cons_True.
  - destruct Hlive. by apply Hend.
  - destruct Hlive as [Hl ->]. by apply IH.
  - destruct Hlive as [Hl ->]. by apply IH.
  - destruct Hlive. by apply Hend.
Qed.

Lemma drain_count_app a b : drain_count (a ++ b) = (drain_count a + drain_count b)%nat.
Proof. unfold drain_count. by rewrite filter_app, length_app. Qed.

(** No more drains are accepted than pushed. *)
Lemma trace_drains maxQueued os : Forall proper os -> forall p,
  (drain_count (trace maxQueued os p).2 <= length (List.filter is_push_drain os))%nat.
Proof.
  induction 1 as [|o os Ho _ IH]; intros p; cbn [trace]; [done |].
  assert (drain_count (accepts maxQueued o p) <= length (List.filter is_push_drain [o]))%nat as Ha.
  { unfold accepts. destruct (dropped p); [cbn; lia |]. destruct o; cbn [proper] in Ho; repeat case_match; unfold drain_count;
      first [rewrite filter_cons_False by done; cbn; lia | rewrite filter_cons_True by done; cbn; lia | cbn; lia]. }
  destruct (apply maxQueued o p) as [p1 out]. specialize (IH p1). destruct (trace maxQueued os p1) as [[p2 outs] values].
  cbn [fst snd] in *. rewrite drain_count_app. change (o :: os) with ([o] ++ os). rewrite List.filter_app, length_app. lia.
Qed.

(** A pump fails only when it is told to, released, or overrun. *)
Lemma run_failure maxQueued os : forall p, failed p = false -> failed (run maxQueued os p).1 = true ->
  (exists r, Fail r ∈ os) \/ Dispose ∈ os
  \/ exists pre v post, os = pre ++ Push v :: post /\ maxQueued <= Z.of_nat (length (queue (run maxQueued pre p).1)).
Proof.
  induction os as [|o os IH]; intros p Hp; cbn [run]; [cbn; congruence |]. intros Hf.
  assert (match o with Fail _ | Dispose => True | Push _ => failed (apply maxQueued o p).1 = true -> maxQueued <= Z.of_nat (length (queue p))
    | _ => failed (apply maxQueued o p).1 = false end) as Hstep.
  { destruct (dropped p) eqn:Hd.
    - assert (disposed p = false /\ terminal p <> None) as [Hdis Ht].
      { unfold failed, dropped in *. destruct (terminal p) as [[]|]; try done; congruence. }
      destruct (terminal p) as [t|] eqn:Hterm; [| done].
      assert (forall o, disposed (apply maxQueued o p).1 = false \/ o = Dispose) as Hkeep.
      { intros o'. destruct o'; cbn [apply]; unfold push, pushDrain, pushClose, fail, take, settle; rewrite ?Hd, ?Hdis, ?Hterm; cbn; try (by left); [| by right].
        destruct (queue p) as [|[]]; by left. }
      destruct o; try done; [intros Hx; exfalso; revert Hx; apply not_true_iff_false | ..];
        match goal with |- failed (apply _ ?o _).1 = _ =>
          unfold failed; rewrite (apply_terminal _ _ _ t Hterm); destruct (Hkeep o) as [->|]; [| done] end;
        unfold failed in Hp; rewrite Hterm in Hp; by destruct t.
    - pose proof (apply_live maxQueued o p Hd) as Hl. cbn zeta in Hl.
      assert (forall q, dropped q = false -> failed q = false) as Hlive.
      { intros q Hq. destruct (failed q) eqn:Hfq; [| done]. by rewrite (failed_dropped q Hfq) in Hq. }
      destruct o; try done; [intros Hx; destruct Hl as [[Hl _] | (_ & _ & H)]; [by rewrite (Hlive _ Hl) in Hx | done] | ..];
        try (apply Hlive; tauto); tauto. }
  assert (failed (apply maxQueued o p).1 = false -> (exists r, Fail r ∈ o :: os) \/ Dispose ∈ o :: os
    \/ exists pre v post, o :: os = pre ++ Push v :: post /\ maxQueued <= Z.of_nat (length (queue (run maxQueued pre p).1))) as Hnext.
  { intros H1. destruct (apply maxQueued o p) as [p1 out] eqn:Hap. cbn [fst] in H1. specialize (IH p1 H1).
    destruct (run maxQueued os p1) as [p2 outs]. cbn [fst] in *. destruct (IH Hf) as [[r Hr] | [Hr | (pre & v & post & -> & Hq)]].
    - left. exists r. by right.
    - right. left. by right.
    - right. right. exists (o :: pre), v, post. split; [done |]. cbn [run]. rewrite Hap. by destruct (run maxQueued pre p1). }
  destruct (failed (apply maxQueued o p).1) eqn:H1; [| by apply Hnext].
  destruct o as [v|v|v|r|w| |]; try congruence.
  - right. right. exists [], v, os. split; [done |]. cbn. by apply Hstep.
  - left. exists r. by left.
  - right. left. by left.
Qed.

Lemma run_failed maxQueued os p : failed p = true -> failed (run maxQueued os p).1 = true.
Proof. intros H. rewrite trace_run. by apply trace_failed. Qed.

(** A live pump that is told to fail, or released, has failed from then on. *)
Lemma run_told maxQueued pre o post p :
  let before := (run maxQueued pre p).1 in
  o = Dispose \/ (exists r, o = Fail r) -> dropped before = false -> failed (run maxQueued (pre ++ o :: post) p).1 = true.
Proof.
  cbn zeta. intros Ho Hl. rewrite run_app. destruct (run maxQueued pre p) as [p1 outs1]. cbn [fst run] in *.
  pose proof (apply_live maxQueued o p1 Hl) as H. destruct (apply maxQueued o p1) as [p2 out]. cbn [fst] in H.
  pose proof (run_failed maxQueued post p2) as Hf. destruct (run maxQueued post p2). apply Hf. by destruct Ho as [-> | [r ->]]; destruct H.
Qed.

(** *** Drains are not lost *)

Record drain_inv (p : pump) : Prop := {
  di_tags : Forall (fun e => e.2 = true <-> e.1 = DrainEvent) (queue p);
  di_pending : drainPending p = true -> failed p = false -> DrainEvent ∈ (queue p).*1
}.

Lemma drain_inv_enqueue v d p : (d = true <-> v = DrainEvent) -> drain_inv p -> drain_inv (enqueue v d p).
Proof.
  intros Hd [Ht Hp]. split; cbn [enqueue queue drainPending].
  - apply Forall_app. split; [done | by apply Forall_singleton].
  - rewrite fmap_app, elem_of_app. unfold failed in *. cbn [enqueue terminal disposed]. destruct d; [| naive_solver].
    intros _ _. right. cbn. rewrite (proj1 Hd eq_refl). by left.
Qed.

Lemma drain_inv_same p p' : queue p' = queue p -> drainPending p' = drainPending p -> (failed p = true -> failed p' = true) ->
  drain_inv p -> drain_inv p'.
Proof.
  intros Hq Hd Hf [Ht Hp]. split; rewrite ?Hq, ?Hd; [done |]. intros H1 H2. apply Hp; [done |].
  destruct (failed p); [by rewrite Hf in H2 | done].
Qed.

Lemma drain_inv_settle t p : final t = true -> drain_inv p -> drain_inv (settle t p).1.
Proof.
  intros Hfin Hp. unfold settle. destruct (terminal p) eqn:Ht; [done |]. destruct t as [v| |r|]; try done; cbn [wake fst].
  apply (drain_inv_same p); [done | done | | done]. unfold failed. cbn. by rewrite Ht.
Qed.

Lemma apply_drain_inv maxQueued o p : proper o -> drain_inv p -> drain_inv (apply maxQueued o p).1.
Proof.
  intros Ho Hp. assert (forall v ws, drain_inv (hand v ws p)) as Hhand by (intros; by apply (drain_inv_same p)).
  destruct o as [v|v|v|r|w| |]; cbn [apply proper] in *.
  - unfold push. destruct (dropped p); [done |]. destruct (waiters p) as [|w ws]; [| apply Hhand].
    destruct (_ <=? _); [by apply drain_inv_settle | by apply drain_inv_enqueue].
  - unfold pushDrain. destruct (_ || _); [done |]. destruct (waiters p) as [|w ws]; [by apply drain_inv_enqueue | apply Hhand].
  - unfold pushClose. destruct (dropped p); [done |]. destruct (waiters p) as [|w ws].
    + by apply drain_inv_settle, drain_inv_enqueue.
    + pose proof (drain_inv_settle End (hand v ws p) eq_refl (Hhand v ws)) as H. by destruct (settle End (hand v ws p)).
  - unfold fail. destruct (disposed p); [done | by apply drain_inv_settle].
  - unfold take. destruct (queue p) as [|[v d] rest] eqn:Hq.
    { destruct (terminal p) eqn:Ht; [done |]. destruct (disposed p) eqn:Hd; [done |]. destruct (interrupted p); [done |].
      apply (drain_inv_same p); cbn; [by rewrite Hq | done | unfold failed; cbn; rewrite ?Ht, ?Hd; done | done]. }
    destruct Hp as [Ht Hp]. rewrite Hq in Ht, Hp. apply Forall_cons in Ht as [Hv Ht]. cbn [fst snd] in Hv.
    split; cbn [fst queue drainPending]; [done |]. destruct d; [done |]. intros H1 H2.
    specialize (Hp H1 H2). cbn in Hp. apply elem_of_cons in Hp as [Heq | Hp]; [by apply eq_sym, Hv in Heq | done].
  - by apply (drain_inv_same p).
  - split; cbn; [constructor | done].
Qed.

Lemma run_drain_inv maxQueued os : Forall proper os -> forall p, drain_inv p -> drain_inv (run maxQueued os p).1.
Proof.
  induction 1 as [|o os Ho _ IH]; intros p Hp; [done |]. cbn [run]. pose proof (apply_drain_inv maxQueued o p Ho Hp) as H.
  destruct (apply maxQueued o p) as [p1 out]. specialize (IH p1 H). by destruct (run maxQueued os p1).
Qed.

(** A drain pushed to a live pump reaches a waiting take or is in the queue. *)
Lemma drain_kept p : drain_inv p -> terminal p = None -> disposed p = false ->
  DrainEvent ∈ delivered (pushDrain DrainEvent p).2 ++ (queue (pushDrain DrainEvent p).1).*1.
Proof.
  intros [_ Hp] Ht Hd. unfold pushDrain, dropped. rewrite Ht, Hd. cbn [orb]. destruct (drainPending p) eqn:Hpend.
  - cbn. apply Hp; [done |]. unfold failed. by rewrite Ht, Hd.
  - destruct (waiters p); cbn; [| by left]. rewrite fmap_app. set_solver.
Qed.
End Pump.

(** C33. Whatever the native side and the reader do, as long as the reader is released
    only when nothing waits, and the native side pushes only drains as drains: every
    take is answered once, in the order they were asked, or still waits.  The
    messages delivered are those pushed up to the first close, in order and from
    the first on, and unless the pump failed or was released they and those in the
    queue are all of them.  A live pump fails when it is told to, and otherwise only
    at a push that finds [maxQueued] events in the queue.  A drain pushed to a live pump is delivered
    or in the queue, and no more are delivered than pushed.  The queue holds at most
    [maxQueued] messages besides the close, and one drain.  After an end or a failure
    no event comes. *)
Theorem pump_delivers_in_order maxQueued os :
  0 <= maxQueued -> Forall Pump.proper os -> Pump.released_idle maxQueued os Pump.createPump = true ->
  let '(p, outs) := Pump.run maxQueued os Pump.createPump in
  outs.*1 ++ Pump.waiters p = Pump.asked os
  /\ Pump.drain_free (Pump.delivered outs) `prefix_of` Pump.offered os
  /\ (Pump.failed p = false -> Pump.drain_free (Pump.delivered outs ++ (Pump.queue p).*1) = Pump.offered os)
  /\ (Pump.failed p = true -> (exists r, Pump.Fail r ∈ os) \/ Pump.Dispose ∈ os
      \/ exists pre v post, os = pre ++ Pump.Push v :: post
           /\ maxQueued <= Z.of_nat (length (Pump.queue (Pump.run maxQueued pre Pump.createPump).1)))
  /\ (forall pre o post, os = pre ++ o :: post -> o = Pump.Dispose \/ (exists r, o = Pump.Fail r) ->
      Pump.dropped (Pump.run maxQueued pre Pump.createPump).1 = false -> Pump.failed p = true)
  /\ (forall pre v post, os = pre ++ Pump.PushDrain v :: post ->
      let before := (Pump.run maxQueued pre Pump.createPump).1 in
      Pump.terminal before = None -> Pump.disposed before = false ->
      let (p1, out) := Pump.apply maxQueued (Pump.PushDrain v) before in
      DrainEvent ∈ Pump.delivered out ++ (Pump.queue p1).*1)
  /\ (Pump.drain_count (Pump.delivered outs) <= length (List.filter Pump.is_push_drain os))%nat
  /\ (length (Pump.drains p) <= 1)%nat
  /\ Z.of_nat (length (Pump.data p)) <= maxQueued + match Pump.terminal p with Some Pump.End => 1 | _ => 0 end
  /\ (forall a w t b, outs = a ++ (w, t) :: b -> Pump.final t = true -> Pump.delivered b = []).
Proof.
  intros Hmax Hprop Hr. assert (Pump.inv maxQueued Pump.createPump) as Hp by by apply Pump.empty_inv.
  pose proof (Pump.trace_spec maxQueued os Pump.createPump Hp Hmax Hr) as H.
  pose proof (Pump.trace_offered maxQueued os Hprop Pump.createPump eq_refl) as Hoff.
  pose proof (Pump.trace_drains maxQueued os Hprop Pump.createPump) as Hdr.
  pose proof (Pump.run_failure maxQueued os Pump.createPump eq_refl) as Hfail.
  assert (forall pre o post, os = pre ++ o :: post -> o = Pump.Dispose \/ (exists r, o = Pump.Fail r) ->
      Pump.dropped (Pump.run maxQueued pre Pump.createPump).1 = false -> Pump.failed (Pump.run maxQueued os Pump.createPump).1 = true) as Htold
    by (intros pre o post -> Ho Hl; by apply Pump.run_told).
  rewrite Pump.trace_run in *. destruct (Pump.trace maxQueued os Pump.createPump) as [[p outs] values]. cbn [fst snd] in *.
  destruct H as (Hinv & H1 & H2 & H3 & H4). destruct Hoff as [Ho1 Ho2]. cbn [app Pump.queue Pump.createPump fmap list_fmap] in H2, H3.
  split_and!; [done | | | done | exact Htold | | | | apply (Pump.inv_data _ _ Hinv) | done].
  - etransitivity; [| exact Ho1]. destruct H2 as [rest ->]. unfold Pump.drain_free. rewrite filter_app. by eexists.
  - intros Hf. rewrite <- (Ho2 Hf), <- (H3 Hf). done.
  - intros pre v post ->. set (before := (Pump.run maxQueued pre Pump.createPump).1). intros Ht Hd. apply Forall_app in Hprop as [Hpre [-> _]%Forall_cons].
    pose proof (Pump.run_drain_inv maxQueued pre Hpre Pump.createPump) as Hi.
    pose proof (Pump.drain_kept before) as Hk. cbn [Pump.apply].
    destruct (Pump.pushDrain DrainEvent before) as [p1 out]. apply Hk; [| done | done]. apply Hi. by split; [constructor |].
  - destruct H2 as [rest ->]. rewrite Pump.drain_count_app in Hdr. lia.
  - pose proof (Pump.inv_drains _ _ Hinv). destruct (Pump.drainPending p); lia.
Qed.

Lemma pump_delivers_in_order_witness :
  let os := [Pump.Take 0; Pump.Push (TextEvent (js "a")); Pump.Push (TextEvent (js "b")); Pump.PushDrain DrainEvent;
    Pump.PushDrain DrainEvent; Pump.PushClose (CloseEvent 1000 []); Pump.Take 1; Pump.Take 2; Pump.Take 3; Pump.Take 4] in
  Pump.run 1 os Pump.createPump
  = (Pump.mkPump [] [] (Some Pump.End) false false false,
     [(0%nat, Pump.Event (TextEvent (js "a"))); (1%nat, Pump.Event (TextEvent (js "b"))); (2%nat, Pump.Event DrainEvent);
      (3%nat, Pump.Event (CloseEvent 1000 [])); (4%nat, Pump.End)])
  /\ [0; 1; 2; 3; 4]%nat ++ [] = Pump.asked os.
Proof.
  split; [vm_compute; reflexivity |].
  exact (proj1 (pump_delivers_in_order 1
    [Pump.Take 0; Pump.Push (TextEvent (js "a")); Pump.Push (TextEvent (js "b")); Pump.PushDrain DrainEvent;
     Pump.PushDrain DrainEvent; Pump.PushClose (CloseEvent 1000 []); Pump.Take 1; Pump.Take 2; Pump.Take 3; Pump.Take 4]
    ltac:(lia) ltac:(by repeat constructor) eq_refl)).
Defined.

(** ** Limits *)

Definition MESSAGE_CAP : Z := 67108864.
Definition QUEUE_CAP : Z := 1024.
Definition SEND_CAP : Z := 67108864.

Definition utf8Bytes (text : jstr) : Z := byte_size text.

(** [/^[!#$%&'*+\-.^_`|~0-9A-Za-z]+$/] *)
Definition validProtocol (value : jstr) : bool :=
  negb (bool_decide (value = [])) && forallb (fun c => is_alnum c || includes_char (js "!#$%&'*+-.^_`|~") c) value.

Definition validCode (value : Z) : bool :=
  if (value <? 1000) || (4999 <? value) then false
  else if (1000 <=? value) && (value <=? 1014)
  then negb (value =? 1004) && negb (value =? 1005) && negb (value =? 1006)
  else 3000 <=? value.

Lemma validCode_spec v :
  validCode v = true <-> (1000 <= v <= 1003) \/ (1007 <= v <= 1014) \/ (3000 <= v <= 4999).
Proof.
  unfold validCode. destruct (Z.ltb_spec v 1000), (Z.ltb_spec 4999 v); cbn [orb]; try (split; [done | lia]).
  destruct (Z.leb_spec 1000 v); [| lia]. destruct (Z.leb_spec v 1014); cbn [andb].
  - destruct (Z.eqb_spec v 1004), (Z.eqb_spec v 1005), (Z.eqb_spec v 1006); cbn [negb andb]; (split; [intros; try done; lia | intros; try done; lia]).
  - rewrite Z.leb_le. lia.
Qed.

(** The first bound that is out of range. *)
Definition checkCaps (maxMessage maxQueued maxSend : Z) : option Z :=
  if (maxMessage <? 1) || (MESSAGE_CAP <? maxMessage) then Some maxMessage
  else if (maxQueued <? 1) || (QUEUE_CAP <? maxQueued) then Some maxQueued
  else if (maxSend <? 1) || (SEND_CAP <? maxSend) then Some maxSend
  else None.

(** ** Sessions *)

Record Session : Type := mkSession {
  maxMessage : Z;
  maxQueued : Z;
  maxSend : Z;
  pump_ : Pump.pump;
  socket : option nat;
  server : option nat;
  cleanClose : bool
}.

Definition with_pump (s : Session) (p : Pump.pump) : Session :=
  mkSession (maxMessage s) (maxQueued s) (maxSend s) p (socket s) (server s) (cleanClose s).
Definition with_socket (s : Session) (k : nat) : Session :=
  mkSession (maxMessage s) (maxQueued s) (maxSend s) (pump_ s) (Some k) (server s) (cleanClose s).
Definition with_clean (s : Session) (c : bool) : Session :=
  mkSession (maxMessage s) (maxQueued s) (maxSend s) (pump_ s) (socket s) (server s) c.

Inductive native_message : Type := MText (text : jstr) | MBytes (bytes : list N) | MOther.

(** What a hook does to the pump of its session. *)
Definition message_op (s : Session) (m : native_message) : Pump.op :=
  match m with
  | MText text =>
      if maxMessage s <? utf8Bytes text then Pump.Fail "message_too_large" else Pump.Push (TextEvent text)
  | MBytes bytes =>
      if maxMessage s <? Z.of_nat (length bytes) then Pump.Fail "message_too_large" else Pump.Push (BinaryEvent bytes)
  | MOther => Pump.Fail "message_type"
  end.

Definition on_pump (s : Session) (o : Pump.op) : Session * list (nat * Pump.EventTake) :=
  let (p, out) := Pump.apply (maxQueued s) o (pump_ s) in (with_pump s p, out).

Definition messageIn (s : Session) (m : native_message) : Session * list (nat * Pump.EventTake) := on_pump s (message_op s m).

Definition closeIn (s : Session) (code : option Z) (reason : option jstr) : Session * list (nat * Pump.EventTake) :=
  on_pump s (Pump.PushClose (CloseEvent (default (-1) code) (default [] reason))).

(** The module's registries, and the frames that sockets were asked to close
    with.  [detached] are sessions that left the registry: their readers still
    drain what their pumps hold. *)
Record registry : Type := mkRegistry {
  nextSession : Z;
  sessions : gmap Z Session;
  serverSessions : gmap nat (list Z);
  detached : gmap Z Session;
  closes : list (nat * option (Z * jstr))
}.

Definition no_sessions : registry := mkRegistry 0 ∅ ∅ ∅ [].

Definition put_session (w : registry) (id : Z) (s : Session) : registry :=
  mkRegistry (nextSession w) (<[id := s]> (sessions w)) (serverSessions w) (detached w) (closes w).

Definition drop_owned (owned : gmap nat (list Z)) (server : option nat) (id : Z) : gmap nat (list Z) :=
  match server with
  | None => owned
  | Some srv =>
      match owned !! srv with
      | None => owned
      | Some ids =>
          let ids := filter (fun i => i <> id) ids in
          if bool_decide (ids = []) then delete srv owned else <[srv := ids]> owned
      end
  end.

Definition unregister (w : registry) (id : Z) (s : Session) : registry :=
  mkRegistry (nextSession w) (delete id (sessions w)) (drop_owned (serverSessions w) (server s) id)
    (<[id := s]> (detached w)) (closes w).

Definition native_close (w : registry) (s : Session) (frame : option (Z * jstr)) : registry :=
  match socket s with
  | Some k => mkRegistry (nextSession w) (sessions w) (serverSessions w) (detached w) (closes w ++ [(k, frame)])
  | None => w
  end.

(** [register], without the two tokens. *)
Definition register (w : registry) (maxMessage maxQueued maxSend : Z) (server : option nat) : registry * Z :=
  let id := nextSession w + 1 in
  let s := mkSession maxMessage maxQueued maxSend Pump.createPump None server false in
  let owned :=
    match server with
    | None => serverSessions w
    | Some srv => <[srv := default [] (serverSessions w !! srv) ++ [id]]> (serverSessions w)
    end in
  (mkRegistry id (<[id := s]> (sessions w)) owned (detached w) (closes w), id).

(** The hooks of servers: [id] is what the socket's data says. *)
Definition hook (w : registry) (id : option Z) (k : Z -> Session -> registry) : registry :=
  match id with
  | Some id => match sessions w !! id with Some s => k id s | None => w end
  | None => w
  end.

Definition serverSocketOpen (w : registry) (id : option Z) (k : nat) : registry :=
  hook w id (fun id s => put_session w id (with_socket s k)).
Definition serverSocketMessage (w : registry) (id : option Z) (m : native_message) : registry :=
  hook w id (fun id s => put_session w id (messageIn s m).1).
Definition serverSocketClose (w : registry) (id : option Z) (code : option Z) (reason : option jstr) : registry :=
  hook w id (fun id s => unregister w id (closeIn s code reason).1).
Definition serverSocketDrain (w : registry) (id : option Z) : registry :=
  hook w id (fun id s => put_session w id (on_pump s (Pump.PushDrain DrainEvent)).1).

Definition stop_session (w : registry) (id : Z) : registry :=
  match sessions w !! id with
  | None => w
  | Some s =>
      native_close (unregister w id (on_pump s (Pump.Fail "server_stopped")).1) s (Some (1001, js "shutdown"))
  end.

(** An owned set is deleted when it is empty, here or by [unregister]. *)
Definition closeServerSessions (w : registry) (srv : nat) : registry :=
  match serverSessions w !! srv with
  | None => w
  | Some owned =>
      let w := fold_left stop_session owned w in
      mkRegistry (nextSession w) (sessions w) (delete srv (serverSessions w)) (detached w) (closes w)
  end.

(** A session's object, in the registry or not. *)
Definition session_object (w : registry) (id : Z) : option Session :=
  match sessions w !! id with Some s => Some s | None => detached w !! id end.

Definition update_object (w : registry) (id : Z) (s : Session) : registry :=
  match sessions w !! id with
  | Some _ => put_session w id s
  | None => mkRegistry (nextSession w) (sessions w) (serverSessions w) (<[id := s]> (detached w)) (closes w)
  end.

(** The closer of a session's token. *)
Definition close_token (w : registry) (id : Z) : registry :=
  match session_object w id with
  | None => w
  | Some s =>
      let w := native_close (update_object w id (with_clean s false)) s None in
      if cleanClose s then w
      else match sessions w !! id with Some s => unregister w id s | None => w end
  end.

Inductive close_refusal : Type := bad_code | bad_reason.

Definition check_close (code : Z) (reason : jstr) : option close_refusal :=
  if negb (validCode code) then Some bad_code
  else if negb (is_well_formed reason) || (123 <? utf8Bytes reason) then Some bad_reason
  else None.

Definition close (w : registry) (id : Z) (code : Z) (reason : jstr) : registry :=
  match session_object w id with
  | None => w
  | Some s => close_token (update_object (native_close w s (Some (code, reason))) id (with_clean s true)) id
  end.

(** ** Sending *)

(** The socket as sending finds it: the state, what is buffered, and what [send]
    does: it throws, or a server's returns what was accepted. *)
Inductive socket_view : Type :=
| ClientSocket (readyState bufferedAmount : Z) (throws : bool)
| ServerSocket (readyState : Z) (accepted : option Z).

Inductive sent : Type := Sent (bytes : Z) | SendFailed (reason : string).

Definition sendOn (s : Session) (socket : option socket_view) (bytes : Z) : sent :=
  match socket with
  | None => SendFailed "closed"
  | Some (ClientSocket readyState bufferedAmount throws) =>
      if negb (readyState =? 1) then SendFailed "closed"
      else if maxSend s <? bufferedAmount + bytes then SendFailed "blocked"
      else if throws then SendFailed "closed"
      else Sent bytes
  | Some (ServerSocket readyState accepted) =>
      if negb (readyState =? 1) then SendFailed "closed"
      else
        match accepted with
        | None => SendFailed "closed"
        | Some a => if a =? -1 then SendFailed "blocked" else Sent a
        end
  end.

(** [sendText] and [sendBytes] under their lease. *)
Definition send (s : Session) (socket : option socket_view) (bytes : Z) : sent :=
  if maxMessage s <? bytes then SendFailed "too_large" else sendOn s socket bytes.

(** ** The registry *)

Inductive hook_event : Type :=
| Register (maxMessage maxQueued maxSend : Z) (server : option nat)
| Opened (id : option Z) (k : nat)
| Message (id : option Z) (m : native_message)
| Closed (id : option Z) (code : option Z) (reason : option jstr)
| Drained (id : option Z)
| Stop (srv : nat)
| CloseToken (id : Z)
| CloseFrame (id code : Z) (reason : jstr).

Definition hook_step (w : registry) (e : hook_event) : registry :=
  match e with
  | Register m q n srv => (register w m q n srv).1
  | Opened id k => serverSocketOpen w id k
  | Message id m => serverSocketMessage w id m
  | Closed id code reason => serverSocketClose w id code reason
  | Drained id => serverSocketDrain w id
  | Stop srv => closeServerSessions w srv
  | CloseToken id => close_token w id
  | CloseFrame id code reason => close w id code reason
  end.

(** The owned sets are the sessions of their server. *)
Record registered (w : registry) : Prop := {
  reg_fresh : forall id s, sessions w !! id = Some s -> id <= nextSession w;
  reg_owned : forall srv ids, serverSessions w !! srv = Some ids -> NoDup ids;
  reg_members : forall srv id,
    id ∈ default [] (serverSessions w !! srv) <-> exists s, sessions w !! id = Some s /\ server s = Some srv
}.

Lemma registered_put w id s s' : registered w -> sessions w !! id = Some s -> server s' = server s ->
  registered (put_session w id s').
Proof.
  intros Hw Hs Hsrv. split; cbn [put_session sessions nextSession serverSessions].
  - intros j t [(-> & _)|(_ & Hj)]%lookup_insert_Some; by eapply reg_fresh.
  - apply (reg_owned _ Hw).
  - intros srv j. rewrite (reg_members _ Hw). destruct (decide (j = id)) as [->|Hj].
    + rewrite lookup_insert_eq. split.
      * intros (t & Ht & Hserver). exists s'. split; [done | congruence].
      * intros (t & [= <-] & Hserver). exists s. split; [done | congruence].
    + by rewrite lookup_insert_ne by congruence.
Qed.

Lemma registered_unregister w id s s' : registered w -> sessions w !! id = Some s -> server s' = server s ->
  registered (unregister w id s').
Proof.
  intros Hw Hs Hsrv. split; cbn [unregister sessions nextSession serverSessions].
  - intros j t [_ Hj]%lookup_delete_Some. by eapply reg_fresh.
  - intros srv ids. unfold drop_owned. destruct (server s') as [srv'|]; [| apply (reg_owned _ Hw)].
    destruct (serverSessions w !! srv') as [owned|] eqn:Ho; [| apply (reg_owned _ Hw)]. case_bool_decide.
    + intros [_ H']%lookup_delete_Some. by eapply reg_owned.
    + intros [(-> & <-)|(_ & H')]%lookup_insert_Some; [apply NoDup_filter |]; by eapply reg_owned.
  - intros srv j. assert (j ∈ default [] (drop_owned (serverSessions w) (server s') id !! srv)
      <-> j ∈ default [] (serverSessions w !! srv) /\ (server s' = Some srv -> j <> id)) as ->.
    { unfold drop_owned. destruct (server s') as [srv'|]; [| naive_solver].
      destruct (serverSessions w !! srv') as [owned|] eqn:Ho.
      - assert (forall r, r = filter (fun i => i <> id) owned -> (j ∈ r <-> j ∈ owned /\ j <> id)) as Hr.
        { intros r ->. rewrite list_elem_of_filter. tauto. }
        specialize (Hr _ eq_refl). case_bool_decide as Hnil; destruct (decide (srv = srv')) as [->|Hne].
        + rewrite lookup_delete_eq, Ho. cbn. rewrite Hnil, elem_of_nil in Hr. rewrite elem_of_nil. naive_solver.
        + rewrite lookup_delete_ne by congruence. naive_solver.
        + rewrite lookup_insert_eq, Ho. cbn. naive_solver.
        + rewrite lookup_insert_ne by congruence. naive_solver.
      - split; [| tauto]. intros Hj. split; [done |]. intros [= ->]. rewrite Ho in Hj. cbn in Hj. by apply elem_of_nil in Hj. }
    rewrite (reg_members _ Hw). destruct (decide (j = id)) as [->|Hj].
    + rewrite lookup_delete_eq. split; [| by intros (t & ? & _)]. intros [(t & Ht & Hserver) Hne]. exfalso.
      apply Hne; [| done]. congruence.
    + rewrite lookup_delete_ne by congruence. naive_solver.
Qed.

Lemma registered_same w w' : sessions w' = sessions w -> serverSessions w' = serverSessions w -> nextSession w' = nextSession w ->
  registered w -> registered w'.
Proof. intros H1 H2 H3 [Hf Ho Hm]. split; rewrite ?H1, ?H2, ?H3; done. Qed.

Lemma native_close_same w s frame :
  sessions (native_close w s frame) = sessions w /\ serverSessions (native_close w s frame) = serverSessions w
  /\ nextSession (native_close w s frame) = nextSession w /\ detached (native_close w s frame) = detached w.
Proof. unfold native_close. by destruct (socket s). Qed.

Lemma registered_close w s frame : registered w -> registered (native_close w s frame).
Proof. destruct (native_close_same w s frame) as (H1 & H2 & H3 & _). by apply registered_same. Qed.

Lemma registered_update w id s s' : registered w -> session_object w id = Some s -> server s' = server s ->
  registered (update_object w id s').
Proof.
  unfold session_object, update_object. intros Hw. destruct (sessions w !! id) as [t|] eqn:Ht.
  - intros [= ->] Hs. by eapply registered_put.
  - intros _ _. by apply (registered_same w).
Qed.

Lemma on_pump_server s o : server (on_pump s o).1 = server s.
Proof. unfold on_pump. by destruct (Pump.apply (maxQueued s) o (pump_ s)). Qed.

Lemma registered_register w m q n srv : registered w -> registered (register w m q n srv).1.
Proof.
  intros Hw. set (id := nextSession w + 1). assert (sessions w !! id = None) as Hnew.
  { destruct (sessions w !! id) as [s|] eqn:Hs; [| done]. pose proof (reg_fresh _ Hw id s Hs). unfold id in *. lia. }
  assert (forall v, id ∉ default [] (serverSessions w !! v)) as Hfree.
  { intros v Hin. apply (reg_members _ Hw) in Hin as (s & Hs & _). congruence. }
  unfold register. fold id. cbn [fst]. split; cbn [sessions nextSession serverSessions].
  - intros j s [(-> & _)|(_ & Hj)]%lookup_insert_Some; [done |]. pose proof (reg_fresh _ Hw j s Hj). unfold id. lia.
  - destruct srv as [srv|]; [| apply (reg_owned _ Hw)]. intros v ids [(<- & <-)|(_ & H)]%lookup_insert_Some; [| by eapply reg_owned].
    apply NoDup_app. split_and!.
    + destruct (serverSessions w !! srv) eqn:H; [by eapply reg_owned | constructor].
    + intros j Hj ->%list_elem_of_singleton. by eapply Hfree.
    + apply NoDup_singleton.
  - intros v j. destruct (decide (j = id)) as [->|Hj].
    + rewrite lookup_insert_eq. destruct srv as [srv|].
      * destruct (decide (v = srv)) as [->|Hv].
        -- rewrite lookup_insert_eq. cbn. split; [by eexists | intros _]. apply elem_of_app. right. by left.
        -- rewrite lookup_insert_ne by congruence. split; [intros H; by apply Hfree in H | intros (s & [= <-] & [= ->])]. done.
      * split; [intros H; by apply Hfree in H | by intros (s & [= <-] & H)].
    + rewrite lookup_insert_ne by congruence. rewrite <- (reg_members _ Hw). destruct srv as [srv|]; [| done].
      destruct (decide (v = srv)) as [->|Hv]; [| by rewrite lookup_insert_ne by congruence].
      rewrite lookup_insert_eq. cbn. rewrite elem_of_app, list_elem_of_singleton. naive_solver.
Qed.

Lemma stop_session_spec w id s : registered w -> sessions w !! id = Some s ->
  let w' := stop_session w id in
  registered w' /\ sessions w' = delete id (sessions w)
  /\ detached w' = <[id := (on_pump s (Pump.Fail "server_stopped")).1]> (detached w)
  /\ closes w' = closes w ++ match socket s with Some k => [(k, Some (1001, js "shutdown"))] | None => [] end.
Proof.
  intros Hw Hs. unfold stop_session. rewrite Hs. cbn zeta. set (s' := (on_pump s (Pump.Fail "server_stopped")).1).
  destruct (native_close_same (unregister w id s') s (Some (1001, js "shutdown"))) as (H1 & H2 & H3 & H4).
  split_and!.
  - apply registered_close. eapply registered_unregister; [done | done | apply on_pump_server].
  - by rewrite H1.
  - by rewrite H4.
  - unfold native_close. destruct (socket s); cbn; [done | by rewrite app_nil_r].
Qed.

(** The frames of a stop: one for every session with a socket. *)
Definition shutdown_frames (ids : list Z) (ss : gmap Z Session) : list (nat * option (Z * jstr)) :=
  omap (fun id => s ← ss !! id; k ← socket s; Some (k, Some (1001, js "shutdown"))) ids.

Lemma stop_all ids : forall w, registered w -> NoDup ids -> (forall id, id ∈ ids -> is_Some (sessions w !! id)) ->
  let w' := fold_left stop_session ids w in
  registered w'
  /\ (forall id, sessions w' !! id = if decide (id ∈ ids) then None else sessions w !! id)
  /\ (forall id s, id ∈ ids -> sessions w !! id = Some s -> detached w' !! id = Some (on_pump s (Pump.Fail "server_stopped")).1)
  /\ (forall id, id ∉ ids -> detached w' !! id = detached w !! id)
  /\ closes w' = closes w ++ shutdown_frames ids (sessions w).
Proof.
  induction ids as [|i ids IH]; intros w Hw Hnd Hin; cbn [fold_left].
  { cbn zeta. split_and!; [done | done | by intros id s H%elem_of_nil | done | by rewrite app_nil_r]. }
  apply NoDup_cons in Hnd as [Hi Hnd]. destruct (Hin i) as [s Hs]; [by left |].
  destruct (stop_session_spec w i s Hw Hs) as (Hw1 & Hs1 & Hd1 & Hc1). cbn zeta in *.
  assert (forall id, id ∈ ids -> sessions (stop_session w i) !! id = sessions w !! id) as Hsame.
  { intros id Hid. rewrite Hs1, lookup_delete_ne; [done |]. by intros ->. }
  destruct (IH (stop_session w i) Hw1 Hnd) as (H1 & H2 & H3 & H4 & H5).
  { intros id Hid. rewrite Hsame by done. apply Hin. by right. }
  split_and!.
  - done.
  - intros id. rewrite H2, Hs1. destruct (decide (id ∈ ids)) as [Hid|Hid].
    + by rewrite decide_True by by right.
    + destruct (decide (id = i)) as [->|Hne].
      * rewrite lookup_delete_eq. by rewrite decide_True by by left.
      * rewrite lookup_delete_ne by congruence. rewrite decide_False; [done |]. rewrite elem_of_cons. naive_solver.
  - intros id t Hid Ht. destruct (decide (id ∈ ids)) as [Hids|Hids].
    + apply H3; [done |]. by rewrite Hsame.
    + apply elem_of_cons in Hid as [->|]; [| done]. rewrite H4, Hd1, lookup_insert_eq by done. congruence.
  - intros id [Hne Hid]%not_elem_of_cons. rewrite H4, Hd1 by done. by rewrite lookup_insert_ne.
  - rewrite H5, Hc1, <- app_assoc. f_equal. unfold shutdown_frames. cbn [omap list_omap]. rewrite Hs. cbn [mbind option_bind].
    assert (omap (fun id => s ← sessions (stop_session w i) !! id; k ← socket s; Some (k, Some (1001, js "shutdown"))) ids
      = omap (fun id => s ← sessions w !! id; k ← socket s; Some (k, Some (1001, js "shutdown"))) ids) as ->.
    { clear -Hsame. induction ids as [|j ids IHj]; [done |]. cbn [omap list_omap]. rewrite Hsame by by left.
      rewrite IHj; [done |]. intros id Hid. apply Hsame. by right. }
    by destruct (socket s).
Qed.

Lemma registered_hook w id k : registered w ->
  (forall j s, sessions w !! j = Some s -> registered (k j s)) -> registered (hook w id k).
Proof. intros Hw Hk. unfold hook. destruct id as [id|]; [| done]. destruct (sessions w !! id) eqn:Hs; [by apply Hk | done]. Qed.

Lemma registered_close_token w id : registered w -> registered (close_token w id).
Proof.
  intros Hw. unfold close_token. destruct (session_object w id) as [s|] eqn:Hs; [| done].
  set (w' := native_close (update_object w id (with_clean s false)) s None).
  assert (registered w') as Hw' by (apply registered_close; by eapply registered_update).
  destruct (cleanClose s); [done |]. destruct (sessions w' !! id) as [t|] eqn:Ht; [| done]. by eapply registered_unregister.
Qed.

Lemma hook_step_registered w e : registered w -> registered (hook_step w e).
Proof.
  intros Hw. destruct e; cbn [hook_step].
  - by apply registered_register.
  - apply registered_hook; [done |]. intros j s Hs. by eapply registered_put.
  - apply registered_hook; [done |]. intros j s Hs. eapply registered_put; [done | done | apply on_pump_server].
  - apply registered_hook; [done |]. intros j s Hs. eapply registered_unregister; [done | done | apply on_pump_server].
  - apply registered_hook; [done |]. intros j s Hs. eapply registered_put; [done | done | apply on_pump_server].
  - unfold closeServerSessions. destruct (serverSessions w !! srv) as [owned|] eqn:Ho; [| done].
    assert (forall id, id ∈ owned <-> exists s, sessions w !! id = Some s /\ server s = Some srv) as Hm.
    { intros id. rewrite <- (reg_members _ Hw). by rewrite Ho. }
    destruct (stop_all owned w Hw (reg_owned _ Hw _ _ Ho)) as (H1 & H2 & _).
    { intros id (s & Hs & _)%Hm. by exists s. }
    assert (default [] (serverSessions (fold_left stop_session owned w) !! srv) = []) as Hnone.
    { apply elem_of_nil_inv. intros id Hid. apply (reg_members _ H1) in Hid as (s & Hs & Hsrv). rewrite H2 in Hs.
      case_decide as Hin; [done |]. apply Hin, Hm. by exists s. }
    destruct H1 as [Hf Hown Hmem]. split; cbn [sessions nextSession serverSessions].
    + done.
    + intros v ids [_ H]%lookup_delete_Some. by eapply Hown.
    + intros v id. rewrite <- Hmem. destruct (decide (v = srv)) as [->|Hv]; [| by rewrite lookup_delete_ne by congruence].
      rewrite lookup_delete_eq, Hnone. done.
  - by apply registered_close_token.
  - unfold close. destruct (session_object w id) as [s|] eqn:Hs; [| done]. apply registered_close_token.
    apply (registered_update _ id s); [by apply registered_close | | done].
    destruct (native_close_same w s (Some (code, reason))) as (H1 & _ & _ & H4). unfold session_object in *. rewrite H1, H4. exact Hs.
Qed.

Definition after (events : list hook_event) : registry := fold_left hook_step events no_sessions.

Lemma after_registered events : registered (after events).
Proof.
  unfold after. assert (registered no_sessions) as H.
  { split; cbn; [by intros id s H%lookup_empty_Some | by intros srv ids H%lookup_empty_Some |].
    intros srv id. rewrite lookup_empty. cbn. rewrite elem_of_nil. split; [done |]. intros (s & Hs & _). by rewrite lookup_empty in Hs. }
  revert H. generalize no_sessions. induction events as [|e events IH]; intros w Hw; [done |]. cbn [fold_left].
  apply IH. by apply hook_step_registered.
Qed.

(** After any history of openings, hooks and closings, stopping a server takes
    exactly its sessions out of the registry: each is asked to close once with a
    1001 frame when its socket is open, and its pump is ended; every other session
    stays as it was, and later hooks for the stopped ones do nothing. *)
Theorem server_stop_ends_its_sessions events srv :
  let w := after events in
  let w' := closeServerSessions w srv in
  (forall id s, sessions w !! id = Some s ->
     if decide (server s = Some srv)
     then sessions w' !! id = None
          /\ exists s', detached w' !! id = Some s' /\ (Pump.terminal (pump_ s') <> None \/ Pump.disposed (pump_ s') = true)
     else sessions w' !! id = Some s)
  /\ (forall id, sessions w !! id = None -> sessions w' !! id = None)
  /\ closes w' = closes w ++ shutdown_frames (default [] (serverSessions w !! srv)) (sessions w)
  /\ serverSessions w' !! srv = None
  /\ forall id m, sessions w' !! id = None -> serverSocketMessage w' (Some id) m = w'.
Proof.
  cbn zeta. pose proof (after_registered events) as Hw. set (w := after events) in *.
  assert (forall w' id m, sessions w' !! id = None -> serverSocketMessage w' (Some id) m = w') as Hlate.
  { intros w' id m H. unfold serverSocketMessage, hook. by rewrite H. }
  assert (forall id, id ∈ default [] (serverSessions w !! srv) <-> exists s, sessions w !! id = Some s /\ server s = Some srv) as Hm.
  { intros id. apply (reg_members _ Hw). }
  unfold closeServerSessions. destruct (serverSessions w !! srv) as [owned|] eqn:Ho; cbn [default] in Hm.
  - destruct (stop_all owned w Hw (reg_owned _ Hw _ _ Ho)) as (H1 & H2 & H3 & H4 & H5).
    { intros id (s & Hs & _)%Hm. by exists s. }
    cbn [sessions serverSessions detached closes]. split_and!.
    + intros id s Hs. rewrite H2. case_decide as Hsrv.
      * assert (id ∈ owned) as Hin by (apply Hm; by exists s). rewrite decide_True by done. split; [done |].
        eexists. split; [by apply H3 |]. unfold on_pump. cbn [Pump.apply]. unfold Pump.fail.
        destruct (Pump.disposed (pump_ s)) eqn:Hd; [by right |]. left. unfold Pump.settle, Pump.wake.
        destruct (Pump.terminal (pump_ s)) eqn:Ht; cbn; congruence.
      * rewrite decide_False; [done |]. intros (t & Ht & Hsv)%Hm. congruence.
    + intros id Hs. rewrite H2. by case_decide.
    + by rewrite H5.
    + by rewrite lookup_delete_eq.
    + intros id m Hn. by apply Hlate.
  - split_and!; [| done | by rewrite app_nil_r | done | intros id m; apply Hlate].
    intros id s Hs. case_decide as Hsrv; [| done]. exfalso. assert (id ∈ []) as Hin by (apply Hm; by exists s). by apply elem_of_nil in Hin.
Qed.

Example stop_example :
  let w := after [Register 10 2 10 (Some 0%nat); Opened (Some 1) 7; Register 10 2 10 None; Message (Some 1) (MText (js "hi")); Stop 0%nat] in
  sessions w !! 1 = None /\ is_Some (sessions w !! 2) /\ closes w = [(7%nat, Some (1001, js "shutdown"))].
Proof. vm_compute. split; [done |]. split; [by eexists | done]. Qed.
