(* ===== verification/HtmxGuard.v ===== *)
(** * The HTMX guard

    [src/runtime/platform/htmx-guard.ts]: what a submission, a response and a swap
    must be for the page to act on them, and the listeners that remember the target
    of a submission.  Objects that htmx hands over are identified by numbers; what
    the guard reads of one is a record of the values it finds. *)
From stdpp Require Import base gmap list strings.
From Stdlib Require Import ZArith Lia.
From S2P Require Import Prelude JsNumber JsString Destination.

Inductive GuardKind : Type := missing_target | protocol.
Inductive GuardPhase : Type := p_request | p_response | p_swap.
Inductive GuardEffect : Type := e_none | e_uncertain.
Inductive GuardReason : Type :=
| unexpected_shape | target_absent | target_detached | redirect | control_header | blocked_tasks | task_shape.

(** A header name, or the member of [Object.prototype] of that name. *)
Inductive header_name : Type := HeaderName (name : jstr) | InheritedMember (name : jstr).

Record GuardOccurrence : Type := mkOccurrence {
  o_kind : GuardKind;
  o_phase : GuardPhase;
  o_status : option Z;
  o_effect : GuardEffect;
  o_reason : GuardReason;
  o_header : option header_name
}.

(** A value in the place of a node: nothing, a node, or anything else. *)
Inductive node_value : Type := Absent | Node (ref : nat) | NotObject.

#[global] Instance node_value_eq_dec : EqDecision node_value.
Proof. solve_decision. Defined.

(** The header jar of a response: its names in order, [None] when reading them
    throws; or, without [keys], what [has] says of a name. *)
Inductive header_jar : Type :=
| NoJar
| Keys (names : option (list jstr))
| Has (has : jstr -> option bool)
| BadJar.

(** [status] when it is an integral number, [redirected] of the response or of what it
    wraps. *)
Record GuardResponse : Type := mkResponse { r_status : option Z; r_redirected : bool; r_headers : header_jar }.

(** A context object: [c_ref] is its identity, [c_swap] its [swap] when that is a
    string. *)
Record GuardContext : Type := mkContext {
  c_ref : nat;
  c_target : node_value;
  c_swap : option jstr;
  c_response : option GuardResponse
}.

Record GuardTask : Type := mkTask { t_type : option jstr; t_target : node_value; t_style : option jstr }.

Record GuardVerdict : Type := mkVerdict { admit_ : bool; found : option GuardOccurrence; capture : option nat }.

Definition admitted_verdict : GuardVerdict := mkVerdict true None None.
Definition refused (kind : GuardKind) (phase : GuardPhase) (status : option Z) (effect : GuardEffect) (reason : GuardReason)
    (header : option header_name) : GuardVerdict :=
  mkVerdict false (Some (mkOccurrence kind phase status effect reason header)) None.

Definition knownControlHeaders : list jstr :=
  [js "location"; js "push-url"; js "redirect"; js "refresh"; js "replace-url"; js "reselect"; js "reswap"; js "retarget";
   js "trigger"; js "trigger-after-swap"; js "trigger-after-settle"].

Definition controlPrefix : jstr := js "hx-".

Section guard.
Context (toLowerCase : jstr -> jstr) (isConnected : nat -> bool).

Definition readStatus (response : option GuardResponse) : option Z :=
  r ← response; s ← r_status r; if (100 <=? s) && (s <=? 599) then Some s else None.

(** The name of a control header, without the prefix when it is a known one.  The
    lookup in a plain object finds its inherited members too. *)
Definition controlHeaderName (name : jstr) : option header_name :=
  let lower := toLowerCase name in
  if negb (starts_with lower controlPrefix) then None
  else
    let rest := drop (length controlPrefix) lower in
    Some (if bool_decide (rest ∈ knownControlHeaders) then HeaderName rest
          else if bool_decide (inherited rest = None) && negb (bool_decide (rest = js "__proto__")) then HeaderName (js "hx-custom")
          else InheritedMember rest).

Definition checkRequestTarget (ctx : option GuardContext) : GuardVerdict :=
  match ctx with
  | None => refused protocol p_request None e_none unexpected_shape None
  | Some ctx =>
      match c_target ctx with
      | Absent => refused missing_target p_request None e_none target_absent None
      | NotObject => refused protocol p_request None e_none unexpected_shape None
      | Node n =>
          if isConnected n then mkVerdict true None (Some n)
          else refused missing_target p_request None e_none target_detached None
      end
  end.

(** The first of [names] that is a control header. *)
Fixpoint first_control (names : list jstr) : option header_name :=
  match names with
  | [] => None
  | name :: names => match controlHeaderName name with Some h => Some h | None => first_control names end
  end.

(** The names that [has] knows, [None] when it throws. *)
Fixpoint probe (has : jstr -> option bool) (known : list jstr) : option (list jstr) :=
  match known with
  | [] => Some []
  | k :: known =>
      b ← has (controlPrefix ++ k);
      names ← probe has known;
      Some (if b : bool then (controlPrefix ++ k) :: names else names)
  end.

Definition checkResponseHeaders (ctx : option GuardContext) : GuardVerdict :=
  match ctx with
  | None => refused protocol p_response None e_uncertain unexpected_shape None
  | Some ctx =>
      let status := readStatus (c_response ctx) in
      match c_target ctx with
      | Absent => refused missing_target p_response status e_uncertain target_absent None
      | NotObject => refused protocol p_response status e_uncertain unexpected_shape None
      | Node n =>
          if negb (isConnected n) then refused missing_target p_response status e_uncertain target_detached None
          else
            match c_response ctx with
            | None => admitted_verdict
            | Some r =>
                if r_redirected r then refused protocol p_response status e_uncertain redirect None
                else
                  let bad := refused protocol p_response status e_uncertain unexpected_shape None in
                  let check names :=
                    match first_control names with
                    | Some h => refused protocol p_response status e_uncertain control_header (Some h)
                    | None => admitted_verdict
                    end in
                  match r_headers r with
                  | NoJar => admitted_verdict
                  | BadJar | Keys None => bad
                  | Keys (Some names) => check names
                  | Has has => match probe has knownControlHeaders with Some names => check names | None => bad end
                  end
            end
      end
  end.

Definition is_main (t : GuardTask) : bool := bool_decide (t_type t = Some (js "main")).

Definition blockedHazard (tasks : list (option GuardTask)) : bool :=
  existsb (fun t => match t with
    | None => true
    | Some t => negb (is_main t) || negb (bool_decide (t_style t = Some (js "none")))
    end) tasks.

Definition checkSwapTasks (ctx : option GuardContext) (tasks : option (list (option GuardTask))) (captured : option nat)
    : GuardVerdict :=
  let status := ctx ← ctx; readStatus (c_response ctx) in
  match ctx, tasks with
  | Some ctx, Some tasks =>
      if bool_decide (c_swap ctx = Some (js "none")) then
        if negb (blockedHazard tasks) then admitted_verdict
        else refused protocol p_swap status e_uncertain blocked_tasks None
      else
        let main := match tasks with [Some t] => Some t | _ => None end in
        let same :=
          match main, captured with
          | Some t, Some n =>
              is_main t && bool_decide (t_style t = Some (js "innerHTML")) && bool_decide (t_target t = Node n) && isConnected n
          | _, _ => false
          end in
        if bool_decide (c_swap ctx = Some (js "innerHTML")) && same then admitted_verdict
        else
          match main with
          | Some t =>
              if negb (is_main t) then refused protocol p_swap status e_uncertain task_shape None
              else
                match t_target t with
                | Absent => refused missing_target p_swap status e_uncertain target_absent None
                | Node n =>
                    if isConnected n then refused protocol p_swap status e_uncertain task_shape None
                    else refused missing_target p_swap status e_uncertain target_detached None
                | NotObject => refused protocol p_swap status e_uncertain task_shape None
                end
          | None => refused protocol p_swap status e_uncertain task_shape None
          end
  | _, _ => refused protocol p_swap status e_uncertain unexpected_shape None
  end.
End guard.

(** ** The listeners *)

(** [connected] is what the nodes are when the event comes; [throws] when a getter
    that the check reads throws. *)
Inductive guard_event : Type :=
| Install
| Uninstall
| BeforeRequest (connected : nat -> bool) (throws : bool) (ctx : option GuardContext)
| BeforeResponse (connected : nat -> bool) (throws : bool) (ctx : option GuardContext)
| BeforeSwap (connected : nat -> bool) (throws : bool) (ctx : option GuardContext) (tasks : option (list (option GuardTask))).

(** The targets of the installed guard, [None] when none is installed. *)
Definition guard_state : Type := option (gmap nat nat).

Section listeners.
Context (toLowerCase : jstr -> jstr).

Definition thrown_verdict (phase : GuardPhase) : GuardVerdict :=
  refused protocol phase None (match phase with p_request => e_none | _ => e_uncertain end) unexpected_shape None.

Definition remember (targets : gmap nat nat) (ctx : option GuardContext) (v : GuardVerdict) : gmap nat nat :=
  match capture v, ctx with Some n, Some ctx => <[c_ref ctx := n]> targets | _, _ => targets end.

(** What a listener decides, and the targets it leaves. *)
Definition listen (e : guard_event) (targets : gmap nat nat) : GuardVerdict * gmap nat nat :=
  match e with
  | BeforeRequest connected throws ctx =>
      let v := if throws then thrown_verdict p_request else checkRequestTarget connected ctx in
      (v, remember targets ctx v)
  | BeforeResponse connected throws ctx =>
      let v := if throws then thrown_verdict p_response else checkResponseHeaders toLowerCase connected ctx in
      (v, remember targets ctx v)
  | BeforeSwap connected throws ctx tasks =>
      let captured := ctx ← ctx; targets !! c_ref ctx in
      let v := if throws then thrown_verdict p_swap else checkSwapTasks connected ctx tasks captured in
      (v, remember targets ctx v)
  | _ => (admitted_verdict, targets)
  end.

(** An event: the state after it, whether it goes on, and what is announced. *)
Definition guard_step (st : guard_state) (e : guard_event) : guard_state * bool * list GuardOccurrence :=
  match e, st with
  | Install, None => (Some ∅, true, [])
  | Install, Some _ => (st, true, [])
  | Uninstall, _ => (None, true, [])
  | _, None => (None, true, [])
  | _, Some targets =>
      let (v, targets) := listen e targets in
      (Some targets, admit_ v, if admit_ v then [] else match found v with Some o => [o] | None => [] end)
  end.

Definition guard_run (es : list guard_event) : guard_state := fold_left (fun st e => (guard_step st e).1.1) es None.

(** ** What the guard keeps *)

(** The events at which an installed guard remembers a node for a context. *)
Definition captures (e : guard_event) (r n : nat) : Prop :=
  match e with
  | BeforeRequest connected false (Some ctx) => c_ref ctx = r /\ c_target ctx = Node n /\ connected n = true
  | _ => False
  end.

(** The last submission of a context since the guard was installed. *)
Definition submitted (es : list guard_event) (r n : nat) : Prop :=
  exists before e after, es = before ++ e :: after /\ captures e r n
    /\ (forall m, Forall (fun e => ~ captures e r m) after) /\ Uninstall ∉ after /\ guard_run before <> None.

Lemma response_captures_nothing connected ctx : capture (checkResponseHeaders toLowerCase connected ctx) = None.
Proof. unfold checkResponseHeaders. repeat case_match; done. Qed.

Lemma swap_captures_nothing connected ctx tasks captured : capture (checkSwapTasks connected ctx tasks captured) = None.
Proof. unfold checkSwapTasks. repeat case_match; done. Qed.

Lemma request_captures connected ctx n :
  capture (checkRequestTarget connected ctx) = Some n <->
  exists c, ctx = Some c /\ c_target c = Node n /\ connected n = true.
Proof.
  unfold checkRequestTarget. destruct ctx as [c|]; [| by split; [| intros (? & ? & _)]].
  destruct (c_target c) as [|m|] eqn:Ht; cbn; try by split; [| intros (? & [= <-] & Hn & _); congruence].
  destruct (connected m) eqn:Hm; cbn; split; intros H; try done.
  - injection H as <-. by exists c.
  - destruct H as (? & [= <-] & Hn & _). congruence.
  - destruct H as (? & [= <-] & Hn & Hc). congruence.
Qed.

(** The capture of an event, for the context it is about. *)
Lemma capture_spec e targets r n :
  captures e r n <->
  exists c, capture (listen e targets).1 = Some n /\ c_ref c = r
    /\ match e with BeforeRequest _ _ ctx | BeforeResponse _ _ ctx | BeforeSwap _ _ ctx _ => ctx = Some c | _ => False end.
Proof.
  destruct e as [| |cn t ctx|cn t ctx|cn t ctx ts]; cbn; try (split; [done | naive_solver]).
  - destruct t; cbn; [split; [done | naive_solver] |]. setoid_rewrite request_captures. destruct ctx; naive_solver.
  - destruct t; cbn; [| setoid_rewrite response_captures_nothing]; naive_solver.
  - destruct t; cbn; [| setoid_rewrite swap_captures_nothing]; naive_solver.
Qed.

(** A listener keeps what was remembered, save for the node it captures. *)
Lemma listen_targets e targets r n :
  (listen e targets).2 !! r = Some n ->
  captures e r n \/ targets !! r = Some n /\ forall m, ~ captures e r m.
Proof.
  intros H. setoid_rewrite (capture_spec e targets).
  destruct e as [| |cn t ctx|cn t ctx|cn t ctx ts]; cbn in *; try (right; split; [done | naive_solver]);
    unfold remember in H; match type of H with context [capture ?v] => destruct (capture v) as [k|] end;
    destruct ctx as [c|]; cbn in H; try (right; split; [done | naive_solver]);
    destruct (decide (c_ref c = r)) as [<-|Hr];
    (rewrite lookup_insert_eq in H; left; naive_solver)
    || (rewrite lookup_insert_ne in H by done; right; split; [done | naive_solver]).
Qed.

Lemma guard_run_snoc es e : guard_run (es ++ [e]) = (guard_step (guard_run es) e).1.1.
Proof. unfold guard_run. by rewrite fold_left_app. Qed.

Lemma submitted_now es e r n : guard_run es <> None -> captures e r n -> submitted (es ++ [e]) r n.
Proof. intros Hes He. exists es, e, []. split_and!; [done.. | constructor | set_solver | done]. Qed.

Lemma submitted_still es e r n :
  e <> Uninstall -> (forall m, ~ captures e r m) -> submitted es r n -> submitted (es ++ [e]) r n.
Proof.
  intros He Hc (before & e' & after & -> & Hcap & Hall & Hun & Hrun). exists before, e', (after ++ [e]).
  split_and!; [by rewrite <- app_assoc | done | | set_solver | done].
  intros m. apply Forall_app. split; [apply Hall | constructor; [apply Hc | constructor]].
Qed.

(** What is remembered was submitted, and is the last node submitted. *)
Lemma remembered_was_submitted es targets r n :
  guard_run es = Some targets -> targets !! r = Some n -> submitted es r n.
Proof.
  revert targets. induction es as [|e es IH] using rev_ind; intros targets; [done |]. rewrite guard_run_snoc.
  destruct (guard_run es) as [old|] eqn:Hes.
  - intros Hstep Hn.
    assert (Hcase : e = Install /\ targets = old \/ e <> Uninstall /\ targets = (listen e old).2).
    { destruct e; cbn in Hstep; simplify_eq; try (by left); right; done. }
    destruct Hcase as [[-> ->] | [He ->]].
    + apply submitted_still; [done | intros m []| by eapply IH].
    + destruct (listen_targets _ _ _ _ Hn) as [Hc | [Hold Hc]].
      * apply submitted_now; congruence.
      * apply submitted_still; [done.. | by eapply IH].
  - destruct e; cbn; intros [= <-] Hn; by rewrite ?lookup_empty in Hn.
Qed.

(** A task that changes nothing, and one that fills the node [n]. *)
Definition inert (t : option GuardTask) : Prop :=
  exists m, t = Some m /\ t_type m = Some (js "main") /\ t_style m = Some (js "none").
Definition fills (n : nat) (t : option GuardTask) : Prop :=
  exists m, t = Some m /\ t_type m = Some (js "main") /\ t_style m = Some (js "innerHTML") /\ t_target m = Node n.

Lemma blockedHazard_spec tasks : blockedHazard tasks = false <-> Forall inert tasks.
Proof.
  unfold blockedHazard, inert, is_main. induction tasks as [|t tasks IH]; cbn; [by split; [constructor |] |].
  rewrite Forall_cons, orb_false_iff, IH. destruct t as [t|]; [| naive_solver].
  rewrite orb_false_iff, !negb_false_iff, !bool_decide_eq_true. naive_solver.
Qed.

Lemma checkSwapTasks_admits connected ctx tasks captured :
  admit_ (checkSwapTasks connected ctx tasks captured) = true ->
  exists c ts, ctx = Some c /\ tasks = Some ts
    /\ (c_swap c = Some (js "none") /\ Forall inert ts
        \/ c_swap c = Some (js "innerHTML") /\ exists n t, ts = [t] /\ fills n t /\ captured = Some n /\ connected n = true).
Proof.
  unfold checkSwapTasks. destruct ctx as [c|], tasks as [ts|]; cbn; try done.
  intros H. exists c, ts. split_and!; [done.. |]. revert H.
  case_bool_decide; [destruct (blockedHazard ts) eqn:Hb; [done | intros _; left; by rewrite <- blockedHazard_spec] |].
  case_match eqn:Hs; [intros _; right | repeat case_match; done].
  apply andb_true_iff in Hs as [Hi Hs]. apply bool_decide_eq_true in Hi.
  destruct ts as [|[t|] [|]], captured as [n|]; try done.
  unfold is_main in Hs. rewrite !andb_true_iff, !bool_decide_eq_true in Hs. unfold fills. naive_solver.
Qed.

(** A verdict that refuses names one occurrence of its phase; it is without
    effect before the request only. *)
Definition announces (v : GuardVerdict) : Prop :=
  admit_ v = false -> exists o, found v = Some o /\ (o_effect o = e_none <-> o_phase o = p_request).

Lemma listen_announces e targets : announces (listen e targets).1.
Proof.
  unfold announces. destruct e as [| |cn t ctx|cn t ctx|cn t ctx ts]; cbn; try done; destruct t; cbn; try (naive_solver done).
  - unfold checkRequestTarget. repeat case_match; naive_solver.
  - unfold checkResponseHeaders. repeat case_match; naive_solver.
  - unfold checkSwapTasks. repeat case_match; naive_solver.
Qed.

(** C35. Under an installed guard a swap that goes on either changes nothing, or
    fills one node that is connected at that moment and is the last one the same
    context was submitted for since the installation; whatever goes on is announced
    by nobody, and whatever is refused is announced exactly once, as being without
    effect exactly when the request had not been sent. *)
Theorem swaps_touch_the_submitted_node es targets e :
  guard_run es = Some targets ->
  let '(_, go, announced) := guard_step (guard_run es) e in
  if go then
    announced = []
    /\ match e with
       | BeforeSwap connected throws ctx tasks =>
           exists c ts, ctx = Some c /\ tasks = Some ts
             /\ (c_swap c = Some (js "none") /\ Forall inert ts
                 \/ exists n t, ts = [t] /\ fills n t /\ connected n = true /\ submitted es (c_ref c) n)
       | _ => True
       end
  else exists o, announced = [o] /\ (o_effect o = e_none <-> o_phase o = p_request).
Proof.
  intros Hes. rewrite Hes. pose proof (listen_announces e targets) as Hann.
  destruct e as [| |cn t ctx|cn t ctx|cn t ctx ts]; cbn in *; try done;
    (match goal with |- context [admit_ ?v] => destruct (admit_ v) eqn:Ha; cbn; [| destruct (Hann Ha) as (o & -> & Ho); by exists o] end);
    split; try done.
  destruct t; [done |]. apply checkSwapTasks_admits in Ha as (c & l & -> & -> & [Hinert | (_ & n & t & -> & Hf & Hcap & Hn)]).
  - exists c, l. by split_and!; [| | left].
  - exists c, [t]. split_and!; [done.. | right]. exists n, t. split_and!; [done.. |]. by eapply remembered_was_submitted.
Qed.
End listeners.

(** ** A submission and its swap *)

Definition example_ctx (swap : jstr) (target : nat) : GuardContext := mkContext 1 (Node target) (Some swap) None.
Definition example_task (target : nat) : GuardTask := mkTask (Some (js "main")) (Node target) (Some (js "innerHTML")).
Definition example_swap (target : nat) : guard_event :=
  BeforeSwap (fun _ => true) false (Some (example_ctx (js "innerHTML") 7)) (Some [Some (example_task target)]).
Definition example_events : list guard_event :=
  [Install; BeforeRequest (fun _ => true) false (Some (example_ctx (js "innerHTML") 7))].

Example swap_of_the_same_node : (guard_step id (guard_run id example_events) (example_swap 7)).1.2 = true.
Proof. vm_compute. reflexivity. Qed.

(** Another node of the page is not the one submitted. *)
Example swap_of_another_node :
  (guard_step id (guard_run id example_events) (example_swap 8)).2
  = [mkOccurrence protocol p_swap None e_uncertain task_shape None].
Proof. vm_compute. reflexivity. Qed.

(** [hx-constructor] is announced with the function [Object] as its name. *)
Example inherited_control_header :
  controlHeaderName id (js "hx-constructor") = Some (InheritedMember (js "constructor")).
Proof. vm_compute. reflexivity. Qed.

Lemma swaps_touch_the_submitted_node_witness :
  exists targets, guard_run id example_events = Some targets
    /\ let '(_, go, announced) := guard_step id (guard_run id example_events) (example_swap 7) in
       if go then
         announced = []
         /\ exists c ts, Some (example_ctx (js "innerHTML") 7) = Some c /\ Some [Some (example_task 7)] = Some ts
             /\ (c_swap c = Some (js "none") /\ Forall inert ts
                 \/ exists n t, ts = [t] /\ fills n t /\ true = true /\ submitted id example_events (c_ref c) n)
       else exists o, announced = [o] /\ (o_effect o = e_none <-> o_phase o = p_request).
Proof.
  exists (<[1%nat := 7%nat]> ∅). split; [vm_compute; reflexivity |].
  apply (swaps_touch_the_submitted_node id example_events (<[1%nat := 7%nat]> ∅) (example_swap 7)). vm_compute. reflexivity.
Defined.
