(* ===== verification/DateTime.v ===== *)
(** * Instants and zoned times

    [src/runtime/platform/datetime.ts]: instants as opaque handles over epoch
    milliseconds, and the resolution of a civil time in a zone.  The language's
    calendar ([Date.UTC], [setUTCFullYear], the fields of a [Date]) is defined here
    from its specification.  A zone is what [Intl] knows of it, its offset from UTC
    at every instant; which names are zones, and how an instant is formatted, are
    parameters. *)
From stdpp Require Import base gmap list sorting strings.
From Stdlib Require Import ZArith Lia.
From S2P Require Import Prelude JsNumber JsString Data.

(** ** The calendar of the language *)

Definition msPerDay : Z := 86400000.

Definition leap (y : Z) : Z :=
  if (y mod 4 =? 0) && (negb (y mod 100 =? 0) || (y mod 400 =? 0)) then 1 else 0.

(** [Day(TimeFromYear(y))] *)
Definition DayFromYear (y : Z) : Z :=
  365 * (y - 1970) + (y - 1969) / 4 - (y - 1901) / 100 + (y - 1601) / 400.

(** [YearFromTime] of a day: an estimate from the mean length of a year is one off
    at most. *)
Definition YearFromDay (d : Z) : Z :=
  let y := 1970 + d * 400 / 146097 in
  if d <? DayFromYear y then y - 1 else if DayFromYear (y + 1) <=? d then y + 1 else y.

(** The day of the year a month begins with, months from 0. *)
Definition month_start (leap m : Z) : Z :=
  match m with
  | 0 => 0 | 1 => 31 | 2 => 59 + leap | 3 => 90 + leap | 4 => 120 + leap | 5 => 151 + leap
  | 6 => 181 + leap | 7 => 212 + leap | 8 => 243 + leap | 9 => 273 + leap | 10 => 304 + leap | _ => 334 + leap
  end.

Definition MonthFromDay (leap n : Z) : Z :=
  if n <? 31 then 0 else if n <? 59 + leap then 1 else if n <? 90 + leap then 2 else if n <? 120 + leap then 3
  else if n <? 151 + leap then 4 else if n <? 181 + leap then 5 else if n <? 212 + leap then 6 else if n <? 243 + leap then 7
  else if n <? 273 + leap then 8 else if n <? 304 + leap then 9 else if n <? 334 + leap then 10 else 11.

Definition MakeDay (year month date : Z) : Z :=
  let ym := year + month / 12 in
  DayFromYear ym + month_start (leap ym) (month mod 12) + date - 1.

Definition MAX_MILLIS : Z := 8640000000000000.

Definition TimeClip (t : Z) : option Z := if (- MAX_MILLIS <=? t) && (t <=? MAX_MILLIS) then Some t else None.

Record Civil : Type := mkCivil {
  year : Z; month : Z; day : Z; hour : Z; minute : Z; second : Z; millisecond : Z
}.

#[global] Instance civil_eq_dec : EqDecision Civil.
Proof. solve_decision. Defined.

Definition time_in_day (c : Civil) : Z := hour c * 3600000 + minute c * 60000 + second c * 1000 + millisecond c.

(** The fields of a time, months from 1. *)
Definition civil_of (t : Z) : Civil :=
  let d := t / msPerDay in
  let y := YearFromDay d in
  let n := d - DayFromYear y in
  let m := MonthFromDay (leap y) n in
  let s := t mod msPerDay in
  mkCivil y (m + 1) (n - month_start (leap y) m + 1) (s / 3600000) (s / 60000 mod 60) (s / 1000 mod 60) (s mod 1000).

(** [Date.UTC], [None] for [NaN]: years up to 99 are years of the 20th century. *)
Definition Date_UTC (c : Civil) : option Z :=
  let y := if (0 <=? year c) && (year c <=? 99) then 1900 + year c else year c in
  TimeClip (MakeDay y (month c - 1) (day c) * msPerDay + time_in_day c).

Definition setUTCFullYear (t : option Z) (y : Z) : option Z :=
  let t := default 0 t in
  let c := civil_of t in
  TimeClip (MakeDay y (month c - 1) (day c) * msPerDay + t mod msPerDay).

Definition utcMillis (civil : Civil) : option Z :=
  let guess := Date_UTC civil in
  if (0 <=? year civil) && (year civil <=? 99) then setUTCFullYear guess (year civil) else guess.

(** *** The calendar is consistent *)

Lemma leap_cases y : leap y = 0 \/ leap y = 1.
Proof. unfold leap. case_match; lia. Qed.

Lemma DayFromYear_S y : DayFromYear (y + 1) = DayFromYear y + 365 + leap y.
Proof.
  unfold DayFromYear, leap.
  destruct (Z.eqb_spec (y mod 4) 0), (Z.eqb_spec (y mod 100) 0), (Z.eqb_spec (y mod 400) 0); cbn [andb orb negb];
    Z.to_euclidean_division_equations; lia.
Qed.

(** The year of a day holds it. *)
Lemma YearFromDay_spec d :
  0 <= d - DayFromYear (YearFromDay d) < 365 + leap (YearFromDay d).
Proof.
  assert (forall y, DayFromYear y <= d < DayFromYear (y + 1) -> 0 <= d - DayFromYear y < 365 + leap y) as H.
  { intros y Hy. rewrite DayFromYear_S in Hy. lia. }
  apply H. clear H. unfold YearFromDay.
  assert (exists y, 1970 + d * 400 / 146097 = y
    /\ DayFromYear (y - 1) <= d < DayFromYear (y + 2)) as (y & -> & Hy).
  { eexists. split; [reflexivity |]. unfold DayFromYear. Z.to_euclidean_division_equations; lia. }
  destruct (Z.ltb_spec d (DayFromYear y)); [replace (y - 1 + 1) with y by lia; lia |].
  destruct (Z.leb_spec (DayFromYear (y + 1)) d); [replace (y + 1 + 1) with (y + 2) by lia |]; lia.
Qed.

Lemma DayFromYear_mono y z : y <= z -> DayFromYear y <= DayFromYear z.
Proof.
  intros H. replace z with (y + Z.of_nat (Z.to_nat (z - y))) by lia.
  generalize (Z.to_nat (z - y)) as k. intros k. induction k as [|k IH]; [by rewrite Z.add_0_r |].
  rewrite Nat2Z.inj_succ, <- Z.add_1_r, Z.add_assoc, DayFromYear_S. pose proof (leap_cases (y + Z.of_nat k)). lia.
Qed.

Lemma YearFromDay_unique d y : 0 <= d - DayFromYear y < 365 + leap y -> YearFromDay d = y.
Proof.
  intros H. pose proof (YearFromDay_spec d) as Hs. pose proof (DayFromYear_S y) as H1.
  pose proof (DayFromYear_S (YearFromDay d)) as H2.
  destruct (Z.lt_trichotomy (YearFromDay d) y) as [Hlt|[->|Hlt]]; [| done |].
  - pose proof (DayFromYear_mono (YearFromDay d + 1) y). lia.
  - pose proof (DayFromYear_mono (y + 1) (YearFromDay d)). lia.
Qed.

Lemma MonthFromDay_spec l n : l = 0 \/ l = 1 -> 0 <= n < 365 + l ->
  0 <= MonthFromDay l n <= 11 /\ 0 <= n - month_start l (MonthFromDay l n) < 31
  /\ n < month_start l (MonthFromDay l n) + 31.
Proof.
  intros Hl Hn. unfold MonthFromDay.
  repeat match goal with |- context [if ?a <? ?b then _ else _] => destruct (Z.ltb_spec a b) end; cbn [month_start]; lia.
Qed.

(** The day of the year after a month. *)
Definition month_end (leap m : Z) : Z :=
  match m with
  | 0 => 31 | 1 => 59 + leap | 2 => 90 + leap | 3 => 120 + leap | 4 => 151 + leap | 5 => 181 + leap
  | 6 => 212 + leap | 7 => 243 + leap | 8 => 273 + leap | 9 => 304 + leap | 10 => 334 + leap | _ => 365 + leap
  end.

(** The months of a year follow each other. *)
Lemma MonthFromDay_unique l m n : l = 0 \/ l = 1 -> 0 <= m <= 11 ->
  month_start l m <= n < month_end l m -> MonthFromDay l n = m.
Proof.
  intros Hl Hm.
  assert (m = 0 \/ m = 1 \/ m = 2 \/ m = 3 \/ m = 4 \/ m = 5 \/ m = 6 \/ m = 7 \/ m = 8 \/ m = 9 \/ m = 10 \/ m = 11) as Hc by lia.
  repeat destruct Hc as [->|Hc]; try subst m; intros Hn; cbn in Hn; unfold MonthFromDay;
    repeat match goal with |- context [if ?a <? ?b then _ else _] => destruct (Z.ltb_spec a b) end; lia.
Qed.

(** A date of a year is a day of it, read back. *)
Lemma MakeDay_month y m date : 0 <= m <= 11 -> MakeDay y m date = DayFromYear y + month_start (leap y) m + date - 1.
Proof. intros Hm. unfold MakeDay. rewrite Z.div_small, Z.mod_small, Z.add_0_r by lia. done. Qed.

Lemma time_fields s : 0 <= s < msPerDay ->
  s / 3600000 * 3600000 + s / 60000 mod 60 * 60000 + s / 1000 mod 60 * 1000 + s mod 1000 = s.
Proof. unfold msPerDay. intros Hs. Z.to_euclidean_division_equations; lia. Qed.

(** *** A civil time as a time of its own calendar *)

Definition civilValid (c : Civil) : bool :=
  (-271821 <=? year c) && (year c <=? 275760) && (1 <=? month c) && (month c <=? 12) && (1 <=? day c) && (day c <=? 31)
  && (0 <=? hour c) && (hour c <=? 23) && (0 <=? minute c) && (minute c <=? 59) && (0 <=? second c) && (second c <=? 59)
  && (0 <=? millisecond c) && (millisecond c <=? 999).

Definition civil_time (c : Civil) : Z := MakeDay (year c) (month c - 1) (day c) * msPerDay + time_in_day c.

Lemma civilValid_spec c : civilValid c = true <->
  -271821 <= year c <= 275760 /\ 1 <= month c <= 12 /\ 1 <= day c <= 31 /\ 0 <= hour c <= 23 /\ 0 <= minute c <= 59
  /\ 0 <= second c <= 59 /\ 0 <= millisecond c <= 999.
Proof. unfold civilValid. rewrite !andb_true_iff, !Z.leb_le. lia. Qed.

Lemma month_start_bounds l m : l = 0 \/ l = 1 -> 0 <= month_start l m <= 334 + l.
Proof. intros Hl. unfold month_start. repeat case_match; lia. Qed.

(** The day of a civil time lies in its year, even one past the end of its month. *)
Lemma MakeDay_in_year c : civilValid c = true ->
  0 <= MakeDay (year c) (month c - 1) (day c) - DayFromYear (year c) < 365 + leap (year c).
Proof.
  intros Hc%civilValid_spec. rewrite MakeDay_month by lia.
  pose proof (month_start_bounds (leap (year c)) (month c - 1) (leap_cases _)). lia.
Qed.

Lemma time_in_day_bounds c : civilValid c = true -> 0 <= time_in_day c < msPerDay.
Proof. intros Hc%civilValid_spec. unfold time_in_day, msPerDay. lia. Qed.

Lemma split_day d s : 0 <= s < msPerDay -> (d * msPerDay + s) / msPerDay = d /\ (d * msPerDay + s) mod msPerDay = s.
Proof.
  intros Hs. rewrite Z.div_add_l, (Z.div_small s), Z.add_0_r by done. split; [done |].
  by rewrite Z.add_comm, Z.mod_add, Z.mod_small.
Qed.

(** The fields of a time are valid but for their year, and give the time back. *)
Lemma civil_of_time t : civil_time (civil_of t) = t.
Proof.
  pose proof (YearFromDay_spec (t / msPerDay)) as Hy. unfold civil_time, time_in_day, civil_of. cbn.
  destruct (MonthFromDay_spec _ _ (leap_cases _) Hy) as (Hm & _).
  rewrite Z.add_simpl_r, MakeDay_month, time_fields by (done || by apply Z.mod_pos_bound).
  pose proof (Z.div_mod t msPerDay). unfold msPerDay in *. lia.
Qed.

Lemma civil_of_valid t : -271821 <= year (civil_of t) <= 275760 -> civilValid (civil_of t) = true.
Proof.
  intros Hyear. apply civilValid_spec. split; [done |]. unfold civil_of. cbn.
  destruct (MonthFromDay_spec _ _ (leap_cases _) (YearFromDay_spec (t / msPerDay))) as (? & ? & _).
  assert (0 <= t mod msPerDay < msPerDay) by by apply Z.mod_pos_bound. unfold msPerDay in *.
  split_and!; try lia; Z.to_euclidean_division_equations; lia.
Qed.

(** Only the year changes: the date keeps its place in the year when both years
    have the same length. *)
Lemma setUTCFullYear_same_length t y : leap y = leap (year (civil_of t)) ->
  setUTCFullYear (Some t) y
  = TimeClip ((DayFromYear y + (t / msPerDay - DayFromYear (year (civil_of t)))) * msPerDay + t mod msPerDay).
Proof.
  intros Hl. pose proof (YearFromDay_spec (t / msPerDay)) as Hy. unfold setUTCFullYear. cbn in *.
  destruct (MonthFromDay_spec _ _ (leap_cases _) Hy) as (Hm & _).
  rewrite Z.add_simpl_r, MakeDay_month by done. do 2 f_equal. rewrite Hl. lia.
Qed.

Lemma TimeClip_in t : - MAX_MILLIS <= t <= MAX_MILLIS -> TimeClip t = Some t.
Proof. intros H. unfold TimeClip. by rewrite !(proj2 (Z.leb_le _ _)) by lia. Qed.

(** From the year 1 on, [utcMillis] is the time of its fields. *)
Lemma utcMillis_civil_time c : civilValid c = true -> 1 <= year c -> civil_time c <= MAX_MILLIS ->
  utcMillis c = Some (civil_time c).
Proof.
  intros Hc Hy Hmax. pose proof (MakeDay_in_year c Hc) as Hd. pose proof (time_in_day_bounds c Hc) as Ht.
  assert (- MAX_MILLIS <= civil_time c).
  { unfold civil_time. pose proof (DayFromYear_mono 1 (year c) Hy). change (DayFromYear 1) with (-719162) in *.
    unfold MAX_MILLIS, msPerDay in *. lia. }
  unfold utcMillis, Date_UTC. destruct (Z.leb_spec (year c) 99) as [H99|H99].
  2: { rewrite andb_false_r. by apply TimeClip_in. }
  rewrite (proj2 (Z.leb_le 0 _)) by lia. cbn [andb].
  assert (leap (1900 + year c) = leap (year c)) as Hl.
  { unfold leap. apply civilValid_spec in Hc. destruct (Z.eqb_spec (year c mod 100) 0); Z.to_euclidean_division_equations; lia || idtac.
    all: repeat match goal with |- context [?a =? ?b] => destruct (Z.eqb_spec a b) end; cbn; Z.to_euclidean_division_equations; lia. }
  set (d := MakeDay (1900 + year c) (month c - 1) (day c)).
  assert (d - DayFromYear (1900 + year c) = MakeDay (year c) (month c - 1) (day c) - DayFromYear (year c)) as Hdd.
  { unfold d. apply civilValid_spec in Hc. rewrite !MakeDay_month, Hl by lia. lia. }
  destruct (split_day d _ Ht) as [Hq Hr].
  assert (year (civil_of (d * msPerDay + time_in_day c)) = 1900 + year c) as Hyear.
  { unfold civil_of. cbn [year]. rewrite Hq. apply YearFromDay_unique. lia. }
  rewrite (TimeClip_in (d * msPerDay + time_in_day c)).
  2: { pose proof (DayFromYear_mono (1900 + year c) 1999 ltac:(lia)). pose proof (DayFromYear_mono 1901 (1900 + year c) ltac:(lia)).
       change (DayFromYear 1999) with 10592 in *. change (DayFromYear 1901) with (-25202) in *.
       pose proof (leap_cases (year c)). unfold MAX_MILLIS, msPerDay in *. lia. }
  rewrite setUTCFullYear_same_length by congruence. rewrite Hyear, Hq, Hr, Hdd.
  replace (DayFromYear (year c) + _) with (MakeDay (year c) (month c - 1) (day c)) by lia. by apply TimeClip_in.
Qed.

(** ** Zones *)

(** The first six fields: what the formatter of parts reads. *)
Definition whole_seconds (c : Civil) : Civil := mkCivil (year c) (month c) (day c) (hour c) (minute c) (second c) 0.

(** [formatToParts] refuses a time out of range, and writes the year of a date
    before the year 1 as its year in the era before it. *)
Definition zonedParts (zone : Z -> Z) (instant : Z) : option Civil :=
  t ← TimeClip instant;
  let c := whole_seconds (civil_of (t + zone t)) in
  Some (mkCivil (if year c <=? 0 then 1 - year c else year c) (month c) (day c) (hour c) (minute c) (second c) 0).

(** [None] where the code has [undefined] or [NaN]: no candidate comes of either. *)
Definition offsetAt (zone : Z -> Z) (instant : Z) : option Z :=
  parts ← zonedParts zone instant;
  millis ← utcMillis (whole_seconds parts);
  Some (millis - instant).

Definition sameSecond (left right : Civil) : bool :=
  (year left =? year right) && (month left =? month right) && (day left =? day right) && (hour left =? hour right)
  && (minute left =? minute right) && (second left =? second right).

(** [offsets.add(off)] *)
Definition add_offset (offsets : list Z) (off : Z) : list Z :=
  if bool_decide (off ∈ offsets) then offsets else offsets ++ [off].

Definition offsets_around (zone : Z -> Z) (base : Z) : list Z :=
  fold_left add_offset (omap (offsetAt zone) [base - msPerDay; base; base + msPerDay]) [].

Definition candidates (zone : Z -> Z) (base : Z) (parts : Civil) : list Z :=
  omap (fun off =>
    let candidate := base - off in
    back ← zonedParts zone candidate;
    if sameSecond back parts then Some candidate else None) (offsets_around zone base).

(** The earliest candidate, or the latest under policy 1. *)
Definition pick (policy : Z) (candidates : list Z) : option Z :=
  let sorted := merge_sort Z.le candidates in
  match sorted with
  | [] => None
  | first :: _ => Some (if (length sorted =? 1)%nat then first else if policy =? 0 then first else List.last sorted first)
  end.

(** ** Instants *)

Inductive time_failure : Type :=
| outOfRange (millis : Z)
| badZone (zone : jstr)
| nonexistent
| badOption (reason : jstr)
| foreign.

Inductive time_result (A : Type) : Type := Success (a : A) | Failure (f : time_failure).
#[global] Arguments Success {A} a.
#[global] Arguments Failure {A} f.

(** The heap, and the weak map of the handles. *)
Record time_world : Type := mkTimeWorld { t_heap : heap; instants : gmap loc Z }.

Definition mint (w : time_world) (millis : Z) : value * time_world :=
  let (handle, h) := alloc (t_heap w) (mkObject false false false true []) None in
  (handle, mkTimeWorld h (<[fresh (t_heap w) := millis]> (instants w))).

Definition instant_of (w : time_world) (handle : value) : option Z :=
  match handle with VRef l => instants w !! l | _ => None end.

Definition isTimeInstantValue (w : time_world) (kind : option jstr) (v : value) : bool :=
  bool_decide (kind = Some (js "instant")) && bool_decide (is_Some (instant_of w v)).

Definition in_range (millis : Z) : bool := (- MAX_MILLIS <=? millis) && (millis <=? MAX_MILLIS).

Definition mintTimeInstant (w : time_world) (millis : value) : res (value * time_world) :=
  match millis with
  | VBigInt z => if in_range z then Ret (mint w z) else Throw "time instant out of range"
  | _ => Throw "time instant out of range"
  end.

Definition millisOf (w : time_world) (handle : value) : res Z :=
  match instant_of w handle with Some z => Ret z | None => Throw "invalid compiler time instant" end.

Definition instantFromEpochMillis (w : time_world) (millis : value) : res (time_result value * time_world) :=
  match millis with
  | VBigInt z => if in_range z then let (h, w) := mint w z in Ret (Success h, w) else Ret (Failure (outOfRange z), w)
  | _ => Throw "invalid compiler epoch millis"
  end.

Definition instantEpochMillis (w : time_world) (handle : value) : res (time_result Z) :=
  let! millis := millisOf w handle in Ret (Success millis).

Inductive Style : Type := full | long | medium | short.

(** [style]: [None] when it throws; a style of [None] is [undefined]. *)
Definition style (v : value) : option (option Style) :=
  match v with
  | VStr s =>
      if bool_decide (s = js "full") then Some (Some full)
      else if bool_decide (s = js "long") then Some (Some long)
      else if bool_decide (s = js "medium") then Some (Some medium)
      else if bool_decide (s = js "short") then Some (Some short)
      else if bool_decide (s = js "none") then Some None
      else None
  | _ => None
  end.

(** What [Intl.DateTimeFormat] does: a text, a [RangeError], or another throw. *)
Inductive formatted : Type := Formatted (text : jstr) | RangeError | OtherError.

Definition civil_field (h : heap) (v : value) (name : jstr) : res Z :=
  match dataProperty h v (KStr name) with
  | Ret (VBigInt z) => Ret z
  | _ => Throw "invalid compiler civil time"
  end.

(** The numbers of the record are rounded where they are large; these are refused
    by [civilValid] either way. *)
Definition civilOf (h : heap) (v : value) : res Civil :=
  let! y := civil_field h v (js "year") in
  let! mo := civil_field h v (js "month") in
  let! d := civil_field h v (js "day") in
  let! ho := civil_field h v (js "hour") in
  let! mi := civil_field h v (js "minute") in
  let! s := civil_field h v (js "second") in
  let! ms := civil_field h v (js "millisecond") in
  Ret (mkCivil y mo d ho mi s ms).

Section times.
Context (zoneOf : jstr -> option (Z -> Z)) (format : jstr -> jstr -> option Style -> option Style -> Z -> formatted).

Definition formatInZone (w : time_world) (handle locale zone dateStyle timeStyle : value) : res (time_result jstr) :=
  let! millis := millisOf w handle in
  match locale with
  | VStr locale =>
      match zone with
      | VStr zone =>
          match style dateStyle with
          | None => Ret (Failure (badOption (js "date_style")))
          | Some date =>
              match style timeStyle with
              | None => Ret (Failure (badOption (js "time_style")))
              | Some time =>
                  match format locale zone date time millis with
                  | Formatted text => Ret (Success text)
                  | RangeError =>
                      match zoneOf zone with
                      | None => Ret (Failure (badZone zone))
                      | Some _ => Ret (Failure (badOption (js "locale")))
                      end
                  | OtherError => Ret (Failure foreign)
                  end
              end
          end
      | _ => Throw "invalid compiler zone"
      end
  | _ => Throw "invalid compiler locale"
  end.

Definition resolveZonedTime (w : time_world) (civil zone policy : value) : res (time_result value * time_world) :=
  let! parts := civilOf (t_heap w) civil in
  match zone with
  | VStr zone =>
      match policy with
      | VBigInt policy =>
          if negb (policy =? 0) && negb (policy =? 1) then Ret (Failure (badOption (js "policy")), w)
          else if negb (civilValid parts) then Ret (Failure (badOption (js "parts")), w)
          else
            match zoneOf zone with
            | None => Ret (Failure (badZone zone), w)
            | Some offset =>
                match utcMillis (whole_seconds parts) with
                | None => Ret (Failure (badOption (js "parts")), w)
                | Some base =>
                    match pick policy (candidates offset base parts) with
                    | None => Ret (Failure nonexistent, w)
                    | Some chosen =>
                        let millis := chosen + millisecond parts in
                        if in_range millis then let (h, w) := mint w millis in Ret (Success h, w)
                        else Ret (Failure (outOfRange millis), w)
                    end
                end
            end
      | _ => Ret (Failure (badOption (js "policy")), w)
      end
  | _ => Throw "invalid compiler zone"
  end.
End times.

(** ** Resolution finds every reading of a civil time *)

(** Offsets are whole seconds and less than a day. *)
Definition zone_ok (zone : Z -> Z) : Prop := forall t, zone t mod 1000 = 0 /\ Z.abs (zone t) < msPerDay.

(** Between two times the zone changes at most once. *)
Definition one_transition (zone : Z -> Z) (lo hi : Z) : Prop :=
  exists at_ before after, forall t, lo <= t <= hi -> zone t = if t <? at_ then before else after.

(** The clocks of the zone show the civil time, to the second, at the instant [t]. *)
Definition reads (zone : Z -> Z) (t : Z) (c : Civil) : Prop := civil_of (t + zone t) = whole_seconds c.

Lemma sameSecond_spec a b : sameSecond a b = true <-> whole_seconds a = whole_seconds b.
Proof.
  unfold sameSecond, whole_seconds. rewrite !andb_true_iff, !Z.eqb_eq. split; [intros; destruct_and!; congruence |].
  intros [= -> -> -> -> -> ->]. done.
Qed.

Lemma whole_seconds_valid c : civilValid c = true -> civilValid (whole_seconds c) = true.
Proof. rewrite !civilValid_spec. cbn. lia. Qed.

Lemma whole_seconds_time t : t mod 1000 = 0 -> whole_seconds (civil_of t) = civil_of t.
Proof.
  intros Ht. unfold whole_seconds, civil_of. cbn. f_equal. unfold msPerDay. Z.to_euclidean_division_equations; lia.
Qed.

(** Where the times of the years 1 to 275759 lie. *)
Lemma year_bounds t : 1 <= year (civil_of t) <= 275759 <-> DayFromYear 1 * msPerDay <= t < DayFromYear 275760 * msPerDay.
Proof.
  pose proof (YearFromDay_spec (t / msPerDay)) as Hy. pose proof (DayFromYear_S (YearFromDay (t / msPerDay))) as HS.
  pose proof (Z.div_mod t msPerDay ltac:(done)) as Ht. pose proof (Z.mod_pos_bound t msPerDay ltac:(done)) as Hm.
  unfold civil_of. cbn [year]. set (y := YearFromDay (t / msPerDay)) in *.
  assert (1 <= y <-> DayFromYear 1 <= t / msPerDay) as H1.
  { split; intros H; [pose proof (DayFromYear_mono 1 y H); lia |].
    destruct (Z.le_gt_cases 1 y); [done |]. pose proof (DayFromYear_mono (y + 1) 1). lia. }
  assert (y <= 275759 <-> t / msPerDay < DayFromYear 275760) as H2.
  { split; intros H; [pose proof (DayFromYear_mono (y + 1) 275760); lia |].
    destruct (Z.le_gt_cases y 275759); [done |]. pose proof (DayFromYear_mono 275760 y). lia. }
  change (DayFromYear 1) with (-719162) in *. change (DayFromYear 275760) with 99999744 in *. unfold msPerDay in *. lia.
Qed.

Section resolution.
Context (zone : Z -> Z) (Hzone : zone_ok zone) (c : Civil) (Hc : civilValid c = true) (Hyear : 2 <= year c <= 275759).

#[local] Abbreviation base := (civil_time (whole_seconds c)).

Lemma base_bounds : DayFromYear 2 * msPerDay <= base < DayFromYear 275760 * msPerDay /\ base mod 1000 = 0.
Proof using Hc Hyear.
  pose proof (MakeDay_in_year _ (whole_seconds_valid _ Hc)) as Hd. pose proof (time_in_day_bounds _ (whole_seconds_valid _ Hc)) as Ht.
  pose proof (DayFromYear_S (year c)) as HS. pose proof (DayFromYear_mono 2 (year c) ltac:(lia)). pose proof (DayFromYear_mono (year c + 1) 275760 ltac:(lia)).
  unfold civil_time. cbn [year month day whole_seconds] in *. split; [unfold msPerDay in *; lia |].
  unfold time_in_day, msPerDay. cbn. Z.to_euclidean_division_equations; lia.
Qed.

Lemma base_utc : utcMillis (whole_seconds c) = Some base.
Proof using Hc Hyear.
  apply utcMillis_civil_time; [by apply whole_seconds_valid | cbn; lia |].
  destruct base_bounds as [H _]. change (DayFromYear 275760) with 99999744 in H. unfold MAX_MILLIS, msPerDay in *. lia.
Qed.

(** Around the civil time the formatter tells the truth. *)
Lemma parts_around t : Z.abs (t - base) <= 2 * msPerDay -> t mod 1000 = 0 ->
  zonedParts zone t = Some (civil_of (t + zone t)) /\ civilValid (civil_of (t + zone t)) = true
  /\ 1 <= year (civil_of (t + zone t)).
Proof using Hc Hyear Hzone.
  intros Ht Hms. destruct (Hzone t) as [Hmod Habs]. destruct base_bounds as [Hb _].
  assert (1 <= year (civil_of (t + zone t)) <= 275760) as Hy.
  { split.
    - pose proof (YearFromDay_spec ((t + zone t) / msPerDay)) as Hy. cbn [year civil_of].
      set (y := YearFromDay _) in *. destruct (Z.le_gt_cases 1 y); [done |].
      pose proof (DayFromYear_S y). pose proof (DayFromYear_mono (y + 1) 1 ltac:(lia)).
      change (DayFromYear 2) with (-718797) in *. change (DayFromYear 1) with (-719162) in *.
      pose proof (Z.div_mod (t + zone t) msPerDay ltac:(done)). pose proof (Z.mod_pos_bound (t + zone t) msPerDay ltac:(done)).
      unfold msPerDay in *. lia.
    - pose proof (YearFromDay_spec ((t + zone t) / msPerDay)) as Hy. cbn [year civil_of].
      set (y := YearFromDay _) in *. destruct (Z.le_gt_cases y 275760); [done |].
      pose proof (DayFromYear_mono 275761 y ltac:(lia)). change (DayFromYear 275761) with 100000110 in *.
      change (DayFromYear 275760) with 99999744 in *.
      pose proof (Z.div_mod (t + zone t) msPerDay ltac:(done)). pose proof (Z.mod_pos_bound (t + zone t) msPerDay ltac:(done)).
      unfold msPerDay in *. lia. }
  split_and!; [| apply civil_of_valid; lia | lia].
  unfold zonedParts. rewrite TimeClip_in.
  2: { change (DayFromYear 2) with (-718797) in *. change (DayFromYear 275760) with 99999744 in *. unfold MAX_MILLIS, msPerDay in *. lia. }
  cbn [mbind option_bind]. rewrite whole_seconds_time by (rewrite Z.add_mod, Hms, Hmod by done; done).
  destruct (Z.leb_spec (year (civil_of (t + zone t))) 0); [lia |]. f_equal.
  rewrite <- (whole_seconds_time (t + zone t)) at 7 by (rewrite Z.add_mod, Hms, Hmod by done; done). done.
Qed.

Lemma offset_around t : Z.abs (t - base) <= msPerDay -> t mod 1000 = 0 -> offsetAt zone t = Some (zone t).
Proof using Hc Hyear Hzone.
  intros Ht Hms. destruct (Hzone t) as [Hmod Habs]. destruct base_bounds as [Hb _].
  destruct (parts_around t) as (Hp & Hv & Hy); [lia | done |]. unfold offsetAt. rewrite Hp. cbn [mbind option_bind].
  rewrite whole_seconds_time by (rewrite Z.add_mod, Hms, Hmod by done; done).
  assert (civil_time (civil_of (t + zone t)) <= MAX_MILLIS) as Hmax.
  { rewrite civil_of_time. change (DayFromYear 275760) with 99999744 in *. unfold MAX_MILLIS, msPerDay in *. lia. }
  rewrite utcMillis_civil_time by done. cbn [mbind option_bind]. rewrite civil_of_time. f_equal. lia.
Qed.

Lemma add_offset_elem offs off o : o ∈ add_offset offs off <-> o ∈ offs \/ o = off.
Proof. unfold add_offset. case_bool_decide; rewrite ?elem_of_app, ?list_elem_of_singleton; naive_solver. Qed.

Lemma offsets_elem o : o ∈ offsets_around zone base <-> o ∈ [zone (base - msPerDay); zone base; zone (base + msPerDay)].
Proof using Hc Hyear Hzone.
  destruct base_bounds as [_ Hb]. unfold offsets_around. cbn [omap list_omap].
  rewrite !offset_around by (unfold msPerDay; Z.to_euclidean_division_equations; lia). cbn [fold_left].
  rewrite !add_offset_elem, !elem_of_cons, elem_of_nil. tauto.
Qed.

(** A candidate is a reading whose offset is in effect at a probe. *)
Lemma candidates_elem t : t ∈ candidates zone base c <->
  reads zone t c /\ zone t ∈ [zone (base - msPerDay); zone base; zone (base + msPerDay)].
Proof using Hc Hyear Hzone.
  destruct base_bounds as [_ Hb]. unfold candidates. rewrite list_elem_of_omap.
  assert (forall o, o mod 1000 = 0 -> Z.abs o < msPerDay ->
    (back ← zonedParts zone (base - o); if sameSecond back c then Some (base - o) else None) = Some t <->
    t = base - o /\ reads zone t c) as Hcand.
  { intros o Ho Habs. assert ((base - o) mod 1000 = 0) as Hms by (Z.to_euclidean_division_equations; lia).
    destruct (parts_around (base - o)) as (-> & _); [lia | done |]. cbn [mbind option_bind]. unfold reads.
    destruct (Hzone (base - o)) as [Hmod _].
    assert (whole_seconds (civil_of (base - o + zone (base - o))) = civil_of (base - o + zone (base - o))) as Hw.
    { apply whole_seconds_time. rewrite Z.add_mod, Hms, Hmod by done. done. }
    destruct (sameSecond _ c) eqn:Hs.
    - apply sameSecond_spec in Hs. rewrite Hw in Hs. split; [intros [= <-]; done | intros [-> _]; done].
    - split; [done |]. intros [-> Hr]. apply not_true_iff_false in Hs. destruct Hs. apply sameSecond_spec. by rewrite Hw, Hr. }
  assert (forall u, reads zone u c -> u + zone u = base) as Hread.
  { intros u Hu. unfold reads in Hu. rewrite <- (civil_of_time (u + zone u)). by rewrite Hu. }
  split.
  - intros (o & Ho & Hx). rewrite offsets_elem in Ho.
    assert (o mod 1000 = 0 /\ Z.abs o < msPerDay) as [Hm Ha].
    { rewrite !elem_of_cons, elem_of_nil in Ho. destruct Ho as [->|[->|[->|[]]]]; apply Hzone. }
    apply Hcand in Hx as [-> Hr]; [| done..]. split; [done |]. pose proof (Hread _ Hr). by replace (zone (base - o)) with o by lia.
  - intros [Hr Ho]. exists (zone t). split; [by rewrite offsets_elem |]. apply Hcand; [apply Hzone.. |].
    split; [| done]. specialize (Hread _ Hr). lia.
Qed.

(** With one transition in the window no reading is missed. *)
Lemma candidates_complete t : one_transition zone (base - msPerDay) (base + msPerDay) ->
  t ∈ candidates zone base c <-> reads zone t c.
Proof using Hc Hyear Hzone.
  intros (at_ & before & after & Hone). rewrite candidates_elem. split; [tauto |]. intros Hr. split; [done |].
  assert (t + zone t = base) as Ht by (rewrite <- (civil_of_time (t + zone t)), Hr; done).
  destruct (Hzone t) as [_ Habs]. rewrite (Hone t) by lia.
  rewrite (Hone (base - msPerDay)), (Hone (base + msPerDay)) by (unfold msPerDay; lia).
  rewrite !elem_of_cons. destruct (Z.ltb_spec t at_).
  - left. by rewrite (proj2 (Z.ltb_lt _ _)) by lia.
  - right. right. left. by rewrite (proj2 (Z.ltb_ge _ _)) by lia.
Qed.
End resolution.

(** The end of a sorted list is its greatest element, whatever the default is. *)
Lemma sorted_last l d : StronglySorted Z.le l -> l <> [] ->
  List.last l d ∈ l /\ forall u, u ∈ l -> u <= List.last l d.
Proof.
  intros Hs Hl. destruct (exists_last Hl) as (k & z & ->). rewrite last_last. split; [set_solver |].
  intros u [Hu | ->%list_elem_of_singleton]%elem_of_app; [| lia].
  apply StronglySorted_app in Hs as (Hk & _). apply Hk; [done | set_solver].
Qed.

(** The earliest of a list, or the latest under policy 1. *)
Lemma pick_spec policy cs : policy = 0 \/ policy = 1 ->
  match pick policy cs with
  | None => cs = []
  | Some t => t ∈ cs /\ forall u, u ∈ cs -> if policy =? 0 then t <= u else u <= t
  end.
Proof.
  intros Hp. unfold pick.
  assert (StronglySorted Z.le (merge_sort Z.le cs)) as Hs.
  { by apply (StronglySorted_merge_sort _). }
  pose proof (merge_sort_Permutation Z.le cs) as Hperm.
  assert (forall u, u ∈ cs <-> u ∈ merge_sort Z.le cs) as Hin by (intros u; by rewrite Hperm).
  destruct (merge_sort Z.le cs) as [|x l] eqn:Hm; [by apply Permutation_nil in Hperm |].
  destruct (sorted_last (x :: l) x Hs ltac:(done)) as [Hlin Hlast].
  apply StronglySorted_inv in Hs as [_ Hx]. rewrite Forall_forall in Hx.
  assert (forall u, u ∈ x :: l -> x <= u) as Hfirst.
  { intros u [->|Hu]%elem_of_cons; [lia | by apply Hx]. }
  destruct (length (x :: l) =? 1)%nat eqn:Hlen.
  - apply Nat.eqb_eq in Hlen. destruct l; [| done]. split; [apply Hin; by left |].
    intros u Hu%Hin. apply list_elem_of_singleton in Hu as ->. case_match; lia.
  - destruct Hp as [-> | ->]; cbn [Z.eqb].
    + split; [apply Hin; by left | intros u Hu%Hin; auto].
    + split; [by apply Hin | intros u Hu%Hin; auto].
Qed.

(** C36. A civil time of the years 2 to 275759, in a zone whose offsets are whole seconds
    below a day and that changes its offset at most once within a day of it, is resolved to an instant at which the clocks of the
    zone show it: the earliest of them, or the latest under policy 1; its
    milliseconds are added, and the handle is a new one.  When no clock shows it, in
    a gap or on a date that the month does not have, it is reported as nonexistent,
    and nothing else is. *)
Theorem zoned_times_resolve zoneOf w civil zone policy c offset :
  let base := civil_time (whole_seconds c) in
  civilOf (t_heap w) civil = Ret c -> civilValid c = true -> 2 <= year c <= 275759 ->
  zoneOf zone = Some offset -> zone_ok offset -> one_transition offset (base - msPerDay) (base + msPerDay) ->
  policy = 0 \/ policy = 1 ->
  exists out w', resolveZonedTime zoneOf w civil (VStr zone) (VBigInt policy) = Ret (out, w')
    /\ match out with
       | Success handle =>
           exists t, instant_of w' handle = Some (t + millisecond c) /\ reads offset t c
             /\ (forall u, reads offset u c -> if policy =? 0 then t <= u else u <= t)
             /\ instants w' = <[fresh (t_heap w) := t + millisecond c]> (instants w)
       | Failure nonexistent => (forall t, ~ reads offset t c) /\ w' = w
       | Failure _ => False
       end.
Proof.
  intros base Hciv Hc Hy Hz Hok Hone Hp. unfold resolveZonedTime. rewrite Hciv. cbn [res_bind].
  replace (negb (policy =? 0) && negb (policy =? 1)) with false by by destruct Hp as [-> | ->].
  rewrite Hc, Hz, base_utc by done. cbn [negb]. fold base.
  pose proof (fun t => candidates_complete offset Hok c Hc Hy t Hone) as Hall. fold base in Hall.
  pose proof (pick_spec policy (candidates offset base c) Hp) as Hpick.
  destruct (pick policy (candidates offset base c)) as [t|].
  - destruct Hpick as [Ht Hbest]. apply Hall in Ht.
    assert (in_range (t + millisecond c) = true) as Hin.
    { assert (t + offset t = base) as Hb by (rewrite <- (civil_of_time (t + offset t)), Ht; done).
      destruct (base_bounds c Hc Hy) as [Hbase _]. fold base in Hbase. destruct (Hok t) as [_ Habs]. apply civilValid_spec in Hc.
      change (DayFromYear 2) with (-718797) in *. change (DayFromYear 275760) with 99999744 in *.
      unfold in_range. unfold MAX_MILLIS, msPerDay in *. apply andb_true_iff. rewrite !Z.leb_le. lia. }
    rewrite Hin. cbn. eexists _, _. split; [reflexivity |]. exists t. cbn. rewrite lookup_insert_eq.
    split_and!; [done | done | | done]. intros u Hu. by apply Hbest, Hall.
  - eexists _, _. split; [reflexivity |]. split; [| done]. intros t Ht. apply Hall in Ht. rewrite Hpick in Ht. set_solver.
Qed.

(** ** An autumn night *)

(** Clocks go back by an hour at 2026-11-01T06:00Z. *)
Definition new_york (t : Z) : Z := if t <? 1793512800000 then -14400000 else -18000000.

Definition night (month_ day_ year_ : Z) : list (key * descriptor) :=
  [(KStr (js "year"), DataProp (VBigInt year_)); (KStr (js "month"), DataProp (VBigInt month_)); (KStr (js "day"), DataProp (VBigInt day_));
   (KStr (js "hour"), DataProp (VBigInt 1)); (KStr (js "minute"), DataProp (VBigInt 30)); (KStr (js "second"), DataProp (VBigInt 0));
   (KStr (js "millisecond"), DataProp (VBigInt 7))].

Definition night_world (month_ day_ year_ : Z) : time_world :=
  mkTimeWorld (mkHeap {[0%nat := mkObject false false false true (night month_ day_ year_)]} ∅ ∅ 1%nat) ∅.

Definition resolved (month_ day_ year_ policy : Z) : option (time_result (option Z)) :=
  match resolveZonedTime (fun _ => Some new_york) (night_world month_ day_ year_) (VRef 0%nat) (VStr (js "America/New_York")) (VBigInt policy) with
  | Ret (Success h, w) => Some (Success (instant_of w h))
  | Ret (Failure f, _) => Some (Failure f)
  | Throw _ => None
  end.

Example both_policies :
  resolved 11 1 2026 0 = Some (Success (Some 1793511000007)) /\ resolved 11 1 2026 1 = Some (Success (Some 1793514600007)).
Proof. vm_compute. done. Qed.

Example no_such_date : resolved 2 30 2026 0 = Some (Failure nonexistent).
Proof. vm_compute. reflexivity. Qed.

(** Years before the year 1 are accepted as parts, but the formatter writes them in
    their own era, so that nothing reads back. *)
Example years_before_the_era : resolved 3 1 0 0 = Some (Failure nonexistent) /\ resolved 3 1 (-44) 0 = Some (Failure nonexistent).
Proof. vm_compute. done. Qed.

Lemma zoned_times_resolve_witness :
  exists out w', resolveZonedTime (fun _ => Some new_york) (night_world 11 1 2026) (VRef 0%nat) (VStr (js "America/New_York")) (VBigInt 1) = Ret (out, w')
    /\ match out with
       | Success handle =>
           exists t, instant_of w' handle = Some (t + 7) /\ reads new_york t (mkCivil 2026 11 1 1 30 0 7)
             /\ (forall u, reads new_york u (mkCivil 2026 11 1 1 30 0 7) -> u <= t)
             /\ instants w' = <[1%nat := t + 7]> ∅
       | Failure nonexistent => (forall t, ~ reads new_york t (mkCivil 2026 11 1 1 30 0 7)) /\ w' = night_world 11 1 2026
       | Failure _ => False
       end.
Proof.
  apply (zoned_times_resolve (fun _ => Some new_york) (night_world 11 1 2026) (VRef 0%nat) (js "America/New_York") 1
    (mkCivil 2026 11 1 1 30 0 7) new_york).
  - vm_compute. reflexivity.
  - vm_compute. reflexivity.
  - cbn. lia.
  - reflexivity.
  - intros t. unfold new_york. case_match; split; done.
  - exists 1793512800000, (-14400000), (-18000000). intros t _. reflexivity.
  - right. reflexivity.
Defined.
