(* ===== verification/FormTheorems.v ===== *)
(** * Theorems about forms

    A submission is decoded exactly when it is, name by name, the submission of a
    valid form; a rejected one keeps every pair it knows. *)
From stdpp Require Import base sets gmap list strings.
From Stdlib Require Import ZArith Lia.
From S2P Require Import Prelude JsNumber JsString JsValue Completion Numbers Unicode Bytes Text Uri Data Digits Codec DataFacts JsonCodec Form.

(** ** The text of a form

    [URLSearchParams] reads what the strict check reads: on UTF-16 text and on its
    UTF-8 bytes alike. *)

(** ** Spellings

    A spelling writes each scalar as units, ASCII as itself and nothing else with
    an ASCII unit: UTF-16 and UTF-8 both do. *)
Section spelling.
Context (f : N -> list N).

Definition spelling : Prop :=
  (forall c, (c < 0x80)%N -> f c = [c]) /\ (forall c, is_scalar c = true -> (0x80 <= c)%N -> Forall (fun u => 0x80 <= u)%N (f c)).

Definition spell (cs : list N) : list N := mjoin (f <$> cs).

Lemma spell_cons c cs : spell (c :: cs) = f c ++ spell cs.
Proof. done. Qed.

Lemma spell_app a b : spell (a ++ b) = spell a ++ spell b.
Proof. unfold spell. by rewrite fmap_app, mjoin_app. Qed.

Context (Hf : spelling).
Abbreviation scalar_list := (Forall (fun c => is_scalar c = true)).

(** A unit below 0x80 is the scalar itself. *)
Lemma spells_ascii c u : is_scalar c = true -> (u < 0x80)%N -> u ∈ f c -> c = u /\ f c = [u].
Proof using Hf.
  destruct Hf as [H1 H2]. intros Hc Hu Hin. destruct (N.lt_ge_cases c 0x80) as [Hlt|Hge].
  - rewrite (H1 c Hlt) in *. apply list_elem_of_singleton in Hin. by subst.
  - specialize (H2 c Hc Hge). rewrite Forall_forall in H2. specialize (H2 u Hin). lia.
Qed.

Lemma split_spell sep cs :
  (sep < 0x80)%N -> scalar_list cs -> split_char sep (spell cs) = spell <$> split_char sep cs.
Proof using Hf.
  intros Hs. induction 1 as [|c cs Hc Hcs IH]; [done |]. rewrite spell_cons. cbn [split_char].
  destruct (N.eqb_spec c sep) as [->|Hne].
  - rewrite (proj1 Hf) by done. cbn. by rewrite N.eqb_refl, IH.
  - assert (sep ∉ f c) as Hn by (intros Hin; by apply (spells_ascii c sep Hc Hs) in Hin as [-> _]).
    revert IH. generalize (spell cs). intros t IH.
    assert (forall l, sep ∉ l -> split_char sep (l ++ t) = match split_char sep t with p :: ps => (l ++ p) :: ps | [] => [l] end) as Hl.
    { induction l as [|x l IHl]; intros Hx; cbn [app split_char].
      - pose proof (split_char_nonempty sep t). by destruct (split_char sep t).
      - apply not_elem_of_cons in Hx as [Hx Hl]. destruct (N.eqb_spec x sep); [done |]. rewrite IHl by done.
        by destruct (split_char sep t). }
    rewrite Hl, IH by done. pose proof (split_char_nonempty sep cs).
    destruct (split_char sep cs) as [|p ps]; [done |]. by rewrite !fmap_cons, spell_cons.
Qed.

Lemma index_spell u cs :
  (u < 0x80)%N -> scalar_list cs ->
  match index_of [u] cs with
  | Some i => index_of [u] (spell cs) = Some (length (spell (take i cs)))
              /\ drop (S (length (spell (take i cs)))) (spell cs) = spell (drop (S i) cs)
              /\ take (length (spell (take i cs))) (spell cs) = spell (take i cs)
  | None => index_of [u] (spell cs) = None
  end.
Proof using Hf.
  intros Hu. assert (forall x l, index_of [u] (x :: l) = if (u =? x)%N then Some 0%nat else S <$> index_of [u] l) as Hi.
  { intros x l. cbn. by rewrite andb_true_r. }
  induction 1 as [|c cs Hc Hcs IH]; [done |]. rewrite Hi. destruct (N.eqb_spec u c) as [<-|Hne].
  - rewrite spell_cons, (proj1 Hf) by done. cbn [app]. rewrite Hi, N.eqb_refl. done.
  - assert (u ∉ f c) as Hn by (intros Hin; by apply (spells_ascii c u Hc Hu) in Hin as [<- _]).
    assert (forall l t, u ∉ l -> index_of [u] (l ++ t) = Nat.add (length l) <$> index_of [u] t) as Hl.
    { induction l as [|x l IHl]; intros t Hx; [cbn [app]; by destruct (index_of [u] t) |].
      apply not_elem_of_cons in Hx as [Hx Hl]. cbn [app]. rewrite Hi, IHl by done.
      destruct (N.eqb_spec u x); [done |]. by destruct (index_of [u] t). }
    rewrite spell_cons, Hl by done. destruct (index_of [u] cs) as [i|].
    + destruct IH as (H1 & H2 & H3). rewrite H1. cbn [take fmap option_fmap option_map]. rewrite spell_cons, length_app.
      split; [done |]. split.
      * rewrite <- Nat.add_succ_r, <- drop_drop, drop_app_length, H2. done.
      * rewrite take_app_add, H3. done.
    + by rewrite IH.
Qed.

Lemma name_value_spell cs :
  scalar_list cs -> name_value (spell cs) = (let '(a, b) := name_value cs in (spell a, spell b)).
Proof using Hf.
  intros Hcs. unfold name_value. pose proof (index_spell 61 cs ltac:(lia) Hcs) as H.
  destruct (index_of [61%N] cs) as [i|]; [| by rewrite H]. destruct H as (-> & -> & ->). done.
Qed.

Lemma plus_spell cs : scalar_list cs -> plus_spaces (spell cs) = spell (plus_spaces cs).
Proof using Hf.
  induction 1 as [|c cs Hc Hcs IH]; [done |]. unfold plus_spaces in *. rewrite spell_cons, fmap_app, IH, fmap_cons, spell_cons.
  f_equal. destruct (N.eqb_spec c 43) as [->|Hne]; [by rewrite !(proj1 Hf) |].
  assert (43%N ∉ f c) as Hn by (intros Hin; by apply (spells_ascii c 43 Hc) in Hin as [-> _]).
  induction (f c) as [|x l IHl]; [done |]. apply not_elem_of_cons in Hn as [Hx Hl]. cbn. rewrite IHl by done.
  destruct (N.eqb_spec x 43); [congruence | done].
Qed.
End spelling.

Lemma utf16_spelling : spelling utf16.
Proof.
  split; intros c; unfold utf16; [intros Hc; by rewrite ltb_true by lia |]. intros _ Hc.
  case_match; repeat (apply Forall_cons_2; [first [lia | eapply N.le_trans; [| apply N.le_add_r]; lia] |]); apply Forall_nil_2.
Qed.

Lemma utf8_spelling : spelling Unicode.utf8.
Proof.
  split; intros c; unfold Unicode.utf8; [intros Hc; by rewrite ltb_true by lia |]. intros _ Hc.
  rewrite ltb_false by lia. repeat case_match; repeat (apply Forall_cons_2; [first [lia | eapply N.le_trans; [| apply N.le_add_r]; lia] |]); apply Forall_nil_2.
Qed.

(** ** Percent decoding *)

Abbreviation scalar_list := (Forall (fun c => is_scalar c = true)).
Abbreviation text16 := (spell utf16).
Abbreviation bytes8 := (spell Unicode.utf8).

Lemma hex_value_ascii u v : hex_value u = Some v -> (u < 0x80)%N.
Proof.
  unfold hex_value, is_digit. intros H. destruct (N.lt_ge_cases u 0x80) as [|Hge]; [done |].
  rewrite !(proj2 (andb_false_iff _ _)) in H by (right; apply N.leb_gt; lia). done.
Qed.

(** The first unit of a text is ASCII when it is the first scalar. *)
Lemma text16_head cs u r :
  scalar_list cs -> (u < 0x80)%N -> text16 cs = u :: r -> exists cs', cs = u :: cs' /\ scalar_list cs' /\ r = text16 cs'.
Proof.
  intros Hcs Hu H. destruct Hcs as [|c cs Hc Hcs]; [done |]. rewrite spell_cons in H.
  assert (u ∈ utf16 c) as Hin.
  { unfold utf16 in *. case_match; cbn in H; injection H as H _; rewrite <- H; by left. }
  apply (spells_ascii utf16 utf16_spelling) in Hin as [-> Hf]; [| done..]. rewrite Hf in H. injection H as <-. eauto.
Qed.

Lemma escape_text cs b r :
  scalar_list cs -> escape (text16 cs) = Some (b, r) ->
  exists cs', scalar_list cs' /\ r = text16 cs' /\ (length cs' < length cs)%nat
    /\ percent_decode (bytes8 cs) = b :: percent_decode (bytes8 cs').
Proof.
  intros Hcs H. unfold escape in H.
  destruct (text16 cs) as [|p [|h [|l t]]] eqn:Ht; repeat case_match; simplify_eq.
  apply text16_head in Ht as (cs1 & -> & H1 & Ht); [| done | lia].
  symmetry in Ht. apply text16_head in Ht as (cs2 & -> & H2 & Ht); [| done | by eapply hex_value_ascii].
  symmetry in Ht. apply text16_head in Ht as (cs3 & -> & H3 & Ht); [| done | by eapply hex_value_ascii].
  exists cs3. split_and!; [done | done | cbn; lia |].
  rewrite !spell_cons, !(proj1 utf8_spelling) by (by eapply hex_value_ascii) || lia.
  cbn [app percent_decode]. rewrite N.eqb_refl. simplify_option_eq. done.
Qed.

Lemma escapes_text n cs bs r :
  scalar_list cs -> escapes n (text16 cs) = Some (bs, r) ->
  exists cs', scalar_list cs' /\ r = text16 cs' /\ (length cs' <= length cs)%nat
    /\ percent_decode (bytes8 cs) = bs ++ percent_decode (bytes8 cs').
Proof.
  revert cs bs. induction n as [|n IH]; intros cs bs Hcs H; cbn in H; [simplify_eq; by exists cs |].
  destruct (escape (text16 cs)) as [[b t]|] eqn:He; [| done].
  apply escape_text in He as (cs1 & H1 & -> & Hl & Hp); [| done].
  destruct (escapes n (text16 cs1)) as [[bs' r']|] eqn:Hs; [| done]. cbn in H. simplify_eq.
  apply IH in Hs as (cs2 & H2 & -> & Hl' & Hp'); [| done].
  exists cs2. split_and!; [done | done | lia |]. by rewrite Hp, Hp'.
Qed.

Lemma percent_decode_plain l t : 37%N ∉ l -> percent_decode (l ++ t) = l ++ percent_decode t.
Proof.
  induction l as [|b l IH]; intros H; [done |]. apply not_elem_of_cons in H as [Hb Hl]. cbn [app percent_decode].
  destruct (N.eqb_spec b 37); [congruence |]. by rewrite IH.
Qed.

(** What [decodeURIComponent] reads in the text, percent decoding and UTF-8
    decoding read in its bytes. *)
Lemma decode_units_bytes n : forall cs fuel t,
  (length cs <= n)%nat -> scalar_list cs -> decode_units fuel (text16 cs) = Some t ->
  exists ds, scalar_list ds /\ t = text16 ds /\ percent_decode (bytes8 cs) = bytes8 ds.
Proof.
  induction n as [|n IH]; intros cs fuel t Hn Hcs H.
  { destruct cs; [| cbn in Hn; lia]. exists []. destruct fuel; cbn in H; by simplify_eq. }
  destruct Hcs as [|c cs Hc Hcs]; [exists []; destruct fuel; cbn in H; by simplify_eq |].
  cbn in Hn. destruct (N.eq_dec c 37) as [->|Hne].
  - destruct fuel as [|fuel]; [done |].
    assert (decode_units (S fuel) (text16 (37%N :: cs))
      = match escaped_scalar (text16 (37%N :: cs)) with None => None | Some (p, rest) => app (utf16 p) <$> decode_units fuel rest end) as E by done.
    rewrite E in H. clear E. unfold escaped_scalar in H.
    destruct (escape (text16 (37%N :: cs))) as [[b ?]|]; [| done]. destruct (following b) as [k|]; [| done].
    destruct (escapes (S k) (text16 (37%N :: cs))) as [[bs rest]|] eqn:Hs; [| done].
    destruct (utf8_scalar bs) as [[p [|? ?]]|] eqn:Hu; [| done..].
    apply utf8_scalar_decode in Hu as [Hp Hbs]. rewrite app_nil_r in Hbs. subst bs.
    assert (exists cs', scalar_list cs' /\ rest = text16 cs' /\ (length cs' <= length cs)%nat
      /\ percent_decode (bytes8 (37%N :: cs)) = Unicode.utf8 p ++ percent_decode (bytes8 cs')) as (cs' & H1 & -> & H2 & H3).
    { cbn [escapes] in Hs. destruct (escape (text16 (37%N :: cs))) as [[b' t']|] eqn:He; [| done].
      apply escape_text in He as (cs1 & H1 & -> & Hl & Hpd); [| by constructor].
      destruct (escapes k (text16 cs1)) as [[bs' r']|] eqn:Hs'; [| done]. cbn in Hs. injection Hs as Hb ->.
      apply escapes_text in Hs' as (cs2 & H2 & -> & Hl' & Hp'); [| done]. cbn in Hl.
      exists cs2. split_and!; [done | done | lia |]. by rewrite Hpd, Hp', <- Hb. }
    destruct (decode_units fuel (text16 cs')) as [t'|] eqn:Hd; [| done]. cbn in H. injection H as <-.
    apply IH in Hd as (ds & Hds & -> & Hpd); [| lia | done].
    exists (p :: ds). split_and!; [by constructor | done |]. by rewrite H3, Hpd.
  - assert (37%N ∉ Unicode.utf8 c) as H8
      by (intros Hin; apply (spells_ascii _ utf8_spelling) in Hin as [? _]; [congruence | done | lia]).
    assert (37%N ∉ utf16 c) as H16
      by (intros Hin; apply (spells_ascii _ utf16_spelling) in Hin as [? _]; [congruence | done | lia]).
    rewrite !spell_cons, percent_decode_plain by done. rewrite spell_cons in H.
    assert (exists fuel', decode_units fuel (utf16 c ++ text16 cs) = app (utf16 c) <$> decode_units fuel' (text16 cs)
      \/ decode_units fuel (utf16 c ++ text16 cs) = None) as [fuel' Hd].
    { clear -H16. revert H16. generalize (text16 cs). intros r. revert fuel. induction (utf16 c) as [|u l IHl]; intros fuel Hl.
      - exists fuel. left. cbn [app]. by destruct (decode_units fuel r).
      - apply not_elem_of_cons in Hl as [Hu Hl]. destruct fuel as [|fuel]; [exists O; by right |].
        destruct (IHl fuel Hl) as [fuel' IH']. exists fuel'. cbn [app decode_units].
        destruct (N.eqb_spec u 37); [congruence |]. destruct IH' as [-> | ->]; [left | by right].
        by destruct (decode_units fuel' r). }
    destruct Hd as [Hd | Hd]; rewrite Hd in H; [| done].
    destruct (decode_units fuel' (text16 cs)) as [t'|] eqn:Ht; [| done]. cbn in H. injection H as <-.
    apply IH in Ht as (ds & Hds & -> & Hpd); [| lia | done].
    exists (c :: ds). split_and!; [by constructor | done |]. by rewrite Hpd.
Qed.

(** ** The strict reading *)

(** What the strict check reads in one piece, and in a body. *)
Definition strict_pair (piece : jstr) : option (jstr * jstr) :=
  let '(key, value) := name_value piece in
  match decodeURIComponent (plus_spaces key), decodeURIComponent (plus_spaces value) with
  | Some k, Some v => Some (k, v)
  | _, _ => None
  end.

Definition drop_question (text : jstr) : jstr := match text with 63%N :: rest => rest | _ => text end.

Definition strict_pairs (text : jstr) : option (list (jstr * jstr)) :=
  mapM strict_pair (filter (fun p => p <> []) (split_char 38 (drop_question text))).

(** A decoder with replacement replaces nothing in valid UTF-8. *)
Definition replaces_invalid (decode_replacing : list N -> jstr) : Prop :=
  forall bytes text, utf8_decode bytes = Some text -> decode_replacing bytes = text.

Lemma check_pairs_ok pieces :
  check_pairs pieces = Coded tt <-> Forall (fun p => p <> [] -> is_Some (strict_pair p)) pieces.
Proof.
  induction pieces as [|p pieces IH]; [done |]. rewrite Forall_cons.
  destruct p as [|u p]; [cbn [check_pairs]; rewrite IH; naive_solver |].
  cbn [check_pairs]. unfold strict_pair. destruct (name_value (u :: p)) as [k v].
  destruct (decodeURIComponent (plus_spaces k)); [| by split; [| intros [[? ?] _]]].
  destruct (decodeURIComponent (plus_spaces v)); [rewrite IH; naive_solver |].
  by split; [| intros [[? ?] _]].
Qed.

Lemma decode_cons u t : u <> 37%N -> decodeURIComponent (u :: t) = cons u <$> decodeURIComponent t.
Proof. intros Hu. unfold decodeURIComponent. cbn [length decode_units]. destruct (N.eqb_spec u 37); congruence. Qed.

(** A question mark in front of a name is part of the name for the check. *)
Lemma strict_pair_question p : is_Some (strict_pair (63%N :: p)) <-> is_Some (strict_pair p).
Proof.
  assert (name_value (63%N :: p) = (let '(k, v) := name_value p in (63%N :: k, v))) as H.
  { unfold name_value. cbn [index_of is_prefix]. change (index_of [61%N] (63%N :: p)) with (S <$> index_of [61%N] p).
    by destruct (index_of [61%N] p). }
  unfold strict_pair. rewrite H. destruct (name_value p) as [k v].
  change (plus_spaces (63%N :: k)) with (63%N :: plus_spaces k). rewrite decode_cons by done.
  destruct (decodeURIComponent (plus_spaces k)); cbn; [| done].
  destruct (decodeURIComponent (plus_spaces v)); [split; eauto | done].
Qed.

Lemma drop_question_other u rest : u <> 63%N -> drop_question (u :: rest) = u :: rest.
Proof. intros Hu. unfold drop_question. repeat case_match; congruence. Qed.

Lemma check_pairs_question text :
  check_pairs (split_char 38 text) = Coded tt <-> check_pairs (split_char 38 (drop_question text)) = Coded tt.
Proof.
  destruct text as [|u rest]; [done |]. destruct (decide (u = 63%N)) as [->|Hu].
  - cbn [drop_question].
    change (split_char 38 (63%N :: rest)) with (match split_char 38 rest with p :: ps => (63%N :: p) :: ps | [] => [[63%N]] end).
    pose proof (split_char_nonempty 38 rest). destruct (split_char 38 rest) as [|p ps]; [done |].
    rewrite !check_pairs_ok, !Forall_cons. pose proof (strict_pair_question p) as Hq.
    assert (is_Some (strict_pair [])) by (eexists; reflexivity).
    destruct (decide (p = [])) as [->|Hp]; naive_solver.
  - by rewrite drop_question_other.
Qed.

Lemma mapM_pieces {A B C} (f : A -> option C) (g : B -> C) (s : B -> A) l :
  Forall (fun b => forall c, f (s b) = Some c -> g b = c) l -> Forall (fun b => is_Some (f (s b))) l ->
  mapM f (s <$> l) = Some (g <$> l).
Proof.
  intros H1 H2. apply mapM_Some. induction l as [|b l IH]; [constructor |].
  apply Forall_cons in H1 as [Hb H1], H2 as [[c Hc] H2]. rewrite !fmap_cons. constructor; [| by apply IH].
  by rewrite (Hb c Hc).
Qed.

Section replacing.
Context (decode_replacing : list N -> jstr) (Hrep : replaces_invalid decode_replacing).

Lemma urlencoded_text_strict cs t :
  scalar_list cs -> decodeURIComponent (text16 cs) = Some t ->
  decode_replacing (percent_decode (bytes8 cs)) = t.
Proof using Hrep.
  intros Hcs Ht. eapply decode_units_bytes in Ht as (ds & Hds & -> & ->); [| done | done].
  apply Hrep. unfold utf8_decode, spell.
  by rewrite utf8_scalars_encode.
Qed.

Lemma plus_scalars cs : scalar_list cs -> scalar_list (plus_spaces cs).
Proof. intros H. apply Forall_fmap. eapply Forall_impl; [exact H |]. intros c Hc. cbn. by case_match. Qed.

Lemma urlencoded_pair_strict cs p :
  scalar_list cs -> strict_pair (text16 cs) = Some p -> urlencoded_pair decode_replacing (bytes8 cs) = p.
Proof using Hrep.
  intros Hcs. unfold strict_pair, urlencoded_pair, urlencoded_text.
  rewrite (name_value_spell _ utf16_spelling), (name_value_spell _ utf8_spelling) by done.
  assert (scalar_list (name_value cs).1 /\ scalar_list (name_value cs).2) as [Ha Hb].
  { unfold name_value. case_match; split; cbn; [by apply Forall_take | by apply Forall_drop | done | constructor]. }
  destruct (name_value cs) as [a b]. cbn in Ha, Hb.
  rewrite !(plus_spell _ utf16_spelling), !(plus_spell _ utf8_spelling) by done.
  destruct (decodeURIComponent (text16 (plus_spaces a))) eqn:E1; [| done].
  destruct (decodeURIComponent (text16 (plus_spaces b))) eqn:E2; [| done]. intros [= <-].
  by rewrite (urlencoded_text_strict _ _ (plus_scalars _ Ha) E1), (urlencoded_text_strict _ _ (plus_scalars _ Hb) E2).
Qed.

Lemma scalar_pieces cs sep : scalar_list cs -> Forall scalar_list (split_char sep cs).
Proof.
  induction 1 as [|c cs Hc Hcs IH]; [by repeat constructor |]. cbn [split_char]. case_match; [by constructor |].
  destruct (split_char sep cs) as [|p ps]; [by repeat constructor |]. apply Forall_cons in IH as [Hp Hps].
  constructor; [by constructor | done].
Qed.

Lemma spell_nonempty (f : N -> list N) c : (forall u, f u <> []) -> c <> [] -> spell f c <> [].
Proof. destruct c as [|u c]; [done |]. rewrite spell_cons. by intros Hf _ [H%Hf _]%app_nil. Qed.

Lemma utf16_nonempty u : utf16 u <> [].
Proof. unfold utf16. by case_match. Qed.
Lemma utf8_nonempty u : Unicode.utf8 u <> [].
Proof. intros H. pose proof (utf8_length u) as Hl. rewrite H in Hl. cbn in Hl. lia. Qed.

Lemma filter_spell (f : N -> list N) (css : list (list N)) :
  (forall c, f c <> []) ->
  filter (fun p => p <> []) (spell f <$> css) = spell f <$> filter (fun p => p <> []) css.
Proof.
  intros Hf. induction css as [|c css IH]; [done |]. rewrite fmap_cons, !filter_cons, IH.
  destruct (decide (c = [])) as [->|Hc]; [done |].
  rewrite !decide_True by (done || by apply spell_nonempty). done.
Qed.

Lemma drop_question_well_formed text :
  is_units text = true -> is_well_formed text = true ->
  is_units (drop_question text) = true /\ is_well_formed (drop_question text) = true.
Proof.
  destruct text as [|u rest]; [done |]. intros H1 H2.
  destruct (decide (u = 63%N)) as [->|Hu].
  - cbn in H1. by split.
  - by rewrite drop_question_other.
Qed.

(** (The strict check is exact.)  On well-formed text, [strictParameters] accepts a
    body exactly when every piece of it decodes strictly, and the pairs that
    [URLSearchParams] then answers are those the strict decoder read: nothing is
    replaced, whatever the replacing decoder does with invalid UTF-8. *)
Lemma strictParameters_spec text ps :
  is_units text = true -> is_well_formed text = true ->
  strictParameters decode_replacing text = Formed (Coded ps)
  <-> bare_percent text = false /\ strict_pairs text = Some ps.
Proof using Hrep.
  intros Hu Hw. unfold strictParameters, strict_pairs. destruct (bare_percent text); [naive_solver |].
  destruct (drop_question_well_formed text Hu Hw) as [Hu' Hw'].
  destruct (well_formed_scalars _ Hu' Hw') as [Hcs Ht]. set (cs := code_points (drop_question text)) in *.
  pose proof (check_pairs_question text) as Hq.
  assert (URLSearchParams decode_replacing text
    = urlencoded_pair decode_replacing <$> filter (fun p => p <> []) (split_char 38 (bytes8 cs))) as Hs.
  { unfold URLSearchParams. change (match text with 63%N :: rest => rest | _ => text end) with (drop_question text).
    unfold utf8_encode. fold cs. rewrite to_scalars_id by done. done. }
  rewrite (split_spell _ utf8_spelling), filter_spell in Hs by (done || apply utf8_nonempty).
  change (mjoin (utf16 <$> cs)) with (text16 cs) in Ht. rewrite <- Ht.
  rewrite (split_spell _ utf16_spelling), filter_spell by (done || apply utf16_nonempty).
  rewrite <- list_fmap_compose in Hs. pose proof (scalar_pieces cs 38 Hcs) as Hp.
  assert (forall l, Forall scalar_list l -> Forall (fun c => forall q, strict_pair (text16 c) = Some q -> (urlencoded_pair decode_replacing ∘ bytes8) c = q) l) as Hg.
  { intros l Hl. eapply Forall_impl; [exact Hl |]. intros c Hc q Hq'. by apply urlencoded_pair_strict. }
  assert (Forall scalar_list (filter (fun p => p <> []) (split_char 38 cs))) as Hp'.
  { apply Forall_forall. intros c [_ Hin]%list_elem_of_filter. by apply (proj1 (Forall_forall _ _) Hp). }
  set (ne := filter _ (split_char 38 cs)) in *.
  assert (check_pairs (split_char 38 text) = Coded tt <-> Forall (fun c => is_Some (strict_pair (text16 c))) ne) as Hcheck.
  { rewrite Hq, <- Ht, (split_spell _ utf16_spelling), check_pairs_ok, Forall_fmap by done. unfold ne.
    rewrite !Forall_forall. setoid_rewrite list_elem_of_filter. cbn. split.
    - intros H c [Hne Hin]. apply (H c Hin). apply spell_nonempty; [apply utf16_nonempty | done].
    - intros H c Hin Hne. apply (H c). split; [| done]. by intros ->. }
  assert (Forall (fun c => is_Some (strict_pair (text16 c))) ne ->
          mapM strict_pair (text16 <$> ne) = Some (URLSearchParams decode_replacing text)) as Hm.
  { intros H. rewrite Hs. apply mapM_pieces; [by apply Hg | done]. }
  split.
  - intros H. split; [done |]. injection H as H. apply coded_bind_ok in H as ([] & Hc & [= <-]). by apply Hm, Hcheck.
  - intros [_ H]. assert (Forall (fun c => is_Some (strict_pair (text16 c))) ne) as Hall.
    { pose proof (mapM_is_Some_1 strict_pair (text16 <$> ne) (ex_intro _ _ H)) as Ha. by rewrite Forall_fmap in Ha. }
    rewrite (proj2 Hcheck Hall). cbn. rewrite Hm in H by done. by injection H as ->.
Qed.
End replacing.

(** ** Well-formed schemas *)

(** A name without brackets. *)
Definition plain_name (n : jstr) : Prop := n <> [] /\ 91%N ∉ n /\ 93%N ∉ n.

(** What the compiler writes for a field of one of the flat kinds. *)
Definition flat_field (f : FormField) : Prop :=
  is_kind f "str" = true \/ is_kind f "array" = true
  \/ (is_kind f "optional" = true /\ is_Some (given (some_id f)) /\ is_Some (given (none_id f))).

Definition rows_ok (r : FormRowsSchema) : Prop :=
  row r <> [] /\ order r <> [] /\ collection r <> [] /\ item r <> [] /\ 91%N ∉ order r
  /\ NoDup (name <$> row_fields r) /\ Forall (fun f => flat_field f /\ plain_name (name f)) (row_fields r).

Definition field_ok (f : FormField) : Prop :=
  plain_name (name f)
  /\ (flat_field f \/ (is_kind f "rows" = true /\ exists r, rows f = Some r /\ rows_ok r)).

Definition order_names (schema : FormSchema) : list jstr :=
  omap (fun f => if is_kind f "rows" then order <$> rows f else None) (schema_fields schema).

(** The names of the fields are distinct, and so are the order names, which no
    scalar field spells. *)
Definition schema_ok (schema : FormSchema) : Prop :=
  Forall field_ok (schema_fields schema) /\ NoDup (name <$> schema_fields schema)
  /\ NoDup (order_names schema) /\ (forall n, n ∈ order_names schema -> n ∉ scalars schema).

Lemma is_kind_one f k k' : is_kind f k = true -> is_kind f k' = true -> js k = js k'.
Proof. unfold is_kind. rewrite !bool_decide_eq_true. congruence. Qed.

(** ** Names *)

Lemma row_key_plain key : rowKeyPattern key = true -> key <> [] /\ 91%N ∉ key /\ 93%N ∉ key.
Proof.
  unfold rowKeyPattern. rewrite !andb_true_iff, Nat.leb_le, forallb_forall. intros [[H _] Hc].
  split; [by destruct key; cbn in H; [lia |] |].
  split; intros Hin%list_elem_of_In%Hc; done.
Qed.

(** The separator of an entry name is found after its key. *)
Lemma index_of_separator key field :
  93%N ∉ key -> index_of [93; 91]%N (key ++ [93; 91]%N ++ field) = Some (length key).
Proof.
  induction key as [|c key IH]; intros H; [done |]. apply not_elem_of_cons in H as [Hc H].
  cbn [app index_of is_prefix length]. destruct (N.eqb_spec 93 c); [congruence |]. cbn [andb].
  change (key ++ 93%N :: 91%N :: field) with (key ++ [93; 91]%N ++ field). by rewrite IH.
Qed.

Lemma entryName_parts coll key field : entryName coll key field = (coll ++ [91%N]) ++ (key ++ [93; 91]%N ++ field) ++ [93%N].
Proof. unfold entryName. rewrite <- !app_assoc. done. Qed.

Lemma parse_entry coll key field :
  key <> [] -> 93%N ∉ key -> plain_name field -> parseRowEntry coll (entryName coll key field) = Some (key, field).
Proof.
  intros Hk Hkb (Hf & Hf1 & Hf2). rewrite entryName_parts. unfold parseRowEntry.
  rewrite starts_with_app, (proj2 (ends_with_spec _ _)) by (rewrite app_assoc; by eexists). cbn [negb orb].
  rewrite app_assoc, removelast_last, drop_app_length, index_of_separator by done.
  rewrite take_app_length, !bool_decide_false by (done || (rewrite drop_app_ge by lia; by replace (length key + 2 - length key)%nat with 2%nat by lia)).
  rewrite drop_app_ge by lia. replace (length key + 2 - length key)%nat with 2%nat by lia. cbn [drop app].
  by rewrite !(proj2 (includes_char_false _ _)).
Qed.

Lemma parse_entry_sound coll n key field :
  parseRowEntry coll n = Some (key, field) -> n = entryName coll key field /\ key <> [].
Proof.
  unfold parseRowEntry. destruct (starts_with n (coll ++ [91%N])) eqn:Hs; [| done].
  destruct (ends_with n [93%N]) eqn:He; [| done]. cbn [negb orb].
  apply starts_with_spec in Hs as [t Ht]. apply ends_with_spec in He as [u Hu].
  destruct (index_of _ _) as [i|] eqn:Hi; [| done]. intros H.
  destruct (bool_decide_reflect (take i (drop (length (coll ++ [91%N])) (removelast n)) = [])) as [|Hk]; [done |].
  cbn [orb] in H. case_match; [done |]. injection H as <- <-. split; [| done].
  apply index_of_some in Hi. set (inner := drop (length (coll ++ [91%N])) (removelast n)) in *.
  rewrite entryName_parts. cbn [length] in Hi.
  change (n = (coll ++ [91%N]) ++ (take i inner ++ [93; 91]%N ++ drop (i + 2) inner) ++ [93%N]).
  rewrite <- Hi. unfold inner. destruct t as [|c t _] using rev_ind.
  - rewrite app_nil_r, Hu in Ht. by apply app_inj_tail in Ht as [_ ?].
  - rewrite Hu, !app_assoc in Ht. apply app_inj_tail in Ht as [-> <-].
    rewrite Hu, removelast_last, drop_app_length, <- app_assoc. done.
Qed.

(** ** Classes of names *)

Inductive name_class : Type := Scalar | OrderOf (coll : jstr) | EntryOf (coll key field : jstr) | Unknown.

#[global] Instance name_class_eq_dec : EqDecision name_class.
Proof. solve_decision. Defined.

Fixpoint class_in (colls : list FormField) (n : jstr) : name_class :=
  match colls with
  | [] => Unknown
  | coll :: colls =>
      match rows coll with
      | None => Unknown
      | Some r =>
          if bool_decide (n = order r) then OrderOf (name coll)
          else
            match parseRowEntry (name coll) n with
            | Some (key, field) =>
                if rowKeyPattern key && existsb (fun f => bool_decide (name f = field)) (row_fields r)
                then EntryOf (name coll) key field
                else class_in colls n
            | None => class_in colls n
            end
      end
  end.

Definition class_of (schema : FormSchema) (n : jstr) : name_class :=
  if bool_decide (n ∈ scalars schema) then Scalar else class_in (collections schema) n.

Definition classify_step (schema : FormSchema) (c : Classified) (p : jstr * jstr) : Classified :=
  match class_of schema p.1 with
  | Scalar => keep_top c p.1 p.2
  | OrderOf coll => keep_order c coll p.1 p.2
  | EntryOf coll key field => keep_entry c coll key field p.1 p.2
  | Unknown => report_unknown c p.1
  end.

Definition has_rows (f : FormField) : Prop := is_Some (rows f).

Lemma match_coll_class colls n v c :
  Forall has_rows colls ->
  match_coll colls n v c = Coded (match class_in colls n with
                                  | OrderOf coll => Some (keep_order c coll n v)
                                  | EntryOf coll key field => Some (keep_entry c coll key field n v)
                                  | _ => None
                                  end).
Proof.
  induction 1 as [|f colls [r Hr] _ IH]; [done |]. cbn [match_coll class_in]. rewrite Hr.
  case_bool_decide; [done |]. destruct (parseRowEntry (name f) n) as [[key field]|]; [| done].
  by destruct (_ && _).
Qed.

Section classes.
Context (schema : FormSchema) (Hok : schema_ok schema).

Lemma in_collections f :
  f ∈ collections schema -> f ∈ schema_fields schema /\ plain_name (name f) /\ exists r, rows f = Some r /\ rows_ok r.
Proof using Hok.
  intros [Hk Hin]%list_elem_of_filter. split; [done |]. destruct Hok as (Hf & _). rewrite Forall_forall in Hf.
  destruct (Hf f Hin) as [Hp [Hflat | (_ & r & Hr)]]; [| eauto]. exfalso.
  destruct Hflat as [H | [H | [H _]]]; by pose proof (is_kind_one _ _ _ Hk H).
Qed.

Lemma collections_have_rows : Forall has_rows (collections schema).
Proof using Hok. apply Forall_forall. intros f Hf. apply in_collections in Hf as (_ & _ & r & Hr & _). by exists r. Qed.

Lemma class_in_sound colls n :
  Forall has_rows colls ->
  match class_in colls n with
  | Scalar => False
  | Unknown => True
  | OrderOf coll => exists f r, f ∈ colls /\ name f = coll /\ rows f = Some r /\ n = order r
  | EntryOf coll key field =>
      exists f r def, f ∈ colls /\ name f = coll /\ rows f = Some r /\ def ∈ row_fields r /\ name def = field
        /\ rowKeyPattern key = true /\ n = entryName coll key field
  end.
Proof.
  induction 1 as [|f colls [r Hr] Hrs IH]; [done |]. cbn [class_in]. rewrite Hr.
  assert (match class_in colls n with
    | Scalar => False | Unknown => True
    | OrderOf coll => exists f' r', f' ∈ f :: colls /\ name f' = coll /\ rows f' = Some r' /\ n = order r'
    | EntryOf coll key field =>
      exists f' r' def, f' ∈ f :: colls /\ name f' = coll /\ rows f' = Some r' /\ def ∈ row_fields r' /\ name def = field
        /\ rowKeyPattern key = true /\ n = entryName coll key field
    end) as H.
  { destruct (class_in colls n); [done | | | done].
    - destruct IH as (f' & r' & Hin & IH). exists f', r'. split; [by right | done].
    - destruct IH as (f' & r' & d & Hin & IH). exists f', r', d. split; [by right | done]. }
  case_bool_decide as Ho; [exists f, r; split_and!; [by left | done..] |].
  destruct (parseRowEntry (name f) n) as [[key field]|] eqn:Hp; [| done].
  destruct (rowKeyPattern key) eqn:Hk; [| done]. cbn [andb].
  destruct (existsb _ (row_fields r)) eqn:He; [| done].
  apply existsb_exists in He as (d & Hd%list_elem_of_In & Hn%bool_decide_eq_true).
  apply parse_entry_sound in Hp as [-> _]. exists f, r, d. split_and!; [by left | done..].
Qed.

Lemma classify_steps ps : classifyForm (string_pairs ps) schema = Coded (fold_left (classify_step schema) ps nothing_classified).
Proof using Hok.
  unfold classifyForm, string_pairs. generalize nothing_classified. induction ps as [|[n v] ps IH]; intros c; [done |].
  rewrite fmap_cons. cbn [classify_pairs classify_pair fst snd fold_left].
  assert (forall c', classify_pairs schema c' ((fun p : jstr * jstr => (p.1, Some p.2)) <$> ps)
    = Coded (fold_left (classify_step schema) ps c')) as H by done.
  unfold classify_step at 2. unfold class_of. cbn [fst snd]. case_bool_decide; [apply H |].
  rewrite match_coll_class by apply collections_have_rows. cbn [coded_bind].
  pose proof (class_in_sound (collections schema) n collections_have_rows) as Hs.
  destruct (class_in (collections schema) n); [done | apply H..].
Qed.

Lemma class_sound n :
  match class_of schema n with
  | Scalar => n ∈ scalars schema
  | Unknown => n ∉ scalars schema
  | OrderOf coll => exists f r, f ∈ collections schema /\ name f = coll /\ rows f = Some r /\ n = order r
  | EntryOf coll key field =>
      exists f r def, f ∈ collections schema /\ name f = coll /\ rows f = Some r /\ def ∈ row_fields r /\ name def = field
        /\ rowKeyPattern key = true /\ n = entryName coll key field
  end.
Proof using Hok.
  unfold class_of. case_bool_decide as Hs; [done |].
  pose proof (class_in_sound (collections schema) n collections_have_rows) as H. by destruct (class_in _ _).
Qed.

Lemma fields_of_name f f' :
  f ∈ schema_fields schema -> f' ∈ schema_fields schema -> name f = name f' -> f = f'.
Proof using Hok.
  destruct Hok as (_ & Hnd & _). revert Hnd. generalize (schema_fields schema). intros l Hnd.
  intros H1 H2 Hn. apply list_elem_of_lookup in H1 as [i Hi], H2 as [j Hj].
  assert (i = j) as ->; [| congruence].
  eapply (NoDup_lookup (name <$> l)); [done | by rewrite list_lookup_fmap, Hi | rewrite list_lookup_fmap, Hj; cbn; congruence].
Qed.

Lemma NoDup_omap_inj {A B} (g : A -> option B) l a a' b :
  NoDup (omap g l) -> a ∈ l -> a' ∈ l -> g a = Some b -> g a' = Some b -> a = a'.
Proof.
  induction l as [|x l IH]; [by intros _ ?%elem_of_nil |]. intros Hnd.
  assert (NoDup (omap g l)) as Hnd' by (cbn in Hnd; destruct (g x); [by apply NoDup_cons in Hnd as [_ ?] | done]).
  assert (forall y, y ∈ l -> g x = Some b -> g y = Some b -> False) as Hx.
  { intros y Hy Hgx Hgy. cbn in Hnd. rewrite Hgx in Hnd. apply NoDup_cons in Hnd as [Hn _]. apply Hn, list_elem_of_omap. eauto. }
  intros [-> | H1]%elem_of_cons [-> | H2]%elem_of_cons G1 G2; [done | | | by apply IH];
    exfalso; by eapply Hx.
Qed.

Lemma order_of_rows f r : f ∈ collections schema -> rows f = Some r -> order r ∈ order_names schema.
Proof.
  intros [Hk Hin]%list_elem_of_filter Hr. apply list_elem_of_omap. exists f. split; [done |]. by rewrite Hk, Hr.
Qed.

Lemma fields_of_order f f' r r' :
  f ∈ collections schema -> f' ∈ collections schema -> rows f = Some r -> rows f' = Some r' -> order r = order r' -> f = f'.
Proof using Hok.
  intros [Hk Hin]%list_elem_of_filter [Hk' Hin']%list_elem_of_filter Hr Hr' Ho. destruct Hok as (_ & _ & Hnd & _).
  unfold order_names in Hnd. eapply (NoDup_omap_inj _ _ f f' (order r) Hnd Hin Hin'); cbn beta.
  - by rewrite Hk, Hr.
  - rewrite Hk', Hr', Ho. done.
Qed.

Lemma class_of_order f r :
  f ∈ collections schema -> rows f = Some r -> class_of schema (order r) = OrderOf (name f).
Proof using Hok.
  intros Hf Hr. unfold class_of. rewrite bool_decide_false.
  2: { destruct Hok as (_ & _ & _ & Hs). apply Hs. by eapply order_of_rows. }
  pose proof (in_collections f Hf) as (_ & _ & r0 & Hr0 & Hrok). rewrite Hr in Hr0. injection Hr0 as <-.
  pose proof (fun f' => fields_of_order f f') as Hinj. pose proof in_collections as Hin.
  revert Hf Hinj Hin. generalize (collections schema). intros l. induction l as [|g l IH]; [by intros ?%elem_of_nil |].
  intros Hf Hinj Hin. destruct (Hin g ltac:(by left)) as (_ & Hpn & rg & Hrg & Hgok). cbn [class_in]. rewrite Hrg.
  case_bool_decide as Ho; [f_equal; by rewrite (Hinj g r rg Hf ltac:(by left) Hr Hrg Ho) |].
  assert (parseRowEntry (name g) (order r) = None) as ->.
  { destruct (parseRowEntry (name g) (order r)) as [[key field]|] eqn:Hp; [| done].
    apply parse_entry_sound in Hp as [He _]. destruct Hrok as (_ & _ & _ & _ & Hb & _). destruct Hb.
    rewrite He, entryName_parts, !elem_of_app. left. right. by left. }
  apply elem_of_cons in Hf as [-> | Hf]; [congruence |]. apply IH; [done | |].
  - intros f' r1 r' H1 H2. apply Hinj; by right.
  - intros f' H'. apply Hin. by right.
Qed.

Lemma entryName_inj coll key field coll' key' field' :
  91%N ∉ coll -> 91%N ∉ coll' -> 93%N ∉ key -> 93%N ∉ key' ->
  entryName coll key field = entryName coll' key' field' -> coll = coll' /\ key = key' /\ field = field'.
Proof.
  unfold entryName. intros H1 H2 H3 H4 H. apply split_at_delimiter in H as [-> H]; [| done..].
  cbn [app] in H. apply split_at_delimiter in H as [-> H]; [| done..]. injection H as H.
  by apply app_inj_tail in H as [-> _].
Qed.

Lemma class_of_entry f r def key :
  f ∈ collections schema -> rows f = Some r -> def ∈ row_fields r -> rowKeyPattern key = true ->
  class_of schema (entryName (name f) key (name def)) = EntryOf (name f) key (name def).
Proof using Hok.
  intros Hf Hr Hd Hk. destruct (row_key_plain key Hk) as (Hk1 & Hk2 & Hk3).
  pose proof (in_collections f Hf) as (_ & (_ & Hn1 & _) & r0 & Hr0 & Hrok). rewrite Hr in Hr0. injection Hr0 as <-.
  assert (plain_name (name def)) as Hpd.
  { destruct Hrok as (_ & _ & _ & _ & _ & _ & Hfs). rewrite Forall_forall in Hfs. by apply Hfs. }
  assert (91%N ∈ entryName (name f) key (name def)) as Hbr.
  { rewrite entryName_parts, !elem_of_app. left. right. by left. }
  unfold class_of. rewrite bool_decide_false.
  2: { intros (g & Hg & [_ Hin]%list_elem_of_filter)%list_elem_of_fmap. destruct Hok as (Hfs & _). rewrite Forall_forall in Hfs.
       destruct (Hfs g Hin) as [(_ & Hng & _) _]. rewrite Hg in Hbr. done. }
  pose proof (fun f' H => fields_of_name f f' (proj1 (in_collections f Hf)) H) as Hinj. pose proof in_collections as Hin.
  revert Hf Hin. generalize (collections schema). intros l. induction l as [|g l IH]; [by intros ?%elem_of_nil |].
  intros Hf Hin. destruct (Hin g ltac:(by left)) as (Hgin & (_ & Hg1 & _) & rg & Hrg & Hgok). cbn [class_in]. rewrite Hrg.
  rewrite bool_decide_false by (intros He; rewrite He in Hbr; by apply Hgok).
  destruct (decide (name g = name f)) as [Hgf | Hne].
  - assert (f = g) as <- by (by apply Hinj). rewrite parse_entry, Hk by done. cbn [andb]. rewrite Hr in Hrg. injection Hrg as <-.
    assert (existsb (fun f0 => bool_decide (name f0 = name def)) (row_fields r) = true) as ->; [| done].
    apply existsb_exists. exists def. split; [by apply list_elem_of_In | by apply bool_decide_eq_true].
  - assert (match parseRowEntry (name g) (entryName (name f) key (name def)) with
            | Some (key', field) => rowKeyPattern key' && existsb (fun f => bool_decide (name f = field)) (row_fields rg) = true -> name g = name f
            | None => True end) as Hp.
    { destruct (parseRowEntry _ _) as [[key' field']|] eqn:Hp; [| done]. intros [Hk' _]%andb_true_iff.
      destruct (row_key_plain key' Hk') as (_ & _ & Hk3'). apply parse_entry_sound in Hp as [He _].
      by apply entryName_inj in He as (He & _). }
    apply elem_of_cons in Hf as [<- | Hf]; [done |].
    assert (class_in l (entryName (name f) key (name def)) = EntryOf (name f) key (name def)) as IH'.
    { apply IH; [done |]. intros f' H'. apply Hin. by right. }
    destruct (parseRowEntry _ _) as [[key' field']|]; [| done].
    destruct (rowKeyPattern key' && _); [by destruct Hne; apply Hp | done].
Qed.
End classes.

(** ** What the classification holds *)

(** The values sent under a name, in order. *)
Definition sent (n : jstr) (ps : list (jstr * jstr)) : list jstr := snd <$> filter (fun p => p.1 = n) ps.

Lemma sent_snoc n ps p : sent n (ps ++ [p]) = sent n ps ++ (if decide (p.1 = n) then [p.2] else []).
Proof.
  unfold sent. rewrite filter_app, fmap_app. f_equal. rewrite filter_cons, filter_nil. by case_decide.
Qed.

Definition entry_values (coll key field : jstr) (es : list RowEntry) : list jstr :=
  e_value <$> filter (fun e => e_coll e = coll /\ e_key e = key /\ e_field e = field) es.

Lemma entry_values_snoc coll key field es e :
  entry_values coll key field (es ++ [e])
  = entry_values coll key field es ++ (if decide (e_coll e = coll /\ e_key e = key /\ e_field e = field) then [e_value e] else []).
Proof. unfold entry_values. rewrite filter_app, fmap_app. f_equal. rewrite filter_cons, filter_nil. by case_decide. Qed.

Lemma push_value_eq m n v : default [] (push_value m n v !! n) = default [] (m !! n) ++ [v].
Proof. unfold push_value. by rewrite lookup_insert_eq. Qed.
Lemma push_value_ne m n n' v : n <> n' -> push_value m n v !! n' = m !! n'.
Proof. intros H. unfold push_value. by rewrite lookup_insert_ne. Qed.

Lemma trackKey_ne m coll coll' k : coll <> coll' -> trackKey m coll k !! coll' = m !! coll'.
Proof. intros H. unfold trackKey. by rewrite lookup_insert_ne. Qed.

Lemma trackKey_eq m coll k :
  NoDup (default [] (m !! coll)) ->
  NoDup (default [] (trackKey m coll k !! coll))
  /\ forall k', k' ∈ default [] (trackKey m coll k !! coll) <-> k' = k \/ k' ∈ default [] (m !! coll).
Proof.
  intros Hnd. unfold trackKey. rewrite lookup_insert_eq. cbn [default from_option id]. case_bool_decide as Hk.
  - split; [done |]. intros k'. naive_solver.
  - split.
    + apply NoDup_app. split_and!; [done | | apply NoDup_singleton]. by intros x Hx ->%list_elem_of_singleton.
    + intros k'. rewrite elem_of_app, list_elem_of_singleton. naive_solver.
Qed.

Section classified.
Context (schema : FormSchema) (Hok : schema_ok schema).

Definition classified (ps : list (jstr * jstr)) : Classified := fold_left (classify_step schema) ps nothing_classified.

Lemma classified_snoc ps p : classified (ps ++ [p]) = classify_step schema (classified ps) p.
Proof. unfold classified. by rewrite fold_left_app. Qed.

Lemma top_sent ps n : n ∈ scalars schema -> default [] (top (classified ps) !! n) = sent n ps.
Proof using Hok.
  intros Hn. induction ps as [|p ps IH] using rev_ind; [done |].
  rewrite classified_snoc, sent_snoc, <- IH. unfold classify_step.
  destruct (decide (p.1 = n)) as [<- | Hne].
  - unfold class_of. rewrite bool_decide_true by done. cbn [keep_top top]. apply push_value_eq.
  - rewrite app_nil_r. destruct (class_of schema p.1); try done. cbn [keep_top top]. by rewrite push_value_ne.
Qed.

Lemma orders_sent ps f r :
  f ∈ collections schema -> rows f = Some r -> default [] (orders (classified ps) !! name f) = sent (order r) ps.
Proof using Hok.
  intros Hf Hr. induction ps as [|p ps IH] using rev_ind; [done |].
  rewrite classified_snoc, sent_snoc, <- IH. unfold classify_step.
  destruct (decide (p.1 = order r)) as [He | Hne].
  - rewrite He, (class_of_order schema Hok f r) by done. cbn [keep_order orders]. apply push_value_eq.
  - rewrite app_nil_r. pose proof (class_sound schema Hok p.1) as Hs.
    destruct (class_of schema p.1) as [|coll| |]; try done. cbn [keep_order orders]. rewrite push_value_ne; [done |].
    intros Hc. destruct Hs as (f' & r' & Hf' & Hn & Hr' & Hp). apply Hne.
    assert (f' = f) as -> by (apply (fields_of_name schema Hok); [by apply (in_collections schema Hok) .. | congruence]).
    congruence.
Qed.

Lemma entries_sent ps f r def key :
  f ∈ collections schema -> rows f = Some r -> def ∈ row_fields r -> rowKeyPattern key = true ->
  entry_values (name f) key (name def) (entries (classified ps)) = sent (entryName (name f) key (name def)) ps.
Proof using Hok.
  intros Hf Hr Hd Hk. induction ps as [|p ps IH] using rev_ind; [done |].
  rewrite classified_snoc, sent_snoc, <- IH. unfold classify_step.
  destruct (decide (p.1 = entryName (name f) key (name def))) as [He | Hne].
  - rewrite He, (class_of_entry schema Hok f r def key) by done. cbn [keep_entry entries].
    rewrite entry_values_snoc. by rewrite decide_True.
  - rewrite app_nil_r. pose proof (class_sound schema Hok p.1) as Hs.
    destruct (class_of schema p.1) as [|coll|coll key' field|]; try done. cbn [keep_entry entries].
    rewrite entry_values_snoc, decide_False, app_nil_r; [done |]. cbn. intros (-> & -> & ->).
    by destruct Hs as (f' & r' & d & _ & _ & _ & _ & _ & _ & Hp).
Qed.

Lemma entries_sound ps e :
  e ∈ entries (classified ps) ->
  exists f r def, f ∈ collections schema /\ name f = e_coll e /\ rows f = Some r /\ def ∈ row_fields r
    /\ name def = e_field e /\ rowKeyPattern (e_key e) = true
    /\ (entryName (e_coll e) (e_key e) (e_field e), e_value e) ∈ ps.
Proof using Hok.
  induction ps as [|p ps IH] using rev_ind; [by intros ?%elem_of_nil |]. rewrite classified_snoc. unfold classify_step.
  intros He. pose proof (class_sound schema Hok p.1) as Hs.
  assert (e ∈ entries (classified ps) -> exists f r def, f ∈ collections schema /\ name f = e_coll e /\ rows f = Some r
    /\ def ∈ row_fields r /\ name def = e_field e /\ rowKeyPattern (e_key e) = true
    /\ (entryName (e_coll e) (e_key e) (e_field e), e_value e) ∈ ps ++ [p]) as Hold.
  { intros H. destruct (IH H) as (f & r & d & ? & ? & ? & ? & ? & ? & Hin). exists f, r, d. split_and!; try done.
    apply elem_of_app. by left. }
  destruct (class_of schema p.1) as [|coll|coll key field|]; try by apply Hold.
  cbn [keep_entry entries] in He. apply elem_of_app in He as [He | ->%list_elem_of_singleton]; [by apply Hold |].
  destruct Hs as (f & r & d & ? & ? & ? & ? & ? & ? & Hp). exists f, r, d. cbn [e_coll e_key e_field e_value]. split_and!; try done.
  apply elem_of_app. right. apply list_elem_of_singleton. rewrite <- Hp. by destruct p.
Qed.

Lemma keys_tracked ps f r :
  f ∈ collections schema -> rows f = Some r ->
  NoDup (default [] (keysInOrder (classified ps) !! name f))
  /\ forall k, k ∈ default [] (keysInOrder (classified ps) !! name f)
       <-> (rowKeyPattern k = true /\ k ∈ sent (order r) ps)
           \/ exists e, e ∈ entries (classified ps) /\ e_coll e = name f /\ e_key e = k.
Proof using Hok.
  intros Hf Hr. induction ps as [|p ps [IH1 IH2]] using rev_ind.
  { split; [apply NoDup_nil_2 |]. intros k. cbn. split; [by intros ?%elem_of_nil |].
    intros [[_ H%elem_of_nil] | (e & H%elem_of_nil & _)]; done. }
  rewrite classified_snoc. setoid_rewrite sent_snoc. unfold classify_step.
  pose proof (class_sound schema Hok p.1) as Hs.
  assert (class_of schema p.1 <> OrderOf (name f) -> p.1 <> order r) as Hno.
  { intros H He. apply H. rewrite He. by apply (class_of_order schema Hok). }
  destruct (class_of schema p.1) as [|coll|coll key field|] eqn:Hc.
  - cbn [keep_top keysInOrder entries]. rewrite decide_False, app_nil_r by (by apply Hno). done.
  - destruct (decide (coll = name f)) as [-> | Hne].
    + destruct Hs as (f' & r' & Hf' & Hn & Hr' & Hp).
      assert (f' = f) as -> by (apply (fields_of_name schema Hok); [by apply (in_collections schema Hok) .. | congruence]).
      rewrite Hr in Hr'. injection Hr' as <-. rewrite decide_True by done. cbn [keep_order keysInOrder entries].
      setoid_rewrite elem_of_app. setoid_rewrite list_elem_of_singleton.
      destruct (rowKeyPattern p.2) eqn:Hk.
      * destruct (trackKey_eq (keysInOrder (classified ps)) (name f) p.2 IH1) as [H1 H2]. split; [done |].
        intros k. rewrite H2, IH2. split; [intros [-> |]; naive_solver |]. naive_solver.
      * split; [done |]. intros k. rewrite IH2. split; [naive_solver |]. intros [(Hk' & [? | ->]) | ?]; [naive_solver | congruence | naive_solver].
    + rewrite decide_False, app_nil_r by (apply Hno; congruence). cbn [keep_order keysInOrder entries].
      destruct (rowKeyPattern p.2); [| done]. by rewrite trackKey_ne.
  - rewrite decide_False, app_nil_r by (by apply Hno). cbn [keep_entry keysInOrder entries].
    setoid_rewrite elem_of_app. setoid_rewrite list_elem_of_singleton.
    destruct (decide (coll = name f)) as [-> | Hne].
    + destruct (trackKey_eq (keysInOrder (classified ps)) (name f) key IH1) as [H1 H2]. split; [done |].
      intros k. rewrite H2, IH2. split.
      * intros [-> | [? | (e & ? & ? & ?)]]; [right | by left | right].
        -- eexists. split; [by right |]. done.
        -- exists e. split_and!; [by left | done..].
      * intros [? | (e & [? | ->] & ? & ?)]; [by right; left | right; right; eauto | by left].
    + rewrite trackKey_ne by done. split; [done |]. intros k. rewrite IH2. split.
      * intros [? | (e & ? & ? & ?)]; [by left | right]. exists e. split_and!; [by left | done..].
      * intros [? | (e & [? | ->] & He & ?)]; [by left | right; eauto | by cbn in He].
  - cbn [report_unknown keysInOrder entries]. rewrite decide_False, app_nil_r by (by apply Hno). done.
Qed.

Lemma known_pairs ps : known (classified ps) = filter (fun p => class_of schema p.1 <> Unknown) ps.
Proof.
  induction ps as [|p ps IH] using rev_ind; [done |]. rewrite classified_snoc, filter_app, <- IH, filter_cons, filter_nil.
  unfold classify_step. destruct p as [n v]. cbn [fst snd].
  destruct (class_of schema n); cbn [keep_top keep_order keep_entry report_unknown known];
    [rewrite decide_True by done; done.. | rewrite decide_False by naive_solver; by rewrite app_nil_r].
Qed.

Lemma unknown_names ps n : n ∈ unknown (classified ps) <-> n ∈ ps.*1 /\ class_of schema n = Unknown.
Proof.
  induction ps as [|p ps IH] using rev_ind; [split; [by intros ?%elem_of_nil | by intros [?%elem_of_nil _]] |].
  rewrite classified_snoc, fmap_app, elem_of_app. change ([p].*1) with [p.1]. rewrite list_elem_of_singleton.
  unfold classify_step.
  destruct (class_of schema p.1) eqn:Hc; cbn [keep_top keep_order keep_entry report_unknown unknown];
    [rewrite IH; split; [naive_solver | intros [[? | ->] ?]; [done | congruence]].. |].
  case_bool_decide as Hin; [| rewrite elem_of_app, list_elem_of_singleton]; rewrite ?IH in *; split; naive_solver.
Qed.
End classified.

(** ** Grouped entries *)

Lemma find_put_row rs k m k' : find_row (put_row rs k m) k' = if decide (k = k') then Some m else find_row rs k'.
Proof.
  unfold find_row. induction rs as [|[k1 m1] rs IH]; cbn [put_row find fst snd fmap option_fmap option_map].
  - case_bool_decide; by case_decide.
  - case_bool_decide as H1; cbn [find fst snd]; subst.
    + case_bool_decide; by case_decide.
    + case_bool_decide as H2; [| exact IH]. subst. by rewrite decide_False.
Qed.

Lemma put_row_keys rs k m : forall k', k' ∈ (put_row rs k m).*1 <-> k' = k \/ k' ∈ rs.*1.
Proof.
  induction rs as [|[k1 m1] rs IH]; intros k'; cbn [put_row].
  - change ([(k, m)].*1) with [k]. rewrite list_elem_of_singleton. split; [by left | intros [? | H%elem_of_nil]; done].
  - case_bool_decide as H1; rewrite !fmap_cons, !elem_of_cons; cbn [fst]; [subst; naive_solver |]. rewrite IH. naive_solver.
Qed.

Lemma group_entries_snoc coll es e :
  group_entries coll (es ++ [e]) = if decide (e_coll e = coll) then add_entry (group_entries coll es) e else group_entries coll es.
Proof.
  unfold group_entries. rewrite filter_app, fold_left_app, filter_cons, filter_nil. by case_decide.
Qed.

Lemma grouped_rows coll es key :
  (is_Some (find_row (group_entries coll es) key) <-> exists e, e ∈ es /\ e_coll e = coll /\ e_key e = key)
  /\ (key ∈ (group_entries coll es).*1 <-> exists e, e ∈ es /\ e_coll e = coll /\ e_key e = key).
Proof.
  induction es as [|e es [IH1 IH2]] using rev_ind.
  { split; (split; [| intros (e & H%elem_of_nil & _); done]); [by intros [? ?] | by intros ?%elem_of_nil]. }
  rewrite group_entries_snoc. setoid_rewrite elem_of_app. setoid_rewrite list_elem_of_singleton. case_decide as Hc.
  - unfold add_entry. rewrite find_put_row, put_row_keys. split; [case_decide as Hk; [| rewrite IH1] | rewrite IH2]; split.
    + intros _. exists e. split_and!; [by right | done..].
    + done.
    + intros (e' & ? & ?). exists e'. split; [by left | done].
    + intros (e' & [? | ->] & ? & ?); [eauto | congruence].
    + intros [-> | (e' & ? & ?)]; [exists e | exists e']; split_and!; try done; [by right | by left | tauto..].
    + intros (e' & [? | ->] & ? & ?); [right; eauto | by left].
  - split; [rewrite IH1 | rewrite IH2]; split; intros (e' & He & ? & ?); exists e';
      split_and!; try done; try (by left); (destruct He as [? | ->]; done).
Qed.

Lemma grouped_values coll es key field :
  default [] (default ∅ (find_row (group_entries coll es) key) !! field) = entry_values coll key field es.
Proof.
  induction es as [|e es IH] using rev_ind; [done |]. rewrite group_entries_snoc, entry_values_snoc, <- IH.
  destruct (decide (e_coll e = coll)) as [Hc | Hc].
  - unfold add_entry. rewrite find_put_row. destruct (decide (e_key e = key)) as [<- | Hk].
    + cbn [default from_option id]. destruct (decide (e_field e = field)) as [<- | Hf].
      * rewrite push_value_eq, decide_True by done. done.
      * rewrite push_value_ne, decide_False, app_nil_r by naive_solver. done.
    + rewrite decide_False, app_nil_r by naive_solver. done.
  - rewrite decide_False, app_nil_r by naive_solver. done.
Qed.

(** ** Runs of the analysis

    [settles h m k found P]: from any heap that extends [h], the run counts [k]
    nodes and adds the issues [found], ending with what [P] says, unless the node
    budget runs out, which is the only other end. *)
Definition settles {A} (h : heap) (m : F A) (k : Z) (found : list (jstr * FormIssueReason)) (P : A -> heap -> Prop) : Prop :=
  forall s, extends h (f_heap s) -> heap_ok (f_heap s) -> nodes (f_budget s) <= maxNodes ->
    (nodes (f_budget s) + k <= maxNodes ->
       exists a h' b, m s = Coded (a, mkF h' b (f_issues s ++ found)) /\ nodes b = nodes (f_budget s) + k
         /\ extends (f_heap s) h' /\ heap_ok h' /\ P a h')
    /\ (maxNodes < nodes (f_budget s) + k -> exists p, m s = reject p node_limit).

Lemma settles_ret {A} h (a : A) (P : A -> heap -> Prop) : (forall h', extends h h' -> P a h') -> settles h (fret a) 0 [] P.
Proof.
  intros HP s Hext Hh Hn. split; [| lia]. intros _. destruct s as [h' b is_]. cbn in *. rewrite app_nil_r.
  exists a, h', b. split_and!; [done | lia | done | done | by apply HP].
Qed.

Lemma settles_bind {A B} h (m : F A) (f : A -> F B) k1 k2 is1 is2 P Q :
  0 <= k1 -> 0 <= k2 -> settles h m k1 is1 P ->
  (forall a h', extends h h' -> heap_ok h' -> P a h' -> settles h' (f a) k2 is2 Q) ->
  settles h (fbind m f) (k1 + k2) (is1 ++ is2) Q.
Proof.
  intros Hk1 Hk2 Hm Hf s Hext Hh Hn. destruct (Hm s Hext Hh Hn) as [Hm1 Hm2]. unfold fbind.
  destruct (Z.le_gt_cases (nodes (f_budget s) + k1) maxNodes) as [Hle | Hgt].
  - destruct (Hm1 Hle) as (a & h' & b & -> & Hb & Hx & Hh' & HP). cbn [coded_bind].
    destruct (Hf a h' ltac:(by etrans) Hh' HP (mkF h' b (f_issues s ++ is1))) as [Hf1 Hf2]; [done | done | cbn; lia |].
    cbn [f_budget f_heap f_issues] in *. split; intros Hc.
    + destruct Hf1 as (c & h2 & b2 & -> & Hb2 & Hx2 & Hh2 & HQ); [lia |].
      exists c, h2, b2. rewrite app_assoc. split_and!; [done | lia | by etrans | done | done].
    + apply Hf2. lia.
  - split; [lia |]. intros _. destruct Hm2 as [p ->]; [lia |]. by exists p.
Qed.

Lemma settles_weaken {A} h (m : F A) k is_ (P Q : A -> heap -> Prop) :
  settles h m k is_ P -> (forall a h', extends h h' -> P a h' -> Q a h') -> settles h m k is_ Q.
Proof.
  intros Hm HPQ s Hext Hh Hn. destruct (Hm s Hext Hh Hn) as [H1 H2]. split; [| done]. intros Hc.
  destruct (H1 Hc) as (a & h' & b & ? & ? & ? & ? & ?). exists a, h', b. split_and!; try done. apply HPQ; [by etrans | done].
Qed.

Lemma settles_eq {A} h (m : F A) k k' is_ is' P : settles h m k is_ P -> k = k' -> is_ = is' -> settles h m k' is' P.
Proof. by intros H -> ->. Qed.

Abbreviation no_claim := (fun _ _ => True).

Lemma settles_visit h d p : d <= 64 -> settles h (fvisit d p) 1 [] no_claim.
Proof.
  intros Hd s Hext Hh Hn. unfold fvisit, visit, maxDepth. rewrite (proj2 (Z.ltb_ge 64 d)) by lia.
  destruct s as [h' b is_]. cbn in *. destruct (Z.ltb_spec maxNodes (nodes b + 1)).
  - split; [lia |]. intros _. by exists p.
  - split; [| lia]. intros _. rewrite app_nil_r. cbn. eexists _, _, _. split_and!; [done | done | done | done | done].
Qed.

Lemma settles_issue h n r : settles h (issue n r) 0 [(n, r)] no_claim.
Proof.
  intros s Hext Hh Hn. split; [| lia]. intros _. unfold issue. eexists _, _, _.
  split_and!; [done | cbn; lia | done | done | done].
Qed.

Definition record_is (h : heap) (v : value) (id : jstr) (fs : list (jstr * value)) : Prop :=
  recordIdentity h v = Some id /\ dataKeys h v = Ret (nominal :: (KStr <$> fs.*1))
  /\ forall n x, (n, x) ∈ fs -> dataProperty h v (KStr n) = Ret x.

Lemma record_is_grows h h' v id fs : extends h h' -> record_is h v id fs -> record_is h' v id fs.
Proof.
  intros Hx (H1 & H2 & H3). split_and!; [by eapply recordIdentity_grows | by eapply dataKeys_grows |].
  intros n x Hin. eapply dataProperty_grows; [done | by apply H3].
Qed.

Lemma settles_record h id fs :
  NoDup fs.*1 -> settles h (frecord id fs) 0 [] (fun v h' => record_is h' v id fs).
Proof.
  intros Hnd s Hext Hh Hn. split; [| lia]. intros _. unfold frecord.
  destruct (record_reads (f_heap s) id fs Hnd) as (v & h' & -> & _ & H1 & H2 & H3 & Hg). destruct (Hg Hh) as [Hh' Hx].
  rewrite app_nil_r. exists v, h', (f_budget s). split_and!; [done | lia | done | done |]. by split_and!.
Qed.

Lemma settles_array h vs :
  Z.of_nat (length vs) <= MAX_SAFE -> settles h (farray vs) 0 [] (fun v h' => dataArray h' v = Ret vs).
Proof.
  intros Hl s Hext Hh Hn. split; [| lia]. intros _. unfold farray.
  pose proof (array_reads (f_heap s) vs Hl) as Hr. destruct (array_grows (f_heap s) vs Hh) as [Hh' Hx].
  destruct (array (f_heap s) vs) as [v h'] eqn:E. cbn in *. rewrite app_nil_r.
  exists v, h', (f_budget s). split_and!; [done | lia | done..].
Qed.

Definition total {A} (k : A -> Z) (l : list A) : Z := foldr (fun a n => k a + n) 0 l.

Lemma total_nonneg {A} (k : A -> Z) l : (forall a, 0 <= k a) -> 0 <= total k l.
Proof. intros Hk. induction l as [|a l IH]; [done |]. change (0 <= k a + total k l). specialize (Hk a). lia. Qed.

Lemma settles_each {A} h (f : A -> F unit) k is_ l :
  (forall a, 0 <= k a) -> (forall a h', a ∈ l -> extends h h' -> settles h' (f a) (k a) (is_ a) no_claim) ->
  settles h (feach f l) (total k l) (concat (is_ <$> l)) no_claim.
Proof.
  intros Hk. revert h. induction l as [|a l IH]; intros h Hf; [by apply settles_ret |].
  cbn [feach fmap list_fmap concat]. change (total k (a :: l)) with (k a + total k l).
  eapply settles_bind; [done | by apply total_nonneg | apply Hf; [by left | done] |].
  intros _ h' Hx _ _. apply IH. intros b h2 Hb Hx2. apply Hf; [by right | by etrans].
Qed.

(** ** Flat fields *)

(** What a flat field holds. *)
Inductive entry : Type := Single (s : jstr) | Several (l : list jstr) | Maybe (o : option jstr).

Definition texts_of (e : entry) : list jstr :=
  match e with Single s => [s] | Several l => l | Maybe None => [] | Maybe (Some s) => [s] end.

(** The entry that the values of a field spell, if they spell one. *)
Definition read_entry (f : FormField) (values : list jstr) : option entry :=
  if is_kind f "array" then Some (Several values)
  else match values with
       | _ :: _ :: _ => None
       | [s] => Some (if is_kind f "str" then Single s else Maybe (Some s))
       | [] => if is_kind f "str" then None else Some (Maybe None)
       end.

Definition entry_is (h : heap) (f : FormField) (v : value) (e : entry) : Prop :=
  match e with
  | Single s => v = VStr s
  | Several l => dataArray h v = Ret (VStr <$> l)
  | Maybe None => exists id, given (none_id f) = Some id /\ record_is h v id []
  | Maybe (Some s) => exists id, given (some_id f) = Some id /\ record_is h v id [(js "value", VStr s)]
  end.

Lemma entry_is_grows h h' f v e : extends h h' -> entry_is h f v e -> entry_is h' f v e.
Proof.
  intros Hx. destruct e as [s | l | [s|]]; cbn.
  - done.
  - by apply dataArray_grows.
  - intros (id & Hid & H). exists id. split; [done | by eapply record_is_grows].
  - intros (id & Hid & H). exists id. split; [done | by eapply record_is_grows].
Qed.

Definition flat_issues (n : jstr) (f : FormField) (values : list jstr) : list (jstr * FormIssueReason) :=
  if is_kind f "array" then []
  else match values with
       | _ :: _ :: _ => [(n, form_repeated)]
       | [] => if is_kind f "str" then [(n, form_missing)] else []
       | _ => []
       end.

Lemma flat_issues_nil n f values : flat_issues n f values = [] <-> is_Some (read_entry f values).
Proof.
  unfold flat_issues, read_entry. destruct (is_kind f "array"); [split; eauto |].
  destruct values as [|s [|? ?]]; [| split; eauto | by split; [| intros [? ?]]].
  destruct (is_kind f "str"); [by split; [| intros [? ?]] | split; eauto].
Qed.

Lemma read_entry_texts f values e : read_entry f values = Some e -> texts_of e = values.
Proof.
  unfold read_entry. destruct (is_kind f "array"); [by intros [= <-] |].
  destruct values as [|s [|? ?]]; [| | done]; destruct (is_kind f "str"); intros [= <-]; done.
Qed.

(** A field fits an entry of its own kind. *)
Definition fits (f : FormField) (e : entry) : Prop :=
  match e with
  | Single _ => is_kind f "str" = true
  | Several _ => is_kind f "array" = true
  | Maybe _ => is_kind f "optional" = true
  end.

Lemma read_entry_fits f values e : flat_field f -> read_entry f values = Some e <-> fits f e /\ texts_of e = values.
Proof.
  intros Hf. assert (is_kind f "array" = true -> is_kind f "str" = false /\ is_kind f "optional" = false) as H1.
  { intros Ha. split; apply not_true_iff_false; intros H; by pose proof (is_kind_one _ _ _ Ha H). }
  assert (is_kind f "str" = true -> is_kind f "optional" = false) as H2.
  { intros Ha. apply not_true_iff_false; intros H; by pose proof (is_kind_one _ _ _ Ha H). }
  unfold read_entry, flat_field in *.
  destruct (is_kind f "array") eqn:Ea.
  { destruct (H1 eq_refl). split; [by intros [= <-] |]. intros [Hfit <-]. destruct e as [|l|o]; cbn in *; congruence. }
  destruct (is_kind f "str") eqn:Es.
  - specialize (H2 eq_refl). split.
    + destruct values as [|s [|? ?]]; [done | intros [= <-]; done | done].
    + intros [Hfit <-]. destruct e as [s|l|o]; cbn in *; congruence.
  - destruct Hf as [? | [? | [Ho _]]]; [congruence.. |]. split.
    + destruct values as [|s [|? ?]]; [intros [= <-]; done | intros [= <-]; done | done].
    + intros [Hfit <-]. destruct e as [s|l|[s|]]; cbn in *; congruence.
Qed.

Definition flat_nodes (f : FormField) (values : list jstr) (per_text : Z) : Z :=
  if is_kind f "array" then 0
  else match values with
       | _ :: _ :: _ => 0
       | [] => if is_kind f "optional" then 1 else 0
       | _ => if is_kind f "optional" then 1 + per_text else 0
       end.

Definition size_issues (n : jstr) (values : list jstr) : list (jstr * FormIssueReason) :=
  concat ((fun text => if maxFormRowBytes <? utf8Length text then [(n, row_value_limit_issue)] else []) <$> values).

Definition row_nodes (f : FormField) (values : list jstr) : Z := 1 + total (fun _ => 1) values + flat_nodes f values 0.

Lemma row_nodes_nonneg f values : 0 <= row_nodes f values.
Proof.
  unfold row_nodes, flat_nodes. pose proof (total_nonneg (fun _ : jstr => 1) values ltac:(lia)).
  repeat case_match; lia.
Qed.

(** A flat field is read as its entry when its values spell one. *)
Definition reads_entry (f : FormField) (values : list jstr) (o : option (jstr * value)) (h : heap) : Prop :=
  (forall n v, o = Some (n, v) -> n = name f)
  /\ forall e, read_entry f values = Some e -> exists v, o = Some (name f, v) /\ entry_is h f v e.

Lemma reads_none f values h : read_entry f values = None -> reads_entry f values None h.
Proof. intros H. split; [done |]. intros e He. congruence. Qed.

Lemma reads_some f values h v e :
  read_entry f values = Some e -> entry_is h f v e -> reads_entry f values (Some (name f, v)) h.
Proof. intros H Hv. split; [by intros n w [= <- _] |]. intros e' He. rewrite H in He. injection He as <-. by exists v. Qed.

Lemma read_entry_array f values : is_kind f "array" = true -> read_entry f values = Some (Several values).
Proof. unfold read_entry. by intros ->. Qed.

(** The common end of [row_field] and [form_field]. *)
Lemma settles_flat h f values n path depth (make : jstr -> jstr -> F value) per_text :
  flat_field f -> depth <= 64 -> 0 <= per_text -> Z.of_nat (length values) <= MAX_SAFE ->
  is_kind f "array" = false ->
  (forall some text h', settles h' (make some text) per_text [] (fun v h2 => record_is h2 v some [(js "value", VStr text)])) ->
  settles h
    (match values with
     | _ :: _ :: _ => f! _ := issue n form_repeated in fret None
     | _ =>
         if is_kind f "str" then
           match values with
           | text :: _ => fret (Some (name f, VStr text))
           | [] => f! _ := issue n form_missing in fret None
           end
         else if is_kind f "optional" then
           match given (some_id f), given (none_id f) with
           | Some some, Some none =>
               f! _ := fvisit depth path in
               f! v := match values with
                       | [] => frecord none []
                       | text :: _ => make some text
                       end in
               fret (Some (name f, v))
           | _, _ => ffault "invalid compiler form schema"
           end
         else ffault "unknown compiler form field"
     end)%form (flat_nodes f values per_text) (flat_issues n f values) (reads_entry f values).
Proof.
  intros Hf Hd Hper Hlen Ha Hmake.
  assert (forall h r, read_entry f values = None ->
    settles h (f! _ := issue n r in fret None)%form 0 [(n, r)] (reads_entry f values)) as Hissue.
  { intros h' r Hr. apply (settles_eq _ _ (0 + 0) _ ([(n, r)] ++ [])); [| done..].
    eapply settles_bind; [done | done | apply settles_issue |].
    intros _ h2 _ _ _. apply settles_ret. intros. by apply reads_none. }
  assert (is_kind f "str" = true -> is_kind f "optional" = false) as Hso.
  { intros Hs. apply not_true_iff_false. intros H. by pose proof (is_kind_one _ _ _ Hs H). }
  unfold flat_nodes, flat_issues. rewrite Ha. destruct values as [|s [|s' l]].
  - destruct (is_kind f "str") eqn:Es.
    + rewrite Hso by done. apply Hissue. unfold read_entry. by rewrite Ha, Es.
    + destruct Hf as [? | [? | (Ho & [some Hs] & [none Hn])]]; [congruence.. |]. rewrite Ho, Hs, Hn.
      apply (settles_eq _ _ (1 + (0 + 0)) _ ([] ++ ([] ++ []))); [| lia | done].
      eapply settles_bind; [done | done | by apply settles_visit |]. intros _ h1 _ _ _.
      eapply settles_bind; [done | done | apply settles_record, NoDup_nil_2 |]. intros v h2 _ _ Hv.
      apply settles_ret. intros h3 Hx. apply (reads_some _ _ _ _ (Maybe None)).
      * unfold read_entry. by rewrite Ha, Es.
      * exists none. split; [done | by eapply record_is_grows].
  - destruct (is_kind f "str") eqn:Es.
    + rewrite Hso by done. apply settles_ret. intros h1 _. apply (reads_some _ _ _ _ (Single s)); [| done].
      unfold read_entry. by rewrite Ha, Es.
    + destruct Hf as [? | [? | (Ho & [some Hs] & [none Hn])]]; [congruence.. |]. rewrite Ho, Hs, Hn.
      apply (settles_eq _ _ (1 + (per_text + 0)) _ ([] ++ ([] ++ []))); [| lia | done].
      eapply settles_bind; [done | lia | by apply settles_visit |]. intros _ h1 _ _ _.
      eapply settles_bind; [lia | done | apply Hmake |].
      intros v h2 _ _ Hv. apply settles_ret. intros h3 Hx. apply (reads_some _ _ _ _ (Maybe (Some s))).
      * unfold read_entry. by rewrite Ha, Es.
      * exists some. split; [done | by eapply record_is_grows].
  - apply Hissue. unfold read_entry. by rewrite Ha.
Qed.

(** ** Rows *)

Definition short_list (values : list jstr) : Prop := Z.of_nat (length values) <= MAX_SAFE.

Lemma settles_row_field h coll key path m f :
  let values := default [] (m !! name f) in
  let n := entryName coll key (name f) in
  flat_field f -> short_list values ->
  settles h (row_field coll key path m f) (row_nodes f values) (size_issues n values ++ flat_issues n f values)
    (reads_entry f values).
Proof.
  cbv zeta. intros Hf Hl. unfold row_field. cbv zeta. set (values := default [] (m !! name f)) in *.
  set (n := entryName coll key (name f)). set (vp := childPath (childPath path key) (name f)).
  unfold row_nodes. rewrite <- Z.add_assoc.
  change (size_issues n values ++ flat_issues n f values) with ([] ++ (size_issues n values ++ flat_issues n f values)).
  pose proof (total_nonneg (fun _ : jstr => 1) values ltac:(lia)) as Ht.
  assert (0 <= flat_nodes f values 0) as Hfn by (unfold flat_nodes; repeat case_match; lia).
  eapply settles_bind; [done | lia | by apply settles_visit |]. intros _ h1 _ _ _.
  eapply settles_bind; [done | done | |].
  { unfold size_issues. apply settles_each; [lia |]. intros text h2 _ _.
    apply (settles_eq _ _ (1 + 0) _ ([] ++ (if maxFormRowBytes <? utf8Length text then [(n, row_value_limit_issue)] else []))); [| done..].
    eapply settles_bind; [done | done | by apply settles_visit |]. intros _ h3 _ _ _.
    destruct (_ <? _); [apply settles_issue | by apply settles_ret]. }
  intros _ h2 _ _ _. destruct (is_kind f "array") eqn:Ha.
  - unfold flat_nodes, flat_issues. rewrite Ha. apply (settles_eq _ _ (0 + 0) _ ([] ++ [])); [| done..].
    eapply settles_bind; [done | done | apply settles_array; by rewrite length_fmap |]. intros v h3 _ _ Hv.
    apply settles_ret. intros h4 Hx. eapply reads_some; [by apply read_entry_array |]. by eapply dataArray_grows.
  - apply (settles_flat h2 f values n vp 3 (fun some text => frecord some [(js "value", VStr text)]) 0); try done.
    intros some text h3. apply settles_record. repeat constructor. by intros ?%elem_of_nil.
Qed.

(** The values of the fields of a row, by name. *)
Section row_reading.
Context (coll key : jstr) (vals : jstr -> list jstr).

Definition row_issues (f : FormField) : list (jstr * FormIssueReason) :=
  let n := entryName coll key (name f) in size_issues n (vals (name f)) ++ flat_issues n f (vals (name f)).

(** The fields read as the entries [es], in order. *)
Definition reads_row (fs : list FormField) (vs : list (jstr * value)) (h : heap) : Prop :=
  vs.*1 `sublist_of` (name <$> fs)
  /\ forall es, Forall2 (fun f e => read_entry f (vals (name f)) = Some e) fs es ->
       exists xs, vs = zip (name <$> fs) xs /\ Forall3 (entry_is h) fs xs es.
End row_reading.

Lemma settles_row_values h coll key path m fs :
  let vals := fun n => default [] (m !! n) in
  Forall flat_field fs -> Forall (fun f => short_list (vals (name f))) fs ->
  settles h (row_values coll key path m fs) (total (fun f => row_nodes f (vals (name f))) fs)
    (concat (row_issues coll key vals <$> fs)) (reads_row vals fs).
Proof.
  cbv zeta. set (vals := fun n => default [] (m !! n)). intros Hf Hl. revert h Hl.
  induction Hf as [|f fs Hf Hfs IH]; intros h Hl.
  - apply settles_ret. intros h' _. split; [done |]. intros es Hes%Forall2_nil_inv_l. subst. exists []. by split; [| constructor].
  - apply Forall_cons in Hl as [Hlf Hl]. cbn [row_values fmap list_fmap concat].
    change (total (fun f0 => row_nodes f0 (vals (name f0))) (f :: fs))
      with (row_nodes f (vals (name f)) + total (fun f0 => row_nodes f0 (vals (name f0))) fs).
    pose proof (total_nonneg (fun f0 => row_nodes f0 (vals (name f0))) fs ltac:(intros; apply row_nodes_nonneg)) as Ht.
    eapply settles_bind; [apply row_nodes_nonneg | done | by apply (settles_row_field h coll key path m f) |].
    intros o h1 _ _ [Ho Hoe]. apply (settles_eq _ _ (total (fun f0 => row_nodes f0 (vals (name f0))) fs + 0) _
      (concat (row_issues coll key vals <$> fs) ++ [])); [| lia | by rewrite app_nil_r].
    eapply settles_bind; [done | done | by apply IH |]. intros vs h2 Hx _ [Hsub Hvs]. apply settles_ret. intros h3 Hx'. split.
    + destruct o as [[n v]|]; cbn [fmap list_fmap fst]; [rewrite (Ho n v eq_refl); by apply sublist_skip | by apply sublist_cons].
    + intros es Hes. apply Forall2_cons_inv_l in Hes as (e & es' & He & Hes & ->).
      destruct (Hoe e He) as (v & -> & Hv). destruct (Hvs es' Hes) as (xs & -> & Hxs).
      exists (v :: xs). split; [done |]. constructor; [eapply entry_is_grows; [| done]; by etrans |].
      eapply Forall3_impl; [exact Hxs |]. intros. by eapply entry_is_grows.
Qed.

(** One row of a collection: its key and its entries, in the order of the fields. *)
Definition row_data : Type := jstr * list entry.

Definition row_is (h : heap) (r : FormRowsSchema) (v : value) (d : row_data) : Prop :=
  exists body xs, record_is h v (item r) [(js "key", VStr d.1); (js "value", body)]
    /\ record_is h body (row r) (zip (name <$> row_fields r) xs) /\ Forall3 (entry_is h) (row_fields r) xs d.2.

Lemma row_is_grows h h' r v d : extends h h' -> row_is h r v d -> row_is h' r v d.
Proof.
  intros Hx (body & xs & H1 & H2 & H3). exists body, xs. split_and!; [by eapply record_is_grows .. |].
  eapply Forall3_impl; [exact H3 |]. intros. by eapply entry_is_grows.
Qed.

Section items.
Context (coll : jstr) (r : FormRowsSchema) (rs : by_key).

Definition vals_of (key n : jstr) : list jstr := default [] (default ∅ (find_row rs key) !! n).

Definition item_nodes (key : jstr) : Z :=
  if bool_decide (find_row rs key = None) then 0 else 1 + total (fun f => row_nodes f (vals_of key (name f))) (row_fields r).
Definition item_issues (key : jstr) : list (jstr * FormIssueReason) :=
  if bool_decide (find_row rs key = None) then [] else concat (row_issues coll key (vals_of key) <$> row_fields r).

(** The rows that the entries under the keys spell. *)
Definition reads_rows (keys : list jstr) (ds : list row_data) : Prop :=
  ds.*1 = keys /\ Forall (fun d => is_Some (find_row rs d.1)
    /\ Forall2 (fun f e => read_entry f (vals_of d.1 (name f)) = Some e) (row_fields r) d.2) ds.

Definition items_are (keys : list jstr) (vs : list value) (h : heap) : Prop :=
  (length vs <= length keys)%nat /\ forall ds, reads_rows keys ds -> Forall2 (row_is h r) vs ds.

Lemma item_nodes_nonneg key : 0 <= item_nodes key.
Proof.
  unfold item_nodes. pose proof (total_nonneg (fun f => row_nodes f (vals_of key (name f))) (row_fields r)
    ltac:(intros; apply row_nodes_nonneg)). case_bool_decide; lia.
Qed.

Context (Hr : rows_ok r) (Hshort : forall key n, short_list (vals_of key n)).

Lemma settles_row_items h path keys :
  settles h (row_items coll r path rs keys) (total item_nodes keys) (concat (item_issues <$> keys)) (items_are keys).
Proof using Hr Hshort.
  revert h. induction keys as [|key keys IH]; intros h.
  - apply settles_ret. intros h' _. split; [done |]. intros ds [H _]. by destruct ds.
  - cbn [row_items fmap list_fmap concat]. change (total item_nodes (key :: keys)) with (item_nodes key + total item_nodes keys).
    pose proof (total_nonneg item_nodes keys item_nodes_nonneg) as Ht. pose proof (item_nodes_nonneg key) as Hi.
    unfold item_nodes at 1 in Hi. unfold item_nodes at 1, item_issues at 1. destruct (find_row rs key) as [m|] eqn:Hm.
    + rewrite bool_decide_false in * by done.
      set (ns := total (fun f => row_nodes f (vals_of key (name f))) (row_fields r)) in *.
      set (is1 := concat (row_issues coll key (vals_of key) <$> row_fields r)).
      assert (0 <= ns) as Hns by (apply total_nonneg; intros; apply row_nodes_nonneg).
      apply (settles_eq _ _ (1 + (ns + (0 + (0 + (total item_nodes keys + 0))))) _
        ([] ++ (is1 ++ ([] ++ ([] ++ (concat (item_issues <$> keys) ++ [])))))); [| lia | by rewrite app_nil_r].
      destruct Hr as (_ & _ & _ & _ & _ & Hnd & Hfs).
      assert (vals_of key = fun n => default [] (m !! n)) as Hvals by (unfold vals_of; by rewrite Hm).
      eapply settles_bind; [done | lia | by apply settles_visit |]. intros _ h1 _ _ _.
      eapply settles_bind; [lia | lia | |].
      { unfold ns, is1. rewrite Hvals. apply settles_row_values.
        - eapply Forall_impl; [exact Hfs |]. by intros f [? _].
        - apply Forall_true. intros f. rewrite <- (f_equal (fun g => g (name f)) Hvals). apply Hshort. }
      intros fs h2 _ _ [Hsub Hfs']. eapply settles_bind; [done | lia | apply settles_record; by eapply sublist_NoDup |].
      intros body h3 Hx3 _ Hbody. eapply settles_bind; [done | lia | |].
      { apply settles_record. apply NoDup_cons. split; [by intros ?%list_elem_of_singleton | apply NoDup_singleton]. }
      intros v h4 Hx4 _ Hv. eapply settles_bind; [lia | done | by apply IH |]. intros vs h5 Hx5 _ [Hlen Hvs].
      apply settles_ret. intros h6 Hx6. split; [cbn; lia |]. intros ds [Hk Hds]. destruct ds as [|d ds]; [done |].
      injection Hk as Hdk Hk. apply Forall_cons in Hds as [[_ Hd] Hds]. constructor.
      * rewrite Hdk in Hd. rewrite Hvals in Hd. destruct (Hfs' d.2 Hd) as (xs & -> & Hxs). rewrite <- Hdk in Hv.
        exists body, xs. split_and!.
        -- eapply record_is_grows; [| exact Hv]. by etrans.
        -- eapply record_is_grows; [| exact Hbody]. repeat (etrans; [eassumption |]). done.
        -- eapply Forall3_impl; [exact Hxs |]. intros. eapply entry_is_grows; [| done]. repeat (etrans; [eassumption |]). done.
      * eapply Forall2_impl; [by apply Hvs |]. intros. by eapply row_is_grows.
    + rewrite bool_decide_true in * by done. eapply settles_weaken; [apply IH |]. intros vs h' _ [Hlen _].
      split; [cbn; lia |]. intros ds [Hk Hds]. destruct ds as [|d ds]; [done |]. injection Hk as Hdk Hk.
      apply Forall_cons in Hds as [[[? Hd] _] _]. rewrite Hdk in Hd. congruence.
Qed.
End items.

(** ** Collections *)

Fixpoint order_scan (r : FormRowsSchema) (keys seen : list jstr) : list (jstr * FormIssueReason) * list jstr :=
  match keys with
  | [] => ([], seen)
  | key :: keys =>
      if negb (rowKeyPattern key) then let '(is_, ks) := order_scan r keys seen in ((order r, type_issue) :: is_, ks)
      else if bool_decide (key ∈ seen) then let '(is_, ks) := order_scan r keys seen in ((order r, form_repeated) :: is_, ks)
      else order_scan r keys (seen ++ [key])
  end.

Lemma settles_read_order h r path keys seen :
  settles h (read_order r path keys seen) (Z.of_nat (length keys)) (order_scan r keys seen).1
    (fun ks _ => ks = (order_scan r keys seen).2).
Proof.
  revert h seen. induction keys as [|key keys IH]; intros h seen; [by apply settles_ret |].
  cbn [read_order order_scan]. apply (settles_eq _ _ (1 + Z.of_nat (length keys)) _
    ([] ++ (if negb (rowKeyPattern key) then let '(is_, ks) := order_scan r keys seen in ((order r, type_issue) :: is_, ks)
            else if bool_decide (key ∈ seen) then let '(is_, ks) := order_scan r keys seen in ((order r, form_repeated) :: is_, ks)
            else order_scan r keys (seen ++ [key])).1)); [| cbn [length]; lia | done].
  eapply settles_bind; [done | lia | by apply settles_visit |]. intros _ h1 _ _ _.
  assert (forall rsn, settles h1 (f! _ := issue (order r) rsn in read_order r path keys seen)%form (Z.of_nat (length keys))
    ((order r, rsn) :: (order_scan r keys seen).1) (fun ks _ => ks = (order_scan r keys seen).2)) as Hi.
  { intros rsn. apply (settles_eq _ _ (0 + Z.of_nat (length keys)) _ ([(order r, rsn)] ++ (order_scan r keys seen).1)); [| done..].
    eapply settles_bind; [done | lia | apply settles_issue |]. intros _ h2 _ _ _. apply IH. }
  destruct (negb _); [destruct (order_scan r keys seen); apply Hi |].
  case_bool_decide; [destruct (order_scan r keys seen); apply Hi | apply IH].
Qed.

Lemma order_scan_ok r keys seen :
  Forall (fun k => rowKeyPattern k = true) keys -> NoDup (seen ++ keys) -> order_scan r keys seen = ([], seen ++ keys).
Proof.
  intros Hk. revert seen. induction Hk as [|key keys Hk _ IH]; intros seen Hnd; [by rewrite app_nil_r |].
  cbn [order_scan]. rewrite Hk. cbn [negb]. rewrite bool_decide_false.
  - rewrite IH; by rewrite <- app_assoc.
  - intros Hin. apply NoDup_app in Hnd as (_ & Hd & _). apply (Hd key Hin). by left.
Qed.

Lemma order_scan_nil r keys seen :
  NoDup seen -> (order_scan r keys seen).1 = [] -> Forall (fun k => rowKeyPattern k = true) keys /\ NoDup (seen ++ keys).
Proof.
  revert seen. induction keys as [|key keys IH]; intros seen Hnd; cbn [order_scan]; [by rewrite app_nil_r |].
  destruct (rowKeyPattern key) eqn:Hk; cbn [negb]; [| by destruct (order_scan r keys seen)].
  case_bool_decide as Hin; [by destruct (order_scan r keys seen) |]. intros H.
  apply IH in H as [Hks Hn]; [by rewrite <- app_assoc in Hn; split; [constructor |] |].
  apply NoDup_app. split_and!; [done | | apply NoDup_singleton]. by intros x Hx ->%list_elem_of_singleton.
Qed.

Lemma order_scan_length r keys seen : (length (order_scan r keys seen).2 <= length seen + length keys)%nat.
Proof.
  revert seen. induction keys as [|key keys IH]; intros seen; cbn [order_scan length]; [cbn; lia |].
  pose proof (IH seen). pose proof (IH (seen ++ [key])) as H2. rewrite length_app in H2. cbn in H2.
  destruct (negb _); [destruct (order_scan r keys seen); cbn in *; lia |].
  case_bool_decide; [destruct (order_scan r keys seen); cbn in *; lia | lia].
Qed.

Section collection.
Context (coll : jstr) (r : FormRowsSchema) (keys : list jstr) (rs : by_key) (distinct : list jstr) (rowsLimit : Z).

Definition ordered_keys : list jstr := (order_scan r keys []).2.
Definition over_limit : bool := rowsLimit <? Z.of_nat (length distinct).
Definition limit_issues : list (jstr * FormIssueReason) :=
  if over_limit then [(rowAddress coll (default [] (distinct !! Z.to_nat rowsLimit)), row_limit_issue)] else [].
Definition empty_issues (key : jstr) : list (jstr * FormIssueReason) :=
  if bool_decide (find_row rs key = None) then [(rowAddress coll key, form_missing)] else [].
Definition unordered_issues (key : jstr) : list (jstr * FormIssueReason) :=
  if negb (bool_decide (key ∈ ordered_keys)) && (negb over_limit || bool_decide (key ∈ take (Z.to_nat rowsLimit) distinct))
  then [(rowAddress coll key, form_missing)] else [].

Definition rows_issues : list (jstr * FormIssueReason) :=
  (order_scan r keys []).1 ++ limit_issues ++ concat (empty_issues <$> ordered_keys)
    ++ concat (unordered_issues <$> rs.*1) ++ concat (item_issues coll r rs <$> ordered_keys).

Definition rows_nodes : Z := 1 + Z.of_nat (length keys) + total (item_nodes r rs) ordered_keys.

Definition rows_are (h : heap) (v : value) (ds : list row_data) : Prop :=
  exists o i items, record_is h v (collection r) [(js "order", o); (js "items", i)]
    /\ dataArray h o = Ret (VStr <$> ds.*1) /\ dataArray h i = Ret items /\ Forall2 (row_is h r) items ds.

Lemma rows_are_grows h h' v ds : extends h h' -> rows_are h v ds -> rows_are h' v ds.
Proof.
  intros Hx (o & i & items & H1 & H2 & H3 & H4). exists o, i, items.
  split_and!; [by eapply record_is_grows | by eapply dataArray_grows .. |].
  eapply Forall2_impl; [exact H4 |]. intros. by eapply row_is_grows.
Qed.
End collection.

Lemma total_zero {A} (l : list A) : total (fun _ => 0) l = 0.
Proof. induction l as [|a l IH]; [done |]. change (0 + total (fun _ : A => 0) l = 0). lia. Qed.

Lemma settles_if_issue h (b : bool) n rsn :
  settles h (if b then issue n rsn else fret tt) 0 (if b then [(n, rsn)] else []) no_claim.
Proof. destruct b; [apply settles_issue | by apply settles_ret]. Qed.

(** A check per element that may add one issue. *)
Lemma settles_checks {A} h (test : A -> bool) (at_ : A -> jstr) rsn l :
  settles h (feach (fun a => if test a then issue (at_ a) rsn else fret tt) l) 0
    (concat ((fun a => if test a then [(at_ a, rsn)] else []) <$> l)) no_claim.
Proof.
  eapply settles_eq; [apply (settles_each _ _ (fun _ => 0)); [lia |] | apply total_zero | done].
  intros a h' _ _. apply settles_if_issue.
Qed.

Lemma settles_analyzeRows h coll r c rowsLimit :
  let keys := default [] (orders c !! coll) in
  let rs := group_entries coll (entries c) in
  let distinct := default [] (keysInOrder c !! coll) in
  rows_ok r -> short_list keys -> (forall key n, short_list (vals_of rs key n)) ->
  settles h (analyzeRows coll r c rowsLimit) (rows_nodes r keys rs) (rows_issues coll r keys rs distinct rowsLimit)
    (fun v h' => forall ds, reads_rows r rs (ordered_keys r keys) ds -> rows_are r h' v ds).
Proof.
  cbv zeta. intros Hr Hk Hs. unfold analyzeRows. cbv zeta. set (keys := default [] (orders c !! coll)) in *.
  set (rs := group_entries coll (entries c)) in *. set (distinct := default [] (keysInOrder c !! coll)).
  unfold rows_nodes, rows_issues. pose proof (total_nonneg (item_nodes r rs) (ordered_keys r keys) (item_nodes_nonneg r rs)) as Ht.
  set (tn := total (item_nodes r rs) (ordered_keys r keys)) in *.
  apply (settles_eq _ _ (1 + (Z.of_nat (length keys) + (0 + (0 + (0 + (tn + (0 + (0 + 0)))))))) _
    ([] ++ ((order_scan r keys []).1 ++ (limit_issues coll distinct rowsLimit ++ (concat (empty_issues coll rs <$> ordered_keys r keys)
      ++ (concat (unordered_issues coll r keys distinct rowsLimit <$> rs.*1) ++ (concat (item_issues coll r rs <$> ordered_keys r keys)
      ++ ([] ++ ([] ++ []))))))))); [| lia | by rewrite !app_nil_r].
  assert (Z.of_nat (length (ordered_keys r keys)) <= MAX_SAFE) as Hlen.
  { pose proof (order_scan_length r keys []) as H. cbn in H. unfold ordered_keys, short_list in *. lia. }
  eapply settles_bind; [done | lia | by apply settles_visit |]. intros _ h1 _ _ _.
  eapply settles_bind; [lia | lia | apply settles_read_order |]. intros ordered h2 _ _ ->.
  change (order_scan r keys []).2 with (ordered_keys r keys).
  eapply settles_bind; [done | lia | apply settles_if_issue |]. intros _ h3 _ _ _.
  eapply settles_bind; [done | lia | apply settles_checks |]. intros _ h4 _ _ _.
  eapply settles_bind; [done | lia | apply settles_checks |]. intros _ h5 _ _ _.
  eapply settles_bind; [lia | done | by apply settles_row_items |]. intros items h6 _ _ [Hil Hitems].
  eapply settles_bind; [done | done | apply settles_array; by rewrite length_fmap |]. intros o h7 Hx7 _ Ho.
  eapply settles_bind; [done | done | apply settles_array; lia |]. intros i h8 Hx8 _ Hi.
  eapply settles_weaken; [apply settles_record; apply NoDup_cons; split; [by intros ?%list_elem_of_singleton | apply NoDup_singleton] |].
  intros v h9 Hx9 Hv ds Hds. exists o, i, items. split_and!; [done | | | ].
  - destruct Hds as [-> _]. eapply dataArray_grows; [| exact Ho]. by etrans.
  - by eapply dataArray_grows.
  - eapply Forall2_impl; [by apply Hitems |]. intros. eapply row_is_grows; [| done]. repeat (etrans; [eassumption |]). done.
Qed.

(** ** The fields of a form *)

Inductive field_data : Type := Flat (e : entry) | Grid (ds : list row_data).

Definition field_is (h : heap) (f : FormField) (v : value) (d : field_data) : Prop :=
  match d with
  | Flat e => entry_is h f v e
  | Grid ds => exists r, rows f = Some r /\ rows_are r h v ds
  end.

Lemma field_is_grows h h' f v d : extends h h' -> field_is h f v d -> field_is h' f v d.
Proof.
  destruct d; cbn; [by apply entry_is_grows |]. intros Hx (r & Hr & H). exists r. split; [done | by eapply rows_are_grows].
Qed.

Definition form_is (h : heap) (schema : FormSchema) (v : value) (tree : list field_data) : Prop :=
  exists vs, record_is h v (schema_root schema) (zip (name <$> schema_fields schema) vs)
    /\ Forall3 (field_is h) (schema_fields schema) vs tree.

Section fields.
Context (c : Classified) (rowsLimit : Z).

Definition top_vals (f : FormField) : list jstr := default [] (top c !! name f).
Definition coll_keys (f : FormField) : list jstr := default [] (orders c !! name f).
Definition coll_rows (f : FormField) : by_key := group_entries (name f) (entries c).
Definition coll_distinct (f : FormField) : list jstr := default [] (keysInOrder c !! name f).

Definition field_nodes (f : FormField) : Z :=
  if is_kind f "rows" then match rows f with Some r => rows_nodes r (coll_keys f) (coll_rows f) | None => 0 end
  else 1 + (if is_kind f "array" then Z.of_nat (length (top_vals f)) else flat_nodes f (top_vals f) 1).

Definition field_issues (f : FormField) : list (jstr * FormIssueReason) :=
  if is_kind f "rows" then match rows f with Some r => rows_issues (name f) r (coll_keys f) (coll_rows f) (coll_distinct f) rowsLimit | None => [] end
  else flat_issues (name f) f (top_vals f).

(** What the classified values of a field spell. *)
Definition read_field (f : FormField) (d : field_data) : Prop :=
  match d with
  | Flat e => is_kind f "rows" = false /\ read_entry f (top_vals f) = Some e
  | Grid ds => is_kind f "rows" = true
      /\ exists r, rows f = Some r /\ reads_rows r (coll_rows f) (ordered_keys r (coll_keys f)) ds
  end.

Definition reads_field (f : FormField) (o : option (jstr * value)) (h : heap) : Prop :=
  (forall n v, o = Some (n, v) -> n = name f)
  /\ forall d, read_field f d -> exists v, o = Some (name f, v) /\ field_is h f v d.

Definition short_field (f : FormField) : Prop :=
  short_list (top_vals f) /\ short_list (coll_keys f) /\ forall key n, short_list (vals_of (coll_rows f) key n).

Lemma total_ones (l : list nat) : total (fun _ => 1) l = Z.of_nat (length l).
Proof. induction l as [|a l IH]; [done |]. change (1 + total (fun _ : nat => 1) l = Z.of_nat (S (length l))). lia. Qed.

Lemma field_nodes_nonneg f : 0 <= field_nodes f.
Proof.
  unfold field_nodes, rows_nodes, flat_nodes. destruct (is_kind f "rows"); [| repeat case_match; lia].
  destruct (rows f) as [r|]; [| done].
  pose proof (total_nonneg (item_nodes r (coll_rows f)) (ordered_keys r (coll_keys f)) (item_nodes_nonneg r _)). lia.
Qed.

Lemma settles_form_field h f :
  field_ok f -> short_field f ->
  settles h (form_field c rowsLimit f) (field_nodes f) (field_issues f) (reads_field f).
Proof.
  intros [Hp Hf] (Ht & Hk & Hv). unfold form_field, field_nodes, field_issues. destruct (is_kind f "rows") eqn:Hr.
  - assert (exists r, rows f = Some r /\ rows_ok r) as (r & Hrr & Hok).
    { destruct Hf as [Hf | [_ Hf]]; [| done]. destruct Hf as [H | [H | [H _]]]; by pose proof (is_kind_one _ _ _ Hr H). }
    rewrite Hrr. pose proof Hok as (H1 & H2 & H3 & H4 & _). rewrite !bool_decide_false by done. cbn [orb].
    pose proof (total_nonneg (item_nodes r (coll_rows f)) (ordered_keys r (coll_keys f)) (item_nodes_nonneg r _)) as Hn.
    apply (settles_eq _ _ (rows_nodes r (coll_keys f) (coll_rows f) + 0) _
      (rows_issues (name f) r (coll_keys f) (coll_rows f) (coll_distinct f) rowsLimit ++ [])); [| lia | by rewrite app_nil_r].
    eapply settles_bind; [unfold rows_nodes; lia | done | by apply settles_analyzeRows |]. intros v h1 _ _ Hrows.
    apply settles_ret. intros h2 Hx. split; [by intros n w [= <- _] |]. intros d Hd. exists v. split; [done |].
    destruct d as [e | ds]; cbn in Hd; [by rewrite Hr in Hd; destruct Hd |]. destruct Hd as (_ & r' & Hr' & Hds).
    rewrite Hrr in Hr'. injection Hr' as <-. exists r. split; [done |]. by eapply rows_are_grows, Hrows.
  - destruct Hf as [Hf | [Hf _]]; [| congruence].
    assert (forall o h', reads_entry f (top_vals f) o h' -> reads_field f o h') as Hre.
    { intros o h' [Ho He]. split; [done |]. intros d Hd. destruct d as [e | ds]; [by apply He, Hd |].
      destruct Hd as [Hd _]. congruence. }
    fold (top_vals f). destruct (is_kind f "array") eqn:Ha.
    + apply (settles_eq _ _ (1 + (Z.of_nat (length (top_vals f)) + (0 + 0))) _ ([] ++ ([] ++ ([] ++ [])))); [| lia |].
      2: { unfold flat_issues. by rewrite Ha. }
      eapply settles_bind; [done | lia | apply settles_visit; by destruct (is_kind f "str") |]. intros _ h1 _ _ _.
      eapply settles_bind; [lia | done | |].
      { eapply settles_eq; [apply (settles_each _ _ (fun _ => 1) (fun _ => [])); [lia | intros; by apply settles_visit] | |].
        - by rewrite total_ones, length_seq.
        - induction (seq _ _) as [|i l IH]; [done | exact IH]. }
      intros _ h2 _ _ _. eapply settles_bind; [done | done | apply settles_array; by rewrite length_fmap |].
      intros v h3 _ _ Hv3. apply settles_ret. intros h4 Hx. apply Hre, reads_some with (Several (top_vals f)).
      * by apply read_entry_array.
      * by eapply dataArray_grows.
    + assert (0 <= flat_nodes f (top_vals f) 1) as Hn by (unfold flat_nodes; repeat case_match; lia).
      apply (settles_eq _ _ (1 + flat_nodes f (top_vals f) 1) _ ([] ++ flat_issues (name f) f (top_vals f))); [| done..].
      eapply settles_bind; [done | done | apply settles_visit; by destruct (is_kind f "str") |]. intros _ h1 _ _ _.
      eapply settles_weaken; [| intros a h' _; apply Hre].
      apply (settles_flat h1 f (top_vals f) (name f) (childPath [] (name f)) 3
        (fun some text => f! _ := fvisit 3 (childPath (childPath [] (name f)) (js "value")) in
                          frecord some [(js "value", VStr text)])%form 1); try done.
      intros some text h2. apply (settles_eq _ _ (1 + 0) _ ([] ++ [])); [| done..].
      eapply settles_bind; [done | done | by apply settles_visit |]. intros _ h3 _ _ _.
      apply settles_record. apply NoDup_singleton.
Qed.

Definition reads_fields (fs : list FormField) (vs : list (jstr * value)) (h : heap) : Prop :=
  vs.*1 `sublist_of` (name <$> fs)
  /\ forall tree, Forall2 read_field fs tree -> exists xs, vs = zip (name <$> fs) xs /\ Forall3 (field_is h) fs xs tree.

Lemma settles_form_values h fs :
  Forall field_ok fs -> Forall short_field fs ->
  settles h (form_values c rowsLimit fs) (total field_nodes fs) (concat (field_issues <$> fs)) (reads_fields fs).
Proof.
  intros Hf Hl. revert h Hl. induction Hf as [|f fs Hf Hfs IH]; intros h Hl.
  - apply settles_ret. intros h' _. split; [done |]. intros tree ->%Forall2_nil_inv_l. exists []. by split; [| constructor].
  - apply Forall_cons in Hl as [Hlf Hl]. cbn [form_values fmap list_fmap concat].
    change (total field_nodes (f :: fs)) with (field_nodes f + total field_nodes fs).
    pose proof (total_nonneg field_nodes fs field_nodes_nonneg) as Ht.
    eapply settles_bind; [apply field_nodes_nonneg | done | by apply settles_form_field |]. intros o h1 _ _ [Ho Hoe].
    apply (settles_eq _ _ (total field_nodes fs + 0) _ (concat (field_issues <$> fs) ++ [])); [| lia | by rewrite app_nil_r].
    eapply settles_bind; [done | done | by apply IH |]. intros vs h2 Hx _ [Hsub Hvs]. apply settles_ret. intros h3 Hx'. split.
    + destruct o as [[n v]|]; cbn [fmap list_fmap fst]; [rewrite (Ho n v eq_refl); by apply sublist_skip | by apply sublist_cons].
    + intros tree Htree. apply Forall2_cons_inv_l in Htree as (d & tree' & Hd & Htree & ->).
      destruct (Hoe d Hd) as (v & -> & Hv). destruct (Hvs tree' Htree) as (xs & -> & Hxs).
      exists (v :: xs). split; [done |]. constructor; [eapply field_is_grows; [| done]; by etrans |].
      eapply Forall3_impl; [exact Hxs |]. intros. by eapply field_is_grows.
Qed.
End fields.

(** All issues of a classification, in order, and the nodes its analysis counts. *)
Definition form_issues (schema : FormSchema) (c : Classified) (rowsLimit : Z) : list (jstr * FormIssueReason) :=
  concat ((fun n => [(n, type_issue)]) <$> unknown c) ++ concat (field_issues c rowsLimit <$> schema_fields schema).
Definition form_nodes (schema : FormSchema) (c : Classified) : Z := total (field_nodes c) (schema_fields schema).

Lemma fbind_assoc {A B C} (m : F A) (n : A -> F B) (k : B -> F C) s :
  fbind m (fun a => fbind (n a) k) s = fbind (fbind m n) k s.
Proof. unfold fbind. by destruct (m s) as [[a s']| |]. Qed.

Lemma analyze_settles schema c rowsLimit h b :
  schema_ok schema -> Forall (short_field c) (schema_fields schema) -> heap_ok h -> nodes b <= maxNodes ->
  (nodes b + form_nodes schema c <= maxNodes ->
     exists a s, analyzeForm schema c rowsLimit (mkF h b []) = Coded (a, s)
       /\ raw_pairs a = known c /\ issues a = form_issues schema c rowsLimit /\ heap_ok (f_heap s) /\ nodes (f_budget s) <= maxNodes
       /\ match analysed a with
          | Some v => issues a = [] /\ forall tree, Forall2 (read_field c) (schema_fields schema) tree -> form_is (f_heap s) schema v tree
          | None => issues a <> []
          end)
  /\ (maxNodes < nodes b + form_nodes schema c -> exists p, analyzeForm schema c rowsLimit (mkF h b []) = reject p node_limit).
Proof.
  intros (Hfs & Hnd & _) Hshort Hh Hb. unfold analyzeForm.
  pose proof (total_nonneg (field_nodes c) (schema_fields schema) (field_nodes_nonneg c)) as Ht.
  assert (settles h (f! _ := feach (fun n => issue n type_issue) (unknown c) in form_values c rowsLimit (schema_fields schema))%form
    (form_nodes schema c) (form_issues schema c rowsLimit) (reads_fields c (schema_fields schema))) as Hs.
  { apply (settles_eq _ _ (0 + form_nodes schema c) _ (form_issues schema c rowsLimit)); [| lia | done].
    eapply settles_bind; [done | done | |].
    - eapply settles_eq; [apply (settles_each _ _ (fun _ => 0)); [lia | intros; apply settles_issue] | apply total_zero | done].
    - intros _ h' _ _ _. by apply settles_form_values. }
  destruct (Hs (mkF h b [])) as [H1 H2]; [done.. |]. cbn [f_budget f_heap f_issues] in *.
  rewrite fbind_assoc. set (run := fbind _ _) in H1, H2. fold run.
  split; intros Hc; [| destruct (H2 Hc) as [p Hp]; exists p; unfold fbind; by rewrite Hp].
  destruct (H1 Hc) as (vs & h' & b' & Hrun & Hb' & Hx & Hh' & Hsub & Hvs). clear H1 H2.
  unfold fbind at 1. rewrite Hrun. cbn [coded_bind]. unfold fbind at 1, read_issues. cbn [coded_bind f_issues app].
  destruct (form_issues schema c rowsLimit) as [|i is_].
  - destruct (settles_record h' (schema_root schema) vs ltac:(by eapply sublist_NoDup) (mkF h' b' [])) as [Hr _];
      [done | done | cbn; lia |].
    destruct Hr as (v & h2 & b2 & Hv & Hb2 & Hx2 & Hh2 & His); [cbn; lia |]. unfold fbind. rewrite Hv. cbn [coded_bind fret].
    eexists _, _. split; [reflexivity |]. cbn. split_and!; try done; [rewrite Hb2; cbn; lia |]. intros tree Htree.
    destruct (Hvs tree Htree) as (xs & -> & Hxs). exists xs. split; [done |].
    eapply Forall3_impl; [exact Hxs |]. intros. by eapply field_is_grows.
  - eexists _, _. split; [reflexivity |]. cbn. split_and!; try done. lia.
Qed.

(** ** Valid forms and their submissions *)

Definition row_ok (r : FormRowsSchema) (d : row_data) : Prop :=
  rowKeyPattern d.1 = true /\ Forall2 fits (row_fields r) d.2 /\ concat (texts_of <$> d.2) <> []
  /\ Forall (fun text => utf8Length text <= maxFormRowBytes) (concat (texts_of <$> d.2)).

Definition data_ok (rowsLimit : Z) (f : FormField) (d : field_data) : Prop :=
  match d with
  | Flat e => is_kind f "rows" = false /\ fits f e
  | Grid ds => is_kind f "rows" = true
      /\ exists r, rows f = Some r /\ Forall (row_ok r) ds /\ NoDup ds.*1 /\ Z.of_nat (length ds) <= rowsLimit
  end.

(** A form: what each field holds.  A row has an entry, and rows are few, distinct
    and short. *)
Definition form_ok (schema : FormSchema) (rowsLimit : Z) (tree : list field_data) : Prop :=
  Forall2 (data_ok rowsLimit) (schema_fields schema) tree.

(** The names under which a field is submitted, with their values in order. *)
Definition submitted_field (f : FormField) (d : field_data) : list (jstr * list jstr) :=
  match d, rows f with
  | Flat e, _ => [(name f, texts_of e)]
  | Grid ds, Some r =>
      (order r, ds.*1)
      :: concat ((fun d => zip_with (fun g e => (entryName (name f) d.1 (name g), texts_of e)) (row_fields r) d.2) <$> ds)
  | Grid _, None => []
  end.

Definition submission (schema : FormSchema) (tree : list field_data) : list (jstr * list jstr) :=
  concat (zip_with submitted_field (schema_fields schema) tree).

(** Pairs in any order that send these values under these names, and nothing else. *)
Definition submits (ps : list (jstr * jstr)) (groups : list (jstr * list jstr)) : Prop :=
  (forall n vs, (n, vs) ∈ groups -> sent n ps = vs) /\ (forall n, n ∉ groups.*1 -> sent n ps = []).

Definition top_entry_nodes (e : entry) : Z :=
  match e with Single _ => 1 | Several l => 1 + Z.of_nat (length l) | Maybe None => 2 | Maybe (Some _) => 3 end.
Definition row_entry_nodes (e : entry) : Z :=
  match e with Single _ => 2 | Several l => 1 + Z.of_nat (length l) | Maybe None => 2 | Maybe (Some _) => 3 end.
Definition data_nodes (d : field_data) : Z :=
  match d with
  | Flat e => top_entry_nodes e
  | Grid ds => 1 + Z.of_nat (length ds) + total (fun d => 1 + total row_entry_nodes d.2) ds
  end.

Lemma flat_nodes_entry g values e per_text :
  flat_field g -> read_entry g values = Some e ->
  flat_nodes g values per_text = match e with Maybe None => 1 | Maybe (Some _) => 1 + per_text | _ => 0 end.
Proof.
  intros Hg He. apply (read_entry_fits _ _ _ Hg) in He as [Hfit <-]. unfold flat_nodes.
  assert (forall k, is_kind g k = true -> forall k', js k <> js k' -> is_kind g k' = false) as Hone.
  { intros k Hk k' Hne. apply not_true_iff_false. intros H. apply Hne. by eapply is_kind_one. }
  destruct e as [s | l | [s|]]; cbn in Hfit |- *.
  - by rewrite (Hone _ Hfit "array"%string), (Hone _ Hfit "optional"%string).
  - by rewrite Hfit.
  - by rewrite (Hone _ Hfit "array"%string), Hfit.
  - by rewrite (Hone _ Hfit "array"%string), Hfit.
Qed.

Lemma row_nodes_entry g values e : flat_field g -> read_entry g values = Some e -> row_nodes g values = row_entry_nodes e.
Proof.
  intros Hg He. unfold row_nodes. rewrite (flat_nodes_entry g values e 0) by done. rewrite <- (read_entry_texts _ _ _ He).
  assert (forall l : list jstr, total (fun _ => 1) l = Z.of_nat (length l)) as Ht.
  { induction l as [|a l IH]; [done |]. change (1 + total (fun _ : jstr => 1) l = Z.of_nat (S (length l))). lia. }
  rewrite Ht. destruct e as [s | l | [s|]]; cbn; lia.
Qed.

(** ** Membership *)

Lemma sent_in n v ps : (n, v) ∈ ps -> v ∈ sent n ps.
Proof. intros H. apply list_elem_of_fmap. exists (n, v). split; [done |]. by apply list_elem_of_filter. Qed.

Lemma sent_none n ps : sent n ps = [] <-> n ∉ ps.*1.
Proof.
  split.
  - intros H ([n' v] & -> & Hin)%list_elem_of_fmap. apply sent_in in Hin. cbn in H. rewrite H in Hin. by apply elem_of_nil in Hin.
  - intros H. destruct (sent n ps) as [|v l] eqn:E; [done |]. exfalso. apply H.
    assert (v ∈ sent n ps) as (p & -> & [Hp Hin]%list_elem_of_filter)%list_elem_of_fmap by (rewrite E; by left).
    apply list_elem_of_fmap. by exists p.
Qed.

Lemma in_submission schema tree n vs :
  (n, vs) ∈ submission schema tree
  <-> exists i f d, schema_fields schema !! i = Some f /\ tree !! i = Some d /\ (n, vs) ∈ submitted_field f d.
Proof.
  unfold submission. rewrite list_elem_of_In, in_concat. setoid_rewrite <- list_elem_of_In. split.
  - intros (l & (i & Hi)%list_elem_of_lookup & Hin). apply lookup_zip_with_Some in Hi as (f & d & -> & Hf & Hd). eauto 8.
  - intros (i & f & d & Hf & Hd & Hin). eexists. split; [| exact Hin]. apply list_elem_of_lookup. exists i.
    apply lookup_zip_with_Some. eauto.
Qed.

Lemma in_grid f r ds n vs :
  rows f = Some r ->
  (n, vs) ∈ submitted_field f (Grid ds)
  <-> (n = order r /\ vs = ds.*1)
      \/ exists d j g e, d ∈ ds /\ row_fields r !! j = Some g /\ d.2 !! j = Some e
           /\ n = entryName (name f) d.1 (name g) /\ vs = texts_of e.
Proof.
  intros Hr. cbn [submitted_field]. rewrite Hr, elem_of_cons. f_equiv; [split; [by intros [= -> ->] | by intros [-> ->]] |].
  rewrite list_elem_of_In, in_concat. setoid_rewrite <- list_elem_of_In. split.
  - intros (l & (d & -> & Hd)%list_elem_of_fmap & (j & Hj)%list_elem_of_lookup).
    apply lookup_zip_with_Some in Hj as (g & e & [= -> ->] & Hg & He). eauto 10.
  - intros (d & j & g & e & Hd & Hg & He & -> & ->). eexists. split; [apply list_elem_of_fmap; by exists d |].
    apply list_elem_of_lookup. exists j. apply lookup_zip_with_Some. eauto.
Qed.

(** ** Bounds of the classification *)

Lemma classified_bounds schema ps :
  (forall n, (length (default [] (top (classified schema ps) !! n)) <= length ps)%nat)
  /\ (forall n, (length (default [] (orders (classified schema ps) !! n)) <= length ps)%nat)
  /\ (length (entries (classified schema ps)) <= length ps)%nat.
Proof.
  assert (forall m k v n j, (forall n, (length (default [] (m !! n)) <= j)%nat) ->
    (length (default [] (push_value m k v !! n)) <= j + 1)%nat) as Hp.
  { intros m k v n j Hm. destruct (decide (k = n)) as [<- | Hne].
    - rewrite push_value_eq, length_app. specialize (Hm k). cbn. lia.
    - rewrite push_value_ne by done. specialize (Hm n). lia. }
  induction ps as [|p ps (H1 & H2 & H3)] using rev_ind; [by split_and!|].
  rewrite classified_snoc, length_app. cbn [length]. unfold classify_step.
  destruct (class_of schema p.1); cbn [keep_top keep_order keep_entry report_unknown top orders entries];
    rewrite ?length_app; cbn [length]; (split_and!; [intros n | intros n |]); try lia;
    first [by apply Hp | specialize (H1 n); lia | specialize (H2 n); lia].
Qed.

Lemma entry_values_length coll key field es : (length (entry_values coll key field es) <= length es)%nat.
Proof. unfold entry_values. rewrite length_fmap. apply length_filter. Qed.

Lemma classified_short schema ps f : Z.of_nat (length ps) <= MAX_SAFE -> short_field (classified schema ps) f.
Proof.
  intros Hl. destruct (classified_bounds schema ps) as (H1 & H2 & H3). unfold short_field, short_list. split_and!.
  - specialize (H1 (name f)). unfold top_vals. lia.
  - specialize (H2 (name f)). unfold coll_keys. lia.
  - intros key n. unfold vals_of, coll_rows. rewrite grouped_values.
    pose proof (entry_values_length (name f) key n (entries (classified schema ps))). lia.
Qed.

(** ** The classified values of a collection *)

Lemma concat_nil_iff {A B} (f : A -> list B) l : concat (f <$> l) = [] <-> Forall (fun a => f a = []) l.
Proof.
  induction l as [|a l IH]; [done |]. cbn [fmap list_fmap concat]. rewrite Forall_cons, <- IH. split.
  - by intros [? ?]%app_nil.
  - by intros [-> ->].
Qed.

Lemma size_issues_nil n values : size_issues n values = [] <-> Forall (fun text => utf8Length text <= maxFormRowBytes) values.
Proof.
  unfold size_issues. rewrite concat_nil_iff. split; intros H; (eapply Forall_impl; [exact H |]); intros text; cbn;
    destruct (Z.ltb_spec maxFormRowBytes (utf8Length text)); [done | done | lia | done].
Qed.

Section values.
Context (schema : FormSchema) (Hok : schema_ok schema) (ps : list (jstr * jstr)).
Context (f : FormField) (r : FormRowsSchema) (Hf : f ∈ collections schema) (Hr : rows f = Some r).

Abbreviation c := (classified schema ps).

Lemma coll_rows_ok : rows_ok r.
Proof using Hok Hf Hr. destruct (in_collections schema Hok f Hf) as (_ & _ & r' & Hr' & H). congruence. Qed.

Lemma keys_sent : coll_keys c f = sent (order r) ps.
Proof using Hok Hf Hr. by apply orders_sent. Qed.

Lemma vals_sent key g :
  g ∈ row_fields r -> rowKeyPattern key = true ->
  vals_of (coll_rows c f) key (name g) = sent (entryName (name f) key (name g)) ps.
Proof using Hok Hf Hr. intros Hg Hk. unfold vals_of, coll_rows. rewrite grouped_values. by eapply entries_sent. Qed.

Lemma found_entry key :
  (exists e, e ∈ entries c /\ e_coll e = name f /\ e_key e = key)
  <-> rowKeyPattern key = true /\ exists g, g ∈ row_fields r /\ sent (entryName (name f) key (name g)) ps <> [].
Proof using Hok Hf Hr.
  split.
  - intros (e & He & Hc & <-). destruct (entries_sound schema Hok ps e He) as (f' & r' & g & Hf' & Hn & Hr' & Hg & Hgn & Hk & Hin).
    assert (f' = f) as -> by (apply (fields_of_name schema Hok); [by apply (in_collections schema Hok) .. | congruence]).
    rewrite Hr in Hr'. injection Hr' as <-. split; [done |]. exists g. split; [done |]. rewrite Hc, <- Hgn in Hin.
    apply sent_in in Hin. intros H. rewrite H in Hin. by apply elem_of_nil in Hin.
  - intros (Hk & g & Hg & Hs). rewrite <- (entries_sent schema Hok ps f r g key) in Hs by done. unfold entry_values in Hs.
    destruct (filter _ (entries c)) as [|e l] eqn:E; [done |].
    assert (e ∈ e :: l) as He by (by left). rewrite <- E in He. apply list_elem_of_filter in He as ((? & ? & ?) & He). eauto.
Qed.

Lemma row_found key :
  is_Some (find_row (coll_rows c f) key)
  <-> rowKeyPattern key = true /\ exists g, g ∈ row_fields r /\ sent (entryName (name f) key (name g)) ps <> [].
Proof using Hok Hf Hr. rewrite <- found_entry. apply grouped_rows. Qed.

Lemma row_listed key :
  key ∈ (coll_rows c f).*1
  <-> rowKeyPattern key = true /\ exists g, g ∈ row_fields r /\ sent (entryName (name f) key (name g)) ps <> [].
Proof using Hok Hf Hr. rewrite <- found_entry. apply grouped_rows. Qed.

(** A row without issues holds one entry per field. *)
Lemma item_reads key :
  rowKeyPattern key = true -> is_Some (find_row (coll_rows c f) key) -> item_issues (name f) r (coll_rows c f) key = [] ->
  exists es, Forall2 (fun g e => read_entry g (vals_of (coll_rows c f) key (name g)) = Some e) (row_fields r) es
    /\ row_ok r (key, es).
Proof using Hok Hf Hr.
  intros Hk Hfound Hi. unfold item_issues in Hi. rewrite bool_decide_false in Hi by (by destruct Hfound as [? ->]).
  apply concat_nil_iff in Hi. pose proof coll_rows_ok as (_ & _ & _ & _ & _ & _ & Hfs).
  apply row_found in Hfound as (_ & g0 & Hg0 & Hs0). rewrite <- vals_sent in Hs0 by done.
  revert Hs0. set (vals := vals_of (coll_rows c f) key) in *. intros Hs0.
  assert (exists es, Forall2 (fun g e => read_entry g (vals (name g)) = Some e) (row_fields r) es
    /\ Forall (fun text => utf8Length text <= maxFormRowBytes) (concat (texts_of <$> es))) as (es & Hes & Hsize).
  { clear g0 Hg0 Hs0. induction Hi as [|g l Hg Hl IH]; [by exists [] |]. apply Forall_cons in Hfs as [[Hflat _] Hfs].
    destruct (IH Hfs) as (es & Hes & Hsize). apply app_nil in Hg as [Hg1 Hg2].
    apply flat_issues_nil in Hg2 as [e He]. apply size_issues_nil in Hg1. exists (e :: es). split; [by constructor |].
    cbn [fmap list_fmap concat]. apply Forall_app. split; [| done]. by rewrite (read_entry_texts _ _ _ He). }
  exists es. split; [done |]. split_and!; [done | | | done].
  - clear Hs0 Hg0 Hi Hsize. induction Hes as [|g e l es He Hes IH]; [constructor |]. apply Forall_cons in Hfs as [[Hflat _] Hfs].
    constructor; [by apply (read_entry_fits _ _ _ Hflat) in He as [? _] | by apply IH].
  - intros Hnil. apply concat_nil_iff in Hnil. clear -Hes Hnil Hg0 Hs0. induction Hes as [|g e l es He Hes IH];
      [by apply elem_of_nil in Hg0 |]. apply Forall_cons in Hnil as [Hn Hnil].
    apply elem_of_cons in Hg0 as [-> | Hg0]; [| by apply IH]. by rewrite (read_entry_texts _ _ _ He) in Hn.
Qed.

(** The rows of the ordered keys, when none of them has an issue. *)
Lemma rows_read keys :
  Forall (fun k => rowKeyPattern k = true) keys -> Forall (fun k => empty_issues (name f) (coll_rows c f) k = []) keys ->
  Forall (fun k => item_issues (name f) r (coll_rows c f) k = []) keys ->
  exists ds, reads_rows r (coll_rows c f) keys ds /\ Forall (row_ok r) ds.
Proof using Hok Hf Hr.
  intros Hk He Hi. induction Hk as [|key keys Hk Hks IH]; [by exists []; repeat split; constructor |].
  apply Forall_cons in He as [He Hes], Hi as [Hi His]. destruct (IH Hes His) as (ds & [Hds1 Hds2] & Hrows).
  assert (is_Some (find_row (coll_rows c f) key)) as Hfound.
  { unfold empty_issues in He. destruct (find_row (coll_rows c f) key); [eauto |]. by rewrite bool_decide_true in He. }
  destruct (item_reads key Hk Hfound Hi) as (es & Hread & Hrow).
  exists ((key, es) :: ds). split; [| by constructor]. split; [by cbn; f_equal | by constructor].
Qed.
End values.

Lemma short_of_distinct (l l' : list jstr) : NoDup l -> (forall x, x ∈ l -> x ∈ l') -> (length l <= length l')%nat.
Proof. intros Hn Hs. by apply submseteq_length, NoDup_submseteq. Qed.

Lemma zip_lookup {A B} (P : A -> B -> Prop) l k j a b : Forall2 P l k -> l !! j = Some a -> k !! j = Some b -> P a b.
Proof. intros H Ha Hb. by eapply Forall2_lookup_lr. Qed.

Section soundness.
Context (schema : FormSchema) (Hok : schema_ok schema) (ps : list (jstr * jstr)) (rowsLimit : Z).
Context (f : FormField) (Hin : f ∈ schema_fields schema).

Abbreviation c := (classified schema ps).

Lemma field_is_ok : field_ok f.
Proof using Hok Hin. destruct Hok as (H & _). rewrite Forall_forall in H. by apply H. Qed.

Lemma flat_is_scalar : is_kind f "rows" = false -> name f ∈ scalars schema.
Proof using Hin. intros H. apply list_elem_of_fmap. exists f. split; [done |]. by apply list_elem_of_filter. Qed.

Lemma flat_sent : is_kind f "rows" = false -> top_vals c f = sent (name f) ps.
Proof using Hok Hin. intros H. by apply top_sent, flat_is_scalar. Qed.

Lemma flat_field_kind : is_kind f "rows" = false -> flat_field f.
Proof using Hok Hin. intros H. destruct field_is_ok as [_ [? | [? _]]]; [done | congruence]. Qed.

(** A field without issues spells its data, and sends it. *)
Lemma field_reads :
  field_issues c rowsLimit f = [] ->
  exists d, data_ok rowsLimit f d /\ read_field c f d
    /\ (forall n vs, (n, vs) ∈ submitted_field f d -> sent n ps = vs)
    /\ (forall r key g, rows f = Some r -> is_kind f "rows" = true -> g ∈ row_fields r -> rowKeyPattern key = true ->
          sent (entryName (name f) key (name g)) ps <> [] -> entryName (name f) key (name g) ∈ (submitted_field f d).*1).
Proof using Hok Hin.
  intros Hi. unfold field_issues in Hi. destruct (is_kind f "rows") eqn:Hk.
  - assert (f ∈ collections schema) as Hf by (by apply list_elem_of_filter).
    destruct (in_collections schema Hok f Hf) as (_ & _ & r & Hr & Hrok). rewrite Hr in Hi.
    unfold rows_issues in Hi. repeat (apply app_nil in Hi as [? Hi]).
    match goal with H : (order_scan _ _ _).1 = [] |- _ => apply order_scan_nil in H as [Hv Hnd]; [| apply NoDup_nil_2] end.
    cbn [app] in Hnd. unfold ordered_keys in *. rewrite (order_scan_ok r (coll_keys c f) []) in * by done. cbn [snd app] in *.
    repeat match goal with H : concat (_ <$> _) = [] |- _ => apply concat_nil_iff in H end.
    destruct (rows_read schema Hok ps f r Hf Hr (coll_keys c f)) as (ds & Hds & Hrows); [done.. |].
    assert (over_limit (coll_distinct c f) rowsLimit = false) as Hlim.
    { match goal with H : limit_issues _ _ _ = [] |- _ => unfold limit_issues in H; by destruct (over_limit _ _) end. }
    assert (Forall (fun k => k ∈ coll_keys c f) (coll_rows c f).*1) as Hall.
    { eapply Forall_impl; [eassumption |]. intros k Hk'. cbn beta in Hk'. unfold unordered_issues, ordered_keys in Hk'. rewrite Hlim in Hk'.
      rewrite (order_scan_ok r (coll_keys c f) []) in Hk' by done. cbn in Hk'.
      destruct (bool_decide_reflect (k ∈ coll_keys c f)); [done |]. done. }
    destruct (keys_tracked schema Hok ps f r Hf Hr) as [Hdn Hdk].
    exists (Grid ds). split_and!.
    + split; [done |]. exists r. destruct Hds as [Hk1 Hk2]. rewrite Hk1. split_and!; [done.. |].
      unfold over_limit in Hlim. apply Z.ltb_ge in Hlim. etrans; [| exact Hlim].
      assert (length ds = length (coll_keys c f)) as -> by (rewrite <- Hk1; symmetry; apply length_fmap). apply inj_le, short_of_distinct; [done |]. intros k Hkin. apply Hdk. left.
      rewrite (keys_sent schema Hok ps f r) in Hkin by done. split; [| done].
      rewrite Forall_forall in Hv. apply Hv. by rewrite (keys_sent schema Hok ps f r).
    + split; [done |]. exists r. split; [done |]. unfold ordered_keys. by rewrite order_scan_ok.
    + intros n vs Hn. apply (in_grid f r) in Hn as [[-> ->] | (d & j & g & e & Hd & Hg & He & -> & ->)]; [| | done].
      * destruct Hds as [-> _]. symmetry. by apply keys_sent.
      * destruct Hds as [_ Hds]. rewrite Forall_forall in Hds, Hrows. destruct (Hds d Hd) as [_ Hread].
        destruct (Hrows d Hd) as (Hkey & _). pose proof (zip_lookup _ _ _ _ _ _ Hread Hg He) as Hre. cbn beta in Hre.
        rewrite (vals_sent schema Hok ps f r) in Hre by (done || by eapply list_elem_of_lookup_2).
        symmetry. by eapply read_entry_texts.
    + intros r' key g Hr' _ Hg Hkey Hs. rewrite Hr in Hr'. injection Hr' as <-.
      rewrite Forall_forall in Hall. pose proof (Hall key (proj2 (row_listed schema Hok ps f r Hf Hr key) (conj Hkey (ex_intro _ g (conj Hg Hs))))) as Hkin.
      destruct Hds as [Hk1 Hds]. rewrite <- Hk1 in Hkin. apply list_elem_of_fmap in Hkin as (d & -> & Hd).
      apply list_elem_of_lookup in Hg as [j Hg]. rewrite Forall_forall in Hds. destruct (Hds d Hd) as [_ Hread].
      destruct (Forall2_lookup_l _ _ _ _ _ Hread Hg) as (e & He & _). apply list_elem_of_fmap.
      exists (entryName (name f) d.1 (name g), texts_of e). split; [done |]. apply (in_grid f r); [done |]. right. eauto 10.
  - apply flat_issues_nil in Hi as [e He]. exists (Flat e). split_and!.
    + split; [done |]. by apply (read_entry_fits _ _ _ (flat_field_kind Hk)) in He as [? _].
    + by split.
    + cbn. intros n vs [= -> ->]%list_elem_of_singleton. rewrite <- flat_sent by done. symmetry. by eapply read_entry_texts.
    + done.
Qed.

(** The data of a valid field, when it is what is sent, is read without issues. *)
Lemma rows_complete r ds :
  is_kind f "rows" = true -> rows f = Some r -> Forall (row_ok r) ds -> NoDup ds.*1 -> Z.of_nat (length ds) <= rowsLimit ->
  (forall n vs, (n, vs) ∈ submitted_field f (Grid ds) -> sent n ps = vs) ->
  (forall key g, g ∈ row_fields r -> rowKeyPattern key = true -> sent (entryName (name f) key (name g)) ps <> [] -> key ∈ ds.*1) ->
  rows_issues (name f) r (coll_keys c f) (coll_rows c f) (coll_distinct c f) rowsLimit = []
  /\ reads_rows r (coll_rows c f) (ordered_keys r (coll_keys c f)) ds
  /\ rows_nodes r (coll_keys c f) (coll_rows c f) = data_nodes (Grid ds).
Proof using Hok Hin.
  intros Hk Hr Hrows Hnd Hlen Hsent Honly.
  assert (f ∈ collections schema) as Hf by (by apply list_elem_of_filter).
  destruct (in_collections schema Hok f Hf) as (_ & _ & r' & Hr' & Hrok). rewrite Hr in Hr'. injection Hr' as <-.
  assert (coll_keys c f = ds.*1) as Hkeys.
  { rewrite (keys_sent schema Hok ps f r) by done. apply Hsent, (in_grid f r); [done |]. by left. }
  assert (Forall (fun k => rowKeyPattern k = true) ds.*1) as Hv.
  { apply Forall_fmap. eapply Forall_impl; [exact Hrows |]. by intros d (? & _). }
  assert (ordered_keys r (coll_keys c f) = ds.*1) as Hord by (unfold ordered_keys; rewrite Hkeys; by rewrite order_scan_ok).
  assert (forall d, d ∈ ds -> forall j g e, row_fields r !! j = Some g -> d.2 !! j = Some e ->
    vals_of (coll_rows c f) d.1 (name g) = texts_of e) as Hvals.
  { intros d Hd j g e Hg He. rewrite Forall_forall in Hrows. destruct (Hrows d Hd) as (Hkey & _).
    rewrite (vals_sent schema Hok ps f r) by (done || by eapply list_elem_of_lookup_2).
    apply Hsent, (in_grid f r); [done |]. right. eauto 10. }
  assert (forall d, d ∈ ds -> is_Some (find_row (coll_rows c f) d.1)) as Hfound.
  { intros d Hd. rewrite Forall_forall in Hrows. destruct (Hrows d Hd) as (Hkey & Hfit & Hne & _).
    apply (row_found schema Hok ps f r); [done.. |]. split; [done |].
    destruct (concat (texts_of <$> d.2)) as [|t ts] eqn:Ht; [done |].
    assert (t ∈ concat (texts_of <$> d.2)) as (l & Hl & Htl)%list_elem_of_In%in_concat by (rewrite Ht; by left).
    apply list_elem_of_In, list_elem_of_fmap in Hl as (e & -> & (j & He)%list_elem_of_lookup). apply list_elem_of_In in Htl.
    destruct (Forall2_lookup_r _ _ _ _ _ Hfit He) as (g & Hg & _). exists g. split; [by eapply list_elem_of_lookup_2 |].
    rewrite (Hsent _ (texts_of e)) by (apply (in_grid f r); [done |]; right; eauto 10). intros Hnil. rewrite Hnil in Htl.
    by apply elem_of_nil in Htl. }
  assert (forall d, d ∈ ds -> Forall2 (fun g e => read_entry g (vals_of (coll_rows c f) d.1 (name g)) = Some e) (row_fields r) d.2) as Hread.
  { intros d Hd. rewrite Forall_forall in Hrows. destruct (Hrows d Hd) as (_ & Hfit & _).
    apply Forall2_same_length_lookup. split; [by eapply Forall2_length |]. intros j g e Hg He.
    rewrite (Hvals d Hd j g e Hg He). destruct Hrok as (_ & _ & _ & _ & _ & _ & Hfs). rewrite Forall_forall in Hfs.
    apply read_entry_fits; [by apply Hfs; eapply list_elem_of_lookup_2 |]. split; [by eapply (zip_lookup fits) | done]. }
  assert (forall key, key ∈ (coll_rows c f).*1 -> key ∈ ds.*1) as Hlisted.
  { intros key Hkey. apply (row_listed schema Hok ps f r) in Hkey as (Hkp & g & Hg & Hs); [by eapply Honly | done..]. }
  assert (over_limit (coll_distinct c f) rowsLimit = false) as Hlim.
  { unfold over_limit. apply Z.ltb_ge. etrans; [| exact Hlen]. assert (length ds = length ds.*1) as -> by (symmetry; apply length_fmap).
    destruct (keys_tracked schema Hok ps f r Hf Hr) as [Hdn Hdk]. apply inj_le, short_of_distinct; [done |].
    intros k [[_ Hko] | Hent]%Hdk.
    - rewrite <- Hkeys. by rewrite (keys_sent schema Hok ps f r).
    - apply (found_entry schema Hok ps f r Hf Hr) in Hent as (Hkp & g & Hg & Hs). by eapply Honly. }
  split_and!.
  - unfold rows_issues, limit_issues. rewrite Hlim, Hord. rewrite Hkeys at 1. rewrite order_scan_ok by done. cbn [fst app].
    rewrite !app_nil, !concat_nil_iff. split_and!.
    + apply Forall_fmap, Forall_forall. intros d Hd. unfold empty_issues. cbn. destruct (Hfound d Hd) as [m ->]. done.
    + apply Forall_forall. intros k Hk'. unfold unordered_issues. rewrite Hord, bool_decide_true; [done | by apply Hlisted].
    + apply Forall_fmap, Forall_forall. intros d Hd. unfold item_issues. cbn. rewrite bool_decide_false by (by destruct (Hfound d Hd) as [m ->]).
      apply concat_nil_iff, Forall_forall. intros g Hg. apply list_elem_of_lookup in Hg as [j Hg]. unfold row_issues.
      destruct (Forall2_lookup_l _ _ _ _ _ (Hread d Hd) Hg) as (e & He & Hre). rewrite (Hvals d Hd j g e Hg He) in *.
      apply app_nil. split; [| apply flat_issues_nil; eauto]. apply size_issues_nil.
      rewrite Forall_forall in Hrows. destruct (Hrows d Hd) as (_ & _ & _ & Hsz). rewrite Forall_concat, Forall_fmap, Forall_forall in Hsz.
      apply (Hsz e). by eapply list_elem_of_lookup_2.
  - rewrite Hord. split; [done |]. apply Forall_forall. intros d Hd. split; [by apply Hfound | by apply Hread].
  - unfold rows_nodes. rewrite Hord, Hkeys, length_fmap. cbn [data_nodes]. f_equal.
    assert (forall l, (forall d, d ∈ l -> d ∈ ds) -> total (item_nodes r (coll_rows c f)) l.*1 = total (fun d => 1 + total row_entry_nodes d.2) l) as Htot.
    { induction l as [|d l IH]; [done |]. intros Hl.
      change (item_nodes r (coll_rows c f) d.1 + total (item_nodes r (coll_rows c f)) l.*1
        = (1 + total row_entry_nodes d.2) + total (fun d => 1 + total row_entry_nodes d.2) l).
      rewrite IH by (intros; apply Hl; by right). f_equal. unfold item_nodes.
      rewrite bool_decide_false by (by destruct (Hfound d (Hl d ltac:(by left))) as [m ->]). f_equal.
      pose proof (Hread d (Hl d ltac:(by left))) as Hrd. pose proof Hrok as (_ & _ & _ & _ & _ & _ & Hfs). clear -Hrd Hfs.
      induction Hrd as [|g e gs es Hre _ IH]; [done |]. apply Forall_cons in Hfs as [[Hg _] Hfs].
      change (row_nodes g (vals_of (coll_rows c f) d.1 (name g)) + total (fun g => row_nodes g (vals_of (coll_rows c f) d.1 (name g))) gs
        = row_entry_nodes e + total row_entry_nodes es). rewrite IH by done. f_equal. by apply row_nodes_entry. }
    by apply Htot.
Qed.
End soundness.

(** ** The form as a whole *)

Lemma Forall_choice {A B} (P : A -> B -> Prop) l : Forall (fun a => exists b, P a b) l -> exists k, Forall2 P l k.
Proof. induction 1 as [|a l [b Hb] _ [k Hk]]; [by exists [] | by exists (b :: k); constructor]. Qed.

Section whole.
Context (schema : FormSchema) (Hok : schema_ok schema) (ps : list (jstr * jstr)) (rowsLimit : Z).

Abbreviation c := (classified schema ps).

Lemma form_reads :
  form_issues schema c rowsLimit = [] ->
  exists tree, form_ok schema rowsLimit tree /\ Forall2 (read_field c) (schema_fields schema) tree
    /\ submits ps (submission schema tree).
Proof using Hok.
  intros [Hu Hf]%app_nil. apply concat_nil_iff in Hf.
  assert (exists tree, Forall2 (fun f d => f ∈ schema_fields schema /\ data_ok rowsLimit f d /\ read_field c f d
    /\ (forall n vs, (n, vs) ∈ submitted_field f d -> sent n ps = vs)
    /\ (forall r key g, rows f = Some r -> is_kind f "rows" = true -> g ∈ row_fields r -> rowKeyPattern key = true ->
          sent (entryName (name f) key (name g)) ps <> [] -> entryName (name f) key (name g) ∈ (submitted_field f d).*1))
    (schema_fields schema) tree) as [tree Ht].
  { apply Forall_choice. rewrite Forall_forall in Hf |- *. intros f Hin. destruct (field_reads schema Hok ps rowsLimit f Hin (Hf f Hin)) as [d Hd].
    by exists d. }
  assert (forall f, f ∈ schema_fields schema -> exists i d, schema_fields schema !! i = Some f /\ tree !! i = Some d /\ data_ok rowsLimit f d
    /\ (forall n, n ∈ (submitted_field f d).*1 -> n ∈ (submission schema tree).*1)
    /\ (forall r key g, rows f = Some r -> is_kind f "rows" = true -> g ∈ row_fields r -> rowKeyPattern key = true ->
          sent (entryName (name f) key (name g)) ps <> [] -> entryName (name f) key (name g) ∈ (submitted_field f d).*1)) as Hat.
  { intros f [i Hi]%list_elem_of_lookup. destruct (Forall2_lookup_l _ _ _ _ _ Ht Hi) as (d & Hd & _ & Hdo & _ & _ & Hent).
    exists i, d. split_and!; try done. intros n ([n' vs] & -> & Hn)%list_elem_of_fmap. apply list_elem_of_fmap.
    exists (n', vs). split; [done |]. apply in_submission. eauto 8. }
  exists tree. split_and!; [by eapply Forall2_impl; [exact Ht |]; intros ? ? (_ & ? & _) | by eapply Forall2_impl; [exact Ht |]; intros ? ? (_ & _ & ? & _) |].
  split.
  - intros n vs (i & f & d & Hi & Hd & Hn)%in_submission. pose proof (zip_lookup _ _ _ _ _ _ Ht Hi Hd) as (_ & _ & _ & Hs & _). by apply Hs.
  - intros n Hn. apply sent_none. intros Hin. pose proof (class_sound schema Hok n) as Hc.
    destruct (class_of schema n) as [|coll|coll key field|] eqn:Hcl.
    + apply list_elem_of_fmap in Hc as (f & -> & [Hk Hf']%list_elem_of_filter).
      destruct (Hat f Hf') as (i & d & _ & _ & Hd & Hsub & _). apply Hn, Hsub. destruct d as [e|ds]; [by left | destruct Hd; congruence].
    + destruct Hc as (f & r & Hf' & <- & Hr & ->). pose proof Hf' as [Hk Hfin]%list_elem_of_filter.
      destruct (Hat f Hfin) as (i & d & _ & _ & Hd & Hsub & _). apply Hn, Hsub. destruct d as [e|ds]; [destruct Hd; congruence |].
      cbn [submitted_field]. rewrite Hr. by left.
    + destruct Hc as (f & r & g & Hf' & <- & Hr & Hg & <- & Hk & ->). pose proof Hf' as [Hkd Hfin]%list_elem_of_filter.
      destruct (Hat f Hfin) as (i & d & _ & _ & Hd & Hsub & Hent). apply Hn, Hsub, (Hent r); try done. by intros Hs%sent_none.
    + assert (n ∈ unknown c) as Hnu by (by apply unknown_names). apply list_elem_of_In in Hnu.
      destruct (unknown c); [done |]. done.
Qed.

Context (tree : list field_data) (Htree : form_ok schema rowsLimit tree) (Hsub : submits ps (submission schema tree)).

Lemma fields_index i j f : schema_fields schema !! i = Some f -> schema_fields schema !! j = Some f -> i = j.
Proof using Hok.
  destruct Hok as (_ & Hnd & _). intros Hi Hj. eapply (NoDup_lookup (name <$> schema_fields schema) i j (name f)); [done | |];
    by rewrite list_lookup_fmap, ?Hi, ?Hj.
Qed.

Lemma field_at i f : schema_fields schema !! i = Some f -> f ∈ schema_fields schema.
Proof. apply list_elem_of_lookup_2. Qed.

Lemma field_name_plain f : f ∈ schema_fields schema -> 91%N ∉ name f.
Proof using Hok. intros Hf. destruct Hok as (H & _). rewrite Forall_forall in H. by destruct (H f Hf) as [(_ & ? & _) _]. Qed.

(** An entry name that is submitted belongs to a row of its collection. *)
Lemma submitted_key i f r ds key g :
  schema_fields schema !! i = Some f -> tree !! i = Some (Grid ds) -> is_kind f "rows" = true -> rows f = Some r ->
  rowKeyPattern key = true -> sent (entryName (name f) key (name g)) ps <> [] -> key ∈ ds.*1.
Proof using Hok Htree Hsub.
  intros Hi Hd Hk Hr Hkey Hs. destruct Hsub as [_ Hnone].
  assert (91%N ∈ entryName (name f) key (name g)) as Hbr by (rewrite entryName_parts, !elem_of_app; left; right; by left).
  destruct (decide (entryName (name f) key (name g) ∈ (submission schema tree).*1)) as [Hin | Hin]; [| by destruct Hs; apply Hnone].
  apply list_elem_of_fmap in Hin as ([n vs] & Hn & (i' & f' & d' & Hi' & Hd' & Hin)%in_submission). cbn in Hn. subst n.
  pose proof (field_at _ _ Hi') as Hf'. pose proof (zip_lookup _ _ _ _ _ _ Htree Hi' Hd') as Hdo.
  destruct d' as [e | ds']; [cbn in Hin; apply list_elem_of_singleton in Hin as [= Hn _]; rewrite Hn in Hbr; by apply field_name_plain in Hf' |].
  destruct Hdo as [Hk' (r' & Hr' & Hrows & _)].
  assert (f' ∈ collections schema) as Hfc by (by apply list_elem_of_filter).
  destruct (in_collections schema Hok f' Hfc) as (_ & _ & r2 & Hr2 & Hrok). rewrite Hr' in Hr2. injection Hr2 as <-.
  apply (in_grid f' r') in Hin as [[Hn _] | (d & j & g' & e & Hdin & Hg' & He & Hn & _)]; [| | done].
  - rewrite Hn in Hbr. by destruct Hrok as (_ & _ & _ & _ & ? & _).
  - rewrite Forall_forall in Hrows. destruct (Hrows d Hdin) as (Hdk & _).
    destruct (row_key_plain key Hkey) as (_ & _ & Hk1), (row_key_plain d.1 Hdk) as (_ & _ & Hk2).
    apply entryName_inj in Hn as (Hn & -> & _); [| by eapply field_name_plain, field_at | by apply field_name_plain | done..].
    assert (f' = f) as -> by (apply (fields_of_name schema Hok); [done | by eapply field_at | done]).
    rewrite (fields_index i' i f) in Hd' by done. rewrite Hd in Hd'. injection Hd' as ->. apply list_elem_of_fmap. by exists d.
Qed.

Lemma form_complete :
  form_issues schema c rowsLimit = [] /\ Forall2 (read_field c) (schema_fields schema) tree
  /\ form_nodes schema c = total data_nodes tree.
Proof using Hok Htree Hsub.
  assert (Forall2 (fun f d => field_issues c rowsLimit f = [] /\ read_field c f d /\ field_nodes c f = data_nodes d) (schema_fields schema) tree) as Hall.
  { apply Forall2_same_length_lookup. split; [by eapply Forall2_length |]. intros i f d Hi Hd.
    pose proof (field_at _ _ Hi) as Hf. pose proof (zip_lookup _ _ _ _ _ _ Htree Hi Hd) as Hdo.
    assert (forall n vs, (n, vs) ∈ submitted_field f d -> sent n ps = vs) as Hs.
    { intros n vs Hn. apply (proj1 Hsub), in_submission. eauto 8. }
    unfold field_issues, field_nodes. destruct d as [e | ds].
    - destruct Hdo as [Hk Hfit]. rewrite Hk. pose proof (flat_field_kind schema Hok f Hf Hk) as Hflat.
      assert (read_entry f (top_vals c f) = Some e) as He.
      { apply read_entry_fits; [done |]. split; [done |]. rewrite (flat_sent schema Hok ps f Hf Hk). symmetry. apply Hs. by left. }
      split_and!; [apply flat_issues_nil; eauto | by split |].
      rewrite (flat_nodes_entry f (top_vals c f) e 1) by done. rewrite <- (read_entry_texts _ _ _ He).
      destruct e as [s | l | [s|]]; cbn in Hfit |- *; (destruct (is_kind f "array") eqn:Ha; [| done]).
      all: first [by pose proof (is_kind_one _ _ _ Ha Hfit) | done].
    - destruct Hdo as [Hk (r & Hr & Hrows & Hnd & Hlen)]. rewrite Hk, Hr.
      destruct (rows_complete schema Hok ps rowsLimit f Hf r ds Hk Hr Hrows Hnd Hlen Hs) as (H1 & H2 & H3).
      + intros key g Hg Hkey Hne. by eapply submitted_key.
      + split_and!; [done | split; [done |]; by exists r | done]. }
  split_and!.
  - apply app_nil. split.
    + apply concat_nil_iff. destruct (unknown c) as [|n l] eqn:Hu; [done |]. exfalso.
      assert (n ∈ unknown c) as [Hn Hc]%unknown_names by (rewrite Hu; by left).
      destruct (decide (n ∈ (submission schema tree).*1)) as [Hin | Hin]; [| by apply (proj2 Hsub), sent_none in Hin].
      apply list_elem_of_fmap in Hin as ([n' vs] & -> & (i & f & d & Hi & Hd & Hin)%in_submission). cbn [fst] in *.
      pose proof (field_at _ _ Hi) as Hf. pose proof (zip_lookup _ _ _ _ _ _ Htree Hi Hd) as Hdo.
      destruct d as [e | ds].
      * destruct Hdo as [Hk _]. cbn in Hin. apply list_elem_of_singleton in Hin as [= -> _].
        unfold class_of in Hc. by rewrite bool_decide_true in Hc by (by eapply flat_is_scalar).
      * destruct Hdo as [Hk (r & Hr & Hrows & _)]. assert (f ∈ collections schema) as Hfc by (by apply list_elem_of_filter).
        apply (in_grid f r) in Hin as [[-> _] | (d & j & g & e & Hdin & Hg & He & -> & _)]; [| | done].
        -- by rewrite (class_of_order schema Hok f r) in Hc.
        -- rewrite Forall_forall in Hrows. destruct (Hrows d Hdin) as (Hdk & _).
           by rewrite (class_of_entry schema Hok f r g) in Hc by (done || by eapply list_elem_of_lookup_2).
    + apply concat_nil_iff, Forall_forall. intros f [i Hi]%list_elem_of_lookup.
      by destruct (Forall2_lookup_l _ _ _ _ _ Hall Hi) as (d & _ & H & _).
  - eapply Forall2_impl; [exact Hall |]. by intros f d (_ & ? & _).
  - unfold form_nodes. clear -Hall. induction Hall as [|f d fs ds (_ & _ & Hn) _ IH]; [done |].
    change (field_nodes c f + total (field_nodes c) fs = data_nodes d + total data_nodes ds). by rewrite Hn, IH.
Qed.
End whole.

(** ** Decoding *)

Lemma URLSearchParams_length rep text : (length (URLSearchParams rep text) <= S (length (utf8_encode text)))%nat.
Proof.
  unfold URLSearchParams. rewrite length_fmap. etrans; [apply length_filter |].
  destruct text as [|u rest]; [apply split_char_length |]. destruct (decide (u = 63%N)) as [->|Hu].
  - etrans; [apply split_char_length |]. change (utf8_encode (63%N :: rest)) with (63%N :: utf8_encode rest). cbn. lia.
  - pose proof (drop_question_other u rest Hu) as Hd. unfold drop_question in Hd. rewrite Hd. apply split_char_length.
Qed.

Lemma formParams_ok rep input limit params b :
  formParams rep input limit = Formed (Coded (params, b)) ->
  nodes b = 1 /\ Z.of_nat (length params) <= MAX_SAFE
  /\ exists text, utf8_decode input = Some text /\ strictParameters rep text = Formed (Coded params).
Proof.
  unfold formParams. destruct (Z.ltb_spec limit (Z.of_nat (length input))) as [|Hl]; [done |].
  destruct (new_Budget (Z.max 1 limit)) as [b0 | |] eqn:Hb; [| done..]. cbn [coded_bind].
  unfold new_Budget in Hb. destruct (_ || _) eqn:Hc in Hb; [done |]. injection Hb as <-.
  apply orb_false_iff in Hc as [_ Hc%Z.ltb_ge]. cbn.
  destruct (utf8_decode input) as [text|] eqn:Ht; [| done].
  destruct (strictParameters rep text) as [p | e] eqn:Hs; [| done]. intros [= H].
  destruct p as [params' | |]; [| done..]. cbn in H. injection H as -> <-. split_and!; [done | | eauto].
  unfold strictParameters in Hs. destruct (bare_percent text); [done |]. injection Hs as Hs.
  apply coded_bind_ok in Hs as ([] & _ & [= <-]). pose proof (URLSearchParams_length rep text) as Hlen.
  rewrite (proj1 (utf8_encode_decode _ _ Ht)) in Hlen. unfold MAX_SAFE. lia.
Qed.

(** What compiled callers pass to the adapter. *)
Definition ids_ok (ids : ActionFormIdentities) : Prop := rejected_id ids <> [] /\ rawEntry_id ids <> [] /\ issue_id ids <> [].
Definition limit_ok (rowsLimit : Z) : Prop := 1 <= rowsLimit <= maxFormRows.

Lemma decodeActionForm_params rep schema h input limit ids rowsLimit params b :
  ids_ok ids -> limit_ok rowsLimit -> formParams rep input limit = Formed (Coded (params, b)) ->
  decodeActionForm rep schema h input limit ids rowsLimit
  = Formed (let* (a, s) := analyze_params schema rowsLimit params b h in
            match analysed a with
            | Some v => Coded (wire v, f_heap s)
            | None => let* (v, s) := rejected_value ids a s in Coded (rejected v, f_heap s)
            end).
Proof.
  intros (H1 & H2 & H3) [H4 H5] Hp. unfold decodeActionForm. rewrite !bool_decide_false by done. cbn [orb].
  rewrite (proj2 (Z.ltb_ge rowsLimit 1)), (proj2 (Z.ltb_ge maxFormRows rowsLimit)) by lia. cbn [orb]. by rewrite Hp.
Qed.

(** The analysis of the parameters: its result, or the node budget. *)
Lemma analyze_params_ok schema rowsLimit params b h :
  schema_ok schema -> heap_ok h -> nodes b = 1 -> Z.of_nat (length params) <= MAX_SAFE ->
  let c := classified schema params in
  (1 + form_nodes schema c <= maxNodes ->
     exists a s, analyze_params schema rowsLimit params b h = Coded (a, s)
       /\ raw_pairs a = known c /\ issues a = form_issues schema c rowsLimit /\ heap_ok (f_heap s) /\ nodes (f_budget s) <= maxNodes
       /\ match analysed a with
          | Some v => issues a = [] /\ forall tree, Forall2 (read_field c) (schema_fields schema) tree -> form_is (f_heap s) schema v tree
          | None => issues a <> []
          end)
  /\ (maxNodes < 1 + form_nodes schema c -> exists p, analyze_params schema rowsLimit params b h = reject p node_limit).
Proof.
  intros Hok Hh Hb Hl c. unfold analyze_params. rewrite classify_steps by done. cbn [coded_bind]. rewrite <- Hb.
  destruct (analyze_settles schema (classified schema params) rowsLimit h b) as [H1 H2]; [done | | done | rewrite Hb; unfold maxNodes; lia |].
  { apply Forall_true. intros f. by apply classified_short. }
  split; [| exact H2]. intros Hc. destruct (H1 Hc) as (a & s & ? & ? & ? & ? & ? & ?). eauto 9.
Qed.

(** The pairs of a body, as the strict decoder reads them: within the limit, UTF-8,
    without a bare percent sign. *)
Definition body_pairs (input : list N) (limit : Z) (params : list (jstr * jstr)) : Prop :=
  Z.of_nat (length input) <= limit <= 67108864
  /\ exists text, utf8_decode input = Some text /\ bare_percent text = false /\ strict_pairs text = Some params.

Lemma formParams_body rep input limit params :
  replaces_invalid rep -> body_pairs input limit params -> exists b, formParams rep input limit = Formed (Coded (params, b)).
Proof.
  intros Hrep ([Hl Hm] & text & Ht & Hb & Hs). unfold formParams. rewrite (proj2 (Z.ltb_ge _ _)) by lia.
  unfold new_Budget. assert (is_safe (Z.max 1 limit) = true) as ->.
  { apply is_safe_spec. unfold MAX_SAFE. lia. }
  rewrite (proj2 (Z.ltb_ge (Z.max 1 limit) 1)), (proj2 (Z.ltb_ge 67108864 (Z.max 1 limit))) by lia. cbn. rewrite Ht.
  rewrite (proj2 (strictParameters_spec rep Hrep text params (decoded_units _ _ Ht) (proj2 (utf8_encode_decode _ _ Ht)))) by done.
  cbn. by eexists.
Qed.

(** The pairs of a plain body: as the strict check reads them.  A body that begins
    with a question mark is not plain, [URLSearchParams] drops its mark. *)
Definition plain_body (input : list N) (limit : Z) (params : list (jstr * jstr)) : Prop :=
  Z.of_nat (length input) <= limit <= 67108864
  /\ exists text, utf8_decode input = Some text /\ bare_percent text = false /\ head text <> Some 63%N
       /\ mapM strict_pair (filter (fun p => p <> []) (split_char 38 text)) = Some params.

Lemma plain_body_pairs input limit params : plain_body input limit params -> body_pairs input limit params.
Proof.
  intros (Hl & text & Ht & Hb & Hq & Hs). split; [done |]. exists text. split_and!; [done | done |]. unfold strict_pairs.
  replace (drop_question text) with text; [done |]. unfold drop_question. destruct text as [|u text]; [done |].
  destruct (decide (u = 63%N)) as [->|Hu]; [done |]. repeat (case_match; try done).
Qed.

(** C20. (A form is its submission.)  With a compiled schema and any UTF-8 body within
    its limits, without a bare percent sign, whose names and values decode, and that
    does not begin with a question mark: when [decodeActionForm] answers a wire
    record, there is a valid form that the record spells and that the pairs of the
    body submit, name by name, in whatever order the names are interleaved; every
    valid form that they submit is answered as its record as long as it counts no
    more nodes than the budget of 1,000,000; and a valid form that counts more is
    refused with the node limit. *)
Theorem submissions_decode_exactly rep schema h input limit ids rowsLimit params :
  replaces_invalid rep -> schema_ok schema -> heap_ok h -> ids_ok ids -> limit_ok rowsLimit -> plain_body input limit params ->
  (forall v h', decodeActionForm rep schema h input limit ids rowsLimit = Formed (Coded (wire v, h')) ->
     exists tree, form_ok schema rowsLimit tree /\ submits params (submission schema tree) /\ form_is h' schema v tree)
  /\ (forall tree, form_ok schema rowsLimit tree -> submits params (submission schema tree) ->
        1 + total data_nodes tree <= maxNodes ->
        exists v h', decodeActionForm rep schema h input limit ids rowsLimit = Formed (Coded (wire v, h')) /\ form_is h' schema v tree)
  /\ (forall tree, form_ok schema rowsLimit tree -> submits params (submission schema tree) ->
        maxNodes < 1 + total data_nodes tree ->
        exists path, decodeActionForm rep schema h input limit ids rowsLimit = Formed (reject path node_limit)).
Proof.
  intros Hrep Hok Hh Hids Hlim Hbody%plain_body_pairs. destruct (formParams_body rep input limit params Hrep Hbody) as [b Hp].
  destruct (formParams_ok _ _ _ _ _ Hp) as (Hb & Hl & _).
  rewrite (decodeActionForm_params _ _ _ _ _ _ _ _ _ Hids Hlim Hp).
  destruct (analyze_params_ok schema rowsLimit params b h Hok Hh Hb Hl) as [H1 H2]. split_and!.
  - intros v h' Hw. destruct (Z.le_gt_cases (1 + form_nodes schema (classified schema params)) maxNodes) as [Hn | Hn].
    + destruct (H1 Hn) as (a & s & Ha & _ & Hi & _ & _ & Hv). rewrite Ha in Hw. cbn [coded_bind] in Hw.
      destruct (analysed a) as [v'|].
      * injection Hw as -> <-. destruct Hv as [Hnil Hv]. rewrite Hnil in Hi. symmetry in Hi.
        destruct (form_reads schema Hok params rowsLimit Hi) as (tree & Hf & Hr & Hs). exists tree. split_and!; [done | done | by apply Hv].
      * by destruct (rejected_value ids a s) as [[? ?]| |].
    + destruct (H2 ltac:(lia)) as [p Hr]. by rewrite Hr in Hw.
  - intros tree Hf Hs Hn. destruct (form_complete schema Hok params rowsLimit tree Hf Hs) as (Hi & Hr & Hnodes).
    destruct H1 as (a & s & -> & _ & Hia & _ & _ & Hv); [lia |]. cbn [coded_bind]. destruct (analysed a) as [v|].
    + exists v, (f_heap s). split; [done | by apply Hv].
    + by rewrite Hia, Hi in Hv.
  - intros tree Hf Hs Hn. destruct (form_complete schema Hok params rowsLimit tree Hf Hs) as (_ & _ & Hnodes).
    destruct H2 as [path Hr]; [lia |]. exists path. by rewrite Hr.
Qed.

(** ** Rejected forms *)

Lemma settles_records {A} h (f : A -> F value) (P : heap -> value -> A -> Prop) l :
  (forall a h', settles h' (f a) 0 [] (fun v h2 => P h2 v a)) -> (forall h1 h2 v a, extends h1 h2 -> P h1 v a -> P h2 v a) ->
  settles h (fmap_records f l) 0 [] (fun vs h' => Forall2 (P h') vs l).
Proof.
  intros Hf Hgrow. revert h. induction l as [|a l IH]; intros h; [by apply settles_ret |].
  cbn [fmap_records]. apply (settles_eq _ _ (0 + (0 + 0)) _ ([] ++ ([] ++ []))); [| done..].
  eapply settles_bind; [done | done | apply Hf |]. intros v h1 _ _ Hv.
  eapply settles_bind; [done | done | apply IH |]. intros vs h2 Hx _ Hvs.
  apply settles_ret. intros h3 Hx'. constructor; [eapply Hgrow; [| exact Hv]; by etrans |].
  eapply Forall2_impl; [exact Hvs |]. intros. by eapply Hgrow.
Qed.

Lemma settles_any_array h vs :
  settles h (farray vs) 0 [] (fun v h' => Z.of_nat (length vs) <= MAX_SAFE -> dataArray h' v = Ret vs).
Proof.
  intros s Hext Hh Hn. split; [| lia]. intros _. unfold farray. pose proof (array_reads (f_heap s) vs) as Hr.
  destruct (array_grows (f_heap s) vs Hh) as [Hh' Hx]. destruct (array (f_heap s) vs) as [v h'] eqn:E. cbn in *.
  rewrite app_nil_r. exists v, h', (f_budget s). split_and!; [done | lia | done..].
Qed.

(** The record of a rejected form: the raw pairs and the issues. *)
Definition rejected_is (ids : ActionFormIdentities) (h : heap) (v : value) (raw : list (jstr * jstr)) (found : list (jstr * FormIssueReason)) : Prop :=
  exists rv iv rs is_, record_is h v (rejected_id ids) [(js "raw", rv); (js "issues", iv)]
    /\ (Z.of_nat (length rs) <= MAX_SAFE -> dataArray h rv = Ret rs)
    /\ (Z.of_nat (length is_) <= MAX_SAFE -> dataArray h iv = Ret is_)
    /\ Forall2 (fun x p => record_is h x (rawEntry_id ids) [(js "name", VStr p.1); (js "value", VStr p.2)]) rs raw
    /\ Forall2 (fun x p => record_is h x (issue_id ids) [(js "name", VStr p.1); (js "reason", VStr (reason_text p.2))]) is_ found.

Lemma two_names a b (x y : value) : js a <> js b -> NoDup [(js a, x); (js b, y)].*1.
Proof. intros H. apply NoDup_cons. split; [by intros ?%list_elem_of_singleton | apply NoDup_singleton]. Qed.

Lemma settles_rejected h ids a :
  settles h (rejected_value ids a) 0 [] (fun v h' => rejected_is ids h' v (raw_pairs a) (issues a)).
Proof.
  unfold rejected_value. apply (settles_eq _ _ (0 + (0 + (0 + (0 + 0)))) _ ([] ++ ([] ++ ([] ++ ([] ++ []))))); [| done..].
  eapply settles_bind; [done | done | |].
  { apply (settles_records _ _ (fun h x p => record_is h x (rawEntry_id ids) [(js "name", VStr p.1); (js "value", VStr p.2)])).
    - intros p h'. by apply settles_record, two_names.
    - intros. by eapply record_is_grows. }
  intros rs h1 _ _ Hrs. eapply settles_bind; [done | done | apply settles_any_array |]. intros rv h2 Hx2 _ Hrv.
  eapply settles_bind; [done | done | |].
  { apply (settles_records _ _ (fun h x p => record_is h x (issue_id ids) [(js "name", VStr p.1); (js "reason", VStr (reason_text p.2))])).
    - intros p h'. by apply settles_record, two_names.
    - intros. by eapply record_is_grows. }
  intros is_ h3 Hx3 _ His. eapply settles_bind; [done | done | apply settles_any_array |]. intros iv h4 Hx4 _ Hiv.
  eapply settles_weaken; [by apply settles_record, two_names |]. intros v h5 Hx5 Hv.
  exists rv, iv, rs, is_. split_and!; [done | | | |].
  - intros Hl. eapply dataArray_grows; [| by apply Hrv]. repeat (etrans; [eassumption |]). done.
  - intros Hl. eapply dataArray_grows; [| by apply Hiv]. done.
  - eapply Forall2_impl; [exact Hrs |]. intros x p H. eapply record_is_grows; [| exact H]. repeat (etrans; [eassumption |]). done.
  - eapply Forall2_impl; [exact His |]. intros x p H. eapply record_is_grows; [| exact H]. by etrans.
Qed.

(** C21. (Rejection keeps the text.)  With a compiled schema, [decodeActionForm] ends in
    a wire record, in a rejection or at the node budget, never in a fault.  A
    rejected value holds exactly the pairs whose names the schema knows, in their
    order, and some issue; every other name that was sent has its own issue; and no
    valid form has this submission. *)
Theorem rejection_keeps_the_text rep schema h input limit ids rowsLimit params :
  replaces_invalid rep -> schema_ok schema -> heap_ok h -> ids_ok ids -> limit_ok rowsLimit -> body_pairs input limit params ->
  match decodeActionForm rep schema h input limit ids rowsLimit with
  | Formed (Coded (wire _, _)) => True
  | Formed (Coded (rejected v, h')) =>
      exists found, found <> []
        /\ rejected_is ids h' v (filter (fun p => class_of schema p.1 <> Unknown) params) found
        /\ (forall n, n ∈ params.*1 -> class_of schema n = Unknown -> (n, type_issue) ∈ found)
        /\ (forall tree, form_ok schema rowsLimit tree -> ~ submits params (submission schema tree))
  | Formed (reject _ reason) => reason = node_limit
  | _ => False
  end.
Proof.
  intros Hrep Hok Hh Hids Hlim Hbody. destruct (formParams_body rep input limit params Hrep Hbody) as [b Hp].
  destruct (formParams_ok _ _ _ _ _ Hp) as (Hb & Hl & _).
  rewrite (decodeActionForm_params _ _ _ _ _ _ _ _ _ Hids Hlim Hp).
  destruct (analyze_params_ok schema rowsLimit params b h Hok Hh Hb Hl) as [H1 H2].
  destruct (Z.le_gt_cases (1 + form_nodes schema (classified schema params)) maxNodes) as [Hn | Hn].
  - destruct (H1 Hn) as (a & s & -> & Hraw & Hi & Hhs & Hns & Hv). cbn [coded_bind]. destruct (analysed a) as [v|]; [done |].
    destruct (settles_rejected (f_heap s) ids a s) as [Hr _]; [done.. |].
    destruct Hr as (v & h' & b' & -> & _ & _ & _ & Hrej); [lia |].
    cbn [coded_bind]. exists (issues a). split_and!; [done | by rewrite <- known_pairs, <- Hraw | |].
    + intros n Hin Hc. rewrite Hi. apply elem_of_app. left. apply list_elem_of_In, in_concat. exists [(n, type_issue)].
      split; [apply list_elem_of_In, list_elem_of_fmap; exists n; split; [done | by apply unknown_names] | by left].
    + intros tree Hf Hs. destruct (form_complete schema Hok params rowsLimit tree Hf Hs) as (Hnil & _). by rewrite Hi, Hnil in Hv.
  - destruct (H2 ltac:(lia)) as [p ->]. done.
Qed.

(** ** An example: an order with two lines *)

Lemma submits_test ps groups :
  forallb (fun g => bool_decide (sent g.1 ps = g.2)) groups && forallb (fun p => bool_decide (p.1 ∈ groups.*1)) ps = true ->
  submits ps groups.
Proof.
  rewrite andb_true_iff, !forallb_forall. setoid_rewrite bool_decide_eq_true. intros [H1 H2]. split.
  - intros n vs Hin. apply (H1 (n, vs)). by apply list_elem_of_In.
  - intros n Hn. apply sent_none. intros (p & -> & Hp)%list_elem_of_fmap. apply Hn, H2. by apply list_elem_of_In.
Qed.

Definition flat (n k : string) : FormField := mkFormField (js n) (js k) (Some (js "some")) (Some (js "none")) None.

Definition lines : FormRowsSchema :=
  mkFormRows (js "row") (js "lines_order") (js "rows") (js "item")
    [flat "sku" "str"; flat "tags" "array"; flat "note" "optional"].

Definition order_schema : FormSchema :=
  mkFormSchema (js "wire") [flat "customer" "str"; mkFormField (js "lines") (js "rows") None None (Some lines)].

Definition order_tree : list field_data :=
  [Flat (Single (js "ann"));
   Grid [(js "b", [Single (js "x"); Several [js "t1"; js "t2"]; Maybe None]);
         (js "a", [Single (js "y"); Several []; Maybe (Some (js "n n"))])]].

Definition order_body : list N :=
  utf8_encode (js "lines_order=b&lines%5Bb%5D%5Bsku%5D=x&lines%5Ba%5D%5Bnote%5D=n+n&lines%5Bb%5D%5Btags%5D=t1&customer=ann"
    ++ js "&lines_order=a&lines%5Bb%5D%5Btags%5D=t2&lines%5Ba%5D%5Bsku%5D=y").

Definition order_pairs : list (jstr * jstr) :=
  [(js "lines_order", js "b"); (js "lines[b][sku]", js "x"); (js "lines[a][note]", js "n n"); (js "lines[b][tags]", js "t1");
   (js "customer", js "ann"); (js "lines_order", js "a"); (js "lines[b][tags]", js "t2"); (js "lines[a][sku]", js "y")].

Definition demo_replacing (bytes : list N) : jstr := default [] (utf8_decode bytes).
Definition demo_form_ids : ActionFormIdentities := mkActionForm (js "rejected") (js "raw") (js "issue").

Lemma plain_test n : bool_decide (n <> [] /\ 91%N ∉ n /\ 93%N ∉ n) = true -> plain_name n.
Proof. apply bool_decide_eq_true. Qed.

Lemma order_schema_ok : schema_ok order_schema.
Proof.
  split_and!.
  - apply Forall_cons_2; [| apply Forall_cons_2; [| apply Forall_nil_2]].
    + split; [by apply plain_test | left; by left].
    + split; [by apply plain_test | right]. split; [done |]. exists lines. split; [done |].
      split_and!; try (by apply (bool_decide_unpack _); vm_compute).
  - by apply (bool_decide_unpack _); vm_compute.
  - by apply (bool_decide_unpack _); vm_compute.
  - intros n. change (order_names order_schema) with [js "lines_order"]. intros ->%list_elem_of_singleton.
    by apply (bool_decide_unpack _); vm_compute.
Qed.

Lemma demo_replacing_ok : replaces_invalid demo_replacing.
Proof. intros bytes text H. unfold demo_replacing. by rewrite H. Qed.

Lemma demo_ids_ok : ids_ok demo_form_ids.
Proof. by split_and!. Qed.

Lemma order_tree_ok : form_ok order_schema 64 order_tree.
Proof.
  constructor; [by split | constructor; [| constructor]]. split; [done |]. exists lines. split; [done |]. split_and!; [| | done].
  - apply Forall_cons_2; [| apply Forall_cons_2; [| apply Forall_nil_2]]; (split_and!; [done | by repeat constructor | done |]);
      by apply (bool_decide_unpack _); vm_compute.
  - by apply (bool_decide_unpack _); vm_compute.
Qed.

Lemma order_plain_body : plain_body order_body 1000 order_pairs.
Proof.
  split; [by vm_compute |]. eexists. split; [vm_compute; reflexivity |]. split_and!; [by vm_compute | by vm_compute | by vm_compute].
Qed.

Lemma submissions_decode_exactly_witness :
  exists v h', decodeActionForm demo_replacing order_schema empty_heap order_body 1000 demo_form_ids 64 = Formed (Coded (wire v, h'))
    /\ form_is h' order_schema v order_tree.
Proof.
  refine (proj1 (proj2 (submissions_decode_exactly demo_replacing order_schema empty_heap order_body 1000 demo_form_ids 64 order_pairs
    demo_replacing_ok order_schema_ok empty_heap_ok demo_ids_ok _ order_plain_body)) order_tree order_tree_ok _ _);
    [by split | by apply submits_test; vm_compute | by vm_compute].
Defined.

Definition partial_body : list N := utf8_encode (js "customer=ann&lines_order=a&lines%5Bz%5D%5Bsku%5D=x&nope=1").
Definition partial_pairs : list (jstr * jstr) :=
  [(js "customer", js "ann"); (js "lines_order", js "a"); (js "lines[z][sku]", js "x"); (js "nope", js "1")].

Lemma rejection_keeps_the_text_witness :
  match decodeActionForm demo_replacing order_schema empty_heap partial_body 1000 demo_form_ids 64 with
  | Formed (Coded (wire _, _)) => True
  | Formed (Coded (rejected v, h')) =>
      exists found, found <> []
        /\ rejected_is demo_form_ids h' v (filter (fun p => class_of order_schema p.1 <> Unknown) partial_pairs) found
        /\ (forall n, n ∈ partial_pairs.*1 -> class_of order_schema n = Unknown -> (n, type_issue) ∈ found)
        /\ (forall tree, form_ok order_schema 64 tree -> ~ submits partial_pairs (submission order_schema tree))
  | Formed (reject _ reason) => reason = node_limit
  | _ => False
  end.
Proof.
  apply (rejection_keeps_the_text demo_replacing order_schema empty_heap partial_body 1000 demo_form_ids 64 partial_pairs);
    [apply demo_replacing_ok | apply order_schema_ok | apply empty_heap_ok | apply demo_ids_ok | by split |].
  split; [by vm_compute |]. eexists. split; [| split]; [vm_compute; reflexivity | vm_compute; reflexivity | vm_compute; reflexivity].
Defined.

(** The partial body is rejected: the row [a] has no entry, the row [z] no place. *)
Example partial_is_rejected :
  match decodeActionForm demo_replacing order_schema empty_heap partial_body 1000 demo_form_ids 64 with
  | Formed (Coded (rejected _, _)) => true
  | _ => false
  end = true.
Proof. vm_compute. reflexivity. Qed.

(** A leading question mark is lost: the body [?customer=ann] is read as the body
    [customer=ann], although the strict check read the name [?customer]. *)
Example question_mark_is_lost :
  strictParameters demo_replacing (js "?customer=ann") = strictParameters demo_replacing (js "customer=ann").
Proof. vm_compute. reflexivity. Qed.
