(* ===== verification/FixtureQueue.v ===== *)
(** * Fixture queues

    [src/runtime/assert/queue.ts]: the rows of the fixture tables of one assertion
    root.  A queue value is the state of its weak-map entry; [Map] is an
    association list in insertion order. *)
From stdpp Require Import base gmap list list_numbers strings.
From Stdlib Require Import ZArith Lia.
From S2P Require Import Prelude JsNumber JsString Lineage.

Record Allocation : Type := mkAllocation { al_table : jstr; row : Z; al_path : InvocationPath }.

Inductive QueueProblem : Type := missing_fixture | ambiguous_fixture | unused_fixture | unexpected_live_boundary.

#[global] Instance QueueProblem_eq_dec : EqDecision QueueProblem.
Proof. solve_decision. Defined.

Record FixtureQueueError : Type := mkQueueError { reason : QueueProblem; expected : Allocation; actual : InvocationPath }.

(** A call returns, throws a [FixtureQueueError], or throws a [TypeError]. *)
Inductive queue_result (A : Type) : Type :=
| Got (a : A)
| Problem (e : FixtureQueueError)
| Faulty (message : string).
Arguments Got {A} a.
Arguments Problem {A} e.
Arguments Faulty {A} message.

Definition queue_bind {A B} (m : queue_result A) (k : A -> queue_result B) : queue_result B :=
  match m with Got a => k a | Problem e => Problem e | Faulty s => Faulty s end.
Definition of_res {A} (m : res A) : queue_result A := match m with Ret a => Got a | Throw s => Faulty s end.

Notation "'queue!' x ':=' c1 'in' c2" := (queue_bind c1 (fun x => c2))
  (at level 10, x pattern, c1 at level 100, c2 at level 200) : res_scope.

Record Table : Type := mkTable { total : Z; used : Z; registered : nat; last : option Allocation }.

Record State : Type := mkState {
  q_root : nat;
  tables : list (jstr * Table);
  claimed : gmap nat jstr;
  q_closed : bool
}.

Definition map_get (m : list (jstr * Table)) (k : jstr) : option Table := snd <$> find (fun p => bool_decide (p.1 = k)) m.
Fixpoint map_set (m : list (jstr * Table)) (k : jstr) (t : Table) : list (jstr * Table) :=
  match m with
  | [] => [(k, t)]
  | (k', t') :: m => if bool_decide (k' = k) then (k, t) :: m else (k', t') :: map_set m k t
  end.

Definition with_tables (q : State) (ts : list (jstr * Table)) : State := mkState (q_root q) ts (claimed q) (q_closed q).

Section queues.
Context (L : lineage).

Definition fixtureQueues (root : nat) : queue_result State :=
  queue! _ := of_res (invocationPath L root) in Got (mkState root [] ∅ false).

(** [table] is a string and [total] a number of the generated caller. *)
Definition registerTable (q : State) (table : jstr) (count : num) (identity : nat) : queue_result State :=
  queue! _ := of_res (compareInvocations L (q_root q) identity) in
  match safe_integer count with
  | Some n =>
      if bool_decide (table = []) || (n <? 0) then Faulty "invalid fixture table"
      else
        queue! path := of_res (invocationPath L identity) in
        if q_closed q then Problem (mkQueueError unexpected_live_boundary (mkAllocation table 0 path) path)
        else
          match map_get (tables q) table with
          | Some prior =>
              if negb (total prior =? n) then
                queue! before := of_res (invocationPath L (registered prior)) in
                Problem (mkQueueError ambiguous_fixture (mkAllocation table (used prior) before) path)
              else Got q
          | None => Got (with_tables q (map_set (tables q) table (mkTable n 0 identity None)))
          end
  | None => Faulty "invalid fixture table"
  end.

(** What a throw after the registration leaves is the registered state. *)
Definition allocateFixture (q : State) (table : jstr) (count : num) (identity : nat) : queue_result Allocation * State :=
  match registerTable q table count identity with
  | Problem e => (Problem e, q)
  | Faulty s => (Faulty s, q)
  | Got q =>
      match map_get (tables q) table, invocationPath L identity with
      | Some queue, Ret path =>
          let allocation := mkAllocation table (used queue) path in
          if bool_decide (is_Some (claimed q !! identity))
          then (Problem (mkQueueError ambiguous_fixture allocation path), q)
          else if total queue <=? used queue
          then (Problem (mkQueueError missing_fixture allocation path), q)
          else
            (Got allocation,
             mkState (q_root q)
               (map_set (tables q) table (mkTable (total queue) (used queue + 1) (registered queue) (Some allocation)))
               (<[identity := table]> (claimed q)) (q_closed q))
      | _, _ => (Faulty "invalid invocation identity", q)
      end
  end.

(** The problems of the tables with rows left, in order of registration. *)
Fixpoint unused_rows (ts : list (jstr * Table)) : queue_result (list FixtureQueueError) :=
  match ts with
  | [] => Got []
  | (name, t) :: ts =>
      if used t =? total t then unused_rows ts
      else
        queue! first := of_res (invocationPath L (registered t)) in
        queue! rest := unused_rows ts in
        Got (mkQueueError unused_fixture (mkAllocation name (used t) first)
               (match last t with Some a => al_path a | None => first end) :: rest)
  end.

Definition closeQueues (q : State) : queue_result (list FixtureQueueError) * State :=
  if q_closed q then (Faulty "fixture queues already closed", q)
  else (unused_rows (tables q), mkState (q_root q) (tables q) (claimed q) true).
End queues.

(** ** Runs *)

(** A run asks for rows, then closes. *)
Record ask : Type := mkAsk { ask_table : jstr; ask_total : num; ask_identity : nat }.

Fixpoint asks (L : lineage) (q : State) (l : list ask) : list (queue_result Allocation) * State :=
  match l with
  | [] => ([], q)
  | a :: l =>
      let '(r, q) := allocateFixture L q (ask_table a) (ask_total a) (ask_identity a) in
      let '(rs, q) := asks L q l in (r :: rs, q)
  end.

(** ** Facts *)

Lemma table_get_set m k t k' : map_get (map_set m k t) k' = if decide (k = k') then Some t else map_get m k'.
Proof.
  unfold map_get. induction m as [|[k0 t0] m IH]; cbn.
  { case_bool_decide; destruct (decide (k = k')); done. }
  case_bool_decide as H1; cbn.
  - subst. case_bool_decide; destruct (decide (k = k')); done.
  - case_bool_decide as H2; cbn; [| exact IH]. subst. by rewrite decide_False.
Qed.

Lemma map_set_keys m k t : (map_set m k t).*1 = if decide (k ∈ m.*1) then m.*1 else m.*1 ++ [k].
Proof.
  induction m as [|[k0 t0] m IH]; cbn; [by rewrite decide_False by by intros ?%elem_of_nil |].
  case_bool_decide as H; cbn.
  - subst. by rewrite decide_True by by left.
  - rewrite IH. destruct (decide (k ∈ m.*1)).
    + by rewrite decide_True by by right.
    + rewrite decide_False; [done |]. rewrite elem_of_cons. intros [-> |]; done.
Qed.

Lemma map_get_keys m k : is_Some (map_get m k) <-> k ∈ m.*1.
Proof.
  unfold map_get. induction m as [|[k0 t0] m IH]; cbn; [split; [by intros [] | by intros ?%elem_of_nil] |].
  rewrite elem_of_cons. case_bool_decide as H; cbn; [subst; split; [by left | by eexists] |]. rewrite IH. naive_solver.
Qed.

Lemma table_get_in m k t : NoDup m.*1 -> (k, t) ∈ m -> map_get m k = Some t.
Proof.
  unfold map_get. induction m as [|[k0 t0] m IH]; cbn; [by intros _ ?%elem_of_nil |].
  intros [Hn Hnd]%NoDup_cons Hin. apply elem_of_cons in Hin as [[= -> ->] | Hin]; [by rewrite bool_decide_true |].
  rewrite bool_decide_false; [by apply IH |]. intros ->. apply Hn, list_elem_of_fmap. by exists (k, t).
Qed.

(** ** Rows are consumed once *)

(** The grants of a run, with the invocation that got each. *)
Fixpoint grants (l : list ask) (rs : list (queue_result Allocation)) : list (nat * Allocation) :=
  match l, rs with
  | a :: l, Got x :: rs => (ask_identity a, x) :: grants l rs
  | _ :: l, _ :: rs => grants l rs
  | _, _ => []
  end.

Definition rows_of (k : jstr) (given : list (nat * Allocation)) : list Z :=
  (fun p => row p.2) <$> filter (fun p => al_table p.2 = k) given.

Record consumed (q : State) (given : list (nat * Allocation)) : Prop := {
  once : NoDup given.*1;
  claims : forall i, is_Some (claimed q !! i) <-> i ∈ given.*1;
  in_order : forall k, rows_of k given = seqZ 0 (Z.of_nat (length (rows_of k given)));
  counted : forall k t, map_get (tables q) k = Some t -> used t = Z.of_nat (length (rows_of k given)) /\ used t <= total t;
  none_given : forall k, map_get (tables q) k = None -> rows_of k given = [];
  distinct : NoDup (tables q).*1;
  not_closed : q_closed q = false
}.

Lemma rows_of_snoc k given i x :
  rows_of k (given ++ [(i, x)]) = rows_of k given ++ (if decide (al_table x = k) then [row x] else []).
Proof.
  unfold rows_of. rewrite filter_app, fmap_app. f_equal. rewrite filter_cons. cbn. by destruct (decide (al_table x = k)).
Qed.

Lemma register_consumed L q k n i q' given :
  registerTable L q k n i = Got q' -> consumed q given -> consumed q' given.
Proof.
  unfold registerTable. intros H Hc. destruct (compareInvocations L (q_root q) i); [| done]. cbn in H.
  destruct (safe_integer n) as [z|]; [| done]. destruct (_ || _) eqn:Hz; [done |].
  destruct (invocationPath L i); [| done]. cbn in H. destruct (q_closed q); [done |].
  destruct (map_get (tables q) k) as [t|] eqn:Ht.
  { destruct (negb _); [by destruct (invocationPath L (registered t)) | by injection H as <-]. }
  injection H as <-. apply orb_false_iff in Hz as [_ Hz%Z.ltb_ge]. destruct Hc as [H1 H2 H3 H4 H5 H6 H7].
  split; try done; cbn [tables with_tables].
  - intros k' t'. rewrite table_get_set. destruct (decide (k = k')) as [<- | Hk]; [| by apply H4].
    intros [= <-]. cbn. rewrite (H5 k Ht). cbn. lia.
  - intros k'. rewrite table_get_set. destruct (decide (k = k')); [done | by apply H5].
  - rewrite map_set_keys. destruct (decide (k ∈ (tables q).*1)) as [Hin | Hin]; [done |]. apply NoDup_app.
    split_and!; [done | | apply NoDup_singleton]. intros x Hx ->%list_elem_of_singleton. done.
Qed.

Lemma allocate_consumed L q k n i r q' given :
  allocateFixture L q k n i = (r, q') -> consumed q given ->
  consumed q' (given ++ match r with Got x => [(i, x)] | _ => [] end).
Proof.
  unfold allocateFixture. intros H Hc. destruct (registerTable L q k n i) as [q1 | e | s] eqn:Hr;
    [| injection H as <- <-; by rewrite app_nil_r..].
  pose proof (register_consumed _ _ _ _ _ _ _ Hr Hc) as [H1 H2 H3 H4 H5 H6 H7].
  destruct (map_get (tables q1) k) as [t|] eqn:Ht; [| injection H as <- <-; by rewrite app_nil_r].
  destruct (invocationPath L i) as [path|]; [| injection H as <- <-; by rewrite app_nil_r].
  case_bool_decide as Hcl; [injection H as <- <-; by rewrite app_nil_r |].
  destruct (Z.leb_spec (total t) (used t)); [injection H as <- <-; by rewrite app_nil_r |].
  injection H as <- <-. destruct (H4 k t Ht) as [Hu Hle]. split; cbn [tables claimed q_closed]; try done.
  - rewrite fmap_app. apply NoDup_app. split_and!; [done | | apply NoDup_singleton].
    intros x Hx ->%list_elem_of_singleton. by apply Hcl, H2.
  - intros j. rewrite fmap_app, elem_of_app, lookup_insert_is_Some', H2. cbn. rewrite list_elem_of_singleton. naive_solver.
  - intros k'. rewrite rows_of_snoc. cbn. destruct (decide (k = k')) as [<- | Hk]; [| by rewrite app_nil_r].
    rewrite length_app. cbn [length]. rewrite Nat2Z.inj_add, seqZ_app by lia. f_equal; [by apply H3 |]. by rewrite Hu.
  - intros k' t'. rewrite table_get_set, rows_of_snoc. cbn. destruct (decide (k = k')) as [<- | Hk].
    + intros [= <-]. cbn. rewrite length_app. cbn. lia.
    + rewrite app_nil_r. apply H4.
  - intros k'. rewrite table_get_set, rows_of_snoc. cbn. destruct (decide (k = k')); [done |]. rewrite app_nil_r. apply H5.
  - rewrite map_set_keys, decide_True; [done |]. apply map_get_keys. by eexists.
Qed.

Lemma asks_consumed L l : forall q given rs q',
  consumed q given -> asks L q l = (rs, q') -> consumed q' (given ++ grants l rs).
Proof.
  induction l as [|a l IH]; intros q given rs q' Hc; cbn [asks]; [intros [= <- <-]; by rewrite app_nil_r |].
  destruct (allocateFixture L q _ _ _) as [r q1] eqn:Ha. pose proof (allocate_consumed _ _ _ _ _ _ _ _ Ha Hc) as Hc1.
  destruct (asks L q1 l) as [rs1 q2] eqn:Hl. intros [= <- <-]. pose proof (IH _ _ _ _ Hc1 Hl) as H.
  destruct r; cbn [grants]; rewrite <- app_assoc in H; done.
Qed.

Lemma unused_names L ts problems :
  unused_rows L ts = Got problems ->
  (fun e => al_table (expected e)) <$> problems = (filter (fun p => used p.2 <> total p.2) ts).*1
  /\ Forall (fun e => reason e = unused_fixture) problems.
Proof.
  revert problems. induction ts as [|[k t] ts IH]; intros problems; cbn [unused_rows]; [by intros [= <-] |].
  rewrite filter_cons. cbn [snd]. destruct (Z.eqb_spec (used t) (total t)) as [He | He].
  { rewrite decide_False by (intros ?; done). apply IH. }
  rewrite decide_True by done. destruct (invocationPath L (registered t)); [| done]. cbn.
  destruct (unused_rows L ts) as [rest | |]; [| done..]. cbn. intros [= <-]. destruct (IH rest eq_refl) as [H1 H2].
  cbn. rewrite H1. split; [done | by constructor].
Qed.

(** (Fixture rows are consumed once.)  In every run of one root's queues: no
    invocation gets two rows; the rows granted from a table are 0, 1, 2, … in
    that order, never more than the table has; and closing reports, in order of
    registration, exactly the tables of which rows are left. *)
Theorem rows_are_consumed_once L root l rs q :
  asks L (mkState root [] ∅ false) l = (rs, q) ->
  NoDup (grants l rs).*1
  /\ (forall k, rows_of k (grants l rs) = seqZ 0 (Z.of_nat (length (rows_of k (grants l rs)))))
  /\ (forall k t, map_get (tables q) k = Some t -> Z.of_nat (length (rows_of k (grants l rs))) <= total t)
  /\ (forall problems q', closeQueues L q = (Got problems, q') ->
        Forall (fun e => reason e = unused_fixture) problems
        /\ forall k, k ∈ (fun e => al_table (expected e)) <$> problems
             <-> exists t, map_get (tables q) k = Some t /\ Z.of_nat (length (rows_of k (grants l rs))) < total t).
Proof.
  intros H. assert (consumed (mkState root [] ∅ false) []) as H0.
  { split; try done; [by constructor | | by constructor]. intros i. cbn. rewrite lookup_empty. split; [by intros [] | by intros ?%elem_of_nil]. }
  pose proof (asks_consumed L l _ _ _ _ H0 H) as [H1 H2 H3 H4 H5 H6 H7]. cbn [app] in *.
  split_and!; [done | done | intros k t Ht; destruct (H4 k t Ht); lia |].
  intros problems q' Hq. unfold closeQueues in Hq. rewrite H7 in Hq. injection Hq as Hu _.
  destruct (unused_names L (tables q) problems Hu) as [Hn Hf]. split; [done |]. intros k. rewrite Hn, list_elem_of_fmap. split.
  - intros ([k' t] & -> & [Hne Hin]%list_elem_of_filter). exists t. cbn in *.
    pose proof (table_get_in _ _ _ H6 Hin) as Ht. destruct (H4 _ _ Ht). split; [done | lia].
  - intros (t & Ht & Hlt). exists (k, t). split; [done |]. apply list_elem_of_filter. destruct (H4 _ _ Ht). split; [cbn; lia |].
    unfold map_get in Ht. destruct (find _ (tables q)) as [[k' t']|] eqn:Hf'; [| done]. injection Ht as ->.
    apply find_some in Hf' as [Hin Hk%bool_decide_eq_true]. cbn in Hk. subst k'. by apply list_elem_of_In.
Qed.

Lemma rows_are_consumed_once_witness :
  let L := run_steps [MakeRoot (mkRootIdentity (js "p") (js "d") (js "n")); Invoke 0 (js "f#1") None; Invoke 0 (js "g#1") None] in
  let '(rs, q) := asks L (mkState 0 [] ∅ false)
    [mkAsk (js "t") (num_of_Z 2) 1; mkAsk (js "t") (num_of_Z 2) 1; mkAsk (js "u") (num_of_Z 1) 2; mkAsk (js "t") (num_of_Z 3) 0] in
  let l := [mkAsk (js "t") (num_of_Z 2) 1; mkAsk (js "t") (num_of_Z 2) 1; mkAsk (js "u") (num_of_Z 1) 2; mkAsk (js "t") (num_of_Z 3) 0] in
  NoDup (grants l rs).*1
  /\ (forall k, rows_of k (grants l rs) = seqZ 0 (Z.of_nat (length (rows_of k (grants l rs)))))
  /\ (forall k t, map_get (tables q) k = Some t -> Z.of_nat (length (rows_of k (grants l rs))) <= total t)
  /\ (forall problems q', closeQueues L q = (Got problems, q') ->
        Forall (fun e => reason e = unused_fixture) problems
        /\ forall k, k ∈ (fun e => al_table (expected e)) <$> problems
             <-> exists t, map_get (tables q) k = Some t /\ Z.of_nat (length (rows_of k (grants l rs))) < total t).
Proof.
  intros L. destruct (asks L (mkState 0 [] ∅ false) _) as [rs q] eqn:H. exact (rows_are_consumed_once L 0 _ rs q H).
Defined.
