(* ===== verification/Coordination.v ===== *)
(** * Coordination forms

    [src/runtime/coordination.ts]: the selection of a group's outcome under the
    four modes, the dispatch to the handlers of a form and the aggregate failure.
    The completions of a group are what its adapters observe, in the order in
    which their reactions run; the native combinators ([Promise.all],
    [allSettled], [any], [race]) are written out from their specification as
    functions of the adapters settled so far.  Groups are those of [Owner]. *)
From stdpp Require Import base gmap list strings.
From Stdlib Require Import ZArith Lia.
From S2P Require Import Prelude JsNumber JsString Data Domain Owner.

Inductive Mode : Type := all | settled | any | race.

#[global] Instance Mode_eq_dec : EqDecision Mode.
Proof. solve_decision. Defined.

(** A completion: a value, a domain occurrence by its token, or a standard one
    (with the occurrence number of [Owner] and the opaque value). *)
Inductive completion : Type :=
| COk (v : value)
| CDomain (token : nat)
| CStandard (occurrence : nat) (v : value).

#[global] Instance completion_eq_dec : EqDecision completion.
Proof. solve_decision. Defined.

Definition is_ok (c : completion) : bool := match c with COk _ => true | _ => false end.

(** What the owner keeps of it. *)
Definition outcome_of (c : completion) : outcome :=
  match c with COk _ => OutOk | CDomain _ => OutDomain | CStandard o _ => OutStandard o end.

(** ** Adapters *)

(** A pending promise of the group: it lands with a genuine completion, or it
    rejects or hands over a carrier that is not one. *)
Record arrival : Type := mkArrival { index : nat; landed : option completion }.

(** The promise each reaction returns; only [Fulfils] and [Refuses] carry a tag. *)
Inductive adapter : Type :=
| Fulfils (index : nat) (c : completion)
| Refuses (index : nat) (c : completion)
| Breaks.

Record observed : Type := mkObserved {
  outcomes : list (option completion);
  rejected : list nat;
  firstSuccess : option (list nat)
}.

Definition no_outcomes (count : nat) : observed := mkObserved (repeat None count) [] None.

(** The reaction on one pending promise.  [rejected] is a set in insertion order. *)
Definition observe (s : observed) (a : arrival) : observed * adapter :=
  match landed a with
  | None => (s, Breaks)
  | Some c =>
      let os := <[index a := Some c]> (outcomes s) in
      if is_ok c then
        (mkObserved os (rejected s)
           (match firstSuccess s with Some l => Some l | None => Some (rejected s ++ [index a]) end),
         Fulfils (index a) c)
      else
        (mkObserved os (if bool_decide (index a ∈ rejected s) then rejected s else rejected s ++ [index a])
           (firstSuccess s),
         Refuses (index a) c)
  end.

Fixpoint observe_all (s : observed) (arrivals : list arrival) : observed * list adapter :=
  match arrivals with
  | [] => (s, [])
  | a :: arrivals =>
      let '(s, ad) := observe s a in
      let '(s, ads) := observe_all s arrivals in (s, ad :: ads)
  end.

(** ** The native combinators *)

(** How a combinator settles: with the value of one adapter, as a whole, with the
    cause of one adapter, or with an [AggregateError]. *)
Inductive verdict : Type :=
| ResolvesOne (index : nat) (c : completion)
| ResolvesWhole
| RejectsOne (cause : adapter)
| RejectsWhole.

Definition fulfils (a : adapter) : bool := match a with Fulfils _ _ => true | _ => false end.

Definition settle_one (a : adapter) : verdict :=
  match a with Fulfils i c => ResolvesOne i c | _ => RejectsOne a end.

(** The combinator of a mode over [count] adapters of which [settled] have
    settled, first to last; [None] while it is pending. *)
Definition combinator (mode : Mode) (count : nat) (done : list adapter) : option verdict :=
  let complete := (count <=? length done)%nat in
  match mode with
  | settled => if complete then Some ResolvesWhole else None
  | all =>
      match find (fun a => negb (fulfils a)) done with
      | Some a => Some (RejectsOne a)
      | None => if complete then Some ResolvesWhole else None
      end
  | any =>
      match find fulfils done with
      | Some a => Some (settle_one a)
      | None => if complete then Some RejectsWhole else None
      end
  | race => settle_one <$> head done
  end.

(** ** Selection *)

Inductive Selection : Type :=
| SelAll (outcomes : list (option completion))
| SelOne (index : nat) (c : completion)
| AllFailed (outcomes : list (option completion)).

(** What the continuation of the combinator does: publish and answer, or throw
    the cause, or the invariant error of [any]. *)
Inductive reaction : Type :=
| Publishes (chosen : list nat) (s : Selection)
| Rethrows
| Invalid.

Definition selected (mode : Mode) (s : observed) (index : nat) (c : completion) : reaction :=
  Publishes (match mode with any => default [] (firstSuccess s) | _ => [index] end) (SelOne index c).

Definition all_indices (count : nat) : list nat := seq 0 count.

(** [some] skips the holes of [outcomes], so a missing outcome goes unnoticed. *)
Definition some_ok (os : list (option completion)) : bool :=
  existsb (fun o => match o with Some c => is_ok c | None => false end) os.

Definition react (mode : Mode) (count : nat) (s : observed) (v : verdict) : reaction :=
  match v with
  | ResolvesWhole => Publishes (all_indices count) (SelAll (outcomes s))
  | ResolvesOne i c => selected mode s i c
  | RejectsWhole =>
      if negb (length (outcomes s) =? count)%nat || some_ok (outcomes s) then Invalid
      else Publishes (all_indices count) (AllFailed (outcomes s))
  | RejectsOne (Fulfils i c) | RejectsOne (Refuses i c) => selected mode s i c
  | RejectsOne Breaks => Rethrows
  end.

(** [selectFromGroup] when [arrivals] are the reactions that ran before its
    continuation: the decisive ones and any number of later ones. *)
Definition selectFromGroup (mode : Mode) (count : nat) (arrivals : list arrival) : option reaction :=
  let '(s, ads) := observe_all (no_outcomes count) arrivals in
  react mode count s <$> combinator mode count ads.

(** The same over an owned group: its publication. *)
Definition select_owned (g : nat) (r : reaction) : M Selection :=
  match r with
  | Publishes chosen s => do! _ := publish g chosen in ret s
  | Rethrows | Invalid =>
      fun s => (Completion.Thrown (Completion.mkStandard Completion.native_exception "invalid settlement" "can:coordination"), s)
  end.

(** [settle] and [settleWithContext] up to the first await: the group, or the
    exception of the launch after [abort]. *)
Definition settle_launch (x : Execution) (captures : list (list nat)) (abort : root -> root) : M nat :=
  fun s =>
    match prepareLaunch x captures false s with
    | (Completion.Thrown f, s') => (Completion.Thrown f, abort s')
    | r => r
    end.

(** ** Dispatch *)

Section handlers.
Context {W : Type}.

(** A handler answers the completion of the boundary [invoke] around it. *)
Record Handlers : Type := mkHandlers {
  each : nat -> option completion -> W -> completion * W;
  shared : nat -> completion -> W -> completion * W;
  allFailed : list (option completion) -> W -> completion * W
}.

(** The arms of a whole selection in index order; a failure ends the loop. *)
Fixpoint arms (hs : Handlers) (collect : bool) (i : nat) (os : list (option completion)) (values : list value) (w : W)
    : (completion + list value) * W :=
  match os with
  | [] => (inr values, w)
  | o :: os =>
      match each hs i o w with
      | (COk v, w) => arms hs collect (S i) os (if collect then values ++ [v] else values) w
      | (c, w) => (inl c, w)
      end
  end.

(** [handle]; the collected values become a fresh frozen array. *)
Definition handle (sel : Selection) (hs : Handlers) (collect : bool) (h : heap) (w : W) : completion * heap * W :=
  match sel with
  | SelOne i c => let '(r, w) := shared hs i c w in (r, h, w)
  | AllFailed os => let '(r, w) := allFailed hs os w in (r, h, w)
  | SelAll os =>
      match arms hs collect 0 os [] w with
      | (inl c, w) => (c, h, w)
      | (inr values, w) =>
          if collect then let '(v, h) := array h values in (COk v, h, w) else (COk VUndefined, h, w)
      end
  end.
End handlers.
Arguments Handlers W : clear implicits.

(** ** Aggregate failures *)

(** [errorPayload], or the opaque value of a standard failure. *)
Definition failure_payload (s : occurrences) (c : completion) : res value :=
  match c with
  | COk _ => Throw "successful aggregate member"
  | CDomain token => let! d := domainFailureDiagnostics s token in Ret (payload d)
  | CStandard _ v => Ret v
  end.

Definition aggregate (rt : runtime) (h : heap) (s : occurrences) (outcomes : list completion) (identity : jstr)
    : res (completion * heap * occurrences) :=
  let! failures := map_res (failure_payload s) outcomes in
  let '(list, h) := array h failures in
  let! (payload, h) := record h identity [(js "failures", list)] in
  let! (token, s) := create rt h s identity payload VUndefined in
  Ret (CDomain token, h, s).

(** Two failures before a success: [any] answers the success and publishes the
    failures with it. *)
Example any_publishes_failures :
  selectFromGroup any 3 [mkArrival 2 (Some (CDomain 7)); mkArrival 0 (Some (COk VNull)); mkArrival 1 (Some (CDomain 8))]
  = Some (Publishes [2; 0]%nat (SelOne 0 (COk VNull))).
Proof. reflexivity. Qed.
