(* ===== verification/Contexts.v ===== *)
(** * Assertion contexts

    [src/runtime/assert/context.ts]: the state that generated code carries through
    an assertion.  A context is the view of one invocation: the root's shared state,
    the identity of [Lineage] and the frame of [Barrier].  The shared state is
    threaded; a throw keeps what was changed before it.  Origins are abstract, and
    what [report.ts] records as evidence is the set of its labels. *)
From stdpp Require Import base gmap list strings.
From Stdlib Require Import ZArith Lia.
From S2P Require Import Prelude JsNumber JsString Lineage Barrier FixtureQueue Coordination.

(** ** Evidence ([report.ts]) *)

Inductive EvidenceLabel : Type :=
| real_can | supplied_completion | raw_provider_fixture | policy_fixture | bun_conformance | live_quality.
Inductive EvidenceScope : Type := scope_assertion | scope_bun_conformance | scope_live_quality.

#[global] Instance EvidenceLabel_eq_dec : EqDecision EvidenceLabel.
Proof. solve_decision. Defined.

Record Evidence : Type := mkEvidence { scope : EvidenceScope; labels : list EvidenceLabel }.

Definition createEvidence (s : EvidenceScope) : Evidence := mkEvidence s [].

(** A label of a job needs a record of that job. *)
Definition admitted_label (s : EvidenceScope) (l : EvidenceLabel) : bool :=
  match l, s with
  | bun_conformance, scope_bun_conformance | live_quality, scope_live_quality => true
  | bun_conformance, _ | live_quality, _ => false
  | _, _ => true
  end.
Definition recordEvidence (e : Evidence) (l : EvidenceLabel) : res Evidence :=
  if admitted_label (scope e) l
  then Ret (mkEvidence (scope e) (if bool_decide (l ∈ labels e) then labels e else labels e ++ [l]))
  else Throw "evidence requires an explicit matching job".

(** The label's text; the report is sorted by it. *)
Definition label_text (l : EvidenceLabel) : jstr :=
  js match l with
     | real_can => "real-can" | supplied_completion => "supplied-completion"
     | raw_provider_fixture => "raw-provider-fixture" | policy_fixture => "policy-fixture"
     | bun_conformance => "bun-conformance" | live_quality => "live-quality"
     end.
Definition evidenceReport (e : Evidence) : list jstr := sort_strings (label_text <$> labels e).

(** One count per label over the records of several jobs. *)
Definition evidenceLabels : list EvidenceLabel :=
  [real_can; supplied_completion; raw_provider_fixture; policy_fixture; bun_conformance; live_quality].
Definition evidenceSummary (es : list Evidence) : list (EvidenceLabel * nat) :=
  (fun l => (l, length (filter (fun e => l ∈ labels e) es))) <$> evidenceLabels.

(** ** Shared state *)

Inductive Violation : Type :=
| v_missing | v_argument | v_ambiguous | v_malformed | v_live | v_unused | v_outcome.

#[global] Instance Violation_eq_dec : EqDecision Violation.
Proof. solve_decision. Defined.

Definition violation_of (p : QueueProblem) : Violation :=
  match p with
  | missing_fixture => v_missing | ambiguous_fixture => v_ambiguous
  | unused_fixture => v_unused | unexpected_live_boundary => v_live
  end.

(** An origin: its name, and whether it has a reserving invocation. *)
Record FailureOrigin : Type := mkOrigin { origin_source : jstr; has_invocation : bool }.

Record FixturePathDiagnostic : Type := mkDiagnostic {
  dg_reason : Violation; dg_expected : option Allocation; dg_actual : InvocationPath; dg_origin : option FailureOrigin
}.

Record TableUse : Type := mkUse { tu_used : Z; tu_total : Z; tu_origin : FailureOrigin }.

Record SharedState : Type := mkShared {
  lin : lineage;
  barrier : Barrier.State;
  queues : FixtureQueue.State;
  paths : list FixturePathDiagnostic;
  origins : gmap jstr FailureOrigin;
  root_of : RootIdentity;
  violations : list Violation;
  evidence : Evidence;
  cx_closed : bool;
  fixture_tables : list (jstr * TableUse);
  links : list (jstr * bool)
}.

(** A view. *)
Record View : Type := mkView { v_identity : nat; v_frame : nat }.

Definition set_barrier (s : SharedState) (b : Barrier.State) : SharedState :=
  mkShared (lin s) b (queues s) (paths s) (origins s) (root_of s) (violations s) (evidence s) (cx_closed s)
    (fixture_tables s) (links s).
Definition set_lineage (s : SharedState) (L : lineage) : SharedState :=
  mkShared L (barrier s) (queues s) (paths s) (origins s) (root_of s) (violations s) (evidence s) (cx_closed s)
    (fixture_tables s) (links s).
Definition set_queues (s : SharedState) (q : FixtureQueue.State) : SharedState :=
  mkShared (lin s) (barrier s) q (paths s) (origins s) (root_of s) (violations s) (evidence s) (cx_closed s)
    (fixture_tables s) (links s).
Definition set_origins (s : SharedState) (o : gmap jstr FailureOrigin) : SharedState :=
  mkShared (lin s) (barrier s) (queues s) (paths s) o (root_of s) (violations s) (evidence s) (cx_closed s)
    (fixture_tables s) (links s).
Definition set_evidence (s : SharedState) (e : Evidence) : SharedState :=
  mkShared (lin s) (barrier s) (queues s) (paths s) (origins s) (root_of s) (violations s) e (cx_closed s)
    (fixture_tables s) (links s).
Definition set_tables (s : SharedState) (ts : list (jstr * TableUse)) : SharedState :=
  mkShared (lin s) (barrier s) (queues s) (paths s) (origins s) (root_of s) (violations s) (evidence s) (cx_closed s)
    ts (links s).
Definition set_links (s : SharedState) (ls : list (jstr * bool)) : SharedState :=
  mkShared (lin s) (barrier s) (queues s) (paths s) (origins s) (root_of s) (violations s) (evidence s) (cx_closed s)
    (fixture_tables s) ls.
Definition set_closed (s : SharedState) : SharedState :=
  mkShared (lin s) (barrier s) (queues s) (paths s) (origins s) (root_of s) (violations s) (evidence s) true
    (fixture_tables s) (links s).
Definition add_violation (s : SharedState) (d : FixturePathDiagnostic) : SharedState :=
  mkShared (lin s) (barrier s) (queues s) (paths s ++ [d]) (origins s) (root_of s) (violations s ++ [dg_reason d])
    (evidence s) (cx_closed s) (fixture_tables s) (links s).

(** What an operation throws: the standard failure of a violation, or a
    [TypeError]. *)
Inductive context_throw : Type := Violated (v : Violation) | Broken (message : string).

(** ** State passing with exceptions *)

Definition C (A : Type) : Type := SharedState -> (A + context_throw) * SharedState.
Definition ret {A} (a : A) : C A := fun s => (inl a, s).
Definition fail {A} (t : context_throw) : C A := fun s => (inr t, s).
Definition bind {A B} (m : C A) (k : A -> C B) : C B :=
  fun s => match m s with (inl a, s) => k a s | (inr t, s) => (inr t, s) end.

Notation "'cx!' x ':=' c1 'in' c2" := (bind c1 (fun x => c2))
  (at level 10, x pattern, c1 at level 100, c2 at level 200) : res_scope.

(** A lineage or barrier operation on the shared state. *)
Definition on_lineage {A} (f : lineage -> res (A * lineage)) : C A :=
  fun s => match f (lin s) with Ret (a, L) => (inl a, set_lineage s L) | Throw m => (inr (Broken m), s) end.
Definition on_barrier (f : Barrier.State -> res Barrier.State) : C unit :=
  fun s => match f (barrier s) with Ret b => (inl tt, set_barrier s b) | Throw m => (inr (Broken m), s) end.
Definition read_path (identity : nat) : C InvocationPath :=
  fun s => match invocationPath (lin s) identity with Ret p => (inl p, s) | Throw m => (inr (Broken m), s) end.

(** [compareInvocations] with the root does not throw. *)
Definition orderable (s : SharedState) (identity : nat) : bool :=
  match compareInvocations (lin s) (q_root (queues s)) identity with Ret _ => true | Throw _ => false end.

Definition reserve (identity : nat) : C nat :=
  fun s =>
    match reserveFrame (barrier s) identity (orderable s identity) with
    | Ret (f, b) => (inl f, set_barrier s b)
    | Throw m => (inr (Broken m), s)
    end.

Definition makeView (identity : nat) : C View := cx! f := reserve identity in ret (mkView identity f).

(** ** Roots *)

Fixpoint has_duplicate (l : list jstr) : bool :=
  match l with [] => false | x :: l => bool_decide (x ∈ l) || has_duplicate l end.

Definition assertionContext (root : RootIdentity) (scenario_links : list jstr) : (View + context_throw) * option SharedState :=
  if bool_decide (package root = []) || bool_decide (declaration root = []) || bool_decide (root_name root = [])
  then (inr (Broken "incomplete assertion root"), None)
  else if existsb (fun l => bool_decide (l = [])) scenario_links || has_duplicate scenario_links
  then (inr (Broken "invalid scenario links"), None)
  else
    match rootIdentity no_lineage root with
    | Throw m => (inr (Broken m), None)
    | Ret (id, L) =>
        match recordEvidence (createEvidence scope_assertion) real_can, fixtureQueues L id with
        | Ret e, Got q =>
            let s := mkShared L createBarrier q [] ∅ root [] e false [] ((fun l => (l, false)) <$> scenario_links) in
            match (cx! v := makeView id in cx! _ := on_barrier (fun b => startFrame b (v_frame v)) in ret v) s with
            | (r, s) => (r, Some s)
            end
        | _, _ => (inr (Broken "invalid invocation identity"), None)
        end
    end.

(** ** Violations *)

Definition violation (v : Violation) (o : FailureOrigin) (expected : option Allocation) (actual : InvocationPath)
    : C unit :=
  fun s => (inl tt, add_violation s (mkDiagnostic v expected actual (if has_invocation o then Some o else None))).

(** [violation] with the path of the context, thrown. *)
Definition throw_violation {A} (view : View) (v : Violation) (o : FailureOrigin) (expected : option Allocation) : C A :=
  cx! actual := read_path (v_identity view) in
  cx! _ := violation v o expected actual in
  fail (Violated v).

Definition denyLiveBoundary (context : option View) (o : FailureOrigin) : C unit :=
  match context with
  | None => ret tt
  | Some view => fun s => throw_violation view (if cx_closed s then v_live else v_missing) o None s
  end.

Definition useScenarioLink (scenario : jstr) : C unit :=
  fun s => (inl tt, set_links s ((fun l => if bool_decide (l.1 = scenario) then (l.1, true) else l) <$> links s)).

Definition record_label (l : EvidenceLabel) : C unit :=
  fun s => match recordEvidence (evidence s) l with
           | Ret e => (inl tt, set_evidence s e)
           | Throw m => (inr (Broken m), s)
           end.
Definition suppliedEvidence : C unit := record_label supplied_completion.
Definition rawProviderEvidence : C unit := record_label raw_provider_fixture.
Definition policyFixtureEvidence : C unit := record_label policy_fixture.

(** ** Indexed fixture tables *)

Definition table_get (ts : list (jstr * TableUse)) (k : jstr) : option TableUse := snd <$> find (fun p => bool_decide (p.1 = k)) ts.
Fixpoint table_set (ts : list (jstr * TableUse)) (k : jstr) (t : TableUse) : list (jstr * TableUse) :=
  match ts with
  | [] => [(k, t)]
  | (k', t') :: ts => if bool_decide (k' = k) then (k, t) :: ts else (k', t') :: table_set ts k t
  end.

Definition registerFixtureTable (view : View) (table : jstr) (total : Z) (o : FailureOrigin) : C unit :=
  fun s =>
    if cx_closed s then throw_violation view v_live o None s
    else
      match table_get (fixture_tables s) table with
      | Some t => if tu_total t =? total then (inl tt, s) else throw_violation view v_ambiguous o None s
      | None => (inl tt, set_tables s (table_set (fixture_tables s) table (mkUse 0 total o)))
      end.

Definition fixtureIndex (view : View) (table : jstr) (total : Z) (o : FailureOrigin) : C Z :=
  cx! _ := registerFixtureTable view table total o in
  fun s =>
    match table_get (fixture_tables s) table with
    | Some t =>
        if tu_total t <=? tu_used t then throw_violation view v_missing o None s
        else (inl (tu_used t), set_tables s (table_set (fixture_tables s) table (mkUse (tu_used t + 1) (tu_total t) (tu_origin t))))
    | None => (inr (Broken "undefined"), s)
    end.

(** ** Closing *)

Fixpoint each {A} (f : A -> C unit) (l : list A) : C unit :=
  match l with [] => ret tt | a :: l => cx! _ := f a in each f l end.

Definition own_violation (view : View) (v : Violation) (o : FailureOrigin) (expected : option Allocation) : C unit :=
  cx! actual := read_path (v_identity view) in violation v o expected actual.

Definition linkOrigin : FailureOrigin := mkOrigin (js "can:assertion") false.

Definition close_table (view : View) (p : jstr * TableUse) : C unit :=
  if tu_used p.2 =? tu_total p.2 then ret tt else own_violation view v_unused (tu_origin p.2) None.
Definition close_problem (e : FixtureQueueError) : C unit :=
  fun s => match origins s !! al_table (expected e) with
           | Some o => violation (violation_of (reason e)) o (Some (expected e)) (actual e) s
           | None => (inr (Broken "undefined origin"), s)
           end.
Definition close_link (view : View) (l : jstr * bool) : C unit :=
  if l.2 then ret tt
  else
    cx! path := read_path (v_identity view) in
    violation v_unused linkOrigin (Some (mkAllocation l.1 0 path)) path.

Definition close_queues : C (list FixtureQueueError) :=
  fun s => let '(r, q) := closeQueues (lin s) (queues s) in
           match r with
           | Got problems => (inl problems, set_queues s q)
           | Problem _ => (inr (Broken "fixture"), set_queues s q)
           | Faulty m => (inr (Broken m), set_queues s q)
           end.

Definition closeContext (view : View) : C unit :=
  cx! _ := (fun s => each (close_table view) (fixture_tables s) s) in
  cx! problems := close_queues in
  cx! _ := each close_problem problems in
  cx! _ := (fun s => each (close_link view) (links s) s) in
  fun s => (inl tt, set_closed s).

(** ** Calls *)

Definition finishAssertionExecution (view : View) : C unit := on_barrier (fun b => finishFrame b (v_frame view)).

(** [callContext] around a body that runs with the child's view; the [finally]
    replaces an exception of the body by its own. *)
Definition callContext {A} (context : option View) (at_ : jstr) (callable : option nat) (run : option View -> C A) : C A :=
  match context with
  | None => run None
  | Some parent =>
      cx! id := on_lineage (fun L => invocationIdentity L (v_identity parent) at_ callable) in
      cx! child := makeView id in
      cx! _ := on_barrier (fun b => suspendFrame b (v_frame parent)) in
      cx! _ := on_barrier (fun b => startFrame b (v_frame child)) in
      fun s =>
        let '(r, s) := run (Some child) s in
        match (cx! _ := on_barrier (fun b => finishFrame b (v_frame child)) in
               on_barrier (fun b => resumeFrame b (v_frame parent))) s with
        | (inr t, s) => (inr t, s)
        | (inl _, s) => (r, s)
        end
  end.

(** [scheduledFixture] up to its await, and the allocation when the barrier
    releases the request. *)
Definition schedule_fixture (view : View) (table : jstr) (o : FailureOrigin) : C unit :=
  cx! _ := (fun s => (inl tt, set_origins s (<[table := o]> (origins s)))) in
  on_barrier (fun b => fixtureEvent b (v_frame view)).

Definition released_fixture (view : View) (table : jstr) (total : num) (o : FailureOrigin) : C Allocation :=
  fun s =>
    let '(r, q) := allocateFixture (lin s) (queues s) table total (v_identity view) in
    let s := set_queues s q in
    match r with
    | Got a => (inl a, s)
    | Problem e =>
        (cx! _ := violation (violation_of (reason e)) o (Some (expected e)) (actual e) in
         fail (Violated (violation_of (reason e)))) s
    | Faulty m => (inr (Broken m), s)
    end.

Definition fixtureMismatch (view : View) (a : Allocation) (v : Violation) (o : FailureOrigin) : C unit :=
  own_violation view v o (Some a).

(** ** Coordination frames *)

(** The closure of [coordinationContexts]. *)
Record CoordinationContexts : Type := mkCoordination {
  co_parent : View;
  co_mode : Mode;
  children : list View;
  started : list nat;
  seen : list nat;
  gate : option nat;
  returned : bool
}.

Fixpoint make_views (ids : list nat) : C (list View) :=
  match ids with
  | [] => ret []
  | id :: ids => cx! v := makeView id in cx! vs := make_views ids in ret (v :: vs)
  end.

Definition selection_site : jstr := js "can:assertion-selection#0".

(** A running frame that keeps the barrier from releasing a fixture. *)
Definition open_gate (parent : View) : C nat :=
  cx! id := on_lineage (fun L => invocationIdentity L (v_identity parent) selection_site None) in
  cx! f := reserve id in
  cx! _ := on_barrier (fun b => startFrame b f) in
  ret f.

Definition coordinationContexts (parent : View) (at_ : jstr) (positions : list (list Z)) (mode : Mode) : C CoordinationContexts :=
  cx! ids := on_lineage (fun L => participantIdentities L (v_identity parent) at_ positions) in
  cx! views := make_views ids in
  cx! g := (if bool_decide (views = []) && negb (bool_decide (mode = race))
            then cx! f := open_gate parent in ret (Some f) else ret None) in
  cx! _ := on_barrier (fun b => suspendFrame b (v_frame parent)) in
  ret (mkCoordination parent mode views [] [] g false).

(** The operations change the closure and the shared state. *)
Definition K (A : Type) : Type := CoordinationContexts -> SharedState -> (A + context_throw) * CoordinationContexts * SharedState.

Definition with_started (k : CoordinationContexts) (i : nat) : CoordinationContexts :=
  mkCoordination (co_parent k) (co_mode k) (children k) (started k ++ [i]) (seen k) (gate k) (returned k).
Definition with_seen (k : CoordinationContexts) (i : nat) : CoordinationContexts :=
  mkCoordination (co_parent k) (co_mode k) (children k) (started k) (seen k ++ [i]) (gate k) (returned k).
Definition with_gate (k : CoordinationContexts) (g : nat) : CoordinationContexts :=
  mkCoordination (co_parent k) (co_mode k) (children k) (started k) (seen k) (Some g) (returned k).
Definition with_returned (k : CoordinationContexts) : CoordinationContexts :=
  mkCoordination (co_parent k) (co_mode k) (children k) (started k) (seen k) (gate k) true.

Definition start (i : nat) : K unit := fun k s =>
  match children k !! i with
  | None => (inr (Broken "invalid participant index"), k, s)
  | Some v =>
      if bool_decide (i ∈ started k) then (inr (Broken "participant already started"), k, s)
      else
        match on_barrier (fun b => startFrame b (v_frame v)) s with
        | (inl _, s) => (inl tt, with_started k i, s)
        | (inr t, s) => (inr t, k, s)
        end
  end.

Definition ready (k : CoordinationContexts) (c : completion) : bool :=
  match co_mode k with
  | race => true
  | all => (length (seen k) =? length (children k))%nat || negb (is_ok c)
  | any => (length (seen k) =? length (children k))%nat || is_ok c
  | settled => (length (seen k) =? length (children k))%nat
  end.

Definition observed (i : nat) (c : completion) : K unit := fun k s =>
  match children k !! i with
  | None => (inr (Broken "invalid participant index"), k, s)
  | Some v =>
      if negb (bool_decide (i ∈ started k)) || bool_decide (i ∈ seen k)
      then (inr (Broken "invalid participant observation"), k, s)
      else
        let k := with_seen k i in
        match (if ready k c && negb (returned k) && bool_decide (gate k = None)
               then (cx! f := open_gate (co_parent k) in ret (Some f)) s else (inl (gate k), s)) with
        | (inr t, s) => (inr t, k, s)
        | (inl g, s) =>
            let k := match g with Some g => with_gate k g | None => k end in
            match on_barrier (fun b => finishFrame b (v_frame v)) s with
            | (inl _, s) => (inl tt, k, s)
            | (inr t, s) => (inr t, k, s)
            end
        end
  end.

(** The end of [selected] and [abort]. *)
Definition resume_parent (k : CoordinationContexts) : C unit :=
  cx! _ := on_barrier (fun b => resumeFrame b (v_frame (co_parent k))) in
  match gate k with Some g => on_barrier (fun b => finishFrame b g) | None => ret tt end.

Definition selected : K unit := fun k s =>
  if returned k then (inr (Broken "coordination already resumed"), k, s)
  else let k := with_returned k in let '(r, s) := resume_parent k s in (r, k, s).

Definition abort : K unit := fun k s =>
  if returned k || negb (bool_decide (started k = [])) then (inr (Broken "cannot abandon started coordination"), k, s)
  else
    match each (fun v => on_barrier (fun b => abandonFrame b (v_frame v))) (children k) s with
    | (inr t, s) => (inr t, k, s)
    | (inl _, s) => let k := with_returned k in let '(r, s) := resume_parent k s in (r, k, s)
    end.
