(* ===== verification/ContextTheorems.v ===== *)
(** * Properties of assertion contexts *)
From stdpp Require Import base gmap list strings.
From Stdlib Require Import ZArith Lia.
From S2P Require Import Prelude JsNumber JsString Data Lineage Barrier BarrierTheorems FixtureQueue Coordination Contexts.

(** ** Frames of the barrier *)

Definition phase_of (b : Barrier.State) (f : nat) : option Phase := fs_phase <$> entries b !! f.

(** The frame a move changes. *)
Definition touched (m : move) : option nat :=
  match m with
  | Start f | Suspend f | Resume f | Finish f | Abandon f | Fixture f => Some f
  | Barrier.Reserve _ _ | Microtask => None
  end.

Lemma set_phase_other b f p g : f <> g -> phase_of (set_phase b f p) g = phase_of b g.
Proof.
  intros Hne. unfold phase_of, set_phase. destruct (entries b !! f); [| done]. cbn. by rewrite list_lookup_insert_ne.
Qed.

Lemma set_phase_same b f p : is_Some (phase_of b f) -> phase_of (set_phase b f p) f = Some p.
Proof.
  unfold phase_of, set_phase. destruct (entries b !! f) eqn:Hf; [| by intros []]. intros _. cbn.
  by rewrite list_lookup_insert_eq by by apply lookup_lt_Some in Hf.
Qed.

Lemma transition_spec b f p q b' :
  transition b f p q = Ret b' ->
  phase_of b f = Some p /\ phase_of b' f = Some q /\ (forall g, g <> f -> phase_of b' g = phase_of b g)
  /\ history b' = history b /\ length (entries b') = length (entries b).
Proof.
  unfold transition. destruct (entries b !! f) as [e|] eqn:Hf; [| done]. case_bool_decide as Hp; [| done]. cbn.
  intros [= <-]. assert (phase_of b f = Some p) as Hb by (unfold phase_of; by rewrite Hf, <- Hp). split_and!; [done | | | |].
  - change (phase_of (set_phase b f q) f = Some q). apply set_phase_same. by rewrite Hb.
  - intros g Hg. by apply set_phase_other.
  - cbn. by destruct (set_phase_rest b f q) as (_ & _ & _ & _ & _ & _ & -> & _).
  - cbn. destruct (set_phase_rest b f q) as (_ & _ & _ & _ & _ & _ & _ & He).
    apply (f_equal length) in He. by rewrite !length_fmap in He.
Qed.

Lemma transition_enabled b f p q : phase_of b f = Some p -> exists b', transition b f p q = Ret b'.
Proof.
  unfold phase_of, transition. destruct (entries b !! f) as [e|]; [| done]. intros [= <-]. rewrite bool_decide_true by done. by eexists.
Qed.

Lemma running_blocks b g : Inv b -> phase_of b g = Some running -> active b <> 0.
Proof.
  intros Hi Hg Ha. rewrite (b_active _ Hi) in Ha. apply blockers_zero in Ha. unfold phase_of in Hg.
  destruct (entries b !! g) as [e|] eqn:He; [| done]. rewrite Forall_forall in Ha.
  specialize (Ha e (list_elem_of_lookup_2 _ _ _ He)). injection Hg as Hg. by rewrite Hg in Ha.
Qed.

(** A running frame that nobody else moves keeps every fixture waiting. *)
Lemma act_holds comparator b g m :
  Inv b -> phase_of b g = Some running -> touched m <> Some g ->
  let b' := act comparator b m in
  Inv b' /\ phase_of b' g = Some running /\ history b' = history b /\ (length (entries b) <= length (entries b'))%nat.
Proof.
  intros Hi Hg Hm. cbn zeta. split; [by apply barrier_act_inv |].
  assert (forall f p q, f <> g -> forall b', transition b f p q = Ret b' ->
    phase_of b' g = Some running /\ history b' = history b /\ (length (entries b) <= length (entries b'))%nat) as Htr.
  { intros f p q Hf b' Hb. destruct (transition_spec _ _ _ _ _ Hb) as (_ & _ & Ho & Hh & Hl).
    rewrite Ho by done. split_and!; [done | done | lia]. }
  destruct m as [id known | f | f | f | f | f | f |]; cbn [act touched] in *;
    try (unfold startFrame, suspendFrame, resumeFrame, finishFrame, abandonFrame;
         destruct (transition _ _ _ _) as [b'|] eqn:Hb; cbn; [eapply Htr; [| exact Hb]; congruence | by split_and!]).
  - unfold reserveFrame. destruct known; cbn; [| by split_and!]. case_bool_decide; cbn; [by split_and! |].
    rewrite length_app. unfold phase_of in *. cbn. split_and!; [| done | lia]. destruct (entries b !! g) eqn:He; [| done].
    by rewrite (lookup_app_l_Some _ _ _ _ He).
  - unfold fixtureEvent. destruct (entries b !! f) as [e|] eqn:He; cbn; [| by split_and!].
    case_bool_decide; cbn; [| by split_and!]. assert (f <> g) as Hf by congruence.
    destruct (set_phase_rest b f fixture) as (_ & _ & _ & _ & _ & _ & Hh & Hl).
    split_and!; [by rewrite <- Hg; apply (set_phase_other b f fixture g) | exact Hh |].
    apply (f_equal length) in Hl. rewrite !length_fmap in Hl. lia.
  - unfold microtask. destruct (queued b); [| by split_and!]. cbn [negb active].
    rewrite (proj2 (Z.eqb_neq (active b) 0)) by by eapply running_blocks. by split_and!.
Qed.

Lemma moves_hold comparator g moves : forall b,
  Inv b -> phase_of b g = Some running -> Forall (fun m => touched m <> Some g) moves ->
  let b' := fold_left (act comparator) moves b in
  Inv b' /\ phase_of b' g = Some running /\ history b' = history b.
Proof.
  induction moves as [|m moves IH]; intros b Hi Hg Hm; cbn; [done |]. apply Forall_cons in Hm as [Hm Hms].
  destruct (act_holds comparator b g m Hi Hg Hm) as (Hi1 & Hg1 & Hh1 & _).
  destruct (IH _ Hi1 Hg1 Hms) as (Hi2 & Hg2 & Hh2). split_and!; [done | done | congruence].
Qed.

(** ** The gate of a decided form *)

Definition frames_valid (k : CoordinationContexts) (b : Barrier.State) : Prop :=
  Forall (fun v => (v_frame v < length (entries b))%nat) (children k).
Definition gate_running (k : CoordinationContexts) (b : Barrier.State) : Prop :=
  forall g, gate k = Some g -> phase_of b g = Some running /\ Forall (fun v => v_frame v <> g) (children k).

Lemma on_barrier_ok f s u s' : on_barrier f s = (inl u, s') -> exists b, f (barrier s) = Ret b /\ s' = set_barrier s b.
Proof. unfold on_barrier. destruct (f (barrier s)) as [b|]; [| done]. intros [= _ <-]. by exists b. Qed.

Lemma open_gate_spec parent s g s' :
  Inv (barrier s) -> open_gate parent s = (inl g, s') ->
  g = length (entries (barrier s)) /\ phase_of (barrier s') g = Some running /\ Inv (barrier s')
  /\ history (barrier s') = history (barrier s)
  /\ (forall f, (f < g)%nat -> phase_of (barrier s') f = phase_of (barrier s) f).
Proof.
  intros Hi. unfold open_gate, bind, on_lineage. destruct (invocationIdentity _ _ _ _) as [[id L]|]; [| done].
  unfold reserve. destruct (reserveFrame _ id _) as [[f b]|] eqn:Hr; [| done].
  destruct (on_barrier _ _) as [[u|] s1] eqn:Hs; [| done]. intros [= <- <-].
  apply on_barrier_ok in Hs as (b1 & Hb1 & ->). cbn in *.
  assert (act (fun _ _ => None) (barrier s) (Barrier.Reserve id (orderable (set_lineage s L) id)) = b) as Hact
    by (cbn [act]; unfold reserveFrame in *; cbn in Hr; destruct (orderable _ id); [| done]; cbn in *; by case_bool_decide; simplify_eq).
  assert (act (fun _ _ => None) b (Start f) = b1) as Hact1 by (cbn [act]; by rewrite Hb1).
  assert (Inv b1) as Hi1 by (rewrite <- Hact1, <- Hact; by do 2 apply barrier_act_inv).
  destruct (transition_spec _ _ _ _ _ Hb1) as (_ & Hrun & Hother & Hh & _).
  unfold reserveFrame in Hr. destruct (orderable _ id); cbn in Hr; [| done]. case_bool_decide; [done |]. injection Hr as <- <-.
  split_and!; [done | done | done | by rewrite Hh |]. intros f' Hf. rewrite Hother by lia. unfold phase_of. cbn.
  by rewrite lookup_app_l by done.
Qed.

(** The gate of a ready form: the one that runs already, or a new one. *)
Lemma observed_gate k s i v r :
  r = (if bool_decide (gate k = None) then (cx! f := open_gate (co_parent k) in ret (Some f)) s else (inl (gate k), s)) ->
  Inv (barrier s) -> frames_valid k (barrier s) -> gate_running k (barrier s) -> children k !! i = Some v ->
  (exists g s1, r = (inl (Some g), s1)
    /\ phase_of (barrier s1) g = Some running /\ Inv (barrier s1) /\ history (barrier s1) = history (barrier s) /\ v_frame v <> g)
  \/ (exists t s1, r = (inr t, s1)).
Proof.
  intros -> Hi Hv Hg Hc%list_elem_of_lookup_2. unfold frames_valid in Hv. rewrite Forall_forall in Hv. specialize (Hv v Hc).
  destruct (gate k) as [g0|] eqn:Hgk.
  - left. rewrite bool_decide_false by done. exists g0, s. destruct (Hg g0 Hgk) as [Hr0 Hn0]. split_and!; try done.
    rewrite Forall_forall in Hn0. by apply Hn0.
  - rewrite bool_decide_true by done. unfold bind. destruct (open_gate (co_parent k) s) as [[g|t] s1] eqn:Ho; [left | by right; eexists _, _].
    destruct (open_gate_spec _ _ _ _ Hi Ho) as (-> & Hr & Hi1 & Hh & _). eexists _, _. split; [done |].
    split_and!; try done. lia.
Qed.

(** (A decided form holds the fixtures.)  When an observation makes the selection
    of a coordination form ready, a gate frame runs: whatever moves the other
    frames of the assertion make and however many microtasks run before the form's
    continuation, the barrier releases and rejects no fixture request; then
    [selected] resumes the parent and ends the gate. *)
Theorem decided_form_holds_fixtures comparator k s i c k' s' moves :
  Inv (barrier s) -> frames_valid k (barrier s) -> gate_running k (barrier s) -> returned k = false ->
  ready (with_seen k i) c = true -> Contexts.observed i c k s = (inl tt, k', s') ->
  Forall (fun m => touched m <> gate k') moves ->
  exists g, gate k' = Some g
  /\ let b := fold_left (act comparator) moves (barrier s') in
     history b = history (barrier s)
     /\ phase_of b g = Some running
     /\ (g <> v_frame (co_parent k) -> phase_of b (v_frame (co_parent k)) = Some waiting ->
         exists k2 s2, Contexts.selected k' (set_barrier s' b) = (inl tt, k2, s2)
           /\ phase_of (barrier s2) (v_frame (co_parent k)) = Some running
           /\ phase_of (barrier s2) g = Some done_ /\ history (barrier s2) = history (barrier s)).
Proof.
  intros Hi Hv Hg Hret Hready Hobs Hm. unfold Contexts.observed in Hobs.
  destruct (children k !! i) as [v|] eqn:Hc; [| done]. destruct (_ || _) in Hobs; [done |].
  rewrite Hready in Hobs. cbn [returned with_seen] in Hobs. rewrite Hret in Hobs. cbn [negb andb] in Hobs.
  destruct (observed_gate k s i v _ eq_refl Hi Hv Hg Hc) as [(g & s1 & Hgate & Hrun & Hi1 & Hh1 & Hne) | (t & s1 & Hgate)];
    cbn [gate with_seen co_parent] in Hobs; rewrite Hgate in Hobs; [| done].
  destruct (on_barrier _ s1) as [[[]|] s2] eqn:Hf; [| done]. injection Hobs as <- <-.
  apply on_barrier_ok in Hf as (b2 & Hb2 & ->).
  assert (Inv b2) as Hi2.
  { replace b2 with (act (fun _ _ => None) (barrier s1) (Finish (v_frame v))) by (cbn [act]; by rewrite Hb2). by apply barrier_act_inv. }
  destruct (transition_spec _ _ _ _ _ Hb2) as (_ & _ & Hother & Hh2 & _).
  exists g. split; [done |]. cbn [barrier set_barrier] in *. cbn [gate with_gate] in Hm.
  destruct (moves_hold comparator g moves b2) as (Hi3 & Hg3 & Hh3); [done | by rewrite Hother | done |].
  cbn zeta. split_and!; [congruence | done |]. intros Hpg Hpar.
  set (b := fold_left _ _ b2) in *. unfold Contexts.selected. cbn [returned with_gate with_seen]. rewrite Hret.
  unfold resume_parent, bind. cbn [co_parent with_returned with_gate with_seen gate].
  destruct (transition_enabled b (v_frame (co_parent k)) waiting running Hpar) as [b3 Hb3].
  unfold on_barrier at 1. cbn [barrier set_barrier]. unfold resumeFrame. rewrite Hb3.
  destruct (transition_spec _ _ _ _ _ Hb3) as (_ & Hp3 & Ho3 & Hh4 & _).
  destruct (transition_enabled b3 g running done_) as [b4 Hb4]; [by rewrite Ho3 |].
  unfold on_barrier. cbn [barrier set_barrier]. unfold finishFrame. rewrite Hb4.
  destruct (transition_spec _ _ _ _ _ Hb4) as (_ & Hp4 & Ho4 & Hh5 & _).
  eexists _, _. split; [reflexivity |]. cbn. split_and!; [by rewrite Ho4 by congruence | done | congruence].
Qed.

(** A race of two participants under an assertion: the first one completes, and
    the other one asks for a fixture before the form continues. *)
Definition demo_race : (unit + context_throw) * CoordinationContexts * SharedState :=
  match assertionContext (mkRootIdentity (js "p") (js "d") (js "n")) [] with
  | (inl view, Some s) =>
      match coordinationContexts view (js "f#0") [[0]; [1]] race s with
      | (inl k, s) =>
          match start 0 k s with
          | (inl _, k, s) => start 1 k s
          | r => r
          end
      | (inr t, s) => (inr t, mkCoordination view race [] [] [] None false, s)
      end
  | (_, _) => (inr (Broken "demo"), mkCoordination (mkView 0 0) race [] [] [] None false,
      mkShared no_lineage createBarrier (FixtureQueue.mkState 0 [] ∅ false) [] ∅ (mkRootIdentity [] [] []) []
        (createEvidence scope_assertion) false [] [])
  end.

Definition demo_observed : (unit + context_throw) * CoordinationContexts * SharedState :=
  let '(_, k, s) := demo_race in Contexts.observed 0 (COk VNull) k s.

Lemma decided_form_holds_fixtures_witness :
  exists g, gate demo_observed.1.2 = Some g
  /\ let b := fold_left (act (fun _ _ => Some 0)) [Fixture 2; Microtask; Microtask] (barrier demo_observed.2) in
     history b = history (barrier demo_race.2)
     /\ phase_of b g = Some running
     /\ (g <> v_frame (co_parent demo_race.1.2) -> phase_of b (v_frame (co_parent demo_race.1.2)) = Some waiting ->
         exists k2 s2, Contexts.selected demo_observed.1.2 (set_barrier demo_observed.2 b) = (inl tt, k2, s2)
           /\ phase_of (barrier s2) (v_frame (co_parent demo_race.1.2)) = Some running
           /\ phase_of (barrier s2) g = Some done_ /\ history (barrier s2) = history (barrier demo_race.2)).
Proof.
  apply (decided_form_holds_fixtures (fun _ _ => Some 0) demo_race.1.2 demo_race.2 0 (COk VNull)).
  - replace (barrier demo_race.2) with (run_moves (fun _ _ => Some 0)
      [Barrier.Reserve 0 true; Start 0; Barrier.Reserve 1 true; Barrier.Reserve 2 true; Suspend 0; Start 1; Start 2])
      by (vm_compute; reflexivity). apply barrier_run_inv.
  - unfold frames_valid. apply (bool_decide_unpack _). vm_compute. reflexivity.
  - intros g Hg. vm_compute in Hg. discriminate.
  - vm_compute. reflexivity.
  - vm_compute. reflexivity.
  - vm_compute. reflexivity.
  - apply (bool_decide_unpack _). vm_compute. reflexivity.
Defined.

(** ** Closing *)

Lemma bind_ok {A B} (m : C A) (k : A -> C B) s b s' :
  bind m k s = (inl b, s') -> exists a s1, m s = (inl a, s1) /\ k a s1 = (inl b, s').
Proof. unfold bind. destruct (m s) as [[a|t] s1]; [| done]. intros H. by exists a, s1. Qed.

(** What closing leaves alone while it adds violations. *)
Definition reports (n : nat) (s s' : SharedState) : Prop :=
  violations s' = violations s ++ replicate n v_unused
  /\ lin s' = lin s /\ queues s' = queues s /\ links s' = links s /\ fixture_tables s' = fixture_tables s.

Lemma reports_trans n m s s1 s2 : reports n s s1 -> reports m s1 s2 -> reports (n + m) s s2.
Proof.
  intros (Hv & H1 & H2 & H3 & H4) (Hv' & H1' & H2' & H3' & H4'). unfold reports.
  rewrite Hv', Hv, replicate_add, app_assoc. split_and!; congruence.
Qed.

Lemma each_reports {A} (f : A -> C unit) (P : A -> Prop) `{!forall a, Decision (P a)} (l : list A) :
  Forall (fun a => forall s s', f a s = (inl tt, s') -> reports (if decide (P a) then 1 else 0) s s') l ->
  forall s s', each f l s = (inl tt, s') -> reports (length (filter P l)) s s'.
Proof.
  induction 1 as [|a l Hf _ IH]; intros s s'; cbn [each].
  { intros [= <-]. unfold reports. by rewrite app_nil_r. }
  intros ([] & s1 & H1 & H2)%bind_ok. rewrite filter_cons. specialize (Hf _ _ H1). specialize (IH _ _ H2).
  destruct (decide (P a)); [by apply (reports_trans 1 _ s s1) | by apply (reports_trans 0 _ s s1)].
Qed.

Lemma reports_zero s : reports 0 s s.
Proof. unfold reports. by rewrite app_nil_r. Qed.

Lemma close_table_reports view p s s' :
  close_table view p s = (inl tt, s') -> reports (if decide (tu_used p.2 <> tu_total p.2) then 1 else 0) s s'.
Proof.
  unfold close_table. destruct (Z.eqb_spec (tu_used p.2) (tu_total p.2)) as [He | He].
  - intros [= <-]. rewrite decide_False by (intros ?; done). apply reports_zero.
  - rewrite decide_True by done. unfold own_violation, bind, read_path. destruct (invocationPath _ _); [| done].
    intros [= <-]. by unfold reports.
Qed.

Lemma close_link_reports view l s s' :
  close_link view l s = (inl tt, s') -> reports (if decide (l.2 = false) then 1 else 0) s s'.
Proof.
  unfold close_link. destruct l as [name [|]]; cbn [snd].
  - intros [= <-]. apply reports_zero.
  - unfold bind, read_path. destruct (invocationPath _ _); [| done]. intros [= <-]. by unfold reports.
Qed.

Lemma close_problem_reports e s s' :
  reason e = unused_fixture -> close_problem e s = (inl tt, s') -> reports 1 s s'.
Proof.
  unfold close_problem. intros He. destruct (origins s !! _); [| done]. rewrite He. intros [= <-]. by unfold reports.
Qed.

Lemma filter_true {A} (l : list A) : filter (fun _ => True) l = l.
Proof. induction l as [|x l IH]; [done |]. rewrite filter_cons, decide_True by done. by rewrite IH. Qed.

(** Everything that can be left over when a context closes. *)
Definition unused_count (s : SharedState) : nat :=
  length (filter (fun p => tu_used p.2 <> tu_total p.2) (fixture_tables s))
  + length (filter (fun p => used p.2 <> total p.2) (tables (queues s)))
  + length (filter (fun l => l.2 = false) (links s)).

(** (Closing finds every leftover.)  Closing a context adds one violation, "unused
    fixture", for each indexed table and each queue with rows left and for each
    scenario link that supplied no row, and nothing else; the context and its
    queues are closed afterwards, and every later live boundary is refused as
    unexpected.  So an assertion ends without violations exactly when it had none
    and used all of its fixtures. *)
Theorem closing_finds_leftovers view s s' :
  closeContext view s = (inl tt, s') ->
  violations s' = violations s ++ replicate (unused_count s) v_unused
  /\ (violations s' = [] <-> violations s = [] /\ unused_count s = 0%nat)
  /\ cx_closed s' = true /\ q_closed (queues s') = true
  /\ (forall o A (k : unit -> C A) p, invocationPath (lin s') (v_identity view) = Ret p ->
        (cx! u := denyLiveBoundary (Some view) o in k u) s'
        = (inr (Violated v_live), add_violation s' (mkDiagnostic v_live None p (if has_invocation o then Some o else None)))).
Proof.
  unfold closeContext. intros ([] & s1 & H1 & H)%bind_ok. apply bind_ok in H as (problems & s2 & H2 & H).
  apply bind_ok in H as ([] & s3 & H3 & H). apply bind_ok in H as ([] & s4 & H4 & [= <-]).
  apply (each_reports _ (fun p => tu_used p.2 <> tu_total p.2)) in H1;
    [| apply Forall_forall; intros p _; apply close_table_reports].
  unfold close_queues in H2. destruct (closeQueues (lin s1) (queues s1)) as [[ps| |] q] eqn:Hq; [| done..].
  injection H2 as -> <-. unfold closeQueues in Hq. destruct (q_closed (queues s1)); [done |]. injection Hq as Hu <-.
  destruct (unused_names _ _ _ Hu) as [Hn Hf].
  apply (each_reports _ (fun _ => True)) in H3;
    [| eapply Forall_impl; [exact Hf |]; intros e He t t' Ht; rewrite decide_True by done; by apply (close_problem_reports e)].
  apply (each_reports _ (fun l => l.2 = false)) in H4; [| apply Forall_forall; intros l _; apply close_link_reports].
  destruct H1 as (Hv1 & _ & Hq1 & Hl1 & _), H3 as (Hv3 & _ & Hq3 & Hl3 & _), H4 as (Hv4 & _ & Hq4 & Hl4 & _). cbn in Hv3, Hq3, Hl3, Hl4.
  assert (length (filter (fun _ : FixtureQueueError => True) problems) = length (filter (fun p => used p.2 <> total p.2) (tables (queues s)))) as Hlen.
  { rewrite filter_true. rewrite <- Hq1. apply (f_equal length) in Hn. by rewrite !length_fmap in Hn. }
  assert (violations s4 = violations s ++ replicate (unused_count s) v_unused) as Hv.
  { unfold unused_count. rewrite !replicate_add, Hv4, Hv3, Hv1, Hlen, Hl3, Hl1. by rewrite <- !app_assoc. }
  cbn. split_and!; [done | | done | by rewrite Hq4, Hq3 |].
  - rewrite Hv. split.
    + intros [H0 H1]%app_eq_nil. split; [done |]. by destruct (unused_count s).
    + by intros [-> ->].
  - intros o A k p Hp. unfold bind. cbn. unfold throw_violation, bind, read_path. cbn. by rewrite Hp.
Qed.

(** A root with one link, one of two indexed rows used and one of two queued rows. *)
Definition demo_leftovers : View * SharedState :=
  match assertionContext (mkRootIdentity (js "p") (js "d") (js "n")) [js "scenario"] with
  | (inl view, Some s) =>
      let o := mkOrigin (js "o") true in
      (view, ((cx! _ := fixtureIndex view (js "rows") 2 o in
               cx! _ := schedule_fixture view (js "queue") o in
               released_fixture view (js "queue") (num_of_Z 2) o) s).2)
  | (_, _) => (mkView 0 0, mkShared no_lineage createBarrier (FixtureQueue.mkState 0 [] ∅ false) [] ∅ (mkRootIdentity [] [] []) []
      (createEvidence scope_assertion) false [] [])
  end.

Lemma closing_finds_leftovers_witness :
  let view := demo_leftovers.1 in let s := demo_leftovers.2 in let s' := (closeContext view s).2 in
  violations s' = violations s ++ replicate (unused_count s) v_unused
  /\ (violations s' = [] <-> violations s = [] /\ unused_count s = 0%nat)
  /\ cx_closed s' = true /\ q_closed (queues s') = true
  /\ (forall o A (k : unit -> C A) p, invocationPath (lin s') (v_identity view) = Ret p ->
        (cx! u := denyLiveBoundary (Some view) o in k u) s'
        = (inr (Violated v_live), add_violation s' (mkDiagnostic v_live None p (if has_invocation o then Some o else None)))).
Proof. apply (closing_finds_leftovers demo_leftovers.1 demo_leftovers.2). vm_compute. reflexivity. Defined.

Example three_leftovers : violations (closeContext demo_leftovers.1 demo_leftovers.2).2 = [v_unused; v_unused; v_unused].
Proof. vm_compute. reflexivity. Qed.

(** ** Calls *)

(** A body leaves the frames of its caller and of its own call as it found them. *)
Definition keeps_frames {A} (run : option View -> C A) (parent : nat) : Prop :=
  forall child s r s1, run (Some child) s = (r, s1) -> phase_of (barrier s) parent = Some waiting ->
    phase_of (barrier s) (v_frame child) = Some running ->
    phase_of (barrier s1) parent = Some waiting /\ phase_of (barrier s1) (v_frame child) = Some running.

Lemma reserve_spec id s f s1 :
  reserve id s = (inl f, s1) -> f = length (entries (barrier s)) /\ phase_of (barrier s1) f = Some reserved
  /\ (forall g, (g < f)%nat -> phase_of (barrier s1) g = phase_of (barrier s) g).
Proof.
  unfold reserve, reserveFrame. destruct (orderable s id); cbn; [| done]. case_bool_decide; [done |]. intros [= <- <-].
  split_and!; [done | |]; unfold phase_of; cbn.
  - by rewrite lookup_app_r, Nat.sub_diag by done.
  - intros g Hg. by rewrite lookup_app_l.
Qed.

Lemma phase_lt b f p : phase_of b f = Some p -> (f < length (entries b))%nat.
Proof. unfold phase_of. destruct (entries b !! f) eqn:Hf; [| done]. intros _. by apply lookup_lt_Some in Hf. Qed.

(** A call suspends its caller for the body and resumes it after, whatever the
    body answers: the child's frame is done, and the answer is the body's. *)
Theorem call_returns_to_parent {A} parent at_ callable (run : option View -> C A) s r s' :
  phase_of (barrier s) (v_frame parent) = Some running -> keeps_frames run (v_frame parent) ->
  callContext (Some parent) at_ callable run s = (r, s') ->
  phase_of (barrier s') (v_frame parent) = Some running
  /\ ((exists m, r = inr (Broken m))
      \/ exists child s1 s2, run (Some child) s1 = (r, s2) /\ phase_of (barrier s') (v_frame child) = Some done_).
Proof.
  intros Hp Hrun. unfold callContext, bind, on_lineage. destruct (invocationIdentity _ _ _ _) as [[id L]|m]; [| intros [= <- <-]; eauto].
  unfold makeView, bind. destruct (reserve id (set_lineage s L)) as [[f|t] s1] eqn:Hr.
  2: { unfold reserve in Hr. destruct (reserveFrame _ _ _) as [[? ?]|]; [done |]. injection Hr as <- <-. intros [= <- <-]. eauto. }
  destruct (reserve_spec _ _ _ _ Hr) as (Hf & Hres & Hother). cbn [barrier set_lineage] in *.
  pose proof (phase_lt _ _ _ Hp) as Hlt. rewrite <- Hf in Hlt. unfold ret. cbn [v_frame].
  unfold on_barrier at 1. rewrite <- (Hother _ Hlt) in Hp.
  destruct (transition_enabled _ _ _ waiting Hp) as [b2 Hb2]. unfold suspendFrame. rewrite Hb2.
  destruct (transition_spec _ _ _ _ _ Hb2) as (_ & Hw & Ho2 & _). unfold on_barrier at 1. cbn [barrier set_barrier].
  destruct (transition_enabled b2 f reserved running) as [b3 Hb3]; [by rewrite Ho2 by lia |]. unfold startFrame. rewrite Hb3.
  destruct (transition_spec _ _ _ _ _ Hb3) as (_ & Hc & Ho3 & _). cbn [set_barrier].
  set (s3 := set_barrier _ b3). destruct (run (Some (mkView id f)) s3) as [r1 s4] eqn:Hrun1.
  destruct (Hrun _ _ _ _ Hrun1) as [Hw4 Hc4]; [by cbn; rewrite Ho3 by lia | done |]. cbn [v_frame] in Hc4.
  unfold on_barrier at 1. destruct (transition_enabled _ _ _ done_ Hc4) as [b5 Hb5]. unfold finishFrame. rewrite Hb5.
  destruct (transition_spec _ _ _ _ _ Hb5) as (_ & Hd5 & Ho5 & _). unfold on_barrier at 1. cbn [barrier set_barrier].
  destruct (transition_enabled b5 (v_frame parent) waiting running) as [b6 Hb6]; [by rewrite Ho5 by lia |]. unfold resumeFrame. rewrite Hb6.
  destruct (transition_spec _ _ _ _ _ Hb6) as (_ & Hp6 & Ho6 & _). intros [= <- <-]. cbn. split; [done |]. right.
  exists (mkView id f), s3, s4. split; [done |]. cbn. by rewrite Ho6 by lia.
Qed.
