(* ===== verification/CoordinationTheorems.v ===== *)
(** * Properties of coordination forms *)
From stdpp Require Import base gmap list strings.
From Stdlib Require Import ZArith Lia.
From S2P Require Import Prelude JsNumber JsString Data Domain Owner Coordination.

(** ** What a form selects *)

(** The participants that have completed, in order of completion. *)
Abbreviation completions := (list (nat * completion)).

Definition arrivals_of (done : completions) : list arrival := (fun p => mkArrival p.1 (Some p.2)) <$> done.

(** Each participant completes once. *)
Definition participants (count : nat) (done : completions) : Prop := NoDup done.*1 /\ Forall (fun i => (i < count)%nat) done.*1.

(** The outcomes by participant. *)
Definition table (count : nat) (done : completions) : list (option completion) :=
  (fun i => snd <$> find (fun p => bool_decide (p.1 = i)) done) <$> seq 0 count.

(** The completions before the first one that [p] accepts, and that one. *)
Fixpoint first_with (p : completion -> bool) (done : completions) : option (completions * (nat * completion)) :=
  match done with
  | [] => None
  | d :: done =>
      if p d.2 then Some ([], d)
      else match first_with p done with Some (before, x) => Some (d :: before, x) | None => None end
  end.

(** The documented selection of each mode. *)
Definition expected (mode : Mode) (count : nat) (done : completions) : option reaction :=
  let whole := (count <=? length done)%nat in
  match mode with
  | settled => if whole then Some (Publishes (seq 0 count) (SelAll (table count done))) else None
  | all =>
      match first_with (fun c => negb (is_ok c)) done with
      | Some (_, (i, c)) => Some (Publishes [i] (SelOne i c))
      | None => if whole then Some (Publishes (seq 0 count) (SelAll (table count done))) else None
      end
  | any =>
      match first_with is_ok done with
      | Some (before, (i, c)) => Some (Publishes (before.*1 ++ [i]) (SelOne i c))
      | None => if whole then Some (Publishes (seq 0 count) (AllFailed (table count done))) else None
      end
  | race => match done with (i, c) :: _ => Some (Publishes [i] (SelOne i c)) | [] => None end
  end.

(** ** The observations *)

Definition adapter_of (p : nat * completion) : adapter := if is_ok p.2 then Fulfils p.1 p.2 else Refuses p.1 p.2.

(** [rejected] and [firstSuccess] after the completions. *)
Definition failures_of (done : completions) : list nat := (filter (fun p => is_ok p.2 = false) done).*1.

Record seen (count : nat) (done : completions) (s : observed) : Prop := {
  seen_table : outcomes s = table count done;
  seen_rejected : rejected s = failures_of done;
  seen_first : firstSuccess s = match first_with is_ok done with Some (before, (i, _)) => Some (before.*1 ++ [i]) | None => None end
}.

Lemma find_snoc_fresh (done : completions) (d : nat * completion) i :
  d.1 ∉ done.*1 ->
  find (fun p => bool_decide (p.1 = i)) (done ++ [d])
  = if decide (d.1 = i) then Some d else find (fun p => bool_decide (p.1 = i)) done.
Proof.
  induction done as [|e done IH]; intros Hd; cbn [find app].
  { destruct (decide (d.1 = i)); [by rewrite bool_decide_true | by rewrite bool_decide_false]. }
  rewrite fmap_cons, not_elem_of_cons in Hd. destruct Hd as [Hne Hd]. case_bool_decide.
  - destruct (decide (d.1 = i)); [congruence | done].
  - by apply IH.
Qed.

Lemma table_snoc count done d :
  d.1 ∉ done.*1 -> (d.1 < count)%nat -> table count (done ++ [d]) = <[d.1 := Some d.2]> (table count done).
Proof.
  intros Hd Hlt. apply list_eq. intros i. unfold table. rewrite list_lookup_fmap.
  destruct (decide (i = d.1)) as [-> | Hne].
  - rewrite list_lookup_insert_eq by (by rewrite length_fmap, length_seq).
    rewrite lookup_seq_lt by done. cbn. rewrite find_snoc_fresh by done. by rewrite decide_True.
  - rewrite list_lookup_insert_ne by done. rewrite list_lookup_fmap.
    destruct (decide (i < count)%nat) as [Hi | Hi]; [| by rewrite lookup_seq_ge by lia].
    rewrite lookup_seq_lt by done. cbn. rewrite find_snoc_fresh by done. by rewrite decide_False.
Qed.

Lemma first_with_app p s t :
  first_with p (s ++ t)
  = match first_with p s with
    | Some r => Some r
    | None => match first_with p t with Some (b, x) => Some (s ++ b, x) | None => None end
    end.
Proof.
  induction s as [|d s IH]; cbn; [by destruct (first_with p t) as [[? ?]|] |].
  destruct (p d.2); [done |]. rewrite IH. destruct (first_with p s) as [[? ?]|]; [done |].
  by destruct (first_with p t) as [[? ?]|].
Qed.

Lemma first_with_none p s : first_with p s = None -> Forall (fun d => p d.2 = false) s.
Proof.
  induction s as [|d s IH]; cbn; [by constructor |]. destruct (p d.2) eqn:Hp; [done |].
  destruct (first_with p s) as [[? ?]|]; [done |]. constructor; [done | by apply IH].
Qed.

Lemma failures_all s : Forall (fun d => is_ok d.2 = false) s -> failures_of s = s.*1.
Proof.
  unfold failures_of. induction 1 as [|d s Hd _ IH]; [done |]. rewrite filter_cons, decide_True by done.
  by rewrite !fmap_cons, IH.
Qed.

Lemma failures_fresh s i : i ∉ s.*1 -> i ∉ failures_of s.
Proof.
  unfold failures_of. rewrite !list_elem_of_fmap. intros H (d & -> & [_ Hd]%list_elem_of_filter). apply H. by exists d.
Qed.

Lemma observe_seen count done s d :
  seen count done s -> d.1 ∉ done.*1 -> (d.1 < count)%nat ->
  exists s', observe s (mkArrival d.1 (Some d.2)) = (s', adapter_of d) /\ seen count (done ++ [d]) s'.
Proof.
  intros [Ht Hr Hf] Hd Hlt. unfold observe, adapter_of. cbn [landed index].
  destruct (is_ok d.2) eqn:Hok; eexists; (split; [done |]); split; cbn; rewrite ?Ht, ?Hr, ?Hf.
  - by rewrite table_snoc.
  - unfold failures_of. rewrite filter_app. cbn. rewrite decide_False by congruence. by rewrite app_nil_r.
  - rewrite first_with_app. destruct (first_with is_ok done) as [[b [i c]]|] eqn:Hfirst; [done |]. cbn. rewrite Hok.
    rewrite app_nil_r, failures_all by by apply first_with_none. by destruct d.
  - by rewrite table_snoc.
  - rewrite bool_decide_false by by apply failures_fresh. unfold failures_of. rewrite filter_app, fmap_app. cbn.
    by rewrite decide_True by done.
  - rewrite first_with_app. destruct (first_with is_ok done) as [[b [i c]]|]; [done |]. cbn. by rewrite Hok.
Qed.

Lemma observe_all_seen count rest : forall done s,
  seen count done s -> participants count (done ++ rest) ->
  exists s', observe_all s (arrivals_of rest) = (s', adapter_of <$> rest) /\ seen count (done ++ rest) s'.
Proof.
  induction rest as [|d rest IH]; intros done s Hs [Hnd Hlt].
  { exists s. by rewrite app_nil_r. }
  assert (d.1 ∉ done.*1 /\ (d.1 < count)%nat) as [Hd Hd'].
  { rewrite fmap_app, fmap_cons in Hnd, Hlt. apply NoDup_app in Hnd as (_ & Hdis & _). apply Forall_app in Hlt as [_ Hlt%Forall_cons].
    split; [| tauto]. intros Hin. by apply (Hdis _ Hin), elem_of_cons; left. }
  destruct (observe_seen count done s d Hs Hd Hd') as (s1 & Ho & Hs1).
  destruct (IH (done ++ [d]) s1 Hs1) as (s2 & Ho2 & Hs2); [by rewrite <- app_assoc |].
  exists s2. rewrite <- app_assoc in Hs2. split; [| done].
  change (arrivals_of (d :: rest)) with (mkArrival d.1 (Some d.2) :: arrivals_of rest). cbn [observe_all].
  by rewrite Ho, Ho2.
Qed.

Lemma no_outcomes_seen count : seen count [] (no_outcomes count).
Proof.
  split; [| done | done]. cbn. unfold table. cbn. generalize 0%nat. induction count as [|n IH]; intros k; [done |].
  cbn. by rewrite <- IH.
Qed.

Lemma find_adapter (P : adapter -> bool) (p : completion -> bool) done :
  (forall d, P (adapter_of d) = p d.2) ->
  find P (adapter_of <$> done) = match first_with p done with Some (_, d) => Some (adapter_of d) | None => None end.
Proof.
  intros H. induction done as [|d done IH]; [done |]. cbn. rewrite H. destruct (p d.2); [done |].
  rewrite IH. by destruct (first_with p done) as [[? ?]|].
Qed.

Lemma first_with_in p done before d : first_with p done = Some (before, d) -> p d.2 = true.
Proof.
  revert before. induction done as [|e done IH]; [done |]. cbn. intros before. destruct (p e.2) eqn:He; [by intros [= _ <-] |].
  destruct (first_with p done) as [[b x]|]; [| done]. intros [= _ <-]. by eapply IH.
Qed.

Lemma some_ok_table count done : Forall (fun d => is_ok d.2 = false) done -> some_ok (table count done) = false.
Proof.
  intros H. unfold some_ok. apply not_true_is_false. rewrite existsb_exists. intros (o & Ho & Hok).
  apply list_elem_of_In in Ho. unfold table in Ho. apply list_elem_of_fmap in Ho as (i & -> & _).
  destruct (find _ done) as [d|] eqn:Hf; [| done]. cbn in Hok. apply find_some in Hf as [Hin _].
  apply list_elem_of_In in Hin. rewrite Forall_forall in H. by rewrite (H d Hin) in Hok.
Qed.

Lemma select_expected mode count done :
  participants count done -> selectFromGroup mode count (arrivals_of done) = expected mode count done.
Proof.
  intros Hp. unfold selectFromGroup.
  destruct (observe_all_seen count done [] (no_outcomes count) (no_outcomes_seen count) Hp) as (s & -> & [Ht Hr Hf]).
  cbn [app] in *. unfold combinator, expected. rewrite length_fmap.
  assert (forall i c, settle_one (adapter_of (i, c)) = if is_ok c then ResolvesOne i c else RejectsOne (Refuses i c)) as Hsettle
    by (intros i c; unfold adapter_of; cbn; by destruct (is_ok c)).
  destruct mode.
  - rewrite (find_adapter _ (fun c => negb (is_ok c))) by (intros d; unfold adapter_of; by destruct (is_ok d.2)).
    destruct (first_with (fun c => negb (is_ok c)) done) as [[before [i c]]|] eqn:Hfirst; cbn.
    + pose proof (first_with_in _ _ _ _ Hfirst) as Hc. cbn in Hc. apply negb_true_iff in Hc. unfold adapter_of. cbn. by rewrite Hc.
    + destruct (count <=? length done)%nat; [| done]. cbn. by rewrite Ht.
  - destruct (count <=? length done)%nat; [| done]. cbn. by rewrite Ht.
  - rewrite (find_adapter _ is_ok) by (intros d; unfold adapter_of; by destruct (is_ok d.2)).
    destruct (first_with is_ok done) as [[before [i c]]|] eqn:Hfirst; cbn.
    + pose proof (first_with_in _ _ _ _ Hfirst) as Hc. cbn in Hc. rewrite Hsettle, Hc. cbn. unfold selected. by rewrite Hf.
    + destruct (count <=? length done)%nat; [| done]. cbn.
      rewrite Ht, (some_ok_table count done) by by apply first_with_none. unfold table. rewrite length_fmap, length_seq.
      by rewrite Nat.eqb_refl.
  - destruct done as [|[i c] done]; [done |]. cbn. rewrite Hsettle. by destruct (is_ok c).
Qed.

(** ** Stability and liveness *)

Lemma participants_length count done : participants count done -> (length done <= count)%nat.
Proof.
  intros [Hnd Hlt]. rewrite <- (length_fmap fst done), <- (length_seq count 0).
  apply submseteq_length, NoDup_submseteq; [done |]. intros i Hi. rewrite Forall_forall in Hlt.
  apply elem_of_seq. specialize (Hlt i Hi). lia.
Qed.

Lemma expected_stable mode count done late r :
  participants count (done ++ late) -> expected mode count done = Some r -> expected mode count (done ++ late) = Some r.
Proof.
  intros Hp He. pose proof (participants_length _ _ Hp) as Hlen. rewrite length_app in Hlen.
  assert ((count <=? length done)%nat = true -> late = []) as Hlate.
  { intros H%Nat.leb_le. destruct late; [done | cbn in Hlen; lia]. }
  unfold expected in *. destruct mode.
  - rewrite first_with_app. destruct (first_with _ done) as [[b [i c]]|]; [done |].
    destruct (count <=? length done)%nat eqn:Hc; [| done]. rewrite (Hlate eq_refl), app_nil_r. cbn. by rewrite Hc.
  - destruct (count <=? length done)%nat eqn:Hc; [| done]. rewrite (Hlate eq_refl), app_nil_r. by rewrite Hc.
  - rewrite first_with_app. destruct (first_with _ done) as [[b [i c]]|]; [done |].
    destruct (count <=? length done)%nat eqn:Hc; [| done]. rewrite (Hlate eq_refl), app_nil_r. cbn. by rewrite Hc.
  - by destruct done as [|[i c] done].
Qed.

Lemma expected_live mode count done :
  length done = count -> (mode = race -> count <> 0%nat) -> is_Some (expected mode count done).
Proof.
  intros Hlen Hrace. unfold expected. rewrite (proj2 (Nat.leb_le count (length done))) by lia. destruct mode.
  - destruct (first_with _ done) as [[b [i c]]|]; by eexists.
  - by eexists.
  - destruct (first_with _ done) as [[b [i c]]|]; by eexists.
  - destruct done as [|[i c] done]; [by destruct (Hrace eq_refl) | by eexists].
Qed.

(** C40. (A form selects what its mode says.)  Whatever the order in which the
    participants of a group complete: [settled] answers every outcome in source
    order when all are there; [all] answers the first failure to complete, or
    every outcome; [any] answers the first success to complete and publishes
    it with exactly the failures before it, or answers that all failed; [race]
    answers the first completion.  Completions that arrive between the decision
    and the continuation change nothing, and when every participant has completed
    the form has been decided, a race of no participants excepted. *)
Theorem selection_is_specified mode count done late :
  participants count (done ++ late) ->
  selectFromGroup mode count (arrivals_of done) = expected mode count done
  /\ (forall r, expected mode count done = Some r ->
        selectFromGroup mode count (arrivals_of (done ++ late)) = Some r)
  /\ (length done = count -> (mode = race -> count <> 0%nat) -> is_Some (expected mode count done)).
Proof.
  intros Hp. assert (participants count done) as Hp'.
  { destruct Hp as [Hnd Hlt]. rewrite fmap_app in Hnd, Hlt. apply NoDup_app in Hnd as [? _].
    by apply Forall_app in Hlt as [? _]. }
  split_and!; [by apply select_expected | | by apply expected_live].
  intros r Hr. rewrite select_expected by done. by apply expected_stable.
Qed.

Lemma selection_is_specified_witness :
  selectFromGroup any 3 (arrivals_of [(2, CDomain 7); (0, COk VNull)]%nat) = expected any 3 [(2, CDomain 7); (0, COk VNull)]%nat
  /\ (forall r, expected any 3 [(2, CDomain 7); (0, COk VNull)]%nat = Some r ->
        selectFromGroup any 3 (arrivals_of ([(2, CDomain 7); (0, COk VNull)] ++ [(1, CDomain 8)])%nat) = Some r)
  /\ (length [(2, CDomain 7); (0, COk VNull)]%nat = 3%nat -> (any = race -> 3%nat <> 0%nat) ->
        is_Some (expected any 3 [(2, CDomain 7); (0, COk VNull)]%nat)).
Proof. apply selection_is_specified. split; vm_compute; [| repeat constructor]. by apply (bool_decide_unpack _); vm_compute. Defined.

(** ** Publication *)

Lemma emit_done o late s : exists s', emit o late s = (Completion.Done tt, s') /\ groups s' = groups s /\ tasks s' = tasks s
  /\ (forall x, x ∈ reported s -> x ∈ reported s') /\ o ∈ reported s'.
Proof.
  unfold emit, bind, get, put, ret. case_bool_decide as Hin.
  - by exists s.
  - eexists. split; [done |]. cbn. split_and!; [done | done | by right | by left].
Qed.

Lemma observe_launched_done gr i s : exists s', observeLaunched gr i s = (Completion.Done tt, s')
  /\ groups s' = groups s /\ tasks s' = tasks s /\ (forall x, x ∈ reported s -> x ∈ reported s')
  /\ (forall t o, gr_tasks gr !! i = Some t -> tk_completion <$> tasks s !! t = Some (Some (OutStandard o)) ->
        i ∉ Owner.selected gr -> o ∈ reported s').
Proof.
  unfold observeLaunched, bind, get, ret.
  destruct (mbind tk_completion (mbind (fun t : nat => tasks s !! t) (gr_tasks gr !! i))) as [[| | o]|] eqn:Hm.
  1, 2, 4: exists s; split_and!; try done; intros t o' Ht Ho _; rewrite Ht in Hm; cbn in Hm;
    destruct (tasks s !! t) as [tk|]; [| done]; cbn in Hm, Ho; congruence.
  case_bool_decide as Hin.
  - exists s. by split_and!.
  - destruct (emit_done o true s) as (s' & -> & Hg & Ht & Hr & Ho). exists s'. split_and!; try done.
    intros t o' Hti Hto _. rewrite Hti in Hm. cbn in Hm. destruct (tasks s !! t) as [tk|]; [| done]. cbn in Hm, Hto. congruence.
Qed.

Lemma each_observed gr l : forall s, exists s', Owner.each (observeLaunched gr) l s = (Completion.Done tt, s')
  /\ groups s' = groups s /\ tasks s' = tasks s /\ (forall x, x ∈ reported s -> x ∈ reported s')
  /\ (forall i t o, i ∈ l -> gr_tasks gr !! i = Some t -> tk_completion <$> tasks s !! t = Some (Some (OutStandard o)) ->
        i ∉ Owner.selected gr -> o ∈ reported s').
Proof.
  induction l as [|i l IH]; intros s; cbn [Owner.each].
  { exists s. split_and!; try done. by intros i t o Hi%elem_of_nil. }
  destruct (observe_launched_done gr i s) as (s1 & H1 & Hg1 & Ht1 & Hr1 & Ho1).
  destruct (IH s1) as (s2 & H2 & Hg2 & Ht2 & Hr2 & Ho2).
  exists s2. unfold bind. rewrite H1, H2. split_and!; [done | congruence | congruence | auto |].
  intros j t o [-> | Hj]%elem_of_cons Hjt Hto Hs; [by eapply Hr2, Ho1 |]. rewrite <- Ht1 in Hto. by eapply Ho2.
Qed.

Lemma finish_sealed g gr s :
  groups s !! g = Some gr -> sealed gr = true ->
  exists s', finishLaunched g None s = (Completion.Done tt, s') /\ groups s' = groups s
    /\ (forall i t o, gr_tasks gr !! i = Some t -> tk_completion <$> tasks s !! t = Some (Some (OutStandard o)) ->
          i ∉ Owner.selected gr -> o ∈ reported s').
Proof.
  intros Hg Hs. unfold finishLaunched, bind, get. rewrite Hg, Hs. cbn [negb].
  destruct (each_observed gr (seq 0 (length (gr_tasks gr))) s) as (s1 & -> & Hg1 & Ht1 & _ & Ho1).
  assert (forall i t o, gr_tasks gr !! i = Some t -> tk_completion <$> tasks s !! t = Some (Some (OutStandard o)) ->
    i ∉ Owner.selected gr -> o ∈ reported s1) as Hall.
  { intros i t o Hi. apply Ho1; [| done]. apply elem_of_seq. apply lookup_lt_Some in Hi. lia. }
  destruct (pending gr =? 0); eexists; (split; [reflexivity |]); by split.
Qed.

Lemma publish_done g gr chosen s :
  groups s !! g = Some gr -> sealed gr = false -> Forall (fun i => (i < length (gr_tasks gr))%nat) chosen ->
  let gr' := mkGroup (gr_scope gr) (gr_tasks gr) true chosen (pending gr) in
  exists s', publish g chosen s = (Completion.Done tt, s') /\ groups s' !! g = Some gr'
    /\ (forall i t o, gr_tasks gr !! i = Some t -> tk_completion <$> tasks s !! t = Some (Some (OutStandard o)) ->
          i ∉ chosen -> o ∈ reported s').
Proof.
  intros Hg Hs Hlt gr'. unfold publish, bind, get. rewrite Hg, Hs.
  assert (existsb (fun i => (length (gr_tasks gr) <=? i)%nat) chosen = false) as ->.
  { apply not_true_is_false. rewrite existsb_exists. intros (i & Hi%list_elem_of_In & Hle%Nat.leb_le).
    rewrite Forall_forall in Hlt. specialize (Hlt i Hi). lia. }
  cbn [orb]. unfold set_group. set (s1 := with_groups s _ _).
  assert (groups s1 !! g = Some gr') as Hg1 by (cbn; apply list_lookup_insert_eq; by apply lookup_lt_Some in Hg).
  destruct (finish_sealed g gr' s1 Hg1 eq_refl) as (s2 & Hf & Hg2 & Ho). exists s2. rewrite Hf, Hg2. by split_and!.
Qed.

Lemma publish_sealed g gr chosen s :
  groups s !! g = Some gr -> sealed gr = true -> publish g chosen s = @invalid unit s.
Proof. intros Hg Hs. unfold publish, bind, get. by rewrite Hg, Hs. Qed.

Lemma expected_publishes mode count done r :
  participants count done -> expected mode count done = Some r ->
  exists chosen sel, r = Publishes chosen sel /\ Forall (fun i => (i < count)%nat) chosen.
Proof.
  intros [_ Hlt] He.
  assert (Forall (fun i => (i < count)%nat) (seq 0 count)) as Hall by (apply Forall_forall; intros i Hi%elem_of_seq; lia).
  assert (forall p before i c, first_with p done = Some (before, (i, c)) -> Forall (fun i => (i < count)%nat) (before.*1 ++ [i])) as Hfirst.
  { intros p. clear He. induction done as [|d done IH]; [done |]. cbn. intros before i c.
    rewrite fmap_cons, Forall_cons in Hlt. destruct Hlt as [Hd Hlt]. destruct (p d.2).
    - intros [= <- ->]. by repeat constructor.
    - destruct (first_with p done) as [[b [j e]]|]; [| done]. intros [= <- -> ->].
      rewrite fmap_cons. constructor; [done |]. by eapply IH. }
  unfold expected in He. destruct mode.
  - destruct (first_with _ done) as [[b [i c]]|] eqn:Hf; [| destruct (_ <=? _)%nat; [| done]]; injection He as <-; eexists _, _; (split; [done |]).
    + specialize (Hfirst _ _ _ _ Hf). by apply Forall_app in Hfirst as [_ ?].
    + done.
  - destruct (_ <=? _)%nat; [| done]. injection He as <-. by eexists _, _.
  - destruct (first_with _ done) as [[b [i c]]|] eqn:Hf; [| destruct (_ <=? _)%nat; [| done]]; injection He as <-; eexists _, _; (split; [done |]).
    + by apply (Hfirst _ _ _ _ Hf).
    + done.
  - destruct done as [|[i c] done]; [done |]. injection He as <-. eexists _, _. split; [done |].
    apply Forall_cons in Hlt as [? _]. by repeat constructor.
Qed.

(** (A selection is published once.)  A decided form publishes on its unsealed
    group, whose owner accepts the publication: the group is sealed with exactly
    the chosen participants, every standard failure that had completed and was not
    chosen has been reported, and a second publication is refused and changes
    nothing. *)
Theorem selection_is_published_once mode g gr s done r :
  groups s !! g = Some gr -> sealed gr = false -> participants (length (gr_tasks gr)) done ->
  selectFromGroup mode (length (gr_tasks gr)) (arrivals_of done) = Some r ->
  exists chosen sel s', r = Publishes chosen sel /\ select_owned g r s = (Completion.Done sel, s')
    /\ groups s' !! g = Some (mkGroup (gr_scope gr) (gr_tasks gr) true chosen (pending gr))
    /\ (forall i t o, gr_tasks gr !! i = Some t -> tk_completion <$> tasks s !! t = Some (Some (OutStandard o)) ->
          i ∉ chosen -> o ∈ reported s')
    /\ (forall again, publish g again s' = @invalid unit s').
Proof.
  intros Hg Hs Hp Hsel. rewrite select_expected in Hsel by done.
  destruct (expected_publishes _ _ _ _ Hp Hsel) as (chosen & sel & -> & Hlt).
  destruct (publish_done g gr chosen s Hg Hs Hlt) as (s' & Hpub & Hg' & Ho).
  exists chosen, sel, s'. unfold select_owned, bind at 1. rewrite Hpub. split_and!; try done.
  intros again. by apply (publish_sealed _ _ _ _ Hg').
Qed.

Lemma selection_is_published_once_witness :
  let s := run_moves [Launch (mkExecution 0 None None) [[]; []] false; Settle 0 1 (OutStandard 5)] createRoot in
  exists chosen sel s',
    Publishes [1]%nat (SelOne 1 (CStandard 5 VNull)) = Publishes chosen sel
    /\ select_owned 0 (Publishes [1]%nat (SelOne 1 (CStandard 5 VNull))) s = (Completion.Done sel, s')
    /\ groups s' !! 0%nat = Some (mkGroup 0 [0; 1]%nat true chosen 1)
    /\ (forall i t o, [0; 1]%nat !! i = Some t -> tk_completion <$> tasks s !! t = Some (Some (OutStandard o)) ->
          i ∉ chosen -> o ∈ reported s')
    /\ (forall again, publish 0 again s' = @invalid unit s').
Proof.
  apply (selection_is_published_once race 0 (mkGroup 0 [0; 1]%nat false [] 1) _ [(1, CStandard 5 VNull)]%nat);
    [vm_compute; reflexivity | reflexivity | | vm_compute; reflexivity].
  split; cbn; [apply NoDup_singleton | repeat constructor].
Defined.

(** ** Dispatch *)

Section dispatch.
Context {W : Type} (hs : Handlers W).

(** The arms that run, first to last, and what the failing one answered. *)
Inductive runs_arms : nat -> list (option completion) -> W -> list value -> option completion -> W -> Prop :=
| arms_end i w : runs_arms i [] w [] None w
| arms_fail i o os w c w' : Coordination.each hs i o w = (c, w') -> is_ok c = false -> runs_arms i (o :: os) w [] (Some c) w'
| arms_ok i o os w v w1 vs r w2 :
    Coordination.each hs i o w = (COk v, w1) -> runs_arms (S i) os w1 vs r w2 -> runs_arms i (o :: os) w (v :: vs) r w2.

Lemma arms_spec collect os : forall i values w,
  exists vs r w', runs_arms i os w vs r w'
    /\ arms hs collect i os values w = (match r with Some c => inl c | None => inr (if collect then values ++ vs else values) end, w').
Proof.
  induction os as [|o os IH]; intros i values w; cbn [arms].
  { exists [], None, w. split; [constructor |]. by destruct collect; rewrite ?app_nil_r. }
  destruct (Coordination.each hs i o w) as [c w1] eqn:He.
  destruct (is_ok c) eqn:Hc; [| by exists [], (Some c), w1; split; [by constructor | by destruct c]].
  destruct c as [v | |]; [| done..]. destruct (IH (S i) (if collect then values ++ [v] else values) w1) as (vs & r & w2 & Hr & ->).
  exists (v :: vs), r, w2. split; [by econstructor |]. destruct r; [done |]. by destruct collect; rewrite <- ?app_assoc.
Qed.
End dispatch.

(** (A form dispatches in source order.)  A single selection goes to the shared
    arm and an all-failed one to its own, once each.  A whole selection runs the
    arm of each participant in source order, each on that participant's outcome
    and on what the arms before left; the first arm that does not answer [ok] ends
    the form with its completion unchanged, and no further arm runs; otherwise the
    form answers a fresh array of the arms' values in order when it collects, and
    [undefined] when it does not. *)
Theorem dispatch_in_source_order {W} (hs : Handlers W) sel collect h w :
  match sel with
  | SelOne i c => handle sel hs collect h w = ((shared hs i c w).1, h, (shared hs i c w).2)
  | AllFailed os => handle sel hs collect h w = ((allFailed hs os w).1, h, (allFailed hs os w).2)
  | SelAll os =>
      exists vs r w', runs_arms hs 0 os w vs r w'
        /\ handle sel hs collect h w
           = match r with
             | Some c => (c, h, w')
             | None => if collect then (COk (array h vs).1, (array h vs).2, w') else (COk VUndefined, h, w')
             end
  end.
Proof.
  destruct sel as [os | i c | os]; cbn [handle].
  - destruct (arms_spec hs collect os 0 [] w) as (vs & r & w' & Hr & ->). exists vs, r, w'. split; [done |].
    destruct r; [done |]. destruct collect; [| done]. cbn [app]. by destruct (array h vs).
  - by destruct (shared hs i c w).
  - by destruct (allFailed hs os w).
Qed.

(** ** Aggregates *)

(** (An aggregate keeps the failures.)  An aggregate that is built is one fresh
    domain occurrence of the asked type, whose payload record holds, in order, the
    payload of each domain failure and the opaque value of each standard failure;
    an outcome that is [ok] is refused. *)
Theorem aggregate_keeps_failures rt h s outcomes identity c h' s' :
  aggregate rt h s outcomes identity = Ret (c, h', s') ->
  exists failures list h1 payload d,
    map_res (failure_payload s) outcomes = Ret failures
    /\ (list, h1) = array h failures
    /\ record h1 identity [(js "failures", list)] = Ret (payload, h')
    /\ c = CDomain (next_token s) /\ details s' !! next_token s = Some d
    /\ typeIdentity d = identity /\ Domain.payload d = payload
    /\ Forall (fun o => is_ok o = false) outcomes.
Proof.
  unfold aggregate. destruct (map_res (failure_payload s) outcomes) as [failures|] eqn:Hf; [| done]. cbn [res_bind].
  destruct (array h failures) as [list h1] eqn:Ha. destruct (record h1 identity _) as [[payload h2]|] eqn:Hr; [| done].
  cbn [res_bind]. destruct (create rt h2 s identity payload VUndefined) as [[token s2]|] eqn:Hc; [| done].
  intros [= <- <- <-]. unfold create in Hc. destruct (Domain.get (rt_shapes rt) (Some identity)) as [shape|]; [| done]. cbn [res_bind] in Hc.
  destruct (rt_declarations rt !! _) as [decl|]; [| done]. destruct (_ && _); [| done]. injection Hc as <- <-.
  exists failures, list, h1, payload. eexists. split_and!; try done.
  - cbn. by rewrite lookup_insert_eq.
  - done.
  - done.
  - clear -Hf. revert failures Hf. induction outcomes as [|o os IH]; intros failures Hf; [by constructor |].
    cbn [map_res] in Hf. destruct (failure_payload s o) as [x|] eqn:Ho; [| done]. cbn in Hf.
    destruct (map_res (failure_payload s) os) as [xs|]; [| done]. constructor; [by destruct o | by eapply IH].
Qed.

(** A missing outcome does not stop an [any] that every adapter rejected. *)
Example hole_is_published :
  selectFromGroup any 2 [mkArrival 0 (Some (CDomain 1)); mkArrival 1 None]
  = Some (Publishes [0; 1]%nat (AllFailed [Some (CDomain 1); None])).
Proof. reflexivity. Qed.
