(* ===== verification/Streams.v ===== *)
(** * Pull streams

    [src/runtime/transport/stream/]: the limits of [budget.ts], the cells of
    [lifecycle.ts], the reads of [readable.ts] and the writes of
    [writable.ts].  A source is the list of what its next reads answer
    ([read_event] of [JsonlCodec]); an operation returns what is left of it.  The
    leases and the closing of a handle are those of [Owner]. *)
From stdpp Require Import base list strings.
From Stdlib Require Import ZArith Lia.
From S2P Require Import Prelude JsNumber JsString Unicode Utf8Stream Data JsonCodec JsonlCodec.

(** ** Limits *)

Definition validMaxItems (max : value) : option Z :=
  match max with VBigInt m => if 1 <=? m then Some m else None | _ => None end.
Definition validMaxBytes (max : value) : option Z := validMaxItems max.
Definition overCap (used add cap : Z) : bool := (add <? 0) || (used <? 0) || (cap - used <? add).
Definition fitsChunk (length remaining : Z) : bool := (0 <=? length) && (length <=? remaining).

(** ** Cells *)

Inductive item_kind : Type := bytes_items | text_items | event_items.

(** The decoder's held bytes, the text behind the last newline, and the count of
    pending bytes. *)
Record LineFraming : Type := mkFraming { held : list N; text : jstr; pendingBytes : Z }.

(** [carry] is empty when the field is [undefined]. *)
Record ReaderCell : Type := mkReader {
  item : item_kind; maxChunk : Z; maxLine : Z;
  cancelled : option jstr; errored : bool; ended : bool;
  carry : list N; framing : LineFraming
}.

Definition CHUNK_CLAMP : Z := 2 ^ 31.
Definition no_framing : LineFraming := mkFraming [] [] 0.

Definition openByteCell (maxChunk : Z) : ReaderCell :=
  mkReader bytes_items maxChunk CHUNK_CLAMP None false false [] no_framing.
Definition openLineCell (maxLine : Z) : ReaderCell :=
  mkReader text_items CHUNK_CLAMP maxLine None false false [] no_framing.
Definition openEventCell : ReaderCell :=
  mkReader event_items CHUNK_CLAMP CHUNK_CLAMP None false false [] no_framing.

Definition set_errored (c : ReaderCell) : ReaderCell :=
  mkReader (item c) (maxChunk c) (maxLine c) (cancelled c) true (ended c) (carry c) (framing c).
Definition set_ended (c : ReaderCell) (reason : option jstr) : ReaderCell :=
  mkReader (item c) (maxChunk c) (maxLine c)
    (match cancelled c with Some r => Some r | None => reason end) (errored c) true (carry c) (framing c).
Definition set_carry (c : ReaderCell) (bytes : list N) : ReaderCell :=
  mkReader (item c) (maxChunk c) (maxLine c) (cancelled c) (errored c) (ended c) bytes (framing c).
Definition set_framing (c : ReaderCell) (f : LineFraming) : ReaderCell :=
  mkReader (item c) (maxChunk c) (maxLine c) (cancelled c) (errored c) (ended c) (carry c) f.

(** What a pull answers.  [Waiting]: the source has not answered yet; [Endless]:
    the loop that splits chunks does not advance. *)
Inductive pulled (A : Type) : Type :=
| Items (items : list A)
| PullFailed (reason : jstr)
| PullCancelled (reason : jstr)
| LimitExceeded (limit : Z)
| Waiting
| Endless.
Arguments Items {A} items.
Arguments PullFailed {A} reason.
Arguments PullCancelled {A} reason.
Arguments LimitExceeded {A} limit.
Arguments Waiting {A}.
Arguments Endless {A}.

(** ** Bytes *)

Definition full {A} (items : list A) (maxItems : Z) : bool := maxItems <=? Z.of_nat (length items).

(** Split the carry while items are wanted.  Each round drops a byte at least
    when the cap is positive, so the length of the carry is fuel enough. *)
Fixpoint take_chunks (fuel : nat) (cap maxItems : Z) (carry : list N) (items : list (list N))
    : option (list (list N) * list N) :=
  if bool_decide (carry = []) || full items maxItems then Some (items, carry)
  else
    match fuel with
    | O => None
    | S fuel =>
        take_chunks fuel cap maxItems (drop (Z.to_nat cap) carry) (items ++ [take (Z.to_nat cap) carry])
    end.

Definition chunk_cap (c : ReaderCell) : Z := Z.min CHUNK_CLAMP (maxChunk c).

Fixpoint pullBytes (maxItems : Z) (events : list read_event) (c : ReaderCell) (items : list (list N))
    : pulled (list N) * ReaderCell * list read_event :=
  match take_chunks (length (carry c)) (chunk_cap c) maxItems (carry c) items with
  | None => (Endless, c, events)
  | Some (items, rest) =>
      let c := set_carry c rest in
      if full items maxItems || ended c then (Items items, c, events)
      else
        match events with
        | [] => (Waiting, c, [])
        | ReadFails cause :: events => (PullFailed (reasonFor cause), set_carry (set_errored c) [], events)
        | ReadDone reason :: events =>
            let c := set_ended c reason in
            match cancelled c with
            | Some reason => (PullCancelled reason, c, events)
            | None => pullBytes maxItems events c items
            end
        | Chunk bytes :: events => pullBytes maxItems events (set_carry c (carry c ++ bytes)) items
        end
  end.

(** ** Lines *)

Fixpoint next_newline (s : jstr) : option (jstr * jstr) :=
  match s with
  | [] => None
  | u :: s =>
      if (u =? 10)%N then Some ([], s)
      else match next_newline s with Some (line, rest) => Some (u :: line, rest) | None => None end
  end.

(** [line.endsWith("\r") ? line.slice(0, -1) : line] *)
Definition strip_cr (line : jstr) : jstr := if bool_decide (last line = Some 13%N) then removelast line else line.

Inductive drained : Type :=
| Batch (items : list jstr) (f : LineFraming)
| TooLong (f : LineFraming)
| Dry (items : list jstr) (f : LineFraming).

(** The complete lines of the carried text; one round per newline. *)
Fixpoint drain_lines (fuel : nat) (maxLine maxItems : Z) (f : LineFraming) (items : list jstr) : drained :=
  match fuel, next_newline (text f) with
  | S fuel, Some (line, rest) =>
      let line := strip_cr line in
      if maxLine <? byte_size line then TooLong (mkFraming (held f) rest (pendingBytes f))
      else
        let f := mkFraming (held f) rest (byte_size rest) in
        let items := items ++ [line] in
        if full items maxItems then Batch items f else drain_lines fuel maxLine maxItems f items
  | _, _ => Dry items f
  end.

(** The end of the source: what is left is the last line. *)
Definition last_line (c : ReaderCell) (f : LineFraming) (items : list jstr) : pulled jstr * ReaderCell :=
  if negb (bool_decide (text f = [])) || (0 <? pendingBytes f) then
    match decode_flush (held f) with
    | None => (PullFailed (js "utf8"), set_errored (set_framing c f))
    | Some tail =>
        let clean := strip_cr (text f ++ tail) in
        let c := set_framing c (mkFraming [] [] 0) in
        if maxLine c <? byte_size clean then (LimitExceeded (maxLine c), set_errored c)
        else (Items (items ++ [clean]), c)
    end
  else (Items items, set_framing c f).

Fixpoint pullLines (maxItems : Z) (events : list read_event) (c : ReaderCell) (items : list jstr)
    : pulled jstr * ReaderCell * list read_event :=
  match drain_lines (S (length (text (framing c)))) (maxLine c) maxItems (framing c) items with
  | TooLong f => (LimitExceeded (maxLine c), set_errored (set_framing c f), events)
  | Batch items f => (Items items, set_framing c f, events)
  | Dry items f =>
      if ended c then (last_line c f items, events)
      else if maxLine c <? pendingBytes f then (LimitExceeded (maxLine c), set_errored (set_framing c f), events)
      else
        let c := set_framing c f in
        match events with
        | [] => (Waiting, c, [])
        | ReadFails cause :: events => (PullFailed (reasonFor cause), set_errored c, events)
        | ReadDone reason :: events =>
            let c := set_ended c reason in
            match cancelled c with
            | Some reason => (PullCancelled reason, c, events)
            | None => pullLines maxItems events c items
            end
        | Chunk [] :: events => pullLines maxItems events c items
        | Chunk bytes :: events =>
            match decode_stream (held f) bytes with
            | None => (PullFailed (js "utf8"), set_errored c, events)
            | Some (more, held) =>
                pullLines maxItems events
                  (set_framing c (mkFraming held (text f ++ more) (pendingBytes f + Z.of_nat (length bytes)))) items
            end
        end
  end.

(** ** Events *)

Inductive EventTake : Type :=
| TookEvent (v : value)
| TookEnd
| TookFailed (reason : jstr)
| Interrupted (cancel : option jstr).

(** [Interrupted] carries a cancellation recorded since the last take. *)
Definition set_cancelled (c : ReaderCell) (reason : option jstr) : ReaderCell :=
  mkReader (item c) (maxChunk c) (maxLine c)
    (match cancelled c with Some r => Some r | None => reason end) (errored c) (ended c) (carry c) (framing c).

Fixpoint pullEvents (maxItems : Z) (takes : list EventTake) (c : ReaderCell) (items : list value)
    : pulled value * ReaderCell * list EventTake :=
  if full items maxItems || ended c then (Items items, c, takes)
  else
    match takes with
    | [] => (Waiting, c, [])
    | Interrupted reason :: takes =>
        let c := set_cancelled c reason in
        match cancelled c with
        | Some reason => (PullCancelled reason, c, takes)
        | None => pullEvents maxItems takes c items
        end
    | TookFailed reason :: takes => (PullFailed reason, set_errored c, takes)
    | TookEnd :: takes => pullEvents maxItems takes (set_ended c None) items
    | TookEvent v :: takes => pullEvents maxItems takes c (items ++ [v])
    end.

(** ** The operations of a reader *)

(** What the native source of a cell will answer. *)
Inductive native_source : Type :=
| ByteReads (events : list read_event)
| EventTakes (takes : list EventTake).

(** A batch of any item kind. *)
Inductive batch : Type :=
| ByteBatch (r : pulled (list N))
| LineBatch (r : pulled jstr)
| EventBatch (r : pulled value)
| BatchLimit (limit : Z)
| BatchThrows (failure : string).

(** [useReader]: an errored cell is refused. *)
Definition readMany (maxItems : value) (s : native_source) (c : ReaderCell) : batch * ReaderCell * native_source :=
  match validMaxItems maxItems with
  | None => (BatchLimit (match maxItems with VBigInt m => m | _ => -1 end), c, s)
  | Some max =>
      if errored c then (BatchThrows "resource_state", c, s)
      else
        match item c, s with
        | event_items, EventTakes takes =>
            let '(r, c, takes) := pullEvents max takes c [] in (EventBatch r, c, EventTakes takes)
        | text_items, ByteReads events =>
            let '(r, c, events) := pullLines max events c [] in (LineBatch r, c, ByteReads events)
        | bytes_items, ByteReads events =>
            let '(r, c, events) := pullBytes max events c [] in (ByteBatch r, c, ByteReads events)
        | _, _ => (BatchThrows "invalid reader cell", c, s)
        end
  end.

(** [cancelHandle] before it closes the handle: the first reason stays. *)
Definition record_cancel (c : ReaderCell) (reason : jstr) : ReaderCell := set_cancelled c (Some reason).

(** The native calls of [releaseReader], once the last lease is gone. *)
Inductive native_call : Type := DisposeEvents | CancelReader | ReleaseLock.
Definition releaseReader (c : ReaderCell) : list native_call :=
  match item c with
  | event_items => [DisposeEvents]
  | _ => (if errored c then [] else [CancelReader]) ++ [ReleaseLock]
  end.

(** ** Draining a whole pipe *)

Inductive drain_result : Type :=
| Overflow
| Drained (data : list N)
| DrainFails (cause : option native_cause)
| DrainWaits.

Fixpoint drainStream (byteCap size : Z) (events : list read_event) (chunks : list (list N)) : drain_result :=
  match events with
  | [] => DrainWaits
  | ReadFails cause :: _ => DrainFails cause
  | ReadDone _ :: _ => Drained (concat chunks)
  | Chunk bytes :: events =>
      let length := Z.of_nat (length bytes) in
      if overCap size length byteCap then Overflow
      else drainStream byteCap (size + length) events (if length =? 0 then chunks else chunks ++ [bytes])
  end.

(** ** Writes *)

(** What [sink.write] settles to. *)
Inductive write_event : Type :=
| Wrote (result : value)
| WriteThrows (cause : option native_cause).

Inductive written : Type :=
| Accepted (count : Z)
| WriteFailed (reason : jstr).

Definition acceptedOf (result : value) : option Z :=
  match result with
  | VNum x => match safe_integer x with Some z => if 0 <=? z then Some z else None | None => None end
  | _ => None
  end.

Definition writeSome (chunk : list N) (w : write_event) : written :=
  match w with
  | WriteThrows cause => WriteFailed (reasonFor cause)
  | Wrote result =>
      match acceptedOf result with
      | Some accepted =>
          if Z.of_nat (length chunk) <? accepted then WriteFailed (js "bad_accepted") else Accepted accepted
      | None => WriteFailed (js "bad_accepted")
      end
  end.
