(* ===== verification/StreamTheorems.v ===== *)
(** * Properties of pull streams *)
From stdpp Require Import base list strings.
From Stdlib Require Import ZArith Lia.
From S2P Require Import Prelude JsNumber JsString Unicode Utf8Stream Data JsonCodec Jsonl JsonlCodec Streams.

(** ** Bytes *)

(** A delivered chunk. *)
Definition chunk_ok (cap : Z) (x : list N) : Prop := x <> [] /\ Z.of_nat (length x) <= cap.

Lemma take_chunks_spec cap m fuel : forall carry items,
  1 <= cap -> (length carry <= fuel)%nat ->
  exists new rest, take_chunks fuel cap m carry items = Some (items ++ new, rest)
    /\ concat new ++ rest = carry /\ Forall (chunk_ok cap) new
    /\ (rest = [] \/ full (items ++ new) m = true)
    /\ (new = [] \/ Z.of_nat (length (items ++ new)) <= m).
Proof.
  induction fuel as [|fuel IH]; intros carry items Hcap Hlen; cbn [take_chunks].
  { destruct carry; [| cbn in Hlen; lia]. exists [], []. cbn. rewrite app_nil_r. split_and!; auto. }
  case_bool_decide as Hc; cbn [orb]; [exists [], []; subst; cbn; rewrite app_nil_r; split_and!; auto |].
  destruct (full items m) eqn:Hf.
  { exists [], carry. rewrite app_nil_r. split_and!; auto. }
  unfold full in Hf. apply Z.leb_gt in Hf.
  assert (0 < length carry)%nat as Hpos by (destruct carry; [done | cbn; lia]).
  destruct (IH (drop (Z.to_nat cap) carry) (items ++ [take (Z.to_nat cap) carry])) as (new & rest & Hn & Hj & Ho & Hr & Hm);
    [done | rewrite length_drop; lia |].
  exists (take (Z.to_nat cap) carry :: new), rest. rewrite Hn, <- app_assoc. cbn. split_and!; [done | | | |].
  - rewrite <- app_assoc, Hj. apply take_drop.
  - constructor; [| done]. split.
    + intros H. apply (f_equal length) in H. rewrite length_take in H. cbn in H. lia.
    + rewrite length_take. lia.
  - rewrite <- app_assoc in Hr. done.
  - right. destruct Hm as [-> | Hm].
    + rewrite length_app. cbn. lia.
    + rewrite <- app_assoc in Hm. done.
Qed.

(** The bytes of the chunks a source has left. *)
Definition source_bytes (events : list read_event) : list N :=
  concat ((fun e => match e with Chunk bytes => bytes | _ => [] end) <$> events).

(** A source of chunks that ends. *)
Definition ending_source (events : list read_event) : Prop :=
  exists chunks, events = (Chunk <$> chunks) ++ [ReadDone None].

(** Where a byte cell is: reading, or at the end of its source. *)
Definition byte_state (cap : Z) (c : ReaderCell) (events : list read_event) : Prop :=
  item c = bytes_items /\ errored c = false /\ cancelled c = None /\ chunk_cap c = cap
  /\ (if ended c then carry c = [] /\ events = [] else ending_source events).

Lemma suffix_app_r {A} (l k s : list A) : l `suffix_of` s -> l `suffix_of` k ++ s.
Proof. intros [x ->]. exists (k ++ x). by rewrite app_assoc. Qed.

Lemma pullBytes_spec cap m events : forall c items,
  1 <= cap -> byte_state cap c events -> (items = [] \/ Z.of_nat (length items) <= m) ->
  exists new c' events', pullBytes m events c items = (Items (items ++ new), c', events')
    /\ byte_state cap c' events'
    /\ concat new ++ carry c' ++ source_bytes events' = carry c ++ source_bytes events
    /\ Forall (chunk_ok cap) new
    /\ (full (items ++ new) m = true \/ (carry c' = [] /\ source_bytes events' = []))
    /\ (items ++ new = [] \/ Z.of_nat (length (items ++ new)) <= m)
    /\ (carry c' `suffix_of` carry c \/ exists bytes, Chunk bytes ∈ events /\ carry c' `suffix_of` bytes).
Proof.
  induction events as [|e events IH]; intros c items Hcap (Hi & He & Hn & Hc & Hs) Hlen; cbn [pullBytes]; rewrite Hc.
  - destruct (take_chunks_spec cap m (length (carry c)) (carry c) items Hcap (le_n _)) as (new & rest & -> & Hj & Ho & Hr & Hm).
    destruct (ended c) eqn:Hend; [| destruct Hs as [[|] ?]; done]. destruct Hs as [Hcar _].
    rewrite Hcar in Hj. apply app_eq_nil in Hj as [Hj ->]. cbn [set_carry ended]. rewrite Hend, orb_true_r.
    exists new, (set_carry c []), []. rewrite Hcar. split_and!; try done; [split_and!; try done; cbn; by rewrite Hend | by rewrite Hj | by right | | by left].
    destruct Hm as [-> |]; [| by right]. rewrite app_nil_r. by destruct Hlen; [left | right].
  - destruct (take_chunks_spec cap m (length (carry c)) (carry c) items Hcap (le_n _)) as (new & rest & -> & Hj & Ho & Hr & Hm).
    destruct (ended c) eqn:Hend; [by destruct Hs |].
    assert (items ++ new = [] \/ Z.of_nat (length (items ++ new)) <= m) as Hlen'.
    { destruct Hm as [-> |]; [| by right]. rewrite app_nil_r. by destruct Hlen; [left | right]. }
    assert (rest `suffix_of` carry c) as Hsuf by (rewrite <- Hj; by exists (concat new)).
    cbn [set_carry ended]. rewrite Hend, orb_false_r. destruct (full (items ++ new) m) eqn:Hfull.
    { exists new, (set_carry c rest), (e :: events). cbn [set_carry carry]. split_and!; try done; [split_and!; try done; cbn; by rewrite Hend | | by left | by left].
      by rewrite app_assoc, Hj. }
    destruct Hr as [-> |]; [| done]. rewrite app_nil_r in Hj.
    destruct Hs as [[|chunk chunks] Hs]; injection Hs as -> ->.
    + cbn [set_ended set_carry cancelled]. rewrite Hn.
      set (c1 := set_ended _ None).
      destruct (IH c1 (items ++ new) Hcap) as (new2 & c2 & ev2 & -> & Hst & Hj2 & Ho2 & Hr2 & Hm2 & Hs2); [| done |].
      { split_and!; try done. unfold c1. cbn. by rewrite Hn. }
      exists (new ++ new2), c2, ev2. rewrite <- app_assoc in Hr2, Hm2 |- *. split_and!; try done.
      * cbn in Hj2. rewrite concat_app, <- app_assoc, Hj2, <- Hj. unfold source_bytes. by cbn.
      * by apply Forall_app.
      * left. destruct Hs2 as [Hs2 | (b & Hb & Hs2)]; [| by apply elem_of_nil in Hb].
        cbn in Hs2. etrans; [exact Hs2 |]. apply suffix_nil.
    + set (c1 := set_carry _ _).
      destruct (IH c1 (items ++ new) Hcap) as (new2 & c2 & ev2 & -> & Hst & Hj2 & Ho2 & Hr2 & Hm2 & Hs2); [| done |].
      { split_and!; try done. unfold c1. cbn. rewrite Hend. by exists chunks. }
      exists (new ++ new2), c2, ev2. rewrite <- app_assoc in Hr2, Hm2 |- *. split_and!; try done.
      * cbn in Hj2. rewrite concat_app, <- app_assoc, Hj2, <- Hj. unfold source_bytes. by cbn.
      * by apply Forall_app.
      * right. destruct Hs2 as [Hs2 | (b & Hb & Hs2)].
        -- exists chunk. split; [by left | done].
        -- exists b. split; [by right | done].
Qed.

(** A list of [readMany] calls on one handle. *)
Fixpoint reads (maxes : list Z) (s : native_source) (c : ReaderCell) : list batch * ReaderCell * native_source :=
  match maxes with
  | [] => ([], c, s)
  | m :: maxes =>
      let '(b, c, s) := readMany (VBigInt m) s c in
      let '(bs, c, s) := reads maxes s c in (b :: bs, c, s)
  end.

Lemma validMaxItems_pos m : 1 <= m -> validMaxItems (VBigInt m) = Some m.
Proof. intros H. cbn. by rewrite (proj2 (Z.leb_le 1 m) H). Qed.

Lemma full_spec {A} (items : list A) m : full items m = true <-> m <= Z.of_nat (length items).
Proof. apply Z.leb_le. Qed.

Lemma reads_bytes_spec cap maxes : forall c events,
  1 <= cap -> Forall (fun m => 1 <= m) maxes -> byte_state cap c events ->
  exists batches c' left,
    reads maxes (ByteReads events) c = ((fun b => ByteBatch (Items b)) <$> batches, c', ByteReads left)
    /\ byte_state cap c' left
    /\ concat (concat batches) ++ carry c' ++ source_bytes left = carry c ++ source_bytes events
    /\ Forall (Forall (chunk_ok cap)) batches
    /\ Forall2 (fun b m => Z.of_nat (length b) <= m) batches maxes
    /\ (forall i b m, batches !! i = Some b -> maxes !! i = Some m -> Z.of_nat (length b) < m ->
          concat (concat (take (S i) batches)) = carry c ++ source_bytes events).
Proof.
  induction maxes as [|m maxes IH]; intros c events Hcap Hmax Hst; cbn [reads].
  { exists [], c, events. by split_and!. }
  apply Forall_cons in Hmax as [Hm Hmax]. pose proof Hst as (Hi & He & _). unfold readMany.
  rewrite validMaxItems_pos, He, Hi by done.
  destruct (pullBytes_spec cap m events c [] Hcap Hst) as (new & c1 & ev1 & -> & Hst1 & Hj1 & Ho1 & Hr1 & Hm1 & _); [by left |].
  destruct (IH c1 ev1 Hcap Hmax Hst1) as (batches & c2 & ev2 & -> & Hst2 & Hj2 & Ho2 & Hm2 & Hs2).
  exists (new :: batches), c2, ev2. cbn [concat app] in *. split_and!; [done | done | | by constructor | | ].
  - rewrite concat_app, <- app_assoc, Hj2. done.
  - constructor; [| done]. destruct Hm1 as [-> |]; cbn; lia.
  - intros [|i] b m' Hb Hm' Hlt; cbn [lookup list_lookup take] in *.
    + injection Hb as ->. injection Hm' as ->. cbn [concat]. rewrite app_nil_r.
      destruct Hr1 as [Hr1%full_spec | [Hr1 Hr1']]; [lia |]. rewrite Hr1, Hr1', !app_nil_r in Hj1. done.
    + cbn [concat]. rewrite concat_app, (Hs2 _ _ _ Hb Hm' Hlt). done.
Qed.

Lemma source_bytes_chunks chunks : source_bytes ((Chunk <$> chunks) ++ [ReadDone None]) = concat chunks.
Proof.
  unfold source_bytes. induction chunks as [|x chunks IH]; [done |]. cbn in *. by rewrite IH.
Qed.

(** (Bytes are read whole.)  For every source, every positive chunk limit and
    every list of batch sizes, [readMany] on a byte handle delivers the bytes of
    the source in order: what the batches hold, then the carry, then what the
    source still has is the whole source.  Every delivered chunk is non-empty and
    within the limit, a batch holds no more than asked for, and a short batch
    comes at the end only, when everything has been delivered. *)
Theorem reads_deliver_the_source cap chunks maxes :
  1 <= cap -> Forall (fun m => 1 <= m) maxes ->
  exists batches c left,
    reads maxes (ByteReads ((Chunk <$> chunks) ++ [ReadDone None])) (openByteCell cap)
      = ((fun b => ByteBatch (Items b)) <$> batches, c, ByteReads left)
    /\ concat (concat batches) ++ carry c ++ source_bytes left = concat chunks
    /\ Forall (Forall (chunk_ok (Z.min CHUNK_CLAMP cap))) batches
    /\ Forall2 (fun b m => Z.of_nat (length b) <= m) batches maxes
    /\ (forall i b m, batches !! i = Some b -> maxes !! i = Some m -> Z.of_nat (length b) < m ->
          concat (concat (take (S i) batches)) = concat chunks).
Proof.
  intros Hcap Hmax. rewrite <- (source_bytes_chunks chunks).
  destruct (reads_bytes_spec (Z.min CHUNK_CLAMP cap) maxes (openByteCell cap) ((Chunk <$> chunks) ++ [ReadDone None]))
    as (batches & c & left & Hr & _ & H); [unfold CHUNK_CLAMP; lia | done | | by exists batches, c, left].
  split_and!; try done. by exists chunks.
Qed.

Lemma reads_deliver_the_source_witness :
  exists batches c left,
    reads [2; 1; 3] (ByteReads ((Chunk <$> [[1; 2; 3]; []; [4; 5]]%N) ++ [ReadDone None])) (openByteCell 2)
      = ((fun b => ByteBatch (Items b)) <$> batches, c, ByteReads left)
    /\ concat (concat batches) ++ carry c ++ source_bytes left = concat [[1; 2; 3]; []; [4; 5]]%N
    /\ Forall (Forall (chunk_ok (Z.min CHUNK_CLAMP 2))) batches
    /\ Forall2 (fun b m => Z.of_nat (length b) <= m) batches [2; 1; 3]
    /\ (forall i b m, batches !! i = Some b -> [2; 1; 3] !! i = Some m -> Z.of_nat (length b) < m ->
          concat (concat (take (S i) batches)) = concat [[1; 2; 3]; []; [4; 5]]%N).
Proof. apply reads_deliver_the_source; [lia | repeat constructor; lia]. Defined.

(** ** Failures are terminal *)

(** [r] is a failure of the domain, not a batch. *)
Definition failed_pull {A} (r : pulled A) : bool :=
  match r with PullFailed _ | LimitExceeded _ => true | _ => false end.
Definition failed_batch (b : batch) : bool :=
  match b with ByteBatch r => failed_pull r | LineBatch r => failed_pull r | EventBatch r => failed_pull r | _ => false end.
Definition cancelled_pull {A} (r : pulled A) : option jstr := match r with PullCancelled reason => Some reason | _ => None end.
Definition cancelled_batch (b : batch) : option jstr :=
  match b with ByteBatch r => cancelled_pull r | LineBatch r => cancelled_pull r | EventBatch r => cancelled_pull r | _ => None end.

(** A pull fails and marks the cell errored together; a cancelled pull answers
    the reason the cell records, and marks nothing. *)
Definition pull_marks {A} (r : pulled A) (c c' : ReaderCell) : Prop :=
  item c' = item c
  /\ (errored c' = failed_pull r)
  /\ (forall reason, cancelled_pull r = Some reason -> cancelled c' = Some reason)
  /\ (forall reason, cancelled c = Some reason -> cancelled c' = Some reason).

Lemma pull_marks_trans {A} (r : pulled A) c c1 c' :
  item c1 = item c -> (forall reason, cancelled c = Some reason -> cancelled c1 = Some reason) ->
  pull_marks r c1 c' -> pull_marks r c c'.
Proof.
  intros Hi Hc (H1 & H2 & H3 & H4). split_and!; [by rewrite H1 | done | done |]. intros reason Hr. by apply H4, Hc.
Qed.

(** The result of one branch, or of the next round. *)
Ltac pull_mark IH He :=
  match goal with
  | |- (_, _, _) = _ -> _ => intros [= <- <- <-]; split_and!; cbn; intros; repeat case_match; simplify_eq/=; congruence
  | |- _ = _ -> _ =>
      let H := fresh in
      intros H; apply IH in H; [| by cbn]; revert H; apply pull_marks_trans; [done |]; cbn; intros; repeat case_match; simplify_eq/=; congruence
  end.

Lemma pullBytes_marks m events : forall c items r c' events',
  errored c = false -> pullBytes m events c items = (r, c', events') -> pull_marks r c c'.
Proof.
  induction events as [|[bytes | cause | reason] events IH]; intros c items r c' events' He; cbn [pullBytes];
    destruct (take_chunks _ _ _ _ _) as [[new rest]|]; try (destruct (_ || _)); cbn [set_ended set_carry cancelled];
    try (destruct (cancelled c) eqn:Hc; [| destruct reason]); pull_mark IH He.
Qed.

Lemma last_line_marks c f items r c' : errored c = false -> last_line c f items = (r, c') -> pull_marks r c c'.
Proof.
  unfold last_line. intros He. repeat case_match; intros [= <- <-]; split_and!; cbn; intros; simplify_eq/=; congruence.
Qed.

Lemma pullLines_marks m events : forall c items r c' events',
  errored c = false -> pullLines m events c items = (r, c', events') -> pull_marks r c c'.
Proof.
  induction events as [|[bytes | cause | reason] events IH]; intros c items r c' events' He; cbn [pullLines];
    destruct (drain_lines _ _ _ _ _) as [new f | f | new f]; try pull_mark IH He;
    destruct (ended c) eqn:Hend;
    try (destruct (last_line c f new) as [r0 c0] eqn:Hl; intros [= <- <- <-]; by eapply last_line_marks);
    destruct (_ <? _); try pull_mark IH He.
  - destruct bytes as [|b bytes]; [pull_mark IH He |]. destruct (decode_stream _ _) as [[more h]|]; pull_mark IH He.
  - cbn [set_ended set_framing cancelled]. destruct (cancelled c) eqn:Hc; [| destruct reason]; pull_mark IH He.
Qed.

Lemma pullEvents_marks m takes : forall c items r c' takes',
  errored c = false -> pullEvents m takes c items = (r, c', takes') -> pull_marks r c c'.
Proof.
  induction takes as [|[v | | reason | reason] takes IH]; intros c items r c' takes' He; cbn [pullEvents];
    destruct (_ || _); try pull_mark IH He.
  cbn [set_cancelled cancelled]. destruct (cancelled c) eqn:Hc; [| destruct reason]; pull_mark IH He.
Qed.

(** (A failed read is terminal.)  Whatever the handle, the source and the batch
    size: a read marks its cell errored exactly when it answers a failure
    ([read_failed] or [limit_exceeded] of a line); every later valid read on an
    errored cell is refused with the resource-state failure and reads nothing;
    a read answers [cancelled] only with the reason the cell records, and the
    first recorded reason is never replaced. *)
Theorem read_failure_is_terminal max s c b c' s' :
  readMany max s c = (b, c', s') ->
  errored c' = errored c || failed_batch b
  /\ (errored c' = true -> forall max2 n s2, validMaxItems max2 = Some n ->
        readMany max2 s2 c' = (BatchThrows "resource_state", c', s2))
  /\ (forall reason, cancelled_batch b = Some reason -> cancelled c' = Some reason)
  /\ (forall reason, cancelled c = Some reason ->
        cancelled c' = Some reason /\ (cancelled_batch b = None \/ cancelled_batch b = Some reason)).
Proof.
  intros H. enough (errored c' = errored c || failed_batch b
    /\ (forall reason, cancelled_batch b = Some reason -> cancelled c' = Some reason)
    /\ (forall reason, cancelled c = Some reason -> cancelled c' = Some reason)) as (H1 & H2 & H3).
  { split_and!; [done | | done |].
    - intros He max2 n s2 Hn. unfold readMany. by rewrite Hn, He.
    - intros reason Hr. split; [by apply H3 |]. destruct (cancelled_batch b) as [r'|] eqn:Hb; [right | by left].
      specialize (H3 _ Hr). specialize (H2 _ eq_refl). congruence. }
  unfold readMany in H. destruct (validMaxItems max) as [n|]; [| injection H as <- <- <-; split_and!; [by rewrite orb_false_r | done | done]].
  destruct (errored c) eqn:He; [by injection H as <- <- <-; split_and! |].
  destruct (item c), s as [events | takes]; try (by injection H as <- <- <-; split_and!).
  - destruct (pullBytes n events c []) as [[r c1] ev] eqn:Hp. injection H as <- <- <-.
    by destruct (pullBytes_marks _ _ _ _ _ _ _ He Hp) as (_ & H1 & H2 & H3).
  - destruct (pullLines n events c []) as [[r c1] ev] eqn:Hp. injection H as <- <- <-.
    by destruct (pullLines_marks _ _ _ _ _ _ _ He Hp) as (_ & H1 & H2 & H3).
  - destruct (pullEvents n takes c []) as [[r c1] ev] eqn:Hp. injection H as <- <- <-.
    by destruct (pullEvents_marks _ _ _ _ _ _ _ He Hp) as (_ & H1 & H2 & H3).
Qed.

Lemma read_failure_is_terminal_witness :
  let c := mkReader text_items CHUNK_CLAMP 80 None true false [] (mkFraming [] [] 0) in
  errored c = errored (openLineCell 80) || failed_batch (LineBatch (PullFailed (js "utf8")))
  /\ (errored c = true -> forall max2 n s2, validMaxItems max2 = Some n -> readMany max2 s2 c = (BatchThrows "resource_state", c, s2))
  /\ (forall reason, cancelled_batch (LineBatch (PullFailed (js "utf8"))) = Some reason -> cancelled c = Some reason)
  /\ (forall reason, cancelled (openLineCell 80) = Some reason ->
        cancelled c = Some reason
        /\ (cancelled_batch (LineBatch (PullFailed (js "utf8"))) = None
            \/ cancelled_batch (LineBatch (PullFailed (js "utf8"))) = Some reason)).
Proof.
  apply (read_failure_is_terminal (VBigInt 1) (ByteReads [Chunk [255]%N; Chunk [65]%N]) (openLineCell 80) _ _ (ByteReads [Chunk [65]%N])).
  vm_compute. reflexivity.
Defined.

(** ** Whole pipes *)

Lemma drain_spec cap reason chunks : forall size acc,
  0 <= size <= cap ->
  drainStream cap size ((Chunk <$> chunks) ++ [ReadDone reason]) acc
  = if size + Z.of_nat (length (concat chunks)) <=? cap then Drained (concat acc ++ concat chunks) else Overflow.
Proof.
  induction chunks as [|x chunks IH]; intros size acc Hsize.
  { cbn. rewrite app_nil_r, Z.add_0_r. by rewrite (proj2 (Z.leb_le size cap)) by lia. }
  change ((Chunk <$> x :: chunks) ++ [ReadDone reason]) with (Chunk x :: (Chunk <$> chunks) ++ [ReadDone reason]).
  cbn [drainStream concat]. unfold overCap. rewrite (proj2 (Z.ltb_ge (Z.of_nat (length x)) 0)), (proj2 (Z.ltb_ge size 0)) by lia.
  cbn [orb]. rewrite length_app, Nat2Z.inj_add. destruct (Z.ltb_spec (cap - size) (Z.of_nat (length x))) as [Hlt | Hge].
  - by rewrite (proj2 (Z.leb_gt _ _)) by lia.
  - rewrite IH by lia. rewrite Z.add_assoc. destruct (_ <=? cap); [| done]. f_equal.
    destruct (Z.eqb_spec (Z.of_nat (length x)) 0) as [H0 | _].
    + destruct x; [done | cbn in H0; lia].
    + by rewrite concat_app, <- app_assoc; cbn; rewrite app_nil_r.
Qed.

(** (A drain is exact.)  Draining a pipe that ends answers all of its bytes when
    they fit the cap and overflow otherwise, however they are cut. *)
Theorem drain_is_exact cap reason chunks :
  0 <= cap ->
  drainStream cap 0 ((Chunk <$> chunks) ++ [ReadDone reason]) []
  = if Z.of_nat (length (concat chunks)) <=? cap then Drained (concat chunks) else Overflow.
Proof. intros Hcap. by rewrite drain_spec by lia. Qed.

(** What a write accepts. *)
Lemma write_accepts chunk w n :
  writeSome chunk w = Accepted n <->
  (exists x, w = Wrote (VNum x) /\ safe_integer x = Some n) /\ 0 <= n <= Z.of_nat (length chunk).
Proof.
  unfold writeSome, acceptedOf. split.
  - destruct w as [[]|]; try done. destruct (safe_integer x) as [z|] eqn:Hz; [| done].
    destruct (Z.leb_spec 0 z); [| done]. destruct (Z.ltb_spec (Z.of_nat (length chunk)) z); [done |].
    intros [= <-]. split; [by exists x | done].
  - intros [(x & -> & ->) Hn]. rewrite (proj2 (Z.leb_le 0 n)), (proj2 (Z.ltb_ge _ _)) by lia. done.
Qed.
