(* ===== verification/StreamLines.v ===== *)
(** * The lines of a text stream

    [pullLines] of [Streams] against the lines of the whole decoded text, for
    every way the source cuts its bytes. *)
From stdpp Require Import base list strings sets.
From Stdlib Require Import ZArith Lia.
From S2P Require Import Prelude JsNumber JsString Unicode Utf8Stream Codec Data JsonCodec Jsonl JsonlCodec Streams StreamTheorems JsonCodecTheorems.

(** ** Lines of a text *)

(** What a terminated text has between newlines; a text without its last newline
    has one more. *)
Definition segments (text : jstr) : list jstr :=
  removelast (split_char 10 text) ++ (if bool_decide (incomplete text = []) then [] else [incomplete text]).
Definition text_lines (text : jstr) : list jstr := strip_cr <$> segments text.

Lemma incomplete_none t : 10%N ∉ t -> incomplete t = t.
Proof. intros H. unfold incomplete. by rewrite split_char_none. Qed.

Lemma text_lines_none t : 10%N ∉ t -> text_lines t = if bool_decide (t = []) then [] else [strip_cr t].
Proof.
  intros H. unfold text_lines, segments. rewrite split_char_none, incomplete_none by done. cbn.
  by case_bool_decide.
Qed.

Lemma text_lines_cons line rest : 10%N ∉ line -> text_lines (line ++ 10%N :: rest) = strip_cr line :: text_lines rest.
Proof.
  intros H. unfold text_lines, segments, incomplete. rewrite split_char_app by done.
  pose proof (split_char_nonempty 10 rest) as Hne. by destruct (split_char 10 rest).
Qed.

Lemma next_newline_spec s :
  match next_newline s with
  | Some (line, rest) => s = line ++ 10%N :: rest /\ 10%N ∉ line
  | None => 10%N ∉ s
  end.
Proof.
  induction s as [|u s IH]; cbn; [by intros ?%elem_of_nil |].
  destruct (N.eqb_spec u 10) as [-> | Hu]; [split; [done | by intros ?%elem_of_nil] |].
  destruct (next_newline s) as [[line rest]|].
  - destruct IH as [-> H]. split; [done |]. rewrite not_elem_of_cons. done.
  - rewrite not_elem_of_cons. done.
Qed.

(** ** Sizes of prefixes *)

Lemma byte_size_nonneg s : 0 <= byte_size s.
Proof. unfold byte_size. lia. Qed.

(** A prefix before a unit that is no surrogate is well formed. *)
Lemma well_formed_before a u b :
  is_surrogate u = false -> is_well_formed (a ++ u :: b) = true -> is_well_formed a = true /\ is_well_formed b = true.
Proof.
  intros Hu. assert (is_high_surrogate u = false /\ is_low_surrogate u = false) as [Hh Hl].
  { unfold is_surrogate, is_high_surrogate, is_low_surrogate in *. rewrite !andb_false_iff, !N.leb_gt in *. lia. }
  induction a as [a IH] using (well_founded_induction (well_founded_ltof _ length)). unfold ltof in IH.
  destruct a as [|c a]; cbn [app is_well_formed]; [by rewrite Hh, Hl |].
  destruct (is_high_surrogate c).
  - destruct a as [|d a]; cbn [app]; [by rewrite Hl |]. destruct (is_low_surrogate d); [| done].
    apply IH. cbn. lia.
  - destruct (is_low_surrogate c); [done |]. apply IH. cbn. lia.
Qed.

(** A line without its carriage return is no longer. *)
Lemma strip_cr_size line : is_well_formed line = true -> byte_size (strip_cr line) <= byte_size line.
Proof.
  intros Hw. unfold strip_cr. case_bool_decide as Hl; [| lia]. apply last_Some in Hl as [x ->].
  rewrite removelast_last. apply well_formed_before in Hw as [Hw _]; [| done].
  rewrite byte_size_app by done. pose proof (byte_size_nonneg [13%N]). lia.
Qed.

(** Every segment fits the limit. *)
Definition fits (L : Z) (text : jstr) : Prop := Forall (fun s => byte_size s <= L) (split_char 10 text).

Lemma fits_cons L line rest : 10%N ∉ line -> fits L (line ++ 10%N :: rest) <-> byte_size line <= L /\ fits L rest.
Proof. intros H. unfold fits. rewrite split_char_app by done. by rewrite Forall_cons. Qed.

(** ** Complete lines *)

Definition framing_ok (f : LineFraming) : Prop :=
  is_well_formed (text f) = true /\ pendingBytes f <= byte_size (text f) + len (held f).

Lemma drain_lines_spec L m v fuel : forall f items,
  framing_ok f -> fits L (text f ++ v) -> Z.of_nat (length items) < m -> (length (text f) < fuel)%nat ->
  exists new f', framing_ok f' /\ held f' = held f /\ fits L (text f' ++ v)
    /\ text_lines (text f ++ v) = new ++ text_lines (text f' ++ v)
    /\ ((drain_lines fuel L m f items = Batch (items ++ new) f' /\ Z.of_nat (length (items ++ new)) = m)
        \/ (drain_lines fuel L m f items = Dry (items ++ new) f' /\ Z.of_nat (length (items ++ new)) < m
            /\ 10%N ∉ text f')).
Proof.
  induction fuel as [|fuel IH]; intros f items [Hw Hp] Hfit Hm Hlen; [lia |]. cbn [drain_lines].
  pose proof (next_newline_spec (text f)) as Hn. destruct (next_newline (text f)) as [[line rest]|].
  2: { exists [], f. rewrite app_nil_r. split_and!; try done. by right. }
  destruct Hn as [Ht Hl]. rewrite Ht in Hw, Hlen, Hfit |- *. rewrite <- app_assoc in Hfit |- *. cbn [app] in Hfit |- *.
  apply (fits_cons L line _ Hl) in Hfit as [Hle Hfit].
  apply well_formed_before in Hw as [Hwl Hwr]; [| done].
  pose proof (strip_cr_size line Hwl) as Hs. rewrite (proj2 (Z.ltb_ge L _)) by lia. cbn [held pendingBytes].
  set (f1 := mkFraming (held f) rest (byte_size rest)).
  assert (framing_ok f1) as Hok1 by (split; [done | cbn; unfold len; lia]).
  rewrite length_app in Hlen. cbn in Hlen.
  destruct (full (items ++ [strip_cr line]) m) eqn:Hfull.
  - exists [strip_cr line], f1. apply full_spec in Hfull. rewrite length_app in *. cbn [length text f1] in *.
    split_and!; try done; [by rewrite text_lines_cons |]. left. split; [done | lia].
  - unfold full in Hfull. apply Z.leb_gt in Hfull.
    destruct (IH f1 (items ++ [strip_cr line]) Hok1) as (new & f2 & Hok2 & Hh2 & Hf2 & Ht2 & Hd); [done | done | cbn; lia |].
    exists (strip_cr line :: new), f2. rewrite <- app_assoc in Hd. split_and!; try done.
    rewrite text_lines_cons by done. cbn [app]. f_equal. exact Ht2.
Qed.

(** ** One pull *)

(** Where a text cell is when [rest] is the text still to be delivered. *)
Definition line_state (L : Z) (rest : jstr) (c : ReaderCell) (events : list read_event) : Prop :=
  item c = text_items /\ errored c = false /\ cancelled c = None /\ maxLine c = L
  /\ framing_ok (framing c) /\ holds (held (framing c)) /\ fits L rest
  /\ (if ended c then events = [] /\ held (framing c) = [] /\ rest = text (framing c)
      else exists chunks v, events = (Chunk <$> chunks) ++ [ReadDone None]
             /\ decode_stream (held (framing c)) (concat chunks) = Some (v, []) /\ rest = text (framing c) ++ v).

(** The pending bytes belong to the segment they begin, so they fit. *)
Lemma pending_fits L f bytes v :
  framing_ok f -> holds (held f) -> 10%N ∉ text f -> fits L (text f ++ v) ->
  decode_stream (held f) bytes = Some (v, []) -> pendingBytes f <= L.
Proof.
  intros [Hw Hp] Hh Hn Hfit Hd. unfold decode_stream in Hd.
  destruct (decode_scalars (held f) bytes) as [[cs h]|] eqn:Hds; [| done]. injection Hd as <- ->.
  assert (exists seg u, 10%N ∉ seg /\ (text f ++ scalars_text cs = seg \/ text f ++ scalars_text cs = seg ++ 10%N :: u)
    /\ byte_size (text f) + len (held f) <= byte_size seg) as (seg & u & Hseg & Hcut & Hsize).
  { destruct (decode_scalars_sound _ _ _ _ Hh Hds) as (_ & Hs & _). destruct Hh as [Hh | Hh].
    - rewrite Hh in *. pose proof (next_newline_spec (scalars_text cs)) as Hnl.
      destruct (next_newline _) as [[line u]|].
      + destruct Hnl as [-> Hl]. exists (text f ++ line), u. rewrite <- app_assoc. split_and!; [set_solver | by right |].
        rewrite byte_size_app by done. pose proof (byte_size_nonneg line). unfold len. cbn. lia.
      + exists (text f ++ scalars_text cs), []. split_and!; [set_solver | by left |].
        rewrite byte_size_app by done. pose proof (byte_size_nonneg (scalars_text cs)). unfold len. cbn. lia.
    - destruct (decode_held_next _ _ _ Hh Hds) as (c & cs' & -> & Hlen & Hc).
      apply Forall_cons in Hs as [Hc0 Hs].
      destruct (scalars_text_size [c]) as [Hwc Hec]; [by repeat constructor |].
      change (concat (Unicode.utf8 <$> [c])) with (Unicode.utf8 c ++ []) in Hec. rewrite app_nil_r in Hec.
      assert (10%N ∉ scalars_text [c]) as Hnc.
      { unfold scalars_text, utf16. cbn. generalize ((c - 0x10000) / 0x400)%N ((c - 0x10000) mod 0x400)%N.
        intros. destruct (c <? 0x10000)%N; cbn; rewrite !not_elem_of_cons; split_and!; (lia || by intros ?%elem_of_nil). }
      change (scalars_text (c :: cs')) with (utf16 c ++ scalars_text cs') in *.
      change (scalars_text [c]) with (utf16 c ++ []) in Hwc, Hec, Hnc. rewrite app_nil_r in Hwc, Hec, Hnc.
      assert (byte_size (utf16 c) = Z.of_nat (length (Unicode.utf8 c))) as Hbc by exact (f_equal (fun x => Z.of_nat (length x)) Hec).
      assert (is_well_formed (text f ++ utf16 c) = true) as Hwt by by apply well_formed_both.
      assert (byte_size (text f) + len (held f) <= byte_size (text f ++ utf16 c)) as Hle by (rewrite byte_size_app by done; unfold len; lia).
      pose proof (next_newline_spec (scalars_text cs')) as Hnl. destruct (next_newline _) as [[line u]|].
      + destruct Hnl as [-> Hl]. exists ((text f ++ utf16 c) ++ line), u. rewrite <- !app_assoc. split_and!; [set_solver | by right |].
        rewrite app_assoc, byte_size_app by done. pose proof (byte_size_nonneg line). lia.
      + exists ((text f ++ utf16 c) ++ scalars_text cs'), []. rewrite <- !app_assoc. split_and!; [set_solver | by left |].
        rewrite app_assoc, byte_size_app by done. pose proof (byte_size_nonneg (scalars_text cs')). lia. }
  enough (byte_size seg <= L) by lia. destruct Hcut as [Hcut | Hcut]; rewrite Hcut in Hfit.
  - unfold fits in Hfit. rewrite split_char_none in Hfit by done. by apply Forall_cons in Hfit as [? _].
  - by apply (fits_cons L seg u Hseg) in Hfit as [? _].
Qed.

(** What one pull of lines promises: a full batch, or the rest of the text. *)
Definition line_pull (L m : Z) (rest : jstr) (items : list jstr) (r : pulled jstr * ReaderCell * list read_event) : Prop :=
  exists new c' events' rest', r = (Items (items ++ new), c', events')
    /\ line_state L rest' c' events'
    /\ text_lines rest = new ++ text_lines rest'
    /\ (Z.of_nat (length (items ++ new)) = m
        \/ (Z.of_nat (length (items ++ new)) < m /\ rest' = [] /\ ended c' = true)).

Lemma line_pull_more L m rest rest1 items new1 r :
  text_lines rest = new1 ++ text_lines rest1 -> line_pull L m rest1 (items ++ new1) r -> line_pull L m rest items r.
Proof.
  intros Ht (new & c & ev & rest' & -> & Hst & Hl & Hlen). rewrite <- app_assoc in *.
  exists (new1 ++ new), c, ev, rest'. split_and!; try done. by rewrite Ht, Hl, app_assoc.
Qed.

Lemma fits_nonneg L text : fits L text -> 0 <= L.
Proof.
  unfold fits. pose proof (split_char_nonempty 10 text) as Hne. destruct (split_char 10 text) as [|s ss]; [done |].
  intros [H _]%Forall_cons. pose proof (byte_size_nonneg s). lia.
Qed.

Lemma line_state_end L c f :
  item c = text_items -> errored c = false -> cancelled c = None -> maxLine c = L -> ended c = true -> 0 <= L ->
  text f = [] -> held f = [] -> pendingBytes f <= 0 -> line_state L [] (set_framing c f) [].
Proof.
  intros Hi He Hn Hm Hend HL Ht Hh Hp. unfold line_state, framing_ok. cbn. rewrite Hend, Ht, Hh.
  change (byte_size [] + len []) with 0. split_and!; try done; [by left |]. unfold fits. by repeat constructor.
Qed.

(** At the end of the source: the unterminated rest is the last line. *)
Lemma last_line_spec L m c f items :
  line_state L (text f) (set_framing c f) [] -> ended c = true -> 10%N ∉ text f -> Z.of_nat (length items) < m ->
  line_pull L m (text f) items (last_line c f items, []).
Proof.
  intros (Hi & He & Hn & Hm & [Hw Hp] & Hh & Hfit & Hst) Hend Hnl Hlen. cbn in *. rewrite Hend in Hst.
  destruct Hst as (_ & Hheld & _). unfold line_pull, last_line. rewrite text_lines_none by done.
  case_bool_decide as Ht; cbn [negb orb].
  - rewrite Hheld, Ht in Hp. change (byte_size [] + len []) with 0 in Hp. rewrite (proj2 (Z.ltb_ge 0 _)) by lia.
    exists [], (set_framing c f), [], []. rewrite app_nil_r. split_and!; [done | | done | by right].
    apply line_state_end; try done. by eapply fits_nonneg.
  - rewrite Hheld. cbn [decode_flush bool_decide]. cbn. rewrite app_nil_r.
    pose proof (strip_cr_size (text f) Hw) as Hs. unfold fits in Hfit. rewrite split_char_none in Hfit by done.
    apply Forall_cons in Hfit as [Hfit _]. rewrite (proj2 (Z.ltb_ge _ _)) by lia.
    exists [strip_cr (text f)], (set_framing c (mkFraming [] [] 0)), [], []. split_and!; try done.
    + apply line_state_end; try done. pose proof (byte_size_nonneg (text f)). lia.
    + rewrite length_app. cbn. destruct (decide (Z.of_nat (length items) + 1 = m)); [left; lia | right; split_and!; [lia | done | done]].
Qed.

(** Dropping delivered lines from the carried text keeps the state. *)
Lemma line_state_framing L rest c events :
  line_state L rest c events ->
  exists v, rest = text (framing c) ++ v /\
    forall f, framing_ok f -> held f = held (framing c) -> fits L (text f ++ v) ->
      line_state L (text f ++ v) (set_framing c f) events.
Proof.
  intros (Hi & He & Hn & Hm & Hok & Hh & Hfit & Hst). destruct (ended c) eqn:Hend.
  - destruct Hst as (-> & Hheld & Hr). exists []. rewrite app_nil_r. split; [done |]. intros f Hf Hhf. rewrite app_nil_r.
    intros Hfit'. unfold line_state. cbn. rewrite Hend, Hhf. by split_and!.
  - destruct Hst as (chunks & v & -> & Hd & Hr). exists v. split; [done |]. intros f Hf Hhf Hfit'.
    unfold line_state. cbn. rewrite Hend, Hhf. split_and!; try done. by exists chunks, v.
Qed.

(** A native chunk of the source moves its text into the carried text. *)
Lemma line_state_chunk L c events chunk chunks v :
  line_state L (text (framing c) ++ v) c (Chunk chunk :: events) -> ended c = false ->
  events = (Chunk <$> chunks) ++ [ReadDone None] ->
  decode_stream (held (framing c)) (chunk ++ concat chunks) = Some (v, []) ->
  exists more h, decode_stream (held (framing c)) chunk = Some (more, h) /\
    line_state L (text (framing c) ++ v)
      (set_framing c (mkFraming h (text (framing c) ++ more) (pendingBytes (framing c) + len chunk))) events.
Proof.
  intros (Hi & He & Hn & Hm & [Hw Hp] & Hh & Hfit & Hst) Hend -> Hd. rewrite decode_stream_app in Hd.
  destruct (decode_stream (held (framing c)) chunk) as [[more h]|] eqn:Hmore; [| done].
  destruct (decode_stream h (concat chunks)) as [[v' h']|] eqn:Hv'; [| done]. injection Hd as <- ->.
  exists more, h. split; [done |]. unfold decode_stream in Hmore.
  destruct (decode_scalars (held (framing c)) chunk) as [[cs h1]|] eqn:Hds; [| done]. injection Hmore as <- ->.
  destruct (decode_scalars_sound _ _ _ _ Hh Hds) as (Hj & Hs & Hh1).
  destruct (scalars_text_size cs Hs) as [Hwm Hem].
  assert (byte_size (scalars_text cs) + len h = len (held (framing c)) + len chunk) as Hsize.
  { unfold byte_size, len. rewrite Hem. apply (f_equal length) in Hj. rewrite !length_app in Hj. lia. }
  unfold line_state. cbn. rewrite Hend. split_and!; try done.
  - split; [by apply well_formed_both |]. cbn. rewrite byte_size_app by done. lia.
  - exists chunks, v'. by rewrite app_assoc.
Qed.

Lemma pullLines_spec L m events : forall c items rest,
  line_state L rest c events -> Z.of_nat (length items) < m ->
  line_pull L m rest items (pullLines m events c items).
Proof.
  induction events as [|e events IH]; intros c items rest Hst Hlen.
  all: destruct (line_state_framing _ _ _ _ Hst) as (v & -> & Hframe).
  all: destruct Hst as (Hi & He & Hn & Hm & Hok & Hh & Hfit & Hst); cbn [pullLines]; rewrite Hm.
  all: destruct (drain_lines_spec L m v (S (length (text (framing c)))) (framing c) items Hok Hfit Hlen (Nat.lt_succ_diag_r _))
    as (new & f & Hok1 & Hheld & Hfit1 & Htl & [[-> Hfull] | (-> & Hfull & Hnl)]);
    specialize (Hframe f Hok1 Hheld Hfit1).
  all: try (exists new, (set_framing c f); eexists _, _; split_and!; [done | exact Hframe | done | by left]).
  all: apply (line_pull_more L m _ _ items new _ Htl); clear Htl Hfit Hok Hst Hlen.
  - destruct (ended c) eqn:Hend.
    + assert (v = []) as ->.
      { destruct Hframe as (_ & _ & _ & _ & _ & _ & _ & Hst). cbn in Hst. rewrite Hend in Hst. destruct Hst as (_ & _ & Hst).
        by rewrite <- (app_nil_r (text f)) in Hst at 2; apply app_inv_head in Hst. }
      rewrite app_nil_r in *. by apply last_line_spec.
    + exfalso. destruct Hframe as (_ & _ & _ & _ & _ & _ & _ & Hst). cbn in Hst. rewrite Hend in Hst.
      destruct Hst as ([|] & ? & ? & _); done.
  - pose proof Hframe as (_ & _ & _ & _ & _ & _ & _ & Hst). cbn in Hst.
    destruct (ended c) eqn:Hend; [by destruct Hst |]. destruct Hst as (chunks & v1 & Hev & Hd & Hr).
    apply app_inv_head in Hr as <-.
    assert (pendingBytes f <= L) as Hpend by (eapply pending_fits; [done | by rewrite Hheld | done | done | exact Hd]).
    rewrite (proj2 (Z.ltb_ge _ _)) by done. destruct chunks as [|chunk chunks]; injection Hev as -> Hev.
    + cbn [set_ended set_framing cancelled]. rewrite Hn. apply IH; [| done].
      injection Hd as Hv Hheld0. cbn in Hv. subst v. rewrite app_nil_r in *. rewrite Hev.
      destruct Hframe as (? & ? & ? & ? & ? & ? & ? & _). unfold line_state. cbn in *. rewrite Hn. split_and!; try done.
    + destruct chunk as [|b chunk].
      { apply IH; [| done]. destruct Hframe as (? & ? & ? & ? & ? & ? & ? & _). unfold line_state. cbn in *.
        rewrite Hend. split_and!; try done. by exists chunks, v. }
      destruct (line_state_chunk L (set_framing c f) events (b :: chunk) chunks v Hframe Hend Hev Hd) as (more & h & Hmore & Hst).
      cbn [framing set_framing] in Hmore. rewrite Hmore. by apply IH.
Qed.

(** ** Reads *)

Lemma reads_lines_spec L maxes : forall c events rest,
  Forall (fun m => 1 <= m) maxes -> line_state L rest c events ->
  exists batches c' left rest',
    reads maxes (ByteReads events) c = ((fun b => LineBatch (Items b)) <$> batches, c', ByteReads left)
    /\ text_lines rest = concat batches ++ text_lines rest'
    /\ Forall2 (fun b m => Z.of_nat (length b) <= m) batches maxes
    /\ (forall i b m, batches !! i = Some b -> maxes !! i = Some m -> Z.of_nat (length b) < m ->
          concat (take (S i) batches) = text_lines rest).
Proof.
  induction maxes as [|m maxes IH]; intros c events rest Hmax Hst; cbn [reads].
  { exists [], c, events, rest. by split_and!. }
  apply Forall_cons in Hmax as [Hm Hmax]. pose proof Hst as (Hi & He & _). unfold readMany.
  rewrite validMaxItems_pos, He, Hi by done.
  destruct (pullLines_spec L m events c [] rest Hst) as (new & c1 & ev1 & rest1 & -> & Hst1 & Hl1 & Hb1); [cbn; lia |].
  destruct (IH c1 ev1 rest1 Hmax Hst1) as (batches & c2 & ev2 & rest2 & -> & Hl2 & Hm2 & Hs2).
  exists (new :: batches), c2, ev2, rest2. cbn [concat app] in *. split_and!; [done | | |].
  - by rewrite Hl1, Hl2, app_assoc.
  - constructor; [lia | done].
  - intros [|i] b m' Hb Hm' Hlt; cbn [lookup list_lookup take] in *.
    + injection Hb as ->. injection Hm' as ->. destruct Hb1 as [Hb1 | (_ & -> & _)]; [lia |].
      cbn [concat]. by rewrite Hl1, !app_nil_r.
    + cbn [concat]. by rewrite (Hs2 _ _ _ Hb Hm' Hlt), Hl1.
Qed.

Lemma open_line_state L chunks T :
  utf8_decode (concat chunks) = Some T -> fits L T ->
  line_state L T (openLineCell L) ((Chunk <$> chunks) ++ [ReadDone None]).
Proof.
  intros HT Hfit. rewrite decode_stream_whole in HT.
  destruct (decode_stream [] (concat chunks)) as [[t h]|] eqn:Hd; [| done].
  unfold decode_flush in HT. case_bool_decide; [subst h | done]. injection HT as <-. rewrite app_nil_r in *.
  unfold line_state. cbn. split_and!; try done; [by left |]. by exists chunks, t.
Qed.

(** C39. (Lines are read whole.)  However a source cuts the bytes of a text into
    chunks, and whatever batch sizes are asked for, [readMany] on a line handle
    delivers the lines of the decoded text in order, each without its line
    break and one carriage return: no line is lost, split or repeated, no scalar
    cut by a chunk boundary is mangled, a batch holds no more lines than asked
    for, and a short batch comes at the end only, after which every line has
    been delivered.  Every segment must fit [maxLine]; the read then never
    reports [limit_exceeded]. *)
Theorem lines_deliver_the_text L chunks T maxes :
  utf8_decode (concat chunks) = Some T -> fits L T -> Forall (fun m => 1 <= m) maxes ->
  exists batches c left rest,
    reads maxes (ByteReads ((Chunk <$> chunks) ++ [ReadDone None])) (openLineCell L)
      = ((fun b => LineBatch (Items b)) <$> batches, c, ByteReads left)
    /\ text_lines T = concat batches ++ rest
    /\ Forall2 (fun b m => Z.of_nat (length b) <= m) batches maxes
    /\ (forall i b m, batches !! i = Some b -> maxes !! i = Some m -> Z.of_nat (length b) < m ->
          concat (take (S i) batches) = text_lines T).
Proof.
  intros HT Hfit Hmax.
  destruct (reads_lines_spec L maxes _ _ T Hmax (open_line_state L chunks T HT Hfit))
    as (batches & c & left & rest & Hr & Hl & Hm & Hs).
  by exists batches, c, left, (text_lines rest).
Qed.

Lemma lines_deliver_the_text_witness :
  exists batches c left rest,
    reads [1; 2; 5] (ByteReads ((Chunk <$> [js "a" ++ [13%N]; 10%N :: [0xE2%N]; [0x82; 0xAC; 10]%N; js "z"]) ++ [ReadDone None]))
      (openLineCell 3) = ((fun b => LineBatch (Items b)) <$> batches, c, ByteReads left)
    /\ text_lines (js "a" ++ [13; 10; 0x20AC; 10]%N ++ js "z") = concat batches ++ rest
    /\ Forall2 (fun b m => Z.of_nat (length b) <= m) batches [1; 2; 5]
    /\ (forall i b m, batches !! i = Some b -> [1; 2; 5] !! i = Some m -> Z.of_nat (length b) < m ->
          concat (take (S i) batches) = text_lines (js "a" ++ [13; 10; 0x20AC; 10]%N ++ js "z")).
Proof.
  apply lines_deliver_the_text; [vm_compute; reflexivity | | repeat constructor; lia].
  unfold fits. apply Forall_forall. intros s Hs. vm_compute in Hs.
  repeat (apply elem_of_cons in Hs as [-> | Hs]; [vm_compute; discriminate |]). by apply elem_of_nil in Hs.
Defined.

(** ** Faults at the end of a source *)

(** A text the decoder refuses at its end: a newline and half a scalar. *)
Definition half_scalar : list N := js "a" ++ [10; 0xC3]%N.

(** (Malformed endings are lost.)  "malformed input fails the read, never
    substitutes": a source that ends inside a scalar does fail with
    [read_failed("utf8")] when the newline and the half scalar come in separate
    chunks.  In one chunk [pullLines] resets [pendingBytes] to the size of the
    carried text, which the bytes held by the decoder are no part of; the end
    of the source then finds nothing pending, never flushes the decoder and
    answers the lines before it as a whole stream, though the same bytes are
    no UTF-8. *)
Theorem malformed_end_depends_on_chunks :
  utf8_decode half_scalar = None
  /\ (reads [1; 1] (ByteReads [Chunk (take 2 half_scalar); Chunk (drop 2 half_scalar); ReadDone None]) (openLineCell 80)).1.1
     = [LineBatch (Items [js "a"]); LineBatch (PullFailed (js "utf8"))]
  /\ (reads [1; 1] (ByteReads [Chunk half_scalar; ReadDone None]) (openLineCell 80)).1.1
     = [LineBatch (Items [js "a"]); LineBatch (Items [])].
Proof. split_and!; vm_compute; reflexivity. Qed.

(** (The limit and carriage returns.)  The limit of a line counts its bytes
    without the line break, but a line of exactly [maxLine] bytes is refused
    when the chunk ends between its carriage return and its newline. *)
Theorem limit_depends_on_chunks :
  let line := js "abc" ++ [13; 10]%N in
  (reads [1] (ByteReads [Chunk line; ReadDone None]) (openLineCell 3)).1.1 = [LineBatch (Items [js "abc"])]
  /\ (reads [1] (ByteReads [Chunk (take 4 line); Chunk (drop 4 line); ReadDone None]) (openLineCell 3)).1.1
     = [LineBatch (LimitExceeded 3)].
Proof. split; vm_compute; reflexivity. Qed.
