(* ===== verification/Callable.v ===== *)
(** * Owned callables and their workers

    [src/runtime/callable.ts]: the receipt of an owned callable, and the three
    kinds of synchronous workers that the compiler registers with a callable it
    has proved pure.  Functions are objects of the heap of [Data]; what a call of
    one answers is an argument, since their bodies are generated code.  Then the
    properties of registered workers. *)
From stdpp Require Import base sets gmap list strings sorting.
From Stdlib Require Import ZArith Lia.
From S2P Require Import Prelude JsNumber JsString Completion Data.

(** ** What a call answers *)

(** A synchronous call of generated code: a completion, something else, or an
    exception. *)
Inductive call_result (A : Type) : Type :=
| Returned (c : Completion A)
| Unboxed
| Raised (t : thrown).
Arguments Returned {A} c.
Arguments Unboxed {A}.
Arguments Raised {A} t.

(** [invoke] and [invokeSync] of [completion.ts], the boundary around a call. *)
Definition invoke {A} (r : call_result A) (origin : string) : Completion A :=
  match r with
  | Returned c => c
  | Unboxed => caught (ThrownNative "TypeError: call returned an unboxed result") origin
  | Raised t => caught t origin
  end.

(** A call of a worker's companion: an integer, another value, or an exception. *)
Inductive companion_result : Type :=
| OutInt (z : Z)
| OutOther
| OutThrow (t : thrown).

(** The value of [caught(new TypeError(...), origin)], which the workers throw. *)
Definition non_bigint (who origin : string) : thrown :=
  ThrownStandard (mkStandard native_exception ("TypeError: " ++ who ++ " returned non-bigint") origin).

(** ** Descriptors *)

Section descriptors.
Context (h : heap).
(** [Object.getPrototypeOf(o) === Array.prototype] *)
Context (array_prototype : loc -> bool).

Definition is_host_proxy (v : value) : bool :=
  match v with
  | VRef l => match objects h !! l with Some o => is_proxy o | None => false end
  | _ => false
  end.

Definition typeof_function (v : value) : option loc :=
  match v with
  | VRef l => match objects h !! l with Some o => if is_function o then Some l else None | None => None end
  | _ => None
  end.

(** [typeof v === "object"] and not null: the object. *)
Definition typeof_record (v : value) : option (loc * object) :=
  match v with
  | VRef l => match objects h !! l with Some o => if is_function o then None else Some (l, o) | None => None end
  | _ => None
  end.

(** The same, and no proxy. *)
Definition plain_record (v : value) : option (loc * object) :=
  match typeof_record v with
  | Some (l, o) => if is_proxy o then None else Some (l, o)
  | None => None
  end.

Definition ownDataValue (holder : value) (k : jstr) : value :=
  match holder with
  | VRef l =>
      match objects h !! l with
      | Some o =>
          if is_proxy o then VUndefined
          else match find_prop (props o) (KStr k) with Some (DataProp v) => v | _ => VUndefined end
      | None => VUndefined
      end
  | _ => VUndefined
  end.

(** [Object.keys(value).length] of a plain object *)
Definition key_count (o : object) : nat := length (filter (fun k => k <> nominal) (props o).*1).

(** [typeof v === "number" && Number.isInteger(v)] *)
Definition integer_number (v : value) : option Z :=
  match v with VNum x => num_to_Z x | _ => None end.

(** A companion function with its own [length]. *)
Record IntegerWorkerDescriptor : Type := mkIntegerDescriptor {
  iw_companion : loc; iw_positions : list Z; iw_arity : Z; iw_origin : loc
}.

(** The slots from [index] on: ascending natural numbers. *)
Fixpoint position_slots (positions : value) (count : nat) (index : nat) (slots : list Z) : option (list Z) :=
  match count with
  | O => Some slots
  | S count =>
      match integer_number (ownDataValue positions (dec_of_N (N.of_nat index))) with
      | None => None
      | Some slot =>
          if slot <? 0 then None
          else if match last slots with Some prior => slot <=? prior | None => false end then None
          else position_slots positions count (S index) (slots ++ [slot])
      end
  end.

Definition integerWorkerDescriptor (v : value) : option IntegerWorkerDescriptor :=
  match plain_record v with
  | None => None
  | Some (_, o) =>
      if negb (bool_decide (key_count o = 4%nat)) then None
      else
        match typeof_function (ownDataValue v (js "companion")),
              plain_record (ownDataValue v (js "positions")),
              integer_number (ownDataValue v (js "arity")),
              plain_record (ownDataValue v (js "origin")) with
        | Some companion, Some (lp, positions), Some arity, Some (origin, _) =>
            if negb (is_array positions && array_prototype lp) then None
            else
              match integer_number (ownDataValue (VRef companion) (js "length")) with
              | None => None
              | Some length_ =>
                  if length_ <? 0 then None
                  else
                    match integer_number (ownDataValue (VRef lp) (js "length")) with
                    | None => None
                    | Some count =>
                        if (count <? 0) || (length_ <? count) then None
                        else
                          match position_slots (VRef lp) (Z.to_nat count) 0 [] with
                          | None => None
                          | Some slots =>
                              if negb (Z.of_nat (length slots) + arity =? length_) then None
                              else Some (mkIntegerDescriptor companion slots arity origin)
                          end
                    end
              end
        | _, _, _, _ => None
        end
  end.

Definition key_kind (v : value) : option jstr :=
  match v with
  | VStr k => if bool_decide (k ∈ [js "int"; js "bool"; js "str"]) then Some k else None
  | _ => None
  end.

Definition has_length (f : loc) (n : Z) : bool :=
  match ownDataValue (VRef f) (js "length") with
  | VNum x => bool_decide (num_to_Z x = Some n)
  | _ => false
  end.

Record MapLeafWorkerDescriptor : Type := mkLeafDescriptor {
  ml_companion : loc; ml_keyKind : jstr; ml_origin : loc
}.

Definition mapLeafWorkerDescriptor (v : value) : option MapLeafWorkerDescriptor :=
  match plain_record v with
  | None => None
  | Some (_, o) =>
      if negb (bool_decide (key_count o = 3%nat)) then None
      else
        match typeof_function (ownDataValue v (js "companion")), key_kind (ownDataValue v (js "keyKind")),
              plain_record (ownDataValue v (js "origin")) with
        | Some companion, Some kind, Some (origin, _) =>
            if has_length companion 2 then Some (mkLeafDescriptor companion kind origin) else None
        | _, _, _ => None
        end
  end.

Record MapBatchWorkerDescriptor : Type := mkBatchDescriptor {
  mb_absent : loc; mb_present : loc; mb_keyKind : jstr; mb_origin : loc; mb_factory : loc
}.

Definition mapBatchWorkerDescriptor (v : value) : option MapBatchWorkerDescriptor :=
  match plain_record v with
  | None => None
  | Some (_, o) =>
      if negb (bool_decide (key_count o = 5%nat)) then None
      else
        match typeof_function (ownDataValue v (js "absent")), typeof_function (ownDataValue v (js "present")),
              key_kind (ownDataValue v (js "keyKind")), plain_record (ownDataValue v (js "origin")),
              typeof_function (ownDataValue v (js "factory")) with
        | Some absent, Some present, Some kind, Some (origin, _), Some factory =>
            if has_length absent 1 && has_length present 2
            then Some (mkBatchDescriptor absent present kind origin factory) else None
        | _, _, _, _, _ => None
        end
  end.

End descriptors.

(** ** Registered workers *)

(** [operands] of a call: the captures at their positions, the residual
    arguments in the other slots; [None] is [undefined]. *)
Fixpoint operands (total : nat) (slot : Z) (positions : list Z) (saved residual : list Z) : list (option Z) :=
  match total with
  | O => []
  | S total =>
      match positions with
      | p :: positions' =>
          if slot =? p then head saved :: operands total (slot + 1) positions' (tail saved) residual
          else head residual :: operands total (slot + 1) positions saved (tail residual)
      | [] => head residual :: operands total (slot + 1) positions saved (tail residual)
      end
  end.

Record IntegerWorker : Type := mkIntegerWorker {
  w_companion : loc; w_positions : list Z; w_saved : list Z; w_arity : Z; w_origin : loc
}.
Record MapLeafWorker : Type := mkLeafWorker { lw_companion : loc; lw_keyKind : jstr }.
Record MapBatchWorker : Type := mkBatchWorker {
  bw_absent : loc; bw_present : loc; bw_keyKind : jstr; bw_factory : loc; bw_origin : loc
}.

(** The worker's [run], given what its companion answers. *)
Definition run_integer (call : loc -> list (option Z) -> companion_result) (origins : loc -> string)
    (w : IntegerWorker) (residual : list Z) : Z + thrown :=
  let total := Z.to_nat (Z.of_nat (length (w_positions w)) + w_arity w) in
  match call (w_companion w) (operands total 0 (w_positions w) (w_saved w) residual) with
  | OutInt z => inl z
  | OutOther => inr (non_bigint "integer worker" (origins (w_origin w)))
  | OutThrow t => inr t
  end.

(** [checkedAbsent] and [checkedPresent] *)
Definition checked_batch (out : companion_result) (origin : string) : Z + thrown :=
  match out with
  | OutInt z => inl z
  | OutOther => inr (non_bigint "map batch worker" origin)
  | OutThrow t => inr t
  end.

(** ** The registry *)

Section registry.
(** What identifies an instance ([CallableIdentity]). *)
Context {Id : Type}.

Record Receipt : Type := mkReceipt {
  rc_identity : Id; rc_site : jstr; rc_target : jstr; rc_captures : list value
}.

(** The weak maps of the module, the captures [owner-core.ts] keeps for launches,
    and the functions that have been frozen. *)
Record registry : Type := mkRegistry {
  receipts : gmap loc Receipt;
  resourceCaptures : gmap loc (list value);
  integerWorkers : gmap loc IntegerWorker;
  mapLeafWorkers : gmap loc MapLeafWorker;
  mapBatchWorkers : gmap loc MapBatchWorker;
  frozenFunctions : gset loc
}.

Definition set_integer (f : loc) (w : IntegerWorker) (r : registry) : registry :=
  mkRegistry (receipts r) (resourceCaptures r) (<[f := w]> (integerWorkers r)) (mapLeafWorkers r) (mapBatchWorkers r) (frozenFunctions r).
Definition set_leaf (f : loc) (w : MapLeafWorker) (r : registry) : registry :=
  mkRegistry (receipts r) (resourceCaptures r) (integerWorkers r) (<[f := w]> (mapLeafWorkers r)) (mapBatchWorkers r) (frozenFunctions r).
Definition set_batch (f : loc) (w : MapBatchWorker) (r : registry) : registry :=
  mkRegistry (receipts r) (resourceCaptures r) (integerWorkers r) (mapLeafWorkers r) (<[f := w]> (mapBatchWorkers r)) (frozenFunctions r).

Section registration.
Context (h : heap) (array_prototype : loc -> bool).
(** [mapBatchCapability] of [collections/map.ts]. *)
Context (batch_factory : loc -> bool).

(** The integers among some values, when all are. *)
Definition bigint_of (v : value) : option Z := match v with VBigInt z => Some z | _ => None end.

Definition registerIntegerWorker (guarded : loc) (captures : list value) (resourceIndices : list num) (descriptor : value)
    (r : registry) : res unit * registry :=
  match integerWorkerDescriptor h array_prototype descriptor with
  | None => (Throw "invalid integer worker descriptor", r)
  | Some parsed =>
      if negb (bool_decide (resourceIndices = [])) then (Ret tt, r)
      else if negb (bool_decide (length (iw_positions parsed) = length captures)) then (Ret tt, r)
      else
        match mapM bigint_of captures with
        | None => (Ret tt, r)
        | Some saved =>
            let total := Z.of_nat (length (iw_positions parsed)) + iw_arity parsed in
            if match last (iw_positions parsed) with Some p => total <=? p | None => false end then (Ret tt, r)
            else (Ret tt, set_integer guarded
                   (mkIntegerWorker (iw_companion parsed) (iw_positions parsed) saved (iw_arity parsed) (iw_origin parsed)) r)
        end
  end.

Definition registerMapLeafWorker (guarded : loc) (captures : list value) (resourceIndices : list num) (descriptor : value)
    (r : registry) : res unit * registry :=
  match mapLeafWorkerDescriptor h descriptor with
  | None => (Throw "invalid map leaf descriptor", r)
  | Some parsed =>
      if negb (bool_decide (captures = [])) || negb (bool_decide (resourceIndices = [])) then (Ret tt, r)
      else (Ret tt, set_leaf guarded (mkLeafWorker (ml_companion parsed) (ml_keyKind parsed)) r)
  end.

Definition registerMapBatchWorker (guarded : loc) (captures : list value) (resourceIndices : list num) (descriptor : value)
    (r : registry) : res unit * registry :=
  match mapBatchWorkerDescriptor h descriptor with
  | None => (Throw "invalid map batch descriptor", r)
  | Some parsed =>
      if negb (bool_decide (captures = [])) || negb (bool_decide (resourceIndices = [])) then (Ret tt, r)
      else if negb (batch_factory (mb_factory parsed)) then (Ret tt, r)
      else (Ret tt, set_batch guarded
              (mkBatchWorker (mb_absent parsed) (mb_present parsed) (mb_keyKind parsed) (mb_factory parsed) (mb_origin parsed)) r)
  end.

(** A resource index in range, as a position of the captures. *)
Definition capture_index (captures : list value) (i : num) : option nat :=
  match num_to_Z i with
  | Some z => if (0 <=? z) && (z <? Z.of_nat (length captures)) then Some (Z.to_nat z) else None
  | None => None
  end.

(** Run an optional registration after what came before. *)
Definition also (worker : option value) (register : value -> registry -> res unit * registry) (m : res unit * registry)
    : res unit * registry :=
  match m, worker with
  | (Ret _, r), Some d => register d r
  | m, _ => m
  end.

(** [identity] is what minting the instance identity answers ([assert/identity.ts]);
    a throw leaves what was registered before it. *)
Definition ownCallable (site target : jstr) (captures : list value) (v : value) (resourceIndices : list num)
    (identity : res Id) (worker leaf batch : option value) (r : registry) : res loc * registry :=
  match typeof_function h v with
  | Some f =>
      if bool_decide (site = []) || bool_decide (target = []) || bool_decide (is_Some (receipts r !! f))
      then (Throw "invalid callable construction", r)
      else
        match mapM (capture_index captures) resourceIndices with
        | None => (Throw "invalid callable resource capture", r)
        | Some indices =>
            if negb (bool_decide (NoDup indices)) then (Throw "invalid callable resource capture", r) else
            let r := mkRegistry (receipts r) (<[f := omap (fun i => captures !! i) indices]> (resourceCaptures r))
                       (integerWorkers r) (mapLeafWorkers r) (mapBatchWorkers r) (frozenFunctions r) in
            match identity with
            | Throw msg => (Throw msg, r)
            | Ret id =>
                let r := mkRegistry (<[f := mkReceipt id site target captures]> (receipts r)) (resourceCaptures r)
                           (integerWorkers r) (mapLeafWorkers r) (mapBatchWorkers r) (frozenFunctions r) in
                let m := (Ret tt, r) in
                let m := also worker (registerIntegerWorker f captures resourceIndices) m in
                let m := also leaf (registerMapLeafWorker f captures resourceIndices) m in
                let m := also batch (registerMapBatchWorker f captures resourceIndices) m in
                match m with
                | (Ret _, r) =>
                    (Ret f, mkRegistry (receipts r) (resourceCaptures r) (integerWorkers r) (mapLeafWorkers r)
                              (mapBatchWorkers r) ({[ f ]} ∪ frozenFunctions r))
                | (Throw msg, r) => (Throw msg, r)
                end
            end
        end
  | None => (Throw "invalid callable construction", r)
  end.

(** ** Queries *)

Definition integerWorker (r : registry) (v : value) : option IntegerWorker :=
  match typeof_function h v with Some f => integerWorkers r !! f | None => None end.
Definition mapLeafWorker (r : registry) (v : value) : option MapLeafWorker :=
  match typeof_function h v with Some f => mapLeafWorkers r !! f | None => None end.
Definition mapBatchWorker (r : registry) (v : value) : option MapBatchWorker :=
  match typeof_function h v with Some f => mapBatchWorkers r !! f | None => None end.
Definition callableReceipt (r : registry) (v : value) : option Receipt :=
  match typeof_function h v with Some f => receipts r !! f | None => None end.
Definition callableInstance (r : registry) (v : value) : option Id := rc_identity <$> callableReceipt r v.

Definition callableEqual (r : registry) (left right : value) (equal : value -> value -> bool) : bool :=
  match callableReceipt r left, callableReceipt r right with
  | Some a, Some b =>
      bool_decide (rc_target a = rc_target b)
      && bool_decide (length (rc_captures a) = length (rc_captures b))
      && forallb (fun p => equal p.1 p.2) (zip (rc_captures a) (rc_captures b))
  | _, _ => false
  end.
End registration.
End registry.

(** ** Operands *)

(** The values at the slots that are no position. *)
Fixpoint open_slots (slot : Z) (positions : list Z) (ops : list (option Z)) : list (option Z) :=
  match ops with
  | [] => []
  | x :: ops => (if bool_decide (slot ∈ positions) then [] else [x]) ++ open_slots (slot + 1) positions ops
  end.

Lemma open_slots_ext positions positions' ops : forall slot,
  (forall i, slot <= i -> i ∈ positions <-> i ∈ positions') -> open_slots slot positions ops = open_slots slot positions' ops.
Proof.
  induction ops as [|x ops IH]; intros slot H; cbn; [done |].
  rewrite (bool_decide_ext _ _ (H slot ltac:(lia))), (IH (slot + 1)); [done |]. intros i Hi. apply H. lia.
Qed.

(** Ascending integers between two bounds leave room for each other. *)
Lemma ascending_room l : forall p bound,
  StronglySorted Z.lt l -> Forall (Z.lt p) l -> p < bound -> Forall (fun q => q < bound) l ->
  p + Z.of_nat (length l) < bound.
Proof.
  induction l as [|q l IH]; intros p bound Hs Hp Hpb Hb; cbn [length]; [lia |].
  apply StronglySorted_cons in Hs as [Hq Hs]. apply Forall_cons in Hp as [Hpq _]. apply Forall_cons in Hb as [Hqb Hb].
  specialize (IH q bound Hs Hq Hqb Hb). lia.
Qed.

Lemma operands_spec total : forall slot positions saved residual,
  StronglySorted Z.lt positions -> Forall (fun p => slot <= p < slot + Z.of_nat total) positions ->
  length saved = length positions -> total = (length positions + length residual)%nat ->
  let ops := operands total slot positions saved residual in
  length ops = total
  /\ (forall k p, positions !! k = Some p -> ops !! Z.to_nat (p - slot) = Some (saved !! k))
  /\ open_slots slot positions ops = Some <$> residual.
Proof.
  induction total as [|total IH]; intros slot positions saved residual Hs Hb Hl Ht; cbn.
  { destruct positions, residual; try done. }
  destruct positions as [|p positions].
  - destruct residual as [|x residual]; [cbn in Ht; lia |].
    specialize (IH (slot + 1) [] saved residual). cbn in IH.
    destruct IH as (H1 & _ & H3); [constructor | constructor | done | cbn in Ht; lia |].
    cbn. split_and!; [by rewrite H1 | by intros k p | by rewrite H3].
  - apply Forall_cons in Hb as [Hp Hb]. apply StronglySorted_cons in Hs as [Hhd Hs].
    destruct (Z.eqb_spec slot p) as [<-|Hne].
    + destruct saved as [|y saved]; [done |]. injection Hl as Hl.
      destruct (IH (slot + 1) positions saved residual) as (H1 & H2 & H3); [done | | done | cbn in Ht; lia |].
      { rewrite Forall_forall in Hb, Hhd |- *. intros q Hq. specialize (Hb q Hq). specialize (Hhd q Hq). lia. }
      cbn. split_and!; [by rewrite H1 | |].
      * intros [|k] q; cbn; [intros [= <-]; by rewrite Z.sub_diag |]. intros Hk.
        rewrite Forall_forall in Hhd. pose proof (Hhd q ltac:(by eapply list_elem_of_lookup_2)).
        replace (Z.to_nat (q - slot)) with (S (Z.to_nat (q - (slot + 1)))) by lia. by apply H2.
      * rewrite bool_decide_true by by left. cbn. rewrite <- H3. apply open_slots_ext.
        intros i Hi. rewrite elem_of_cons. split; [intros [->|]; [lia | done] | by right].
    + destruct residual as [|x residual].
      { exfalso. clear -Hp Hb Hhd Hs Ht Hne. cbn in Ht. rewrite Nat.add_0_r in Ht. injection Ht as Ht.
        pose proof (ascending_room positions p (slot + Z.of_nat (S total)) Hs Hhd) as H. subst total.
        assert (Forall (fun q => q < slot + Z.of_nat (S (length positions))) positions) as Hlt.
        { eapply Forall_impl; [exact Hb |]. cbn. lia. }
        specialize (H ltac:(lia) Hlt). lia. }
      destruct (IH (slot + 1) (p :: positions) saved residual) as (H1 & H2 & H3);
        [by constructor | | done | cbn in Ht |- *; lia |].
      { constructor; [lia |]. rewrite Forall_forall in Hb, Hhd |- *. intros q Hq. specialize (Hb q Hq).
        specialize (Hhd q Hq). lia. }
      cbn [length]. split_and!; [cbn; by rewrite H1 | |].
      * intros k q Hk. assert (slot + 1 <= q) as Hq.
        { destruct k; cbn in Hk; [injection Hk as <-; lia |]. rewrite Forall_forall in Hhd.
          specialize (Hhd q ltac:(by eapply list_elem_of_lookup_2)). lia. }
        replace (Z.to_nat (q - slot)) with (S (Z.to_nat (q - (slot + 1)))) by lia. by apply H2.
      * cbn [open_slots head tail]. rewrite bool_decide_false.
        { cbn. by rewrite H3. }
        intros [->|Hin]%elem_of_cons; [done |]. rewrite Forall_forall in Hhd. specialize (Hhd _ Hin). lia.
Qed.

(** ** Descriptors *)

Lemma sorted_snoc l x : StronglySorted Z.lt l -> (forall y, last l = Some y -> y < x) -> StronglySorted Z.lt (l ++ [x]).
Proof.
  induction l as [|y l IH]; intros Hs Hx; cbn; [repeat constructor |].
  apply StronglySorted_cons in Hs as [Hy Hs]. constructor.
  - apply IH; [done |]. intros z Hz. apply Hx. rewrite last_cons. by rewrite Hz.
  - apply Forall_app. split; [done |]. constructor; [| done].
    destruct l as [|z l] using rev_ind; [by apply Hx |].
    rewrite Forall_forall in Hy. pose proof (Hy z ltac:(set_solver)).
    specialize (Hx z). rewrite last_cons, last_snoc in Hx. specialize (Hx eq_refl). lia.
Qed.

Lemma position_slots_sorted h positions count : forall index slots l,
  position_slots h positions count index slots = Some l ->
  StronglySorted Z.lt slots -> Forall (fun p => 0 <= p) slots ->
  StronglySorted Z.lt l /\ Forall (fun p => 0 <= p) l.
Proof.
  induction count as [|count IH]; intros index slots l; cbn; [by intros [= ->] |].
  destruct (integer_number _) as [slot|]; [| done]. destruct (Z.ltb_spec slot 0) as [|Hpos]; [done |].
  destruct (match last slots with Some prior => slot <=? prior | None => false end) eqn:Hlast; [done |].
  intros H Hs Hn. eapply IH; [exact H | apply sorted_snoc; [done |] | apply Forall_app; by repeat constructor].
  intros y Hy. rewrite Hy in Hlast. by apply Z.leb_gt in Hlast.
Qed.

Lemma position_slots_length h positions count : forall index slots l,
  position_slots h positions count index slots = Some l -> length l = (length slots + count)%nat.
Proof.
  induction count as [|count IH]; intros index slots l; cbn; [intros [= ->]; lia |].
  repeat case_match; try done; intros Hl%IH; rewrite length_app in Hl; cbn in Hl; lia.
Qed.

Lemma integerWorkerDescriptor_ok h ap v d :
  integerWorkerDescriptor h ap v = Some d ->
  StronglySorted Z.lt (iw_positions d) /\ Forall (fun p => 0 <= p) (iw_positions d) /\ 0 <= iw_arity d
  /\ has_length h (iw_companion d) (Z.of_nat (length (iw_positions d)) + iw_arity d) = true.
Proof.
  unfold integerWorkerDescriptor. intros H.
  repeat (case_match; try done). injection H as <-. cbn.
  match goal with H : position_slots _ _ _ _ _ = Some _ |- _ =>
    pose proof (position_slots_length _ _ _ _ _ _ H) as Hlen;
    apply position_slots_sorted in H as [Hs Hn]; [| constructor..] end.
  match goal with H : integer_number (ownDataValue h (VRef _) (js "length")) = Some ?z, H' : (?z <? 0) = false |- _ =>
    revert H; unfold has_length, integer_number; cbn [iw_companion iw_positions iw_arity] end.
  intros Hz0. split_bools. cbn in Hlen. split_and!; [done.. | lia |].
  match type of Hz0 with context [ownDataValue ?a ?b ?c] => destruct (ownDataValue a b c) end; try done.
  apply bool_decide_eq_true. congruence.
Qed.

(** ** Property *)

(** Registering an integer worker on a fresh function throws exactly on a
    malformed descriptor; a worker that is registered answers what its companion
    answers on the captures at the descriptor's positions and the residual
    arguments, in order, in the remaining slots, and its companion declares
    exactly that many parameters. *)
Theorem registered_worker_operands {Id} h ap (r r' : registry (Id := Id)) f captures indices d :
  integerWorkers r !! f = None ->
  match registerIntegerWorker h ap f captures indices d r with
  | (Throw _, r') => integerWorkerDescriptor h ap d = None /\ r' = r
  | (Ret _, r') =>
      exists parsed, integerWorkerDescriptor h ap d = Some parsed
      /\ match integerWorkers r' !! f with
         | None => r' = r
         | Some w =>
             r' = set_integer f w r /\ indices = [] /\ w_arity w = iw_arity parsed /\ 0 <= w_arity w
             /\ has_length h (w_companion w) (Z.of_nat (length captures) + w_arity w) = true
             /\ forall residual, Z.of_nat (length residual) = w_arity w ->
                exists ops, (forall call origins, run_integer call origins w residual
                  = match call (w_companion w) ops with
                    | OutInt z => inl z
                    | OutOther => inr (non_bigint "integer worker" (origins (w_origin w)))
                    | OutThrow t => inr t
                    end)
                  /\ length ops = (length captures + length residual)%nat
                  /\ (forall k p, iw_positions parsed !! k = Some p ->
                      exists z, captures !! k = Some (VBigInt z) /\ ops !! Z.to_nat p = Some (Some z))
                  /\ open_slots 0 (iw_positions parsed) ops = Some <$> residual
         end
  end.
Proof.
  intros Hf. unfold registerIntegerWorker. destruct (integerWorkerDescriptor h ap d) as [p|] eqn:Hd; [| done].
  apply integerWorkerDescriptor_ok in Hd as (Hs & Hn & Ha & Hlen).
  case_bool_decide as Hi; cbn [negb]; [| exists p; by rewrite Hf].
  case_bool_decide as Hl; cbn [negb]; [| exists p; by rewrite Hf].
  destruct (mapM bigint_of captures) as [saved|] eqn:Hm; [| exists p; by rewrite Hf].
  apply mapM_Some_1 in Hm as Hsv.
  destruct (match last (iw_positions p) with Some q => _ | None => false end) eqn:Hlast; [exists p; by rewrite Hf |].
  exists p. split; [done |]. cbn [integerWorkers set_integer]. rewrite lookup_insert_eq.
  cbn [w_arity w_companion]. split_and!; [done.. | by rewrite <- Hl |].
  intros residual Hres. unfold run_integer. cbn [w_positions w_saved w_arity w_companion w_origin].
  pose proof (Forall2_length _ _ _ Hsv) as Hsl.
  destruct (operands_spec (Z.to_nat (Z.of_nat (length (iw_positions p)) + iw_arity p)) 0 (iw_positions p) saved residual)
    as (H1 & H2 & H3); [done | | lia.. |].
  { apply Forall_forall. intros q Hq. rewrite Forall_forall in Hn. split; [by apply Hn |].
    enough (q < Z.of_nat (length (iw_positions p)) + iw_arity p) by lia.
    destruct (iw_positions p) as [|x l _] using rev_ind; [by apply elem_of_nil in Hq |].
    rewrite last_snoc in Hlast. apply Z.leb_gt in Hlast. apply elem_of_app in Hq as [Hq|Hq].
    - apply StronglySorted_app in Hs as (Hlt & _ & _). specialize (Hlt q x Hq ltac:(by left)). lia.
    - apply list_elem_of_singleton in Hq as ->. lia. }
  eexists. split; [done |]. split_and!; [lia | | done].
  intros k q Hk. rewrite <- (Z.sub_0_r q), (H2 k q Hk).
  assert (is_Some (captures !! k)) as [v Hv] by (apply lookup_lt_is_Some; apply lookup_lt_Some in Hk; lia).
  destruct (Forall2_lookup_l _ _ _ _ _ Hsv Hv) as (z & Hz & Hb). rewrite Hz. exists z.
  destruct v; try done. by injection Hb as ->.
Qed.

Module Example.
Definition int_value (z : Z) : value := VNum (num_of_Z z).
Definition data (fields : list (string * value)) : object :=
  mkObject false false false true ((fun p => (KStr (js p.1), DataProp p.2)) <$> fields).
(** A companion of three parameters, of which the first and the last are captures. *)
Definition functions : heap :=
  mkHeap (list_to_map
    [(0%nat, mkObject false true false true [(KStr (js "length"), DataProp (int_value 3))]);
     (1%nat, mkObject true false false true
        [(index_key 0, DataProp (int_value 0)); (index_key 1, DataProp (int_value 2)); (length_key, DataProp (int_value 2))]);
     (2%nat, data []);
     (3%nat, data [("companion", VRef 0); ("positions", VRef 1); ("arity", int_value 1); ("origin", VRef 2)])])
    ∅ ∅ 5.
Definition no_workers : registry (Id := nat) := mkRegistry ∅ ∅ ∅ ∅ ∅ ∅.
Definition captured : list value := [VBigInt 10; VBigInt 30].
Definition digits (l : loc) (ops : list (option Z)) : companion_result :=
  OutInt (fold_left (fun acc x => acc * 100 + default 0 x) ops 0).
End Example.

Lemma registered_worker_operands_witness :
  let '(m, r) := registerIntegerWorker Example.functions (fun _ => true) 4%nat Example.captured [] (VRef 3) Example.no_workers in
  m = Ret tt
  /\ exists w, integerWorkers r !! 4%nat = Some w
     /\ run_integer Example.digits (fun _ => ""%string) w [20] = inl 102030
     /\ has_length Example.functions (w_companion w) 3 = true.
Proof.
  pose proof (registered_worker_operands Example.functions (fun _ => true) Example.no_workers Example.no_workers 4%nat
    Example.captured [] (VRef 3) eq_refl) as H.
  destruct (registerIntegerWorker _ _ _ _ _ _ _) as [[u|msg] r] eqn:Hr; [| destruct H as [H _]; vm_compute in H; discriminate].
  destruct u. split; [reflexivity |]. destruct H as (parsed & Hp & H).
  vm_compute in Hr. injection Hr as <-. vm_compute in Hp. injection Hp as <-.
  eexists. split; [vm_compute; reflexivity |]. split; [vm_compute; reflexivity |].
  destruct H as (_ & _ & _ & _ & Hl & _). exact Hl.
Defined.
