(* ===== verification/Arrays.v ===== *)
(** * Array operations

    [src/runtime/collections/array.ts]: map, filter, fold, forEach, searches and
    sorting over callbacks, with the synchronous paths for callbacks that have a
    registered worker.  The state [W] is whatever the callbacks can change; what
    other tasks change while a callback is awaited is part of its answer. *)
From stdpp Require Import base gmap list strings sorting.
From Stdlib Require Import ZArith Lia SpecFloat.
From S2P Require Import Prelude JsNumber JsString Numbers Completion Data Callable.

(** [Array.prototype.toSorted] with a comparator, as an insertion sort:
    [sort_by_stable] shows that the comparator used here leaves one possible
    result to any sorting algorithm. *)
Fixpoint insert_by {A} (le : A -> A -> bool) (d : A) (l : list A) : list A :=
  match l with
  | [] => [d]
  | e :: l' => if le d e then d :: l else e :: insert_by le d l'
  end.

Definition insertion_sort {A} (le : A -> A -> bool) (l : list A) : list A := foldr (insert_by le) [] l.

(** ** Sources *)

(** An array as the operations meet it: its object, whether its prototype is
    [Array.prototype], and what reading its elements in order answers. *)
Record source : Type := mkSource { s_object : object; s_prototype : bool; s_items : list value }.

Definition has_own (o : object) (k : string) : bool := bool_decide (KStr (js k) ∈ (props o).*1).

Definition ordinaryElements (s : source) : option nat :=
  let o := s_object s in
  if is_proxy o then None
  else if negb (is_array o) then None
  else if negb (s_prototype s) then None
  else if negb (frozen o) then None
  else if bool_decide (nominal ∈ (props o).*1) then None
  else if existsb (has_own o) ["constructor"; "keys"; "map"; "reduce"] then None
  else match find_prop (props o) length_key with
       | Some (DataProp v) => array_length v
       | _ => None
       end.

(** The slots below [length_], when each is a data property that [admits]. *)
Definition admitted_slots {A} (o : object) (length_ : nat) (admits : value -> option A) : option (list A) :=
  mapM (fun i => match find_prop (props o) (index_key i) with
                 | Some (DataProp v) => admits v
                 | _ => None
                 end) (seq 0 length_).

Definition integerElements (s : source) : option (list Z) :=
  match ordinaryElements s with
  | Some n => admitted_slots (s_object s) n bigint_of
  | None => None
  end.

(** A value of the primitive type that a key kind names. *)
Definition of_key_kind (kind : jstr) (v : value) : option value :=
  match v with
  | VBigInt _ => if bool_decide (kind = js "int") then Some v else None
  | VBool _ => if bool_decide (kind = js "bool") then Some v else None
  | VStr _ => if bool_decide (kind = js "str") then Some v else None
  | _ => None
  end.

Definition leafElements (s : source) (kind : jstr) : option (list value) :=
  if negb (bool_decide (kind ∈ [js "int"; js "bool"; js "str"])) then None
  else
    match ordinaryElements s with
    | Some n => admitted_slots (s_object s) n (of_key_kind kind)
    | None => None
    end.

(** What [array] of [data.ts] makes of some elements. *)
Definition frozen_source (elements : list value) : source :=
  mkSource (mkObject true false false true
    (imap (fun i v => (index_key i, DataProp v)) elements
       ++ [(length_key, DataProp (VNum (num_of_Z (Z.of_nat (length elements)))))])) true elements.

(** ** Failures on their way to the boundary *)

(** What an operation throws: a completion that is not ok, or anything else. *)
Inductive stop : Type :=
| StopDomain (f : DomainFailure)
| StopStandard (f : StandardFailure)
| StopThrown (t : thrown).

Definition stopped (W A : Type) : Type := (A + stop) * W.

Definition stop_bind {W A B} (m : stopped W A) (k : A -> W -> stopped W B) : stopped W B :=
  match m with
  | (inl a, w) => k a w
  | (inr s, w) => (inr s, w)
  end.

Declare Scope array_scope.
Notation "'step!' ( x , w ) ':=' c1 'in' c2" := (stop_bind c1 (fun x w => c2))
  (at level 10, x name, w name, c1 at level 100, c2 at level 200) : array_scope.
#[local] Open Scope array_scope.

(** [if (result.kind !== "ok") throw result; return result] *)
Definition guarded {W A} (r : Completion A) (w : W) : stopped W A :=
  match r with
  | ok v => (inl v, w)
  | domain f => (inr (StopDomain f), w)
  | standard f => (inr (StopStandard f), w)
  end.

Definition boundary {W A} (origin : string) (m : stopped W A) : Completion A * W :=
  match m with
  | (inl v, w) => (ok v, w)
  | (inr (StopDomain f), w) => (domain f, w)
  | (inr (StopStandard f), w) => (standard f, w)
  | (inr (StopThrown t), w) => (caught t origin, w)
  end.

Definition of_thrown {W A} (r : A + thrown) (w : W) : stopped W A :=
  match r with
  | inl a => (inl a, w)
  | inr t => (inr (StopThrown t), w)
  end.

(** ** Callbacks *)

(** What the assertion contexts promise ([callContext] of [assert/context.ts]):
    entering a child frame at a site for an instance, and leaving it. *)
Class Frames (C I W : Type) : Type := {
  enter_frame : C -> jstr -> option I -> W -> stopped W C;
  leave_frame : C -> C -> W -> stopped W unit
}.

Record MapBatchRunner (W : Type) : Type := mkRunner {
  run_batch : MapBatchWorker -> value -> list value -> W -> option (Completion value) * W
}.
Arguments mkRunner {W} run_batch.
Arguments run_batch {W} _ _ _ _ _.

Section arrays.
Context {W C O I : Type} `{!Frames C I W}.
Context (h : heap) (reg : registry (Id := I)).
(** Calls of generated code: companions of integer workers and of map leaves. *)
Context (call_integer : loc -> list (option Z) -> companion_result).
Context (call_leaf : loc -> value -> value -> W -> call_result value * W).
Context (origins : loc -> string).
Context (runner : MapBatchRunner W).

Record Trace : Type := mkTrace { site : jstr; origin : string; context : option C; owner : option O }.

(** A callback: the function, and what calling it answers. *)
Record element_callback : Type := mkCallback {
  cb_function : value;
  cb_body : list value -> option O -> option C -> W -> call_result value * W
}.

(** No frame and no owner: the condition of the synchronous paths. *)
Definition untraced (t : Trace) : bool :=
  match context t, owner t with None, None => true | _, _ => false end.

Definition callback (a : element_callback) (args : list value) (t : Trace) (w : W) : stopped W (Completion value) :=
  match context t with
  | None =>
      let '(r, w) := cb_body a args (owner t) None w in (inl (invoke r (origin t)), w)
  | Some c =>
      step! (child, w) := enter_frame c (site t) (callableInstance h reg (cb_function a)) w in
      let '(r, w) := cb_body a args (owner t) (Some child) w in
      step! (u, w) := leave_frame child c w in
      (inl (invoke r (origin t)), w)
  end.

(** The callback, thrown out of the operation unless ok. *)
Definition visit (a : element_callback) (args : list value) (t : Trace) (w : W) : stopped W value :=
  step! (r, w) := callback a args t w in guarded r w.

Fixpoint observations (items : list value) (a : element_callback) (t : Trace) (w : W) : stopped W (list value) :=
  match items with
  | [] => (inl [], w)
  | v :: items =>
      step! (x, w) := visit a [v] t w in
      step! (xs, w) := observations items a t w in
      (inl (x :: xs), w)
  end.

(** ** Operations *)

Fixpoint map_worker (wk : IntegerWorker) (elements : list Z) : list Z + thrown :=
  match elements with
  | [] => inl []
  | z :: elements =>
      match run_integer call_integer origins wk [z] with
      | inl x => match map_worker wk elements with inl xs => inl (x :: xs) | inr e => inr e end
      | inr e => inr e
      end
  end.

Definition map_slow (s : source) (a : element_callback) (t : Trace) (w : W) : Completion (list value) * W :=
  boundary (origin t) (observations (s_items s) a t w).

(** The worker when its arity fits and nothing traces the call. *)
Definition admitted_worker (a : element_callback) (arity : Z) (t : Trace) : option IntegerWorker :=
  match integerWorker h reg (cb_function a) with
  | Some wk => if (w_arity wk =? arity) && untraced t then Some wk else None
  | None => None
  end.

Definition map (s : source) (a : element_callback) (t : Trace) (w : W) : Completion (list value) * W :=
  match admitted_worker a 1 t with
  | Some wk =>
      match integerElements s with
      | Some elements =>
          boundary (origin t) (step! (xs, w) := of_thrown (map_worker wk elements) w in (inl (VBigInt <$> xs), w))
      | None => map_slow s a t w
      end
  | None => map_slow s a t w
  end.

(** JavaScript truth. *)
Definition truthy (v : value) : bool :=
  match v with
  | VUndefined | VNull => false
  | VBool b => b
  | VNum x => match x with S754_zero _ | S754_nan => false | _ => true end
  | VBigInt z => negb (z =? 0)
  | VStr s => negb (bool_decide (s = []))
  | VRef _ => true
  end.

Definition filter_decided (items decisions : list value) : list value :=
  omap (fun p => if truthy p.2 then Some p.1 else None) (zip items decisions).

Definition filter (s : source) (a : element_callback) (t : Trace) (w : W) : Completion (list value) * W :=
  boundary (origin t)
    (step! (decisions, w) := observations (s_items s) a t w in (inl (filter_decided (s_items s) decisions), w)).

Fixpoint fold_worker (wk : IntegerWorker) (total : Z) (elements : list Z) : Z + thrown :=
  match elements with
  | [] => inl total
  | z :: elements =>
      match run_integer call_integer origins wk [total; z] with
      | inl total => fold_worker wk total elements
      | inr e => inr e
      end
  end.

Fixpoint fold_leaf (leaf : MapLeafWorker) (origin_ : string) (accumulator : value) (elements : list value) (w : W) : stopped W value :=
  match elements with
  | [] => (inl accumulator, w)
  | k :: elements =>
      let '(r, w) := call_leaf (lw_companion leaf) accumulator k w in
      step! (accumulator, w) := guarded (invoke r origin_) w in
      fold_leaf leaf origin_ accumulator elements w
  end.

Fixpoint fold_items (a : element_callback) (t : Trace) (accumulator : value) (items : list value) (w : W) : stopped W value :=
  match items with
  | [] => (inl accumulator, w)
  | v :: items =>
      step! (accumulator, w) := visit a [accumulator; v] t w in
      fold_items a t accumulator items w
  end.

Definition fold_slow (s : source) (initial : value) (a : element_callback) (t : Trace) (w : W) : Completion value * W :=
  boundary (origin t) (fold_items a t initial (s_items s) w).

(** The path of a proven map leaf, else the callback per element. *)
Definition fold_leaves (s : source) (initial : value) (a : element_callback) (t : Trace) (w : W) : Completion value * W :=
  match mapLeafWorker h reg (cb_function a) with
  | Some leaf =>
      if untraced t then
        match leafElements s (lw_keyKind leaf) with
        | Some elements => boundary (origin t) (fold_leaf leaf (origin t) initial elements w)
        | None => fold_slow s initial a t w
        end
      else fold_slow s initial a t w
  | None => fold_slow s initial a t w
  end.

(** The path of a proven batch; a runner that declines changes nothing. *)
Definition fold_batches (s : source) (initial : value) (a : element_callback) (t : Trace) (w : W) : Completion value * W :=
  match mapBatchWorker h reg (cb_function a) with
  | Some batched =>
      if untraced t then
        match leafElements s (bw_keyKind batched) with
        | Some elements =>
            match run_batch runner batched initial elements w with
            | (Some fast, w) => (fast, w)
            | (None, w) => fold_leaves s initial a t w
            end
        | None => fold_leaves s initial a t w
        end
      else fold_leaves s initial a t w
  | None => fold_leaves s initial a t w
  end.

Definition fold (s : source) (initial : value) (a : element_callback) (t : Trace) (w : W) : Completion value * W :=
  match admitted_worker a 2 t, initial with
  | Some wk, VBigInt z =>
      match integerElements s with
      | Some elements =>
          boundary (origin t) (step! (total, w) := of_thrown (fold_worker wk z elements) w in (inl (VBigInt total), w))
      | None => fold_batches s initial a t w
      end
  | _, _ => fold_batches s initial a t w
  end.

(** The completion of the last callback; [undefined] of an empty array. *)
Fixpoint each (items : list value) (a : element_callback) (t : Trace) (last_ : value) (w : W) : stopped W value :=
  match items with
  | [] => (inl last_, w)
  | v :: items => step! (x, w) := visit a [v] t w in each items a t x w
  end.

Definition forEach (s : source) (a : element_callback) (t : Trace) (w : W) : Completion value * W :=
  boundary (origin t) (each (s_items s) a t VUndefined w).

(** The first index whose callback answers [wanted], or -1. *)
Fixpoint search (items : list value) (index : Z) (a : element_callback) (wanted : bool) (t : Trace) (w : W)
    : stopped W Z :=
  match items with
  | [] => (inl (-1), w)
  | v :: items =>
      step! (x, w) := visit a [v] t w in
      if bool_decide (x = VBool wanted) then (inl index, w)
      else search items (index + 1) a wanted t w
  end.

Definition some (s : source) (a : element_callback) (t : Trace) (w : W) : Completion bool * W :=
  boundary (origin t) (step! (i, w) := search (s_items s) 0 a true t w in (inl (negb (i =? -1)), w)).

Definition every (s : source) (a : element_callback) (t : Trace) (w : W) : Completion bool * W :=
  boundary (origin t) (step! (i, w) := search (s_items s) 0 a false t w in (inl (i =? -1), w)).

(** The record [find] answers with: its identity and its fields. *)
Definition find (s : source) (a : element_callback) (none_ some_ : jstr) (t : Trace) (w : W)
    : Completion (jstr * list (jstr * value)) * W :=
  boundary (origin t)
    (step! (i, w) := search (s_items s) 0 a true t w in
     (inl (if i =? -1 then (none_, [])
           else (some_, [(js "value", default VUndefined (s_items s !! Z.to_nat i))])), w)).

(** ** Sorting *)

Record Decoration : Type := mkDecoration { d_key : value; d_index : nat }.

Definition nonfinite (v : value) : bool := match v with VNum x => negb (isFinite x) | _ => false end.

Fixpoint decorations (items : list value) (index : nat) (a : element_callback) (t : Trace) (w : W)
    : stopped W (list Decoration) :=
  match items with
  | [] => (inl [], w)
  | v :: items =>
      step! (k, w) := visit a [v] t w in
      if nonfinite k
      then (inr (StopStandard (mkStandard arithmetic "arithmetic: nonfinite sort key" (origin t))), w)
      else
        step! (ds, w) := decorations items (S index) a t w in
        (inl (mkDecoration k index :: ds), w)
  end.

(** [a < b] on two keys of one of the four key types. *)
Definition key_lt (a b : value) : bool :=
  match a, b with
  | VBigInt x, VBigInt y => x <? y
  | VNum x, VNum y => SFltb x y
  | VStr x, VStr y => jstr_ltb x y
  | VBool x, VBool y => negb x && y
  | _, _ => false
  end.

(** The comparator of [sortBy]. *)
Definition compare_decorations (a b : Decoration) : Z :=
  if key_lt (d_key a) (d_key b) then -1
  else if key_lt (d_key b) (d_key a) then 1
  else Z.of_nat (d_index a) - Z.of_nat (d_index b).

Definition toSorted (l : list Decoration) : list Decoration :=
  insertion_sort (fun a b => compare_decorations a b <=? 0) l.

Definition sortBy (s : source) (a : element_callback) (t : Trace) (w : W) : Completion (list value) * W :=
  boundary (origin t)
    (step! (ds, w) := decorations (s_items s) 0 a t w in
     (inl ((fun d => default VUndefined (s_items s !! d_index d)) <$> toSorted ds), w)).

End arrays.

Definition concat (left right : list value) : list value := left ++ right.
Definition toReversed (s : list value) : list value := rev s.
Definition append (s : list value) (item : value) : list value := s ++ [item].
