(* ===== verification/ArrayTheorems.v ===== *)
(** * Properties of the array operations

    What the operations visit and answer, the paths of registered workers, and
    sorting. *)
From stdpp Require Import base sets gmap list strings sorting.
From Stdlib Require Import ZArith Lia SpecFloat.
From S2P Require Import Prelude JsNumber JsString Completion Numbers Lineage Ordering Data Arrays Callable.

(** ** Sorting by keys

    The comparator of [sortBy] on keys of one type is a total order of the
    decorations, so that sorting with it has one result. *)

(** ** Insertion sort *)
Section insertion.
Context {A : Type} (le : A -> A -> bool).

Lemma insert_by_perm d l : insert_by le d l ≡ₚ d :: l.
Proof. induction l as [|e l IH]; cbn; [done |]. destruct (le d e); [done |]. rewrite IH. apply Permutation_swap. Qed.

Lemma insertion_sort_perm l : insertion_sort le l ≡ₚ l.
Proof. induction l as [|d l IH]; cbn; [done |]. rewrite insert_by_perm. by f_equiv. Qed.

Lemma insert_by_ext (le' : A -> A -> bool) d l :
  (forall x, x ∈ l -> le d x = le' d x) -> insert_by le d l = insert_by le' d l.
Proof.
  induction l as [|e l IH]; cbn; [done |]. intros H. rewrite H by set_solver. destruct (le' d e); [done |].
  f_equal. apply IH. set_solver.
Qed.

Lemma insertion_sort_ext (le' : A -> A -> bool) l :
  (forall x y, x ∈ l -> y ∈ l -> le x y = le' x y) -> insertion_sort le l = insertion_sort le' l.
Proof.
  induction l as [|d l IH]; intros H; cbn; [done |].
  change (foldr (insert_by le) [] l) with (insertion_sort le l).
  change (foldr (insert_by le') [] l) with (insertion_sort le' l). rewrite <- IH by set_solver.
  apply insert_by_ext. intros x. rewrite insertion_sort_perm. set_solver.
Qed.

Context (R : relation A) `{!Transitive R}.
Context (le_R : forall x y, le x y = true -> R x y) (gt_R : forall x y, le x y = false -> R y x).

Lemma insert_by_sorted d l : StronglySorted R l -> StronglySorted R (insert_by le d l).
Proof using All.
  induction 1 as [|e l Hl IH He]; cbn; [repeat constructor |].
  destruct (le d e) eqn:Hle.
  - constructor; [by constructor |]. constructor; [by apply le_R |].
    eapply Forall_impl; [exact He |]. intros x Hx. by transitivity e; [apply le_R |].
  - constructor; [done |]. rewrite insert_by_perm. constructor; [by apply gt_R | done].
Qed.

Lemma insertion_sort_sorted l : StronglySorted R (insertion_sort le l).
Proof using All. induction l; cbn; [constructor | by apply insert_by_sorted]. Qed.
End insertion.

(** ** The rank of a key *)

Definition float_rank (x : num) : list Z :=
  match x with
  | S754_finite false m e => [1; e; Zpos m]
  | S754_finite true m e => [-1; - e; Zneg m]
  | _ => [0]
  end.

Definition rank (v : value) : list Z :=
  match v with
  | VBigInt z => [z]
  | VNum x => float_rank x
  | VStr s => Z.of_N <$> s
  | VBool b => [if b then 1 else 0]
  | _ => []
  end.

(** Finite keys of one type. *)
Definition comparable (a b : value) : bool :=
  match a, b with
  | VBigInt _, VBigInt _ | VStr _, VStr _ | VBool _, VBool _ => true
  | VNum x, VNum y => isFinite x && isFinite y
  | _, _ => false
  end.

Lemma compareNumbers_bytes x y : compareNumbers (Z.of_N <$> x) (Z.of_N <$> y) = compareText x y.
Proof.
  rewrite compareText_lex. revert y. induction x as [|a x IH]; intros [|b y]; try done.
  cbn [fmap list_fmap compareNumbers lex]. rewrite IH. unfold or_else.
  destruct (Z.eqb_spec (Z.of_N a) (Z.of_N b)), (Z.eqb_spec (Z.sgn (Z.of_N a - Z.of_N b)) 0),
    (Z.ltb_spec (Z.of_N a) (Z.of_N b)); lia.
Qed.

Lemma float_lt_rank x y :
  isFinite x = true -> isFinite y = true -> SFltb x y = (compareNumbers (float_rank x) (float_rank y) <? 0).
Proof.
  destruct x as [sx|sx| |sx mx ex], y as [sy|sy| |sy my ey]; try done; intros _ _;
    try (by destruct sx); try (by destruct sy); destruct sx, sy; try done; unfold SFltb; cbn [SFcompare];
    change (PosDef.Pos.compare_cont Eq mx my) with (mx ?= my)%positive; cbn [float_rank compareNumbers Z.eqb];
    change ((1 =? 1)%positive) with true; cbn iota.
  - destruct (Z.compare_spec ex ey), (Pos.compare_spec mx my), (Z.eqb_spec (- ex) (- ey)), (Z.ltb_spec (- ex) (- ey)),
      (Pos.eqb_spec mx my), (Z.ltb_spec (Zneg mx) (Zneg my)); cbn; lia || done.
  - destruct (Z.compare_spec ex ey), (Pos.compare_spec mx my), (Z.eqb_spec ex ey), (Z.ltb_spec ex ey),
      (Pos.eqb_spec mx my), (Z.ltb_spec (Zpos mx) (Zpos my)); cbn; lia || done.
Qed.

Lemma key_lt_rank a b : comparable a b = true -> key_lt a b = (compareNumbers (rank a) (rank b) <? 0).
Proof.
  destruct a, b; try done; cbn [comparable key_lt rank].
  - intros _. by destruct b, b0.
  - intros [Hx Hy]%andb_true_iff. by apply float_lt_rank.
  - intros _. cbn. destruct (Z.ltb_spec z z0), (Z.eqb_spec z z0); lia || done.
  - intros _. rewrite compareNumbers_bytes. unfold compareText.
    destruct (jstr_ltb s s0); [done |]. by destruct (jstr_ltb s0 s).
Qed.

#[local] Open Scope array_scope.

(** A completion that is not ok, at any type. *)
Definition failed {A} (f : DomainFailure + StandardFailure) : Completion A :=
  match f with inl f => domain f | inr f => standard f end.

Definition stop_of (f : DomainFailure + StandardFailure) : stop :=
  match f with inl f => StopDomain f | inr f => StopStandard f end.

Lemma guarded_failed {W A} f (w : W) : guarded (A := A) (failed f) w = (inr (stop_of f), w).
Proof. by destruct f. Qed.

Lemma boundary_stop {W A} o f (w : W) : boundary (A := A) o (inr (stop_of f), w) = (failed f, w).
Proof. by destruct f. Qed.

(** The elements up to the first that [p] holds of, that one included. *)
Fixpoint upto {A} (p : A -> bool) (l : list A) : list A :=
  match l with
  | [] => []
  | x :: l => x :: (if p x then [] else upto p l)
  end.

Section visits.
Context {C O I : Type} `{!Frames C I (list (list value))}.
Context (h : heap) (reg : registry (Id := I)) (call_integer : loc -> list (option Z) -> companion_result)
  (call_leaf : loc -> value -> value -> list (list value) -> call_result value * list (list value))
  (origins : loc -> string) (runner : MapBatchRunner (list (list value))).
Context (t : Trace (C := C) (O := O)) (a : element_callback (W := list (list value)) (C := C) (O := O)).
Context (answer : list value -> Completion value).

(** The callback answers [answer] and records its arguments. *)
Definition recording : Prop :=
  context t = None /\ forall args w, cb_body a args (owner t) None w = (Returned (answer args), w ++ [args]).

Definition unworked : Prop :=
  integerWorker h reg (cb_function a) = None /\ mapLeafWorker h reg (cb_function a) = None
  /\ mapBatchWorker h reg (cb_function a) = None.

Context (Hrec : recording).

Lemma visit_recorded args w : visit h reg a args t w = guarded (answer args) (w ++ [args]).
Proof using Hrec. destruct Hrec as [Hc Hb]. unfold visit, callback. by rewrite Hc, Hb. Qed.

Definition singles (items : list value) : list (list value) := (fun x => [x]) <$> items.

Section ok.
Context (f : value -> value).
Definition answers_ok (items : list value) : Prop := forall x, x ∈ items -> answer [x] = ok (f x).

Lemma answers_ok_cons x items : answers_ok (x :: items) <-> answer [x] = ok (f x) /\ answers_ok items.
Proof using Type.
  split; [intros H; split; [apply H; by left | intros y Hy; apply H; by right] |].
  intros [H1 H2] y [->|Hy]%elem_of_cons; [done | by apply H2].
Qed.

Lemma observations_ok items : forall w, answers_ok items ->
  observations h reg items a t w = (inl (f <$> items), w ++ singles items).
Proof using Hrec.
  induction items as [|x items IH]; intros w; [by rewrite app_nil_r |].
  intros [Hx Hok]%answers_ok_cons. cbn. rewrite visit_recorded, Hx. cbn. rewrite IH by done. cbn. by rewrite <- app_assoc.
Qed.

Lemma observations_failed items x post F : forall w, answers_ok items -> answer [x] = failed F ->
  observations h reg (items ++ x :: post) a t w = (inr (stop_of F), w ++ singles (items ++ [x])).
Proof using Hrec.
  induction items as [|y items IH]; intros w; cbn.
  { intros _ Hx. by rewrite visit_recorded, Hx, guarded_failed. }
  intros [Hy Hok]%answers_ok_cons Hx. rewrite visit_recorded, Hy. cbn. rewrite IH by done. cbn. by rewrite <- app_assoc.
Qed.

Lemma each_ok items : forall w u, answers_ok items ->
  each h reg items a t u w = (inl (default u (last (f <$> items))), w ++ singles items).
Proof using Hrec.
  induction items as [|x items IH]; intros w u; [by rewrite app_nil_r |].
  intros [Hx Hok]%answers_ok_cons. cbn. rewrite visit_recorded, Hx. cbn. rewrite IH by done. rewrite <- app_assoc.
  change (list_fmap _ _ f items) with (f <$> items). rewrite last_cons. by destruct (last (f <$> items)).
Qed.

Lemma each_failed items x post F : forall w u, answers_ok items -> answer [x] = failed F ->
  each h reg (items ++ x :: post) a t u w = (inr (stop_of F), w ++ singles (items ++ [x])).
Proof using Hrec.
  induction items as [|y items IH]; intros w u; cbn.
  { intros _ Hx. by rewrite visit_recorded, Hx, guarded_failed. }
  intros [Hy Hok]%answers_ok_cons Hx. rewrite visit_recorded, Hy. cbn. rewrite IH by done. by rewrite <- app_assoc.
Qed.

(** Whether the callback answers the wanted boolean. *)
Definition hit (wanted : bool) (x : value) : bool := bool_decide (f x = VBool wanted).

Lemma search_ok wanted items : forall i w, answers_ok items ->
  search h reg items i a wanted t w
  = (inl (match list_find (fun x => hit wanted x = true) items with Some (n, _) => i + Z.of_nat n | None => -1 end),
     w ++ singles (upto (hit wanted) items)).
Proof using Hrec.
  induction items as [|x items IH]; intros i w; [by rewrite app_nil_r |].
  intros [Hx Hok]%answers_ok_cons. cbn [search]. rewrite visit_recorded, Hx. cbn -[singles].
  change (bool_decide (f x = VBool wanted)) with (hit wanted x). destruct (hit wanted x) eqn:Hhit.
  - rewrite decide_True by done. cbn. by rewrite Z.add_0_r.
  - rewrite decide_False by done. rewrite IH by done. cbn. rewrite <- app_assoc.
    destruct (list_find _ items) as [[n y]|]; cbn; [| done].
    by replace (i + 1 + Z.of_nat n) with (i + Z.of_nat (S n)) by lia.
Qed.

Lemma search_failed wanted items x post F : forall i w, answers_ok items -> answer [x] = failed F ->
  existsb (hit wanted) items = false ->
  search h reg (items ++ x :: post) i a wanted t w = (inr (stop_of F), w ++ singles (items ++ [x])).
Proof using Hrec.
  induction items as [|y items IH]; intros i w; cbn.
  { intros _ Hx _. by rewrite visit_recorded, Hx, guarded_failed. }
  intros [Hy Hok]%answers_ok_cons Hx [Hn Hno]%orb_false_iff. rewrite visit_recorded, Hy. cbn. unfold hit in Hn.
  rewrite Hn, IH by done. by rewrite <- app_assoc.
Qed.
End ok.

(** The calls of a fold whose function is [g], and that they are answered so. *)
Fixpoint fold_calls (g : value -> value -> value) (acc : value) (items : list value) : list (list value) :=
  match items with
  | [] => []
  | x :: items => [acc; x] :: fold_calls g (g acc x) items
  end.

Fixpoint fold_answers (g : value -> value -> value) (acc : value) (items : list value) : Prop :=
  match items with
  | [] => True
  | x :: items => answer [acc; x] = ok (g acc x) /\ fold_answers g (g acc x) items
  end.

Lemma fold_items_ok g items : forall acc w, fold_answers g acc items ->
  fold_items h reg a t acc items w = (inl (fold_left g items acc), w ++ fold_calls g acc items).
Proof using Hrec.
  induction items as [|x items IH]; intros acc w; cbn; [by rewrite app_nil_r |].
  intros [Hx Hok]. rewrite visit_recorded, Hx. cbn. rewrite IH by done. by rewrite <- app_assoc.
Qed.

Lemma fold_items_failed g items x post F : forall acc w, fold_answers g acc items -> answer [fold_left g items acc; x] = failed F ->
  fold_items h reg a t acc (items ++ x :: post) w = (inr (stop_of F), w ++ fold_calls g acc (items ++ [x])).
Proof using Hrec.
  induction items as [|y items IH]; intros acc w; cbn.
  { intros _ Hx. by rewrite visit_recorded, Hx, guarded_failed. }
  intros [Hy Hok] Hx. rewrite visit_recorded, Hy. cbn. rewrite IH by done. by rewrite <- app_assoc.
Qed.
End visits.

Lemma list_find_exists {A} (p : A -> bool) l :
  match list_find (fun x => p x = true) l with
  | Some (n, x) => l !! n = Some x /\ List.find p l = Some x /\ existsb p l = true
  | None => List.find p l = None /\ existsb p l = false
  end.
Proof.
  induction l as [|x l IH]; [done |]. cbn. destruct (p x) eqn:Hp.
  - by rewrite decide_True by done.
  - rewrite decide_False by done. destruct (list_find _ l) as [[n y]|]; cbn; [| done]. done.
Qed.

Lemma filter_decided_spec (f : value -> value) items :
  filter_decided items (f <$> items) = List.filter (fun x => truthy (f x)) items.
Proof.
  unfold filter_decided. induction items as [|x items IH]; [done |]. cbn. rewrite <- IH.
  by destruct (truthy (f x)).
Qed.

(** ** Visits *)

(** C37. On a callback without a worker and outside an assertion context, map, filter,
    forEach, some, every, find and fold call it element by element, in order.  When
    all answers are ok, the answers are those of the list functions, the searches
    stop at the first element that decides them, and a fold passes each
    accumulator on.  When the callback fails at an element that is reached, the
    operation, a fold too, ends there with that very failure, and no later element
    is visited. *)
Theorem operations_visit_in_order {C O I} `{!Frames C I (list (list value))} h (reg : registry (Id := I))
    call_integer call_leaf origins runner t (a : element_callback (C := C) (O := O)) answer s w :
  recording t a answer -> unworked h reg a ->
  (forall f, answers_ok answer f (s_items s) ->
    let items := s_items s in
    map h reg call_integer origins s a t w = (ok (f <$> items), w ++ singles items)
    /\ filter h reg s a t w = (ok (List.filter (fun x => truthy (f x)) items), w ++ singles items)
    /\ forEach h reg s a t w = (ok (default VUndefined (last (f <$> items))), w ++ singles items)
    /\ some h reg s a t w = (ok (existsb (hit f true) items), w ++ singles (upto (hit f true) items))
    /\ every h reg s a t w = (ok (negb (existsb (hit f false) items)), w ++ singles (upto (hit f false) items))
    /\ forall none_ some_, find h reg s a none_ some_ t w
       = (ok (match List.find (hit f true) items with
              | Some x => (some_, [(js "value", x)])
              | None => (none_, [])
              end), w ++ singles (upto (hit f true) items)))
  /\ (forall f F pre x post, s_items s = pre ++ x :: post -> answers_ok answer f pre -> answer [x] = failed F ->
    map h reg call_integer origins s a t w = (failed F, w ++ singles (pre ++ [x]))
    /\ filter h reg s a t w = (failed F, w ++ singles (pre ++ [x]))
    /\ forEach h reg s a t w = (failed F, w ++ singles (pre ++ [x]))
    /\ (existsb (hit f true) pre = false ->
        some h reg s a t w = (failed F, w ++ singles (pre ++ [x]))
        /\ forall none_ some_, find h reg s a none_ some_ t w = (failed F, w ++ singles (pre ++ [x])))
    /\ (existsb (hit f false) pre = false -> every h reg s a t w = (failed F, w ++ singles (pre ++ [x]))))
  /\ (forall g initial, fold_answers answer g initial (s_items s) ->
      fold h reg call_integer call_leaf origins runner s initial a t w
      = (ok (fold_left g (s_items s) initial), w ++ fold_calls g initial (s_items s)))
  /\ (forall g initial F pre x post, s_items s = pre ++ x :: post -> fold_answers answer g initial pre ->
      answer [fold_left g pre initial; x] = failed F ->
      fold h reg call_integer call_leaf origins runner s initial a t w = (failed F, w ++ fold_calls g initial (pre ++ [x]))).
Proof.
  intros Hrec (Hi & Hl & Hb). unfold map, admitted_worker, fold, admitted_worker, fold_batches, fold_leaves.
  rewrite Hi, Hl, Hb. unfold map_slow, fold_slow, filter, forEach, some, every, find.
  split_and!.
  - intros f Hok. cbn zeta. rewrite (observations_ok h reg t a answer Hrec f) by done. cbn [stop_bind boundary].
    rewrite filter_decided_spec, (each_ok h reg t a answer Hrec f) by done. cbn [boundary].
    rewrite !(search_ok h reg t a answer Hrec f) by done. cbn [stop_bind boundary].
    pose proof (list_find_exists (hit f true) (s_items s)) as Ht.
    pose proof (list_find_exists (hit f false) (s_items s)) as Hf.
    split_and!; [done.. | | | intros none_ some_].
    + destruct (list_find (fun x => hit f true x = true) (s_items s)) as [[n y]|]; [| by destruct Ht as [_ ->]].
      destruct Ht as (_ & _ & ->). do 2 f_equal. destruct (Z.eqb_spec (0 + Z.of_nat n) (-1)); [lia | done].
    + destruct (list_find (fun x => hit f false x = true) (s_items s)) as [[n y]|]; [| by destruct Hf as [_ ->]].
      destruct Hf as (_ & _ & ->). do 2 f_equal. destruct (Z.eqb_spec (0 + Z.of_nat n) (-1)); [lia | done].
    + destruct (list_find (fun x => hit f true x = true) (s_items s)) as [[n y]|]; [| by destruct Ht as [-> _]].
      destruct Ht as (Hn & -> & _). destruct (Z.eqb_spec (0 + Z.of_nat n) (-1)); [lia |].
      by rewrite Z.add_0_l, Nat2Z.id, Hn.
  - intros f F pre x post -> Hok Hx.
    rewrite (observations_failed h reg t a answer Hrec f pre x post F) by done. cbn [stop_bind].
    rewrite (each_failed h reg t a answer Hrec f pre x post F) by done. rewrite !boundary_stop.
    split_and!; [done.. | intros Hno; split; [| intros none_ some_] | intros Hno];
      rewrite (search_failed h reg t a answer Hrec f _ pre x post F) by done; apply boundary_stop.
  - intros g initial Hok. by rewrite (fold_items_ok h reg t a answer Hrec g (s_items s) initial w Hok).
  - intros g initial F pre x post -> Hok Hx.
    rewrite (fold_items_failed h reg t a answer Hrec g pre x post F) by done. apply boundary_stop.
Qed.

(** ** Sorting *)

(** Position [i] of the source goes before position [j]: by key, then by
    position. *)
Definition stable_order (key : value -> value) (items : list value) (i j : nat) : Prop :=
  forall x y, items !! i = Some x -> items !! j = Some y ->
    key_lt (key x) (key y) = true \/ (key_lt (key y) (key x) = false /\ (i <= j)%nat).

Definition decorate (key : value -> value) (items : list value) : list Decoration :=
  imap (fun i x => mkDecoration (key x) i) items.

Definition cmp (d e : Decoration) : Z :=
  or_else (compareNumbers (rank (d_key d)) (rank (d_key e))) (Z.sgn (Z.of_nat (d_index d) - Z.of_nat (d_index e))).

#[global] Instance Ordering_cmp : Ordering cmp.
Proof.
  apply Ordering_or_else; [apply (Ordering_on (fun d => rank (d_key d))), _ |].
  apply (Ordering_on (fun d => Z.of_nat (d_index d)) (fun x y => Z.sgn (x - y))), _.
Qed.

#[local] Instance cmp_transitive : Transitive (fun d e => cmp d e <= 0).
Proof. intros d e f. apply ord_trans. Qed.

Lemma compare_rank d e :
  comparable (d_key d) (d_key e) = true -> comparable (d_key e) (d_key d) = true ->
  (compare_decorations d e <=? 0) = (cmp d e <=? 0).
Proof.
  intros H1 H2. unfold compare_decorations, cmp, or_else. rewrite !key_lt_rank by done.
  pose proof (ord_sym (cmp := compareNumbers) (rank (d_key d)) (rank (d_key e))).
  destruct (Z.ltb_spec (compareNumbers (rank (d_key d)) (rank (d_key e))) 0),
    (Z.ltb_spec (compareNumbers (rank (d_key e)) (rank (d_key d))) 0),
    (Z.eqb_spec (compareNumbers (rank (d_key d)) (rank (d_key e))) 0); lia.
Qed.

Lemma StronglySorted_map {A B} (f : A -> B) (R : A -> A -> Prop) (S : B -> B -> Prop) l :
  (forall x y, x ∈ l -> y ∈ l -> R x y -> S (f x) (f y)) -> StronglySorted R l -> StronglySorted S (f <$> l).
Proof.
  intros H Hs. revert H. induction Hs as [|x l Hl IH Hx]; intros H; cbn; constructor.
  - apply IH. set_solver.
  - rewrite Forall_fmap. rewrite Forall_forall in Hx |- *. intros y Hy. apply H; [set_solver.. | by apply Hx].
Qed.

Section sorting.
Context (key : value -> value) (items : list value).
Context (Hcomp : forall x y, x ∈ items -> y ∈ items -> comparable (key x) (key y) = true).

Lemma decorate_elem d : d ∈ decorate key items <-> exists x, items !! d_index d = Some x /\ d_key d = key x.
Proof.
  unfold decorate. rewrite list_elem_of_lookup. split.
  - intros (i & Hi). rewrite list_lookup_imap in Hi. destruct (items !! i) as [x|] eqn:Hx; [| done].
    injection Hi as <-. by exists x.
  - intros (x & Hx & Hk). exists (d_index d). rewrite list_lookup_imap, Hx. destruct d. cbn in *. by subst.
Qed.

Lemma decorated_comparable d e :
  d ∈ decorate key items -> e ∈ decorate key items -> comparable (d_key d) (d_key e) = true.
Proof using Hcomp.
  intros (x & Hx & ->)%decorate_elem (y & Hy & ->)%decorate_elem. apply Hcomp; by eapply list_elem_of_lookup_2.
Qed.

Lemma toSorted_sorted : StronglySorted (fun d e => cmp d e <= 0) (toSorted (decorate key items)).
Proof using Hcomp.
  unfold toSorted. rewrite (insertion_sort_ext _ (fun d e => cmp d e <=? 0)).
  - apply (insertion_sort_sorted (fun d e => cmp d e <=? 0)); [apply _ | |].
    + intros d e. by rewrite Z.leb_le.
    + intros d e. rewrite Z.leb_gt. pose proof (ord_sym (cmp := cmp) d e). lia.
  - intros d e Hd He. apply compare_rank; by apply decorated_comparable.
Qed.

Definition sorted_positions : list nat := d_index <$> toSorted (decorate key items).

Lemma sorted_positions_perm : sorted_positions ≡ₚ seq 0 (length items).
Proof.
  unfold sorted_positions, toSorted. rewrite insertion_sort_perm. unfold decorate.
  rewrite fmap_imap. apply reflexive_eq, list_eq. intros i. rewrite list_lookup_imap. unfold compose.
  destruct (items !! i) as [x|] eqn:Hx; cbn.
  - symmetry. apply lookup_seq. split; [done |]. by eapply lookup_lt_Some.
  - symmetry. apply lookup_seq_ge. by apply lookup_ge_None.
Qed.

Lemma sorted_positions_sorted : StronglySorted (stable_order key items) sorted_positions.
Proof using Hcomp.
  eapply StronglySorted_map; [| apply toSorted_sorted]. intros d e Hd He Hle x y Hx Hy.
  unfold toSorted in Hd, He. rewrite insertion_sort_perm in Hd, He.
  apply decorate_elem in Hd as (x' & Hx' & Hk). apply decorate_elem in He as (y' & Hy' & Hk').
  assert (x' = x) as -> by congruence. assert (y' = y) as -> by congruence.
  rewrite !key_lt_rank by (apply Hcomp; by eapply list_elem_of_lookup_2). revert Hle. unfold cmp, or_else.
  rewrite Hk, Hk'. pose proof (ord_sym (cmp := compareNumbers) (rank (key x)) (rank (key y))).
  destruct (Z.ltb_spec (compareNumbers (rank (key x)) (rank (key y))) 0); [by left |]. right.
  destruct (Z.ltb_spec (compareNumbers (rank (key y)) (rank (key x))) 0),
    (Z.eqb_spec (compareNumbers (rank (key x)) (rank (key y))) 0); lia.
Qed.

Lemma stable_order_antisym i j :
  (i < length items)%nat -> (j < length items)%nat -> stable_order key items i j -> stable_order key items j i -> i = j.
Proof using Hcomp.
  intros [x Hx]%lookup_lt_is_Some [y Hy]%lookup_lt_is_Some Hij Hji.
  specialize (Hij x y Hx Hy). specialize (Hji y x Hy Hx).
  rewrite !key_lt_rank in Hij, Hji by (apply Hcomp; by eapply list_elem_of_lookup_2).
  pose proof (ord_sym (cmp := compareNumbers) (rank (key x)) (rank (key y))).
  destruct (Z.ltb_spec (compareNumbers (rank (key x)) (rank (key y))) 0),
    (Z.ltb_spec (compareNumbers (rank (key y)) (rank (key x))) 0); try lia; destruct Hij, Hji; lia || naive_solver lia.
Qed.

Lemma sorted_positions_unique p :
  p ≡ₚ seq 0 (length items) -> StronglySorted (stable_order key items) p -> p = sorted_positions.
Proof using Hcomp.
  intros Hp Hs. apply (StronglySorted_unique_strong (stable_order key items)); [| done | apply sorted_positions_sorted |].
  - intros i j Hi Hj. rewrite Hp in Hi. rewrite sorted_positions_perm in Hj.
    apply elem_of_seq in Hi, Hj. apply stable_order_antisym; lia.
  - by rewrite Hp, sorted_positions_perm.
Qed.
End sorting.

Section decorating.
Context {C O I : Type} `{!Frames C I (list (list value))}.
Context (h : heap) (reg : registry (Id := I)) (t : Trace (C := C) (O := O))
  (a : element_callback (W := list (list value)) (C := C) (O := O)) (answer : list value -> Completion value).
Context (Hrec : recording t a answer) (key : value -> value).

Lemma decorations_ok items : forall i w, answers_ok answer key items -> Forall (fun x => nonfinite (key x) = false) items ->
  decorations h reg items i a t w
  = (inl (imap (fun j x => mkDecoration (key x) (i + j)) items), w ++ singles items).
Proof using Hrec.
  induction items as [|x items IH]; intros i w; [by rewrite app_nil_r |].
  intros [Hx Hok]%answers_ok_cons [Hf Hfin]%Forall_cons. cbn. rewrite (visit_recorded h reg t a answer Hrec), Hx.
  cbn. rewrite Hf, IH by done. cbn. rewrite Nat.add_0_r, <- app_assoc. do 3 f_equal.
  apply imap_ext. intros j y _. cbn. by rewrite Nat.add_succ_r.
Qed.

Lemma decorations_nonfinite items x post : forall i w,
  answers_ok answer key items -> Forall (fun x => nonfinite (key x) = false) items ->
  answer [x] = ok (key x) -> nonfinite (key x) = true ->
  decorations h reg (items ++ x :: post) i a t w
  = (inr (StopStandard (mkStandard arithmetic "arithmetic: nonfinite sort key" (origin t))), w ++ singles (items ++ [x])).
Proof using Hrec.
  induction items as [|y items IH]; intros i w; cbn.
  { intros _ _ Hx Hf. by rewrite (visit_recorded h reg t a answer Hrec), Hx; cbn; rewrite Hf. }
  intros [Hy Hok]%answers_ok_cons [Hf Hfin]%Forall_cons Hx Hfx.
  rewrite (visit_recorded h reg t a answer Hrec), Hy. cbn. rewrite Hf, IH by done. cbn. by rewrite <- app_assoc.
Qed.
End decorating.

(** Sorting by finite keys of one type answers the elements in the one order
    that is a permutation of the source, ascending by key, and keeps the source's
    order among elements of equal keys: another sorting algorithm with the same
    comparator answers the same.  A float key that is not finite ends the
    operation with the arithmetic failure at that element. *)
Theorem sort_by_stable {C O I} `{!Frames C I (list (list value))} h (reg : registry (Id := I))
    t (a : element_callback (C := C) (O := O)) answer s w key :
  recording t a answer ->
  (answers_ok answer key (s_items s) ->
   (forall x y, x ∈ s_items s -> y ∈ s_items s -> comparable (key x) (key y) = true) ->
   exists p,
     sortBy h reg s a t w = (ok ((fun i => default VUndefined (s_items s !! i)) <$> p), w ++ singles (s_items s))
     /\ p ≡ₚ seq 0 (length (s_items s)) /\ StronglySorted (stable_order key (s_items s)) p
     /\ forall q, q ≡ₚ seq 0 (length (s_items s)) -> StronglySorted (stable_order key (s_items s)) q -> q = p)
  /\ (forall pre x post, s_items s = pre ++ x :: post -> answers_ok answer key (pre ++ [x]) ->
      Forall (fun x => nonfinite (key x) = false) pre -> nonfinite (key x) = true ->
      sortBy h reg s a t w
      = (standard (mkStandard arithmetic "arithmetic: nonfinite sort key" (origin t)), w ++ singles (pre ++ [x]))).
Proof.
  intros Hrec. split.
  - intros Hok Hcomp. exists (sorted_positions key (s_items s)).
    split_and!; [| apply sorted_positions_perm | by apply sorted_positions_sorted | intros q; by apply sorted_positions_unique].
    unfold sortBy. rewrite (decorations_ok h reg t a answer Hrec key) by
      (done || (apply Forall_forall; intros x Hx; specialize (Hcomp x x Hx Hx); destruct (key x); try done;
                cbn in *; by destruct (isFinite _))).
    cbn [stop_bind boundary]. unfold sorted_positions. by rewrite <- list_fmap_compose.
  - intros pre x post Hs Hok Hfin Hx. unfold sortBy. rewrite Hs.
    rewrite (decorations_nonfinite h reg t a answer Hrec key) by first [done | intros y Hy; apply Hok; set_solver | apply Hok; set_solver].
    done.
Qed.

(** ** Concrete callbacks *)
Module Samples.
#[global] Instance frames : Frames Empty_set nat (list (list value)) :=
  {| enter_frame := fun c _ _ w => (inl c, w); leave_frame := fun _ _ w => (inl tt, w) |}.
Definition function_heap : heap := mkHeap {[ 0%nat := mkObject false true false true [] ]} ∅ ∅ 1.
Definition no_workers : registry (Id := nat) := mkRegistry ∅ ∅ ∅ ∅ ∅ ∅.
Definition trace : Trace (C := Empty_set) (O := nat) := mkTrace (js "site") "app" None None.
Definition no_companion (l : loc) (ops : list (option Z)) : companion_result := OutOther.
Definition no_leaf (l : loc) (m k : value) (w : list (list value)) : call_result value * list (list value) := (Unboxed, w).
Definition runner : MapBatchRunner (list (list value)) := mkRunner (fun _ _ _ w => (None, w)).
Definition origins (l : loc) : string := "app".
Definition recorder (answer : list value -> Completion value) : element_callback (C := Empty_set) (O := nat) :=
  mkCallback (VRef 0) (fun args _ _ w => (Returned (answer args), w ++ [args])).
Definition bounds_failure : StandardFailure := mkStandard bounds "bounds" "app".
(** Whether an integer is above 2; a text fails. *)
Definition above_two (v : value) : value := match v with VBigInt z => VBool (2 <? z) | _ => VNull end.
Definition ask (args : list value) : Completion value :=
  match args with
  | [VBigInt z] => ok (VBool (2 <? z))
  | _ => standard bounds_failure
  end.
(** The sum of two integers; a text fails. *)
Definition add_values (acc x : value) : value := match acc, x with VBigInt m, VBigInt n => VBigInt (m + n) | _, _ => VNull end.
Definition add_up (args : list value) : Completion value :=
  match args with
  | [VBigInt m; VBigInt n] => ok (VBigInt (m + n))
  | _ => standard bounds_failure
  end.
Definition sample : source := frozen_source [VBigInt 1; VBigInt 5; VStr (js "x"); VBigInt 9].
(** The key of a pair (here: an integer by its last digit). *)
Definition last_digit (v : value) : value := match v with VBigInt z => VBigInt (z mod 10) | _ => VNull end.
Definition by_digit (args : list value) : Completion value :=
  match args with [v] => ok (last_digit v) | _ => standard bounds_failure end.
Definition unsorted : source := frozen_source [VBigInt 32; VBigInt 11; VBigInt 22; VBigInt 41].
End Samples.

Lemma operations_visit_in_order_witness :
  unworked Samples.function_heap Samples.no_workers (Samples.recorder Samples.ask)
  /\ map Samples.function_heap Samples.no_workers Samples.no_companion Samples.origins Samples.sample
       (Samples.recorder Samples.ask) Samples.trace []
     = (failed (inr Samples.bounds_failure), [[VBigInt 1]; [VBigInt 5]; [VStr (js "x")]])
  /\ some Samples.function_heap Samples.no_workers (frozen_source [VBigInt 1; VBigInt 5; VBigInt 7])
       (Samples.recorder Samples.ask) Samples.trace [] = (ok true, [[VBigInt 1]; [VBigInt 5]])
  /\ fold Samples.function_heap Samples.no_workers Samples.no_companion Samples.no_leaf Samples.origins Samples.runner
       Samples.sample (VBigInt 0) (Samples.recorder Samples.add_up) Samples.trace []
     = (failed (inr Samples.bounds_failure), [[VBigInt 0; VBigInt 1]; [VBigInt 1; VBigInt 5]; [VBigInt 6; VStr (js "x")]]).
Proof.
  assert (unworked Samples.function_heap Samples.no_workers (Samples.recorder Samples.ask)) as Hu by (split_and!; reflexivity).
  assert (recording Samples.trace (Samples.recorder Samples.ask) Samples.ask) as Hr by (split; reflexivity).
  split; [exact Hu |]. split; [| split].
  - destruct (operations_visit_in_order Samples.function_heap Samples.no_workers Samples.no_companion Samples.no_leaf
      Samples.origins Samples.runner Samples.trace (Samples.recorder Samples.ask) Samples.ask Samples.sample [] Hr Hu)
      as (_ & H & _).
    apply (H Samples.above_two (inr Samples.bounds_failure) [VBigInt 1; VBigInt 5] (VStr (js "x")) [VBigInt 9]);
      [reflexivity | | reflexivity].
    intros y Hy. apply elem_of_cons in Hy as [->|Hy]; [reflexivity |]. apply list_elem_of_singleton in Hy as ->. reflexivity.
  - destruct (operations_visit_in_order Samples.function_heap Samples.no_workers Samples.no_companion Samples.no_leaf
      Samples.origins Samples.runner Samples.trace (Samples.recorder Samples.ask) Samples.ask
      (frozen_source [VBigInt 1; VBigInt 5; VBigInt 7]) [] Hr Hu) as (H & _).
    destruct (H Samples.above_two) as (_ & _ & _ & Hs & _); [| exact Hs].
    intros y Hy. cbn in Hy. repeat (apply elem_of_cons in Hy as [->|Hy]; [reflexivity |]). by apply elem_of_nil in Hy.
  - assert (unworked Samples.function_heap Samples.no_workers (Samples.recorder Samples.add_up)) as Hu2 by (split_and!; reflexivity).
    assert (recording Samples.trace (Samples.recorder Samples.add_up) Samples.add_up) as Hr2 by (split; reflexivity).
    destruct (operations_visit_in_order Samples.function_heap Samples.no_workers Samples.no_companion Samples.no_leaf
      Samples.origins Samples.runner Samples.trace (Samples.recorder Samples.add_up) Samples.add_up Samples.sample [] Hr2 Hu2)
      as (_ & _ & _ & H).
    apply (H Samples.add_values (VBigInt 0) (inr Samples.bounds_failure) [VBigInt 1; VBigInt 5] (VStr (js "x")) [VBigInt 9]);
      [reflexivity | by split_and! | reflexivity].
Defined.

Lemma sort_by_stable_witness :
  recording Samples.trace (Samples.recorder Samples.by_digit) Samples.by_digit
  /\ exists p, p = [1; 3; 0; 2]%nat
     /\ sortBy Samples.function_heap Samples.no_workers Samples.unsorted (Samples.recorder Samples.by_digit) Samples.trace []
        = (ok [VBigInt 11; VBigInt 41; VBigInt 32; VBigInt 22], singles (s_items Samples.unsorted))
     /\ StronglySorted (stable_order Samples.last_digit (s_items Samples.unsorted)) p.
Proof.
  assert (recording Samples.trace (Samples.recorder Samples.by_digit) Samples.by_digit) as Hr by (split; reflexivity).
  split; [exact Hr |].
  destruct (sort_by_stable Samples.function_heap Samples.no_workers Samples.trace (Samples.recorder Samples.by_digit)
    Samples.by_digit Samples.unsorted [] Samples.last_digit Hr) as [H _].
  assert (forall y, y ∈ s_items Samples.unsorted -> exists z, y = VBigInt z) as Hints.
  { intros y Hy. cbn in Hy. repeat (apply elem_of_cons in Hy as [->|Hy]; [by eexists |]). by apply elem_of_nil in Hy. }
  destruct H as (p & Hp & Hperm & Hsorted & Huniq).
  - intros y Hy. destruct (Hints y Hy) as [z ->]. reflexivity.
  - intros x y Hx Hy. destruct (Hints x Hx) as [z ->], (Hints y Hy) as [z' ->]. reflexivity.
  - exists p. rewrite Hp. assert (p = sorted_positions Samples.last_digit (s_items Samples.unsorted)) as ->.
    { symmetry. apply Huniq; [apply sorted_positions_perm |]. apply sorted_positions_sorted.
      intros x y Hx Hy. destruct (Hints x Hx) as [z ->], (Hints y Hy) as [z' ->]. reflexivity. }
    split; [vm_compute; reflexivity |]. split; [vm_compute; reflexivity | exact Hsorted].
Defined.
