(* ===== verification/ArrayPaths.v ===== *)
(** * The synchronous paths of the array operations

    When the workers are honest (they answer what the callback they are
    registered with answers, which the compiler proves before it registers them),
    [map] and [fold] answer the same on every path. *)
From stdpp Require Import base sets gmap list strings.
From Stdlib Require Import ZArith Lia.
From S2P Require Import Prelude JsNumber JsString JsValue Completion Numbers Collections Data DataFacts Arrays Callable.

#[local] Open Scope array_scope.

(** ** Sources that read as their descriptors say *)

Definition source_ok (s : source) : Prop :=
  forall n, ordinaryElements s = Some n ->
    length (s_items s) = n
    /\ forall i v, (i < n)%nat -> find_prop (props (s_object s)) (index_key i) = Some (DataProp v) -> s_items s !! i = Some v.

Lemma admitted_slots_items {A} s n (admits : value -> option A) l (back : A -> value) :
  source_ok s -> ordinaryElements s = Some n -> (forall v x, admits v = Some x -> v = back x) ->
  admitted_slots (s_object s) n admits = Some l -> s_items s = back <$> l.
Proof.
  intros Hs Hn Hb Hl. destruct (Hs n Hn) as [Hlen Hread]. apply mapM_Some_1 in Hl.
  apply list_eq_Forall2, Forall2_same_length_lookup_2.
  { rewrite length_fmap, Hlen. apply Forall2_length in Hl. by rewrite length_seq in Hl. }
  intros i v y Hv Hy. apply list_lookup_fmap_Some in Hy as (x & -> & Hx).
  destruct (Forall2_lookup_r _ _ _ _ _ Hl Hx) as (j & Hj & Ha). apply lookup_seq in Hj as [-> Hlt]. cbn in Ha.
  destruct (find_prop _ _) as [[u|]|] eqn:Hf; try done. apply Hb in Ha as ->.
  rewrite (Hread i _ Hlt Hf) in Hv. congruence.
Qed.

Lemma integerElements_items s zs : source_ok s -> integerElements s = Some zs -> s_items s = VBigInt <$> zs.
Proof.
  intros Hs. unfold integerElements. destruct (ordinaryElements s) as [n|] eqn:Hn; [| done].
  apply (admitted_slots_items s n _ _ _ Hs Hn). intros [] y; cbn; congruence.
Qed.

Lemma of_key_kind_some kind v x : of_key_kind kind v = Some x -> x = v.
Proof. destruct v; cbn; try done; case_bool_decide; congruence. Qed.

Lemma leafElements_items s kind vs :
  source_ok s -> leafElements s kind = Some vs -> s_items s = vs /\ Forall (fun v => of_key_kind kind v = Some v) vs.
Proof.
  intros Hs. unfold leafElements. case_bool_decide; [| done]. cbn [negb].
  destruct (ordinaryElements s) as [n|] eqn:Hn; [| done]. intros Hl. split.
  - rewrite <- (list_fmap_id vs). apply (admitted_slots_items s n _ _ _ Hs Hn) with (2 := Hl).
    intros v x Hx. by rewrite (of_key_kind_some _ _ _ Hx).
  - apply mapM_Some_1 in Hl. apply Forall_forall. intros v [i Hi]%list_elem_of_lookup.
    destruct (Forall2_lookup_r _ _ _ _ _ Hl Hi) as (j & _ & Ha). cbn in Ha.
    destruct (find_prop _ _) as [[u|]|]; try done. by rewrite (of_key_kind_some _ _ _ Ha) in Ha |- *.
Qed.

Lemma frozen_source_ok vs : Z.of_nat (length vs) <= MAX_SAFE -> source_ok (frozen_source vs).
Proof.
  intros Hlen n Hn. cbn [s_items].
  assert (find_prop (props (s_object (frozen_source vs))) length_key
    = Some (DataProp (VNum (num_of_Z (Z.of_nat (length vs)))))) as Hl.
  { cbn [frozen_source s_object props]. by rewrite find_prop_app, (find_prop_no_length vs (fun i => i)). }
  unfold ordinaryElements in Hn. rewrite Hl, array_length_num in Hn by done. repeat (case_match; try done).
  injection Hn as <-. split; [done |]. intros i v Hi.
  cbn [frozen_source s_object s_items props]. rewrite find_prop_app. pose proof (find_prop_imap vs 0 i) as Hf. cbn [Nat.add] in Hf. rewrite Hf.
  destruct (vs !! i) as [x|] eqn:Hx; cbn; [by intros [= ->] |].
  apply lookup_ge_None in Hx. lia.
Qed.

(** ** Caught exceptions *)

Definition stop_caught (e : thrown) (o : string) : stop :=
  match caught (A := Empty_set) e o with
  | ok x => match x with end
  | domain f => StopDomain f
  | standard f => StopStandard f
  end.

Lemma guarded_caught {W A} e o (w : W) : guarded (A := A) (caught e o) w = (inr (stop_caught e o), w).
Proof. by destruct e. Qed.

Lemma boundary_caught {W A} e o (w : W) : boundary (A := A) o (inr (stop_caught e o), w) = (caught e o, w).
Proof. by destruct e. Qed.

(** ** Honest workers *)

Section paths.
Context {W C O I : Type} `{!Frames C I W}.
Context (h : heap) (reg : registry (Id := I)).
Context (call_integer : loc -> list (option Z) -> companion_result).
Context (call_leaf : loc -> value -> value -> W -> call_result value * W).
Context (origins : loc -> string).

Record honest (a : element_callback (W := W) (C := C) (O := O)) : Prop := {
  honest_integer : forall wk zs w o, integerWorker h reg (cb_function a) = Some wk ->
    Z.of_nat (length zs) = w_arity wk ->
    let '(r, w') := cb_body a (VBigInt <$> zs) None None w in
    w' = w /\ invoke r o = match run_integer call_integer origins wk zs with inl z => ok (VBigInt z) | inr e => caught e o end;
  honest_leaf : forall leaf m k w o, mapLeafWorker h reg (cb_function a) = Some leaf ->
    of_key_kind (lw_keyKind leaf) k = Some k ->
    let '(r, w') := cb_body a [m; k] None None w in
    let '(r', w'') := call_leaf (lw_companion leaf) m k w in invoke r o = invoke r' o /\ w' = w''
}.

Context (a : element_callback (W := W) (C := C) (O := O)) (Ha : honest a) (t : Trace (C := C) (O := O)).

Lemma visit_untraced args w :
  untraced t = true ->
  visit h reg a args t w = let '(r, w') := cb_body a args None None w in guarded (invoke r (origin t)) w'.
Proof using Type.
  unfold untraced, visit, callback. destruct (context t), (owner t); try done. intros _.
  by destruct (cb_body a args None None w).
Qed.

Lemma visit_worker wk zs w :
  integerWorker h reg (cb_function a) = Some wk -> Z.of_nat (length zs) = w_arity wk -> untraced t = true ->
  visit h reg a (VBigInt <$> zs) t w
  = match run_integer call_integer origins wk zs with
    | inl z => (inl (VBigInt z), w)
    | inr e => (inr (stop_caught e (origin t)), w)
    end.
Proof using Ha.
  intros Hwk Hlen Ht. rewrite visit_untraced by done.
  pose proof (honest_integer a Ha wk zs w (origin t) Hwk Hlen) as H.
  destruct (cb_body a (VBigInt <$> zs) None None w) as [r w']. destruct H as [-> ->].
  destruct (run_integer _ _ _ _); [done | apply guarded_caught].
Qed.

Lemma observations_worker wk zs w :
  integerWorker h reg (cb_function a) = Some wk -> w_arity wk = 1 -> untraced t = true ->
  observations h reg (VBigInt <$> zs) a t w
  = match map_worker call_integer origins wk zs with
    | inl xs => (inl (VBigInt <$> xs), w)
    | inr e => (inr (stop_caught e (origin t)), w)
    end.
Proof using Ha.
  intros Hwk Har Ht. induction zs as [|z zs IH]; [done |]. cbn [fmap list_fmap observations map_worker].
  change [VBigInt z] with (VBigInt <$> [z]). rewrite (visit_worker wk) by done.
  destruct (run_integer _ _ _ _); [| done]. cbn [stop_bind].
  change (list_fmap _ _ VBigInt zs) with (VBigInt <$> zs). rewrite IH.
  by destruct (map_worker _ _ _ _).
Qed.

Lemma fold_items_worker wk zs w : forall total,
  integerWorker h reg (cb_function a) = Some wk -> w_arity wk = 2 -> untraced t = true ->
  fold_items h reg a t (VBigInt total) (VBigInt <$> zs) w
  = match fold_worker call_integer origins wk total zs with
    | inl total => (inl (VBigInt total), w)
    | inr e => (inr (stop_caught e (origin t)), w)
    end.
Proof using Ha.
  intros total Hwk Har Ht. revert total. induction zs as [|z zs IH]; intros total; [done |].
  cbn [fmap list_fmap fold_items fold_worker].
  change [VBigInt total; VBigInt z] with (VBigInt <$> [total; z]). rewrite (visit_worker wk) by done.
  destruct (run_integer _ _ _ _); [| done]. cbn [stop_bind]. apply IH.
Qed.

Lemma fold_leaf_items leaf keys : forall m w,
  mapLeafWorker h reg (cb_function a) = Some leaf -> untraced t = true ->
  Forall (fun k => of_key_kind (lw_keyKind leaf) k = Some k) keys ->
  fold_leaf call_leaf leaf (origin t) m keys w = fold_items h reg a t m keys w.
Proof using Ha.
  induction keys as [|k keys IH]; intros m w Hleaf Ht; [done |]. intros [Hk Hks]%Forall_cons.
  cbn [fold_leaf fold_items]. rewrite visit_untraced by done.
  pose proof (honest_leaf a Ha leaf m k w (origin t) Hleaf Hk) as H.
  destruct (cb_body a [m; k] None None w) as [r w1], (call_leaf (lw_companion leaf) m k w) as [r' w2].
  destruct H as [-> ->]. destruct (guarded (invoke r' (origin t)) w2) as [[x|e] w3]; cbn [stop_bind]; [| done].
  by apply IH.
Qed.

Lemma admitted_honest arity wk : admitted_worker h reg a arity t = Some wk ->
  integerWorker h reg (cb_function a) = Some wk /\ w_arity wk = arity /\ untraced t = true.
Proof using Type.
  unfold admitted_worker. destruct (integerWorker _ _ _); [| done].
  destruct ((_ =? _) && _) eqn:Hc; [| done]. intros [= ->]. split_bools. done.
Qed.

Lemma map_honest s w : source_ok s -> map h reg call_integer origins s a t w = map_slow h reg s a t w.
Proof using Ha.
  intros Hs. unfold map. destruct (admitted_worker h reg a 1 t) as [wk|] eqn:Hwk; [| done].
  apply admitted_honest in Hwk as (Hwk & Har & Ht). destruct (integerElements s) as [zs|] eqn:Hz; [| done].
  apply integerElements_items in Hz; [| done]. unfold map_slow. rewrite Hz, (observations_worker wk) by done.
  destruct (map_worker _ _ _ _); [done |]. by rewrite boundary_caught.
Qed.

Lemma fold_leaves_honest s initial w : source_ok s -> fold_leaves h reg call_leaf s initial a t w = fold_slow h reg s initial a t w.
Proof using Ha.
  intros Hs. unfold fold_leaves. destruct (mapLeafWorker _ _ _) as [leaf|] eqn:Hleaf; [| done].
  destruct (untraced t) eqn:Ht; [| done]. destruct (leafElements s _) as [keys|] eqn:Hk; [| done].
  apply leafElements_items in Hk as [Hk Hkind]; [| done]. unfold fold_slow. by rewrite Hk, (fold_leaf_items leaf).
Qed.

(** The fold of integers is the callback's; any other is the batches'. *)
Lemma fold_honest runner s initial w : source_ok s ->
  fold h reg call_integer call_leaf origins runner s initial a t w = fold_slow h reg s initial a t w
  \/ fold h reg call_integer call_leaf origins runner s initial a t w = fold_batches h reg call_leaf runner s initial a t w.
Proof using Ha.
  intros Hs. unfold fold. destruct (admitted_worker h reg a 2 t) as [wk|] eqn:Hwk; [| by right].
  destruct initial as [| | | |total| |]; try (by right). destruct (integerElements s) as [zs|] eqn:Hz; [| by right].
  apply admitted_honest in Hwk as (Hwk & Har & Ht). apply integerElements_items in Hz; [| done]. left. unfold fold_slow. rewrite Hz.
  rewrite (fold_items_worker wk) by done. destruct (fold_worker _ _ _ _ _); [done |]. by rewrite boundary_caught.
Qed.
End paths.

(** ** Folding an immutable map over an array

    The batch runner of [Collections] behind the interface of the array operations,
    and the callback that gets, inserts and replaces key by key. *)

Definition jsval_of_value (v : value) : jsval :=
  match v with
  | VUndefined => JUndefined
  | VNull => JNull
  | VBool b => JBool b
  | VNum x => JNum x
  | VBigInt z => JBigInt z
  | VStr s => JStr s
  | VRef _ => JObject []
  end.

Definition value_of_jsval (v : jsval) : value :=
  match v with
  | JNull => VNull
  | JBool b => VBool b
  | JNum x => VNum x
  | JBigInt z => VBigInt z
  | JStr s => VStr s
  | _ => VUndefined
  end.

(** A map token is an object. *)
Definition operand_of_value (v : value) : operand :=
  match v with VRef t => Token t | v => Other (jsval_of_value v) end.

Definition value_of_operand (o : operand) : value :=
  match o with Token t => VRef t | Other v => value_of_jsval v end.

Lemma operand_value_operand v : operand_of_value (value_of_operand (operand_of_value v)) = operand_of_value v.
Proof. by destruct v. Qed.

Definition completion_map {A B} (f : A -> B) (c : Completion A) : Completion B :=
  match c with ok v => ok (f v) | domain e => domain e | standard e => standard e end.

Section counting.
Context (ids : MapIdentities) (kind : KeyKind) (absent_ : Key -> run Z) (present : Key -> Z -> run Z).
Context {C O I : Type} `{!Frames C I mstate} (h : heap) (reg : registry (Id := I)).

(** The callback of the fold: one transition through [get], [insert] and
    [replace]. *)
Definition transition_body (args : list value) (s : mstate) : call_result value * mstate :=
  match args with
  | [m; k] =>
      match key_of kind (jsval_of_value k) with
      | Some key =>
          match transition ids kind absent_ present (operand_of_value m) key s with
          | Done (c, s) => (Returned (completion_map value_of_operand c), s)
          | Thrown f => (Raised (ThrownStandard f), s)
          end
      | None => (Raised (ThrownStandard (resource_state_failure "can:collections:set")), s)
      end
  | _ => (Unboxed, s)
  end.

Definition transition_callback (f : loc) : element_callback (W := mstate) (C := C) (O := O) :=
  mkCallback (VRef f) (fun args _ _ => transition_body args).

Definition batch_runner : MapBatchRunner mstate :=
  mkRunner (fun _ initial keys s =>
    match mapM (fun k => key_of kind (jsval_of_value k)) keys with
    | Some keys =>
        match runBatch ids (operand_of_value initial) keys absent_ present s with
        | Some (c, s) => (Some (completion_map value_of_operand c), s)
        | None => (None, s)
        end
    | None => (None, s)
    end).

(** Generated code sees the entries of a map, not its token. *)
Definition same_map (a b : Completion value * mstate) : Prop :=
  match a, b with
  | (ok v, s), (ok v', s') =>
      exists m, backing ids (operand_of_value v) s = Done m /\ backing ids (operand_of_value v') s' = Done m
  | (domain f, _), (domain f', _) => f = f'
  | (standard f, _), (standard f', _) => f = f'
  | _, _ => False
  end.

(** The names of the key kinds. *)
Definition kind_name : jstr := match kind with int_key => js "int" | bool_key => js "bool" | str_key => js "str" end.

Lemma key_kind_key k : of_key_kind kind_name k = Some k ->
  exists key, key_of kind (jsval_of_value k) = Some key /\ key_of kind (jsval_of_key key) = Some key.
Proof.
  unfold kind_name. destruct kind, k; try done; intros _; eexists; split; done.
Qed.

Lemma keys_of_kind keys :
  Forall (fun k => of_key_kind kind_name k = Some k) keys ->
  exists ks, mapM (fun k => key_of kind (jsval_of_value k)) keys = Some ks
    /\ Forall (fun k => key_of kind (jsval_of_key k) = Some k) ks.
Proof.
  induction 1 as [|k keys Hk _ (ks & IH & Hks)]; [by exists [] |].
  destruct (key_kind_key k Hk) as (key & Hkey & Hkk). exists (key :: ks). cbn. rewrite Hkey. cbn. rewrite IH. by split; [| constructor].
Qed.

Lemma transition_operand m key s :
  match transition ids kind absent_ present m key s with
  | Done (ok m', _) => m' = m \/ exists t, m' = Token t
  | _ => True
  end.
Proof.
  unfold transition, getBody, insertBody, replaceBody, published, own.
  destruct (backing ids m s) as [source|]; cbn [run_bind]; [| done].
  destruct (checkKey kind _) as [k|]; cbn [run_bind]; [| done].
  destruct (map_get source k) as [[]|]; cbn [error run_bind]; try (by left).
  - destruct (present key z); cbn; [| done]. destruct (negb _); cbn; eauto.
  - destruct (absent_ key); cbn; [| done]. destruct (map_has _ _); cbn; eauto.
Qed.

Lemma fold_items_transitions t f keys ks : forall m s,
  untraced t = true -> mapM (fun k => key_of kind (jsval_of_value k)) keys = Some ks ->
  let r := fold_items h reg (transition_callback f) t m keys s in
  match fold_transitions ids kind absent_ present (operand_of_value m) ks s with
  | Done (ok m', s') => exists v, r = (inl v, s') /\ operand_of_value v = m'
  | Done (domain e, s') => r = (inr (StopDomain e), s')
  | Done (standard e, s') => r = (inr (StopStandard e), s')
  | Thrown e => exists s', r = (inr (StopStandard e), s')
  end.
Proof.
  revert ks. induction keys as [|k keys IH]; intros ks m s Ht.
  { intros [= <-]. cbn. by exists m. }
  cbn [mapM]. intros (key & Hkey & (rest & Hks & [= <-])%bind_Some)%bind_Some. cbn [fold_items fold_transitions].
  rewrite visit_untraced by done. cbn [cb_body transition_callback transition_body]. rewrite Hkey.
  pose proof (transition_operand (operand_of_value m) key s) as Hop.
  destruct (transition ids kind absent_ present (operand_of_value m) key s) as [[c s']|e]; cbn [run_bind].
  - destruct c as [m'|e|e]; cbn [completion_map invoke guarded stop_bind]; [| done..].
    assert (operand_of_value (value_of_operand m') = m') as Hm.
    { destruct Hop as [-> | [x ->]]; [apply operand_value_operand | done]. }
    specialize (IH rest (value_of_operand m') s' Ht Hks). cbn in IH. by rewrite Hm in IH.
  - by exists s.
Qed.

(** The workers of the callback: none of integers, none of leaves, and its batch
    worker, if any, has its key kind. *)
Record batch_only (f : loc) : Prop := {
  bo_integer : integerWorkers reg !! f = None;
  bo_leaf : mapLeafWorkers reg !! f = None;
  bo_kind : forall b, mapBatchWorkers reg !! f = Some b -> bw_keyKind b = kind_name
}.

Lemma batch_only_honest f call_integer call_leaf origins :
  batch_only f -> honest h reg call_integer call_leaf origins (transition_callback f).
Proof.
  intros [Hi Hl _]. split.
  - intros wk zs w o. unfold integerWorker. cbn. destruct (objects h !! f) as [x|]; [| done].
    destruct (is_function x); [by rewrite Hi | done].
  - intros leaf m k w o. unfold mapLeafWorker. cbn. destruct (objects h !! f) as [x|]; [| done].
    destruct (is_function x); [by rewrite Hl | done].
Qed.

(** What the batch runner answers is what the callback per key answers. *)
Lemma batch_agrees f b initial keys s t :
  batch_only f -> mapBatchWorker h reg (VRef f) = Some b -> untraced t = true -> wf s ->
  Forall (fun k => of_key_kind (bw_keyKind b) k = Some k) keys ->
  match run_batch batch_runner b initial keys s with
  | (Some c, s') => preserves s s' /\ same_map (c, s') (boundary (origin t) (fold_items h reg (transition_callback f) t initial keys s))
  | (None, s') => s' = s
  end.
Proof.
  intros [_ _ Hk] Hb Ht Hs Hkeys. assert (bw_keyKind b = kind_name) as Hkind.
  { apply Hk. revert Hb. unfold mapBatchWorker. cbn. destruct (objects h !! f) as [x|]; [| done]. by destruct (is_function x). }
  rewrite Hkind in Hkeys. destruct (keys_of_kind keys Hkeys) as (ks & Hks & Hkk). cbn [run_batch batch_runner]. rewrite Hks.
  pose proof (batch_equals_fold ids kind s (operand_of_value initial) ks absent_ present Hs Hkk) as H.
  pose proof (fold_items_transitions t f keys ks initial s Ht Hks) as Hf. cbn zeta in Hf.
  destruct (runBatch ids (operand_of_value initial) ks absent_ present s) as [[[token|e|e] s']|] eqn:Hrun; [| done | | done].
  - destruct H as (token' & s'' & m & Hft & Hb1 & Hb2 & Hp & _). split; [done |]. rewrite Hft in Hf. destruct Hf as (v & -> & Hv).
    exists m. cbn [completion_map]. rewrite Hv. split; [| done].
    enough (operand_of_value (value_of_operand token) = token) as -> by done.
    assert (token = operand_of_value initial \/ exists x, token = Token x) as [-> | [x ->]];
      [| apply operand_value_operand | done].
    revert Hrun. unfold runBatch, published, own. repeat (case_match; try done); intros [= <- <-]; eauto.
  - destruct H as [-> Hft]. split; [by intros ? |]. rewrite Hft in Hf. by destruct Hf as [s1 ->].
Qed.
End counting.

(** ** Property *)

(** C38. The path an operation takes is not observable.  With honest integer and leaf
    workers [map] answers and leaves what the callback per element would, and so
    does [fold] of a callback without a batch worker.  With the batch runner of
    immutable maps, a callback that gets, inserts and replaces key by key, and no
    worker but a batch of its key kind, the fold is that of the callback, or keeps
    every map there was and answers the same failure or a map with the same
    entries. *)
Theorem fast_paths_agree :
  (forall {W C O I} `{!Frames C I W} h (reg : registry (Id := I)) call_integer call_leaf origins runner
      (a : element_callback (C := C) (O := O)) t s initial w,
    honest h reg call_integer call_leaf origins a -> source_ok s ->
    map h reg call_integer origins s a t w = map_slow h reg s a t w
    /\ (mapBatchWorker h reg (cb_function a) = None ->
        fold h reg call_integer call_leaf origins runner s initial a t w = fold_slow h reg s initial a t w))
  /\ (forall ids kind absent_ present {C O I} `{!Frames C I mstate} h (reg : registry (Id := I)) call_integer call_leaf origins
      f (t : Trace (C := C) (O := O)) s initial w,
    batch_only kind reg f -> source_ok s -> wf w ->
    let a := transition_callback ids kind absent_ present f in
    let fast := fold h reg call_integer call_leaf origins (batch_runner ids kind absent_ present) s initial a t w in
    let slow := fold_slow h reg s initial a t w in
    fast = slow \/ (preserves w fast.2 /\ same_map ids fast slow)).
Proof.
  split.
  - intros W C O I HF h reg call_integer call_leaf origins runner a t s initial w Ha Hs.
    split; [by eapply map_honest |]. intros Hb.
    destruct (fold_honest h reg call_integer call_leaf origins a Ha t runner s initial w Hs) as [H | ->]; [done |].
    unfold fold_batches. rewrite Hb. by eapply fold_leaves_honest.
  - intros ids kind absent_ present C O I HF h reg call_integer call_leaf origins f t s initial w Hf Hs Hw a fast slow. subst fast slow.
    assert (honest h reg call_integer call_leaf origins a) as Ha by by eapply batch_only_honest.
    destruct (fold_honest h reg call_integer call_leaf origins a Ha t (batch_runner ids kind absent_ present) s initial w Hs) as [H | ->];
      [by left |].
    unfold fold_batches. rewrite (fold_leaves_honest h reg call_integer call_leaf origins a Ha t s) by done.
    destruct (mapBatchWorker _ _ _) as [b|] eqn:Hb; [| by left].
    destruct (untraced t) eqn:Ht; [| by left]. destruct (leafElements s _) as [keys|] eqn:Hk; [| by left].
    apply leafElements_items in Hk as [Hk Hkind]; [| done].
    pose proof (batch_agrees ids kind absent_ present h reg f b initial keys w t Hf Hb Ht Hw Hkind) as H.
    destruct (run_batch _ b initial keys w) as [[c|] w']; [right | left; rewrite H; by eapply fold_leaves_honest].
    unfold fold_slow. rewrite Hk. exact H.
Qed.

(** *** Counting words *)
Module Counting.
Definition function_heap : heap := mkHeap {[ 9%nat := mkObject false true false true [] ]} ∅ ∅ 10.
Definition worker : MapBatchWorker := mkBatchWorker 0 1 (js "str") 2 3.
Definition workers : registry (Id := nat) := mkRegistry ∅ ∅ ∅ ∅ {[ 9%nat := worker ]} ∅.
#[global] Instance frames : Frames Empty_set nat mstate :=
  {| enter_frame := fun c _ _ w => (inl c, w); leave_frame := fun _ _ w => (inl tt, w) |}.
Definition trace : Trace (C := Empty_set) (O := nat) := mkTrace (js "site") "app" None None.
Definition words : source := frozen_source [VStr (js "b"); VStr (js "a"); VStr (js "b")].
Definition count : element_callback (W := mstate) (C := Empty_set) (O := nat) :=
  transition_callback Words.ids str_key Words.one Words.bump 9.
Definition no_companion (l : loc) (ops : list (option Z)) : companion_result := OutOther.
Definition no_leaf (l : loc) (m k : value) (s : mstate) : call_result value * mstate := (Unboxed, s).
Definition runner : MapBatchRunner mstate := batch_runner Words.ids str_key Words.one Words.bump.
Definition origins (l : loc) : string := "app".
End Counting.

Lemma fast_paths_agree_witness :
  batch_only str_key Counting.workers 9
  /\ exists v s m,
    fold Counting.function_heap Counting.workers Counting.no_companion Counting.no_leaf Counting.origins
      Counting.runner Counting.words (VRef 0) Counting.count Counting.trace Words.s1 = (ok v, s)
    /\ backing Words.ids (operand_of_value v) s = Done m
    /\ m = [(Collections.KStr (js "a"), JBigInt 2); (Collections.KStr (js "b"), JBigInt 2)]
    /\ same_map Words.ids (ok v, s)
         (fold_slow Counting.function_heap Counting.workers Counting.words (VRef 0) Counting.count Counting.trace Words.s1).
Proof.
  assert (batch_only str_key Counting.workers 9) as Ha.
  { split; [reflexivity | reflexivity |]. intros b Hb. change (Some Counting.worker = Some b) in Hb. by injection Hb as <-. }
  split; [exact Ha |].
  assert (source_ok Counting.words) as Hs by (apply frozen_source_ok; vm_compute; discriminate).
  pose proof (proj2 fast_paths_agree Words.ids str_key Words.one Words.bump Empty_set nat nat _ Counting.function_heap Counting.workers
    Counting.no_companion Counting.no_leaf Counting.origins 9%nat Counting.trace Counting.words (VRef 0) Words.s1
    Ha Hs Words_wf) as [H|[_ H]].
  - exfalso. vm_compute in H. discriminate H.
  - do 3 eexists. split; [vm_compute; reflexivity |]. split; [vm_compute; reflexivity |]. split; [reflexivity |].
    exact H.
Defined.
